(* ===== verification/_CoqProject ===== *)
-Q . S2P
Prelude.v
Mem.v
Comp.v
Varint.v
Pb.v
PbEnv.v
PbCommon.v
OStream.v
EncodeLogic.v
WireSpec.v
PbEncode.v
EncodeProps.v
IStream.v
StreamLogic.v
StreamProps.v
PbDecode.v
IterLogic.v
DecodeLogic.v
DecodeProps.v
Sample.v
Findings.v
Base64.v
Base64Props.v
Coding.v
CodingProps.v
Comparator.v
DbFormat.v
DbFormatProps.v
FilterBlock.v
FilterBlockProps.v
Status.v
Iter.v
Block.v
BlockProps.v
Crc.v
CrcProps.v
Interfaces.v
Log.v
LogProps.v
Arena.v
SkipList.v
SkipListProps.v
SkipSpec.v
MemTable.v
MemTableProps.v
WriteBatch.v
WriteBatchProps.v
Merger.v
MergerProps.v
TwoLevel.v
TwoLevelProps.v
Format.v
FormatProps.v
Cache.v
CacheProps.v
CacheSharded.v
Table.v
TableLayout.v
TableBuilder.v
TableFinish.v
TableRead.v
TableCorrect.v
DbIter.v
DbIterProps.v
DbIterCorrect.v
FileName.v
FileNameProps.v
VersionEdit.v
VersionEditProps.v
VersionSet.v
VersionProps.v
VersionGet.v
VersionBuild.v
TableCache.v
Compact.v
CompactProps.v
StoreFindings.v
Witness.v
LdbWitness.v
TableWitness.v
