(* ===== verification/Prelude.v ===== *)
(** * Verification of the C core of job-finder's dependencies

    job-finder is an iOS application whose own code (Swift view controllers) is
    user interface around Firebase.  The program logic of the repository is in
    the libraries under src/job-finder/Pods/ that the build compiles: the
    protocol-buffer library nanopb (Pods/nanopb/), the Base64 code of the
    web-socket client (fbase64.c in Pods/FirebaseDatabase/) and the storage
    engine LevelDB (Pods/leveldb-library/), on which FirebaseDatabase keeps its
    persistent cache.  This library models those and proves what their callers
    rely on.

    ** How the parts work together

    nanopb walks a message structure in memory with a field iterator driven by
    descriptor tables and writes it to an output stream, or fills it from an
    input stream.  In LevelDB an update goes as a write batch into the log and
    from there into the memtable (a skip list over an arena).  Full memtables
    become tables: blocks of sorted entries, a filter block and an index block,
    each with a checksum.  Tables are read through an LRU cache by iterators that
    are stacked: block iterators under a two-level iterator, tables and memtables
    under a merging iterator, and on top the iterator of the database, which
    hides old versions and deleted keys.  Which tables there are, in which levels,
    is a version; version edits lead from one to the next, and a point lookup goes
    through the levels of a version and, by way of a cache of open tables, into
    the tables that may have the key.  A compaction merges tables of two levels
    into new ones and leaves out the versions that nobody can see.

    ** Shared files

    Prelude has the notations, generic lemmas, hint databases and tactics.  Mem
    is byte-addressed memory (unmapped, indeterminate and initialised cells),
    Comp the monad of the nanopb functions ([Ok], [Fail], [Ub], [Timeout]).
    Varint is the reference definition of varints and zig-zag integers that
    nanopb and LevelDB are both compared with.

    ** nanopb

    - Pb: pb.h.  PbEnv: the stream structures, and everything the library calls
      but does not define (callbacks, user streams, allocator) as a type class.  PbCommon: pb_common.c.
    - OStream, PbEncode: pb_encode.c, function by function.  IStream, PbDecode:
      pb_decode.c, function by function, with PB_ENABLE_MALLOC.
    - WireSpec: what bytes a structure in memory stands for, as a relation that
      knows nothing of streams or of the order of evaluation.  EncodeLogic,
      StreamLogic and DecodeLogic: program logics (writing exactly some bytes,
      reading exactly some bytes, decoding safely inside a region).  IterLogic:
      the field iterator walks a descriptor table in a circle.
    - EncodeProps: [pb_encode] implements WireSpec.  StreamProps: varints against
      the reference, 32-bit ones of any length, round trips of the primitives.  DecodeProps: whole calls of
      [pb_decode] are free of undefined behaviour and terminate on every input.
      Findings: a refused allocation leaves a wrong count behind, and programs on
      which the decoder goes wrong.
    - Sample, Witness: a message type with every kind of static field, on which
      the theorems are used.

    ** Base64

    Base64: [f_b64_ntop] and [f_b64_pton] on arrays.  Base64Props: equivalence
    with RFC 4648, round trip, no access outside the target.

    ** LevelDB

    Every class of the C++ code is a record of its data members with one
    definition per method, under the method's name (with a prefix where several
    classes have a method of that name).  Abstract classes are type classes:
    [Comparator], [FilterPolicy], [Iterator], [Cache], [WritableFile],
    [SequentialFile], [RandomAccessFile], [Env], [RandomAccessEnv], [Handler],
    [Snappy], [Allocator].  Their
    contracts ([ComparatorOk], [FilterPolicyOk], [IteratorOk], [CacheOk] and the
    contracts of files) are type classes too: a client is proved against the
    contract, an implementation proves its instance.

    - Coding, CodingProps: util/coding.  Comparator: include/leveldb/slice.h and
      the comparators.  DbFormat, DbFormatProps: db/dbformat; internal keys are
      ordered by user key and then newest first.  Status, Iter: status.h and the
      iterator interface with its contract (positions in a list of entries).
    - FilterBlock, FilterBlockProps: util/hash.cc, util/bloom.cc,
      table/filter_block.cc; a filter never excludes a key that was added.
    - Crc, CrcProps: util/crc32c.cc is the bitwise CRC-32C.  Interfaces: the files of
      env.h and include/leveldb/cache.h with their contracts.  Log, LogProps: db/log_writer.cc, db/log_reader.cc;
      after a crash the reader returns all that was known to be written and a
      prefix of the rest.
    - Arena: util/arena.cc.  SkipList, SkipListProps, SkipSpec:
      db/skiplist.h with insertion as a sequence of stores, so that readers run
      between any two of them.  MemTable, MemTableProps: db/memtable.cc.
      WriteBatch, WriteBatchProps: db/write_batch.cc.
    - Block, BlockProps: table/block_builder.cc, table/block.cc.  Merger,
      MergerProps: table/merger.cc.  TwoLevel, TwoLevelProps:
      table/two_level_iterator.cc.  DbIter, DbIterProps, DbIterCorrect:
      db/db_iter.cc; over any iterator of internal keys it is an iterator over
      what a snapshot shows.
    - Format, FormatProps: table/format.cc.  Cache, CacheProps, CacheSharded:
      util/cache.cc with its memory, and that it keeps the contract.  Table:
      table/table.cc; TableBuilder: table/table_builder.cc; TableLayout: what a
      table file is; TableFinish: the builder writes one;
      TableRead: the reader reads one; TableCorrect: both together.
    - FileName, FileNameProps: util/logging.cc, db/filename.cc and the part of
      util/env.cc that SetCurrentFile uses; names are recognised exactly, and
      CURRENT is never half written.  VersionEdit, VersionEditProps:
      db/version_edit.
    - VersionSet: of db/version_set.cc the search in the levels, the choice of
      compactions and their inputs, and the builder of versions.  VersionProps:
      overlaps and the iterator over a level.  VersionGet: [Version::Get] returns
      the newest visible version, against the class [TableGetter] with the
      contract [TableGetterOk].  VersionBuild: an edit keeps the invariant of the
      levels.  TableCache: db/table_cache.cc, which keeps that contract over any
      two lawful caches and any files that TableLayout describes.
    - Compact: [DoCompactionWork] of db/db_impl.cc with its output files, and
      db/builder.cc.  CompactProps: a compaction is a sequence of decisions on
      its entries that no reader at a live snapshot can notice; [BuildTable]
      writes a table of exactly the entries of its iterator.
    - StoreFindings: executions of LevelDB definitions on inputs that show a
      fault.  LdbWitness, TableWitness: the theorems on concrete inputs.

    ** Fuel and bounds

    Loops and recursions that are not structural take fuel; running out of it is
    a result of its own ([Timeout], or [None]) and every theorem excludes it, by
    a bound in its hypotheses or by a body that computes enough fuel from its
    arguments.  nanopb: the depth of nesting of messages ([pb_encode], and the
    region of [pb_decode]) and one round per byte or field.  Block iterators: the
    number of bytes of the block; searches of the skip list: the number of nodes
    and levels; [ReadRecord]: linear in what is left of the file; [DBIter]: the
    number of internal entries, and for the sampling of reads two draws per byte,
    because the generator never gives two periods of zero in a row;
    [DoCompactionWork] and [BuildTable]: the number of entries;
    [GetOverlappingInputs]: twice the number of files, since every restart leaves
    an end of a file less outside the range; [FindFile]: the number of files.
    The ids of a block cache and the lookups they are enough for are counted
    ([ids] and [tables_ok]).

    Machine integers have their widths: [u8], [u32], [u64] and the like wrap, and
    the theorems state the sizes up to which nothing overflows.  LevelDB's
    [kLittleEndian] is a parameter everywhere.  A failed assertion is [None]: the
    theorems that give a result also show that no assertion fails.

    ** Not modelled

    - The application, FirebaseDatabase, FirebaseAuth, FirebaseCore and the other
      pods in Objective-C: user interface, network and service clients.
    - LevelDB's repair.cc, dumpfile.cc, c.cc, env_posix.cc, the tests, and
      db_impl.cc but for compactions: threads, files and scheduling, over the
      components that are modelled.  What other threads do between the rounds of
      a compaction is a parameter; its statistics are left out.  Of version_set.cc,
      LogAndApply and Recover (the manifest file and the mutex), the reference counts of versions and
      files, the countdown of seeks, and the scores of levels, which are doubles.
    - Memory ordering: the skip list is sequentially consistent.  The mutexes of
      the cache: the operations of a shard follow one another.  The arena is
      threaded through the memtable, not through the skip list, whose nodes are
      indices.
    - The capacity of a [std::string], the release of memory by destructors
      other than those that matter to the cache and to iterators.
    - Snappy (the build does not have it; it is a parameter), and the SSE 4.2
      branch of the checksum.  The address of the buffer of [Extend] is a
      parameter; callers pass 0, which no result depends on. *)
From Stdlib Require Export ZArith Lia Bool.
From stdpp Require Export base gmap list strings.
From coqutil Require Export Byte Word.LittleEndianList.
From coqutil Require Export Z.bitblast.

#[global] Open Scope Z_scope.
#[global] Set Default Goal Selector "!".

Create HintDb pb discriminated.
Create Rewrite HintDb pb.

(** ** C integers at their width *)

Definition u8 (z : Z) : Z := z mod 2 ^ 8.
Definition u32 (z : Z) : Z := z mod 2 ^ 32.
Definition u64 (z : Z) : Z := z mod 2 ^ 64.

(** Conversion to a [w]-bit two's complement integer. *)
Definition sint (w z : Z) : Z :=
  let m := z mod 2 ^ w in
  if m <? 2 ^ (w - 1) then m else m - 2 ^ w.

Definition s8 : Z -> Z := sint 8.
Definition s16 : Z -> Z := sint 16.
Definition s32 : Z -> Z := sint 32.
Definition s64 : Z -> Z := sint 64.

Lemma u8_id z : 0 <= z < 2 ^ 8 -> u8 z = z.
Proof. apply Z.mod_small. Qed.
Lemma u32_id z : 0 <= z < 2 ^ 32 -> u32 z = z.
Proof. apply Z.mod_small. Qed.
Lemma u64_id z : 0 <= z < 2 ^ 64 -> u64 z = z.
Proof. apply Z.mod_small. Qed.
Lemma u32_range z : 0 <= u32 z < 2 ^ 32.
Proof. by apply Z.mod_pos_bound. Qed.
Lemma u64_range z : 0 <= u64 z < 2 ^ 64.
Proof. by apply Z.mod_pos_bound. Qed.

(** Exclusive or keeps the width. *)
Lemma lxor_range n a b : 0 < n -> 0 <= a < 2 ^ n -> 0 <= b < 2 ^ n -> 0 <= Z.lxor a b < 2 ^ n.
Proof.
  intros Hn [Ha Ha'] [Hb Hb']. assert (0 <= Z.lxor a b) as Hnn by (apply Z.lxor_nonneg; lia). split; [done|].
  destruct (decide (Z.lxor a b = 0)) as [->|]; [lia|].
  apply Z.log2_lt_pow2; [lia|]. eapply Z.le_lt_trans; [by apply Z.log2_lxor|].
  assert (forall x, 0 <= x -> x < 2 ^ n -> Z.log2 x < n) as Hlog.
  { intros x Hx Hx'. destruct (decide (x = 0)) as [->|]; [done|]. apply Z.log2_lt_pow2; lia. }
  pose proof (Hlog a Ha Ha'). pose proof (Hlog b Hb Hb'). lia.
Qed.

Lemma sint_range w z : 0 < w -> - 2 ^ (w - 1) <= sint w z < 2 ^ (w - 1).
Proof.
  intros Hw. unfold sint.
  assert (2 ^ w = 2 * 2 ^ (w - 1)) as E.
  { rewrite <- Z.pow_succ_r by lia. f_equal. lia. }
  pose proof (Z.mod_pos_bound z (2 ^ w) ltac:(lia)).
  destruct (Z.ltb_spec (z mod 2 ^ w) (2 ^ (w - 1))); lia.
Qed.

(** A signed value survives the trip through its unsigned representation. *)
Lemma sint_id w z : 0 < w -> - 2 ^ (w - 1) <= z < 2 ^ (w - 1) -> sint w z = z.
Proof.
  intros Hw Hz. unfold sint.
  assert (2 ^ w = 2 * 2 ^ (w - 1)) as E.
  { rewrite <- Z.pow_succ_r by lia. f_equal. lia. }
  destruct (decide (0 <= z)).
  - rewrite Z.mod_small by lia. destruct (Z.ltb_spec z (2 ^ (w - 1))); lia.
  - assert (z mod 2 ^ w = z + 2 ^ w) as ->.
    { symmetry. apply Z.mod_unique_pos with (-1); lia. }
    destruct (Z.ltb_spec (z + 2 ^ w) (2 ^ (w - 1))); lia.
Qed.

Lemma sint_mod w z : 0 < w -> sint w (z mod 2 ^ w) = sint w z.
Proof. intros. unfold sint. by rewrite Z.mod_mod by lia. Qed.

(** ** Bytes *)

Abbreviation byte_val := byte.unsigned.
Abbreviation byte_of := byte.of_Z.

Lemma byte_val_range (b : byte) : 0 <= byte_val b < 256.
Proof. exact (byte.unsigned_range b). Qed.

Lemma byte_val_of z : byte_val (byte_of z) = z mod 256.
Proof. exact (byte.unsigned_of_Z z). Qed.

Lemma byte_of_val b : byte_of (byte_val b) = b.
Proof. apply byte.of_Z_unsigned. Qed.
#[export] Hint Rewrite byte_val_of byte_of_val : pb.

#[global] Instance byte_eq_dec : EqDecision Init.Byte.byte.
Proof. exact Byte.byte_eq_dec. Defined.
#[global] Instance byte_countable : Countable Init.Byte.byte := inj_countable' byte_val byte_of byte_of_val.

(** ** Bit arithmetic used by every codec *)

Lemma Z_testbit_high a i n : 0 <= a < 2 ^ n -> 0 <= n <= i -> Z.testbit a i = false.
Proof.
  intros Ha Hi. apply Z.testbit_false; [lia|].
  rewrite Z.div_small; [done|].
  split; [lia|]. apply Z.lt_le_trans with (2 ^ n); [lia|].
  apply Z.pow_le_mono_r; lia.
Qed.

(** [lor] of disjoint bit ranges is addition. *)
Lemma lor_disjoint_add a b n :
  0 <= n -> 0 <= a < 2 ^ n -> Z.lor a (Z.shiftl b n) = a + b * 2 ^ n.
Proof.
  intros Hn Ha. rewrite <- Z.shiftl_mul_pow2 by lia.
  assert (Z.land a (Z.shiftl b n) = 0) as E.
  { apply Z.bits_inj'; intros i Hi. rewrite Z.land_spec, Z.bits_0.
    destruct (decide (i < n)).
    - rewrite Z.shiftl_spec_low by lia. by rewrite andb_false_r.
    - rewrite (Z_testbit_high a i n); [done|lia..]. }
  rewrite Z.add_nocarry_lxor by done.
  symmetry. by apply Z.lxor_lor.
Qed.

(** ** Lists *)

Lemma take_drop_length_le {A} (l : list A) n :
  (n <= length l)%nat -> length (take n l) = n.
Proof. intros. rewrite length_take. lia. Qed.

(** [case_if] destructs the condition of the [if] in the goal. *)
Ltac case_if :=
  match goal with
  | |- context [if ?b then _ else _] =>
      match type of b with
      | bool => destruct b eqn:?
      | _ => destruct b
      end
  end.

(** Turn boolean comparisons of Z in the context into propositions. *)
Ltac zify_bool :=
  repeat match goal with
  | H : (_ <? _) = true |- _ => apply Z.ltb_lt in H
  | H : (_ <? _) = false |- _ => apply Z.ltb_ge in H
  | H : (_ <=? _) = true |- _ => apply Z.leb_le in H
  | H : (_ <=? _) = false |- _ => apply Z.leb_gt in H
  | H : (_ =? _) = true |- _ => apply Z.eqb_eq in H
  | H : (_ =? _) = false |- _ => apply Z.eqb_neq in H
  | H : negb _ = true |- _ => apply negb_true_iff in H
  | H : negb _ = false |- _ => apply negb_false_iff in H
  | H : _ && _ = true |- _ => apply andb_true_iff in H; destruct H
  | H : _ || _ = false |- _ => apply orb_false_iff in H; destruct H
  end.

Lemma Forall2_In_zip {A B} (P : A -> B -> Prop) l k a b :
  Forall2 P l k -> In (a, b) (zip l k) -> P a b.
Proof. induction 1; simpl; [done|]. intros [[= -> ->]|]; auto. Qed.
