(* ===== verification/Mem.v ===== *)
(** * Memory

    A flat address space of byte cells.  An address that is not mapped is not
    part of any object; a mapped cell holding [None] belongs to an object but
    has an indeterminate value.  Reading an unmapped or indeterminate cell and
    writing an unmapped cell have no result: the caller turns that into
    undefined behaviour.  Integers are stored little-endian and pointers are
    8-byte integers (the LP64 targets of the pod). *)
From S2P Require Import Prelude.

Definition NULL : Z := 0.

Record mem := Mem {
  m_cells : gmap Z (option byte);   (* the mapped cells *)
  m_heap : gmap Z Z;                (* base address -> size of live heap blocks *)
}.

Definition load_byte (m : mem) (a : Z) : option byte :=
  match m_cells m !! a with
  | Some (Some b) => Some b
  | _ => None
  end.

Fixpoint load_bytes (m : mem) (a : Z) (n : nat) : option (list byte) :=
  match n with
  | O => Some []
  | S n' =>
      match load_byte m a, load_bytes m (a + 1) n' with
      | Some b, Some bs => Some (b :: bs)
      | _, _ => None
      end
  end.

Definition put_cell (m : mem) (a : Z) (c : option byte) : mem :=
  Mem (<[a := c]> (m_cells m)) (m_heap m).

Definition store_byte (m : mem) (a : Z) (b : byte) : option mem :=
  match m_cells m !! a with
  | Some _ => Some (put_cell m a (Some b))
  | None => None
  end.

Fixpoint store_bytes (m : mem) (a : Z) (bs : list byte) : option mem :=
  match bs with
  | [] => Some m
  | b :: bs' =>
      match store_byte m a b with
      | Some m' => store_bytes m' (a + 1) bs'
      | None => None
      end
  end.

(** [memcpy]-like loop [for (i = 0; i < n; i++) dest[i] = source[i]]: byte by
    byte in increasing order, so overlapping regions behave as in the loop. *)
Fixpoint copy_loop (m : mem) (dest source : Z) (n : nat) : option mem :=
  match n with
  | O => Some m
  | S n' =>
      match load_byte m source with
      | Some b =>
          match store_byte m dest b with
          | Some m' => copy_loop m' (dest + 1) (source + 1) n'
          | None => None
          end
      | None => None
      end
  end.

Definition load_uint (m : mem) (a : Z) (n : nat) : option Z :=
  match load_bytes m a n with
  | Some bs => Some (le_combine bs)
  | None => None
  end.

Definition load_sint (m : mem) (a : Z) (n : nat) : option Z :=
  match load_uint m a n with
  | Some z => Some (sint (8 * Z.of_nat n) z)
  | None => None
  end.

Definition store_uint (m : mem) (a : Z) (n : nat) (z : Z) : option mem :=
  store_bytes m a (le_split n z).

(** Mapping and unmapping a block of cells. *)
Fixpoint map_cells (c : gmap Z (option byte)) (a : Z) (n : nat) : gmap Z (option byte) :=
  match n with
  | O => c
  | S n' => <[a := None]> (map_cells c (a + 1) n')
  end.

Fixpoint unmap_cells (c : gmap Z (option byte)) (a : Z) (n : nat) : gmap Z (option byte) :=
  match n with
  | O => c
  | S n' => delete a (unmap_cells c (a + 1) n')
  end.

Lemma map_cells_ne c a n x : ~ (a <= x < a + Z.of_nat n) -> map_cells c a n !! x = c !! x.
Proof.
  revert a. induction n as [|n IH]; intros a Hx; simpl; [done|].
  rewrite lookup_insert_ne by lia. apply IH. lia.
Qed.

(** ** Lemmas: loading *)

(** The memory whose known cells are all in [m2] is below it. *)
Definition mem_le (m1 m2 : mem) : Prop :=
  forall a b, load_byte m1 a = Some b -> load_byte m2 a = Some b.

#[global] Instance mem_le_preorder : PreOrder mem_le.
Proof. split; unfold mem_le; [by intros m|intros m1 m2 m3; eauto]. Qed.

Lemma load_bytes_length m a n bs : load_bytes m a n = Some bs -> length bs = n.
Proof.
  revert a bs. induction n as [|n IH]; simpl; intros a bs E; simplify_eq; [done|].
  destruct (load_byte m a), (load_bytes m (a + 1) n) eqn:E'; simplify_eq.
  simpl. f_equal. eauto.
Qed.

Lemma load_bytes_le m1 m2 a n bs :
  mem_le m1 m2 -> load_bytes m1 a n = Some bs -> load_bytes m2 a n = Some bs.
Proof.
  intros Hle. revert a bs. induction n as [|n IH]; simpl; intros a bs E; [done|].
  destruct (load_byte m1 a) eqn:E1, (load_bytes m1 (a + 1) n) eqn:E2; simplify_eq.
  by rewrite (Hle _ _ E1), (IH _ _ E2).
Qed.

Lemma load_bytes_app m a n1 n2 :
  load_bytes m a (n1 + n2) =
  match load_bytes m a n1, load_bytes m (a + Z.of_nat n1) n2 with
  | Some b1, Some b2 => Some (b1 ++ b2)
  | _, _ => None
  end.
Proof.
  revert a. induction n1 as [|n1 IH]; intros a; cbn [load_bytes Nat.add].
  - rewrite Z.add_0_r. by destruct (load_bytes m a n2).
  - rewrite IH. replace (a + Z.of_nat (S n1)) with (a + 1 + Z.of_nat n1) by lia.
    destruct (load_byte m a); [|done].
    destruct (load_bytes m (a + 1) n1); [|done].
    by destruct (load_bytes m (a + 1 + Z.of_nat n1) n2).
Qed.

Lemma load_bytes_Some m a n :
  (forall i, 0 <= i < Z.of_nat n -> is_Some (load_byte m (a + i))) ->
  is_Some (load_bytes m a n).
Proof.
  revert a. induction n as [|n IH]; intros a H; simpl; [by eexists|].
  destruct (H 0) as [b Hb]; [lia|]. rewrite Z.add_0_r in Hb. rewrite Hb.
  destruct (IH (a + 1)) as [bs ->]; [|by eexists].
  intros i Hi. replace (a + 1 + i) with (a + (i + 1)) by lia. apply H. lia.
Qed.

Lemma load_bytes_lookup m a n bs i :
  load_bytes m a n = Some bs -> 0 <= i < Z.of_nat n -> load_byte m (a + i) = bs !! Z.to_nat i.
Proof.
  revert a bs i. induction n as [|n IH]; simpl; intros a bs i E Hi; [lia|].
  destruct (load_byte m a) eqn:E1, (load_bytes m (a + 1) n) eqn:E2; simplify_eq.
  destruct (decide (i = 0)) as [->|]; [by rewrite Z.add_0_r|].
  replace (Z.to_nat i) with (S (Z.to_nat (i - 1))) by lia. simpl.
  rewrite <- (IH _ _ _ E2) by lia. f_equal. lia.
Qed.

Lemma load_bytes_ext m1 m2 a n :
  (forall i, 0 <= i < Z.of_nat n -> load_byte m1 (a + i) = load_byte m2 (a + i)) ->
  load_bytes m1 a n = load_bytes m2 a n.
Proof.
  revert a. induction n as [|n IH]; intros a H; simpl; [done|].
  assert (load_byte m1 a = load_byte m2 a) as ->.
  { rewrite <- (Z.add_0_r a). apply H. lia. }
  rewrite IH; [done|]. intros i Hi.
  replace (a + 1 + i) with (a + (i + 1)) by lia. apply H. lia.
Qed.

(** ** Lemmas: storing *)

Lemma load_put_cell m a c a' :
  load_byte (put_cell m a c) a' = if decide (a = a') then c else load_byte m a'.
Proof.
  unfold load_byte, put_cell; simpl. rewrite lookup_insert.
  case_decide; [by destruct c|done].
Qed.

Lemma mapped_put_cell m a c a' :
  is_Some (m_cells m !! a') -> is_Some (m_cells (put_cell m a c) !! a').
Proof. simpl. rewrite lookup_insert. case_decide; eauto. Qed.

(** A region every cell of which is mapped. *)
Definition mapped (m : mem) (a n : Z) : Prop :=
  forall i, 0 <= i < n -> is_Some (m_cells m !! (a + i)).

(** What storing does, without the check that the cells are mapped. *)
Fixpoint put_bytes (m : mem) (a : Z) (bs : list byte) : mem :=
  match bs with
  | [] => m
  | b :: bs' => put_bytes (put_cell m a (Some b)) (a + 1) bs'
  end.

Lemma put_bytes_mapped m a bs a' :
  is_Some (m_cells m !! a') -> is_Some (m_cells (put_bytes m a bs) !! a').
Proof.
  revert m a. induction bs as [|b bs IH]; intros m a H; simpl; [done|].
  apply IH. by apply mapped_put_cell.
Qed.

Lemma mapped_put_bytes m a bs a' n : mapped m a' n -> mapped (put_bytes m a bs) a' n.
Proof. intros H i Hi. by apply put_bytes_mapped, H. Qed.

Lemma store_bytes_mapped m a bs :
  mapped m a (Z.of_nat (length bs)) -> store_bytes m a bs = Some (put_bytes m a bs).
Proof.
  revert m a. induction bs as [|b bs IH]; intros m a H; simpl; [done|].
  unfold store_byte. destruct (H 0) as [c Hc]; [simpl; lia|].
  rewrite Z.add_0_r in Hc. rewrite Hc. apply IH.
  intros i Hi. apply mapped_put_cell.
  replace (a + 1 + i) with (a + (i + 1)) by lia. apply H. simpl. lia.
Qed.

Lemma put_bytes_app m a bs1 bs2 :
  put_bytes m a (bs1 ++ bs2) = put_bytes (put_bytes m a bs1) (a + Z.of_nat (length bs1)) bs2.
Proof.
  revert m a. induction bs1 as [|b bs1 IH]; intros m a; simpl.
  - by rewrite Z.add_0_r.
  - rewrite IH. f_equal. lia.
Qed.

Lemma put_bytes_heap m a bs : m_heap (put_bytes m a bs) = m_heap m.
Proof. revert m a. induction bs as [|b bs IH]; intros m a; simpl; [done|]. by rewrite IH. Qed.

Lemma load_put_bytes_ne m a bs a' :
  ~ (a <= a' < a + Z.of_nat (length bs)) ->
  load_byte (put_bytes m a bs) a' = load_byte m a'.
Proof.
  revert m a. induction bs as [|b bs IH]; intros m a H; simpl in *; [done|].
  rewrite IH by lia. rewrite load_put_cell. case_decide; [lia|done].
Qed.

Lemma load_bytes_put_bytes m a bs : load_bytes (put_bytes m a bs) a (length bs) = Some bs.
Proof.
  revert m a. induction bs as [|b bs IH]; intros m a; simpl; [done|].
  rewrite IH. rewrite load_put_bytes_ne by lia.
  rewrite load_put_cell. by case_decide.
Qed.

Lemma cells_put_bytes_ne m a bs a' :
  ~ (a <= a' < a + Z.of_nat (length bs)) ->
  m_cells (put_bytes m a bs) !! a' = m_cells m !! a'.
Proof.
  revert m a. induction bs as [|b bs IH]; intros m a H; simpl in *; [done|].
  rewrite IH by lia. simpl. rewrite lookup_insert_ne by lia. done.
Qed.

(** [store_bytes] succeeds exactly on mapped regions. *)
Lemma store_bytes_inv m a bs m' :
  store_bytes m a bs = Some m' ->
  m' = put_bytes m a bs /\ mapped m a (Z.of_nat (length bs)).
Proof.
  revert m a. induction bs as [|b bs IH]; intros m a H; simpl in *.
  { simplify_eq. split; [done|]. intros i Hi. lia. }
  unfold store_byte in H. destruct (m_cells m !! a) eqn:Ha; [|done].
  destruct (IH _ _ H) as [-> Hm]. split; [done|].
  intros i Hi. destruct (decide (i = 0)) as [->|]; [rewrite Z.add_0_r; eauto|].
  destruct (Hm (i - 1)) as [c Hc]; [lia|].
  replace (a + 1 + (i - 1)) with (a + i) in Hc by lia.
  simpl in Hc. rewrite lookup_insert_ne in Hc by lia. eauto.
Qed.

(** A non-overlapping copy stores what the source region held. *)
Lemma copy_loop_disjoint m d s n bs :
  load_bytes m s n = Some bs ->
  mapped m d (Z.of_nat n) ->
  (d + Z.of_nat n <= s \/ s + Z.of_nat n <= d) ->
  copy_loop m d s n = Some (put_bytes m d bs).
Proof.
  revert m d s bs. induction n as [|n IH]; simpl; intros m d s bs E Hm Hd; [by simplify_eq|].
  destruct (load_byte m s) as [b|] eqn:E1, (load_bytes m (s + 1) n) as [bs'|] eqn:E2; simplify_eq.
  unfold store_byte. destruct (Hm 0) as [c Hc]; [lia|].
  rewrite Z.add_0_r in Hc. rewrite Hc. simpl. apply IH; [|..|lia].
  - rewrite <- E2. apply load_bytes_ext. intros i Hi. rewrite load_put_cell.
    case_decide; [lia|done].
  - intros i Hi. apply mapped_put_cell.
    replace (d + 1 + i) with (d + (i + 1)) by lia. apply Hm. lia.
Qed.

(** ** Lemmas: integers *)

Lemma load_uint_range m a n z : load_uint m a n = Some z -> 0 <= z < 2 ^ (8 * Z.of_nat n).
Proof.
  unfold load_uint. destruct (load_bytes m a n) eqn:E; intros; simplify_eq.
  rewrite <- (load_bytes_length _ _ _ _ E). apply le_combine_bound.
Qed.

Lemma load_uint_le m1 m2 a n z :
  mem_le m1 m2 -> load_uint m1 a n = Some z -> load_uint m2 a n = Some z.
Proof.
  unfold load_uint. intros Hle. destruct (load_bytes m1 a n) eqn:E; [|done].
  by rewrite (load_bytes_le _ _ _ _ _ Hle E).
Qed.

Lemma load_sint_le m1 m2 a n z :
  mem_le m1 m2 -> load_sint m1 a n = Some z -> load_sint m2 a n = Some z.
Proof.
  unfold load_sint. intros Hle. destruct (load_uint m1 a n) eqn:E; [|done].
  by rewrite (load_uint_le _ _ _ _ _ Hle E).
Qed.

Lemma load_store_uint m a n z m' :
  store_uint m a n z = Some m' -> load_uint m' a n = Some (z mod 2 ^ (8 * Z.of_nat n)).
Proof.
  unfold store_uint, load_uint. intros H. apply store_bytes_inv in H as [-> _].
  rewrite <- (length_le_split n z) at 2. rewrite load_bytes_put_bytes.
  rewrite le_combine_split. do 3 f_equal. lia.
Qed.
