(* ===== verification/Comp.v ===== *)
(** * Computations

    Every C function is a computation over an explicit state.  Its result says
    how the call ended: [Ok] with a value (a [bool] function that returned
    true), [Fail] (it returned false; the state still carries what it did
    before that), [Ub] (it ran into undefined behaviour) or [Timeout] (the fuel
    of a loop or of the recursion was used up).  Sequencing propagates [Fail],
    which is the [if (!f(...)) return false;] of the source. *)
From S2P Require Import Prelude Mem.

Inductive res (S A : Type) : Type :=
| Ok (a : A) (s : S)
| Fail (s : S)
| Ub
| Timeout.
Arguments Ok {S A}. Arguments Fail {S A}. Arguments Ub {S A}. Arguments Timeout {S A}.

Definition M (S A : Type) : Type := S -> res S A.

Section Ops.
Context {S : Type}.

Definition ret {A} (a : A) : M S A := fun s => Ok a s.
Definition fail {A} : M S A := fun s => Fail s.
Definition ub {A} : M S A := fun s => Ub.
Definition timeout {A} : M S A := fun s => Timeout.

Definition bind {A B} (m : M S A) (k : A -> M S B) : M S B := fun s =>
  match m s with
  | Ok a s' => k a s'
  | Fail s' => Fail s'
  | Ub => Ub
  | Timeout => Timeout
  end.

Definition get : M S S := fun s => Ok s s.
Definition gets {A} (f : S -> A) : M S A := fun s => Ok (f s) s.
Definition modify (f : S -> S) : M S unit := fun s => Ok tt (f s).

(** The value of a partial expression; no value is undefined behaviour. *)
Definition of_option {A} (o : option A) : M S A :=
  match o with
  | Some a => ret a
  | None => ub
  end.

(** The returned [bool] as a value, for callers that go on after a failure. *)
Definition status (m : M S unit) : M S bool := fun s =>
  match m s with
  | Ok _ s' => Ok true s'
  | Fail s' => Ok false s'
  | Ub => Ub
  | Timeout => Timeout
  end.

(** The same for a function with a result. *)
Definition attempt {A} (m : M S A) : M S (option A) := fun s =>
  match m s with
  | Ok a s' => Ok (Some a) s'
  | Fail s' => Ok None s'
  | Ub => Ub
  | Timeout => Timeout
  end.

(** [if (!b) return false;] *)
Definition check (b : bool) : M S unit := if b then ret tt else fail.

(** A loop whose body either goes on with new loop variables or leaves. *)
Fixpoint loop {X A} (fuel : nat) (body : X -> M S (X + A)) (x : X) : M S A :=
  match fuel with
  | O => timeout
  | Datatypes.S fuel' =>
      bind (body x) (fun r =>
        match r with
        | inl x' => loop fuel' body x'
        | inr a => ret a
        end)
  end.

(** [for (i = 0; i < n; i++) body], threading the loop variable [p]. *)
Fixpoint for_n {X} (n : nat) (body : X -> M S X) (x : X) : M S X :=
  match n with
  | O => ret x
  | Datatypes.S n' => bind (body x) (for_n n' body)
  end.
End Ops.

Declare Scope comp_scope.
Delimit Scope comp_scope with comp.
Notation "x ← m ; k" := (bind m (fun x => k)) : comp_scope.
Notation "' x ← m ; k" := (bind m (fun x => k)) : comp_scope.
Notation "m ;; k" := (bind m (fun _ => k)) : comp_scope.
#[global] Open Scope comp_scope.

(** ** Interfaces of the state *)

(** States that contain the memory. *)
Class HasMem (S : Type) := {
  get_mem : S -> mem;
  set_mem : mem -> S -> S;
  get_set_mem m s : get_mem (set_mem m s) = m;
  set_set_mem m m' s : set_mem m (set_mem m' s) = set_mem m s;
  set_get_mem s : set_mem (get_mem s) s = s;
}.

(** States whose stream has an error message. *)
Class HasErr (S : Type) := {
  get_err : S -> option string;
  set_err : option string -> S -> S;
}.

Section Mem.
Context {S : Type} `{HasMem S}.

Definition load (f : mem -> option Z) : M S Z := fun s => of_option (f (get_mem s)) s.

Definition ld_u8 (a : Z) : M S Z := load (fun m => load_uint m a 1).
Definition ld_u16 (a : Z) : M S Z := load (fun m => load_uint m a 2).
Definition ld_u32 (a : Z) : M S Z := load (fun m => load_uint m a 4).
Definition ld_u64 (a : Z) : M S Z := load (fun m => load_uint m a 8).
Definition ld_s8 (a : Z) : M S Z := load (fun m => load_sint m a 1).
Definition ld_s16 (a : Z) : M S Z := load (fun m => load_sint m a 2).
Definition ld_s32 (a : Z) : M S Z := load (fun m => load_sint m a 4).
Definition ld_s64 (a : Z) : M S Z := load (fun m => load_sint m a 8).
Definition ld_ptr (a : Z) : M S Z := load (fun m => load_uint m a 8).
Definition ld_bool (a : Z) : M S bool := z ← ld_u8 a ; ret (negb (z =? 0)).

Definition mem_op (f : mem -> option mem) : M S unit := fun s =>
  match f (get_mem s) with
  | Some m => Ok tt (set_mem m s)
  | None => Ub
  end.

Definition st_uint (n : nat) (a z : Z) : M S unit := mem_op (fun m => store_uint m a n z).
Definition st_u8 : Z -> Z -> M S unit := st_uint 1.
Definition st_u16 : Z -> Z -> M S unit := st_uint 2.
Definition st_u32 : Z -> Z -> M S unit := st_uint 4.
Definition st_u64 : Z -> Z -> M S unit := st_uint 8.
Definition st_ptr : Z -> Z -> M S unit := st_uint 8.
Definition st_bool (a : Z) (b : bool) : M S unit := st_u8 a (if b then 1 else 0).
Definition st_bytes (a : Z) (bs : list byte) : M S unit := mem_op (fun m => store_bytes m a bs).

Definition memset0 (a n : Z) : M S unit := st_bytes a (replicate (Z.to_nat n) (byte_of 0)).
Definition memcpy (dest source n : Z) : M S unit :=
  mem_op (fun m => copy_loop m dest source (Z.to_nat n)).
End Mem.

Section Err.
Context {S : Type} `{HasErr S}.

(** [PB_SET_ERROR]: keep the first message. *)
Definition PB_SET_ERROR (msg : string) : M S unit :=
  modify (fun s => set_err (Some (default msg (get_err s))) s).

(** [PB_RETURN_ERROR] *)
Definition PB_RETURN_ERROR {A} (msg : string) : M S A := PB_SET_ERROR msg ;; fail.
End Err.

(** ** Equations *)

Lemma bind_ok {S A B} (m : M S A) (k : A -> M S B) s a s' :
  m s = Ok a s' -> bind m k s = k a s'.
Proof. unfold bind. by intros ->. Qed.

Lemma bind_fail {S A B} (m : M S A) (k : A -> M S B) s s' :
  m s = Fail s' -> bind m k s = Fail s'.
Proof. unfold bind. by intros ->. Qed.

Lemma bind_ret {S A B} (a : A) (k : A -> M S B) s : bind (ret a) k s = k a s.
Proof. done. Qed.

Lemma bind_assoc {S A B C} (m : M S A) (k : A -> M S B) (h : B -> M S C) s :
  bind (bind m k) h s = bind m (fun a => bind (k a) h) s.
Proof. unfold bind. by destruct (m s). Qed.

Lemma bind_inv_ok {S A B} (m : M S A) (k : A -> M S B) s b s' :
  bind m k s = Ok b s' -> exists a s1, m s = Ok a s1 /\ k a s1 = Ok b s'.
Proof. unfold bind. destruct (m s) eqn:E; try done. eauto. Qed.

(** More fuel never changes the result of a loop that ended. *)
Lemma loop_mono {S X A} (body : X -> M S (X + A)) n n' x s :
  (n <= n')%nat -> loop n body x s <> Timeout -> loop n' body x s = loop n body x s.
Proof.
  revert n' x s. induction n as [|n IH]; intros n' x s Hn Hl; [done|].
  destruct n' as [|n']; [lia|]. simpl in *. unfold bind in *.
  destruct (body x s) as [[x'|a] s'| | |]; try done.
  apply IH; [lia|done].
Qed.
