(* ===== verification/Varint.v ===== *)
(** * Base-128 varints and zig-zag: the reference definitions

    The wire format of integers as the protocol-buffer encoding defines it,
    independently of how the C code computes it. *)
From S2P Require Import Prelude.

(** Little-endian groups of 7 bits, the top bit set on all bytes but the last. *)
Fixpoint base128 (n : nat) (v : Z) : list byte :=
  match n with
  | O => []
  | S n' =>
      if v <? 128 then [byte_of v]
      else byte_of (v mod 128 + 128) :: base128 n' (v / 128)
  end.

(** A 64-bit value needs at most 10 groups. *)
Definition varint (v : Z) : list byte := base128 10 v.

(** The value of a group sequence. *)
Fixpoint varint_value (bs : list byte) : Z :=
  match bs with
  | [] => 0
  | b :: bs' => byte_val b mod 128 + 128 * varint_value bs'
  end.

(** All bytes but the last have the continuation bit. *)
Fixpoint is_varint (bs : list byte) : Prop :=
  match bs with
  | [] => False
  | [b] => byte_val b < 128
  | b :: bs' => 128 <= byte_val b /\ is_varint bs'
  end.

Definition zigzag (v : Z) : Z := if v <? 0 then - 2 * v - 1 else 2 * v.
Definition unzigzag (u : Z) : Z := if u mod 2 =? 0 then u / 2 else - (u / 2) - 1.

(** ** Properties *)

Lemma base128_length n v : (length (base128 n v) <= n)%nat.
Proof. revert v. induction n as [|n IH]; intros v; simpl; [lia|]. case_if; simpl; [lia|]. specialize (IH (v / 128)). lia. Qed.

Lemma base128_nonempty n v : (0 < n)%nat -> (0 < length (base128 n v))%nat.
Proof. destruct n; simpl; [lia|]. case_if; simpl; lia. Qed.

Lemma varint_length_bounds v : (1 <= length (varint v) <= 10)%nat.
Proof. split; [apply base128_nonempty; lia|apply base128_length]. Qed.

Lemma base128_value n v : 0 <= v < 128 ^ Z.of_nat n -> varint_value (base128 n v) = v.
Proof.
  revert v. induction n as [|n IH]; intros v Hv; [simpl in *; lia|].
  rewrite Nat2Z.inj_succ, Z.pow_succ_r in Hv by lia.
  cbn [base128]. case_if; zify_bool; cbn [varint_value].
  - rewrite byte_val_of. rewrite Z.mod_mod_divide by (by exists 2).
    rewrite Z.mod_small by lia. lia.
  - rewrite IH by (split; [apply Z.div_pos; lia|apply Z.div_lt_upper_bound; lia]).
    rewrite byte_val_of, Z.mod_mod_divide by (by exists 2).
    rewrite Z.add_mod, Z.mod_mod, Z_mod_same_full, Z.add_0_r, Z.mod_mod by lia.
    pose proof (Z.div_mod v 128). lia.
Qed.

Lemma base128_is_varint n v : 0 <= v < 128 ^ Z.of_nat n -> is_varint (base128 n v) \/ n = O.
Proof.
  revert v. induction n as [|n IH]; intros v Hv; [by right|left].
  rewrite Nat2Z.inj_succ, Z.pow_succ_r in Hv by lia.
  cbn [base128]. case_if; zify_bool.
  - simpl. rewrite byte_val_of. rewrite Z.mod_small by lia. lia.
  - destruct (IH (v / 128)) as [IH'| ->].
    { split; [apply Z.div_pos; lia|apply Z.div_lt_upper_bound; lia]. }
    + destruct (base128 n (v / 128)) eqn:E; [done|].
      split; [|done]. rewrite byte_val_of.
      pose proof (Z.mod_pos_bound v 128 ltac:(lia)). rewrite Z.mod_small; lia.
    + simpl in Hv. lia.
Qed.

(** A value of [k] groups takes [k] bytes at most. *)
Lemma base128_length_bound n k v :
  (0 < k)%nat -> 0 <= v < 128 ^ Z.of_nat k -> (length (base128 n v) <= k)%nat.
Proof.
  revert n v. induction k as [|k IH]; intros n v Hk Hv; [lia|].
  destruct n as [|n]; [simpl; lia|]. cbn [base128]. case_if; simpl; [lia|]. zify_bool.
  rewrite Nat2Z.inj_succ, Z.pow_succ_r in Hv by lia.
  destruct k as [|k]; [simpl in Hv; lia|].
  specialize (IH n (v / 128) ltac:(lia)
    ltac:(split; [apply Z.div_pos; lia|apply Z.div_lt_upper_bound; lia])). lia.
Qed.

Lemma varint_length_32 v : 0 <= v < 2 ^ 32 -> (length (varint v) <= 5)%nat.
Proof. intros. apply base128_length_bound; [lia|]. change (128 ^ Z.of_nat 5) with (2 ^ 35). lia. Qed.

Lemma pow128_10 v : 0 <= v < 2 ^ 64 -> 0 <= v < 128 ^ Z.of_nat 10.
Proof. intros. change (128 ^ Z.of_nat 10) with (2 ^ 70). lia. Qed.

Lemma varint_value_varint v : 0 <= v < 2 ^ 64 -> varint_value (varint v) = v.
Proof. intros. by apply base128_value, pow128_10. Qed.

Lemma varint_is_varint v : 0 <= v < 2 ^ 64 -> is_varint (varint v).
Proof. intros. destruct (base128_is_varint 10 v) as [|]; [by apply pow128_10|done|done]. Qed.

Lemma varint_small v : 0 <= v < 128 -> varint v = [byte_of v].
Proof. intros. unfold varint. cbn. destruct (Z.ltb_spec v 128); [done|lia]. Qed.

Lemma unzigzag_zigzag v : unzigzag (zigzag v) = v.
Proof.
  unfold zigzag, unzigzag. destruct (Z.ltb_spec v 0).
  - replace (- 2 * v - 1) with (1 + (- v - 1) * 2) by lia.
    rewrite Z.mod_add, Z.div_add by lia. change (1 / 2) with 0. change (1 mod 2 =? 0) with false. cbv iota. lia.
  - replace (2 * v) with (0 + v * 2) by lia.
    rewrite Z.mod_add, Z.div_add by lia. change (0 / 2) with 0. change (0 mod 2 =? 0) with true. cbv iota. lia.
Qed.

Lemma zigzag_range v : - 2 ^ 63 <= v < 2 ^ 63 -> 0 <= zigzag v < 2 ^ 64.
Proof. unfold zigzag. destruct (Z.ltb_spec v 0); lia. Qed.

(** ** Groups of seven bits in C *)

Lemma lor_continuation v : Z.lor (Z.land v 0x7F) 0x80 = v mod 128 + 128.
Proof.
  change 0x7F with (Z.ones 7). rewrite Z.land_ones by lia.
  change 0x80 with (Z.shiftl 1 7).
  rewrite lor_disjoint_add; [done|lia|apply Z.mod_pos_bound; lia].
Qed.

Lemma land_7f b : Z.land b 0x7F = b mod 128.
Proof. change 0x7F with (Z.ones 7). by rewrite Z.land_ones by lia. Qed.

(** The continuation bit of a byte. *)
Lemma land_80 b : 0 <= b < 256 -> (Z.land b 0x80 =? 0) = (b <? 128).
Proof.
  intros Hb.
  assert (Z.land b 0x80 = Z.shiftl (Z.shiftr b 7) 7) as ->.
  { apply Z.bits_inj'. intros i Hi. change 0x80 with (Z.shiftl 1 7).
    rewrite Z.land_spec. destruct (decide (i < 7)).
    - rewrite !Z.shiftl_spec_low by lia. by rewrite andb_false_r.
    - rewrite !Z.shiftl_spec_high, Z.shiftr_spec by lia. replace (i - 7 + 7) with i by lia.
      destruct (decide (i = 7)) as [->|]; [by rewrite andb_true_r|].
      rewrite (Z_testbit_high b i 8) by lia. done. }
  rewrite Z.shiftl_mul_pow2, Z.shiftr_div_pow2 by lia. change (2 ^ 7) with 128.
  destruct (Z.ltb_spec b 128).
  - by rewrite Z.div_small by lia.
  - apply Z.eqb_neq. assert (1 <= b / 128) by (apply Z.div_le_lower_bound; lia). lia.
Qed.

(** One more group in the accumulator. *)
Lemma varint_accumulate w acc x n :
  0 <= n < w -> 0 <= acc < 2 ^ n ->
  Z.lor acc ((Z.shiftl x n) mod 2 ^ w) = (acc + x * 2 ^ n) mod 2 ^ w.
Proof.
  intros Hn Ha.
  assert (2 ^ w = 2 ^ (w - n) * 2 ^ n) as E by (rewrite <- Z.pow_add_r by lia; f_equal; lia).
  rewrite Z.shiftl_mul_pow2 by lia. rewrite E.
  rewrite Z.mul_mod_distr_r by (try lia; apply Z.pow_nonzero; lia).
  rewrite <- Z.shiftl_mul_pow2 by lia. rewrite lor_disjoint_add by lia.
  rewrite <- E.
  assert (0 <= x mod 2 ^ (w - n) < 2 ^ (w - n)) as Hx by (apply Z.mod_pos_bound; lia).
  rewrite <- (Z.mod_small (acc + x mod 2 ^ (w - n) * 2 ^ n) (2 ^ w)) by nia.
  rewrite (Z.div_mod x (2 ^ (w - n))) at 2 by lia.
  replace (acc + (2 ^ (w - n) * (x / 2 ^ (w - n)) + x mod 2 ^ (w - n)) * 2 ^ n)
    with (acc + x mod 2 ^ (w - n) * 2 ^ n + x / 2 ^ (w - n) * 2 ^ w) by (rewrite E; lia).
  by rewrite Z.mod_add by lia.
Qed.

Lemma varint_value_nonneg bs : 0 <= varint_value bs.
Proof.
  induction bs as [|b bs IH]; cbn [varint_value]; [lia|].
  pose proof (Z.mod_pos_bound (byte_val b) 128 ltac:(lia)). lia.
Qed.

(** ** Reading a varint *)

(** The reference: the first varint of at most [n] bytes, or whether there is
    none because it is too long ([true]) or cut off ([false]). *)
Fixpoint take_varint (n : nat) (bs : list byte) : list byte + bool :=
  match n with
  | O => inr true
  | S n' =>
      match bs with
      | [] => inr false
      | b :: bs' =>
          if byte_val b <? 128 then inl [b]
          else match take_varint n' bs' with
               | inl v => inl (b :: v)
               | inr e => inr e
               end
      end
  end.

Lemma take_varint_spec n bs :
  match take_varint n bs with
  | inl v => is_varint v /\ (length v <= n)%nat /\ exists rest, bs = v ++ rest
  | inr true => exists v rest, bs = v ++ rest /\ length v = n /\ Forall (fun b => 128 <= byte_val b) v
  | inr false => Forall (fun b => 128 <= byte_val b) bs /\ (length bs < n)%nat
  end.
Proof.
  revert bs. induction n as [|n IH]; intros bs; simpl; [by exists [], bs|].
  destruct bs as [|b bs]; [split; [done|simpl; lia]|].
  destruct (Z.ltb_spec (byte_val b) 128).
  - split_and!; [done|simpl; lia|by exists bs].
  - specialize (IH bs). destruct (take_varint n bs) as [v|[|]].
    + destruct IH as (Hv & Hl & rest & ->). split_and!; [|simpl; lia|by exists rest].
      destruct v; [done|]. by split.
    + destruct IH as (v & rest & -> & Hl & Hv). exists (b :: v), rest.
      split_and!; [done|simpl; lia|by constructor].
    + destruct IH. split; [by constructor|simpl; lia].
Qed.
