(* ===== verification/Pb.v ===== *)
(** * pb.h: types, constants and field descriptors

    The data every other part of nanopb works on, in the configuration the pod
    is built with: [PB_FIELD_32BIT], [PB_NO_PACKED_STRUCTS] and
    [PB_ENABLE_MALLOC], on an LP64 platform. *)
From S2P Require Import Prelude Mem.

Definition PB_MAX_REQUIRED_FIELDS : Z := 64.

(** ** Field types *)

Definition PB_LTYPE_VARINT : Z := 0x00.
Definition PB_LTYPE_UVARINT : Z := 0x01.
Definition PB_LTYPE_SVARINT : Z := 0x02.
Definition PB_LTYPE_FIXED32 : Z := 0x03.
Definition PB_LTYPE_FIXED64 : Z := 0x04.
Definition PB_LTYPE_LAST_PACKABLE : Z := 0x04.
Definition PB_LTYPE_BYTES : Z := 0x05.
Definition PB_LTYPE_STRING : Z := 0x06.
Definition PB_LTYPE_SUBMESSAGE : Z := 0x07.
Definition PB_LTYPE_EXTENSION : Z := 0x08.
Definition PB_LTYPE_FIXED_LENGTH_BYTES : Z := 0x09.
Definition PB_LTYPES_COUNT : Z := 0x0A.
Definition PB_LTYPE_MASK : Z := 0x0F.

Definition PB_HTYPE_REQUIRED : Z := 0x00.
Definition PB_HTYPE_OPTIONAL : Z := 0x10.
Definition PB_HTYPE_REPEATED : Z := 0x20.
Definition PB_HTYPE_ONEOF : Z := 0x30.
Definition PB_HTYPE_MASK : Z := 0x30.

Definition PB_ATYPE_STATIC : Z := 0x00.
Definition PB_ATYPE_POINTER : Z := 0x80.
Definition PB_ATYPE_CALLBACK : Z := 0x40.
Definition PB_ATYPE_MASK : Z := 0xC0.

Definition PB_ATYPE (x : Z) : Z := Z.land x PB_ATYPE_MASK.
Definition PB_HTYPE (x : Z) : Z := Z.land x PB_HTYPE_MASK.
Definition PB_LTYPE (x : Z) : Z := Z.land x PB_LTYPE_MASK.

(** [(pb_size_t)-1], with [pb_size_t = uint32_t]. *)
Definition PB_SIZE_MAX : Z := u32 (-1).

(** ** Descriptors *)

Record pb_field_t := PbField {
  tag : Z;           (* pb_size_t *)
  type : Z;          (* pb_type_t *)
  data_offset : Z;   (* pb_size_t, relative to the end of the previous field *)
  size_offset : Z;   (* pb_ssize_t, relative to the data *)
  data_size : Z;     (* pb_size_t *)
  array_size : Z;    (* pb_size_t *)
  ptr : Z;           (* submessage descriptors or default value, or NULL *)
}.

#[global] Instance pb_field_eq_dec : EqDecision pb_field_t.
Proof. solve_decision. Defined.

Definition PB_LAST_FIELD : pb_field_t := PbField 0 0 0 0 0 0 NULL.

(** ** Wire types *)

Definition PB_WT_VARINT : Z := 0.
Definition PB_WT_64BIT : Z := 1.
Definition PB_WT_STRING : Z := 2.
Definition PB_WT_32BIT : Z := 5.

(** ** Struct layouts *)

(** [sizeof(void * )] and the offsets of the members of [pb_bytes_array_t],
    [pb_callback_t] and [pb_extension_t]. *)
Definition sizeof_ptr : Z := 8.

Definition bytes_array_size : Z := 0.
Definition bytes_array_bytes : Z := 4.
Definition PB_BYTES_ARRAY_T_ALLOCSIZE (n : Z) : Z := u64 (n + bytes_array_bytes).

Definition callback_funcs : Z := 0.
Definition callback_arg : Z := 8.

Definition extension_type : Z := 0.
Definition extension_dest : Z := 8.
Definition extension_next : Z := 16.
Definition extension_found : Z := 24.

(** [pb_extension_type_t] is constant data: the two handlers (NULL for the
    default ones) and the descriptor of the extension field. *)
Record pb_extension_type_t := PbExtensionType {
  ext_decode : Z;
  ext_encode : Z;
  ext_arg : list pb_field_t;
}.

(** ** The descriptor macros

    A structure member is its offset, its size and the size of one element
    (the member's own size when it is not an array or a pointer). *)
Record member := Member {
  offsetof : Z;
  pb_membersize : Z;
  pb_eltsize : Z;
}.

Definition pb_arraysize (m : member) : Z := pb_membersize m / pb_eltsize m.
Definition pb_delta (m1 m2 : member) : Z := offsetof m1 - offsetof m2.

(** The placement of a field after the previous one. *)
Definition PB_DATAOFFSET_FIRST (m1 m2 : member) : Z := offsetof m1.
Definition PB_DATAOFFSET_OTHER (m1 m2 : member) : Z := offsetof m1 - offsetof m2 - pb_membersize m2.
Definition PB_DATAOFFSET_UNION (m1 m2 : member) : Z := PB_SIZE_MAX.

Definition PB_REQUIRED_STATIC (t : Z) (m : member) (fd ltype p : Z) : pb_field_t :=
  PbField t (Z.lor (Z.lor PB_ATYPE_STATIC PB_HTYPE_REQUIRED) ltype) fd 0 (pb_membersize m) 0 p.

Definition PB_OPTIONAL_STATIC (t : Z) (has m : member) (fd ltype p : Z) : pb_field_t :=
  PbField t (Z.lor (Z.lor PB_ATYPE_STATIC PB_HTYPE_OPTIONAL) ltype)
    fd (pb_delta has m) (pb_membersize m) 0 p.

Definition PB_SINGULAR_STATIC (t : Z) (m : member) (fd ltype p : Z) : pb_field_t :=
  PbField t (Z.lor (Z.lor PB_ATYPE_STATIC PB_HTYPE_OPTIONAL) ltype) fd 0 (pb_membersize m) 0 p.

Definition PB_REPEATED_STATIC (t : Z) (count m : member) (fd ltype p : Z) : pb_field_t :=
  PbField t (Z.lor (Z.lor PB_ATYPE_STATIC PB_HTYPE_REPEATED) ltype)
    fd (pb_delta count m) (pb_eltsize m) (pb_arraysize m) p.

Definition PB_REQUIRED_POINTER (t : Z) (m : member) (fd ltype p : Z) : pb_field_t :=
  PbField t (Z.lor (Z.lor PB_ATYPE_POINTER PB_HTYPE_REQUIRED) ltype) fd 0 (pb_eltsize m) 0 p.

Definition PB_OPTIONAL_POINTER (t : Z) (m : member) (fd ltype p : Z) : pb_field_t :=
  PbField t (Z.lor (Z.lor PB_ATYPE_POINTER PB_HTYPE_OPTIONAL) ltype) fd 0 (pb_eltsize m) 0 p.

Definition PB_SINGULAR_POINTER (t : Z) (m : member) (fd ltype p : Z) : pb_field_t :=
  PbField t (Z.lor (Z.lor PB_ATYPE_POINTER PB_HTYPE_OPTIONAL) ltype) fd 0 (pb_eltsize m) 0 p.

Definition PB_REPEATED_POINTER (t : Z) (count m : member) (fd ltype p : Z) : pb_field_t :=
  PbField t (Z.lor (Z.lor PB_ATYPE_POINTER PB_HTYPE_REPEATED) ltype)
    fd (pb_delta count m) (pb_eltsize m) 0 p.

Definition PB_REQUIRED_CALLBACK (t : Z) (m : member) (fd ltype p : Z) : pb_field_t :=
  PbField t (Z.lor (Z.lor PB_ATYPE_CALLBACK PB_HTYPE_REQUIRED) ltype) fd 0 (pb_membersize m) 0 p.

Definition PB_OPTIONAL_CALLBACK (t : Z) (m : member) (fd ltype p : Z) : pb_field_t :=
  PbField t (Z.lor (Z.lor PB_ATYPE_CALLBACK PB_HTYPE_OPTIONAL) ltype) fd 0 (pb_membersize m) 0 p.

Definition PB_SINGULAR_CALLBACK (t : Z) (m : member) (fd ltype p : Z) : pb_field_t :=
  PbField t (Z.lor (Z.lor PB_ATYPE_CALLBACK PB_HTYPE_OPTIONAL) ltype) fd 0 (pb_membersize m) 0 p.

Definition PB_REPEATED_CALLBACK (t : Z) (m : member) (fd ltype p : Z) : pb_field_t :=
  PbField t (Z.lor (Z.lor PB_ATYPE_CALLBACK PB_HTYPE_REPEATED) ltype) fd 0 (pb_membersize m) 0 p.

Definition PB_OPTEXT_STATIC (t : Z) (m : member) (ltype p : Z) : pb_field_t :=
  PbField t (Z.lor (Z.lor PB_ATYPE_STATIC PB_HTYPE_REQUIRED) ltype) 0 0 (pb_membersize m) 0 p.

Definition PB_OPTEXT_POINTER (t : Z) (m : member) (fd ltype p : Z) : pb_field_t :=
  PB_OPTIONAL_POINTER t m fd ltype p.

Definition PB_OPTEXT_CALLBACK (t : Z) (m : member) (fd ltype p : Z) : pb_field_t :=
  PB_OPTIONAL_CALLBACK t m fd ltype p.

Definition PB_REPEATED_FIXED_COUNT (t : Z) (m : member) (fd ltype p : Z) : pb_field_t :=
  PbField t (Z.lor (Z.lor PB_ATYPE_STATIC PB_HTYPE_REPEATED) ltype)
    fd 0 (pb_eltsize m) (pb_arraysize m) p.

Definition PB_ONEOF_STATIC (t : Z) (which m : member) (fd ltype p : Z) : pb_field_t :=
  PbField t (Z.lor (Z.lor PB_ATYPE_STATIC PB_HTYPE_ONEOF) ltype)
    fd (pb_delta which m) (pb_membersize m) 0 p.

Definition PB_ONEOF_POINTER (t : Z) (which m : member) (fd ltype p : Z) : pb_field_t :=
  PbField t (Z.lor (Z.lor PB_ATYPE_POINTER PB_HTYPE_ONEOF) ltype)
    fd (pb_delta which m) (pb_eltsize m) 0 p.

(** The protobuf types of the generator and the LTYPE each maps to. *)
Inductive proto_type :=
| BOOL | BYTES | DOUBLE | ENUM | UENUM | FIXED32 | FIXED64 | FLOAT | INT32 | INT64
| MESSAGE | SFIXED32 | SFIXED64 | SINT32 | SINT64 | STRING | UINT32 | UINT64
| EXTENSION | FIXED_LENGTH_BYTES.

Definition PB_LTYPE_MAP (t : proto_type) : Z :=
  match t with
  | BOOL => PB_LTYPE_VARINT
  | BYTES => PB_LTYPE_BYTES
  | DOUBLE => PB_LTYPE_FIXED64
  | ENUM => PB_LTYPE_VARINT
  | UENUM => PB_LTYPE_UVARINT
  | FIXED32 => PB_LTYPE_FIXED32
  | FIXED64 => PB_LTYPE_FIXED64
  | FLOAT => PB_LTYPE_FIXED32
  | INT32 => PB_LTYPE_VARINT
  | INT64 => PB_LTYPE_VARINT
  | MESSAGE => PB_LTYPE_SUBMESSAGE
  | SFIXED32 => PB_LTYPE_FIXED32
  | SFIXED64 => PB_LTYPE_FIXED64
  | SINT32 => PB_LTYPE_SVARINT
  | SINT64 => PB_LTYPE_SVARINT
  | STRING => PB_LTYPE_STRING
  | UINT32 => PB_LTYPE_UVARINT
  | UINT64 => PB_LTYPE_UVARINT
  | EXTENSION => PB_LTYPE_EXTENSION
  | FIXED_LENGTH_BYTES => PB_LTYPE_FIXED_LENGTH_BYTES
  end.

(** ** Lemmas on field types *)

(** A type byte is determined by its three parts. *)
Lemma PB_type_parts x :
  0 <= x < 256 -> Z.lor (Z.lor (PB_ATYPE x) (PB_HTYPE x)) (PB_LTYPE x) = x.
Proof.
  intros Hx. unfold PB_ATYPE, PB_HTYPE, PB_LTYPE.
  rewrite <- !Z.land_lor_distr_r.
  change (Z.lor (Z.lor PB_ATYPE_MASK PB_HTYPE_MASK) PB_LTYPE_MASK) with (Z.ones 8).
  rewrite Z.land_ones by lia. by apply Z.mod_small.
Qed.

Lemma PB_LTYPE_range x : 0 <= PB_LTYPE x < 16.
Proof.
  unfold PB_LTYPE. change PB_LTYPE_MASK with (Z.ones 4).
  rewrite Z.land_ones by lia. by apply Z.mod_pos_bound.
Qed.

Lemma PB_HTYPE_cases x :
  PB_HTYPE x = PB_HTYPE_REQUIRED \/ PB_HTYPE x = PB_HTYPE_OPTIONAL \/
  PB_HTYPE x = PB_HTYPE_REPEATED \/ PB_HTYPE x = PB_HTYPE_ONEOF.
Proof.
  unfold PB_HTYPE, PB_HTYPE_MASK.
  replace (Z.land x 48) with (Z.shiftl (Z.land (Z.shiftr x 4) (Z.ones 2)) 4).
  2: { change 48 with (Z.shiftl (Z.ones 2) 4). Z.bitblast. }
  rewrite Z.land_ones by lia.
  pose proof (Z.mod_pos_bound (Z.shiftr x 4) (2 ^ 2) ltac:(lia)) as H.
  assert (forall y, 0 <= y < 2 ^ 2 -> y = 0 \/ y = 1 \/ y = 2 \/ y = 3) as C by lia.
  destruct (C _ H) as [-> | [-> | [-> | ->]]]; vm_compute; auto.
Qed.
