(* ===== verification/PbEnv.v ===== *)
(** * Streams and the program around the library

    The stream structures of pb_encode.h and pb_decode.h, the states the
    encoder and the decoder run on, and the interface to everything the
    library calls or points to but does not define: descriptor tables,
    user callbacks, user streams and the allocator. *)
From S2P Require Import Prelude Mem Comp Pb.

(** ** Streams *)

(** [callback] of an output stream: NULL (a sizing stream), [buf_write], or
    a user function, by address. *)
Inductive ocallback := OSizing | OBuf | OUser (f : Z).

Record pb_ostream_t := OStream {
  o_callback : ocallback;
  o_state : Z;
  o_max_size : Z;
  o_bytes_written : Z;
  o_errmsg : option string;
}.

(** [callback] of an input stream: [buf_read] or a user function. *)
Inductive icallback := IBuf | IUser (f : Z).

#[global] Instance icallback_eq_dec : EqDecision icallback.
Proof. solve_decision. Defined.

Record pb_istream_t := IStream {
  i_callback : icallback;
  i_state : Z;
  i_bytes_left : Z;
  i_errmsg : option string;
}.

(** ** The states of the two halves *)

Record estate := EState { e_stream : pb_ostream_t; e_mem : mem }.

(** [d_fixed] is the [fixed_count_size] of the running [pb_decode_noinit], the
    only local variable of the decoder whose address is taken and outlives the
    statement that took it. *)
Record dstate := DState { d_stream : pb_istream_t; d_mem : mem; d_fixed : Z }.

#[global] Instance estate_mem : HasMem estate.
Proof.
  refine {| get_mem := e_mem; set_mem m s := EState (e_stream s) m |}.
  all: by intros; repeat match goal with s : estate |- _ => destruct s end.
Defined.

#[global] Instance dstate_mem : HasMem dstate.
Proof.
  refine {| get_mem := d_mem; set_mem m s := DState (d_stream s) m (d_fixed s) |}.
  all: by intros; repeat match goal with s : dstate |- _ => destruct s end.
Defined.

Definition set_o_errmsg (e : option string) (s : pb_ostream_t) : pb_ostream_t :=
  OStream (o_callback s) (o_state s) (o_max_size s) (o_bytes_written s) e.

Definition set_i_errmsg (e : option string) (s : pb_istream_t) : pb_istream_t :=
  IStream (i_callback s) (i_state s) (i_bytes_left s) e.

Definition set_e_stream (o : pb_ostream_t) (s : estate) : estate := EState o (e_mem s).
Definition set_d_stream (i : pb_istream_t) (s : dstate) : dstate := DState i (d_mem s) (d_fixed s).
Definition set_d_fixed (z : Z) (s : dstate) : dstate := DState (d_stream s) (d_mem s) z.

#[global] Instance estate_err : HasErr estate := {
  get_err s := o_errmsg (e_stream s);
  set_err e s := set_e_stream (set_o_errmsg e (e_stream s)) s;
}.

#[global] Instance dstate_err : HasErr dstate := {
  get_err s := i_errmsg (d_stream s);
  set_err e s := set_d_stream (set_i_errmsg e (d_stream s)) s;
}.

(** Running a computation on another stream object (a substream): its result
    and the final value of that stream, with the current stream unchanged. *)
Definition on_ostream {A} (o : pb_ostream_t) (m : M estate A) : M estate (option A * pb_ostream_t) :=
  fun s =>
    match m (set_e_stream o s) with
    | Ok a s' => Ok (Some a, e_stream s') (set_e_stream (e_stream s) s')
    | Fail s' => Ok (None, e_stream s') (set_e_stream (e_stream s) s')
    | Ub => Ub
    | Timeout => Timeout
    end.

Definition on_istream {A} (i : pb_istream_t) (m : M dstate A) : M dstate (option A * pb_istream_t) :=
  fun s =>
    match m (set_d_stream i s) with
    | Ok a s' => Ok (Some a, d_stream s') (set_d_stream (d_stream s) s')
    | Fail s' => Ok (None, d_stream s') (set_d_stream (d_stream s) s')
    | Ub => Ub
    | Timeout => Timeout
    end.

(** ** The program around the library *)

Class PbEnv := {
  (** the descriptor array at an address ([field->ptr] of a submessage) *)
  env_fields : Z -> option (list pb_field_t);
  (** the extension type at an address ([extension->type]) *)
  env_ext_type : Z -> option pb_extension_type_t;

  (** [stream->callback(stream, buf, count)] of user streams: the returned
      bool, the bytes put in [buf] (for input), the stream and the memory *)
  env_ostream_cb : Z -> pb_ostream_t -> list byte -> mem -> bool * pb_ostream_t * mem;
  env_istream_cb : Z -> pb_istream_t -> Z -> mem -> bool * list byte * pb_istream_t * mem;

  (** field callbacks [funcs.encode(stream, field, arg)] and
      [funcs.decode(stream, field, arg)] *)
  env_encode_cb : Z -> pb_ostream_t -> pb_field_t -> Z -> mem -> bool * pb_ostream_t * mem;
  env_decode_cb : Z -> pb_istream_t -> pb_field_t -> Z -> mem -> bool * pb_istream_t * mem;

  (** custom extension handlers [type->encode(stream, extension)] and
      [type->decode(stream, extension, tag, wire_type)] *)
  env_ext_encode : Z -> pb_ostream_t -> Z -> mem -> bool * pb_ostream_t * mem;
  env_ext_decode : Z -> pb_istream_t -> Z -> Z -> Z -> mem -> bool * pb_istream_t * mem;

  (** [pb_realloc(ptr, size)]: where the block is placed, or [None] when the
      request fails; and where the stack places an array of a given size *)
  env_realloc : mem -> Z -> Z -> option Z;
  env_stack : mem -> Z -> Z;
}.

(** Calling a user function from the encoder or from the decoder. *)
Definition call_o (f : pb_ostream_t -> mem -> bool * pb_ostream_t * mem) : M estate bool := fun s =>
  match f (e_stream s) (e_mem s) with
  | (b, o, m) => Ok b (EState o m)
  end.

Definition call_i (f : pb_istream_t -> mem -> bool * pb_istream_t * mem) : M dstate bool := fun s =>
  match f (d_stream s) (d_mem s) with
  | (b, i, m) => Ok b (DState i m (d_fixed s))
  end.
