(* ===== verification/PbCommon.v ===== *)
(** * pb_common.c: the field iterator

    [pos] is the index into the descriptor array, whose last element is the
    terminator (tag 0).  [pSize] is an address, or the decoder's local
    [fixed_count_size]. *)
From S2P Require Import Prelude Mem Comp Pb PbEnv.

Inductive size_ptr := PMem (a : Z) | PLocal.

#[global] Instance size_ptr_eq_dec : EqDecision size_ptr.
Proof. solve_decision. Defined.

Record pb_field_iter_t := Iter {
  start : list pb_field_t;
  pos : nat;
  required_field_index : Z;
  dest_struct : Z;
  pData : Z;
  pSize : size_ptr;
}.

Section Iterator.
Context {S : Type}.

(** [*iter->pos] *)
Definition cur (iter : pb_field_iter_t) : M S pb_field_t :=
  of_option (start iter !! pos iter).

Definition pb_field_iter_begin (fields : list pb_field_t) (dest : Z)
  : M S (bool * pb_field_iter_t) :=
  f ← of_option (fields !! 0%nat) ;
  let data := dest + data_offset f in
  ret (negb (tag f =? 0), Iter fields 0 0 dest data (PMem (data + size_offset f))).

Definition pb_field_iter_next (iter : pb_field_iter_t) : M S (bool * pb_field_iter_t) :=
  prev_field ← cur iter ;
  if tag prev_field =? 0 then ret (false, iter)
  else
    let pos' := Datatypes.S (pos iter) in
    f ← of_option (start iter !! pos') ;
    if tag f =? 0 then
      '(_, iter') ← pb_field_iter_begin (start iter) (dest_struct iter) ;
      ret (false, iter')
    else
      if (PB_HTYPE (type prev_field) =? PB_HTYPE_ONEOF) &&
         (PB_HTYPE (type f) =? PB_HTYPE_ONEOF) &&
         (data_offset f =? PB_SIZE_MAX)
      then
        (* don't advance pointers inside unions *)
        ret (true, Iter (start iter) pos' (required_field_index iter) (dest_struct iter)
                     (pData iter) (pSize iter))
      else
        let prev_size :=
          if (PB_ATYPE (type prev_field) =? PB_ATYPE_STATIC) &&
             (PB_HTYPE (type prev_field) =? PB_HTYPE_REPEATED)
          then u64 (data_size prev_field * array_size prev_field)
          else if PB_ATYPE (type prev_field) =? PB_ATYPE_POINTER then sizeof_ptr
          else data_size prev_field in
        let required :=
          if PB_HTYPE (type prev_field) =? PB_HTYPE_REQUIRED
          then u32 (required_field_index iter + 1)
          else required_field_index iter in
        let data := pData iter + prev_size + data_offset f in
        ret (true, Iter (start iter) pos' required (dest_struct iter)
                     data (PMem (data + size_offset f))).

Definition pb_field_iter_find (iter : pb_field_iter_t) (t : Z) : M S (bool * pb_field_iter_t) :=
  let start_pos := pos iter in
  loop (Datatypes.S (length (start iter))) (fun it =>
    f ← cur it ;
    if (tag f =? t) && negb (PB_LTYPE (type f) =? PB_LTYPE_EXTENSION)
    then ret (inr (true, it))
    else
      '(_, it') ← pb_field_iter_next it ;
      if Nat.eqb (pos it') start_pos then ret (inr (false, it')) else ret (inl it'))
    iter.
End Iterator.

(** [do body while (pb_field_iter_next(&iter))] *)
Definition do_fields {S} (body : pb_field_iter_t -> M S unit) (iter : pb_field_iter_t) : M S unit :=
  loop (Datatypes.S (length (start iter))) (fun it =>
    body it ;;
    '(more, it') ← pb_field_iter_next it ;
    ret (if more : bool then inl it' else inr tt))
    iter.
