(* ===== verification/OStream.v ===== *)
(** * pb_encode.c: output streams and primitive encoders

    [pb_ostream_t] operations ([buf_write], [pb_write]) and the helper
    functions that write one primitive value. *)
From S2P Require Import Prelude Mem Comp Pb PbEnv.

(** The [buf] argument of a write: NULL, an address, or a local array of the
    calling function (its contents). *)
Inductive wsrc := WNull | WMem (a : Z) | WLocal (bs : list byte).

Definition wsrc_bytes (src : wsrc) (count : Z) (m : mem) : option (list byte) :=
  match src with
  | WNull => if count =? 0 then Some [] else None
  | WMem a => load_bytes m a (Z.to_nat count)
  | WLocal bs => if Z.of_nat (length bs) <? count then None else Some (take (Z.to_nat count) bs)
  end.

Definition pb_ostream_from_buffer (buf bufsize : Z) : pb_ostream_t :=
  OStream OBuf buf bufsize 0 None.

Definition PB_OSTREAM_SIZING : pb_ostream_t := OStream OSizing 0 0 0 None.

Definition set_o_state (a : Z) (o : pb_ostream_t) : pb_ostream_t :=
  OStream (o_callback o) a (o_max_size o) (o_bytes_written o) (o_errmsg o).

Definition set_o_bytes_written (n : Z) (o : pb_ostream_t) : pb_ostream_t :=
  OStream (o_callback o) (o_state o) (o_max_size o) n (o_errmsg o).

Section OStream.
Context `{PbEnv}.

Definition ostream : M estate pb_ostream_t := gets e_stream.
Definition upd_ostream (f : pb_ostream_t -> pb_ostream_t) : M estate unit :=
  modify (fun s => set_e_stream (f (e_stream s)) s).

Definition buf_write (buf : wsrc) (count : Z) : M estate unit :=
  o ← ostream ;
  let dest := o_state o in
  upd_ostream (set_o_state (dest + count)) ;;
  match buf with
  | WMem a => memcpy dest a count
  | _ => s ← get ; bs ← of_option (wsrc_bytes buf count (e_mem s)) ; st_bytes dest bs
  end.

(** [stream->callback(stream, buf, count)] *)
Definition ostream_callback (buf : wsrc) (count : Z) : M estate bool :=
  o ← ostream ;
  match o_callback o with
  | OSizing => ub
  | OBuf => buf_write buf count ;; ret true
  | OUser f =>
      s ← get ; bs ← of_option (wsrc_bytes buf count (e_mem s)) ;
      call_o (fun o m => env_ostream_cb f o bs m)
  end.

Definition pb_write (buf : wsrc) (count : Z) : M estate unit :=
  o ← ostream ;
  match o_callback o with
  | OSizing => ret tt
  | _ =>
      if o_max_size o <? u64 (o_bytes_written o + count)
      then PB_RETURN_ERROR "stream full"
      else
        ok ← ostream_callback buf count ;
        if negb ok then PB_RETURN_ERROR "io error" else ret tt
  end ;;
  upd_ostream (fun o => set_o_bytes_written (u64 (o_bytes_written o + count)) o).

(** [buffer[10]] and [i] of the loop are the bytes written so far. *)
Definition pb_encode_varint (value : Z) : M estate unit :=
  if value <=? 0x7F then pb_write (WLocal [byte_of value]) 1
  else
    buffer ← loop 11 (fun '(value, buffer) =>
      if value =? 0 then ret (inr buffer)
      else if (10 <=? length buffer)%nat then ub
      else ret (inl (Z.shiftr value 7,
                     buffer ++ [byte_of (Z.lor (Z.land value 0x7F) 0x80)])))
      (value, []) ;
    let i := length buffer in
    let buffer := alter (fun b => byte_of (Z.land (byte_val b) 0x7F)) (i - 1)%nat buffer in
    pb_write (WLocal buffer) (Z.of_nat i).

Definition pb_encode_svarint (value : Z) : M estate unit :=
  let zigzagged :=
    if value <? 0 then u64 (Z.lnot (u64 (Z.shiftl (u64 value) 1)))
    else u64 (Z.shiftl (u64 value) 1) in
  pb_encode_varint zigzagged.

Definition byte_at (val shift : Z) : byte := byte_of (Z.land (Z.shiftr val shift) 0xFF).

Definition pb_encode_fixed32 (value : Z) : M estate unit :=
  val ← ld_u32 value ;
  pb_write (WLocal [byte_at val 0; byte_at val 8; byte_at val 16; byte_at val 24]) 4.

Definition pb_encode_fixed64 (value : Z) : M estate unit :=
  val ← ld_u64 value ;
  pb_write (WLocal [byte_at val 0; byte_at val 8; byte_at val 16; byte_at val 24;
                    byte_at val 32; byte_at val 40; byte_at val 48; byte_at val 56]) 8.

Definition pb_encode_tag (wiretype field_number : Z) : M estate unit :=
  pb_encode_varint (Z.lor (u64 (Z.shiftl field_number 3)) wiretype).

(** The wire type of an LTYPE in the [switch] of [pb_encode_tag_for_field]. *)
Definition wiretype_of (ltype : Z) : option Z :=
  if (ltype =? PB_LTYPE_VARINT) || (ltype =? PB_LTYPE_UVARINT) || (ltype =? PB_LTYPE_SVARINT)
  then Some PB_WT_VARINT
  else if ltype =? PB_LTYPE_FIXED32 then Some PB_WT_32BIT
  else if ltype =? PB_LTYPE_FIXED64 then Some PB_WT_64BIT
  else if (ltype =? PB_LTYPE_BYTES) || (ltype =? PB_LTYPE_STRING) ||
          (ltype =? PB_LTYPE_SUBMESSAGE) || (ltype =? PB_LTYPE_FIXED_LENGTH_BYTES)
  then Some PB_WT_STRING
  else None.

Definition pb_encode_tag_for_field (field : pb_field_t) : M estate unit :=
  match wiretype_of (PB_LTYPE (type field)) with
  | Some wiretype => pb_encode_tag wiretype (tag field)
  | None => PB_RETURN_ERROR "invalid field type"
  end.

Definition pb_encode_string (buffer : wsrc) (size : Z) : M estate unit :=
  pb_encode_varint size ;;
  pb_write buffer size.

(** ** Field encoders of scalar, bytes and string types *)

Definition pb_enc_varint (field : pb_field_t) (src : Z) : M estate unit :=
  value ←
    (if data_size field =? 1 then ld_s8 src
     else if data_size field =? 2 then ld_s16 src
     else if data_size field =? 4 then ld_s32 src
     else if data_size field =? 8 then ld_s64 src
     else PB_RETURN_ERROR "invalid data_size") ;
  pb_encode_varint (u64 value).

Definition pb_enc_uvarint (field : pb_field_t) (src : Z) : M estate unit :=
  value ←
    (if data_size field =? 1 then ld_u8 src
     else if data_size field =? 2 then ld_u16 src
     else if data_size field =? 4 then ld_u32 src
     else if data_size field =? 8 then ld_u64 src
     else PB_RETURN_ERROR "invalid data_size") ;
  pb_encode_varint value.

Definition pb_enc_svarint (field : pb_field_t) (src : Z) : M estate unit :=
  value ←
    (if data_size field =? 1 then ld_s8 src
     else if data_size field =? 2 then ld_s16 src
     else if data_size field =? 4 then ld_s32 src
     else if data_size field =? 8 then ld_s64 src
     else PB_RETURN_ERROR "invalid data_size") ;
  pb_encode_svarint value.

Definition pb_enc_fixed32 (field : pb_field_t) (src : Z) : M estate unit :=
  pb_encode_fixed32 src.

Definition pb_enc_fixed64 (field : pb_field_t) (src : Z) : M estate unit :=
  pb_encode_fixed64 src.

Definition pb_enc_bytes (field : pb_field_t) (src : Z) : M estate unit :=
  if src =? NULL then pb_encode_string WNull 0
  else
    size ← ld_u32 (src + bytes_array_size) ;
    if (PB_ATYPE (type field) =? PB_ATYPE_STATIC) &&
       (data_size field <? PB_BYTES_ARRAY_T_ALLOCSIZE size)
    then PB_RETURN_ERROR "bytes size exceeded"
    else pb_encode_string (WMem (src + bytes_array_bytes)) size.

(** The [strnlen] loop: a memory with [n] cells has no string longer than
    [n], so [n + 1] rounds are enough. *)
Definition strnlen (p max_size : Z) : M estate Z :=
  n ← gets (fun s => base.size (m_cells (e_mem s))) ;
  loop (S n) (fun '(size, p) =>
    if size <? max_size then
      c ← ld_u8 p ;
      ret (if c =? 0 then inr size else inl (size + 1, p + 1))
    else ret (inr size))
    (0, p).

Definition pb_enc_string (field : pb_field_t) (src : Z) : M estate unit :=
  let max_size := if PB_ATYPE (type field) =? PB_ATYPE_POINTER then u64 (-1) else data_size field in
  if src =? NULL then pb_encode_string WNull 0
  else
    size ← strnlen src max_size ;
    pb_encode_string (WMem src) size.

Definition pb_enc_fixed_length_bytes (field : pb_field_t) (src : Z) : M estate unit :=
  pb_encode_string (WMem src) (data_size field).
End OStream.
