(* ===== verification/EncodeLogic.v ===== *)
(** * A logic of writing

    [writes src bs m a]: on every stream with room for [bs], in every memory
    that holds the data [src], the computation [m] succeeds with [a], appends
    exactly the bytes [bs] to the stream and changes nothing else; on a buffer
    without that room it fails with "stream full" and has touched nothing but
    the room there was.  A sizing stream and a buffer stream are both
    instances, so what is proved in this logic says at once what is written,
    how large it is and when it does not fit. *)
From S2P Require Import Prelude Mem Comp Varint Pb PbEnv OStream.

(** The effect of appending [bs] to the current stream. *)
Definition emit (bs : list byte) (s : estate) : estate :=
  let o := e_stream s in
  let n := Z.of_nat (length bs) in
  match o_callback o with
  | OBuf =>
      EState (OStream OBuf (o_state o + n) (o_max_size o) (u64 (o_bytes_written o + n)) (o_errmsg o))
        (put_bytes (e_mem s) (o_state o) bs)
  | cb =>
      EState (OStream cb (o_state o) (o_max_size o) (u64 (o_bytes_written o + n)) (o_errmsg o))
        (e_mem s)
  end.

(** The stream can take [n] more bytes, outside the data [src]. *)
Record writable (src : mem) (s : estate) (n : Z) : Prop := {
  w_src : m_cells src ⊆ m_cells (e_mem s);
  w_err : o_errmsg (e_stream s) = None;
  w_bw : 0 <= o_bytes_written (e_stream s) < 2 ^ 64;
  w_cb : match o_callback (e_stream s) with
         | OSizing => True
         | OBuf =>
             o_bytes_written (e_stream s) + n <= o_max_size (e_stream s) < 2 ^ 64 /\
             mapped (e_mem s) (o_state (e_stream s)) n /\
             forall i, 0 <= i < n -> m_cells src !! (o_state (e_stream s) + i) = None
         | OUser _ => False
         end;
}.

(** The stream is a buffer that has less than [n] bytes left. *)
Record full (src : mem) (s : estate) (n : Z) : Prop := {
  f_src : m_cells src ⊆ m_cells (e_mem s);
  f_err : o_errmsg (e_stream s) = None;
  f_cb : o_callback (e_stream s) = OBuf;
  f_bw : 0 <= o_bytes_written (e_stream s) <= o_max_size (e_stream s);
  f_room : o_max_size (e_stream s) < o_bytes_written (e_stream s) + n < 2 ^ 64;
  f_mapped : mapped (e_mem s) (o_state (e_stream s))
               (o_max_size (e_stream s) - o_bytes_written (e_stream s));
  f_disjoint : forall i, 0 <= i < o_max_size (e_stream s) - o_bytes_written (e_stream s) ->
    m_cells src !! (o_state (e_stream s) + i) = None;
}.

(** A failed write: only cells of the room left in [s] may have changed. *)
Record stream_full (s s' : estate) : Prop := {
  sf_err : o_errmsg (e_stream s') = Some "stream full"%string;
  sf_bw : o_bytes_written (e_stream s) <= o_bytes_written (e_stream s') <= o_max_size (e_stream s);
  sf_heap : m_heap (e_mem s') = m_heap (e_mem s);
  sf_cells a :
    ~ (o_state (e_stream s) <= a <
       o_state (e_stream s) + (o_max_size (e_stream s) - o_bytes_written (e_stream s))) ->
    m_cells (e_mem s') !! a = m_cells (e_mem s) !! a;
}.

Record writes {A} (src : mem) (bs : list byte) (m : M estate A) (a : A) : Prop := {
  writes_fit s : writable src s (Z.of_nat (length bs)) -> m s = Ok a (emit bs s);
  writes_full s : full src s (Z.of_nat (length bs)) ->
    exists s', m s = Fail s' /\ stream_full s s';
}.

(** The bytes of a [buf] argument, found in the data. *)
Definition wsrc_is (src : mem) (w : wsrc) (bs : list byte) : Prop :=
  match w with
  | WNull => bs = []
  | WMem a => load_bytes src a (length bs) = Some bs
  | WLocal l => l = bs
  end.

(** ** Facts about [emit] and [writable] *)

Lemma u64_add a b : u64 (u64 a + b) = u64 (a + b).
Proof. unfold u64. by rewrite Z.add_mod_idemp_l. Qed.

Lemma emit_nil s : 0 <= o_bytes_written (e_stream s) < 2 ^ 64 -> emit [] s = s.
Proof.
  destruct s as [[cb st mx bw er] m]. unfold emit; simpl. intros.
  rewrite !Z.add_0_r, u64_id by done. by destruct cb.
Qed.

Lemma emit_app bs1 bs2 s : emit (bs1 ++ bs2) s = emit bs2 (emit bs1 s).
Proof.
  destruct s as [[cb st mx bw er] m]. unfold emit; simpl.
  rewrite length_app, Nat2Z.inj_add.
  destruct cb; simpl; rewrite ?u64_add, ?Z.add_assoc, ?put_bytes_app; done.
Qed.

Lemma load_byte_src src m a b :
  m_cells src ⊆ m_cells m -> load_byte src a = Some b -> load_byte m a = Some b.
Proof.
  unfold load_byte. intros Hs Hl. destruct (m_cells src !! a) as [c|] eqn:E; [|done].
  by rewrite (lookup_weaken _ _ _ _ E Hs).
Qed.

Lemma src_mem_le src m : m_cells src ⊆ m_cells m -> mem_le src m.
Proof. intros H a b. by apply load_byte_src. Qed.

Lemma put_bytes_src src m a bs :
  m_cells src ⊆ m_cells m ->
  (forall i, 0 <= i < Z.of_nat (length bs) -> m_cells src !! (a + i) = None) ->
  m_cells src ⊆ m_cells (put_bytes m a bs).
Proof.
  intros Hs Hd. apply map_subseteq_spec. intros x c Hx.
  rewrite cells_put_bytes_ne; [by apply (lookup_weaken _ _ _ _ Hx)|].
  intros Hr. specialize (Hd (x - a) ltac:(lia)). replace (a + (x - a)) with x in Hd by lia.
  congruence.
Qed.

Lemma writable_le src s n n' : 0 <= n' <= n -> writable src s n -> writable src s n'.
Proof.
  intros Hn [H1 H2 H3 H4]. split; [done..|].
  destruct (o_callback (e_stream s)); [done| |done].
  destruct H4 as (Hr & Hm & Hd). split_and!; [lia..| |].
  - intros i Hi. apply Hm. lia.
  - intros i Hi. apply Hd. lia.
Qed.

Lemma writable_emit src s bs n :
  0 <= n ->
  writable src s (Z.of_nat (length bs) + n) -> writable src (emit bs s) n.
Proof.
  intros Hn [H1 H2 H3 H4]. destruct s as [[cb st mx bw er] m]; unfold emit; simpl in *.
  pose proof (u64_range (bw + Z.of_nat (length bs))).
  destruct cb; simpl in *; [by split| |done].
  destruct H4 as (Hr & Hm & Hd). split; simpl; try done.
  - apply put_bytes_src; [done|]. intros i Hi. apply Hd. lia.
  - rewrite u64_id by lia. split_and!; [lia..| |].
    + intros i Hi. apply put_bytes_mapped. rewrite <- Z.add_assoc. apply Hm. lia.
    + intros i Hi. rewrite <- Z.add_assoc. apply Hd. lia.
Qed.

Lemma full_nil src s n : n <= 0 -> ~ full src s n.
Proof. intros Hn [_ _ _ Hb Hr _ _]. lia. Qed.

(** When the sum does not fit, either the first part does not, or it does and
    the rest does not. *)
Lemma full_split src s bs n :
  0 <= n -> full src s (Z.of_nat (length bs) + n) ->
  full src s (Z.of_nat (length bs)) \/
  (writable src s (Z.of_nat (length bs)) /\ full src (emit bs s) n /\
   forall s', stream_full (emit bs s) s' -> stream_full s s').
Proof.
  intros Hn [H1 H2 H3 H4 H5 H6 H7]. destruct s as [[cb st mx bw er] m]; simpl in *; subst.
  destruct (decide (mx < bw + Z.of_nat (length bs))); [left; split; simpl; done || lia|right].
  unfold emit; simpl. split_and!.
  - split; simpl; [done..|lia|]. split_and!; [lia..| |].
    + intros i Hi. apply H6. lia.
    + intros i Hi. apply H7. lia.
  - split; simpl; rewrite ?u64_id by lia; try done; try lia.
    + apply put_bytes_src; [done|]. intros i Hi. apply H7. lia.
    + intros i Hi. apply put_bytes_mapped. rewrite <- Z.add_assoc. apply H6. lia.
    + intros i Hi. rewrite <- Z.add_assoc. apply H7. lia.
  - intros s' [E1 E2 E3 E4]; simpl in *. rewrite u64_id in * by lia.
    split; simpl; [done|lia|by rewrite put_bytes_heap in E3|].
    intros a Ha. rewrite E4 by lia. apply cells_put_bytes_ne. lia.
Qed.

(** ** Rules *)

Section Rules.
Context {src : mem}.

(** Code that writes nothing. *)
Lemma writes_nil {A} (m : M estate A) a :
  (forall s, writable src s 0 -> m s = Ok a s) -> writes src [] m a.
Proof.
  intros Hm. split.
  - intros s Hs. rewrite emit_nil by apply Hs. by apply Hm.
  - intros s Hs. by apply full_nil in Hs.
Qed.

Lemma writes_ret {A} (a : A) : writes src [] (ret a) a.
Proof. by apply writes_nil. Qed.

Lemma writes_bind {A B} bs1 bs2 (m : M estate A) (k : A -> M estate B) a b :
  writes src bs1 m a -> writes src bs2 (k a) b -> writes src (bs1 ++ bs2) (bind m k) b.
Proof.
  intros [Hm Hm'] [Hk Hk']. split; intros s Hs; rewrite length_app, Nat2Z.inj_add in Hs.
  - rewrite (bind_ok m k s a (emit bs1 s)).
    + rewrite emit_app. apply Hk. apply writable_emit; [lia|done].
    + apply Hm. eapply writable_le; [|exact Hs]. lia.
  - apply full_split in Hs as [Hs|(Hs & Hf & Hsf)]; [| |lia].
    + destruct (Hm' s Hs) as (s' & E & ?). exists s'. by rewrite (bind_fail m k s s').
    + rewrite (bind_ok m k s a (emit bs1 s)) by by apply Hm.
      destruct (Hk' _ Hf) as (s' & E & ?). eauto.
Qed.

(** The common cases where one side writes nothing. *)
Lemma writes_bind_nil {A B} bs (m : M estate A) (k : A -> M estate B) a b :
  writes src [] m a -> writes src bs (k a) b -> writes src bs (bind m k) b.
Proof. intros Hm Hk. by apply (writes_bind [] bs m k a b). Qed.

Lemma writes_then_ret {A B} bs (m : M estate A) (k : A -> M estate B) a b :
  writes src bs m a -> writes src [] (k a) b -> writes src bs (bind m k) b.
Proof. intros Hm Hk. rewrite <- (app_nil_r bs). by apply (writes_bind bs [] m k a b). Qed.

Lemma writes_of_option {A} (o : option A) a : o = Some a -> writes src [] (of_option o) a.
Proof. intros ->. apply writes_ret. Qed.

Lemma writes_load f z :
  (forall m, m_cells src ⊆ m_cells m -> f m = Some z) -> writes src [] (load f) z.
Proof.
  intros Hf. apply writes_nil. intros s Hs. unfold load. by rewrite (Hf (get_mem s)) by apply Hs.
Qed.

Lemma writes_load_uint n a z :
  load_uint src a n = Some z -> writes src [] (load (fun m => load_uint m a n)) z.
Proof.
  intros Hz. apply writes_load. intros m Hm.
  by apply (load_uint_le src), Hz; apply src_mem_le.
Qed.

Lemma writes_load_sint n a z :
  load_sint src a n = Some z -> writes src [] (load (fun m => load_sint m a n)) z.
Proof.
  intros Hz. apply writes_load. intros m Hm.
  by apply (load_sint_le src), Hz; apply src_mem_le.
Qed.

Lemma writes_ld_bool a z :
  load_uint src a 1 = Some z -> writes src [] (ld_bool a) (negb (z =? 0)).
Proof.
  intros Hz. unfold ld_bool. eapply writes_bind_nil; [by apply writes_load_uint|].
  apply writes_ret.
Qed.

Lemma writes_loop_step {X A} n (body : X -> M estate (X + A)) x x' bs1 bs2 a :
  writes src bs1 (body x) (inl x') -> writes src bs2 (loop n body x') a ->
  writes src (bs1 ++ bs2) (loop (S n) body x) a.
Proof. intros H1 H2. cbn [loop]. eapply writes_bind; [exact H1|done]. Qed.

Lemma writes_loop_exit {X A} n (body : X -> M estate (X + A)) x bs a :
  writes src bs (body x) (inr a) -> writes src bs (loop (S n) body x) a.
Proof. intros H1. cbn [loop]. eapply writes_then_ret; [exact H1|apply writes_ret]. Qed.

(** More fuel does not change what is written. *)
Lemma writes_loop_mono {X A} n n' (body : X -> M estate (X + A)) x bs a :
  (n <= n')%nat -> writes src bs (loop n body x) a -> writes src bs (loop n' body x) a.
Proof.
  intros Hn [H H']. split; intros s Hs.
  - rewrite (loop_mono body n n' x s); [by apply H|done|]. by rewrite (H s Hs).
  - destruct (H' s Hs) as (s' & E & ?). exists s'.
    rewrite (loop_mono body n n' x s); [done..|]. by rewrite E.
Qed.

Lemma writes_eq {A} bs bs' (m : M estate A) a :
  writes src bs' m a -> bs = bs' -> writes src bs m a.
Proof. by intros ? ->. Qed.

(** Code that branches on the kind of stream. *)
Lemma writes_ostream {A} bs (k : pb_ostream_t -> M estate A) a :
  (forall s, writable src s (Z.of_nat (length bs)) -> k (e_stream s) s = Ok a (emit bs s)) ->
  (forall s, full src s (Z.of_nat (length bs)) ->
     exists s', k (e_stream s) s = Fail s' /\ stream_full s s') ->
  writes src bs (bind ostream k) a.
Proof. intros H H'. split; intros s Hs; [by apply H|by apply H']. Qed.
End Rules.

Lemma writable_src_load src s n a k bs :
  writable src s n -> load_bytes src a k = Some bs -> load_bytes (e_mem s) a k = Some bs.
Proof. intros Hw. apply load_bytes_le, src_mem_le, Hw. Qed.

(** Data found in [src] does not overlap a region outside [src]. *)
Lemma src_disjoint src a d n bs :
  load_bytes src a n = Some bs ->
  (forall i, 0 <= i < Z.of_nat n -> m_cells src !! (d + i) = None) ->
  n = O \/ d + Z.of_nat n <= a \/ a + Z.of_nat n <= d.
Proof.
  intros Hl Hd. destruct n as [|n]; [by left|right].
  destruct (decide (d + Z.of_nat (S n) <= a)); [by left|].
  destruct (decide (a + Z.of_nat (S n) <= d)); [by right|exfalso].
  (* the larger of the two starting points is in both *)
  set (x := Z.max a d).
  pose proof (load_bytes_lookup _ _ _ _ (x - a) Hl ltac:(lia)) as Hx.
  pose proof (Hd (x - d) ltac:(lia)) as Hn.
  replace (a + (x - a)) with x in Hx by lia. replace (d + (x - d)) with x in Hn by lia.
  unfold load_byte in Hx. rewrite Hn in Hx.
  symmetry in Hx. apply lookup_ge_None in Hx.
  rewrite (load_bytes_length _ _ _ _ Hl) in Hx. lia.
Qed.

(** ** [pb_write] *)

Section Write.
Context `{PbEnv} {src : mem}.

Lemma writes_buf_write w bs s :
  wsrc_is src w bs -> o_callback (e_stream s) = OBuf ->
  writable src s (Z.of_nat (length bs)) ->
  buf_write w (Z.of_nat (length bs)) s =
    Ok tt (EState (set_o_state (o_state (e_stream s) + Z.of_nat (length bs)) (e_stream s))
             (put_bytes (e_mem s) (o_state (e_stream s)) bs)).
Proof.
  intros Hw Hcb Hs. pose proof (w_cb _ _ _ Hs) as Hc. rewrite Hcb in Hc.
  destruct Hc as (Hr & Hm & Hd). unfold buf_write, ostream, upd_ostream, gets, modify.
  unfold bind at 1 2. destruct w as [|a|l]; simpl in Hw.
  - subst bs. simpl. done.
  - unfold memcpy, mem_op; simpl. rewrite Nat2Z.id.
    destruct (src_disjoint src a (o_state (e_stream s)) _ _ Hw Hd) as [E|Hdis].
    + destruct bs; [|done]. done.
    + rewrite (copy_loop_disjoint _ _ _ _ bs); [done| |done|lia].
      by eapply writable_src_load.
  - subst l. unfold bind, get, st_bytes, mem_op; simpl.
    rewrite Z.ltb_irrefl; simpl.
    rewrite Nat2Z.id, take_ge by lia. unfold ret.
    by rewrite store_bytes_mapped.
Qed.

(** The check that protects a buffer. *)
Lemma full_return_error {A} s n :
  full src s n ->
  exists s', PB_RETURN_ERROR (A := A) "stream full" s = Fail s' /\ stream_full s s'.
Proof.
  intros [H1 H2 H3 H4 H5 H6 H7]. eexists. split; [done|].
  split; simpl; [|lia|done..]. by rewrite H2.
Qed.

Lemma writes_pb_write w bs :
  wsrc_is src w bs -> writes src bs (pb_write w (Z.of_nat (length bs))) tt.
Proof.
  intros Hw. split; intros s Hs.
  2: { unfold pb_write, ostream at 1, gets. unfold bind at 1 2. rewrite (f_cb _ _ _ Hs).
    pose proof (f_room _ _ _ Hs). pose proof (f_bw _ _ _ Hs). rewrite u64_id by lia.
    destruct (Z.ltb_spec (o_max_size (e_stream s))
      (o_bytes_written (e_stream s) + Z.of_nat (length bs))); [|lia].
    destruct (full_return_error (A := unit) s _ Hs) as (s' & -> & ?). eauto. }
  pose proof (w_cb _ _ _ Hs) as Hc. pose proof (w_bw _ _ _ Hs) as Hb.
  unfold pb_write, ostream at 1, gets. unfold bind at 1.
  destruct (o_callback (e_stream s)) eqn:Hcb; [| |done].
  - unfold emit. rewrite Hcb. unfold bind, upd_ostream, modify, set_e_stream, ret.
    unfold set_o_bytes_written. by rewrite Hcb.
  - rewrite u64_id by lia. destruct (Z.ltb_spec (o_max_size (e_stream s))
      (o_bytes_written (e_stream s) + Z.of_nat (length bs))); [lia|].
    assert (ostream_callback w (Z.of_nat (length bs)) s =
      Ok true (EState (set_o_state (o_state (e_stream s) + Z.of_nat (length bs)) (e_stream s))
             (put_bytes (e_mem s) (o_state (e_stream s)) bs))) as E.
    { unfold ostream_callback, ostream, gets. unfold bind at 1. rewrite Hcb.
      by rewrite (bind_ok _ _ _ _ _ (writes_buf_write w bs s Hw Hcb Hs)). }
    unfold bind at 1. rewrite (bind_ok _ _ _ _ _ E). cbn [negb]. unfold ret.
    unfold emit, upd_ostream, modify, set_e_stream, set_o_bytes_written; simpl.
    by rewrite Hcb, !u64_id by lia.
Qed.
End Write.

(** ** [pb_encode_varint] *)

(** The groups the loop stores: continuation bit on all of them. *)
Fixpoint groups (n : nat) (v : Z) : list byte :=
  match n with
  | O => []
  | S n' => if v =? 0 then [] else byte_of (v mod 128 + 128) :: groups n' (v / 128)
  end.

Lemma clear_continuation v : 0 <= v < 128 ->
  byte_of (Z.land (byte_val (byte_of (v mod 128 + 128))) 0x7F) = byte_of v.
Proof.
  intros Hv. rewrite byte_val_of. change 0x7F with (Z.ones 7). rewrite Z.land_ones by lia.
  f_equal. change (2 ^ 7) with 128.
  rewrite Z.mod_mod_divide by (by exists 2).
  rewrite Z.add_mod, Z.mod_mod, Z_mod_same_full, Z.add_0_r, Z.mod_mod by lia.
  by apply Z.mod_small.
Qed.

Lemma alter_last {A} (f : A -> A) (l : list A) (x : A) :
  alter f (length (l ++ [x]) - 1)%nat (l ++ [x]) = l ++ [f x].
Proof.
  rewrite length_app. simpl. replace (length l + 1 - 1)%nat with (length l + 0)%nat by lia.
  by rewrite alter_app_r.
Qed.

Lemma clear_last_groups n acc v :
  0 < v < 128 ^ Z.of_nat n ->
  alter (fun b => byte_of (Z.land (byte_val b) 0x7F))
    (length (acc ++ groups n v) - 1)%nat (acc ++ groups n v) = acc ++ base128 n v.
Proof.
  revert acc v. induction n as [|n IH]; intros acc v Hv; [simpl in Hv; lia|].
  rewrite Nat2Z.inj_succ, Z.pow_succ_r in Hv by lia.
  cbn [groups base128]. destruct (Z.eqb_spec v 0); [lia|].
  destruct (Z.ltb_spec v 128).
  - rewrite Z.div_small by lia.
    assert (groups n 0 = []) as -> by by destruct n.
    rewrite alter_last. by rewrite clear_continuation by lia.
  - rewrite (cons_middle _ acc (groups n (v / 128))), (cons_middle _ acc (base128 n (v / 128))), !app_assoc.
    apply IH. split; [apply Z.div_str_pos; lia|apply Z.div_lt_upper_bound; lia].
Qed.

Lemma groups_length n v : (length (groups n v) <= n)%nat.
Proof. revert v. induction n as [|n IH]; intros v; simpl; [lia|]. case_if; simpl; [lia|]. specialize (IH (v / 128)). lia. Qed.

(** The byte loop of [pb_encode_varint] never leaves its 10-byte buffer. *)
Lemma varint_loop fuel n v acc s :
  0 <= v < 128 ^ Z.of_nat n -> (length acc + n <= 10)%nat -> (n < fuel)%nat ->
  loop (S := estate) fuel (fun '(value, buffer) =>
    if value =? 0 then ret (inr buffer)
    else if (10 <=? length buffer)%nat then ub
    else ret (inl (Z.shiftr value 7,
                   buffer ++ [byte_of (Z.lor (Z.land value 0x7F) 0x80)])))
    (v, acc) s = Ok (acc ++ groups n v) s.
Proof.
  revert fuel v acc. induction n as [|n IH]; intros fuel v acc Hv Hl Hf.
  - destruct fuel; [lia|]. simpl in *. assert (v = 0) as -> by lia. simpl.
    by rewrite app_nil_r.
  - destruct fuel as [|fuel]; [lia|]. cbn [loop groups].
    destruct (Z.eqb_spec v 0) as [->|Hv0].
    + rewrite bind_ret. by rewrite app_nil_r.
    + destruct (Nat.leb_spec 10 (length acc)); [lia|].
      rewrite bind_ret. rewrite lor_continuation, Z.shiftr_div_pow2 by lia.
      rewrite Nat2Z.inj_succ, Z.pow_succ_r in Hv by lia.
      change (2 ^ 7) with 128. rewrite IH.
      * by rewrite <- app_assoc.
      * split; [apply Z.div_pos; lia|apply Z.div_lt_upper_bound; lia].
      * rewrite length_app. simpl. lia.
      * lia.
Qed.

Section Varint.
Context `{PbEnv} {src : mem}.

Lemma writes_local bs n : n = Z.of_nat (length bs) -> writes src bs (pb_write (WLocal bs) n) tt.
Proof. intros ->. by apply writes_pb_write. Qed.

Lemma writes_varint v : 0 <= v < 2 ^ 64 -> writes src (varint v) (pb_encode_varint v) tt.
Proof.
  intros Hv. unfold pb_encode_varint. destruct (Z.leb_spec v 0x7F).
  - rewrite varint_small by lia. by apply writes_local.
  - apply writes_bind_nil with (groups 10 v).
    { apply writes_nil. intros s Hs.
      rewrite (varint_loop 11 10 v []); [done|by apply pow128_10|done|lia]. }
    pose proof (pow128_10 v Hv) as Hv'.
    pose proof (clear_last_groups 10 [] v ltac:(lia)) as E. rewrite !app_nil_l in E.
    cbv zeta. rewrite E. apply writes_local. rewrite <- E.
    by rewrite length_alter.
Qed.
End Varint.
