(* ===== verification/WireSpec.v ===== *)
(** * The wire format of a message in memory

    What bytes a message structure stands for, stated over the data in memory
    and the descriptors only: no stream, no sizing pass, no order of
    evaluation.  The encoder is proved against these relations and the decoder
    reads them back. *)
From S2P Require Import Prelude Mem Comp Varint Pb PbEnv PbCommon OStream.

(** ** Where the fields of a structure are *)

(** The place of [f] after the field [prev] placed at [data]. *)
Definition next_data (prev : pb_field_t) (data : Z) (f : pb_field_t) : Z :=
  if (PB_HTYPE (type prev) =? PB_HTYPE_ONEOF) && (PB_HTYPE (type f) =? PB_HTYPE_ONEOF) &&
     (data_offset f =? PB_SIZE_MAX)
  then data
  else
    let prev_size :=
      if (PB_ATYPE (type prev) =? PB_ATYPE_STATIC) && (PB_HTYPE (type prev) =? PB_HTYPE_REPEATED)
      then u64 (data_size prev * array_size prev)
      else if PB_ATYPE (type prev) =? PB_ATYPE_POINTER then sizeof_ptr
      else data_size prev in
    data + prev_size + data_offset f.

Fixpoint addrs_from (prev : pb_field_t) (data : Z) (fs : list pb_field_t) : list (pb_field_t * Z) :=
  match fs with
  | [] => []
  | f :: fs' =>
      if tag f =? 0 then []
      else let d := next_data prev data f in (f, d) :: addrs_from f d fs'
  end.

(** The fields before the terminator with their addresses. *)
Definition addrs (fields : list pb_field_t) (base : Z) : list (pb_field_t * Z) :=
  match fields with
  | [] => []
  | f :: fs =>
      if tag f =? 0 then []
      else (f, base + data_offset f) :: addrs_from f (base + data_offset f) fs
  end.

(** A descriptor array ends with a terminator. *)
Definition terminated (fields : list pb_field_t) : Prop := Exists (fun f => tag f = 0) fields.

(** The widths of the descriptor members; the type has an entry in the
    tables of encoders and decoders. *)
Record field_ok (f : pb_field_t) : Prop := {
  ok_tag : 0 <= tag f < 2 ^ 32;
  ok_type : 0 <= type f < 2 ^ 8;
  ok_data_size : 0 <= data_size f < 2 ^ 32;
  ok_array_size : 0 <= array_size f < 2 ^ 32;
  ok_ltype : PB_LTYPE (type f) < PB_LTYPES_COUNT;
}.

(** ** Values *)

Definition wire_key (f : pb_field_t) (wt : Z) : list byte := varint (tag f * 8 + wt).

(** The sizes an integer member can have. *)
Definition int_size (n : Z) : Prop := n = 1 \/ n = 2 \/ n = 4 \/ n = 8.

Section Wire.
Context `{PbEnv} (src : mem).

Definition str_max (f : pb_field_t) : Z :=
  if PB_ATYPE (type f) =? PB_ATYPE_POINTER then u64 (-1) else data_size f.

(** The C string at [p], at most [mx] bytes long. *)
Definition cstring (p mx : Z) (bs : list byte) : Prop :=
  load_bytes src p (length bs) = Some bs /\
  Forall (fun b => byte_val b <> 0) bs /\
  Z.of_nat (length bs) <= mx /\
  (Z.of_nat (length bs) = mx \/ load_uint src (p + Z.of_nat (length bs)) 1 = Some 0).

(** The value at [p], without its key; [sub] is the format of submessages. *)
Inductive wire_value (sub : list pb_field_t -> Z -> list byte -> Prop)
    (f : pb_field_t) (p : Z) : list byte -> Prop :=
| wv_varint z :
    PB_LTYPE (type f) = PB_LTYPE_VARINT -> int_size (data_size f) ->
    load_sint src p (Z.to_nat (data_size f)) = Some z ->
    wire_value sub f p (varint (u64 z))
| wv_uvarint z :
    PB_LTYPE (type f) = PB_LTYPE_UVARINT -> int_size (data_size f) ->
    load_uint src p (Z.to_nat (data_size f)) = Some z ->
    wire_value sub f p (varint z)
| wv_svarint z :
    PB_LTYPE (type f) = PB_LTYPE_SVARINT -> int_size (data_size f) ->
    load_sint src p (Z.to_nat (data_size f)) = Some z ->
    wire_value sub f p (varint (zigzag z))
| wv_fixed32 bs :
    PB_LTYPE (type f) = PB_LTYPE_FIXED32 ->
    load_bytes src p 4 = Some bs -> wire_value sub f p bs
| wv_fixed64 bs :
    PB_LTYPE (type f) = PB_LTYPE_FIXED64 ->
    load_bytes src p 8 = Some bs -> wire_value sub f p bs
| wv_bytes bs :
    PB_LTYPE (type f) = PB_LTYPE_BYTES -> p <> NULL ->
    load_uint src p 4 = Some (Z.of_nat (length bs)) ->
    load_bytes src (p + 4) (length bs) = Some bs ->
    (PB_ATYPE (type f) = PB_ATYPE_STATIC -> Z.of_nat (length bs) + 4 <= data_size f) ->
    wire_value sub f p (varint (Z.of_nat (length bs)) ++ bs)
| wv_string bs :
    PB_LTYPE (type f) = PB_LTYPE_STRING -> p <> NULL ->
    cstring p (str_max f) bs ->
    wire_value sub f p (varint (Z.of_nat (length bs)) ++ bs)
| wv_null :
    PB_LTYPE (type f) = PB_LTYPE_BYTES \/ PB_LTYPE (type f) = PB_LTYPE_STRING ->
    p = NULL -> wire_value sub f p (varint 0)
| wv_submessage fields bs :
    PB_LTYPE (type f) = PB_LTYPE_SUBMESSAGE ->
    ptr f <> NULL -> env_fields (ptr f) = Some fields ->
    sub fields p bs -> Z.of_nat (length bs) < 2 ^ 64 ->
    wire_value sub f p (varint (Z.of_nat (length bs)) ++ bs)
| wv_fixed_length bs :
    PB_LTYPE (type f) = PB_LTYPE_FIXED_LENGTH_BYTES ->
    Z.of_nat (length bs) = data_size f -> load_bytes src p (length bs) = Some bs ->
    wire_value sub f p (varint (data_size f) ++ bs).

(** A value behind its key. *)
Inductive wire_keyed sub (f : pb_field_t) (p : Z) : list byte -> Prop :=
| wk_intro wt bs :
    wiretype_of (PB_LTYPE (type f)) = Some wt -> wire_value sub f p bs ->
    wire_keyed sub f p (wire_key f wt ++ bs).

(** [n] consecutive values from [p], as in a packed array. *)
Inductive wire_items sub (f : pb_field_t) : Z -> nat -> list byte -> Prop :=
| wi_nil p : wire_items sub f p O []
| wi_cons p n b bs :
    wire_value sub f p b -> wire_items sub f (p + data_size f) n bs ->
    wire_items sub f p (S n) (b ++ bs).

(** Entries of an array of strings or byte arrays behind pointers are
    pointers themselves. *)
Definition entry_is_pointer (f : pb_field_t) : bool :=
  (PB_ATYPE (type f) =? PB_ATYPE_POINTER) &&
  ((PB_LTYPE (type f) =? PB_LTYPE_STRING) || (PB_LTYPE (type f) =? PB_LTYPE_BYTES)).

Definition entry_at (f : pb_field_t) (p q : Z) : Prop :=
  if entry_is_pointer f then load_uint src p 8 = Some q else q = p.

Inductive wire_entries sub (f : pb_field_t) : Z -> nat -> list byte -> Prop :=
| we_nil p : wire_entries sub f p O []
| we_cons p q n b bs :
    entry_at f p q -> wire_keyed sub f q b ->
    wire_entries sub f (p + data_size f) n bs ->
    wire_entries sub f p (S n) (b ++ bs).

Inductive wire_array sub (f : pb_field_t) (p count : Z) : list byte -> Prop :=
| wa_empty : count = 0 -> wire_array sub f p count []
| wa_packed bs :
    0 < count -> (PB_ATYPE (type f) <> PB_ATYPE_POINTER -> count <= array_size f) ->
    PB_LTYPE (type f) <= PB_LTYPE_LAST_PACKABLE ->
    wire_items sub f p (Z.to_nat count) bs -> Z.of_nat (length bs) < 2 ^ 64 ->
    wire_array sub f p count
      (wire_key f PB_WT_STRING ++ varint (Z.of_nat (length bs)) ++ bs)
| wa_unpacked bs :
    0 < count -> (PB_ATYPE (type f) <> PB_ATYPE_POINTER -> count <= array_size f) ->
    PB_LTYPE_LAST_PACKABLE < PB_LTYPE (type f) ->
    wire_entries sub f p (Z.to_nat count) bs ->
    wire_array sub f p count bs.

(** ** Fields *)

(** The data of a field at [p]: there, or behind the pointer stored there. *)
Definition data_at (f : pb_field_t) (p q : Z) : Prop :=
  if PB_ATYPE (type f) =? PB_ATYPE_POINTER then load_uint src p 8 = Some q else q = p.

(** [dflt f p b]: whether the proto3 field at [p] has its default value. *)
Inductive wire_basic sub (dflt : pb_field_t -> Z -> bool -> Prop)
    (f : pb_field_t) (p : Z) : list byte -> Prop :=
| wb_required q bs :
    PB_HTYPE (type f) = PB_HTYPE_REQUIRED ->
    data_at f p q -> q <> NULL -> wire_keyed sub f q bs -> wire_basic sub dflt f p bs
| wb_optional q has bs :
    PB_HTYPE (type f) = PB_HTYPE_OPTIONAL -> size_offset f <> 0 ->
    data_at f p q -> load_uint src (p + size_offset f) 1 = Some has ->
    (has <> 0 -> wire_keyed sub f q bs) -> (has = 0 -> bs = []) ->
    wire_basic sub dflt f p bs
| wb_singular d bs :
    PB_HTYPE (type f) = PB_HTYPE_OPTIONAL -> size_offset f = 0 ->
    PB_ATYPE (type f) = PB_ATYPE_STATIC -> dflt f p d ->
    (d = false -> wire_keyed sub f p bs) -> (d = true -> bs = []) ->
    wire_basic sub dflt f p bs
| wb_singular_pointer d q bs :
    PB_HTYPE (type f) = PB_HTYPE_OPTIONAL -> size_offset f = 0 ->
    PB_ATYPE (type f) = PB_ATYPE_POINTER -> dflt f p d -> data_at f p q ->
    (q <> NULL -> wire_keyed sub f q bs) -> (q = NULL -> bs = []) ->
    wire_basic sub dflt f p bs
| wb_repeated q count bs :
    PB_HTYPE (type f) = PB_HTYPE_REPEATED -> data_at f p q ->
    (size_offset f <> 0 -> load_uint src (p + size_offset f) 4 = Some count) ->
    (size_offset f = 0 -> count = array_size f) ->
    wire_array sub f q count bs -> wire_basic sub dflt f p bs
| wb_oneof q which bs :
    PB_HTYPE (type f) = PB_HTYPE_ONEOF -> size_offset f <> 0 -> data_at f p q ->
    load_uint src (p + size_offset f) 4 = Some which ->
    (which = tag f -> wire_keyed sub f q bs) -> (which <> tag f -> bs = []) ->
    wire_basic sub dflt f p bs.

(** A field of any allocation; callback fields whose callback is NULL write
    nothing. *)
Inductive wire_field sub dflt (f : pb_field_t) (p : Z) : list byte -> Prop :=
| wf_basic bs :
    PB_ATYPE (type f) = PB_ATYPE_STATIC \/ PB_ATYPE (type f) = PB_ATYPE_POINTER ->
    PB_LTYPE (type f) <> PB_LTYPE_EXTENSION -> field_ok f ->
    wire_basic sub dflt f p bs -> wire_field sub dflt f p bs
| wf_callback :
    PB_ATYPE (type f) = PB_ATYPE_CALLBACK ->
    load_uint src (p + callback_funcs) 8 = Some NULL -> wire_field sub dflt f p [].

(** The list of extensions at [ext], with at most [k] entries, all handled
    by the default encoder. *)
Fixpoint wire_extensions sub dflt (k : nat) (ext : Z) (bs : list byte) : Prop :=
  match k with
  | O => False
  | S k' =>
      if ext =? NULL then bs = []
      else
        exists ty et f p b bs' next,
          load_uint src (ext + extension_type) 8 = Some ty /\
          env_ext_type ty = Some et /\ ext_encode et = NULL /\
          ext_arg et !! 0%nat = Some f /\
          (if PB_ATYPE (type f) =? PB_ATYPE_POINTER then p = ext + extension_dest
           else load_uint src (ext + extension_dest) 8 = Some p) /\
          wire_field sub dflt f p b /\
          load_uint src (ext + extension_next) 8 = Some next /\
          wire_extensions sub dflt k' next bs' /\
          bs = b ++ bs'
  end.

(** A member of a structure: a field, or the head of a list of extensions. *)
Definition wire_member sub dflt (k : nat) (fp : pb_field_t * Z) (bs : list byte) : Prop :=
  if PB_LTYPE (type fp.1) =? PB_LTYPE_EXTENSION
  then exists ext, load_uint src fp.2 8 = Some ext /\ wire_extensions sub dflt k ext bs
  else wire_field sub dflt fp.1 fp.2 bs.

(** ** Default values of proto3 fields *)

Inductive default_field (sub : list pb_field_t -> Z -> bool -> Prop)
    (f : pb_field_t) (p : Z) : bool -> Prop :=
| df_required : PB_HTYPE (type f) = PB_HTYPE_REQUIRED -> default_field sub f p false
| df_counted n :
    PB_HTYPE (type f) = PB_HTYPE_REPEATED \/ PB_HTYPE (type f) = PB_HTYPE_ONEOF ->
    load_uint src (p + size_offset f) 4 = Some n -> default_field sub f p (n =? 0)
| df_has h :
    PB_HTYPE (type f) = PB_HTYPE_OPTIONAL -> size_offset f <> 0 ->
    load_uint src (p + size_offset f) 1 = Some h -> default_field sub f p (h =? 0)
| df_bytes n :
    PB_HTYPE (type f) = PB_HTYPE_OPTIONAL -> size_offset f = 0 ->
    PB_ATYPE (type f) = PB_ATYPE_STATIC -> PB_LTYPE (type f) = PB_LTYPE_BYTES ->
    load_uint src p 4 = Some n -> default_field sub f p (n =? 0)
| df_string c :
    PB_HTYPE (type f) = PB_HTYPE_OPTIONAL -> size_offset f = 0 ->
    PB_ATYPE (type f) = PB_ATYPE_STATIC -> PB_LTYPE (type f) = PB_LTYPE_STRING ->
    load_uint src p 1 = Some c -> default_field sub f p (c =? 0)
| df_fixed_length :
    PB_HTYPE (type f) = PB_HTYPE_OPTIONAL -> size_offset f = 0 ->
    PB_ATYPE (type f) = PB_ATYPE_STATIC -> PB_LTYPE (type f) = PB_LTYPE_FIXED_LENGTH_BYTES ->
    default_field sub f p (data_size f =? 0)
| df_submessage fields b :
    PB_HTYPE (type f) = PB_HTYPE_OPTIONAL -> size_offset f = 0 ->
    PB_ATYPE (type f) = PB_ATYPE_STATIC -> PB_LTYPE (type f) = PB_LTYPE_SUBMESSAGE ->
    env_fields (ptr f) = Some fields -> sub fields p b -> default_field sub f p b
| df_zero bs :
    PB_HTYPE (type f) = PB_HTYPE_OPTIONAL -> size_offset f = 0 ->
    PB_ATYPE (type f) <> PB_ATYPE_STATIC \/ PB_LTYPE (type f) <= PB_LTYPE_LAST_PACKABLE ->
    0 <= data_size f ->
    load_bytes src p (Z.to_nat (data_size f)) = Some bs ->
    default_field sub f p (forallb (fun b => byte_val b =? 0) bs).

(** A message is at its defaults when its fields are; the first field that
    is not decides. *)
Inductive default_members (dflt : pb_field_t -> Z -> bool -> Prop)
  : list (pb_field_t * Z) -> bool -> Prop :=
| dm_nil : default_members dflt [] true
| dm_set f p l : dflt f p false -> default_members dflt ((f, p) :: l) false
| dm_unset f p l b :
    dflt f p true -> default_members dflt l b -> default_members dflt ((f, p) :: l) b.

Fixpoint default_value (n : nat) (f : pb_field_t) (p : Z) (b : bool) : Prop :=
  match n with
  | O => False
  | S n' =>
      default_field (fun fields q b =>
        terminated fields /\ default_members (default_value n') (addrs fields q) b) f p b
  end.

(** ** Messages *)

(** [wire_message n fields p bs]: the structure at [p] described by [fields],
    with submessages nested less than [n] deep, encodes to [bs]. *)
Fixpoint wire_message (n : nat) (fields : list pb_field_t) (p : Z) (bs : list byte) : Prop :=
  match n with
  | O => False
  | S n' =>
      terminated fields /\
      exists bss,
        Forall2 (wire_member (wire_message n') (default_value n') n') (addrs fields p) bss /\
        bs = concat bss
  end.
End Wire.
