(* ===== verification/PbEncode.v ===== *)
(** * pb_encode.c: fields and messages

    [pb_encode] and the field encoders call each other through the table of
    encoders; the recursion goes through one level of submessages per unit of
    fuel.  Inside the section [rec] is [pb_encode] on one level less, and
    [fuel] bounds the walks that do not go through [pb_encode]. *)
From S2P Require Import Prelude Mem Comp Pb PbEnv PbCommon OStream.

Section Encode.
Context `{PbEnv}.

Section Rec.
Variable rec : list pb_field_t -> Z -> M estate unit.

Definition pb_encode_submessage (fields : list pb_field_t) (src_struct : Z) : M estate unit :=
  (* first calculate the message size using a non-writing substream *)
  '(st, sub) ← on_ostream PB_OSTREAM_SIZING (rec fields src_struct) ;
  match st with
  | None => upd_ostream (set_o_errmsg (o_errmsg sub)) ;; fail
  | Some _ =>
      let size := o_bytes_written sub in
      pb_encode_varint size ;;
      o ← ostream ;
      match o_callback o with
      | OSizing => pb_write WNull size
      | _ =>
          if o_max_size o <? u64 (o_bytes_written o + size)
          then PB_RETURN_ERROR "stream full"
          else
            let substream := OStream (o_callback o) (o_state o) size 0 None in
            '(st, sub) ← on_ostream substream (rec fields src_struct) ;
            upd_ostream (fun o =>
              OStream (o_callback o) (o_state sub) (o_max_size o)
                (u64 (o_bytes_written o + o_bytes_written sub)) (o_errmsg sub)) ;;
            if negb (o_bytes_written sub =? size)
            then PB_RETURN_ERROR "submsg size changed"
            else match st with Some _ => ret tt | None => fail end
      end
  end.

Definition pb_enc_submessage (field : pb_field_t) (src : Z) : M estate unit :=
  if ptr field =? NULL then PB_RETURN_ERROR "invalid field descriptor"
  else fields ← of_option (env_fields (ptr field)) ; pb_encode_submessage fields src.

(** [PB_ENCODERS[ltype]]; the entry for extensions is NULL. *)
Definition PB_ENCODERS : list (option (pb_field_t -> Z -> M estate unit)) :=
  [ Some pb_enc_varint; Some pb_enc_uvarint; Some pb_enc_svarint;
    Some pb_enc_fixed32; Some pb_enc_fixed64;
    Some pb_enc_bytes; Some pb_enc_string; Some pb_enc_submessage;
    None; Some pb_enc_fixed_length_bytes ].

(** Calling a table entry: calling NULL is undefined. *)
Definition call_encoder (func : option (pb_field_t -> Z -> M estate unit))
    (field : pb_field_t) (src : Z) : M estate unit :=
  match func with
  | Some f => f field src
  | None => ub
  end.

Definition encode_array (field : pb_field_t) (pData count : Z)
    (func : option (pb_field_t -> Z -> M estate unit)) : M estate unit :=
  if count =? 0 then ret tt
  else if negb (PB_ATYPE (type field) =? PB_ATYPE_POINTER) && (array_size field <? count)
  then PB_RETURN_ERROR "array max size exceeded"
  else if PB_LTYPE (type field) <=? PB_LTYPE_LAST_PACKABLE then
    pb_encode_tag PB_WT_STRING (tag field) ;;
    let items :=
      for_n (Z.to_nat count) (fun p =>
        call_encoder func field p ;; ret (p + data_size field)) in
    '(st, size) ←
      (if PB_LTYPE (type field) =? PB_LTYPE_FIXED32 then ret (true, u64 (4 * count))
       else if PB_LTYPE (type field) =? PB_LTYPE_FIXED64 then ret (true, u64 (8 * count))
       else
         '(st, sizestream) ← on_ostream PB_OSTREAM_SIZING (items pData) ;
         ret (match st with Some _ => true | None => false end, o_bytes_written sizestream)) ;
    check st ;;
    pb_encode_varint size ;;
    o ← ostream ;
    match o_callback o with
    | OSizing => pb_write WNull size
    | _ => items pData ;; ret tt
    end
  else
    for_n (Z.to_nat count) (fun p =>
      pb_encode_tag_for_field field ;;
      (if (PB_ATYPE (type field) =? PB_ATYPE_POINTER) &&
          ((PB_LTYPE (type field) =? PB_LTYPE_STRING) ||
           (PB_LTYPE (type field) =? PB_LTYPE_BYTES))
       then q ← ld_ptr p ; call_encoder func field q
       else call_encoder func field p) ;;
      ret (p + data_size field)) pData ;;
    ret tt.

(** The byte-per-byte comparison at the end of
    [pb_check_proto3_default_value]. *)
Definition all_zero (p n : Z) : M estate bool :=
  loop (S (Z.to_nat n)) (fun i =>
    if i <? n then
      c ← ld_u8 (p + i) ;
      ret (if negb (c =? 0) then inr false else inl (i + 1))
    else ret (inr true)) 0.

Fixpoint pb_check_proto3_default_value (fuel : nat) (field : pb_field_t) (pData : Z)
  : M estate bool :=
  match fuel with
  | O => timeout
  | S fuel' =>
      let ty := type field in
      let pSize := pData + size_offset field in
      if PB_HTYPE ty =? PB_HTYPE_REQUIRED then ret false
      else if PB_HTYPE ty =? PB_HTYPE_REPEATED then
        count ← ld_u32 pSize ; ret (count =? 0)
      else if PB_HTYPE ty =? PB_HTYPE_ONEOF then
        which ← ld_u32 pSize ; ret (which =? 0)
      else if (PB_HTYPE ty =? PB_HTYPE_OPTIONAL) && negb (size_offset field =? 0) then
        has ← ld_bool pSize ; ret (negb has)
      else if (PB_ATYPE ty =? PB_ATYPE_STATIC) && (PB_LTYPE ty =? PB_LTYPE_BYTES) then
        size ← ld_u32 (pData + bytes_array_size) ; ret (size =? 0)
      else if (PB_ATYPE ty =? PB_ATYPE_STATIC) && (PB_LTYPE ty =? PB_LTYPE_STRING) then
        c ← ld_u8 pData ; ret (c =? 0)
      else if (PB_ATYPE ty =? PB_ATYPE_STATIC) && (PB_LTYPE ty =? PB_LTYPE_FIXED_LENGTH_BYTES) then
        ret (data_size field =? 0)
      else if (PB_ATYPE ty =? PB_ATYPE_STATIC) && (PB_LTYPE ty =? PB_LTYPE_SUBMESSAGE) then
        fields ← of_option (env_fields (ptr field)) ;
        '(more, iter) ← pb_field_iter_begin fields pData ;
        if more : bool then
          loop (S (length fields)) (fun it =>
            f ← cur it ;
            dflt ← pb_check_proto3_default_value fuel' f (PbCommon.pData it) ;
            if negb dflt then ret (inr false)
            else
              '(more, it') ← pb_field_iter_next it ;
              ret (if more : bool then inl it' else inr true)) iter
        else ret true
      else all_zero pData (data_size field)
  end.

(** [pSize] is [&implicit_has] or an address. *)
Definition encode_basic_field (fuel : nat) (field : pb_field_t) (pData : Z) : M estate unit :=
  let ty := type field in
  func ← of_option (PB_ENCODERS !! Z.to_nat (PB_LTYPE ty)) ;
  '(pSize, implicit_has) ←
    (if negb (size_offset field =? 0)
     then ret (PMem (pData + size_offset field), false)
     else if PB_HTYPE ty =? PB_HTYPE_OPTIONAL then
       dflt ← pb_check_proto3_default_value fuel field pData ;
       ret (PLocal, negb dflt)
     else ret (PLocal, true)) ;
  '(pData, implicit_has) ←
    (if PB_ATYPE ty =? PB_ATYPE_POINTER then
       p ← ld_ptr pData ; ret (p, negb (p =? NULL))
     else ret (pData, implicit_has)) ;
  if PB_HTYPE ty =? PB_HTYPE_REQUIRED then
    if pData =? NULL then PB_RETURN_ERROR "missing required field"
    else
      pb_encode_tag_for_field field ;;
      call_encoder func field pData
  else if PB_HTYPE ty =? PB_HTYPE_OPTIONAL then
    has ← match pSize with PMem a => ld_bool a | PLocal => ret implicit_has end ;
    if has : bool then
      pb_encode_tag_for_field field ;;
      call_encoder func field pData
    else ret tt
  else if PB_HTYPE ty =? PB_HTYPE_REPEATED then
    count ← match pSize with PMem a => ld_u32 a | PLocal => ret (array_size field) end ;
    encode_array field pData count func
  else if PB_HTYPE ty =? PB_HTYPE_ONEOF then
    which ← match pSize with PMem a => ld_u32 a | PLocal => ub end ;
    if which =? tag field then
      pb_encode_tag_for_field field ;;
      call_encoder func field pData
    else ret tt
  else PB_RETURN_ERROR "invalid field type".

Definition encode_callback_field (field : pb_field_t) (pData : Z) : M estate unit :=
  encode ← ld_ptr (pData + callback_funcs) ;
  if negb (encode =? NULL) then
    ok ← call_o (fun o m => env_encode_cb encode o field (pData + callback_arg) m) ;
    if negb ok then PB_RETURN_ERROR "callback error" else ret tt
  else ret tt.

Definition encode_field (fuel : nat) (field : pb_field_t) (pData : Z) : M estate unit :=
  let atype := PB_ATYPE (type field) in
  if (atype =? PB_ATYPE_STATIC) || (atype =? PB_ATYPE_POINTER)
  then encode_basic_field fuel field pData
  else if atype =? PB_ATYPE_CALLBACK then encode_callback_field field pData
  else PB_RETURN_ERROR "invalid field type".

(** [extension->type] *)
Definition extension_type_of (extension : Z) : M estate pb_extension_type_t :=
  ty ← ld_ptr (extension + extension_type) ; of_option (env_ext_type ty).

Definition default_extension_encoder (fuel : nat) (extension : Z) : M estate unit :=
  ty ← extension_type_of extension ;
  field ← of_option (ext_arg ty !! 0%nat) ;
  if PB_ATYPE (type field) =? PB_ATYPE_POINTER
  then encode_field fuel field (extension + extension_dest)
  else dest ← ld_ptr (extension + extension_dest) ; encode_field fuel field dest.

Definition encode_extension_field (fuel : nat) (field : pb_field_t) (pData : Z) : M estate unit :=
  extension ← ld_ptr pData ;
  loop fuel (fun extension =>
    if extension =? NULL then ret (inr tt)
    else
      ty ← extension_type_of extension ;
      (if negb (ext_encode ty =? NULL)
       then ok ← call_o (fun o m => env_ext_encode (ext_encode ty) o extension m) ; check ok
       else default_extension_encoder fuel extension) ;;
      next ← ld_ptr (extension + extension_next) ;
      ret (inl next)) extension.

Definition pb_encode_fields (fuel : nat) (fields : list pb_field_t) (src_struct : Z)
  : M estate unit :=
  '(more, iter) ← pb_field_iter_begin fields src_struct ;
  if negb more then ret tt
  else
    do_fields (fun it =>
      f ← cur it ;
      if PB_LTYPE (type f) =? PB_LTYPE_EXTENSION
      then encode_extension_field fuel f (pData it)
      else encode_field fuel f (pData it)) iter.
End Rec.

Fixpoint pb_encode (fuel : nat) (fields : list pb_field_t) (src_struct : Z) : M estate unit :=
  match fuel with
  | O => timeout
  | S fuel' => pb_encode_fields (pb_encode fuel') fuel' fields src_struct
  end.

Definition pb_encode_delimited (fuel : nat) (fields : list pb_field_t) (src_struct : Z)
  : M estate unit :=
  pb_encode_submessage (pb_encode fuel) fields src_struct.

Definition pb_encode_nullterminated (fuel : nat) (fields : list pb_field_t) (src_struct : Z)
  : M estate unit :=
  pb_encode fuel fields src_struct ;;
  pb_write (WLocal [byte_of 0]) 1.

(** The value stored through [size]. *)
Definition pb_get_encoded_size (fuel : nat) (fields : list pb_field_t) (src_struct : Z)
  : M estate Z :=
  '(st, stream) ← on_ostream PB_OSTREAM_SIZING (pb_encode fuel fields src_struct) ;
  match st with
  | None => fail
  | Some _ => ret (o_bytes_written stream)
  end.
End Encode.
