(* ===== verification/EncodeProps.v ===== *)
(** * What the encoder promises

    The theorems a caller of pb_encode.h relies on, about whole calls on a
    buffer or on a sizing stream, and the error returns. *)
From S2P Require Import Prelude Mem Comp Varint Pb PbEnv PbCommon OStream EncodeLogic WireSpec PbEncode.

(** ** The encoder implements the wire format

    [pb_encode] writes the bytes that [wire_message] gives, on sizing streams
    and on buffers alike. *)

(** ** Keys *)

Section Key.
Context `{PbEnv} {src : mem}.

Lemma writes_tag t wt :
  0 <= t < 2 ^ 32 -> 0 <= wt < 8 -> writes src (varint (t * 8 + wt)) (pb_encode_tag wt t) tt.
Proof.
  intros Ht Hw. unfold pb_encode_tag.
  replace (Z.lor (u64 (Z.shiftl t 3)) wt) with (t * 8 + wt); [apply writes_varint; lia|].
  rewrite u64_id by (rewrite Z.shiftl_mul_pow2 by lia; lia).
  rewrite Z.lor_comm, lor_disjoint_add by lia. lia.
Qed.

Lemma wiretype_of_range l wt : wiretype_of l = Some wt -> 0 <= wt < 8.
Proof.
  unfold wiretype_of. intros E.
  repeat case_match; simplify_eq; unfold PB_WT_VARINT, PB_WT_64BIT, PB_WT_STRING, PB_WT_32BIT; lia.
Qed.

Lemma writes_tag_for_field f wt :
  field_ok f -> wiretype_of (PB_LTYPE (type f)) = Some wt ->
  writes src (wire_key f wt) (pb_encode_tag_for_field f) tt.
Proof.
  intros Hf E. unfold pb_encode_tag_for_field. rewrite E.
  apply writes_tag; [apply Hf|by eapply wiretype_of_range].
Qed.
End Key.

(** ** Running on a sizing substream *)

Section Sub.
Context `{PbEnv} {src : mem}.

Lemma writes_on_sizing {A} bs (m : M estate A) a :
  writes src bs m a ->
  writes src [] (on_ostream PB_OSTREAM_SIZING m)
    (Some a, OStream OSizing 0 0 (u64 (Z.of_nat (length bs))) None).
Proof.
  intros Hm. apply writes_nil. intros s Hs.
  unfold on_ostream. rewrite (writes_fit _ _ _ _ Hm).
  - by destruct s as [[] ?].
  - split; simpl; [apply Hs|done|lia|done].
Qed.

(** The second pass of [pb_encode_submessage], on a buffer. *)
Lemma on_buffer_substream {A} bs (m : M estate A) a s o :
  writes src bs m a -> o = e_stream s -> o_callback o = OBuf ->
  writable src s (Z.of_nat (length bs)) ->
  on_ostream (OStream (o_callback o) (o_state o) (Z.of_nat (length bs)) 0 None) m s =
    Ok (Some a, OStream OBuf (o_state o + Z.of_nat (length bs)) (Z.of_nat (length bs))
                  (Z.of_nat (length bs)) None)
      (EState o (put_bytes (e_mem s) (o_state o) bs)).
Proof.
  intros Hm -> Hcb Hs. pose proof (w_cb _ _ _ Hs) as Hc. pose proof (w_bw _ _ _ Hs).
  rewrite Hcb in *. destruct Hc as (Hr & Hmap & Hd).
  unfold on_ostream. rewrite (writes_fit _ _ _ _ Hm).
  - unfold emit. simpl. rewrite u64_id by lia. by destruct s as [[] ?].
  - split; simpl; [apply Hs|done|lia|]. split_and!; [lia..|done|done].
Qed.

(** The message is sized first and then written behind its length; the two
    passes agree, so the size check at the end never fires. *)
Lemma writes_submessage rec fields p bs :
  writes src bs (rec fields p) tt -> Z.of_nat (length bs) < 2 ^ 64 ->
  writes src (varint (Z.of_nat (length bs)) ++ bs) (pb_encode_submessage rec fields p) tt.
Proof.
  intros Hrec Hlen. unfold pb_encode_submessage.
  eapply writes_bind_nil; [by apply writes_on_sizing|]. cbv beta iota zeta. simpl o_bytes_written.
  rewrite u64_id by lia.
  eapply writes_bind; [apply writes_varint; lia|].
  apply writes_ostream; intros s Hs.
  2: { rewrite (f_cb _ _ _ Hs). pose proof (f_room _ _ _ Hs). pose proof (f_bw _ _ _ Hs).
    rewrite u64_id by lia. destruct (Z.ltb_spec (o_max_size (e_stream s))
      (o_bytes_written (e_stream s) + Z.of_nat (length bs))); [|lia].
    by eapply full_return_error. }
  pose proof (w_cb _ _ _ Hs) as Hc. pose proof (w_bw _ _ _ Hs) as Hb.
  destruct (o_callback (e_stream s)) eqn:Hcb; [| |done].
  - unfold pb_write, ostream, gets, bind, ret, upd_ostream, modify, set_e_stream.
    rewrite Hcb. unfold emit, set_o_bytes_written. by rewrite Hcb.
  - destruct Hc as (Hr & _ & _).
    rewrite u64_id by lia.
    destruct (Z.ltb_spec (o_max_size (e_stream s))
      (o_bytes_written (e_stream s) + Z.of_nat (length bs))); [lia|].
    erewrite bind_ok.
    2: { rewrite <- Hcb. by apply (on_buffer_substream bs _ tt s). }
    cbv beta iota. unfold upd_ostream, modify, bind, ret, set_e_stream; simpl.
    rewrite Z.eqb_refl. simpl. unfold emit. rewrite Hcb.
    f_equal. f_equal. f_equal. symmetry. apply Hs.
Qed.
End Sub.

(** ** Values *)

Section Value.
Context `{PbEnv} {src : mem}.
Context (rec : list pb_field_t -> Z -> M estate unit).
Context (sub : list pb_field_t -> Z -> list byte -> Prop).
Context (Hsub : forall fields p bs, sub fields p bs -> writes src bs (rec fields p) tt).

Lemma writes_string w bs n :
  n = Z.of_nat (length bs) -> n < 2 ^ 64 -> wsrc_is src w bs ->
  writes src (varint n ++ bs) (pb_encode_string w n) tt.
Proof.
  intros -> Hn Hw. unfold pb_encode_string.
  eapply writes_bind; [apply writes_varint; lia|by apply writes_pb_write].
Qed.

(** The four ways of loading an integer member by its size. *)
Lemma writes_ld_int n a z {B} (k : M estate Z) bs (c : Z -> M estate B) b :
  int_size n -> load_sint src a (Z.to_nat n) = Some z ->
  writes src bs (c z) b ->
  writes src bs (bind (if n =? 1 then ld_s8 a else if n =? 2 then ld_s16 a
                       else if n =? 4 then ld_s32 a else if n =? 8 then ld_s64 a else k) c) b.
Proof.
  intros Hn Hz Hc. eapply writes_bind_nil; [|exact Hc].
  destruct Hn as [-> | [-> | [-> | ->]]]; by apply writes_load_sint.
Qed.

Lemma writes_ld_uint n a z {B} (k : M estate Z) bs (c : Z -> M estate B) b :
  int_size n -> load_uint src a (Z.to_nat n) = Some z ->
  writes src bs (c z) b ->
  writes src bs (bind (if n =? 1 then ld_u8 a else if n =? 2 then ld_u16 a
                       else if n =? 4 then ld_u32 a else if n =? 8 then ld_u64 a else k) c) b.
Proof.
  intros Hn Hz Hc. eapply writes_bind_nil; [|exact Hc].
  destruct Hn as [-> | [-> | [-> | ->]]]; by apply writes_load_uint.
Qed.

Lemma load_sint_range m a n z :
  (0 < n)%nat -> load_sint m a n = Some z ->
  - 2 ^ (8 * Z.of_nat n - 1) <= z < 2 ^ (8 * Z.of_nat n - 1).
Proof.
  unfold load_sint. intros Hn. destruct (load_uint m a n); [|done].
  intros; simplify_eq. apply sint_range. lia.
Qed.

Lemma int_size_sint m a n z :
  int_size n -> load_sint m a (Z.to_nat n) = Some z -> - 2 ^ 63 <= z < 2 ^ 63.
Proof.
  intros Hn Hz.
  assert (0 < Z.to_nat n)%nat as H0 by (destruct Hn as [-> | [-> | [-> | ->]]]; lia).
  pose proof (load_sint_range _ _ _ _ H0 Hz) as Hr.
  assert (2 ^ (8 * Z.of_nat (Z.to_nat n) - 1) <= 2 ^ 63); [|lia].
  by destruct Hn as [-> | [-> | [-> | ->]]].
Qed.

Lemma int_size_uint m a n z :
  int_size n -> load_uint m a (Z.to_nat n) = Some z -> 0 <= z < 2 ^ 64.
Proof.
  intros Hn Hz. apply load_uint_range in Hz.
  assert (2 ^ (8 * Z.of_nat (Z.to_nat n)) <= 2 ^ 64); [|lia].
  by destruct Hn as [-> | [-> | [-> | ->]]].
Qed.

(** The shifts of [pb_encode_svarint] compute the zig-zag mapping. *)
Lemma zigzagged_spec z :
  - 2 ^ 63 <= z < 2 ^ 63 ->
  (if z <? 0 then u64 (Z.lnot (u64 (Z.shiftl (u64 z) 1))) else u64 (Z.shiftl (u64 z) 1))
  = zigzag z.
Proof.
  intros Hz. unfold zigzag. destruct (Z.ltb_spec z 0).
  - assert (u64 (Z.shiftl (u64 z) 1) = 2 * z + 2 ^ 64) as ->.
    { unfold u64. rewrite Z.shiftl_mul_pow2, Z.mul_mod_idemp_l by lia.
      symmetry. apply Z.mod_unique_pos with (-1); lia. }
    unfold u64, Z.lnot. symmetry. apply Z.mod_unique_pos with (-1); lia.
  - rewrite (u64_id z) by lia. rewrite Z.shiftl_mul_pow2 by lia.
    rewrite u64_id; lia.
Qed.

Lemma writes_svarint z :
  - 2 ^ 63 <= z < 2 ^ 63 -> writes src (varint (zigzag z)) (pb_encode_svarint z) tt.
Proof.
  intros Hz. unfold pb_encode_svarint. cbv zeta. rewrite zigzagged_spec by done.
  by apply writes_varint, zigzag_range.
Qed.

(** The bytes of a fixed-width value are written in memory order. *)
Lemma byte_at_combine b v k :
  byte_at (Z.lor (byte_val b) (Z.shiftl v 8)) 0 = b /\
  (0 <= k -> byte_at (Z.lor (byte_val b) (Z.shiftl v 8)) (8 + k) = byte_at v k).
Proof.
  pose proof (byte_val_range b) as Hb.
  assert (forall x, byte_of (Z.land x 0xFF) = byte_of x) as E.
  { intros x. apply byte.unsigned_inj. rewrite !byte_val_of.
    change 0xFF with (Z.ones 8). rewrite Z.land_ones by lia. apply Z.mod_mod. lia. }
  rewrite lor_disjoint_add by lia. unfold byte_at. split.
  - rewrite E, Z.shiftr_0_r. apply byte.unsigned_inj. rewrite byte_val_of.
    change (2 ^ 8) with 256. rewrite Z.mod_add by lia. by apply Z.mod_small.
  - intros Hk. do 2 f_equal. rewrite <- Z.shiftr_shiftr by lia. f_equal.
    rewrite Z.shiftr_div_pow2 by lia. rewrite Z.div_add by lia.
    rewrite Z.div_small by (simpl; lia). lia.
Qed.

Lemma bytes_at_combine bs n :
  length bs = n -> (fun i => byte_at (le_combine bs) (8 * Z.of_nat i)) <$> seq 0 n = bs.
Proof.
  intros <-. induction bs as [|b bs IH]; [done|].
  cbn [length seq]. rewrite fmap_cons. f_equal.
  - apply (byte_at_combine b (le_combine bs) 0).
  - rewrite <- fmap_S_seq, <- list_fmap_compose. rewrite <- IH at 2. apply list_fmap_ext.
    intros i x _. unfold compose. cbn [le_combine].
    rewrite <- (proj2 (byte_at_combine b (le_combine bs) (8 * Z.of_nat x))) by lia.
    f_equal. lia.
Qed.

Lemma writes_fixed32 a bs :
  load_bytes src a 4 = Some bs -> writes src bs (pb_encode_fixed32 a) tt.
Proof.
  intros Hl. pose proof (load_bytes_length _ _ _ _ Hl) as Hn.
  unfold pb_encode_fixed32. eapply writes_bind_nil.
  { apply writes_load_uint. unfold load_uint. by rewrite Hl. }
  pose proof (bytes_at_combine bs 4 Hn) as E. rewrite <- E at 1. by apply writes_local.
Qed.

Lemma writes_fixed64 a bs :
  load_bytes src a 8 = Some bs -> writes src bs (pb_encode_fixed64 a) tt.
Proof.
  intros Hl. pose proof (load_bytes_length _ _ _ _ Hl) as Hn.
  unfold pb_encode_fixed64. eapply writes_bind_nil.
  { apply writes_load_uint. unfold load_uint. by rewrite Hl. }
  pose proof (bytes_at_combine bs 8 Hn) as E. rewrite <- E at 1. by apply writes_local.
Qed.

(** ** Strings *)

Lemma load_bytes_size m a n bs : load_bytes m a n = Some bs -> (n <= size (m_cells m))%nat.
Proof.
  intros Hl.
  assert (size (list_to_set (seqZ a (Z.of_nat n)) : gset Z) = n) as <-.
  { rewrite size_list_to_set by apply NoDup_seqZ. rewrite length_seqZ. lia. }
  rewrite <- size_dom. apply subseteq_size. intros x Hx.
  apply elem_of_list_to_set, elem_of_seqZ in Hx. apply elem_of_dom.
  pose proof (load_bytes_lookup _ _ _ _ (x - a) Hl ltac:(lia)) as E.
  replace (a + (x - a)) with x in E by lia. unfold load_byte in E.
  destruct (m_cells m !! x); [by eexists|].
  symmetry in E. apply lookup_ge_None in E. rewrite (load_bytes_length _ _ _ _ Hl) in E. lia.
Qed.

Lemma load_uint_byte m a b : load_byte m a = Some b -> load_uint m a 1 = Some (byte_val b).
Proof. unfold load_uint. simpl. intros ->. by rewrite le_combine_1. Qed.

Lemma writes_strnlen_loop fuel i p mx bs :
  load_bytes src p (length bs) = Some bs ->
  Forall (fun b => byte_val b <> 0) bs ->
  i + Z.of_nat (length bs) <= mx ->
  (i + Z.of_nat (length bs) = mx \/ load_uint src (p + Z.of_nat (length bs)) 1 = Some 0) ->
  (length bs < fuel)%nat ->
  writes src []
    (loop fuel (fun '(size, p) =>
       if size <? mx then
         c ← ld_u8 p ;
         ret (if c =? 0 then inr size else inl (size + 1, p + 1))
       else ret (inr size)) (i, p)) (i + Z.of_nat (length bs)).
Proof.
  revert fuel i p. induction bs as [|b bs IH]; intros fuel i p Hl Hz Hle Hend Hf.
  all: destruct fuel as [|fuel]; [simpl in Hf; lia|].
  - change (Z.of_nat (length [])) with 0 in *. rewrite !Z.add_0_r in *.
    apply (writes_loop_exit (src := src) fuel).
    destruct (Z.ltb_spec i mx); [|apply writes_ret].
    destruct Hend as [?|Hend]; [lia|].
    eapply writes_bind_nil; [by apply writes_load_uint|]. apply writes_ret.
  - cbn [length load_bytes] in *. inversion Hz; subst.
    destruct (load_byte src p) eqn:Hb, (load_bytes src (p + 1) (length bs)) eqn:Hl'; simplify_eq.
    apply (writes_loop_step (src := src) fuel _ _ (i + 1, p + 1) [] []).
    + destruct (Z.ltb_spec i mx); [|lia].
      eapply writes_bind_nil; [apply writes_load_uint; by apply load_uint_byte|].
      destruct (Z.eqb_spec (byte_val b) 0); [done|]. apply writes_ret.
    + replace (i + Z.of_nat (S (length bs))) with (i + 1 + Z.of_nat (length bs)) by lia.
      apply IH; [done..|lia| |lia].
      destruct Hend as [Hend|Hend]; [left; lia|right].
      rewrite <- Hend. f_equal. lia.
Qed.

Lemma writes_strnlen p mx bs :
  cstring src p mx bs -> writes src [] (strnlen p mx) (Z.of_nat (length bs)).
Proof.
  intros (Hl & Hz & Hle & Hend). apply writes_nil. intros s Hs.
  unfold strnlen, gets. unfold bind at 1.
  assert (length bs < S (size (m_cells (e_mem s))))%nat as Hn.
  { apply load_bytes_size in Hl.
    pose proof (map_subseteq_size _ _ (w_src _ _ _ Hs)). lia. }
  pose proof (writes_fit _ _ _ _ (writes_strnlen_loop _ 0 p mx bs Hl Hz Hle Hend Hn) s Hs) as E.
  rewrite emit_nil in E by apply Hs. exact E.
Qed.

Lemma str_max_bound f : field_ok f -> str_max f < 2 ^ 64.
Proof. intros []. unfold str_max. case_if; [done|lia]. Qed.

(** ** Values of every type *)

(** The table entry of the field's type. *)
Definition encoder_of (f : pb_field_t) (func : option (pb_field_t -> Z -> M estate unit)) : Prop :=
  PB_ENCODERS rec !! Z.to_nat (PB_LTYPE (type f)) = Some func.

Lemma writes_value f p bs func :
  field_ok f -> encoder_of f func -> wire_value src sub f p bs ->
  writes src bs (call_encoder func f p) tt.
Proof.
  unfold encoder_of. intros Hf Hfunc Hv.
  destruct Hv as [z E Hn Hz|z E Hn Hz|z E Hn Hz|bs E Hl|bs E Hl|bs E Hp Hn Hl Hle|
    bs E Hp Hs|E Hp|fields bs E Hp He Hs Hlen|bs E Hn Hl].
  all: try (rewrite E in Hfunc; vm_compute Z.to_nat in Hfunc; simpl in Hfunc;
            injection Hfunc as <-; simpl).
  - unfold pb_enc_varint. eapply writes_ld_int; [done..|].
    apply writes_varint, u64_range.
  - unfold pb_enc_uvarint. eapply writes_ld_uint; [done..|].
    apply writes_varint. by eapply int_size_uint.
  - unfold pb_enc_svarint. eapply writes_ld_int; [done..|].
    apply writes_svarint. by eapply int_size_sint.
  - by apply writes_fixed32.
  - by apply writes_fixed64.
  - unfold pb_enc_bytes. destruct (Z.eqb_spec p NULL); [done|].
    pose proof (load_uint_range _ _ _ _ Hn) as Hr. change (2 ^ (8 * Z.of_nat 4)) with (2 ^ 32) in Hr.
    eapply writes_bind_nil.
    { apply writes_load_uint. unfold bytes_array_size. by rewrite Z.add_0_r. }
    unfold PB_BYTES_ARRAY_T_ALLOCSIZE, bytes_array_bytes.
    rewrite (u64_id (Z.of_nat (length bs) + 4)) by lia.
    destruct (Z.eqb_spec (PB_ATYPE (type f)) PB_ATYPE_STATIC) as [Ea|]; simpl.
    + destruct (Z.ltb_spec (data_size f) (Z.of_nat (length bs) + 4)); [specialize (Hle Ea); lia|].
      apply writes_string; [done|lia|done].
    + apply writes_string; [done|lia|done].
  - unfold pb_enc_string. fold (str_max f). destruct (Z.eqb_spec p NULL); [done|].
    eapply writes_bind_nil; [by apply writes_strnlen|].
    pose proof (str_max_bound f Hf). destruct Hs as (Hl & _ & Hle & _).
    apply writes_string; [done|lia|done].
  - destruct E as [E|E]; rewrite E in Hfunc; vm_compute Z.to_nat in Hfunc; simpl in Hfunc;
      injection Hfunc as <-; simpl.
    all: unfold pb_enc_bytes, pb_enc_string; rewrite Hp; cbv zeta.
    all: rewrite <- (app_nil_r (varint 0)); by apply (writes_string WNull []).
  - unfold pb_enc_submessage. destruct (Z.eqb_spec (ptr f) NULL); [done|].
    eapply writes_bind_nil; [by apply writes_of_option|].
    apply writes_submessage; [by apply Hsub|done].
  - unfold pb_enc_fixed_length_bytes. destruct Hf as [? ? ? ?].
    apply writes_string; [done|lia|done].
Qed.

(** ** Arrays *)

Lemma writes_keyed f p bs func :
  field_ok f -> encoder_of f func -> wire_keyed src sub f p bs ->
  writes src bs (pb_encode_tag_for_field f ;; call_encoder func f p) tt.
Proof.
  intros Hf Hfunc Hk. destruct Hk as [wt bs Hwt Hv].
  eapply writes_bind; [by apply writes_tag_for_field|by apply writes_value].
Qed.

Lemma writes_items f p n bs func :
  field_ok f -> encoder_of f func -> wire_items src sub f p n bs ->
  exists q, writes src bs
    (for_n n (fun p => call_encoder func f p ;; ret (p + data_size f)) p) q.
Proof.
  intros Hf Hfunc Hi. induction Hi as [p|p n b bs Hv Hi [q IH]].
  - exists p. apply writes_ret.
  - exists q. cbn [for_n]. eapply writes_bind; [|exact IH].
    eapply writes_then_ret; [by apply writes_value|apply writes_ret].
Qed.

Lemma writes_entries f p n bs func :
  field_ok f -> encoder_of f func -> wire_entries src sub f p n bs ->
  exists q, writes src bs
    (for_n n (fun p =>
       pb_encode_tag_for_field f ;;
       (if (PB_ATYPE (type f) =? PB_ATYPE_POINTER) &&
           ((PB_LTYPE (type f) =? PB_LTYPE_STRING) || (PB_LTYPE (type f) =? PB_LTYPE_BYTES))
        then q ← ld_ptr p ; call_encoder func f q
        else call_encoder func f p) ;;
       ret (p + data_size f)) p) q.
Proof.
  intros Hf Hfunc Hi. induction Hi as [p|p q0 n b bs He Hk Hi [q IH]].
  - exists p. apply writes_ret.
  - exists q. cbn [for_n]. eapply writes_bind; [|exact IH].
    destruct Hk as [wt b Hwt Hv].
    eapply writes_bind; [by apply writes_tag_for_field|].
    unfold entry_at in He. fold (entry_is_pointer f).
    destruct (entry_is_pointer f).
    + eapply writes_then_ret; [|apply writes_ret].
      eapply writes_bind_nil; [by apply writes_load_uint|by apply writes_value].
    + subst q0. eapply writes_then_ret; [by apply writes_value|apply writes_ret].
Qed.

Lemma writes_items_fixed f p n bs k :
  wire_items src sub f p n bs ->
  (forall q b, wire_value src sub f q b -> length b = k) -> length bs = (n * k)%nat.
Proof.
  intros Hi Hk. induction Hi as [p|p n b bs Hv Hi IH]; [done|].
  rewrite length_app, IH, (Hk _ _ Hv). lia.
Qed.

Lemma wire_fixed32_length f q b :
  PB_LTYPE (type f) = PB_LTYPE_FIXED32 -> wire_value src sub f q b -> length b = 4%nat.
Proof.
  intros E [? E'|? E'|? E'|? E' Hl|? E'|? E'|? E'|E'|? ? E'|? E']; rewrite E in E'; try done.
  - by apply load_bytes_length in Hl.
  - by destruct E'.
Qed.

Lemma wire_fixed64_length f q b :
  PB_LTYPE (type f) = PB_LTYPE_FIXED64 -> wire_value src sub f q b -> length b = 8%nat.
Proof.
  intros E [? E'|? E'|? E'|? E'|? E' Hl|? E'|? E'|E'|? ? E'|? E']; rewrite E in E'; try done.
  - by apply load_bytes_length in Hl.
  - by destruct E'.
Qed.

(** The announced size of a packed array is the size of its items: by
    multiplication for fixed-width types, by a sizing pass for the others. *)
Lemma writes_packed_size f p count bs func :
  field_ok f -> encoder_of f func -> 0 < count ->
  wire_items src sub f p (Z.to_nat count) bs -> Z.of_nat (length bs) < 2 ^ 64 ->
  writes src []
    (if PB_LTYPE (type f) =? PB_LTYPE_FIXED32 then ret (true, u64 (4 * count))
     else if PB_LTYPE (type f) =? PB_LTYPE_FIXED64 then ret (true, u64 (8 * count))
     else
       '(st, sizestream) ← on_ostream PB_OSTREAM_SIZING
          (for_n (Z.to_nat count) (fun p => call_encoder func f p ;; ret (p + data_size f)) p) ;
       ret (match st with Some _ => true | None => false end, o_bytes_written sizestream))
    (true, Z.of_nat (length bs)).
Proof.
  intros Hf Hfunc Hc Hi Hlen.
  destruct (Z.eqb_spec (PB_LTYPE (type f)) PB_LTYPE_FIXED32) as [E|].
  { pose proof (writes_items_fixed _ _ _ _ 4 Hi (fun q b => wire_fixed32_length f q b E)) as Hl.
    replace (4 * count) with (Z.of_nat (length bs)) by lia.
    rewrite u64_id by lia. apply writes_ret. }
  destruct (Z.eqb_spec (PB_LTYPE (type f)) PB_LTYPE_FIXED64) as [E|].
  { pose proof (writes_items_fixed _ _ _ _ 8 Hi (fun q b => wire_fixed64_length f q b E)) as Hl.
    replace (8 * count) with (Z.of_nat (length bs)) by lia.
    rewrite u64_id by lia. apply writes_ret. }
  destruct (writes_items f p _ bs func Hf Hfunc Hi) as [q Hw].
  eapply writes_bind_nil; [by apply writes_on_sizing|]. cbv beta iota. simpl o_bytes_written.
  rewrite u64_id by lia. apply writes_ret.
Qed.

(** A buffer gets the items; a sizing stream only their size. *)
Lemma writes_payload bs (m : M estate Z) q :
  writes src bs m q ->
  writes src bs
    (o ← ostream ;
     match o_callback o with
     | OSizing => pb_write WNull (Z.of_nat (length bs))
     | _ => m ;; ret tt
     end) tt.
Proof.
  intros Hm. apply writes_ostream; intros s Hs.
  2: { rewrite (f_cb _ _ _ Hs). destruct (writes_full _ _ _ _ Hm s Hs) as (s' & E & ?).
    exists s'. by rewrite (bind_fail _ _ _ _ E). }
  pose proof (w_cb _ _ _ Hs) as Hc.
  destruct (o_callback (e_stream s)) eqn:Hcb; [| |done].
  - unfold pb_write, ostream, gets, bind, ret, upd_ostream, modify, set_e_stream.
    rewrite Hcb. unfold emit, set_o_bytes_written. by rewrite Hcb.
  - by rewrite (bind_ok _ _ _ _ _ (writes_fit _ _ _ _ Hm s Hs)).
Qed.

Lemma writes_array f p count bs func :
  field_ok f -> encoder_of f func -> wire_array src sub f p count bs ->
  writes src bs (encode_array f p count func) tt.
Proof.
  intros Hf Hfunc Ha. unfold encode_array.
  assert ((PB_ATYPE (type f) <> PB_ATYPE_POINTER -> count <= array_size f) ->
    negb (PB_ATYPE (type f) =? PB_ATYPE_POINTER) && (array_size f <? count) = false) as Hmax.
  { intros Hle. destruct (Z.eqb_spec (PB_ATYPE (type f)) PB_ATYPE_POINTER); [done|].
    simpl. apply Z.ltb_ge. auto. }
  destruct Ha as [-> |bs Hc Hle Hl Hi Hlen|bs Hc Hle Hl He].
  - apply writes_ret.
  - destruct (Z.eqb_spec count 0); [lia|]. rewrite Hmax by done.
    destruct (Z.leb_spec (PB_LTYPE (type f)) PB_LTYPE_LAST_PACKABLE); [|lia]. cbv zeta.
    eapply writes_bind; [apply writes_tag; [apply Hf|done]|].
    eapply writes_bind_nil; [by apply writes_packed_size|]. cbv beta iota.
    eapply writes_bind_nil; [apply writes_ret|].
    eapply writes_bind; [apply writes_varint; lia|].
    destruct (writes_items f p _ bs func Hf Hfunc Hi) as [q Hw]. by eapply writes_payload.
  - destruct (Z.eqb_spec count 0); [lia|]. rewrite Hmax by done.
    destruct (Z.leb_spec (PB_LTYPE (type f)) PB_LTYPE_LAST_PACKABLE); [lia|].
    destruct (writes_entries f p _ bs func Hf Hfunc He) as [q Hw].
    eapply writes_then_ret; [exact Hw|apply writes_ret].
Qed.
End Value.

(** ** Walking the fields *)

Section Walk.
Context {src : mem}.

(** The iterator stands on [f] at address [p], with [rest] still to come. *)
Definition iter_on (it : pb_field_iter_t) (f : pb_field_t) (p : Z) (rest : list pb_field_t) : Prop :=
  drop (pos it) (start it) = f :: rest /\ pData it = p /\ tag f <> 0 /\
  exists f0, start it !! 0%nat = Some f0 /\ tag f0 <> 0.

Lemma iter_on_cur it f p rest : iter_on it f p rest -> start it !! pos it = Some f.
Proof. intros (E & _). rewrite <- (Nat.add_0_r (pos it)), <- lookup_drop, E. done. Qed.

Lemma writes_cur it f p rest : iter_on it f p rest -> writes src [] (cur it) f.
Proof. intros Hi. unfold cur. apply writes_of_option. by eapply iter_on_cur. Qed.

Lemma writes_begin fields base f rest :
  fields = f :: rest ->
  exists it, writes src [] (pb_field_iter_begin fields base) (negb (tag f =? 0), it) /\
    start it = fields /\ pos it = 0%nat /\ pData it = base + data_offset f /\ dest_struct it = base.
Proof.
  intros ->. exists (Iter (f :: rest) 0 0 base (base + data_offset f)
    (PMem (base + data_offset f + size_offset f))).
  split; [|done].
  unfold pb_field_iter_begin. eapply writes_bind_nil; [by apply writes_of_option|].
  apply writes_ret.
Qed.

(** [pb_field_iter_next] moves to the next address of the layout, or says
    there is none. *)
Lemma writes_next it f p f' rest :
  iter_on it f p (f' :: rest) ->
  exists it', writes src [] (pb_field_iter_next it) (negb (tag f' =? 0), it') /\
    start it' = start it /\ (tag f' <> 0 -> iter_on it' f' (next_data f p f') rest).
Proof.
  intros Hi. pose proof (writes_cur _ _ _ _ Hi) as Hcur.
  destruct Hi as (E & Hp & Ht & f0 & Hf0 & Ht0).
  assert (start it !! S (pos it) = Some f') as Hnext.
  { rewrite <- (Nat.add_1_r (pos it)), <- lookup_drop, E. done. }
  assert (drop (S (pos it)) (start it) = f' :: rest) as Hdrop.
  { rewrite <- Nat.add_1_r, <- drop_drop, E. done. }
  unfold pb_field_iter_next.
  destruct (Z.eqb_spec (tag f') 0) as [E0|E0].
  - destruct (start it) as [|h t] eqn:Es; [by rewrite drop_nil in E|].
    destruct (writes_begin (h :: t) (dest_struct it) h t eq_refl) as (it' & Hw & Hs & _).
    exists it'. split; [|split; [by rewrite Hs|done]].
    eapply writes_bind_nil; [exact Hcur|].
    destruct (Z.eqb_spec (tag f) 0); [done|].
    eapply writes_bind_nil; [apply writes_of_option; exact Hnext|].
    destruct (Z.eqb_spec (tag f') 0); [|done].
    eapply writes_bind_nil; [exact Hw|]. apply writes_ret.
  - destruct ((PB_HTYPE (type f) =? PB_HTYPE_ONEOF) && (PB_HTYPE (type f') =? PB_HTYPE_ONEOF) &&
      (data_offset f' =? PB_SIZE_MAX)) eqn:Ec.
    all: eexists; split;
      [eapply writes_bind_nil; [exact Hcur|];
       destruct (Z.eqb_spec (tag f) 0); [done|];
       eapply writes_bind_nil; [by apply writes_of_option|];
       destruct (Z.eqb_spec (tag f') 0); [done|]; cbv zeta; rewrite Ec; apply writes_ret|].
    all: split; [done|]; intros _; unfold iter_on, next_data; rewrite Ec; simpl.
    all: split_and!; eauto; by rewrite Hp.
Qed.

(** A loop over the fields of a structure writes the fields one after the
    other, in the order of the descriptors. *)
Lemma writes_fields_loop (body : pb_field_iter_t -> M estate unit) it f p rest bs bss fuel :
  iter_on it f p rest -> terminated rest -> (length rest < fuel)%nat ->
  (forall it' f' p' r b, iter_on it' f' p' r -> In ((f', p'), b) (zip ((f, p) :: addrs_from f p rest) (bs :: bss)) ->
     writes src b (body it') tt) ->
  length bss = length (addrs_from f p rest) ->
  writes src (bs ++ concat bss)
    (loop fuel (fun it =>
       body it ;;
       '(more, it') ← pb_field_iter_next it ;
       ret (if more : bool then inl it' else inr tt)) it) tt.
Proof.
  revert it f p bs bss fuel. induction rest as [|f' rest IH];
    intros it f p bs bss fuel Hi Ht Hf Hb Hlen; [by inversion Ht|].
  destruct fuel as [|fuel]; [simpl in Hf; lia|].
  destruct (writes_next it f p f' rest Hi) as (it' & Hn & Hs & Hi').
  cbn [addrs_from] in *. destruct (Z.eqb_spec (tag f') 0) as [E|E].
  - destruct bss; [|done]. simpl concat. rewrite app_nil_r.
    apply writes_loop_exit. eapply writes_then_ret.
    { eapply Hb; [exact Hi|by left]. }
    eapply writes_bind_nil; [exact Hn|]. apply writes_ret.
  - cbv zeta in *. destruct bss as [|b' bss]; [done|]. simpl in Hlen.
    cbn [concat]. apply writes_loop_step with it'.
    { eapply writes_then_ret; [eapply Hb; [exact Hi|by left]|].
      eapply writes_bind_nil; [exact Hn|]. apply writes_ret. }
    apply (IH it' f' (next_data f p f')); [by apply Hi'| |simpl in Hf; lia| |lia].
    + inversion Ht; [done|assumption].
    + intros it2 f2 p2 r2 b2 Hi2 Hin. eapply Hb; [exact Hi2|]. by right.
Qed.

Lemma iter_on_begin f rest base it :
  start it = f :: rest -> pos it = 0%nat -> pData it = base + data_offset f -> tag f <> 0 ->
  iter_on it f (base + data_offset f) rest.
Proof. intros E E0 Ep Ht. unfold iter_on. rewrite E0, E. split_and!; [done..|]. by exists f. Qed.

(** [pb_field_iter_begin] and the [do ... while] loop over all fields. *)
Lemma writes_all_fields (body : pb_field_iter_t -> M estate unit) fields base bss :
  terminated fields ->
  (forall it f p r b, iter_on it f p r -> In ((f, p), b) (zip (addrs fields base) bss) ->
     writes src b (body it) tt) ->
  length bss = length (addrs fields base) ->
  writes src (concat bss)
    ('(more, iter) ← pb_field_iter_begin fields base ;
     if negb more then ret tt else do_fields body iter) tt.
Proof.
  intros Ht Hb Hlen. destruct fields as [|f rest]; [by inversion Ht|].
  destruct (writes_begin (f :: rest) base f rest eq_refl) as (it & Hw & Hs & Hp & Hd & _).
  eapply writes_bind_nil; [exact Hw|]. cbv beta iota. cbn [addrs] in *.
  destruct (Z.eqb_spec (tag f) 0) as [E|E]; simpl negb; cbv iota.
  - destruct bss; [|done]. apply writes_ret.
  - destruct bss as [|b bss]; [done|]. cbn [concat].
    unfold do_fields. eapply writes_fields_loop with (rest := rest).
    + by apply iter_on_begin.
    + inversion Ht; [done|assumption].
    + rewrite Hs. simpl. lia.
    + exact Hb.
    + simpl in Hlen. lia.
Qed.

(** The same walk, left at the first field whose check fails. *)
Lemma writes_default_loop (check_one : pb_field_t -> Z -> M estate bool)
    (dflt : pb_field_t -> Z -> bool -> Prop) it f p rest b fuel :
  (forall f p b, dflt f p b -> writes src [] (check_one f p) b) ->
  iter_on it f p rest -> terminated rest -> (length rest < fuel)%nat ->
  default_members dflt ((f, p) :: addrs_from f p rest) b ->
  writes src []
    (loop fuel (fun it =>
       f ← cur it ;
       dflt ← check_one f (pData it) ;
       if negb dflt then ret (inr false)
       else
         '(more, it') ← pb_field_iter_next it ;
         ret (if more : bool then inl it' else inr true)) it) b.
Proof.
  intros Hc. revert it f p fuel. induction rest as [|f' rest IH];
    intros it f p fuel Hi Ht Hf Hd; [by inversion Ht|].
  destruct fuel as [|fuel]; [simpl in Hf; lia|].
  pose proof (writes_cur _ _ _ _ Hi) as Hcur. pose proof Hi as (_ & Hp & _).
  destruct (writes_next it f p f' rest Hi) as (it' & Hn & Hs & Hi').
  cbn [addrs_from] in Hd. inversion Hd as [|? ? ? Hset|? ? ? ? Hun Hrest]; subst.
  - apply writes_loop_exit. eapply writes_bind_nil; [exact Hcur|].
    eapply writes_bind_nil; [by apply Hc|]. apply writes_ret.
  - destruct (Z.eqb_spec (tag f') 0) as [E|E].
    + inversion Hrest; subst. apply writes_loop_exit.
      eapply writes_bind_nil; [exact Hcur|]. eapply writes_bind_nil; [by apply Hc|]. simpl negb. cbv iota.
      eapply writes_bind_nil; [exact Hn|]. apply writes_ret.
    + apply (writes_loop_step (src := src) fuel _ _ it' [] []).
      * eapply writes_bind_nil; [exact Hcur|]. eapply writes_bind_nil; [by apply Hc|]. simpl negb. cbv iota.
        eapply writes_bind_nil; [exact Hn|]. apply writes_ret.
      * apply (IH it' f' (next_data f (pData it) f')); [by apply Hi'| |simpl in Hf; lia|done].
        inversion Ht; [done|assumption].
Qed.
End Walk.

(** ** Default values *)

Section Defaults.
Context `{PbEnv} {src : mem}.
#[local] Arguments loop : simpl never.

Lemma writes_all_zero_loop fuel i n p bs :
  load_bytes src (p + i) (length bs) = Some bs -> i + Z.of_nat (length bs) = n ->
  (length bs < fuel)%nat ->
  writes src []
    (loop fuel (fun i =>
       if i <? n then
         c ← ld_u8 (p + i) ;
         ret (if negb (c =? 0) then inr false else inl (i + 1))
       else ret (inr true)) i) (forallb (fun b => byte_val b =? 0) bs).
Proof.
  revert fuel i. induction bs as [|b bs IH]; intros fuel i Hl Hn Hf.
  all: destruct fuel as [|fuel]; [simpl in Hf; lia|].
  - apply (writes_loop_exit (src := src) fuel). simpl in Hn.
    destruct (Z.ltb_spec i n); [lia|]. apply writes_ret.
  - cbn [length load_bytes] in *.
    destruct (load_byte src (p + i)) eqn:Hb, (load_bytes src (p + i + 1) (length bs)) eqn:Hl'; simplify_eq.
    cbn [forallb]. destruct (Z.eqb_spec (byte_val b) 0) as [E|E].
    + apply (writes_loop_step (src := src) fuel _ _ (i + 1) [] []).
      * destruct (Z.ltb_spec i (i + Z.of_nat (S (length bs)))); [|lia].
        eapply writes_bind_nil; [apply writes_load_uint; by apply load_uint_byte|].
        rewrite E. apply writes_ret.
      * apply IH; [|lia..]. by rewrite Z.add_assoc.
    + apply (writes_loop_exit (src := src) fuel).
      destruct (Z.ltb_spec i (i + Z.of_nat (S (length bs)))); [|lia].
      eapply writes_bind_nil; [apply writes_load_uint; by apply load_uint_byte|].
      destruct (Z.eqb_spec (byte_val b) 0); [done|]. apply writes_ret.
Qed.

Lemma writes_all_zero p n bs :
  0 <= n -> load_bytes src p (Z.to_nat n) = Some bs ->
  writes src [] (all_zero p n) (forallb (fun b => byte_val b =? 0) bs).
Proof.
  intros Hn Hl. pose proof (load_bytes_length _ _ _ _ Hl) as Hlen.
  apply writes_all_zero_loop; [|lia..]. by rewrite Z.add_0_r, Hlen.
Qed.

Lemma ltype_le_packable f l :
  PB_LTYPE_LAST_PACKABLE < l -> PB_LTYPE (type f) <= PB_LTYPE_LAST_PACKABLE ->
  (PB_LTYPE (type f) =? l) = false.
Proof. intros. apply Z.eqb_neq. lia. Qed.

Lemma writes_default n f p b fuel :
  default_value src n f p b -> (n <= fuel)%nat ->
  writes src [] (pb_check_proto3_default_value fuel f p) b.
Proof.
  revert f p b fuel. induction n as [|n IH]; intros f p b fuel Hd Hf; [done|].
  destruct fuel as [|fuel]; [lia|]. cbn [default_value pb_check_proto3_default_value] in *.
  destruct Hd as [E|k E Hk|h E Es Hh|k E Es Ea El Hk|c E Es Ea El Hc|E Es Ea El|
    fields b E Es Ea El He Hs|bs E Es Ea Hn Hl].
  - rewrite E. apply writes_ret.
  - destruct E as [E|E]; rewrite E; simpl;
      (eapply writes_bind_nil; [by apply writes_load_uint|apply writes_ret]).
  - rewrite E. simpl. destruct (Z.eqb_spec (size_offset f) 0); [done|]. simpl.
    eapply writes_bind_nil; [by apply writes_ld_bool|].
    rewrite negb_involutive. apply writes_ret.
  - rewrite E, Es, Ea, El. simpl. rewrite Z.add_0_r.
    eapply writes_bind_nil; [by apply writes_load_uint|apply writes_ret].
  - rewrite E, Es, Ea, El. simpl.
    eapply writes_bind_nil; [by apply writes_load_uint|apply writes_ret].
  - rewrite E, Es, Ea, El. simpl. apply writes_ret.
  - rewrite E, Es, Ea, El. simpl.
    eapply writes_bind_nil; [by apply writes_of_option|].
    destruct Hs as [Ht Hm]. destruct fields as [|f' rest]; [by inversion Ht|].
    destruct (writes_begin (src := src) (f' :: rest) p f' rest eq_refl) as (it & Hw & Hst & Hp & Hdt & _).
    eapply writes_bind_nil; [exact Hw|]. cbv beta iota. cbn [addrs] in Hm.
    destruct (Z.eqb_spec (tag f') 0) as [E0|E0]; simpl negb; cbv iota.
    + inversion Hm; subst. apply writes_ret.
    + apply (writes_default_loop (src := src) (pb_check_proto3_default_value fuel)
               (default_value src n) it f' (p + data_offset f') rest b).
      * intros f2 p2 b2 H2. apply IH; [exact H2|lia].
      * by apply iter_on_begin.
      * inversion Ht; [done|assumption].
      * simpl. lia.
      * done.
  - rewrite E, Es. simpl.
    destruct Ea as [Ea|Ea].
    + destruct (Z.eqb_spec (PB_ATYPE (type f)) PB_ATYPE_STATIC); [done|]. simpl.
      by apply writes_all_zero.
    + rewrite !ltype_le_packable by done. rewrite !andb_false_r. by apply writes_all_zero.
Qed.
End Defaults.

(** ** Fields and messages *)

Section Message.
Context `{PbEnv} {src : mem}.

(** Every valid type has an entry in the table. *)
Lemma encoder_exists rec f : field_ok f -> exists func, encoder_of rec f func.
Proof.
  intros Hl%ok_ltype. unfold encoder_of. pose proof (PB_LTYPE_range (type f)).
  destruct (lookup_lt_is_Some_2 (PB_ENCODERS rec) (Z.to_nat (PB_LTYPE (type f)))) as [x Hx]; [|by exists x].
  unfold PB_LTYPES_COUNT in Hl. simpl. lia.
Qed.

Section Level.
Context (rec : list pb_field_t -> Z -> M estate unit).
Context (sub : list pb_field_t -> Z -> list byte -> Prop).
Context (Hsub : forall fields p bs, sub fields p bs -> writes src bs (rec fields p) tt).
Context (dflt : pb_field_t -> Z -> bool -> Prop) (fuel k : nat).
Context (Hdflt : forall f p b, dflt f p b ->
           writes src [] (pb_check_proto3_default_value fuel f p) b).
Context (Hk : (k <= fuel)%nat).

(** A NULL-checked or tag-checked member is written exactly when present. *)
Lemma writes_optional (b : bool) f p bs func :
  field_ok f -> encoder_of rec f func ->
  (b = true -> wire_keyed src sub f p bs) -> (b = false -> bs = []) ->
  writes src bs (if b then pb_encode_tag_for_field f ;; call_encoder func f p else ret tt) tt.
Proof.
  intros Hf Hfunc Hyes Hno. destruct b.
  - eapply writes_keyed; eauto.
  - rewrite Hno by done. apply writes_ret.
Qed.

(** The dereference at the top of [encode_basic_field]. *)
Lemma writes_data_at f p q (b : bool) {A} bs (c : Z * bool -> M estate A) a :
  data_at src f p q ->
  writes src bs (c (q, if PB_ATYPE (type f) =? PB_ATYPE_POINTER then negb (q =? NULL) else b)) a ->
  writes src bs
    (bind (if PB_ATYPE (type f) =? PB_ATYPE_POINTER then
             p' ← ld_ptr p ; ret (p', negb (p' =? NULL))
           else ret (p, b)) c) a.
Proof.
  unfold data_at. intros Hd Hc. eapply writes_bind_nil; [|exact Hc].
  destruct (PB_ATYPE (type f) =? PB_ATYPE_POINTER).
  - eapply writes_bind_nil; [by apply writes_load_uint|apply writes_ret].
  - subst q. apply writes_ret.
Qed.

Lemma writes_basic f p bs :
  field_ok f ->
  wire_basic src sub dflt f p bs -> writes src bs (encode_basic_field rec fuel f p) tt.
Proof.
  intros Hf Hb. destruct (encoder_exists rec f Hf) as [func Hfunc].
  unfold encode_basic_field. eapply writes_bind_nil; [by apply writes_of_option|]. cbv zeta.
  destruct Hb as [q bs E Hd Hq Hk'|q has bs E Es Hd Hh Hyes Hno|d bs E Es Ea Hdf Hyes Hno|
    d q bs E Es Ea Hdf Hd Hyes Hno|q count bs E Hd Hc1 Hc2 Ha|q which bs E Es Hd Hw Hyes Hno].
  - (* required *)
    assert (exists x, forall A (c : size_ptr * bool -> M estate A) a bs',
      writes src bs' (c x) a -> writes src bs'
      (bind (if negb (size_offset f =? 0) then ret (PMem (p + size_offset f), false)
             else if PB_HTYPE (type f) =? PB_HTYPE_OPTIONAL then
               dflt ← pb_check_proto3_default_value fuel f p ; ret (PLocal, negb dflt)
             else ret (PLocal, true)) c) a) as [[ps ih] Hx].
    { rewrite E. case_if; simpl; eexists; intros A c a bs' Hc;
        (eapply writes_bind_nil; [apply writes_ret|exact Hc]). }
    apply Hx. cbv beta iota. eapply writes_data_at; [exact Hd|]. cbv beta iota. rewrite E. simpl.
    destruct (Z.eqb_spec q NULL); [done|]. eapply writes_keyed; eauto.
  - (* optional *)
    destruct (Z.eqb_spec (size_offset f) 0); [done|]. simpl.
    eapply writes_bind_nil; [apply writes_ret|]. cbv beta iota.
    eapply writes_data_at; [exact Hd|]. cbv beta iota. rewrite E. simpl.
    eapply writes_bind_nil; [by apply writes_ld_bool|].
    apply writes_optional; [done..| |]; destruct (Z.eqb_spec has 0); simpl; auto; done.
  - (* proto3 singular *)
    rewrite Es, E. simpl.
    eapply writes_bind_nil.
    { eapply writes_bind_nil; [by apply Hdflt|apply writes_ret]. }
    cbv beta iota. eapply writes_data_at with (q := p).
    { unfold data_at. by rewrite Ea. }
    cbv beta iota. rewrite Ea. simpl. eapply writes_bind_nil; [apply writes_ret|].
    apply writes_optional; [done..| |]; destruct d; simpl; auto; done.
  - (* proto3 singular behind a pointer *)
    rewrite Es, E. simpl.
    eapply writes_bind_nil.
    { eapply writes_bind_nil; [by apply Hdflt|apply writes_ret]. }
    cbv beta iota. eapply writes_data_at; [exact Hd|].
    cbv beta iota. rewrite Ea. simpl. eapply writes_bind_nil; [apply writes_ret|].
    apply writes_optional; [done..| |]; destruct (Z.eqb_spec q NULL); simpl; auto; done.
  - (* repeated *)
    rewrite E. simpl.
    destruct (Z.eqb_spec (size_offset f) 0) as [Es|Es]; simpl.
    + eapply writes_bind_nil; [apply writes_ret|]. cbv beta iota.
      eapply writes_data_at; [exact Hd|]. cbv beta iota.
      eapply writes_bind_nil; [apply writes_ret|].
      rewrite <- Hc2 by done. by eapply writes_array.
    + eapply writes_bind_nil; [apply writes_ret|]. cbv beta iota.
      eapply writes_data_at; [exact Hd|]. cbv beta iota.
      eapply writes_bind_nil; [by apply writes_load_uint, Hc1|]. by eapply writes_array.
  - (* oneof *)
    rewrite E. simpl.
    destruct (Z.eqb_spec (size_offset f) 0); [done|]. simpl.
    eapply writes_bind_nil; [apply writes_ret|]. cbv beta iota.
    eapply writes_data_at; [exact Hd|]. cbv beta iota.
    eapply writes_bind_nil; [by apply writes_load_uint|].
    apply writes_optional; [done..| |]; destruct (Z.eqb_spec which (tag f)); auto; done.
Qed.

Lemma writes_field f p bs :
  wire_field src sub dflt f p bs -> writes src bs (encode_field rec fuel f p) tt.
Proof.
  intros Hw. unfold encode_field. cbv zeta. destruct Hw as [bs Ea Hne Hf Hb|Ea Hz].
  - assert ((PB_ATYPE (type f) =? PB_ATYPE_STATIC) || (PB_ATYPE (type f) =? PB_ATYPE_POINTER) = true) as ->.
    { destruct Ea as [-> | ->]; done. }
    by apply writes_basic.
  - rewrite Ea. simpl. unfold encode_callback_field.
    eapply writes_bind_nil; [by apply writes_load_uint|]. apply writes_ret.
Qed.

(** The default encoder of one extension. *)
Lemma writes_default_extension ext ty et f p bs :
  load_uint src (ext + extension_type) 8 = Some ty -> env_ext_type ty = Some et ->
  ext_arg et !! 0%nat = Some f ->
  (if PB_ATYPE (type f) =? PB_ATYPE_POINTER then p = ext + extension_dest
   else load_uint src (ext + extension_dest) 8 = Some p) ->
  wire_field src sub dflt f p bs -> writes src bs (default_extension_encoder rec fuel ext) tt.
Proof.
  intros Hty Het Hf Hp Hw. unfold default_extension_encoder, extension_type_of.
  eapply writes_bind_nil.
  { eapply writes_bind_nil; [by apply writes_load_uint|by apply writes_of_option]. }
  eapply writes_bind_nil; [by apply writes_of_option|].
  destruct (PB_ATYPE (type f) =? PB_ATYPE_POINTER).
  - subst p. by apply writes_field.
  - eapply writes_bind_nil; [by apply writes_load_uint|]. by apply writes_field.
Qed.

(** [encode_extension_field] goes through the whole list. *)
Lemma writes_extensions j n ext bs :
  (j <= n)%nat -> wire_extensions src sub dflt j ext bs ->
  writes src bs
    (loop n (fun extension =>
      if extension =? NULL then ret (inr tt)
      else
        ty ← extension_type_of extension ;
        (if negb (ext_encode ty =? NULL)
         then ok ← call_o (fun o m => env_ext_encode (ext_encode ty) o extension m) ; check ok
         else default_extension_encoder rec fuel extension) ;;
        next ← ld_ptr (extension + extension_next) ;
        ret (inl next)) ext) tt.
Proof.
  revert n ext bs. induction j as [|j IH]; intros n ext bs Hn Hw; [done|].
  destruct n as [|n]; [lia|]. cbn [wire_extensions] in Hw.
  destruct (Z.eqb_spec ext NULL) as [E|E].
  { subst bs. apply writes_loop_exit. destruct (Z.eqb_spec ext NULL); [|done]. apply writes_ret. }
  destruct Hw as (ty & et & f & p & b & bs' & next & Hty & Het & Hnull & Hf & Hp & Hb & Hnext & Hrest & ->).
  eapply writes_loop_step; [|by apply IH; [lia|exact Hrest]].
  destruct (Z.eqb_spec ext NULL); [done|].
  eapply writes_bind_nil.
  { unfold extension_type_of.
    eapply writes_bind_nil; [by apply writes_load_uint|by apply writes_of_option]. }
  rewrite Hnull. simpl negb. cbv iota.
  eapply writes_then_ret; [by eapply writes_default_extension|].
  eapply writes_bind_nil; [by apply writes_load_uint|]. apply writes_ret.
Qed.

Lemma writes_member f p bs :
  wire_member src sub dflt k (f, p) bs ->
  writes src bs (if PB_LTYPE (type f) =? PB_LTYPE_EXTENSION
                 then encode_extension_field rec fuel f p
                 else encode_field rec fuel f p) tt.
Proof.
  unfold wire_member. simpl.
  destruct (PB_LTYPE (type f) =? PB_LTYPE_EXTENSION).
  - intros (ext & He & Hx). unfold encode_extension_field.
    eapply writes_bind_nil; [by apply writes_load_uint|]. by eapply writes_extensions.
  - by apply writes_field.
Qed.

Lemma writes_fields fields p bss :
  terminated fields ->
  Forall2 (wire_member src sub dflt k) (addrs fields p) bss ->
  writes src (concat bss) (pb_encode_fields rec fuel fields p) tt.
Proof.
  intros Ht Hm. unfold pb_encode_fields. apply writes_all_fields; [done| |].
  - intros it f q r b Hi Hin.
    eapply writes_bind_nil; [by eapply writes_cur|].
    destruct (Hi) as (_ & -> & _). apply writes_member.
    apply (Forall2_In_zip _ _ _ _ _ Hm Hin).
  - symmetry. by eapply Forall2_length.
Qed.
End Level.

(** The encoder writes the bytes of the wire format. *)
Lemma writes_message n fuel fields p bs :
  wire_message src n fields p bs -> (n <= fuel)%nat -> writes src bs (pb_encode fuel fields p) tt.
Proof.
  revert fuel fields p bs. induction n as [|n IH]; intros fuel fields p bs Hw Hf; [done|].
  destruct fuel as [|fuel]; [lia|]. destruct Hw as (Ht & bss & Hm & ->). cbn [pb_encode].
  eapply writes_fields; [| | |exact Ht|exact Hm].
  - intros fields' q b Hs. apply IH; [exact Hs|lia].
  - intros f q b Hd. eapply writes_default; [exact Hd|lia].
  - lia.
Qed.
End Message.

(** A buffer of [size] bytes at [buf] in the memory [m], apart from the data
    [src] that is to be encoded. *)
Record output_buffer (src m : mem) (buf size : Z) : Prop := {
  ob_src : m_cells src ⊆ m_cells m;
  ob_size : 0 <= size < 2 ^ 64;
  ob_mapped : mapped m buf size;
  ob_apart : forall i, 0 <= i < size -> m_cells src !! (buf + i) = None;
}.

(** [c] stores exactly [bs] at the start of the buffer, if the buffer is large
    enough; if not, it fails with "stream full" and has not touched a cell
    outside the buffer. *)
Definition stores (src : mem) (bs : list byte) (c : M estate unit) : Prop :=
  forall m buf size, output_buffer src m buf size ->
  let n := Z.of_nat (length bs) in
  let initial := EState (pb_ostream_from_buffer buf size) m in
  (n <= size ->
     exists m', c initial = Ok tt (EState (OStream OBuf (buf + n) size n None) m') /\
       load_bytes m' buf (length bs) = Some bs /\
       m_heap m' = m_heap m /\
       forall a, ~ (buf <= a < buf + n) -> m_cells m' !! a = m_cells m !! a) /\
  (size < n < 2 ^ 64 ->
     exists o m', c initial = Fail (EState o m') /\
       o_errmsg o = Some "stream full"%string /\ o_bytes_written o <= size /\
       m_heap m' = m_heap m /\
       forall a, ~ (buf <= a < buf + size) -> m_cells m' !! a = m_cells m !! a).

Lemma writes_stores src bs c : writes src bs c tt -> stores src bs c.
Proof.
  intros [Hfit Hfull] m buf size [H1 H2 H3 H4] n initial. split; intros Hn.
  - exists (put_bytes m buf bs). split_and!.
    + rewrite Hfit; [|split; simpl; try done; try lia; split_and!; try lia].
      * unfold emit. simpl. by rewrite u64_id by lia.
      * intros i Hi. apply H3. lia.
      * intros i Hi. apply H4. lia.
    + apply load_bytes_put_bytes.
    + apply put_bytes_heap.
    + intros a Ha. by apply cells_put_bytes_ne.
  - destruct (Hfull initial) as ([o m'] & E & [S1 S2 S3 S4]).
    { split; simpl; rewrite ?Z.sub_0_r; try done; lia. }
    exists o, m'. simpl in *. rewrite !Z.sub_0_r in *. split_and!; [done..|lia|done|exact S4].
Qed.

(** The call counts [bs] on a sizing stream, in any memory with the data. *)
Lemma writes_sized src bs {A} (c : M estate A) a m :
  writes src bs c a -> m_cells src ⊆ m_cells m ->
  c (EState PB_OSTREAM_SIZING m) =
    Ok a (EState (OStream OSizing 0 0 (u64 (Z.of_nat (length bs))) None) m).
Proof. intros [Hfit _] Hm. rewrite Hfit; [done|]. by split. Qed.

Section Messages.
Context `{PbEnv}.

(** C1. [pb_encode] on a buffer stores the wire format of the
    message: every field in descriptor order, presence and defaults honoured,
    submessages behind their length, extensions included.  It succeeds
    exactly when the buffer is large enough. *)
Theorem pb_encode_stores src n fuel fields p bs :
  wire_message src n fields p bs -> (n <= fuel)%nat ->
  stores src bs (pb_encode fuel fields p).
Proof. intros. eapply writes_stores, writes_message; eauto. Qed.

(** [pb_get_encoded_size] returns the length of the encoding, writes nothing,
    and leaves the stream it is called on alone. *)
Theorem pb_get_encoded_size_correct src n fuel fields p bs s :
  wire_message src n fields p bs -> (n <= fuel)%nat ->
  m_cells src ⊆ m_cells (e_mem s) -> Z.of_nat (length bs) < 2 ^ 64 ->
  pb_get_encoded_size fuel fields p s = Ok (Z.of_nat (length bs)) s.
Proof.
  intros Hw Hf Hs Hl. unfold pb_get_encoded_size. apply writes_message with (fuel := fuel) in Hw; [|done].
  unfold bind, on_ostream, set_e_stream. rewrite (writes_sized _ _ _ _ _ Hw Hs).
  destruct s. unfold ret; simpl. by rewrite u64_id by lia.
Qed.

(** [pb_encode_delimited] puts the length of the encoding, as a varint, in
    front of it. *)
Theorem pb_encode_delimited_stores src n fuel fields p bs :
  wire_message src n fields p bs -> (n <= fuel)%nat -> Z.of_nat (length bs) < 2 ^ 64 ->
  stores src (varint (Z.of_nat (length bs)) ++ bs) (pb_encode_delimited fuel fields p).
Proof.
  intros Hw Hf Hl. apply writes_stores, writes_submessage; [|done]. by eapply writes_message.
Qed.

(** [pb_encode_nullterminated] puts a zero
    byte behind the encoding. *)
Theorem pb_encode_nullterminated_stores src n fuel fields p bs :
  wire_message src n fields p bs -> (n <= fuel)%nat ->
  stores src (bs ++ [byte_of 0]) (pb_encode_nullterminated fuel fields p).
Proof.
  intros Hw Hf. apply writes_stores. eapply writes_bind; [by eapply writes_message|].
  by apply writes_local.
Qed.
End Messages.

(** ** Error returns *)

(** A failed call that has only set the message. *)
Definition fails_with {A} (msg : string) (m : M estate A) (s : estate) : Prop :=
  m s = Fail (set_err (Some (default msg (get_err s))) s).

Section Errors.
Context `{PbEnv}.

Lemma return_error_fails {A} msg s : fails_with msg (PB_RETURN_ERROR (A := A) msg) s.
Proof. done. Qed.

(** What a message structure can get wrong is refused
    before a byte of the field is written: a required pointer field that is
    NULL, a static array whose count exceeds the size of the array, and a
    type with an unknown allocation. *)
Theorem encode_field_errors rec fuel f p s :
  (PB_ATYPE (type f) = PB_ATYPE_POINTER -> PB_HTYPE (type f) = PB_HTYPE_REQUIRED ->
   field_ok f -> load_uint (e_mem s) p 8 = Some NULL ->
   fails_with "missing required field" (encode_field rec fuel f p) s) /\
  (PB_ATYPE (type f) = PB_ATYPE_STATIC -> PB_HTYPE (type f) = PB_HTYPE_REPEATED ->
   field_ok f -> size_offset f <> 0 ->
   (exists count, load_uint (e_mem s) (p + size_offset f) 4 = Some count /\ array_size f < count) ->
   fails_with "array max size exceeded" (encode_field rec fuel f p) s) /\
  (PB_ATYPE (type f) = PB_ATYPE_MASK ->
   fails_with "invalid field type" (encode_field rec fuel f p) s).
Proof.
  split_and!.
  - intros Ea Eh Hf Hn. destruct (encoder_exists rec f Hf) as [func Hfunc].
    unfold fails_with, encode_field. cbv zeta. rewrite Ea. simpl.
    unfold encode_basic_field. rewrite Hfunc, Ea, Eh. simpl.
    unfold ld_ptr, load, bind, ret. simpl. case_if; simpl; by rewrite Hn.
  - intros Ea Eh Hf Hs (count & Hc & Hlt). destruct (encoder_exists rec f Hf) as [func Hfunc].
    unfold fails_with, encode_field. cbv zeta. rewrite Ea. simpl.
    unfold encode_basic_field. rewrite Hfunc, Ea, Eh. simpl.
    destruct (Z.eqb_spec (size_offset f) 0); [done|]. simpl.
    unfold ld_u32, load, bind, ret. simpl. rewrite Hc. simpl.
    unfold encode_array. rewrite Ea.
    destruct Hf as [_ _ _ ? _].
    destruct (Z.eqb_spec count 0); [lia|]. simpl. destruct (Z.ltb_spec (array_size f) count); [done|lia].
  - intros Ea. unfold fails_with, encode_field. cbv zeta. by rewrite Ea.
Qed.

(** A value that does not fit its descriptor is an
    error, after nothing has been written: an integer member of no known
    size, and a byte array whose [size] exceeds the member it is in. *)
Theorem encode_value_errors f p s :
  (~ int_size (data_size f) ->
   fails_with "invalid data_size" (pb_enc_varint f p) s /\
   fails_with "invalid data_size" (pb_enc_uvarint f p) s /\
   fails_with "invalid data_size" (pb_enc_svarint f p) s) /\
  (PB_ATYPE (type f) = PB_ATYPE_STATIC -> p <> NULL ->
   forall n, load_uint (e_mem s) p 4 = Some n -> data_size f < n + 4 -> 
   fails_with "bytes size exceeded" (pb_enc_bytes f p) s).
Proof.
  split.
  - unfold int_size. intros Hn.
    unfold fails_with, pb_enc_varint, pb_enc_uvarint, pb_enc_svarint, bind.
    destruct (Z.eqb_spec (data_size f) 1), (Z.eqb_spec (data_size f) 2),
      (Z.eqb_spec (data_size f) 4), (Z.eqb_spec (data_size f) 8); try (exfalso; tauto).
    by split_and!.
  - intros Ea Hp n Hn Hlt. unfold fails_with, pb_enc_bytes.
    destruct (Z.eqb_spec p NULL); [done|]. rewrite Ea. simpl.
    unfold ld_u32, load, bind, ret. simpl. unfold bytes_array_size. rewrite Z.add_0_r, Hn. simpl.
    pose proof (load_uint_range _ _ _ _ Hn) as Hr. simpl in Hr.
    unfold PB_BYTES_ARRAY_T_ALLOCSIZE, bytes_array_bytes. rewrite u64_id by lia.
    destruct (Z.ltb_spec (n + 4) n); [lia|]. 
    destruct (Z.ltb_spec (data_size f) (n + 4)); [done|lia].
Qed.
End Errors.
