(* ===== verification/IStream.v ===== *)
(** * pb_decode.c: input streams and primitive decoders

    [pb_istream_t] operations, varints, tags, skipping, substreams and the
    decoders of scalar values. *)
From S2P Require Import Prelude Mem Comp Pb PbEnv.

(** The [buf] argument of a read: NULL, an address, or a local array of the
    calling function, which receives the bytes as the result of the call. *)
Inductive rdst := RNull | RMem (a : Z) | RLocal.

Definition rmem (a : Z) : rdst := if a =? NULL then RNull else RMem a.

Definition is_RNull (buf : rdst) : bool := match buf with RNull => true | _ => false end.

Definition set_i_state (a : Z) (i : pb_istream_t) : pb_istream_t :=
  IStream (i_callback i) a (i_bytes_left i) (i_errmsg i).

Definition set_i_bytes_left (n : Z) (i : pb_istream_t) : pb_istream_t :=
  IStream (i_callback i) (i_state i) n (i_errmsg i).

Definition pb_istream_from_buffer (buf bufsize : Z) : pb_istream_t :=
  IStream IBuf buf bufsize None.

Section IStream.
Context `{PbEnv}.

Definition istream : M dstate pb_istream_t := gets d_stream.
Definition upd_istream (f : pb_istream_t -> pb_istream_t) : M dstate unit :=
  modify (fun s => set_d_stream (f (d_stream s)) s).
Definition bytes_left : M dstate Z := gets (fun s => i_bytes_left (d_stream s)).

(** A loop every round of which consumes a byte or leaves. *)
Definition byte_loop {X A} (body : X -> M dstate (X + A)) (x : X) : M dstate A :=
  n ← bytes_left ; loop (S (S (Z.to_nat n))) body x.

Definition buf_read (buf : rdst) (count : Z) : M dstate (list byte) :=
  i ← istream ;
  let source := i_state i in
  upd_istream (set_i_state (source + count)) ;;
  match buf with
  | RNull => ret []
  | RMem a => memcpy a source count ;; ret []
  | RLocal => s ← get ; of_option (load_bytes (d_mem s) source (Z.to_nat count))
  end.

(** [stream->callback(stream, buf, count)]: the returned bool and, for a
    local [buf], the bytes put there. *)
Definition istream_callback (buf : rdst) (count : Z) : M dstate (bool * list byte) :=
  i ← istream ;
  match i_callback i with
  | IBuf => bs ← buf_read buf count ; ret (true, bs)
  | IUser f => fun s =>
      match env_istream_cb f (d_stream s) count (d_mem s) with
      | (ok, bs, i', m') =>
          (match buf with
           | RNull => ret (ok, [])
           | RMem a => st_bytes a bs ;; ret (ok, [])
           | RLocal => ret (ok, bs)
           end) (DState i' m' (d_fixed s))
      end
  end.

(** [pb_read] with a buffer, or skipping in a memory buffer. *)
Definition pb_read_direct (buf : rdst) (count : Z) : M dstate (list byte) :=
  n ← bytes_left ;
  if n <? count then PB_RETURN_ERROR "end-of-stream"
  else
    '(ok, bs) ← istream_callback buf count ;
    if negb ok then PB_RETURN_ERROR "io error"
    else
      upd_istream (fun i => set_i_bytes_left (u64 (i_bytes_left i - count)) i) ;;
      ret bs.

Definition pb_read (buf : rdst) (count : Z) : M dstate (list byte) :=
  i ← istream ;
  if is_RNull buf && negb (bool_decide (i_callback i = IBuf)) then
    (* skip input bytes, 16 at a time into a scratch array *)
    count ← loop (S (Z.to_nat (count / 16))) (fun count =>
      if 16 <? count then pb_read_direct RLocal 16 ;; ret (inl (count - 16))
      else ret (inr count)) count ;
    pb_read_direct RLocal count ;;
    ret []
  else pb_read_direct buf count.

Definition pb_readbyte : M dstate Z :=
  n ← bytes_left ;
  if n =? 0 then PB_RETURN_ERROR "end-of-stream"
  else
    '(ok, bs) ← istream_callback RLocal 1 ;
    if negb ok then PB_RETURN_ERROR "io error"
    else
      upd_istream (fun i => set_i_bytes_left (u64 (i_bytes_left i - 1)) i) ;;
      match bs with
      | [b] => ret (byte_val b)
      | _ => ub
      end.

(** The result, unless the function returns false, and [*eof], which only
    ever changes to true. [bitpos] is a [uint_fast8_t], 8 bits wide. *)
Definition pb_decode_varint32_eof : M dstate (option Z * bool) :=
  first ← attempt pb_readbyte ;
  match first with
  | None => n ← bytes_left ; ret (None, n =? 0)
  | Some byte =>
      if Z.land byte 0x80 =? 0 then ret (Some byte, false)
      else
        r ← byte_loop (fun '(bitpos, result) =>
          next ← attempt pb_readbyte ;
          match next with
          | None => ret (inr None)
          | Some byte =>
              let sign_extension := if bitpos <? 63 then 0xFF else 0x01 in
              if (32 <=? bitpos) && negb (Z.land byte 0x7F =? 0) &&
                 ((Z.shiftr result 31 =? 0) || negb (byte =? sign_extension))
              then PB_SET_ERROR "varint overflow" ;; ret (inr None)
              else
                let result :=
                  if 32 <=? bitpos then result
                  else Z.lor result (u32 (Z.shiftl (Z.land byte 0x7F) bitpos)) in
                let bitpos := u8 (bitpos + 7) in
                ret (if negb (Z.land byte 0x80 =? 0) then inl (bitpos, result)
                     else inr (Some (bitpos, byte, result)))
          end) (7, Z.land byte 0x7F) ;
        match r with
        | None => ret (None, false)
        | Some (bitpos, byte, result) =>
            if (bitpos =? 35) && negb (Z.land byte 0x70 =? 0)
            then PB_SET_ERROR "varint overflow" ;; ret (None, false)
            else ret (Some result, false)
        end
  end.

Definition pb_decode_varint32 : M dstate Z :=
  '(r, _) ← pb_decode_varint32_eof ;
  match r with
  | Some v => ret v
  | None => fail
  end.

(** [bitpos] grows by 7 and is checked against 64 first: 11 rounds at most. *)
Definition pb_decode_varint : M dstate Z :=
  loop 11 (fun '(bitpos, result) =>
    if 64 <=? bitpos then PB_RETURN_ERROR "varint overflow"
    else
      byte ← pb_readbyte ;
      let result := Z.lor result (u64 (Z.shiftl (Z.land byte 0x7F) bitpos)) in
      let bitpos := u8 (bitpos + 7) in
      ret (if negb (Z.land byte 0x80 =? 0) then inl (bitpos, result) else inr result))
    (0, 0).

(** Reading one byte with [pb_read(stream, &byte, 1)]. *)
Definition pb_read_byte : M dstate Z :=
  bs ← pb_read RLocal 1 ;
  match bs with
  | [b] => ret (byte_val b)
  | _ => ub
  end.

Definition pb_skip_varint : M dstate unit :=
  byte_loop (fun _ : unit =>
    byte ← pb_read_byte ;
    ret (if negb (Z.land byte 0x80 =? 0) then inl tt else inr tt)) tt.

Definition pb_skip_string : M dstate unit :=
  length ← pb_decode_varint32 ;
  pb_read RNull length ;;
  ret tt.

(** The returned bool with [*wire_type], [*tag] and [*eof]. *)
Definition pb_decode_tag : M dstate (bool * Z * Z * bool) :=
  '(r, eof) ← pb_decode_varint32_eof ;
  match r with
  | None => ret (false, 0, 0, eof)
  | Some temp =>
      if temp =? 0 then ret (false, 0, 0, true)
      else ret (true, Z.land temp 7, Z.shiftr temp 3, eof)
  end.

Definition pb_skip_field (wire_type : Z) : M dstate unit :=
  if wire_type =? PB_WT_VARINT then pb_skip_varint
  else if wire_type =? PB_WT_64BIT then pb_read RNull 8 ;; ret tt
  else if wire_type =? PB_WT_STRING then pb_skip_string
  else if wire_type =? PB_WT_32BIT then pb_read RNull 4 ;; ret tt
  else PB_RETURN_ERROR "invalid wire_type".

(** The value of [*size] on return; [max_size] is its value on call. *)
Definition read_raw_value (wire_type buf max_size : Z) : M dstate Z :=
  if wire_type =? PB_WT_VARINT then
    byte_loop (fun '(size, buf) =>
      let size := size + 1 in
      if max_size <? size then fail
      else
        pb_read (RMem buf) 1 ;;
        byte ← ld_u8 buf ;
        ret (if negb (Z.land byte 0x80 =? 0) then inl (size, buf + 1) else inr size))
      (0, buf)
  else if wire_type =? PB_WT_64BIT then pb_read (RMem buf) 8 ;; ret 8
  else if wire_type =? PB_WT_32BIT then pb_read (RMem buf) 4 ;; ret 4
  else PB_RETURN_ERROR "invalid wire_type".

Definition pb_make_string_substream : M dstate pb_istream_t :=
  size ← pb_decode_varint32 ;
  i ← istream ;
  if i_bytes_left i <? size then PB_RETURN_ERROR "parent stream too short"
  else
    upd_istream (set_i_bytes_left (u64 (i_bytes_left i - size))) ;;
    ret (set_i_bytes_left size i).

Definition pb_close_string_substream (substream : pb_istream_t) : M dstate unit :=
  substream ←
    (if negb (i_bytes_left substream =? 0) then
       '(r, substream) ← on_istream substream (pb_read RNull (i_bytes_left substream)) ;
       match r with
       | None => fail
       | Some _ => ret substream
       end
     else ret substream) ;
  upd_istream (fun i =>
    set_i_errmsg (i_errmsg substream) (set_i_state (i_state substream) i)).

(** ** Primitive values *)

Definition pb_decode_svarint : M dstate Z :=
  value ← pb_decode_varint ;
  ret (if negb (Z.land value 1 =? 0) then s64 (u64 (Z.lnot (Z.shiftr value 1)))
       else s64 (Z.shiftr value 1)).

(** [bytes[i] << 8 * i] for the bytes of a local array, or-ed together. *)
Definition pb_decode_fixed32 (dest : Z) : M dstate unit :=
  bytes ← pb_read RLocal 4 ;
  match bytes with
  | [b0; b1; b2; b3] =>
      st_u32 dest
        (Z.lor (Z.lor (Z.lor (Z.shiftl (byte_val b0) 0) (Z.shiftl (byte_val b1) 8))
           (Z.shiftl (byte_val b2) 16)) (Z.shiftl (byte_val b3) 24))
  | _ => ub
  end.

Definition pb_decode_fixed64 (dest : Z) : M dstate unit :=
  bytes ← pb_read RLocal 8 ;
  match bytes with
  | [b0; b1; b2; b3; b4; b5; b6; b7] =>
      st_u64 dest
        (Z.lor (Z.lor (Z.lor (Z.lor (Z.lor (Z.lor (Z.lor
           (Z.shiftl (byte_val b0) 0) (Z.shiftl (byte_val b1) 8))
           (Z.shiftl (byte_val b2) 16)) (Z.shiftl (byte_val b3) 24))
           (Z.shiftl (byte_val b4) 32)) (Z.shiftl (byte_val b5) 40))
           (Z.shiftl (byte_val b6) 48)) (Z.shiftl (byte_val b7) 56))
  | _ => ub
  end.

(** ** Field decoders of scalar types *)

Definition pb_dec_varint (field : pb_field_t) (dest : Z) : M dstate unit :=
  value ← pb_decode_varint ;
  let svalue := if data_size field =? 8 then s64 value else s32 value in
  clamped ←
    (if data_size field =? 8 then st_u64 dest svalue ;; ret svalue
     else if data_size field =? 4 then st_u32 dest svalue ;; ret (s32 svalue)
     else if data_size field =? 2 then st_u16 dest svalue ;; ret (s16 svalue)
     else if data_size field =? 1 then st_u8 dest svalue ;; ret (s8 svalue)
     else PB_RETURN_ERROR "invalid data_size") ;
  if negb (clamped =? svalue) then PB_RETURN_ERROR "integer too large" else ret tt.

Definition pb_dec_uvarint (field : pb_field_t) (dest : Z) : M dstate unit :=
  value ← pb_decode_varint ;
  clamped ←
    (if data_size field =? 8 then st_u64 dest value ;; ret value
     else if data_size field =? 4 then st_u32 dest value ;; ret (u32 value)
     else if data_size field =? 2 then st_u16 dest value ;; ret (value mod 2 ^ 16)
     else if data_size field =? 1 then st_u8 dest value ;; ret (u8 value)
     else PB_RETURN_ERROR "invalid data_size") ;
  if negb (clamped =? value) then PB_RETURN_ERROR "integer too large" else ret tt.

Definition pb_dec_svarint (field : pb_field_t) (dest : Z) : M dstate unit :=
  value ← pb_decode_svarint ;
  clamped ←
    (if data_size field =? 8 then st_u64 dest value ;; ret value
     else if data_size field =? 4 then st_u32 dest value ;; ret (s32 value)
     else if data_size field =? 2 then st_u16 dest value ;; ret (s16 value)
     else if data_size field =? 1 then st_u8 dest value ;; ret (s8 value)
     else PB_RETURN_ERROR "invalid data_size") ;
  if negb (clamped =? value) then PB_RETURN_ERROR "integer too large" else ret tt.

Definition pb_dec_fixed32 (field : pb_field_t) (dest : Z) : M dstate unit :=
  pb_decode_fixed32 dest.

Definition pb_dec_fixed64 (field : pb_field_t) (dest : Z) : M dstate unit :=
  pb_decode_fixed64 dest.

Definition pb_dec_fixed_length_bytes (field : pb_field_t) (dest : Z) : M dstate unit :=
  size ← pb_decode_varint32 ;
  if PB_SIZE_MAX <? size then PB_RETURN_ERROR "bytes overflow"
  else if size =? 0 then memset0 dest (data_size field)
  else if negb (size =? data_size field)
  then PB_RETURN_ERROR "incorrect fixed length bytes size"
  else pb_read (rmem dest) (data_size field) ;; ret tt.
End IStream.
