(* ===== verification/StreamLogic.v ===== *)
(** * Reading from a memory buffer

    [reads bs m a]: on a buffer stream whose next bytes are [bs], the
    computation [m] succeeds with [a], consumes exactly [bs] and touches no
    memory.  The primitives of pb_decode.c in this logic. *)
From S2P Require Import Prelude Mem Comp Varint Pb PbEnv OStream IStream.

(** Consuming [n] bytes. *)
Definition advance (n : Z) (s : dstate) : dstate :=
  let i := d_stream s in
  set_d_stream (IStream (i_callback i) (i_state i + n) (i_bytes_left i - n) (i_errmsg i)) s.

(** The next bytes of the stream, a memory buffer, are [bs]. *)
Record has_input (s : dstate) (bs : list byte) : Prop := {
  hi_callback : i_callback (d_stream s) = IBuf;
  hi_left : Z.of_nat (length bs) <= i_bytes_left (d_stream s) < 2 ^ 64;
  hi_bytes : load_bytes (d_mem s) (i_state (d_stream s)) (length bs) = Some bs;
}.

Definition reads {A} (bs : list byte) (m : M dstate A) (a : A) : Prop :=
  forall s, has_input s bs -> m s = Ok a (advance (Z.of_nat (length bs)) s).

Lemma advance_0 s : advance 0 s = s.
Proof. destruct s as [[cb st n e] m x]. unfold advance, set_d_stream; simpl. by rewrite Z.add_0_r, Z.sub_0_r. Qed.

Lemma advance_add n k s : advance n (advance k s) = advance (k + n) s.
Proof.
  destruct s as [[cb st l e] m x]. unfold advance, set_d_stream; simpl.
  f_equal. f_equal; lia.
Qed.

Lemma has_input_app s bs1 bs2 :
  has_input s (bs1 ++ bs2) ->
  has_input s bs1 /\ has_input (advance (Z.of_nat (length bs1)) s) bs2.
Proof.
  intros [H1 H2 H3]. rewrite length_app, Nat2Z.inj_add in H2.
  rewrite length_app, load_bytes_app in H3.
  destruct (load_bytes (d_mem s) (i_state (d_stream s)) (length bs1)) as [l1|] eqn:E1; [|done].
  destruct (load_bytes (d_mem s) (i_state (d_stream s) + Z.of_nat (length bs1)) (length bs2)) as [l2|] eqn:E2; [|done].
  simplify_eq. apply app_inj_1 in H3 as [-> ->]; [|by eapply load_bytes_length].
  split; split; simpl; try done; lia.
Qed.

(** ** Rules *)

Lemma reads_ret {A} (a : A) : reads [] (ret a) a.
Proof. intros s _. simpl. by rewrite advance_0. Qed.

Lemma reads_bind {A B} bs1 bs2 (m : M dstate A) (k : A -> M dstate B) a b :
  reads bs1 m a -> reads bs2 (k a) b -> reads (bs1 ++ bs2) (bind m k) b.
Proof.
  intros Hm Hk s [H1 H2]%has_input_app.
  rewrite (bind_ok _ _ _ _ _ (Hm s H1)), (Hk _ H2), advance_add.
  by rewrite length_app, Nat2Z.inj_add.
Qed.

Lemma reads_bind_nil {A B} bs (m : M dstate A) (k : A -> M dstate B) a b :
  reads [] m a -> reads bs (k a) b -> reads bs (bind m k) b.
Proof. intros Hm Hk. by apply (reads_bind [] bs m k a b). Qed.

Lemma reads_then_ret {A B} bs (m : M dstate A) (k : A -> M dstate B) a b :
  reads bs m a -> reads [] (k a) b -> reads bs (bind m k) b.
Proof. intros Hm Hk. rewrite <- (app_nil_r bs). by apply (reads_bind bs [] m k a b). Qed.

Lemma reads_attempt {A} bs (m : M dstate A) a : reads bs m a -> reads bs (attempt m) (Some a).
Proof. intros Hm s Hs. unfold attempt. by rewrite Hm. Qed.

Lemma reads_loop_step {X A} n (body : X -> M dstate (X + A)) x x' bs1 bs2 a :
  reads bs1 (body x) (inl x') -> reads bs2 (loop n body x') a ->
  reads (bs1 ++ bs2) (loop (S n) body x) a.
Proof. intros H1 H2. cbn [loop]. by eapply reads_bind. Qed.

Lemma reads_loop_exit {X A} n (body : X -> M dstate (X + A)) x bs a :
  reads bs (body x) (inr a) -> reads bs (loop (S n) body x) a.
Proof. intros H1. cbn [loop]. eapply reads_then_ret; [done|apply reads_ret]. Qed.

(** A loop bounded by the length of the stream has fuel for its input. *)
Lemma reads_byte_loop {X A} (body : X -> M dstate (X + A)) x bs a :
  (forall fuel, (length bs < fuel)%nat -> reads bs (loop fuel body x) a) ->
  reads bs (byte_loop body x) a.
Proof.
  intros Hr s Hs. unfold byte_loop, bytes_left, gets. unfold bind.
  destruct (hi_left _ _ Hs). apply Hr; [lia|done].
Qed.

(** ** Failing

    [rejects bs m msg]: after consuming [bs] the computation fails with
    [msg], unless an earlier error message is there already. *)
Definition rejects {A} (bs : list byte) (m : M dstate A) (msg : string) : Prop :=
  forall s, has_input s bs ->
  m s = Fail (set_err (Some (default msg (get_err s))) (advance (Z.of_nat (length bs)) s)).

Lemma rejects_error {A} msg : rejects (A := A) [] (PB_RETURN_ERROR msg) msg.
Proof. intros s _. change (Z.of_nat (length [])) with 0. by rewrite advance_0. Qed.

Lemma rejects_bind {A B} bs1 bs2 (m : M dstate A) (k : A -> M dstate B) a msg :
  reads bs1 m a -> rejects bs2 (k a) msg -> rejects (bs1 ++ bs2) (bind m k) msg.
Proof.
  intros Hm Hk s [H1 H2]%has_input_app.
  rewrite (bind_ok _ _ _ _ _ (Hm s H1)), (Hk _ H2), advance_add.
  by rewrite length_app, Nat2Z.inj_add.
Qed.

Lemma rejects_bind_fail {A B} bs (m : M dstate A) (k : A -> M dstate B) msg :
  rejects bs m msg -> rejects bs (bind m k) msg.
Proof. intros Hm s Hs. by rewrite (bind_fail _ _ _ _ (Hm s Hs)). Qed.

Lemma rejects_loop_step {X A} n (body : X -> M dstate (X + A)) x x' bs1 bs2 msg :
  reads bs1 (body x) (inl x') -> rejects bs2 (loop n body x') msg ->
  rejects (bs1 ++ bs2) (loop (S n) body x) msg.
Proof. intros H1 H2. cbn [loop]. by eapply rejects_bind. Qed.

(** ** Reading bytes *)

Section Read.
Context `{PbEnv}.

Lemma reads_direct bs : reads bs (pb_read_direct RLocal (Z.of_nat (length bs))) bs.
Proof.
  intros s Hs. pose proof Hs as [H1 H2 H3].
  destruct s as [[cb st l e] m x]. simpl in *. subst.
  unfold pb_read_direct, bytes_left, istream_callback, istream, buf_read, upd_istream, modify, get, gets.
  unfold bind; simpl. destruct (Z.ltb_spec l (Z.of_nat (length bs))); [lia|].
  simpl. rewrite Nat2Z.id, H3. simpl.
  unfold ret, advance, set_d_stream, set_i_bytes_left; simpl. by rewrite u64_id by lia.
Qed.

Lemma reads_pb_read bs n : n = Z.of_nat (length bs) -> reads bs (pb_read RLocal n) bs.
Proof.
  intros -> s Hs. unfold pb_read, istream, gets. unfold bind at 1. simpl. by apply reads_direct.
Qed.

(** Skipping needs the length only. *)
Lemma skip_exact s n :
  i_callback (d_stream s) = IBuf -> 0 <= n <= i_bytes_left (d_stream s) -> i_bytes_left (d_stream s) < 2 ^ 64 ->
  pb_read RNull n s = Ok [] (advance n s).
Proof.
  destruct s as [[cb st l e] m x]. simpl. intros -> Hn Hl.
  unfold pb_read, pb_read_direct, bytes_left, istream_callback, istream, buf_read, upd_istream, modify, get, gets.
  unfold bind; simpl. destruct (Z.ltb_spec l n); [lia|]. simpl.
  unfold ret, advance, set_d_stream, set_i_bytes_left; simpl. by rewrite u64_id by lia.
Qed.

Lemma reads_skip bs : reads bs (pb_read RNull (Z.of_nat (length bs)) ;; ret tt) tt.
Proof.
  intros s [H1 H2 H3]. erewrite bind_ok; [|apply skip_exact; [done|lia|lia]]. done.
Qed.

Lemma reads_readbyte b : reads [b] pb_readbyte (byte_val b).
Proof.
  intros s Hs. pose proof Hs as [H1 H2 H3].
  destruct s as [[cb st l e] m x]. simpl in *. subst.
  unfold pb_readbyte, bytes_left, istream_callback, istream, buf_read, upd_istream, modify, get, gets.
  unfold bind; simpl. destruct (Z.eqb_spec l 0); [lia|]. simpl.
  destruct (load_byte m st); [|done]. simplify_eq. simpl.
  unfold ret, advance, set_d_stream, set_i_bytes_left; simpl. by rewrite u64_id by lia.
Qed.

Lemma reads_read_byte b : reads [b] pb_read_byte (byte_val b).
Proof.
  unfold pb_read_byte. eapply reads_then_ret; [by apply reads_pb_read|apply reads_ret].
Qed.

Lemma readbyte_eof s :
  i_bytes_left (d_stream s) = 0 ->
  pb_readbyte s = Fail (set_err (Some (default "end-of-stream"%string (get_err s))) s).
Proof. intros E. unfold pb_readbyte, bytes_left, gets, bind. by rewrite E. Qed.
End Read.

(** ** Varints *)

Lemma is_varint_cons b bs :
  is_varint (b :: bs) ->
  if byte_val b <? 128 then bs = [] else is_varint bs.
Proof.
  simpl. destruct bs as [|b' bs].
  - intros H. destruct (Z.ltb_spec (byte_val b) 128); [done|lia].
  - intros [H1 H2]. destruct (Z.ltb_spec (byte_val b) 128); [lia|done].
Qed.

Section Varint.
Context `{PbEnv}.

(** The loop of [pb_decode_varint] after [k] bytes. *)
Lemma reads_varint_loop k acc bs fuel :
  is_varint bs -> 0 <= k -> k + Z.of_nat (length bs) <= 10 -> 0 <= acc < 2 ^ (7 * k) ->
  (length bs <= fuel)%nat ->
  reads bs
    (loop fuel (fun '(bitpos, result) =>
      if 64 <=? bitpos then PB_RETURN_ERROR "varint overflow"
      else
        byte ← pb_readbyte ;
        let result := Z.lor result (u64 (Z.shiftl (Z.land byte 0x7F) bitpos)) in
        let bitpos := u8 (bitpos + 7) in
        ret (if negb (Z.land byte 0x80 =? 0) then inl (bitpos, result) else inr result))
      (7 * k, acc)) (u64 (acc + varint_value bs * 2 ^ (7 * k))).
Proof.
  revert k acc fuel. induction bs as [|b bs IH]; intros k acc fuel Hv Hk Hl Ha Hf; [done|].
  destruct fuel as [|fuel]; [simpl in Hf; lia|]. simpl length in *.
  pose proof (byte_val_range b) as Hb. apply is_varint_cons in Hv.
  pose proof (varint_accumulate 64 acc (byte_val b mod 128) (7 * k) ltac:(lia) Ha) as Eacc.
  destruct (Z.ltb_spec (byte_val b) 128) as [Hlt|Hge].
  - subst bs. apply reads_loop_exit.
    destruct (Z.leb_spec 64 (7 * k)); [lia|].
    eapply reads_then_ret; [apply reads_readbyte|]. cbv zeta.
    rewrite land_7f, land_80 by done. destruct (Z.ltb_spec (byte_val b) 128); [|lia]. simpl negb. cbv iota.
    unfold u64 at 1. rewrite Eacc. simpl varint_value. rewrite Z.add_0_r. apply reads_ret.
  - change (b :: bs) with ([b] ++ bs). eapply reads_loop_step.
    + destruct (Z.leb_spec 64 (7 * k)); [lia|].
      eapply reads_then_ret; [apply reads_readbyte|]. cbv zeta.
      rewrite land_7f, land_80 by done. destruct (Z.ltb_spec (byte_val b) 128); [lia|]. simpl negb. cbv iota.
      rewrite u8_id by lia. replace (7 * k + 7) with (7 * (k + 1)) by lia.
      unfold u64 at 1. rewrite Eacc. apply reads_ret.
    + assert (0 < length bs)%nat by (destruct bs; [done|simpl; lia]).
      set (acc' := acc + byte_val b mod 128 * 2 ^ (7 * k)) in *.
      pose proof (Z.mod_pos_bound (byte_val b) 128 ltac:(lia)).
      assert (0 <= acc' < 2 ^ (7 * (k + 1))) as Ha'.
      { unfold acc'. replace (7 * (k + 1)) with (7 * k + 7) by lia. rewrite Z.pow_add_r by lia.
        change (2 ^ 7) with 128. nia. }
      assert (2 ^ (7 * (k + 1)) <= 2 ^ 63) by (apply Z.pow_le_mono_r; lia).
      rewrite (Z.mod_small acc') by lia.
      assert (acc + varint_value ([b] ++ bs) * 2 ^ (7 * k) =
        acc' + varint_value bs * 2 ^ (7 * (k + 1))) as ->.
      { unfold acc'. replace (7 * (k + 1)) with (7 * k + 7) by lia. rewrite Z.pow_add_r by lia.
        simpl varint_value. change (2 ^ 7) with 128. lia. }
      apply IH; [done|lia..].
Qed.

(** A varint of at most ten bytes, canonical or not. *)
Lemma reads_varint bs :
  is_varint bs -> (length bs <= 10)%nat -> reads bs pb_decode_varint (u64 (varint_value bs)).
Proof.
  intros Hv Hl. unfold pb_decode_varint.
  pose proof (reads_varint_loop 0 0 bs 11 Hv ltac:(lia) ltac:(lia) ltac:(done) ltac:(lia)) as Hr.
  rewrite Z.mul_0_r, Z.add_0_l, Z.mul_1_r in Hr. exact Hr.
Qed.

(** Ten bytes with the continuation bit are too many. *)
Lemma rejects_varint_loop bs k acc fuel :
  Forall (fun b => 128 <= byte_val b) bs -> 0 <= k -> k + Z.of_nat (length bs) = 10 ->
  (length bs < fuel)%nat ->
  rejects bs
    (loop fuel (fun '(bitpos, result) =>
      if 64 <=? bitpos then PB_RETURN_ERROR (A := (Z * Z) + Z) "varint overflow"
      else
        byte ← pb_readbyte ;
        let result := Z.lor result (u64 (Z.shiftl (Z.land byte 0x7F) bitpos)) in
        let bitpos := u8 (bitpos + 7) in
        ret (if negb (Z.land byte 0x80 =? 0) then inl (bitpos, result) else inr result))
      (7 * k, acc)) "varint overflow".
Proof.
  intros Hc. revert k acc fuel. induction Hc as [|b bs Hb Hc IH]; intros k acc fuel Hk Hl Hf;
    (destruct fuel as [|fuel]; [simpl in Hf; lia|]).
  - simpl in Hl. cbn [loop]. apply rejects_bind_fail. destruct (Z.leb_spec 64 (7 * k)); [|lia].
    apply rejects_error.
  - simpl length in *. change (b :: bs) with ([b] ++ bs).
    pose proof (byte_val_range b). eapply rejects_loop_step.
    + destruct (Z.leb_spec 64 (7 * k)); [lia|].
      eapply reads_then_ret; [apply reads_readbyte|]. cbv zeta.
      rewrite land_80 by done. destruct (Z.ltb_spec (byte_val b) 128); [lia|]. simpl negb. cbv iota.
      rewrite u8_id by lia. replace (7 * k + 7) with (7 * (k + 1)) by lia. apply reads_ret.
    + apply IH; lia.
Qed.

Lemma rejects_varint bs :
  Forall (fun b => 128 <= byte_val b) bs -> length bs = 10%nat ->
  rejects bs pb_decode_varint "varint overflow".
Proof. intros Hc Hl. apply (rejects_varint_loop bs 0 0 11); [done|lia..]. Qed.

(** ** [pb_decode_varint32] *)

Lemma land_70 b : 0 <= b < 128 -> (Z.land b 0x70 =? 0) = (b <? 16).
Proof.
  intros Hb.
  assert (Z.land b 0x70 = Z.shiftl (Z.shiftr b 4) 4) as ->.
  { apply Z.bits_inj'. intros i Hi. change 0x70 with (Z.shiftl (Z.ones 3) 4).
    rewrite Z.land_spec. destruct (decide (i < 4)).
    - rewrite !Z.shiftl_spec_low by lia. by rewrite andb_false_r.
    - rewrite !Z.shiftl_spec_high, Z.shiftr_spec by lia. replace (i - 4 + 4) with i by lia.
      rewrite Z.testbit_ones by lia. destruct (decide (i < 7)).
      + replace (0 <=? i - 4) with true by lia. replace (i - 4 <? 3) with true by lia.
        by rewrite andb_true_r.
      + rewrite (Z_testbit_high b i 7) by lia. done. }
  rewrite Z.shiftl_mul_pow2, Z.shiftr_div_pow2 by lia. change (2 ^ 4) with 16.
  destruct (Z.ltb_spec b 16).
  - by rewrite Z.div_small by lia.
  - apply Z.eqb_neq. assert (1 <= b / 16) by (apply Z.div_le_lower_bound; lia). lia.
Qed.

(** The body of the multi-byte loop. *)
Definition varint32_round : Z * Z -> M dstate ((Z * Z) + option (Z * Z * Z)) :=
  fun '(bitpos, result) =>
    next ← attempt pb_readbyte ;
    match next with
    | None => ret (inr None)
    | Some byte =>
        let sign_extension := if bitpos <? 63 then 0xFF else 0x01 in
        if (32 <=? bitpos) && negb (Z.land byte 0x7F =? 0) &&
           ((Z.shiftr result 31 =? 0) || negb (byte =? sign_extension))
        then PB_SET_ERROR "varint overflow" ;; ret (inr None)
        else
          let result :=
            if 32 <=? bitpos then result
            else Z.lor result (u32 (Z.shiftl (Z.land byte 0x7F) bitpos)) in
          let bitpos := u8 (bitpos + 7) in
          ret (if negb (Z.land byte 0x80 =? 0) then inl (bitpos, result)
               else inr (Some (bitpos, byte, result)))
    end.

(** The loop after [k] bytes, for a varint of at most five. *)
Lemma reads_varint32_loop k acc bs fuel :
  is_varint bs -> 1 <= k -> k + Z.of_nat (length bs) <= 5 -> 0 <= acc < 2 ^ (7 * k) ->
  (length bs < fuel)%nat ->
  exists b, List.last bs (byte_of 0) = b /\ byte_val b < 128 /\
  reads bs (loop fuel varint32_round (7 * k, acc))
    (Some (7 * (k + Z.of_nat (length bs)), byte_val b, u32 (acc + varint_value bs * 2 ^ (7 * k)))) /\
  (k + Z.of_nat (length bs) = 5 -> (byte_val b < 16 <-> acc + varint_value bs * 2 ^ (7 * k) < 2 ^ 32)) /\
  (k + Z.of_nat (length bs) < 5 -> acc + varint_value bs * 2 ^ (7 * k) < 2 ^ 32).
Proof.
  revert k acc fuel. induction bs as [|b bs IH]; intros k acc fuel Hv Hk Hl Ha Hf; [done|].
  destruct fuel as [|fuel]; [simpl in Hf; lia|]. simpl length in *.
  pose proof (byte_val_range b) as Hb. pose proof Hv as Hv0. apply is_varint_cons in Hv.
  pose proof (varint_accumulate 32 acc (byte_val b mod 128) (7 * k) ltac:(lia) Ha) as Eacc.
  assert (varint32_round (7 * k, acc) =
    (next ← attempt pb_readbyte ;
     match next with
     | None => ret (inr None)
     | Some byte =>
         ret (if negb (Z.land byte 0x80 =? 0)
              then inl (7 * (k + 1), Z.lor acc (u32 (Z.shiftl (Z.land byte 0x7F) (7 * k))))
              else inr (Some (7 * (k + 1), byte, Z.lor acc (u32 (Z.shiftl (Z.land byte 0x7F) (7 * k))))))
     end)) as Er.
  { unfold varint32_round. destruct (Z.leb_spec 32 (7 * k)); [lia|]. simpl andb. cbv zeta iota.
    rewrite u8_id by lia. by replace (7 * k + 7) with (7 * (k + 1)) by lia. }
  pose proof (Z.mod_pos_bound (byte_val b) 128 ltac:(lia)).
  assert (2 ^ (7 * (k + 1)) = 128 * 2 ^ (7 * k)) as E7.
  { replace (7 * (k + 1)) with (7 * k + 7) by lia. rewrite Z.pow_add_r by lia. lia. }
  destruct (Z.ltb_spec (byte_val b) 128) as [Hlt|Hge].
  - subst bs. exists b. cbn [length varint_value List.last] in *. split_and!; [done|done| | |].
    + apply reads_loop_exit. rewrite Er.
      eapply reads_then_ret; [apply reads_attempt, reads_readbyte|]. cbv iota.
      rewrite land_7f, land_80 by done. destruct (Z.ltb_spec (byte_val b) 128); [|lia]. simpl negb. cbv iota.
      unfold u32 at 1. rewrite Eacc, Z.add_0_r. apply reads_ret.
    + intros Hk5. assert (k = 4) as -> by lia. change (2 ^ (7 * 4)) with (2 ^ 28) in *.
      rewrite Z.mod_small by lia. lia.
    + intros Hk5. assert (2 ^ (7 * (k + 1)) <= 2 ^ 28) by (apply Z.pow_le_mono_r; lia). nia.
  - assert (0 < length bs)%nat by (destruct bs; [done|simpl; lia]).
    set (acc' := acc + byte_val b mod 128 * 2 ^ (7 * k)) in *.
    assert (0 <= acc' < 2 ^ (7 * (k + 1))) as Ha' by (unfold acc'; nia).
    assert (2 ^ (7 * (k + 1)) <= 2 ^ 28) by (apply Z.pow_le_mono_r; lia).
    assert (acc + varint_value (b :: bs) * 2 ^ (7 * k) =
      acc' + varint_value bs * 2 ^ (7 * (k + 1))) as Eval.
    { unfold acc'. simpl varint_value. rewrite E7. lia. }
    destruct (IH (k + 1) acc' fuel Hv ltac:(lia) ltac:(lia) Ha' ltac:(lia)) as (b' & Hlast & Hb' & Hr & H5 & H4).
    exists b'. rewrite Eval. split_and!.
    + destruct bs; [done|]. exact Hlast.
    + done.
    + change (b :: bs) with ([b] ++ bs). eapply reads_loop_step.
      * rewrite Er. eapply reads_then_ret; [apply reads_attempt, reads_readbyte|]. cbv iota.
        rewrite land_7f, land_80 by done. destruct (Z.ltb_spec (byte_val b) 128); [lia|]. simpl negb. cbv iota.
        unfold u32 at 1. rewrite Eacc, Z.mod_small by lia. apply reads_ret.
      * replace (k + Z.of_nat (S (length bs))) with (k + 1 + Z.of_nat (length bs)) by lia. exact Hr.
    + intros. apply H5. lia.
    + intros. apply H4. lia.
Qed.

(** The part of [pb_decode_varint32_eof] after the first byte. *)
Definition varint32_rest (byte : Z) : M dstate (option Z * bool) :=
  r ← byte_loop varint32_round (7, Z.land byte 0x7F) ;
  match r with
  | None => ret (None, false)
  | Some (bitpos, byte, result) =>
      if (bitpos =? 35) && negb (Z.land byte 0x70 =? 0)
      then PB_SET_ERROR "varint overflow" ;; ret (None, false)
      else ret (Some result, false)
  end.

Lemma varint32_eof_split :
  pb_decode_varint32_eof =
  (first ← attempt pb_readbyte ;
   match first with
   | None => n ← bytes_left ; ret (None, n =? 0)
   | Some byte => if Z.land byte 0x80 =? 0 then ret (Some byte, false) else varint32_rest byte
   end).
Proof. done. Qed.

(** The first byte and the loop of a longer varint. *)
Lemma reads_varint32_first b bs :
  is_varint (b :: bs) -> (length (b :: bs) <= 5)%nat -> 128 <= byte_val b ->
  exists b', byte_val b' < 128 /\
  reads bs (byte_loop varint32_round (7, byte_val b mod 128))
    (Some (7 * (1 + Z.of_nat (length bs)), byte_val b', u32 (varint_value (b :: bs)))) /\
  (1 + Z.of_nat (length bs) = 5 -> (byte_val b' < 16 <-> varint_value (b :: bs) < 2 ^ 32)) /\
  (1 + Z.of_nat (length bs) < 5 -> varint_value (b :: bs) < 2 ^ 32).
Proof.
  intros Hv Hl Hb. apply is_varint_cons in Hv.
  destruct (Z.ltb_spec (byte_val b) 128); [lia|]. cbn [length] in Hl.
  pose proof (Z.mod_pos_bound (byte_val b) 128 ltac:(lia)).
  assert (byte_val b mod 128 + varint_value bs * 2 ^ (7 * 1) = varint_value (b :: bs)) as E.
  { cbn [varint_value]. change (2 ^ (7 * 1)) with 128. lia. }
  assert (0 <= byte_val b mod 128 < 2 ^ (7 * 1)) as Ha by (change (2 ^ (7 * 1)) with 128; lia).
  exists (List.last bs (byte_of 0)).
  destruct (reads_varint32_loop 1 _ bs (S (length bs)) Hv ltac:(lia) ltac:(lia) Ha ltac:(lia))
    as (b' & <- & Hb' & _ & H5 & H4).
  rewrite E in *. split_and!; [done| |exact H5|exact H4].
  apply reads_byte_loop. intros fuel Hf.
  destruct (reads_varint32_loop 1 _ bs fuel Hv ltac:(lia) ltac:(lia) Ha Hf) as (b2 & <- & _ & Hr & _).
  rewrite E in Hr. exact Hr.
Qed.

Lemma varint32_last k b :
  0 <= b < 128 -> (7 * k =? 35) && negb (Z.land b 0x70 =? 0) = (k =? 5) && (16 <=? b).
Proof.
  intros Hb. rewrite land_70 by done. f_equal.
  - destruct (Z.eqb_spec k 5), (Z.eqb_spec (7 * k) 35); lia.
  - by rewrite Z.leb_antisym.
Qed.

(** A varint of at most five bytes is read if its value has 32 bits. *)
Lemma reads_varint32_eof bs :
  is_varint bs -> (length bs <= 5)%nat -> varint_value bs < 2 ^ 32 ->
  reads bs pb_decode_varint32_eof (Some (varint_value bs), false).
Proof.
  intros Hv Hl Hval. rewrite varint32_eof_split. destruct bs as [|b bs]; [done|].
  pose proof (byte_val_range b) as Hb. pose proof (varint_value_nonneg (b :: bs)) as Hnn.
  change (b :: bs) with ([b] ++ bs) at 1. eapply reads_bind; [apply reads_attempt, reads_readbyte|].
  cbv iota. rewrite land_80 by done. destruct (Z.ltb_spec (byte_val b) 128) as [Hlt|Hge].
  - apply is_varint_cons in Hv. destruct (Z.ltb_spec (byte_val b) 128); [|lia]. subst bs.
    cbn [varint_value]. rewrite Z.mod_small, Z.mul_0_r, Z.add_0_r by lia. apply reads_ret.
  - destruct (reads_varint32_first b bs Hv Hl Hge) as (b' & Hb' & Hr & H5 & H4).
    pose proof (byte_val_range b'). unfold varint32_rest. rewrite land_7f.
    eapply reads_then_ret; [exact Hr|]. cbv beta iota. rewrite varint32_last by lia.
    destruct (Z.eqb_spec (1 + Z.of_nat (length bs)) 5) as [E|E].
    + apply H5 in E. destruct (Z.leb_spec 16 (byte_val b')); [lia|]. simpl andb. cbv iota.
      rewrite u32_id by lia. apply reads_ret.
    + simpl andb. cbv iota. rewrite u32_id by lia. apply reads_ret.
Qed.

Lemma reads_varint32 bs :
  is_varint bs -> (length bs <= 5)%nat -> varint_value bs < 2 ^ 32 ->
  reads bs pb_decode_varint32 (varint_value bs).
Proof.
  intros Hv Hl Hval. unfold pb_decode_varint32.
  eapply reads_then_ret; [by apply reads_varint32_eof|apply reads_ret].
Qed.

(** A larger value in five bytes is an overflow. *)
Lemma rejects_varint32 bs :
  is_varint bs -> length bs = 5%nat -> 2 ^ 32 <= varint_value bs ->
  rejects bs pb_decode_varint32 "varint overflow".
Proof.
  intros Hv Hl Hval s Hs. unfold pb_decode_varint32. rewrite varint32_eof_split.
  destruct bs as [|b bs]; [done|]. pose proof (byte_val_range b) as Hb.
  change (b :: bs) with ([b] ++ bs) in Hs at 1. apply has_input_app in Hs as [H1 H2].
  destruct (Z.ltb_spec (byte_val b) 128) as [Hlt|Hge].
  { apply is_varint_cons in Hv. destruct (Z.ltb_spec (byte_val b) 128); [by subst bs|lia]. }
  destruct (reads_varint32_first b bs Hv ltac:(lia) Hge) as (b' & Hb' & Hr & H5 & H4).
  pose proof (byte_val_range b').
  rewrite bind_assoc, (bind_ok _ _ _ _ _ (reads_attempt _ _ _ (reads_readbyte b) s H1)). cbv iota.
  rewrite land_80 by done. destruct (Z.ltb_spec (byte_val b) 128); [lia|].
  unfold varint32_rest. rewrite land_7f, bind_assoc, (bind_ok _ _ _ _ _ (Hr _ H2)). cbv beta iota.
  cbn [length] in Hl. rewrite varint32_last by lia.
  replace (1 + Z.of_nat (length bs) =? 5) with true by lia.
  destruct (Z.leb_spec 16 (byte_val b')); [|lia]. simpl andb. cbv iota.
  rewrite advance_add.
  by assert (Z.of_nat (length [b]) + Z.of_nat (length bs) = Z.of_nat (length (b :: bs))) as -> by (cbn [length]; lia).
Qed.
End Varint.
