(* ===== verification/StreamProps.v ===== *)
(** * Streams: what is written is what is read

    Round trips of the primitive encoders and decoders through a buffer, the
    exact behaviour of the varint decoders on every input, and the skipping of
    unknown fields. *)
From S2P Require Import Prelude Mem Comp Varint Pb PbEnv PbCommon OStream EncodeLogic WireSpec PbEncode EncodeProps IStream StreamLogic.

(** [enc] writes something to a buffer of at least [max] bytes that [dec] reads
    back as [v], to the last byte. *)
Definition roundtrip {A} (max : Z) (enc : M estate unit) (dec : M dstate A) (v : A) : Prop :=
  forall m buf size, mapped m buf size -> max <= size < 2 ^ 64 ->
  exists n m',
    enc (EState (pb_ostream_from_buffer buf size) m) =
      Ok tt (EState (OStream OBuf (buf + n) size n None) m') /\
    forall d, dec (DState (pb_istream_from_buffer buf n) m' d) =
      Ok v (DState (IStream IBuf (buf + n) 0 None) m' d).

Definition no_mem : mem := Mem ∅ ∅.

Lemma writes_reads_roundtrip {A} max bs enc (dec : M dstate A) v :
  writes no_mem bs enc tt -> reads bs dec v -> Z.of_nat (length bs) <= max -> roundtrip max enc dec v.
Proof.
  intros [Hw _] Hr Hl m buf size Hm Hs.
  exists (Z.of_nat (length bs)), (put_bytes m buf bs). split.
  - rewrite Hw.
    + unfold emit. simpl. by rewrite u64_id by lia.
    + split; simpl; [apply map_empty_subseteq|done|lia|]. split_and!; [lia..| |].
      * intros i Hi. apply Hm. lia.
      * intros i _. apply lookup_empty.
  - intros d. rewrite Hr.
    + unfold advance. simpl. by rewrite Z.sub_diag.
    + split; simpl; [done|lia|]. apply load_bytes_put_bytes.
Qed.

Lemma varint_length_max v : Z.of_nat (length (varint v)) <= 10.
Proof. pose proof (varint_length_bounds v). lia. Qed.

Section Primitives.
Context `{PbEnv}.

Lemma reads_varint_of v : 0 <= v < 2 ^ 64 -> reads (varint v) pb_decode_varint v.
Proof.
  intros Hv. pose proof (varint_length_bounds v).
  pose proof (reads_varint (varint v) (varint_is_varint v Hv) ltac:(lia)) as Hr.
  by rewrite varint_value_varint, u64_id in Hr.
Qed.

Lemma reads_varint32_of v : 0 <= v < 2 ^ 32 -> reads (varint v) pb_decode_varint32 v.
Proof.
  intros Hv. assert (0 <= v < 2 ^ 64) as Hv' by lia.
  pose proof (reads_varint32 (varint v) (varint_is_varint v Hv') (varint_length_32 v Hv)) as Hr.
  rewrite varint_value_varint in Hr by done. apply Hr. lia.
Qed.

(** Every 64-bit value written by [pb_encode_varint]
    is read back by [pb_decode_varint], and a 32-bit one also by
    [pb_decode_varint32]. *)
Theorem pb_varint_roundtrip v :
  0 <= v < 2 ^ 64 ->
  roundtrip 10 (pb_encode_varint v) pb_decode_varint v /\
  (v < 2 ^ 32 -> roundtrip 5 (pb_encode_varint v) pb_decode_varint32 v).
Proof.
  intros Hv. split; [|intros Hv']; (eapply writes_reads_roundtrip; [by apply writes_varint| |]).
  - by apply reads_varint_of.
  - apply varint_length_max.
  - apply reads_varint32_of; lia.
  - pose proof (varint_length_32 v ltac:(lia)). lia.
Qed.

(** [pb_decode_svarint] undoes the zig-zag by shifting and complementing. *)
Lemma unzigzag_spec u :
  0 <= u < 2 ^ 64 ->
  (if negb (Z.land u 1 =? 0) then s64 (u64 (Z.lnot (Z.shiftr u 1))) else s64 (Z.shiftr u 1)) = unzigzag u.
Proof.
  intros Hu. change 1 with (Z.ones 1) at 1. rewrite Z.land_ones, Z.shiftr_div_pow2 by lia.
  change (2 ^ 1) with 2. unfold unzigzag.
  assert (0 <= u / 2 < 2 ^ 63) by (split; [apply Z.div_pos; lia|apply Z.div_lt_upper_bound; lia]).
  destruct (Z.eqb_spec (u mod 2) 0); simpl negb; cbv iota.
  - apply sint_id; lia.
  - unfold s64, u64. rewrite sint_mod by lia. unfold Z.lnot. rewrite sint_id; lia.
Qed.

Lemma reads_svarint_of v :
  - 2 ^ 63 <= v < 2 ^ 63 -> reads (varint (zigzag v)) pb_decode_svarint v.
Proof.
  intros Hv. unfold pb_decode_svarint. pose proof (zigzag_range v Hv).
  eapply reads_then_ret; [by apply reads_varint_of|].
  rewrite unzigzag_spec, unzigzag_zigzag by done. apply reads_ret.
Qed.

(** Every signed 64-bit value survives
    [pb_encode_svarint] and [pb_decode_svarint]. *)
Theorem pb_svarint_roundtrip v :
  - 2 ^ 63 <= v < 2 ^ 63 -> roundtrip 10 (pb_encode_svarint v) pb_decode_svarint v.
Proof.
  intros Hv. eapply writes_reads_roundtrip; [by apply writes_svarint|by apply reads_svarint_of|].
  apply varint_length_max.
Qed.

Lemma reads_tag t wt :
  0 <= t < 2 ^ 29 -> 0 <= wt < 8 -> 0 < t * 8 + wt ->
  reads (varint (t * 8 + wt)) pb_decode_tag (true, wt, t, false).
Proof.
  intros Ht Hw Hp. set (k := t * 8 + wt) in *.
  assert (0 <= k < 2 ^ 32) as Hk by lia. assert (0 <= k < 2 ^ 64) as Hk' by lia.
  pose proof (reads_varint32_eof (varint k) (varint_is_varint k Hk') (varint_length_32 k Hk)) as Hr.
  rewrite varint_value_varint in Hr by done. unfold pb_decode_tag.
  eapply reads_then_ret; [apply Hr; lia|]. cbv beta iota.
  destruct (Z.eqb_spec k 0); [lia|].
  change 7 with (Z.ones 3). rewrite Z.land_ones, Z.shiftr_div_pow2 by lia. change (2 ^ 3) with 8.
  assert (k mod 8 = wt) as -> by (unfold k; rewrite Z.add_comm, Z.mod_add by lia; apply Z.mod_small; lia).
  assert (k / 8 = t) as -> by (unfold k; rewrite Z.add_comm, Z.div_add by lia; rewrite Z.div_small; lia).
  apply reads_ret.
Qed.

(** Every field number of the protocol (29 bits) and wire
    type survives [pb_encode_tag] and [pb_decode_tag]; the pair (0, 0) is
    excluded because it ends a message. *)
Theorem pb_tag_roundtrip t wt :
  0 <= t < 2 ^ 29 -> 0 <= wt < 8 -> (t, wt) <> (0, 0) ->
  roundtrip 5 (pb_encode_tag wt t) pb_decode_tag (true, wt, t, false).
Proof.
  intros Ht Hw Hne. assert (0 < t * 8 + wt).
  { destruct (decide (t = 0)), (decide (wt = 0)); try lia. subst. done. }
  eapply writes_reads_roundtrip; [apply writes_tag; lia|by apply reads_tag|].
  pose proof (varint_length_32 (t * 8 + wt) ltac:(lia)). lia.
Qed.
End Primitives.

(** ** The varint decoder on every input *)

Section Decoder.
Context `{PbEnv}.

(** Input that ends inside a varint. *)
Lemma truncated_varint_loop bs k acc fuel s :
  Forall (fun b => 128 <= byte_val b) bs -> 0 <= k -> k + Z.of_nat (length bs) < 10 ->
  (length bs < fuel)%nat -> has_input s bs -> i_bytes_left (d_stream s) = Z.of_nat (length bs) ->
  loop fuel (fun '(bitpos, result) =>
      if 64 <=? bitpos then PB_RETURN_ERROR (A := (Z * Z) + Z) "varint overflow"
      else
        byte ← pb_readbyte ;
        let result := Z.lor result (u64 (Z.shiftl (Z.land byte 0x7F) bitpos)) in
        let bitpos := u8 (bitpos + 7) in
        ret (if negb (Z.land byte 0x80 =? 0) then inl (bitpos, result) else inr result))
      (7 * k, acc) s =
  Fail (set_err (Some (default "end-of-stream"%string (get_err s))) (advance (Z.of_nat (length bs)) s)).
Proof.
  intros Hc. revert k acc fuel s. induction Hc as [|b bs Hb Hc IH]; intros k acc fuel s Hk Hl Hf Hs He;
    (destruct fuel as [|fuel]; [simpl in Hf; lia|]); cbn [loop].
  - apply bind_fail. simpl length in *. destruct (Z.leb_spec 64 (7 * k)); [lia|].
    rewrite (bind_fail _ _ _ _ (readbyte_eof s He)). change (Z.of_nat 0) with 0. by rewrite advance_0.
  - cbn [length] in *. pose proof (byte_val_range b).
    destruct (Z.leb_spec 64 (7 * k)); [lia|].
    change (b :: bs) with ([b] ++ bs) in Hs. apply has_input_app in Hs as [Hb1 Hb2].
    rewrite bind_assoc, (bind_ok _ _ _ _ _ (reads_readbyte b s Hb1)). cbv zeta.
    rewrite land_80 by done. destruct (Z.ltb_spec (byte_val b) 128); [lia|]. simpl negb. cbv iota.
    rewrite bind_ret. cbv iota. rewrite u8_id by lia. replace (7 * k + 7) with (7 * (k + 1)) by lia.
    rewrite IH; [|lia|lia|lia|done|].
    + rewrite advance_add.
      by assert (Z.of_nat (length [b]) + Z.of_nat (length bs) = Z.of_nat (S (length bs))) as -> by (simpl; lia).
    + cbn in He |- *. lia.
Qed.

(** C23. On any input [pb_decode_varint] does what the
    reference says: it reads a varint of up to ten bytes and returns its value
    modulo 2^64, it reports an overflow after ten continuation bytes, and it
    reports the end of the stream inside a shorter one.  It consumes exactly
    the bytes it looked at and always terminates. *)
Theorem pb_decode_varint_spec s bs :
  has_input s bs -> i_bytes_left (d_stream s) = Z.of_nat (length bs) ->
  let error msg n := Fail (set_err (Some (default msg (get_err s))) (advance n s)) in
  pb_decode_varint s =
    match take_varint 10 bs with
    | inl v => Ok (u64 (varint_value v)) (advance (Z.of_nat (length v)) s)
    | inr true => error "varint overflow"%string 10
    | inr false => error "end-of-stream"%string (Z.of_nat (length bs))
    end.
Proof.
  intros Hs He. cbv zeta. pose proof (take_varint_spec 10 bs) as Ht.
  destruct (take_varint 10 bs) as [v|[|]].
  - destruct Ht as (Hv & Hl & rest & ->). apply has_input_app in Hs as [Hs _].
    by apply reads_varint.
  - destruct Ht as (v & rest & -> & Hl & Hv). apply has_input_app in Hs as [Hs _].
    rewrite (rejects_varint v Hv Hl s Hs). by rewrite Hl.
  - destruct Ht as [Hv Hl].
    apply (truncated_varint_loop bs 0 0 11 s); [done|lia|lia|lia|done|done].
Qed.

(** *** [pb_decode_varint32] on varints of any length *)

(** How many bytes there are up to the first one, behind the fifth, that is neither empty nor the sign extension of a negative number. *)
Fixpoint excess (negative : bool) (i : Z) (bs : list byte) : option Z :=
  match bs with
  | [] => None
  | b :: bs' =>
      if (byte_val b mod 128 =? 0) || (negative && (byte_val b =? (if i <? 9 then 0xFF else 0x01)))
      then Z.succ <$> excess negative (i + 1) bs'
      else Some 1
  end.

(** One of the first five bytes, not the last one. *)
Lemma reads_varint32_round k acc b : 128 <= byte_val b -> 1 <= k <= 4 -> 0 <= acc < 2 ^ (7 * k) ->
  reads [b] (varint32_round (7 * k, acc)) (inl (7 * (k + 1), u32 (acc + byte_val b mod 128 * 2 ^ (7 * k)))).
Proof.
  intros Hb Hk Ha. pose proof (byte_val_range b). unfold varint32_round.
  eapply reads_then_ret; [apply reads_attempt, reads_readbyte|]. cbv beta iota zeta.
  destruct (Z.leb_spec 32 (7 * k)); [lia|]. cbn [andb]. cbv iota. rewrite land_7f, land_80 by done.
  destruct (Z.ltb_spec (byte_val b) 128); [lia|]. cbn [negb]. cbv iota. rewrite u8_id by lia. unfold u32 at 1. rewrite varint_accumulate by lia.
  replace (7 * k + 7) with (7 * (k + 1)) by lia. apply reads_ret.
Qed.

Lemma loop_step {X A B} n (body : X -> M dstate (X + A)) x x' (k : A -> M dstate B) b rest s : reads [b] (body x) (inl x') -> has_input s (b :: rest) ->
  bind (loop (S n) body x) k s = bind (loop n body x') k (advance 1 s) /\ has_input (advance 1 s) rest.
Proof.
  intros Hr Hs. change (b :: rest) with ([b] ++ rest) in Hs. apply has_input_app in Hs as [H1 H2]. split; [|exact H2].
  cbn [loop]. rewrite bind_assoc. by rewrite (bind_ok _ _ _ _ _ (Hr s H1)).
Qed.

(** What follows the loop. *)
Definition varint32_end (r : option (Z * Z * Z)) : M dstate (option Z * bool) :=
  match r with
  | None => ret (None, false)
  | Some (bitpos, byte, result) =>
      if (bitpos =? 35) && negb (Z.land byte 0x70 =? 0)
      then PB_SET_ERROR "varint overflow" ;; ret (None, false)
      else ret (Some result, false)
  end.

(** The first byte and the four behind it. *)
Lemma varint32_five b0 b1 b2 b3 b4 tail s : Forall (fun b => 128 <= byte_val b) [b0; b1; b2; b3; b4] -> has_input s ([b0; b1; b2; b3; b4] ++ tail) ->
  exists fuel, (length tail < fuel)%nat /\ pb_decode_varint32_eof s =
    bind (loop fuel varint32_round (35, u32 (varint_value [b0; b1; b2; b3; b4]))) varint32_end (advance 5 s) /\ has_input (advance 5 s) tail.
Proof.
  intros Hb Hs. rewrite varint32_eof_split. do 5 (apply Forall_cons in Hb as [? Hb]).
  pose proof (byte_val_range b0). pose proof (hi_left _ _ Hs) as [Hl Hlu]. rewrite length_app in Hl. cbn [length] in Hl.
  change ([b0; b1; b2; b3; b4] ++ tail) with ([b0] ++ [b1] ++ [b2] ++ [b3] ++ [b4] ++ tail) in Hs.
  apply has_input_app in Hs as [H0' Hs]. change (Z.of_nat (length [b0])) with 1 in Hs.
  rewrite (bind_ok _ _ _ _ _ (reads_attempt _ _ _ (reads_readbyte b0) s H0')). cbv iota. rewrite land_80 by done.
  destruct (Z.ltb_spec (byte_val b0) 128); [lia|]. unfold varint32_rest, byte_loop, bytes_left, gets. rewrite bind_assoc.
  unfold bind at 1. cbv beta iota. change (i_bytes_left (d_stream (advance _ s))) with (i_bytes_left (d_stream s) - 1). rewrite land_7f.
  change (advance (Z.of_nat (length [b0])) s) with (advance 1 s). cbn [app] in Hs.
  set (fuel := (S (S (Z.to_nat (i_bytes_left (d_stream s) - 1))) - 4)%nat). exists fuel. split; [lia|].
  replace (S (S (Z.to_nat (i_bytes_left (d_stream s) - 1)))) with (S (S (S (S fuel)))) by lia.
  do 5 match goal with H : 128 <= byte_val ?b |- _ => lazymatch goal with _ : 0 <= byte_val b mod 128 < 128 |- _ => fail | _ => pose proof (Z.mod_pos_bound (byte_val b) 128 ltac:(lia)) end end.
  set (acc1 := byte_val b0 mod 128). set (acc2 := acc1 + byte_val b1 mod 128 * 2 ^ 7). set (acc3 := acc2 + byte_val b2 mod 128 * 2 ^ 14). set (acc4 := acc3 + byte_val b3 mod 128 * 2 ^ 21).
  assert (varint_value [b0; b1; b2; b3; b4] = acc4 + byte_val b4 mod 128 * 2 ^ 28) as -> by (cbn [varint_value]; lia).
  assert (0 <= acc1 < 2 ^ 7 /\ 0 <= acc2 < 2 ^ 14 /\ 0 <= acc3 < 2 ^ 21 /\ 0 <= acc4 < 2 ^ 28) as (A1 & A2 & A3 & A4) by lia.
  assert (reads [b1] (varint32_round (7, acc1)) (inl (14, acc2))) as R1 by (pose proof (reads_varint32_round 1 acc1 b1 ltac:(done) ltac:(lia) A1) as R; rewrite u32_id in R by lia; exact R).
  assert (reads [b2] (varint32_round (14, acc2)) (inl (21, acc3))) as R2 by (pose proof (reads_varint32_round 2 acc2 b2 ltac:(done) ltac:(lia) A2) as R; rewrite u32_id in R by lia; exact R).
  assert (reads [b3] (varint32_round (21, acc3)) (inl (28, acc4))) as R3 by (pose proof (reads_varint32_round 3 acc3 b3 ltac:(done) ltac:(lia) A3) as R; rewrite u32_id in R by lia; exact R).
  pose proof (reads_varint32_round 4 acc4 b4 ltac:(done) ltac:(lia) A4) as R4. change (7 * 4) with 28 in R4. change (7 * (4 + 1)) with 35 in R4.
  destruct (loop_step (S (S (S fuel))) _ _ _ varint32_end _ _ _ R1 Hs) as [E1 Hs1]. destruct (loop_step (S (S fuel)) _ _ _ varint32_end _ _ _ R2 Hs1) as [E2 Hs2].
  destruct (loop_step (S fuel) _ _ _ varint32_end _ _ _ R3 Hs2) as [E3 Hs3]. destruct (loop_step fuel _ _ _ varint32_end _ _ _ R4 Hs3) as [E4 Hs4].
  split; [|rewrite !advance_add in Hs4; exact Hs4]. transitivity (bind (loop (S (S (S (S fuel)))) varint32_round (7, acc1)) varint32_end (advance 1 s)); [done|].
  by rewrite E1, E2, E3, E4, !advance_add.
Qed.

Lemma advance_err n e s : set_err e (advance n s) = advance n (set_err e s).
Proof. by destruct s as [[? ? ? ?] ? ?]. Qed.

(** The bytes behind the fifth. *)
Lemma varint32_tail acc : 0 <= acc < 2 ^ 32 -> forall tail i fuel s, is_varint tail -> 5 <= i -> i + Z.of_nat (length tail) <= 37 -> (length tail < fuel)%nat -> has_input s tail ->
  loop fuel varint32_round (7 * i, acc) s =
    match excess (2 ^ 31 <=? acc) i tail with
    | None => Ok (Some (u8 (7 * (i + Z.of_nat (length tail))), byte_val (List.last tail (byte_of 0)), acc)) (advance (Z.of_nat (length tail)) s)
    | Some n => Ok None (set_err (Some (default "varint overflow"%string (get_err s))) (advance n s))
    end.
Proof.
  intros Ha. induction tail as [|b tail IH]; intros i fuel s Hv Hi Hl Hf Hs; [done|]. destruct fuel as [|fuel]; [simpl in Hf; lia|]. pose proof (byte_val_range b) as Hb.
  change (b :: tail) with ([b] ++ tail) in Hs. apply has_input_app in Hs as [Hs1 Hs2]. change (Z.of_nat (length [b])) with 1 in Hs2. cbn [length] in Hl, Hf.
  cbn [loop]. unfold varint32_round at 1. rewrite !bind_assoc, (bind_ok _ _ _ _ _ (reads_attempt _ _ _ (reads_readbyte b) s Hs1)). change (Z.of_nat (length [b])) with 1. cbv zeta iota beta.
  destruct (Z.leb_spec 32 (7 * i)); [|lia]. rewrite land_7f, land_80 by done. cbn [andb excess].
  assert ((7 * i <? 63) = (i <? 9)) as -> by (destruct (Z.ltb_spec (7 * i) 63), (Z.ltb_spec i 9); lia).
  assert ((Z.shiftr acc 31 =? 0) = negb (2 ^ 31 <=? acc)) as ->.
  { rewrite Z.shiftr_div_pow2 by lia. destruct (Z.leb_spec (2 ^ 31) acc); simpl; [apply Z.eqb_neq; assert (1 <= acc / 2 ^ 31) by (apply Z.div_le_lower_bound; lia); lia|]. by rewrite Z.div_small by lia. }
  rewrite <- negb_andb, <- negb_orb. destruct (_ || _); cbn [negb]; cbv iota.
  - rewrite !bind_ret. cbv iota. apply is_varint_cons in Hv. destruct (Z.ltb_spec (byte_val b) 128) as [Hlt|Hge]; cbn [negb]; cbv iota.
    + subst tail. cbn [excess fmap option_fmap option_map length]. by replace (7 * i + 7) with (7 * (i + Z.of_nat 1)) by lia.
    + assert (0 < length tail)%nat by (destruct tail; [done|simpl; lia]). rewrite u8_id by lia. replace (7 * i + 7) with (7 * (i + 1)) by lia.
      rewrite (IH (i + 1) fuel (advance 1 s)) by (done || lia). destruct (excess _ (i + 1) tail) as [n|]; cbn [fmap option_fmap option_map].
      * rewrite advance_add. by replace (Z.succ n) with (1 + n) by lia.
      * rewrite advance_add. cbn [length]. replace (1 + Z.of_nat (length tail)) with (Z.of_nat (S (length tail))) by lia. replace (i + 1 + Z.of_nat (length tail)) with (i + Z.of_nat (S (length tail))) by lia.
        by destruct tail.
  - done.
Qed.
Lemma varint_value_bound bs : varint_value bs < 2 ^ (7 * Z.of_nat (length bs)).
Proof.
  induction bs as [|b bs IH]; cbn [varint_value length]; [done|]. pose proof (Z.mod_pos_bound (byte_val b) 128 ltac:(lia)).
  replace (7 * Z.of_nat (S (length bs))) with (7 * Z.of_nat (length bs) + 7) by lia. rewrite Z.pow_add_r by lia. change (2 ^ 7) with 128. lia.
Qed.

(** A varint of more than five bytes. *)
Lemma long_varint bs : is_varint bs -> (5 < length bs)%nat ->
  exists b0 b1 b2 b3 b4 tail, bs = [b0; b1; b2; b3; b4] ++ tail /\ Forall (fun b => 128 <= byte_val b) [b0; b1; b2; b3; b4] /\ is_varint tail.
Proof.
  intros Hv Hl. destruct bs as [|b0 [|b1 [|b2 [|b3 [|b4 [|b5 tail]]]]]]; [cbn [length] in Hl; lia..|]. destruct Hv as (? & ? & ? & ? & ? & Hv).
  exists b0, b1, b2, b3, b4, (b5 :: tail). split; [done|]. split; [by repeat constructor|exact Hv].
Qed.

(** C39. [pb_decode_varint32] on any varint of up to 37 bytes,
    after which its 8-bit counter of bits wraps around.  It returns the first five
    groups modulo 2^32.  An overflow is reported for a varint of five bytes that
    does not fit, and at the first later byte that is neither empty nor the sign
    extension of a negative number; the three bits of the fifth byte that do
    not fit are ignored as soon as another byte follows.  It consumes exactly the
    bytes it looked at. *)
Theorem pb_decode_varint32_spec s bs :
  has_input s bs -> is_varint bs -> (length bs <= 37)%nat ->
  let low := u32 (varint_value (take 5 bs)) in
  let overflow n := Fail (set_err (Some (default "varint overflow"%string (get_err s))) (advance n s)) in
  pb_decode_varint32 s =
    if (length bs =? 5)%nat && (2 ^ 32 <=? varint_value bs) then overflow 5
    else match excess (2 ^ 31 <=? low) 5 (drop 5 bs) with
         | None => Ok low (advance (Z.of_nat (length bs)) s)
         | Some n => overflow (5 + n)
         end.
Proof.
  intros Hs Hv Hl. cbv zeta. pose proof (varint_value_nonneg bs). destruct (decide (length bs <= 5)%nat) as [H5|H5].
  - rewrite take_ge, drop_ge by done. cbn [excess]. destruct (Nat.eqb_spec (length bs) 5) as [E5|E5]; [destruct (Z.leb_spec (2 ^ 32) (varint_value bs)) as [Hbig|Hsmall]|]; cbn [andb].
    + rewrite (rejects_varint32 bs Hv E5 Hbig s Hs). by rewrite E5.
    + rewrite (reads_varint32 bs Hv H5 Hsmall s Hs). by rewrite u32_id by lia.
    + pose proof (varint_value_bound bs). assert (2 ^ (7 * Z.of_nat (length bs)) <= 2 ^ 28) by (apply Z.pow_le_mono_r; lia).
      rewrite (reads_varint32 bs Hv H5 ltac:(lia) s Hs). by rewrite u32_id by lia.
  - destruct (long_varint bs Hv ltac:(lia)) as (b0 & b1 & b2 & b3 & b4 & tail & -> & Hb & Hvt). rewrite length_app in *. cbn [length] in *.
    destruct (Nat.eqb_spec (5 + length tail) 5); [lia|]. cbn [andb]. change (drop 5 _) with tail. change (take 5 _) with [b0; b1; b2; b3; b4].
    destruct (varint32_five b0 b1 b2 b3 b4 tail s Hb Hs) as (fuel & Hf & E & Hst). unfold pb_decode_varint32, bind at 1. rewrite E. unfold bind at 1.
    pose proof (varint32_tail (u32 (varint_value [b0; b1; b2; b3; b4])) (u32_range _) tail 5 fuel (advance 5 s) Hvt ltac:(lia) ltac:(lia) Hf Hst) as Et. change (7 * 5) with 35 in Et. rewrite Et. clear Et E.
    destruct (excess _ 5 tail) as [k|]; cbn [varint32_end].
    + by rewrite advance_add.
    + destruct (Z.eqb_spec (u8 (7 * (5 + Z.of_nat (length tail)))) 35) as [E|_].
      * exfalso. unfold u8 in E. assert (0 < length tail)%nat by (destruct tail; [done|simpl; lia]). Z.to_euclidean_division_equations. lia.
      * cbn [andb]. rewrite advance_add. by replace (5 + Z.of_nat (length tail)) with (Z.of_nat (5 + length tail)) by lia.
Qed.
End Decoder.

(** ** Skipping *)

Section Skip.
Context `{PbEnv}.

(** A varint of any length is skipped. *)
Lemma reads_skip_varint bs : is_varint bs -> reads bs pb_skip_varint tt.
Proof.
  intros Hv. unfold pb_skip_varint. apply reads_byte_loop. intros fuel.
  revert fuel. induction bs as [|b bs IH]; intros fuel Hf; [done|].
  destruct fuel as [|fuel]; [simpl in Hf; lia|]. pose proof (byte_val_range b) as Hb.
  apply is_varint_cons in Hv. destruct (Z.ltb_spec (byte_val b) 128) as [Hlt|Hge].
  - subst bs. apply reads_loop_exit. eapply reads_then_ret; [apply reads_read_byte|].
    rewrite land_80 by done. destruct (Z.ltb_spec (byte_val b) 128); [apply reads_ret|lia].
  - change (b :: bs) with ([b] ++ bs). eapply reads_loop_step.
    + eapply reads_then_ret; [apply reads_read_byte|].
      rewrite land_80 by done. destruct (Z.ltb_spec (byte_val b) 128); [lia|apply reads_ret].
    + apply IH; [done|simpl in Hf; lia].
Qed.

Lemma reads_skip_string bs n :
  n = Z.of_nat (length bs) -> n < 2 ^ 32 -> reads (varint n ++ bs) pb_skip_string tt.
Proof.
  intros -> Hl. unfold pb_skip_string. eapply reads_bind; [apply reads_varint32_of; lia|].
  apply reads_skip.
Qed.

(** Whatever value the encoder writes for a field, a
    decoder that does not know the field skips exactly the bytes of that
    value. *)
Theorem pb_skip_field_value src sub f p bs wt :
  field_ok f -> wiretype_of (PB_LTYPE (type f)) = Some wt -> wire_value src sub f p bs ->
  Z.of_nat (length bs) < 2 ^ 32 -> reads bs (pb_skip_field wt) tt.
Proof.
  intros Hf Hwt Hw Hl.
  assert (forall v, 0 <= v < 2 ^ 64 -> wt = PB_WT_VARINT -> reads (varint v) (pb_skip_field wt) tt) as Hvar.
  { intros v Hv ->. apply reads_skip_varint. by apply varint_is_varint. }
  assert (forall b n, wt = PB_WT_STRING -> n = Z.of_nat (length b) -> n < 2 ^ 32 ->
    reads (varint n ++ b) (pb_skip_field wt) tt) as Hstr.
  { intros b n -> Hn Hn'. by apply reads_skip_string. }
  destruct Hw as [z E Hs Hz|z E Hs Hz|z E Hs Hz|bs E Hb|bs E Hb|bs E Hp Hb Hb' Hc|bs E Hp Hc|
    [E|E] Hp|fields bs E Hp He Hs Hb|bs E Hn Hb]; rewrite E in Hwt; injection Hwt as <-;
    rewrite ?length_app in Hl.
  - apply Hvar; [apply u64_range|done].
  - apply Hvar; [|done]. by eapply int_size_uint.
  - apply Hvar; [|done]. apply zigzag_range. by eapply int_size_sint.
  - apply load_bytes_length in Hb. pose proof (reads_skip bs) as Hr. by rewrite Hb in Hr.
  - apply load_bytes_length in Hb. pose proof (reads_skip bs) as Hr. by rewrite Hb in Hr.
  - apply Hstr; [done..|lia].
  - apply Hstr; [done..|lia].
  - rewrite <- (app_nil_r (varint 0)). by apply Hstr.
  - rewrite <- (app_nil_r (varint 0)). by apply Hstr.
  - apply Hstr; [done..|lia].
  - apply Hstr; [done|by rewrite Hn|]. pose proof (ok_data_size _ Hf). lia.
Qed.
End Skip.

(** ** Substreams *)

Section Substream.
Context `{PbEnv}.

(** A substream of [n] bytes that has been read to some point, perhaps with
    an error. *)
Definition substream_of (start n : Z) (sub : pb_istream_t) : Prop :=
  i_callback sub = IBuf /\ 0 <= i_bytes_left sub <= n /\ i_state sub + i_bytes_left sub = start + n.

Lemma make_substream s bs :
  has_input s (varint (Z.of_nat (length bs)) ++ bs) -> Z.of_nat (length bs) < 2 ^ 32 ->
  let n := Z.of_nat (length bs) in
  let k := Z.of_nat (length (varint n)) in
  let i := d_stream s in
  pb_make_string_substream s =
    Ok (IStream IBuf (i_state i + k) n (i_errmsg i))
       (set_d_stream (IStream IBuf (i_state i + k) (i_bytes_left i - k - n) (i_errmsg i)) s).
Proof.
  intros Hs Hl n k i. pose proof (hi_callback _ _ Hs) as Hcb. pose proof (hi_left _ _ Hs) as Hleft.
  rewrite length_app, Nat2Z.inj_add in Hleft. apply has_input_app in Hs as [Hs _].
  unfold pb_make_string_substream.
  rewrite (bind_ok _ _ _ _ _ (reads_varint32_of (Z.of_nat (length bs)) ltac:(lia) s Hs)).
  subst n k i. destruct s as [[cb st l e] m x]. simpl in *. subst cb.
  unfold istream, gets, upd_istream, modify, bind, advance, set_d_stream, set_i_bytes_left, ret. simpl.
  destruct (Z.ltb_spec (l - Z.of_nat (length (varint (Z.of_nat (length bs))))) (Z.of_nat (length bs))); [lia|].
  by rewrite u64_id by lia.
Qed.

(** A string substream is exactly the
    length-delimited value, and closing it, however much of it has been read,
    leaves the parent right behind that value, with the error message of the
    substream. *)
Theorem pb_substream_conserves s bs sub :
  has_input s (varint (Z.of_nat (length bs)) ++ bs) -> Z.of_nat (length bs) < 2 ^ 32 ->
  let n := Z.of_nat (length bs) in
  let k := Z.of_nat (length (varint n)) in
  exists sub0 s1, pb_make_string_substream s = Ok sub0 s1 /\
    i_bytes_left sub0 = n /\ has_input (set_d_stream sub0 s1) bs /\
    (substream_of (i_state sub0) n sub ->
     pb_close_string_substream sub s1 =
       Ok tt (set_d_stream (set_i_errmsg (i_errmsg sub) (d_stream (advance (k + n) s))) s)).
Proof.
  intros Hs Hl n k. pose proof (make_substream s bs Hs Hl) as Hm. cbv zeta in Hm.
  pose proof (hi_callback _ _ Hs) as Hcb. pose proof (hi_left _ _ Hs) as Hleft.
  rewrite length_app, Nat2Z.inj_add in Hleft. apply has_input_app in Hs as [_ [_ _ Hb]].
  eexists _, _. split; [exact Hm|]. subst n k. simpl. split_and!; [done|split; simpl; [done|lia|exact Hb]|].
  intros (Hc & Hr & He). destruct s as [[cb st l e] m x], sub as [cb' st' l' e']. simpl in *. subst cb cb'.
  unfold pb_close_string_substream. simpl.
  destruct (Z.eqb_spec l' 0) as [E|E]; simpl negb; cbv iota.
  - subst l'. rewrite bind_ret. unfold upd_istream, modify, set_d_stream, set_i_errmsg, set_i_state. simpl.
    do 3 f_equal; lia.
  - unfold on_istream. rewrite bind_assoc. unfold set_d_stream at 1. simpl.
    unfold bind at 1. rewrite skip_exact by (simpl; try done; lia).
    unfold bind, ret, upd_istream, modify, set_d_stream, set_i_errmsg, set_i_state; simpl.
    do 3 f_equal; lia.
Qed.
End Substream.
