(* ===== verification/PbDecode.v ===== *)
(** * pb_decode.c: fields and messages

    As in the encoder, decoders and [pb_decode_noinit] call each other through
    the table of decoders: [rec] is [pb_decode_noinit] on one level of
    submessages less, and [fuel] bounds the walks over nested static
    structures and linked lists of extensions. *)
From S2P Require Import Prelude Mem Comp Pb PbEnv PbCommon IStream.

(** ** The heap: [pb_realloc] and [pb_free]

    pb.h defines both as [realloc] and [free].  Where a block goes and whether
    a request succeeds is the allocator's choice ([env_realloc]); what the two
    calls do to the cells is fixed by the C library. *)

(** The first [n] cells at [a], whatever their state. *)
Fixpoint read_cells (c : gmap Z (option byte)) (a : Z) (n : nat) : list (option byte) :=
  match n with
  | O => []
  | S n' => default None (c !! a) :: read_cells c (a + 1) n'
  end.

Fixpoint write_cells (c : gmap Z (option byte)) (a : Z) (l : list (option byte)) : gmap Z (option byte) :=
  match l with
  | [] => c
  | x :: l' => <[a := x]> (write_cells c (a + 1) l')
  end.

(** Moving the block [p] of [old] bytes (none when [p] is NULL) to [a], with
    [size] bytes: the common prefix is kept, the rest is indeterminate. *)
Definition move_block (m : mem) (p old a size : Z) : mem :=
  let kept := read_cells (m_cells m) p (Z.to_nat (Z.min old size)) in
  let c := unmap_cells (m_cells m) p (Z.to_nat old) in
  let c := map_cells c a (Z.to_nat size) in
  Mem (write_cells c a kept) (<[a := size]> (delete p (m_heap m))).

Definition free_block (m : mem) (p size : Z) : mem :=
  Mem (unmap_cells (m_cells m) p (Z.to_nat size)) (delete p (m_heap m)).

Section Heap.
Context `{PbEnv}.

Definition pb_realloc (p size : Z) : M dstate Z := fun s =>
  let m := d_mem s in
  let go old :=
    match env_realloc m p size with
    | None => Ok NULL s
    | Some a => Ok a (set_mem (move_block m p old a size) s)
    end in
  if p =? NULL then go 0
  else
    match m_heap m !! p with
    | Some old => go old
    | None => Ub
    end.

Definition pb_free (p : Z) : M dstate unit := fun s =>
  if p =? NULL then Ok tt s
  else
    match m_heap (d_mem s) !! p with
    | Some size => Ok tt (set_mem (free_block (d_mem s) p size) s)
    | None => Ub
    end.

(** An array of [n] bytes in the stack frame of the call [k]. *)
Definition with_stack {A} (n : Z) (k : Z -> M dstate A) : M dstate A := fun s =>
  let a := env_stack (d_mem s) n in
  let enter := Mem (map_cells (m_cells (d_mem s)) a (Z.to_nat n)) (m_heap (d_mem s)) in
  let leave s' :=
    set_mem (Mem (unmap_cells (m_cells (d_mem s')) a (Z.to_nat n)) (m_heap (d_mem s'))) s' in
  match k a (set_mem enter s) with
  | Ok x s' => Ok x (leave s')
  | Fail s' => Fail (leave s')
  | Ub => Ub
  | Timeout => Timeout
  end.
End Heap.

Section Decode.
Context `{PbEnv}.

(** ** The pointer [pSize] *)

(** Reading and writing [*(pb_size_t* )iter->pSize], 32 bits wide. *)
Definition ld_size (p : size_ptr) : M dstate Z :=
  match p with
  | PMem a => ld_u32 a
  | PLocal => gets (fun s => u32 (d_fixed s))
  end.

Definition st_size (p : size_ptr) (z : Z) : M dstate unit :=
  match p with
  | PMem a => st_u32 a z
  | PLocal => modify (set_d_fixed (u32 z))
  end.

(** [*(bool* )iter->pSize = b]; only members of structures are written so. *)
Definition st_size_bool (p : size_ptr) (b : bool) : M dstate unit :=
  match p with
  | PMem a => st_bool a b
  | PLocal => ub
  end.

(** [iter->pSize == iter->pData] *)
Definition size_is_data (iter : pb_field_iter_t) : bool :=
  bool_decide (pSize iter = PMem (pData iter)).

(** ** Extensions *)

Definition d_extension_type_of (extension : Z) : M dstate pb_extension_type_t :=
  ty ← ld_ptr (extension + extension_type) ; of_option (env_ext_type ty).

Definition iter_from_extension (extension : Z) : M dstate pb_field_iter_t :=
  ty ← d_extension_type_of extension ;
  field ← of_option (ext_arg ty !! 0%nat) ;
  dest ← ld_ptr (extension + extension_dest) ;
  '(_, iter) ← pb_field_iter_begin (ext_arg ty) dest ;
  let data :=
    if PB_ATYPE (type field) =? PB_ATYPE_POINTER then extension + extension_dest else dest in
  ret (Iter (start iter) (pos iter) (required_field_index iter) (dest_struct iter)
         data (PMem (extension + extension_found))).

(** ** Default values *)

(** [pb_message_set_to_defaults], given [pb_field_set_to_default]. *)
Definition message_set_to_defaults (set : pb_field_iter_t -> M dstate unit)
    (fields : list pb_field_t) (dest : Z) : M dstate unit :=
  '(more, iter) ← pb_field_iter_begin fields dest ;
  if negb more then ret tt else do_fields set iter.

Fixpoint pb_field_set_to_default (fuel : nat) (iter : pb_field_iter_t) : M dstate unit :=
  match fuel with
  | O => timeout
  | S fuel' =>
      f ← cur iter ;
      let ty := type f in
      if PB_LTYPE ty =? PB_LTYPE_EXTENSION then
        ext ← ld_ptr (pData iter) ;
        loop fuel (fun ext =>
          if ext =? NULL then ret (inr tt)
          else
            st_bool (ext + extension_found) false ;;
            ext_iter ← iter_from_extension ext ;
            pb_field_set_to_default fuel' ext_iter ;;
            next ← ld_ptr (ext + extension_next) ;
            ret (inl next)) ext
      else if PB_ATYPE ty =? PB_ATYPE_STATIC then
        init_data ←
          (if (PB_HTYPE ty =? PB_HTYPE_OPTIONAL) && negb (size_is_data iter) then
             st_size_bool (pSize iter) false ;; ret true
           else if (PB_HTYPE ty =? PB_HTYPE_REPEATED) || (PB_HTYPE ty =? PB_HTYPE_ONEOF) then
             st_size (pSize iter) 0 ;; ret false
           else ret true) ;
        if init_data : bool then
          if PB_LTYPE ty =? PB_LTYPE_SUBMESSAGE then
            fields ← of_option (env_fields (ptr f)) ;
            message_set_to_defaults (pb_field_set_to_default fuel') fields (pData iter)
          else if negb (ptr f =? NULL) then memcpy (pData iter) (ptr f) (data_size f)
          else memset0 (pData iter) (data_size f)
        else ret tt
      else if PB_ATYPE ty =? PB_ATYPE_POINTER then
        st_ptr (pData iter) NULL ;;
        if (PB_HTYPE ty =? PB_HTYPE_REPEATED) || (PB_HTYPE ty =? PB_HTYPE_ONEOF)
        then st_size (pSize iter) 0 else ret tt
      else (* PB_ATYPE_CALLBACK: don't overwrite callback *) ret tt
  end.

Definition pb_message_set_to_defaults (fuel : nat) (fields : list pb_field_t) (dest : Z)
  : M dstate unit :=
  message_set_to_defaults (pb_field_set_to_default fuel) fields dest.

(** ** Releasing allocated fields *)

(** [pb_release], given [pb_release_single_field]. *)
Definition message_release (release : pb_field_iter_t -> M dstate unit)
    (fields : list pb_field_t) (dest : Z) : M dstate unit :=
  if dest =? NULL then ret tt
  else
    '(more, iter) ← pb_field_iter_begin fields dest ;
    if negb more then ret tt else do_fields release iter.

Fixpoint pb_release_single_field (fuel : nat) (iter : pb_field_iter_t) : M dstate unit :=
  match fuel with
  | O => timeout
  | S fuel' =>
      f ← cur iter ;
      let ty := type f in
      current ←
        (if PB_HTYPE ty =? PB_HTYPE_ONEOF
         then which ← ld_size (pSize iter) ; ret (which =? tag f)
         else ret true) ;
      if negb current then ret tt
      else
        (if PB_LTYPE ty =? PB_LTYPE_EXTENSION then
           ext ← ld_ptr (pData iter) ;
           loop fuel (fun ext =>
             if ext =? NULL then ret (inr tt)
             else
               ext_iter ← iter_from_extension ext ;
               pb_release_single_field fuel' ext_iter ;;
               next ← ld_ptr (ext + extension_next) ;
               ret (inl next)) ext
         else if PB_LTYPE ty =? PB_LTYPE_SUBMESSAGE then
           pItem ←
             (if PB_ATYPE ty =? PB_ATYPE_POINTER then ld_ptr (pData iter)
              else ret (pData iter)) ;
           count ←
             (if PB_HTYPE ty =? PB_HTYPE_REPEATED then
                count ←
                  (if (PB_ATYPE ty =? PB_ATYPE_STATIC) && size_is_data iter
                   then ret (array_size f) else ld_size (pSize iter)) ;
                ret (if (PB_ATYPE ty =? PB_ATYPE_STATIC) && (array_size f <? count)
                     then array_size f else count)
              else ret 1) ;
           if pItem =? NULL then ret tt
           else
             for_n (Z.to_nat count) (fun pItem =>
               fields ← of_option (env_fields (ptr f)) ;
               message_release (pb_release_single_field fuel') fields pItem ;;
               ret (pItem + data_size f)) pItem ;;
             ret tt
         else ret tt) ;;
        if PB_ATYPE ty =? PB_ATYPE_POINTER then
          (if (PB_HTYPE ty =? PB_HTYPE_REPEATED) &&
              ((PB_LTYPE ty =? PB_LTYPE_STRING) || (PB_LTYPE ty =? PB_LTYPE_BYTES))
           then
             pItem ← ld_ptr (pData iter) ;
             count ← ld_size (pSize iter) ;
             for_n (Z.to_nat count) (fun pItem =>
               p ← ld_ptr pItem ;
               pb_free p ;;
               st_ptr pItem NULL ;;
               ret (pItem + sizeof_ptr)) pItem ;;
             ret tt
           else ret tt) ;;
          (if PB_HTYPE ty =? PB_HTYPE_REPEATED then st_size (pSize iter) 0 else ret tt) ;;
          p ← ld_ptr (pData iter) ;
          pb_free p ;;
          st_ptr (pData iter) NULL
        else ret tt
  end.

Definition pb_release (fuel : nat) (fields : list pb_field_t) (dest : Z) : M dstate unit :=
  message_release (pb_release_single_field fuel) fields dest.

(** The iterator comes back to the field, with its pointers recomputed. *)
Definition pb_release_union_field (fuel : nat) (iter : pb_field_iter_t)
  : M dstate pb_field_iter_t :=
  old_tag ← ld_size (pSize iter) ;
  f ← cur iter ;
  let new_tag := tag f in
  if (old_tag =? 0) || (old_tag =? new_tag) then ret iter
  else
    '(found, iter) ← pb_field_iter_find iter old_tag ;
    if negb found then PB_RETURN_ERROR "invalid union tag"
    else
      pb_release_single_field fuel iter ;;
      '(found, iter) ← pb_field_iter_find iter new_tag ;
      if negb found then PB_RETURN_ERROR "iterator error" else ret iter.

(** ** Allocation of pointer fields *)

Definition allocate_field (pData data_size array_size : Z) : M dstate unit :=
  p ← ld_ptr pData ;
  if (data_size =? 0) || (array_size =? 0) then PB_RETURN_ERROR "invalid size"
  else
    let check_limit := Z.shiftl 1 (sizeof_ptr * 4) in
    if ((check_limit <=? data_size) || (check_limit <=? array_size)) &&
       (u64 (-1) / array_size <? data_size)
    then PB_RETURN_ERROR "size too large"
    else
      p ← pb_realloc p (u64 (array_size * data_size)) ;
      if p =? NULL then PB_RETURN_ERROR "realloc failed"
      else st_ptr pData p.

Definition initialize_pointer_field (fuel : nat) (pItem : Z) (iter : pb_field_iter_t)
  : M dstate unit :=
  f ← cur iter ;
  if (PB_LTYPE (type f) =? PB_LTYPE_STRING) || (PB_LTYPE (type f) =? PB_LTYPE_BYTES)
  then st_ptr pItem NULL
  else if PB_LTYPE (type f) =? PB_LTYPE_SUBMESSAGE then
    memset0 pItem (data_size f) ;;
    fields ← of_option (env_fields (ptr f)) ;
    pb_message_set_to_defaults fuel fields pItem
  else ret tt.

(** ** Bytes and strings *)

Definition pb_dec_bytes (field : pb_field_t) (dest : Z) : M dstate unit :=
  size ← pb_decode_varint32 ;
  if PB_SIZE_MAX <? size then PB_RETURN_ERROR "bytes overflow"
  else
    let alloc_size := PB_BYTES_ARRAY_T_ALLOCSIZE size in
    if alloc_size <? size then PB_RETURN_ERROR "size too large"
    else
      bdest ←
        (if PB_ATYPE (type field) =? PB_ATYPE_POINTER then
           allocate_field dest alloc_size 1 ;; ld_ptr dest
         else if data_size field <? alloc_size then PB_RETURN_ERROR "bytes overflow"
         else ret dest) ;
      st_u32 (bdest + bytes_array_size) size ;;
      pb_read (rmem (bdest + bytes_array_bytes)) size ;;
      ret tt.

Definition pb_dec_string (field : pb_field_t) (dest : Z) : M dstate unit :=
  size ← pb_decode_varint32 ;
  let alloc_size := u32 (size + 1) in
  if alloc_size <? size then PB_RETURN_ERROR "size too large"
  else
    dest ←
      (if PB_ATYPE (type field) =? PB_ATYPE_POINTER then
         allocate_field dest alloc_size 1 ;; ld_ptr dest
       else if data_size field <? alloc_size then PB_RETURN_ERROR "string overflow"
       else ret dest) ;
    ok ← status (pb_read (rmem dest) size ;; ret tt) ;
    st_u8 (dest + size) 0 ;;
    check ok.

Section Rec.
(** [pb_decode_noinit] on submessages, and the fuel of the other walks. *)
Variable rec : list pb_field_t -> Z -> M dstate unit.
Variable fuel : nat.

(** [pb_decode] over [pb_decode_noinit]. *)
Definition decode_over (fields : list pb_field_t) (dest_struct : Z) : M dstate unit :=
  pb_message_set_to_defaults fuel fields dest_struct ;;
  ok ← status (rec fields dest_struct) ;
  (if negb ok then pb_release fuel fields dest_struct else ret tt) ;;
  check ok.

Definition pb_dec_submessage (field : pb_field_t) (dest : Z) : M dstate unit :=
  substream ← pb_make_string_substream ;
  if ptr field =? NULL then PB_RETURN_ERROR "invalid field descriptor"
  else
    submsg_fields ← of_option (env_fields (ptr field)) ;
    '(st, substream) ← on_istream substream
      (if PB_HTYPE (type field) =? PB_HTYPE_REPEATED
       then decode_over submsg_fields dest
       else rec submsg_fields dest) ;
    pb_close_string_substream substream ;;
    match st with Some _ => ret tt | None => fail end.

(** [PB_DECODERS[ltype]]; the entry for extensions is NULL. *)
Definition PB_DECODERS : list (option (pb_field_t -> Z -> M dstate unit)) :=
  [ Some pb_dec_varint; Some pb_dec_uvarint; Some pb_dec_svarint;
    Some pb_dec_fixed32; Some pb_dec_fixed64;
    Some pb_dec_bytes; Some pb_dec_string; Some pb_dec_submessage;
    None; Some pb_dec_fixed_length_bytes ].

Definition call_decoder (func : option (pb_field_t -> Z -> M dstate unit))
    (field : pb_field_t) (dest : Z) : M dstate unit :=
  match func with
  | Some f => f field dest
  | None => ub
  end.

Definition decode_static_field (wire_type : Z) (iter : pb_field_iter_t) : M dstate unit :=
  f ← cur iter ;
  let ty := type f in
  func ← of_option (PB_DECODERS !! Z.to_nat (PB_LTYPE ty)) ;
  if PB_HTYPE ty =? PB_HTYPE_REQUIRED then call_decoder func f (pData iter)
  else if PB_HTYPE ty =? PB_HTYPE_OPTIONAL then
    (if negb (size_is_data iter) then st_size_bool (pSize iter) true else ret tt) ;;
    call_decoder func f (pData iter)
  else if PB_HTYPE ty =? PB_HTYPE_REPEATED then
    if (wire_type =? PB_WT_STRING) && (PB_LTYPE ty <=? PB_LTYPE_LAST_PACKABLE) then
      (* packed array *)
      substream ← pb_make_string_substream ;
      '(st, substream) ← on_istream substream
        (byte_loop (fun _ : unit =>
           left ← bytes_left ;
           size ← ld_size (pSize iter) ;
           if (0 <? left) && (size <? array_size f) then
             let pItem := pData iter + u32 (data_size f * size) in
             ok ← status (call_decoder func f pItem) ;
             if negb ok then ret (inr false)
             else
               size ← ld_size (pSize iter) ;
               st_size (pSize iter) (u32 (size + 1)) ;;
               ret (inl tt)
           else ret (inr true)) tt) ;
      if negb (i_bytes_left substream =? 0) then PB_RETURN_ERROR "array overflow"
      else
        pb_close_string_substream substream ;;
        check (match st with Some ok => ok | None => false end)
    else
      (* repeated field *)
      size ← ld_size (pSize iter) ;
      let pItem := pData iter + u32 (data_size f * size) in
      st_size (pSize iter) (u32 (size + 1)) ;;
      if array_size f <=? size then PB_RETURN_ERROR "array overflow"
      else call_decoder func f pItem
  else if PB_HTYPE ty =? PB_HTYPE_ONEOF then
    st_size (pSize iter) (tag f) ;;
    (if PB_LTYPE ty =? PB_LTYPE_SUBMESSAGE then
       memset0 (pData iter) (data_size f) ;;
       fields ← of_option (env_fields (ptr f)) ;
       pb_message_set_to_defaults fuel fields (pData iter)
     else ret tt) ;;
    call_decoder func f (pData iter)
  else PB_RETURN_ERROR "invalid field type".

(** What ended the loop over a packed pointer array. *)
Inductive packed_end := PackedDone | PackedFailed | PackedTooMany.

Definition decode_pointer_field (wire_type : Z) (iter : pb_field_iter_t) : M dstate unit :=
  f ← cur iter ;
  let ty := type f in
  func ← of_option (PB_DECODERS !! Z.to_nat (PB_LTYPE ty)) ;
  if (PB_HTYPE ty =? PB_HTYPE_REQUIRED) || (PB_HTYPE ty =? PB_HTYPE_OPTIONAL) ||
     (PB_HTYPE ty =? PB_HTYPE_ONEOF) then
    (if PB_LTYPE ty =? PB_LTYPE_SUBMESSAGE then
       p ← ld_ptr (pData iter) ;
       if negb (p =? NULL) then pb_release_single_field fuel iter else ret tt
     else ret tt) ;;
    (if PB_HTYPE ty =? PB_HTYPE_ONEOF then st_size (pSize iter) (tag f) else ret tt) ;;
    if (PB_LTYPE ty =? PB_LTYPE_STRING) || (PB_LTYPE ty =? PB_LTYPE_BYTES)
    then call_decoder func f (pData iter)
    else
      allocate_field (pData iter) (data_size f) 1 ;;
      p ← ld_ptr (pData iter) ;
      initialize_pointer_field fuel p iter ;;
      p ← ld_ptr (pData iter) ;
      call_decoder func f p
  else if PB_HTYPE ty =? PB_HTYPE_REPEATED then
    if (wire_type =? PB_WT_STRING) && (PB_LTYPE ty <=? PB_LTYPE_LAST_PACKABLE) then
      (* packed array, multiple items come in at once *)
      size ← ld_size (pSize iter) ;
      substream ← pb_make_string_substream ;
      '(st, substream) ← on_istream substream
        (byte_loop (fun allocated_size =>
           left ← bytes_left ;
           if left =? 0 then ret (inr PackedDone)
           else
             size ← ld_size (pSize iter) ;
             '(ok, allocated_size) ←
               (if allocated_size <? size + 1 then
                  if data_size f =? 0 then ub
                  else
                    let allocated_size := u64 (allocated_size + ((left - 1) / data_size f + 1)) in
                    ok ← status (allocate_field (pData iter) (data_size f) allocated_size) ;
                    ret (ok, allocated_size)
                else ret (true, allocated_size)) ;
             if negb ok then ret (inr PackedFailed)
             else
               base ← ld_ptr (pData iter) ;
               size ← ld_size (pSize iter) ;
               let pItem := base + u32 (data_size f * size) in
               initialize_pointer_field fuel pItem iter ;;
               ok ← status (call_decoder func f pItem) ;
               if negb ok then ret (inr PackedFailed)
               else
                 size ← ld_size (pSize iter) ;
                 if size =? PB_SIZE_MAX then ret (inr PackedTooMany)
                 else
                   st_size (pSize iter) (u32 (size + 1)) ;;
                   ret (inl allocated_size)) size) ;
      (match st with
       | Some PackedTooMany => upd_istream (set_i_errmsg (Some "too many array entries"%string))
       | _ => ret tt
       end) ;;
      pb_close_string_substream substream ;;
      check (match st with Some PackedDone => true | _ => false end)
    else
      (* normal repeated field, one item at a time *)
      size ← ld_size (pSize iter) ;
      if size =? PB_SIZE_MAX then PB_RETURN_ERROR "too many array entries"
      else
        st_size (pSize iter) (u32 (size + 1)) ;;
        size ← ld_size (pSize iter) ;
        allocate_field (pData iter) (data_size f) size ;;
        base ← ld_ptr (pData iter) ;
        size ← ld_size (pSize iter) ;
        let pItem := base + u32 (data_size f * u32 (size - 1)) in
        initialize_pointer_field fuel pItem iter ;;
        call_decoder func f pItem
  else PB_RETURN_ERROR "invalid field type".

Definition decode_callback_field (wire_type : Z) (iter : pb_field_iter_t) : M dstate unit :=
  f ← cur iter ;
  let pCallback := pData iter in
  let arg := pCallback + callback_arg in
  decode ← (if pCallback =? NULL then ret NULL else ld_ptr (pCallback + callback_funcs)) ;
  if decode =? NULL then pb_skip_field wire_type
  else if wire_type =? PB_WT_STRING then
    substream ← pb_make_string_substream ;
    (* the callback function is read again on every round *)
    '(st, substream) ← on_istream substream
      (loop fuel (fun _ : unit =>
         decode ← ld_ptr (pCallback + callback_funcs) ;
         ok ← call_i (fun i m => env_decode_cb decode i f arg m) ;
         left ← bytes_left ;
         ret (if negb ok then inr false else if left =? 0 then inr true else inl tt)) tt) ;
    match st with
    | Some true => pb_close_string_substream substream
    | _ => PB_RETURN_ERROR "callback failed"
    end
  else
    with_stack 10 (fun buffer =>
      size ← read_raw_value wire_type buffer 10 ;
      decode ← ld_ptr (pCallback + callback_funcs) ;
      '(st, _) ← on_istream (pb_istream_from_buffer buffer size)
        (ok ← call_i (fun i m => env_decode_cb decode i f arg m) ; check ok) ;
      match st with Some _ => ret tt | None => fail end).

(** The iterator is passed by address and may be moved and moved back. *)
Definition decode_field (wire_type : Z) (iter : pb_field_iter_t) : M dstate pb_field_iter_t :=
  f ← cur iter ;
  iter ←
    (if PB_HTYPE (type f) =? PB_HTYPE_ONEOF then pb_release_union_field fuel iter
     else ret iter) ;
  f ← cur iter ;
  (if PB_ATYPE (type f) =? PB_ATYPE_STATIC then decode_static_field wire_type iter
   else if PB_ATYPE (type f) =? PB_ATYPE_POINTER then decode_pointer_field wire_type iter
   else if PB_ATYPE (type f) =? PB_ATYPE_CALLBACK then decode_callback_field wire_type iter
   else PB_RETURN_ERROR "invalid field type") ;;
  ret iter.

Definition default_extension_decoder (extension t wire_type : Z) : M dstate unit :=
  ty ← d_extension_type_of extension ;
  field ← of_option (ext_arg ty !! 0%nat) ;
  if negb (tag field =? t) then ret tt
  else
    iter ← iter_from_extension extension ;
    st_bool (extension + extension_found) true ;;
    decode_field wire_type iter ;;
    ret tt.

Definition decode_extension (t wire_type : Z) (iter : pb_field_iter_t) : M dstate unit :=
  extension ← ld_ptr (pData iter) ;
  position ← bytes_left ;
  loop fuel (fun extension =>
    left ← bytes_left ;
    if negb (extension =? NULL) && (position =? left) then
      ty ← d_extension_type_of extension ;
      (if negb (ext_decode ty =? NULL)
       then ok ← call_i (fun i m => env_ext_decode (ext_decode ty) i extension t wire_type m) ;
            check ok
       else default_extension_decoder extension t wire_type) ;;
      next ← ld_ptr (extension + extension_next) ;
      ret (inl next)
    else ret (inr tt)) extension.

Definition find_extension_field (iter : pb_field_iter_t) : M dstate (bool * pb_field_iter_t) :=
  let start_pos := pos iter in
  loop (S (length (start iter))) (fun it =>
    f ← cur it ;
    if PB_LTYPE (type f) =? PB_LTYPE_EXTENSION then ret (inr (true, it))
    else
      '(_, it') ← pb_field_iter_next it ;
      if Nat.eqb (pos it') start_pos then ret (inr (false, it')) else ret (inl it'))
    iter.

(** The local variables of [pb_decode_noinit] that its loop updates;
    [fixed_count_field] is the index of the field it points to. *)
Record locals := Locals {
  fields_seen : list Z;
  extension_range_start : Z;
  the_iter : pb_field_iter_t;
  fixed_count_field : option nat;
}.

(** [fixed_count_field != NULL && fixed_count_size != fixed_count_field->array_size] *)
Definition check_fixed_count (fields : list pb_field_t) (fixed : option nat) : M dstate unit :=
  match fixed with
  | None => ret tt
  | Some k =>
      f ← of_option (fields !! k) ;
      size ← ld_size PLocal ;
      if negb (size =? array_size f) then PB_RETURN_ERROR "wrong size for fixed count field"
      else ret tt
  end.

(** A tag that no regular field has: try the extensions, then skip. *)
Definition decode_unknown (t wire_type : Z) (range_start : Z) (iter : pb_field_iter_t)
  : M dstate (Z * pb_field_iter_t) :=
  '(handled, range_start, iter) ←
    (if range_start <=? t then
       '(found, iter) ← find_extension_field iter ;
       f ← cur iter ;
       let range_start := if found : bool then tag f else u32 (-1) in
       if range_start <=? t then
         before ← bytes_left ;
         decode_extension t wire_type iter ;;
         after ← bytes_left ;
         ret (negb (before =? after), range_start, iter)
       else ret (false, range_start, iter)
     else ret (false, range_start, iter)) ;
  (if handled : bool then ret tt else pb_skip_field wire_type) ;;
  ret (range_start, iter).

(** One round of the main loop. *)
Definition decode_round (fields : list pb_field_t) (l : locals) : M dstate (locals + locals) :=
  left ← bytes_left ;
  if left =? 0 then ret (inr l)
  else
    '(ok, wire_type, t, eof) ← pb_decode_tag ;
    if negb ok then (if eof : bool then ret (inr l) else fail)
    else
      '(found, iter) ← pb_field_iter_find (the_iter l) t ;
      if negb found then
        '(range_start, iter) ← decode_unknown t wire_type (extension_range_start l) iter ;
        ret (inl (Locals (fields_seen l) range_start iter (fixed_count_field l)))
      else
        f ← cur iter ;
        '(iter, fixed) ←
          (if (PB_HTYPE (type f) =? PB_HTYPE_REPEATED) && size_is_data iter then
             fixed ←
               (if negb (bool_decide (fixed_count_field l = Some (pos iter))) then
                  check_fixed_count fields (fixed_count_field l) ;;
                  modify (set_d_fixed 0) ;;
                  ret (Some (pos iter))
                else ret (fixed_count_field l)) ;
             ret (Iter (start iter) (pos iter) (required_field_index iter)
                    (dest_struct iter) (pData iter) PLocal, fixed)
           else ret (iter, fixed_count_field l)) ;
        let r := required_field_index iter in
        let seen :=
          if (PB_HTYPE (type f) =? PB_HTYPE_REQUIRED) && (r <? PB_MAX_REQUIRED_FIELDS)
          then alter (fun w => Z.lor w (u32 (Z.shiftl 1 (Z.land r 31))))
                 (Z.to_nat (Z.shiftr r 5)) (fields_seen l)
          else fields_seen l in
        iter ← decode_field wire_type iter ;
        ret (inl (Locals seen (extension_range_start l) iter fixed)).

(** The number of required fields, found by walking to the end. *)
Definition count_required (iter : pb_field_iter_t) : M dstate Z :=
  loop (S (length (start iter))) (fun it =>
    f ← cur it ;
    let req_field_count := required_field_index it in
    '(more, it') ← pb_field_iter_next it ;
    if more : bool then ret (inl it')
    else
      f' ← cur it' ;
      ret (inr (if (PB_HTYPE (type f) =? PB_HTYPE_REQUIRED) && negb (tag f' =? 0)
                then u32 (req_field_count + 1) else req_field_count))) iter.

(** The final check of [fields_seen]. *)
Definition all_required_seen (seen : list Z) (req_field_count : Z) : bool :=
  let allbits := u32 (Z.lnot 0) in
  let req := Z.min req_field_count PB_MAX_REQUIRED_FIELDS in
  if 0 <? req then
    forallb (fun w => w =? allbits) (take (Z.to_nat (Z.shiftr req 5)) seen) &&
    (if negb (Z.land req 31 =? 0) then
       match seen !! Z.to_nat (Z.shiftr req 5) with
       | Some w => w =? Z.shiftr allbits (32 - Z.land req 31)
       | None => false
       end
     else true)
  else true.

Definition decode_noinit_body (fields : list pb_field_t) (dest_struct : Z) : M dstate unit :=
  '(_, iter) ← pb_field_iter_begin fields dest_struct ;
  l ← byte_loop (decode_round fields) (Locals [0; 0] 0 iter None) ;
  check_fixed_count fields (fixed_count_field l) ;;
  req ← count_required (the_iter l) ;
  if all_required_seen (fields_seen l) req then ret tt
  else PB_RETURN_ERROR "missing required field".

(** Every activation has its own [fixed_count_size]. *)
Definition own_fixed {A} (m : M dstate A) : M dstate A := fun s =>
  match m (set_d_fixed 0 s) with
  | Ok a s' => Ok a (set_d_fixed (d_fixed s) s')
  | Fail s' => Fail (set_d_fixed (d_fixed s) s')
  | Ub => Ub
  | Timeout => Timeout
  end.
End Rec.

Fixpoint pb_decode_noinit (fuel : nat) (fields : list pb_field_t) (dest_struct : Z)
  : M dstate unit :=
  match fuel with
  | O => timeout
  | S fuel' => own_fixed (decode_noinit_body (pb_decode_noinit fuel') fuel' fields dest_struct)
  end.

Definition pb_decode (fuel : nat) (fields : list pb_field_t) (dest_struct : Z) : M dstate unit :=
  decode_over (pb_decode_noinit fuel) fuel fields dest_struct.

Definition pb_decode_delimited_noinit (fuel : nat) (fields : list pb_field_t) (dest_struct : Z)
  : M dstate unit :=
  substream ← pb_make_string_substream ;
  '(st, substream) ← on_istream substream (pb_decode_noinit fuel fields dest_struct) ;
  pb_close_string_substream substream ;;
  match st with Some _ => ret tt | None => fail end.

Definition pb_decode_delimited (fuel : nat) (fields : list pb_field_t) (dest_struct : Z)
  : M dstate unit :=
  substream ← pb_make_string_substream ;
  '(st, substream) ← on_istream substream (pb_decode fuel fields dest_struct) ;
  pb_close_string_substream substream ;;
  match st with Some _ => ret tt | None => fail end.

Definition pb_decode_nullterminated (fuel : nat) (fields : list pb_field_t) (dest_struct : Z)
  : M dstate unit :=
  pb_decode fuel fields dest_struct.
End Decode.
