(* ===== verification/IterLogic.v ===== *)
(** * The field iterator on a descriptor array

    [places fields base] lists the fields of a structure at [base] with their
    addresses, in order.  An iterator is always at one of them, moving on goes
    round in a circle, and a search stops after one turn. *)
From S2P Require Import Prelude Mem Comp Pb PbEnv PbCommon OStream WireSpec.

(** The fields with their addresses; an iterator over an empty message stands
    on the terminator. *)
Definition places (fields : list pb_field_t) (base : Z) : list (pb_field_t * Z) :=
  match fields with
  | f :: _ => if tag f =? 0 then [(f, base + data_offset f)] else addrs fields base
  | [] => []
  end.

(** Members of one union have their [which] member in the same place. *)
Fixpoint unions_ok (fields : list pb_field_t) : Prop :=
  match fields with
  | f :: (f' :: _) as rest =>
      ((PB_HTYPE (type f) = PB_HTYPE_ONEOF -> PB_HTYPE (type f') = PB_HTYPE_ONEOF ->
        data_offset f' = PB_SIZE_MAX -> size_offset f' = size_offset f) /\ unions_ok rest)
  | _ => True
  end.

(** The iterator is at the [k]th place. *)
Record iter_at (fields : list pb_field_t) (base : Z) (k : nat) (it : pb_field_iter_t)
    (f : pb_field_t) (p : Z) : Prop := {
  ia_start : start it = fields;
  ia_pos : pos it = k;
  ia_dest : dest_struct it = base;
  ia_place : places fields base !! k = Some (f, p);
  ia_data : pData it = p;
}.

(** Its size pointer is the one of the field, or the decoder's own counter. *)
Definition size_at (it : pb_field_iter_t) (f : pb_field_t) (p : Z) : Prop :=
  pSize it = PMem (p + size_offset f) \/
  (pSize it = PLocal /\ PB_HTYPE (type f) = PB_HTYPE_REPEATED /\ size_offset f = 0).

Section Walk.
Context {fields : list pb_field_t} {base : Z}.

Lemma addrs_from_length f p rest : (length (addrs_from f p rest) <= length rest)%nat.
Proof.
  revert f p. induction rest as [|f' rest IH]; intros f p; simpl; [lia|].
  case_if; simpl; [lia|]. specialize (IH f' (next_data f p f')). lia.
Qed.

Lemma places_length : (length (places fields base) <= length fields)%nat.
Proof.
  destruct fields as [|f rest]; simpl; [lia|]. case_if; simpl; [lia|].
  pose proof (addrs_from_length f (base + data_offset f) rest). lia.
Qed.

(** What follows a place: the next descriptor, and its place unless it is the
    terminator. *)
Lemma addrs_from_next f0 p0 rest k f p :
  terminated rest -> tag f0 <> 0 -> ((f0, p0) :: addrs_from f0 p0 rest) !! k = Some (f, p) ->
  (f0 :: rest) !! k = Some f /\ tag f <> 0 /\
  exists f', rest !! k = Some f' /\
    if tag f' =? 0 then length (addrs_from f0 p0 rest) = k
    else addrs_from f0 p0 rest !! k = Some (f', next_data f p f').
Proof.
  revert f0 p0 k. induction rest as [|f1 rest IH]; intros f0 p0 k Ht H0 Hk; [by inversion Ht|].
  destruct k as [|k]; simpl in Hk.
  - simplify_eq. split_and!; [done..|]. exists f1. split; [done|]. simpl. by case_if.
  - cbn [addrs_from] in *. case_if; [done|]. zify_bool. cbv zeta in *.
    assert (terminated rest) as Ht' by (inversion Ht; [lia|done]).
    destruct (IH f1 (next_data f0 p0 f1) k Ht' ltac:(lia) Hk) as (H1 & H1' & f' & H2 & H3).
    split_and!; [done..|]. exists f'. split; [done|]. simpl. case_if; [by rewrite H3|done].
Qed.

Context (Ht : terminated fields) (Hu : unions_ok fields).

Lemma places_nonempty : (0 < length (places fields base))%nat.
Proof. destruct fields; [by inversion Ht|]. simpl. case_if; simpl; lia. Qed.

Lemma place_inv k f p :
  places fields base !! k = Some (f, p) ->
  fields !! k = Some f /\
  ((tag f = 0 /\ k = 0%nat /\ length (places fields base) = 1%nat) \/
   (tag f <> 0 /\ exists f', fields !! S k = Some f' /\
      if tag f' =? 0 then S k = length (places fields base)
      else places fields base !! S k = Some (f', next_data f p f'))).
Proof.
  destruct fields as [|f0 rest]; [done|]. unfold places, addrs. case_if; intros Hk.
  - zify_bool. destruct k; simplify_eq/=. split; [done|left]. done.
  - zify_bool. apply addrs_from_next in Hk as (H1 & H2 & f' & H3 & H4); [|inversion Ht; [lia|done]|lia].
    split; [done|right]. split; [done|]. exists f'. split; [done|].
    case_if; [by rewrite <- H4|done].
Qed.

Lemma place_lt k f p : places fields base !! k = Some (f, p) -> (k < length (places fields base))%nat.
Proof. apply lookup_lt_Some. Qed.

Lemma union_next k f f' :
  fields !! k = Some f -> fields !! S k = Some f' ->
  PB_HTYPE (type f) = PB_HTYPE_ONEOF -> PB_HTYPE (type f') = PB_HTYPE_ONEOF ->
  data_offset f' = PB_SIZE_MAX -> size_offset f' = size_offset f.
Proof.
  clear Ht. revert k Hu. induction fields as [|f0 rest IH]; intros k Hu Hk Hk'; [done|].
  destruct rest as [|f1 rest]; [by destruct k|]. destruct Hu as [H1 H2].
  destruct k as [|k]; [by simplify_eq/=|]. by apply (IH k).
Qed.

Lemma iter_at_cur {S} k it f p (s : S) :
  iter_at fields base k it f p -> cur it s = Ok f s.
Proof.
  intros [E1 E2 E3 [Hp _]%place_inv E5]. unfold cur. by rewrite E1, E2, Hp.
Qed.

Lemma iter_begin_at {S} (s : S) :
  exists it f p, pb_field_iter_begin fields base s = Ok (negb (tag f =? 0), it) s /\
    iter_at fields base 0 it f p /\ size_at it f p /\ required_field_index it = 0.
Proof.
  destruct fields as [|f rest] eqn:E; [by inversion Ht|].
  exists (Iter (f :: rest) 0 0 base (base + data_offset f)
    (PMem (base + data_offset f + size_offset f))), f, (base + data_offset f).
  split; [done|]. split; [|split; [by left|done]]. split; simpl; try done.
  by case_if.
Qed.

Definition next_pos (k : nat) : nat :=
  if Nat.eqb (S k) (length (places fields base)) then 0%nat else S k.

(** [pb_field_iter_next] goes to the next place and back to the first one
    after the last; it returns true exactly when it has not wrapped. *)
Lemma iter_next_at {S} k it f p (s : S) :
  iter_at fields base k it f p -> size_at it f p ->
  exists it' f' p', pb_field_iter_next it s =
      Ok (negb (Nat.eqb (Datatypes.S k) (length (places fields base))), it') s /\
    iter_at fields base (next_pos k) it' f' p' /\ size_at it' f' p'.
Proof.
  intros Hi Hs. unfold pb_field_iter_next. rewrite (bind_ok _ _ _ _ _ (iter_at_cur _ _ _ _ s Hi)).
  destruct Hi as [E1 E2 E3 Hp E5]. unfold next_pos.
  pose proof (place_lt _ _ _ Hp) as Hlt.
  destruct (place_inv _ _ _ Hp) as [Hk [(E0 & -> & El)|(E0 & f' & Hk' & Hn)]].
  - rewrite El, E0. simpl. exists it, f, p. done.
  - destruct (Z.eqb_spec (tag f) 0); [done|]. cbv zeta.
    rewrite E1, E2, Hk'. simpl of_option. rewrite bind_ret.
    destruct (Z.eqb_spec (tag f') 0) as [Ef|Ef].
    + destruct (iter_begin_at s) as (it' & f2 & p2 & Hb & Hi' & Hs' & _).
      exists it', f2, p2. rewrite E3, (bind_ok _ _ _ _ _ Hb), Hn, Nat.eqb_refl. done.
    + destruct (Nat.eqb_spec (Datatypes.S k) (length (places fields base))) as [El|El].
      { apply place_lt in Hn. lia. }
      set (c := (PB_HTYPE (type f) =? PB_HTYPE_ONEOF) && (PB_HTYPE (type f') =? PB_HTYPE_ONEOF) &&
        (data_offset f' =? PB_SIZE_MAX)) in *.
      assert (c = true -> size_offset f' = size_offset f /\ PB_HTYPE (type f) = PB_HTYPE_ONEOF) as Hc.
      { unfold c. intros Hc. zify_bool. split; [|tauto]. apply (union_next k); tauto. }
      destruct c eqn:Ec; eexists _, f', (next_data f p f'); (split; [done|]).
      all: unfold next_data in *; fold c in Hn; fold c; rewrite Ec in *.
      * split; [by split|]. destruct (Hc eq_refl) as [Hso Hh].
        destruct Hs as [Hs|(_ & Hs & _)]; [|by rewrite Hs in Hh].
        left. simpl. by rewrite Hso.
      * split; [split; simpl; try done; by rewrite E5|]. left. simpl. by rewrite E5.
Qed.

(** ** Searching *)

#[local] Abbreviation N := (length (places fields base)).

Lemma next_pos_mod k : (k < N)%nat -> next_pos k = (S k mod N)%nat.
Proof.
  unfold next_pos. intros Hk. destruct (Nat.eqb_spec (S k) N) as [->|].
  - by rewrite Nat.Div0.mod_same.
  - rewrite Nat.mod_small; lia.
Qed.

Definition fails_at (P : pb_field_t -> bool) (k : nat) : Prop :=
  forall f p, places fields base !! k = Some (f, p) -> P f = false.

(** The loop of [pb_field_iter_find] and [find_extension_field]: one turn
    from the current place, until [P] holds. *)
Definition search {S} (P : pb_field_t -> bool) (start_pos : nat) (it : pb_field_iter_t)
  : M S (pb_field_iter_t + (bool * pb_field_iter_t)) :=
  f ← cur it ;
  if P f then ret (inr (true, it))
  else
    '(_, it') ← pb_field_iter_next it ;
    if Nat.eqb (pos it') start_pos then ret (inr (false, it')) else ret (inl it').

Lemma search_from {S} P k0 (s : S) r j it f p fuel :
  (k0 < N)%nat -> (r + j = N)%nat -> (0 < r <= fuel)%nat ->
  iter_at fields base ((k0 + j) mod N) it f p -> size_at it f p ->
  (forall i, (i < j)%nat -> fails_at P ((k0 + i) mod N)) ->
  exists b it' k f' p', loop fuel (search P k0) it s = Ok (b, it') s /\
    iter_at fields base k it' f' p' /\ size_at it' f' p' /\
    (if b then P f' = true else k = k0 /\ forall i, (i < N)%nat -> fails_at P ((k0 + i) mod N)).
Proof.
  intros Hk0. revert j it f p fuel. induction r as [|r IH]; intros j it f p fuel Hj Hf Hi Hs Hno; [lia|].
  destruct fuel as [|fuel]; [lia|]. cbn [loop].
  pose proof (place_lt _ _ _ (ia_place _ _ _ _ _ _ Hi)) as Hlt.
  unfold search at 1. rewrite bind_assoc, (bind_ok _ _ _ _ _ (iter_at_cur _ _ _ _ s Hi)).
  destruct (P f) eqn:EP.
  - exists true, it, ((k0 + j) mod N)%nat, f, p. done.
  - assert (forall i, (i < Datatypes.S j)%nat -> fails_at P ((k0 + i) mod N)) as Hno'.
    { intros i Hi'. destruct (decide (i = j)) as [->|]; [|apply Hno; lia].
      intros f' p' Hp. rewrite (ia_place _ _ _ _ _ _ Hi) in Hp. by simplify_eq. }
    destruct (iter_next_at _ _ _ _ s Hi Hs) as (it' & f' & p' & Hn & Hi' & Hs').
    rewrite bind_assoc, (bind_ok _ _ _ _ _ Hn), (ia_pos _ _ _ _ _ _ Hi').
    assert (next_pos ((k0 + j) mod N) = ((k0 + Datatypes.S j) mod N)%nat) as E.
    { rewrite next_pos_mod by lia. rewrite <- Nat.add_1_r, Nat.Div0.add_mod_idemp_l. f_equal. lia. }
    rewrite E in *.
    destruct (decide (r = 0%nat)) as [->|Hr].
    + assert (((k0 + Datatypes.S j) mod N)%nat = k0) as E0.
      { replace (k0 + Datatypes.S j)%nat with (k0 + 1 * N)%nat by lia.
        rewrite Nat.Div0.mod_add. by apply Nat.mod_small. }
      rewrite E0, Nat.eqb_refl in *. rewrite bind_ret.
      exists false, it', k0, f', p'. split_and!; try done.
      intros i Hin. apply Hno'. lia.
    + destruct (Nat.eqb_spec ((k0 + Datatypes.S j) mod N) k0) as [E0|E0].
      * exfalso. destruct (decide (k0 + Datatypes.S j < N)%nat).
        -- rewrite Nat.mod_small in E0; lia.
        -- replace (k0 + Datatypes.S j)%nat with ((k0 + Datatypes.S j - N) + 1 * N)%nat in E0 by lia.
           rewrite Nat.Div0.mod_add, Nat.mod_small in E0; lia.
      * rewrite bind_ret. eapply (IH (Datatypes.S j)); [lia|lia|exact Hi'|exact Hs'|exact Hno'].
Qed.

Lemma search_spec {S} P k it f p (s : S) :
  iter_at fields base k it f p -> size_at it f p ->
  exists b it' k' f' p', loop (Datatypes.S (length (start it))) (search P (pos it)) it s = Ok (b, it') s /\
    iter_at fields base k' it' f' p' /\ size_at it' f' p' /\
    (if b then P f' = true else k' = k /\ forall f'' p'', In (f'', p'') (places fields base) -> P f'' = false).
Proof.
  intros Hi Hs. pose proof (place_lt _ _ _ (ia_place _ _ _ _ _ _ Hi)) as Hlt.
  rewrite (ia_start _ _ _ _ _ _ Hi), (ia_pos _ _ _ _ _ _ Hi). pose proof places_length.
  destruct (search_from P k s N 0 it f p (Datatypes.S (length fields))) as (b & it' & k' & f' & p' & E & Hi' & Hs' & Hb);
    [done|lia|lia| |exact Hs|intros; lia|].
  { rewrite Nat.add_0_r, Nat.mod_small by done. exact Hi. }
  exists b, it', k', f', p'. split_and!; [done..|]. destruct b; [done|].
  destruct Hb as [-> Hb]. split; [done|]. intros f'' p'' Hin.
  apply list_elem_of_In, list_elem_of_lookup in Hin as [i Hin].
  pose proof (place_lt _ _ _ Hin).
  apply (Hb ((i + N - k) mod N)%nat ltac:(apply Nat.mod_upper_bound; lia) f'' p'').
  rewrite Nat.Div0.add_mod_idemp_r.
  replace (k + (i + N - k))%nat with (i + 1 * N)%nat by lia.
  by rewrite Nat.Div0.mod_add, Nat.mod_small.
Qed.

(** [pb_field_iter_find] finds a field with the tag exactly when the message
    has one, from whatever field it starts. *)
Lemma iter_find_at {S} k it f p t (s : S) :
  iter_at fields base k it f p -> size_at it f p ->
  exists b it' k' f' p', pb_field_iter_find it t s = Ok (b, it') s /\
    iter_at fields base k' it' f' p' /\ size_at it' f' p' /\
    (if b then tag f' = t /\ PB_LTYPE (type f') <> PB_LTYPE_EXTENSION
     else k' = k /\ forall f'' p'', In (f'', p'') (places fields base) ->
       tag f'' = t -> PB_LTYPE (type f'') = PB_LTYPE_EXTENSION).
Proof.
  intros Hi Hs.
  destruct (search_spec (fun f => (tag f =? t) && negb (PB_LTYPE (type f) =? PB_LTYPE_EXTENSION))
    k it f p s Hi Hs) as (b & it' & k' & f' & p' & E & Hi' & Hs' & Hb).
  exists b, it', k', f', p'. split; [exact E|]. split_and!; [done..|].
  destruct b.
  - apply andb_true_iff in Hb as [H1 H2]. zify_bool. done.
  - destruct Hb as [-> Hb]. split; [done|]. intros f'' p'' Hin <-.
    specialize (Hb _ _ Hin). rewrite Z.eqb_refl in Hb. simpl in Hb. by zify_bool.
Qed.
End Walk.
