(* ===== verification/DecodeLogic.v ===== *)
(** * A logic of safe decoding

    [runs R D strict s m Q]: run on [s], the computation [m] ends without
    undefined behaviour and within its fuel; it reads no further than the
    input, writes only cells of the region [R], leaves no cell uninitialised
    that was initialised before, and if it succeeds the stream has moved
    forward consistently and the result satisfies [Q].  When [strict], the
    stream is also consistent after a failure.  [D] is constant data. *)
From S2P Require Import Prelude Mem Comp Varint Pb PbEnv PbCommon OStream WireSpec IStream StreamLogic PbDecode IterLogic.

Section Logic.
Context (R D : Z -> Prop).

Definition readable (m : mem) (a : Z) : Prop := is_Some (load_byte m a).

(** The whole range belongs to the region. *)
Definition within (p n : Z) : Prop := forall i, 0 <= i < n -> R (p + i).

Record memory_ok (m : mem) : Prop := {
  mo_region a : R a -> readable m a;
  mo_data a : D a -> readable m a /\ ~ R a;
}.

Record input_ok (i : pb_istream_t) (m : mem) : Prop := {
  io_callback : i_callback i = IBuf;
  io_left : 0 <= i_bytes_left i < 2 ^ 64;
  io_readable k : 0 <= k < i_bytes_left i -> readable m (i_state i + k) /\ ~ R (i_state i + k);
}.

Record good (s : dstate) : Prop := {
  g_input : input_ok (d_stream s) (d_mem s);
  g_mem : memory_ok (d_mem s);
}.

(** What may happen to the memory, and to the stream. *)
Record mstep (m m' : mem) : Prop := {
  ms_cells a : ~ R a -> m_cells m' !! a = m_cells m !! a;
  ms_readable a : readable m a -> readable m' a;
  ms_heap : m_heap m' = m_heap m;
}.

Record istep (i i' : pb_istream_t) : Prop := {
  is_callback : i_callback i' = i_callback i;
  is_left : 0 <= i_bytes_left i' <= i_bytes_left i;
  is_state : i_state i' + i_bytes_left i' = i_state i + i_bytes_left i;
}.

Definition step (s s' : dstate) : Prop :=
  istep (d_stream s) (d_stream s') /\ mstep (d_mem s) (d_mem s').

(** After a failure only the memory is known to be consistent. *)
Definition fstep (s s' : dstate) : Prop :=
  i_callback (d_stream s') = i_callback (d_stream s) /\ mstep (d_mem s) (d_mem s').

Definition runs (strict : bool) {A} (s : dstate) (m : M dstate A) (Q : A -> dstate -> Prop) : Prop :=
  match m s with
  | Ok a s' => step s s' /\ Q a s'
  | Fail s' => if strict then step s s' else fstep s s'
  | Ub | Timeout => False
  end.

(** ** The steps are preorders *)

Lemma mstep_refl m : mstep m m.
Proof. by split. Qed.

Lemma mstep_trans m1 m2 m3 : mstep m1 m2 -> mstep m2 m3 -> mstep m1 m3.
Proof.
  intros [A1 B1 C1] [A2 B2 C2]. split; [|auto|congruence].
  intros a Ha. by rewrite A2, A1.
Qed.

Lemma istep_trans i1 i2 i3 : istep i1 i2 -> istep i2 i3 -> istep i1 i3.
Proof. intros [A1 B1 C1] [A2 B2 C2]. split; [congruence|lia|lia]. Qed.

Lemma step_refl s : 0 <= i_bytes_left (d_stream s) -> step s s.
Proof. split; [by split; try lia|apply mstep_refl]. Qed.

Lemma good_step_refl s : good s -> step s s.
Proof. intros Hg. apply step_refl, Hg. Qed.

Lemma step_trans s1 s2 s3 : step s1 s2 -> step s2 s3 -> step s1 s3.
Proof. intros [? ?] [? ?]. split; [by eapply istep_trans|by eapply mstep_trans]. Qed.

Lemma step_fstep s1 s2 s3 : step s1 s2 -> fstep s2 s3 -> fstep s1 s3.
Proof. intros [[? ? ?] ?] [? ?]. split; [congruence|by eapply mstep_trans]. Qed.

Lemma memory_ok_mstep m m' : memory_ok m -> mstep m m' -> memory_ok m'.
Proof.
  intros [A B] [C E F]. split; [auto|]. intros a Ha. destruct (B a Ha). auto.
Qed.

Lemma input_ok_istep i i' m m' : input_ok i m -> istep i i' -> mstep m m' -> input_ok i' m'.
Proof.
  intros [A B C] [E F G] [H I J]. split; [congruence|lia|].
  intros k Hk. replace (i_state i' + k) with (i_state i + (i_state i' - i_state i + k)) by lia.
  destruct (C (i_state i' - i_state i + k)); [lia|auto].
Qed.

Lemma good_step s s' : good s -> step s s' -> good s'.
Proof.
  intros [A B] [C E]. split; [by eapply input_ok_istep|by eapply memory_ok_mstep].
Qed.

(** ** Rules *)

Context {strict : bool}.

Lemma step_fail s s' : step s s' -> if strict then step s s' else fstep s s'.
Proof. destruct strict; [done|]. intros [[? ? ?] ?]. by split. Qed.

Lemma runs_ret {A} s (a : A) Q : good s -> Q a s -> runs strict s (ret a) Q.
Proof. intros Hg HQ. split; [by apply good_step_refl|done]. Qed.

Lemma runs_conseq {A} s (m : M dstate A) (Q Q' : A -> dstate -> Prop) :
  runs strict s m Q -> (forall a s', step s s' -> Q a s' -> Q' a s') -> runs strict s m Q'.
Proof. unfold runs. destruct (m s); try done. intros [? ?] HQ. auto. Qed.

Lemma runs_bind {A B} s (m : M dstate A) (k : A -> M dstate B) Q Q' :
  good s -> runs strict s m Q ->
  (forall a s', good s' -> step s s' -> Q a s' -> runs strict s' (k a) Q') ->
  runs strict s (bind m k) Q'.
Proof.
  unfold runs, bind. intros Hg. destruct (m s) as [a s1|s1| |]; try done.
  intros [Hs HQ] Hk. specialize (Hk a s1 (good_step _ _ Hg Hs) Hs HQ).
  destruct (k a s1) as [b s2|s2| |]; try done.
  - destruct Hk as [? ?]. split; [by eapply step_trans|done].
  - destruct strict; [by eapply step_trans|by eapply step_fstep].
Qed.

(** When the first part is known to leave the state alone. *)
Lemma runs_pure {A B} s (m : M dstate A) (k : A -> M dstate B) a Q :
  m s = Ok a s -> runs strict s (k a) Q -> runs strict s (bind m k) Q.
Proof. unfold runs, bind. by intros ->. Qed.

Lemma runs_fail {A} s (Q : A -> dstate -> Prop) : good s -> runs strict s fail Q.
Proof. intros Hg. unfold runs, fail. by apply step_fail, good_step_refl. Qed.

Lemma runs_check s b (Q : unit -> dstate -> Prop) :
  good s -> (b = true -> Q tt s) -> runs strict s (check b) Q.
Proof. intros Hg HQ. destruct b; [by apply runs_ret; auto|by apply runs_fail]. Qed.

Lemma runs_set_error s msg : good s ->
  runs strict s (PB_SET_ERROR msg) (fun _ s' => i_bytes_left (d_stream s') = i_bytes_left (d_stream s)).
Proof.
  intros Hg. pose proof (io_left _ _ (g_input _ Hg)). split; [|done].
  split; [split; simpl; done || lia|apply mstep_refl].
Qed.

Lemma runs_error {A} s msg (Q : A -> dstate -> Prop) : good s -> runs strict s (PB_RETURN_ERROR msg) Q.
Proof.
  intros Hg. unfold PB_RETURN_ERROR. eapply runs_bind; [done|by apply runs_set_error|].
  intros _ s' Hg' _ _. by apply runs_fail.
Qed.

(** A loop whose body makes some measure smaller or leaves. *)
Lemma runs_loop {X A} (Inv : X -> dstate -> Prop) (meas : X -> dstate -> Z) fuel
    (body : X -> M dstate (X + A)) x s Q :
  good s -> Inv x s -> meas x s < Z.of_nat fuel ->
  (forall x s, good s -> Inv x s -> 0 <= meas x s /\
     runs strict s (body x) (fun r s' =>
       match r with
       | inl x' => Inv x' s' /\ meas x' s' < meas x s
       | inr a => Q a s'
       end)) ->
  runs strict s (loop fuel body x) Q.
Proof.
  intros Hg Hi Hm Hb. revert x s Hg Hi Hm. induction fuel as [|fuel IH]; intros x s Hg Hi Hm.
  - destruct (Hb x s Hg Hi). simpl in Hm. lia.
  - cbn [loop]. destruct (Hb x s Hg Hi) as [H0 Hr].
    eapply runs_bind; [done|exact Hr|]. intros [x'|a] s' Hg' Hs HQ.
    + destruct HQ. apply IH; [done..|lia].
    + by apply runs_ret.
Qed.

(** A loop every round of which consumes input or leaves. *)
Lemma runs_byte_loop {X A} (Inv : X -> dstate -> Prop)
    (body : X -> M dstate (X + A)) x s Q :
  good s -> Inv x s ->
  (forall x s, good s -> Inv x s ->
     runs strict s (body x) (fun r s' =>
       match r with
       | inl x' => Inv x' s' /\ i_bytes_left (d_stream s') < i_bytes_left (d_stream s)
       | inr a => Q a s'
       end)) ->
  runs strict s (byte_loop body x) Q.
Proof.
  intros Hg Hi Hb. unfold byte_loop, bytes_left, gets. eapply runs_pure; [done|].
  pose proof (io_left _ _ (g_input _ Hg)).
  apply (runs_loop Inv (fun _ s => i_bytes_left (d_stream s))); [done|done|lia|].
  intros x' s' Hg' Hi'. pose proof (io_left _ _ (g_input _ Hg')). split; [lia|]. by apply Hb.
Qed.

Lemma runs_for {X} (Inv : X -> nat -> Prop) n (body : X -> M dstate X) x s :
  good s -> Inv x n ->
  (forall x k s, good s -> Inv x (S k) -> runs strict s (body x) (fun x' _ => Inv x' k)) ->
  runs strict s (for_n n body x) (fun _ _ => True).
Proof.
  intros Hg Hi Hb. revert x s Hg Hi. induction n as [|n IH]; intros x s Hg Hi.
  - by apply runs_ret.
  - cbn [for_n]. eapply runs_bind; [done|by apply Hb|]. intros x' s' Hg' _ Hi'. by apply IH.
Qed.

(** ** Memory *)

Lemma readable_put_bytes m d bs a : readable m a -> readable (put_bytes m d bs) a.
Proof.
  unfold readable. revert m d. induction bs as [|b bs IH]; intros m d Ha; simpl; [done|].
  apply IH. rewrite load_put_cell. case_decide; [by eexists|done].
Qed.

Lemma readable_mapped m a : readable m a -> is_Some (m_cells m !! a).
Proof. unfold readable, load_byte. destruct (m_cells m !! a); [by eexists|by intros []]. Qed.

Lemma within_le p n n' q : within p n -> p <= q -> q + n' <= p + n -> within q n'.
Proof. intros H ? ? i Hi. replace (q + i) with (p + (q - p + i)) by lia. apply H. lia. Qed.

Lemma within_mapped m p n : memory_ok m -> within p n -> mapped m p n.
Proof. intros Hm Hw i Hi. apply readable_mapped, Hm, Hw, Hi. Qed.

Lemma mstep_put_bytes m d bs : within d (Z.of_nat (length bs)) -> mstep m (put_bytes m d bs).
Proof.
  intros Hw. split; [|apply readable_put_bytes|apply put_bytes_heap].
  intros a Ha. apply cells_put_bytes_ne. intros Hr. apply Ha.
  replace a with (d + (a - d)) by lia. apply Hw. lia.
Qed.

Lemma load_readable m a n :
  (forall i, 0 <= i < Z.of_nat n -> readable m (a + i)) -> exists bs, load_bytes m a n = Some bs.
Proof. intros H. by apply load_bytes_Some. Qed.

Lemma runs_load_uint s p n (Q : Z -> dstate -> Prop) :
  good s -> within p (Z.of_nat n) ->
  (forall z, 0 <= z < 2 ^ (8 * Z.of_nat n) -> Q z s) ->
  runs strict s (load (fun m => load_uint m p n)) Q.
Proof.
  intros Hg Hw HQ. unfold runs, load. simpl.
  destruct (load_readable (d_mem s) p n) as [bs Hbs].
  { intros i Hi. apply Hg, Hw, Hi. }
  assert (exists z, load_uint (d_mem s) p n = Some z) as [z Hz] by (unfold load_uint; rewrite Hbs; by eexists).
  rewrite Hz. split; [by apply good_step_refl|]. apply HQ. by eapply load_uint_range.
Qed.

Lemma runs_st_bytes s p bs : good s -> within p (Z.of_nat (length bs)) ->
  runs strict s (st_bytes p bs) (fun _ s' => d_stream s' = d_stream s).
Proof.
  intros Hg Hw. unfold runs, st_bytes, mem_op. simpl.
  rewrite store_bytes_mapped by (apply within_mapped; [apply Hg|done]).
  split; [|done]. split; simpl; [apply good_step_refl, Hg|by apply mstep_put_bytes].
Qed.

Lemma runs_st_uint s p n z : good s -> within p (Z.of_nat n) ->
  runs strict s (st_uint n p z) (fun _ s' => d_stream s' = d_stream s).
Proof. intros Hg Hw. apply runs_st_bytes; [done|]. by rewrite length_le_split. Qed.

Lemma runs_memset0 s p n : good s -> within p n ->
  runs strict s (memset0 p n) (fun _ s' => d_stream s' = d_stream s).
Proof.
  intros Hg Hw. apply runs_st_bytes; [done|]. rewrite length_replicate.
  destruct (decide (0 <= n)); [by rewrite Z2Nat.id|]. intros i Hi. lia.
Qed.

(** Two ranges without a common address lie one behind the other. *)
Lemma ranges_apart a d n :
  (forall x, ~ (a <= x < a + n /\ d <= x < d + n)) -> n <= 0 \/ d + n <= a \/ a + n <= d.
Proof. intros H. specialize (H (Z.max a d)). lia. Qed.

Lemma runs_memcpy s dest source n :
  good s -> within dest n ->
  (forall i, 0 <= i < n -> readable (d_mem s) (source + i) /\ ~ R (source + i)) ->
  runs strict s (memcpy dest source n) (fun _ s' => d_stream s' = d_stream s).
Proof.
  intros Hg Hw Hr. unfold runs, memcpy, mem_op. simpl.
  destruct (load_readable (d_mem s) source (Z.to_nat n)) as [bs Hbs].
  { intros i Hi. apply Hr. lia. }
  destruct (ranges_apart source dest n) as [Hn|Hd].
  { intros x [H1 H2]. apply (Hr (x - source)); [lia|].
    replace (source + (x - source)) with (dest + (x - dest)) by lia. apply Hw. lia. }
  - replace (Z.to_nat n) with O by lia. simpl. split; [|done].
    destruct s. by apply good_step_refl.
  - pose proof (load_bytes_length _ _ _ _ Hbs) as Hl.
    destruct (decide (0 <= n)).
    2: { replace (Z.to_nat n) with O by lia. simpl. split; [|done]. destruct s. by apply good_step_refl. }
    rewrite (copy_loop_disjoint _ _ _ _ bs); [|done| |lia].
    + split; [|done]. split; simpl; [apply good_step_refl, Hg|].
      apply mstep_put_bytes. by rewrite Hl, Z2Nat.id.
    + rewrite Z2Nat.id by done. apply within_mapped; [apply Hg|done].
Qed.
End Logic.

(** A consistent stream after failures is more than is asked for otherwise. *)
Lemma runs_lax {R} strict {A} s (m : M dstate A) Q : runs R true s m Q -> runs R strict s m Q.
Proof. unfold runs. destruct (m s); try done. apply step_fail. Qed.

(** ** Streams *)

Section Streams.
Context {R D : Z -> Prop} `{PbEnv} {strict : bool}.

#[local] Abbreviation left s := (i_bytes_left (d_stream s)).

Lemma good_input s n :
  good R D s -> 0 <= n <= left s -> exists bs, Z.of_nat (length bs) = n /\ has_input s bs.
Proof.
  intros [[Hc Hl Hr] _] Hn.
  destruct (load_readable (d_mem s) (i_state (d_stream s)) (Z.to_nat n)) as [bs Hbs].
  { intros i Hi. apply Hr. lia. }
  pose proof (load_bytes_length _ _ _ _ Hbs). exists bs. split; [lia|].
  split; [done|lia|]. rewrite <- Hbs. f_equal. lia.
Qed.

Lemma step_advance s n : 0 <= n <= left s -> step R s (advance n s).
Proof. intros Hn. split; [|apply mstep_refl]. split; simpl; [done|lia|lia]. Qed.

Lemma runs_reads {A} s bs (m : M dstate A) a (Q : A -> dstate -> Prop) :
  has_input s bs -> reads bs m a -> Q a (advance (Z.of_nat (length bs)) s) -> runs R strict s m Q.
Proof.
  intros Hs Hr HQ. unfold runs. rewrite (Hr s Hs). split; [|done].
  apply step_advance. destruct Hs. lia.
Qed.

Lemma runs_readbyte s :
  good R D s -> runs R strict s pb_readbyte (fun b s' => 0 <= b < 256 /\ left s' = left s - 1).
Proof.
  intros Hg. destruct (decide (left s = 0)) as [E|E].
  - unfold runs. rewrite (readbyte_eof s E). apply step_fail.
    destruct (good_step_refl _ _ _ Hg) as [[? ? ?] ?]. split; [by split|done].
  - pose proof (io_left _ _ _ (g_input _ _ _ Hg)).
    destruct (good_input s 1 Hg ltac:(lia)) as (bs & Hl & Hs).
    destruct bs as [|b [|]]; [done| |simpl in Hl; lia].
    eapply runs_reads; [exact Hs|apply reads_readbyte|]. split; [apply byte_val_range|done].
Qed.

(** For callers that go on after the failure. *)
Lemma runs_attempt {A} s (m : M dstate A) Q :
  runs R true s m Q ->
  runs R strict s (attempt m) (fun r s' => match r with Some a => Q a s' | None => True end).
Proof. unfold runs, attempt. destruct (m s); try done. Qed.

Lemma runs_status s (m : M dstate unit) (Q : dstate -> Prop) :
  runs R true s m (fun _ s' => Q s') ->
  runs R strict s (status m) (fun ok s' => ok = true -> Q s').
Proof. unfold runs, status. destruct (m s); try done. intros [? ?]. by split. Qed.

(** [pb_read] into [a], into a local array, or skipping. *)
Definition target_ok (buf : rdst) (n : Z) : Prop :=
  match buf with RMem a => within R a n | _ => True end.

Lemma target_ok_rmem a n : within R a n -> target_ok (rmem a) n.
Proof. intros Hw. unfold rmem. by destruct (a =? NULL). Qed.

Lemma runs_pb_read s buf n :
  good R D s -> 0 <= n -> target_ok buf n ->
  runs R strict s (pb_read buf n) (fun bs s' => left s' = left s - n /\
    (buf = RLocal -> Z.of_nat (length bs) = n)).
Proof.
  intros Hg Hn Ht. pose proof (io_callback _ _ _ (g_input _ _ _ Hg)) as Hc.
  pose proof (io_left _ _ _ (g_input _ _ _ Hg)) as Hl.
  destruct (decide (n <= left s)) as [Hle|Hlt].
  - destruct buf as [|a|].
    + unfold runs. rewrite skip_exact by (done || lia). split; [apply step_advance; lia|done].
    + unfold pb_read, istream, gets. eapply runs_pure; [done|]. simpl.
      unfold pb_read_direct, bytes_left, gets. eapply runs_pure; [done|].
      destruct (Z.ltb_spec (left s) n); [lia|].
      pose proof (runs_memcpy R D s a (i_state (d_stream s)) n (strict := strict) Hg Ht) as Hm.
      unfold runs in Hm |- *.
      unfold istream_callback, istream, buf_read, upd_istream, modify, gets, bind. rewrite Hc. simpl.
      unfold memcpy, mem_op in *. simpl in *.
      destruct (copy_loop (d_mem s) a (i_state (d_stream s)) (Z.to_nat n)) as [m|].
      * simpl in *. destruct Hm as [[_ Hm] _].
        { intros i Hi. apply (io_readable _ _ _ (g_input _ _ _ Hg)). lia. }
        split; [split|]; simpl.
        -- rewrite u64_id by lia. split; simpl; [done|lia|lia].
        -- exact Hm.
        -- by rewrite u64_id by lia.
      * apply Hm. intros i Hi. apply (io_readable _ _ _ (g_input _ _ _ Hg)). lia.
    + destruct (good_input s n Hg ltac:(lia)) as (bs & <- & Hs).
      eapply runs_reads; [exact Hs|by apply reads_pb_read|]. done.
  - assert (pb_read buf n s = PB_RETURN_ERROR (A := list byte) "end-of-stream" s) as E.
    { unfold pb_read, istream, gets. unfold bind at 1. rewrite Hc. rewrite bool_decide_true by done.
      rewrite andb_false_r. unfold pb_read_direct, bytes_left, gets. unfold bind at 1.
      by destruct (Z.ltb_spec (left s) n); [|lia]. }
    pose proof (runs_error R D s "end-of-stream" (fun (bs : list byte) s' => left s' = left s - n /\ (buf = RLocal -> Z.of_nat (length bs) = n))
      (strict := strict) Hg) as Hr.
    unfold runs in *. rewrite E. exact Hr.
Qed.
End Streams.

(** ** The decoder is safe on every input

    For statically allocated messages, whatever bytes the stream holds: no
    undefined behaviour, no endless loop, no byte read beyond the stream and no
    byte written outside the message. *)

Lemma lor_range a b n : 0 <= n -> 0 <= a < 2 ^ n -> 0 <= b < 2 ^ n -> 0 <= Z.lor a b < 2 ^ n.
Proof.
  intros Hn Ha Hb. split; [apply Z.lor_nonneg; lia|].
  destruct (Z.eq_dec (Z.lor a b) 0) as [->|Hne]; [apply Z.pow_pos_nonneg; lia|].
  apply Z.log2_lt_pow2; [pose proof (Z.lor_nonneg a b); lia|].
  rewrite Z.log2_lor by lia.
  assert (forall x, 0 <= x < 2 ^ n -> x <> 0 -> Z.log2 x < n) as Hx.
  { intros x Hx Hx0. apply Z.log2_lt_pow2; lia. }
  destruct (Z.eq_dec a 0) as [->|Ha0], (Z.eq_dec b 0) as [->|Hb0]; simpl in *; try done.
  - specialize (Hx b Hb Hb0). pose proof (Z.log2_nonneg b). change (Z.log2 0) with 0. lia.
  - specialize (Hx a Ha Ha0). pose proof (Z.log2_nonneg a). change (Z.log2 0) with 0. lia.
  - pose proof (Hx a Ha Ha0). pose proof (Hx b Hb Hb0). lia.
Qed.

Section Primitives.
Context {R D : Z -> Prop} `{PbEnv} {strict : bool}.

#[local] Abbreviation left s := (i_bytes_left (d_stream s)).
#[local] Abbreviation good := (good R D).
#[local] Abbreviation runs := (runs R strict).

Lemma runs_decode_varint s :
  good s -> runs s pb_decode_varint (fun v s' => 0 <= v < 2 ^ 64 /\ left s' < left s).
Proof.
  intros Hg. unfold pb_decode_varint.
  apply (runs_loop R D (fun x s' => exists k, 0 <= k <= 10 /\ fst x = 7 * k /\ 0 <= snd x < 2 ^ 64 /\
      left s' = left s - k) (fun x _ => 10 - fst x / 7)).
  - done.
  - exists 0. simpl. lia.
  - done.
  - intros [bitpos result] s' Hg' (k & Hk & E & Hr & Hl). simpl in *. subst bitpos.
    rewrite Z.mul_comm, Z.div_mul by lia. split; [lia|].
    destruct (Z.leb_spec 64 (k * 7)); [by apply runs_error with (D := D)|].
    eapply runs_bind; [done|by apply (runs_readbyte (D := D))|].
    intros b s2 Hg2 _ [Hb Hl2]. cbv zeta. rewrite u8_id by lia.
    assert (0 <= Z.lor result (u64 (Z.shiftl (Z.land b 127) (k * 7))) < 2 ^ 64).
    { apply lor_range; [lia|done|apply u64_range]. }
    apply runs_ret with (D := D); [done|]. rewrite land_80 by done.
    destruct (Z.ltb_spec b 128); simpl negb; cbv iota; [lia|]. split.
    + exists (k + 1). simpl. lia.
    + simpl. replace (k * 7 + 7) with ((k + 1) * 7) by lia. rewrite Z.div_mul by lia. lia.
Qed.

Lemma runs_varint32_eof s :
  good s -> runs s pb_decode_varint32_eof (fun r s' =>
    match fst r with Some v => 0 <= v < 2 ^ 32 /\ left s' < left s | None => True end).
Proof.
  intros Hg. rewrite varint32_eof_split.
  eapply runs_bind; [done|apply runs_attempt; by apply (runs_readbyte (D := D))|].
  intros [b|] s1 Hg1 _ H1; [destruct H1 as [Hb Hl]|].
  2: { unfold bytes_left, gets. eapply runs_pure; [done|]. by apply runs_ret with (D := D). }
  destruct (Z.land b 128 =? 0); [apply runs_ret with (D := D); simpl; [done|lia]|].
  unfold varint32_rest. eapply runs_bind with (Q := fun r s' =>
    match r with Some (_, _, v) => 0 <= v < 2 ^ 32 | None => True end /\ left s' < left s).
  - done.
  - apply (runs_byte_loop R D (fun x s' => 0 <= snd x < 2 ^ 32 /\ left s' < left s)).
    + done.
    + simpl. rewrite land_7f. pose proof (Z.mod_pos_bound b 128 ltac:(lia)). lia.
    + intros [bitpos result] s2 Hg2 [Hr Hl2]. simpl in Hr. unfold varint32_round.
      eapply runs_bind; [done|apply runs_attempt; by apply (runs_readbyte (D := D))|].
      intros [b'|] s3 Hg3 Hs3 H3; [destruct H3 as [Hb' Hl3]|].
      2: { apply runs_ret with (D := D); [done|]. destruct Hs3 as [[] _]. split; [done|lia]. }
      cbv zeta. case_if.
      { eapply runs_bind; [done|by apply (runs_set_error R D)|]. intros ? s4 Hg4 _ E4. simpl in E4.
        apply runs_ret with (D := D); [done|]. split; [done|lia]. }
      apply runs_ret with (D := D); [done|].
      set (result' := if 32 <=? bitpos then _ else _).
      assert (0 <= result' < 2 ^ 32).
      { unfold result'. case_if; [done|]. apply lor_range; [lia|done|apply u32_range]. }
      destruct (negb (Z.land b' 128 =? 0)); simpl; lia.
  - intros [[[bitpos b'] v]|] s2 Hg2 _ [Hv Hl2].
    + case_if; [|by apply runs_ret with (D := D)].
      eapply runs_bind; [done|by apply (runs_set_error R D)|]. intros _ s4 Hg4 _ _.
      by apply runs_ret with (D := D).
    + by apply runs_ret with (D := D).
Qed.

Lemma runs_varint32 s :
  good s -> runs s pb_decode_varint32 (fun v s' => 0 <= v < 2 ^ 32 /\ left s' < left s).
Proof.
  intros Hg. unfold pb_decode_varint32. eapply runs_bind; [done|by apply runs_varint32_eof|].
  intros [[v|] eof] s1 Hg1 _ Hv; simpl in Hv.
  - by apply runs_ret with (D := D).
  - by apply runs_fail with (D := D).
Qed.

(** Tags have 29 bits at most. *)
Lemma runs_decode_tag s :
  good s -> runs s pb_decode_tag (fun r s' =>
    let '(ok, wt, t, eof) := r in ok = true -> 0 <= t < 2 ^ 29 /\ left s' < left s).
Proof.
  intros Hg. unfold pb_decode_tag. eapply runs_bind; [done|by apply runs_varint32_eof|].
  intros [[v|] eof] s1 Hg1 _ Hv; simpl in Hv.
  - case_if; apply runs_ret with (D := D); try done. intros _.
    rewrite Z.shiftr_div_pow2 by lia. split; [|lia].
    split; [apply Z.div_pos; lia|apply Z.div_lt_upper_bound; lia].
  - by apply runs_ret with (D := D).
Qed.

Lemma runs_skip_field s wt : good s -> runs s (pb_skip_field wt) (fun _ _ => True).
Proof.
  intros Hg. unfold pb_skip_field.
  assert (forall n, 0 <= n -> forall s, good s -> runs s (pb_read RNull n ;; ret tt) (fun _ _ => True)) as Hskip.
  { intros n Hn s' Hg'. eapply runs_bind; [done|by apply (runs_pb_read (D := D))|].
    intros _ s1 Hg1 _ _. by apply runs_ret with (D := D). }
  repeat case_if; [|apply Hskip; lia || done| |apply Hskip; lia || done|by apply runs_error with (D := D)].
  - unfold pb_skip_varint. apply (runs_byte_loop R D (fun _ _ => True)); [done..|].
    intros [] s1 Hg1 _. unfold pb_read_byte. eapply runs_bind with (Q := fun _ s' => left s' < left s1); [done| |].
    + eapply runs_bind; [done|by apply (runs_pb_read (D := D) s1 RLocal 1)|].
      intros bs s2 Hg2 _ [Hl2 Hlen]. specialize (Hlen eq_refl).
      destruct bs as [|b [|]]; simpl in Hlen; try lia. apply runs_ret with (D := D); [done|lia].
    + intros b s2 Hg2 _ Hl2. apply runs_ret with (D := D); [done|]. by case_if.
  - unfold pb_skip_string. eapply runs_bind; [done|by apply runs_varint32|].
    intros n s1 Hg1 _ [Hn _]. apply Hskip; [lia|done].
Qed.
End Primitives.

(** ** Values *)

Section Values.
Context {R D : Z -> Prop} `{PbEnv} {strict : bool}.

#[local] Abbreviation left s := (i_bytes_left (d_stream s)).
#[local] Abbreviation good := (good R D).
#[local] Abbreviation runs := (runs R strict).

(** A decoder that consumes something when it succeeds. *)
Definition consumes (s : dstate) (m : M dstate unit) : Prop :=
  runs s m (fun _ s' => left s' < left s).

Lemma runs_st_ret {A} s n p v (x : A) :
  good s -> within R p (Z.of_nat n) ->
  runs s (st_uint n p v ;; ret x) (fun _ s' => left s' = left s).
Proof.
  intros Hg Hw. eapply runs_bind; [done|by apply (runs_st_uint R D)|].
  intros ? s' Hg' _ E. apply runs_ret with (D := D); [done|]. by rewrite E.
Qed.

(** Storing an integer by the size of its member, and the check after it. *)
Lemma runs_clamp s n p v8 v4 v2 v1 (x8 x4 x2 x1 w : Z) k :
  good s -> within R p n -> left s < k ->
  runs s
    (clamped ←
      (if n =? 8 then st_u64 p v8 ;; ret x8
       else if n =? 4 then st_u32 p v4 ;; ret x4
       else if n =? 2 then st_u16 p v2 ;; ret x2
       else if n =? 1 then st_u8 p v1 ;; ret x1
       else PB_RETURN_ERROR "invalid data_size") ;
     if negb (clamped =? w) then PB_RETURN_ERROR "integer too large" else ret tt)
    (fun _ s' => left s' < k).
Proof.
  intros Hg Hw Hl. eapply runs_bind with (Q := fun _ s' => left s' = left s); [done| |].
  - destruct (Z.eqb_spec n 8) as [->|]; [by apply runs_st_ret|].
    destruct (Z.eqb_spec n 4) as [->|]; [by apply runs_st_ret|].
    destruct (Z.eqb_spec n 2) as [->|]; [by apply runs_st_ret|].
    destruct (Z.eqb_spec n 1) as [->|]; [by apply runs_st_ret|].
    by apply runs_error with (D := D).
  - intros c s' Hg' _ E. case_if; [by apply runs_error with (D := D)|].
    apply runs_ret with (D := D); [done|lia].
Qed.

Lemma runs_dec_varint s f p :
  good s -> within R p (data_size f) -> consumes s (pb_dec_varint f p).
Proof.
  intros Hg Hw. eapply runs_bind; [done|by apply (runs_decode_varint (D := D))|].
  intros v s1 Hg1 _ [_ Hl]. by apply runs_clamp.
Qed.

Lemma runs_dec_uvarint s f p :
  good s -> within R p (data_size f) -> consumes s (pb_dec_uvarint f p).
Proof.
  intros Hg Hw. eapply runs_bind; [done|by apply (runs_decode_varint (D := D))|].
  intros v s1 Hg1 _ [_ Hl]. by apply runs_clamp.
Qed.

Lemma runs_dec_svarint s f p :
  good s -> within R p (data_size f) -> consumes s (pb_dec_svarint f p).
Proof.
  intros Hg Hw. eapply runs_bind with (Q := fun _ s' => left s' < left s); [done| |].
  - eapply runs_bind; [done|by apply (runs_decode_varint (D := D))|].
    intros v s1 Hg1 _ [_ Hl]. apply runs_ret with (D := D); done.
  - intros v s1 Hg1 _ Hl. by apply runs_clamp.
Qed.

Lemma runs_dec_fixed32 s f p : good s -> within R p 4 -> consumes s (pb_dec_fixed32 f p).
Proof.
  intros Hg Hw. eapply runs_bind; [done|by apply (runs_pb_read (D := D) s RLocal 4)|].
  intros bs s1 Hg1 _ [Hl Hlen]. specialize (Hlen eq_refl).
  do 5 (destruct bs; simpl in Hlen; try lia).
  eapply runs_conseq; [by apply (runs_st_uint R D)|]. simpl. intros _ s2 _ E. rewrite E. lia.
Qed.

Lemma runs_dec_fixed64 s f p : good s -> within R p 8 -> consumes s (pb_dec_fixed64 f p).
Proof.
  intros Hg Hw. eapply runs_bind; [done|by apply (runs_pb_read (D := D) s RLocal 8)|].
  intros bs s1 Hg1 _ [Hl Hlen]. specialize (Hlen eq_refl).
  do 9 (destruct bs; simpl in Hlen; try lia).
  eapply runs_conseq; [by apply (runs_st_uint R D)|]. simpl. intros _ s2 _ E. rewrite E. lia.
Qed.

Lemma runs_dec_fixed_length s f p :
  good s -> 0 <= data_size f -> within R p (data_size f) -> consumes s (pb_dec_fixed_length_bytes f p).
Proof.
  intros Hg Hd Hw. eapply runs_bind; [done|by apply (runs_varint32 (D := D))|].
  intros n s1 Hg1 _ [Hn Hl]. case_if; [by apply runs_error with (D := D)|].
  case_if.
  { eapply runs_conseq; [by apply (runs_memset0 R D)|]. simpl. intros _ s2 _ E. rewrite E. lia. }
  case_if; [by apply runs_error with (D := D)|].
  eapply runs_bind; [done|apply (runs_pb_read (D := D)); [done|done|by apply target_ok_rmem]|].
  intros bs s2 Hg2 _ [Hl2 _]. apply runs_ret with (D := D); [done|lia].
Qed.

(** Byte arrays and strings are checked against the size of their member
    before anything is written. *)
Lemma runs_dec_bytes s f p :
  PB_ATYPE (type f) = PB_ATYPE_STATIC ->
  good s -> within R p (data_size f) -> consumes s (pb_dec_bytes f p).
Proof.
  intros Ea Hg Hw. eapply runs_bind; [done|by apply (runs_varint32 (D := D))|].
  intros n s1 Hg1 _ [Hn Hl]. case_if; [by apply runs_error with (D := D)|].
  cbv zeta. unfold PB_BYTES_ARRAY_T_ALLOCSIZE, bytes_array_bytes, bytes_array_size.
  rewrite u64_id by lia. case_if; [by apply runs_error with (D := D)|].
  rewrite Ea. simpl Z.eqb. cbv iota.
  destruct (Z.ltb_spec (data_size f) (n + 4)) as [Hlt|Hge].
  { eapply runs_bind with (Q := fun _ _ => False); [done|by apply runs_error with (D := D)|]. by intros. }
  eapply runs_pure; [done|]. rewrite Z.add_0_r.
  eapply runs_bind; [done|apply (runs_st_uint R D); [done|by eapply within_le; [exact Hw|lia..]]|].
  intros ? s2 Hg2 _ E2.
  eapply runs_bind; [done|apply (runs_pb_read (D := D)); [done|lia|]|].
  { apply target_ok_rmem. eapply within_le; [exact Hw|lia..]. }
  intros bs s3 Hg3 _ [Hl3 _]. apply runs_ret with (D := D); [done|]. rewrite E2 in Hl3. lia.
Qed.

Lemma runs_dec_string s f p :
  PB_ATYPE (type f) = PB_ATYPE_STATIC ->
  good s -> within R p (data_size f) -> consumes s (pb_dec_string f p).
Proof.
  intros Ea Hg Hw. eapply runs_bind; [done|by apply (runs_varint32 (D := D))|].
  intros n s1 Hg1 _ [Hn Hl]. cbv zeta.
  destruct (Z.ltb_spec (u32 (n + 1)) n) as [Hlt|Hle]; [by apply runs_error with (D := D)|].
  assert (n + 1 < 2 ^ 32) as Hn1.
  { destruct (decide (n + 1 < 2 ^ 32)); [done|exfalso]. assert (n = 2 ^ 32 - 1) by lia. subst n. done. }
  rewrite u32_id in * by lia. rewrite Ea. simpl Z.eqb. cbv iota.
  destruct (Z.ltb_spec (data_size f) (n + 1)) as [Hlt|Hge].
  { eapply runs_bind with (Q := fun _ _ => False); [done|by apply runs_error with (D := D)|]. by intros. }
  eapply runs_pure; [done|].
  eapply runs_bind; [done|apply (runs_status (R := R) _ _ (fun s' => left s' < left s))|].
  { eapply runs_bind; [done|apply (runs_pb_read (D := D)); [done|lia|]|].
    { apply target_ok_rmem. eapply within_le; [exact Hw|lia..]. }
    intros bs s2 Hg2 _ [Hl2 _]. apply runs_ret with (D := D); [done|lia]. }
  intros ok s2 Hg2 _ Hok.
  eapply runs_bind; [done|apply (runs_st_uint R D); [done|by eapply within_le; [exact Hw|lia..]]|].
  intros ? s3 Hg3 _ E3. apply runs_check with (D := D); [done|]. rewrite E3. exact Hok.
Qed.
End Values.
