(* ===== verification/DecodeProps.v ===== *)
(** * What the decoder promises

    Safety of whole calls of pb_decode.h on untrusted input. *)
From S2P Require Import Prelude Mem Comp Varint Pb PbEnv PbCommon OStream WireSpec IStream StreamLogic PbDecode IterLogic DecodeLogic.

(** ** Safety of the field decoders and of whole messages

    [static_message] says what a descriptor array and the memory it describes
    have to satisfy; the theorems at the end are about [pb_decode] on any such
    message and any input. *)

(** ** Statically allocated messages *)

Section Layout.
Context `{PbEnv} (R D : Z -> Prop).

(** The bytes the field itself takes. *)
Definition field_bytes (f : pb_field_t) : Z :=
  if PB_HTYPE (type f) =? PB_HTYPE_REPEATED then data_size f * array_size f else data_size f.

(** The number of items the field has room for. *)
Definition field_items (f : pb_field_t) : Z :=
  if PB_HTYPE (type f) =? PB_HTYPE_REPEATED then array_size f else 1.

(** A field [f] at [p] inside the region [R], with its default value in the
    constant data [D]; [sub] describes submessages. *)
Record static_member (sub : list pb_field_t -> Z -> Prop) (f : pb_field_t) (p : Z) : Prop := {
  sm_ok : field_ok f;
  sm_static : PB_ATYPE (type f) = PB_ATYPE_STATIC;
  sm_no_extension : PB_LTYPE (type f) <> PB_LTYPE_EXTENSION;
  sm_fixed32 : PB_LTYPE (type f) = PB_LTYPE_FIXED32 -> data_size f = 4;
  sm_fixed64 : PB_LTYPE (type f) = PB_LTYPE_FIXED64 -> data_size f = 8;
  sm_bytes : within R p (field_bytes f) /\ field_bytes f < 2 ^ 32;
  sm_has : PB_HTYPE (type f) = PB_HTYPE_OPTIONAL -> size_offset f <> 0 ->
    within R (p + size_offset f) 1;
  (* a fixed-count array is initialised as if its count were in front *)
  sm_count : PB_HTYPE (type f) = PB_HTYPE_REPEATED -> within R (p + size_offset f) 4;
  sm_which : PB_HTYPE (type f) = PB_HTYPE_ONEOF ->
    size_offset f <> 0 /\ within R (p + size_offset f) 4;
  sm_default : PB_LTYPE (type f) <> PB_LTYPE_SUBMESSAGE -> ptr f <> NULL ->
    forall i, 0 <= i < data_size f -> D (ptr f + i);
  sm_submessage : PB_LTYPE (type f) = PB_LTYPE_SUBMESSAGE -> ptr f <> NULL /\
    exists fields, env_fields (ptr f) = Some fields /\
      forall i, 0 <= i < field_items f -> sub fields (p + i * data_size f);
}.

(** A message with submessages nested less than [n] deep. *)
Fixpoint static_message (n : nat) (fields : list pb_field_t) (base : Z) : Prop :=
  match n with
  | O => False
  | S n' =>
      terminated fields /\ unions_ok fields /\
      forall f p, In (f, p) (places fields base) -> static_member (static_message n') f p
  end.
End Layout.

(** ** Substreams *)

Section Substreams.
Context {R D : Z -> Prop} `{PbEnv}.

#[local] Abbreviation left s := (i_bytes_left (d_stream s)).

(** [i] is a substream cut out of [s], and [s1] what remains of the parent. *)
Record cut (s s1 : dstate) (i : pb_istream_t) : Prop := {
  cut_mem : mstep R (d_mem s) (d_mem s1);
  cut_callback : i_callback (d_stream s1) = IBuf;
  cut_good : good R D (set_d_stream i s1);
  cut_left : 0 <= left s1 /\ i_bytes_left i + left s1 < left s;
  cut_state : i_state i + i_bytes_left i + left s1 = i_state (d_stream s) + left s;
}.

Lemma make_cases s :
  good R D s ->
  (exists s', pb_make_string_substream s = Fail s' /\ step R s s') \/
  (exists i s1, pb_make_string_substream s = Ok i s1 /\ cut s s1 i).
Proof.
  intros Hg. pose proof (runs_varint32 (R := R) (D := D) (strict := true) s Hg) as Hv.
  unfold runs in Hv. unfold pb_make_string_substream, bind.
  destruct (pb_decode_varint32 s) as [n s1|s1| |]; try done; [|left; eauto].
  destruct Hv as [Hs [Hn Hl]]. pose proof (good_step _ _ _ _ Hg Hs) as Hg1.
  unfold istream, gets. destruct (Z.ltb_spec (left s1) n).
  - left. eexists. split; [done|]. eapply step_trans; [exact Hs|].
    pose proof (runs_error R D s1 "parent stream too short" (fun (_ : unit) _ => True) (strict := true) Hg1) as Hr.
    exact Hr.
  - right. eexists _, _. split; [done|].
    destruct Hs as [[Hc Hl1 Hst] Hm], Hg as [[Hcb Hl0 _] _], Hg1 as [[Gc Gl Gr] Gm].
    split; simpl.
    + exact Hm.
    + done.
    + split; simpl; [|done]. split; simpl; [done|lia|]. intros k Hk. apply Gr. lia.
    + rewrite u64_id by lia. lia.
    + rewrite u64_id by lia. lia.
Qed.

(** Running on a substream: the parent stands still, and the substream stays
    consistent as long as nothing fails. *)
Lemma on_istream_cases {A} s s1 i (m : M dstate A) Q strict :
  cut s s1 i -> runs R strict (set_d_stream i s1) m Q ->
  exists st sub s2, on_istream i m s1 = Ok (st, sub) s2 /\
    d_stream s2 = d_stream s1 /\ mstep R (d_mem s) (d_mem s2) /\ i_callback sub = IBuf /\
    match st with
    | Some a => istep i sub /\ Q a (set_d_stream sub s2)
    | None => if strict then istep i sub else True
    end.
Proof.
  intros Hc. unfold runs, on_istream. destruct Hc as [Hm Hcb [[Hi _ _] _] _ _].
  destruct (m (set_d_stream i s1)) as [a s2|s2| |]; try done.
  - intros [[[E1 E2 E3] Hm2] HQ]. eexists _, _, _. split; [done|]. simpl. split_and!.
    + done.
    + by eapply mstep_trans.
    + by rewrite E1.
    + by split.
    + by destruct s2.
  - intros Hf. eexists _, _, _. split; [done|]. simpl.
    destruct strict; [destruct Hf as [[E1 E2 E3] Hm2]|destruct Hf as [E1 Hm2]]; split_and!; try done.
    all: try (by eapply mstep_trans); by rewrite E1.
Qed.

(** Closing skips what is left of a memory buffer. *)
Lemma close_substream sub s :
  i_callback sub = IBuf ->
  pb_close_string_substream sub s =
    Ok tt (set_d_stream (IStream (i_callback (d_stream s)) (i_state sub + i_bytes_left sub)
      (left s) (i_errmsg sub)) s).
Proof.
  intros Hc. destruct s as [[cb st l e] m x], sub as [cb' st' l' e']. simpl in *. subst cb'.
  unfold pb_close_string_substream. simpl.
  destruct (Z.eqb_spec l' 0) as [E|E]; simpl negb; cbv iota.
  - subst l'. rewrite bind_ret. unfold upd_istream, modify, set_d_stream, set_i_errmsg, set_i_state. simpl.
    by rewrite Z.add_0_r.
  - unfold on_istream, set_d_stream at 1, pb_read, pb_read_direct, bytes_left, istream, gets, bind. simpl.
    destruct (Z.ltb_spec l' l'); [lia|].
    unfold istream_callback, buf_read, istream, upd_istream, modify, gets, bind, ret. simpl.
    unfold set_d_stream, set_i_errmsg, set_i_state, set_i_bytes_left; simpl. done.
Qed.

(** The parent after a substream that was read without failure, to the end
    or not. *)
Lemma closed_step s s1 i sub s2 :
  cut s s1 i -> istep i sub -> d_stream s2 = d_stream s1 -> mstep R (d_mem s) (d_mem s2) ->
  good R D s ->
  let s3 := set_d_stream (IStream IBuf (i_state sub + i_bytes_left sub) (left s2) (i_errmsg sub)) s2 in
  step R s s3 /\ left s3 < left s.
Proof.
  intros [Hm Hcb Hg Hl Hst] [E1 E2 E3] Es Hm2 Hgs s3. subst s3. rewrite Es.
  pose proof (io_callback _ _ _ (g_input _ _ _ Hgs)). pose proof (io_left _ _ _ (g_input _ _ _ Hg)) as Hil.
  simpl in *. split; [split; simpl|]; [|done|].
  - split; simpl; [congruence|lia|lia].
  - lia.
Qed.
End Substreams.

(** ** Walking a structure *)

Section Walk.
Context {R D : Z -> Prop} `{PbEnv} {strict : bool}.
Context {fields : list pb_field_t} {base : Z} (Ht : terminated fields) (Hu : unions_ok fields).

#[local] Abbreviation N := (length (places fields base)).

(** A [do ... while (pb_field_iter_next(&iter))] loop over all places. *)
Lemma runs_do_fields s body it f p :
  good R D s -> iter_at fields base 0 it f p -> size_at it f p ->
  (forall s k it f p, good R D s -> iter_at fields base k it f p -> size_at it f p ->
     runs R strict s (body it) (fun _ _ => True)) ->
  runs R strict s (do_fields body it) (fun _ _ => True).
Proof.
  intros Hg Hi Hs Hb. unfold do_fields.
  apply (runs_loop R D (fun it _ => exists k f p, iter_at fields base k it f p /\ size_at it f p)
    (fun it _ => Z.of_nat N - Z.of_nat (pos it))).
  - done.
  - by exists 0%nat, f, p.
  - rewrite (ia_start _ _ _ _ _ _ Hi), (ia_pos _ _ _ _ _ _ Hi). pose proof (@places_length fields base). lia.
  - clear s it f p Hg Hi Hs. intros it s Hg (k & f & p & Hi & Hs).
    rewrite (ia_pos _ _ _ _ _ _ Hi). pose proof (place_lt _ _ _ (ia_place _ _ _ _ _ _ Hi)). split; [lia|].
    eapply runs_bind; [done|by eapply Hb|]. intros _ s1 Hg1 _ _.
    destruct (iter_next_at Ht Hu k it f p s1 Hi Hs) as (it' & f' & p' & Hn & Hi' & Hs').
    eapply runs_pure; [exact Hn|]. apply runs_ret with (D := D); [done|].
    unfold next_pos in Hi'. destruct (Nat.eqb_spec (S k) N); simpl; [done|].
    rewrite (ia_pos _ _ _ _ _ _ Hi'). split; [by exists (S k), f', p'|lia].
Qed.

(** The same loop when the body only looks at the memory. *)
Lemma pure_do_fields (s : dstate) body it f p :
  iter_at fields base 0 it f p -> size_at it f p ->
  (forall k it f p, iter_at fields base k it f p -> size_at it f p -> body it s = Ok tt s) ->
  do_fields body it s = Ok tt s.
Proof.
  intros Hi Hs Hb. unfold do_fields. rewrite (ia_start _ _ _ _ _ _ Hi).
  assert (exists k, iter_at fields base k it f p /\ (N < k + S (length fields))%nat) as (k & Hk & Hl).
  { exists 0%nat. split; [done|]. pose proof (@places_length fields base). lia. }
  clear Hi. revert k it f p Hs Hk Hl. generalize (Datatypes.S (length fields)) as fuel.
  induction fuel as [|fuel IH]; intros k it f p Hs Hk Hl.
  { pose proof (place_lt _ _ _ (ia_place _ _ _ _ _ _ Hk)). lia. }
  cbn [loop]. rewrite bind_assoc, (bind_ok _ _ _ _ _ (Hb _ _ _ _ Hk Hs)).
  destruct (iter_next_at Ht Hu k it f p s Hk Hs) as (it' & f' & p' & Hn & Hi' & Hs').
  rewrite bind_assoc, (bind_ok _ _ _ _ _ Hn). unfold next_pos in Hi'.
  destruct (Nat.eqb_spec (S k) N); simpl; [by rewrite bind_ret|].
  rewrite bind_ret. eapply IH; [exact Hs'|exact Hi'|lia].
Qed.
End Walk.

(** ** Default values *)

Section Defaults.
Context {R D : Z -> Prop} `{PbEnv} {strict : bool}.

(** What a walk over a message needs to start. *)
Lemma iter_begin_in n fields base (s : dstate) :
  static_message R D n fields base -> terminated fields /\ unions_ok fields /\
  exists it f p b, pb_field_iter_begin fields base s = Ok (b, it) s /\
    iter_at fields base 0 it f p /\ size_at it f p.
Proof.
  destruct n as [|n]; [done|]. intros (Ht & Hu & _). split_and!; [done..|].
  destruct (iter_begin_at (base := base) Ht Hu s) as (it & f & p & E & Hi & Hs & _). eauto 10.
Qed.

Lemma iter_at_member n fields base k it f p :
  static_message R D (S n) fields base -> iter_at fields base k it f p ->
  static_member R D (static_message R D n) f p.
Proof.
  intros (_ & _ & Hm) Hi. apply Hm. apply list_elem_of_In. eapply list_elem_of_lookup_2, Hi.
Qed.

Lemma runs_st_size s it f p z :
  good R D s -> size_at it f p -> within R (p + size_offset f) 4 ->
  runs R strict s (st_size (pSize it) z) (fun _ s' => d_stream s' = d_stream s).
Proof.
  intros Hg [->|(-> & _)] Hw; simpl; [by apply (runs_st_uint R D)|].
  destruct (good_step_refl _ _ _ Hg) as [? ?]. split; [by split|done].
Qed.

Lemma runs_ld_size s it f p :
  good R D s -> size_at it f p -> within R (p + size_offset f) 4 ->
  runs R strict s (ld_size (pSize it)) (fun z s' => 0 <= z < 2 ^ 32 /\ s' = s).
Proof.
  intros Hg [->|(-> & _)] Hw; simpl.
  - apply (runs_load_uint R D); [done|done|]. intros z Hz. split; [lia|done].
  - split; [by eapply good_step_refl|]. split; [apply u32_range|done].
Qed.

Lemma size_is_data_spec it f p :
  size_at it f p -> pData it = p ->
  size_is_data it = if decide (pSize it = PLocal) then false else size_offset f =? 0.
Proof.
  unfold size_is_data. intros [Hs|[Hs _]] Hp; rewrite Hs, Hp.
  - rewrite decide_False by done. destruct (Z.eqb_spec (size_offset f) 0).
    + apply bool_decide_eq_true. f_equal. lia.
    + apply bool_decide_eq_false. intros [= ?]. lia.
  - by rewrite bool_decide_eq_false_2.
Qed.

Lemma runs_set_defaults fuel n fields base s :
  (forall s k it f p, good R D s -> iter_at fields base k it f p -> size_at it f p ->
     runs R strict s (pb_field_set_to_default fuel it) (fun _ _ => True)) ->
  static_message R D n fields base -> good R D s ->
  runs R strict s (pb_message_set_to_defaults fuel fields base) (fun _ _ => True).
Proof.
  intros Hf Hm Hg. destruct (iter_begin_in n fields base s Hm) as (Ht & Hu & it & f & p & b & E & Hi & Hs).
  unfold pb_message_set_to_defaults, message_set_to_defaults.
  eapply runs_pure; [exact E|]. cbv beta iota. case_if; [by apply runs_ret with (D := D)|].
  by eapply runs_do_fields.
Qed.

Lemma runs_field_default fuel n fields base k it f p s :
  static_message R D (S n) fields base -> (n < fuel)%nat -> good R D s ->
  iter_at fields base k it f p -> size_at it f p ->
  runs R strict s (pb_field_set_to_default fuel it) (fun _ _ => True).
Proof.
  revert fuel fields base k it f p s. induction n as [n IH] using lt_wf_ind.
  intros fuel fields base k it f p s Hmsg Hf Hg Hi Hs.
  destruct fuel as [|fuel]; [lia|]. cbn [pb_field_set_to_default].
  pose proof (iter_at_member _ _ _ _ _ _ _ Hmsg Hi) as Hm. destruct Hmsg as (Ht & Hu & _).
  eapply runs_pure; [by eapply iter_at_cur|]. cbv zeta. rewrite (ia_data _ _ _ _ _ _ Hi).
  destruct (Z.eqb_spec (PB_LTYPE (type f)) PB_LTYPE_EXTENSION); [by destruct (sm_no_extension _ _ _ _ _ Hm)|].
  rewrite (sm_static _ _ _ _ _ Hm). simpl (PB_ATYPE_STATIC =? PB_ATYPE_STATIC). cbv iota.
  rewrite (size_is_data_spec it f p Hs (ia_data _ _ _ _ _ _ Hi)).
  eapply runs_bind with (Q := fun init _ => init = true -> PB_HTYPE (type f) <> PB_HTYPE_REPEATED); [done| |].
  - destruct (PB_HTYPE_cases (type f)) as [E|[E|[E|E]]]; rewrite E; simpl.
    + by apply runs_ret with (D := D).
    + destruct (decide (pSize it = PLocal)) as [El|_].
      { destruct Hs as [Hs|(_ & Hs & _)]; [by rewrite El in Hs|by rewrite E in Hs]. }
      destruct (Z.eqb_spec (size_offset f) 0); simpl; [by apply runs_ret with (D := D)|].
      destruct Hs as [Hs|(_ & Hs & _)]; [|by rewrite E in Hs]. rewrite Hs. simpl.
      eapply runs_bind; [done|apply (runs_st_uint R D); [done|by apply (sm_has _ _ _ _ _ Hm)]|].
      intros ? s1 Hg1 _ _. by apply runs_ret with (D := D).
    + eapply runs_bind; [done|by eapply runs_st_size, (sm_count _ _ _ _ _ Hm)|].
      intros ? s1 Hg1 _ _. by apply runs_ret with (D := D).
    + eapply runs_bind; [done|by eapply runs_st_size, (sm_which _ _ _ _ _ Hm)|].
      intros ? s1 Hg1 _ _. by apply runs_ret with (D := D).
  - intros [|] s1 Hg1 _ Hinit; [|by apply runs_ret with (D := D)]. specialize (Hinit eq_refl).
    assert (field_bytes f = data_size f /\ field_items f = 1) as [Eb Ei].
    { unfold field_bytes, field_items. by destruct (Z.eqb_spec (PB_HTYPE (type f)) PB_HTYPE_REPEATED). }
    pose proof (proj1 (sm_bytes _ _ _ _ _ Hm)) as Hw. rewrite Eb in Hw.
    destruct (Z.eqb_spec (PB_LTYPE (type f)) PB_LTYPE_SUBMESSAGE) as [El|El].
    + destruct (sm_submessage _ _ _ _ _ Hm El) as (_ & fs & Hfs & Hsub).
      eapply runs_pure; [by rewrite Hfs|]. specialize (Hsub 0 ltac:(lia)).
      rewrite Z.mul_0_l, Z.add_0_r in Hsub.
      eapply runs_set_defaults; [|exact Hsub|done].
      intros s2 k2 it2 f2 p2 Hg2 Hi2 Hs2. destruct n as [|n]; [done|].
      by eapply (IH n); [lia|exact Hsub|lia|..].
    + destruct (Z.eqb_spec (ptr f) NULL) as [Ep|Ep]; simpl negb; cbv iota.
      * eapply runs_conseq; [by apply (runs_memset0 R D)|done].
      * eapply runs_conseq; [apply (runs_memcpy R D); [done|done|]|done].
        intros i Hir. destruct Hg1 as [_ [_ Hd]]. by apply Hd, (sm_default _ _ _ _ _ Hm).
Qed.

Lemma runs_message_defaults fuel n fields base s :
  static_message R D n fields base -> (n <= fuel)%nat -> good R D s ->
  runs R strict s (pb_message_set_to_defaults fuel fields base) (fun _ _ => True).
Proof.
  intros Hm Hf Hg. eapply runs_set_defaults; [|exact Hm|done].
  intros. destruct n as [|n]; [done|]. eapply runs_field_default; [exact Hm|lia|done..].
Qed.
End Defaults.

(** ** Releasing: nothing to free in a static message *)

Section Release.
Context {R D : Z -> Prop} `{PbEnv}.

Lemma load_uint_within m p n :
  memory_ok R D m -> within R p (Z.of_nat n) -> exists z, load_uint m p n = Some z.
Proof.
  intros Hm Hw. destruct (load_readable m p n) as [bs Hbs].
  { intros i Hi. apply (mo_region _ _ _ Hm), Hw, Hi. }
  unfold load_uint. rewrite Hbs. by eexists.
Qed.

Lemma ld_size_pure s it f p :
  memory_ok R D (d_mem s) -> size_at it f p -> within R (p + size_offset f) 4 ->
  exists z, ld_size (pSize it) s = Ok z s.
Proof.
  intros Hm [->|(-> & _)] Hw; simpl; [|by eexists].
  destruct (load_uint_within _ _ 4 Hm Hw) as [z Hz]. exists z.
  unfold ld_u32, load. simpl. by rewrite Hz.
Qed.

Lemma pure_for_items (s : dstate) base step n (body : Z -> M dstate unit) :
  (forall i, 0 <= i < Z.of_nat n -> body (base + i * step) s = Ok tt s) ->
  exists q, for_n n (fun p => body p ;; ret (p + step)) base s = Ok q s.
Proof.
  revert base. induction n as [|n IH]; intros base Hb; cbn [for_n]; [by eexists|].
  pose proof (Hb 0 ltac:(lia)) as H0. rewrite Z.mul_0_l, Z.add_0_r in H0.
  rewrite bind_assoc, (bind_ok _ _ _ _ _ H0), bind_ret. apply IH.
  intros i Hi. replace (base + step + i * step) with (base + (i + 1) * step) by lia. apply Hb. lia.
Qed.

Lemma pure_release fuel n fields base s :
  (forall k it f p, iter_at fields base k it f p -> size_at it f p ->
     pb_release_single_field fuel it s = Ok tt s) ->
  static_message R D n fields base ->
  message_release (pb_release_single_field fuel) fields base s = Ok tt s.
Proof.
  intros Hf Hm. destruct (iter_begin_in n fields base s Hm) as (Ht & Hu & it & f & p & b & E & Hi & Hs).
  unfold message_release. case_if; [done|]. rewrite (bind_ok _ _ _ _ _ E).
  case_if; [done|]. by eapply pure_do_fields.
Qed.

Lemma pure_release_field fuel n fields base k it f p s :
  static_message R D (S n) fields base -> (n < fuel)%nat -> memory_ok R D (d_mem s) ->
  iter_at fields base k it f p -> size_at it f p ->
  pb_release_single_field fuel it s = Ok tt s.
Proof.
  revert fuel fields base k it f p s. induction n as [n IH] using lt_wf_ind.
  intros fuel fields base k it f p s Hmsg Hf Hmem Hi Hs.
  destruct fuel as [|fuel]; [lia|]. cbn [pb_release_single_field].
  pose proof (iter_at_member _ _ _ _ _ _ _ Hmsg Hi) as Hm. destruct Hmsg as (Ht & Hu & _).
  rewrite (bind_ok _ _ _ _ _ (iter_at_cur Ht Hu _ _ _ _ s Hi)). cbv zeta.
  rewrite (sm_static _ _ _ _ _ Hm). simpl (PB_ATYPE_STATIC =? PB_ATYPE_POINTER). cbv iota.
  assert (exists c, (if PB_HTYPE (type f) =? PB_HTYPE_ONEOF
    then which ← ld_size (pSize it) ; ret (which =? tag f) else ret true) s = Ok c s) as [c Hc].
  { destruct (Z.eqb_spec (PB_HTYPE (type f)) PB_HTYPE_ONEOF) as [E|E]; [|by eexists].
    destruct (ld_size_pure s it f p Hmem Hs) as [z Hz]; [by apply (sm_which _ _ _ _ _ Hm)|].
    rewrite (bind_ok _ _ _ _ _ Hz). by eexists. }
  rewrite (bind_ok _ _ _ _ _ Hc). destruct c; simpl; [|done].
  destruct (Z.eqb_spec (PB_LTYPE (type f)) PB_LTYPE_EXTENSION); [by destruct (sm_no_extension _ _ _ _ _ Hm)|].
  destruct (Z.eqb_spec (PB_LTYPE (type f)) PB_LTYPE_SUBMESSAGE) as [El|El]; [|done].
  rewrite bind_assoc, bind_ret, bind_assoc, (ia_data _ _ _ _ _ _ Hi).
  set (cnt := if PB_HTYPE (type f) =? PB_HTYPE_REPEATED then _ else _).
  assert (exists count, cnt s = Ok count s /\ count <= field_items f) as (count & Ecnt & Hcount).
  { unfold cnt, field_items.
    destruct (Z.eqb_spec (PB_HTYPE (type f)) PB_HTYPE_REPEATED) as [E|E]; [|by exists 1].
    assert (exists c, (if size_is_data it then ret (array_size f) else ld_size (pSize it)) s = Ok c s) as [c Hcc].
    { case_if; [by eexists|]. eapply ld_size_pure; [exact Hmem|exact Hs|by apply (sm_count _ _ _ _ _ Hm)]. }
    simpl. rewrite (bind_ok _ _ _ _ _ Hcc). simpl.
    eexists. split; [done|]. destruct (Z.ltb_spec (array_size f) c); lia. }
  rewrite (bind_ok _ _ _ _ _ Ecnt). clear cnt Ecnt Hc.
  case_if; [done|].
  destruct (sm_submessage _ _ _ _ _ Hm El) as (_ & fs & Hfs & Hsub). rewrite Hfs. simpl of_option.
  rewrite bind_assoc.
  edestruct (pure_for_items s p (data_size f) (Z.to_nat count)
    (fun q => message_release (pb_release_single_field fuel) fs q)) as [q Hq]; [|].
  - intros i Hir. specialize (Hsub i ltac:(lia)).
    eapply pure_release; [|exact Hsub].
    intros k2 it2 f2 p2 Hi2 Hs2. destruct n as [|n]; [done|].
    by eapply (IH n); [lia|exact Hsub|lia|..].
  - rewrite (bind_ok _ _ _ _ _ Hq). done.
Qed.

(** [pb_release] on a static message changes nothing. *)
Lemma pure_release_message fuel n fields base s :
  static_message R D n fields base -> (n <= fuel)%nat -> memory_ok R D (d_mem s) ->
  pb_release fuel fields base s = Ok tt s.
Proof.
  intros Hm Hf Hmem. eapply pure_release; [|exact Hm].
  intros. destruct n as [|n]; [done|]. eapply pure_release_field; [exact Hm|lia|done..].
Qed.
End Release.

(** ** Decoding fields *)

Lemma ltype_cases f :
  field_ok f ->
  PB_LTYPE (type f) = 0 \/ PB_LTYPE (type f) = 1 \/ PB_LTYPE (type f) = 2 \/ PB_LTYPE (type f) = 3 \/
  PB_LTYPE (type f) = 4 \/ PB_LTYPE (type f) = 5 \/ PB_LTYPE (type f) = 6 \/ PB_LTYPE (type f) = 7 \/
  PB_LTYPE (type f) = 8 \/ PB_LTYPE (type f) = 9.
Proof.
  intros Hf. pose proof (ok_ltype _ Hf) as Hl. pose proof (PB_LTYPE_range (type f)).
  unfold PB_LTYPES_COUNT in Hl. lia.
Qed.

Section Fields.
Context {R D : Z -> Prop} `{PbEnv}.
Context (rec : list pb_field_t -> Z -> M dstate unit) (fuel n : nat) (Hfuel : (n < fuel)%nat).
Context (Hrec : forall fields base s, static_message R D n fields base -> good R D s ->
           runs R false s (rec fields base) (fun _ _ => True)).

#[local] Abbreviation left s := (i_bytes_left (d_stream s)).
#[local] Abbreviation member := (static_member R D (static_message R D n)).

(** [pb_decode] on a submessage: release runs also after a failure. *)
Lemma runs_decode_over fields base s :
  static_message R D n fields base -> good R D s ->
  runs R false s (decode_over rec fuel fields base) (fun _ _ => True).
Proof.
  intros Hm Hg. unfold decode_over.
  eapply runs_bind; [done|apply (runs_message_defaults (D := D) fuel n); [done|lia|done]|].
  intros _ s1 Hg1 _ _. specialize (Hrec fields base s1 Hm Hg1).
  unfold runs in Hrec |- *. unfold status, bind.
  destruct (rec fields base s1) as [[] s2|s2| |]; try done.
  destruct Hrec as [Hc Hms]. cbv beta iota delta [negb].
  rewrite (pure_release_message (R := R) (D := D) fuel n fields base s2) by
    (done || lia || by eapply memory_ok_mstep; [apply Hg1|exact Hms]).
  done.
Qed.

Lemma runs_dec_submessage s f p i :
  member f p -> PB_LTYPE (type f) = PB_LTYPE_SUBMESSAGE -> 0 <= i < field_items f -> good R D s ->
  consumes (R := R) (strict := false) s (pb_dec_submessage rec fuel f (p + i * data_size f)).
Proof.
  intros Hm El Hi Hg. destruct (sm_submessage _ _ _ _ _ Hm El) as (Hp & fs & Hfs & Hsub).
  specialize (Hsub i Hi). unfold consumes, runs, pb_dec_submessage.
  destruct (make_cases (R := R) (D := D) s Hg) as [(s' & E & Hs')|(sub & s1 & E & Hcut)].
  { rewrite (bind_fail _ _ _ _ E). by apply (step_fail R (strict := false)). }
  rewrite (bind_ok _ _ _ _ _ E). destruct (Z.eqb_spec (ptr f) NULL); [done|].
  rewrite Hfs. simpl of_option. rewrite bind_ret.
  set (m := if PB_HTYPE (type f) =? PB_HTYPE_REPEATED then _ else _).
  assert (runs R false (set_d_stream sub s1) m (fun _ _ => True)) as Hr.
  { pose proof (cut_good _ _ _ Hcut). unfold m. case_if; [by apply runs_decode_over|by apply Hrec]. }
  destruct (on_istream_cases _ _ _ _ _ _ Hcut Hr) as (st & sub' & s2 & E2 & Es & Hms & Hcb & Hst).
  rewrite (bind_ok _ _ _ _ _ E2). cbv beta iota.
  rewrite (bind_ok _ _ _ _ _ (close_substream sub' s2 Hcb)).
  rewrite Es, (cut_callback _ _ _ Hcut). destruct st as [[]|];
    [|split; simpl; [by rewrite (io_callback _ _ _ (g_input _ _ _ Hg))|done]].
  rewrite <- Es. destruct Hst as [Hst _].
  exact (closed_step _ _ _ _ _ Hcut Hst Es Hms Hg).
Qed.

(** One item of a field. *)
Lemma item_within f p i :
  member f p -> 0 <= i < field_items f -> within R (p + i * data_size f) (data_size f).
Proof.
  intros Hm Hi. destruct (sm_bytes _ _ _ _ _ Hm) as [Hw _]. pose proof (ok_data_size _ (sm_ok _ _ _ _ _ Hm)).
  eapply within_le; [exact Hw|nia|]. unfold field_bytes, field_items in *.
  destruct (PB_HTYPE (type f) =? PB_HTYPE_REPEATED); nia.
Qed.

Lemma runs_packable strict s f p i func :
  member f p -> PB_LTYPE (type f) <= PB_LTYPE_LAST_PACKABLE -> 0 <= i < field_items f -> good R D s ->
  PB_DECODERS rec fuel !! Z.to_nat (PB_LTYPE (type f)) = Some func ->
  consumes (R := R) (strict := strict) s (call_decoder func f (p + i * data_size f)).
Proof.
  intros Hm Hl Hi Hg Hfunc. pose proof (item_within f p i Hm Hi) as Hw.
  unfold PB_LTYPE_LAST_PACKABLE in Hl.
  pose proof (sm_fixed32 _ _ _ _ _ Hm) as H32. pose proof (sm_fixed64 _ _ _ _ _ Hm) as H64.
  destruct (ltype_cases f (sm_ok _ _ _ _ _ Hm)) as [E|[E|[E|[E|[E|E]]]]]; [..|lia]; rewrite E in *;
    injection Hfunc as <-; simpl.
  - by apply (runs_dec_varint (D := D)).
  - by apply (runs_dec_uvarint (D := D)).
  - by apply (runs_dec_svarint (D := D)).
  - apply (runs_dec_fixed32 (D := D)); [done|]. by rewrite <- H32.
  - apply (runs_dec_fixed64 (D := D)); [done|]. by rewrite <- H64.
Qed.

Lemma runs_item s f p i func :
  member f p -> 0 <= i < field_items f -> good R D s ->
  PB_DECODERS rec fuel !! Z.to_nat (PB_LTYPE (type f)) = Some func ->
  consumes (R := R) (strict := false) s (call_decoder func f (p + i * data_size f)).
Proof.
  intros Hm Hi Hg Hfunc. destruct (decide (PB_LTYPE (type f) <= PB_LTYPE_LAST_PACKABLE)) as [Hl|Hl].
  { by eapply runs_packable. }
  pose proof (item_within f p i Hm Hi) as Hw. pose proof (sm_static _ _ _ _ _ Hm).
  unfold PB_LTYPE_LAST_PACKABLE in Hl.
  destruct (ltype_cases f (sm_ok _ _ _ _ _ Hm)) as [E|[E|[E|[E|[E|[E|[E|[E|[E|E]]]]]]]]]; try lia;
    pose proof E as E'; rewrite E in Hfunc; injection Hfunc as <-; simpl.
  - by apply (runs_dec_bytes (D := D)).
  - by apply (runs_dec_string (D := D)).
  - by apply runs_dec_submessage.
  - by destruct (sm_no_extension _ _ _ _ _ Hm).
  - apply (runs_dec_fixed_length (D := D)); [done| |done]. apply (ok_data_size _ (sm_ok _ _ _ _ _ Hm)).
Qed.

(** The loop over a packed array stops at the end of the array. *)
Lemma runs_packed_loop s it f p func :
  member f p -> PB_HTYPE (type f) = PB_HTYPE_REPEATED ->
  PB_LTYPE (type f) <= PB_LTYPE_LAST_PACKABLE -> size_at it f p -> good R D s ->
  PB_DECODERS rec fuel !! Z.to_nat (PB_LTYPE (type f)) = Some func ->
  runs R true s
    (byte_loop (fun _ : unit =>
       left ← bytes_left ;
       size ← ld_size (pSize it) ;
       if (0 <? left) && (size <? array_size f) then
         let pItem := p + u32 (data_size f * size) in
         ok ← status (call_decoder func f pItem) ;
         if negb ok then ret (inr false)
         else
           size ← ld_size (pSize it) ;
           st_size (pSize it) (u32 (size + 1)) ;;
           ret (inl tt)
       else ret (inr true)) tt) (fun _ _ => True).
Proof.
  intros Hm Eh Hl Hs Hg Hfunc. pose proof (sm_count _ _ _ _ _ Hm Eh) as Hc.
  pose proof (sm_bytes _ _ _ _ _ Hm) as [_ Hb].
  pose proof (ok_data_size _ (sm_ok _ _ _ _ _ Hm)) as Hds.
  unfold field_bytes in Hb. rewrite Eh in Hb. simpl in Hb.
  apply (runs_byte_loop R D (fun _ _ => True)); [done..|]. clear s Hg. intros [] s Hg _.
  unfold bytes_left, gets. eapply runs_pure; [done|].
  eapply runs_bind; [done|by eapply runs_ld_size|]. intros z s1 Hg1 _ [Hz ->].
  destruct (Z.ltb_spec 0 (left s)); [|by apply runs_ret with (D := D)].
  destruct (Z.ltb_spec z (array_size f)); [|by apply runs_ret with (D := D)]. simpl andb. cbv zeta iota.
  rewrite u32_id by nia. rewrite (Z.mul_comm (data_size f)).
  eapply runs_bind; [done|apply runs_status; eapply (runs_packable true); [done|done| |done|done]|].
  { unfold field_items. rewrite Eh. simpl. lia. }
  intros [|] s2 Hg2 _ Hok; simpl; [|by apply runs_ret with (D := D)].
  specialize (Hok eq_refl). simpl in Hok.
  eapply runs_bind; [done|by eapply runs_ld_size|]. intros z2 s3 Hg3 _ [Hz2 ->].
  eapply runs_bind; [done|by eapply (runs_st_size (D := D))|]. intros ? s4 Hg4 _ E4.
  apply runs_ret with (D := D); [done|]. rewrite E4. done.
Qed.

Lemma runs_packed s wt it f p func :
  member f p -> PB_HTYPE (type f) = PB_HTYPE_REPEATED ->
  PB_LTYPE (type f) <= PB_LTYPE_LAST_PACKABLE -> size_at it f p -> good R D s ->
  PB_DECODERS rec fuel !! Z.to_nat (PB_LTYPE (type f)) = Some func ->
  cur it s = Ok f s -> pData it = p -> wt = PB_WT_STRING ->
  runs R false s (decode_static_field rec fuel wt it) (fun _ _ => True).
Proof.
  intros Hm Eh Hl Hs Hg Hfunc Hcur Hp ->. unfold decode_static_field.
  eapply runs_pure; [exact Hcur|]. cbv zeta. eapply runs_pure; [by rewrite Hfunc|]. rewrite Eh. simpl (_ =? _).
  cbv iota. destruct (Z.leb_spec (PB_LTYPE (type f)) PB_LTYPE_LAST_PACKABLE); [|lia].
  simpl andb. cbv iota. unfold runs.
  destruct (make_cases (R := R) (D := D) s Hg) as [(s' & E & Hs')|(sub & s1 & E & Hcut)].
  { rewrite (bind_fail _ _ _ _ E). by apply (step_fail R (strict := false)). }
  rewrite (bind_ok _ _ _ _ _ E), Hp.
  pose proof (runs_packed_loop (set_d_stream sub s1) it f p func Hm Eh Hl Hs (cut_good _ _ _ Hcut) Hfunc) as Hr.
  destruct (on_istream_cases _ _ _ _ _ _ Hcut Hr) as (st & sub' & s2 & E2 & Es & Hms & Hcb & Hst).
  rewrite (bind_ok _ _ _ _ _ E2). cbv beta iota.
  assert (fstep R s s2) as Hf2.
  { split; [|done]. by rewrite Es, (cut_callback _ _ _ Hcut), (io_callback _ _ _ (g_input _ _ _ Hg)). }
  destruct (i_bytes_left sub' =? 0) eqn:El; cbv beta iota delta [negb]; [|by destruct Hf2].
  rewrite (bind_ok _ _ _ _ _ (close_substream sub' s2 Hcb)).
  assert (istep sub sub') as Hi by (by destruct st as [b|]; [destruct Hst|]).
  destruct (closed_step _ _ _ _ _ Hcut Hi Es Hms Hg) as [Hcl _].
  rewrite Es, (cut_callback _ _ _ Hcut), <- Es.
  destruct st as [[|]|]; simpl; [done|by destruct Hcl as [[? ? ?] ?]..].
Qed.

(** [decode_static_field], all kinds of fields. *)
Lemma runs_static_field s wt it f p :
  member f p -> size_at it f p -> good R D s -> cur it s = Ok f s -> pData it = p ->
  runs R false s (decode_static_field rec fuel wt it) (fun _ _ => True).
Proof.
  intros Hm Hs Hg Hcur Hp.
  assert (exists func, PB_DECODERS rec fuel !! Z.to_nat (PB_LTYPE (type f)) = Some func) as [func Hfunc].
  { destruct (ltype_cases f (sm_ok _ _ _ _ _ Hm)) as [E|[E|[E|[E|[E|[E|[E|[E|[E|E]]]]]]]]]; rewrite E; by eexists. }
  assert (forall s, good R D s -> PB_HTYPE (type f) <> PB_HTYPE_REPEATED ->
    runs R false s (call_decoder func f p) (fun _ _ => True)) as Hcall.
  { intros s' Hg' Hne. pose proof (runs_item s' f p 0 func Hm) as Hr.
    rewrite Z.mul_0_l, Z.add_0_r in Hr. eapply runs_conseq; [apply Hr; [|done|done]|done].
    unfold field_items. by destruct (Z.eqb_spec (PB_HTYPE (type f)) PB_HTYPE_REPEATED). }
  destruct (decide (PB_HTYPE (type f) = PB_HTYPE_REPEATED /\ wt = PB_WT_STRING /\
    PB_LTYPE (type f) <= PB_LTYPE_LAST_PACKABLE)) as [(E1 & E2 & E3)|Hnp]; [by eapply runs_packed|].
  unfold decode_static_field.
  eapply runs_pure; [exact Hcur|]. cbv zeta. eapply runs_pure; [by rewrite Hfunc|]. rewrite Hp.
  destruct (PB_HTYPE_cases (type f)) as [E|[E|[E|E]]]; rewrite E in *; simpl (_ =? _); cbv iota.
  - by apply Hcall.
  - rewrite (size_is_data_spec it f p Hs Hp).
    destruct Hs as [Hs|(_ & Hs & _)]; [|by rewrite E in Hs]. rewrite Hs. rewrite decide_False by done.
    eapply runs_bind with (Q := fun _ _ => True); [done| |].
    + destruct (Z.eqb_spec (size_offset f) 0); simpl; [by apply runs_ret with (D := D)|].
      eapply runs_conseq; [apply (runs_st_uint R D); [done|by apply (sm_has _ _ _ _ _ Hm)]|done].
    + intros _ s1 Hg1 _ _. by apply Hcall.
  - assert ((wt =? PB_WT_STRING) && (PB_LTYPE (type f) <=? PB_LTYPE_LAST_PACKABLE) = false) as ->.
    { destruct (Z.eqb_spec wt PB_WT_STRING); [|done].
      destruct (Z.leb_spec (PB_LTYPE (type f)) PB_LTYPE_LAST_PACKABLE); [|done]. by destruct Hnp. }
    pose proof (sm_count _ _ _ _ _ Hm E) as Hc. pose proof (sm_bytes _ _ _ _ _ Hm) as [_ Hb].
    pose proof (ok_data_size _ (sm_ok _ _ _ _ _ Hm)) as Hds.
    unfold field_bytes in Hb. rewrite E in Hb. simpl in Hb.
    eapply runs_bind; [done|by eapply runs_ld_size|]. intros z s1 Hg1 _ [Hz ->].
    eapply runs_bind; [done|by eapply (runs_st_size (D := D))|]. intros ? s2 Hg2 _ _.
    destruct (Z.leb_spec (array_size f) z); [by apply runs_error with (D := D)|].
    rewrite u32_id by nia. rewrite (Z.mul_comm (data_size f)).
    eapply runs_conseq; [eapply runs_item; [done| |done|done]|done].
    unfold field_items. rewrite E. simpl. lia.
  - destruct (sm_which _ _ _ _ _ Hm E) as [Hso Hw].
    pose proof (sm_bytes _ _ _ _ _ Hm) as [Hb _]. unfold field_bytes in Hb. rewrite E in Hb. simpl in Hb.
    eapply runs_bind; [done|by eapply (runs_st_size (D := D))|]. intros ? s1 Hg1 _ _.
    eapply runs_bind with (Q := fun _ _ => True); [done| |by intros; apply Hcall].
    destruct (Z.eqb_spec (PB_LTYPE (type f)) PB_LTYPE_SUBMESSAGE) as [El|El];
      [|by apply runs_ret with (D := D)].
    eapply runs_bind; [done|by apply (runs_memset0 R D)|]. intros ? s2 Hg2 _ _.
    destruct (sm_submessage _ _ _ _ _ Hm El) as (_ & fs & Hfs & Hsub).
    eapply runs_pure; [by rewrite Hfs|]. specialize (Hsub 0).
    rewrite Z.mul_0_l, Z.add_0_r in Hsub.
    apply (runs_message_defaults (D := D) fuel n); [|lia|done]. apply Hsub.
    unfold field_items. rewrite E. simpl. lia.
Qed.
End Fields.

(** ** Decoding messages *)

Section Message.
Context {R D : Z -> Prop} `{PbEnv}.
Context (rec : list pb_field_t -> Z -> M dstate unit) (fuel n : nat) (Hfuel : (n < fuel)%nat).
Context (Hrec : forall fields base s, static_message R D n fields base -> good R D s ->
           runs R false s (rec fields base) (fun _ _ => True)).
Context (fields : list pb_field_t) (base : Z) (Hmsg : static_message R D (S n) fields base).

#[local] Abbreviation left s := (i_bytes_left (d_stream s)).

(** An iterator over this message. *)
Definition on_message (it : pb_field_iter_t) : Prop :=
  exists k f p, iter_at fields base k it f p /\ size_at it f p.

Lemma message_terminated : terminated fields.
Proof. apply Hmsg. Qed.

Lemma message_unions : unions_ok fields.
Proof. apply Hmsg. Qed.

#[local] Hint Resolve message_terminated message_unions : core.

Lemma runs_find strict s it t (Q : bool * pb_field_iter_t -> dstate -> Prop) :
  good R D s -> on_message it ->
  (forall b it', on_message it' -> Q (b, it') s) ->
  runs R strict s (pb_field_iter_find it t) Q.
Proof.
  intros Hg (k & f & p & Hi & Hs) HQ.
  destruct (iter_find_at message_terminated message_unions k it f p t s Hi Hs)
    as (b & it' & k' & f' & p' & E & Hi' & Hs' & _).
  unfold runs. rewrite E. split; [by eapply good_step_refl|]. apply HQ. by exists k', f', p'.
Qed.

Lemma runs_cur strict s it (Q : pb_field_t -> dstate -> Prop) :
  good R D s -> on_message it ->
  (forall k f p, iter_at fields base k it f p -> size_at it f p -> Q f s) ->
  runs R strict s (cur it) Q.
Proof.
  intros Hg (k & f & p & Hi & Hs) HQ. unfold runs.
  rewrite (iter_at_cur message_terminated message_unions _ _ _ _ s Hi).
  split; [by eapply good_step_refl|by eapply HQ].
Qed.

(** Nothing is released, but an inconsistent [which] member is an error. *)
Lemma runs_release_union s it k f p :
  good R D s -> iter_at fields base k it f p -> size_at it f p ->
  PB_HTYPE (type f) = PB_HTYPE_ONEOF ->
  runs R false s (pb_release_union_field fuel it) (fun it' _ => on_message it').
Proof.
  intros Hg Hi Hs Eh. assert (on_message it) as Ho by (by exists k, f, p).
  pose proof (iter_at_member _ _ _ _ _ _ _ Hmsg Hi) as Hm.
  unfold pb_release_union_field.
  eapply runs_bind; [done|eapply runs_ld_size; [done|exact Hs|by apply (sm_which _ _ _ _ _ Hm)]|].
  intros old s1 Hg1 _ [_ ->].
  eapply runs_pure; [by apply (iter_at_cur message_terminated message_unions _ _ _ _ s Hi)|].
  cbv zeta. case_if; [by apply runs_ret with (D := D)|].
  eapply runs_bind; [done|apply (runs_find false s it old (fun r s' => on_message (snd r))); [done|done|]|].
  { by intros b it'. }
  intros [b it2] s2 Hg2 _ Ho2. simpl in Ho2. case_if; [by apply runs_error with (D := D)|].
  destruct Ho2 as (k2 & f2 & p2 & Hi2 & Hs2).
  eapply runs_pure; [eapply (pure_release_field (R := R) (D := D)); [exact Hmsg|done|apply Hg2|done|done]|].
  eapply runs_bind; [done|apply (runs_find false s2 it2 (tag f) (fun r s' => on_message (snd r))); [done| |]|].
  { by exists k2, f2, p2. }
  { by intros b2 it'. }
  intros [b2 it3] s3 Hg3 _ Ho3. case_if; [by apply runs_error with (D := D)|].
  by apply runs_ret with (D := D).
Qed.

Lemma runs_decode_field s wt it :
  good R D s -> on_message it ->
  runs R false s (decode_field rec fuel wt it) (fun it' _ => on_message it').
Proof.
  intros Hg Ho. pose proof Ho as (k & f & p & Hi & Hs). unfold decode_field.
  eapply runs_pure; [by apply (iter_at_cur message_terminated message_unions _ _ _ _ s Hi)|].
  eapply runs_bind with (Q := fun it' _ => on_message it'); [done| |].
  - destruct (Z.eqb_spec (PB_HTYPE (type f)) PB_HTYPE_ONEOF) as [E|E]; [|by apply runs_ret with (D := D)].
    by eapply runs_release_union.
  - clear Ho k f p Hi Hs. intros it' s1 Hg1 _ (k & f & p & Hi & Hs).
    pose proof (iter_at_cur message_terminated message_unions _ _ _ _ s1 Hi) as Hcur.
    pose proof (iter_at_member _ _ _ _ _ _ _ Hmsg Hi) as Hm.
    eapply runs_pure; [exact Hcur|]. rewrite (sm_static _ _ _ _ _ Hm). simpl (_ =? _). cbv iota.
    eapply runs_bind; [done|eapply runs_static_field; [done|done|exact Hm|done..|apply Hi]|].
    intros _ s2 Hg2 _ _. apply runs_ret with (D := D); [done|]. by exists k, f, p.
Qed.

(** The local variables between two rounds. *)
Definition locals_ok (l : locals) : Prop :=
  on_message (the_iter l) /\
  (forall k, fixed_count_field l = Some k -> is_Some (fields !! k)).

Lemma runs_check_fixed s k :
  good R D s -> (forall j, k = Some j -> is_Some (fields !! j)) ->
  runs R false s (check_fixed_count fields k) (fun _ s' => left s' = left s).
Proof.
  intros Hg Hk. destruct k as [k|]; simpl; [|by apply runs_ret with (D := D)].
  destruct (Hk k eq_refl) as [f Hf]. eapply runs_pure; [by rewrite Hf|].
  unfold gets. eapply runs_pure; [done|]. case_if; [by apply runs_error with (D := D)|].
  by apply runs_ret with (D := D).
Qed.

(** Unknown fields are skipped: there are no extensions. *)
Lemma runs_decode_unknown s t wt rs it :
  good R D s -> on_message it -> 0 <= t < 2 ^ 29 ->
  runs R false s (decode_unknown rec fuel t wt rs it) (fun r _ => on_message (snd r)).
Proof.
  intros Hg (k & f & p & Hi & Hs) Ht. unfold decode_unknown.
  eapply runs_bind with (Q := fun r _ => let '(handled, _, it') := r in on_message it'); [done| |].
  - case_if; [|apply runs_ret with (D := D); [done|by exists k, f, p]].
    destruct (search_spec message_terminated message_unions
      (fun f => PB_LTYPE (type f) =? PB_LTYPE_EXTENSION) k it f p s Hi Hs)
      as (b & it' & k' & f' & p' & E & Hi' & Hs' & Hb).
    eapply runs_pure; [exact E|]. cbv beta iota.
    eapply runs_pure; [by apply (iter_at_cur message_terminated message_unions _ _ _ _ s Hi')|].
    destruct b.
    { pose proof (iter_at_member _ _ _ _ _ _ _ Hmsg Hi') as Hm.
      apply Z.eqb_eq in Hb. by destruct (sm_no_extension _ _ _ _ _ Hm). }
    cbv zeta. change (u32 (-1)) with (2 ^ 32 - 1).
    destruct (Z.leb_spec (2 ^ 32 - 1) t); [lia|]. apply runs_ret with (D := D); [done|].
    by exists k', f', p'.
  - intros [[handled rs'] it'] s1 Hg1 _ Ho. eapply runs_bind with (Q := fun _ _ => True); [done| |].
    + case_if; [by apply runs_ret with (D := D)|by apply (runs_skip_field (D := D))].
    + intros _ s2 Hg2 _ _. by apply runs_ret with (D := D).
Qed.

(** The iterator of a fixed-count field gets the local counter. *)
Lemma runs_fixed_count s l k it f p :
  locals_ok l -> good R D s -> iter_at fields base k it f p -> size_at it f p ->
  runs R false s
    (if (PB_HTYPE (type f) =? PB_HTYPE_REPEATED) && size_is_data it then
       fixed ←
         (if negb (bool_decide (fixed_count_field l = Some (pos it))) then
            check_fixed_count fields (fixed_count_field l) ;;
            modify (set_d_fixed 0) ;;
            ret (Some (pos it))
          else ret (fixed_count_field l)) ;
       ret (Iter (start it) (pos it) (required_field_index it)
              (dest_struct it) (pData it) PLocal, fixed)
     else ret (it, fixed_count_field l))
    (fun r s' => on_message (fst r) /\ (forall j, snd r = Some j -> is_Some (fields !! j)) /\ left s' = left s).
Proof.
  intros [Ho Hl] Hg Hi Hs.
  destruct (Z.eqb_spec (PB_HTYPE (type f)) PB_HTYPE_REPEATED) as [Eh|Eh]; simpl andb.
  2: { apply runs_ret with (D := D); [done|]. split_and!; [by exists k, f, p|done|done]. }
  destruct (size_is_data it) eqn:Ed.
  2: { apply runs_ret with (D := D); [done|]. split_and!; [by exists k, f, p|done|done]. }
  rewrite (size_is_data_spec it f p Hs (ia_data _ _ _ _ _ _ Hi)) in Ed.
  assert (size_offset f = 0) as Eso by (case_decide; [done|]; by apply Z.eqb_eq).
  assert (is_Some (fields !! pos it)) as Hpos.
  { rewrite (ia_pos _ _ _ _ _ _ Hi).
    destruct (place_inv message_terminated message_unions _ _ _ (ia_place _ _ _ _ _ _ Hi)) as [-> _]. by eexists. }
  eapply runs_bind with (Q := fun r s' => (forall j, r = Some j -> is_Some (fields !! j)) /\ left s' = left s);
    [done| |].
  - case_if; [|by apply runs_ret with (D := D)].
    eapply runs_bind; [done|by apply runs_check_fixed|]. intros ? s1 Hg1 _ E1.
    eapply runs_bind with (Q := fun _ s' => left s' = left s1); [done| |].
    + destruct (good_step_refl _ _ _ Hg1). split; [by split|done].
    + intros ? s2 Hg2 _ E2. apply runs_ret with (D := D); [done|]. split; [by intros ? [= <-]|simpl in *; lia].
  - intros fixed s1 Hg1 _ [Hf E]. apply runs_ret with (D := D); [done|]. simpl. split_and!; [|done|done].
    exists k, f, p. destruct Hi. split; [by split|]. right. done.
Qed.

Lemma runs_decode_round s l :
  good R D s -> locals_ok l ->
  runs R false s (decode_round rec fuel fields l) (fun r s' =>
    match r with
    | inl l' => locals_ok l' /\ left s' < left s
    | inr l' => locals_ok l'
    end).
Proof.
  intros Hg Hl. pose proof Hl as [Ho Hfix]. unfold decode_round, bytes_left, gets.
  eapply runs_pure; [done|]. case_if; [by apply runs_ret with (D := D)|].
  eapply runs_bind; [done|by apply (runs_decode_tag (D := D))|].
  intros [[[ok wt] t] eof] s1 Hg1 _ Htag. destruct ok; simpl negb; cbv iota.
  2: { case_if; [by apply runs_ret with (D := D)|by apply runs_fail with (D := D)]. }
  destruct (Htag eq_refl) as [Ht Hlt].
  eapply runs_bind; [done|apply (runs_find false s1 (the_iter l) t (fun r s' => on_message (snd r) /\ s' = s1)); [done|done|]|].
  { by intros b it'. }
  intros [found it] s2 Hg2 _ [Ho2 ->]. simpl in Ho2. destruct found; simpl negb; cbv iota.
  - destruct Ho2 as (k & f & p & Hi & Hs).
    eapply runs_pure; [by apply (iter_at_cur message_terminated message_unions _ _ _ _ s1 Hi)|].
    eapply runs_bind; [done|by eapply runs_fixed_count|].
    intros [it' fixed] s2 Hg3 _ (Ho' & Hf' & E2). simpl in *. cbv zeta.
    eapply runs_bind; [done|by apply runs_decode_field|].
    intros it3 s3 Hg4 [[_ [_ ?] _] _] Ho3. apply runs_ret with (D := D); [done|].
    split; [by split|]. simpl in *. lia.
  - eapply runs_bind; [done|by apply runs_decode_unknown|].
    intros [rs it'] s2 Hg3 [[_ [_ ?] _] _] Ho3. apply runs_ret with (D := D); [done|].
    split; [by split|]. simpl in *. lia.
Qed.

(** The walk that counts the required fields ends at the terminator. *)
Lemma runs_count_required s it :
  good R D s -> on_message it -> runs R false s (count_required it) (fun _ _ => True).
Proof.
  intros Hg (k & f & p & Hi & Hs). unfold count_required.
  apply (runs_loop R D (fun it _ => on_message it)
    (fun it _ => Z.of_nat (length (places fields base)) - Z.of_nat (pos it))).
  - done.
  - by exists k, f, p.
  - rewrite (ia_start _ _ _ _ _ _ Hi). pose proof (@places_length fields base). lia.
  - clear s it k f p Hg Hi Hs. intros it s Hg (k & f & p & Hi & Hs).
    rewrite (ia_pos _ _ _ _ _ _ Hi). pose proof (place_lt _ _ _ (ia_place _ _ _ _ _ _ Hi)). split; [lia|].
    eapply runs_pure; [by apply (iter_at_cur message_terminated message_unions _ _ _ _ s Hi)|]. cbv zeta.
    destruct (iter_next_at message_terminated message_unions k it f p s Hi Hs) as (it' & f' & p' & Hn & Hi' & Hs').
    eapply runs_pure; [exact Hn|]. unfold next_pos in Hi'.
    destruct (Nat.eqb_spec (S k) (length (places fields base))); simpl negb; cbv iota beta.
    + eapply runs_pure; [by apply (iter_at_cur message_terminated message_unions _ _ _ _ s Hi')|].
      by apply runs_ret with (D := D).
    + apply runs_ret with (D := D); [done|]. split; [by exists (S k), f', p'|].
      rewrite (ia_pos _ _ _ _ _ _ Hi'). lia.
Qed.

Lemma runs_noinit_body s :
  good R D s -> runs R false s (decode_noinit_body rec fuel fields base) (fun _ _ => True).
Proof.
  intros Hg. unfold decode_noinit_body.
  destruct (iter_begin_in _ fields base s Hmsg) as (_ & _ & it & f & p & b & E & Hi & Hs).
  eapply runs_pure; [exact E|]. cbv beta iota.
  eapply runs_bind; [done|apply (runs_byte_loop R D (fun l _ => locals_ok l) _ _ _ (fun l _ => locals_ok l))|].
  - done.
  - split; simpl; [by exists 0%nat, f, p|done].
  - intros l s1 Hg1 Hl. by apply runs_decode_round.
  - intros l s1 Hg1 _ [Ho Hf].
    eapply runs_bind; [done|by apply runs_check_fixed|]. intros ? s2 Hg2 _ _.
    eapply runs_bind; [done|by apply runs_count_required|]. intros req s3 Hg3 _ _.
    case_if; [by apply runs_ret with (D := D)|by apply runs_error with (D := D)].
Qed.
End Message.

Section Decode.
Context {R D : Z -> Prop} `{PbEnv}.

Lemma runs_own_fixed s (m : M dstate unit) :
  runs R false (set_d_fixed 0 s) m (fun _ _ => True) -> runs R false s (own_fixed m) (fun _ _ => True).
Proof. unfold runs, own_fixed. by destruct (m (set_d_fixed 0 s)). Qed.

(** [pb_decode_noinit] on a message that is initialised. *)
Lemma runs_decode_noinit n fuel fields base s :
  static_message R D n fields base -> (n < fuel)%nat -> good R D s ->
  runs R false s (pb_decode_noinit fuel fields base) (fun _ _ => True).
Proof.
  revert fuel fields base s. induction n as [|n IH]; intros fuel fields base s Hm Hf Hg; [done|].
  destruct fuel as [|fuel]; [lia|]. cbn [pb_decode_noinit]. apply runs_own_fixed.
  apply (runs_noinit_body (D := D) _ fuel n); [lia| |done|by destruct Hg].
  intros fs b s' Hm' Hg'. apply IH; [done|lia|done].
Qed.

Lemma runs_decode n fuel fields base s :
  static_message R D n fields base -> (n < fuel)%nat -> good R D s ->
  runs R false s (pb_decode fuel fields base) (fun _ _ => True).
Proof.
  intros Hm Hf Hg. apply (runs_decode_over (D := D) _ fuel n); [done| |done|done].
  intros. by eapply runs_decode_noinit.
Qed.
End Decode.

(** Where a message structure is placed ([R]), where the constant data of its
    descriptors is ([D]), and an input buffer apart from both. *)
Record decode_input (R D : Z -> Prop) (buf size : Z) (m : mem) : Prop := {
  di_size : 0 <= size < 2 ^ 64;
  di_buffer i : 0 <= i < size -> readable m (buf + i) /\ ~ R (buf + i);
  di_region a : R a -> readable m a;
  di_constants a : D a -> readable m a /\ ~ R a;
}.

(** What a caller can rely on whatever the input was: the memory outside the
    structure is as before, and if the call succeeds the stream has moved by
    the bytes consumed. *)
Definition safe_outcome {A} (R : Z -> Prop) (buf size : Z) (m : mem) (r : res dstate A) : Prop :=
  let confined s := m_heap (d_mem s) = m_heap m /\
    (forall a, ~ R a -> m_cells (d_mem s) !! a = m_cells m !! a) /\
    (forall a, readable m a -> readable (d_mem s) a) in
  match r with
  | Ok _ s => confined s /\
      exists n, 0 <= n <= size /\ i_state (d_stream s) = buf + n /\ i_bytes_left (d_stream s) = size - n
  | Fail s => confined s
  | Ub | Timeout => False
  end.

Section Safe.
Context `{PbEnv}.

Lemma decode_input_good R D buf size m d :
  decode_input R D buf size m -> good R D (DState (pb_istream_from_buffer buf size) m d).
Proof.
  intros [Hs Hb Hr Hc]. split; [|by split].
  split; simpl; [done|done|]. intros k Hk. by apply Hb.
Qed.

Lemma runs_outcome {A} R buf size m d (c : M dstate A) strict Q :
  runs R strict (DState (pb_istream_from_buffer buf size) m d) c Q ->
  safe_outcome R buf size m (c (DState (pb_istream_from_buffer buf size) m d)).
Proof.
  unfold runs, safe_outcome. destruct (c _) as [a s|s| |]; try done.
  - intros [[[Hc Hl Hst] [Hm1 Hm2 Hm3]] _]. simpl in *. split; [done|].
    exists (size - i_bytes_left (d_stream s)). lia.
  - destruct strict; [intros [_ [? ? ?]]|intros [_ [? ? ?]]]; done.
Qed.

(** C2. [pb_decode] of a statically allocated message, on any
    input whatever: it terminates, runs into no undefined behaviour, reads
    only bytes of the stream, and writes only bytes of the message. *)
Theorem pb_decode_safe R D n fuel fields base buf size m d :
  static_message R D n fields base -> (n < fuel)%nat -> decode_input R D buf size m ->
  safe_outcome R buf size m
    (pb_decode fuel fields base (DState (pb_istream_from_buffer buf size) m d)).
Proof.
  intros Hm Hf Hi. eapply runs_outcome, runs_decode; [exact Hm|done|by apply decode_input_good].
Qed.

(** Both delimited variants wrap a body that is safe on substreams. *)
Lemma runs_delimited R D s (body : M dstate unit) :
  good R D s -> (forall s', good R D s' -> runs R false s' body (fun _ _ => True)) ->
  runs R false s
    (substream ← pb_make_string_substream ;
     '(st, substream) ← on_istream substream body ;
     pb_close_string_substream substream ;;
     match st with Some _ => ret tt | None => fail end) (fun _ _ => True).
Proof.
  intros Hg Hb. unfold runs at 1.
  destruct (make_cases (R := R) (D := D) s Hg) as [(s' & E & Hs')|(sub & s1 & E & Hcut)].
  { rewrite (bind_fail _ _ _ _ E). by apply (step_fail R (strict := false)). }
  rewrite (bind_ok _ _ _ _ _ E).
  destruct (on_istream_cases _ _ _ _ _ _ Hcut (Hb _ (cut_good _ _ _ Hcut)))
    as (st & sub' & s2 & E2 & Es & Hms & Hcb & Hst).
  rewrite (bind_ok _ _ _ _ _ E2). cbv beta iota.
  rewrite (bind_ok _ _ _ _ _ (close_substream sub' s2 Hcb)).
  rewrite Es, (cut_callback _ _ _ Hcut). destruct st as [[]|];
    [|split; simpl; [by rewrite (io_callback _ _ _ (g_input _ _ _ Hg))|done]].
  rewrite <- Es. destruct Hst as [Hst _].
  split; [|done]. exact (proj1 (closed_step _ _ _ _ _ Hcut Hst Es Hms Hg)).
Qed.

(** The same for length-delimited messages, whose
    length is part of the untrusted input. *)
Theorem pb_decode_delimited_safe R D n fuel fields base buf size m d :
  static_message R D n fields base -> (n < fuel)%nat -> decode_input R D buf size m ->
  safe_outcome R buf size m
    (pb_decode_delimited fuel fields base (DState (pb_istream_from_buffer buf size) m d)) /\
  safe_outcome R buf size m
    (pb_decode_delimited_noinit fuel fields base (DState (pb_istream_from_buffer buf size) m d)).
Proof.
  intros Hm Hf Hi. pose proof (decode_input_good R D buf size m d Hi) as Hg.
  split; (eapply runs_outcome, runs_delimited; [exact Hg|]); intros s' Hg'.
  - by eapply runs_decode.
  - by eapply runs_decode_noinit.
Qed.

(** Skipping a field of any wire type is safe on any
    input and stores nothing. *)
Theorem pb_skip_field_safe wt buf size m d :
  0 <= size < 2 ^ 64 -> (forall i, 0 <= i < size -> readable m (buf + i)) ->
  safe_outcome (fun _ => False) buf size m
    (pb_skip_field wt (DState (pb_istream_from_buffer buf size) m d)).
Proof.
  intros Hs Hb. eapply runs_outcome, (runs_skip_field (D := fun _ => False) (strict := false)).
  apply decode_input_good. split; [done| |by intros ? []|by intros ? []]. intros i Hi. split; [by apply Hb|by intros []].
Qed.
End Safe.
