(* ===== verification/Sample.v ===== *)
(** * A sample program

    A message type with every kind of statically allocated field, a structure
    of that type in memory, and the environment around it.  The general
    theorems are applied to it in the witnesses of the development. *)
From S2P Require Import Prelude Mem Comp Varint Pb PbEnv PbCommon OStream EncodeLogic WireSpec PbEncode EncodeProps IStream StreamLogic PbDecode IterLogic DecodeLogic DecodeProps.

(** [message Point { required fixed32 x = 1; }] *)
Definition Point_x : member := Member 0 4 4.

Definition Point_fields : list pb_field_t :=
  [ PB_REQUIRED_STATIC 1 Point_x (PB_DATAOFFSET_FIRST Point_x Point_x) (PB_LTYPE_MAP FIXED32) NULL;
    PB_LAST_FIELD ].

(** The address of [Point_fields] in the program. *)
Definition Point_ptr : Z := 8000.

(** [struct Msg { int32_t a; bool has_b; int32_t b; pb_size_t c_count;
    uint32_t c[4]; char s[8]; bool has_p; Point p; pb_size_t which_u;
    union { uint32_t d; Point e; } u; }] *)
Definition Msg_a : member := Member 0 4 4.
Definition Msg_has_b : member := Member 4 1 1.
Definition Msg_b : member := Member 8 4 4.
Definition Msg_c_count : member := Member 12 4 4.
Definition Msg_c : member := Member 16 16 4.
Definition Msg_s : member := Member 32 8 8.
Definition Msg_has_p : member := Member 40 1 1.
Definition Msg_p : member := Member 44 4 4.
Definition Msg_which_u : member := Member 48 4 4.
Definition Msg_u_d : member := Member 52 4 4.
Definition Msg_u_e : member := Member 52 4 4.
Definition Msg_size : Z := 56.

Definition Msg_fields : list pb_field_t :=
  [ PB_REQUIRED_STATIC 1 Msg_a (PB_DATAOFFSET_FIRST Msg_a Msg_a) (PB_LTYPE_MAP INT32) NULL;
    PB_OPTIONAL_STATIC 2 Msg_has_b Msg_b (PB_DATAOFFSET_OTHER Msg_b Msg_a) (PB_LTYPE_MAP SINT32) NULL;
    PB_REPEATED_STATIC 3 Msg_c_count Msg_c (PB_DATAOFFSET_OTHER Msg_c Msg_b) (PB_LTYPE_MAP UINT32) NULL;
    PB_REQUIRED_STATIC 4 Msg_s (PB_DATAOFFSET_OTHER Msg_s Msg_c) (PB_LTYPE_MAP STRING) NULL;
    PB_OPTIONAL_STATIC 5 Msg_has_p Msg_p (PB_DATAOFFSET_OTHER Msg_p Msg_s) (PB_LTYPE_MAP MESSAGE) Point_ptr;
    PB_ONEOF_STATIC 6 Msg_which_u Msg_u_d (PB_DATAOFFSET_OTHER Msg_u_d Msg_p) (PB_LTYPE_MAP UINT32) NULL;
    PB_ONEOF_STATIC 7 Msg_which_u Msg_u_e (PB_DATAOFFSET_UNION Msg_u_e Msg_u_d) (PB_LTYPE_MAP MESSAGE) Point_ptr;
    PB_LAST_FIELD ].

(** Nothing but the two descriptor arrays: no callbacks, no allocation. *)
Definition sample_env : PbEnv := {|
  env_fields a := if a =? Point_ptr then Some Point_fields else None;
  env_ext_type _ := None;
  env_ostream_cb _ o _ m := (false, o, m);
  env_istream_cb _ i _ m := (false, [], i, m);
  env_encode_cb _ o _ _ m := (false, o, m);
  env_decode_cb _ i _ _ m := (false, i, m);
  env_ext_encode _ o _ m := (false, o, m);
  env_ext_decode _ i _ _ _ m := (false, i, m);
  env_realloc _ _ _ := None;
  env_stack _ _ := 9000;
|}.
#[export] Existing Instance sample_env.

(** A memory with the given bytes at [a] and nothing else. *)
Definition mem_of (a : Z) (bs : list byte) : mem :=
  put_bytes (Mem (map_cells ∅ a (length bs)) ∅) a bs.

(** The same with [n] more cells at [b]. *)
Definition with_cells (b : Z) (n : nat) (x : byte) (m : mem) : mem :=
  put_bytes (Mem (map_cells (m_cells m) b n) (m_heap m)) b (replicate n x).

(** [{ a = -5, b = -3, c = {300, 7}, s = "ab", p = {1}, u.d = 9 }] *)
Definition sample_struct : list byte :=
  le_split 4 (-5) ++ [byte_of 1; byte_of 0; byte_of 0; byte_of 0] ++ le_split 4 (-3) ++
  le_split 4 2 ++ le_split 4 300 ++ le_split 4 7 ++ le_split 8 0 ++ le_split 8 0x6261 ++
  [byte_of 1; byte_of 0; byte_of 0; byte_of 0] ++ le_split 4 1 ++ le_split 4 6 ++ le_split 4 9.

Definition sample_src : mem := mem_of 100 sample_struct.

(** The encoding of the structure, field by field. *)
Definition sample_parts : list (list Z) :=
  [ [0x08; 0xFB; 0xFF; 0xFF; 0xFF; 0xFF; 0xFF; 0xFF; 0xFF; 0xFF; 0x01];
    [0x10; 0x05];
    [0x1A; 0x03; 0xAC; 0x02; 0x07];
    [0x22; 0x02; 0x61; 0x62];
    [0x2A; 0x05; 0x0D; 0x01; 0x00; 0x00; 0x00];
    [0x30; 0x09];
    [] ].

Definition sample_bytes : list byte := map byte_of (concat sample_parts).

Definition sample_encode : M estate unit := pb_encode 3 Msg_fields 100.

(** A memory with the structure and an output buffer of 40 bytes at 200. *)
Definition sample_mem : mem := with_cells 200 40 (byte_of 0) sample_src.

Example sample_encodes :
  match sample_encode (EState (pb_ostream_from_buffer 200 40) sample_mem) with
  | Ok _ s => load_bytes (e_mem s) 200 (Z.to_nat (o_bytes_written (e_stream s)))
  | _ => None
  end = Some sample_bytes.
Proof. vm_compute. reflexivity. Qed.

(** ** The structure has this wire format *)

Lemma field_ok_check f :
  (0 <=? tag f) && (tag f <? 2 ^ 32) && (0 <=? type f) && (type f <? 2 ^ 8) &&
  (0 <=? data_size f) && (data_size f <? 2 ^ 32) && (0 <=? array_size f) && (array_size f <? 2 ^ 32) &&
  (PB_LTYPE (type f) <? PB_LTYPES_COUNT) = true -> field_ok f.
Proof. intros Hf. rewrite !andb_true_iff, !Z.leb_le, !Z.ltb_lt in Hf. split; lia. Qed.

Ltac field_ok := apply field_ok_check; reflexivity.
Ltac terminated := unfold terminated; repeat first [apply Exists_cons_hd; reflexivity|apply Exists_cons_tl].

(** A static member; what is left is [wire_basic]. *)
Ltac basic := unfold wire_member; simpl; apply wf_basic; [by left|done|field_ok|].

Lemma wire_keyed_eq `{PbEnv} src sub f p wt b bs :
  wiretype_of (PB_LTYPE (type f)) = Some wt -> bs = wire_key f wt ++ b ->
  wire_value src sub f p b -> wire_keyed src sub f p bs.
Proof. intros Hwt -> Hv. by apply wk_intro. Qed.

Lemma wire_array_eq `{PbEnv} src sub f p count b bs :
  bs = wire_key f PB_WT_STRING ++ varint (Z.of_nat (length b)) ++ b ->
  0 < count -> (PB_ATYPE (type f) <> PB_ATYPE_POINTER -> count <= array_size f) ->
  PB_LTYPE (type f) <= PB_LTYPE_LAST_PACKABLE ->
  wire_items src sub f p (Z.to_nat count) b -> Z.of_nat (length b) < 2 ^ 64 ->
  wire_array src sub f p count bs.
Proof. intros ->. apply wa_packed. Qed.

Lemma sample_point_wire p b :
  p <> NULL -> load_bytes sample_src p 4 = Some b ->
  wire_message sample_src 1 Point_fields p (byte_of 0x0D :: b).
Proof.
  intros Hp Hb. split; [terminated|]. exists [byte_of 0x0D :: b].
  split; [|simpl; by rewrite app_nil_r]. constructor; [|constructor]. basic.
  eapply (wb_required _ _ _ _ _ p); [done|simpl; unfold data_at; simpl; lia|done|].
  apply (wire_keyed_eq _ _ _ _ PB_WT_32BIT b); [reflexivity..|]. by apply wv_fixed32.
Qed.

Lemma sample_wire : wire_message sample_src 2 Msg_fields 100 sample_bytes.
Proof.
  split; [terminated|]. exists (map (map byte_of) sample_parts). split; [|vm_compute; reflexivity].
  repeat (constructor; [basic|]); [..|constructor].
  - (* a *)
    apply (wb_required _ _ _ _ _ 100); [done..|].
    apply (wire_keyed_eq _ _ _ _ PB_WT_VARINT (varint (u64 (-5)))); [reflexivity|vm_compute; reflexivity|].
    apply wv_varint; [done|right; right; by left|vm_compute; reflexivity].
  - (* b *)
    apply (wb_optional _ _ _ _ _ 108 1); [done|done|reflexivity|vm_compute; reflexivity| |done]. intros _.
    apply (wire_keyed_eq _ _ _ _ PB_WT_VARINT (varint (zigzag (-3)))); [reflexivity|vm_compute; reflexivity|].
    apply wv_svarint; [done|right; right; by left|vm_compute; reflexivity].
  - (* c *)
    apply (wb_repeated _ _ _ _ _ 116 2); [done|reflexivity|intros; vm_compute; reflexivity|done|].
    apply (wire_array_eq _ _ _ _ _ (varint 300 ++ varint 7 ++ [])); [vm_compute; reflexivity|done..| |done].
    apply wi_cons; [|apply wi_cons; [|apply wi_nil]].
    all: apply wv_uvarint; [done|right; right; by left|vm_compute; reflexivity].
  - (* s *)
    apply (wb_required _ _ _ _ _ 132); [done..|].
    apply (wire_keyed_eq _ _ _ _ PB_WT_STRING (varint 2 ++ map byte_of [0x61; 0x62])); [reflexivity|vm_compute; reflexivity|].
    apply (wv_string _ _ _ _ (map byte_of [0x61; 0x62])); [done..|].
    split_and!; [vm_compute; reflexivity|repeat constructor; done|done|right; vm_compute; reflexivity].
  - (* p *)
    apply (wb_optional _ _ _ _ _ 144 1); [done|done|reflexivity|vm_compute; reflexivity| |done]. intros _.
    apply (wire_keyed_eq _ _ _ _ PB_WT_STRING (varint 5 ++ map byte_of [0x0D; 1; 0; 0; 0])); [reflexivity|vm_compute; reflexivity|].
    apply (wv_submessage _ _ _ _ Point_fields (map byte_of [0x0D; 1; 0; 0; 0])); [done|done|reflexivity| |done].
    apply sample_point_wire; [done|vm_compute; reflexivity].
  - (* u.d *)
    apply (wb_oneof _ _ _ _ _ 152 6); [done|done|reflexivity|vm_compute; reflexivity| |done]. intros _.
    apply (wire_keyed_eq _ _ _ _ PB_WT_VARINT (varint 9)); [reflexivity|vm_compute; reflexivity|].
    apply wv_uvarint; [done|right; right; by left|vm_compute; reflexivity].
  - (* u.e *)
    by apply (wb_oneof _ _ _ _ _ 152 6); [done|done|reflexivity|vm_compute; reflexivity|done|].
Qed.

(** ** Where its parts are *)

Lemma with_cells_ne b n x m a :
  ~ (b <= a < b + Z.of_nat n) -> m_cells (with_cells b n x m) !! a = m_cells m !! a.
Proof.
  intros Ha. unfold with_cells. rewrite cells_put_bytes_ne by (rewrite length_replicate; lia).
  simpl. by apply map_cells_ne.
Qed.

Lemma with_cells_readable b n x m a : b <= a < b + Z.of_nat n -> readable (with_cells b n x m) a.
Proof.
  intros Ha. unfold with_cells, readable.
  pose proof (load_bytes_put_bytes (Mem (map_cells (m_cells m) b n) (m_heap m)) b (replicate n x)) as Hl.
  rewrite length_replicate in Hl. pose proof (load_bytes_lookup _ _ _ _ (a - b) Hl ltac:(lia)) as E.
  replace (b + (a - b)) with a in E by lia. rewrite E. apply lookup_lt_is_Some. rewrite length_replicate. lia.
Qed.

Lemma mem_of_None a bs x : ~ (a <= x < a + Z.of_nat (length bs)) -> m_cells (mem_of a bs) !! x = None.
Proof.
  intros Hx. unfold mem_of. rewrite cells_put_bytes_ne by done. simpl. rewrite map_cells_ne by done.
  apply lookup_empty.
Qed.

(** A buffer put next to some data. *)
Lemma with_cells_buffer a bs b n x size :
  size = Z.of_nat n -> size < 2 ^ 64 ->
  b + Z.of_nat n <= a \/ a + Z.of_nat (length bs) <= b ->
  output_buffer (mem_of a bs) (with_cells b n x (mem_of a bs)) b size.
Proof.
  intros -> Hn Hd. split.
  - apply map_subseteq_spec. intros y c Hy. rewrite with_cells_ne; [done|].
    intros Hr. rewrite mem_of_None in Hy by lia. done.
  - lia.
  - intros i Hi. apply readable_mapped, with_cells_readable. lia.
  - intros i Hi. apply mem_of_None. lia.
Qed.

Lemma sample_output_buffer : output_buffer sample_src sample_mem 200 40.
Proof. apply with_cells_buffer; [done|done|right; vm_compute; done]. Qed.

(** ** The message as a place for the decoder *)

(** The structure at 300. *)
Definition sample_region (a : Z) : Prop := 300 <= a < 300 + Msg_size.

(** No default values are stored apart. *)
Definition no_constants (a : Z) : Prop := False.

Lemma within_check p n :
  (300 <=? p) && (p + n <=? 300 + Msg_size) = true -> within sample_region p n.
Proof. intros Hp. zify_bool. intros i Hi. unfold sample_region. lia. Qed.

Ltac in_region := apply within_check; reflexivity.
Ltac static_member :=
  split; first
    [ field_ok
    | done
    | by intros
    | intros; in_region
    | split; [in_region|reflexivity]
    | intros; split; [done|in_region]
    | intros; split; [done|exists Point_fields; split; [done|]] ].

Lemma sample_point_static p :
  (forall i, 0 <= i < 4 -> sample_region (p + i)) ->
  static_message sample_region no_constants 1 Point_fields p.
Proof.
  intros Hp. split_and!; [terminated|done|]. intros f q [[= <- <-]|[]].
  split; try done; try (intros; exfalso; done).
  all: first [field_ok|split; [intros i Hi; simpl; rewrite Z.add_0_r; by apply Hp|done]].
Qed.

Lemma sample_static : static_message sample_region no_constants 2 Msg_fields 300.
Proof.
  split_and!; [terminated|simpl; split_and!; by intros|]. intros f p Hin.
  assert (places Msg_fields 300 = combine (take 7 Msg_fields) [300; 308; 316; 332; 344; 352; 352]) as E
    by (vm_compute; reflexivity).
  rewrite E in Hin. simpl in Hin.
  assert (forall q, 300 <= q <= 352 -> static_message sample_region no_constants 1 Point_fields q) as Hpoint.
  { intros q Hq. apply sample_point_static. unfold sample_region, Msg_size. lia. }
  repeat (destruct Hin as [[= <- <-]|Hin]; [static_member|]); [..|done].
  all: intros i Hi; change (0 <= i < 1) in Hi; assert (i = 0) as -> by lia.
  all: rewrite Z.mul_0_l; apply Hpoint; lia.
Qed.

(** An input buffer at 200 and the structure, zeroed, at 300. *)
Definition sample_input (bs : list byte) : mem := with_cells 300 56 (byte_of 0) (mem_of 200 bs).

Lemma mem_of_readable a bs x : a <= x < a + Z.of_nat (length bs) -> readable (mem_of a bs) x.
Proof.
  intros Hx. unfold readable, mem_of.
  pose proof (load_bytes_put_bytes (Mem (map_cells ∅ a (length bs)) ∅) a bs) as Hl.
  pose proof (load_bytes_lookup _ _ _ _ (x - a) Hl ltac:(lia)) as E.
  replace (a + (x - a)) with x in E by lia. rewrite E. apply lookup_lt_is_Some. lia.
Qed.

Lemma sample_decode_input bs :
  Z.of_nat (length bs) <= 100 ->
  decode_input sample_region no_constants 200 (Z.of_nat (length bs)) (sample_input bs).
Proof.
  intros Hl. assert (forall a, 200 <= a < 200 + Z.of_nat (length bs) -> readable (sample_input bs) a) as Hr.
  { intros a Ha. unfold sample_input, readable, load_byte. rewrite with_cells_ne by lia.
    by apply mem_of_readable. }
  split; [lia| | |by intros a []].
  - intros i Hi. split; [apply Hr; lia|]. unfold sample_region. lia.
  - intros a Ha. apply with_cells_readable. unfold sample_region, Msg_size in Ha. simpl. lia.
Qed.
