(* ===== verification/Findings.v ===== *)
(** * What the model shows to be wrong

    First what a refused allocation does to any repeated pointer field.  Then
    examples, each a complete program: descriptors, memory, input and, where one
    is involved, an allocator; their outcome is computed from the definitions of
    the decoder. *)
From S2P Require Import Prelude Mem Comp Pb PbEnv PbCommon OStream IStream PbDecode.

(** A memory with the bytes [bs] at [a], added to [m]. *)
Definition put_block (a : Z) (bs : list Z) (m : mem) : mem :=
  put_bytes (Mem (map_cells (m_cells m) a (length bs)) (m_heap m)) a (map byte_of bs).

Definition empty_mem : mem := Mem ∅ ∅.

(** A program with one submessage type at 8000 and an allocator. *)
Definition program (sub : list pb_field_t) (alloc : mem -> Z -> Z -> option Z) : PbEnv := {|
  env_fields a := if a =? 8000 then Some sub else None;
  env_ext_type _ := None;
  env_ostream_cb _ o _ m := (false, o, m);
  env_istream_cb _ i _ m := (false, [], i, m);
  env_encode_cb _ o _ _ m := (false, o, m);
  env_decode_cb _ i _ _ m := (false, i, m);
  env_ext_encode _ o _ m := (false, o, m);
  env_ext_decode _ i _ _ _ m := (false, i, m);
  env_realloc := alloc;
  env_stack _ _ := 9000;
|}.

(** Blocks are placed one after the other, 100 bytes apart; requests for more
    than [limit] bytes fail. *)
Definition bounded_alloc (limit : Z) (m : mem) (p size : Z) : option Z :=
  if limit <? size then None else Some (5000 + 100 * Z.of_nat (base.size (m_heap m))).

(** Decoding the bytes [input], placed at 200. *)
Definition decode_bytes {A} (input : list Z) (m : mem) (c : M dstate A) : res dstate A :=
  c (DState (pb_istream_from_buffer 200 (Z.of_nat (length input))) (put_block 200 input m) 0).

(** How the call ended, with the error message of the stream. *)
Inductive verdict := Success | Error (msg : option string) | Undefined | NoFuel.

Definition outcome {A} (r : res dstate A) : verdict :=
  match r with
  | Ok _ _ => Success
  | Fail s => Error (i_errmsg (d_stream s))
  | Ub => Undefined
  | Timeout => NoFuel
  end.

(** ** A failed [realloc] leaves a wrong count behind *)

Section Realloc.
Context `{PbEnv}.

(** The current field of [iter] is a repeated pointer field that comes one item at a time; its count, at [a], is [n], and its array, of [n] items, is at [p]. *)
Record array_at (iter : pb_field_iter_t) (f : pb_field_t) (wire_type a n p : Z) (m : mem) : Prop := {
  aa_field : start iter !! pos iter = Some f;
  aa_repeated : PB_HTYPE (type f) = PB_HTYPE_REPEATED;
  aa_type : 0 <= PB_LTYPE (type f) < 10;
  aa_single : wire_type <> PB_WT_STRING \/ PB_LTYPE_LAST_PACKABLE < PB_LTYPE (type f);
  aa_size : pSize iter = PMem a;
  aa_count : load_uint m a 4 = Some n;
  aa_array : load_uint m (pData iter) 8 = Some p;
  aa_apart : a + 4 <= pData iter \/ pData iter + 8 <= a;
  aa_block : if p =? NULL then n = 0 else m_heap m !! p = Some (n * data_size f);
  aa_item : 0 < data_size f < 2 ^ 32;
}.

Lemma load_uint_mapped m a k z : load_uint m a k = Some z -> mapped m a (Z.of_nat k).
Proof.
  unfold load_uint. destruct (load_bytes m a k) as [bs|] eqn:E; [|done]. intros _ i Hi.
  pose proof (load_bytes_lookup m a k bs i E Hi) as H1. destruct (lookup_lt_is_Some_2 bs (Z.to_nat i)) as [b Eb]; [rewrite (load_bytes_length _ _ _ _ E); lia|].
  rewrite Eb in H1. unfold load_byte in H1. by destruct (m_cells m !! (a + i)).
Qed.

(** C40. In every message and whatever the allocator, when it
    refuses the room for one more item of a repeated pointer field,
    [decode_pointer_field] fails with the count already raised: it announces one
    item more than the array has, which stays as it was.  [pb_decode] then calls
    [pb_release], which goes through as many items as the count says
    ([realloc_failure_then_release]). *)
Theorem refused_item_is_counted rec fuel iter f wire_type a n p s : array_at iter f wire_type a n p (d_mem s) -> n < PB_SIZE_MAX ->
  let m' := put_bytes (d_mem s) a (le_split 4 (n + 1)) in
  env_realloc m' p ((n + 1) * data_size f) = None ->
  decode_pointer_field rec fuel wire_type iter s = Fail (set_err (Some (default "realloc failed"%string (get_err s))) (set_mem m' s)) /\
  load_uint m' a 4 = Some (n + 1) /\ load_uint m' (pData iter) 8 = Some p /\ m_heap m' = m_heap (d_mem s).
Proof.
  intros [Hf Hr Ht Hs Hsz Hc Ha Hap Hb Hi] Hn m' Hre. change PB_SIZE_MAX with (2 ^ 32 - 1) in *.
  pose proof (load_uint_range _ _ _ _ Hc) as Hn0. change (8 * Z.of_nat 4) with 32 in Hn0.
  assert (store_uint (d_mem s) a 4 (n + 1) = Some m') as Hst.
  { unfold store_uint. rewrite store_bytes_mapped; [done|]. rewrite length_le_split. by apply (load_uint_mapped _ _ _ n). }
  pose proof (load_store_uint _ _ _ _ _ Hst) as Hc'. change (8 * Z.of_nat 4) with 32 in Hc'. rewrite Z.mod_small in Hc' by lia.
  assert (load_uint m' (pData iter) 8 = Some p) as Ha'.
  { unfold load_uint in Ha |- *. rewrite <- Ha. erewrite load_bytes_ext; [done|]. intros i Hi'. apply load_put_bytes_ne. rewrite length_le_split. lia. }
  assert (m_heap m' = m_heap (d_mem s)) as Hh by apply put_bytes_heap.
  split; [|done]. unfold decode_pointer_field, cur, of_option. rewrite Hf. rewrite bind_ret.
  destruct (lookup_lt_is_Some_2 (PB_DECODERS rec fuel) (Z.to_nat (PB_LTYPE (type f)))) as [func Ef]; [unfold PB_DECODERS; cbn [length]; lia|]. rewrite Ef, bind_ret, Hr.
  change (_ || _ || _) with false. change (PB_HTYPE_REPEATED =? PB_HTYPE_REPEATED) with true. cbv iota.
  assert ((wire_type =? PB_WT_STRING) && (PB_LTYPE (type f) <=? PB_LTYPE_LAST_PACKABLE) = false) as ->.
  { destruct Hs as [Hs|Hs]; [by destruct (Z.eqb_spec wire_type PB_WT_STRING)|]. destruct (Z.leb_spec (PB_LTYPE (type f)) PB_LTYPE_LAST_PACKABLE); [lia|apply andb_false_r]. }
  assert (forall m k, load_uint m a 4 = Some k -> d_mem (set_mem m s) = m -> ld_size (pSize iter) (set_mem m s) = Ok k (set_mem m s)) as Hld.
  { intros m0 k E1 E2. rewrite Hsz. unfold ld_size, ld_u32, load, get_mem. simpl. by rewrite E1. }
  assert (set_mem (d_mem s) s = s) as Es by (by destruct s). pose proof (Hld _ _ Hc ltac:(by rewrite Es)) as Hld0. rewrite Es in Hld0.
  rewrite (bind_ok _ _ _ _ _ Hld0). change PB_SIZE_MAX with (2 ^ 32 - 1). destruct (Z.eqb_spec n (2 ^ 32 - 1)); [lia|].
  assert (st_size (pSize iter) (u32 (n + 1)) s = Ok tt (set_mem m' s)) as Est.
  { rewrite Hsz, u32_id by lia. unfold st_size, st_u32, st_uint, mem_op. change (get_mem s) with (d_mem s). by rewrite Hst. }
  rewrite (bind_ok _ _ _ _ _ Est), (bind_ok _ _ _ _ _ (Hld m' _ Hc' ltac:(by destruct s))). apply bind_fail. unfold allocate_field.
  assert (ld_ptr (pData iter) (set_mem m' s) = Ok p (set_mem m' s)) as Ep.
  { unfold ld_ptr, load. rewrite get_set_mem, Ha'. done. }
  rewrite (bind_ok _ _ _ _ _ Ep). destruct (Z.eqb_spec (data_size f) 0); [lia|]. destruct (Z.eqb_spec (n + 1) 0); [lia|]. cbn [orb]. cbv iota zeta.
  change (Z.shiftl 1 (sizeof_ptr * 4)) with (2 ^ 32). destruct (Z.leb_spec (2 ^ 32) (data_size f)); [lia|]. destruct (Z.leb_spec (2 ^ 32) (n + 1)); [lia|]. cbn [orb andb]. cbv iota.
  rewrite u64_id by nia. assert (pb_realloc p ((n + 1) * data_size f) (set_mem m' s) = Ok NULL (set_mem m' s)) as Er.
  { unfold pb_realloc. change (d_mem (set_mem m' s)) with m'. rewrite Hre, Hh. destruct (p =? NULL); [done|]. by rewrite Hb. }
  by rewrite (bind_ok _ _ _ _ _ Er).
Qed.
End Realloc.

(** [struct { pb_size_t s_count; char **s; }] *)
Definition Strings_count : member := Member 0 4 4.
Definition Strings_s : member := Member 8 8 8.
Definition Strings_fields : list pb_field_t :=
  [ PB_REPEATED_POINTER 1 Strings_count Strings_s (PB_DATAOFFSET_FIRST Strings_s Strings_s)
      (PB_LTYPE_MAP STRING) NULL;
    PB_LAST_FIELD ].

Definition Strings_mem : mem := put_block 300 (replicate 16 0) empty_mem.

(** Two strings. *)
Definition Strings_input : list Z := [0x0A; 0x01; 0x61; 0x0A; 0x01; 0x62].

Definition decode_strings (limit : Z) : res dstate unit :=
  @decode_bytes unit Strings_input Strings_mem
    (@pb_decode (program [] (bounded_alloc limit)) 5 Strings_fields 300).

(** The same without the release of a failed message. *)
Definition decode_strings_noinit (limit : Z) : res dstate unit :=
  @decode_bytes unit Strings_input Strings_mem
    (@pb_decode_noinit (program [] (bounded_alloc limit)) 5 Strings_fields 300).

(** [decode_pointer_field] counts the new entry
    before [allocate_field] makes room for it.  When the allocation fails the
    count is one more than the entries of the array, and the [pb_release] that
    [pb_decode] calls on a failed message reads behind the array. *)
Theorem realloc_failure_then_release :
  outcome (decode_strings 16) = Success /\
  outcome (decode_strings_noinit 8) = Error (Some "realloc failed"%string) /\
  decode_strings 8 = Ub.
Proof. split_and!; vm_compute; reflexivity. Qed.



(** ** Initialising a short fixed-count array *)

(** [struct { bool flags[2]; uint8_t next; uint8_t last; }]: the array first, then
    two members of one byte. *)
Definition Flags_flags : member := Member 0 2 1.
Definition Flags_next : member := Member 2 1 1.
Definition Flags_last : member := Member 3 1 1.
Definition Flags_fields : list pb_field_t :=
  [ PB_REPEATED_FIXED_COUNT 1 Flags_flags (PB_DATAOFFSET_FIRST Flags_flags Flags_flags) (PB_LTYPE_MAP BOOL) NULL;
    PB_LAST_FIELD ].

Definition default_flags (size : nat) : res dstate unit :=
  @decode_bytes unit [] (put_block 300 (replicate size 0xFF) empty_mem)
    (@pb_message_set_to_defaults (program [] (bounded_alloc 0)) 2 Flags_fields 300).


(** [pb_field_set_to_default] writes a
    [pb_size_t] of zero at the start of a fixed-count array, which has no count:
    four bytes, however short the array is.  An array of two booleans at the end
    of a block is overrun, and members behind it are cleared. *)
Theorem fixed_count_default_overrun :
  data_size (hd PB_LAST_FIELD Flags_fields) * array_size (hd PB_LAST_FIELD Flags_fields) = 2 /\
  default_flags 2 = Ub /\
  match default_flags 4 with
  | Ok _ s => load_bytes (d_mem s) 302 2 = Some (map byte_of [0; 0])
  | _ => False
  end.
Proof. split_and!; vm_compute; reflexivity. Qed.

(** ** Releasing an array entry that was never initialised *)

(** [struct { char *name; }] in [struct { pb_size_t e_count; Entry e[1]; }] *)
Definition Entry_name : member := Member 0 8 8.
Definition Entry_fields : list pb_field_t :=
  [ PB_OPTIONAL_POINTER 1 Entry_name (PB_DATAOFFSET_FIRST Entry_name Entry_name) (PB_LTYPE_MAP STRING) NULL;
    PB_LAST_FIELD ].

Definition Table_count : member := Member 0 4 4.
Definition Table_e : member := Member 8 8 8.
Definition Table_fields : list pb_field_t :=
  [ PB_REPEATED_STATIC 1 Table_count Table_e (PB_DATAOFFSET_FIRST Table_e Table_e) (PB_LTYPE_MAP MESSAGE) 8000;
    PB_LAST_FIELD ].

(** An entry announced with 16 bytes, of which none follows; the structure holds
    [fill] before the call. *)
Definition decode_table (fill : Z) : res dstate unit :=
  @decode_bytes unit [0x0A; 0x10] (put_block 300 (replicate 16 fill) empty_mem)
    (@pb_decode (program Entry_fields (bounded_alloc 100)) 5 Table_fields 300).


(** The entries of a static array of
    submessages are initialised one by one, inside [pb_dec_submessage], but the
    count is raised before that.  When the length of an entry is wrong,
    [pb_release] goes through an entry that holds whatever the memory held; with
    a pointer member, an arbitrary address is freed.  [pb_decode] is documented
    to initialise the structure. *)
Theorem release_of_uninitialised_entry :
  outcome (decode_table 0) = Error (Some "parent stream too short"%string) /\ decode_table 0xAA = Ub.
Proof. split; vm_compute; reflexivity. Qed.

(** ** A pointer member of a union that held something else *)

(** [struct { pb_size_t which_u; union { uint64_t n; char *s; } u; }] *)
Definition Choice_which : member := Member 0 4 4.
Definition Choice_n : member := Member 8 8 8.
Definition Choice_s : member := Member 8 8 8.
Definition Choice_fields : list pb_field_t :=
  [ PB_ONEOF_STATIC 1 Choice_which Choice_n (PB_DATAOFFSET_FIRST Choice_n Choice_n) (PB_LTYPE_MAP UINT64) NULL;
    PB_ONEOF_POINTER 2 Choice_which Choice_s (PB_DATAOFFSET_UNION Choice_s Choice_n) (PB_LTYPE_MAP STRING) NULL;
    PB_LAST_FIELD ].

Definition decode_choice (input : list Z) : res dstate unit :=
  @decode_bytes unit input (put_block 300 (replicate 16 0) empty_mem)
    (@pb_decode (program [] (bounded_alloc 100)) 5 Choice_fields 300).


(** In a union of a static and a pointer member, the
    static value is taken for a pointer when the other member arrives next: the
    old member is released, which does nothing, and [allocate_field] passes its
    bytes to [realloc]. *)
Theorem union_pointer_confusion :
  outcome (decode_choice [0x12; 0x01; 0x61]) = Success /\
  outcome (decode_choice [0x08; 0x05]) = Success /\
  decode_choice [0x08; 0x05; 0x12; 0x01; 0x61] = Ub.
Proof. split_and!; vm_compute; reflexivity. Qed.

(** ** A union member that arrives twice *)

(** [struct { pb_size_t which_u; union { struct { char *name; } e; } u; }] *)
Definition Slot_which : member := Member 0 4 4.
Definition Slot_e : member := Member 8 8 8.
Definition Slot_fields : list pb_field_t :=
  [ PB_ONEOF_STATIC 1 Slot_which Slot_e (PB_DATAOFFSET_FIRST Slot_e Slot_e) (PB_LTYPE_MAP MESSAGE) 8000;
    PB_LAST_FIELD ].

(** Decoding and, if that succeeds, releasing. *)
Definition decode_release_slot (input : list Z) : res dstate unit :=
  @decode_bytes unit input (put_block 300 (replicate 16 0) empty_mem)
    (bind (@pb_decode (program Entry_fields (bounded_alloc 100)) 5 Slot_fields 300)
       (fun _ => @pb_release (program Entry_fields (bounded_alloc 100)) 5 Slot_fields 300)).

Definition blocks_left {A} (r : res dstate A) : option nat :=
  match r with
  | Ok _ s => Some (base.size (m_heap (d_mem s)))
  | _ => None
  end.

(** A static submessage in a union that arrives
    again is cleared with [memset] and not merged, although
    [pb_release_union_field] leaves it in place "to merge": the block its
    pointer member points to is never freed. *)
Theorem repeated_union_member_leaks :
  blocks_left (decode_release_slot [0x0A; 0x03; 0x0A; 0x01; 0x61]) = Some 0%nat /\
  blocks_left (decode_release_slot [0x0A; 0x03; 0x0A; 0x01; 0x61; 0x0A; 0x03; 0x0A; 0x01; 0x62]) = Some 1%nat /\
  blocks_left (decode_release_slot [0x0A; 0x03; 0x0A; 0x01; 0x61; 0x0A; 0x00]) = Some 1%nat.
Proof. split_and!; vm_compute; reflexivity. Qed.

(** ** 32-bit varints that are too long *)

Definition decode_u32 (input : list Z) : res dstate Z :=
  @decode_bytes Z input empty_mem (@pb_decode_varint32 (program [] (bounded_alloc 0))).


(** The overflow check of [pb_decode_varint32] looks at
    the top bits of the fifth byte only when the varint ends there: with one more
    byte the same bits are dropped.  And [bitpos] is an 8-bit counter: after 37
    bytes it is back below 32 and later bytes are or-ed into the result again. *)
Theorem varint32_long_inputs :
  outcome (decode_u32 [0xFF; 0xFF; 0xFF; 0xFF; 0x7F]) = Error (Some "varint overflow"%string) /\
  match decode_u32 [0xFF; 0xFF; 0xFF; 0xFF; 0xFF; 0x00] with Ok v _ => v = 2 ^ 32 - 1 | _ => False end /\
  match decode_u32 ([0x81] ++ replicate 35 0x80 ++ [0x00]) with Ok v _ => v = 1 | _ => False end /\
  match decode_u32 ([0x81] ++ replicate 36 0x80 ++ [0x01]) with Ok v _ => v = 9 | _ => False end.
Proof. split_and!; vm_compute; reflexivity. Qed.

(** ** An empty message that matches its terminator *)

Definition Empty_fields : list pb_field_t := [PB_LAST_FIELD].

Definition decode_as (fields : list pb_field_t) (input : list Z) : res dstate unit :=
  @decode_bytes unit input (put_block 300 (replicate 16 0) empty_mem)
    (@pb_decode (program [] (bounded_alloc 100)) 5 fields 300).

(** Field number 0 is skipped like any unknown field,
    except by a message type without fields: there [pb_field_iter_find] matches
    it with the terminator, which is then decoded as a field. *)
Theorem empty_message_tag_zero :
  outcome (decode_as Choice_fields [0x02; 0x00]) = Success /\
  outcome (decode_as Empty_fields [0x0A; 0x00]) = Success /\
  outcome (decode_as Empty_fields [0x02; 0x00]) = Error (Some "invalid data_size"%string).
Proof. split_and!; vm_compute; reflexivity. Qed.
