(* ===== verification/Base64.v ===== *)
(** * fbase64.c: Base64 for the web-socket handshake

    The encoder [f_b64_ntop] and the decoder [f_b64_pton] as the loops they
    are, on byte arrays; [None] is undefined behaviour (an access outside an
    array, or [isspace] of a negative character).  [char] is signed and [u_int]
    has 32 bits. *)
From S2P Require Import Prelude.

(** The 64 characters of the alphabet. *)
Definition Base64 : list Z :=
  [65; 66; 67; 68; 69; 70; 71; 72; 73; 74; 75; 76; 77; 78; 79; 80; 81; 82; 83; 84; 85; 86; 87; 88; 89; 90;
   97; 98; 99; 100; 101; 102; 103; 104; 105; 106; 107; 108; 109; 110; 111; 112; 113; 114; 115; 116; 117;
   118; 119; 120; 121; 122; 48; 49; 50; 51; 52; 53; 54; 55; 56; 57; 43; 47].

Definition Pad64 : Z := 61.

(** [Base64[i]] for an index of 6 bits. *)
Definition base64_char (i : Z) : byte := byte_of (nth (Z.to_nat i) Base64 0).

(** [a[i] = b] inside the array. *)
Definition array_set (a : list byte) (i : Z) (b : byte) : option (list byte) :=
  if (0 <=? i) && (i <? Z.of_nat (length a)) then Some (<[Z.to_nat i := b]> a) else None.

(** Storing consecutive characters from [i] on. *)
Fixpoint array_set_list (a : list byte) (i : Z) (bs : list byte) : option (list byte) :=
  match bs with
  | [] => Some a
  | b :: bs' =>
      match array_set a i b with
      | Some a' => array_set_list a' (i + 1) bs'
      | None => None
      end
  end.

(** ** Encoding *)

Definition output0 (i0 : Z) : Z := Z.shiftr i0 2.
Definition output1 (i0 i1 : Z) : Z := u8 (Z.shiftl (Z.land i0 0x03) 4 + Z.shiftr i1 4).
Definition output2 (i1 i2 : Z) : Z := u8 (Z.shiftl (Z.land i1 0x0f) 2 + Z.shiftr i2 6).
Definition output3 (i2 : Z) : Z := Z.land i2 0x3f.

(** The result of a run that has not returned yet: [datalength] and the target. *)
Inductive ntop_state := NtopReturn (ret : Z) (target : list byte)
                      | NtopGo (datalength : Z) (target : list byte).

(** The loop over groups of three; the last part of [src] that is shorter is
    given back. *)
Fixpoint ntop_loop (src : list byte) (datalength : Z) (target : list byte) (targsize : Z)
  : option (ntop_state * list byte) :=
  match src with
  | b0 :: b1 :: b2 :: src' =>
      let i0 := byte_val b0 in let i1 := byte_val b1 in let i2 := byte_val b2 in
      if targsize <? u64 (datalength + 4) then Some (NtopReturn (-1) target, src')
      else
        match array_set_list target datalength
          [base64_char (output0 i0); base64_char (output1 i0 i1);
           base64_char (output2 i1 i2); base64_char (output3 i2)] with
        | Some target' => ntop_loop src' (datalength + 4) target' targsize
        | None => None
        end
  | _ => Some (NtopGo datalength target, src)
  end.

(** The part for one or two left-over bytes. *)
Definition ntop_padding (src : list byte) (datalength : Z) (target : list byte) (targsize : Z)
  : option ntop_state :=
  match src with
  | [] => Some (NtopGo datalength target)
  | b0 :: rest =>
      let i0 := byte_val b0 in
      let i1 := match rest with b1 :: _ => byte_val b1 | [] => 0 end in
      let i2 := 0 in
      if targsize <? u64 (datalength + 4) then Some (NtopReturn (-1) target)
      else
        match array_set_list target datalength
          [base64_char (output0 i0); base64_char (output1 i0 i1);
           (match rest with [] => byte_of Pad64 | _ => base64_char (output2 i1 i2) end);
           byte_of Pad64] with
        | Some target' => Some (NtopGo (datalength + 4) target')
        | None => None
        end
  end.

(** The returned [int] and the target array. *)
Definition f_b64_ntop (src target : list byte) (targsize : Z) : option (Z * list byte) :=
  match ntop_loop src 0 target targsize with
  | None => None
  | Some (NtopReturn r target, _) => Some (r, target)
  | Some (NtopGo datalength target, src) =>
      match ntop_padding src datalength target targsize with
      | None => None
      | Some (NtopReturn r target) => Some (r, target)
      | Some (NtopGo datalength target) =>
          if targsize <=? datalength then Some (-1, target)
          else
            match array_set target datalength (byte_of 0) with
            | Some target => Some (s32 datalength, target)
            | None => None
            end
      end
  end.

(** ** Decoding *)

(** [isspace] of the C library, in the "C" locale; its argument must be an
    [unsigned char]. *)
Definition isspace (ch : Z) : option bool :=
  if (ch <? 0) || (255 <? ch) then None
  else Some ((ch =? 32) || ((9 <=? ch) && (ch <=? 13))).

(** [strchr(Base64, ch) - Base64] for a character other than NUL. *)
Fixpoint index_from (l : list Z) (i ch : Z) : option Z :=
  match l with
  | [] => None
  | c :: l' => if c =? ch then Some i else index_from l' (i + 1) ch
  end.

Definition strchr_Base64 (ch : Z) : option Z := index_from Base64 0 ch.

(** [ch = *src++] *)
Definition next_char (src : list byte) : option (Z * list byte) :=
  match src with
  | b :: src' => Some (s8 (byte_val b), src')
  | [] => None
  end.

Record pton_state := Pton { state : Z; tarindex : Z; target : option (list byte) }.

(** A step of the decoder returns from the function, or goes on. *)
Inductive pton_result (A : Type) := PtonReturn (ret : Z) (t : option (list byte)) | PtonGo (a : A).
Arguments PtonReturn {A}. Arguments PtonGo {A}.

(** [target[i] = f(target[i])], when there is a target. *)
Definition target_update (f : byte -> Z) (i : Z) (target : option (list byte)) : option (option (list byte)) :=
  match target with
  | None => Some None
  | Some a =>
      match a !! Z.to_nat i with
      | Some b => match array_set a i (byte_of (f b)) with Some a' => Some (Some a') | None => None end
      | None => None
      end
  end.

Definition has_target (t : option (list byte)) : bool := match t with Some _ => true | None => false end.

(** The [switch] on one character of the alphabet, with value [v]. *)
Definition pton_value (targsize v : Z) (s : pton_state) : option (pton_result pton_state) :=
  let t := target s in
  let i := tarindex s in
  if state s =? 0 then
    if has_target t && (targsize <=? i) then Some (PtonReturn (-1) t)
    else
      match target_update (fun _ => Z.shiftl v 2) i t with
      | Some t' => Some (PtonGo (Pton 1 i t'))
      | None => None
      end
  else if state s =? 1 then
    if has_target t && (targsize <=? u32 (i + 1)) then Some (PtonReturn (-1) t)
    else
      match target_update (fun b => Z.lor (byte_val b) (Z.shiftr v 4)) i t with
      | Some t' =>
          match target_update (fun _ => Z.shiftl (Z.land v 0x0f) 4) (u32 (i + 1)) t' with
          | Some t'' => Some (PtonGo (Pton 2 (u32 (i + 1)) t''))
          | None => None
          end
      | None => None
      end
  else if state s =? 2 then
    if has_target t && (targsize <=? u32 (i + 1)) then Some (PtonReturn (-1) t)
    else
      match target_update (fun b => Z.lor (byte_val b) (Z.shiftr v 2)) i t with
      | Some t' =>
          match target_update (fun _ => Z.shiftl (Z.land v 0x03) 6) (u32 (i + 1)) t' with
          | Some t'' => Some (PtonGo (Pton 3 (u32 (i + 1)) t''))
          | None => None
          end
      | None => None
      end
  else
    if has_target t && (targsize <=? i) then Some (PtonReturn (-1) t)
    else
      match target_update (fun b => Z.lor (byte_val b) v) i t with
      | Some t' => Some (PtonGo (Pton 0 (u32 (i + 1)) t'))
      | None => None
      end.

(** The main loop; it is left with the character that ended it and the rest
    of the string. *)
Fixpoint pton_loop (targsize : Z) (src : list byte) (s : pton_state)
  : option (pton_result (Z * list byte * pton_state)) :=
  match src with
  | [] => None
  | b :: src' =>
      let ch := s8 (byte_val b) in
      if ch =? 0 then Some (PtonGo (ch, src', s))
      else
        match isspace ch with
        | None => None
        | Some true => pton_loop targsize src' s
        | Some false =>
            if ch =? Pad64 then Some (PtonGo (ch, src', s))
            else
              match strchr_Base64 ch with
              | None => Some (PtonReturn (-1) (target s))
              | Some v =>
                  match pton_value targsize v s with
                  | None => None
                  | Some (PtonReturn r t) => Some (PtonReturn r t)
                  | Some (PtonGo s') => pton_loop targsize src' s'
                  end
              end
        end
  end.

(** [for (; ch != 0; ch = *src++) if (!isspace(ch)) break;]: the character the
    loop stops at and the rest of the string. *)
Fixpoint skip_spaces (ch : Z) (src : list byte) : option (Z * list byte) :=
  if ch =? 0 then Some (ch, src)
  else
    match isspace ch with
    | None => None
    | Some false => Some (ch, src)
    | Some true =>
        match src with
        | [] => None
        | b :: src' => skip_spaces (s8 (byte_val b)) src'
        end
    end.

(** The checks behind the first pad character: the state has to be 2, with a
    second pad, or 3; nothing but spaces may follow; no bit may be left over. *)
Definition pton_pad (src : list byte) (s : pton_state) : option Z :=
  match next_char src with
  | None => None
  | Some (ch, src) =>
      let finish ch src :=
        match skip_spaces ch src with
        | None => None
        | Some (ch, _) =>
            if negb (ch =? 0) then Some (-1)
            else
              match target s with
              | None => Some (s32 (tarindex s))
              | Some a =>
                  match a !! Z.to_nat (tarindex s) with
                  | None => None
                  | Some b => Some (if negb (byte_val b =? 0) then -1 else s32 (tarindex s))
                  end
              end
        end in
      if (state s =? 0) || (state s =? 1) then Some (-1)
      else if state s =? 2 then
        match skip_spaces ch src with
        | None => None
        | Some (ch, src) =>
            if negb (ch =? Pad64) then Some (-1)
            else
              match next_char src with
              | None => None
              | Some (ch, src) => finish ch src
              end
        end
      else finish ch src
  end.

(** The returned [int] and the target array. *)
Definition f_b64_pton (src : list byte) (t : option (list byte)) (targsize : Z)
  : option (Z * option (list byte)) :=
  match pton_loop targsize src (Pton 0 0 t) with
  | None => None
  | Some (PtonReturn r t) => Some (r, t)
  | Some (PtonGo (ch, src, s)) =>
      if ch =? Pad64 then
        match pton_pad src s with
        | Some r => Some (r, target s)
        | None => None
        end
      else if negb (state s =? 0) then Some (-1, target s)
      else Some (s32 (tarindex s), target s)
  end.
