(* ===== verification/Base64Props.v ===== *)
(** * Base64: the encoder is RFC 4648 and the decoder undoes it *)
From S2P Require Import Prelude Base64.

(** ** Writing into an array *)

Fixpoint put_list (a : list byte) (i : nat) (bs : list byte) : list byte :=
  match bs with
  | [] => a
  | b :: bs' => put_list (<[i := b]> a) (S i) bs'
  end.

Lemma put_list_length a i bs : length (put_list a i bs) = length a.
Proof. revert a i. induction bs as [|b bs IH]; intros a i; simpl; [done|]. by rewrite IH, length_insert. Qed.

Lemma put_list_app a i bs1 bs2 :
  put_list a i (bs1 ++ bs2) = put_list (put_list a i bs1) (i + length bs1) bs2.
Proof.
  revert a i. induction bs1 as [|b bs1 IH]; intros a i; simpl; [by rewrite Nat.add_0_r|].
  rewrite IH. f_equal. lia.
Qed.

Lemma put_list_lookup_lt a i bs j : (j < i)%nat -> put_list a i bs !! j = a !! j.
Proof.
  revert a i. induction bs as [|b bs IH]; intros a i Hj; simpl; [done|].
  rewrite IH by lia. apply list_lookup_insert_ne. lia.
Qed.

Lemma lookup_put_end a i bs b k :
  k = (i + length bs)%nat -> (k < length a)%nat -> put_list a i (bs ++ [b]) !! k = Some b.
Proof.
  intros -> Hl. rewrite put_list_app. simpl. apply list_lookup_insert_eq. by rewrite put_list_length.
Qed.

(** The part written and the parts left alone. *)
Lemma put_list_spec a i bs :
  (i + length bs <= length a)%nat ->
  put_list a i bs = take i a ++ bs ++ drop (i + length bs) a.
Proof.
  revert a i. induction bs as [|b bs IH]; intros a i Hl; simpl in *.
  - by rewrite Nat.add_0_r, take_drop.
  - rewrite IH by (rewrite length_insert; lia).
    rewrite insert_take_drop by lia.
    assert (length (take i a) = i) as Ht by (rewrite length_take; lia).
    rewrite take_app, drop_app, Ht. rewrite take_ge by lia.
    replace (S i - i)%nat with 1%nat by lia.
    replace (S i + length bs - i)%nat with (S (length bs)) by lia. simpl.
    rewrite (drop_ge (take i a)) by lia. simpl. rewrite take_0, drop_drop.
    rewrite <- app_assoc. simpl. do 4 f_equal. lia.
Qed.

Lemma array_set_put a i b :
  0 <= i < Z.of_nat (length a) -> array_set a i b = Some (<[Z.to_nat i := b]> a).
Proof.
  intros Hi. unfold array_set. replace (0 <=? i) with true by lia.
  by replace (i <? Z.of_nat (length a)) with true by lia.
Qed.

Lemma array_set_list_put a i bs :
  0 <= i -> i + Z.of_nat (length bs) <= Z.of_nat (length a) ->
  array_set_list a i bs = Some (put_list a (Z.to_nat i) bs).
Proof.
  revert a i. induction bs as [|b bs IH]; intros a i Hi Hl; simpl in *; [done|].
  rewrite array_set_put by lia. rewrite IH by (rewrite ?length_insert; lia).
  do 2 f_equal. lia.
Qed.

(** ** The reference: RFC 4648, section 4 *)

(** Table 1: the letters, the digits, plus and slash. *)
Definition rfc_char (i : Z) : byte :=
  byte_of (if i <? 26 then 65 + i else if i <? 52 then 97 + (i - 26) else if i <? 62 then 48 + (i - 52) else if i =? 62 then 43 else 47).

(** The 6-bit group of the 24-bit number [n] that starts at bit [k]. *)
Definition sextet (n k : Z) : byte := rfc_char ((n / 2 ^ k) mod 64).

Fixpoint base64 (l : list byte) : list byte :=
  match l with
  | [] => []
  | [a] =>
      let n := byte_val a * 2 ^ 16 in
      [sextet n 18; sextet n 12; byte_of Pad64; byte_of Pad64]
  | [a; b] =>
      let n := byte_val a * 2 ^ 16 + byte_val b * 2 ^ 8 in
      [sextet n 18; sextet n 12; sextet n 6; byte_of Pad64]
  | a :: b :: c :: l' =>
      let n := byte_val a * 2 ^ 16 + byte_val b * 2 ^ 8 + byte_val c in
      sextet n 18 :: sextet n 12 :: sextet n 6 :: sextet n 0 :: base64 l'
  end.

(** Induction by groups of three. *)
Lemma triple_ind (P : list byte -> Prop) :
  P [] -> (forall a, P [a]) -> (forall a b, P [a; b]) ->
  (forall a b c l, P l -> P (a :: b :: c :: l)) -> forall l, P l.
Proof.
  intros H0 H1 H2 H3 l. remember (length l) as n eqn:E. revert l E.
  induction n as [n IH] using lt_wf_ind. intros [|a [|b [|c l]]] E; [done|done|done|].
  apply H3. apply (IH (length l)); [simpl in E; lia|done].
Qed.

Lemma base64_length l : Z.of_nat (length (base64 l)) = 4 * ((Z.of_nat (length l) + 2) / 3).
Proof.
  induction l as [| | |a b c l IH] using triple_ind; [done|done|done|].
  cbn [base64 length]. rewrite !Nat2Z.inj_succ, IH.
  replace (Z.succ (Z.succ (Z.succ (Z.of_nat (length l)))) + 2) with (Z.of_nat (length l) + 2 + 1 * 3) by lia.
  rewrite Z.div_add by lia. lia.
Qed.

(** ** The C expressions are the groups *)

Ltac div_mod := Z.to_euclidean_division_equations; lia.

Lemma output0_eq i : output0 i = i / 4.
Proof. unfold output0. by rewrite Z.shiftr_div_pow2 by lia. Qed.

Lemma output1_eq i j : 0 <= i < 256 -> 0 <= j < 256 -> output1 i j = i mod 4 * 16 + j / 16.
Proof.
  intros Hi Hj. unfold output1. change 3 with (Z.ones 2).
  rewrite Z.land_ones, Z.shiftl_mul_pow2, Z.shiftr_div_pow2 by lia.
  change (2 ^ 2) with 4. change (2 ^ 4) with 16. apply u8_id. div_mod.
Qed.

Lemma output2_eq j k : 0 <= j < 256 -> 0 <= k < 256 -> output2 j k = j mod 16 * 4 + k / 64.
Proof.
  intros Hj Hk. unfold output2. change 15 with (Z.ones 4).
  rewrite Z.land_ones, Z.shiftl_mul_pow2, Z.shiftr_div_pow2 by lia.
  change (2 ^ 2) with 4. change (2 ^ 4) with 16. change (2 ^ 6) with 64. apply u8_id. div_mod.
Qed.

Lemma output3_eq k : output3 k = k mod 64.
Proof. unfold output3. change 0x3f with (Z.ones 6). by rewrite Z.land_ones by lia. Qed.

Lemma sextets (x y z n : Z) :
  0 <= x < 256 -> 0 <= y < 256 -> 0 <= z < 256 -> n = x * 2 ^ 16 + y * 2 ^ 8 + z ->
  (n / 2 ^ 18) mod 64 = x / 4 /\
  (n / 2 ^ 12) mod 64 = x mod 4 * 16 + y / 16 /\
  (n / 2 ^ 6) mod 64 = y mod 16 * 4 + z / 64 /\
  (n / 2 ^ 0) mod 64 = z mod 64.
Proof.
  intros Hx Hy Hz ->.
  change (2 ^ 18) with 262144. change (2 ^ 16) with 65536. change (2 ^ 12) with 4096.
  change (2 ^ 8) with 256. change (2 ^ 6) with 64. change (2 ^ 0) with 1.
  split_and!; div_mod.
Qed.

(** ** Encoding *)

(** The array [Base64] is the alphabet. *)
Lemma rfc_char_check : forallb (fun i => bool_decide (rfc_char i = base64_char i)) (seqZ 0 64) = true.
Proof. vm_compute. reflexivity. Qed.

Lemma sextet_char n k : sextet n k = base64_char ((n / 2 ^ k) mod 64).
Proof.
  pose proof rfc_char_check as H. rewrite forallb_forall in H. specialize (H ((n / 2 ^ k) mod 64)).
  rewrite <- list_elem_of_In, elem_of_seqZ in H. pose proof (Z.mod_pos_bound (n / 2 ^ k) 64 ltac:(lia)).
  specialize (H ltac:(lia)). by apply bool_decide_eq_true in H.
Qed.

(** The characters of a full group, and of the two short ones. *)
Lemma group3_chars a b c :
  [base64_char (output0 (byte_val a)); base64_char (output1 (byte_val a) (byte_val b));
   base64_char (output2 (byte_val b) (byte_val c)); base64_char (output3 (byte_val c))] =
  base64 [a; b; c].
Proof.
  pose proof (byte_val_range a). pose proof (byte_val_range b). pose proof (byte_val_range c).
  destruct (sextets (byte_val a) (byte_val b) (byte_val c) _ ltac:(done) ltac:(done) ltac:(done) eq_refl)
    as (E0 & E1 & E2 & E3).
  cbn [base64]. rewrite !sextet_char. rewrite E0, E1, E2, E3.
  by rewrite output0_eq, output1_eq, output2_eq, output3_eq.
Qed.

Lemma group2_chars a b :
  [base64_char (output0 (byte_val a)); base64_char (output1 (byte_val a) (byte_val b));
   base64_char (output2 (byte_val b) 0); byte_of Pad64] = base64 [a; b].
Proof.
  pose proof (byte_val_range a). pose proof (byte_val_range b).
  destruct (sextets (byte_val a) (byte_val b) 0 _ ltac:(done) ltac:(done) ltac:(lia) eq_refl)
    as (E0 & E1 & E2 & _).
  cbn [base64]. rewrite !sextet_char. rewrite Z.add_0_r in E0, E1, E2. rewrite E0, E1, E2.
  by rewrite output0_eq, output1_eq, output2_eq.
Qed.

Lemma group1_chars a :
  [base64_char (output0 (byte_val a)); base64_char (output1 (byte_val a) 0); byte_of Pad64; byte_of Pad64] =
  base64 [a].
Proof.
  pose proof (byte_val_range a).
  destruct (sextets (byte_val a) 0 0 _ ltac:(done) ltac:(lia) ltac:(lia) eq_refl) as (E0 & E1 & _).
  cbn [base64]. rewrite !sextet_char. rewrite Z.mul_0_l, !Z.add_0_r in E0, E1. rewrite E0, E1.
  by rewrite output0_eq, output1_eq.
Qed.

Lemma base64_group3 a b c l : base64 (a :: b :: c :: l) = base64 [a; b; c] ++ base64 l.
Proof. done. Qed.

Lemma base64_group3_length a b c : length (base64 [a; b; c]) = 4%nat.
Proof. done. Qed.

(** What the encoder does from offset [d] on: it appends the encoding, or it
    stops with -1 when a group does not fit; then only cells from [d] to
    [targsize] may have changed. *)
Definition only_between (d ts : Z) (a a' : list byte) : Prop :=
  length a' = length a /\
  forall j : nat, ~ (d <= Z.of_nat j < ts) -> a' !! j = a !! j.

Lemma only_between_put d ts a bs :
  0 <= d -> d + Z.of_nat (length bs) <= ts -> ts <= Z.of_nat (length a) ->
  only_between d ts a (put_list a (Z.to_nat d) bs).
Proof.
  intros Hd Hl Hs. split; [apply put_list_length|]. intros j Hj.
  rewrite put_list_spec by lia.
  destruct (decide (Z.of_nat j < d)).
  - rewrite lookup_app_l by (rewrite length_take; lia). apply lookup_take_lt. lia.
  - rewrite lookup_app_r by (rewrite length_take; lia). rewrite length_take.
    rewrite lookup_app_r by lia. rewrite lookup_drop. f_equal. lia.
Qed.

Lemma only_between_trans d1 d2 ts a a1 a2 :
  d1 <= d2 -> only_between d1 ts a a1 -> only_between d2 ts a1 a2 -> only_between d1 ts a a2.
Proof.
  intros Hd [L1 H1] [L2 H2]. split; [congruence|]. intros j Hj. rewrite H2 by lia. by apply H1.
Qed.

Section Ntop.
Context (ts : Z) (Hts : 0 <= ts < 2 ^ 63).

(** The loop: the whole groups of [src] are encoded, or there is no room. *)
Lemma ntop_loop_spec src d a :
  0 <= d <= ts -> ts <= Z.of_nat (length a) ->
  exists whole rest, src = whole ++ rest /\ (length rest < 3)%nat /\
    base64 src = base64 whole ++ base64 rest /\
    (if d + Z.of_nat (length (base64 whole)) <=? ts
     then ntop_loop src d a ts =
       Some (NtopGo (d + Z.of_nat (length (base64 whole))) (put_list a (Z.to_nat d) (base64 whole)), rest)
     else exists a' l, ntop_loop src d a ts = Some (NtopReturn (-1) a', l) /\ only_between d ts a a').
Proof.
  revert d a. induction src as [| x | x y | x y z l IH] using triple_ind; intros d a Hd Ha.
  1-3: eexists [], _; (split; [done|]); (split; [simpl; lia|]); (split; [done|]);
    simpl; rewrite Z.add_0_r; replace (d <=? ts) with true by lia; done.
  cbn [ntop_loop]. unfold u64. rewrite Z.mod_small by lia. rewrite group3_chars.
  destruct (Z.ltb_spec ts (d + 4)) as [Hf|Hf].
  - (* no room for the first group *)
    destruct (IH d a Hd Ha) as (whole & rest & -> & Hr & Eb & _).
    exists (x :: y :: z :: whole), rest. split_and!; [done|done| |].
    { change (x :: y :: z :: whole ++ rest) with (x :: y :: z :: (whole ++ rest)).
      rewrite (base64_group3 x y z (whole ++ rest)), (base64_group3 x y z whole), Eb. by rewrite app_assoc. }
    rewrite (base64_group3 x y z whole), length_app, base64_group3_length.
    destruct (Z.leb_spec (d + Z.of_nat (4 + length (base64 whole))) ts); [lia|].
    eexists _, _. split; [done|]. by split.
  - rewrite array_set_list_put by (rewrite ?base64_group3_length; lia).
    destruct (IH (d + 4) (put_list a (Z.to_nat d) (base64 [x; y; z]))) as (whole & rest & -> & Hr & Eb & Hcase);
      [lia|by rewrite put_list_length|].
    exists (x :: y :: z :: whole), rest. split_and!; [done|done| |].
    { rewrite (base64_group3 x y z (whole ++ rest)), (base64_group3 x y z whole), Eb. by rewrite app_assoc. }
    rewrite (base64_group3 x y z whole), length_app, base64_group3_length.
    replace (d + Z.of_nat (4 + length (base64 whole))) with (d + 4 + Z.of_nat (length (base64 whole))) by lia.
    destruct (Z.leb_spec (d + 4 + Z.of_nat (length (base64 whole))) ts).
    + rewrite Hcase. rewrite put_list_app, base64_group3_length.
      do 4 f_equal. lia.
    + destruct Hcase as (a' & l' & E & Ho). exists a', l'. split; [exact E|].
      eapply only_between_trans; [|by apply only_between_put; rewrite ?base64_group3_length; lia|exact Ho]. lia.
Qed.

(** The last, short group. *)
Lemma ntop_padding_spec rest d a :
  (length rest < 3)%nat -> 0 <= d <= ts -> ts <= Z.of_nat (length a) ->
  ntop_padding rest d a ts =
    Some (if ts <? d + Z.of_nat (length (base64 rest))
          then NtopReturn (-1) a
          else NtopGo (d + Z.of_nat (length (base64 rest))) (put_list a (Z.to_nat d) (base64 rest))).
Proof.
  intros Hr Hd Ha. unfold ntop_padding, u64. rewrite Z.mod_small by lia.
  destruct rest as [|x [|y [|]]]; [| | |simpl in Hr; lia]; cbn [length base64].
  - rewrite Z.add_0_r. by replace (ts <? d) with false by lia.
  - change (Z.of_nat 4) with 4. destruct (Z.ltb_spec ts (d + 4)); [done|].
    rewrite array_set_list_put by (simpl; lia). by rewrite group1_chars.
  - change (Z.of_nat 4) with 4. destruct (Z.ltb_spec ts (d + 4)); [done|].
    rewrite array_set_list_put by (simpl; lia). by rewrite group2_chars.
Qed.
End Ntop.

(** C24. [f_b64_ntop] stores the RFC 4648 encoding and a NUL and
    returns the length of the encoding, exactly when both fit in the target;
    otherwise it returns -1.  It never writes outside the first [targsize] bytes
    of the target. *)
Theorem f_b64_ntop_spec src a ts :
  0 <= ts <= Z.of_nat (length a) -> ts < 2 ^ 31 ->
  let n := Z.of_nat (length (base64 src)) in
  if n <? ts
  then f_b64_ntop src a ts =
    Some (n, base64 src ++ byte_of 0 :: drop (S (length (base64 src))) a)
  else exists a', f_b64_ntop src a ts = Some (-1, a') /\ only_between 0 ts a a'.
Proof.
  intros Hts Hmax n. unfold f_b64_ntop.
  destruct (ntop_loop_spec ts ltac:(lia) src 0 a ltac:(lia) ltac:(lia))
    as (whole & rest & Esrc & Hr & Eb & Hloop).
  assert (n = Z.of_nat (length (base64 whole)) + Z.of_nat (length (base64 rest))) as En.
  { unfold n. rewrite Eb, length_app. lia. }
  rewrite Z.add_0_l in Hloop.
  destruct (Z.leb_spec (Z.of_nat (length (base64 whole))) ts) as [Hw|Hw].
  - rewrite Hloop, ntop_padding_spec by (rewrite ?put_list_length; lia). rewrite <- En.
    pose proof (only_between_put 0 ts a (base64 whole) ltac:(lia) ltac:(lia) ltac:(lia)) as Ho.
    assert (put_list (put_list a (Z.to_nat 0) (base64 whole)) (Z.to_nat (Z.of_nat (length (base64 whole)))) (base64 rest)
      = put_list a 0 (base64 src)) as Eput.
    { rewrite Eb, put_list_app. simpl. f_equal. lia. }
    destruct (Z.ltb_spec n ts) as [Hn|Hn].
    + replace (ts <? n) with false by lia. replace (ts <=? n) with false by lia.
      rewrite Eput, array_set_put by (rewrite put_list_length; lia).
      unfold s32. rewrite sint_id by lia. do 2 f_equal.
      unfold n. rewrite Nat2Z.id.
      change (<[length (base64 src) := byte_of 0]> (put_list a 0 (base64 src)))
        with (put_list (put_list a 0 (base64 src)) (0 + length (base64 src)) [byte_of 0]).
      rewrite <- put_list_app, put_list_spec by (rewrite length_app; simpl; lia).
      simpl. rewrite length_app, <- app_assoc. simpl. do 3 f_equal. lia.
    + destruct (Z.ltb_spec ts n) as [Hn'|Hn'].
      * eexists. split; [done|exact Ho].
      * replace (ts <=? n) with true by lia. eexists. split; [done|]. rewrite Eput.
        apply (only_between_put 0 ts a (base64 src)); lia.
  - destruct Hloop as (a' & l & -> & Ho). replace (n <? ts) with false by lia. by exists a'.
Qed.

(** ** Decoding *)

(** A character of the alphabet is no space, no pad, and found at its index. *)
Lemma base64_char_check :
  forallb (fun v =>
    let ch := s8 (byte_val (base64_char v)) in
    negb (ch =? 0) && negb (ch =? Pad64) &&
    (match isspace ch with Some false => true | _ => false end) &&
    (match strchr_Base64 ch with Some w => w =? v | None => false end)) (seqZ 0 64) = true.
Proof. vm_compute. reflexivity. Qed.

Lemma base64_char_facts v :
  0 <= v < 64 ->
  let ch := s8 (byte_val (base64_char v)) in
  (ch =? 0) = false /\ (ch =? Pad64) = false /\ isspace ch = Some false /\ strchr_Base64 ch = Some v.
Proof.
  intros Hv ch. pose proof base64_char_check as Hall. rewrite forallb_forall in Hall.
  specialize (Hall v). rewrite <- list_elem_of_In, elem_of_seqZ in Hall. specialize (Hall ltac:(lia)).
  cbv zeta in Hall. fold ch in Hall. apply andb_true_iff in Hall as [Hall H4].
  apply andb_true_iff in Hall as [Hall H3]. apply andb_true_iff in Hall as [H1 H2].
  rewrite negb_true_iff in H1, H2. split_and!; [done|done| |].
  - by destruct (isspace ch) as [[|]|].
  - destruct (strchr_Base64 ch); [|done]. apply Z.eqb_eq in H4. congruence.
Qed.

Section Pton.
Context (ts : Z) (Hts : 0 <= ts < 2 ^ 31).
#[local] Arguments target_update : simpl never.

(** One character of the alphabet goes to the [switch]. *)
Lemma pton_loop_char v l s :
  0 <= v < 64 ->
  pton_loop ts (base64_char v :: l) s =
    match pton_value ts v s with
    | None => None
    | Some (PtonReturn r t) => Some (PtonReturn r t)
    | Some (PtonGo s') => pton_loop ts l s'
    end.
Proof.
  intros Hv. destruct (base64_char_facts v Hv) as (H1 & H2 & H3 & H4).
  cbn [pton_loop]. by rewrite H1, H3, H2, H4.
Qed.

Lemma target_update_put f i a b :
  0 <= i < Z.of_nat (length a) -> a !! Z.to_nat i = Some b ->
  target_update f i (Some a) = Some (Some (<[Z.to_nat i := byte_of (f b)]> a)).
Proof. intros Hi Hb. unfold target_update. by rewrite Hb, array_set_put by done. Qed.

(** The four states, on an array with room. *)
Lemma pton_value_0 v i a :
  0 <= i < ts -> ts <= Z.of_nat (length a) ->
  pton_value ts v (Pton 0 i (Some a)) =
    Some (PtonGo (Pton 1 i (Some (<[Z.to_nat i := byte_of (v * 4)]> a)))).
Proof.
  intros Hi Ha. unfold pton_value. simpl. replace (ts <=? i) with false by lia.
  destruct (lookup_lt_is_Some_2 a (Z.to_nat i)) as [b Hb]; [lia|].
  rewrite (target_update_put _ _ _ b) by (done || lia). by rewrite Z.shiftl_mul_pow2 by lia.
Qed.

Lemma pton_value_1 v i a b :
  0 <= i -> i + 1 < ts -> ts <= Z.of_nat (length a) -> a !! Z.to_nat i = Some b ->
  pton_value ts v (Pton 1 i (Some a)) =
    Some (PtonGo (Pton 2 (i + 1) (Some
      (<[S (Z.to_nat i) := byte_of (v mod 16 * 16)]> (<[Z.to_nat i := byte_of (Z.lor (byte_val b) (v / 16))]> a))))).
Proof.
  intros Hi Hl Ha Hb. unfold pton_value. simpl. rewrite u32_id by lia.
  replace (ts <=? i + 1) with false by lia.
  rewrite (target_update_put _ _ _ b) by (done || lia). rewrite Z.shiftr_div_pow2 by lia.
  destruct (lookup_lt_is_Some_2 (<[Z.to_nat i := byte_of (Z.lor (byte_val b) (v / 2 ^ 4))]> a)
    (Z.to_nat (i + 1))) as [b' Hb']; [rewrite length_insert; lia|].
  rewrite (target_update_put _ _ _ b') by (done || rewrite length_insert; lia).
  change 15 with (Z.ones 4). rewrite Z.land_ones, Z.shiftl_mul_pow2 by lia.
  by replace (Z.to_nat (i + 1)) with (S (Z.to_nat i)) by lia.
Qed.

Lemma pton_value_2 v i a b :
  0 <= i -> i + 1 < ts -> ts <= Z.of_nat (length a) -> a !! Z.to_nat i = Some b ->
  pton_value ts v (Pton 2 i (Some a)) =
    Some (PtonGo (Pton 3 (i + 1) (Some
      (<[S (Z.to_nat i) := byte_of (v mod 4 * 64)]> (<[Z.to_nat i := byte_of (Z.lor (byte_val b) (v / 4))]> a))))).
Proof.
  intros Hi Hl Ha Hb. unfold pton_value. simpl. rewrite u32_id by lia.
  replace (ts <=? i + 1) with false by lia.
  rewrite (target_update_put _ _ _ b) by (done || lia). rewrite Z.shiftr_div_pow2 by lia.
  destruct (lookup_lt_is_Some_2 (<[Z.to_nat i := byte_of (Z.lor (byte_val b) (v / 2 ^ 2))]> a)
    (Z.to_nat (i + 1))) as [b' Hb']; [rewrite length_insert; lia|].
  rewrite (target_update_put _ _ _ b') by (done || rewrite length_insert; lia).
  replace (Z.land v 3) with (v mod 4) by (change 3 with (Z.ones 2); by rewrite Z.land_ones by lia).
  rewrite Z.shiftl_mul_pow2 by lia.
  by replace (Z.to_nat (i + 1)) with (S (Z.to_nat i)) by lia.
Qed.

Lemma pton_value_3 v i a b :
  0 <= i < ts -> ts <= Z.of_nat (length a) -> a !! Z.to_nat i = Some b ->
  pton_value ts v (Pton 3 i (Some a)) =
    Some (PtonGo (Pton 0 (i + 1) (Some (<[Z.to_nat i := byte_of (Z.lor (byte_val b) v)]> a)))).
Proof.
  intros Hi Ha Hb. unfold pton_value. simpl. replace (ts <=? i) with false by lia.
  rewrite (target_update_put _ _ _ b) by (done || lia). by rewrite u32_id by lia.
Qed.

(** Putting a byte together from its upper and lower bits. *)
Lemma join_bits x k :
  0 <= k <= 8 -> 0 <= x < 256 ->
  byte_of (Z.lor (byte_val (byte_of (x / 2 ^ k * 2 ^ k))) (x mod 2 ^ k)) = byte_of x.
Proof.
  intros Hk Hx. rewrite byte_val_of.
  assert (0 < 2 ^ k) by (apply Z.pow_pos_nonneg; lia).
  pose proof (Z.div_mod x (2 ^ k) ltac:(lia)). pose proof (Z.mod_pos_bound x (2 ^ k) ltac:(lia)).
  rewrite Z.mod_small by (split; [apply Z.mul_nonneg_nonneg; [apply Z.div_pos; lia|lia]|lia]).
  rewrite <- Z.shiftl_mul_pow2 by lia. rewrite Z.lor_comm, lor_disjoint_add by lia. f_equal. lia.
Qed.

(** Two characters: the first byte, and the upper bits of the second. *)
Lemma pton_two x y i a l v0 v1 :
  0 <= x < 256 -> 0 <= y < 256 -> v0 = x / 4 -> v1 = x mod 4 * 16 + y / 16 ->
  0 <= i -> i + 1 < ts -> ts <= Z.of_nat (length a) ->
  pton_loop ts (base64_char v0 :: base64_char v1 :: l) (Pton 0 i (Some a)) =
  pton_loop ts l (Pton 2 (i + 1) (Some (put_list a (Z.to_nat i) [byte_of x; byte_of (y / 16 * 16)]))).
Proof.
  intros Hx Hy E0 E1 Hi Hl Ha. rewrite pton_loop_char by (subst; div_mod).
  rewrite pton_value_0 by lia. rewrite pton_loop_char by (subst; div_mod).
  rewrite (pton_value_1 _ _ _ (byte_of (v0 * 4)));
    [|lia|lia|by rewrite length_insert|apply list_lookup_insert_eq; lia].
  rewrite list_insert_insert_eq. simpl.
  replace (v1 / 16) with (x mod 4) by (subst; div_mod).
  replace (v1 mod 16 * 16) with (y / 16 * 16) by (subst; div_mod).
  subst v0. pose proof (join_bits x 2 ltac:(lia) Hx) as J. change (2 ^ 2) with 4 in J. by rewrite J.
Qed.

Lemma pton_third y z i a l v2 w0 :
  0 <= y < 256 -> 0 <= z < 256 -> v2 = y mod 16 * 4 + z / 64 ->
  0 <= i -> i + 1 < ts -> ts <= Z.of_nat (length a) -> a !! Z.to_nat i = Some (byte_of (y / 16 * 16)) ->
  w0 = byte_of y ->
  pton_loop ts (base64_char v2 :: l) (Pton 2 i (Some a)) =
  pton_loop ts l (Pton 3 (i + 1) (Some (put_list a (Z.to_nat i) [w0; byte_of (z / 64 * 64)]))).
Proof.
  intros Hy Hz E2 Hi Hl Ha Hb ->. rewrite pton_loop_char by (subst; div_mod).
  rewrite (pton_value_2 _ _ _ _ Hi Hl Ha Hb). simpl.
  replace (v2 / 4) with (y mod 16) by (subst; div_mod).
  replace (v2 mod 4 * 64) with (z / 64 * 64) by (subst; div_mod).
  pose proof (join_bits y 4 ltac:(lia) Hy) as J. change (2 ^ 4) with 16 in J. by rewrite J.
Qed.

Lemma put_list_overlap (a : list byte) k x y1 y2 z :
  put_list (put_list a k [x; y1]) (S k) [y2; z] = put_list a k [x; y2; z].
Proof. simpl. by rewrite list_insert_insert_eq. Qed.

(** The second byte of a short group is the last one, or none is. *)
Lemma pton_group2 x y i a l :
  0 <= i -> i + 2 < ts -> ts <= Z.of_nat (length a) ->
  pton_loop ts (take 3 (base64 [x; y]) ++ l) (Pton 0 i (Some a)) =
  pton_loop ts l (Pton 3 (i + 2) (Some (put_list a (Z.to_nat i) [x; y; byte_of 0]))).
Proof.
  intros Hi Hl Ha. pose proof (byte_val_range x) as Hx. pose proof (byte_val_range y) as Hy.
  pose proof (group2_chars x y) as E. cbn [base64] in *. injection E as <- <- <-.
  rewrite output0_eq, output1_eq, output2_eq by lia. cbn [take app].
  rewrite (pton_two (byte_val x) (byte_val y)) by done || lia.
  rewrite (pton_third (byte_val y) 0 _ _ _ _ y); rewrite ?put_list_length, ?byte_of_val; try done; try lia.
  - replace (Z.to_nat (i + 1)) with (S (Z.to_nat i)) by lia. rewrite put_list_overlap.
    by replace (i + 1 + 1) with (i + 2) by lia.
  - replace (Z.to_nat (i + 1)) with (S (Z.to_nat i)) by lia. simpl.
    apply list_lookup_insert_eq. rewrite length_insert. lia.
Qed.

Lemma pton_group3 x y z i a l :
  0 <= i -> i + 3 <= ts -> ts <= Z.of_nat (length a) ->
  pton_loop ts (base64 [x; y; z] ++ l) (Pton 0 i (Some a)) =
  pton_loop ts l (Pton 0 (i + 3) (Some (put_list a (Z.to_nat i) [x; y; z]))).
Proof.
  intros Hi Hl Ha. pose proof (byte_val_range x) as Hx. pose proof (byte_val_range y) as Hy.
  pose proof (byte_val_range z) as Hz.
  rewrite <- group3_chars. rewrite output0_eq, output1_eq, output2_eq, output3_eq by lia. cbn [app].
  rewrite (pton_two (byte_val x) (byte_val y)) by done || lia.
  rewrite (pton_third (byte_val y) (byte_val z) _ _ _ _ y); rewrite ?put_list_length, ?byte_of_val; try done; try lia.
  2: { replace (Z.to_nat (i + 1)) with (S (Z.to_nat i)) by lia. simpl.
    apply list_lookup_insert_eq. rewrite length_insert. lia. }
  replace (Z.to_nat (i + 1)) with (S (Z.to_nat i)) by lia. rewrite put_list_overlap.
  rewrite pton_loop_char by div_mod.
  rewrite (pton_value_3 _ _ _ (byte_of (byte_val z / 64 * 64)));
    [|lia|by rewrite put_list_length|].
  2: { replace (Z.to_nat (i + 1 + 1)) with (S (S (Z.to_nat i))) by lia. simpl.
    apply list_lookup_insert_eq. rewrite !length_insert. lia. }
  pose proof (join_bits (byte_val z) 6 ltac:(lia) Hz) as J. change (2 ^ 6) with 64 in J.
  rewrite J, byte_of_val. replace (Z.to_nat (i + 1 + 1)) with (S (S (Z.to_nat i))) by lia.
  simpl. rewrite list_insert_insert_eq. by replace (i + 1 + 1 + 1) with (i + 3) by lia.
Qed.

Lemma pton_group1 x i a l :
  0 <= i -> i + 1 < ts -> ts <= Z.of_nat (length a) ->
  pton_loop ts (take 2 (base64 [x]) ++ l) (Pton 0 i (Some a)) =
  pton_loop ts l (Pton 2 (i + 1) (Some (put_list a (Z.to_nat i) [x; byte_of 0]))).
Proof.
  intros Hi Hl Ha. pose proof (byte_val_range x) as Hx.
  pose proof (group1_chars x) as E. cbn [base64] in *. injection E as <- <-.
  rewrite output0_eq, output1_eq by lia. cbn [take app].
  rewrite (pton_two (byte_val x) 0) by done || lia. by rewrite byte_of_val.
Qed.

(** The padding of short groups, when the left-over bits are zero. *)
Lemma pton_pad_zero st k (a : list byte) :
  st = 2 \/ st = 3 -> 0 <= k < 2 ^ 31 -> a !! Z.to_nat k = Some (byte_of 0) ->
  pton_pad (if st =? 2 then [byte_of Pad64; byte_of 0] else [byte_of 0]) (Pton st k (Some a)) = Some k.
Proof.
  intros Hst Hk Ha. assert (s32 k = k) as E by (apply sint_id; lia).
  destruct Hst as [-> | ->]; unfold pton_pad; cbn -[lookup s32 Z.to_nat]; rewrite Ha; cbn -[s32]; by rewrite E.
Qed.

(** A zero behind the data: the bits that are left over of the last character of a short group. *)
Definition left_over (l : list byte) : list byte := if (length l mod 3 =? 0)%nat then [] else [byte_of 0].

Lemma left_over_group x y z l : left_over (x :: y :: z :: l) = left_over l.
Proof. unfold left_over. cbn [length]. replace (S (S (S (length l)))) with (length l + 1 * 3)%nat by lia. by rewrite Nat.Div0.mod_add. Qed.

(** The whole decoder from the start of a group on. *)
Lemma pton_from src i a :
  0 <= i -> i + Z.of_nat (length (src ++ left_over src)) <= ts -> ts <= Z.of_nat (length a) ->
  exists ch l s, pton_loop ts (base64 src ++ [byte_of 0]) (Pton 0 i (Some a)) = Some (PtonGo (ch, l, s)) /\
    (if ch =? Pad64 then pton_pad l s = Some (i + Z.of_nat (length src))
     else state s = 0 /\ tarindex s = i + Z.of_nat (length src)) /\
    target s = Some (put_list a (Z.to_nat i) (src ++ left_over src)).
Proof.
  revert i a. induction src as [| x | x y | x y z src IH] using triple_ind; intros i a Hi Hl Ha; [simpl in Hl..|].
  - exists 0, [], (Pton 0 i (Some a)). split; [done|]. split; [by rewrite Z.add_0_r|].
    done.
  - exists Pad64, [byte_of Pad64; byte_of 0], (Pton 2 (i + 1) (Some (put_list a (Z.to_nat i) [x; byte_of 0]))).
    split; [|split; [|done]].
    + change (base64 [x]) with (take 2 (base64 [x]) ++ [byte_of Pad64; byte_of Pad64]).
      by rewrite <- app_assoc, pton_group1 by lia.
    + apply (pton_pad_zero 2 (i + 1)); [by left|lia|].
      apply (lookup_put_end _ _ [x]); simpl; lia.
  - exists Pad64, [byte_of 0], (Pton 3 (i + 2) (Some (put_list a (Z.to_nat i) [x; y; byte_of 0]))).
    split; [|split; [|done]].
    + change (base64 [x; y]) with (take 3 (base64 [x; y]) ++ [byte_of Pad64]).
      by rewrite <- app_assoc, pton_group2 by lia.
    + apply (pton_pad_zero 3 (i + 2)); [by right|lia|].
      apply (lookup_put_end _ _ [x; y]); simpl; lia.
  - rewrite left_over_group in Hl |- *. cbn [length app] in Hl. rewrite length_app in Hl. rewrite (base64_group3 x y z src), <- app_assoc, pton_group3 by lia.
    destruct (IH (i + 3) (put_list a (Z.to_nat i) [x; y; z])) as (ch & l & s & E & Hend & Et);
      [lia|rewrite length_app; lia|by rewrite put_list_length|].
    exists ch, l, s. split; [exact E|]. cbn [length].
    replace (i + Z.of_nat (S (S (S (length src))))) with (i + 3 + Z.of_nat (length src)) by lia.
    split; [exact Hend|].
    rewrite Et. change ((x :: y :: z :: src) ++ left_over src) with ([x; y; z] ++ (src ++ left_over src)).
    rewrite (put_list_app _ _ [x; y; z]). simpl length. do 2 f_equal. lia.
Qed.
End Pton.

(** What follows the NUL is not looked at. *)
Lemma pton_loop_stop ts l rest s :
  match pton_loop ts l s with
  | Some (PtonGo (ch, l', s')) => pton_loop ts (l ++ rest) s = Some (PtonGo (ch, l' ++ rest, s'))
  | Some (PtonReturn r t) => pton_loop ts (l ++ rest) s = Some (PtonReturn r t)
  | None => True
  end.
Proof.
  revert s. induction l as [|b l IH]; intros s; cbn [pton_loop app]; [done|].
  destruct (s8 (byte_val b) =? 0); [done|].
  destruct (isspace (s8 (byte_val b))) as [[|]|]; [apply IH| |done].
  destruct (s8 (byte_val b) =? Pad64); [done|].
  destruct (strchr_Base64 (s8 (byte_val b))); [|done].
  destruct (pton_value ts z s) as [[r t|s']|]; [done|apply IH|done].
Qed.

Lemma skip_spaces_stop ch l rest :
  match skip_spaces ch l with
  | Some (ch', l') => skip_spaces ch (l ++ rest) = Some (ch', l' ++ rest)
  | None => True
  end.
Proof.
  revert ch. induction l as [|b l IH]; intros ch; cbn [skip_spaces app].
  - destruct (ch =? 0) eqn:E; [destruct rest; simpl; by rewrite E|].
    destruct (isspace ch) as [[|]|] eqn:E2; [done| |done]. destruct rest; simpl; by rewrite E, E2.
  - destruct (ch =? 0); [done|]. destruct (isspace ch) as [[|]|]; [apply IH|done|done].
Qed.

Lemma pton_pad_stop l s r rest : pton_pad l s = Some r -> pton_pad (l ++ rest) s = Some r.
Proof.
  unfold pton_pad. destruct l as [|b l]; [done|]. cbn [next_char app].
  destruct ((state s =? 0) || (state s =? 1)); [done|].
  assert (forall ch l r', 
    match skip_spaces ch l with
    | None => None
    | Some (ch, _) =>
        if negb (ch =? 0) then Some (-1)
        else match target s with
             | None => Some (s32 (tarindex s))
             | Some a => match a !! Z.to_nat (tarindex s) with
                         | None => None
                         | Some b => Some (if negb (byte_val b =? 0) then -1 else s32 (tarindex s))
                         end
             end
    end = Some r' ->
    match skip_spaces ch (l ++ rest) with
    | None => None
    | Some (ch, _) =>
        if negb (ch =? 0) then Some (-1)
        else match target s with
             | None => Some (s32 (tarindex s))
             | Some a => match a !! Z.to_nat (tarindex s) with
                         | None => None
                         | Some b => Some (if negb (byte_val b =? 0) then -1 else s32 (tarindex s))
                         end
             end
    end = Some r') as Hfinish.
  { intros ch l' r' Hr. pose proof (skip_spaces_stop ch l' rest) as Hs.
    destruct (skip_spaces ch l') as [[ch' l'']|]; [|done]. by rewrite Hs. }
  destruct (state s =? 2); [|apply Hfinish].
  pose proof (skip_spaces_stop (s8 (byte_val b)) l rest) as Hs.
  destruct (skip_spaces (s8 (byte_val b)) l) as [[ch' l']|]; [|done]. rewrite Hs.
  destruct (negb (ch' =? Pad64)); [done|].
  destruct l' as [|b' l']; [done|]. cbn [next_char app]. apply Hfinish.
Qed.

(** C25. Decoding undoes encoding: on the encoding of any bytes
    and a NUL, whatever follows, [f_b64_pton] returns the number of bytes and
    stores them at the start of the target.  When that number is not a multiple of
    three a zero is stored behind them, for which the target has to have room; the
    rest of the target is as before. *)
Theorem f_b64_pton_spec src rest b ts :
  Z.of_nat (length (src ++ left_over src)) <= ts -> ts <= Z.of_nat (length b) -> ts < 2 ^ 31 ->
  f_b64_pton (base64 src ++ byte_of 0 :: rest) (Some b) ts =
    Some (Z.of_nat (length src), Some (src ++ left_over src ++ drop (length (src ++ left_over src)) b)).
Proof.
  intros H1 H2 H3. pose proof (length_app src (left_over src)).
  destruct (pton_from ts ltac:(lia) src 0 b ltac:(lia) ltac:(lia) H2) as (ch & l & s & E & Hend & Et).
  pose proof (pton_loop_stop ts (base64 src ++ [byte_of 0]) rest (Pton 0 0 (Some b))) as Hstop.
  rewrite E, <- app_assoc in Hstop. simpl in Hstop. unfold f_b64_pton. rewrite Hstop.
  assert (s32 (Z.of_nat (length src)) = Z.of_nat (length src)) as Es by (apply sint_id; lia).
  rewrite put_list_spec in Et by lia. simpl in Et. rewrite <- app_assoc in Et. destruct (ch =? Pad64) eqn:Ech.
  - by rewrite (pton_pad_stop _ _ _ rest Hend), Et, Z.add_0_l.
  - destruct Hend as [-> ->]. simpl. by rewrite Et, Z.add_0_l, Es.
Qed.

(** ** White space *)

Definition is_space (b : byte) : bool :=
  match isspace (s8 (byte_val b)) with Some true => true | _ => false end.

(** The string without its white space. *)
Fixpoint squeeze (l : list byte) : list byte :=
  match l with
  | [] => []
  | b :: l' => if is_space b then squeeze l' else b :: squeeze l'
  end.

(** NUL is no space. *)
Lemma is_space_nul b : s8 (byte_val b) = 0 -> is_space b = false.
Proof. unfold is_space. by intros ->. Qed.

Lemma pton_loop_squeeze ts l s :
  pton_loop ts (squeeze l) s =
    match pton_loop ts l s with
    | Some (PtonGo (ch, l', s')) => Some (PtonGo (ch, squeeze l', s'))
    | r => r
    end.
Proof.
  revert s. induction l as [|b l IH]; intros s; [done|]. cbn [squeeze pton_loop].
  destruct (Z.eqb_spec (s8 (byte_val b)) 0) as [E|E].
  - rewrite is_space_nul by done. cbn [pton_loop]. by rewrite E.
  - destruct (is_space b) eqn:Es; unfold is_space in Es.
    + destruct (isspace (s8 (byte_val b))) as [[|]|]; done.
    + cbn [pton_loop]. destruct (Z.eqb_spec (s8 (byte_val b)) 0); [done|].
      destruct (isspace (s8 (byte_val b))) as [[|]|]; try done.
      destruct (s8 (byte_val b) =? Pad64); [done|].
      destruct (strchr_Base64 (s8 (byte_val b))); [|done].
      destruct (pton_value ts z s) as [[r t|s']|]; [done|apply IH|done].
Qed.

(** Skipping spaces finds the first character of the squeezed string. *)
Lemma skip_spaces_squeeze b l :
  match skip_spaces (s8 (byte_val b)) l with
  | Some (ch, l') => exists b', squeeze (b :: l) = b' :: squeeze l' /\ ch = s8 (byte_val b') /\
      forall l2, skip_spaces ch l2 = Some (ch, l2)
  | None => match squeeze (b :: l) with
            | [] => True
            | b' :: l2 => skip_spaces (s8 (byte_val b')) l2 = None
            end
  end.
Proof.
  revert b. induction l as [|c l IH]; intros b.
  all: cbn [skip_spaces squeeze].
  all: destruct (Z.eqb_spec (s8 (byte_val b)) 0) as [E|E];
    [exists b; rewrite is_space_nul by done; split_and!; [done..|];
     rewrite E; intros []; reflexivity|].
  all: apply Z.eqb_neq in E; destruct (is_space b) eqn:Es; unfold is_space in Es.
  - by destruct (isspace (s8 (byte_val b))) as [[|]|].
  - destruct (isspace (s8 (byte_val b))) as [[|]|] eqn:E2; [by rewrite ?E2 in Es| |by simpl; rewrite ?E, ?E2].
    exists b. split_and!; [done..|]. intros []; simpl; by rewrite E, E2.
  - destruct (isspace (s8 (byte_val b))) as [[|]|]; [apply IH|done|done].
  - destruct (isspace (s8 (byte_val b))) as [[|]|] eqn:E2; [done| |].
    + exists b. split_and!; [done..|]. intros []; simpl; by rewrite E, E2.
    + destruct (if is_space c then _ else _); simpl; by rewrite E, E2.
Qed.

(** A continuation that looks at the rest of the string only through
    [squeeze] does not see spaces that were skipped. *)
Lemma skip_then_squeeze (f g : Z -> list byte -> option Z) l :
  (forall ch l', g ch (squeeze l') = f ch l') ->
  match next_char (squeeze l) with
  | None => None
  | Some (ch, l') => match skip_spaces ch l' with None => None | Some (ch, l'') => g ch l'' end
  end =
  match next_char l with
  | None => None
  | Some (ch, l') => match skip_spaces ch l' with None => None | Some (ch, l'') => f ch l'' end
  end.
Proof.
  intros Hfg. destruct l as [|b l]; [done|].
  pose proof (skip_spaces_squeeze b l) as Hs. cbn [next_char].
  destruct (skip_spaces (s8 (byte_val b)) l) as [[ch l']|].
  - destruct Hs as (b' & -> & -> & Hs). cbn [next_char]. rewrite Hs. apply Hfg.
  - destruct (squeeze (b :: l)) as [|b' l2]; [done|]. cbn [next_char]. by rewrite Hs.
Qed.

Lemma pton_pad_squeeze l s : In (byte_of 0) l -> pton_pad (squeeze l) s = pton_pad l s.
Proof.
  intros Hnul. unfold pton_pad.
  destruct ((state s =? 0) || (state s =? 1)) eqn:E01.
  - assert (squeeze l <> []) as Hl.
    { clear -Hnul. induction l as [|b l IH]; [done|]. cbn [squeeze].
      destruct Hnul as [->|Hnul]; [by rewrite is_space_nul|].
      destruct (is_space b); [by apply IH|done]. }
    destruct (squeeze l), l; done.
  - set (check := fun (ch : Z) (_ : list byte) =>
      if negb (ch =? 0) then Some (-1)
      else match target s with
           | None => Some (s32 (tarindex s))
           | Some a =>
               match a !! Z.to_nat (tarindex s) with
               | None => None
               | Some b => Some (if negb (byte_val b =? 0) then -1 else s32 (tarindex s))
               end
           end).
    set (second := fun (ch : Z) src =>
      if negb (ch =? Pad64) then Some (-1)
      else match next_char src with
           | None => None
           | Some (ch, src) =>
               match skip_spaces ch src with None => None | Some (ch, l) => check ch l end
           end).
    destruct (state s =? 2).
    + apply (skip_then_squeeze second second). intros ch l'. unfold second.
      destruct (negb (ch =? Pad64)); [done|]. by apply (skip_then_squeeze check check).
    + by apply (skip_then_squeeze check check).
Qed.

(** The loop does not run past the NUL. *)
Lemma pton_loop_nul ts l s ch l' s' :
  In (byte_of 0) l -> pton_loop ts l s = Some (PtonGo (ch, l', s')) -> ch <> 0 -> In (byte_of 0) l'.
Proof.
  revert s. induction l as [|b l IH]; intros s Hin; [done|]. cbn [pton_loop].
  destruct (Z.eqb_spec (s8 (byte_val b)) 0) as [E|E]; [by intros [= <- _ _]|].
  destruct Hin as [->|Hin]; [done|].
  destruct (isspace (s8 (byte_val b))) as [[|]|]; [by apply IH| |done].
  destruct (s8 (byte_val b) =? Pad64); [by intros [= _ <- _]|].
  destruct (strchr_Base64 (s8 (byte_val b))); [|done].
  destruct (pton_value ts z s) as [[r t|s2]|]; [done|by apply IH|done].
Qed.

(** "Skips all whitespace anywhere": white space in a
    NUL-terminated string, also between and behind the pad characters, changes
    neither the result nor the bytes stored. *)
Theorem f_b64_pton_spaces l t ts :
  In (byte_of 0) l -> f_b64_pton (squeeze l) t ts = f_b64_pton l t ts.
Proof.
  intros Hnul. unfold f_b64_pton. rewrite pton_loop_squeeze.
  destruct (pton_loop ts l (Pton 0 0 t)) as [[r t'|[[ch l'] s']]|] eqn:E; [done| |done].
  destruct (Z.eqb_spec ch Pad64) as [->|]; [|done].
  rewrite pton_pad_squeeze; [done|]. by eapply pton_loop_nul.
Qed.
