(* ===== verification/Coding.v ===== *)
(** * util/coding: fixed-width and variable-length integers of LevelDB

    A [std::string] and the bytes a [Slice] refers to are lists of bytes; a pair
    of pointers [p], [limit] is the list of the bytes between them, and the
    pointer returned is what is left of that list.  [None] is a NULL pointer.
    [kLittleEndian] is the constant of the port layer. *)
From S2P Require Import Prelude Varint.

(** ** Fixed width *)

Section Fixed.
Context (kLittleEndian : bool).

Definition EncodeFixed32 (value : Z) : list byte :=
  if kLittleEndian then le_split 4 value
  else
    [byte_of (Z.land value 0xff); byte_of (Z.land (Z.shiftr value 8) 0xff);
     byte_of (Z.land (Z.shiftr value 16) 0xff); byte_of (Z.land (Z.shiftr value 24) 0xff)].

Definition EncodeFixed64 (value : Z) : list byte :=
  if kLittleEndian then le_split 8 value
  else
    [byte_of (Z.land value 0xff); byte_of (Z.land (Z.shiftr value 8) 0xff);
     byte_of (Z.land (Z.shiftr value 16) 0xff); byte_of (Z.land (Z.shiftr value 24) 0xff);
     byte_of (Z.land (Z.shiftr value 32) 0xff); byte_of (Z.land (Z.shiftr value 40) 0xff);
     byte_of (Z.land (Z.shiftr value 48) 0xff); byte_of (Z.land (Z.shiftr value 56) 0xff)].

Definition PutFixed32 (dst : list byte) (value : Z) : list byte := dst ++ EncodeFixed32 value.
Definition PutFixed64 (dst : list byte) (value : Z) : list byte := dst ++ EncodeFixed64 value.

(** There is no bounds check: [None] is a read past the end of the buffer. *)
Definition DecodeFixed32 (ptr : list byte) : option Z :=
  match ptr with
  | b0 :: b1 :: b2 :: b3 :: _ =>
      Some (if kLittleEndian then le_combine [b0; b1; b2; b3]
            else Z.lor (Z.lor (Z.lor (byte_val b0) (u32 (Z.shiftl (byte_val b1) 8)))
                   (u32 (Z.shiftl (byte_val b2) 16))) (u32 (Z.shiftl (byte_val b3) 24)))
  | _ => None
  end.

Definition DecodeFixed64 (ptr : list byte) : option Z :=
  if kLittleEndian then
    if (8 <=? length ptr)%nat then Some (le_combine (take 8 ptr)) else None
  else
    match DecodeFixed32 ptr, DecodeFixed32 (drop 4 ptr) with
    | Some lo, Some hi => Some (Z.lor (u64 (Z.shiftl hi 32)) lo)
    | _, _ => None
    end.
End Fixed.

(** ** Variable length *)

Definition EncodeVarint32 (v : Z) : list byte :=
  let B := 128 in
  if v <? Z.shiftl 1 7 then [byte_of v]
  else if v <? Z.shiftl 1 14 then [byte_of (Z.lor v B); byte_of (Z.shiftr v 7)]
  else if v <? Z.shiftl 1 21 then
    [byte_of (Z.lor v B); byte_of (Z.lor (Z.shiftr v 7) B); byte_of (Z.shiftr v 14)]
  else if v <? Z.shiftl 1 28 then
    [byte_of (Z.lor v B); byte_of (Z.lor (Z.shiftr v 7) B); byte_of (Z.lor (Z.shiftr v 14) B);
     byte_of (Z.shiftr v 21)]
  else
    [byte_of (Z.lor v B); byte_of (Z.lor (Z.shiftr v 7) B); byte_of (Z.lor (Z.shiftr v 14) B);
     byte_of (Z.lor (Z.shiftr v 21) B); byte_of (Z.shiftr v 28)].

Definition PutVarint32 (dst : list byte) (v : Z) : list byte := dst ++ EncodeVarint32 v.

(** [while (v >= B)]; [None] when the fuel is used up. *)
Fixpoint EncodeVarint64_loop (fuel : nat) (v : Z) : option (list byte) :=
  match fuel with
  | O => None
  | S fuel' =>
      let B := 128 in
      if B <=? v then
        match EncodeVarint64_loop fuel' (Z.shiftr v 7) with
        | Some bs => Some (byte_of (Z.lor (Z.land v (B - 1)) B) :: bs)
        | None => None
        end
      else Some [byte_of v]
  end.

Definition EncodeVarint64 (v : Z) : option (list byte) := EncodeVarint64_loop 10 v.

(** [char buf[10]] has to be large enough. *)
Definition PutVarint64 (dst : list byte) (v : Z) : option (list byte) :=
  match EncodeVarint64 v with
  | Some bs => if (length bs <=? 10)%nat then Some (dst ++ bs) else None
  | None => None
  end.

Definition PutLengthPrefixedSlice (dst value : list byte) : list byte :=
  PutVarint32 dst (u32 (Z.of_nat (length value))) ++ value.

Fixpoint VarintLength_loop (fuel : nat) (v len : Z) : option Z :=
  match fuel with
  | O => None
  | S fuel' => if 128 <=? v then VarintLength_loop fuel' (Z.shiftr v 7) (len + 1) else Some len
  end.

Definition VarintLength (v : Z) : option Z := VarintLength_loop 10 v 1.

(** [for (shift = 0; shift <= 28 && p < limit; shift += 7)] *)
Fixpoint GetVarint32Ptr_loop (shift result : Z) (p : list byte) : option (Z * list byte) :=
  if shift <=? 28 then
    match p with
    | [] => None
    | b :: p' =>
        let byte := byte_val b in
        if negb (Z.land byte 128 =? 0)
        then GetVarint32Ptr_loop (shift + 7) (Z.lor result (u32 (Z.shiftl (Z.land byte 127) shift))) p'
        else Some (Z.lor result (u32 (Z.shiftl byte shift)), p')
    end
  else None.

Definition GetVarint32PtrFallback (p : list byte) : option (Z * list byte) := GetVarint32Ptr_loop 0 0 p.

Definition GetVarint32Ptr (p : list byte) : option (Z * list byte) :=
  match p with
  | b :: p' => if Z.land (byte_val b) 128 =? 0 then Some (byte_val b, p') else GetVarint32PtrFallback p
  | [] => GetVarint32PtrFallback p
  end.

Fixpoint GetVarint64Ptr_loop (shift result : Z) (p : list byte) : option (Z * list byte) :=
  if shift <=? 63 then
    match p with
    | [] => None
    | b :: p' =>
        let byte := byte_val b in
        if negb (Z.land byte 128 =? 0)
        then GetVarint64Ptr_loop (shift + 7) (Z.lor result (u64 (Z.shiftl (Z.land byte 127) shift))) p'
        else Some (Z.lor result (u64 (Z.shiftl byte shift)), p')
    end
  else None.

Definition GetVarint64Ptr (p : list byte) : option (Z * list byte) := GetVarint64Ptr_loop 0 0 p.

(** The value and the slice behind it; the input is left alone on failure. *)
Definition GetVarint32 (input : list byte) : option (Z * list byte) := GetVarint32Ptr input.
Definition GetVarint64 (input : list byte) : option (Z * list byte) := GetVarint64Ptr input.

(** The pointer variant. *)
Definition GetLengthPrefixedSlice_ptr (p : list byte) : option (list byte * list byte) :=
  match GetVarint32Ptr p with
  | None => None
  | Some (len, p) =>
      if Z.of_nat (length p) <? len then None
      else Some (take (Z.to_nat len) p, drop (Z.to_nat len) p)
  end.

(** The result, if any, and the input afterwards: the length has been taken
    from it even when what follows is too short. *)
Definition GetLengthPrefixedSlice (input : list byte) : option (list byte) * list byte :=
  match GetVarint32 input with
  | None => (None, input)
  | Some (len, input) =>
      if len <=? Z.of_nat (length input)
      then (Some (take (Z.to_nat len) input), drop (Z.to_nat len) input)
      else (None, input)
  end.

(** ** Checksums *)

Definition kMaskDelta : Z := 0xa282ead8.

Definition Mask (crc : Z) : Z :=
  u32 (Z.lor (Z.shiftr crc 15) (u32 (Z.shiftl crc 17)) + kMaskDelta).

Definition Unmask (masked_crc : Z) : Z :=
  let rot := u32 (masked_crc - kMaskDelta) in
  Z.lor (Z.shiftr rot 17) (u32 (Z.shiftl rot 15)).
