(* ===== verification/CodingProps.v ===== *)
(** * util/coding: round trips and the reference for varints

    Both pairs of functions are related to the same reference ([varint] and
    [take_varint] of Varint) as the integers of nanopb. *)
From S2P Require Import Prelude Varint Coding.

(** ** Fixed width *)

Lemma byte_of_mod z : byte_of (z mod 256) = byte_of z.
Proof. rewrite <- (byte_of_val (byte_of z)). by rewrite byte_val_of. Qed.

Lemma byte_of_land x : byte_of (Z.land x 0xff) = byte_of x.
Proof. change 0xff with (Z.ones 8). rewrite Z.land_ones by lia. apply byte_of_mod. Qed.

Lemma EncodeFixed32_spec le v : EncodeFixed32 le v = le_split 4 v.
Proof.
  destruct le; [done|]. unfold EncodeFixed32. rewrite !byte_of_land. cbv [le_split].
  by rewrite !Z.shiftr_shiftr by lia.
Qed.

Lemma EncodeFixed64_spec le v : EncodeFixed64 le v = le_split 8 v.
Proof.
  destruct le; [done|]. unfold EncodeFixed64. rewrite !byte_of_land. cbv [le_split].
  by rewrite !Z.shiftr_shiftr by lia.
Qed.

Lemma le_combine_cons b bs : le_combine (b :: bs) = Z.lor (byte_val b) (Z.shiftl (le_combine bs) 8).
Proof. done. Qed.

Lemma u_shiftl_byte w b n : 0 <= n -> n + 8 <= w -> (Z.shiftl (byte_val b) n) mod 2 ^ w = Z.shiftl (byte_val b) n.
Proof.
  intros Hn Hw. pose proof (byte_val_range b). apply Z.mod_small.
  rewrite Z.shiftl_mul_pow2 by lia.
  assert (2 ^ (n + 8) <= 2 ^ w) by (apply Z.pow_le_mono_r; lia). rewrite Z.pow_add_r in * by lia. nia.
Qed.

Lemma DecodeFixed32_spec le bs rest :
  length bs = 4%nat -> DecodeFixed32 le (bs ++ rest) = Some (le_combine bs).
Proof.
  intros Hl. destruct bs as [|b0 [|b1 [|b2 [|b3 [|]]]]]; try done. destruct le; [done|].
  unfold DecodeFixed32, u32. simpl. rewrite !u_shiftl_byte by lia. f_equal.
  rewrite !le_combine_cons, !Z.shiftl_lor, !Z.shiftl_shiftl by lia. cbn [le_combine].
  rewrite Z.shiftl_0_l, Z.lor_0_r. by rewrite !Z.lor_assoc.
Qed.

Lemma DecodeFixed64_spec le bs rest :
  length bs = 8%nat -> DecodeFixed64 le (bs ++ rest) = Some (le_combine bs).
Proof.
  intros Hl. assert (exists l h, bs = l ++ h /\ length l = 4%nat /\ length h = 4%nat) as (l & h & -> & Hll & Hlh).
  { exists (take 4 bs), (drop 4 bs). by rewrite take_drop, length_take, length_drop, Hl. }
  unfold DecodeFixed64. destruct le.
  - rewrite length_app, Hl. simpl (_ <=? _)%nat. by rewrite take_app_length' by done.
  - rewrite <- !app_assoc, drop_app_length' by done.
    rewrite !DecodeFixed32_spec by done. f_equal. rewrite le_combine_app, Hll, Z.lor_comm. f_equal.
    unfold u64. apply Z.mod_small. pose proof (le_combine_bound h) as Hb. rewrite Hlh in Hb.
    rewrite Z.shiftl_mul_pow2 by lia. lia.
Qed.

(** ** Variable length: writing *)

(** [v | B] stored in a byte: a group with its continuation bit. *)
Lemma byte_of_lor_128 v : byte_of (Z.lor v 128) = byte_of (v mod 128 + 128).
Proof.
  rewrite <- lor_continuation, <- (byte_of_land (Z.lor v 128)), <- (byte_of_land (Z.lor (Z.land v _) _)).
  f_equal. rewrite !Z.land_lor_distr_l, <- Z.land_assoc. change (Z.land 128 255) with (Z.lor 128 128).
  change (Z.land 127 255) with 127. apply Z.bits_inj'. intros i Hi. rewrite !Z.lor_spec, !Z.land_spec.
  destruct (decide (i < 7)).
  - assert (i = 0 \/ i = 1 \/ i = 2 \/ i = 3 \/ i = 4 \/ i = 5 \/ i = 6) as Hc by lia.
    by destruct Hc as [-> | [-> | [-> | [-> | [-> | [-> | ->]]]]]].
  - rewrite (Z_testbit_high 127 i 7) by lia. destruct (decide (i = 7)) as [->|].
    + by rewrite !orb_true_r.
    + rewrite (Z_testbit_high 255 i 8) by lia. by rewrite !andb_false_r.
Qed.

Lemma base128_step n v : 128 <= v -> base128 (S n) v = byte_of (Z.lor v 128) :: base128 n (v / 128).
Proof. intros Hv. cbn [base128]. rewrite byte_of_lor_128. by destruct (Z.ltb_spec v 128); [lia|]. Qed.

Lemma base128_last n v : v < 128 -> base128 (S n) v = [byte_of v].
Proof. intros Hv. cbn [base128]. by destruct (Z.ltb_spec v 128); [|lia]. Qed.

Lemma shiftr_7 v : Z.shiftr v 7 = v / 128.
Proof. by rewrite Z.shiftr_div_pow2 by lia. Qed.

Lemma EncodeVarint32_varint v : 0 <= v < 2 ^ 32 -> EncodeVarint32 v = varint v.
Proof.
  intros Hv. unfold EncodeVarint32, varint. cbv zeta.
  replace (Z.shiftr v 28) with (v / 128 / 128 / 128 / 128)
    by (rewrite Z.shiftr_div_pow2, !Z.div_div by lia; done).
  replace (Z.shiftr v 21) with (v / 128 / 128 / 128)
    by (rewrite Z.shiftr_div_pow2, !Z.div_div by lia; done).
  replace (Z.shiftr v 14) with (v / 128 / 128) by (rewrite Z.shiftr_div_pow2, Z.div_div by lia; done).
  rewrite shiftr_7. change (Z.shiftl 1 7) with 128. change (Z.shiftl 1 14) with 16384.
  change (Z.shiftl 1 21) with 2097152. change (Z.shiftl 1 28) with 268435456.
  destruct (Z.ltb_spec v 128); [by rewrite base128_last|]. rewrite base128_step by done. f_equal.
  destruct (Z.ltb_spec v 16384); [rewrite base128_last; [done|apply Z.div_lt_upper_bound; lia]|].
  rewrite base128_step by (apply Z.div_le_lower_bound; lia). 
  destruct (Z.ltb_spec v 2097152).
  { rewrite base128_last; [done|]. rewrite Z.div_div by lia. apply Z.div_lt_upper_bound; lia. }
  rewrite base128_step by (rewrite Z.div_div by lia; apply Z.div_le_lower_bound; lia).
  destruct (Z.ltb_spec v 268435456).
  { rewrite base128_last; [done|]. rewrite !Z.div_div by lia. apply Z.div_lt_upper_bound; lia. }
  rewrite base128_step by (rewrite !Z.div_div by lia; apply Z.div_le_lower_bound; lia).
  rewrite base128_last; [done|]. rewrite !Z.div_div by lia. apply Z.div_lt_upper_bound; lia.
Qed.

Lemma EncodeVarint64_base128 n v :
  0 <= v < 128 ^ Z.of_nat n -> (0 < n)%nat -> EncodeVarint64_loop n v = Some (base128 n v).
Proof.
  revert v. induction n as [|n IH]; intros v Hv Hn; [lia|]. cbn [EncodeVarint64_loop]. cbv zeta.
  rewrite Nat2Z.inj_succ, Z.pow_succ_r in Hv by lia.
  destruct (Z.leb_spec 128 v) as [Hge|Hlt]; [|by rewrite base128_last].
  rewrite shiftr_7, IH.
  - rewrite base128_step by done. change (128 - 1) with 0x7F. by rewrite lor_continuation, byte_of_lor_128.
  - split; [apply Z.div_pos; lia|apply Z.div_lt_upper_bound; lia].
  - destruct n; [simpl in Hv; lia|lia].
Qed.

Lemma EncodeVarint64_varint v : 0 <= v < 2 ^ 64 -> EncodeVarint64 v = Some (varint v).
Proof. intros Hv. apply EncodeVarint64_base128; [by apply pow128_10|lia]. Qed.

Lemma VarintLength_base128 n v len :
  0 <= v < 128 ^ Z.of_nat n -> (0 < n)%nat ->
  VarintLength_loop n v len = Some (len + Z.of_nat (length (base128 n v)) - 1).
Proof.
  revert v len. induction n as [|n IH]; intros v len Hv Hn; [lia|]. cbn [VarintLength_loop].
  rewrite Nat2Z.inj_succ, Z.pow_succ_r in Hv by lia.
  destruct (Z.leb_spec 128 v) as [Hge|Hlt].
  - rewrite shiftr_7, IH.
    + rewrite base128_step by done. cbn [length]. f_equal. lia.
    + split; [apply Z.div_pos; lia|apply Z.div_lt_upper_bound; lia].
    + destruct n; [simpl in Hv; lia|lia].
  - rewrite base128_last by done. simpl. f_equal. lia.
Qed.

(** ** Variable length: reading *)

Lemma take_varint_rest n bs v : take_varint n bs = inl v -> exists rest, bs = v ++ rest.
Proof. intros E. pose proof (take_varint_spec n bs) as Hs. rewrite E in Hs. tauto. Qed.

Lemma land_127 b : Z.land b 127 = b mod 128.
Proof. apply land_7f. Qed.

(** One loop for both widths: [n] bytes are looked at, [k] before this one. *)
Definition get_loop (w last : Z) : Z -> Z -> list byte -> option (Z * list byte) :=
  fix go (shift result : Z) (p : list byte) :=
    if shift <=? last then
      match p with
      | [] => None
      | b :: p' =>
          let byte := byte_val b in
          if negb (Z.land byte 128 =? 0)
          then go (shift + 7) (Z.lor result ((Z.shiftl (Z.land byte 127) shift) mod 2 ^ w)) p'
          else Some (Z.lor result ((Z.shiftl byte shift) mod 2 ^ w), p')
      end
    else None.

Lemma get_loop_spec w last n k acc p :
  7 * (k + Z.of_nat n) = last + 7 -> last < w -> 0 <= k -> 0 <= acc < 2 ^ (7 * k) -> acc < 2 ^ w ->
  get_loop w last (7 * k) acc p =
    match take_varint n p with
    | inl v => Some ((acc + varint_value v * 2 ^ (7 * k)) mod 2 ^ w, drop (length v) p)
    | inr _ => None
    end.
Proof.
  revert k acc p. induction n as [|n IH]; intros k acc p Hn Hlast Hk Ha Haw.
  { destruct p; simpl; destruct (Z.leb_spec (7 * k) last); (lia || done). }
  destruct p as [|b p].
  { simpl. by destruct (7 * k <=? last). }
  cbn [get_loop take_varint]. destruct (Z.leb_spec (7 * k) last); [|lia]. cbv zeta.
  pose proof (byte_val_range b) as Hb. rewrite land_80 by done.
  destruct (Z.ltb_spec (byte_val b) 128) as [Hlt|Hge]; simpl negb; cbv iota.
  - rewrite varint_accumulate by lia. cbn [varint_value length drop]. 
    rewrite Z.mul_0_r, Z.add_0_r, (Z.mod_small (byte_val b) 128) by lia. done.
  - rewrite land_127, varint_accumulate by lia.
    replace (7 * k + 7) with (7 * (k + 1)) by lia.
    assert (2 ^ (7 * (k + 1)) = 128 * 2 ^ (7 * k)) as E.
    { replace (7 * (k + 1)) with (7 + 7 * k) by lia. by rewrite Z.pow_add_r by lia. }
    pose proof (Z.mod_pos_bound (byte_val b) 128 ltac:(lia)) as Hm.
    set (acc' := acc + byte_val b mod 128 * 2 ^ (7 * k)).
    assert (0 <= acc' < 2 ^ (7 * (k + 1))) as Ha' by (unfold acc'; rewrite E; nia).
    assert (0 < 2 ^ w) as Hw by (apply Z.pow_pos_nonneg; lia).
    rewrite IH; [|lia|lia|lia| |].
    + destruct (take_varint n p) as [v|]; [|done]. cbn [varint_value length drop]. f_equal. f_equal.
      rewrite Z.add_mod_idemp_l by lia. f_equal. unfold acc'. rewrite E. ring.
    + split; [by apply Z.mod_pos_bound|]. apply Z.le_lt_trans with acc'; [apply Z.mod_le; lia|lia].
    + by apply Z.mod_pos_bound.
Qed.

Lemma GetVarint32Ptr_loop_eq shift result p : GetVarint32Ptr_loop shift result p = get_loop 32 28 shift result p.
Proof. revert shift result. induction p as [|b p IH]; intros; simpl; [done|]. by rewrite IH. Qed.

Lemma GetVarint64Ptr_loop_eq shift result p : GetVarint64Ptr_loop shift result p = get_loop 64 63 shift result p.
Proof. revert shift result. induction p as [|b p IH]; intros; simpl; [done|]. by rewrite IH. Qed.

Lemma GetVarint32Ptr_fast p : GetVarint32Ptr p = GetVarint32PtrFallback p.
Proof.
  destruct p as [|b p]; [done|]. unfold GetVarint32Ptr. destruct (Z.land (byte_val b) 128 =? 0) eqn:E; [|done].
  unfold GetVarint32PtrFallback. simpl. rewrite E. simpl. do 2 f_equal.
  pose proof (byte_val_range b). rewrite Z.shiftl_0_r, u32_id by lia. done.
Qed.

(** What a decoder of [n] bytes gives on every input. *)
Definition parsed_varint (w : Z) (n : nat) (p : list byte) : option (Z * list byte) :=
  match take_varint n p with
  | inl v => Some (varint_value v mod 2 ^ w, drop (length v) p)
  | inr _ => None
  end.

Lemma GetVarint32_parsed p : GetVarint32 p = parsed_varint 32 5 p.
Proof.
  unfold GetVarint32. rewrite GetVarint32Ptr_fast. unfold GetVarint32PtrFallback. rewrite GetVarint32Ptr_loop_eq.
  rewrite (get_loop_spec 32 28 5 0 0) by lia. unfold parsed_varint. destruct (take_varint 5 p); [|done].
  by rewrite Z.mul_0_r, Z.pow_0_r, Z.mul_1_r.
Qed.

Lemma GetVarint64_parsed p : GetVarint64 p = parsed_varint 64 10 p.
Proof.
  unfold GetVarint64, GetVarint64Ptr. rewrite GetVarint64Ptr_loop_eq.
  rewrite (get_loop_spec 64 63 10 0 0) by lia. unfold parsed_varint. destruct (take_varint 10 p); [|done].
  by rewrite Z.mul_0_r, Z.pow_0_r, Z.mul_1_r.
Qed.

(** A varint is taken off the front whatever follows it. *)
Lemma take_varint_app n v rest : is_varint v -> (length v <= n)%nat -> take_varint n (v ++ rest) = inl v.
Proof.
  revert n. induction v as [|b v IH]; intros n Hv Hl; [done|]. destruct n as [|n]; [simpl in Hl; lia|].
  simpl. destruct v as [|b' v].
  - simpl in *. by destruct (Z.ltb_spec (byte_val b) 128); [|lia].
  - destruct Hv as [Hb Hv]. destruct (Z.ltb_spec (byte_val b) 128); [lia|].
    rewrite IH; [done|done|]. simpl in *. lia.
Qed.

Lemma parsed_varint_app w n v rest :
  0 <= v < 2 ^ 64 -> v < 2 ^ w -> (length (varint v) <= n)%nat ->
  parsed_varint w n (varint v ++ rest) = Some (v, rest).
Proof.
  intros Hv Hw Hl. unfold parsed_varint. rewrite take_varint_app by (done || by apply varint_is_varint).
  by rewrite varint_value_varint, Z.mod_small, drop_app_length by lia.
Qed.

Lemma GetVarint32_varint v rest : 0 <= v < 2 ^ 32 -> GetVarint32 (EncodeVarint32 v ++ rest) = Some (v, rest).
Proof.
  intros Hv. rewrite EncodeVarint32_varint, GetVarint32_parsed by done.
  apply parsed_varint_app; [lia|lia|by apply varint_length_32].
Qed.

Lemma GetVarint64_varint v rest : 0 <= v < 2 ^ 64 -> GetVarint64 (varint v ++ rest) = Some (v, rest).
Proof. intros Hv. rewrite GetVarint64_parsed. apply parsed_varint_app; [lia|lia|]. apply varint_length_bounds. Qed.

Lemma PutVarint64_varint dst v : 0 <= v < 2 ^ 64 -> PutVarint64 dst v = Some (dst ++ varint v).
Proof.
  intros Hv. unfold PutVarint64. rewrite EncodeVarint64_varint by done. pose proof (varint_length_bounds v).
  by destruct (Nat.leb_spec (length (varint v)) 10); [|lia].
Qed.

(** ** The properties of coding.h *)

Lemma VarintLength_varint v : 0 <= v < 2 ^ 64 -> VarintLength v = Some (Z.of_nat (length (varint v))).
Proof.
  intros Hv. unfold VarintLength. rewrite VarintLength_base128 by (try apply pow128_10; try done; lia).
  unfold varint. f_equal. lia.
Qed.

(** The unrolled 32-bit encoder and the looping 64-bit
    encoder write the same reference encoding, within the buffers of their
    callers, and [VarintLength] predicts its length without encoding. *)
Theorem EncodeVarint_spec v :
  (0 <= v < 2 ^ 32 -> EncodeVarint32 v = varint v /\ (length (EncodeVarint32 v) <= 5)%nat) /\
  (0 <= v < 2 ^ 64 -> PutVarint64 [] v = Some (varint v) /\
     VarintLength v = Some (Z.of_nat (length (varint v)))).
Proof.
  split; intros Hv.
  - rewrite EncodeVarint32_varint by done. split; [done|by apply varint_length_32].
  - unfold PutVarint64. rewrite EncodeVarint64_varint by done.
    pose proof (varint_length_bounds v). destruct (Nat.leb_spec (length (varint v)) 10); [|lia]. split; [done|].
    by apply VarintLength_varint.
Qed.

(** C38. On every input the parsers return what the reference
    parser finds in the first five or ten bytes, modulo the width, and what
    follows it; the fast path for one byte agrees with the loop. *)
Theorem GetVarint_spec p :
  GetVarint32 p = parsed_varint 32 5 p /\ GetVarint64 p = parsed_varint 64 10 p /\
  GetVarint32Ptr p = GetVarint32PtrFallback p.
Proof. split_and!; [apply GetVarint32_parsed|apply GetVarint64_parsed|apply GetVarint32Ptr_fast]. Qed.

Lemma length_prefixed_split v rest :
  Z.of_nat (length v) < 2 ^ 32 ->
  PutLengthPrefixedSlice [] v ++ rest = EncodeVarint32 (Z.of_nat (length v)) ++ v ++ rest.
Proof.
  intros Hl. unfold PutLengthPrefixedSlice, PutVarint32. rewrite u32_id by lia. simpl. by rewrite <- app_assoc.
Qed.

Lemma GetLengthPrefixedSlice_put v rest :
  Z.of_nat (length v) < 2 ^ 32 ->
  GetLengthPrefixedSlice (PutLengthPrefixedSlice [] v ++ rest) = (Some v, rest).
Proof.
  intros Hl. rewrite length_prefixed_split by done. unfold GetLengthPrefixedSlice.
  rewrite GetVarint32_varint by lia. rewrite length_app.
  destruct (Z.leb_spec (Z.of_nat (length v)) (Z.of_nat (length v + length rest))); [|lia].
  by rewrite Nat2Z.id, take_app_length, drop_app_length.
Qed.

(** A string put behind its length is taken back
    whole, by both variants; from a string that was cut short nothing is
    returned, but the slice variant has consumed the length. *)
Theorem length_prefixed_roundtrip v cut rest :
  Z.of_nat (length (v ++ cut)) < 2 ^ 32 ->
  GetLengthPrefixedSlice (PutLengthPrefixedSlice [] v ++ rest) = (Some v, rest) /\
  GetLengthPrefixedSlice_ptr (PutLengthPrefixedSlice [] v ++ rest) = Some (v, rest) /\
  (cut <> [] ->
   GetLengthPrefixedSlice (EncodeVarint32 (Z.of_nat (length (v ++ cut))) ++ v) = (None, v) /\
   GetLengthPrefixedSlice_ptr (EncodeVarint32 (Z.of_nat (length (v ++ cut))) ++ v) = None).
Proof.
  intros Hl. rewrite length_app in Hl. split_and!.
  - apply GetLengthPrefixedSlice_put. lia.
  - rewrite length_prefixed_split by lia. unfold GetLengthPrefixedSlice_ptr. fold (GetVarint32 (EncodeVarint32 (Z.of_nat (length v)) ++ v ++ rest)).
    rewrite GetVarint32_varint by lia. rewrite length_app.
    destruct (Z.ltb_spec (Z.of_nat (length v + length rest)) (Z.of_nat (length v))); [lia|].
    by rewrite Nat2Z.id, take_app_length, drop_app_length.
  - intros Hcut. rewrite length_app. unfold GetLengthPrefixedSlice, GetLengthPrefixedSlice_ptr.
    destruct cut as [|c cut]; [done|]. cbn [length] in *.
    rewrite GetVarint32_varint by lia.
    fold (GetVarint32 (EncodeVarint32 (Z.of_nat (length v + S (length cut))) ++ v)).
    rewrite GetVarint32_varint by lia.
    destruct (Z.leb_spec (Z.of_nat (length v + S (length cut))) (Z.of_nat (length v))); [lia|].
    destruct (Z.ltb_spec (Z.of_nat (length v)) (Z.of_nat (length v + S (length cut)))); [done|lia].
Qed.

(** ** Arrays of fixed-width words *)

Definition fixed32s (ws : list Z) : list byte := concat (map (le_split 4) ws).

Lemma length_fixed32s ws : length (fixed32s ws) = (4 * length ws)%nat.
Proof.
  unfold fixed32s. induction ws as [|w ws IH]; [done|]. cbn [map concat length].
  rewrite length_app, length_le_split, IH. lia.
Qed.

Lemma fixed32s_app a b : fixed32s (a ++ b) = fixed32s a ++ fixed32s b.
Proof. unfold fixed32s. by rewrite map_app, concat_app. Qed.

Lemma DecodeFixed32_split le w rest : 0 <= w < 2 ^ 32 -> DecodeFixed32 le (le_split 4 w ++ rest) = Some w.
Proof.
  intros Hw. rewrite DecodeFixed32_spec by apply length_le_split.
  rewrite le_combine_split. f_equal. change (8 * Z.of_nat 4) with 32. by apply Z.mod_small.
Qed.

(** An element of an array at any position in a string. *)
Lemma DecodeFixed32_at le pre ws rest i w p :
  ws !! i = Some w -> 0 <= w < 2 ^ 32 -> p = (length pre + 4 * i)%nat ->
  DecodeFixed32 le (drop p (pre ++ fixed32s ws ++ rest)) = Some w.
Proof.
  intros E Hw ->. apply list_elem_of_split_length in E as (l1 & l2 & -> & ->).
  rewrite fixed32s_app, <- drop_drop, drop_app_length, <- app_assoc.
  rewrite <- length_fixed32s, drop_app_length. unfold fixed32s at 1. cbn [map concat].
  rewrite <- app_assoc. by apply DecodeFixed32_split.
Qed.

(** A read that stays inside the string is defined. *)
Lemma DecodeFixed32_inside le bs : (4 <= length bs)%nat -> exists w, DecodeFixed32 le bs = Some w /\ 0 <= w < 2 ^ 32.
Proof.
  intros Hl. rewrite <- (take_drop 4 bs). exists (le_combine (take 4 bs)).
  assert (length (take 4 bs) = 4%nat) as E by (rewrite length_take; lia).
  rewrite DecodeFixed32_spec by done. split; [done|]. pose proof (le_combine_bound (take 4 bs)) as Hb.
  rewrite E in Hb. exact Hb.
Qed.
