(* ===== verification/Comparator.v ===== *)
(** * Slices and comparators of LevelDB

    include/leveldb/slice.h, the interface of include/leveldb/comparator.h and
    the bytewise comparator of util/comparator.cc.  A [Slice] is the list of
    the bytes it refers to. *)
From S2P Require Import Prelude.

(** ** slice.h *)

(** [memcmp] of the C library: the difference of the first two bytes that
    differ among the first [n]. *)
Fixpoint memcmp (a b : list byte) (n : nat) : Z :=
  match n, a, b with
  | S n', x :: a', y :: b' =>
      if byte_val x =? byte_val y then memcmp a' b' n' else byte_val x - byte_val y
  | _, _, _ => 0
  end.

Definition slice_compare (a b : list byte) : Z :=
  let min_len := if (length a <? length b)%nat then length a else length b in
  let r := memcmp a b min_len in
  if r =? 0 then
    if (length a <? length b)%nat then -1
    else if (length b <? length a)%nat then 1
    else r
  else r.

Definition slice_eqb (x y : list byte) : bool :=
  (length x =? length y)%nat && (memcmp x y (length x) =? 0).

Definition starts_with (a x : list byte) : bool :=
  (length x <=? length a)%nat && (memcmp a x (length x) =? 0).

(** [assert(n <= size())] *)
Definition remove_prefix (a : list byte) (n : nat) : option (list byte) :=
  if (n <=? length a)%nat then Some (drop n a) else None.

(** ** The interface

    [None] is a failed assertion.  The methods that shorten a key in place
    return the new key. *)
Class Comparator := {
  Compare : list byte -> list byte -> option Z;
  FindShortestSeparator : list byte -> list byte -> option (list byte);
  FindShortSuccessor : list byte -> option (list byte);
}.

(** What comparator.h promises, on the keys the comparator is for: a total
    order, a separator in [start, limit), a successor that is not smaller.  The
    clients also rely on a separator that leaves [start] alone when it is not
    below [limit]. *)
Class ComparatorOk (c : Comparator) (valid : list byte -> Prop) := {
  compare_defined a b : valid a -> valid b -> is_Some (Compare a b);
  compare_refl a : valid a -> Compare a a = Some 0;
  compare_antisym a b x y : Compare a b = Some x -> Compare b a = Some y -> Z.sgn x = - Z.sgn y;
  compare_trans a b c x y z : valid a -> valid b -> valid c ->
    Compare a b = Some x -> Compare b c = Some y -> Compare a c = Some z -> x <= 0 -> y <= 0 -> z <= 0;
  separator_spec start limit x : valid start -> valid limit -> Compare start limit = Some x -> x < 0 ->
    exists s y z, FindShortestSeparator start limit = Some s /\ valid s /\
      Compare start s = Some y /\ y <= 0 /\ Compare s limit = Some z /\ z < 0 /\
      (length s <= length start)%nat;
  separator_id start limit x : valid start -> valid limit -> Compare start limit = Some x -> 0 <= x ->
    FindShortestSeparator start limit = Some start;
  successor_spec key : valid key ->
    exists s y, FindShortSuccessor key = Some s /\ valid s /\ Compare key s = Some y /\ y <= 0 /\
      (length s <= length key)%nat;
}.

(** ** util/comparator.cc *)

(** The loop that finds the first index where the strings differ, below the
    smaller length. *)
Fixpoint diff_index (start limit : list byte) : nat :=
  match start, limit with
  | x :: start', y :: limit' => if bool_decide (x = y) then S (diff_index start' limit') else O
  | _, _ => O
  end.

Definition bytewise_separator (start limit : list byte) : option (list byte) :=
  let min_length := Nat.min (length start) (length limit) in
  let i := diff_index start limit in
  if (min_length <=? i)%nat then Some start
  else
    match start !! i, limit !! i with
    | Some s, Some l =>
        if (byte_val s <? 0xff) && (byte_val s + 1 <? byte_val l)
        then
          let start := take (i + 1) (<[i := byte_of (byte_val s + 1)]> start) in
          if slice_compare start limit <? 0 then Some start else None
        else Some start
    | _, _ => Some start
    end.

Fixpoint bytewise_successor (key : list byte) : list byte :=
  match key with
  | [] => []
  | b :: key' => if negb (byte_val b =? 0xff) then [byte_of (byte_val b + 1)] else b :: bytewise_successor key'
  end.

#[export] Instance BytewiseComparator : Comparator := {
  Compare a b := Some (slice_compare a b);
  FindShortestSeparator := bytewise_separator;
  FindShortSuccessor key := Some (bytewise_successor key);
}.

(** ** The lexicographic order *)

Fixpoint lex (a b : list byte) : Z :=
  match a, b with
  | [], [] => 0
  | [], _ :: _ => -1
  | _ :: _, [] => 1
  | x :: a', y :: b' => if byte_val x =? byte_val y then lex a' b' else byte_val x - byte_val y
  end.

Lemma slice_eqb_refl a : slice_eqb a a = true.
Proof.
  unfold slice_eqb. rewrite Nat.eqb_refl. simpl. rewrite Z.eqb_eq. induction a as [|x a IH]; [done|]. simpl. by rewrite Z.eqb_refl.
Qed.

Lemma slice_compare_lex a b : slice_compare a b = lex a b.
Proof.
  unfold slice_compare. cbv zeta.
  assert (forall n, n = Nat.min (length a) (length b) ->
    (let r := memcmp a b n in
     if r =? 0 then if (length a <? length b)%nat then -1 else if (length b <? length a)%nat then 1 else r else r)
    = lex a b) as H.
  { intros n ->. revert b. induction a as [|x a IH]; intros [|y b]; [done..|].
    simpl. destruct (Z.eqb_spec (byte_val x) (byte_val y)) as [E|E]; [apply IH|].
    destruct (Z.eqb_spec (byte_val x - byte_val y) 0); [lia|done]. }
  apply H. destruct (Nat.ltb_spec (length a) (length b)); lia.
Qed.

Lemma byte_val_inj x y : byte_val x = byte_val y -> x = y.
Proof. apply byte.unsigned_inj. Qed.

Lemma lex_refl a : lex a a = 0.
Proof. induction a; simpl; [done|]. by rewrite Z.eqb_refl. Qed.

Lemma lex_eq a b : lex a b = 0 -> a = b.
Proof.
  revert b. induction a as [|x a IH]; intros [|y b]; simpl; try done.
  destruct (Z.eqb_spec (byte_val x) (byte_val y)) as [E%byte_val_inj|]; [|lia]. intros E'. by rewrite E, (IH b).
Qed.

Lemma lex_antisym a b : Z.sgn (lex a b) = - Z.sgn (lex b a).
Proof.
  revert b. induction a as [|x a IH]; intros [|y b]; simpl; try done.
  rewrite (Z.eqb_sym (byte_val y)). destruct (Z.eqb_spec (byte_val x) (byte_val y)); [apply IH|].
  rewrite <- Z.sgn_opp. f_equal. lia.
Qed.

Lemma lex_trans a b c : lex a b <= 0 -> lex b c <= 0 -> lex a c <= 0.
Proof.
  revert b c. induction a as [|x a IH]; intros [|y b] [|z c]; simpl; try lia.
  destruct (Z.eqb_spec (byte_val x) (byte_val y)), (Z.eqb_spec (byte_val y) (byte_val z)),
    (Z.eqb_spec (byte_val x) (byte_val z)); try lia. apply IH.
Qed.

(** Strings with a common prefix compare like what follows it. *)
Lemma lex_app p a b : lex (p ++ a) (p ++ b) = lex a b.
Proof. induction p; simpl; [done|]. by rewrite Z.eqb_refl. Qed.

(** ** The bytewise comparator keeps the promises *)

Lemma bytewise_separator_cons x start limit :
  bytewise_separator (x :: start) (x :: limit) = cons x <$> bytewise_separator start limit.
Proof.
  unfold bytewise_separator. simpl. rewrite bool_decide_true by done. simpl.
  destruct (_ <=? _)%nat; [done|].
  destruct (start !! _); [|done]. destruct (limit !! _); [|done].
  destruct (_ && _); [|done]. rewrite !slice_compare_lex. simpl. rewrite Z.eqb_refl. by destruct (_ <? 0).
Qed.

Lemma bytewise_separator_spec start limit :
  lex start limit < 0 ->
  exists s, bytewise_separator start limit = Some s /\ lex start s <= 0 /\ lex s limit < 0 /\ (length s <= length start)%nat.
Proof.
  revert limit. induction start as [|x start IH]; intros [|y limit] Hlt; simpl in Hlt; try lia.
  - by exists [].
  - destruct (Z.eqb_spec (byte_val x) (byte_val y)) as [E%byte_val_inj|Hne].
    + subst y. rewrite bytewise_separator_cons. destruct (IH limit Hlt) as (s & -> & ? & ? & ?).
      exists (x :: s). simpl. rewrite Z.eqb_refl. split_and!; [done..|lia].
    + unfold bytewise_separator. simpl. rewrite bool_decide_false by congruence. simpl.
      destruct (Z.ltb_spec (byte_val x) 255), (Z.ltb_spec (byte_val x + 1) (byte_val y)); simpl.
      2-4: exists (x :: start); simpl; rewrite Z.eqb_refl, lex_refl; destruct (Z.eqb_spec (byte_val x) (byte_val y)); split_and!; (done || lia).
      rewrite slice_compare_lex, take_0. exists [byte_of (byte_val x + 1)]. simpl. rewrite byte_val_of, Z.mod_small by (pose proof (byte_val_range x); lia).
      destruct (Z.eqb_spec (byte_val x + 1) (byte_val y)); [lia|]. destruct (Z.ltb_spec (byte_val x + 1 - byte_val y) 0); [|lia].
      destruct (Z.eqb_spec (byte_val x) (byte_val x + 1)); split_and!; (done || lia).
Qed.

Lemma bytewise_separator_id start limit : 0 <= lex start limit -> bytewise_separator start limit = Some start.
Proof.
  revert limit. induction start as [|x start IH]; intros [|y limit] Hge; simpl in Hge; try done.
  destruct (Z.eqb_spec (byte_val x) (byte_val y)) as [E%byte_val_inj|Hne].
  - subst y. by rewrite bytewise_separator_cons, IH.
  - unfold bytewise_separator. simpl. rewrite bool_decide_false by congruence. simpl.
    destruct (Z.ltb_spec (byte_val x + 1) (byte_val y)); [lia|]. by rewrite andb_false_r.
Qed.

Lemma bytewise_successor_spec key :
  lex key (bytewise_successor key) <= 0 /\ (length (bytewise_successor key) <= length key)%nat.
Proof.
  induction key as [|x key [IH1 IH2]]; simpl; [done|].
  destruct (Z.eqb_spec (byte_val x) 255) as [E|E]; simpl.
  - rewrite Z.eqb_refl. split; [done|lia].
  - rewrite byte_val_of, Z.mod_small by (pose proof (byte_val_range x); lia).
    destruct (Z.eqb_spec (byte_val x) (byte_val x + 1)); split; lia.
Qed.

#[export] Instance BytewiseComparator_ok : ComparatorOk BytewiseComparator (fun _ => True).
Proof.
  split; simpl; intros; simplify_eq; rewrite ?slice_compare_lex in *.
  - by eexists.
  - by rewrite lex_refl.
  - apply lex_antisym.
  - by eapply lex_trans.
  - destruct (bytewise_separator_spec start limit) as (s & -> & ? & ? & ?); [done|].
    eexists s, _, _. rewrite !slice_compare_lex. by split_and!.
  - by rewrite bytewise_separator_id.
  - destruct (bytewise_successor_spec key). eexists _, _. rewrite slice_compare_lex. by split_and!.
Qed.

(** ** The order of a lawful comparator

    The laws that need no more than a three-way comparison, for keys of any type. *)
Class KeyOrder {K : Type} (cmp : K -> K -> option Z) (valid : K -> Prop) := {
  order_defined a b : valid a -> valid b -> is_Some (cmp a b);
  order_refl a : valid a -> cmp a a = Some 0;
  order_antisym a b x y : cmp a b = Some x -> cmp b a = Some y -> Z.sgn x = - Z.sgn y;
  order_trans a b c x y z : valid a -> valid b -> valid c ->
    cmp a b = Some x -> cmp b c = Some y -> cmp a c = Some z -> x <= 0 -> y <= 0 -> z <= 0;
}.

#[export] Instance ComparatorOk_order c valid : ComparatorOk c valid -> KeyOrder (@Compare c) valid.
Proof.
  intros Hc. split.
  - exact compare_defined.
  - exact compare_refl.
  - exact compare_antisym.
  - exact compare_trans.
Qed.

Definition cmp_lt {K} (cmp : K -> K -> option Z) (a b : K) : Prop := exists x, cmp a b = Some x /\ x < 0.
Definition cmp_le {K} (cmp : K -> K -> option Z) (a b : K) : Prop := exists x, cmp a b = Some x /\ x <= 0.
Abbreviation key_lt c := (cmp_lt (@Compare c)).
Abbreviation key_le c := (cmp_le (@Compare c)).

Section Order.
Context {K : Type} {cmp : K -> K -> option Z} {valid : K -> Prop} {Hok : KeyOrder cmp valid}.

Lemma key_lt_le a b : cmp_lt cmp a b -> cmp_le cmp a b.
Proof. intros (x & E & ?). exists x. split; [done|lia]. Qed.

Lemma key_le_refl a : valid a -> cmp_le cmp a a.
Proof. intros Ha. exists 0. split; [by apply order_refl|done]. Qed.

Lemma key_lt_not_le a b : cmp_lt cmp a b -> ~ cmp_le cmp b a.
Proof. intros (x & E & Hx) (y & E' & Hy). pose proof (order_antisym _ _ _ _ E E'). lia. Qed.

Lemma key_le_trans a b d : valid a -> valid b -> valid d -> cmp_le cmp a b -> cmp_le cmp b d -> cmp_le cmp a d.
Proof.
  intros Ha Hb Hd (x & E & Hx) (y & E' & Hy). destruct (order_defined a d Ha Hd) as [z Ez].
  exists z. split; [done|]. by eapply (order_trans a b d).
Qed.

Lemma key_total a b : valid a -> valid b -> cmp_lt cmp a b \/ cmp_le cmp b a.
Proof.
  intros Ha Hb. destruct (order_defined a b Ha Hb) as [x E], (order_defined b a Hb Ha) as [y E'].
  pose proof (order_antisym _ _ _ _ E E'). destruct (Z.ltb_spec x 0).
  - left. by exists x.
  - right. exists y. split; [done|lia].
Qed.

Lemma key_lt_le_trans a b d : valid a -> valid b -> valid d -> cmp_lt cmp a b -> cmp_le cmp b d -> cmp_lt cmp a d.
Proof.
  intros Ha Hb Hd Hab Hbd. destruct (key_total a d Ha Hd) as [|Hda]; [done|].
  exfalso. apply (key_lt_not_le a b); [done|]. by apply (key_le_trans b d a).
Qed.

Lemma key_le_lt_trans a b d : valid a -> valid b -> valid d -> cmp_le cmp a b -> cmp_lt cmp b d -> cmp_lt cmp a d.
Proof.
  intros Ha Hb Hd Hab Hbd. destruct (key_total a d Ha Hd) as [|Hda]; [done|].
  exfalso. apply (key_lt_not_le b d); [done|]. by apply (key_le_trans d a b).
Qed.

Lemma key_lt_trans a b d : valid a -> valid b -> valid d -> cmp_lt cmp a b -> cmp_lt cmp b d -> cmp_lt cmp a d.
Proof. intros Ha Hb Hd Hab Hbd. apply (key_lt_le_trans a b d); try done. by apply key_lt_le. Qed.

Lemma key_lt_irrefl a : ~ cmp_lt cmp a a.
Proof. intros H. apply (key_lt_not_le a a); [done|by apply key_lt_le]. Qed.

(** The sign of a comparison decides. *)
Lemma cmp_sign a b x : cmp a b = Some x -> (x < 0 <-> cmp_lt cmp a b) /\ (x <= 0 <-> cmp_le cmp a b).
Proof.
  intros E. unfold cmp_lt, cmp_le. rewrite E. split; split.
  - intros. by exists x.
  - by intros (? & [= <-] & ?).
  - intros. by exists x.
  - by intros (? & [= <-] & ?).
Qed.
(** Keys that compare equal. *)
Lemma key_eq_sym a b : valid a -> valid b -> cmp a b = Some 0 -> cmp b a = Some 0.
Proof.
  intros Ha Hb E. destruct (order_defined b a Hb Ha) as [y Ey]. pose proof (order_antisym _ _ _ _ E Ey).
  rewrite Ey. f_equal. lia.
Qed.

Lemma key_squeeze a b k x :
  valid a -> valid b -> valid k -> cmp a k = Some x -> 0 <= x -> cmp_le cmp a b -> cmp b k = Some 0 -> cmp a k = Some 0.
Proof.
  intros Ha Hb Hk Ex Hx Hab Ebk. assert (cmp_le cmp a k) as (y & Ey & Hy).
  { apply (key_le_trans a b k); try done. by exists 0. }
  rewrite Ex in Ey. injection Ey as <-. rewrite Ex. f_equal. lia.
Qed.

Lemma key_eq_trans a b d : valid a -> valid b -> valid d -> cmp a b = Some 0 -> cmp b d = Some 0 -> cmp a d = Some 0.
Proof.
  intros Ha Hb Hd Eab Ebd. destruct (order_defined d a Hd Ha) as [y Ey].
  assert (cmp_le cmp d a) as (z & Ez & Hz).
  { apply (key_le_trans d b a); try done; exists 0; split; try done; by apply key_eq_sym. }
  rewrite Ey in Ez. injection Ez as <-. destruct (order_defined a d Ha Hd) as [x Ex].
  pose proof (order_antisym _ _ _ _ Ex Ey). apply (key_squeeze a b d x); try done; [lia|by exists 0].
Qed.
End Order.
