(* ===== verification/DbFormat.v ===== *)
(** * db/dbformat: internal keys of LevelDB

    An internal key is a user key followed by eight bytes that hold a sequence
    number and a value type.  [None] is a failed assertion or a read outside
    the key. *)
From S2P Require Import Prelude Varint Coding CodingProps Comparator.

Definition kTypeDeletion : Z := 0.
Definition kTypeValue : Z := 1.
Definition kValueTypeForSeek : Z := kTypeValue.
Definition kMaxSequenceNumber : Z := Z.shiftl 1 56 - 1.

Record ParsedInternalKey := Parsed {
  user_key : list byte;
  sequence : Z;   (* uint64_t *)
  vtype : Z;      (* the byte of the ValueType *)
}.

Definition InternalKeyEncodingLength (key : ParsedInternalKey) : Z := Z.of_nat (length (user_key key)) + 8.

Section DbFormat.
Context (kLittleEndian : bool).

Definition PackSequenceAndType (seq t : Z) : option Z :=
  if (seq <=? kMaxSequenceNumber) && (t <=? kValueTypeForSeek)
  then Some (Z.lor (u64 (Z.shiftl seq 8)) t) else None.

Definition AppendInternalKey (result : list byte) (key : ParsedInternalKey) : option (list byte) :=
  match PackSequenceAndType (sequence key) (vtype key) with
  | Some num => Some (PutFixed64 kLittleEndian (result ++ user_key key) num)
  | None => None
  end.

Definition ExtractUserKey (internal_key : list byte) : option (list byte) :=
  if (8 <=? length internal_key)%nat then Some (take (length internal_key - 8) internal_key) else None.

(** [DecodeFixed64(internal_key.data() + n - 8)] *)
Definition ExtractTag (internal_key : list byte) : option Z :=
  if (8 <=? length internal_key)%nat
  then DecodeFixed64 kLittleEndian (drop (length internal_key - 8) internal_key) else None.

Definition ExtractValueType (internal_key : list byte) : option Z :=
  match ExtractTag internal_key with
  | Some num => Some (Z.land num 0xff)
  | None => None
  end.

(** The returned bool and [*result], which is left alone for a short key. *)
Definition ParseInternalKey (internal_key : list byte) (result : ParsedInternalKey)
  : option (bool * ParsedInternalKey) :=
  let n := length internal_key in
  if (n <? 8)%nat then Some (false, result)
  else
    match ExtractTag internal_key with
    | Some num =>
        let c := Z.land num 0xff in
        Some (c <=? kTypeValue, Parsed (take (n - 8) internal_key) (Z.shiftr num 8) c)
    | None => None
    end.

(** ** InternalKeyComparator *)

Section InternalKeyComparator.
Context (user_comparator : Comparator).

Definition internal_compare (akey bkey : list byte) : option Z :=
  match ExtractUserKey akey, ExtractUserKey bkey with
  | Some ua, Some ub =>
      match @Compare user_comparator ua ub with
      | None => None
      | Some r =>
          if r =? 0 then
            match ExtractTag akey, ExtractTag bkey with
            | Some anum, Some bnum =>
                Some (if bnum <? anum then -1 else if anum <? bnum then 1 else r)
            | _, _ => None
            end
          else Some r
      end
  | _, _ => None
  end.

(** [assert(this->Compare(a, b) < 0)] *)
Definition assert_before (a b : list byte) : option unit :=
  match internal_compare a b with
  | Some r => if r <? 0 then Some tt else None
  | None => None
  end.

(** The shortened user key with the earliest possible number behind it, which
    the assertions compare with the old key and the limit of a separator; the
    old key when nothing was gained. *)
Definition tack_on (old user tmp : list byte) (limit : option (list byte)) : option (list byte) :=
  if (length tmp <? length user)%nat then
    match @Compare user_comparator user tmp with
    | None => None
    | Some r =>
        if r <? 0 then
          match PackSequenceAndType kMaxSequenceNumber kValueTypeForSeek with
          | Some num =>
              let tmp := PutFixed64 kLittleEndian tmp num in
              match assert_before old tmp, (match limit with Some limit => assert_before tmp limit | None => Some tt end) with
              | Some _, Some _ => Some tmp
              | _, _ => None
              end
          | None => None
          end
        else Some old
    end
  else Some old.

Definition internal_separator (start limit : list byte) : option (list byte) :=
  match ExtractUserKey start, ExtractUserKey limit with
  | Some user_start, Some user_limit =>
      match @FindShortestSeparator user_comparator user_start user_limit with
      | Some tmp => tack_on start user_start tmp (Some limit)
      | None => None
      end
  | _, _ => None
  end.

Definition internal_successor (key : list byte) : option (list byte) :=
  match ExtractUserKey key with
  | Some user =>
      match @FindShortSuccessor user_comparator user with
      | Some tmp => tack_on key user tmp None
      | None => None
      end
  | None => None
  end.

Definition InternalKeyComparator : Comparator := {|
  Compare := internal_compare;
  FindShortestSeparator := internal_separator;
  FindShortSuccessor := internal_successor;
|}.
End InternalKeyComparator.

(** ** LookupKey *)

(** The bytes from [start_] to [end_], the offset of [kstart_], and the size of
    the array they are in. *)
Record LookupKey_t := LookupKeyAt { lk_bytes : list byte; lk_kstart : nat; lk_capacity : Z }.

Definition LookupKey (user_key : list byte) (s : Z) : option LookupKey_t :=
  let usize := Z.of_nat (length user_key) in
  let needed := u64 (usize + 13) in
  let capacity := if needed <=? 200 then 200 else needed in
  match PackSequenceAndType s kValueTypeForSeek with
  | None => None
  | Some num =>
      let head := EncodeVarint32 (u32 (usize + 8)) in
      let bytes := head ++ user_key ++ EncodeFixed64 kLittleEndian num in
      if Z.of_nat (length bytes) <=? capacity
      then Some (LookupKeyAt bytes (length head) capacity) else None
  end.

Definition memtable_key (k : LookupKey_t) : list byte := lk_bytes k.
Definition internal_key (k : LookupKey_t) : list byte := drop (lk_kstart k) (lk_bytes k).
Definition lookup_user_key (k : LookupKey_t) : list byte :=
  take (length (lk_bytes k) - lk_kstart k - 8) (drop (lk_kstart k) (lk_bytes k)).
End DbFormat.
