(* ===== verification/DbFormatProps.v ===== *)
(** * db/dbformat: encoding and order of internal keys

    The internal comparator is proved against the interface of its user
    comparator and implements the same interface. *)
From S2P Require Import Prelude Varint Coding CodingProps Comparator DbFormat.

(** A user key with its eight bytes. *)
Definition internal (user : list byte) (num : Z) : list byte := user ++ le_split 8 num.

Lemma length_internal user num : length (internal user num) = (length user + 8)%nat.
Proof. unfold internal. by rewrite length_app, length_le_split. Qed.

Lemma le_combine_split64 v : 0 <= v < 2 ^ 64 -> le_combine (le_split 8 v) = v.
Proof. intros Hv. rewrite le_combine_split. by apply Z.mod_small. Qed.

Section Keys.
Context {le : bool}.

Lemma PutFixed64_internal user num : PutFixed64 le user num = internal user num.
Proof. unfold PutFixed64, internal. by rewrite EncodeFixed64_spec. Qed.

Lemma ExtractUserKey_internal user num : ExtractUserKey (internal user num) = Some user.
Proof.
  unfold ExtractUserKey. rewrite length_internal. destruct (Nat.leb_spec 8 (length user + 8)); [|lia].
  f_equal. replace (length user + 8 - 8)%nat with (length user) by lia. apply take_app_length.
Qed.

Lemma ExtractTag_internal user num : 0 <= num < 2 ^ 64 -> ExtractTag le (internal user num) = Some num.
Proof.
  intros Hn. unfold ExtractTag. rewrite length_internal. destruct (Nat.leb_spec 8 (length user + 8)); [|lia].
  replace (length user + 8 - 8)%nat with (length user) by lia. unfold internal.
  rewrite drop_app_length, <- (app_nil_r (le_split 8 num)), DecodeFixed64_spec by apply length_le_split.
  by rewrite le_combine_split64.
Qed.

(** Every key of at least eight bytes is of this form. *)
Lemma internal_inv k : (8 <= length k)%nat -> exists user num, k = internal user num /\ 0 <= num < 2 ^ 64.
Proof.
  intros Hk. exists (take (length k - 8) k), (le_combine (drop (length k - 8) k)).
  assert (length (drop (length k - 8) k) = 8%nat) as Hl by (rewrite length_drop; lia). split.
  - unfold internal. rewrite <- Hl at 2. rewrite split_le_combine. by rewrite take_drop.
  - pose proof (le_combine_bound (drop (length k - 8) k)) as Hb. by rewrite Hl in Hb.
Qed.

Definition packed (seq t : Z) : Z := seq * 256 + t.

Lemma PackSequenceAndType_packed seq t :
  0 <= seq <= kMaxSequenceNumber -> 0 <= t <= kValueTypeForSeek ->
  PackSequenceAndType seq t = Some (packed seq t) /\ 0 <= packed seq t < 2 ^ 64.
Proof.
  unfold kMaxSequenceNumber, kValueTypeForSeek, kTypeValue, packed. change (Z.shiftl 1 56) with (2 ^ 56).
  intros Hs Ht. unfold PackSequenceAndType, kMaxSequenceNumber, kValueTypeForSeek, kTypeValue.
  destruct (Z.leb_spec seq (Z.shiftl 1 56 - 1)); [|change (Z.shiftl 1 56) with (2 ^ 56) in *; lia].
  destruct (Z.leb_spec t 1); [|lia]. simpl. split; [|lia]. f_equal.
  rewrite u64_id by (rewrite Z.shiftl_mul_pow2 by lia; lia).
  rewrite Z.lor_comm, lor_disjoint_add by lia. lia.
Qed.

Lemma packed_parts seq t : 0 <= t < 256 -> Z.land (packed seq t) 0xff = t /\ Z.shiftr (packed seq t) 8 = seq.
Proof.
  intros Ht. unfold packed. change 0xff with (Z.ones 8).
  rewrite Z.land_ones, Z.shiftr_div_pow2 by lia. change (2 ^ 8) with 256.
  rewrite Z.add_comm, Z.mod_add, Z.div_add, Z.mod_small, Z.div_small by lia. lia.
Qed.

Definition key_ok (k : ParsedInternalKey) : Prop :=
  0 <= sequence k <= kMaxSequenceNumber /\ 0 <= vtype k <= kTypeValue.

(** What [AppendInternalKey] writes, [ParseInternalKey]
    reads back, and its length is the announced one; conversely every key that
    parses is the encoding of the result. *)
Theorem internal_key_roundtrip key result0 :
  (key_ok key -> exists k, AppendInternalKey le [] key = Some k /\
     Z.of_nat (length k) = InternalKeyEncodingLength key /\
     ParseInternalKey le k result0 = Some (true, key) /\
     ExtractUserKey k = Some (user_key key) /\ ExtractValueType le k = Some (vtype key)) /\
  (forall k p, ParseInternalKey le k result0 = Some (true, p) -> AppendInternalKey le [] p = Some k).
Proof.
  split.
  - destruct key as [u s t]. intros [Hs Ht]. simpl in *.
    destruct (PackSequenceAndType_packed s t Hs Ht) as [E Hr].
    unfold kTypeValue in Ht. destruct (packed_parts s t ltac:(lia)) as [E1 E2].
    exists (internal u (packed s t)). unfold AppendInternalKey. simpl. rewrite E, PutFixed64_internal.
    unfold ParseInternalKey, InternalKeyEncodingLength, ExtractValueType. rewrite !length_internal, ExtractUserKey_internal.
    rewrite ExtractTag_internal by done. rewrite E1, E2. simpl.
    destruct (Nat.ltb_spec (length u + 8) 8); [lia|]. destruct (Z.leb_spec t kTypeValue); [|unfold kTypeValue in *; lia].
    split_and!; [done|lia| |done|done]. do 3 f_equal. replace (length u + 8 - 8)%nat with (length u) by lia.
    apply take_app_length.
  - intros k p. unfold ParseInternalKey. destruct (Nat.ltb_spec (length k) 8); [done|].
    destruct (internal_inv k ltac:(lia)) as (u & num & -> & Hn). rewrite ExtractTag_internal, length_internal by done.
    intros [= Hc <-]. unfold AppendInternalKey. simpl.
    assert (num = packed (Z.shiftr num 8) (Z.land num 0xff)) as En.
    { unfold packed. change 0xff with (Z.ones 8). rewrite Z.land_ones, Z.shiftr_div_pow2 by lia.
      change (2 ^ 8) with 256. pose proof (Z.div_mod num 256). lia. }
    assert (0 <= Z.land num 0xff) by (apply Z.land_nonneg; lia).
    destruct (PackSequenceAndType_packed (Z.shiftr num 8) (Z.land num 0xff)) as [-> _].
    + rewrite Z.shiftr_div_pow2 by lia. unfold kMaxSequenceNumber. change (Z.shiftl 1 56) with (2 ^ 56).
      split; [apply Z.div_pos; lia|]. enough (num / 2 ^ 8 < 2 ^ 56) by lia. apply Z.div_lt_upper_bound; lia.
    + unfold kValueTypeForSeek. zify_bool. lia.
    + rewrite <- En, PutFixed64_internal. do 2 f_equal.
      replace (length u + 8 - 8)%nat with (length u) by lia. apply take_app_length.
Qed.
End Keys.

(** ** The internal comparator *)

Section Compare.
Context {le : bool} {user : Comparator} {valid : list byte -> Prop} {Hok : ComparatorOk user valid}.

Definition valid_internal (k : list byte) : Prop :=
  exists u num, k = internal u num /\ 0 <= num < 2 ^ 64 /\ valid u.

(** User keys in order, then sequence numbers and types in reverse order. *)
Lemma internal_compare_spec ua na ub nb x :
  0 <= na < 2 ^ 64 -> 0 <= nb < 2 ^ 64 -> Compare ua ub = Some x ->
  internal_compare le user (internal ua na) (internal ub nb) =
    Some (if x =? 0 then Z.sgn (nb - na) else x).
Proof.
  intros Ha Hb Hx. unfold internal_compare. rewrite !ExtractUserKey_internal, Hx, !ExtractTag_internal by done.
  destruct (x =? 0) eqn:Ex; [|done]. apply Z.eqb_eq in Ex. f_equal.
  destruct (Z.ltb_spec nb na); [lia|]. destruct (Z.ltb_spec na nb); lia.
Qed.

Lemma compare_zero_sym a b : valid a -> valid b -> Compare a b = Some 0 -> Compare b a = Some 0.
Proof.
  intros Ha Hb E. destruct (compare_defined b a Hb Ha) as [y Ey]. pose proof (compare_antisym _ _ _ _ E Ey).
  rewrite Ey. f_equal. lia.
Qed.

Lemma tack_on_old old u tmp limit : (length u <= length tmp)%nat -> tack_on le user old u tmp limit = Some old.
Proof. intros Hl. unfold tack_on. by destruct (Nat.ltb_spec (length tmp) (length u)); [lia|]. Qed.

Lemma max_tag : PackSequenceAndType kMaxSequenceNumber kValueTypeForSeek = Some (packed kMaxSequenceNumber 1).
Proof. vm_compute. reflexivity. Qed.

Lemma internal_refl u n : valid u -> 0 <= n < 2 ^ 64 ->
  internal_compare le user (internal u n) (internal u n) = Some 0.
Proof.
  intros Hu Hn. erewrite internal_compare_spec by (done || by apply compare_refl). simpl. f_equal. lia.
Qed.

Lemma internal_antisym a b x y :
  internal_compare le user a b = Some x -> internal_compare le user b a = Some y -> Z.sgn x = - Z.sgn y.
Proof.
  unfold internal_compare. intros Hx Hy. destruct (ExtractUserKey a) as [ua|]; [|done].
  destruct (ExtractUserKey b) as [ub|]; [|done].
  destruct (Compare ua ub) as [r|] eqn:Er; [|done]. destruct (Compare ub ua) as [r'|] eqn:Er'; [|done].
  pose proof (compare_antisym _ _ _ _ Er Er') as Hs.
  destruct (Z.eqb_spec r 0), (Z.eqb_spec r' 0); try lia; [|by simplify_eq].
  destruct (ExtractTag le a) as [na|]; [|done]. destruct (ExtractTag le b) as [nb|]; [|done]. simplify_eq.
  destruct (Z.ltb_spec nb na), (Z.ltb_spec na nb); simpl; lia.
Qed.

(** Equality of the outer keys also needs the order backwards. *)
Lemma internal_trans a b c x y z :
  valid_internal a -> valid_internal b -> valid_internal c ->
  internal_compare le user a b = Some x -> internal_compare le user b c = Some y ->
  internal_compare le user a c = Some z -> x <= 0 -> y <= 0 -> z <= 0.
Proof.
  intros (ua & na & -> & Hna & Ha) (ub & nb & -> & Hnb & Hb) (uc & nc & -> & Hnc & Hc).
  destruct (compare_defined ua ub Ha Hb) as [r Hr]. destruct (compare_defined ub uc Hb Hc) as [s Hs].
  destruct (compare_defined ua uc Ha Hc) as [t Ht].
  rewrite (internal_compare_spec _ _ _ _ _ Hna Hnb Hr), (internal_compare_spec _ _ _ _ _ Hnb Hnc Hs),
    (internal_compare_spec _ _ _ _ _ Hna Hnc Ht).
  intros [= <-] [= <-] [= <-] Hx Hy.
  pose proof (compare_trans ua ub uc _ _ _ Ha Hb Hc Hr Hs Ht) as Htr.
  destruct (compare_defined ub ua Hb Ha) as [r' Hr']. destruct (compare_defined uc ub Hc Hb) as [s' Hs'].
  destruct (compare_defined uc ua Hc Ha) as [t' Ht'].
  pose proof (compare_antisym _ _ _ _ Hr Hr'). pose proof (compare_antisym _ _ _ _ Hs Hs').
  pose proof (compare_antisym _ _ _ _ Ht Ht').
  pose proof (compare_trans ub uc ua _ _ _ Hb Hc Ha Hs Ht' Hr') as Htr2.
  pose proof (compare_trans uc ua ub _ _ _ Hc Ha Hb Ht' Hr Hs') as Htr3.
  destruct (Z.eqb_spec r 0), (Z.eqb_spec s 0), (Z.eqb_spec t 0); lia.
Qed.

(** What both ways of shortening the key of user key [u] come to; the assertions hold. *)
Lemma tack_on_spec u n tmp y limit :
  valid u -> 0 <= n < 2 ^ 64 -> valid tmp -> Compare u tmp = Some y -> y <= 0 ->
  (forall l, limit = Some l -> exists ul nl z, l = internal ul nl /\ 0 <= nl < 2 ^ 64 /\ Compare tmp ul = Some z /\ z < 0) ->
  exists s w, tack_on le user (internal u n) u tmp limit = Some s /\ valid_internal s /\
    internal_compare le user (internal u n) s = Some w /\ w <= 0 /\ (length s <= length (internal u n))%nat /\
    (s = internal u n \/ s = internal tmp (packed kMaxSequenceNumber 1)).
Proof.
  intros Hu Hn Hv Hy Hy0 Hlim. unfold tack_on, assert_before. rewrite Hy, max_tag, PutFixed64_internal.
  assert (exists s w, Some (internal u n) = Some s /\ valid_internal s /\ internal_compare le user (internal u n) s = Some w /\ w <= 0 /\
    (length s <= length (internal u n))%nat /\ (s = internal u n \/ s = internal tmp (packed kMaxSequenceNumber 1))) as Hold.
  { exists (internal u n), 0. split_and!; [done|by exists u, n|by apply internal_refl|done|done|by left]. }
  destruct (Nat.ltb_spec (length tmp) (length u)); [|done]. destruct (Z.ltb_spec y 0); [|done].
  assert (0 <= packed kMaxSequenceNumber 1 < 2 ^ 64) as Hm by (vm_compute; split; congruence).
  assert (internal_compare le user (internal u n) (internal tmp (packed kMaxSequenceNumber 1)) = Some y) as Ey.
  { erewrite internal_compare_spec by done. by destruct (Z.eqb_spec y 0); [lia|]. }
  rewrite Ey. destruct (Z.ltb_spec y 0); [|lia].
  exists (internal tmp (packed kMaxSequenceNumber 1)), y. split.
  - destruct limit as [l|]; [|done]. destruct (Hlim l eq_refl) as (ul & nl & z & -> & Hnl & Hz & Hz0).
    erewrite internal_compare_spec by done. destruct (Z.eqb_spec z 0); [lia|]. by destruct (Z.ltb_spec z 0); [|lia].
  - rewrite !length_internal. split_and!; [by eexists _, _|done|lia|lia|by right].
Qed.

Lemma internal_separator_ok start limit x :
  valid_internal start -> valid_internal limit -> internal_compare le user start limit = Some x -> x < 0 ->
  exists s y z, internal_separator le user start limit = Some s /\ valid_internal s /\
    internal_compare le user start s = Some y /\ y <= 0 /\ internal_compare le user s limit = Some z /\ z < 0 /\
    (length s <= length start)%nat.
Proof.
  intros (us & ns & -> & Hns & Hs) (ul & nl & -> & Hnl & Hl) Hx Hlt.
  destruct (compare_defined us ul Hs Hl) as [r Hr].
  pose proof (internal_compare_spec us ns ul nl r Hns Hnl Hr) as Ex. rewrite Hx in Ex. injection Ex as Ex.
  unfold internal_separator. rewrite !ExtractUserKey_internal.
  destruct (decide (r < 0)) as [Hr0|Hr0].
  - destruct (separator_spec us ul r Hs Hl Hr Hr0) as (tmp & y & z & -> & Hv & Hy & Hy0 & Hz & Hz0 & Hlen).
    destruct (tack_on_spec us ns tmp y (Some (internal ul nl)) Hs Hns Hv Hy Hy0) as (s & w & E & Hvs & Hw & Hw0 & Hls & Hcase); [intros l [= <-]; by exists ul, nl, z|].
    destruct Hcase as [E'|E']; subst s.
    + exists (internal us ns), w, x. by split_and!.
    + exists (internal tmp (packed kMaxSequenceNumber 1)), w, z. split_and!; try done.
      assert (0 <= packed kMaxSequenceNumber 1 < 2 ^ 64) by (vm_compute; split; congruence).
      erewrite internal_compare_spec by done. by destruct (Z.eqb_spec z 0); [lia|].
  - destruct (Z.eqb_spec r 0) as [Hr1|Hr1]; [|lia].
    rewrite (separator_id us ul r) by (done || lia). rewrite tack_on_old by lia.
    exists (internal us ns), 0, x. split_and!; [done|by exists us, ns|by apply internal_refl|done..].
Qed.

(** A separator that is not the old key has a user key of its own, in front of the limit's. *)
Lemma internal_separator_between start limit s x :
  valid_internal start -> valid_internal limit -> internal_compare le user start limit = Some x -> x < 0 ->
  internal_separator le user start limit = Some s ->
  s = start \/ exists tmp ul nl, s = internal tmp (packed kMaxSequenceNumber 1) /\ valid tmp /\ limit = internal ul nl /\
    0 <= nl < 2 ^ 64 /\ valid ul /\ key_lt user tmp ul.
Proof.
  intros (us & ns & -> & Hns & Hs) (ul & nl & -> & Hnl & Hl) Hx Hlt. destruct (compare_defined us ul Hs Hl) as [r Hr].
  pose proof (internal_compare_spec us ns ul nl r Hns Hnl Hr) as Ex. rewrite Hx in Ex. injection Ex as Ex.
  unfold internal_separator. rewrite !ExtractUserKey_internal. destruct (decide (r < 0)) as [Hr0|Hr0].
  - destruct (separator_spec us ul r Hs Hl Hr Hr0) as (tmp & y & z & -> & Hv & Hy & Hy0 & Hz & Hz0 & Hlen).
    destruct (tack_on_spec us ns tmp y (Some (internal ul nl)) Hs Hns Hv Hy Hy0) as (s' & w & E & _ & _ & _ & _ & Hcase); [intros l [= <-]; by exists ul, nl, z|]. rewrite E. intros [= <-].
    destruct Hcase as [-> | ->]; [by left|right]. exists tmp, ul, nl. split; [done|]. split; [done|]. split; [done|]. split; [done|]. split; [done|by exists z].
  - destruct (Z.eqb_spec r 0) as [Hr1|Hr1]; [|lia].
    rewrite (separator_id us ul r) by (done || lia). rewrite tack_on_old by lia. intros [= <-]. by left.
Qed.

(** The order of the keys is an order of the user keys first. *)
Lemma internal_le_user ua na ub nb : 0 <= na < 2 ^ 64 -> 0 <= nb < 2 ^ 64 -> valid ua -> valid ub ->
  cmp_le (internal_compare le user) (internal ua na) (internal ub nb) -> key_le user ua ub.
Proof.
  intros Hna Hnb Ha Hb (x & Ex & Hx). destruct (compare_defined ua ub Ha Hb) as [y Hy]. rewrite (internal_compare_spec ua na ub nb y) in Ex by done.
  injection Ex as Ex. exists y. split; [done|]. destruct (Z.eqb_spec y 0); lia.
Qed.

Lemma internal_separator_keeps start limit x :
  valid_internal start -> valid_internal limit -> internal_compare le user start limit = Some x -> 0 <= x ->
  internal_separator le user start limit = Some start.
Proof.
  intros (us & ns & -> & Hns & Hs) (ul & nl & -> & Hnl & Hl) Hx Hge.
  destruct (compare_defined us ul Hs Hl) as [r Hr].
  rewrite (internal_compare_spec us ns ul nl r Hns Hnl Hr) in Hx. injection Hx as Hx.
  unfold internal_separator. rewrite !ExtractUserKey_internal.
  rewrite (separator_id us ul r); [|done..|destruct (Z.eqb_spec r 0); lia]. by apply tack_on_old.
Qed.

#[export] Instance InternalKeyComparator_ok : ComparatorOk (InternalKeyComparator le user) valid_internal.
Proof.
  split; simpl.
  - intros a b (ua & na & -> & Hna & Ha) (ub & nb & -> & Hnb & Hb).
    destruct (compare_defined ua ub Ha Hb) as [x Hx]. erewrite internal_compare_spec by done. by eexists.
  - intros a (ua & na & -> & Hna & Ha). by apply internal_refl.
  - apply internal_antisym.
  - apply internal_trans.
  - apply internal_separator_ok.
  - apply internal_separator_keeps.
  - intros key (u & n & -> & Hn & Hv). unfold internal_successor. rewrite ExtractUserKey_internal.
    destruct (successor_spec u Hv) as (tmp & y & -> & Hv' & Hy & Hy0 & Hlen).
    destruct (tack_on_spec u n tmp y None Hv Hn Hv' Hy Hy0) as (s & w & E & Hvs & Hw & Hw0 & Hls & _); [done|].
    exists s, w. by split_and!.
Qed.

(** C28. Over any lawful user comparator the internal
    comparator is lawful too, its separators and successors included: they are
    always defined, so that the assertions in them hold.  User keys are in order,
    and for one user key the newer sequence number (and type) comes first. *)
Theorem internal_key_order :
  ComparatorOk (InternalKeyComparator le user) valid_internal /\
  forall ua na ub nb x, 0 <= na < 2 ^ 64 -> 0 <= nb < 2 ^ 64 -> Compare ua ub = Some x ->
    internal_compare le user (internal ua na) (internal ub nb) = Some (if x =? 0 then Z.sgn (nb - na) else x).
Proof. split; [apply _|intros; by apply internal_compare_spec]. Qed.
End Compare.

(** ** Lookup keys *)

Lemma LookupKey_spec le u s :
  Z.of_nat (length u) + 8 < 2 ^ 32 -> 0 <= s <= kMaxSequenceNumber ->
  exists k, LookupKey le u s = Some k /\
    lk_bytes k = EncodeVarint32 (Z.of_nat (length u) + 8) ++ internal u (packed s kValueTypeForSeek) /\
    internal_key k = internal u (packed s kValueTypeForSeek) /\
    lookup_user_key k = u /\ Z.of_nat (length (lk_bytes k)) <= lk_capacity k.
Proof.
  intros Hl Hs. unfold LookupKey. cbv zeta.
  destruct (PackSequenceAndType_packed s kValueTypeForSeek Hs ltac:(split; [done|lia])) as [-> Hp].
  rewrite u32_id, u64_id, EncodeFixed64_spec by lia.
  set (head := EncodeVarint32 _). fold (internal u (packed s kValueTypeForSeek)).
  assert ((length head <= 5)%nat) as Hh.
  { unfold head. rewrite EncodeVarint32_varint by lia. apply varint_length_32. lia. }
  pose proof (length_internal u (packed s kValueTypeForSeek)) as Hi.
  destruct (Z.leb_spec (Z.of_nat (length (head ++ internal u (packed s kValueTypeForSeek))))
    (if Z.of_nat (length u) + 13 <=? 200 then 200 else Z.of_nat (length u) + 13)) as [Hc|Hc].
  2: { rewrite length_app, Hi in Hc. destruct (Z.leb_spec (Z.of_nat (length u) + 13) 200); lia. }
  eexists. split; [done|]. unfold internal_key, lookup_user_key. simpl.
  rewrite drop_app_length, length_app, Hi. split_and!; [done|done| |by rewrite length_app, Hi in Hc].
  replace (length head + (length u + 8) - length head - 8)%nat with (length u) by lia.
  unfold internal. apply take_app_length.
Qed.

(** A [LookupKey] fits the array it is built in, and its
    three views are what the tables expect: the key of the memtable is the
    length-prefixed internal key for seeking, which is behind the length, and the
    user key is in front of its last eight bytes. *)
Theorem lookup_key_parts le u s :
  Z.of_nat (length u) + 8 < 2 ^ 32 -> 0 <= s <= kMaxSequenceNumber ->
  exists k, LookupKey le u s = Some k /\
    AppendInternalKey le [] (Parsed u s kValueTypeForSeek) = Some (internal_key k) /\
    GetLengthPrefixedSlice (memtable_key k) = (Some (internal_key k), []) /\
    lookup_user_key k = u /\ Z.of_nat (length (lk_bytes k)) <= lk_capacity k.
Proof.
  intros Hl Hs. destruct (LookupKey_spec le u s Hl Hs) as (k & E & Eb & Ei & Eu & Ec). exists k.
  split_and!; [done| | |done|done]; rewrite Ei.
  - unfold AppendInternalKey. simpl. destruct (PackSequenceAndType_packed s kValueTypeForSeek Hs ltac:(split; [done|lia])) as [-> _].
    by rewrite PutFixed64_internal.
  - unfold memtable_key, GetLengthPrefixedSlice. rewrite Eb, GetVarint32_varint by lia. rewrite length_internal.
    destruct (Z.leb_spec (Z.of_nat (length u) + 8) (Z.of_nat (length u + 8))); [|lia].
    rewrite take_ge, drop_ge by (rewrite length_internal; lia). done.
Qed.
