(* ===== verification/FilterBlock.v ===== *)
(** * Filters of LevelDB: util/hash.cc, util/bloom.cc, table/filter_block.cc

    The builder and the reader are written against the interface of
    [FilterPolicy].  Positions in a string are of type [nat] ([size_t]); the
    entries of [filter_offsets_] are 32-bit numbers.  [None] is a failed
    assertion, a shift by the width of the word or more, or a read outside the
    block. *)
From S2P Require Import Prelude Varint Coding CodingProps Comparator DbFormat.

(** ** Filters of LevelDB: the hash function and the Bloom filter

    util/hash.cc, util/bloom.cc, the interface of include/leveldb/filter_policy.h
    and the wrapper for internal keys of db/dbformat. *)

(** ** util/hash.cc *)

Section Hash.
Context (kLittleEndian : bool).

Definition hash_m : Z := 0xc6a4a793.
Definition hash_r : Z := 24.

(** The loop over groups of four bytes; the rest of the data comes back with
    the hash. *)
Fixpoint hash_loop (data : list byte) (h : Z) : Z * list byte :=
  match data with
  | b0 :: b1 :: b2 :: b3 :: data' =>
      let w := default 0 (DecodeFixed32 kLittleEndian data) in
      let h := u32 (h + w) in
      let h := u32 (h * hash_m) in
      hash_loop data' (Z.lxor h (Z.shiftr h 16))
  | _ => (h, data)
  end.

(** The [switch] with its fall-through. *)
Definition hash_tail (data : list byte) (h : Z) : Z :=
  let finish h b0 :=
    let h := u32 (u32 (h + byte_val b0) * hash_m) in Z.lxor h (Z.shiftr h hash_r) in
  match data with
  | [b0; b1; b2] =>
      let h := u32 (h + Z.shiftl (byte_val b2) 16) in
      let h := u32 (h + Z.shiftl (byte_val b1) 8) in
      finish h b0
  | [b0; b1] => finish (u32 (h + Z.shiftl (byte_val b1) 8)) b0
  | [b0] => finish h b0
  | _ => h
  end.

Definition Hash (data : list byte) (seed : Z) : Z :=
  let n := Z.of_nat (length data) in
  let h := u32 (Z.lxor seed (u64 (n * hash_m))) in
  let '(h, rest) := hash_loop data h in
  hash_tail rest h.

(** ** util/bloom.cc *)

Definition BloomHash (key : list byte) : Z := Hash key 0xbc9f1d34.

(** [static_cast<size_t>(bits_per_key * 0.69)] for a number of bits that is not
    negative: the product is never within rounding distance of an integer it
    does not reach, except where the result is clamped. *)
Definition bloom_k (bits_per_key : Z) : Z :=
  let k := bits_per_key * 69 / 100 in
  let k := if k <? 1 then 1 else k in
  if 30 <? k then 30 else k.

Definition rotate (h : Z) : Z := Z.lor (Z.shiftr h 17) (u32 (Z.shiftl h 15)).

(** The bit positions probed for a key. *)
Fixpoint probes (k : nat) (h delta bits : Z) : list Z :=
  match k with
  | O => []
  | S k' => u32 (h mod bits) :: probes k' (u32 (h + delta)) delta bits
  end.

(** [array[bitpos/8] |= (1 << (bitpos % 8))]; [None] outside the array. *)
Definition set_bit (array : list byte) (bitpos : Z) : option (list byte) :=
  match array !! Z.to_nat (bitpos / 8) with
  | Some b => Some (<[Z.to_nat (bitpos / 8) := byte_of (Z.lor (byte_val b) (Z.shiftl 1 (bitpos mod 8)))]> array)
  | None => None
  end.

Fixpoint set_bits (array : list byte) (l : list Z) : option (list byte) :=
  match l with
  | [] => Some array
  | p :: l' => match set_bit array p with Some a => set_bits a l' | None => None end
  end.

Definition test_bit (array : list byte) (bitpos : Z) : option bool :=
  match array !! Z.to_nat (bitpos / 8) with
  | Some b => Some (negb (Z.land (byte_val b) (Z.shiftl 1 (bitpos mod 8)) =? 0))
  | None => None
  end.

(** The loop of [KeyMayMatch], left at the first bit that is not set. *)
Fixpoint test_bits (array : list byte) (l : list Z) : option bool :=
  match l with
  | [] => Some true
  | p :: l' =>
      match test_bit array p with
      | None => None
      | Some true => test_bits array l'
      | Some false => Some false
      end
  end.

Definition key_probes (k bits : Z) (key : list byte) : list Z :=
  let h := BloomHash key in probes (Z.to_nat k) h (rotate h) bits.

Fixpoint add_keys (array : list byte) (k bits : Z) (keys : list (list byte)) : option (list byte) :=
  match keys with
  | [] => Some array
  | key :: keys' =>
      match set_bits array (key_probes k bits key) with
      | Some a => add_keys a k bits keys'
      | None => None
      end
  end.

Definition bloom_CreateFilter (bits_per_key : Z) (keys : list (list byte)) (dst : list byte)
  : option (list byte) :=
  let k := bloom_k bits_per_key in
  let bits := u64 (Z.of_nat (length keys) * bits_per_key) in
  let bits := if bits <? 64 then 64 else bits in
  let bytes := u64 (bits + 7) / 8 in
  let bits := u64 (bytes * 8) in
  match add_keys (replicate (Z.to_nat bytes) (byte_of 0) ++ [byte_of k]) k bits keys with
  | Some array => Some (dst ++ array)
  | None => None
  end.

(** [k] is read through a signed [char]. *)
Definition bloom_KeyMayMatch (key bloom_filter : list byte) : option bool :=
  let len := length bloom_filter in
  if (len <? 2)%nat then Some false
  else
    let bits := u64 ((Z.of_nat len - 1) * 8) in
    match bloom_filter !! (len - 1)%nat with
    | None => None
    | Some b =>
        let k := u64 (s8 (byte_val b)) in
        if 30 <? k then Some true else test_bits bloom_filter (key_probes k bits key)
    end.
End Hash.

(** ** The interface *)

Class FilterPolicy := {
  CreateFilter : list (list byte) -> list byte -> option (list byte);
  KeyMayMatch : list byte -> list byte -> option bool;
}.

(** What filter_policy.h promises: a filter is appended to [dst], whatever is
    there, and matches every key it was made from.  [limit] bounds the number of
    keys. *)
Class FilterPolicyOk (p : FilterPolicy) (valid : list byte -> Prop) (limit : Z) := {
  filter_complete keys dst : Forall valid keys -> Z.of_nat (length keys) <= limit ->
    exists f, CreateFilter keys dst = Some (dst ++ f) /\
      forall key, In key keys -> KeyMayMatch key f = Some true;
}.

Definition BloomFilterPolicy (kLittleEndian : bool) (bits_per_key : Z) : FilterPolicy := {|
  CreateFilter := bloom_CreateFilter kLittleEndian bits_per_key;
  KeyMayMatch := bloom_KeyMayMatch kLittleEndian;
|}.

(** ** db/dbformat: InternalFilterPolicy *)

Fixpoint extract_user_keys (keys : list (list byte)) : option (list (list byte)) :=
  match keys with
  | [] => Some []
  | key :: keys' =>
      match ExtractUserKey key, extract_user_keys keys' with
      | Some u, Some l => Some (u :: l)
      | _, _ => None
      end
  end.

Definition InternalFilterPolicy (user_policy : FilterPolicy) : FilterPolicy := {|
  CreateFilter keys dst :=
    match extract_user_keys keys with
    | Some mkey => @CreateFilter user_policy mkey dst
    | None => None
    end;
  KeyMayMatch key f :=
    match ExtractUserKey key with
    | Some u => @KeyMayMatch user_policy u f
    | None => None
    end;
|}.

Definition kFilterBaseLg : Z := 11.
Definition kFilterBase : Z := Z.shiftl 1 kFilterBaseLg.

Section FilterBlock.
Context (kLittleEndian : bool) (policy_ : FilterPolicy).

(** ** FilterBlockBuilder *)

Record FilterBlockBuilder := FbBuilder {
  keys_ : list byte;
  start_ : list nat;
  result_ : list byte;
  filter_offsets_ : list Z;
}.

Definition new_FilterBlockBuilder : FilterBlockBuilder := FbBuilder [] [] [] [].

(** [tmp_keys_]: the slices between consecutive elements of [start]. *)
Fixpoint tmp_keys (keys : list byte) (start : list nat) : list (list byte) :=
  match start with
  | base :: ((next :: _) as start') => take (next - base) (drop base keys) :: tmp_keys keys start'
  | _ => []
  end.

Definition GenerateFilter (b : FilterBlockBuilder) : option FilterBlockBuilder :=
  let num_keys := length (start_ b) in
  let offsets := filter_offsets_ b ++ [u32 (Z.of_nat (length (result_ b)))] in
  if (num_keys =? 0)%nat then Some (FbBuilder (keys_ b) (start_ b) (result_ b) offsets)
  else
    let start := start_ b ++ [length (keys_ b)] in
    match @CreateFilter policy_ (tmp_keys (keys_ b) start) (result_ b) with
    | Some result => Some (FbBuilder [] [] result offsets)
    | None => None
    end.

(** [while (filter_index > filter_offsets_.size())] *)
Fixpoint StartBlock_loop (fuel : nat) (filter_index : Z) (b : FilterBlockBuilder) : option FilterBlockBuilder :=
  if Z.of_nat (length (filter_offsets_ b)) <? filter_index then
    match fuel with
    | O => None
    | S fuel' =>
        match GenerateFilter b with
        | Some b => StartBlock_loop fuel' filter_index b
        | None => None
        end
    end
  else Some b.

Definition StartBlock (block_offset : Z) (b : FilterBlockBuilder) : option FilterBlockBuilder :=
  let filter_index := block_offset / kFilterBase in
  if Z.of_nat (length (filter_offsets_ b)) <=? filter_index
  then StartBlock_loop (Z.to_nat filter_index) filter_index b else None.

Definition FilterAddKey (key : list byte) (b : FilterBlockBuilder) : FilterBlockBuilder :=
  FbBuilder (keys_ b ++ key) (start_ b ++ [length (keys_ b)]) (result_ b) (filter_offsets_ b).

Fixpoint put_offsets (dst : list byte) (offsets : list Z) : list byte :=
  match offsets with
  | [] => dst
  | o :: offsets' => put_offsets (PutFixed32 kLittleEndian dst o) offsets'
  end.

Definition FilterFinish (b : FilterBlockBuilder) : option (list byte) :=
  match (if (length (start_ b) =? 0)%nat then Some b else GenerateFilter b) with
  | None => None
  | Some b =>
      let array_offset := u32 (Z.of_nat (length (result_ b))) in
      let result := put_offsets (result_ b) (filter_offsets_ b) in
      Some (PutFixed32 kLittleEndian result array_offset ++ [byte_of kFilterBaseLg])
  end.

(** ** FilterBlockReader *)

Record FilterBlockReader := FbReader {
  data_ : list byte;    (* the contents, empty for NULL *)
  offset_ : Z;          (* offset_ - data_ *)
  num_ : Z;
  base_lg_ : Z;         (* size_t, read through a signed char *)
}.

Definition new_FilterBlockReader (contents : list byte) : option FilterBlockReader :=
  let n := Z.of_nat (length contents) in
  if n <? 5 then Some (FbReader [] 0 0 0)
  else
    match contents !! (length contents - 1)%nat, DecodeFixed32 kLittleEndian (drop (length contents - 5) contents) with
    | Some c, Some last_word =>
        let base_lg := u64 (s8 (byte_val c)) in
        if n - 5 <? last_word then Some (FbReader [] 0 0 base_lg)
        else Some (FbReader contents last_word ((n - 5 - last_word) / 4) base_lg)
    | _, _ => None
    end.

Definition FilterKeyMayMatch (r : FilterBlockReader) (block_offset : Z) (key : list byte) : option bool :=
  if 64 <=? base_lg_ r then None
  else
    let index := Z.shiftr block_offset (base_lg_ r) in
    if index <? num_ r then
      match DecodeFixed32 kLittleEndian (drop (Z.to_nat (offset_ r + index * 4)) (data_ r)),
            DecodeFixed32 kLittleEndian (drop (Z.to_nat (offset_ r + index * 4 + 4)) (data_ r)) with
      | Some start, Some limit =>
          if (start <=? limit) && (limit <=? offset_ r)
          then @KeyMayMatch policy_ key (take (Z.to_nat (limit - start)) (drop (Z.to_nat start) (data_ r)))
          else if start =? limit then Some false
          else Some true
      | _, _ => None
      end
    else Some true.
End FilterBlock.
