(* ===== verification/FilterBlockProps.v ===== *)
(** * Filter blocks answer for every key that was added *)
From Stdlib Require Import Sorted.
From S2P Require Import Prelude Varint Coding CodingProps Comparator DbFormat DbFormatProps FilterBlock.

(** ** Filters never miss a key *)

(** ** Bits of an array *)

Definition bit_set (array : list byte) (p : Z) : Prop := test_bit array p = Some true.

Lemma land_pow2 b i : 0 <= i -> negb (Z.land b (Z.shiftl 1 i) =? 0) = Z.testbit b i.
Proof.
  intros Hi. rewrite Z.shiftl_1_l.
  destruct (Z.eqb_spec (Z.land b (2 ^ i)) 0) as [E|E]; simpl.
  - symmetry. assert (Z.testbit (Z.land b (2 ^ i)) i = false) as H by (rewrite E; apply Z.bits_0).
    rewrite Z.land_spec, Z.pow2_bits_true, andb_true_r in H by done. done.
  - destruct (Z.testbit b i) eqn:Eb; [done|]. exfalso. apply E. apply Z.bits_inj'. intros j Hj.
    rewrite Z.land_spec, Z.bits_0. destruct (decide (i = j)) as [->|].
    + by rewrite Eb.
    + by rewrite Z.pow2_bits_false, andb_false_r by done.
Qed.

Lemma byte_val_lor_bit b i : 0 <= i < 8 ->
  byte_val (byte_of (Z.lor (byte_val b) (Z.shiftl 1 i))) = Z.lor (byte_val b) (2 ^ i).
Proof.
  intros Hi. rewrite byte_val_of, Z.shiftl_1_l. change 256 with (2 ^ 8). rewrite <- Z.land_ones by lia.
  apply Z.bits_inj'. intros j Hj. rewrite Z.land_spec, Z.lor_spec, Z.testbit_ones by lia.
  destruct (Z.ltb_spec j 8).
  - destruct (Z.leb_spec 0 j); [|lia]. by rewrite andb_true_r.
  - rewrite andb_false_r. rewrite (Z_testbit_high (byte_val b) j 8) by (pose proof (byte_val_range b); lia).
    by rewrite Z.pow2_bits_false by lia.
Qed.

(** Setting a bit sets it and keeps the others. *)
Lemma set_bit_spec array p : 0 <= p -> p / 8 < Z.of_nat (length array) ->
  exists a, set_bit array p = Some a /\ length a = length array /\ bit_set a p /\
    (forall q, 0 <= q -> bit_set array q -> bit_set a q) /\
    (forall i, (i <> Z.to_nat (p / 8))%nat -> a !! i = array !! i).
Proof.
  intros Hp Hl. unfold set_bit.
  assert (0 <= p / 8) as Hd by (apply Z.div_pos; lia).
  destruct (lookup_lt_is_Some_2 array (Z.to_nat (p / 8))) as [b Eb]; [lia|]. rewrite Eb.
  pose proof (Z.mod_pos_bound p 8 ltac:(lia)) as Hm.
  eexists. split; [done|]. rewrite length_insert. split; [done|].
  assert (Z.to_nat (p / 8) < length array)%nat as Hlt by lia.
  split_and!.
  - unfold bit_set, test_bit. rewrite list_lookup_insert_eq by done.
    rewrite land_pow2, byte_val_lor_bit by lia. by rewrite Z.lor_spec, Z.pow2_bits_true, orb_true_r by lia.
  - intros q Hq. unfold bit_set, test_bit.
    destruct (decide (Z.to_nat (p / 8) = Z.to_nat (q / 8))) as [E|E].
    + rewrite <- E, Eb, list_lookup_insert_eq by done. pose proof (Z.mod_pos_bound q 8 ltac:(lia)).
      rewrite !land_pow2, byte_val_lor_bit by lia. intros [= Hb]. by rewrite Z.lor_spec, Hb.
    + by rewrite list_lookup_insert_ne by done.
  - intros i Hi. apply list_lookup_insert_ne. done.
Qed.

Lemma set_bits_spec array l :
  Forall (fun p => 0 <= p /\ p / 8 < Z.of_nat (length array) - 1) l ->
  exists a, set_bits array l = Some a /\ length a = length array /\ Forall (bit_set a) l /\
    (forall q, 0 <= q -> bit_set array q -> bit_set a q) /\
    a !! (length array - 1)%nat = array !! (length array - 1)%nat.
Proof.
  revert array. induction l as [|p l IH]; intros array Hl; [by exists array|].
  inversion Hl as [|? ? [Hp Hp'] Hl']; subst.
  destruct (set_bit_spec array p Hp ltac:(lia)) as (a1 & E1 & L1 & S1 & K1 & N1).
  destruct (IH a1) as (a & E & L & S & K & N); [by rewrite L1|].
  exists a. simpl. rewrite E1, E, L, L1. split_and!; try done.
  - constructor; [apply K; [done|exact S1]|exact S].
  - intros q Hq Hb. apply K; [done|]. by apply K1.
  - rewrite L1 in N. rewrite N. apply N1. assert (0 <= p / 8) by (apply Z.div_pos; lia). lia.
Qed.

Lemma test_bits_true array l : Forall (bit_set array) l -> test_bits array l = Some true.
Proof. induction 1 as [|p l Hp Hl IH]; simpl; [done|]. by rewrite Hp. Qed.

(** ** The Bloom filter *)

Section Bloom.
Context (le : bool).

Lemma probes_range k h delta bits p :
  0 < bits -> In p (probes k h delta bits) -> 0 <= p < bits.
Proof.
  intros Hb. revert h. induction k as [|k IH]; intros h; simpl; [done|].
  intros [<-|Hin]; [|by eapply IH]. pose proof (Z.mod_pos_bound h bits Hb). unfold u32.
  split; [by apply Z.mod_pos_bound|]. apply Z.le_lt_trans with (h mod bits); [apply Z.mod_le; lia|lia].
Qed.

Lemma add_keys_spec array k bytes keys :
  length array = S (Z.to_nat bytes) -> 0 < bytes ->
  exists a, add_keys le array k (bytes * 8) keys = Some a /\ length a = length array /\
    (forall key, In key keys -> Forall (bit_set a) (key_probes le k (bytes * 8) key)) /\
    (forall q, 0 <= q -> bit_set array q -> bit_set a q) /\
    a !! (length array - 1)%nat = array !! (length array - 1)%nat.
Proof.
  intros Hl Hb. revert array Hl. induction keys as [|key keys IH]; intros array Hl; [by exists array|].
  assert (forall p, In p (key_probes le k (bytes * 8) key) -> 0 <= p < bytes * 8) as Hr.
  { intros p. apply probes_range. lia. }
  destruct (set_bits_spec array (key_probes le k (bytes * 8) key)) as (a1 & E1 & L1 & S1 & K1 & N1).
  { apply List.Forall_forall. intros p Hp%Hr. split; [lia|]. rewrite Hl.
    enough (p / 8 < bytes) by lia. apply Z.div_lt_upper_bound; lia. }
  destruct (IH a1) as (a & E & L & S & K & N); [by rewrite L1|].
  exists a. simpl. rewrite E1, E, L, L1. split_and!; try done.
  - intros key' [<-|Hin]; [|by apply S]. apply List.Forall_forall. intros p Hp.
    apply K; [by apply Hr|]. rewrite List.Forall_forall in S1. by apply S1.
  - intros q Hq Hs. apply K; [done|]. by apply K1.
  - rewrite L1 in N. by rewrite N.
Qed.

Lemma bloom_k_range b : 1 <= bloom_k b <= 30.
Proof. unfold bloom_k. destruct (Z.ltb_spec (b * 69 / 100) 1); [done|]. destruct (Z.ltb_spec 30 (b * 69 / 100)); lia. Qed.

(** A filter of any contents can be asked. *)
Lemma bloom_KeyMayMatch_total key f : Z.of_nat (length f) < 2 ^ 32 -> is_Some (bloom_KeyMayMatch le key f).
Proof.
  intros Hf. unfold bloom_KeyMayMatch. cbv zeta. destruct (Nat.ltb_spec (length f) 2); [done|].
  destruct (lookup_lt_is_Some_2 f (length f - 1)) as [b ->]; [lia|]. destruct (30 <? _); [done|].
  rewrite (u64_id ((Z.of_nat (length f) - 1) * 8)) by lia. set (k := u64 (s8 (byte_val b))).
  assert (forall p, In p (key_probes le k ((Z.of_nat (length f) - 1) * 8) key) ->
    0 <= p < (Z.of_nat (length f) - 1) * 8) as Hp by (intros p; apply probes_range; lia).
  induction (key_probes le k _ key) as [|p l IH]; [done|]. cbn [test_bits]. unfold test_bit.
  destruct (Hp p (or_introl eq_refl)) as [Hp0 Hp1].
  destruct (lookup_lt_is_Some_2 f (Z.to_nat (p / 8))) as [x ->].
  { assert (p / 8 < Z.of_nat (length f) - 1) by (apply Z.div_lt_upper_bound; lia). pose proof (Z.div_pos p 8). lia. }
  destruct (negb _); [|done]. apply IH. intros q Hq. apply Hp. by right.
Qed.

(** [int n] and [int bits_per_key] of the interface. *)
#[export] Instance BloomFilterPolicy_ok bits_per_key :
  0 <= bits_per_key < 2 ^ 31 ->
  FilterPolicyOk (BloomFilterPolicy le bits_per_key) (fun _ => True) (2 ^ 31 - 1).
Proof.
  intros Hbits. split. intros keys dst _ Hn. simpl. unfold bloom_CreateFilter. cbv zeta.
  set (k := bloom_k bits_per_key).
  set (bits := if u64 (Z.of_nat (length keys) * bits_per_key) <? 64 then 64
               else u64 (Z.of_nat (length keys) * bits_per_key)).
  assert (64 <= bits < 2 ^ 62) as Hr.
  { unfold bits. rewrite u64_id by nia.
    destruct (Z.ltb_spec (Z.of_nat (length keys) * bits_per_key) 64); [lia|]. nia. }
  rewrite (u64_id (bits + 7)) by lia. set (bytes := (bits + 7) / 8).
  assert (8 <= bytes < 2 ^ 60) as Hby.
  { unfold bytes. split; [apply Z.div_le_lower_bound; lia|apply Z.div_lt_upper_bound; lia]. }
  rewrite u64_id by lia. pose proof (bloom_k_range bits_per_key) as Hk. fold k in Hk.
  destruct (add_keys_spec (replicate (Z.to_nat bytes) (byte_of 0) ++ [byte_of k]) k bytes keys)
    as (a & -> & L & S & _ & N); [rewrite length_app, length_replicate; simpl; lia|lia|].
  rewrite length_app, length_replicate in L, N. simpl in L, N.
  exists a. split; [done|]. intros key Hin. unfold bloom_KeyMayMatch. cbv zeta. rewrite L.
  destruct (Nat.ltb_spec (Z.to_nat bytes + 1) 2); [lia|]. rewrite N.
  rewrite lookup_app_r by (rewrite length_replicate; lia). rewrite length_replicate.
  replace (Z.to_nat bytes + 1 - 1 - Z.to_nat bytes)%nat with 0%nat by lia. simpl.
  rewrite byte_val_of, (Z.mod_small k 256) by lia.
  unfold s8. rewrite sint_id by lia. rewrite (u64_id k) by lia.
  destruct (Z.ltb_spec 30 k); [lia|].
  rewrite u64_id by lia. replace ((Z.of_nat (Z.to_nat bytes + 1) - 1) * 8) with (bytes * 8) by lia.
  apply test_bits_true, S, Hin.
Qed.
End Bloom.

(** ** Internal keys *)

Lemma extract_user_keys_spec keys :
  Forall (fun k => (8 <= length k)%nat) keys ->
  exists us, extract_user_keys keys = Some us /\ length us = length keys /\
    forall k, In k keys -> exists u, ExtractUserKey k = Some u /\ In u us.
Proof.
  induction 1 as [|k keys Hk Hks IH]; [by exists []|].
  destruct IH as (us & E & L & Hin). destruct (internal_inv k Hk) as (u & num & -> & _).
  exists (u :: us). simpl. rewrite E, ExtractUserKey_internal, L. split_and!; [done|done|].
  intros k' [<-|Hk']; [exists u; rewrite ExtractUserKey_internal; auto|].
  destruct (Hin k' Hk') as (u' & ? & ?). eauto.
Qed.

#[export] Instance InternalFilterPolicy_ok p limit :
  FilterPolicyOk p (fun _ => True) limit ->
  FilterPolicyOk (InternalFilterPolicy p) (fun k => (8 <= length k)%nat) limit.
Proof.
  intros Hp. split. intros keys dst Hv Hl. simpl.
  destruct (extract_user_keys_spec keys Hv) as (us & -> & L & Hin).
  destruct (filter_complete us dst) as (f & -> & Hf); [by apply List.Forall_forall|lia|].
  exists f. split; [done|]. intros k Hk. destruct (Hin k Hk) as (u & -> & Hu). auto.
Qed.

(** C37. A Bloom filter made for up to 2^31 - 1 keys with
    any number of bits per key matches each of them, user keys and internal keys
    alike, and is appended to what the destination held; no bit outside the
    filter is touched. *)
Theorem bloom_no_false_negatives le bits_per_key :
  0 <= bits_per_key < 2 ^ 31 ->
  FilterPolicyOk (BloomFilterPolicy le bits_per_key) (fun _ => True) (2 ^ 31 - 1) /\
  FilterPolicyOk (InternalFilterPolicy (BloomFilterPolicy le bits_per_key))
    (fun k => (8 <= length k)%nat) (2 ^ 31 - 1).
Proof. intros Hb. split; [|apply InternalFilterPolicy_ok]; by apply BloomFilterPolicy_ok. Qed.

(** ** Starting positions of consecutive strings *)

Fixpoint starts (k : nat) (l : list (list byte)) : list nat :=
  match l with
  | [] => []
  | x :: l' => k :: starts (k + length x) l'
  end.

Lemma length_starts k l : length (starts k l) = length l.
Proof. revert k. induction l; intros; simpl; auto. Qed.

Lemma starts_app k l1 l2 : starts k (l1 ++ l2) = starts k l1 ++ starts (k + length (concat l1)) l2.
Proof.
  revert k. induction l1 as [|x l1 IH]; intros k; simpl; [by rewrite Nat.add_0_r|].
  rewrite IH, length_app. by rewrite Nat.add_assoc.
Qed.

Lemma starts_bound k l s : In s (starts k l) -> (s <= k + length (concat l))%nat.
Proof.
  revert k. induction l as [|x l IH]; intros k; simpl; [done|]. rewrite length_app.
  intros [<-|Hin%IH]; lia.
Qed.

(** The positions with the end behind them. *)
Definition bounds (l : list (list byte)) : list nat := starts 0 l ++ [length (concat l)].

Lemma bounds_lookup l i x :
  l !! i = Some x ->
  exists s, bounds l !! i = Some s /\ bounds l !! S i = Some (s + length x)%nat /\
    (s + length x <= length (concat l))%nat /\
    forall rest, take (length x) (drop s (concat l ++ rest)) = x.
Proof.
  intros E. apply list_elem_of_split_length in E as (l1 & l2 & -> & ->). exists (length (concat l1)).
  unfold bounds. rewrite starts_app, concat_app. simpl. rewrite !length_app.
  rewrite <- (length_starts 0 l1). rewrite <- !app_assoc. split_and!.
  - by rewrite lookup_app_r, Nat.sub_diag by lia.
  - rewrite lookup_app_r, Nat.sub_succ_l, Nat.sub_diag by lia. simpl.
    destruct l2 as [|y l2]; simpl; [do 2 f_equal; lia|done].
  - lia.
  - intros rest. rewrite <- !app_assoc, drop_app_length. apply take_app_length.
Qed.

Lemma tmp_keys_bounds pre l : tmp_keys (pre ++ concat l) (starts (length pre) l ++ [length (pre ++ concat l)]) = l.
Proof.
  revert pre. induction l as [|x l IH]; intros pre; [done|]. simpl.
  specialize (IH (pre ++ x)). rewrite <- app_assoc, length_app in IH.
  destruct (starts (length pre + length x) l ++ [length (pre ++ x ++ concat l)]) as [|next rest] eqn:E.
  { by destruct (starts (length pre + length x) l). }
  rewrite IH. f_equal. rewrite drop_app_length.
  assert (next = length pre + length x)%nat as ->.
  { destruct l; simpl in E; injection E as <- _; rewrite ?length_app; simpl; lia. }
  replace (length pre + length x - length pre)%nat with (length x) by lia. apply take_app_length.
Qed.

(** ** The builder *)

Section Filter.
Context {le : bool} {policy : FilterPolicy} {valid : list byte -> Prop} {limit : Z}.
Context {Hok : FilterPolicyOk policy valid limit}.

Definition word_of (n : nat) : Z := u32 (Z.of_nat n).

(** Each finished filter with the keys it is for, and the keys since. *)
Record fb_inv (b : FilterBlockBuilder) (done : list (list (list byte) * list byte)) (pending : list (list byte)) := {
  fi_keys : keys_ b = concat pending;
  fi_start : start_ b = starts 0 pending;
  fi_result : result_ b = concat (map snd done);
  fi_offsets : filter_offsets_ b = map word_of (starts 0 (map snd done));
  fi_match : Forall (fun g => forall key, In key g.1 -> KeyMayMatch key g.2 = Some true) done;
  fi_valid : Forall valid pending;
}.

Lemma fb_inv_length b done pending : fb_inv b done pending -> length (filter_offsets_ b) = length done.
Proof. intros []. by rewrite fi_offsets0, length_map, length_starts, length_map. Qed.

Lemma fb_inv_new : fb_inv new_FilterBlockBuilder [] [].
Proof. by split. Qed.

Lemma FilterAddKey_inv b done pending key :
  fb_inv b done pending -> valid key -> fb_inv (FilterAddKey key b) done (pending ++ [key]).
Proof.
  intros [] Hv. unfold FilterAddKey. split; simpl; [| |done|done|done|].
  - by rewrite fi_keys0, concat_app; simpl; rewrite app_nil_r.
  - rewrite starts_app, fi_start0, fi_keys0. done.
  - apply Forall_app. by split; [|constructor].
Qed.

Lemma GenerateFilter_inv b done pending :
  fb_inv b done pending -> Z.of_nat (length pending) <= limit ->
  exists b' f, GenerateFilter policy b = Some b' /\ fb_inv b' (done ++ [(pending, f)]) [].
Proof.
  intros Hi Hl. destruct Hi as [Hk Hs Hr Ho Hm Hv].
  assert (forall f, concat (map snd (done ++ [(pending, f)])) = result_ b ++ f /\
    map word_of (starts 0 (map snd (done ++ [(pending, f)]))) =
      filter_offsets_ b ++ [u32 (Z.of_nat (length (result_ b)))]) as Hsnoc.
  { intros f. rewrite map_app, concat_app, starts_app, map_app, Hr, Ho. simpl. by rewrite app_nil_r. }
  unfold GenerateFilter. rewrite Hs, length_starts. destruct pending as [|key pending].
  - destruct (Hsnoc []) as [E1 E2]. eexists _, []. split; [done|]. simpl in Hk.
    split; cbn [keys_ start_ result_ filter_offsets_]; rewrite ?E1, ?E2, ?app_nil_r; try done.
    apply Forall_app. split; [done|]. repeat constructor. simpl. done.
  - destruct (filter_complete (key :: pending) (result_ b)) as (f & E & Hf); [done|done|].
    simpl Nat.eqb. cbv iota. rewrite Hk. pose proof (tmp_keys_bounds [] (key :: pending)) as Ht.
    change (length (@nil byte)) with 0%nat in Ht. rewrite app_nil_l in Ht.
    rewrite Ht, E. destruct (Hsnoc f) as [E1 E2]. eexists _, f. split; [done|].
    split; cbn [keys_ start_ result_ filter_offsets_]; rewrite ?E1, ?E2; try done.
    apply Forall_app. split; [done|]. by constructor.
Qed.

(** The groups of keys, by filter index: [StartBlock] leaves the old ones alone
    and goes on to the group of its offset. *)
Definition groups (done : list (list (list byte) * list byte)) pending := map fst done ++ [pending].

Lemma StartBlock_loop_inv fuel idx b done pending :
  fb_inv b done pending -> Z.of_nat (length pending) <= limit -> 0 <= limit ->
  Z.of_nat (length done) <= idx -> idx <= Z.of_nat (length done) + Z.of_nat fuel ->
  exists b' done' pending', StartBlock_loop policy fuel idx b = Some b' /\ fb_inv b' done' pending' /\
    Z.of_nat (length done') = idx /\ groups done pending `prefix_of` groups done' pending' /\
    (length pending' <= length pending)%nat.
Proof.
  revert b done pending. induction fuel as [|fuel IH]; intros b done pending Hi Hp Hl Hlo Hhi; simpl;
    rewrite (fb_inv_length _ _ _ Hi); destruct (Z.ltb_spec (Z.of_nat (length done)) idx); try lia.
  1, 3: exists b, done, pending; split_and!; [done|done|lia|done|lia].
  destruct (GenerateFilter_inv b done pending Hi Hp) as (b1 & f & -> & Hi1).
  destruct (IH b1 (done ++ [(pending, f)]) [] Hi1) as (b' & done' & pending' & E & Hi' & Hd & Hg & Hp'); simpl;
    rewrite ?length_app; simpl; try lia.
  exists b', done', pending'. split_and!; [done|done|done| |simpl in Hp'; lia].
  etransitivity; [|done]. unfold groups. rewrite map_app. by apply prefix_app_r.
Qed.

Lemma kFilterBase_value : kFilterBase = 2048.
Proof. done. Qed.

Lemma StartBlock_inv off b done pending :
  fb_inv b done pending -> Z.of_nat (length pending) <= limit -> 0 <= limit ->
  Z.of_nat (length done) <= off / kFilterBase ->
  exists b' done' pending', StartBlock policy off b = Some b' /\ fb_inv b' done' pending' /\
    Z.of_nat (length done') = off / kFilterBase /\ groups done pending `prefix_of` groups done' pending' /\
    (length pending' <= length pending)%nat.
Proof.
  intros Hi Hp Hl Hd. unfold StartBlock. cbv zeta. rewrite (fb_inv_length _ _ _ Hi).
  destruct (Z.leb_spec (Z.of_nat (length done)) (off / kFilterBase)); [|lia].
  apply StartBlock_loop_inv; (done || lia).
Qed.

(** The calls for one data block, and for a table. *)
Definition add_block (blk : Z * list (list byte)) (b : FilterBlockBuilder) : option FilterBlockBuilder :=
  match StartBlock policy blk.1 b with
  | Some b => Some (fold_left (fun b key => FilterAddKey key b) blk.2 b)
  | None => None
  end.

Fixpoint add_blocks (blks : list (Z * list (list byte))) (b : FilterBlockBuilder) : option FilterBlockBuilder :=
  match blks with
  | [] => Some b
  | blk :: blks' => match add_block blk b with Some b => add_blocks blks' b | None => None end
  end.

Lemma FilterAddKeys_inv keys b done pending :
  fb_inv b done pending -> Forall valid keys ->
  fb_inv (fold_left (fun b key => FilterAddKey key b) keys b) done (pending ++ keys).
Proof.
  revert b pending. induction keys as [|key keys IH]; intros b pending Hi Hv; simpl; [by rewrite app_nil_r|].
  inversion Hv; subst. replace (pending ++ key :: keys) with ((pending ++ [key]) ++ keys) by by rewrite <- app_assoc.
  apply IH; [by apply FilterAddKey_inv|done].
Qed.

Definition covered done pending (i : Z) (key : list byte) : Prop :=
  exists ks, groups done pending !! Z.to_nat i = Some ks /\ In key ks.

Definition total_keys (blks : list (Z * list (list byte))) : nat := length (concat (map snd blks)).

Lemma covered_prefix done pending done' pending' i key :
  groups done pending `prefix_of` groups done' pending' -> covered done pending i key -> covered done' pending' i key.
Proof. intros Hp (ks & E & Hin). exists ks. split; [|done]. by eapply prefix_lookup_Some. Qed.

Lemma covered_more done pending keys i key :
  covered done pending i key -> covered done (pending ++ keys) i key.
Proof.
  intros (ks & E & Hin). unfold covered, groups in *. rewrite lookup_app in *.
  destruct (map fst done !! Z.to_nat i); [by exists ks|].
  destruct (Z.to_nat i - length (map fst done))%nat; [|done]. simpl in *. injection E as <-.
  exists (pending ++ keys). split; [done|]. apply List.in_app_iff. auto.
Qed.

Lemma add_blocks_inv blks b done pending :
  fb_inv b done pending -> Forall (fun blk => Forall valid blk.2) blks ->
  Z.of_nat (length pending + total_keys blks) <= limit ->
  StronglySorted (fun x y => x.1 <= y.1) blks ->
  Forall (fun blk => Z.of_nat (length done) <= blk.1 / kFilterBase) blks ->
  exists b' done' pending', add_blocks blks b = Some b' /\ fb_inv b' done' pending' /\
    Z.of_nat (length pending') <= limit /\
    (forall i key, covered done pending i key -> covered done' pending' i key) /\
    (forall off keys key, In (off, keys) blks -> In key keys -> covered done' pending' (off / kFilterBase) key).
Proof.
  revert b done pending. induction blks as [|[off keys] blks IH]; intros b done pending Hi Hv Hl Hs Hd.
  { exists b, done, pending. unfold total_keys in Hl. simpl in *. split_and!; try done; lia. }
  inversion Hv; inversion Hs as [|? ? Hs' Hle]; inversion Hd; subst. simpl in *.
  unfold total_keys in Hl. simpl in Hl. rewrite length_app in Hl. fold (total_keys blks) in Hl.
  destruct (StartBlock_inv off b done pending) as (b1 & d1 & p1 & E1 & Hi1 & Hd1 & Hg1 & Hp1); [done|lia..|].
  unfold add_block. simpl. rewrite E1.
  destruct (IH (fold_left (fun b key => FilterAddKey key b) keys b1) d1 (p1 ++ keys))
    as (b' & d' & p' & E' & Hi' & Hp' & Hk' & Hc').
  - by apply FilterAddKeys_inv.
  - done.
  - rewrite length_app. lia.
  - done.
  - eapply Forall_impl; [exact Hle|]. intros blk Hb. simpl in Hb. rewrite Hd1. rewrite kFilterBase_value.
    apply Z.div_le_mono; lia.
  - exists b', d', p'. split_and!; [done|done|done| |].
    + intros i key Hc. apply Hk', covered_more. by eapply covered_prefix.
    + intros off' keys' key [[= <- <-]|Hin] Hkey; [|by eapply Hc'].
      apply Hk'. exists (p1 ++ keys). split; [|apply List.in_app_iff; auto].
      unfold groups. rewrite lookup_app_r by (rewrite length_map; lia). rewrite length_map.
      by replace (Z.to_nat (off / kFilterBase) - length d1)%nat with 0%nat by lia.
Qed.

(** ** The finished block *)

Lemma put_offsets_spec dst ws : put_offsets le dst ws = dst ++ fixed32s ws.
Proof.
  revert dst. induction ws as [|w ws IH]; intros dst; simpl; [by rewrite app_nil_r|].
  rewrite IH. unfold PutFixed32. by rewrite EncodeFixed32_spec, <- app_assoc.
Qed.

Definition filter_block (filters : list (list byte)) : list byte :=
  concat filters ++ fixed32s (map word_of (bounds filters)) ++ [byte_of kFilterBaseLg].

Lemma FilterFinish_inv b done pending :
  fb_inv b done pending -> Z.of_nat (length pending) <= limit ->
  exists done', FilterFinish le policy b = Some (filter_block (map snd done')) /\
    Forall (fun g => forall key, In key g.1 -> KeyMayMatch key g.2 = Some true) done' /\
    forall i key, covered done pending i key -> exists g, done' !! Z.to_nat i = Some g /\ In key g.1.
Proof.
  intros Hi Hp.
  assert (forall b' done', fb_inv b' done' [] ->
    Some (PutFixed32 le (put_offsets le (result_ b') (filter_offsets_ b')) (word_of (length (result_ b'))) ++ [byte_of kFilterBaseLg])
      = Some (filter_block (map snd done'))) as Hfin.
  { intros b' done' [_ _ Hr Ho _ _]. rewrite put_offsets_spec, Hr, Ho. unfold PutFixed32, filter_block, bounds.
    rewrite EncodeFixed32_spec, map_app, fixed32s_app, <- !app_assoc. do 3 f_equal. }
  assert (forall done0 pending0 i key, covered done0 pending0 i key ->
    (exists g, done0 !! Z.to_nat i = Some g /\ In key g.1) \/
    (In key pending0 /\ Z.to_nat i = length done0)) as Hcov.
  { intros d0 p0 i key (ks & E & Hin). unfold groups in E. apply lookup_app_Some in E as [E|[Hle E]].
    - left. rewrite list_lookup_fmap in E. destruct (d0 !! Z.to_nat i) as [g|]; [|done].
      exists g. split; [done|]. by injection E as ->.
    - right. rewrite length_map in *. destruct (Z.to_nat i - length d0)%nat eqn:En; [|done]. 
      injection E as ->. split; [done|lia]. }
  unfold FilterFinish. pose proof (fi_start _ _ _ Hi) as Hs. rewrite Hs, length_starts.
  destruct pending as [|p pending].
  - exists done. cbv iota. simpl Nat.eqb. cbv iota zeta. fold (word_of (length (result_ b))). rewrite (Hfin b done Hi). split_and!; [done|apply Hi|].
    intros i key [?|[[] _]]%Hcov. done.
  - simpl Nat.eqb. cbv iota. destruct (GenerateFilter_inv b done (p :: pending) Hi Hp) as (b' & f & -> & Hi').
    exists (done ++ [(p :: pending, f)]). cbv iota zeta. fold (word_of (length (result_ b'))). rewrite (Hfin b' _ Hi'). split_and!; [done|apply Hi'|].
    intros i key [(g & E & Hin)|[Hin E]]%Hcov.
    + exists g. split; [|done]. by apply lookup_app_l_Some.
    + exists (p :: pending, f). split; [|done]. by rewrite E, lookup_app_r, Nat.sub_diag.
Qed.

(** ** The reader *)

Lemma word_of_id n : Z.of_nat n < 2 ^ 32 -> word_of n = Z.of_nat n.
Proof. intros. apply u32_id. lia. Qed.

Lemma length_bounds filters : length (bounds filters) = S (length filters).
Proof. unfold bounds. rewrite length_app, length_starts. simpl. lia. Qed.

Lemma length_filter_block filters :
  length (filter_block filters) = (length (concat filters) + 4 * length filters + 5)%nat.
Proof. unfold filter_block. rewrite !length_app, length_fixed32s, length_map, length_bounds. simpl. lia. Qed.

Lemma new_FilterBlockReader_block filters :
  Z.of_nat (length (filter_block filters)) < 2 ^ 32 ->
  new_FilterBlockReader le (filter_block filters) =
    Some (FbReader (filter_block filters) (Z.of_nat (length (concat filters))) (Z.of_nat (length filters)) kFilterBaseLg).
Proof.
  intros Hl. rewrite length_filter_block in Hl. unfold new_FilterBlockReader. cbv zeta.
  rewrite length_filter_block. set (R := length (concat filters)) in *. set (N := length filters) in *.
  destruct (Z.ltb_spec (Z.of_nat (R + 4 * N + 5)) 5); [lia|].
  assert (filter_block filters !! (R + 4 * N + 5 - 1)%nat = Some (byte_of kFilterBaseLg)) as ->.
  { unfold filter_block. rewrite app_assoc. apply list_lookup_middle.
    rewrite length_app, length_fixed32s, length_map, length_bounds. fold R N. lia. }
  unfold filter_block at 1. rewrite (DecodeFixed32_at le _ _ _ N (Z.of_nat R)); [|..].
  - destruct (Z.ltb_spec (Z.of_nat (R + 4 * N + 5) - 5) (Z.of_nat R)); [lia|]. 
    assert ((Z.of_nat (R + 4 * N + 5) - 5 - Z.of_nat R) / 4 = Z.of_nat N) as ->; [|done].
    replace (Z.of_nat (R + 4 * N + 5) - 5 - Z.of_nat R) with (Z.of_nat N * 4) by lia. by apply Z.div_mul.
  - rewrite list_lookup_fmap. unfold bounds. rewrite lookup_app_r by (rewrite length_starts; done).
    rewrite length_starts. fold N R. rewrite Nat.sub_diag. simpl. f_equal. rewrite word_of_id; lia.
  - lia.
  - fold R. lia.
Qed.

Lemma FilterKeyMayMatch_block filters i f off key :
  Z.of_nat (length (filter_block filters)) < 2 ^ 32 -> 0 <= off ->
  filters !! i = Some f -> off / kFilterBase = Z.of_nat i ->
  FilterKeyMayMatch le policy (FbReader (filter_block filters) (Z.of_nat (length (concat filters)))
    (Z.of_nat (length filters)) kFilterBaseLg) off key = KeyMayMatch key f.
Proof.
  intros Hl Hoff Ef Ei. rewrite length_filter_block in Hl.
  destruct (bounds_lookup filters i f Ef) as (s & E1 & E2 & Hle & Ht).
  unfold FilterKeyMayMatch. simpl base_lg_. simpl num_. simpl offset_. simpl data_.
  change (64 <=? kFilterBaseLg) with false. cbv iota zeta.
  assert (Z.shiftr off kFilterBaseLg = Z.of_nat i) as ->.
  { rewrite Z.shiftr_div_pow2 by done. exact Ei. }
  pose proof (lookup_lt_Some _ _ _ Ef) as Hi.
  destruct (Z.ltb_spec (Z.of_nat i) (Z.of_nat (length filters))); [|lia].
  assert (forall j p b, bounds filters !! j = Some b -> (b <= length (concat filters))%nat ->
    p = (length (concat filters) + 4 * j)%nat ->
    DecodeFixed32 le (drop p (filter_block filters)) = Some (Z.of_nat b)) as Hd.
  { intros j p b Eb Hb Ep. unfold filter_block. apply (DecodeFixed32_at _ _ _ _ j); [|lia|done].
    rewrite list_lookup_fmap, Eb. simpl. by rewrite word_of_id by lia. }
  rewrite (Hd i _ s E1), (Hd (S i) _ _ E2) by lia.
  destruct (Z.leb_spec (Z.of_nat s) (Z.of_nat (s + length f))); [|lia].
  destruct (Z.leb_spec (Z.of_nat (s + length f)) (Z.of_nat (length (concat filters)))); [|lia]. simpl.
  replace (Z.to_nat (Z.of_nat (s + length f) - Z.of_nat s)) with (length f) by lia.
  rewrite Nat2Z.id. unfold filter_block. by rewrite Ht.
Qed.

(** C20. Over any lawful policy: building a filter block
    from the keys of a table, data block by data block with increasing offsets,
    succeeds, with one filter for each 2 KB of offsets that the calls have
    passed, and the reader on the finished block says that a key may match at
    the offset of every data block it was added for. *)
Theorem filter_block_complete blks :
  Forall (fun blk => 0 <= blk.1 /\ Forall valid blk.2) blks ->
  StronglySorted (fun x y => x.1 <= y.1) blks ->
  Z.of_nat (total_keys blks) <= limit ->
  exists b contents, add_blocks blks new_FilterBlockBuilder = Some b /\
    FilterFinish le policy b = Some contents /\
    (Z.of_nat (length contents) < 2 ^ 32 ->
     exists r, new_FilterBlockReader le contents = Some r /\
       forall off keys key, In (off, keys) blks -> In key keys ->
         FilterKeyMayMatch le policy r off key = Some true).
Proof.
  intros Hv Hs Hl.
  destruct (add_blocks_inv blks new_FilterBlockBuilder [] []) as (b & d & p & E & Hi & Hp & _ & Hc).
  - apply fb_inv_new.
  - eapply Forall_impl; [exact Hv|]. by intros ? [].
  - done.
  - done.
  - eapply Forall_impl; [exact Hv|]. intros blk [Hb _]. simpl. apply Z.div_pos; [lia|done].
  - destruct (FilterFinish_inv b d p Hi Hp) as (done' & Ef & Hm & Hg).
    exists b, (filter_block (map snd done')). split_and!; [done|done|]. intros Hlen.
    eexists. split; [by apply new_FilterBlockReader_block|]. intros off keys key Hin Hkey.
    destruct (Hg _ _ (Hc off keys key Hin Hkey)) as (g & Eg & Hkg).
    assert (0 <= off) as Hoff by (rewrite List.Forall_forall in Hv; apply (Hv (off, keys) Hin)).
    pose proof (Z.div_pos off kFilterBase Hoff ltac:(done)) as Hq.
    rewrite (FilterKeyMayMatch_block _ (Z.to_nat (off / kFilterBase)) g.2); [|done|done| |lia].
    + rewrite Forall_lookup in Hm. by eapply Hm.
    + by rewrite list_lookup_fmap, Eg.
Qed.
End Filter.

(** On arbitrary contents the reader never reads outside
    them: unless the last byte asks for a shift by 64 bits or more, or the policy
    fails, there is an answer, and blocks that are too short or that announce an
    impossible array match everything. *)
Theorem filter_reader_safe le (policy : FilterPolicy) contents :
  exists r, new_FilterBlockReader le contents = Some r /\
    (0 <= num_ r) /\
    (base_lg_ r < 64 -> forall off key, 0 <= off -> (forall f, Z.of_nat (length f) < 2 ^ 32 -> is_Some (@KeyMayMatch policy key f)) ->
      Z.of_nat (length contents) < 2 ^ 32 -> is_Some (FilterKeyMayMatch le policy r off key)) /\
    ((length contents < 5)%nat -> forall off key, 0 <= off -> FilterKeyMayMatch le policy r off key = Some true).
Proof.
  unfold new_FilterBlockReader. cbv zeta.
  destruct (Z.ltb_spec (Z.of_nat (length contents)) 5) as [Hn|Hn].
  - eexists. split; [done|]. simpl. split; [done|].
    assert (forall off key, 0 <= off -> FilterKeyMayMatch le policy (FbReader [] 0 0 0) off key = Some true) as Ht.
    { intros off key Hoff. unfold FilterKeyMayMatch. simpl. rewrite Z.shiftr_0_r.
      destruct (Z.ltb_spec off 0); [lia|done]. }
    split; [intros _ off key Hoff _ _; rewrite Ht by done; done|done].
  - destruct (lookup_lt_is_Some_2 contents (length contents - 1)) as [c ->]; [lia|].
    destruct (DecodeFixed32_inside le (drop (length contents - 5) contents)) as (w & -> & Hw);
      [rewrite length_drop; lia|].
    set (base := u64 (s8 (byte_val c))). assert (0 <= base) as Hbase by apply u64_range.
    destruct (Z.ltb_spec (Z.of_nat (length contents) - 5) w) as [Hbig|Hok].
    + eexists. split; [done|]. simpl. split; [done|]. split; [|lia]. intros Hb off key Hoff Hp Hlen.
      unfold FilterKeyMayMatch. simpl. destruct (Z.leb_spec 64 base); [lia|].
      destruct (Z.ltb_spec (Z.shiftr off base) 0) as [Hneg|]; [|done].
      pose proof (proj2 (Z.shiftr_nonneg off base) Hoff). lia.
    + eexists. split; [done|]. simpl. split; [apply Z.div_pos; lia|]. split; [|lia]. intros Hb off key Hoff Hp Hlen.
      unfold FilterKeyMayMatch. simpl. destruct (Z.leb_spec 64 base); [lia|].
      pose proof (proj2 (Z.shiftr_nonneg off base) Hoff) as Hidx. set (idx := Z.shiftr off base) in *.
      destruct (Z.ltb_spec idx ((Z.of_nat (length contents) - 5 - w) / 4)) as [Hlt|]; [|done].
      assert (idx * 4 + 4 <= Z.of_nat (length contents) - 5 - w) as Hin.
      { pose proof (Z.mul_div_le (Z.of_nat (length contents) - 5 - w) 4). lia. }
      destruct (DecodeFixed32_inside le (drop (Z.to_nat (w + idx * 4)) contents)) as (s & -> & Hs);
        [rewrite length_drop; lia|].
      destruct (DecodeFixed32_inside le (drop (Z.to_nat (w + idx * 4 + 4)) contents)) as (l & -> & Hl);
        [rewrite length_drop; lia|].
      destruct (_ && _); [apply Hp; rewrite length_take, length_drop; lia|]. by destruct (s =? l).
Qed.
