(* ===== verification/Status.v ===== *)
(** * Results of LevelDB operations: include/leveldb/status.h, util/status.cc

    [state_] is NULL for success and otherwise an array that holds the length of
    the message in the byte order of the host, the code, and the message. *)
From stdpp Require Import pretty.
From S2P Require Import Prelude Varint Coding CodingProps.

(** The bytes of a C string literal. *)
Definition bytes_of (s : string) : list byte := String.list_byte_of_string s.

Inductive Code := kOk | kNotFound | kCorruption | kNotSupported | kInvalidArgument | kIOError.

Definition code_val (c : Code) : Z :=
  match c with
  | kOk => 0 | kNotFound => 1 | kCorruption => 2 | kNotSupported => 3 | kInvalidArgument => 4 | kIOError => 5
  end.

Definition Status : Type := option (list byte).

(** [memcpy] between a [uint32_t] and four bytes. *)
Definition host_u32 (kLittleEndian : bool) (v : Z) : list byte :=
  if kLittleEndian then le_split 4 v else rev (le_split 4 v).

Definition load_host_u32 (kLittleEndian : bool) (bs : list byte) : Z :=
  le_combine (if kLittleEndian then bs else rev bs).

Definition OK : Status := None.

Section Status.
Context (kLittleEndian : bool).

(** The constructor for errors; [None] when the code is [kOk]. *)
Definition new_Status (code : Code) (msg msg2 : list byte) : option Status :=
  match code with
  | kOk => None
  | _ =>
      let len1 := u32 (Z.of_nat (length msg)) in
      let len2 := u32 (Z.of_nat (length msg2)) in
      let size := u32 (len1 + (if negb (len2 =? 0) then u32 (2 + len2) else 0)) in
      Some (Some (host_u32 kLittleEndian size ++ [byte_of (code_val code)] ++ take (Z.to_nat len1) msg ++
        (if negb (len2 =? 0) then bytes_of ": " ++ take (Z.to_nat len2) msg2 else [])))
  end.

(** [CopyState]: the length comes from the first four bytes. *)
Definition CopyState (state : list byte) : option (list byte) :=
  let size := load_host_u32 kLittleEndian (take 4 state) in
  let n := Z.to_nat (u32 (size + 5)) in
  if ((4 <=? length state) && (n <=? length state))%nat then Some (take n state) else None.

Definition ok (s : Status) : bool := match s with None => true | Some _ => false end.

Definition code (s : Status) : option Z :=
  match s with
  | None => Some (code_val kOk)
  | Some state => match state !! 4%nat with Some b => Some (s8 (byte_val b)) | None => None end
  end.

Definition is_code (c : Code) (s : Status) : option bool :=
  match code s with Some v => Some (v =? code_val c) | None => None end.
Definition IsNotFound := is_code kNotFound.
Definition IsCorruption := is_code kCorruption.
Definition IsIOError := is_code kIOError.
Definition IsNotSupportedError := is_code kNotSupported.
Definition IsInvalidArgument := is_code kInvalidArgument.

Definition code_text (c : Z) : list byte :=
  match c with
  | 0 => bytes_of "OK"
  | 1 => bytes_of "NotFound: "
  | 2 => bytes_of "Corruption: "
  | 3 => bytes_of "Not implemented: "
  | 4 => bytes_of "Invalid argument: "
  | 5 => bytes_of "IO error: "
  | _ => take 29 (bytes_of "Unknown code(" ++ bytes_of (pretty c) ++ bytes_of "): ")
  end.

Definition ToString (s : Status) : option (list byte) :=
  match s with
  | None => Some (bytes_of "OK")
  | Some state =>
      match code s with
      | None => None
      | Some c =>
          let length_ := load_host_u32 kLittleEndian (take 4 state) in
          if (5 + Z.to_nat length_ <=? length state)%nat
          then Some (code_text c ++ take (Z.to_nat length_) (drop 5 state)) else None
      end
  end.
End Status.

(** ** A status says what it was made from *)

Lemma host_u32_length le v : length (host_u32 le v) = 4%nat.
Proof. unfold host_u32. destruct le; [|rewrite length_rev]; apply length_le_split. Qed.

Lemma load_host_u32_spec le v : 0 <= v < 2 ^ 32 -> load_host_u32 le (host_u32 le v) = v.
Proof.
  intros Hv. unfold load_host_u32, host_u32.
  assert (le_combine (le_split 4 v) = v) as E.
  { rewrite le_combine_split. change (8 * Z.of_nat 4) with 32. by apply Z.mod_small. }
  destruct le; [done|]. by rewrite rev_involutive.
Qed.

(** For every error code and messages that fit, the status
    has that code and no other, is not a success, prints as the text of the code
    and the two messages, and copying it changes nothing. *)
Theorem status_roundtrip le c msg msg2 :
  c <> kOk -> Z.of_nat (length msg + length msg2) + 7 < 2 ^ 32 ->
  exists s, new_Status le c msg msg2 = Some (Some s) /\ ok (Some s) = false /\
    (forall c', is_code c' (Some s) = Some (bool_decide (code_val c = code_val c'))) /\
    ToString le (Some s) = Some (code_text (code_val c) ++ msg ++
      (if decide (msg2 = []) then [] else bytes_of ": " ++ msg2)) /\
    CopyState le s = Some s.
Proof.
  intros Hc Hl. set (m := msg ++ (if decide (msg2 = []) then [] else bytes_of ": " ++ msg2)).
  assert (length m <= length msg + length msg2 + 2)%nat as Hm.
  { unfold m. rewrite length_app. destruct (decide (msg2 = [])); simpl; lia. }
  exists (host_u32 le (Z.of_nat (length m)) ++ [byte_of (code_val c)] ++ m).
  assert (new_Status le c msg msg2 = Some (Some (host_u32 le (Z.of_nat (length m)) ++ [byte_of (code_val c)] ++ m))) as E.
  { unfold new_Status. destruct c; [done| | | | |].
    all: rewrite (u32_id (Z.of_nat (length msg))), (u32_id (Z.of_nat (length msg2))) by lia; rewrite !Nat2Z.id, !firstn_all.
    all: unfold m; destruct (decide (msg2 = [])) as [->|Hne]; [|destruct msg2 as [|b msg2]; [done|]].
    all: try (simpl length; simpl negb; cbv iota; rewrite u32_id by lia; do 3 f_equal; rewrite app_nil_r; f_equal; lia).
    all: destruct (Z.eqb_spec (Z.of_nat (length (b :: msg2))) 0); [simpl in *; lia|].
    all: simpl negb; cbv iota; rewrite !u32_id by (rewrite ?u32_id; simpl length in *; lia).
    all: do 3 f_equal; f_equal; rewrite !length_app; change (length (bytes_of ": ")) with 2%nat; lia. }
  split; [done|]. split; [done|].
  assert ((host_u32 le (Z.of_nat (length m)) ++ [byte_of (code_val c)] ++ m) !! 4%nat = Some (byte_of (code_val c))) as E4.
  { apply list_lookup_middle. by rewrite host_u32_length. }
  assert (s8 (byte_val (byte_of (code_val c))) = code_val c) as Ec by by destruct c.
  split_and!.
  - intros c'. unfold is_code, code. rewrite E4, Ec. f_equal.
    destruct (Z.eqb_spec (code_val c) (code_val c')); [by rewrite bool_decide_true|by rewrite bool_decide_false].
  - unfold ToString. rewrite take_app_length', load_host_u32_spec by (rewrite ?host_u32_length; lia).
    unfold code. rewrite E4, Ec. rewrite Nat2Z.id.
    rewrite app_assoc, drop_app_length' by (rewrite length_app, host_u32_length; done).
    rewrite !length_app, host_u32_length. simpl (length [_]).
    destruct (Nat.leb_spec (5 + length m) (4 + 1 + length m)); [|lia]. by rewrite firstn_all.
  - unfold CopyState. rewrite take_app_length', load_host_u32_spec by (rewrite ?host_u32_length; lia).
    rewrite u32_id by lia.
    assert (length (host_u32 le (Z.of_nat (length m)) ++ [byte_of (code_val c)] ++ m) = 5 + length m)%nat as El.
    { rewrite !length_app, host_u32_length. simpl. lia. }
    rewrite take_ge by (rewrite El; lia). rewrite El.
    destruct (Nat.leb_spec 4 (5 + length m)), (Nat.leb_spec (Z.to_nat (Z.of_nat (length m) + 5)) (5 + length m)); simpl; (done || lia).
Qed.
