(* ===== verification/Iter.v ===== *)
(** * Iterators of LevelDB

    The interface of include/leveldb/iterator.h as a class over the state of an
    iterator, its contract against the list of entries of the source, the empty
    iterators of table/iterator.cc and the caching wrapper of
    table/iterator_wrapper.h.  [None] is a failed assertion. *)
From Stdlib Require Import Sorted.
From S2P Require Import Prelude Comparator Status.

(** ** The interface *)

Class Iterator (St : Type) := {
  Valid : St -> bool;
  SeekToFirst : St -> option St;
  SeekToLast : St -> option St;
  Seek : list byte -> St -> option St;
  Next : St -> option St;
  Prev : St -> option St;
  key : St -> option (list byte);
  value : St -> option (list byte);
  status : St -> Status;
}.

(** ** What it promises

    A position in a list of entries is the index of an entry, or [None] when
    the iterator is not valid. *)
Abbreviation entry := (list byte * list byte)%type.

Definition first_pos (es : list entry) : option nat := if decide (es = []) then None else Some O.
Definition last_pos (es : list entry) : option nat := if decide (es = []) then None else Some (length es - 1)%nat.
Definition next_pos (es : list entry) (i : nat) : option nat := if decide (S i < length es)%nat then Some (S i) else None.
Definition prev_pos (i : nat) : option nat := match i with O => None | S j => Some j end.

(** A key at or past the target. *)
Definition key_ge (c : Comparator) (target k : list byte) : bool :=
  match @Compare c k target with Some r => 0 <=? r | None => false end.

Fixpoint seek_pos (c : Comparator) (target : list byte) (es : list entry) : option nat :=
  match es with
  | [] => None
  | e :: es' =>
      if key_ge c target e.1 then Some O
      else match seek_pos c target es' with Some i => Some (S i) | None => None end
  end.

Class IteratorOk {St} (it : Iterator St) (c : Comparator) (valid : list byte -> Prop) (es : list entry)
    (at_pos : St -> option nat -> Prop) := {
  it_valid st p : at_pos st p -> Valid st = bool_decide (is_Some p);
  it_entry st i : at_pos st (Some i) -> exists e, es !! i = Some e /\ key st = Some e.1 /\ value st = Some e.2;
  it_first st p : at_pos st p -> exists st', SeekToFirst st = Some st' /\ at_pos st' (first_pos es);
  it_last st p : at_pos st p -> exists st', SeekToLast st = Some st' /\ at_pos st' (last_pos es);
  it_seek st p target : at_pos st p -> valid target ->
    exists st', Seek target st = Some st' /\ at_pos st' (seek_pos c target es);
  it_next st i : at_pos st (Some i) -> exists st', Next st = Some st' /\ at_pos st' (next_pos es i);
  it_prev st i : at_pos st (Some i) -> exists st', Prev st = Some st' /\ at_pos st' (prev_pos i);
  it_status st p : at_pos st p -> status st = OK;
}.

(** ** table/iterator.cc *)

Record EmptyIterator := Empty { empty_status : Status }.

#[export] Instance EmptyIterator_iterator : Iterator EmptyIterator := {
  Valid _ := false;
  SeekToFirst st := Some st;
  SeekToLast st := Some st;
  Seek _ st := Some st;
  Next _ := None;
  Prev _ := None;
  key _ := None;
  value _ := None;
  status := empty_status;
}.

Definition NewEmptyIterator : EmptyIterator := Empty OK.
Definition NewErrorIterator (s : Status) : EmptyIterator := Empty s.

#[export] Instance EmptyIterator_ok c valid :
  IteratorOk EmptyIterator_iterator c valid [] (fun st p => st = NewEmptyIterator /\ p = None).
Proof. split; simpl; intros; destruct_and?; simplify_eq; try done; by eexists. Qed.

(** The cleanups registered with an iterator, in the order in which its
    destructor calls them: the first one registered is kept in the object, the
    others in a list that grows at its head. *)
Section Cleanup.
Context {CleanupFunction : Type}.

Record Cleanups := { cleanup_ : option CleanupFunction; cleanup_next : list CleanupFunction }.

Definition no_cleanups : Cleanups := {| cleanup_ := None; cleanup_next := [] |}.

Definition RegisterCleanup (func : CleanupFunction) (c : Cleanups) : Cleanups :=
  match cleanup_ c with
  | None => {| cleanup_ := Some func; cleanup_next := cleanup_next c |}
  | Some f => {| cleanup_ := Some f; cleanup_next := func :: cleanup_next c |}
  end.

(** The calls the destructor makes. *)
Definition run_cleanups (c : Cleanups) : list CleanupFunction :=
  match cleanup_ c with
  | None => []
  | Some f => f :: cleanup_next c
  end.
End Cleanup.

Lemma run_cleanups_all {F} (fs : list F) (f : F) :
  run_cleanups (fold_left (fun c f => RegisterCleanup f c) (f :: fs) no_cleanups) = f :: rev fs.
Proof.
  simpl. change (RegisterCleanup f no_cleanups) with {| cleanup_ := Some f; cleanup_next := [] |}.
  rewrite <- (app_nil_r (rev fs)). generalize (@nil F). induction fs as [|g fs IH]; intros l; simpl; [done|].
  unfold RegisterCleanup at 2. simpl. rewrite IH. by rewrite <- app_assoc.
Qed.

(** ** table/iterator_wrapper.h *)

Section Wrapper.
Context {St : Type} {it : Iterator St}.

Record IteratorWrapper := Wrapper { iter_ : St; valid_ : bool; key_cache : list byte }.

(** [Update]: the key is only read from a valid iterator. *)
Definition Update (iter : St) (old_key : list byte) : option IteratorWrapper :=
  let valid := Valid iter in
  if valid then match key iter with Some k => Some (Wrapper iter valid k) | None => None end
  else Some (Wrapper iter valid old_key).

Definition WrapperSet (iter : St) : option IteratorWrapper := Update iter [].

Definition wrap (op : St -> option St) (w : IteratorWrapper) : option IteratorWrapper :=
  match op (iter_ w) with Some st => Update st (key_cache w) | None => None end.

#[export] Instance IteratorWrapper_iterator : Iterator IteratorWrapper := {
  Valid := valid_;
  SeekToFirst := wrap SeekToFirst;
  SeekToLast := wrap SeekToLast;
  Seek k := wrap (Seek k);
  Next := wrap Next;
  Prev := wrap Prev;
  key w := if valid_ w then Some (key_cache w) else None;
  value w := if valid_ w then value (iter_ w) else None;
  status w := status (iter_ w);
}.

(** Wrapped, an iterator behaves as before. *)
Context {c : Comparator} {valid : list byte -> Prop} {es : list entry} {at_pos : St -> option nat -> Prop}.
Context {Hok : IteratorOk it c valid es at_pos}.

Definition wrapped (w : IteratorWrapper) (p : option nat) : Prop :=
  at_pos (iter_ w) p /\ valid_ w = bool_decide (is_Some p) /\
  (is_Some p -> key (iter_ w) = Some (key_cache w)).

Lemma Update_wrapped st p k : at_pos st p -> exists w, Update st k = Some w /\ wrapped w p.
Proof.
  intros Hp. unfold Update. rewrite (it_valid _ _ Hp). destruct p as [i|].
  - rewrite bool_decide_true by done. destruct (it_entry _ _ Hp) as (e & _ & Ek & _). rewrite Ek.
    eexists. split; [done|]. split_and!; [done|by rewrite bool_decide_true|done].
  - rewrite bool_decide_false by (by intros [? ?]). eexists. split; [done|].
    split_and!; [done|by rewrite bool_decide_false by (by intros [? ?])|by intros [? ?]].
Qed.

Lemma wrap_wrapped (op : St -> option St) w p :
  (exists st, op (iter_ w) = Some st /\ at_pos st p) -> exists w', wrap op w = Some w' /\ wrapped w' p.
Proof. intros (st & E & Hp). unfold wrap. rewrite E. by apply Update_wrapped. Qed.

#[export] Instance IteratorWrapper_ok : IteratorOk IteratorWrapper_iterator c valid es wrapped.
Proof.
  split; simpl.
  - by intros w p (_ & -> & _).
  - intros w i (Hp & -> & Hk). rewrite bool_decide_true by done.
    destruct (it_entry _ _ Hp) as (e & Ee & Ek & Ev). exists e. rewrite Hk in Ek by done. by injection Ek as ->.
  - intros w p (Hp & _). apply wrap_wrapped. by eapply it_first.
  - intros w p (Hp & _). apply wrap_wrapped. by eapply it_last.
  - intros w p target (Hp & _) Hv. apply wrap_wrapped. by eapply it_seek.
  - intros w i (Hp & _). apply wrap_wrapped. by eapply it_next.
  - intros w i (Hp & _). apply wrap_wrapped. by eapply it_prev.
  - intros w p (Hp & _). by eapply it_status.
Qed.
End Wrapper.

(** ** Positions *)

Lemma seek_pos_spec c target es :
  match seek_pos c target es with
  | Some i => exists e, es !! i = Some e /\ key_ge c target e.1 = true /\
      forall j e', (j < i)%nat -> es !! j = Some e' -> key_ge c target e'.1 = false
  | None => forall e, In e es -> key_ge c target e.1 = false
  end.
Proof.
  induction es as [|e es IH]; simpl; [done|]. destruct (key_ge c target e.1) eqn:E.
  - exists e. split_and!; [done|done|]. intros; lia.
  - destruct (seek_pos c target es) as [i|]; simpl in *.
    + destruct IH as (e' & E1 & E2 & H). exists e'. split_and!; [done|done|].
      intros [|j] e'' Hj; simpl; [by intros [= <-]|]. apply H. lia.
    + intros e' [<-|Hin]; [done|]. by apply IH.
Qed.

(** Nothing before [i] is at or past the target: the search may start there. *)
Lemma seek_pos_skip c target es i :
  (forall j e, (j < i)%nat -> es !! j = Some e -> key_ge c target e.1 = false) -> (i <= length es)%nat ->
  seek_pos c target es =
    match seek_pos c target (drop i es) with Some j => Some (i + j)%nat | None => None end.
Proof.
  revert es. induction i as [|i IH]; intros es Hlt Hl; simpl.
  { rewrite drop_0. by destruct (seek_pos c target es). }
  destruct es as [|e es]; [simpl in Hl; lia|]. simpl. rewrite (Hlt O e) by (done || lia).
  rewrite (IH es); [by destruct (seek_pos c target (drop i es))| |simpl in Hl; lia].
  intros j e' Hj He. apply (Hlt (S j) e'); [lia|done].
Qed.

(** Entries in front of the target, and then one at or past it. *)
Lemma seek_pos_app c target ea eb :
  (forall e, In e ea -> key_ge c target e.1 = false) ->
  (forall e, head eb = Some e -> key_ge c target e.1 = true) ->
  seek_pos c target (ea ++ eb) = match eb with [] => None | _ => Some (length ea) end.
Proof.
  intros Ha Hb. induction ea as [|e ea IH]; simpl.
  - destruct eb as [|e eb]; [done|]. simpl. by rewrite (Hb e).
  - rewrite (Ha e) by (by left). rewrite IH by (intros; apply Ha; by right). by destruct eb.
Qed.

(** ** Sorted sources *)

Section Sorted.
Context {c : Comparator} {valid : list byte -> Prop} {Hok : ComparatorOk c valid}.

Lemma key_ge_false target k : valid target -> valid k -> key_ge c target k = false <-> key_lt c k target.
Proof.
  intros Ht Hk. unfold key_ge, key_lt. destruct (compare_defined k target Hk Ht) as [x E]. rewrite E.
  split; [intros; exists x; split; [done|]; zify_bool; lia|].
  intros (y & [= <-] & Hy). destruct (Z.leb_spec 0 x); [lia|done].
Qed.

Lemma key_ge_true target k : valid target -> valid k -> key_ge c target k = true <-> key_le c target k.
Proof.
  intros Ht Hk. destruct (key_ge c target k) eqn:E.
  - split; [|done]. intros _. destruct (key_total k target Hk Ht) as [Hlt|]; [|done].
    apply (key_ge_false target k Ht Hk) in Hlt. congruence.
  - split; [done|]. intros Hle. apply (key_ge_false target k Ht Hk) in E.
    by destruct (key_lt_not_le _ _ E).
Qed.

(** Strictly increasing keys. *)
Definition keys_sorted (es : list entry) : Prop :=
  forall i j a b, (i < j)%nat -> es !! i = Some a -> es !! j = Some b -> key_lt c a.1 b.1.

Lemma keys_sorted_strongly es :
  StronglySorted (fun a b => key_lt c a.1 b.1) es -> keys_sorted es.
Proof.
  intros Hs i j a b Hij Ea Eb. revert i j Hij Ea Eb. induction Hs as [|e es Hs IH Hf]; intros i j Hij Ea Eb; [done|].
  destruct j as [|j]; [lia|]. destruct i as [|i]; simpl in *.
  - injection Ea as <-. rewrite Forall_lookup in Hf. by eapply Hf.
  - apply (IH i j); [lia|done|done].
Qed.
End Sorted.
Arguments keys_sorted c es : clear implicits.
