(* ===== verification/Block.v ===== *)
(** * Blocks of LevelDB: table/block_builder.cc and table/block.cc

    Offsets and counts that the code keeps in a [uint32_t] are wrapped to 32
    bits.  [data_] is the array of the contents, and [None] is a failed assertion
    or a read outside that array. *)
From S2P Require Import Prelude Varint Coding CodingProps Comparator Status Iter.

(** ** BlockBuilder *)

Section BlockBuilder.
Context (kLittleEndian : bool) (comparator : Comparator) (block_restart_interval : Z).

Record BlockBuilder := BkBuilder {
  buffer_ : list byte;
  restarts_ : list Z;   (* std::vector<uint32_t> *)
  counter_ : Z;
  finished_ : bool;
  last_key_ : list byte;
}.

Definition new_BlockBuilder : option BlockBuilder :=
  if 1 <=? block_restart_interval then Some (BkBuilder [] [0] 0 false []) else None.

(** [Reset], whatever the builder held. *)
Definition BlockReset (_ : BlockBuilder) : BlockBuilder := BkBuilder [] [0] 0 false [].

Definition CurrentSizeEstimate (b : BlockBuilder) : Z :=
  u64 (Z.of_nat (length (buffer_ b)) + Z.of_nat (length (restarts_ b)) * 4 + 4).

Definition block_empty (b : BlockBuilder) : bool := (length (buffer_ b) =? 0)%nat.

(** The loop over the restart array. *)
Fixpoint put_restarts (dst : list byte) (rs : list Z) : list byte :=
  match rs with
  | [] => dst
  | r :: rs' => put_restarts (PutFixed32 kLittleEndian dst r) rs'
  end.

Definition BlockFinish (b : BlockBuilder) : list byte * BlockBuilder :=
  let buffer := put_restarts (buffer_ b) (restarts_ b) in
  let buffer := PutFixed32 kLittleEndian buffer (u32 (Z.of_nat (length (restarts_ b)))) in
  (buffer, BkBuilder buffer (restarts_ b) (counter_ b) true (last_key_ b)).

(** The loop that counts the bytes shared with the last key. *)
Fixpoint count_shared (last_key_piece key : list byte) : nat :=
  match last_key_piece, key with
  | x :: l', y :: k' => if bool_decide (x = y) then S (count_shared l' k') else O
  | _, _ => O
  end.

(** [assert(buffer_.empty() || comparator->Compare(key, last_key_piece) > 0)] *)
Definition key_in_order (b : BlockBuilder) (key : list byte) : bool :=
  block_empty b || match @Compare comparator key (last_key_ b) with Some r => 0 <? r | None => false end.

Definition BlockAdd (key value : list byte) (b : BlockBuilder) : option BlockBuilder :=
  if negb (finished_ b) && (counter_ b <=? block_restart_interval) && key_in_order b key then
    let '(shared, restarts, counter) :=
      if counter_ b <? block_restart_interval
      then (count_shared (last_key_ b) key, restarts_ b, counter_ b)
      else (O, restarts_ b ++ [u32 (Z.of_nat (length (buffer_ b)))], 0) in
    let non_shared := (length key - shared)%nat in
    let buffer := PutVarint32 (buffer_ b) (u32 (Z.of_nat shared)) in
    let buffer := PutVarint32 buffer (u32 (Z.of_nat non_shared)) in
    let buffer := PutVarint32 buffer (u32 (Z.of_nat (length value))) in
    let buffer := buffer ++ take non_shared (drop shared key) in
    let buffer := buffer ++ value in
    let last_key := take shared (last_key_ b) ++ take non_shared (drop shared key) in
    if bool_decide (last_key = key)
    then Some (BkBuilder buffer restarts (counter + 1) false last_key) else None
  else None.
End BlockBuilder.

(** ** Block *)

Section Block.
Context (kLittleEndian : bool).

Record Block := BlockAt {
  block_data : list byte;    (* data_ *)
  block_size : Z;            (* size_, 0 as an error marker *)
  restart_offset_ : Z;       (* uint32_t; not set for an error *)
}.

(** [DecodeFixed32(data_ + size_ - sizeof(uint32_t))] *)
Definition NumRestarts (data : list byte) (size : Z) : option Z :=
  if 4 <=? size then DecodeFixed32 kLittleEndian (drop (Z.to_nat (size - 4)) data) else None.

Definition new_Block (contents : list byte) : option Block :=
  let size := Z.of_nat (length contents) in
  if size <? 4 then Some (BlockAt contents 0 0)
  else
    let max_restarts_allowed := (size - 4) / 4 in
    match NumRestarts contents size with
    | None => None
    | Some n =>
        if max_restarts_allowed <? n then Some (BlockAt contents 0 0)
        else Some (BlockAt contents size (u32 (size - u32 (1 + n) * 4)))
    end.

(** [DecodeEntry]: [p] is what is between the pointer and [limit].  The three
    lengths and what follows them; [None] is NULL. *)
Definition DecodeEntry (p : list byte) : option (Z * Z * Z * list byte) :=
  match p with
  | b0 :: b1 :: b2 :: p' =>
      let check shared non_shared value_length (p : list byte) :=
        if u32 (Z.of_nat (length p)) <? u32 (non_shared + value_length) then None
        else Some (shared, non_shared, value_length, p) in
      if Z.lor (Z.lor (byte_val b0) (byte_val b1)) (byte_val b2) <? 128
      then check (byte_val b0) (byte_val b1) (byte_val b2) p'
      else
        match GetVarint32Ptr p with
        | None => None
        | Some (shared, p1) =>
            match GetVarint32Ptr p1 with
            | None => None
            | Some (non_shared, p2) =>
                match GetVarint32Ptr p2 with
                | None => None
                | Some (value_length, p3) => check shared non_shared value_length p3
                end
            end
        end
  | _ => None
  end.

(** ** Block::Iter *)

(** [value_] is a pointer into [data_], as an offset, with a size; [None] is the
    empty slice of the default constructor and of [clear]. *)
Record BlockIter := BkIter {
  bi_data : list byte;
  bi_restarts : Z;         (* restarts_ *)
  bi_num_restarts : Z;     (* num_restarts_ *)
  bi_current : Z;          (* current_ *)
  bi_restart_index : Z;    (* restart_index_ *)
  bi_key : list byte;      (* key_ *)
  bi_value : option (Z * Z);
  bi_status : Status;
}.

Definition new_BlockIter (data : list byte) (restarts num_restarts : Z) : option BlockIter :=
  if 0 <? num_restarts
  then Some (BkIter data restarts num_restarts restarts num_restarts [] None OK) else None.

Definition set_pos (current restart_index : Z) (i : BlockIter) : BlockIter :=
  BkIter (bi_data i) (bi_restarts i) (bi_num_restarts i) current restart_index (bi_key i) (bi_value i) (bi_status i).

Definition set_entry (key : list byte) (value : option (Z * Z)) (i : BlockIter) : BlockIter :=
  BkIter (bi_data i) (bi_restarts i) (bi_num_restarts i) (bi_current i) (bi_restart_index i) key value (bi_status i).

Definition BlockValid (i : BlockIter) : bool := bi_current i <? bi_restarts i.

Definition NextEntryOffset (i : BlockIter) : option Z :=
  match bi_value i with Some (off, size) => Some (u32 (off + size)) | None => None end.

Definition GetRestartPoint (i : BlockIter) (index : Z) : option Z :=
  if index <? bi_num_restarts i
  then DecodeFixed32 kLittleEndian (drop (Z.to_nat (bi_restarts i + index * 4)) (bi_data i)) else None.

Definition SeekToRestartPoint (index : Z) (i : BlockIter) : option BlockIter :=
  match GetRestartPoint i index with
  | Some offset => Some (set_entry [] (Some (offset, 0)) (set_pos (bi_current i) index i))
  | None => None
  end.

(** [Status::Corruption("bad entry in block")] *)
Definition corruption (msg : string) : Status :=
  match new_Status kLittleEndian kCorruption (bytes_of msg) [] with Some s => s | None => None end.

Definition CorruptionError (i : BlockIter) : BlockIter :=
  BkIter (bi_data i) (bi_restarts i) (bi_num_restarts i) (bi_restarts i) (bi_num_restarts i) [] None
    (corruption "bad entry in block").

(** The loop that moves [restart_index_] up to the block of [current_]. *)
Fixpoint advance_restart (fuel : nat) (i : BlockIter) : option BlockIter :=
  if u32 (bi_restart_index i + 1) <? bi_num_restarts i then
    match GetRestartPoint i (u32 (bi_restart_index i + 1)) with
    | None => None
    | Some r =>
        if r <? bi_current i then
          match fuel with
          | O => None
          | S fuel' => advance_restart fuel' (set_pos (bi_current i) (u32 (bi_restart_index i + 1)) i)
          end
        else Some i
    end
  else Some i.

(** [key_.append(p, n)]: the bytes are copied from the array, wherever
    [restarts_] is. *)
Definition read_bytes (data : list byte) (p n : Z) : option (list byte) :=
  if p + n <=? Z.of_nat (length data) then Some (take (Z.to_nat n) (drop (Z.to_nat p) data)) else None.

(** What is between [data_ + offset] and [data_ + restarts_]. *)
Definition region (i : BlockIter) (offset : Z) : list byte :=
  drop (Z.to_nat offset) (take (Z.to_nat (bi_restarts i)) (bi_data i)).

Definition ParseNextKey (i : BlockIter) : option (bool * BlockIter) :=
  match NextEntryOffset i with
  | None => None
  | Some current =>
      let i := set_pos current (bi_restart_index i) i in
      if bi_restarts i <=? current then Some (false, set_pos (bi_restarts i) (bi_num_restarts i) i)
      else
        match DecodeEntry (region i current) with
        | None => Some (false, CorruptionError i)
        | Some (shared, non_shared, value_length, rest) =>
            if Z.of_nat (length (bi_key i)) <? shared then Some (false, CorruptionError i)
            else
              let p := bi_restarts i - Z.of_nat (length rest) in
              match read_bytes (bi_data i) p non_shared with
              | None => None
              | Some delta =>
                  let key := take (Z.to_nat shared) (bi_key i) ++ delta in
                  let i := set_entry key (Some (p + non_shared, value_length)) i in
                  match advance_restart (Z.to_nat (bi_num_restarts i)) i with
                  | Some i => Some (true, i)
                  | None => None
                  end
              end
        end
  end.

Definition BlockNext (i : BlockIter) : option BlockIter :=
  if BlockValid i then match ParseNextKey i with Some (_, i) => Some i | None => None end else None.

(** [do {} while (ParseNextKey() && NextEntryOffset() < bound)] *)
Fixpoint parse_until (fuel : nat) (bound : Z) (i : BlockIter) : option BlockIter :=
  match fuel with
  | O => None
  | S fuel' =>
      match ParseNextKey i with
      | None => None
      | Some (false, i) => Some i
      | Some (true, i) =>
          match NextEntryOffset i with
          | None => None
          | Some off => if off <? bound then parse_until fuel' bound i else Some i
          end
      end
  end.

(** The first loop of [Prev]; [inl] is the return when there are no more
    entries. *)
Fixpoint scan_back (fuel : nat) (original : Z) (i : BlockIter) : option (BlockIter + BlockIter) :=
  match GetRestartPoint i (bi_restart_index i) with
  | None => None
  | Some r =>
      if original <=? r then
        if bi_restart_index i =? 0 then Some (inl (set_pos (bi_restarts i) (bi_num_restarts i) i))
        else
          match fuel with
          | O => None
          | S fuel' => scan_back fuel' original (set_pos (bi_current i) (bi_restart_index i - 1) i)
          end
      else Some (inr i)
  end.

Definition fuel_of (i : BlockIter) : nat := S (length (bi_data i)).

Definition BlockPrev (i : BlockIter) : option BlockIter :=
  if BlockValid i then
    let original := bi_current i in
    match scan_back (Z.to_nat (bi_num_restarts i)) original i with
    | None => None
    | Some (inl i) => Some i
    | Some (inr i) =>
        match SeekToRestartPoint (bi_restart_index i) i with
        | None => None
        | Some i => parse_until (fuel_of i) original i
        end
    end
  else None.

(** The binary search of [Seek]: [inl] is the return after an error, [inr] the
    restart point to start from. *)
Fixpoint search_restarts (comparator_ : Comparator) (fuel : nat) (left right : Z) (target : list byte) (i : BlockIter)
  : option (BlockIter + Z) :=
  if left <? right then
    match fuel with
    | O => None
    | S fuel' =>
        let mid := u32 (left + right + 1) / 2 in
        match GetRestartPoint i mid with
        | None => None
        | Some region_offset =>
            match DecodeEntry (region i region_offset) with
            | None => Some (inl (CorruptionError i))
            | Some (shared, non_shared, value_length, rest) =>
                if negb (shared =? 0) then Some (inl (CorruptionError i))
                else
                  match read_bytes (bi_data i) (bi_restarts i - Z.of_nat (length rest)) non_shared with
                  | None => None
                  | Some mid_key =>
                      match @Compare comparator_ mid_key target with
                      | None => None
                      | Some r =>
                          if r <? 0 then search_restarts comparator_ fuel' mid right target i
                          else search_restarts comparator_ fuel' left (u32 (mid - 1)) target i
                      end
                  end
            end
        end
    end
  else Some (inr left).

(** The linear search for the first key at or past the target. *)
Fixpoint linear_search (comparator_ : Comparator) (fuel : nat) (target : list byte) (i : BlockIter) : option BlockIter :=
  match fuel with
  | O => None
  | S fuel' =>
      match ParseNextKey i with
      | None => None
      | Some (false, i) => Some i
      | Some (true, i) =>
          match @Compare comparator_ (bi_key i) target with
          | None => None
          | Some r => if 0 <=? r then Some i else linear_search comparator_ fuel' target i
          end
      end
  end.

Definition BlockSeek (comparator_ : Comparator) (target : list byte) (i : BlockIter) : option BlockIter :=
  match search_restarts comparator_ 32 0 (u32 (bi_num_restarts i - 1)) target i with
  | None => None
  | Some (inl i) => Some i
  | Some (inr left_) =>
      match SeekToRestartPoint left_ i with
      | None => None
      | Some i => linear_search comparator_ (fuel_of i) target i
      end
  end.

Definition BlockSeekToFirst (i : BlockIter) : option BlockIter :=
  match SeekToRestartPoint 0 i with
  | None => None
  | Some i => match ParseNextKey i with Some (_, i) => Some i | None => None end
  end.

Definition BlockSeekToLast (i : BlockIter) : option BlockIter :=
  match SeekToRestartPoint (u32 (bi_num_restarts i - 1)) i with
  | None => None
  | Some i => parse_until (fuel_of i) (bi_restarts i) i
  end.

Definition Block_Iter (comparator_ : Comparator) : Iterator BlockIter := {|
  Valid := BlockValid;
  SeekToFirst := BlockSeekToFirst;
  SeekToLast := BlockSeekToLast;
  Seek := BlockSeek comparator_;
  Next := BlockNext;
  Prev := BlockPrev;
  key i := if BlockValid i then Some (bi_key i) else None;
  value i :=
    if BlockValid i then
      match bi_value i with Some (off, size) => read_bytes (bi_data i) off size | None => None end
    else None;
  status := bi_status;
|}.

(** [NewIterator]: an error iterator, the empty iterator, or one over the block. *)
Definition NewBlockIterator (b : Block) : option (EmptyIterator + BlockIter) :=
  if block_size b <? 4 then Some (inl (NewErrorIterator (corruption "bad block contents")))
  else
    match NumRestarts (block_data b) (block_size b) with
    | None => None
    | Some num_restarts =>
        if num_restarts =? 0 then Some (inl NewEmptyIterator)
        else
          match new_BlockIter (block_data b) (restart_offset_ b) num_restarts with
          | Some i => Some (inr i)
          | None => None
          end
    end.
End Block.
