(* ===== verification/BlockProps.v ===== *)
(** * Blocks: what the builder writes, the iterator reads *)
From S2P Require Import Prelude Varint Coding CodingProps Comparator Status Iter Block.

(** ** The layout of a block *)

(** An entry with the number of bytes its key shares with the previous key. *)
Record benc := BEnc { be_shared : nat; be_entry : entry }.
Abbreviation be_key e := (be_entry e).1.
Abbreviation be_value e := (be_entry e).2.

Definition size_varint (n : nat) : list byte := EncodeVarint32 (Z.of_nat n).

Definition enc_entry (e : benc) : list byte :=
  size_varint (be_shared e) ++ size_varint (length (be_key e) - be_shared e) ++ size_varint (length (be_value e)) ++
  drop (be_shared e) (be_key e) ++ be_value e.

Definition layout (bs : list benc) : list byte := concat (map enc_entry bs).

Definition offset (bs : list benc) (i : nat) : nat := length (layout (take i bs)).

(** The shared bytes are those of the previous key. *)
Fixpoint chained (prev : list byte) (bs : list benc) : Prop :=
  match bs with
  | [] => True
  | e :: bs' =>
      take (be_shared e) prev = take (be_shared e) (be_key e) /\
      (be_shared e <= length prev)%nat /\ (be_shared e <= length (be_key e))%nat /\ chained (be_key e) bs'
  end.

Lemma size_varint_pos n : (1 <= length (size_varint n))%nat.
Proof. unfold size_varint, EncodeVarint32. cbv zeta. repeat case_if; simpl; lia. Qed.

Lemma enc_entry_length e : (3 <= length (enc_entry e))%nat.
Proof.
  unfold enc_entry. rewrite !length_app. pose proof (size_varint_pos (be_shared e)).
  pose proof (size_varint_pos (length (be_key e) - be_shared e)). pose proof (size_varint_pos (length (be_value e))). lia.
Qed.

Lemma layout_app a b : layout (a ++ b) = layout a ++ layout b.
Proof. unfold layout. by rewrite map_app, concat_app. Qed.

Lemma offset_S bs i e : bs !! i = Some e -> offset bs (S i) = (offset bs i + length (enc_entry e))%nat.
Proof.
  intros E. unfold offset. rewrite (take_S_r _ _ _ E), layout_app, length_app. unfold layout at 2. simpl.
  by rewrite app_nil_r.
Qed.

Lemma offset_0 bs : offset bs 0 = 0%nat.
Proof. done. Qed.

Lemma offset_all bs : offset bs (length bs) = length (layout bs).
Proof. unfold offset. by rewrite firstn_all. Qed.

(** Every entry takes at least three bytes. *)
Lemma offset_mono bs i j : (i <= j <= length bs)%nat -> (offset bs i + 3 * (j - i) <= offset bs j)%nat.
Proof.
  intros [Hij Hj]. induction Hij as [|j Hij IH]; [lia|].
  destruct (lookup_lt_is_Some_2 bs j) as [e E]; [lia|]. rewrite (offset_S _ _ _ E).
  pose proof (enc_entry_length e). lia.
Qed.

Lemma layout_drop bs i e :
  bs !! i = Some e -> drop (offset bs i) (layout bs) = enc_entry e ++ layout (drop (S i) bs).
Proof.
  intros E. apply list_elem_of_split_length in E as (l1 & l2 & -> & ->). unfold offset.
  rewrite take_app_length, layout_app, drop_app_length.
  replace (drop (S (length l1)) (l1 ++ e :: l2)) with l2; [done|].
  change (S (length l1)) with (1 + length l1)%nat. by rewrite Nat.add_comm, <- drop_drop, drop_app_length.
Qed.

Lemma chained_lookup prev bs i e :
  chained prev bs -> bs !! i = Some e ->
  (be_shared e <= length (be_key e))%nat /\
  match i with
  | O => take (be_shared e) prev = take (be_shared e) (be_key e) /\ (be_shared e <= length prev)%nat
  | S j => exists d, bs !! j = Some d /\ take (be_shared e) (be_key d) = take (be_shared e) (be_key e) /\
      (be_shared e <= length (be_key d))%nat
  end.
Proof.
  revert prev i. induction bs as [|b bs IH]; intros prev i Hc E; [done|]. simpl in Hc.
  destruct i as [|i]; simpl in E; [injection E as ->; tauto|]. destruct Hc as (_ & _ & _ & Hc).
  destruct (IH (be_key b) i Hc E) as [Hs Hi]. split; [done|]. destruct i as [|i]; [by exists b|].
  destruct Hi as (d & Ed & ?). by exists d.
Qed.

(** ** Reading the header of an entry *)

Definition decode_slow (p : list byte) : option (Z * Z * Z * list byte) :=
  match GetVarint32 p with
  | None => None
  | Some (shared, p1) =>
      match GetVarint32 p1 with
      | None => None
      | Some (non_shared, p2) =>
          match GetVarint32 p2 with
          | None => None
          | Some (value_length, p3) =>
              if u32 (Z.of_nat (length p3)) <? u32 (non_shared + value_length) then None
              else Some (shared, non_shared, value_length, p3)
          end
      end
  end.

Lemma lor_lt_128 a b : 0 <= a -> 0 <= b -> Z.lor a b < 128 -> a < 128 /\ b < 128.
Proof.
  intros Ha Hb Hlt.
  assert (forall x y, 0 <= x -> 0 <= y -> x <= Z.lor x y) as Hle.
  { intros x y Hx Hy.
    assert (Z.lor x y = x + Z.ldiff y x) as ->.
    { rewrite Z.add_nocarry_lxor.
      - apply Z.bits_inj'. intros i Hi. rewrite Z.lor_spec, Z.lxor_spec, Z.ldiff_spec.
        by destruct (Z.testbit x i), (Z.testbit y i).
      - apply Z.bits_inj'. intros i Hi. rewrite Z.land_spec, Z.ldiff_spec, Z.bits_0.
        by destruct (Z.testbit x i), (Z.testbit y i). }
    assert (0 <= Z.ldiff y x) by (apply Z.ldiff_nonneg; lia). lia. }
  pose proof (Hle a b Ha Hb). pose proof (Hle b a Hb Ha) as H2. rewrite Z.lor_comm in H2. lia.
Qed.

Lemma GetVarint32_byte b p : byte_val b < 128 -> GetVarint32 (b :: p) = Some (byte_val b, p).
Proof.
  intros Hb. unfold GetVarint32, GetVarint32Ptr. rewrite land_80 by apply byte_val_range.
  by destruct (Z.ltb_spec (byte_val b) 128); [|lia].
Qed.

(** The fast path agrees with the general one. *)
Lemma DecodeEntry_slow p : (3 <= length p)%nat -> DecodeEntry p = decode_slow p.
Proof.
  destruct p as [|b0 [|b1 [|b2 p]]]; simpl length; try lia. intros _. unfold DecodeEntry, decode_slow.
  destruct (Z.ltb_spec (Z.lor (Z.lor (byte_val b0) (byte_val b1)) (byte_val b2)) 128) as [Hlt|_]; [|done].
  pose proof (byte_val_range b0). pose proof (byte_val_range b1). pose proof (byte_val_range b2).
  apply lor_lt_128 in Hlt as [Hlt L2]; [|apply Z.lor_nonneg; lia|lia].
  apply lor_lt_128 in Hlt as [L0 L1]; [|lia..]. by rewrite !GetVarint32_byte by done.
Qed.

Lemma DecodeEntry_enc e rest :
  (be_shared e <= length (be_key e))%nat -> Z.of_nat (length (enc_entry e ++ rest)) < 2 ^ 32 ->
  Z.of_nat (length (be_key e)) < 2 ^ 32 ->
  DecodeEntry (enc_entry e ++ rest) =
    Some (Z.of_nat (be_shared e), Z.of_nat (length (be_key e) - be_shared e), Z.of_nat (length (be_value e)),
      drop (be_shared e) (be_key e) ++ be_value e ++ rest).
Proof.
  intros Hs Hl Hk. rewrite DecodeEntry_slow by (rewrite length_app; pose proof (enc_entry_length e); lia).
  rewrite length_app in Hl. unfold enc_entry in *. rewrite !length_app, length_drop in Hl.
  unfold decode_slow, size_varint. rewrite <- !app_assoc.
  rewrite !GetVarint32_varint by lia. rewrite !length_app, length_drop.
  rewrite !u32_id by lia. by match goal with |- context [if ?b then _ else _] => destruct b eqn:? end; [zify_bool; lia|].
Qed.

(** ** A well-formed block *)

Record restarts_ok (bs : list benc) (ri : list nat) := {
  ro_first : ri !! 0%nat = Some 0%nat;
  ro_mono r r' j j' : (r < r')%nat -> ri !! r = Some j -> ri !! r' = Some j' -> (j < j')%nat;
  ro_range r j : ri !! r = Some j -> (j < length bs)%nat \/ (j = 0)%nat;
  ro_shared r j e : ri !! r = Some j -> bs !! j = Some e -> be_shared e = 0%nat;
}.

Definition block_words (bs : list benc) (ri : list nat) : list Z := map (fun j => Z.of_nat (offset bs j)) ri.

Definition block_contents (bs : list benc) (ri : list nat) : list byte :=
  layout bs ++ fixed32s (block_words bs ri) ++ le_split 4 (Z.of_nat (length ri)).

Record block_ok (bs : list benc) (ri : list nat) := {
  bo_chained : chained [] bs;
  bo_restarts : restarts_ok bs ri;
  bo_size : Z.of_nat (length (block_contents bs ri)) < 2 ^ 32;
  bo_keys : Forall (fun e => Z.of_nat (length (be_key e)) < 2 ^ 32) bs;
}.

Lemma length_block_contents bs ri :
  length (block_contents bs ri) = (length (layout bs) + 4 * length ri + 4)%nat.
Proof.
  unfold block_contents, block_words. rewrite !length_app, length_fixed32s, length_map, length_le_split. lia.
Qed.

Section Iter.
Context {le : bool} {bs : list benc} {ri : list nat} {Hok : block_ok bs ri}.

Let contents := block_contents bs ri.
Let total := Z.of_nat (length (layout bs)).
Let num := Z.of_nat (length ri).

Lemma sizes : total + 4 * num + 4 < 2 ^ 32 /\ 0 <= total /\ 1 <= num.
Proof.
  pose proof (bo_size _ _ Hok) as H. rewrite length_block_contents in H. unfold total, num.
  pose proof (lookup_lt_Some _ _ _ (ro_first _ _ (bo_restarts _ _ Hok))). lia.
Qed.

Lemma offset_total i : (i <= length bs)%nat -> Z.of_nat (offset bs i) + 3 * Z.of_nat (length bs - i) <= total.
Proof. intros Hi. pose proof (offset_mono bs i (length bs)). rewrite offset_all in H. unfold total. lia. Qed.

(** What never changes in an iterator without errors. *)
Record base (st : BlockIter) : Prop := {
  ba_data : bi_data st = contents;
  ba_restarts : bi_restarts st = total;
  ba_num : bi_num_restarts st = num;
  ba_status : bi_status st = OK;
}.

(** The restart index belongs to an entry not past the current one. *)
Definition index_ok (st : BlockIter) (i : nat) : Prop :=
  exists r j, bi_restart_index st = Z.of_nat r /\ ri !! r = Some j /\ (j <= i)%nat.

(** The next entry to be parsed is number [i]. *)
Record ready (i : nat) (st : BlockIter) : Prop := {
  re_base : base st;
  re_bound : (i <= length bs)%nat;
  re_next : NextEntryOffset st = Some (Z.of_nat (offset bs i));
  re_key e : bs !! i = Some e ->
    take (be_shared e) (bi_key st) = take (be_shared e) (be_key e) /\ (be_shared e <= length (bi_key st))%nat;
  re_index : index_ok st i;
}.

Record at_entry (i : nat) (st : BlockIter) : Prop := {
  ae_base : base st;
  ae_entry : exists e, bs !! i = Some e /\ bi_key st = be_key e /\
    bi_value st = Some (Z.of_nat (offset bs (S i)) - Z.of_nat (length (be_value e)), Z.of_nat (length (be_value e)));
  ae_current : bi_current st = Z.of_nat (offset bs i);
  ae_index : index_ok st i;
}.

Record invalid (st : BlockIter) : Prop := {
  in_base : base st;
  in_current : bi_current st = total;
}.

Definition block_pos (st : BlockIter) (p : option nat) : Prop :=
  match p with Some i => at_entry i st | None => invalid st end.

Lemma GetRestartPoint_spec st r j :
  base st -> ri !! r = Some j -> GetRestartPoint le st (Z.of_nat r) = Some (Z.of_nat (offset bs j)).
Proof.
  intros [Ed Er En _] E. unfold GetRestartPoint. rewrite Ed, Er, En. pose proof (lookup_lt_Some _ _ _ E).
  destruct (Z.ltb_spec (Z.of_nat r) num); [|unfold num in *; lia].
  unfold contents, block_contents. apply (DecodeFixed32_at _ _ _ _ r).
  - unfold block_words. by rewrite list_lookup_fmap, E.
  - destruct sizes as (? & ? & ?). pose proof (offset_total j).
    destruct (ro_range _ _ (bo_restarts _ _ Hok) r j E) as [? | ->]; [lia|]. rewrite offset_0. lia.
  - unfold total. lia.
Qed.

Lemma region_spec st i : base st -> region st (Z.of_nat (offset bs i)) = drop (offset bs i) (layout bs).
Proof.
  intros [Ed Er _ _]. unfold region. rewrite Ed, Er, Nat2Z.id. unfold total. rewrite Nat2Z.id.
  unfold contents, block_contents. by rewrite take_app_length.
Qed.

Lemma DecodeEntry_at st i e :
  base st -> bs !! i = Some e ->
  DecodeEntry (region st (Z.of_nat (offset bs i))) =
    Some (Z.of_nat (be_shared e), Z.of_nat (length (be_key e) - be_shared e), Z.of_nat (length (be_value e)),
      drop (be_shared e) (be_key e) ++ be_value e ++ layout (drop (S i) bs)).
Proof.
  intros Hb E. rewrite region_spec, (layout_drop _ _ _ E) by done.
  destruct sizes as (? & ? & ?). apply DecodeEntry_enc.
  - by destruct (chained_lookup _ _ _ _ (bo_chained _ _ Hok) E).
  - rewrite <- (layout_drop _ _ _ E), length_drop. unfold total in *. lia.
  - pose proof (bo_keys _ _ Hok) as Hk. rewrite Forall_lookup in Hk. by eapply Hk.
Qed.

(** The part of the key that is read from the block. *)
Lemma read_delta st i e :
  base st -> bs !! i = Some e ->
  let rest := drop (be_shared e) (be_key e) ++ be_value e ++ layout (drop (S i) bs) in
  read_bytes (bi_data st) (bi_restarts st - Z.of_nat (length rest)) (Z.of_nat (length (be_key e) - be_shared e))
    = Some (drop (be_shared e) (be_key e)) /\
  bi_restarts st - Z.of_nat (length rest) + Z.of_nat (length (be_key e) - be_shared e) =
    Z.of_nat (offset bs (S i)) - Z.of_nat (length (be_value e)).
Proof.
  intros [Ed Er _ _] E rest. pose proof (layout_drop _ _ _ E) as El. pose proof (offset_S _ _ _ E) as Eo.
  pose proof (f_equal length El) as Ell. rewrite length_drop in Ell.
  set (head := size_varint (be_shared e) ++ size_varint (length (be_key e) - be_shared e) ++ size_varint (length (be_value e))).
  assert (enc_entry e = head ++ drop (be_shared e) (be_key e) ++ be_value e) as Ee.
  { unfold enc_entry, head. by rewrite <- !app_assoc. }
  assert (drop (offset bs i) (layout bs) = head ++ rest) as Er'.
  { rewrite El, Ee. unfold rest. by rewrite <- !app_assoc. }
  assert (offset bs i <= length (layout bs))%nat as Hle.
  { pose proof (lookup_lt_Some _ _ _ E). pose proof (offset_total i). unfold total in *. lia. }
  assert (length (layout bs) = offset bs i + length head + length rest)%nat as Hlen.
  { pose proof (f_equal length Er') as H. rewrite length_drop, length_app in H. lia. }
  rewrite Ed, Er. unfold total. rewrite Hlen.
  assert (length (enc_entry e) = length head + (length (be_key e) - be_shared e) + length (be_value e))%nat as Hee.
  { rewrite Ee, !length_app, length_drop. lia. }
  assert (length rest = (length (be_key e) - be_shared e) + length (be_value e) + length (layout (drop (S i) bs)))%nat as Hr.
  { unfold rest. rewrite !length_app, length_drop. lia. }
  split; [|lia]. unfold read_bytes. unfold contents. rewrite length_block_contents.
  match goal with |- context [?a <=? ?b] => destruct (Z.leb_spec a b) as [_|Hbad]; [|lia] end.
  f_equal. rewrite Nat2Z.id.
  replace (Z.to_nat (Z.of_nat (offset bs i + length head + length rest) - Z.of_nat (length rest)))
    with (offset bs i + length head)%nat by lia.
  unfold block_contents. rewrite drop_app_le by lia.
  rewrite <- drop_drop, Er', drop_app_length. unfold rest. rewrite <- app_assoc.
  by rewrite take_app_length' by by rewrite length_drop.
Qed.

Lemma base_set_pos c r st : base st -> base (set_pos c r st).
Proof. by intros []. Qed.
Lemma base_set_entry k v st : base st -> base (set_entry k v st).
Proof. by intros []. Qed.
Hint Resolve base_set_pos base_set_entry : core.

Lemma offset_lt_inv i j : (i <= length bs)%nat -> (offset bs j < offset bs i)%nat -> (j < i)%nat.
Proof.
  intros Hi Hlt. destruct (Nat.lt_ge_cases j i) as [|Hge]; [done|]. exfalso.
  destruct (Nat.le_gt_cases j (length bs)) as [Hj|Hj].
  - pose proof (offset_mono bs i j). lia.
  - pose proof (offset_mono bs i (length bs)). unfold offset in *. rewrite (take_ge bs j) in Hlt by lia.
    rewrite firstn_all in *. lia.
Qed.

Lemma num_index r j : ri !! r = Some j -> 0 <= Z.of_nat r < num.
Proof. intros E. pose proof (lookup_lt_Some _ _ _ E). unfold num. lia. Qed.

Lemma advance_restart_spec fuel st i :
  base st -> index_ok st i -> bi_current st = Z.of_nat (offset bs i) -> (i <= length bs)%nat ->
  num - bi_restart_index st <= Z.of_nat fuel ->
  exists r, advance_restart le fuel st = Some (set_pos (bi_current st) r st) /\
    index_ok (set_pos (bi_current st) r st) i.
Proof.
  intros Hb Hx Hc Hi. revert st Hb Hx Hc.
  induction fuel as [|fuel IH]; intros st Hb (r & j & Er & Ej & Hj) Hc Hf.
  { pose proof (num_index _ _ Ej). lia. }
  pose proof (num_index _ _ Ej). destruct sizes as (? & ? & ?).
  assert (set_pos (bi_current st) (bi_restart_index st) st = st) as Eid by by destruct st.
  assert (exists r0, Some st = Some (set_pos (bi_current st) r0 st) /\ index_ok (set_pos (bi_current st) r0 st) i) as Hstop.
  { exists (bi_restart_index st). rewrite Eid. split; [done|]. by exists r, j. }
  cbn [advance_restart]. rewrite (ba_num _ Hb), u32_id by lia.
  destruct (Z.ltb_spec (bi_restart_index st + 1) num) as [Hlt|]; [|done].
  destruct (lookup_lt_is_Some_2 ri (S r)) as [j' Ej']; [unfold num in *; lia|].
  replace (bi_restart_index st + 1) with (Z.of_nat (S r)) in * by lia.
  rewrite (GetRestartPoint_spec _ _ _ Hb Ej').
  destruct (Z.ltb_spec (Z.of_nat (offset bs j')) (bi_current st)) as [Hcur|]; [|done].
  destruct (IH (set_pos (bi_current st) (Z.of_nat (S r)) st)) as (r' & E & Hr'); auto.
  - exists (S r), j'. split_and!; [done|done|]. pose proof (offset_lt_inv i j' Hi). lia.
  - simpl. lia.
  - exists r'. by split.
Qed.

Lemma NextEntryOffset_at st i : at_entry i st -> NextEntryOffset st = Some (Z.of_nat (offset bs (S i))).
Proof.
  intros [Hb (e & Ee & _ & Ev) _ _]. unfold NextEntryOffset. rewrite Ev. f_equal.
  destruct sizes as (? & ? & ?). pose proof (lookup_lt_Some _ _ _ Ee). pose proof (offset_total (S i)). rewrite u32_id; lia.
Qed.

Lemma index_ok_le st i j : index_ok st i -> (i <= j)%nat -> index_ok st j.
Proof. intros (r & k & ? & ? & ?) Hj. exists r, k. split_and!; [done|done|lia]. Qed.

Lemma at_entry_ready st i : at_entry i st -> ready (S i) st.
Proof.
  intros H. pose proof (NextEntryOffset_at _ _ H) as Hn. destruct H as [Hb (e & Ee & Ek & Ev) Hc Hx].
  pose proof (lookup_lt_Some _ _ _ Ee). split; [done|lia|done| |eapply index_ok_le; [done|lia]].
  intros e' Ee'. destruct (chained_lookup _ _ _ _ (bo_chained _ _ Hok) Ee') as (_ & d & Ed & Ht & Hl).
  rewrite Ee in Ed. injection Ed as <-. by rewrite Ek.
Qed.

Lemma ParseNextKey_entry st i :
  ready i st -> (i < length bs)%nat -> exists st', ParseNextKey le st = Some (true, st') /\ at_entry i st'.
Proof.
  intros [Hb _ Hn Hk Hx] Hi. destruct (lookup_lt_is_Some_2 bs i Hi) as [e E].
  destruct (Hk e E) as [Ht Hl]. unfold ParseNextKey. rewrite Hn. cbv zeta.
  set (st1 := set_pos (Z.of_nat (offset bs i)) (bi_restart_index st) st).
  assert (base st1) as Hb1 by (unfold st1; auto). rewrite (ba_restarts _ Hb1).
  pose proof (offset_total i ltac:(lia)). destruct (Z.leb_spec total (Z.of_nat (offset bs i))); [lia|].
  rewrite (DecodeEntry_at _ _ _ Hb1 E). change (bi_key st1) with (bi_key st).
  destruct (Z.ltb_spec (Z.of_nat (length (bi_key st))) (Z.of_nat (be_shared e))); [lia|].
  destruct (read_delta st1 i e Hb1 E) as [Ed Ep]. rewrite (ba_restarts _ Hb1) in Ed, Ep. rewrite Ed, Ep.
  rewrite Nat2Z.id, Ht, take_drop. set (st2 := set_entry _ _ st1).
  assert (base st2) as Hb2 by (unfold st2; auto).
  destruct (advance_restart_spec (Z.to_nat (bi_num_restarts st2)) st2 i) as (r & -> & Hx'); try done.
  - lia.
  - rewrite (ba_num _ Hb2). destruct Hx as (r & j & Er & Ej & _). pose proof (num_index _ _ Ej).
    change (bi_restart_index st2) with (bi_restart_index st). lia.
  - eexists. split; [done|]. split; auto. exists e. by split_and!.
Qed.

Lemma ParseNextKey_end st :
  ready (length bs) st -> exists st', ParseNextKey le st = Some (false, st') /\ invalid st'.
Proof.
  intros [Hb _ Hn _ _]. unfold ParseNextKey. rewrite Hn. cbv zeta. simpl bi_restarts.
  rewrite (ba_restarts _ Hb), offset_all. unfold total. rewrite Z.leb_refl.
  eexists. split; [done|]. split; auto.
Qed.

Lemma SeekToRestartPoint_spec st r j :
  base st -> ri !! r = Some j ->
  exists st', SeekToRestartPoint le (Z.of_nat r) st = Some st' /\ ready j st'.
Proof.
  intros Hb E. unfold SeekToRestartPoint. rewrite (GetRestartPoint_spec _ _ _ Hb E). eexists. split; [done|].
  assert (j <= length bs)%nat as Hj.
  { destruct (ro_range _ _ (bo_restarts _ _ Hok) r j E); lia. }
  pose proof (offset_total j Hj). destruct sizes as (? & ? & ?).
  split; [auto|done| | |].
  - unfold NextEntryOffset. simpl. f_equal. rewrite u32_id; lia.
  - intros e Ee. rewrite (ro_shared _ _ (bo_restarts _ _ Hok) r j e E Ee). simpl. split; [done|lia].
  - by exists r, j.
Qed.

(** ** Moving *)

(** After the last entry, or on entry [i]. *)
Definition landed (st : BlockIter) (i : nat) : Prop := block_pos st (if decide (i < length bs)%nat then Some i else None).

Lemma ParseNextKey_lands st i :
  ready i st -> exists b st', ParseNextKey le st = Some (b, st') /\ landed st' i /\ b = bool_decide (i < length bs)%nat.
Proof.
  intros Hr. unfold landed. destruct (decide (i < length bs)%nat) as [Hi|Hi].
  - destruct (ParseNextKey_entry st i Hr Hi) as (st' & E & Hst). exists true, st'.
    by rewrite bool_decide_true.
  - assert (i = length bs) as -> by (pose proof (re_bound _ _ Hr); lia).
    destruct (ParseNextKey_end st Hr) as (st' & E & Hst). exists false, st'. by rewrite bool_decide_false by lia.
Qed.

(** Parsing up to the entry in front of [m]. *)
Lemma parse_until_spec fuel st i m :
  ready i st -> (i < m)%nat -> (m <= length bs)%nat -> (m - i <= fuel)%nat ->
  exists st', parse_until le fuel (Z.of_nat (offset bs m)) st = Some st' /\ at_entry (m - 1) st'.
Proof.
  revert st i. induction fuel as [|fuel IH]; intros st i Hr Hi Hm Hf; [lia|]. cbn [parse_until].
  destruct (ParseNextKey_entry st i Hr ltac:(lia)) as (st1 & -> & H1). rewrite (NextEntryOffset_at _ _ H1).
  destruct (Z.ltb_spec (Z.of_nat (offset bs (S i))) (Z.of_nat (offset bs m))) as [Hlt|Hge].
  - assert (S i < m)%nat by (apply offset_lt_inv; [done|lia]).
    apply (IH st1 (S i)); [by apply at_entry_ready|lia..].
  - assert (m = S i) as ->.
    { pose proof (offset_mono bs (S i) m). destruct (decide (m = S i)); [done|lia]. }
    exists st1. split; [done|]. by replace (S i - 1)%nat with i by lia.
Qed.

Lemma fuel_enough st : base st -> (length bs <= fuel_of st)%nat.
Proof.
  intros [Ed _ _ _]. unfold fuel_of. rewrite Ed. unfold contents. rewrite length_block_contents.
  pose proof (offset_total 0 ltac:(lia)). unfold total in *. rewrite offset_0 in *. lia.
Qed.

Lemma scan_back_spec fuel st i j r :
  base st -> bi_restart_index st = Z.of_nat r -> ri !! r = Some j -> (r <= fuel)%nat ->
  (j <= i)%nat -> (i < length bs)%nat ->
  (i = 0%nat /\ exists st', scan_back le fuel (Z.of_nat (offset bs i)) st = Some (inl st') /\ invalid st') \/
  (exists r' j', scan_back le fuel (Z.of_nat (offset bs i)) st = Some (inr (set_pos (bi_current st) (Z.of_nat r') st)) /\
     ri !! r' = Some j' /\ (j' < i)%nat).
Proof.
  revert st j r. induction fuel as [|fuel IH]; intros st j r Hb Er Ej Hf Hj Hi; cbn [scan_back];
    rewrite Er, (GetRestartPoint_spec _ _ _ Hb Ej);
    destruct (Z.leb_spec (Z.of_nat (offset bs i)) (Z.of_nat (offset bs j))) as [Hle|Hlt].
  2, 4: right; exists r, j; rewrite <- Er; split_and!; [by destruct st|done|];
    destruct (decide (j = i)) as [->|]; lia.
  - destruct (Z.eqb_spec (Z.of_nat r) 0); [|lia]. left.
    assert (r = 0%nat) as -> by lia. rewrite (ro_first _ _ (bo_restarts _ _ Hok)) in Ej. injection Ej as <-.
    assert (i = 0)%nat as -> by (pose proof (offset_mono bs 0 i); lia).
    split; [done|]. eexists. split; [done|]. split; auto. apply (ba_restarts _ Hb).
  - destruct (Z.eqb_spec (Z.of_nat r) 0).
    + assert (r = 0%nat) as -> by lia. left. rewrite (ro_first _ _ (bo_restarts _ _ Hok)) in Ej. injection Ej as <-.
      assert (i = 0)%nat as -> by (pose proof (offset_mono bs 0 i); lia).
      split; [done|]. eexists. split; [done|]. split; auto. apply (ba_restarts _ Hb).
    + destruct r as [|r]; [lia|]. replace (Z.of_nat (S r) - 1) with (Z.of_nat r) by lia.
      pose proof (lookup_lt_Some _ _ _ Ej). destruct (lookup_lt_is_Some_2 ri r) as [j' Ej']; [lia|].
      pose proof (ro_mono _ _ (bo_restarts _ _ Hok) r (S r) j' j ltac:(lia) Ej' Ej).
      destruct (IH (set_pos (bi_current st) (Z.of_nat r) st) j' r (base_set_pos _ _ _ Hb) eq_refl Ej' ltac:(lia) ltac:(lia) Hi)
        as [?|(r' & k & H1 & H2)]; [by left|]. right. by exists r', k.
Qed.

(** ** The operations against the interface *)

Definition entries : list entry := map be_entry bs.

Lemma entries_lookup i e : bs !! i = Some e -> entries !! i = Some (be_entry e).
Proof. intros E. unfold entries. by rewrite list_lookup_fmap, E. Qed.

Lemma entries_length : length entries = length bs.
Proof. apply length_map. Qed.

Lemma first_pos_entries : first_pos entries = if decide (0 < length bs)%nat then Some O else None.
Proof.
  unfold first_pos. destruct (decide (entries = [])) as [E|E], (decide (0 < length bs)%nat); try done.
  - pose proof entries_length as El. rewrite E in El. simpl in El. lia.
  - destruct entries eqn:E'; [done|]. pose proof entries_length as El. rewrite E' in El. simpl in El. lia.
Qed.

Lemma value_read st i e :
  base st -> bs !! i = Some e ->
  read_bytes (bi_data st) (Z.of_nat (offset bs (S i)) - Z.of_nat (length (be_value e))) (Z.of_nat (length (be_value e)))
    = Some (be_value e).
Proof.
  intros Hb E. rewrite (ba_data _ Hb). pose proof (offset_S _ _ _ E) as Eo. pose proof (lookup_lt_Some _ _ _ E).
  pose proof (offset_total (S i) ltac:(lia)) as Ht. unfold total in Ht.
  pose proof (layout_drop _ _ _ E) as El.
  set (head := size_varint (be_shared e) ++ size_varint (length (be_key e) - be_shared e) ++
    size_varint (length (be_value e)) ++ drop (be_shared e) (be_key e)).
  assert (enc_entry e = head ++ be_value e) as Ee by (unfold enc_entry, head; by rewrite <- !app_assoc).
  rewrite Ee, length_app in Eo. unfold read_bytes. unfold contents. rewrite length_block_contents.
  destruct (Z.leb_spec (Z.of_nat (offset bs (S i)) - Z.of_nat (length (be_value e)) + Z.of_nat (length (be_value e)))
    (Z.of_nat (length (layout bs) + 4 * length ri + 4))); [|lia].
  f_equal. rewrite Nat2Z.id.
  replace (Z.to_nat (Z.of_nat (offset bs (S i)) - Z.of_nat (length (be_value e)))) with (offset bs i + length head)%nat by lia.
  unfold block_contents. rewrite drop_app_le by lia.
  rewrite <- drop_drop, El, Ee, <- !app_assoc, drop_app_length, <- ?app_assoc. apply take_app_length.
Qed.

Lemma block_pos_base st p : block_pos st p -> base st.
Proof. destruct p; intros []; done. Qed.

Lemma block_valid st p : block_pos st p -> BlockValid st = bool_decide (is_Some p).
Proof.
  destruct p as [i|]; intros H; unfold BlockValid; rewrite (ba_restarts _ (block_pos_base _ _ H)).
  - rewrite bool_decide_true by done. destruct H as [_ (e & E & _) -> _].
    pose proof (lookup_lt_Some _ _ _ E). pose proof (offset_total i ltac:(lia)).
    destruct (Z.ltb_spec (Z.of_nat (offset bs i)) total); [done|lia].
  - rewrite bool_decide_false by (by intros [? ?]). destruct H as [_ ->]. apply Z.ltb_irrefl.
Qed.

Lemma landed_next st i : landed st (S i) -> block_pos st (next_pos entries i).
Proof. unfold landed, next_pos. by rewrite entries_length. Qed.

Lemma block_first st p : block_pos st p ->
  exists st', BlockSeekToFirst le st = Some st' /\ block_pos st' (first_pos entries).
Proof.
  intros Hp%block_pos_base. unfold BlockSeekToFirst.
  destruct (SeekToRestartPoint_spec st 0 0 Hp (ro_first _ _ (bo_restarts _ _ Hok))) as (st1 & E1 & H1).
  change (Z.of_nat 0) with 0 in E1. rewrite E1. destruct (ParseNextKey_lands st1 0 H1) as (b & st2 & -> & H2 & _).
  exists st2. split; [done|]. by rewrite first_pos_entries.
Qed.

Lemma block_next st i : block_pos st (Some i) ->
  exists st', BlockNext le st = Some st' /\ block_pos st' (next_pos entries i).
Proof.
  intros Hp. unfold BlockNext. rewrite (block_valid _ _ Hp), bool_decide_true by done.
  destruct (ParseNextKey_lands st (S i)) as (b & st1 & -> & H1 & _); [by apply at_entry_ready|].
  exists st1. split; [done|]. by apply landed_next.
Qed.

Lemma block_prev st i : block_pos st (Some i) ->
  exists st', BlockPrev le st = Some st' /\ block_pos st' (prev_pos i).
Proof.
  intros Hp. unfold BlockPrev. rewrite (block_valid _ _ Hp), bool_decide_true by done. cbv zeta.
  destruct Hp as [Hb (e & E & _) Hc (r & j & Er & Ej & Hj)]. pose proof (lookup_lt_Some _ _ _ E) as Hi.
  rewrite Hc, (ba_num _ Hb). pose proof (num_index _ _ Ej).
  destruct (scan_back_spec (Z.to_nat num) st i j r) as [[-> (st' & -> & Hi')]|(r' & j' & -> & Ej' & Hj')]; try done.
  - unfold num in *. lia.
  - by exists st'.
  - simpl bi_restart_index. destruct (SeekToRestartPoint_spec (set_pos (bi_current st) (Z.of_nat r') st) r' j') as (st1 & -> & H1); auto.
    destruct (parse_until_spec (fuel_of st1) st1 j' i H1 Hj' ltac:(lia)) as (st2 & -> & H2).
    { pose proof (fuel_enough st1 (re_base _ _ H1)). lia. }
    exists st2. split; [done|]. destruct i as [|i]; [lia|]. simpl. by replace i with (S i - 1)%nat by lia.
Qed.

Lemma block_last st p : block_pos st p ->
  exists st', BlockSeekToLast le st = Some st' /\ block_pos st' (last_pos entries).
Proof.
  intros Hp%block_pos_base. unfold BlockSeekToLast. destruct sizes as (Hs1 & Hs2 & Hs3).
  rewrite (ba_num _ Hp), u32_id by lia.
  destruct (lookup_lt_is_Some_2 ri (length ri - 1)) as [j Ej]; [unfold num in *; lia|].
  replace (num - 1) with (Z.of_nat (length ri - 1)) by (unfold num in *; lia).
  destruct (SeekToRestartPoint_spec st _ j Hp Ej) as (st1 & -> & H1).
  rewrite (ba_restarts _ (re_base _ _ H1)). unfold total. rewrite <- offset_all.
  unfold last_pos. pose proof entries_length as El. pose proof first_pos_entries as Ef. unfold first_pos in Ef.
  destruct (decide (entries = [])), (decide (0 < length bs)%nat); try done.
  - unfold fuel_of. cbn [parse_until].
    assert (j = length bs) as -> by (pose proof (re_bound _ _ H1); lia).
    destruct (ParseNextKey_end st1 H1) as (st2 & -> & H2). by exists st2.
  - assert (j < length bs)%nat by (destruct (ro_range _ _ (bo_restarts _ _ Hok) _ _ Ej); lia).
    destruct (parse_until_spec (fuel_of st1) st1 j (length bs) H1 ltac:(lia) ltac:(lia)) as (st2 & -> & H2).
    { pose proof (fuel_enough st1 (re_base _ _ H1)). lia. }
    exists st2. split; [done|]. by rewrite El.
Qed.

(** ** Searching *)

Context {cmp : Comparator} {valid : list byte -> Prop} {Hcmp : ComparatorOk cmp valid}.
Context {Hvalid : Forall (fun e => valid (be_key e)) bs} {Hsorted : keys_sorted cmp entries}.

Lemma valid_key i e : bs !! i = Some e -> valid (be_key e).
Proof. intros E. rewrite Forall_lookup in Hvalid. by eapply Hvalid. Qed.

(** Everything in front of entry [j] is below the target. *)
Definition below (target : list byte) (j : nat) : Prop :=
  forall i e, (i < j)%nat -> bs !! i = Some e -> key_lt cmp (be_key e) target.

Lemma below_entry target j e :
  valid target -> bs !! j = Some e -> key_lt cmp (be_key e) target -> below target j.
Proof.
  intros Ht E Hlt i d Hi Ed. apply (key_lt_trans (valid := valid) _ (be_key e)); try done; try by eapply valid_key.
  apply (Hsorted i j); [done|by apply entries_lookup..].
Qed.

Lemma search_restarts_spec fuel st target l r j :
  base st -> valid target -> (l <= r)%nat -> (r < length ri)%nat -> Z.of_nat (r - l) < 2 ^ Z.of_nat fuel ->
  ri !! l = Some j -> below target j ->
  exists l' j', search_restarts le cmp fuel (Z.of_nat l) (Z.of_nat r) target st = Some (inr (Z.of_nat l')) /\
    ri !! l' = Some j' /\ below target j'.
Proof.
  intros Hb Ht. revert l r j. induction fuel as [|fuel IH]; intros l r j Hlr Hr Hf Ej Hbelow; cbn [search_restarts].
  { change (2 ^ Z.of_nat 0) with 1 in Hf. destruct (Z.ltb_spec (Z.of_nat l) (Z.of_nat r)); [lia|]. by exists l, j. }
  destruct (Z.ltb_spec (Z.of_nat l) (Z.of_nat r)) as [Hlt|]; [|by exists l, j]. cbv zeta.
  destruct sizes as (Hsz & ? & ?). rewrite u32_id by (unfold num in *; lia).
  set (mid := ((l + r + 1) / 2)%nat).
  assert ((Z.of_nat l + Z.of_nat r + 1) / 2 = Z.of_nat mid) as ->.
  { unfold mid. rewrite Nat2Z.inj_div. f_equal. lia. }
  assert (l < mid <= r)%nat as Hmid.
  { unfold mid. pose proof (Nat.div_mod (l + r + 1) 2 ltac:(lia)). pose proof (Nat.mod_upper_bound (l + r + 1) 2 ltac:(lia)). lia. }
  assert (2 * mid <= l + r + 1 <= 2 * mid + 1)%nat as Hmid2.
  { unfold mid. pose proof (Nat.div_mod (l + r + 1) 2 ltac:(lia)). pose proof (Nat.mod_upper_bound (l + r + 1) 2 ltac:(lia)). lia. }
  destruct (lookup_lt_is_Some_2 ri mid) as [jm Ejm]; [lia|].
  rewrite (GetRestartPoint_spec _ _ _ Hb Ejm).
  pose proof (ro_mono _ _ (bo_restarts _ _ Hok) l mid j jm ltac:(lia) Ej Ejm) as Hjm.
  destruct (lookup_lt_is_Some_2 bs jm) as [e Ee].
  { destruct (ro_range _ _ (bo_restarts _ _ Hok) _ _ Ejm); lia. }
  rewrite (DecodeEntry_at _ _ _ Hb Ee).
  pose proof (ro_shared _ _ (bo_restarts _ _ Hok) _ _ _ Ejm Ee) as Hs.
  destruct (read_delta st jm e Hb Ee) as [Ed _]. cbv zeta in Ed. rewrite Ed. rewrite Hs. simpl negb. cbv iota. rewrite drop_0.
  destruct (compare_defined (be_key e) target (valid_key _ _ Ee) Ht) as [x Ex]. rewrite Ex.
  rewrite Nat2Z.inj_succ, Z.pow_succ_r in Hf by lia.
  destruct (Z.ltb_spec x 0) as [Hx|Hx].
  - apply (IH mid r jm); [lia|done|lia|done|]. apply (below_entry _ _ e Ht Ee). by exists x.
  - rewrite u32_id by (unfold num in *; lia). replace (Z.of_nat mid - 1) with (Z.of_nat (mid - 1)) by lia.
    apply (IH l (mid - 1)%nat j); [lia|lia|lia|done|done].
Qed.

Lemma linear_search_spec fuel st target i :
  ready i st -> valid target -> (length bs - i < fuel)%nat ->
  exists st', linear_search le cmp fuel target st = Some st' /\
    block_pos st' (match seek_pos cmp target (drop i entries) with Some k => Some (i + k)%nat | None => None end).
Proof.
  revert st i. induction fuel as [|fuel IH]; intros st i Hr Ht Hf; [lia|]. cbn [linear_search].
  destruct (decide (i < length bs)%nat) as [Hi|Hi].
  - destruct (ParseNextKey_entry st i Hr Hi) as (st1 & -> & H1).
    pose proof (ae_entry _ _ H1) as (e & E & Ek & _). rewrite Ek.
    rewrite (drop_S _ _ _ (entries_lookup _ _ E)). simpl. unfold key_ge at 1.
    destruct (compare_defined (be_key e) target (valid_key _ _ E) Ht) as [x Ex]. rewrite Ex.
    destruct (Z.leb_spec 0 x).
    + exists st1. split; [done|]. simpl. by rewrite Nat.add_0_r.
    + destruct (IH st1 (S i) (at_entry_ready _ _ H1) Ht ltac:(lia)) as (st2 & -> & H2). exists st2. split; [done|].
      destruct (seek_pos cmp target (drop (S i) entries)) as [k|]; [|done].
      by replace (i + S k)%nat with (S i + k)%nat by lia.
  - assert (i = length bs) as -> by (pose proof (re_bound _ _ Hr); lia).
    destruct (ParseNextKey_end st Hr) as (st1 & -> & H1). exists st1. split; [done|].
    by rewrite drop_ge by (rewrite entries_length; lia).
Qed.

Lemma block_seek st p target : block_pos st p -> valid target ->
  exists st', BlockSeek le cmp target st = Some st' /\ block_pos st' (seek_pos cmp target entries).
Proof.
  intros Hp%block_pos_base Ht. unfold BlockSeek. destruct sizes as (Hs1 & Hs2 & Hs3).
  rewrite (ba_num _ Hp), u32_id by lia.
  destruct (search_restarts_spec 32 st target 0 (length ri - 1) 0 Hp Ht) as (l & j & E & Ej & Hbelow);
    [lia|unfold num in *; lia|unfold num in *; lia|apply (ro_first _ _ (bo_restarts _ _ Hok))|intros i e Hi; lia|].
  replace (num - 1) with (Z.of_nat (length ri - 1)) by (unfold num in *; lia).
  change (Z.of_nat 0) with 0 in E. rewrite E.
  destruct (SeekToRestartPoint_spec st l j Hp Ej) as (st1 & -> & H1).
  destruct (linear_search_spec (fuel_of st1) st1 target j H1 Ht) as (st2 & -> & H2).
  { unfold fuel_of. rewrite (ba_data _ (re_base _ _ H1)). unfold contents. rewrite length_block_contents.
    pose proof (offset_total 0 ltac:(lia)) as Hq. unfold total in Hq. rewrite offset_0 in Hq. lia. }
  exists st2. split; [done|]. rewrite (seek_pos_skip cmp target entries j); [done| |].
  - intros i e Hi Ee. unfold entries in Ee. rewrite list_lookup_fmap in Ee.
    destruct (bs !! i) as [d|] eqn:Ed; [|done]. injection Ee as <-.
    apply (key_ge_false (valid := valid)); [done|by eapply valid_key|by eapply Hbelow].
  - rewrite entries_length. apply (re_bound _ _ H1).
Qed.

#[export] Instance Block_Iter_ok : IteratorOk (Block_Iter le cmp) cmp valid entries block_pos.
Proof.
  split.
  - exact block_valid.
  - intros st i Hp. simpl. rewrite (block_valid _ _ Hp), bool_decide_true by done.
    pose proof Hp as [Hb (e & E & Ek & Ev) _ _]. exists (be_entry e). rewrite Ev, (value_read _ _ _ Hb E), Ek.
    split_and!; [by apply entries_lookup|done|done].
  - exact block_first.
  - exact block_last.
  - exact block_seek.
  - exact block_next.
  - exact block_prev.
  - intros st p Hp. apply (ba_status _ (block_pos_base _ _ Hp)).
Qed.
End Iter.

(** ** The builder *)

Lemma count_shared_spec a b :
  take (count_shared a b) a = take (count_shared a b) b /\
  (count_shared a b <= length a)%nat /\ (count_shared a b <= length b)%nat.
Proof.
  revert b. induction a as [|x a IH]; intros [|y b]; simpl; try (split_and!; (done || lia)).
  destruct (bool_decide_reflect (x = y)) as [->|]; simpl; [|split_and!; (done || lia)].
  destruct (IH b) as (-> & ? & ?). split_and!; [done|lia|lia].
Qed.

Lemma put_restarts_spec le dst ws : put_restarts le dst ws = dst ++ fixed32s ws.
Proof.
  revert dst. induction ws as [|w ws IH]; intros dst; simpl; [by rewrite app_nil_r|].
  rewrite IH. unfold PutFixed32. by rewrite EncodeFixed32_spec, <- app_assoc.
Qed.

Lemma offset_app bs e j : (j <= length bs)%nat -> offset (bs ++ [e]) j = offset bs j.
Proof. intros Hj. unfold offset. by rewrite take_app_le. Qed.

(** The key of the last entry. *)
Definition last_key_of (bs : list benc) : list byte := match last bs with Some e => be_key e | None => [] end.

Lemma chained_snoc prev bs e :
  chained prev bs ->
  (let l := match last bs with Some d => be_key d | None => prev end in
   take (be_shared e) l = take (be_shared e) (be_key e) /\ (be_shared e <= length l)%nat) ->
  (be_shared e <= length (be_key e))%nat -> chained prev (bs ++ [e]).
Proof.
  revert prev. induction bs as [|b bs IH]; intros prev Hc [H1 H2] H3; simpl in *; [tauto|].
  destruct Hc as (? & ? & ? & Hc). split_and!; [done..|]. apply IH; [done| |done].
  rewrite last_cons in H1, H2. destruct (last bs); by split.
Qed.

Section Builder.
Context {le : bool} {cmp : Comparator} {valid : list byte -> Prop} {Hcmp : ComparatorOk cmp valid}.
Context (interval : Z).

Definition wrapped_words (bs : list benc) (ri : list nat) : list Z := map (fun j => u32 (Z.of_nat (offset bs j))) ri.

Record builder_inv (b : BlockBuilder) (bs : list benc) (ri : list nat) := {
  bi_buffer : buffer_ b = layout bs;
  bi_words : Block.restarts_ b = wrapped_words bs ri;
  bi_ri : restarts_ok bs ri;
  bi_lt : Forall (fun j => j <= length bs)%nat ri;
  bi_counter : 0 <= counter_ b <= interval /\ (bs = [] -> counter_ b = 0);
  bi_unfinished : finished_ b = false;
  bi_last : last_key_ b = last_key_of bs;
  bi_chained : chained [] bs;
}.

Lemma builder_inv_new : 1 <= interval ->
  exists b, new_BlockBuilder interval = Some b /\ builder_inv b [] [0%nat].
Proof.
  intros Hi. unfold new_BlockBuilder. destruct (Z.leb_spec 1 interval); [|lia]. eexists. split; [done|].
  split; simpl; try done; [|by repeat constructor|by repeat split; lia].
  split; [done| | |].
  - intros [|r] [|r'] j j' ? E E'; simpl in *; (lia || done).
  - intros [|r] j E; [injection E as <-; by right|done].
  - intros r j e _ E. done.
Qed.

Lemma layout_nil_inv bs : length (layout bs) = 0%nat -> bs = [].
Proof.
  destruct bs as [|e bs]; [done|]. change (e :: bs) with ([e] ++ bs). rewrite layout_app, length_app.
  unfold layout at 1. simpl. rewrite app_nil_r. pose proof (enc_entry_length e). lia.
Qed.

(** One more entry, at a restart point or sharing a prefix of the last key. *)
Lemma restarts_ok_snoc bs ri e :
  restarts_ok bs ri -> (bs = [] -> be_shared e = 0%nat) -> Forall (fun j => j <= length bs)%nat ri ->
  restarts_ok (bs ++ [e]) ri.
Proof.
  intros [H1 H2 H3 H4] He Hle. split; [done|done| |].
  - intros r j E. rewrite length_app. simpl. rewrite Forall_lookup in Hle. specialize (Hle r j E). simpl in Hle.
    destruct (H3 r j E) as [? | ->]; [left; lia|by right].
  - intros r j d Er Ed. apply lookup_app_Some in Ed as [Ed|[Hj Ed]]; [by eapply H4|].
    destruct (H3 r j Er) as [? | ->]; [lia|]. 
    assert (bs = []) as -> by (destruct bs; [done|simpl in *; lia]). simpl in Ed. injection Ed as <-. auto.
Qed.

Lemma restarts_ok_restart bs ri e :
  restarts_ok bs ri -> bs <> [] -> be_shared e = 0%nat -> restarts_ok (bs ++ [e]) (ri ++ [length bs]).
Proof.
  intros [H1 H2 H3 H4] Hne He.
  assert (0 < length bs)%nat as Hpos by (destruct bs; [done|simpl; lia]).
  assert (forall r j, ri !! r = Some j -> (j < length bs)%nat) as Hlt.
  { intros r j E. destruct (H3 r j E) as [? | ->]; done. }
  split.
  - by apply lookup_app_l_Some.
  - intros r r' j j' Hr E E'. apply lookup_app_Some in E as [E|[Hge E]], E' as [E'|[Hge' E']]
      || (apply lookup_app_Some in E; apply lookup_app_Some in E'; destruct E as [E|[Hge E]], E' as [E'|[Hge' E']]).
    + by apply (H2 r r').
    + apply list_lookup_singleton_Some in E' as [_ <-]. by eapply Hlt.
    + pose proof (lookup_lt_Some _ _ _ E'). lia.
    + apply list_lookup_singleton_Some in E as [? <-]. apply list_lookup_singleton_Some in E' as [? <-]. lia.
  - intros r j E. rewrite length_app. simpl. left. apply lookup_app_Some in E as [E|[_ E]].
    + specialize (Hlt r j E). lia.
    + apply list_lookup_singleton_Some in E as [_ <-]. lia.
  - intros r j d Er Ed. apply lookup_app_Some in Er as [Er|[_ Er]].
    + rewrite lookup_app_l in Ed by (by eapply Hlt). by eapply H4.
    + apply list_lookup_singleton_Some in Er as [_ <-]. rewrite lookup_app_r, Nat.sub_diag in Ed by lia.
      simpl in Ed. by injection Ed as <-.
Qed.

Lemma layout_snoc bs e : layout (bs ++ [e]) = layout bs ++ enc_entry e.
Proof. rewrite layout_app. unfold layout at 2. simpl. by rewrite app_nil_r. Qed.

Lemma BlockAdd_inv b bs ri k v :
  builder_inv b bs ri -> 1 <= interval ->
  (bs <> [] -> key_lt cmp (last_key_of bs) k) -> (bs <> [] -> valid (last_key_of bs)) -> valid k ->
  Z.of_nat (length k) < 2 ^ 32 -> Z.of_nat (length v) < 2 ^ 32 ->
  exists b' sh ri', BlockAdd cmp interval k v b = Some b' /\ builder_inv b' (bs ++ [BEnc sh (k, v)]) ri'.
Proof.
  intros [Hb Hw Hr Hle [Hc Hc0] Hf Hl Hch] Hi Hlt Hvl Hvk Hk Hv. unfold BlockAdd. rewrite Hf.
  destruct (Z.leb_spec (counter_ b) interval); [|lia].
  assert (key_in_order cmp b k = true) as ->.
  { unfold key_in_order, block_empty. rewrite Hb, Hl.
    destruct (decide (bs = [])) as [->|Hne]; [done|]. apply orb_true_iff. right.
    destruct (Hlt Hne) as (x & E & Hx). destruct (compare_defined k (last_key_of bs) Hvk (Hvl Hne)) as [y Ey].
    rewrite Ey. pose proof (compare_antisym _ _ _ _ E Ey). destruct (Z.ltb_spec 0 y); [done|lia]. }
  simpl andb. cbv iota. rewrite Hl.
  set (sh := if counter_ b <? interval then count_shared (last_key_of bs) k else 0%nat).
  assert (take sh (last_key_of bs) = take sh k /\ (sh <= length (last_key_of bs))%nat /\ (sh <= length k)%nat) as (Hs1 & Hs2 & Hs3).
  { unfold sh. destruct (counter_ b <? interval); [apply count_shared_spec|]. split_and!; [done|lia|lia]. }
  set (e := BEnc sh (k, v)).
  assert (PutVarint32 (PutVarint32 (PutVarint32 (buffer_ b) (u32 (Z.of_nat sh))) (u32 (Z.of_nat (length k - sh))))
    (u32 (Z.of_nat (length v))) ++ take (length k - sh) (drop sh k) = layout bs ++ size_varint sh ++ size_varint (length k - sh) ++ size_varint (length v) ++ drop sh k) as Ebuf.
  { unfold PutVarint32, size_varint. rewrite Hb, !u32_id by lia. rewrite take_ge by (rewrite length_drop; lia).
    by rewrite <- !app_assoc. }
  assert (take sh (last_key_of bs) ++ take (length k - sh) (drop sh k) = k) as Ekey.
  { rewrite Hs1, (take_ge (drop sh k)) by (rewrite length_drop; lia). apply take_drop. }
  assert (forall ri0, Forall (fun j => j <= length bs)%nat ri0 -> wrapped_words (bs ++ [e]) ri0 = wrapped_words bs ri0) as Eww.
  { intros ri0 H0. unfold wrapped_words. apply map_ext_in. intros j Hj. rewrite List.Forall_forall in H0.
    by rewrite offset_app by (by apply H0). }
  assert (chained [] (bs ++ [e])) as Hch'.
  { apply chained_snoc; [done| |done]. by split. }
  assert (last_key_of (bs ++ [e]) = k) as Elast by (unfold last_key_of; by rewrite last_snoc).
  assert (layout bs ++ enc_entry e = (layout bs ++ size_varint sh ++ size_varint (length k - sh) ++ size_varint (length v) ++ drop sh k) ++ v) as Elay.
  { unfold enc_entry. simpl. by rewrite <- !app_assoc. }
  destruct (Z.ltb_spec (counter_ b) interval) as [Hcl|Hcl]; cbv zeta.
  - fold sh. change (count_shared (last_key_of bs) k) with sh. rewrite Ekey, bool_decide_true by done. rewrite Ebuf.
    eexists _, sh, ri. split; [done|]. fold e. split; cbn [buffer_ Block.restarts_ counter_ finished_ last_key_]; try done.
    + by rewrite layout_snoc.
    + by rewrite Eww.
    + apply restarts_ok_snoc; [done| |done]. intros ->. simpl in Hs2. simpl. lia.
    + eapply Forall_impl; [exact Hle|]. intros j Hj. simpl in *. rewrite length_app. lia.
    + split; [lia|]. intros E. by destruct bs.
  - assert (bs <> []) as Hne by (intros ->; rewrite Hc0 in Hcl by done; lia).
    change 0%nat with sh. rewrite Ekey, bool_decide_true by done. rewrite Ebuf.
    eexists _, sh, (ri ++ [length bs]). split; [done|]. fold e.
    assert (Forall (fun j => j <= length bs)%nat (ri ++ [length bs])) as Hle' by (apply Forall_app; split; [done|by constructor]).
    split; cbn [buffer_ Block.restarts_ counter_ finished_ last_key_]; try done.
    + by rewrite layout_snoc.
    + rewrite Eww by done. unfold wrapped_words. rewrite map_app. simpl. by rewrite offset_all, Hw, Hb.
    + by apply restarts_ok_restart.
    + eapply Forall_impl; [exact Hle'|]. intros j Hj. simpl in *. rewrite length_app. lia.
    + split; [lia|]. intros E. by destruct bs.
Qed.

Fixpoint add_entries (es : list entry) (b : BlockBuilder) : option BlockBuilder :=
  match es with
  | [] => Some b
  | e :: es' => match BlockAdd cmp interval e.1 e.2 b with Some b => add_entries es' b | None => None end
  end.

Definition entry_fits (e : entry) : Prop :=
  valid e.1 /\ Z.of_nat (length e.1) < 2 ^ 32 /\ Z.of_nat (length e.2) < 2 ^ 32.

Lemma last_key_entry bs e : last bs = Some e -> exists i, bs !! i = Some e /\ S i = length bs /\ last_key_of bs = be_key e.
Proof.
  intros E. exists (pred (length bs)). unfold last_key_of. rewrite E. rewrite last_lookup in E. split_and!; [done| |done].
  pose proof (lookup_lt_Some _ _ _ E). lia.
Qed.

Lemma add_entries_inv es b bs ri :
  1 <= interval -> builder_inv b bs ri -> keys_sorted cmp (map be_entry bs ++ es) ->
  Forall entry_fits (map be_entry bs) -> Forall entry_fits es ->
  exists b' bs' ri', add_entries es b = Some b' /\ builder_inv b' bs' ri' /\ map be_entry bs' = map be_entry bs ++ es.
Proof.
  intros Hi. revert b bs ri. induction es as [|[k v] es IH]; intros b bs ri Hb Hs Hf Hf'.
  { exists b, bs, ri. by rewrite app_nil_r. }
  inversion Hf' as [|? ? [Hvk [Hk Hv]] Hes]; subst. simpl in Hvk, Hk, Hv.
  assert (bs <> [] -> exists i e, bs !! i = Some e /\ S i = length bs /\ last_key_of bs = be_key e) as Hlast.
  { intros Hne. destruct (last bs) as [e|] eqn:El; [|by apply last_None in El].
    destruct (last_key_entry bs e El) as (i & ? & ? & ?). by exists i, e. }
  destruct (BlockAdd_inv b bs ri k v) as (b1 & sh & ri1 & E1 & H1); try done.
  - intros (i & e & Ee & Eb & ->)%Hlast. apply (Hs i (length bs) (be_entry e) (k, v)); [lia| |].
    + apply lookup_app_l_Some. by rewrite list_lookup_fmap, Ee.
    + apply list_lookup_middle. by rewrite length_map.
  - intros (i & e & Ee & _ & ->)%Hlast. rewrite Forall_lookup in Hf.
    destruct (Hf i (be_entry e)) as [? _]; [by rewrite list_lookup_fmap, Ee|done].
  - assert (map be_entry (bs ++ [BEnc sh (k, v)]) = map be_entry bs ++ [(k, v)]) as Em by by rewrite map_app.
    destruct (IH b1 (bs ++ [BEnc sh (k, v)]) ri1 H1) as (b' & bs' & ri' & E' & H' & Eb); try done.
    + rewrite Em, <- app_assoc. done.
    + rewrite Em. apply Forall_app. split; [done|]. by repeat constructor.
    + exists b', bs', ri'. simpl. rewrite E1. split_and!; [done|done|]. by rewrite Eb, Em, <- app_assoc.
Qed.

Lemma BlockFinish_contents b bs ri :
  builder_inv b bs ri -> Z.of_nat (length (BlockFinish le b).1) < 2 ^ 32 ->
  (BlockFinish le b).1 = block_contents bs ri.
Proof.
  intros [Hb Hw Hr Hle _ _ _ _]. unfold BlockFinish. simpl. unfold PutFixed32.
  rewrite put_restarts_spec, EncodeFixed32_spec, Hb, Hw. unfold wrapped_words. rewrite !length_app, length_fixed32s, !length_map, length_le_split.
  intros Hsz. unfold block_contents. rewrite <- app_assoc, u32_id by lia. do 2 f_equal. unfold block_words. f_equal.
  apply map_ext_in. intros j Hj. rewrite List.Forall_forall in Hle.
  pose proof (offset_mono bs j (length bs) (conj (Hle j Hj) (Nat.le_refl _))) as Ho. rewrite offset_all in Ho.
  apply u32_id. lia.
Qed.

Lemma new_Block_contents bs ri :
  block_ok bs ri ->
  new_Block le (block_contents bs ri) =
    Some (BlockAt (block_contents bs ri) (Z.of_nat (length (block_contents bs ri))) (Z.of_nat (length (layout bs)))) /\
  NewBlockIterator le (BlockAt (block_contents bs ri) (Z.of_nat (length (block_contents bs ri))) (Z.of_nat (length (layout bs)))) =
    Some (inr (BkIter (block_contents bs ri) (Z.of_nat (length (layout bs))) (Z.of_nat (length ri))
      (Z.of_nat (length (layout bs))) (Z.of_nat (length ri)) [] None OK)).
Proof.
  intros Hok. pose proof (bo_size _ _ Hok) as Hsz. rewrite length_block_contents in Hsz.
  pose proof (lookup_lt_Some _ _ _ (ro_first _ _ (bo_restarts _ _ Hok))) as Hpos.
  unfold new_Block, NewBlockIterator. simpl block_size. simpl block_data. rewrite length_block_contents. cbv zeta.
  set (L := length (layout bs)) in *. set (N := length ri) in *.
  destruct (Z.ltb_spec (Z.of_nat (L + 4 * N + 4)) 4); [lia|].
  assert (NumRestarts le (block_contents bs ri) (Z.of_nat (L + 4 * N + 4)) = Some (Z.of_nat N)) as ->.
  { unfold NumRestarts. destruct (Z.leb_spec 4 (Z.of_nat (L + 4 * N + 4))); [|lia].
    unfold block_contents. rewrite app_assoc, drop_app_length'.
    - rewrite <- (app_nil_r (le_split 4 _)). apply DecodeFixed32_split. unfold N in *. lia.
    - rewrite length_app, length_fixed32s. unfold block_words. rewrite length_map. fold L N. lia. }
  split.
  - destruct (Z.ltb_spec ((Z.of_nat (L + 4 * N + 4) - 4) / 4) (Z.of_nat N)) as [Hlt|_].
    { exfalso. pose proof (Z.div_le_lower_bound (Z.of_nat (L + 4 * N + 4) - 4) 4 (Z.of_nat N)). lia. }
    do 2 f_equal. rewrite (u32_id (1 + Z.of_nat N)) by lia. rewrite u32_id; lia.
  - destruct (Z.eqb_spec (Z.of_nat N) 0); [lia|]. unfold new_BlockIter.
    by destruct (Z.ltb_spec 0 (Z.of_nat N)); [|lia].
Qed.

(** C12. Building a block from entries with increasing keys
    succeeds for every restart interval, and the iterator over the finished block
    is an iterator over exactly those entries, for every way of moving it: prefix
    compression, restart points and the binary search included, and the empty
    block. It terminates and never reads outside the block. *)
Theorem block_roundtrip es :
  1 <= interval -> Forall entry_fits es -> keys_sorted cmp es ->
  exists b0 b, new_BlockBuilder interval = Some b0 /\ add_entries es b0 = Some b /\
    let contents := (BlockFinish le b).1 in
    (Z.of_nat (length contents) < 2 ^ 32 ->
     exists blk it at_pos, new_Block le contents = Some blk /\ NewBlockIterator le blk = Some (inr it) /\
       IteratorOk (Block_Iter le cmp) cmp valid es at_pos /\ at_pos it None).
Proof.
  intros Hi Hf Hs. destruct (builder_inv_new Hi) as (b0 & E0 & H0).
  destruct (add_entries_inv es b0 [] [0%nat] Hi H0 Hs ltac:(constructor) Hf) as (b & bs & ri & E & H & Em).
  simpl in Em. exists b0, b. split_and!; [done|done|]. cbv zeta. intros Hsz.
  pose proof (BlockFinish_contents b bs ri H Hsz) as Ec. rewrite Ec in Hsz |- *.
  assert (Forall (fun e => entry_fits (be_entry e)) bs) as Hfits.
  { rewrite <- Em in Hf. apply List.Forall_forall. intros e He. rewrite List.Forall_forall in Hf. by apply Hf, in_map. }
  assert (block_ok bs ri) as Hok.
  { split; [apply H|apply H|done|]. eapply Forall_impl; [exact Hfits|]. intros e (_ & ? & _). done. }
  destruct (new_Block_contents bs ri Hok) as [Eb Ei].
  eexists _, _, (block_pos (bs := bs) (ri := ri)). split; [exact Eb|]. split; [exact Ei|]. split.
  - rewrite <- Em in Hs |- *.
    assert (Forall (fun e => valid (be_key e)) bs) as Hv by (eapply Forall_impl; [exact Hfits|]; by intros e []).
    exact (Block_Iter_ok (Hok := Hok) (Hvalid := Hv) (Hsorted := Hs)).
  - by split.
Qed.
End Builder.
