(* ===== verification/CrcProps.v ===== *)
(** * CRC-32C: the tables and the loops compute the polynomial division *)
From S2P Require Import Prelude Varint Coding CodingProps Crc.

(** ** The reference: one bit at a time, reflected polynomial 0x82f63b78 *)

Definition crc_bit (l : Z) : Z :=
  if Z.odd l then Z.lxor (Z.shiftr l 1) 0x82f63b78 else Z.shiftr l 1.

Definition crc_shift (n : nat) (l : Z) : Z := Nat.iter n crc_bit l.
Arguments crc_shift n l : simpl never.

Definition crc_update (l : Z) (bs : list byte) : Z :=
  fold_left (fun l b => crc_shift 8 (Z.lxor l (byte_val b))) bs l.

Definition crc32c (crc : Z) (bs : list byte) : Z := Z.lxor (crc_update (Z.lxor crc 0xffffffff) bs) 0xffffffff.

(** ** The reference is linear *)

Lemma lxor_swap a b c d : Z.lxor (Z.lxor a b) (Z.lxor c d) = Z.lxor (Z.lxor a c) (Z.lxor b d).
Proof. rewrite !Z.lxor_assoc. f_equal. rewrite <- !Z.lxor_assoc. f_equal. apply Z.lxor_comm. Qed.

Lemma odd_lxor a b : Z.odd (Z.lxor a b) = xorb (Z.odd a) (Z.odd b).
Proof. rewrite <- !Z.bit0_odd. apply Z.lxor_spec. Qed.

Lemma crc_bit_lxor a b : crc_bit (Z.lxor a b) = Z.lxor (crc_bit a) (crc_bit b).
Proof.
  unfold crc_bit. rewrite odd_lxor, Z.shiftr_lxor. destruct (Z.odd a), (Z.odd b); simpl xorb; cbv iota.
  - by rewrite lxor_swap, Z.lxor_nilpotent, Z.lxor_0_r.
  - rewrite !Z.lxor_assoc. f_equal. apply Z.lxor_comm.
  - by rewrite Z.lxor_assoc.
  - done.
Qed.

Lemma crc_shift_lxor n a b : crc_shift n (Z.lxor a b) = Z.lxor (crc_shift n a) (crc_shift n b).
Proof. unfold crc_shift. induction n as [|n IH]; simpl; [done|]. by rewrite IH, crc_bit_lxor. Qed.

Lemma crc_shift_add m n l : crc_shift (m + n) l = crc_shift m (crc_shift n l).
Proof. unfold crc_shift. apply Nat.iter_add. Qed.

(** Bits that have not reached the low end are only shifted. *)
Lemma crc_shift_shiftl n x : crc_shift n (Z.shiftl x (Z.of_nat n)) = x.
Proof.
  induction n as [|n IH]; [apply Z.shiftl_0_r|]. rewrite <- Nat.add_1_r, crc_shift_add. unfold crc_shift at 2. simpl.
  unfold crc_bit. rewrite Z.shiftl_mul_pow2 by lia.
  replace (x * 2 ^ Z.of_nat (n + 1)) with (2 * (x * 2 ^ Z.of_nat n))
    by (rewrite Nat2Z.inj_add, Z.pow_add_r by lia; change (2 ^ Z.of_nat 1) with 2; ring).
  rewrite Z.odd_mul. simpl. rewrite Z.shiftr_div_pow2 by lia. change (2 ^ 1) with 2.
  rewrite Z.mul_comm, Z.div_mul by lia. by rewrite <- Z.shiftl_mul_pow2 by lia.
Qed.

Definition word (l : Z) : Prop := 0 <= l < 2 ^ 32.

Lemma lxor_word a b : word a -> word b -> word (Z.lxor a b).
Proof. by apply lxor_range. Qed.

Lemma shiftr_word l n : word l -> 0 <= n -> word (Z.shiftr l n).
Proof.
  intros [H0 H1] Hn. rewrite Z.shiftr_div_pow2 by done. assert (0 < 2 ^ n) by (apply Z.pow_pos_nonneg; lia).
  split; [apply Z.div_pos; lia|]. apply Z.le_lt_trans with l; [|done]. apply Z.div_le_upper_bound; nia.
Qed.

Lemma crc_shift_word n l : word l -> word (crc_shift n l).
Proof.
  intros Hl. unfold crc_shift. induction n as [|n IH]; simpl; [done|]. unfold crc_bit.
  destruct (Z.odd _); [apply lxor_word; [|done]|]; apply shiftr_word; (done || lia).
Qed.

Lemma byte_word b : word (byte_val b).
Proof. pose proof (byte_val_range b). split; lia. Qed.

Lemma crc_update_word l bs : word l -> word (crc_update l bs).
Proof.
  revert l. induction bs as [|b bs IH]; intros l Hl; simpl; [done|]. apply IH, crc_shift_word, lxor_word; [done|].
  apply byte_word.
Qed.

(** Several bytes at once: the little-endian number they are. *)
Lemma le_combine_lxor b bs : le_combine (b :: bs) = Z.lxor (byte_val b) (Z.shiftl (le_combine bs) 8).
Proof.
  rewrite le_combine_cons. symmetry. apply Z.lxor_lor, Z.bits_inj'. intros i Hi. rewrite Z.land_spec, Z.bits_0.
  destruct (decide (i < 8)).
  - rewrite Z.shiftl_spec_low by lia. apply andb_false_r.
  - by rewrite (Z_testbit_high _ i 8) by (pose proof (byte_val_range b); lia).
Qed.

Lemma crc_update_combine l bs : crc_update l bs = crc_shift (8 * length bs) (Z.lxor l (le_combine bs)).
Proof.
  revert l. induction bs as [|b bs IH]; intros l.
  { simpl. by rewrite Z.lxor_0_r. }
  cbn [crc_update fold_left length]. fold (crc_update (crc_shift 8 (Z.lxor l (byte_val b))) bs). rewrite IH.
  replace (8 * S (length bs))%nat with (8 * length bs + 8)%nat by lia. rewrite crc_shift_add. f_equal.
  rewrite le_combine_lxor, <- Z.lxor_assoc, (crc_shift_lxor 8 (Z.lxor l _)). f_equal. symmetry. apply (crc_shift_shiftl 8).
Qed.

(** ** The tables *)

Definition table_spec (t : list Z) (n : nat) : bool :=
  forallb (fun c => table t (Z.of_nat c) =? crc_shift n (Z.of_nat c)) (seq 0 256).

Lemma tables_checked :
  table_spec table0_ 8 && table_spec table1_ 16 && table_spec table2_ 24 && table_spec table3_ 32 = true.
Proof. vm_compute. done. Qed.

Lemma table_lookup t n c : table_spec t n = true -> 0 <= c < 256 -> table t c = crc_shift n c.
Proof.
  intros Ht Hc. unfold table_spec in Ht. rewrite forallb_forall in Ht.
  specialize (Ht (Z.to_nat c)). rewrite Z2Nat.id in Ht by lia. apply Z.eqb_eq, Ht. apply in_seq. lia.
Qed.

Lemma table_entries c : 0 <= c < 256 ->
  table table0_ c = crc_shift 8 c /\ table table1_ c = crc_shift 16 c /\
  table table2_ c = crc_shift 24 c /\ table table3_ c = crc_shift 32 c.
Proof.
  intros Hc. pose proof tables_checked as H. rewrite !andb_true_iff in H. destruct H as [[[H0 H1] H2] H3].
  split_and!; by apply table_lookup.
Qed.

(** ** The steps *)

Lemma land_255_range l : 0 <= Z.land l 0xff < 256.
Proof. change 0xff with (Z.ones 8). rewrite Z.land_ones by lia. by apply Z.mod_pos_bound. Qed.

(** A number is its low bits and the rest. *)
Lemma split_low l n : 0 <= n -> l = Z.lxor (Z.land l (Z.ones n)) (Z.shiftl (Z.shiftr l n) n).
Proof.
  intros Hn. apply Z.bits_inj'. intros i Hi. rewrite Z.lxor_spec, Z.land_spec, Z.testbit_ones by done.
  destruct (Z.leb_spec 0 i); [|lia]. simpl. destruct (Z.ltb_spec i n).
  - rewrite Z.shiftl_spec_low by lia. by rewrite andb_true_r, xorb_false_r.
  - rewrite Z.shiftl_spec, Z.shiftr_spec by lia. rewrite andb_false_r, xorb_false_l. f_equal. lia.
Qed.

Lemma crc_shift_split n m c :
  crc_shift (n + 8 * m) (Z.shiftl c (8 * Z.of_nat m)) = crc_shift n c.
Proof. rewrite crc_shift_add. f_equal. rewrite <- (crc_shift_shiftl (8 * m) c) at 2. do 2 f_equal. lia. Qed.

Lemma STEP1_spec l b p : word l -> STEP1 l (b :: p) = Some (crc_shift 8 (Z.lxor l (byte_val b)), p).
Proof.
  intros Hl. unfold STEP1. cbv zeta. do 2 f_equal.
  destruct (table_entries (Z.lxor (Z.land l 0xff) (byte_val b))) as [-> _].
  { apply (lxor_range 8); [done|apply land_255_range|apply byte_val_range]. }
  assert (crc_shift 8 l = Z.lxor (crc_shift 8 (Z.land l 0xff)) (Z.shiftr l 8)) as E.
  { rewrite (split_low l 8) at 1 by done. rewrite crc_shift_lxor. f_equal. apply (crc_shift_shiftl 8). }
  rewrite !crc_shift_lxor, E, !Z.lxor_assoc. f_equal. apply Z.lxor_comm.
Qed.

(** The four bytes of a word. *)
Lemma split_bytes c : word c ->
  c = Z.lxor (Z.lxor (Z.lxor (Z.land c 0xff) (Z.shiftl (Z.land (Z.shiftr c 8) 0xff) 8))
        (Z.shiftl (Z.land (Z.shiftr c 16) 0xff) 16)) (Z.shiftl (Z.shiftr c 24) 24).
Proof.
  intros Hc. pose proof (split_low c 8 ltac:(done)) as E0.
  pose proof (split_low (Z.shiftr c 8) 8 ltac:(done)) as E1. pose proof (split_low (Z.shiftr c 16) 8 ltac:(done)) as E2.
  change (Z.ones 8) with 0xff in *. rewrite Z.shiftr_shiftr in E1, E2 by lia. change (8 + 8) with 16 in E1.
  change (16 + 8) with 24 in E2. rewrite E2 in E1. rewrite E1 in E0. rewrite !Z.shiftl_lxor, !Z.shiftl_shiftl in E0 by lia.
  rewrite !Z.lxor_assoc. exact E0.
Qed.

Lemma STEP4_spec le l b0 b1 b2 b3 p : word l ->
  STEP4 le l (b0 :: b1 :: b2 :: b3 :: p) = Some (crc_update l [b0; b1; b2; b3], p).
Proof.
  intros Hl. unfold STEP4, LE_LOAD32.
  rewrite (DecodeFixed32_spec le [b0; b1; b2; b3] p eq_refl : DecodeFixed32 le (b0 :: b1 :: b2 :: b3 :: p) = _).
  cbv zeta. do 2 f_equal. rewrite crc_update_combine. simpl length.
  set (w := le_combine [b0; b1; b2; b3]).
  assert (word w) as Hw by (unfold w; pose proof (le_combine_bound [b0; b1; b2; b3]); done).
  set (c := Z.lxor l w). assert (word c) as Hc by by apply lxor_word.
  destruct (table_entries _ (land_255_range c)) as (_ & _ & _ & ->).
  destruct (table_entries _ (land_255_range (Z.shiftr c 8))) as (_ & _ & -> & _).
  destruct (table_entries _ (land_255_range (Z.shiftr c 16))) as (_ & -> & _ & _).
  destruct (table_entries (Z.shiftr c 24)) as (-> & _).
  { rewrite Z.shiftr_div_pow2 by lia. destruct Hc. split; [apply Z.div_pos; lia|apply Z.div_lt_upper_bound; lia]. }
  rewrite (split_bytes c Hc) at 5. rewrite !crc_shift_lxor. change (8 * 4)%nat with 32%nat.
  f_equal; [f_equal; [f_equal|]|]; symmetry.
  - exact (crc_shift_split 24 1 _).
  - exact (crc_shift_split 16 2 _).
  - exact (crc_shift_split 8 3 _).
Qed.

(** ** The loops *)

Lemma crc_update_app l a b : crc_update l (a ++ b) = crc_update (crc_update l a) b.
Proof. apply fold_left_app. Qed.

(** A step that processes [n] bytes. *)
Definition processes (n : nat) (step : Z -> list byte -> option (Z * list byte)) : Prop :=
  forall l a p, word l -> length a = n -> step l (a ++ p) = Some (crc_update l a, p).

Lemma STEP1_processes : processes 1 STEP1.
Proof. intros l [|b [|]] p Hl Ha; try done. by apply STEP1_spec. Qed.

Lemma STEP4_processes le : processes 4 (STEP4 le).
Proof. intros l [|b0 [|b1 [|b2 [|b3 [|]]]]] p Hl Ha; try done. by apply STEP4_spec. Qed.

Lemma steps_processes n step k : processes n step -> processes (k * n) (steps step k).
Proof.
  intros Hs. induction k as [|k IH]; intros l a p Hl Ha; simpl.
  { by destruct a. }
  rewrite <- (take_drop n a), <- app_assoc, crc_update_app.
  rewrite (Hs l (take n a)) by (done || rewrite length_take; simpl in Ha; lia).
  apply IH; [by apply crc_update_word|]. rewrite length_drop. simpl in Ha. lia.
Qed.

Lemma while_bytes_spec n step fuel l p :
  processes n step -> (0 < n)%nat -> word l -> (length p <= fuel)%nat ->
  exists a r, p = a ++ r /\ while_bytes n step fuel l p = Some (crc_update l a, r) /\ (length r < n)%nat.
Proof.
  intros Hs Hn. revert l p. induction fuel as [|fuel IH]; intros l p Hl Hf; cbn [while_bytes];
    destruct (Nat.leb_spec n (length p)) as [Hle|Hlt]; try lia.
  1, 3: exists [], p; split_and!; [done|done|lia].
  pose proof (Hs l (take n p) (drop n p) Hl ltac:(rewrite length_take; lia)) as Es. rewrite take_drop in Es. rewrite Es.
  destruct (IH (crc_update l (take n p)) (drop n p)) as (a & r & Ep & E & Hr).
  { by apply crc_update_word. }
  { rewrite length_drop. lia. }
  exists (take n p ++ a), r. rewrite E, crc_update_app. split_and!; [|done|done].
  by rewrite <- app_assoc, <- Ep, take_drop.
Qed.

Lemma Extend_crc32c le pval crc buf : 0 <= pval -> word crc -> Extend le pval crc buf = Some (crc32c crc buf).
Proof.
  intros Hp Hc. unfold Extend. change CanAccelerateCRC32C with false. cbv iota zeta. unfold crc32c.
  set (l0 := Z.lxor crc 0xffffffff). assert (word l0) as Hl0 by by apply lxor_word.
  set (x := Z.shiftl (Z.shiftr (pval + 3) 2) 2).
  assert (pval <= x) as Hx.
  { unfold x. rewrite Z.shiftr_div_pow2, Z.shiftl_mul_pow2 by lia. change (2 ^ 2) with 4.
    pose proof (Z.div_mod (pval + 3) 4). pose proof (Z.mod_pos_bound (pval + 3) 4). lia. }
  assert (exists a r, buf = a ++ r /\
    (if x <=? pval + Z.of_nat (length buf) then steps STEP1 (Z.to_nat (x - pval)) l0 buf else Some (l0, buf))
      = Some (crc_update l0 a, r)) as (a0 & r0 & E0 & ->).
  { destruct (Z.leb_spec x (pval + Z.of_nat (length buf))) as [Hle|]; [|by exists [], buf].
    set (k := Z.to_nat (x - pval)). exists (take k buf), (drop k buf). split; [by rewrite take_drop|].
    rewrite <- (take_drop k buf) at 1. apply (steps_processes 1 STEP1 k STEP1_processes); [done|].
    rewrite length_take. unfold k. lia. }
  destruct (while_bytes_spec 16 (steps (STEP4 le) 4) (length r0) (crc_update l0 a0) r0) as (a1 & r1 & E1 & -> & _);
    [exact (steps_processes 4 (STEP4 le) 4 (STEP4_processes le))|lia|by apply crc_update_word|done|].
  rewrite <- crc_update_app.
  destruct (while_bytes_spec 4 (STEP4 le) (length r1) (crc_update l0 (a0 ++ a1)) r1) as (a2 & r2 & E2 & -> & _);
    [apply STEP4_processes|lia|by apply crc_update_word|done|].
  rewrite <- crc_update_app.
  destruct (while_bytes_spec 1 STEP1 (length r2) (crc_update l0 ((a0 ++ a1) ++ a2)) r2) as (a3 & r3 & E3 & -> & Hr3);
    [apply STEP1_processes|lia|by apply crc_update_word|done|].
  rewrite <- crc_update_app. destruct r3; [|simpl in Hr3; lia]. rewrite app_nil_r in E3.
  do 3 f_equal. by rewrite E0, E1, E2, E3, !app_assoc.
Qed.

Lemma crc32c_word crc bs : word crc -> word (crc32c crc bs).
Proof. intros Hc. apply lxor_word; [|done]. by apply crc_update_word, lxor_word. Qed.

Lemma crc32c_app crc a b : crc32c crc (a ++ b) = crc32c (crc32c crc a) b.
Proof.
  unfold crc32c. rewrite crc_update_app. do 2 f_equal. rewrite Z.lxor_assoc, Z.lxor_nilpotent, Z.lxor_0_r. done.
Qed.

(** C21. At every address, [Extend] returns the CRC-32C of the data by
    polynomial division, bit by bit, so checksums can be extended piece by
    piece. *)
Theorem Extend_spec le pval crc a b :
  0 <= pval -> 0 <= crc < 2 ^ 32 ->
  Extend le pval crc (a ++ b) = Some (crc32c crc (a ++ b)) /\
  exists c, Extend le pval crc a = Some c /\ Extend le (pval + Z.of_nat (length a)) c b = Some (crc32c crc (a ++ b)).
Proof.
  intros Hp Hc. split; [by apply Extend_crc32c|]. exists (crc32c crc a). split; [by apply Extend_crc32c|].
  rewrite crc32c_app. apply Extend_crc32c; [lia|by apply crc32c_word].
Qed.

(** ** Masking *)

Lemma rotate_back c n : word c -> 0 < n < 32 ->
  let r := Z.lor (Z.shiftr c n) (u32 (Z.shiftl c (32 - n))) in
  word r /\ Z.lor (Z.shiftr r (32 - n)) (u32 (Z.shiftl r n)) = c.
Proof.
  intros Hc Hn r.
  assert (forall i, 0 <= i -> Z.testbit r i = if i <? 32 then Z.testbit c ((i + n) mod 32) else false) as Hr.
  { intros i Hi. unfold r, u32. rewrite Z.lor_spec, Z.shiftr_spec by done.
    destruct (Z.ltb_spec i 32) as [Hi'|Hi'].
    - rewrite Z.mod_pow2_bits_low by done. destruct (Z.ltb_spec i (32 - n)).
      + rewrite Z.shiftl_spec_low, orb_false_r, Z.mod_small by lia. done.
      + rewrite Z.shiftl_spec by done. rewrite (Z_testbit_high c (i + n) 32) by (destruct Hc; lia). simpl.
        f_equal. rewrite <- (Z.mod_add _ (-1)), Z.mod_small by lia. lia.
    - rewrite Z.mod_pow2_bits_high by lia. by rewrite (Z_testbit_high c (i + n) 32) by (destruct Hc; lia). }
  assert (0 <= r) as Hr0.
  { unfold r. apply Z.lor_nonneg. split; [apply Z.shiftr_nonneg; destruct Hc; lia|apply u32_range]. }
  assert (word r) as Hw.
  { split; [done|]. apply Z.nle_gt. intros Hge. destruct (decide (r = 0)) as [E|E]; [lia|].
    pose proof (Z.bit_log2 r ltac:(lia)) as Hb. rewrite Hr in Hb by apply Z.log2_nonneg.
    assert (32 <= Z.log2 r) by (apply Z.log2_le_pow2; lia). destruct (Z.ltb_spec (Z.log2 r) 32); [lia|done]. }
  split; [done|]. apply Z.bits_inj'. intros i Hi. rewrite Z.lor_spec, Z.shiftr_spec by done. unfold u32.
  destruct (Z.ltb_spec i 32) as [Hi'|Hi'].
  - rewrite Z.mod_pow2_bits_low by done. destruct (Z.ltb_spec i n).
    + rewrite Z.shiftl_spec_low, orb_false_r, Hr by lia. destruct (Z.ltb_spec (i + (32 - n)) 32); [|lia].
      f_equal. replace (i + (32 - n) + n) with (i + 1 * 32) by lia. rewrite Z.mod_add, Z.mod_small by lia. done.
    + rewrite Z.shiftl_spec, !Hr by lia. destruct (Z.ltb_spec (i + (32 - n)) 32); [lia|]. simpl.
      destruct (Z.ltb_spec (i - n) 32); [|lia]. f_equal. rewrite Z.mod_small; lia.
  - rewrite Z.mod_pow2_bits_high by lia. rewrite (Z_testbit_high c i 32) by (destruct Hc; lia).
    rewrite Hr by lia. destruct (Z.ltb_spec (i + (32 - n)) 32); [lia|done].
Qed.

Lemma Unmask_Mask crc : word crc -> Unmask (Mask crc) = crc /\ word (Mask crc).
Proof.
  intros Hc. unfold Unmask, Mask. cbv zeta. destruct (rotate_back crc 15 Hc ltac:(lia)) as [Hw Hr]. cbv zeta in Hw, Hr.
  change (32 - 15) with 17 in *.
  set (r := Z.lor (Z.shiftr crc 15) (u32 (Z.shiftl crc 17))) in *.
  assert (u32 (u32 (r + kMaskDelta) - kMaskDelta) = r) as ->.
  { unfold u32. rewrite Zminus_mod_idemp_l. replace (r + kMaskDelta - kMaskDelta) with r by lia. by apply Z.mod_small. }
  split; [exact Hr|apply u32_range].
Qed.
