(* ===== verification/Interfaces.v ===== *)
(** * The interfaces of files and caches: include/leveldb/env.h, include/leveldb/cache.h

    The file objects come from outside the modelled code; a file is a state of
    some type with the methods of its class, and the contracts say what the
    documentation of the methods promises when there are no errors.  The
    in-memory files are instances for which the contracts hold. *)
From S2P Require Import Prelude Status.

Class WritableFile (F : Type) := {
  Append : F -> list byte -> Status * F;
  Flush : F -> Status * F;
}.

(** [Read] gives the bytes that were read, up to [n] of them. *)
Class SequentialFile (F : Type) := {
  Read : F -> Z -> Status * list byte * F;
  Skip : F -> Z -> Status * F;
}.

(** [Read] of a random-access file changes nothing; besides the bytes it says whether they are in
    the scratch buffer of the caller or in memory of the file. *)
Class RandomAccessFile (F : Type) := {
  ReadAt : F -> Z -> Z -> Status * list byte * bool;
}.

(** Everything that is appended goes to the end of the file. *)
Class WritableFileOk {F} (w : WritableFile F) (contents : F -> list byte) := {
  append_ok f data : exists f', Append f data = (OK, f') /\ contents f' = contents f ++ data;
  flush_ok f : exists f', Flush f = (OK, f') /\ contents f' = contents f;
}.

(** Fewer than [n] bytes are read only at the end of the file. *)
Class SequentialFileOk {F} (s : SequentialFile F) (rest : F -> list byte) := {
  read_ok f n : 0 <= n -> exists f', Read f n = (OK, take (Z.to_nat n) (rest f), f') /\ rest f' = drop (Z.to_nat n) (rest f);
  skip_ok f n : 0 <= n -> exists f', Skip f n = (OK, f') /\ rest f' = drop (Z.to_nat n) (rest f);
}.

(** Fewer than [n] bytes are read only at the end of the file. *)
Class RandomAccessFileOk {F} (r : RandomAccessFile F) (contents : F -> list byte) := {
  read_at_ok f offset n : 0 <= offset -> 0 <= n ->
    exists scratch, ReadAt f offset n = (OK, take (Z.to_nat n) (drop (Z.to_nat offset) (contents f)), scratch);
}.

(** ** Files in memory *)

Definition MemFile : Type := list byte.

#[export] Instance MemFile_writable : WritableFile MemFile := {
  Append f data := (OK, f ++ data);
  Flush f := (OK, f);
}.

#[export] Instance MemFile_sequential : SequentialFile MemFile := {
  Read f n := (OK, take (Z.to_nat n) f, drop (Z.to_nat n) f);
  Skip f n := (OK, drop (Z.to_nat n) f);
}.

#[export] Instance MemFile_writable_ok : WritableFileOk MemFile_writable (fun f => f).
Proof. split; intros; by eexists. Qed.

#[export] Instance MemFile_sequential_ok : SequentialFileOk MemFile_sequential (fun f => f).
Proof. split; intros; by eexists. Qed.

#[export] Instance MemFile_random : RandomAccessFile MemFile := {
  ReadAt f offset n := (OK, take (Z.to_nat n) (drop (Z.to_nat offset) f), true);
}.

#[export] Instance MemFile_random_ok : RandomAccessFileOk MemFile_random (fun f => f).
Proof. split; intros; by eexists. Qed.

(** ** The interface of caches: include/leveldb/cache.h

    Handles are values of some type; a handle stays good until it is released.
    [None] is a failed assertion in an implementation. *)

Class Cache (C H V : Type) := {
  CacheInsert : list byte -> V -> Z -> C -> option (H * C);
  CacheLookup : list byte -> C -> option (option H * C);
  CacheRelease : H -> C -> option C;
  CacheValue : C -> H -> option V;
  CacheErase : list byte -> C -> option C;
  CacheNewId : C -> Z * C;
  CachePrune : C -> option C;
  CacheTotalCharge : C -> Z;
}.

(** What clients may rely on.  [last] is the value inserted last for a key and not erased since, which a lookup
    may find or not; [out] are the handles that were given out and not released, each with its value.  There must not be
    more than [max_handles] of them, and charges are positive and fit in 32 bits. *)
Class CacheOk {C H V} (cache : Cache C H V) (rel : C -> (list byte -> option V) -> list (H * V) -> Prop) (max_handles : Z) := {
  cache_insert_ok c last out k v charge : rel c last out -> 1 <= charge < 2 ^ 32 -> Z.of_nat (length out) < max_handles ->
    exists h c', CacheInsert k v charge c = Some (h, c') /\
      rel c' (fun k' => if decide (k' = k) then Some v else last k') ((h, v) :: out);
  cache_lookup_ok c last out k : rel c last out -> Z.of_nat (length out) < max_handles ->
    exists r c', CacheLookup k c = Some (r, c') /\
      match r with Some h => exists v, last k = Some v /\ rel c' last ((h, v) :: out) | None => rel c' last out end;
  cache_value_ok c last out h v : rel c last out -> In (h, v) out -> CacheValue c h = Some v;
  cache_release_ok c last out h v : rel c last ((h, v) :: out) -> exists c', CacheRelease h c = Some c' /\ rel c' last out;
  cache_erase_ok c last out k : rel c last out ->
    exists c', CacheErase k c = Some c' /\ rel c' (fun k' => if decide (k' = k) then None else last k') out;
  cache_prune_ok c last out : rel c last out -> exists c', CachePrune c = Some c' /\ rel c' last out;
  cache_id_ok c last out : rel c last out -> rel (CacheNewId c).2 last out /\ 0 <= (CacheNewId c).1 < 2 ^ 64;
  cache_out_perm c last out out' : out ≡ₚ out' -> rel c last out -> rel c last out';
}.

(** [ids c n G]: the ids in [G] have been given out, and [n] more can be. *)
Class CacheIdsOk {C H V} (cache : Cache C H V) (rel : C -> (list byte -> option V) -> list (H * V) -> Prop) (ids : C -> nat -> gset Z -> Prop) := {
  ids_new c last out n G : rel c last out -> ids c (S n) G -> ~ (fst (CacheNewId c) ∈ G) /\ ids (snd (CacheNewId c)) n (G ∪ {[ fst (CacheNewId c) ]});
  ids_less c n G : ids c (S n) G -> ids c n G;
  ids_lookup c c' k r n G : ids c n G -> CacheLookup k c = Some (r, c') -> ids c' n G;
  ids_insert c c' k v charge h n G : ids c n G -> CacheInsert k v charge c = Some (h, c') -> ids c' n G;
  ids_release c c' h n G : ids c n G -> CacheRelease h c = Some c' -> ids c' n G;
}.
