(* ===== verification/Log.v ===== *)
(** * Log files of LevelDB: db/log_format.h, db/log_writer.cc, db/log_reader.cc

    A log is a sequence of 32 KB blocks of physical records; a record that does
    not fit in a block is cut into fragments.  [None] is a failed assertion, a
    read outside a buffer, or a loop that was given too little fuel. *)
From stdpp Require Import pretty.
From S2P Require Import Prelude Varint Coding CodingProps Status Interfaces Crc.

(** ** log_format.h *)

Inductive RecordType := kZeroType | kFullType | kFirstType | kMiddleType | kLastType.

Definition record_type_val (t : RecordType) : Z :=
  match t with kZeroType => 0 | kFullType => 1 | kFirstType => 2 | kMiddleType => 3 | kLastType => 4 end.

Definition kMaxRecordType : Z := record_type_val kLastType.
Definition kBlockSize : Z := 32768.
Definition kHeaderSize : Z := 4 + 2 + 1.

Section Log.
Context (kLittleEndian : bool).

(** ** Writer *)

Section Writer.
Context {F : Type} {wf : WritableFile F}.

Record Writer := LogWriter {
  dest_ : F;
  block_offset_ : Z;        (* int *)
  type_crc_ : list Z;
}.

(** [InitTypeCrc]: [n] more types, from [i]. *)
Fixpoint InitTypeCrc (n : nat) (i : Z) : option (list Z) :=
  match n with
  | O => Some []
  | S n' =>
      match crc_Value kLittleEndian 0 [byte_of i], InitTypeCrc n' (i + 1) with
      | Some c, Some l => Some (c :: l)
      | _, _ => None
      end
  end.

Definition new_Writer (dest : F) (dest_length : Z) : option Writer :=
  match InitTypeCrc (Z.to_nat (kMaxRecordType + 1)) 0 with
  | Some crcs => Some (LogWriter dest (dest_length mod kBlockSize) crcs)
  | None => None
  end.

Definition EmitPhysicalRecord (t : RecordType) (ptr : list byte) (w : Writer) : option (Status * Writer) :=
  let n := Z.of_nat (length ptr) in
  if (n <=? 0xffff) && (block_offset_ w + kHeaderSize + n <=? kBlockSize) then
    match type_crc_ w !! Z.to_nat (record_type_val t) with
    | None => None
    | Some c =>
        match Extend kLittleEndian 0 c ptr with
        | None => None
        | Some crc =>
            let crc := Mask crc in
            let buf := EncodeFixed32 kLittleEndian crc ++
              [byte_of (Z.land n 0xff); byte_of (Z.shiftr n 8); byte_of (record_type_val t)] in
            let '(s, dest) := Append (dest_ w) buf in
            let '(s, dest) :=
              if ok s then
                let '(s, dest) := Append dest ptr in
                if ok s then Flush dest else (s, dest)
              else (s, dest) in
            Some (s, LogWriter dest (block_offset_ w + (kHeaderSize + n)) (type_crc_ w))
        end
    end
  else None.

(** [do {} while (s.ok() && left > 0)] *)
Fixpoint AddRecord_loop (fuel : nat) (begin : bool) (ptr : list byte) (w : Writer) : option (Status * Writer) :=
  match fuel with
  | O => None
  | S fuel' =>
      let leftover := kBlockSize - block_offset_ w in
      if leftover <? 0 then None
      else
        let w :=
          if leftover <? kHeaderSize then
            let dest :=
              if 0 <? leftover
              then (Append (dest_ w) (take (Z.to_nat leftover) (replicate 6 (byte_of 0)))).2 else dest_ w in
            LogWriter dest 0 (type_crc_ w)
          else w in
        if kBlockSize - block_offset_ w - kHeaderSize <? 0 then None
        else
          let left_ := Z.of_nat (length ptr) in
          let avail := kBlockSize - block_offset_ w - kHeaderSize in
          let fragment_length := if left_ <? avail then left_ else avail in
          let end_ := left_ =? fragment_length in
          let type :=
            if begin && end_ then kFullType
            else if begin then kFirstType
            else if end_ then kLastType
            else kMiddleType in
          match EmitPhysicalRecord type (take (Z.to_nat fragment_length) ptr) w with
          | None => None
          | Some (s, w) =>
              let ptr := drop (Z.to_nat fragment_length) ptr in
              if ok s && (0 <? Z.of_nat (length ptr)) then AddRecord_loop fuel' false ptr w else Some (s, w)
          end
  end.

Definition AddRecord (slice : list byte) (w : Writer) : option (Status * Writer) :=
  AddRecord_loop (length slice + 2) true slice w.
End Writer.

(** ** Reader *)

Section Reader.
Context {F : Type} {sf : SequentialFile F}.
Context (checksum_ : bool) (initial_offset_ : Z) (has_reporter : bool).

Definition kEof : Z := kMaxRecordType + 1.
Definition kBadRecord : Z := kMaxRecordType + 2.

(** [rd_reports] is what the reporter has been told, newest first. *)
Record Reader := LogReader {
  file_ : F;
  buffer_ : list byte;
  eof_ : bool;
  last_record_offset_ : Z;
  end_of_buffer_offset_ : Z;
  resyncing_ : bool;
  rd_reports : list (Z * Status);
}.

Definition new_Reader (file : F) : Reader := LogReader file [] false 0 0 (0 <? initial_offset_) [].

Definition set_buffer (b : list byte) (r : Reader) : Reader :=
  LogReader (file_ r) b (eof_ r) (last_record_offset_ r) (end_of_buffer_offset_ r) (resyncing_ r) (rd_reports r).
Definition set_eof (b : bool) (r : Reader) : Reader :=
  LogReader (file_ r) (buffer_ r) b (last_record_offset_ r) (end_of_buffer_offset_ r) (resyncing_ r) (rd_reports r).
Definition set_resyncing (b : bool) (r : Reader) : Reader :=
  LogReader (file_ r) (buffer_ r) (eof_ r) (last_record_offset_ r) (end_of_buffer_offset_ r) b (rd_reports r).
Definition set_last (o : Z) (r : Reader) : Reader :=
  LogReader (file_ r) (buffer_ r) (eof_ r) o (end_of_buffer_offset_ r) (resyncing_ r) (rd_reports r).
(** The file after a read or a skip, and the offset of the end of the buffer. *)
Definition set_file (f : F) (o : Z) (r : Reader) : Reader :=
  LogReader f (buffer_ r) (eof_ r) (last_record_offset_ r) o (resyncing_ r) (rd_reports r).

Definition buffer_size (r : Reader) : Z := Z.of_nat (length (buffer_ r)).

Definition ReportDrop (bytes : Z) (reason : Status) (r : Reader) : Reader :=
  if has_reporter && (initial_offset_ <=? u64 (end_of_buffer_offset_ r - buffer_size r - bytes))
  then LogReader (file_ r) (buffer_ r) (eof_ r) (last_record_offset_ r) (end_of_buffer_offset_ r) (resyncing_ r)
         ((bytes, reason) :: rd_reports r)
  else r.

Definition Corruption (msg : list byte) : Status :=
  match new_Status kLittleEndian kCorruption msg [] with Some s => s | None => None end.

Definition ReportCorruption (bytes : Z) (reason : list byte) (r : Reader) : Reader :=
  ReportDrop bytes (Corruption reason) r.

Definition SkipToInitialBlock (r : Reader) : bool * Reader :=
  let offset_in_block := initial_offset_ mod kBlockSize in
  let block_start_location := initial_offset_ - offset_in_block in
  let block_start_location :=
    if kBlockSize - 6 <? offset_in_block then u64 (block_start_location + kBlockSize) else block_start_location in
  let r := set_file (file_ r) block_start_location r in
  if 0 <? block_start_location then
    let '(skip_status, f) := Skip (file_ r) block_start_location in
    let r := set_file f (end_of_buffer_offset_ r) r in
    if ok skip_status then (true, r) else (false, ReportDrop block_start_location skip_status r)
  else (true, r).

(** The type returned and [*result], which is [old] where the code leaves it. *)
Fixpoint ReadPhysicalRecord (fuel : nat) (old : list byte) (r : Reader) : option (Z * list byte * Reader) :=
  match fuel with
  | O => None
  | S fuel' =>
      if buffer_size r <? kHeaderSize then
        if negb (eof_ r) then
          let '(status, data, f) := Read (file_ r) kBlockSize in
          let r := set_buffer data (set_file f (u64 (end_of_buffer_offset_ r + Z.of_nat (length data))) r) in
          if negb (ok status) then
            Some (kEof, old, set_eof true (ReportDrop kBlockSize status (set_buffer [] r)))
          else if buffer_size r <? kBlockSize then ReadPhysicalRecord fuel' old (set_eof true r)
          else ReadPhysicalRecord fuel' old r
        else Some (kEof, old, set_buffer [] r)
      else
        let header := buffer_ r in
        match header !! 4%nat, header !! 5%nat, header !! 6%nat with
        | Some h4, Some h5, Some h6 =>
            let a := byte_val h4 in
            let b := byte_val h5 in
            let type := u32 (s8 (byte_val h6)) in
            let length_ := Z.lor a (Z.shiftl b 8) in
            if buffer_size r <? kHeaderSize + length_ then
              let drop_size := buffer_size r in
              let r := set_buffer [] r in
              if negb (eof_ r) then Some (kBadRecord, old, ReportCorruption drop_size (bytes_of "bad record length") r)
              else Some (kEof, old, r)
            else if (type =? record_type_val kZeroType) && (length_ =? 0) then Some (kBadRecord, old, set_buffer [] r)
            else
              let crc_ok :=
                if checksum_ then
                  match DecodeFixed32 kLittleEndian header,
                        crc_Value kLittleEndian 0 (take (Z.to_nat (1 + length_)) (drop 6 header)) with
                  | Some masked, Some actual_crc => Some (actual_crc =? Unmask masked)
                  | _, _ => None
                  end
                else Some true in
              match crc_ok with
              | None => None
              | Some false =>
                  let drop_size := buffer_size r in
                  Some (kBadRecord, old, ReportCorruption drop_size (bytes_of "checksum mismatch") (set_buffer [] r))
              | Some true =>
                  let r := set_buffer (drop (Z.to_nat (kHeaderSize + length_)) (buffer_ r)) r in
                  if u64 (end_of_buffer_offset_ r - buffer_size r - kHeaderSize - length_) <? initial_offset_
                  then Some (kBadRecord, [], r)
                  else Some (type, take (Z.to_nat length_) (drop (Z.to_nat kHeaderSize) header), r)
              end
        | _, _, _ => None
        end
  end.

(** [snprintf] into [char buf[40]] *)
Definition unknown_record_type (t : Z) : list byte := take 39 (bytes_of "unknown record type " ++ bytes_of (pretty t)).

(** What [ReadRecord] returns: the bool, [*record], [*scratch]. *)
Definition read_result : Type := bool * list byte * list byte * Reader.

(** [while (true)] with the local variables of [ReadRecord]. *)
Fixpoint ReadRecord_loop (fuel : nat) (in_fragmented_record : bool) (prospective_record_offset : Z)
    (fragment scratch : list byte) (r : Reader) : option read_result :=
  match fuel with
  | O => None
  | S fuel' =>
      match ReadPhysicalRecord 3 fragment r with
      | None => None
      | Some (record_type, fragment, r) =>
          let physical_record_offset :=
            u64 (end_of_buffer_offset_ r - buffer_size r - kHeaderSize - Z.of_nat (length fragment)) in
          let continue_ := ReadRecord_loop fuel' in_fragmented_record prospective_record_offset fragment scratch in
          if resyncing_ r && (record_type =? record_type_val kMiddleType) then continue_ r
          else if resyncing_ r && (record_type =? record_type_val kLastType) then continue_ (set_resyncing false r)
          else
            let r := if resyncing_ r then set_resyncing false r else r in
            let scratch_size := Z.of_nat (length scratch) in
            if record_type =? record_type_val kFullType then
              let r :=
                if in_fragmented_record && negb (scratch_size =? 0)
                then ReportCorruption scratch_size (bytes_of "partial record without end(1)") r else r in
              Some (true, fragment, [], set_last physical_record_offset r)
            else if record_type =? record_type_val kFirstType then
              let r :=
                if in_fragmented_record && negb (scratch_size =? 0)
                then ReportCorruption scratch_size (bytes_of "partial record without end(2)") r else r in
              ReadRecord_loop fuel' true physical_record_offset fragment fragment r
            else if record_type =? record_type_val kMiddleType then
              if negb in_fragmented_record then
                continue_ (ReportCorruption (Z.of_nat (length fragment))
                  (bytes_of "missing start of fragmented record(1)") r)
              else ReadRecord_loop fuel' in_fragmented_record prospective_record_offset fragment (scratch ++ fragment) r
            else if record_type =? record_type_val kLastType then
              if negb in_fragmented_record then
                continue_ (ReportCorruption (Z.of_nat (length fragment))
                  (bytes_of "missing start of fragmented record(2)") r)
              else
                let scratch := scratch ++ fragment in
                Some (true, scratch, scratch, set_last prospective_record_offset r)
            else if record_type =? kEof then
              Some (false, [], if in_fragmented_record then [] else scratch, r)
            else if record_type =? kBadRecord then
              if in_fragmented_record then
                ReadRecord_loop fuel' false prospective_record_offset fragment []
                  (ReportCorruption scratch_size (bytes_of "error in middle of record") r)
              else continue_ r
            else
              ReadRecord_loop fuel' false prospective_record_offset fragment []
                (ReportCorruption (Z.of_nat (length fragment) + (if in_fragmented_record then scratch_size else 0))
                  (unknown_record_type record_type) r)
      end
  end.

(** [record] and [scratch] are what the arguments held. *)
Definition ReadRecord (fuel : nat) (record scratch : list byte) (r : Reader) : option read_result :=
  if last_record_offset_ r <? initial_offset_ then
    let '(found, r) := SkipToInitialBlock r in
    if found then ReadRecord_loop fuel false 0 [] [] r else Some (false, record, scratch, r)
  else ReadRecord_loop fuel false 0 [] [] r.

Definition LastRecordOffset (r : Reader) : Z := last_record_offset_ r.
End Reader.
End Log.
