(* ===== verification/LogProps.v ===== *)
(** * Logs: what was written is read back, and a crash loses only the end *)
From S2P Require Import Prelude Varint Coding CodingProps Status Interfaces Crc CrcProps Log.

(** ** The format *)

Definition phys : Type := RecordType * list byte.

Definition checksum (t : RecordType) (p : list byte) : Z := Mask (crc32c 0 (byte_of (record_type_val t) :: p)).

Definition header (t : RecordType) (p : list byte) : list byte :=
  let n := Z.of_nat (length p) in
  le_split 4 (checksum t p) ++ [byte_of (Z.land n 0xff); byte_of (Z.shiftr n 8); byte_of (record_type_val t)].

Definition rec_bytes (r : phys) : list byte := header r.1 r.2 ++ r.2.

(** The trailer of a block that has no room for a header. *)
Definition pad (off : Z) : list byte :=
  if kBlockSize - off <? kHeaderSize then replicate (Z.to_nat (kBlockSize - off)) (byte_of 0) else [].
Definition start (off : Z) : Z := if kBlockSize - off <? kHeaderSize then 0 else off.
Definition after (off : Z) (r : phys) : Z := start off + kHeaderSize + Z.of_nat (length r.2).

(** The bytes of physical records from an offset in a block. *)
Fixpoint log_bytes (off : Z) (ps : list phys) : list byte :=
  match ps with
  | [] => []
  | r :: ps' => pad off ++ rec_bytes r ++ log_bytes (after off r) ps'
  end.

Fixpoint end_off (off : Z) (ps : list phys) : Z :=
  match ps with [] => off | r :: ps' => end_off (after off r) ps' end.

Fixpoint fits (off : Z) (ps : list phys) : Prop :=
  0 <= off <= kBlockSize /\
  match ps with
  | [] => True
  | r :: ps' => after off r <= kBlockSize /\ r.1 <> kZeroType /\ fits (after off r) ps'
  end.

(** The fragments of one record. *)
Inductive frags : bool -> list byte -> list phys -> Prop :=
| frags_end begin d : frags begin d [(if begin then kFullType else kLastType, d)]
| frags_more begin d1 d2 ps : frags false d2 ps ->
    frags begin (d1 ++ d2) ((if begin then kFirstType else kMiddleType, d1) :: ps).

Lemma block_size_val : kBlockSize = 32768.
Proof. done. Qed.
Lemma header_size_val : kHeaderSize = 7.
Proof. done. Qed.

Lemma length_header t p : length (header t p) = 7%nat.
Proof. unfold header. cbv zeta. by rewrite length_app, length_le_split. Qed.

Lemma length_rec_bytes r : length (rec_bytes r) = (7 + length r.2)%nat.
Proof. unfold rec_bytes. by rewrite length_app, length_header. Qed.

Lemma start_range off : 0 <= off <= kBlockSize -> 0 <= start off /\ start off + kHeaderSize <= kBlockSize.
Proof. unfold start, kHeaderSize, kBlockSize. intros Ho. destruct (Z.ltb_spec (32768 - off) (4 + 2 + 1)); lia. Qed.

Lemma log_bytes_app off a b : log_bytes off (a ++ b) = log_bytes off a ++ log_bytes (end_off off a) b.
Proof. revert off. induction a as [|r a IH]; intros off; [done|]. cbn [log_bytes app end_off]. by rewrite IH, <- !app_assoc. Qed.

Lemma end_off_app off a b : end_off off (a ++ b) = end_off (end_off off a) b.
Proof. revert off. induction a as [|r a IH]; intros off; simpl; [done|apply IH]. Qed.

Lemma fits_app off a b : fits off (a ++ b) <-> fits off a /\ fits (end_off off a) b.
Proof.
  revert off. induction a as [|r a IH]; intros off; simpl.
  - split; [|tauto]. intros H. split; [|done]. destruct b; simpl in H; tauto.
  - rewrite IH. tauto.
Qed.

Lemma fits_range off ps : fits off ps -> 0 <= off <= kBlockSize /\ 0 <= end_off off ps <= kBlockSize.
Proof.
  revert off. induction ps as [|r ps IH]; intros off; simpl; [tauto|]. intros (? & ? & ? & H%IH). tauto.
Qed.

(** ** The writer *)

Section Writer.
Context {le : bool} {F : Type} {wf : WritableFile F} {contents : F -> list byte} {Hwf : WritableFileOk wf contents}.

(** A writer in a block, with the checksums of the types. *)
Record writer_at (w : Writer (F := F)) (off : Z) := {
  wa_offset : block_offset_ w = off;
  wa_crc t : type_crc_ w !! Z.to_nat (record_type_val t) = Some (crc32c 0 [byte_of (record_type_val t)]);
}.

Lemma new_Writer_at dest n : 0 <= n -> exists w, new_Writer le dest n = Some w /\ dest_ w = dest /\ writer_at w (n mod kBlockSize).
Proof.
  intros Hn. unfold new_Writer. change (Z.to_nat (kMaxRecordType + 1)) with 5%nat. unfold InitTypeCrc, crc_Value.
  rewrite !Extend_crc32c by done. eexists. split; [done|]. split; [done|]. split; [done|].
  by intros [].
Qed.

Lemma EmitPhysicalRecord_spec w off t p :
  writer_at w off -> 0 <= off -> off + kHeaderSize + Z.of_nat (length p) <= kBlockSize ->
  exists w', EmitPhysicalRecord le t p w = Some (OK, w') /\
    contents (dest_ w') = contents (dest_ w) ++ rec_bytes (t, p) /\
    writer_at w' (off + kHeaderSize + Z.of_nat (length p)).
Proof.
  intros [Ho Hc] Hoff Hfit. unfold EmitPhysicalRecord. cbv zeta. rewrite Ho, Hc. rewrite block_size_val, header_size_val in *.
  destruct (Z.leb_spec (Z.of_nat (length p)) 0xffff); [|lia].
  destruct (Z.leb_spec (off + 7 + Z.of_nat (length p)) 32768); [|lia]. simpl andb. cbv iota.
  rewrite Extend_crc32c by (try done; by apply crc32c_word). rewrite <- crc32c_app. simpl app.
  fold (checksum t p). rewrite EncodeFixed32_spec. fold (header t p).
  destruct (append_ok (dest_ w) (header t p)) as (f1 & -> & E1).
  destruct (append_ok f1 p) as (f2 & E2' & E2). simpl. rewrite E2'. simpl.
  destruct (flush_ok f2) as (f3 & -> & E3). eexists. split; [done|]. simpl. split.
  - rewrite E3, E2, E1. unfold rec_bytes. by rewrite <- app_assoc.
  - split; [|done]. simpl. lia.
Qed.

(** Starting a fragment: the trailer is filled if need be. *)
Lemma AddRecord_loop_step fuel begin d w off :
  writer_at w off -> 0 <= off <= kBlockSize ->
  let frag := Z.min (Z.of_nat (length d)) (kBlockSize - start off - kHeaderSize) in
  let whole := Z.of_nat (length d) =? frag in
  let t := if begin && whole then kFullType else if begin then kFirstType else if whole then kLastType else kMiddleType in
  let p := take (Z.to_nat frag) d in
  exists w', writer_at w' (after off (t, p)) /\
    contents (dest_ w') = contents (dest_ w) ++ pad off ++ rec_bytes (t, p) /\
    AddRecord_loop le (S fuel) begin d w =
      if whole then Some (OK, w') else AddRecord_loop le fuel false (drop (Z.to_nat frag) d) w'.
Proof.
  intros Hw Hoff frag whole t p. pose proof (start_range off Hoff) as [Hs Hs'].
  cbn [AddRecord_loop]. cbv zeta. rewrite (wa_offset _ _ Hw).
  destruct (Z.ltb_spec (kBlockSize - off) 0); [lia|].
  set (w1 := if kBlockSize - off <? kHeaderSize then _ else w).
  assert (writer_at w1 (start off) /\ contents (dest_ w1) = contents (dest_ w) ++ pad off) as [Hw1 Ec1].
  { unfold w1, start, pad. destruct (Z.ltb_spec (kBlockSize - off) kHeaderSize) as [Hlt|]; [|by rewrite app_nil_r].
    destruct Hw as [? Hc]. split; [by split|]. cbn [dest_]. destruct (Z.ltb_spec 0 (kBlockSize - off)) as [Hpos|].
    - destruct (append_ok (dest_ w) (take (Z.to_nat (kBlockSize - off)) (replicate 6 (byte_of 0)))) as (f & -> & E).
      simpl. rewrite E. f_equal. rewrite take_replicate. f_equal. unfold kHeaderSize, kBlockSize in *. lia.
    - replace (kBlockSize - off) with 0 by lia. simpl. by rewrite app_nil_r. }
  rewrite (wa_offset _ _ Hw1). destruct (Z.ltb_spec (kBlockSize - start off - kHeaderSize) 0); [lia|].
  assert ((if Z.of_nat (length d) <? kBlockSize - start off - kHeaderSize then Z.of_nat (length d)
           else kBlockSize - start off - kHeaderSize) = frag) as ->.
  { unfold frag. destruct (Z.ltb_spec (Z.of_nat (length d)) (kBlockSize - start off - kHeaderSize)); lia. }
  fold whole. fold t. fold p.
  assert (length p = Z.to_nat frag) as Hp by (unfold p; rewrite length_take; unfold frag; lia).
  destruct (EmitPhysicalRecord_spec w1 (start off) t p Hw1 Hs) as (w' & -> & Ec & Hw'); [unfold frag in *; lia|].
  exists w'. unfold after. simpl. split_and!; [done|by rewrite Ec, Ec1, <- app_assoc|].
  unfold whole. rewrite length_drop. destruct (Z.eqb_spec (Z.of_nat (length d)) frag) as [E|E].
  - destruct (Z.ltb_spec 0 (Z.of_nat (length d - Z.to_nat frag))); [lia|done].
  - destruct (Z.ltb_spec 0 (Z.of_nat (length d - Z.to_nat frag))); [done|]. unfold frag in *. lia.
Qed.

(** Once a fragment fills its block, the next ones are never empty. *)
Lemma AddRecord_loop_full fuel begin d w off :
  writer_at w off -> 0 <= off <= kBlockSize ->
  (length d + (if decide (off = kBlockSize) then 0 else 1) < fuel)%nat ->
  exists w' ps, AddRecord_loop le fuel begin d w = Some (OK, w') /\ frags begin d ps /\
    fits off ps /\ writer_at w' (end_off off ps) /\
    contents (dest_ w') = contents (dest_ w) ++ log_bytes off ps.
Proof.
  revert begin d w off. induction fuel as [|fuel IH]; intros begin d w off Hw Hoff Hf; [lia|].
  pose proof (start_range off Hoff) as [Hs Hs'].
  destruct (AddRecord_loop_step fuel begin d w off Hw Hoff) as (w1 & Hw1 & Ec & E). rewrite E. clear E.
  set (frag := Z.min _ _) in *. destruct (Z.eqb_spec (Z.of_nat (length d)) frag) as [El|El].
  - rewrite take_ge in Hw1, Ec by lia. rewrite andb_true_r in Hw1, Ec.
    assert ((if begin then kFullType else if begin then kFirstType else kLastType) = if begin then kFullType else kLastType) as Et by by destruct begin.
    rewrite Et in Hw1, Ec. eexists w1, _. split; [done|]. split; [constructor|]. cbn [log_bytes end_off fits fst]. rewrite app_nil_r.
    assert (0 <= after off (if begin then kFullType else kLastType, d) <= kBlockSize) as Ha.
    { unfold after, frag, kHeaderSize in *. cbn [snd]. lia. }
    split_and!; (done || lia || by destruct begin).
  - rewrite andb_false_r in Hw1, Ec.
    set (p := take (Z.to_nat frag) d) in *. set (d2 := drop (Z.to_nat frag) d) in *.
    assert (frag = kBlockSize - start off - kHeaderSize) as Efr by (unfold frag in *; lia).
    assert (length p = Z.to_nat frag) as Hp by (unfold p; rewrite length_take; unfold frag in *; lia).
    assert (forall t, after off (t, p) = kBlockSize) as Ea by (intros t; unfold after; simpl; lia).
    rewrite Ea in Hw1. destruct (IH false d2 w1 kBlockSize Hw1) as (w2 & ps & -> & Hfr & Hfit & Hw2 & Ec2).
    { rewrite block_size_val. lia. }
    { rewrite decide_True by done. unfold d2. rewrite length_drop.
      destruct (decide (off = kBlockSize)) as [->|]; [|lia].
      assert (0 < frag) by (rewrite Efr; unfold start; rewrite Z.sub_diag; done). unfold frag in *. lia. }
    exists w2, ((if begin then kFirstType else kMiddleType, p) :: ps). split_and!; [done| | | |].
    + rewrite <- (take_drop (Z.to_nat frag) d). by constructor.
    + cbn [fits fst]. rewrite Ea. split_and!; [lia|lia|lia|by destruct begin|done].
    + cbn [end_off]. by rewrite Ea.
    + cbn [log_bytes]. rewrite Ea, Ec2, Ec. by rewrite <- !app_assoc.
Qed.

Lemma AddRecord_spec d w off :
  writer_at w off -> 0 <= off <= kBlockSize ->
  exists w' ps, AddRecord le d w = Some (OK, w') /\ frags true d ps /\ fits off ps /\ writer_at w' (end_off off ps) /\
    contents (dest_ w') = contents (dest_ w) ++ log_bytes off ps.
Proof. intros Hw Hoff. apply AddRecord_loop_full; [done|done|]. destruct (decide (off = kBlockSize)); lia. Qed.

(** Several records. *)
Fixpoint AddRecords (ds : list (list byte)) (w : Writer (F := F)) : option (Status * Writer (F := F)) :=
  match ds with
  | [] => Some (OK, w)
  | d :: ds' =>
      match AddRecord le d w with
      | Some (s, w) => if ok s then AddRecords ds' w else Some (s, w)
      | None => None
      end
  end.

(** The fragments of a list of records. *)
Inductive log_frags : list (list byte) -> list phys -> Prop :=
| log_frags_nil : log_frags [] []
| log_frags_cons d ds ps ps' : frags true d ps -> log_frags ds ps' -> log_frags (d :: ds) (ps ++ ps').

Lemma AddRecords_spec ds w off :
  writer_at w off -> 0 <= off <= kBlockSize ->
  exists w' ps, AddRecords ds w = Some (OK, w') /\ log_frags ds ps /\ fits off ps /\ writer_at w' (end_off off ps) /\
    contents (dest_ w') = contents (dest_ w) ++ log_bytes off ps.
Proof.
  revert w off. induction ds as [|d ds IH]; intros w off Hw Hoff.
  { exists w, []. simpl. rewrite app_nil_r. split_and!; try done; try lia. constructor. }
  destruct (AddRecord_spec d w off Hw Hoff) as (w1 & ps & E1 & Hf & Hfit & Hw1 & Ec1).
  destruct (IH w1 (end_off off ps) Hw1) as (w2 & ps' & E2 & Hf2 & Hfit2 & Hw2 & Ec2); [by apply (fits_range off ps)|].
  exists w2, (ps ++ ps'). simpl. rewrite E1. simpl. rewrite E2, end_off_app, log_bytes_app, Ec2, Ec1, <- app_assoc.
  split_and!; [done|by constructor|by apply fits_app|done|done].
Qed.
End Writer.

(** ** The reader *)

Lemma header_lookup t p :
  header t p !! 4%nat = Some (byte_of (Z.land (Z.of_nat (length p)) 0xff)) /\
  header t p !! 5%nat = Some (byte_of (Z.shiftr (Z.of_nat (length p)) 8)) /\
  header t p !! 6%nat = Some (byte_of (record_type_val t)).
Proof. done. Qed.

Lemma header_length_field n : 0 <= n <= 0xffff ->
  Z.lor (byte_val (byte_of (Z.land n 0xff))) (Z.shiftl (byte_val (byte_of (Z.shiftr n 8))) 8) = n.
Proof.
  intros Hn. rewrite !byte_val_of, (Z.mod_small (Z.shiftr n 8)).
  - rewrite Z.mod_small by apply land_255_range.
    rewrite lor_disjoint_add by (done || apply land_255_range).
    change 0xff with (Z.ones 8). rewrite Z.land_ones, Z.shiftr_div_pow2 by lia. pose proof (Z.div_mod n (2 ^ 8)). lia.
  - rewrite Z.shiftr_div_pow2 by lia. split; [apply Z.div_pos; lia|apply Z.div_lt_upper_bound; lia].
Qed.

Lemma record_type_field t : u32 (s8 (byte_val (byte_of (record_type_val t)))) = record_type_val t.
Proof. by destruct t. Qed.

Lemma header_checksum le t p rest :
  DecodeFixed32 le (header t p ++ rest) = Some (checksum t p) /\ Unmask (checksum t p) = crc32c 0 (byte_of (record_type_val t) :: p) /\
  take (Z.to_nat (1 + Z.of_nat (length p))) (drop 6 (header t p ++ p ++ rest)) = byte_of (record_type_val t) :: p.
Proof.
  assert (word (crc32c 0 (byte_of (record_type_val t) :: p))) as Hw by by apply crc32c_word.
  destruct (Unmask_Mask _ Hw) as [Hu Hm]. split_and!; [|done|].
  - unfold header. cbv zeta. rewrite <- app_assoc. by apply DecodeFixed32_split.
  - assert (header t p ++ p ++ rest = (le_split 4 (checksum t p) ++ [byte_of (Z.land (Z.of_nat (length p)) 0xff);
      byte_of (Z.shiftr (Z.of_nat (length p)) 8)]) ++ (byte_of (record_type_val t) :: p) ++ rest) as ->.
    { unfold header. cbv zeta. by rewrite <- !app_assoc. }
    rewrite drop_app_length' by by rewrite length_app, length_le_split.
    apply take_app_length'. cbn [length]. lia.
Qed.

Section Reader.
Context {le : bool} {F : Type} {sf : SequentialFile F} {rest : F -> list byte} {Hsf : SequentialFileOk sf rest}.
Context (checksum_ has_reporter : bool).

Abbreviation Reader := (Log.Reader (F := F)).
Abbreviation read_physical := (ReadPhysicalRecord le checksum_ 0 has_reporter).

(** [R] is what is left of the log from offset [off] of a block on. *)
Record reader_at (r : Reader) (R : list byte) (off : Z) := {
  ra_off : 0 <= off <= kBlockSize;
  ra_buffer : buffer_ r = take (Z.to_nat (kBlockSize - off)) R;
  ra_file : rest (file_ r) = drop (Z.to_nat (kBlockSize - off)) R;
  ra_eof : eof_ r = (Z.of_nat (length R) <? kBlockSize - off);
  ra_synced : resyncing_ r = false;
  ra_last : 0 <= last_record_offset_ r;
}.

Lemma reader_at_new f : reader_at (new_Reader 0 f) (rest f) kBlockSize.
Proof.
  split; simpl; try done. rewrite Z.sub_diag. destruct (Z.ltb_spec (Z.of_nat (length (rest f))) 0); [lia|done].
Qed.

Lemma buffer_size_at r R off : reader_at r R off -> buffer_size r = Z.min (Z.of_nat (length R)) (kBlockSize - off).
Proof. intros [Ho Hb _ _ _ _]. unfold buffer_size. rewrite Hb, length_take. lia. Qed.

(** A full block of which only the trailer is left: the next block is read. *)
Lemma read_next_block fuel old r R off :
  reader_at r R off -> kBlockSize - off < kHeaderSize -> kBlockSize - off <= Z.of_nat (length R) ->
  exists r', read_physical (S fuel) old r = read_physical fuel old r' /\
    reader_at r' (drop (Z.to_nat (kBlockSize - off)) R) 0 /\ rd_reports r' = rd_reports r.
Proof.
  intros Hr Hlt Hlen. pose proof (buffer_size_at _ _ _ Hr) as Hbs. destruct Hr as [Ho Hb Hf He Hs Hlast0].
  cbn [ReadPhysicalRecord]. rewrite Hbs, He.
  destruct (Z.ltb_spec (Z.min (Z.of_nat (length R)) (kBlockSize - off)) kHeaderSize); [|lia].
  destruct (Z.ltb_spec (Z.of_nat (length R)) (kBlockSize - off)); [lia|]. simpl negb. cbv iota.
  destruct (read_ok (file_ r) kBlockSize ltac:(done)) as (f' & -> & Hf'). rewrite Hf in Hf' |- *.
  set (R' := drop (Z.to_nat (kBlockSize - off)) R) in *. cbn [ok negb]. cbv iota zeta.
  unfold buffer_size. cbn [buffer_ set_buffer]. rewrite length_take.
  assert ((Z.of_nat (Z.to_nat kBlockSize `min` length R') <? kBlockSize) = (Z.of_nat (length R') <? kBlockSize - 0)) as Hlast.
  { rewrite Z.sub_0_r. destruct (Z.ltb_spec (Z.of_nat (length R')) kBlockSize), (Z.ltb_spec (Z.of_nat (Z.to_nat kBlockSize `min` length R')) kBlockSize);
      try done; unfold kBlockSize in *; lia. }
  rewrite Hlast. destruct (Z.of_nat (length R') <? kBlockSize - 0) eqn:El; eexists; (split; [done|]); (split; [|done]);
    (split; simpl; [done|by rewrite Z.sub_0_r|by rewrite Z.sub_0_r|by rewrite ?El|done|done]).
Qed.

(** A whole record is at the front. *)
Lemma read_record fuel old r t p R off :
  reader_at r (rec_bytes (t, p) ++ R) off -> off + kHeaderSize + Z.of_nat (length p) <= kBlockSize -> t <> kZeroType ->
  exists r', read_physical (S fuel) old r = Some (record_type_val t, p, r') /\
    reader_at r' R (off + kHeaderSize + Z.of_nat (length p)) /\ rd_reports r' = rd_reports r.
Proof.
  intros Hr Hfit Ht. pose proof (buffer_size_at _ _ _ Hr) as Hbs. rewrite length_app, length_rec_bytes in Hbs.
  destruct Hr as [Ho Hb Hf He Hs Hlast0]. unfold kHeaderSize, kBlockSize in *. cbn [snd] in *.
  set (k := Z.to_nat (32768 - off)) in *.
  assert (buffer_ r = header t p ++ p ++ take (k - (7 + length p)) R) as Hb'.
  { rewrite Hb. unfold rec_bytes. cbn [fst snd]. rewrite <- app_assoc, app_assoc, take_app_ge by (rewrite length_app, length_header; lia).
    rewrite length_app, length_header. by rewrite <- app_assoc. }
  destruct (header_lookup t p) as (H4 & H5 & H6).
  destruct (header_checksum le t p (p ++ take (k - (7 + length p)) R)) as (Hd & Hu & _).
  destruct (header_checksum le t p (take (k - (7 + length p)) R)) as (_ & _ & Ht').
  cbn [ReadPhysicalRecord]. rewrite Hbs. unfold kHeaderSize.
  destruct (Z.ltb_spec (Z.min (Z.of_nat (7 + length p + length R)) (32768 - off)) (4 + 2 + 1)); [lia|].
  cbv zeta. rewrite Hb'. rewrite !lookup_app_l by (rewrite length_header; lia). rewrite H4, H5, H6.
  rewrite header_length_field, record_type_field by lia.
  destruct (Z.ltb_spec (Z.min (Z.of_nat (7 + length p + length R)) (32768 - off)) (4 + 2 + 1 + Z.of_nat (length p))); [lia|].
  assert ((record_type_val t =? record_type_val kZeroType) = false) as -> by by destruct t.
  simpl andb. cbv iota.
  assert ((if checksum_ then
     match DecodeFixed32 le (header t p ++ p ++ take (k - (7 + length p)) R),
       crc_Value le 0 (take (Z.to_nat (1 + Z.of_nat (length p))) (drop 6 (header t p ++ p ++ take (k - (7 + length p)) R))) with
     | Some masked, Some actual_crc => Some (actual_crc =? Unmask masked)
     | _, _ => None end else Some true) = Some true) as ->.
  { destruct checksum_; [|done]. rewrite Hd, Ht'. unfold crc_Value. rewrite Extend_crc32c by done.
    by rewrite Hu, Z.eqb_refl. }
  match goal with |- context [u64 ?x <? 0] => destruct (Z.ltb_spec (u64 x) 0) as [Hneg|_] end.
  { pose proof (u64_range (end_of_buffer_offset_ (set_buffer (drop (Z.to_nat (4 + 2 + 1 + Z.of_nat (length p))) (header t p ++ p ++ take (k - (7 + length p)) R)) r) -
      buffer_size (set_buffer (drop (Z.to_nat (4 + 2 + 1 + Z.of_nat (length p))) (header t p ++ p ++ take (k - (7 + length p)) R)) r) - (4 + 2 + 1) - Z.of_nat (length p))). lia. }
  eexists. split; [|split].
  - rewrite drop_app_length' by by rewrite length_header. rewrite take_app_length' by lia. done.
  - split; cbn [buffer_ file_ eof_ resyncing_ set_buffer]; [unfold kBlockSize; lia| | | |done|done].
    + rewrite app_assoc, drop_app_length' by (rewrite length_app, length_header; lia). f_equal. unfold k, kBlockSize, kHeaderSize. lia.
    + rewrite Hf. rewrite drop_app_ge by (rewrite length_rec_bytes; cbn [snd]; lia). rewrite length_rec_bytes. cbn [snd].
      f_equal. unfold k, kBlockSize, kHeaderSize. lia.
    + rewrite He, length_app, length_rec_bytes. cbn [snd]. unfold kBlockSize.
      destruct (Z.ltb_spec (Z.of_nat (7 + length p + length R)) (32768 - off)), (Z.ltb_spec (Z.of_nat (length R)) (32768 - (off + 7 + Z.of_nat (length p)))); (done || lia).
  - done.
Qed.

(** The log ends before the next record is complete. *)
Lemma read_eof fuel old r R off rec S' :
  reader_at r R off -> kHeaderSize <= kBlockSize - off -> off + kHeaderSize + Z.of_nat (length rec.2) <= kBlockSize ->
  rec_bytes rec = R ++ S' -> S' <> [] ->
  exists r', read_physical (S fuel) old r = Some (kEof, old, r') /\ rd_reports r' = rd_reports r /\ resyncing_ r' = false.
Proof.
  intros Hr Hoff Hfit ER HS. pose proof (buffer_size_at _ _ _ Hr) as Hbs. destruct Hr as [Ho Hb Hf He Hs Hlast0].
  pose proof (f_equal length ER) as El. rewrite length_app, length_rec_bytes in El.
  assert (0 < length S')%nat as HSl by (destruct S'; [done|simpl; lia]).
  unfold kHeaderSize, kBlockSize in *. rewrite Z.min_l in Hbs by lia.
  assert (eof_ r = true) as Het.
  { rewrite He. destruct (Z.ltb_spec (Z.of_nat (length R)) (32768 - off)); [done|lia]. }
  cbn [ReadPhysicalRecord]. rewrite Hbs, Het. unfold kHeaderSize.
  destruct (Z.ltb_spec (Z.of_nat (length R)) (4 + 2 + 1)) as [|Hge]; [by eexists|]. cbv zeta.
  rewrite Hb, take_ge by lia.
  assert (forall i, (i < 7)%nat -> R !! i = header rec.1 rec.2 !! i) as Hh.
  { intros i Hi. rewrite <- (lookup_app_l R S') by lia. rewrite <- ER. unfold rec_bytes. apply lookup_app_l.
    by rewrite length_header. }
  destruct (header_lookup rec.1 rec.2) as (H4 & H5 & H6). rewrite !Hh, H4, H5, H6 by lia.
  rewrite header_length_field by lia.
  destruct (Z.ltb_spec (Z.of_nat (length R)) (4 + 2 + 1 + Z.of_nat (length rec.2))); [|lia].
  simpl eof_. rewrite Het. by eexists.
Qed.

(** At the very end. *)
Lemma read_end old r R off :
  reader_at r R off -> Z.of_nat (length R) < kHeaderSize ->
  (R = [] \/ (kBlockSize - off < kHeaderSize /\ Z.of_nat (length R) < kBlockSize - off)) ->
  exists r', read_physical 3 old r = Some (kEof, old, r') /\ rd_reports r' = rd_reports r /\ resyncing_ r' = false.
Proof.
  intros Hr HR Hc.
  assert (forall fuel r R off, reader_at r R off -> Z.of_nat (length R) < kHeaderSize -> eof_ r = true ->
    exists r', read_physical (S fuel) old r = Some (kEof, old, r') /\ rd_reports r' = rd_reports r /\ resyncing_ r' = false) as Heof.
  { clear. intros fuel r R off Hr HR He. pose proof (buffer_size_at _ _ _ Hr) as Hbs. pose proof (ra_synced _ _ _ Hr).
    cbn [ReadPhysicalRecord]. rewrite Hbs, He.
    destruct (Z.ltb_spec (Z.min (Z.of_nat (length R)) (kBlockSize - off)) kHeaderSize); [|lia]. by eexists. }
  destruct (Z.ltb_spec (Z.of_nat (length R)) (kBlockSize - off)) as [Hlt|Hge].
  - apply (Heof 2%nat r R off Hr HR). rewrite (ra_eof _ _ _ Hr). destruct (Z.ltb_spec (Z.of_nat (length R)) (kBlockSize - off)); [done|lia].
  - destruct Hc as [->|Hc]; [|lia].
    destruct (read_next_block 2 old r [] off Hr) as (r1 & -> & Hr1 & Erep); [simpl in *; unfold kHeaderSize; lia|done|].
    rewrite drop_nil in Hr1. destruct (Heof 1%nat r1 [] 0 Hr1 ltac:(done)) as (r2 & E & E2 & E3).
    { rewrite (ra_eof _ _ _ Hr1). done. }
    exists r2. by rewrite E2, Erep.
Qed.

(** ** Prefixes of a log *)

Lemma prefix_of_app {A} (R a b : list A) :
  R `prefix_of` a ++ b -> (exists R', R = a ++ R' /\ R' `prefix_of` b) \/ (exists S', a = R ++ S' /\ S' <> []).
Proof.
  intros [k E]. apply app_eq_app in E as (l & [[-> ->]|[-> ->]]).
  - destruct l as [|x l].
    + left. exists []. rewrite !app_nil_r. split; [done|apply prefix_nil].
    + right. by exists (x :: l).
  - left. exists l. split; [done|by exists k].
Qed.

(** The next physical record of a log that may have been cut off. *)
Lemma read_step old r R off rec ps :
  reader_at r R off -> R `prefix_of` log_bytes off (rec :: ps) -> fits off (rec :: ps) ->
  (exists r' R', read_physical 3 old r = Some (record_type_val rec.1, rec.2, r') /\ reader_at r' R' (after off rec) /\
     R' `prefix_of` log_bytes (after off rec) ps /\ rd_reports r' = rd_reports r /\ R = pad off ++ rec_bytes rec ++ R') \/
  (exists r', read_physical 3 old r = Some (kEof, old, r') /\ rd_reports r' = rd_reports r /\ resyncing_ r' = false /\
     (length R < length (pad off ++ rec_bytes rec))%nat).
Proof.
  intros Hr Hp (Hoff & Haf & Hz & _). destruct rec as [t p].
  assert (forall fuel r R off, reader_at r R off -> kHeaderSize <= kBlockSize - off ->
    off + kHeaderSize + Z.of_nat (length p) <= kBlockSize ->
    R `prefix_of` rec_bytes (t, p) ++ log_bytes (off + kHeaderSize + Z.of_nat (length p)) ps ->
    (exists r' R', read_physical (S fuel) old r = Some (record_type_val t, p, r') /\
       reader_at r' R' (off + kHeaderSize + Z.of_nat (length p)) /\
       R' `prefix_of` log_bytes (off + kHeaderSize + Z.of_nat (length p)) ps /\ rd_reports r' = rd_reports r /\
       R = rec_bytes (t, p) ++ R') \/
    (exists r', read_physical (S fuel) old r = Some (kEof, old, r') /\ rd_reports r' = rd_reports r /\
       resyncing_ r' = false /\ (length R < length (rec_bytes (t, p)))%nat)) as Hno.
  { clear - Hz Hsf. intros fuel r R off Hr Hge Hfit Hp. apply prefix_of_app in Hp as [(R' & -> & Hp)|(S' & E & HS)].
    - left. destruct (read_record fuel old r t p R' off Hr Hfit Hz) as (r' & E & Hr' & Erep). by exists r', R'.
    - right. destruct (read_eof fuel old r R off (t, p) S' Hr Hge Hfit E HS) as (r' & E' & Erep & Hs). exists r'.
      split_and!; [done|done|done|]. rewrite E, length_app. destruct S'; [done|simpl; lia]. }
  cbn [log_bytes] in Hp. unfold after, pad, start in *. cbn [fst snd] in *.
  destruct (Z.ltb_spec (kBlockSize - off) kHeaderSize) as [Hlt|Hge]; [|by apply Hno].
  apply prefix_of_app in Hp as [(R1 & -> & Hp)|(S' & E & HS)].
  - destruct (read_next_block 2 old r _ off Hr Hlt) as (r1 & -> & Hr1 & Erep1).
    { rewrite length_app, length_replicate. lia. }
    rewrite drop_app_length' in Hr1 by by rewrite length_replicate.
    destruct (Hno 1%nat r1 R1 0 Hr1) as [(r' & R' & E & Hr' & Hp' & Erep & ->)|(r' & E & Erep & Hs & Hl)];
      [done|lia|exact Hp| |].
    + left. exists r', R'. by rewrite Erep, Erep1.
    + right. exists r'. rewrite Erep, Erep1, !length_app. split_and!; (done || lia).
  - right. pose proof (f_equal length E) as El. rewrite length_replicate, length_app in El.
    assert (0 < length S')%nat by (destruct S'; [done|simpl; lia]).
    destruct (read_end old r R off Hr ltac:(lia)) as (r' & E' & Erep & Hs); [right; lia|].
    exists r'. rewrite length_app, length_replicate. split_and!; (done || lia).
Qed.

Abbreviation read_loop := (ReadRecord_loop le checksum_ 0 has_reporter).

Lemma reader_at_set_last o r R off : 0 <= o -> reader_at r R off -> reader_at (set_last o r) R off.
Proof. by intros ? []. Qed.

(** The fragments of a record that is being read. *)
Lemma read_frags begin d psd :
  frags begin d psd -> forall ps R off r fuel prosp old scratch,
  reader_at r R off -> R `prefix_of` log_bytes off (psd ++ ps) -> fits off (psd ++ ps) -> (length R < fuel)%nat ->
  (begin = true -> scratch = []) -> 0 <= prosp ->
  (exists r' R' sc, read_loop fuel (negb begin) prosp old scratch r = Some (true, scratch ++ d, sc, r') /\
     reader_at r' R' (end_off off psd) /\ R' `prefix_of` log_bytes (end_off off psd) ps /\
     rd_reports r' = rd_reports r /\ R = log_bytes off psd ++ R') \/
  (exists r' sc, read_loop fuel (negb begin) prosp old scratch r = Some (false, [], sc, r') /\
     rd_reports r' = rd_reports r /\ (length R < length (log_bytes off psd))%nat).
Proof.
  assert (forall fuel in_frag prosp old scratch r r', read_physical 3 old r = Some (kEof, old, r') -> resyncing_ r' = false ->
    exists sc, read_loop (S fuel) in_frag prosp old scratch r = Some (false, [], sc, r')) as Heof.
  { clear. intros fuel in_frag prosp old scratch r r' E Hs. cbn [ReadRecord_loop]. rewrite E. cbv zeta. rewrite Hs. simpl. by eexists. }
  induction 1 as [begin d|begin d1 d2 psd Hfr IH]; intros ps R off r fuel prosp old scratch Hr Hp Hfit Hf Hsc Hpr;
    (destruct fuel as [|fuel]; [lia|]); simpl app in Hp, Hfit;
    (destruct (read_step old r R off _ _ Hr Hp Hfit) as [(r1 & R1 & E & Hr1 & Hp1 & Erep & ER)|(r1 & E & Erep & Hs & Hl)];
     [|right; destruct (Heof fuel (negb begin) prosp old scratch r r1 E Hs) as (sc & E'); exists r1, sc;
       split_and!; [done|done|]; cbn [log_bytes]; rewrite !length_app in *; lia]).
  - left. cbn [ReadRecord_loop]. rewrite E. cbv zeta. cbn [fst snd]. rewrite (ra_synced _ _ _ Hr1). simpl andb. cbv iota.
    exists (set_last (if begin then u64 (end_of_buffer_offset_ r1 - buffer_size r1 - kHeaderSize - Z.of_nat (length d)) else prosp) r1), R1, (if begin then [] else scratch ++ d).
    split_and!; [|apply reader_at_set_last; [by destruct begin; [apply u64_range|]|done]|exact Hp1|done|].
    { destruct begin; simpl; [|done]. by rewrite Hsc. }
    cbn [log_bytes]. by rewrite app_nil_r, <- app_assoc.
  - destruct Hfit as (Hfit1 & Hfit2 & Hfit3 & Hfit').
    assert (length R1 < fuel)%nat as Hf1.
    { rewrite ER, !length_app, length_rec_bytes in Hf. lia. }
    assert (exists prosp', 0 <= prosp' /\ read_loop (S fuel) (negb begin) prosp old scratch r = read_loop fuel true prosp' d1 (scratch ++ d1) r1) as (prosp' & Hpr' & E').
    { cbn [ReadRecord_loop]. rewrite E. cbv zeta. cbn [fst snd]. rewrite (ra_synced _ _ _ Hr1). simpl andb. cbv iota.
      destruct begin; simpl; [|by eexists]. rewrite (Hsc eq_refl). simpl. eexists. split; [apply u64_range|done]. }
    rewrite E'. destruct (IH ps R1 _ r1 fuel prosp' d1 (scratch ++ d1) Hr1 Hp1 Hfit' Hf1 ltac:(done) Hpr')
      as [(r' & R' & sc & E2 & Hr' & Hp' & Erep' & ->)|(r' & sc & E2 & Erep' & Hl)].
    + left. exists r', R', sc. rewrite <- app_assoc in E2. cbn [log_bytes end_off].
      split_and!; [done|done|done|by rewrite Erep'|by rewrite ER, <- !app_assoc].
    + right. exists r', sc. cbn [log_bytes]. rewrite Erep', Erep, ER, !length_app. split_and!; (done || lia).
Qed.

(** Reading until [ReadRecord] returns false, at most [n] times. *)
Fixpoint ReadRecords (n fuel : nat) (r : Reader) : option (list (list byte) * bool * Reader) :=
  match n with
  | O => Some ([], false, r)
  | S n' =>
      match ReadRecord le checksum_ 0 has_reporter fuel [] [] r with
      | None => None
      | Some (false, _, _, r) => Some ([], true, r)
      | Some (true, record, _, r) =>
          match ReadRecords n' fuel r with
          | Some (l, done, r) => Some (record :: l, done, r)
          | None => None
          end
      end
  end.

Lemma ReadRecord_start fuel record scratch r : 
  0 <= last_record_offset_ r -> ReadRecord le checksum_ 0 has_reporter fuel record scratch r = read_loop fuel false 0 [] [] r.
Proof. intros Hl. unfold ReadRecord. destruct (Z.ltb_spec (last_record_offset_ r) 0); [lia|done]. Qed.

(** The records that are complete are read. *)
Lemma ReadRecords_complete ds ps :
  log_frags ds ps -> forall fuel r R2 off ps2,
  reader_at r (log_bytes off ps ++ R2) off -> R2 `prefix_of` log_bytes (end_off off ps) ps2 -> fits off (ps ++ ps2) ->
  (length (log_bytes off ps ++ R2) < fuel)%nat ->
  exists r', reader_at r' R2 (end_off off ps) /\ rd_reports r' = rd_reports r /\
    forall n, ReadRecords (length ds + n) fuel r =
      match ReadRecords n fuel r' with Some (l, b, r'') => Some (ds ++ l, b, r'') | None => None end.
Proof.
  induction 1 as [|d ds ps ps' Hfr Hlf IH]; intros fuel r R2 off ps2 Hr Hp Hfit Hf.
  { exists r. split_and!; [done|done|]. intros n. simpl. by destruct (ReadRecords n fuel r) as [[[? ?] ?]|]. }
  rewrite log_bytes_app, end_off_app, <- ?app_assoc in *.
  assert (log_bytes off ps ++ log_bytes (end_off off ps) ps' ++ R2 `prefix_of` log_bytes off (ps ++ ps' ++ ps2)) as Hpre.
  { rewrite !log_bytes_app. by do 2 apply prefix_app. }
  destruct (read_frags true d ps Hfr (ps' ++ ps2) _ off r fuel 0 [] [] Hr Hpre Hfit Hf ltac:(done) ltac:(done))
    as [(r1 & R1 & sc & E & Hr1 & Hp1 & Erep & ER)|(r1 & sc & E & Erep & Hl)]; [|rewrite length_app in Hl; lia].
  apply app_inv_head in ER as <-. apply fits_app in Hfit as [_ Hfit].
  rewrite !length_app in Hf.
  destruct (IH fuel r1 R2 _ ps2 Hr1 Hp Hfit ltac:(rewrite length_app; lia)) as (r2 & Hr2 & Erep2 & Hn).
  exists r2. split_and!; [done|by rewrite Erep2|]. intros n. cbn [length Nat.add ReadRecords].
  rewrite ReadRecord_start by apply (ra_last _ _ _ Hr). simpl negb in E. rewrite E, Hn.
  by destruct (ReadRecords n fuel r2) as [[[? ?] ?]|].
Qed.

(** What a crash has left: a prefix of the records. *)
Lemma ReadRecords_prefix ds ps :
  log_frags ds ps -> forall n fuel r R off,
  reader_at r R off -> R `prefix_of` log_bytes off ps -> fits off ps -> (length R < fuel)%nat -> (length ds < n)%nat ->
  exists k r', ReadRecords n fuel r = Some (take k ds, true, r') /\ rd_reports r' = rd_reports r.
Proof.
  induction 1 as [|d ds ps ps' Hfr Hlf IH]; intros n fuel r R off Hr Hp Hfit Hf Hn;
    (destruct n as [|n]; [simpl in Hn; lia|]); cbn [ReadRecords];
    rewrite ReadRecord_start by apply (ra_last _ _ _ Hr).
  - simpl in Hp. apply prefix_nil_inv in Hp as ->.
    destruct (read_end [] r [] off Hr ltac:(done) ltac:(by left)) as (r1 & E & Erep & Hs).
    destruct fuel as [|fuel]; [simpl in Hf; lia|]. cbn [ReadRecord_loop]. rewrite E. cbv zeta. rewrite Hs. simpl.
    by exists 0%nat, r1.
  - destruct (read_frags true d ps Hfr ps' R off r fuel 0 [] [] Hr Hp Hfit Hf ltac:(done) ltac:(done))
      as [(r1 & R1 & sc & E & Hr1 & Hp1 & Erep & ER)|(r1 & sc & E & Erep & Hl)]; simpl negb in E; rewrite E.
    + apply fits_app in Hfit as [_ Hfit].
      assert (length R1 < fuel)%nat by (rewrite ER, length_app in Hf; lia).
      destruct (IH n fuel r1 R1 _ Hr1 Hp1 Hfit ltac:(done) ltac:(simpl in Hn; lia)) as (k & r2 & -> & Erep2).
      exists (S k), r2. by rewrite Erep2.
    + by exists 0%nat, r1.
Qed.
End Reader.

(** C13. Records [ds1] and then [ds2], of any lengths, are
    appended to a new log, and a crash leaves some prefix of the file that
    contains the first part. Then reading terminates and returns every record of
    [ds1] and a number of the records of [ds2], in order and unchanged, reports
    no corruption, and ends; with nothing lost it returns exactly what was
    written. This holds with and without checksums, over any files that meet the
    contracts. *)
Theorem log_crash_recovery {W R : Type} (wf : WritableFile W) (contents : W -> list byte)
    (sf : SequentialFile R) (rest : R -> list byte) le chk rep dest f fuel ds1 ds2 :
  WritableFileOk wf contents -> SequentialFileOk sf rest -> contents dest = [] ->
  (length (rest f) < fuel)%nat ->
  exists w0 w1 w2, new_Writer le dest 0 = Some w0 /\
    AddRecords (le := le) ds1 w0 = Some (OK, w1) /\ AddRecords (le := le) ds2 w1 = Some (OK, w2) /\
    (contents (dest_ w1) `prefix_of` rest f -> rest f `prefix_of` contents (dest_ w2) ->
     exists k r, ReadRecords (le := le) chk rep (length ds1 + S (length ds2)) fuel (new_Reader 0 f) = Some (ds1 ++ take k ds2, true, r) /\
       rd_reports r = []).
Proof.
  intros Hwf Hsf Hnew Hf. destruct (new_Writer_at (le := le) dest 0 ltac:(done)) as (w0 & E0 & Ed & H0).
  destruct (AddRecords_spec (le := le) ds1 w0 _ H0 ltac:(done)) as (w1 & ps1 & E1 & Hl1 & Hfit1 & Hw1 & Ec1).
  change (0 mod kBlockSize) with 0 in *.
  destruct (AddRecords_spec (le := le) ds2 w1 _ Hw1 ltac:(by apply (fits_range _ _ Hfit1))) as (w2 & ps2 & E2 & Hl2 & Hfit2 & Hw2 & Ec2).
  exists w0, w1, w2. split_and!; [done|done|done|]. rewrite Ec2, Ec1, Ed, Hnew. simpl.
  intros [R2 ER] Hp2. pose proof (reader_at_new (rest := rest) f) as Hr.
  assert (log_bytes kBlockSize ps1 = log_bytes 0 ps1 /\ end_off kBlockSize ps1 = (if decide (ps1 = []) then kBlockSize else end_off 0 ps1)) as [Eb Ee].
  { by destruct ps1. }
  assert (fits kBlockSize (ps1 ++ ps2)) as Hfit.
  { assert (fits 0 (ps1 ++ ps2)) as H by by apply fits_app. destruct (ps1 ++ ps2); simpl in *; tauto. }
  assert (R2 `prefix_of` log_bytes (end_off kBlockSize ps1) ps2) as Hp.
  { rewrite ER in Hp2. apply prefix_app_inv in Hp2. destruct ps1; [|done]. simpl in *. by destruct ps2. }
  rewrite ER, <- Eb in Hr. rewrite ER, <- Eb in Hf.
  destruct (ReadRecords_complete (le := le) chk rep ds1 ps1 Hl1 fuel _ R2 kBlockSize ps2 Hr Hp Hfit Hf) as (r1 & Hr1 & Erep1 & Hn).
  rewrite Hn. apply fits_app in Hfit as [_ Hfit].
  destruct (ReadRecords_prefix (le := le) chk rep ds2 ps2 Hl2 (S (length ds2)) fuel r1 R2 _ Hr1 Hp Hfit) as (k & r2 & -> & Erep2).
  { rewrite length_app in Hf. lia. }
  { lia. }
  exists k, r2. by rewrite Erep2, Erep1.
Qed.

(** ** Arbitrary files *)

Section Total.
Context {le : bool} {F : Type} {sf : SequentialFile F} {rest : F -> list byte} {Hsf : SequentialFileOk sf rest}.
Context (checksum_ : bool) (initial_offset_ : Z) (has_reporter : bool).

Abbreviation Reader := (Log.Reader (F := F)).
Abbreviation read_physical := (ReadPhysicalRecord le checksum_ initial_offset_ has_reporter).

(** What is left to look at. *)
Definition left_over (r : Reader) : nat := length (buffer_ r) + length (rest (file_ r)).

Lemma left_over_set_eof b (r : Reader) : left_over (set_eof b r) = left_over r.
Proof. done. Qed.

Lemma ReportDrop_left n s r : left_over (ReportDrop initial_offset_ has_reporter n s r) = left_over r.
Proof. unfold ReportDrop. by destruct (_ && _). Qed.

Lemma parse_total fuel old r :
  kHeaderSize <= buffer_size r ->
  exists t d r', read_physical (S fuel) old r = Some (t, d, r') /\ (left_over r' < left_over r)%nat.
Proof.
  intros Hge. assert (7 <= length (buffer_ r))%nat as Hl by (unfold buffer_size, kHeaderSize in Hge; lia).
  assert (left_over (set_buffer [] r) < left_over r)%nat as Hclear by (unfold left_over; simpl; lia).
  cbn [ReadPhysicalRecord]. destruct (Z.ltb_spec (buffer_size r) kHeaderSize); [lia|]. cbv zeta.
  destruct (lookup_lt_is_Some_2 (buffer_ r) 4) as [h4 ->]; [lia|].
  destruct (lookup_lt_is_Some_2 (buffer_ r) 5) as [h5 ->]; [lia|].
  destruct (lookup_lt_is_Some_2 (buffer_ r) 6) as [h6 ->]; [lia|].
  set (len := Z.lor (byte_val h4) (Z.shiftl (byte_val h5) 8)).
  assert (0 <= len) as Hlen.
  { unfold len. apply Z.lor_nonneg. pose proof (byte_val_range h4). pose proof (byte_val_range h5).
    split; [lia|]. apply Z.shiftl_nonneg. lia. }
  destruct (Z.ltb_spec (buffer_size r) (kHeaderSize + len)).
  { simpl eof_. destruct (eof_ r); simpl negb; cbv iota; eexists _, _, _; (split; [done|]); [done|].
    unfold ReportCorruption. by rewrite ReportDrop_left. }
  destruct (_ && _); [by eexists _, _, _|].
  destruct (DecodeFixed32_inside le (buffer_ r) ltac:(lia)) as (m & Em & _). rewrite Em.
  unfold crc_Value. rewrite Extend_crc32c by done.
  match goal with |- context [if checksum_ then Some ?b else Some true] =>
    assert (exists c, (if checksum_ then Some b else Some true) = Some c) as (c & ->) by (by destruct checksum_; eexists) end.
  destruct c.
  - match goal with |- context [if ?b then Some (kBadRecord, [], _) else _] => destruct b end;
      eexists _, _, _; (split; [done|]); unfold left_over; cbn [buffer_ file_ set_buffer]; rewrite length_drop;
      unfold kHeaderSize; lia.
  - eexists _, _, _. split; [done|]. unfold ReportCorruption. by rewrite ReportDrop_left.
Qed.

Lemma read_physical_total old r :
  exists t d r', read_physical 3 old r = Some (t, d, r') /\ (t = kEof \/ (left_over r' < left_over r)%nat).
Proof.
  assert (forall fuel r, kHeaderSize <= buffer_size r -> exists t d r', read_physical (S fuel) old r = Some (t, d, r') /\
    (t = kEof \/ (left_over r' < left_over r)%nat)) as Hparse.
  { intros fuel r0 H0. destruct (parse_total fuel old r0 H0) as (t & d & r' & ? & ?). exists t, d, r'. auto. }
  destruct (Z.ltb_spec (buffer_size r) kHeaderSize) as [Hlt|]; [|by apply Hparse].
  assert (forall fuel r, buffer_size r < kHeaderSize -> eof_ r = true ->
    exists t d r', read_physical (S fuel) old r = Some (t, d, r') /\ t = kEof) as Heof.
  { clear. intros fuel r Hlt He. cbn [ReadPhysicalRecord]. rewrite He.
    destruct (Z.ltb_spec (buffer_size r) kHeaderSize); [|lia]. by eexists _, _, _. }
  destruct (eof_ r) eqn:Ee.
  { destruct (Heof 2%nat r Hlt Ee) as (t & d & r' & ? & ?). exists t, d, r'. auto. }
  remember 2%nat as m eqn:Em. cbn [ReadPhysicalRecord]. destruct (Z.ltb_spec (buffer_size r) kHeaderSize); [|lia]. rewrite Ee. simpl negb. cbv iota.
  destruct (read_ok (file_ r) kBlockSize ltac:(done)) as (f' & -> & Hf'). cbv zeta. cbn [ok negb].
  set (data := take (Z.to_nat kBlockSize) (rest (file_ r))) in *.
  set (r1 := set_buffer data (set_file f' (u64 (end_of_buffer_offset_ r + Z.of_nat (length data))) r)).
  assert (left_over r1 <= left_over r)%nat as Hle.
  { unfold left_over, r1. simpl. rewrite Hf', length_drop. unfold data. rewrite length_take. lia. }
  assert (buffer_size r1 = Z.of_nat (length data)) as Hb1 by done.
  subst m. destruct (Z.ltb_spec (buffer_size r1) kBlockSize) as [Hs|Hb].
  - destruct (Z.ltb_spec (buffer_size (set_eof true r1)) kHeaderSize) as [Hlt'|Hge'].
    + destruct (Heof 1%nat (set_eof true r1) Hlt' eq_refl) as (t & d & r' & E & Et). exists t, d, r'. split; [exact E|by left].
    + destruct (parse_total 1 old (set_eof true r1) Hge') as (t & d & r' & E & Hl). exists t, d, r'. split; [exact E|]. right.
      rewrite left_over_set_eof in Hl. clear -Hl Hle. lia.
  - destruct (parse_total 1 old r1) as (t & d & r' & E & Hl); [unfold kHeaderSize, kBlockSize in *; lia|].
    exists t, d, r'. split; [exact E|]. right. lia.
Qed.

Lemma read_loop_total fuel in_frag prosp old scratch r :
  (left_over r < fuel)%nat ->
  exists res, ReadRecord_loop le checksum_ initial_offset_ has_reporter fuel in_frag prosp old scratch r = Some res.
Proof.
  revert in_frag prosp old scratch r. induction fuel as [|fuel IH]; intros in_frag prosp old scratch r Hf; [lia|].
  cbn [ReadRecord_loop]. destruct (read_physical_total old r) as (t & d & r1 & -> & Ht). cbv zeta.
  assert (forall n s r, left_over (ReportCorruption le initial_offset_ has_reporter n s r) = left_over r) as Hrep.
  { intros. apply ReportDrop_left. }
  assert (forall b r, left_over (set_resyncing b r) = left_over r) as Hsync by done.
  destruct Ht as [->|Ht].
  { change (kEof =? record_type_val kMiddleType) with false. change (kEof =? record_type_val kLastType) with false.
    rewrite !andb_false_r. by eexists. }
  repeat first [apply IH; rewrite ?Hrep, ?Hsync; lia | by eexists | case_if]; rewrite ?Hrep, ?Hsync; try lia.
Qed.
End Total.

(** C29. On every file, whatever is in it, from every initial
    offset and with or without checksums, [ReadRecord] terminates, within a number
    of steps bounded by the bytes that are left, and stays inside its buffers. *)
Theorem log_reader_total {F : Type} (sf : SequentialFile F) (rest : F -> list byte) le chk initial rep
    (r : Reader (F := F)) record scratch fuel :
  SequentialFileOk sf rest -> 0 <= initial ->
  (length (buffer_ r) + length (rest (file_ r)) < fuel)%nat ->
  exists found rec scr r', ReadRecord le chk initial rep fuel record scratch r = Some (found, rec, scr, r').
Proof.
  intros Hsf Hi Hf. unfold ReadRecord.
  assert (forall r, (left_over (rest := rest) r < fuel)%nat ->
    exists found rec scr r', ReadRecord_loop le chk initial rep fuel false 0 [] [] r = Some (found, rec, scr, r')) as Hloop.
  { intros r0 H0. destruct (read_loop_total (le := le) (rest := rest) chk initial rep fuel false 0 [] [] r0 H0) as ([[[b rc] sc] r'] & E).
    by exists b, rc, sc, r'. }
  destruct (last_record_offset_ r <? initial); [|by apply Hloop].
  unfold SkipToInitialBlock. cbv zeta. set (start := if kBlockSize - 6 <? initial mod kBlockSize then _ else _).
  assert (0 <= start) as Hs.
  { unfold start. destruct (_ <? _); [apply u64_range|]. pose proof (Z.mod_le initial kBlockSize Hi ltac:(done)). lia. }
  destruct (0 <? start); [|by apply Hloop].
  destruct (skip_ok (file_ (set_file (file_ r) start r)) start Hs) as (f' & -> & Hf'). simpl ok. cbv iota.
  apply Hloop. unfold left_over. simpl in *. rewrite Hf', length_drop. lia.
Qed.
