(* ===== verification/Arena.v ===== *)
(** * The arena of LevelDB: util/arena.h, util/arena.cc

    The arena hands out memory from blocks that it gets from [new char[]] and
    gives back only when it is destroyed.  Where [new] puts a block is a parameter of the
    model; addresses are integers.  [None] is a failed assertion. *)
From S2P Require Import Prelude.

Definition kBlockSize : Z := 4096.

(** [new char[size]], as a function of the blocks there are. *)
Class Allocator := { new_char : list (Z * Z) -> Z -> Z }.

Definition disjoint_from (a b : Z * Z) : Prop := a.1 + a.2 <= b.1 \/ b.1 + b.2 <= a.1.

(** [new] returns memory that is in nobody's use, aligned for any object. *)
Class AllocatorOk (al : Allocator) := {
  new_fresh blocks size : 0 < size -> Forall (disjoint_from (new_char blocks size, size)) blocks;
  new_aligned blocks size : new_char blocks size mod 8 = 0;
  new_positive blocks size : 0 < new_char blocks size;
}.

Record Arena := MkArena {
  alloc_ptr_ : Z;                 (* 0 is NULL *)
  alloc_bytes_remaining_ : Z;
  blocks_ : list (Z * Z);         (* each with its size *)
  memory_usage_ : Z;
}.

Definition new_Arena : Arena := MkArena 0 0 [] 0.

Definition MemoryUsage (a : Arena) : Z := memory_usage_ a.

Section Arena.
Context {al : Allocator}.

Definition AllocateNewBlock (block_bytes : Z) (a : Arena) : Z * Arena :=
  let result := new_char (blocks_ a) block_bytes in
  (result, MkArena (alloc_ptr_ a) (alloc_bytes_remaining_ a) (blocks_ a ++ [(result, block_bytes)])
             (u64 (MemoryUsage a + block_bytes + 8))).

Definition AllocateFallback (bytes : Z) (a : Arena) : Z * Arena :=
  if kBlockSize / 4 <? bytes then AllocateNewBlock bytes a
  else
    let '(result, a) := AllocateNewBlock kBlockSize a in
    (result, MkArena (result + bytes) (kBlockSize - bytes) (blocks_ a) (memory_usage_ a)).

Definition Allocate (bytes : Z) (a : Arena) : option (Z * Arena) :=
  if 0 <? bytes then
    if bytes <=? alloc_bytes_remaining_ a then
      Some (alloc_ptr_ a, MkArena (alloc_ptr_ a + bytes) (alloc_bytes_remaining_ a - bytes) (blocks_ a) (memory_usage_ a))
    else Some (AllocateFallback bytes a)
  else None.

(** [sizeof(void* )] is 8; [needed] is a [size_t]. *)
Definition AllocateAligned (bytes : Z) (a : Arena) : option (Z * Arena) :=
  let align := 8 in
  let current_mod := Z.land (alloc_ptr_ a) (align - 1) in
  let slop := if current_mod =? 0 then 0 else align - current_mod in
  let needed := u64 (bytes + slop) in
  let '(result, a) :=
    if needed <=? alloc_bytes_remaining_ a then
      (alloc_ptr_ a + slop, MkArena (alloc_ptr_ a + needed) (alloc_bytes_remaining_ a - needed) (blocks_ a) (memory_usage_ a))
    else AllocateFallback bytes a in
  if Z.land result (align - 1) =? 0 then Some (result, a) else None.

(** ** The memory handed out *)

Definition inside (a b : Z * Z) : Prop := b.1 <= a.1 /\ a.1 + a.2 <= b.1 + b.2.

Fixpoint pairwise_disjoint (l : list (Z * Z)) : Prop :=
  match l with [] => True | x :: l' => Forall (disjoint_from x) l' /\ pairwise_disjoint l' end.

Definition usage_of (blocks : list (Z * Z)) : Z := foldr (fun b n => b.2 + 8 + n) 0 blocks.

(** What was handed out lies in the blocks and does not overlap, and what remains
    of the current block is still free. *)
Record arena_inv (a : Arena) (given : list (Z * Z)) : Prop := {
  ar_blocks : pairwise_disjoint (blocks_ a);
  ar_block_sizes : Forall (fun b => 0 < b.1 /\ 0 < b.2) (blocks_ a);
  ar_given : pairwise_disjoint given;
  ar_inside : Forall (fun r => 0 < r.2 /\ exists b, In b (blocks_ a) /\ inside r b) given;
  ar_usage : memory_usage_ a = u64 (usage_of (blocks_ a));
  ar_remaining : 0 <= alloc_bytes_remaining_ a /\ 0 <= alloc_ptr_ a;
  ar_current : 0 < alloc_bytes_remaining_ a ->
    (exists b, In b (blocks_ a) /\ inside (alloc_ptr_ a, alloc_bytes_remaining_ a) b) /\
    Forall (disjoint_from (alloc_ptr_ a, alloc_bytes_remaining_ a)) given;
}.

Context {Hal : AllocatorOk al}.

Lemma new_Arena_inv : arena_inv new_Arena [].
Proof. split; simpl; (done || lia || constructor). Qed.

Lemma disjoint_sym a b : disjoint_from a b -> disjoint_from b a.
Proof. unfold disjoint_from. lia. Qed.

Lemma disjoint_inside a a' b : 0 < a'.2 -> inside a' a -> disjoint_from a b -> disjoint_from a' b.
Proof. unfold disjoint_from, inside. lia. Qed.

Lemma pairwise_snoc l x : pairwise_disjoint l -> Forall (disjoint_from x) l -> pairwise_disjoint (l ++ [x]).
Proof.
  induction l as [|y l IH]; simpl; [by split|]. intros [Hy Hl] Hx. inversion Hx as [|? ? Hxy Hxl]; subst. split; [|by apply IH].
  apply Forall_app. split; [done|]. constructor; [by apply disjoint_sym|done].
Qed.

(** A new block is far from everything there is. *)
Lemma fresh_block a given size :
  arena_inv a given -> 0 < size -> let r := (new_char (blocks_ a) size, size) in
  Forall (disjoint_from r) (blocks_ a) /\ Forall (disjoint_from r) given.
Proof.
  intros Hi Hs r. pose proof (new_fresh (blocks_ a) size Hs) as Hf. split; [done|].
  apply Forall_forall. intros g Hg. pose proof (ar_inside _ _ Hi) as Hin. rewrite Forall_forall in Hin.
  destruct (Hin g Hg) as (Hg0 & b & Hb%list_elem_of_In & Hgb). rewrite Forall_forall in Hf.
  apply disjoint_sym, (disjoint_inside b); [done|done|]. by apply disjoint_sym, Hf.
Qed.

Lemma usage_snoc blocks b : u64 (u64 (usage_of blocks) + b.2 + 8) = u64 (usage_of (blocks ++ [b])).
Proof.
  unfold u64. replace (usage_of (blocks ++ [b])) with (usage_of blocks + (b.2 + 8)).
  - rewrite <- (Z.add_mod_idemp_l (usage_of blocks)) by lia. f_equal. lia.
  - unfold usage_of. rewrite foldr_app. simpl. induction blocks as [|c blocks IH]; simpl; lia.
Qed.

Lemma Forall_inside_more (given bs more : list (Z * Z)) :
  Forall (fun r => 0 < r.2 /\ exists b, In b bs /\ inside r b) given ->
  Forall (fun r => 0 < r.2 /\ exists b, In b (bs ++ more) /\ inside r b) given.
Proof.
  intros H. eapply Forall_impl; [exact H|]. intros r (? & b & ? & ?). split; [done|]. exists b.
  split; [apply in_app_iff; auto|done].
Qed.

Lemma fallback_inv a given bytes p a' :
  arena_inv a given -> 0 < bytes -> AllocateFallback bytes a = (p, a') ->
  arena_inv a' ((p, bytes) :: given) /\ p mod 8 = 0 /\ alloc_bytes_remaining_ a' <= Z.max (alloc_bytes_remaining_ a) kBlockSize.
Proof.
  intros Hi Hb. unfold AllocateFallback. destruct (Z.ltb_spec (kBlockSize / 4) bytes) as [Hbig|Hsmall].
  - unfold AllocateNewBlock. intros [= <- <-]. destruct (fresh_block a given bytes Hi Hb) as [Hfb Hfg].
    split; [|split; [apply new_aligned|simpl; lia]]. destruct Hi as [H1 H2 H3 H4 HU H5 H6]. split; simpl.
    + by apply pairwise_snoc.
    + apply Forall_app. split; [done|]. constructor; [|done]. simpl. split; [apply new_positive|done].
    + by split.
    + constructor; [|by apply Forall_inside_more]. split; [done|]. eexists. split; [apply in_app_iff; right; by left|].
      unfold inside. simpl. lia.
    + unfold MemoryUsage. rewrite HU. apply (usage_snoc _ (_, bytes)).
    + done.
    + intros Hr. destruct (H6 Hr) as [(b & Hb' & Hin) Hd]. split; [exists b; split; [apply in_app_iff; auto|done]|].
      constructor; [|done]. rewrite Forall_forall in Hfb. apply (disjoint_inside b); [done|done|].
      by apply disjoint_sym, Hfb, list_elem_of_In.
  - unfold AllocateNewBlock. intros [= <- <-]. change (kBlockSize / 4) with 1024 in Hsmall.
    destruct (fresh_block a given kBlockSize Hi ltac:(done)) as [Hfb Hfg].
    set (r := new_char (blocks_ a) kBlockSize) in *. pose proof (new_positive (blocks_ a) kBlockSize) as Hr. fold r in Hr.
    split; [|split; [apply new_aligned|simpl; unfold kBlockSize; lia]]. destruct Hi as [H1 H2 H3 H4 HU H5 H6]. split; simpl.
    + by apply pairwise_snoc.
    + apply Forall_app. split; [done|]. constructor; [|done]. by split.
    + split; [|done]. eapply Forall_impl; [exact Hfg|]. intros g. unfold disjoint_from, kBlockSize. simpl. lia.
    + constructor; [|by apply Forall_inside_more]. split; [done|]. eexists. split; [apply in_app_iff; right; by left|].
      unfold inside, kBlockSize. simpl. lia.
    + unfold MemoryUsage. rewrite HU. apply (usage_snoc _ (_, kBlockSize)).
    + unfold kBlockSize. lia.
    + intros Hrem. split; [eexists; split; [apply in_app_iff; right; by left|unfold inside, kBlockSize; simpl; lia]|].
      constructor; [unfold disjoint_from; simpl; lia|]. eapply Forall_impl; [exact Hfg|]. intros g.
      unfold disjoint_from, kBlockSize. simpl. lia.
Qed.

(** Taking from the current block, after [slop] bytes that are wasted. *)
Lemma take_inv a given slop bytes :
  arena_inv a given -> 0 < bytes -> 0 <= slop -> bytes + slop <= alloc_bytes_remaining_ a ->
  arena_inv (MkArena (alloc_ptr_ a + (bytes + slop)) (alloc_bytes_remaining_ a - (bytes + slop)) (blocks_ a) (memory_usage_ a))
    ((alloc_ptr_ a + slop, bytes) :: given).
Proof.
  intros [H1 H2 H3 H4 HU H5 H6] Hb Hs Hle. destruct (H6 ltac:(lia)) as [(b & Hin & Hbi) Hd]. split; simpl; try done.
  - split; [|done]. eapply Forall_impl; [exact Hd|]. intros g. unfold disjoint_from. simpl. lia.
  - constructor; [|done]. split; [done|]. exists b. split; [done|]. unfold inside in *. simpl in *. lia.
  - lia.
  - intros Hrem. split; [exists b; split; [done|]; unfold inside in *; simpl in *; lia|].
    constructor; [unfold disjoint_from; simpl; lia|]. eapply Forall_impl; [exact Hd|]. intros g. unfold disjoint_from. simpl. lia.
Qed.

Lemma Allocate_spec a given bytes :
  arena_inv a given -> 0 < bytes ->
  exists p a', Allocate bytes a = Some (p, a') /\ arena_inv a' ((p, bytes) :: given).
Proof.
  intros Hi Hb. unfold Allocate. destruct (Z.ltb_spec 0 bytes); [|lia].
  destruct (Z.leb_spec bytes (alloc_bytes_remaining_ a)).
  - eexists _, _. split; [done|]. pose proof (take_inv a given 0 bytes Hi Hb ltac:(lia) ltac:(lia)) as Ht.
    by rewrite !Z.add_0_r in Ht.
  - destruct (AllocateFallback bytes a) as [p a'] eqn:E. exists p, a'. split; [done|]. by eapply fallback_inv.
Qed.

Lemma land_7 z : Z.land z 7 = z mod 8.
Proof. exact (Z.land_ones z 3 ltac:(lia)). Qed.

Lemma AllocateAligned_spec a given bytes :
  arena_inv a given -> 0 < bytes < 2 ^ 63 ->
  exists p a', AllocateAligned bytes a = Some (p, a') /\ p mod 8 = 0 /\ arena_inv a' ((p, bytes) :: given).
Proof.
  intros Hi [Hb Hmax]. unfold AllocateAligned. cbv zeta. change (8 - 1) with 7. rewrite land_7.
  set (slop := if alloc_ptr_ a mod 8 =? 0 then 0 else 8 - alloc_ptr_ a mod 8).
  pose proof (Z.mod_pos_bound (alloc_ptr_ a) 8 ltac:(lia)) as Hm.
  assert (0 <= slop <= 8 /\ (alloc_ptr_ a + slop) mod 8 = 0) as [[Hs Hs8] Ha].
  { unfold slop. destruct (Z.eqb_spec (alloc_ptr_ a mod 8) 0) as [E|]; [split; [lia|by rewrite Z.add_0_r]|]. split; [lia|].
    pose proof (Z.div_mod (alloc_ptr_ a) 8 ltac:(lia)) as Hd.
    replace (alloc_ptr_ a + (8 - alloc_ptr_ a mod 8)) with ((alloc_ptr_ a / 8 + 1) * 8) by lia. apply Z.mod_mul. lia. }
  replace (u64 (bytes + slop)) with (bytes + slop) by (unfold u64; rewrite Z.mod_small; lia).
  destruct (Z.leb_spec (bytes + slop) (alloc_bytes_remaining_ a)).
  - rewrite land_7, Ha. eexists _, _. split; [done|]. split; [done|]. by apply take_inv.
  - destruct (AllocateFallback bytes a) as [p a'] eqn:E. destruct (fallback_inv a given bytes p a' Hi Hb E) as (Hi' & Hp & _).
    rewrite land_7, Hp. exists p, a'. done.
Qed.
(** ** Any sequence of requests *)

(** The requests, aligned or not, and the regions that are handed out. *)
Fixpoint serve (requests : list (bool * Z)) (a : Arena) : option (list (Z * Z) * Arena) :=
  match requests with
  | [] => Some ([], a)
  | (aligned, bytes) :: requests' =>
      match (if aligned then AllocateAligned bytes a else Allocate bytes a) with
      | Some (p, a) =>
          match serve requests' a with Some (l, a) => Some ((p, bytes) :: l, a) | None => None end
      | None => None
      end
  end.

Lemma serve_spec requests a given :
  arena_inv a given -> Forall (fun r => 0 < r.2 < 2 ^ 63) requests ->
  exists regions a', serve requests a = Some (regions, a') /\ arena_inv a' (rev regions ++ given) /\
    Forall2 (fun r region => region.2 = r.2 /\ (r.1 = true -> region.1 mod 8 = 0)) requests regions.
Proof.
  intros Hi Hr. revert a given Hi. induction Hr as [|[aligned bytes] requests Hb Hr IH]; intros a given Hi.
  { exists [], a. split_and!; [done|done|constructor]. }
  assert (exists p a1, (if aligned then AllocateAligned bytes a else Allocate bytes a) = Some (p, a1) /\
    arena_inv a1 ((p, bytes) :: given) /\ (aligned = true -> p mod 8 = 0)) as (p & a1 & E & Hi1 & Hp).
  { destruct aligned.
    - destruct (AllocateAligned_spec a given bytes Hi Hb) as (p & a1 & E & Hp & Hi1). by exists p, a1.
    - destruct (Allocate_spec a given bytes Hi (proj1 Hb)) as (p & a1 & E & Hi1). by exists p, a1. }
  destruct (IH a1 _ Hi1) as (regions & a' & E' & Hi' & HF). exists ((p, bytes) :: regions), a'. cbn [serve]. rewrite E, E'.
  split_and!; [done| |by constructor]. simpl. by rewrite <- app_assoc.
Qed.

Lemma pairwise_app l1 l2 : pairwise_disjoint (l1 ++ l2) -> pairwise_disjoint l1.
Proof.
  induction l1 as [|x l1 IH]; simpl; [done|]. intros [Hx Hl]. apply Forall_app in Hx as [? _]. split; [done|by apply IH].
Qed.

Lemma pairwise_rev l : pairwise_disjoint (rev l) -> pairwise_disjoint l.
Proof.
  induction l as [|x l IH]; simpl; [done|]. intros H. split; [|by apply IH, (pairwise_app _ [x])].
  clear IH. apply Forall_forall. intros y Hy%list_elem_of_In%in_rev. revert H Hy.
  generalize (rev l). intros r. induction r as [|z r IH]; simpl; [done|]. intros [Hz Hr] [->|Hy]; [|by apply IH].
  apply Forall_app in Hz as [_ Hz]. inversion Hz; subst. by apply disjoint_sym.
Qed.

(** C27. Every sequence of requests is served: each region has the size asked for and the
    alignment of [AllocateAligned] (its final assertion holds), lies in a block of the arena
    and overlaps no other region, and [MemoryUsage] counts every block with its pointer. *)
Theorem arena_allocations requests :
  Forall (fun r => 0 < r.2 < 2 ^ 63) requests ->
  exists regions a, serve requests new_Arena = Some (regions, a) /\
    Forall2 (fun r region => region.2 = r.2 /\ (r.1 = true -> region.1 mod 8 = 0)) requests regions /\
    pairwise_disjoint regions /\ Forall (fun r => exists b, In b (blocks_ a) /\ inside r b) regions /\
    MemoryUsage a = u64 (usage_of (blocks_ a)).
Proof.
  intros Hr. destruct (serve_spec requests new_Arena [] new_Arena_inv Hr) as (regions & a & E & Hi & HF).
  rewrite app_nil_r in Hi. exists regions, a. split_and!; [done|done|by apply pairwise_rev, Hi| |apply Hi].
  pose proof (ar_inside _ _ Hi) as Hin. rewrite Forall_forall in Hin. apply Forall_forall. intros r Hr'.
  apply (Hin r), list_elem_of_In. rewrite <- in_rev. by apply list_elem_of_In.
Qed.
End Arena.
