(* ===== verification/SkipList.v ===== *)
(** * Skip lists of LevelDB: db/skiplist.h

    Nodes live in a store and pointers are indices into it; [None] as a pointer
    is NULL.  A link of a new node is not initialised until it is set, and
    [None] as a result is a read of such a link, a failed assertion or a loop
    that was given too little fuel.  [Insert] is the list of the stores it makes,
    in order, because readers run while it does. *)
From S2P Require Import Prelude Comparator.

(** ** The random number generator of LevelDB: util/random.h *)

Definition random_M : Z := 2147483647.
Definition random_A : Z := 16807.

(** The constructor. *)
Definition new_Random (s : Z) : Z :=
  let seed_ := Z.land s 0x7fffffff in
  if (seed_ =? 0) || (seed_ =? 2147483647) then 1 else seed_.

(** The value returned is the new seed. *)
Definition RandomNext (seed_ : Z) : Z :=
  let product := u64 (seed_ * random_A) in
  let seed_ := u32 (Z.shiftr product 31 + Z.land product random_M) in
  if random_M <? seed_ then u32 (seed_ - random_M) else seed_.

Definition Uniform (n seed_ : Z) : Z * Z := let s := RandomNext seed_ in (s mod n, s).
Definition OneIn (n seed_ : Z) : bool * Z := let s := RandomNext seed_ in (s mod n =? 0, s).
Definition Skewed (max_log seed_ : Z) : Z * Z :=
  let '(b, s) := Uniform (max_log + 1) seed_ in Uniform (Z.shiftl 1 b) s.

(** A seed that is not bad. *)
Definition good_seed (s : Z) : Prop := 1 <= s < random_M.

Lemma new_Random_good s : good_seed (new_Random s).
Proof.
  unfold new_Random, good_seed, random_M. cbv zeta.
  assert (Z.land s 0x7fffffff = s mod 2 ^ 31) as -> by apply (Z.land_ones s 31 ltac:(lia)).
  pose proof (Z.mod_pos_bound s (2 ^ 31) ltac:(lia)).
  destruct (Z.eqb_spec (s mod 2 ^ 31) 0), (Z.eqb_spec (s mod 2 ^ 31) 2147483647); simpl; lia.
Qed.

Lemma RandomNext_mod s :
  good_seed s -> RandomNext s = (s * random_A) mod random_M /\ good_seed (RandomNext s).
Proof.
  intros [Hs Hs']. unfold random_M, random_A in *.
  assert (RandomNext s = (s * 16807) mod 2147483647) as E.
  { unfold RandomNext, random_A, random_M. cbv zeta. rewrite u64_id by lia. set (p := s * 16807).
    change 2147483647 with (Z.ones 31). rewrite Z.land_ones, Z.shiftr_div_pow2 by lia. change (Z.ones 31) with 2147483647.
    pose proof (Z.div_mod p (2 ^ 31) ltac:(lia)) as Hp. pose proof (Z.mod_pos_bound p (2 ^ 31) ltac:(lia)) as Hm.
    assert (0 <= p / 2 ^ 31 < 2 ^ 15) as Hq.
    { unfold p. split; [apply Z.div_pos; lia|apply Z.div_lt_upper_bound; lia]. }
    rewrite u32_id by lia.
    assert (p = 2147483647 * (p / 2 ^ 31) + (p / 2 ^ 31 + p mod 2 ^ 31)) as Hsum by lia.
    destruct (Z.ltb_spec 2147483647 (p / 2 ^ 31 + p mod 2 ^ 31)) as [Hgt|Hle].
    - rewrite u32_id by lia. apply Z.mod_unique_pos with (p / 2 ^ 31 + 1); lia.
    - destruct (decide (p / 2 ^ 31 + p mod 2 ^ 31 = 2147483647)) as [Heq|]; [|apply Z.mod_unique_pos with (p / 2 ^ 31); lia].
      exfalso. assert (2147483647 | s * 16807) as Hd by (exists (p / 2 ^ 31 + 1); fold p; lia).
      rewrite Z.mul_comm in Hd. apply Z.gauss in Hd; [apply Z.divide_pos_le in Hd; lia|done]. }
  split; [exact E|]. rewrite E. pose proof (Z.mod_pos_bound (s * 16807) 2147483647 ltac:(lia)).
  destruct (decide ((s * 16807) mod 2147483647 = 0)) as [Hz|]; [|unfold good_seed, random_M; lia].
  exfalso. apply Z.mod_divide in Hz; [|lia]. rewrite Z.mul_comm in Hz.
  apply Z.gauss in Hz; [apply Z.divide_pos_le in Hz; lia|done].
Qed.

(** From every good seed the shifts and the conditional
    subtraction compute the product modulo 2^31 - 1 exactly, without overflow, and
    the next seed is good again: the "mod == M is not possible" of the comment. *)
Theorem RandomNext_spec s :
  good_seed s -> RandomNext s = (s * random_A) mod random_M /\ good_seed (RandomNext s).
Proof. apply RandomNext_mod. Qed.

Definition kMaxHeight : nat := 12.
Definition kBranching : Z := 4.

Section SkipList.
Context {Key : Type} (compare_ : Key -> Key -> option Z).

Abbreviation ptr := (option nat).

(** [key] is not set for the head node. *)
Record Node := SkipNode {
  node_key : option Key;
  next_ : list (option ptr);   (* [None]: not initialised *)
}.

Record SkipList := Skip {
  nodes : list Node;           (* number 0 is head_ *)
  max_height_ : nat;
  rnd_ : Z;
}.

Definition head_ : nat := 0.

Definition NewNode (key : option Key) (height : nat) : Node := SkipNode key (replicate height None).

(** The head with all its links set to NULL. *)
Definition new_SkipList : SkipList :=
  Skip [SkipNode None (replicate kMaxHeight (Some None))] 1 (new_Random 0xdeadbeef).

Definition GetMaxHeight (l : SkipList) : nat := max_height_ l.

Definition NodeNext (l : SkipList) (x n : nat) : option ptr :=
  match nodes l !! x with
  | Some node => match next_ node !! n with Some (Some p) => Some p | _ => None end
  | None => None
  end.

Definition set_next (l : SkipList) (x n : nat) (p : ptr) : option SkipList :=
  match nodes l !! x with
  | Some node =>
      if (n <? length (next_ node))%nat
      then Some (Skip (<[x := SkipNode (node_key node) (<[n := Some p]> (next_ node))]> (nodes l)) (max_height_ l) (rnd_ l))
      else None
  | None => None
  end.

Definition KeyOf (l : SkipList) (x : nat) : option Key :=
  match nodes l !! x with Some node => node_key node | None => None end.

Definition Equal (a b : Key) : option bool :=
  match compare_ a b with Some r => Some (r =? 0) | None => None end.

(** The comparison is only made when [n] is not NULL. *)
Definition KeyIsAfterNode (l : SkipList) (key : Key) (n : ptr) : option bool :=
  match n with
  | None => Some false
  | Some n =>
      match KeyOf l n with
      | Some k => match compare_ k key with Some r => Some (r <? 0) | None => None end
      | None => None
      end
  end.

(** [RandomHeight]: the height and the generator afterwards. *)
Fixpoint RandomHeight_loop (fuel : nat) (height : nat) (rnd : Z) : option (nat * Z) :=
  if (height <? kMaxHeight)%nat then
    let rnd := RandomNext rnd in
    if rnd mod kBranching =? 0 then
      match fuel with O => None | S fuel' => RandomHeight_loop fuel' (S height) rnd end
    else Some (height, rnd)
  else Some (height, rnd).

Definition RandomHeight (rnd : Z) : option (nat * Z) :=
  match RandomHeight_loop kMaxHeight 1 rnd with
  | Some (height, rnd) => if ((0 <? height) && (height <=? kMaxHeight))%nat then Some (height, rnd) else None
  | None => None
  end.

(** ** Searching

    One turn of the loop of [FindGreaterOrEqual]: the node and the level, and
    after it either a new node and level or the result.  [inl] carries the entry
    of [prev] that was filled, if any. *)
Definition find_step (l : SkipList) (key : Key) (x level : nat)
  : option ((nat * nat * option (nat * nat)) + (ptr * (nat * nat))) :=
  match NodeNext l x level with
  | None => None
  | Some next =>
      match KeyIsAfterNode l key next with
      | None => None
      | Some true => match next with Some y => Some (inl (y, level, None)) | None => None end
      | Some false =>
          match level with
          | O => Some (inr (next, (O, x)))
          | S level' => Some (inl (x, level', Some (level, x)))
          end
      end
  end.

Abbreviation prevs := (list (option nat)).

Fixpoint find_loop (fuel : nat) (l : SkipList) (key : Key) (x level : nat) (prev : prevs) : option (ptr * prevs) :=
  match fuel with
  | O => None
  | S fuel' =>
      match find_step l key x level with
      | None => None
      | Some (inr (next, (lv, p))) => Some (next, <[lv := Some p]> prev)
      | Some (inl (x, level, None)) => find_loop fuel' l key x level prev
      | Some (inl (x, level, Some (lv, p))) => find_loop fuel' l key x level (<[lv := Some p]> prev)
      end
  end.

(** Each turn moves to a later node or to a lower level. *)
Definition search_fuel (l : SkipList) : nat := length (nodes l) + kMaxHeight.

Definition FindGreaterOrEqual (l : SkipList) (key : Key) (prev : prevs) : option (ptr * prevs) :=
  find_loop (search_fuel l) l key head_ (GetMaxHeight l - 1) prev.

Fixpoint less_loop (fuel : nat) (l : SkipList) (key : Key) (x level : nat) : option nat :=
  match fuel with
  | O => None
  | S fuel' =>
      let before :=
        if (x =? head_)%nat then Some true
        else match KeyOf l x with
             | Some k => match compare_ k key with Some r => Some (r <? 0) | None => None end
             | None => None
             end in
      match before, NodeNext l x level with
      | Some true, Some next =>
          match KeyIsAfterNode l key next, next with
          | Some true, Some y => less_loop fuel' l key y level
          | Some false, _ =>
              match level with
              | O => Some x
              | S level' => less_loop fuel' l key x level'
              end
          | _, _ => None
          end
      | _, _ => None
      end
  end.

Definition FindLessThan (l : SkipList) (key : Key) : option nat :=
  less_loop (search_fuel l) l key head_ (GetMaxHeight l - 1).

Fixpoint last_loop (fuel : nat) (l : SkipList) (x level : nat) : option nat :=
  match fuel with
  | O => None
  | S fuel' =>
      match NodeNext l x level with
      | None => None
      | Some None => match level with O => Some x | S level' => last_loop fuel' l x level' end
      | Some (Some y) => last_loop fuel' l y level
      end
  end.

Definition FindLast (l : SkipList) : option nat := last_loop (search_fuel l) l head_ (GetMaxHeight l - 1).

Definition Contains (l : SkipList) (key : Key) : option bool :=
  match FindGreaterOrEqual l key (replicate kMaxHeight None) with
  | None => None
  | Some (None, _) => Some false
  | Some (Some x, _) => match KeyOf l x with Some k => Equal key k | None => None end
  end.

(** ** Inserting *)

(** The stores of [Insert]: the new height of the list, the new node, its links
    (read from the node before it), and the links to it. *)
Inductive store :=
| StoreMaxHeight (height : nat)
| StoreNewNode (key : Key) (height : nat)
| StoreLinkOf (x prev i : nat)     (* x->NoBarrier_SetNext(i, prev->NoBarrier_Next(i)) *)
| StoreLinkTo (prev i x : nat).    (* prev->SetNext(i, x) *)

Definition apply_store (s : store) (l : SkipList) : option SkipList :=
  match s with
  | StoreMaxHeight h => Some (Skip (nodes l) h (rnd_ l))
  | StoreNewNode key h => Some (Skip (nodes l ++ [NewNode (Some key) h]) (max_height_ l) (rnd_ l))
  | StoreLinkOf x prev i =>
      match NodeNext l prev i with Some p => set_next l x i p | None => None end
  | StoreLinkTo prev i x => set_next l prev i (Some x)
  end.

Fixpoint apply_stores (ss : list store) (l : SkipList) : option SkipList :=
  match ss with
  | [] => Some l
  | s :: ss' => match apply_store s l with Some l => apply_stores ss' l | None => None end
  end.

(** [for (int i = from; i < to; i++) prev[i] = head_] *)
Fixpoint fill_prev (n from : nat) (prev : prevs) : prevs :=
  match n with
  | O => prev
  | S n' => fill_prev n' (S from) (<[from := Some head_]> prev)
  end.

(** The last loop, from level [i] for [n] levels. *)
Fixpoint link_stores (n i x : nat) (prev : prevs) : option (list store) :=
  match n with
  | O => Some []
  | S n' =>
      match prev !! i, link_stores n' (S i) x prev with
      | Some (Some p), Some ss => Some (StoreLinkOf x p i :: StoreLinkTo p i x :: ss)
      | _, _ => None
      end
  end.

(** What [Insert] does before its first store that readers can see, and its
    stores. *)
Definition insert_stores (l : SkipList) (key : Key) : option (SkipList * list store) :=
  match FindGreaterOrEqual l key (replicate kMaxHeight None) with
  | None => None
  | Some (x, prev) =>
      let distinct :=
        match x with
        | None => Some true
        | Some x =>
            match KeyOf l x with
            | Some k => match Equal key k with Some b => Some (negb b) | None => None end
            | None => None
            end
        end in
      match distinct, RandomHeight (rnd_ l) with
      | Some true, Some (height, rnd) =>
          let l := Skip (nodes l) (max_height_ l) rnd in
          let higher := (GetMaxHeight l <? height)%nat in
          let prev := if higher then fill_prev (height - GetMaxHeight l) (GetMaxHeight l) prev else prev in
          let x := length (nodes l) in
          match link_stores height 0 x prev with
          | Some links => Some (l, (if higher then [StoreMaxHeight height] else []) ++ StoreNewNode key height :: links)
          | None => None
          end
      | _, _ => None
      end
  end.

Definition Insert (l : SkipList) (key : Key) : option SkipList :=
  match insert_stores l key with
  | Some (l, ss) => apply_stores ss l
  | None => None
  end.

(** ** Iterator

    The node the iterator is on; NULL when it is not valid. *)
Definition IterValid (node_ : ptr) : bool := match node_ with Some _ => true | None => false end.

Definition IterKey (l : SkipList) (node_ : ptr) : option Key :=
  match node_ with Some x => KeyOf l x | None => None end.

Definition IterNext (l : SkipList) (node_ : ptr) : option ptr :=
  match node_ with Some x => NodeNext l x 0 | None => None end.

Definition IterPrev (l : SkipList) (node_ : ptr) : option ptr :=
  match node_ with
  | Some x =>
      match KeyOf l x with
      | Some k =>
          match FindLessThan l k with
          | Some y => Some (if (y =? head_)%nat then None else Some y)
          | None => None
          end
      | None => None
      end
  | None => None
  end.

Definition IterSeek (l : SkipList) (target : Key) : option ptr :=
  match FindGreaterOrEqual l target (replicate kMaxHeight None) with
  | Some (x, _) => Some x
  | None => None
  end.

Definition IterSeekToFirst (l : SkipList) : option ptr := NodeNext l head_ 0.

Definition IterSeekToLast (l : SkipList) : option ptr :=
  match FindLast l with
  | Some y => Some (if (y =? head_)%nat then None else Some y)
  | None => None
  end.
End SkipList.
Arguments Node Key : clear implicits.
Arguments SkipList Key : clear implicits.
Arguments store Key : clear implicits.
