(* ===== verification/SkipListProps.v ===== *)
(** * Skip lists: a sorted list, also while it is being changed *)
From stdpp Require Import sorting.
From Stdlib Require Import Sorted.
From S2P Require Import Prelude Comparator SkipList.

(** ** Chains of links *)

Section Chain.
Context {Key : Type}.
Implicit Types l : SkipList Key.

(** From node [x], the links of level [i] lead through exactly [ns]. *)
Fixpoint chain l (i x : nat) (ns : list nat) : Prop :=
  match ns with
  | [] => NodeNext l x i = Some None
  | y :: ns' => NodeNext l x i = Some (Some y) /\ chain l i y ns'
  end.

Lemma chain_head l i x ns : chain l i x ns -> NodeNext l x i = Some (head ns).
Proof. destruct ns; simpl; [done|]. by intros []. Qed.

Definition last_or (x : nat) (ns : list nat) : nat := default x (last ns).

Lemma last_or_cons x y ns : last_or x (y :: ns) = last_or y ns.
Proof. unfold last_or. rewrite last_cons. by destruct (last ns). Qed.

Lemma last_or_snoc x ns y : last_or x (ns ++ [y]) = y.
Proof. unfold last_or. by rewrite last_snoc. Qed.

Lemma last_or_in x ns : last_or x ns = x \/ In (last_or x ns) ns.
Proof.
  revert x. induction ns as [|y ns IH]; intros x; [by left|]. rewrite last_or_cons. right.
  destruct (IH y) as [->|?]; simpl; auto.
Qed.

Lemma chain_suffix l i x a b : chain l i x (a ++ b) -> chain l i (last_or x a) b.
Proof.
  revert x. induction a as [|y a IH]; intros x; [done|]. intros [_ H]. rewrite last_or_cons. by apply IH.
Qed.

(** Nodes and links that a store does not touch. *)
Lemma set_next_spec l x n p l' :
  set_next l x n p = Some l' ->
  (forall y m, NodeNext l' y m = if decide (y = x /\ m = n) then Some p else NodeNext l y m) /\
  (forall y, KeyOf l' y = KeyOf l y) /\ max_height_ l' = max_height_ l /\ rnd_ l' = rnd_ l /\
  length (nodes l') = length (nodes l) /\
  (forall y nd, nodes l !! y = Some nd -> exists nd', nodes l' !! y = Some nd' /\ node_key nd' = node_key nd /\
     length (next_ nd') = length (next_ nd)).
Proof.
  unfold set_next. destruct (nodes l !! x) as [nd|] eqn:E; [|done].
  destruct (Nat.ltb_spec n (length (next_ nd))) as [Hn|]; [|done]. intros [= <-].
  pose proof (lookup_lt_Some _ _ _ E) as Hx. split_and!; try done.
  - intros y m. unfold NodeNext. simpl. destruct (decide (y = x)) as [->|Hy].
    + rewrite list_lookup_insert_eq by done. simpl. rewrite E. destruct (decide (m = n)) as [->|Hm].
      * rewrite list_lookup_insert_eq, decide_True by done. done.
      * rewrite list_lookup_insert_ne, decide_False by first [congruence | intros []; congruence]. done.
    + rewrite list_lookup_insert_ne, decide_False by first [congruence | intros []; congruence]. done.
  - intros y. unfold KeyOf. simpl. destruct (decide (y = x)) as [->|Hy].
    + by rewrite list_lookup_insert_eq, E.
    + by rewrite list_lookup_insert_ne.
  - simpl. apply length_insert.
  - intros y nd' Ey. simpl. destruct (decide (y = x)) as [->|Hy].
    + rewrite list_lookup_insert_eq by done. eexists. split; [done|]. rewrite E in Ey. injection Ey as <-.
      simpl. by rewrite length_insert.
    + rewrite list_lookup_insert_ne by done. by exists nd'.
Qed.

Lemma set_next_defined l x n p q : NodeNext l x n = Some q -> exists l', set_next l x n p = Some l'.
Proof.
  unfold NodeNext, set_next. destruct (nodes l !! x) as [nd|]; [|done].
  destruct (next_ nd !! n) as [o|] eqn:E; [|done]. apply lookup_lt_Some in E. intros _.
  destruct (Nat.ltb_spec n (length (next_ nd))); [by eexists|lia].
Qed.

Lemma chain_frame l l' i x ns :
  chain l i x ns -> (forall y, y = x \/ In y ns -> NodeNext l' y i = NodeNext l y i) -> chain l' i x ns.
Proof.
  revert x. induction ns as [|y ns IH]; intros x; simpl; intros H Hf; [rewrite Hf; auto|].
  destruct H as [H1 H2]. split; [rewrite Hf; auto|]. apply IH; [done|]. intros z [->|Hz]; apply Hf; auto.
Qed.

(** A node is put between two parts of a chain. *)
Lemma chain_insert l l' i x a b n :
  chain l i x (a ++ b) -> NoDup (x :: a ++ b) -> ~ In n (x :: a ++ b) ->
  NodeNext l' n i = NodeNext l (last_or x a) i -> NodeNext l' (last_or x a) i = Some (Some n) ->
  (forall y, y <> n -> y <> last_or x a -> NodeNext l' y i = NodeNext l y i) ->
  chain l' i x (a ++ n :: b).
Proof.
  revert x. induction a as [|y a IH]; intros x Hc Hd Hn E1 E2 Hf; simpl in *.
  - change (last_or x []) with x in *. split; [done|].
    apply NoDup_cons in Hd as [Hx Hd]. destruct b as [|z b]; simpl in *; [by rewrite E1|].
    destruct Hc as [Hz Hc]. split; [by rewrite E1|]. apply (chain_frame l); [done|]. intros w Hw.
    assert (In w (z :: b)) as Hw' by (destruct Hw as [->|]; simpl; auto).
    apply Hf; [intros ->; apply Hn; auto|intros ->; apply Hx; by apply list_elem_of_In].
  - rewrite last_or_cons in *. destruct Hc as [Hy Hc]. apply NoDup_cons in Hd as [Hx Hd]. split.
    + rewrite Hf; [done|intros ->; apply Hn; auto|]. intros Ex. apply Hx. rewrite Ex.
      apply list_elem_of_In. destruct (last_or_in y a) as [->|?]; simpl; [auto|]. right. apply in_app_iff. auto.
    + apply IH; try done. tauto.
Qed.
End Chain.

(** ** The invariant *)

Section Inv.
Context {Key : Type} {compare_ : Key -> Key -> option Z} {valid : Key -> Prop} {Hord : KeyOrder compare_ valid}.
Abbreviation SkipList := (SkipList Key).

Definition keyed (l : SkipList) (P : Key -> Prop) (n : nat) : Prop := exists k, KeyOf l n = Some k /\ valid k /\ P k.
Definition below (l : SkipList) (key : Key) : nat -> Prop := keyed l (fun k => cmp_lt compare_ k key).
Definition at_or_past (l : SkipList) (key : Key) : nat -> Prop := keyed l (fun k => cmp_le compare_ key k).
Definition node_lt (l : SkipList) (a b : nat) : Prop := exists k, KeyOf l b = Some k /\ valid k /\ below l k a.

(** The nodes that are linked at level [i]. *)
Definition at_level (h : nat -> nat) (i : nat) (ns : list nat) : list nat := filter (fun n => i < h n)%nat ns.

(** [base] is the list in order, and [h] says how far up each node is linked: while
    a node is being inserted that is less than its height. *)
Record sl_inv (l : SkipList) (base : list nat) (h : nat -> nat) : Prop := {
  si_height : (1 <= max_height_ l <= kMaxHeight)%nat;
  si_seed : good_seed (rnd_ l);
  si_chain i : (i < kMaxHeight)%nat -> chain l i head_ (at_level h i base);
  si_keys n : In n base -> keyed l (fun _ => True) n;
  si_linked n : In n base -> (1 <= h n <= max_height_ l)%nat /\ n <> head_;
  si_sorted : StronglySorted (node_lt l) base;
}.

Lemma at_level_app h i a b : at_level h i (a ++ b) = at_level h i a ++ at_level h i b.
Proof. apply filter_app. Qed.

Lemma at_level_cons_in h i n ns : (i < h n)%nat -> at_level h i (n :: ns) = n :: at_level h i ns.
Proof. intros. unfold at_level. by rewrite filter_cons_True. Qed.

Lemma at_level_cons_out h i n ns : (h n <= i)%nat -> at_level h i (n :: ns) = at_level h i ns.
Proof. intros. unfold at_level. rewrite filter_cons_False by lia. done. Qed.

Lemma at_level_in h i ns n : In n (at_level h i ns) <-> In n ns /\ (i < h n)%nat.
Proof. unfold at_level. rewrite <- !list_elem_of_In, list_elem_of_filter. tauto. Qed.

Lemma at_level_ext h h' i ns : (forall n, In n ns -> h n = h' n) -> at_level h i ns = at_level h' i ns.
Proof.
  induction ns as [|n ns IH]; intros E; [done|]. assert (h n = h' n) as En by (apply E; simpl; auto).
  destruct (decide (i < h n)%nat).
  - rewrite !at_level_cons_in by lia. f_equal. apply IH. intros; apply E; simpl; auto.
  - rewrite !at_level_cons_out by lia. apply IH. intros; apply E; simpl; auto.
Qed.

Lemma at_level_0 h ns : (forall n, In n ns -> (1 <= h n)%nat) -> at_level h 0 ns = ns.
Proof.
  induction ns as [|n ns IH]; intros H; [done|]. rewrite at_level_cons_in by (specialize (H n (or_introl eq_refl)); lia).
  f_equal. apply IH. intros m Hm. apply H. by right.
Qed.

Lemma node_lt_irrefl l n : ~ node_lt l n n.
Proof. intros (k & E & _ & k' & E' & _ & Hlt). rewrite E in E'. injection E' as ->. by apply key_lt_irrefl in Hlt. Qed.

Lemma sorted_NoDup l base : StronglySorted (node_lt l) base -> NoDup base.
Proof.
  induction 1 as [|n base Hs IH Hn]; [constructor|]. apply NoDup_cons. split; [|done].
  intros Hin%list_elem_of_In. rewrite List.Forall_forall in Hn. by apply (node_lt_irrefl l n), Hn.
Qed.

(** Where a node is, and what is in front of it. *)
Lemma sorted_split l base x target :
  StronglySorted (node_lt l) base -> In x base -> below l target x -> valid target ->
  exists P Q, base = P ++ x :: Q /\ Forall (below l target) P.
Proof.
  intros Hs Hin (k & Ek & Hvk & Hlt) Ht. apply in_split in Hin as (P & Q & ->). exists P, Q. split; [done|].
  apply List.Forall_forall. intros y Hy. apply StronglySorted_app in Hs as (Hs & _ & _).
  destruct (Hs y x) as (k' & E' & _ & ky & Eky & Hvy & Hy'); [by apply list_elem_of_In|constructor|].
  rewrite Ek in E'. injection E' as <-. exists ky. split_and!; [done|done|]. by apply (key_lt_trans (valid := valid) ky k target).
Qed.

(** ** One turn of the search

    A position from which the search at a level can go on. *)
Definition rpos (l : SkipList) (base : list nat) (h : nat -> nat) (target : Key) (x level : nat) : Prop :=
  x = head_ \/ (In x base /\ (level < h x)%nat /\ below l target x).

Lemma rpos_split l base h target x level :
  sl_inv l base h -> valid target -> (level < kMaxHeight)%nat -> rpos l base h target x level ->
  exists P Q, base = P ++ Q /\ last_or head_ P = x /\ Forall (below l target) P /\
    last_or head_ (at_level h level P) = x /\
    NodeNext l x level = Some (head (at_level h level Q)).
Proof.
  intros Hi Ht Hl [->|(Hin & Hh & Hb)].
  - exists [], base. split_and!; [done|done|constructor|done|]. by apply chain_head, si_chain.
  - destruct (sorted_split l base x target (si_sorted _ _ _ Hi) Hin Hb Ht) as (P & Q & -> & HP).
    exists (P ++ [x]), Q. rewrite <- app_assoc, last_or_snoc, at_level_app, at_level_cons_in, last_or_snoc by done.
    split_and!; [done|done| |done|].
    + apply Forall_app. split; [done|]. by constructor.
    + pose proof (si_chain _ _ _ Hi level Hl) as Hc. rewrite at_level_app, at_level_cons_in in Hc by done.
      change (x :: at_level h level Q) with ([x] ++ at_level h level Q) in Hc. rewrite app_assoc in Hc.
      apply chain_suffix in Hc. rewrite last_or_snoc in Hc. by apply chain_head in Hc.
Qed.

Lemma KeyIsAfterNode_spec l target n :
  valid target -> (forall y, n = Some y -> keyed l (fun _ => True) y) ->
  exists b, KeyIsAfterNode compare_ l target n = Some b /\
    (if b then exists y, n = Some y /\ below l target y else forall y, n = Some y -> at_or_past l target y).
Proof.
  intros Ht Hk. destruct n as [y|]; [|by exists false]. destruct (Hk y eq_refl) as (k & Ek & Hvk & _).
  unfold KeyIsAfterNode. rewrite Ek. destruct (order_defined k target Hvk Ht) as [x Ex]. rewrite Ex.
  eexists. split; [done|]. destruct (Z.ltb_spec x 0) as [Hx|Hx].
  - exists y. split; [done|]. exists k. split_and!; [done|done|]. by exists x.
  - intros y' [= <-]. exists k. split_and!; [done|done|].
    destruct (key_total k target Hvk Ht) as [Hlt|]; [|done]. apply (cmp_sign k target x Ex) in Hlt. lia.
Qed.

(** The first of the nodes linked at a level, and those it skips. *)
Lemma head_at_level h i Q y : head (at_level h i Q) = Some y ->
  exists Q1 Q2, Q = Q1 ++ y :: Q2 /\ at_level h i Q1 = [] /\ (i < h y)%nat.
Proof.
  induction Q as [|z Q IH]; [done|]. destruct (decide (i < h z)%nat) as [Hz|Hz].
  - rewrite at_level_cons_in by done. intros [= ->]. by exists [], Q.
  - rewrite at_level_cons_out by lia. intros (Q1 & Q2 & -> & E & Hy)%IH. exists (z :: Q1), Q2.
    split_and!; [done|rewrite at_level_cons_out by lia; done|done].
Qed.

Inductive found (l : SkipList) (base : list nat) (h : nat -> nat) (target : Key) (x level : nat) (P Q : list nat) :
  (nat * nat * option (nat * nat)) + (option nat * (nat * nat)) -> Prop :=
| found_right y Q1 Q2 : Q = Q1 ++ y :: Q2 -> below l target y -> rpos l base h target y level ->
    found l base h target x level P Q (inl (y, level, None))
| found_down level' : level = S level' -> (forall y, head (at_level h level Q) = Some y -> at_or_past l target y) ->
    rpos l base h target x level' ->
    found l base h target x level P Q (inl (x, level', Some (level, x)))
| found_done : level = 0%nat -> (forall y, head Q = Some y -> at_or_past l target y) ->
    found l base h target x level P Q (inr (head Q, (0%nat, x))).

Lemma find_step_spec l base h target x level :
  sl_inv l base h -> valid target -> (level < kMaxHeight)%nat -> rpos l base h target x level ->
  exists P Q res, base = P ++ Q /\ last_or head_ P = x /\ Forall (below l target) P /\
    last_or head_ (at_level h level P) = x /\
    find_step compare_ l target x level = Some res /\ found l base h target x level P Q res.
Proof.
  intros Hi Ht Hl Hr. destruct (rpos_split l base h target x level Hi Ht Hl Hr) as (P & Q & Eb & Ex & HP & Ex' & En).
  unfold find_step. rewrite En.
  assert (forall y, head (at_level h level Q) = Some y -> In y base /\ keyed l (fun _ => True) y /\ (level < h y)%nat) as Hhead.
  { intros y (Q1 & Q2 & -> & _ & Hy)%head_at_level. assert (In y base) as Hin.
    { rewrite Eb. apply in_app_iff. right. apply in_app_iff. right. by left. }
    split_and!; [done|by apply (si_keys _ _ _ Hi)|done]. }
  destruct (KeyIsAfterNode_spec l target (head (at_level h level Q)) Ht) as (b & -> & Hb).
  { intros y Hy. by apply Hhead. }
  destruct b.
  - destruct Hb as (y & Ey & Hy). rewrite Ey. exists P, Q. eexists. split_and!; try done.
    destruct (head_at_level h level Q y Ey) as (Q1 & Q2 & -> & _ & Hly). econstructor; [done|done|].
    right. split_and!; [by apply Hhead|done|done].
  - destruct level as [|level].
    + exists P, Q. eexists. split_and!; try done.
      assert (at_level h 0 Q = Q) as E0.
      { apply at_level_0. intros n Hn. apply (si_linked _ _ _ Hi n). rewrite Eb. apply in_app_iff. auto. }
      rewrite E0 in *. by constructor.
    + exists P, Q. eexists. split_and!; try done. econstructor; [done|done|].
      destruct Hr as [->|(? & ? & ?)]; [by left|]. right. split_and!; (done || lia).
Qed.

(** The list in front of the target and from the target on. *)
Definition split_at (l : SkipList) (target : Key) (base A B : list nat) : Prop :=
  base = A ++ B /\ Forall (below l target) A /\ Forall (at_or_past l target) B.

Lemma below_not_past l target n : below l target n -> at_or_past l target n -> False.
Proof.
  intros (k & E & _ & H1) (k' & E' & _ & H2). rewrite E in E'. injection E' as ->. by apply (key_lt_not_le _ _ H1).
Qed.

Lemma past_after l target y z : valid target -> at_or_past l target y -> node_lt l y z -> at_or_past l target z.
Proof.
  intros Ht (k & Ek & Hv & Hle) (kz & Ez & Hvz & k' & Ek' & Hvk' & Hlt). rewrite Ek in Ek'. injection Ek' as <-.
  exists kz. split_and!; [done|done|]. apply key_lt_le. by apply (key_le_lt_trans (valid := valid) target k kz).
Qed.

Lemma split_exists l base h target : sl_inv l base h -> valid target -> exists A B, split_at l target base A B.
Proof.
  intros Hi Ht. pose proof (si_sorted _ _ _ Hi) as Hs. pose proof (si_keys _ _ _ Hi) as Hk. clear Hi.
  induction base as [|n base IH]; [by exists [], []|].
  destruct (Hk n (or_introl eq_refl)) as (k & Ek & Hv & _). inversion Hs as [|? ? Hs' Hn]; subst.
  destruct (key_total k target Hv Ht) as [Hlt|Hle].
  - destruct IH as (A & B & -> & HA & HB); [done|intros m Hm; apply Hk; by right|].
    exists (n :: A), B. split_and!; [done| |done]. constructor; [by exists k|done].
  - exists [], (n :: base). split_and!; [done|constructor|]. assert (at_or_past l target n) by by exists k.
    constructor; [done|]. eapply Forall_impl; [exact Hn|]. intros z Hz. by eapply past_after.
Qed.

(** A part below the target whose rest starts at or past it is all of it. *)
Lemma split_prefix l target A B P Q :
  A ++ B = P ++ Q -> Forall (below l target) P -> Forall (at_or_past l target) B ->
  exists A2, A = P ++ A2 /\ Q = A2 ++ B.
Proof.
  intros E HP HB. apply app_eq_app in E as (m & [[-> ->]|[-> ->]]); [by exists m|].
  destruct m as [|n m]; [exists []; by rewrite !app_nil_r|]. exfalso.
  apply Forall_app in HP as [_ HP]. inversion HP; inversion HB; subst. by eapply below_not_past.
Qed.

Lemma head_done l target A B P Q :
  A ++ B = P ++ Q -> Forall (below l target) P -> Forall (below l target) A -> Forall (at_or_past l target) B ->
  (forall y, head Q = Some y -> at_or_past l target y) -> P = A /\ Q = B.
Proof.
  intros E HP HA HB Hh. destruct (split_prefix l target A B P Q E HP HB) as (A2 & -> & ->).
  destruct A2 as [|n A2]; [by rewrite app_nil_r|]. exfalso.
  apply Forall_app in HA as [_ HA]. inversion HA; subst. eapply below_not_past; [done|]. by apply Hh.
Qed.

(** The entry of [prev] at a level: the last node in front of the target that is
    linked there. *)
Lemma prev_at_level l h target A B P Q i :
  A ++ B = P ++ Q -> Forall (below l target) P -> Forall (below l target) A -> Forall (at_or_past l target) B ->
  (forall y, head (at_level h i Q) = Some y -> at_or_past l target y) ->
  at_level h i A = at_level h i P.
Proof.
  intros E HP HA HB Hh. destruct (split_prefix l target A B P Q E HP HB) as (A2 & -> & ->).
  rewrite at_level_app. enough (at_level h i A2 = []) as -> by apply app_nil_r.
  destruct (at_level h i A2) as [|n r] eqn:E2; [done|]. exfalso.
  assert (In n A2) as Hin by (apply (at_level_in h i); rewrite E2; by left).
  apply Forall_app in HA as [_ HA]. rewrite List.Forall_forall in HA.
  apply (below_not_past l target n); [by apply HA|]. apply Hh. by rewrite at_level_app, E2.
Qed.

(** ** The searches *)

Lemma si_NoDup l base h : sl_inv l base h -> NoDup base.
Proof. intros Hi. apply (sorted_NoDup l), Hi. Qed.

Lemma position_unique l base h P Q P' Q' :
  sl_inv l base h -> base = P ++ Q -> base = P' ++ Q' -> last_or head_ P = last_or head_ P' -> Q = Q'.
Proof.
  intros Hi E E' El.
  assert (forall P m Q, base = P ++ m ++ Q -> last_or head_ P = last_or head_ (P ++ m) -> m = []) as Haux.
  { clear - Hi Hord. intros P m Q E El. destruct m as [|n m]; [done|]. exfalso.
    assert (In (last_or head_ (P ++ n :: m)) (n :: m)) as Hin.
    { unfold last_or. rewrite last_app, last_cons. destruct (last_or_in n m) as [H|H]; unfold last_or in H.
      - destruct (last m); simpl in *; auto.
      - destruct (last m); simpl in *; auto. }
    rewrite <- El in Hin.
    assert (In (last_or head_ P) base) as Hb by (rewrite E; apply in_app_iff; right; apply in_app_iff; auto).
    destruct (last_or_in head_ P) as [H|H].
    - rewrite H in Hb. by apply (si_linked _ _ _ Hi head_ Hb).
    - pose proof (si_NoDup _ _ _ Hi) as Hd. rewrite E in Hd. apply NoDup_app in Hd as (_ & Hd & _).
      apply (Hd (last_or head_ P)); [by apply list_elem_of_In|]. apply list_elem_of_In, in_app_iff. auto. }
  rewrite E in E'. apply app_eq_app in E' as (m & [[-> ->]|[-> ->]]).
  - by rewrite (Haux P' m Q (eq_trans E (eq_sym (app_assoc _ _ _))) (eq_sym El)).
  - by rewrite (Haux P m Q' E El).
Qed.

(** Enough fuel from node [x] on. *)
Definition fuel_for (base : list nat) (x level fuel : nat) : Prop :=
  forall P Q, base = P ++ Q -> last_or head_ P = x -> (level + length Q < fuel)%nat.

Lemma fuel_for_right l base h x level fuel P Q Q1 y Q2 :
  sl_inv l base h -> fuel_for base x level (S fuel) -> base = P ++ Q -> last_or head_ P = x -> Q = Q1 ++ y :: Q2 ->
  fuel_for base y level fuel.
Proof.
  intros Hi Hf E Ex -> P' Q' E' Ey. specialize (Hf P _ E Ex). rewrite length_app in Hf. simpl in Hf.
  assert (Q' = Q2) as ->; [|lia].
  eapply (position_unique l base h P' Q' (P ++ Q1 ++ [y]) Q2); [done|done|rewrite E, <- !app_assoc; done|].
  by rewrite app_assoc, last_or_snoc.
Qed.

Lemma fuel_for_down base x level fuel : fuel_for base x (S level) (S fuel) -> fuel_for base x level fuel.
Proof. intros Hf P Q E Ex. specialize (Hf P Q E Ex). lia. Qed.

Lemma nodes_bound l base h : sl_inv l base h -> (length base < length (nodes l))%nat.
Proof.
  intros Hi. assert (forall n, In n base -> (n < length (nodes l))%nat) as Hlt.
  { intros n (k & Ek & _)%(si_keys _ _ _ Hi). unfold KeyOf in Ek. destruct (nodes l !! n) eqn:E; [|done].
    by apply lookup_lt_Some in E. }
  assert (0 < length (nodes l))%nat as Hpos.
  { pose proof (si_chain _ _ _ Hi 0 ltac:(unfold kMaxHeight; lia)) as Hc. apply chain_head in Hc.
    unfold NodeNext, head_ in Hc. destruct (nodes l !! 0%nat) eqn:E; [|done]. by apply lookup_lt_Some in E. }
  enough (length base <= length (seq 1 (length (nodes l) - 1)))%nat as H by (rewrite length_seq in H; lia).
  apply submseteq_length, NoDup_submseteq; [by eapply si_NoDup|].
  intros n Hn%list_elem_of_In. apply list_elem_of_In, in_seq. pose proof (Hlt n Hn).
  destruct (si_linked _ _ _ Hi n Hn) as [_ Hne]. unfold head_ in Hne. lia.
Qed.

Lemma fuel_for_start l base h : sl_inv l base h -> fuel_for base head_ (max_height_ l - 1) (search_fuel l).
Proof.
  intros Hi P Q E _. pose proof (nodes_bound _ _ _ Hi) as Hn. rewrite E, length_app in Hn.
  destruct (si_height _ _ _ Hi). unfold search_fuel. lia.
Qed.

Lemma find_loop_spec fuel l base h target A B x level prev :
  sl_inv l base h -> valid target -> split_at l target base A B ->
  (level < kMaxHeight)%nat -> rpos l base h target x level -> fuel_for base x level fuel -> length prev = kMaxHeight ->
  exists prev', find_loop compare_ fuel l target x level prev = Some (head B, prev') /\ length prev' = kMaxHeight /\
    forall i, prev' !! i = if decide (i <= level)%nat then Some (Some (last_or head_ (at_level h i A))) else prev !! i.
Proof.
  intros Hi Ht (Eb & HA & HB). revert x level prev. induction fuel as [|fuel IH]; intros x level prev Hl Hr Hf Hp.
  { destruct (rpos_split l base h target x level Hi Ht Hl Hr) as (P & Q & E & Ex & _). specialize (Hf P Q E Ex). lia. }
  destruct (find_step_spec l base h target x level Hi Ht Hl Hr) as (P & Q & res & E & Ex & HP & Ex' & Es & Hres).
  cbn [find_loop]. rewrite Es. rewrite Eb in E.
  destruct Hres as [y Q1 Q2 EQ Hy Hr'|level' El Hh Hr'|El Hh]; [|subst level..].
  - apply IH; try done. by apply (fuel_for_right l base h x level fuel P Q Q1 y Q2 Hi Hf (eq_trans Eb E)).
  - destruct (IH x level' (<[S level' := Some x]> prev)) as (prev' & E' & Hp' & Hl'); [lia|done|by apply fuel_for_down|by rewrite length_insert|].
    exists prev'. split_and!; [exact E'|done|]. intros i. rewrite Hl'.
    destruct (decide (i <= level')%nat), (decide (i <= S level')%nat); try lia; [done| |].
    + assert (i = S level') as -> by lia. rewrite list_lookup_insert_eq by lia.
      by rewrite (prev_at_level l h target A B P Q (S level') E HP HA HB Hh), Ex'.
    + by rewrite list_lookup_insert_ne by lia.
  - destruct (head_done l target A B P Q E HP HA HB Hh) as [-> ->]. eexists. split; [done|].
    split; [by rewrite length_insert|]. intros i. destruct (decide (i <= 0)%nat) as [H0|H0].
    + assert (i = 0%nat) as -> by lia. rewrite list_lookup_insert_eq by (rewrite Hp; unfold kMaxHeight; lia). by rewrite Ex'.
    + by rewrite list_lookup_insert_ne by lia.
Qed.

Lemma FindGreaterOrEqual_spec l base h target A B prev :
  sl_inv l base h -> valid target -> split_at l target base A B -> length prev = kMaxHeight ->
  exists prev', FindGreaterOrEqual compare_ l target prev = Some (head B, prev') /\ length prev' = kMaxHeight /\
    forall i, (i < max_height_ l)%nat -> prev' !! i = Some (Some (last_or head_ (at_level h i A))).
Proof.
  intros Hi Ht Hs Hp. pose proof (si_height _ _ _ Hi) as Hh. unfold FindGreaterOrEqual, GetMaxHeight.
  destruct (find_loop_spec (search_fuel l) l base h target A B head_ (max_height_ l - 1) prev Hi Ht Hs)
    as (prev' & E & Hl & Hp'); [lia|by left|by eapply fuel_for_start|done|].
  exists prev'. split_and!; [done|done|]. intros i Hlt. by rewrite Hp', decide_True by lia.
Qed.

Lemma less_loop_spec fuel l base h target A B x level :
  sl_inv l base h -> valid target -> split_at l target base A B ->
  (level < kMaxHeight)%nat -> rpos l base h target x level -> fuel_for base x level fuel ->
  less_loop compare_ fuel l target x level = Some (last_or head_ A).
Proof.
  intros Hi Ht (Eb & HA & HB). revert x level. induction fuel as [|fuel IH]; intros x level Hl Hr Hf.
  { destruct (rpos_split l base h target x level Hi Ht Hl Hr) as (P & Q & E & Ex & _). specialize (Hf P Q E Ex). lia. }
  destruct (find_step_spec l base h target x level Hi Ht Hl Hr) as (P & Q & res & E & Ex & HP & Ex' & Es & Hres).
  cbn [less_loop].
  assert ((if (x =? head_)%nat then Some true else match KeyOf l x with
    | Some k => match compare_ k target with Some r => Some (r <? 0) | None => None end | None => None end) = Some true) as ->.
  { destruct (Nat.eqb_spec x head_); [done|]. destruct Hr as [?|(_ & _ & k & -> & _ & r & -> & Hr)]; [done|].
    by destruct (Z.ltb_spec r 0); [|lia]. }
  unfold find_step in Es. destruct (NodeNext l x level) as [next|]; [|done].
  destruct (KeyIsAfterNode compare_ l target next) as [[]|]; [| |done]; rewrite Eb in E.
  - destruct next as [y|]; [|done]. injection Es as <-. inversion Hres as [y' Q1 Q2 EQ Hy Hr'| |]; subst.
    apply IH; [done|done|]. by eapply (fuel_for_right l _ h (last_or head_ P) level fuel P _ Q1 y Q2 Hi Hf E).
  - destruct level as [|level]; injection Es as <-.
    + inversion Hres as [| |_ Hh EQ]; subst. destruct (head_done l target A B P Q E HP HA HB Hh) as [-> ->]. done.
    + inversion Hres as [|level' El Hh Hr'|]; subst. apply IH; [lia|done|by apply fuel_for_down].
Qed.

Lemma FindLessThan_spec l base h target A B :
  sl_inv l base h -> valid target -> split_at l target base A B ->
  FindLessThan compare_ l target = Some (last_or head_ A).
Proof.
  intros Hi Ht Hs. pose proof (si_height _ _ _ Hi) as Hh.
  eapply less_loop_spec; [done|done|done|unfold GetMaxHeight; lia|by left|by eapply fuel_for_start].
Qed.

Lemma last_loop_spec fuel l base h x level :
  sl_inv l base h -> (level < kMaxHeight)%nat -> x = head_ \/ (In x base /\ (level < h x)%nat) -> fuel_for base x level fuel ->
  last_loop fuel l x level = Some (last_or head_ base).
Proof.
  intros Hi. revert x level. induction fuel as [|fuel IH]; intros x level Hl Hr Hf;
    (assert (exists P Q, base = P ++ Q /\ last_or head_ P = x /\ NodeNext l x level = Some (head (at_level h level Q)))
       as (P & Q & E & Ex & En);
     [destruct Hr as [->|(Hin & Hh)];
       [exists [], base; split_and!; [done|done|by apply chain_head, (si_chain _ _ _ Hi)]|
        apply in_split in Hin as (P & Q & E); exists (P ++ [x]), Q; rewrite <- app_assoc, last_or_snoc; split_and!; [done|done|];
        pose proof (si_chain _ _ _ Hi level Hl) as Hc; rewrite E, at_level_app, at_level_cons_in in Hc by done;
        change (x :: at_level h level Q) with ([x] ++ at_level h level Q) in Hc; rewrite app_assoc in Hc;
        apply chain_suffix in Hc; rewrite last_or_snoc in Hc; by apply chain_head in Hc]|]).
  { specialize (Hf P Q E Ex). lia. }
  cbn [last_loop]. rewrite En. destruct (head (at_level h level Q)) as [y|] eqn:Ey.
  - destruct (head_at_level h level Q y Ey) as (Q1 & Q2 & EQ & _ & Hy). apply IH; [done| |by eapply fuel_for_right].
    right. split; [|done]. rewrite E, EQ. apply in_app_iff. right. apply in_app_iff. right. by left.
  - destruct level as [|level].
    + assert (Q = []) as ->.
      { rewrite (at_level_0 h Q) in Ey; [by destruct Q|]. intros n Hn. apply (si_linked _ _ _ Hi n). rewrite E. apply in_app_iff. auto. }
      rewrite app_nil_r in E. by rewrite E, Ex.
    + apply IH; [lia| |by apply fuel_for_down]. destruct Hr as [|[? ?]]; [by left|right; split; [done|lia]].
Qed.

Lemma FindLast_spec l base h : sl_inv l base h -> FindLast l = Some (last_or head_ base).
Proof.
  intros Hi. pose proof (si_height _ _ _ Hi) as Hh.
  eapply last_loop_spec; [done|unfold GetMaxHeight; lia|by left|by eapply fuel_for_start].
Qed.
End Inv.
