(* ===== verification/SkipSpec.v ===== *)
(** * Skip lists: what the operations promise, alone and next to a writer *)
From stdpp Require Import sorting.
From Stdlib Require Import Sorted.
From S2P Require Import Prelude Comparator SkipList SkipListProps.

(** ** Skip lists: insertion, store by store, and readers in between *)

Section Insert.
Context {Key : Type} {compare_ : Key -> Key -> option Z} {valid : Key -> Prop} {Hord : KeyOrder compare_ valid}.
Abbreviation SkipList := (SkipList Key).
Implicit Types l : SkipList.
Abbreviation sl_inv := (sl_inv (compare_ := compare_) (valid := valid)).
Abbreviation below := (below (compare_ := compare_) (valid := valid)).
Abbreviation at_or_past := (at_or_past (compare_ := compare_) (valid := valid)).

(** ** The stores of an insertion

    [n] is the new node; [A] and [B] are what is in front of it and behind it. *)
Fixpoint links (h : nat -> nat) (A : list nat) (n cnt i : nat) : list (store Key) :=
  match cnt with
  | O => []
  | S c => StoreLinkOf n (last_or head_ (at_level h i A)) i :: StoreLinkTo (last_or head_ (at_level h i A)) i n :: links h A n c (S i)
  end.

(** The node is linked at the first [j] levels. *)
Definition linked (h : nat -> nat) (n j : nat) : nat -> nat := fun m => if decide (m = n) then j else h m.
Definition with_node (A B : list nat) (n j : nat) : list nat := A ++ (if (j =? 0)%nat then [] else [n]) ++ B.

Record inserting (l : SkipList) (h : nat -> nat) (A B : list nat) (n : nat) (key : Key) (height j : nat) : Prop := {
  ig_inv : sl_inv l (with_node A B n j) (linked h n j);
  ig_new : ~ In n (A ++ B) /\ n <> head_;
  ig_node : exists nd, nodes l !! n = Some nd /\ node_key nd = Some key /\ length (next_ nd) = height;
  ig_height : (1 <= height <= max_height_ l)%nat;
  ig_key : valid key;
  ig_A : Forall (below l key) A;
  ig_B : Forall (fun m => exists k, KeyOf l m = Some k /\ valid k /\ cmp_lt compare_ key k) B;
}.

Lemma at_level_with h A B n i j :
  ~ In n (A ++ B) ->
  at_level (linked h n j) i (with_node A B n j) = at_level h i A ++ (if (i <? j)%nat then [n] else []) ++ at_level h i B.
Proof.
  intros Hn. unfold with_node. rewrite !at_level_app.
  assert (forall ns, (forall m, In m ns -> In m (A ++ B)) -> at_level (linked h n j) i ns = at_level h i ns) as Hext.
  { intros ns Hns. apply at_level_ext. intros m Hm. unfold linked. rewrite decide_False; [done|].
    intros ->. by apply Hn, Hns. }
  assert (linked h n j n = j) as El by (unfold linked; by rewrite decide_True).
  assert (at_level (linked h n j) i (if (j =? 0)%nat then [] else [n]) = if (i <? j)%nat then [n] else []) as ->.
  { destruct (Nat.eqb_spec j 0) as [->|]; [done|]. destruct (Nat.ltb_spec i j).
    - by rewrite at_level_cons_in by lia.
    - by rewrite at_level_cons_out by lia. }
  by rewrite (Hext A), (Hext B) by (intros; apply in_app_iff; auto).
Qed.

(** What a store may do: the keys stay, and nodes are only added. *)
Definition keeps_keys (l l' : SkipList) : Prop := forall n k, KeyOf l n = Some k -> KeyOf l' n = Some k.

Lemma keyed_keeps P l l' n : keeps_keys l l' -> keyed (valid := valid) l P n -> keyed (valid := valid) l' P n.
Proof. intros Hk (k & E & ?). exists k. split; [by apply Hk|done]. Qed.

Lemma sorted_keeps l l' base :
  keeps_keys l l' -> StronglySorted (node_lt (compare_ := compare_) (valid := valid) l) base ->
  StronglySorted (node_lt (compare_ := compare_) (valid := valid) l') base.
Proof.
  intros Hk. induction 1 as [|n base Hs IH Hn]; constructor; [done|]. eapply Forall_impl; [exact Hn|].
  intros m (k & E & Hv & Hb). exists k. split_and!; [by apply Hk|done|]. by eapply keyed_keeps.
Qed.

Lemma set_next_keeps l x n p l' : set_next l x n p = Some l' -> keeps_keys l l' /\ keeps_keys l' l.
Proof. intros (_ & Hk & _)%set_next_spec. split; intros m k; by rewrite Hk. Qed.

Lemma node_lt_A l key m : below l key m -> forall n, KeyOf l n = Some key -> valid key -> node_lt (compare_ := compare_) (valid := valid) l m n.
Proof. intros Hb n E Hv. by exists key. Qed.

(** The new node in its place is in order. *)
Lemma sorted_with l A B n key :
  StronglySorted (node_lt (compare_ := compare_) (valid := valid) l) (A ++ B) -> KeyOf l n = Some key -> valid key ->
  Forall (below l key) A -> Forall (fun m => exists k, KeyOf l m = Some k /\ valid k /\ cmp_lt compare_ key k) B ->
  StronglySorted (node_lt (compare_ := compare_) (valid := valid) l) (A ++ n :: B).
Proof.
  intros Hs Ek Hv HA HB. apply StronglySorted_app in Hs as (Hab & Ha & Hb). apply StronglySorted_app. split_and!; [|done|].
  - intros a b Hina Hinb. rewrite Forall_forall in HA. apply elem_of_cons in Hinb as [->|Hinb].
    + exists key. split_and!; [done|done|by apply HA].
    + by apply Hab.
  - constructor; [done|]. eapply Forall_impl; [exact HB|]. intros m (k & E & Hvk & Hlt).
    exists k. split_and!; [done|done|]. by exists key.
Qed.

Lemma KeyOf_node l n nd : nodes l !! n = Some nd -> KeyOf l n = node_key nd.
Proof. intros E. unfold KeyOf. by rewrite E. Qed.

(** [x->NoBarrier_SetNext(i, prev[i]->NoBarrier_Next(i))]: nobody can see it yet. *)
Lemma store_link_of l h A B n key height j :
  inserting l h A B n key height j -> (j < height)%nat ->
  let p := last_or head_ (at_level h j A) in
  exists l', apply_store (StoreLinkOf n p j) l = Some l' /\ inserting l' h A B n key height j /\
    NodeNext l' n j = Some (head (at_level h j B)) /\ keeps_keys l l'.
Proof.
  intros Hg Hj p. pose proof (ig_inv _ _ _ _ _ _ _ _ Hg) as Hi. destruct (ig_new _ _ _ _ _ _ _ _ Hg) as [Hn Hn0].
  destruct (si_height _ _ _ Hi) as [Hmh Hmh']. destruct (ig_height _ _ _ _ _ _ _ _ Hg) as [Hhe Hhe'].
  assert (NodeNext l p j = Some (head (at_level h j B))) as Ep.
  { pose proof (si_chain _ _ _ Hi j ltac:(lia)) as Hc. rewrite at_level_with in Hc by done.
    destruct (Nat.ltb_spec j j); [lia|]. apply chain_suffix, chain_head in Hc. exact Hc. }
  cbn [apply_store]. rewrite Ep.
  destruct (ig_node _ _ _ _ _ _ _ _ Hg) as (nd & End & Ek & El).
  assert (exists l', set_next l n j (head (at_level h j B)) = Some l') as [l' E].
  { unfold set_next. rewrite End, El. destruct (Nat.ltb_spec j height); [by eexists|lia]. }
  exists l'. split; [done|]. destruct (set_next_keeps _ _ _ _ _ E) as [Hk Hk'].
  destruct (set_next_spec _ _ _ _ _ E) as (Hnx & Hkey & Em & Er & Elen & Hnd).
  split_and!; [|by rewrite Hnx, decide_True|done]. destruct Hg as [Hi0 Hnew Hnode Hh Hv HA HB]. split; try done.
  - destruct Hi as [H1 H2 H3 H4 H5 H6]. split; rewrite ?Em, ?Er; try done.
    + intros i Hlt. apply (chain_frame l); [by apply H3|]. intros y Hy. rewrite Hnx. apply decide_False. intros [-> ->].
      destruct Hy as [?|Hy]; [done|]. apply at_level_in in Hy as [_ Hy]. unfold linked in Hy. rewrite decide_True in Hy by done. lia.
    + intros m Hm. eapply keyed_keeps; [done|]. by apply H4.
    + by eapply sorted_keeps.
  - destruct (Hnd n nd End) as (nd' & ? & ? & ?). exists nd'. split_and!; [done|congruence|congruence].
  - by rewrite Em.
  - eapply Forall_impl; [exact HA|]. intros m Hm. by eapply keyed_keeps.
  - eapply Forall_impl; [exact HB|]. intros m (k & ? & ?). exists k. by rewrite Hkey.
Qed.

(** [prev[i]->SetNext(i, x)]: the node is published at one more level. *)
Lemma store_link_to l h A B n key height j :
  inserting l h A B n key height j -> (j < height)%nat -> NodeNext l n j = Some (head (at_level h j B)) ->
  let p := last_or head_ (at_level h j A) in
  exists l', apply_store (StoreLinkTo p j n) l = Some l' /\ inserting l' h A B n key height (S j) /\ keeps_keys l l'.
Proof.
  intros Hg Hj En p. pose proof (ig_inv _ _ _ _ _ _ _ _ Hg) as Hi. destruct (ig_new _ _ _ _ _ _ _ _ Hg) as [Hn Hn0].
  destruct (si_height _ _ _ Hi) as [Hmh Hmh']. destruct (ig_height _ _ _ _ _ _ _ _ Hg) as [Hhe Hhe'].
  pose proof (si_chain _ _ _ Hi j ltac:(lia)) as Hc. rewrite at_level_with in Hc by done.
  destruct (Nat.ltb_spec j j) as [?|_]; [lia|]. simpl app in Hc. pose proof (chain_head _ _ _ _ (chain_suffix _ _ _ _ _ Hc)) as Ep.
  fold p in Ep. cbn [apply_store]. destruct (set_next_defined l p j (Some n) _ Ep) as [l' E].
  exists l'. split; [done|]. destruct (set_next_keeps _ _ _ _ _ E) as [Hk Hk'].
  destruct (set_next_spec _ _ _ _ _ E) as (Hnx & Hkey & Em & Er & Elen & Hnd). split; [|done].
  destruct Hg as [Hi0 Hnew (nd & End & Ek & El) Hh Hv HA HB].
  assert (KeyOf l n = Some key) as Ekey by by rewrite (KeyOf_node _ _ _ End).
  assert (NoDup (head_ :: at_level h j A ++ at_level h j B)) as Hd.
  { assert (at_level h j A ++ at_level h j B = at_level (linked h n j) j (with_node A B n j)) as ->.
    { rewrite at_level_with by done. destruct (Nat.ltb_spec j j); [lia|done]. }
    apply NoDup_cons. split.
    - intros [Hin _]%list_elem_of_In%at_level_in. by destruct (si_linked _ _ _ Hi _ Hin) as [_ []].
    - apply NoDup_filter. eapply (sorted_NoDup l), Hi. }
  assert (~ In n (head_ :: at_level h j A ++ at_level h j B)) as Hnin.
  { intros [?|Hin%in_app_iff]; [congruence|]. apply Hn, in_app_iff.
    destruct Hin as [[? _]%at_level_in|[? _]%at_level_in]; auto. }
  assert (p <> n) as Hpn.
  { intros Epn. apply Hnin. rewrite <- Epn. destruct (last_or_in head_ (at_level h j A)) as [H'|H']; fold p in H'; [left; done|].
    right. apply in_app_iff. auto. }
  split.
  - destruct Hi as [H1 H2 H3 H4 H5 H6]. split; rewrite ?Em, ?Er; try done.
    + intros i Hlt. rewrite at_level_with by done. destruct (decide (i = j)) as [->|Hij].
      * destruct (Nat.ltb_spec j (S j)); [|lia]. simpl app. apply (chain_insert l); try done.
        -- fold p. rewrite Hnx, decide_False by (intros [? _]; congruence). by rewrite En, Ep.
        -- fold p. by rewrite Hnx, decide_True.
        -- intros y _ Hy. rewrite Hnx. apply decide_False. by intros [-> _].
      * specialize (H3 i Hlt). rewrite at_level_with in H3 by done.
        assert ((i <? S j)%nat = (i <? j)%nat) as -> by (destruct (Nat.ltb_spec i (S j)), (Nat.ltb_spec i j); (done || lia)).
        apply (chain_frame l); [done|]. intros y _. rewrite Hnx. apply decide_False. by intros [_ ?].
    + intros m Hm. eapply keyed_keeps; [done|]. unfold with_node in *. simpl in Hm.
      apply in_app_iff in Hm as [Hm|[<-|Hm]]; [apply H4, in_app_iff; auto| |apply H4, in_app_iff; right; apply in_app_iff; auto].
      by exists key.
    + intros m Hm. unfold linked. destruct (decide (m = n)) as [->|Hmn]; [split; [lia|done]|].
      assert (In m (with_node A B n j)) as Hm'.
      { unfold with_node in *. simpl in Hm. apply in_app_iff. apply in_app_iff in Hm as [Hm|[<-|Hm]]; [auto|done|].
        right. apply in_app_iff. auto. }
      specialize (H5 m Hm'). unfold linked in H5. by rewrite decide_False in H5.
    + apply (sorted_keeps l); [done|]. unfold with_node. simpl. apply (sorted_with l A B n key); try done.
      unfold with_node in H6. destruct (j =? 0)%nat; [done|]. simpl in H6.
      apply StronglySorted_app in H6 as (Hab & Ha & Hb). inversion Hb; subst. apply StronglySorted_app.
      split_and!; [|done|done]. intros a b ? ?. apply Hab; [done|]. by constructor.
  - done.
  - destruct (Hnd n nd End) as (nd' & ? & ? & ?). exists nd'. split_and!; [done|congruence|congruence].
  - by rewrite Em.
  - done.
  - eapply Forall_impl; [exact HA|]. intros m Hm. by eapply keyed_keeps.
  - eapply Forall_impl; [exact HB|]. intros m (k & ? & ?). exists k. by rewrite Hkey.
Qed.

(** ** An insertion in progress

    The nodes that can be seen, how far they are linked, the stores still to
    come, and the list afterwards. *)
Definition past (l : SkipList) (key : Key) (m : nat) : Prop := exists k, KeyOf l m = Some k /\ valid k /\ cmp_lt compare_ key k.

Inductive writing l : list nat -> (nat -> nat) -> list (store Key) -> list nat -> Prop :=
| wr_idle base h : sl_inv l base h -> writing l base h [] base
| wr_max h A B n key height : sl_inv l (A ++ B) h -> n = length (nodes l) -> (max_height_ l < height <= kMaxHeight)%nat ->
    valid key -> Forall (below l key) A -> Forall (past l key) B ->
    writing l (A ++ B) h (StoreMaxHeight height :: StoreNewNode key height :: links h A n height 0) (A ++ n :: B)
| wr_node h A B n key height : sl_inv l (A ++ B) h -> n = length (nodes l) -> (1 <= height <= max_height_ l)%nat ->
    valid key -> Forall (below l key) A -> Forall (past l key) B ->
    writing l (A ++ B) h (StoreNewNode key height :: links h A n height 0) (A ++ n :: B)
| wr_link_of h A B n key height j : inserting l h A B n key height j -> (j <= height)%nat ->
    writing l (with_node A B n j) (linked h n j) (links h A n (height - j) j) (A ++ n :: B)
| wr_link_to h A B n key height j : inserting l h A B n key height j -> (j < height)%nat ->
    NodeNext l n j = Some (head (at_level h j B)) ->
    writing l (with_node A B n j) (linked h n j)
      (StoreLinkTo (last_or head_ (at_level h j A)) j n :: links h A n (height - S j) (S j)) (A ++ n :: B).

Lemma writing_inv l base h ss final : writing l base h ss final -> sl_inv l base h.
Proof. destruct 1; try done; by eapply ig_inv. Qed.

(** The list only grows, and so do the links of its nodes. *)
Definition grows (base base' : list nat) (h h' : nat -> nat) : Prop :=
  forall x, In x base -> In x base' /\ (h x <= h' x)%nat.

Lemma keeps_same_nodes l l' : nodes l' = nodes l -> keeps_keys l l'.
Proof. intros En m k. unfold KeyOf. by rewrite En. Qed.

Lemma sl_inv_same_nodes l l' base h :
  nodes l' = nodes l -> (max_height_ l <= max_height_ l' <= kMaxHeight)%nat -> good_seed (rnd_ l') ->
  sl_inv l base h -> sl_inv l' base h.
Proof.
  intros En Hh Hr [H1 H2 H3 H4 H5 H6].
  pose proof (keeps_same_nodes l l' En) as Hk. split; [lia|done| | | |].
  - intros i Hi. apply (chain_frame l); [by apply H3|]. intros y _. unfold NodeNext. by rewrite En.
  - intros n Hn. eapply keyed_keeps; [done|]. by apply H4.
  - intros n Hn. destruct (H5 n Hn). split; [lia|done].
  - by apply (sorted_keeps l).
Qed.

Lemma new_node_keeps l key height :
  let l' := Skip (nodes l ++ [NewNode (Some key) height]) (max_height_ l) (rnd_ l) in
  keeps_keys l l' /\ (forall y i p, NodeNext l y i = Some p -> NodeNext l' y i = Some p) /\
  KeyOf l' (length (nodes l)) = Some key.
Proof.
  intros l'. split_and!.
  - intros m k. unfold KeyOf. simpl. destruct (nodes l !! m) eqn:E; [|done]. by rewrite (lookup_app_l_Some _ _ _ _ E).
  - intros y i p. unfold NodeNext. simpl. destruct (nodes l !! y) eqn:E; [|done]. by rewrite (lookup_app_l_Some _ _ _ _ E).
  - unfold KeyOf. simpl. by rewrite lookup_app_r, Nat.sub_diag by lia.
Qed.

Lemma chain_defined l i x ns : chain l i x ns -> forall y, y = x \/ In y ns -> exists p, NodeNext l y i = Some p.
Proof.
  revert x. induction ns as [|z ns IH]; intros x; simpl.
  - intros E y [->|[]]. by eexists.
  - intros [E H] y [->|[<-|Hy]]; [by eexists|apply (IH z H); auto|apply (IH z H); auto].
Qed.

Lemma sl_inv_new_node l base h key height :
  sl_inv l base h -> sl_inv (Skip (nodes l ++ [NewNode (Some key) height]) (max_height_ l) (rnd_ l)) base h.
Proof.
  intros [H1 H2 H3 H4 H5 H6]. destruct (new_node_keeps l key height) as (Hk & Hn & _).
  split; simpl; try done.
  - intros i Hi. specialize (H3 i Hi). apply (chain_frame l); [done|]. intros y Hy.
    destruct (chain_defined _ _ _ _ H3 y Hy) as [p Ep]. rewrite Ep. by apply Hn.
  - intros n Hin. eapply keyed_keeps; [done|]. by apply H4.
  - by apply (sorted_keeps l).
Qed.

Lemma base_lt l base h n : sl_inv l base h -> In n base -> (n < length (nodes l))%nat.
Proof.
  intros Hi (k & Ek & _)%(si_keys _ _ _ Hi). unfold KeyOf in Ek. destruct (nodes l !! n) eqn:E; [|done].
  by apply lookup_lt_Some in E.
Qed.

Lemma grows_refl base h : grows base base h h.
Proof. by split. Qed.

(** Each store of an insertion succeeds and leads to the next state of it. *)
Lemma writing_step l base h s ss final :
  writing l base h (s :: ss) final ->
  exists l' base' h', apply_store s l = Some l' /\ writing l' base' h' ss final /\ grows base base' h h' /\ keeps_keys l l'.
Proof.
  intros Hw. inversion Hw as [|h0 A B n key height Hi En Hh Hv HA HB|h0 A B n key height Hi En Hh Hv HA HB|
    h0 A B n key height j Hg Hj|h0 A B n key height j Hg Hj En]; subst.
  - eexists _, (A ++ B), h. split; [done|]. split; [|split; [apply grows_refl|by apply keeps_same_nodes]].
    apply wr_node; try done; [|simpl; lia].
    apply (sl_inv_same_nodes l); simpl; [done|lia|apply Hi|done].
  - eexists _, (A ++ B), (linked h (length (nodes l)) 0). split; [done|].
    destruct (new_node_keeps l key height) as (Hk & Hn & Ekey).
    assert (~ In (length (nodes l)) (A ++ B)) as Hnin by (intros Hin; pose proof (base_lt _ _ _ _ Hi Hin); lia).
    assert (forall m, In m (A ++ B) -> linked h (length (nodes l)) 0 m = h m) as Hlk.
    { intros m Hm. unfold linked. rewrite decide_False; [done|]. by intros ->. }
    split_and!; [|intros x Hx; rewrite Hlk by done; split; [done|lia]|done].
    change (A ++ B) with (with_node A B (length (nodes l)) 0).
    replace height with (height - 0)%nat at 2 by lia. apply (wr_link_of _ _ _ _ _ key); [|lia].
    pose proof (sl_inv_new_node _ _ _ key height Hi) as Hi'.
    split; [|split; [done|]| | | | |]; simpl; try done.
    + change (with_node A B (length (nodes l)) 0) with (A ++ B).
      destruct Hi' as [H1 H2 H3 H4 H5 H6]. split; try done.
      * intros i Hlt. rewrite (at_level_ext _ h); [by apply H3|done].
      * intros m Hm. rewrite Hlk by done. by apply H5.
    + assert (0 < length (nodes l))%nat; [|unfold head_; lia]. pose proof (nodes_bound _ _ _ Hi). lia.
    + eexists. split; [by rewrite lookup_app_r, Nat.sub_diag by lia|]. simpl. by rewrite length_replicate.
    + eapply Forall_impl; [exact HA|]. intros m Hm. by eapply keyed_keeps.
    + eapply Forall_impl; [exact HB|]. intros m (k & ? & ?). exists k. split; [by apply Hk|done].
  - match goal with H : links _ _ _ _ _ = _ :: _ |- _ => rename H into El end.
    destruct (height - j)%nat as [|c] eqn:Ec; [done|]. cbn [links] in El. injection El as <- <-.
    destruct (store_link_of l h0 A B n key height j Hg ltac:(lia)) as (l' & E & Hg' & En & Hk).
    exists l', (with_node A B n j), (linked h0 n j). split_and!; [done| |apply grows_refl|done].
    replace c with (height - S j)%nat by lia. by apply (wr_link_to _ _ _ _ _ key); [|lia|].
  - destruct (store_link_to l h0 A B n key height j Hg Hj En) as (l' & E & Hg' & Hk).
    exists l', (with_node A B n (S j)), (linked h0 n (S j)). split_and!; [done| | |done].
    + apply (wr_link_of _ _ _ _ _ key); [done|lia].
    + intros x Hx. split.
      * unfold with_node in *. simpl. apply in_app_iff. apply in_app_iff in Hx as [?|Hx]; [auto|]. right.
        apply in_app_iff in Hx as [Hx|]; [|simpl; auto]. destruct (j =? 0)%nat; simpl in *; [done|]. tauto.
      * unfold linked. destruct (decide (x = n)); lia.
Qed.

(** All of them. *)
Lemma writing_all l base h ss final :
  writing l base h ss final -> exists l' h', apply_stores ss l = Some l' /\ sl_inv l' final h' /\ keeps_keys l l'.
Proof.
  revert l base h. induction ss as [|s ss IH]; intros l base h Hw.
  - exists l. inversion Hw as [base0 h0 Hi| | |h0 A B n key height j Hg Hj El|]; subst.
    + exists h. split_and!; [done|done|by intros m k].
    + destruct (height - j)%nat eqn:Ec; [|done]. exists (linked h0 n j). split_and!; [done| |by intros m k].
      pose proof (ig_inv _ _ _ _ _ _ _ _ Hg) as Hi. destruct (ig_height _ _ _ _ _ _ _ _ Hg). unfold with_node in Hi.
      destruct (Nat.eqb_spec j 0); [lia|done].
  - destruct (writing_step _ _ _ _ _ _ Hw) as (l1 & base1 & h1 & E & Hw1 & _ & Hk1).
    destruct (IH l1 base1 h1 Hw1) as (l' & h' & E' & Hi & Hk2). exists l', h'. simpl. rewrite E.
    split_and!; [done|done|]. intros m k Hm. by apply Hk2, Hk1.
Qed.

(** ** Starting an insertion *)

Lemma RandomHeight_loop_spec fuel height rnd :
  good_seed rnd -> (1 <= height <= kMaxHeight)%nat -> (kMaxHeight - height <= fuel)%nat ->
  exists h rnd', RandomHeight_loop fuel height rnd = Some (h, rnd') /\ (1 <= h <= kMaxHeight)%nat /\ good_seed rnd'.
Proof.
  revert height rnd. induction fuel as [|fuel IH]; intros height rnd Hr Hh Hf; cbn [RandomHeight_loop];
    destruct (Nat.ltb_spec height kMaxHeight); try lia; try (by exists height, rnd).
  destruct (RandomNext_mod rnd Hr) as [_ Hr']. cbv zeta.
  destruct (RandomNext rnd mod kBranching =? 0); [apply IH; [done|lia|lia]|by exists height, (RandomNext rnd)].
Qed.

Lemma RandomHeight_spec rnd : good_seed rnd ->
  exists h rnd', RandomHeight rnd = Some (h, rnd') /\ (1 <= h <= kMaxHeight)%nat /\ good_seed rnd'.
Proof.
  intros Hr. destruct (RandomHeight_loop_spec kMaxHeight 1 rnd Hr) as (h & rnd' & E & Hh & Hr'); [unfold kMaxHeight; lia|lia|].
  exists h, rnd'. unfold RandomHeight. rewrite E.
  by destruct (Nat.ltb_spec 0 h), (Nat.leb_spec h kMaxHeight); try lia.
Qed.

Lemma fill_prev_spec n from prev :
  (from + n <= length prev)%nat -> length (fill_prev n from prev) = length prev /\
  forall i, fill_prev n from prev !! i = if decide (from <= i < from + n)%nat then Some (Some head_) else prev !! i.
Proof.
  revert from prev. induction n as [|n IH]; intros from prev Hl; simpl.
  { split; [done|]. intros i. by rewrite decide_False by lia. }
  destruct (IH (S from) (<[from:=Some head_]> prev)) as [Hlen Hi]; [rewrite length_insert; lia|].
  rewrite length_insert in Hlen. split; [done|]. intros i. rewrite Hi.
  destruct (decide (S from <= i < S from + n)%nat), (decide (from <= i < from + S n)%nat); try lia; [done| |].
  - assert (i = from) as -> by lia. by rewrite list_lookup_insert_eq by lia.
  - by rewrite list_lookup_insert_ne by lia.
Qed.

Lemma link_stores_spec h A n cnt i prev :
  (forall m, (i <= m < i + cnt)%nat -> prev !! m = Some (Some (last_or head_ (at_level h m A)))) ->
  link_stores cnt i n prev = Some (links h A n cnt i).
Proof.
  revert i. induction cnt as [|cnt IH]; intros i Hp; simpl; [done|]. rewrite Hp by lia.
  by rewrite IH by (intros; apply Hp; lia).
Qed.

Lemma Equal_spec a b : valid a -> valid b -> exists r, Equal compare_ a b = Some r /\ (r = true <-> compare_ a b = Some 0).
Proof.
  intros Ha Hb. unfold Equal. destruct (order_defined a b Ha Hb) as [x ->]. eexists. split; [done|].
  rewrite Z.eqb_eq. split; [by intros ->|by intros [= ->]].
Qed.

(** Nothing in the list compares equal to the key. *)
Definition absent (l : SkipList) (base : list nat) (key : Key) : Prop :=
  forall n k, In n base -> KeyOf l n = Some k -> compare_ key k <> Some 0.

Lemma past_distinct l key n : absent l [n] key -> valid key -> at_or_past l key n -> past l key n.
Proof.
  intros Ha Hvk (k & E & Hv & (x & Ex & Hx)). exists k. split_and!; [done|done|]. exists x. split; [done|].
  specialize (Ha n k (or_introl eq_refl) E). destruct (decide (x = 0)) as [->|]; [done|lia].
Qed.

Lemma insert_stores_spec l base h key :
  sl_inv l base h -> valid key -> absent l base key ->
  exists A B l0 ss, split_at (compare_ := compare_) (valid := valid) l key base A B /\
    insert_stores compare_ l key = Some (l0, ss) /\ keeps_keys l l0 /\
    writing l0 base h ss (A ++ length (nodes l) :: B).
Proof.
  intros Hi Hv Ha. destruct (split_exists l base h key Hi Hv) as (A & B & Hs). exists A, B.
  destruct (FindGreaterOrEqual_spec l base h key A B (replicate kMaxHeight None) Hi Hv Hs) as (prev & E & Hpl & Hp); [apply length_replicate|].
  destruct (RandomHeight_spec (rnd_ l) (si_seed _ _ _ Hi)) as (height & rnd & Er & Hh & Hr).
  unfold insert_stores. rewrite E, Er. destruct Hs as (-> & HA & HB).
  assert (Forall (past l key) B) as HB'.
  { apply List.Forall_forall. intros m Hm. rewrite List.Forall_forall in HB. apply past_distinct; [|done|by apply HB].
    intros n k [<-|[]]. apply Ha, in_app_iff. auto. }
  assert (match head B with None => Some true | Some x => match KeyOf l x with Some k => match Equal compare_ key k with Some b => Some (negb b) | None => None end | None => None end end = Some true) as ->.
  { destruct B as [|b B]; [done|]. simpl. inversion HB as [|? ? (k & Ek & Hvk & _)]; subst. rewrite Ek.
    destruct (Equal_spec key k Hv Hvk) as ([] & -> & Hr'); [|done]. exfalso.
    apply (Ha b k); [apply in_app_iff; right; by left|done|]. by apply Hr'. }
  set (l0 := Skip (nodes l) (max_height_ l) rnd). cbv zeta. change (GetMaxHeight l0) with (max_height_ l).
  destruct (si_height _ _ _ Hi) as [Hm1 Hm2].
  assert (sl_inv l0 (A ++ B) h) as Hi0 by (apply (sl_inv_same_nodes l); simpl; (done || lia)).
  assert (link_stores height 0 (length (nodes l0))
    (if (max_height_ l <? height)%nat then fill_prev (height - max_height_ l) (max_height_ l) prev else prev) = Some (links h A (length (nodes l0)) height 0)) as ->.
  { apply link_stores_spec. intros m Hm. destruct (Nat.ltb_spec (max_height_ l) height) as [Hlt|Hge]; [|apply Hp; lia].
    destruct (fill_prev_spec (height - max_height_ l) (max_height_ l) prev) as [_ ->]; [rewrite Hpl; lia|].
    destruct (decide _) as [Hin|]; [|apply Hp; lia].
    assert (at_level h m A = []) as ->; [|done].
    destruct (at_level h m A) as [|y r] eqn:Ey; [done|]. exfalso.
    assert (In y (at_level h m A)) as [HyA Hym]%at_level_in by (rewrite Ey; by left).
    destruct (si_linked _ _ _ Hi y) as [[_ ?] _]; [apply in_app_iff; auto|]. lia. }
  eexists _, _. split; [done|]. split; [done|]. split; [by apply keeps_same_nodes|].
  destruct (Nat.ltb_spec (max_height_ l) height); simpl app; [apply wr_max; (done || simpl; lia)|].
  apply wr_node; try done. simpl. lia.
Qed.

(** ** The properties *)

(** The keys of the list, in order. *)
Definition represents (l : SkipList) (keys : list Key) : Prop :=
  exists base h, sl_inv l base h /\ Forall2 (fun n k => KeyOf l n = Some k) base keys.

Lemma new_SkipList_inv : sl_inv new_SkipList [] (fun _ => 0%nat).
Proof.
  split; simpl; try done.
  - unfold kMaxHeight. lia.
  - intros i Hi. change (NodeNext (@new_SkipList Key) head_ i = Some None). unfold NodeNext, new_SkipList, head_.
    cbn [nodes lookup list_lookup next_]. by rewrite (lookup_replicate_2 kMaxHeight (Some None) i Hi).
  - constructor.
Qed.

Lemma split_keys l base A B key keys :
  split_at (compare_ := compare_) (valid := valid) l key base A B -> Forall2 (fun n k => KeyOf l n = Some k) base keys ->
  exists ka kb, keys = ka ++ kb /\ Forall2 (fun n k => KeyOf l n = Some k) A ka /\
    Forall2 (fun n k => KeyOf l n = Some k) B kb /\
    Forall (fun k => cmp_lt compare_ k key) ka /\ Forall (fun k => cmp_le compare_ key k) kb.
Proof.
  intros (-> & HA & HB) HF. apply Forall2_app_inv_l in HF as (ka & kb & Ha & Hb & ->). exists ka, kb.
  split_and!; try done.
  - clear - Ha HA. induction Ha as [|n k A ka E Ha IH]; [constructor|]. inversion HA as [|? ? (k' & E' & _ & Hlt)]; subst.
    rewrite E in E'. injection E' as <-. constructor; auto.
  - clear - Hb HB. induction Hb as [|n k B kb E Hb IH]; [constructor|]. inversion HB as [|? ? (k' & E' & _ & Hle)]; subst.
    rewrite E in E'. injection E' as <-. constructor; auto.
Qed.

Lemma represents_keeps l l' A ks : keeps_keys l l' -> Forall2 (fun n k => KeyOf l n = Some k) A ks -> Forall2 (fun n k => KeyOf l' n = Some k) A ks.
Proof. intros Hk HF. eapply Forall2_impl; [exact HF|]. intros n k. apply Hk. Qed.

End Insert.

Section Spec.
Context {Key : Type} {compare_ : Key -> Key -> option Z} {valid : Key -> Prop} {Hord : KeyOrder compare_ valid}.
Abbreviation SkipList := (SkipList Key).
Implicit Types l : SkipList.
Abbreviation sl_inv := (sl_inv (compare_ := compare_) (valid := valid)).
Abbreviation below := (below (compare_ := compare_) (valid := valid)).
Abbreviation at_or_past := (at_or_past (compare_ := compare_) (valid := valid)).
Abbreviation represents := (represents (compare_ := compare_) (valid := valid)).
Abbreviation writing := (writing (compare_ := compare_) (valid := valid)).
Abbreviation split_at := (split_at (compare_ := compare_) (valid := valid)).
Abbreviation rpos := (rpos (compare_ := compare_) (valid := valid)).

(** ** A writer alone *)

Lemma apply_store_keeps s l l' : apply_store s l = Some l' -> keeps_keys l l'.
Proof.
  destruct s as [h|key h|x prev i|prev i x]; simpl.
  - intros [= <-]. by apply keeps_same_nodes.
  - intros [= <-]. apply (new_node_keeps l key h).
  - destruct (NodeNext l prev i); [|done]. by intros [? _]%set_next_keeps.
  - by intros [? _]%set_next_keeps.
Qed.

Lemma apply_stores_keeps ss l l' : apply_stores ss l = Some l' -> keeps_keys l l'.
Proof.
  revert l. induction ss as [|s ss IH]; intros l; simpl; [by intros [= <-] m k|].
  destruct (apply_store s l) as [l1|] eqn:E; [|done]. intros E' m k Hm.
  by apply (IH l1), (apply_store_keeps s l l1).
Qed.

Lemma insert_new_key l key l' : Insert compare_ l key = Some l' -> KeyOf l' (length (nodes l)) = Some key.
Proof.
  unfold Insert, insert_stores. destruct (FindGreaterOrEqual _ _ _ _) as [[x prev]|]; [|done].
  cbv zeta. destruct (match x with None => Some true | Some _ => _ end) as [[]|]; [|done|done].
  destruct (RandomHeight (rnd_ l)) as [[height rnd]|]; [|done].
  destruct (link_stores _ _ _ _) as [lks|]; [|done]. cbn [nodes max_height_ GetMaxHeight].
  assert (forall m, apply_stores (StoreNewNode key height :: lks) (Skip (nodes l) m rnd) = Some l' ->
    KeyOf l' (length (nodes l)) = Some key) as Hn.
  { intros m. simpl. intros E%apply_stores_keeps. apply E.
    apply (new_node_keeps (Skip (nodes l) m rnd) key height). }
  destruct (_ <? _)%nat; [apply Hn|apply Hn].
Qed.

(** Stores keep the number of links of every node. *)
Definition keeps_heights (l l' : SkipList) : Prop :=
  forall n node, nodes l !! n = Some node ->
    exists node', nodes l' !! n = Some node' /\ length (next_ node') = length (next_ node).

Lemma set_next_heights l x n p l' : set_next l x n p = Some l' -> keeps_heights l l'.
Proof.
  unfold set_next. destruct (nodes l !! x) as [nx|] eqn:Ex; [|done]. destruct (_ <? _)%nat; [|done].
  intros [= <-] m node Em. simpl. destruct (decide (m = x)) as [->|Hne].
  - rewrite list_lookup_insert_eq by by eapply lookup_lt_Some. eexists. split; [done|]. simpl. rewrite length_insert. congruence.
  - rewrite list_lookup_insert_ne by done. by exists node.
Qed.

Lemma apply_stores_heights ss l l' : apply_stores ss l = Some l' -> keeps_heights l l'.
Proof.
  revert l. induction ss as [|s ss IH]; intros l; simpl; [intros [= <-] m node Em; by exists node|].
  destruct (apply_store s l) as [l1|] eqn:E; [|done]. intros E' m node Em.
  assert (keeps_heights l l1) as Hk.
  { destruct s; simpl in E.
    - injection E as <-. intros k nk Ek. by exists nk.
    - injection E as <-. intros k nk Ek. exists nk. split; [by apply lookup_app_l_Some|done].
    - destruct (NodeNext l prev i); [|done]. by eapply set_next_heights.
    - by eapply set_next_heights. }
  destruct (Hk m node Em) as (n1 & E1 & L1). destruct (IH l1 E' m n1 E1) as (n2 & E2 & L2). exists n2. split; [done|congruence].
Qed.

Lemma insert_new_height l key l' : good_seed (rnd_ l) -> Insert compare_ l key = Some l' ->
  exists node, nodes l' !! length (nodes l) = Some node /\ (length (next_ node) <= kMaxHeight)%nat.
Proof.
  intros Hr. destruct (RandomHeight_spec (rnd_ l) Hr) as (height & rnd & Er & Hh & _). unfold Insert, insert_stores.
  destruct (FindGreaterOrEqual _ _ _ _) as [[x prev]|]; [|done].
  cbv zeta. destruct (match x with None => Some true | Some _ => _ end) as [[]|]; [|done|done]. rewrite Er.
  destruct (link_stores _ _ _ _) as [lks|]; [|done]. cbn [nodes max_height_ GetMaxHeight].
  assert (forall m, apply_stores (StoreNewNode key height :: lks) (Skip (nodes l) m rnd) = Some l' ->
    exists node, nodes l' !! length (nodes l) = Some node /\ (length (next_ node) <= kMaxHeight)%nat) as Hn.
  { intros m. simpl. intros E%apply_stores_heights.
    destruct (E (length (nodes l)) (NewNode (Some key) height)) as (node & En & Hl).
    - simpl. by apply list_lookup_middle.
    - exists node. split; [done|]. rewrite Hl. simpl. rewrite length_replicate. lia. }
  destruct (_ <? _)%nat; [apply Hn|apply Hn].
Qed.

Lemma keys_of_base l base keys n k :
  Forall2 (fun n k => KeyOf l n = Some k) base keys -> In n base -> KeyOf l n = Some k -> In k keys.
Proof.
  induction 1 as [|m k' base keys E _ IH]; intros Hn Ek; [done|]. destruct Hn as [->|Hn]; [left; congruence|right; auto].
Qed.

Lemma base_of_keys l base keys k :
  Forall2 (fun n k => KeyOf l n = Some k) base keys -> In k keys -> exists n, In n base /\ KeyOf l n = Some k.
Proof.
  induction 1 as [|m k' base keys E _ IH]; intros Hk; [done|]. destruct Hk as [->|Hk].
  - exists m. split; [by left|done].
  - destruct (IH Hk) as (n & ? & ?). exists n. split; [by right|done].
Qed.

(** [assert(x == nullptr || !Equal(key, x->key))]: an equal key is a failure. *)
Lemma insert_equal l base h key n k :
  sl_inv l base h -> valid key -> In n base -> KeyOf l n = Some k -> compare_ key k = Some 0 ->
  insert_stores compare_ l key = None.
Proof.
  intros Hi Hv Hn Ek Hc. destruct (split_exists l base h key Hi Hv) as (A & B & Hs).
  destruct (FindGreaterOrEqual_spec l base h key A B (replicate kMaxHeight None) Hi Hv Hs) as (prev & E & _); [apply length_replicate|].
  destruct (si_keys _ _ _ Hi n Hn) as (k' & Ek' & Hvk & _). rewrite Ek in Ek'. injection Ek' as <-.
  destruct Hs as (-> & HA & HB). unfold insert_stores. rewrite E.
  assert (cmp_le compare_ key k) as Hle by (by exists 0).
  assert (cmp_le compare_ k key) as Hge.
  { destruct (order_defined k key Hvk Hv) as [x Ex]. exists x. split; [done|].
    pose proof (order_antisym _ _ _ _ Hc Ex). lia. }
  assert (In n B) as HnB.
  { apply in_app_iff in Hn as [Hn|]; [|done]. exfalso. rewrite List.Forall_forall in HA.
    apply (below_not_past (compare_ := compare_) (valid := valid) l key n); [by apply HA|]. by exists k. }
  destruct B as [|b B]; [done|]. inversion HB as [|? ? (kb & Ekb & Hvb & Hkb) _]; subst. cbn [head hd_error]. cbv zeta. rewrite Ekb.
  assert (compare_ key kb = Some 0) as Hz.
  { assert (cmp_le compare_ kb key) as (y & Ey & Hy).
    { destruct HnB as [->|HnB]; [rewrite Ek in Ekb; by injection Ekb as <-|].
      pose proof (si_sorted _ _ _ Hi) as Hs. apply StronglySorted_app in Hs as (_ & _ & Hs). inversion Hs as [|? ? _ Hbn]; subst.
      rewrite List.Forall_forall in Hbn. destruct (Hbn n HnB) as (k2 & E2 & _ & kb' & Eb' & _ & Hlt).
      rewrite Ek in E2. injection E2 as <-. rewrite Ekb in Eb'. injection Eb' as <-.
      apply (key_le_trans (valid := valid) kb k key); [done|done|done|by apply key_lt_le|done]. }
    destruct Hkb as (x & Ex & Hx). pose proof (order_antisym _ _ _ _ Ex Ey). rewrite Ex. f_equal. lia. }
  unfold Equal. by rewrite Hz.
Qed.

Lemma insert_spec l keys key :
  represents l keys -> valid key ->
  ((forall k, In k keys -> compare_ key k <> Some 0) ->
    exists l' ka kb, Insert compare_ l key = Some l' /\ keys = ka ++ kb /\ represents l' (ka ++ key :: kb) /\
      Forall (fun k => cmp_lt compare_ k key) ka /\ Forall (fun k => cmp_lt compare_ key k) kb) /\
  ((exists k, In k keys /\ compare_ key k = Some 0) -> Insert compare_ l key = None).
Proof.
  intros (base & h & Hi & HF) Hv. split.
  - intros Ha. destruct (insert_stores_spec l base h key Hi Hv) as (A & B & l0 & ss & Hs & E & Hk0 & Hw).
    { intros n k Hn Ek. by apply Ha, (keys_of_base l base keys n k HF). }
    destruct (writing_all _ _ _ _ _ Hw) as (l' & h' & E' & Hi' & Hk1).
    destruct (split_keys l base A B key keys Hs HF) as (ka & kb & -> & HFa & HFb & Hka & Hkb).
    exists l', ka, kb. unfold Insert. rewrite E. split_and!; [done|done| |done|].
    + exists (A ++ length (nodes l) :: B), h'. split; [done|]. apply Forall2_app.
      * by eapply represents_keeps, represents_keeps.
      * constructor; [by apply (insert_new_key l key l'); unfold Insert; rewrite E|]. by eapply represents_keeps, represents_keeps.
    + apply List.Forall_forall. intros k Hin. rewrite List.Forall_forall in Hkb. destruct (Hkb k Hin) as (x & Ex & Hx).
      exists x. split; [done|]. specialize (Ha k (proj2 (in_app_iff _ _ _) (or_intror Hin))).
      destruct (decide (x = 0)) as [->|]; [done|lia].
  - intros (k & Hin & Hc). destruct (base_of_keys l base keys k HF Hin) as (n & Hn & Ek).
    unfold Insert. by rewrite (insert_equal l base h key n k).
Qed.

(** C18. A new list is empty. Inserting a key that compares equal to none of the list succeeds and
    the list then holds it after all the smaller keys and before the others, in order and with
    every level a sublist of the one below (the whole invariant again); inserting a key
    that is there already fails the assertion. *)
Theorem skiplist_insert :
  represents new_SkipList [] /\
  forall l keys key, represents l keys -> valid key ->
  ((forall k, In k keys -> compare_ key k <> Some 0) ->
    exists l' ka kb, Insert compare_ l key = Some l' /\ keys = ka ++ kb /\ represents l' (ka ++ key :: kb) /\
      Forall (fun k => cmp_lt compare_ k key) ka /\ Forall (fun k => cmp_lt compare_ key k) kb) /\
  ((exists k, In k keys /\ compare_ key k = Some 0) -> Insert compare_ l key = None).
Proof.
  split; [|exact insert_spec]. exists [], (fun _ => 0%nat). split; [apply new_SkipList_inv|constructor].
Qed.

(** ** Searches and iteration *)

Lemma split_last_or base A B : base = A ++ B -> ~ In head_ base ->
  (if (last_or head_ A =? head_)%nat then None else Some (last_or head_ A)) = last A.
Proof.
  intros -> Hh. unfold last_or. destruct (last A) as [n|] eqn:E; simpl; [|done].
  destruct (Nat.eqb_spec n head_) as [->|]; [|done]. exfalso. apply Hh, in_app_iff. left.
  apply last_Some in E as [A' ->]. apply in_app_iff. right. by left.
Qed.

Lemma head_not_in l base h : sl_inv l base h -> ~ In head_ base.
Proof. intros Hi Hin. by destruct (si_linked _ _ _ Hi _ Hin). Qed.

Lemma shown_base l base h : sl_inv l base h -> chain l 0 head_ base.
Proof.
  intros Hi. pose proof (si_chain _ _ _ Hi 0%nat ltac:(unfold kMaxHeight; lia)) as Hc.
  by rewrite at_level_0 in Hc by (intros m Hm; apply (si_linked _ _ _ Hi m Hm)).
Qed.

Lemma base_next l base h A n B :
  sl_inv l base h -> base = A ++ n :: B -> NodeNext l n 0 = Some (head B).
Proof.
  intros Hi ->. pose proof (shown_base _ _ _ Hi) as Hc.
  change (n :: B) with ([n] ++ B) in Hc. rewrite app_assoc in Hc.
  apply chain_suffix, chain_head in Hc. by rewrite last_or_snoc in Hc.
Qed.

(** The split at the key of a node of the list is at that node. *)
Lemma split_own l A n B k :
  StronglySorted (node_lt (compare_ := compare_) (valid := valid) l) (A ++ n :: B) -> KeyOf l n = Some k -> valid k ->
  split_at l k (A ++ n :: B) A (n :: B).
Proof.
  intros Hs Ek Hv. apply StronglySorted_app in Hs as (Hab & _ & Hb). split_and!; [done| |].
  - apply List.Forall_forall. intros a Ha. destruct (Hab a n) as (k' & Ek' & _ & Hlt); [by apply list_elem_of_In|constructor|].
    rewrite Ek in Ek'. by injection Ek' as <-.
  - assert (at_or_past l k n) as Hn by (exists k; split_and!; [done|done|by apply (key_le_refl (valid := valid))]).
    inversion Hb as [|? ? _ Hnb]; subst. constructor; [done|]. eapply Forall_impl; [exact Hnb|].
    intros m Hm. by apply (past_after l k n m).
Qed.

Lemma represented_sorted l base h keys :
  sl_inv l base h -> Forall2 (fun n k => KeyOf l n = Some k) base keys -> StronglySorted (cmp_lt compare_) keys.
Proof.
  intros Hi HF. pose proof (si_sorted _ _ _ Hi) as Hs. clear Hi. induction HF as [|n k base keys Ek HF IH]; [constructor|].
  inversion Hs as [|? ? Hs' Hn]; subst. constructor; [by apply IH|]. apply List.Forall_forall. intros k' Hk'.
  destruct (base_of_keys l base keys k' HF Hk') as (n' & Hn' & Ek'). rewrite List.Forall_forall in Hn.
  destruct (Hn n' Hn') as (k2 & E2 & _ & k1 & E1 & _ & Hlt). congruence.
Qed.

(** Moving over the nodes. *)
Lemma walk_spec l base h :
  sl_inv l base h ->
  IterSeekToFirst l = Some (head base) /\ IterSeekToLast l = Some (last base) /\
  (forall i n, base !! i = Some n -> IterNext l (Some n) = Some (base !! S i) /\
    IterPrev compare_ l (Some n) = Some (match i with O => None | S j => base !! j end)).
Proof.
  intros Hi. split_and!.
  - unfold IterSeekToFirst. by apply chain_head, shown_base with h.
  - unfold IterSeekToLast. rewrite (FindLast_spec l base h Hi). f_equal.
    apply (split_last_or base base []); [by rewrite app_nil_r|by eapply head_not_in].
  - intros i n En. apply (list_elem_of_split_length base i n) in En as (P & Q & Eb & El). split.
    { unfold IterNext. rewrite (base_next l base h P n Q Hi Eb), Eb, El, lookup_app_r by lia.
      replace (S (length P) - length P)%nat with 1%nat by lia. by destruct Q. }
    destruct (si_keys _ _ _ Hi n) as (k & Ek & Hvk & _); [rewrite Eb; apply in_app_iff; right; by left|].
    unfold IterPrev. rewrite Ek. pose proof (si_sorted _ _ _ Hi) as Hsort. rewrite Eb in Hsort.
    pose proof (split_own l P n Q k Hsort Ek Hvk) as Hsp. rewrite <- Eb in Hsp.
    rewrite (FindLessThan_spec l base h k P (n :: Q) Hi Hvk Hsp). f_equal.
    rewrite (split_last_or base P (n :: Q) Eb) by (by eapply head_not_in). rewrite Eb, El, last_lookup.
    destruct P as [|p P]; [done|]. cbn [length Nat.pred]. rewrite lookup_app_l; [done|simpl; lia].
Qed.

Lemma find_spec l base h keys target :
  sl_inv l base h -> Forall2 (fun n k => KeyOf l n = Some k) base keys -> valid target ->
  exists ka kb, keys = ka ++ kb /\
    Forall (fun k => cmp_lt compare_ k target) ka /\ Forall (fun k => cmp_le compare_ target k) kb /\
    Contains compare_ l target =
      Some (match kb with k :: _ => bool_decide (compare_ target k = Some 0) | [] => false end) /\
    IterSeek compare_ l target = Some (base !! length ka).
Proof.
  intros Hi HF Ht. destruct (split_exists l base h target Hi Ht) as (A & B & Hs).
  destruct (split_keys l base A B target keys Hs HF) as (ka & kb & -> & HFa & HFb & Hka & Hkb).
  destruct (FindGreaterOrEqual_spec l base h target A B (replicate kMaxHeight None) Hi Ht Hs) as (prev & E & _); [apply length_replicate|].
  exists ka, kb. split_and!; try done.
  - unfold Contains. rewrite E. destruct HFb as [|b k B kb Ek HFb]; [done|]. cbn [head hd_error]. rewrite Ek.
    destruct Hs as (_ & _ & HB). inversion HB as [|? ? (k' & Ek' & Hvk & _)]; subst.
    rewrite Ek in Ek'. injection Ek' as <-. destruct (Equal_spec target k Ht Hvk) as (r & -> & Hr). f_equal.
    destruct r; symmetry; [by apply bool_decide_eq_true_2, Hr|]. apply bool_decide_eq_false_2. by rewrite <- Hr.
  - unfold IterSeek. rewrite E. f_equal. destruct Hs as (-> & _ & _).
    rewrite <- (Forall2_length _ _ _ HFa), lookup_app_r, Nat.sub_diag by lia. by destruct B.
Qed.

(** C22. In a list that holds [keys], every search returns (none
    runs out of fuel, reads an unset link or fails an assertion): [Contains] tells whether an
    equal key is there, the iterator's [Seek] goes to the first key at or past the target,
    [SeekToFirst] and [SeekToLast] to the ends, and [Next] and [Prev] step through the nodes
    in the order of the keys, [Prev] from the first to "not valid". *)
Theorem skiplist_search l keys target :
  represents l keys -> valid target ->
  exists base ka kb, Forall2 (fun n k => KeyOf l n = Some k) base keys /\ keys = ka ++ kb /\
    StronglySorted (cmp_lt compare_) keys /\
    Forall (fun k => cmp_lt compare_ k target) ka /\ Forall (fun k => cmp_le compare_ target k) kb /\
    Contains compare_ l target =
      Some (match kb with k :: _ => bool_decide (compare_ target k = Some 0) | [] => false end) /\
    IterSeek compare_ l target = Some (base !! length ka) /\
    IterSeekToFirst l = Some (head base) /\ IterSeekToLast l = Some (last base) /\
    (forall i n, base !! i = Some n -> IterNext l (Some n) = Some (base !! S i) /\
    IterPrev compare_ l (Some n) = Some (match i with O => None | S j => base !! j end)).
Proof.
  intros (base & h & Hi & HF) Ht. destruct (find_spec l base h keys target Hi HF Ht) as (ka & kb & Ek & Ha & Hb & Ec & Es).
  destruct (walk_spec l base h Hi) as (E1 & E2 & E3). exists base, ka, kb.
  split_and!; try done. by eapply represented_sorted.
Qed.

(** ** A reader next to a writer

    The writer is at any point of its insertions, and the reader at any point of
    a [FindGreaterOrEqual]; each step is a store of the one or a turn of the loop
    of the other. *)
Inductive reader :=
| Idle
| Searching (x level : nat)
| Found (node : option nat).

Record sys := Sys { sys_list : SkipList; sys_stores : list (store Key); sys_reader : reader }.

Inductive sys_step (target : Key) : sys -> sys -> Prop :=
| step_insert l key l' ss r : valid key -> insert_stores compare_ l key = Some (l', ss) ->
    sys_step target (Sys l [] r) (Sys l' ss r)
| step_store l s ss r l' : apply_store s l = Some l' ->
    sys_step target (Sys l (s :: ss) r) (Sys l' ss r)
| step_search l ss r : sys_step target (Sys l ss r) (Sys l ss (Searching head_ (GetMaxHeight l - 1)))
| step_turn l ss x level x' level' p : find_step compare_ l target x level = Some (inl (x', level', p)) ->
    sys_step target (Sys l ss (Searching x level)) (Sys l ss (Searching x' level'))
| step_found l ss x level next p : find_step compare_ l target x level = Some (inr (next, p)) ->
    sys_step target (Sys l ss (Searching x level)) (Sys l ss (Found next)).

Definition sys_steps (target : Key) : sys -> sys -> Prop := rtc (sys_step target).

(** The nodes from which the list can be read at a moment, in order. *)
Definition shown l (base : list nat) : Prop := chain l 0 head_ base.

Record sys_ok (target : Key) (s : sys) (base : list nat) (h : nat -> nat) : Prop := {
  so_writer : exists final, writing (sys_list s) base h (sys_stores s) final;
  so_reader x level : sys_reader s = Searching x level ->
    (level < kMaxHeight)%nat /\ rpos (sys_list s) base h target x level;
}.

Lemma rpos_grows l l' base base' h h' target x level :
  grows base base' h h' -> keeps_keys l l' -> rpos l base h target x level -> rpos l' base' h' target x level.
Proof.
  intros Hg Hk [->|(Hin & Hh & Hb)]; [by left|right]. destruct (Hg x Hin) as [? ?].
  split_and!; [done|lia|by eapply keyed_keeps].
Qed.

Lemma shown_inv l base h : sl_inv l base h -> shown l base.
Proof. apply shown_base. Qed.

Lemma absent_inserts l base h key l' ss :
  sl_inv l base h -> valid key -> insert_stores compare_ l key = Some (l', ss) -> absent (compare_ := compare_) l base key.
Proof. intros Hi Hv E n k Hn Ek Hc. by rewrite (insert_equal l base h key n k) in E. Qed.

Lemma sys_step_ok target s s' base h :
  valid target -> sys_ok target s base h -> sys_step target s s' ->
  exists base' h', sys_ok target s' base' h' /\ grows base base' h h' /\ keeps_keys (sys_list s) (sys_list s').
Proof.
  intros Ht [[final Hw] Hr] Hs. pose proof (writing_inv _ _ _ _ _ Hw) as Hi.
  destruct Hs as [l key l' ss r Hv E|l st ss r l' E|l ss r|l ss x level x' level' p E|l ss x level next p E]; simpl in *.
  - pose proof (absent_inserts l base h key l' ss Hi Hv E) as Ha.
    destruct (insert_stores_spec l base h key Hi Hv Ha) as (A & B & l0 & ss0 & (-> & _ & _) & E0 & Hk & Hw0).
    rewrite E in E0. injection E0 as <- <-. exists (A ++ B), h. split_and!; [|apply grows_refl|done]. split; simpl.
    + eexists. exact Hw0.
    + intros x level Er. destruct (Hr x level Er). split; [done|]. eapply rpos_grows; [apply grows_refl|done|done].
  - destruct (writing_step _ _ _ _ _ _ Hw) as (l1 & base1 & h1 & E1 & Hw1 & Hg & Hk). rewrite E in E1. injection E1 as <-.
    exists base1, h1. split_and!; [|done|done]. split; simpl; [by eexists|].
    intros x level Er. destruct (Hr x level Er). split; [done|]. by eapply rpos_grows.
  - exists base, h. split_and!; [|apply grows_refl|by intros m k]. split; simpl; [by eexists|].
    intros x level [= <- <-]. pose proof (si_height _ _ _ Hi). unfold GetMaxHeight. split; [lia|by left].
  - exists base, h. split_and!; [|apply grows_refl|by intros m k]. split; simpl; [by eexists|].
    intros x1 level1 [= <- <-]. destruct (Hr x level eq_refl) as [Hl Hp].
    destruct (find_step_spec l base h target x level Hi Ht Hl Hp) as (P & Q & res & _ & _ & _ & _ & Es & Hres).
    rewrite E in Es. injection Es as <-. inversion Hres; subst; (split; [lia|done]).
  - exists base, h. split_and!; [|apply grows_refl|by intros m k]. split; simpl; [by eexists|done].
Qed.

Lemma sys_steps_ok target s s' : sys_steps target s s' -> forall base h, valid target -> sys_ok target s base h ->
  exists base' h', sys_ok target s' base' h' /\ grows base base' h h' /\ keeps_keys (sys_list s) (sys_list s').
Proof.
  induction 1 as [s|s s1 s2 Hs _ IH]; intros base h Ht Hok.
  - exists base, h. split_and!; [done|apply grows_refl|by intros m k].
  - destruct (sys_step_ok target s s1 base h Ht Hok Hs) as (base1 & h1 & Hok1 & Hg1 & Hk1).
    destruct (IH base1 h1 Ht Hok1) as (base2 & h2 & Hok2 & Hg2 & Hk2). exists base2, h2. split_and!; [done| |].
    + intros x Hx. destruct (Hg1 x Hx) as [Hx1 ?]. destruct (Hg2 x Hx1). split; [done|lia].
    + intros m k Hm. by apply Hk2, Hk1.
Qed.

Lemma sys_start_ok target l keys : represents l keys -> exists base h, sys_ok target (Sys l [] Idle) base h.
Proof. intros (base & h & Hi & _). exists base, h. split; simpl; [exists base; by constructor|done]. Qed.

Lemma chain_unique l i x ns ns' : chain l i x ns -> chain l i x ns' -> ns = ns'.
Proof.
  revert x ns'. induction ns as [|y ns IH]; intros x [|y' ns']; simpl; try done; [intros H [H' _]; congruence|intros [H _] H'; congruence|].
  intros [E H] [E' H']. rewrite E in E'. injection E' as <-. f_equal. by eapply IH.
Qed.

(** C19. While a writer inserts keys, one store at a time and with readers in
    between any two of them: each store of the writer is possible; each turn of a reader's
    search reads only nodes and links that are set, and when the search ends, its result is
    the first node at or past the target in the list as it can be read at that moment,
    which is in order; and no key that could once be read disappears. *)
Theorem skiplist_concurrent_reader l keys target s :
  represents l keys -> valid target -> sys_steps target (Sys l [] Idle) s ->
  (forall st ss, sys_stores s = st :: ss -> is_Some (apply_store st (sys_list s))) /\
  (forall x level, sys_reader s = Searching x level ->
     exists res, find_step compare_ (sys_list s) target x level = Some res /\
       forall next p, res = inr (next, p) ->
         exists A B, shown (sys_list s) (A ++ B) /\
           StronglySorted (node_lt (compare_ := compare_) (valid := valid) (sys_list s)) (A ++ B) /\
           Forall (below (sys_list s) target) A /\ Forall (at_or_past (sys_list s) target) B /\ next = head B) /\
  (forall s' base base' n k, sys_steps target s s' -> shown (sys_list s) base -> shown (sys_list s') base' ->
     In n base -> KeyOf (sys_list s) n = Some k -> In n base' /\ KeyOf (sys_list s') n = Some k).
Proof.
  intros Hrep Ht Hs. destruct (sys_start_ok target l keys Hrep) as (base0 & h0 & Hok0).
  destruct (sys_steps_ok _ _ _ Hs base0 h0 Ht Hok0) as (base & h & Hok & _ & _).
  destruct Hok as [[final Hw] Hr]. pose proof (writing_inv _ _ _ _ _ Hw) as Hi. split_and!.
  - intros st ss E. rewrite E in Hw. destruct (writing_step _ _ _ _ _ _ Hw) as (l' & _ & _ & -> & _). by eexists.
  - intros x level E. destruct (Hr x level E) as [Hl Hp].
    destruct (find_step_spec _ base h target x level Hi Ht Hl Hp) as (P & Q & res & Eb & _ & HP & _ & Es & Hres).
    exists res. split; [done|]. intros next p ->. inversion Hres as [| |El Hh]; subst.
    destruct (split_exists _ _ h target Hi Ht) as (A & B & Eb & HA & HB).
    destruct (head_done _ target A B P Q (eq_sym Eb) HP HA HB Hh) as [-> ->]. exists A, B.
    split_and!; [by eapply shown_inv|by apply Hi|done|done|done].
  - intros s' b b' n k Hs' Hb Hb' Hn Ek.
    destruct (sys_steps_ok _ _ _ Hs' base h Ht (Build_sys_ok _ _ _ _ (ex_intro _ final Hw) Hr)) as (base' & h' & [[final' Hw'] _] & Hg & Hk).
    rewrite (chain_unique _ _ _ _ _ Hb (shown_inv _ _ _ Hi)) in Hn.
    rewrite (chain_unique _ _ _ _ _ Hb' (shown_inv _ _ _ (writing_inv _ _ _ _ _ Hw'))).
    split; [by apply Hg|by apply Hk].
Qed.

(** C30. From any moment of such a run, the search of a reader ends if the writer
    pauses: [search_fuel] turns of its loop are enough for a result, which the reader then
    has. *)
Theorem skiplist_reader_finishes l keys target s x level prev :
  represents l keys -> valid target -> sys_steps target (Sys l [] Idle) s -> sys_reader s = Searching x level ->
  exists next prev', find_loop compare_ (search_fuel (sys_list s)) (sys_list s) target x level prev = Some (next, prev') /\
    sys_steps target s (Sys (sys_list s) (sys_stores s) (Found next)).
Proof.
  intros Hrep Ht Hs Er. destruct (sys_start_ok target l keys Hrep) as (base0 & h0 & Hok0).
  destruct (sys_steps_ok _ _ _ Hs base0 h0 Ht Hok0) as (base & h & [[final Hw] Hr] & _ & _).
  pose proof (writing_inv _ _ _ _ _ Hw) as Hi. destruct (Hr x level Er) as [Hl Hp].
  destruct s as [l1 ss r]. simpl in *. subst r. clear Hs Hw Hr.
  assert (fuel_for base x level (search_fuel l1)) as Hf.
  { intros P Q E _. pose proof (nodes_bound _ _ _ Hi) as Hn. rewrite E, length_app in Hn. unfold search_fuel. lia. }
  revert x level prev Hl Hp Hf. induction (search_fuel l1) as [|fuel IH]; intros x level prev Hl Hp Hf.
  { destruct (rpos_split _ base h target x level Hi Ht Hl Hp) as (P & Q & E & Ex & _). specialize (Hf P Q E Ex). lia. }
  destruct (find_step_spec _ base h target x level Hi Ht Hl Hp) as (P & Q & res & E & Ex & _ & _ & Es & Hres).
  cbn [find_loop]. rewrite Es. destruct res as [[[x' level'] p]|[next [lv p]]].
  - assert ((level' < kMaxHeight)%nat /\ rpos l1 base h target x' level' /\ fuel_for base x' level' fuel) as (Hl' & Hp' & Hf').
    { inversion Hres as [y Q1 Q2 EQ Hy Hr'|lv Elv Hh Hr'|]; subst; split_and!; try done; try lia.
      - by eapply (fuel_for_right l1 _ h (last_or head_ P) level' fuel P _ Q1 x' Q2 Hi Hf).
      - by apply fuel_for_down. }
    assert (forall prev, exists next prev', find_loop compare_ fuel l1 target x' level' prev = Some (next, prev') /\
      sys_steps target (Sys l1 ss (Searching x level)) (Sys l1 ss (Found next))) as Hnext.
    { intros prev1. destruct (IH x' level' prev1 Hl' Hp' Hf') as (next & prev' & En & Hn). exists next, prev'.
      split; [done|]. eapply rtc_l; [|exact Hn]. by eapply step_turn. }
    destruct p as [[lv p]|]; apply Hnext.
  - eexists next, _. split; [done|]. apply rtc_once. by eapply step_found.
Qed.

End Spec.
