(* ===== verification/MemTable.v ===== *)
(** * The memtable of LevelDB: db/memtable.h, db/memtable.cc

    Entries are byte strings, each the encoding of an internal key and a value, kept in a
    skip list that is ordered by [KeyComparator].  The memory of the entries and of the nodes
    comes from the arena.  [None] is a failed assertion or a read outside an
    entry. *)
From S2P Require Import Prelude Coding Comparator DbFormat Status Iter Arena SkipList.

(** [GetLengthPrefixedSlice(const char* data)] of memtable.cc: no more than five bytes are
    looked at for the length, and what is behind them is assumed to be there.  The
    slice and what follows it. *)
Definition GetLengthPrefixedSlice_data (data : list byte) : option (list byte * list byte) :=
  match GetVarint32Ptr (take 5 data) with
  | None => None
  | Some (len, rest) =>
      let p := drop (length (take 5 data) - length rest) data in
      if Z.of_nat (length p) <? len then None else Some (take (Z.to_nat len) p, drop (Z.to_nat len) p)
  end.

Definition EncodeKey (target : list byte) : list byte :=
  PutVarint32 [] (u32 (Z.of_nat (length target))) ++ target.

Section MemTable.
Context (kLittleEndian : bool) (user_comparator : Comparator) {al : Allocator}.

Definition KeyComparator (aptr bptr : list byte) : option Z :=
  match GetLengthPrefixedSlice_data aptr, GetLengthPrefixedSlice_data bptr with
  | Some (a, _), Some (b, _) => @Compare (InternalKeyComparator kLittleEndian user_comparator) a b
  | _, _ => None
  end.

Record MemTable := Mem { refs_ : Z; arena_ : Arena; table_ : SkipList (list byte) }.

(** [sizeof(Node) + sizeof(port::AtomicPointer) * (height - 1)] *)
Definition node_bytes (height : nat) : Z := 16 + 8 * (Z.of_nat height - 1).

Definition new_MemTable : option MemTable :=
  match AllocateAligned (node_bytes kMaxHeight) new_Arena with
  | Some (_, arena) => Some (Mem 0 arena new_SkipList)
  | None => None
  end.

Definition Ref (m : MemTable) : MemTable := Mem (refs_ m + 1) (arena_ m) (table_ m).

(** Whether the table is deleted, with its last reference. *)
Definition Unref (m : MemTable) : option (MemTable * bool) :=
  let refs := refs_ m - 1 in
  if 0 <=? refs then Some (Mem refs (arena_ m) (table_ m), refs <=? 0) else None.

Definition ApproximateMemoryUsage (m : MemTable) : Z := MemoryUsage (arena_ m).

(** How high [Insert] made its new node. *)
Definition inserted_height (before after : SkipList (list byte)) : nat :=
  match nodes after !! length (nodes before) with Some node => length (next_ node) | None => 0 end.

Definition Add (s type : Z) (key value : list byte) (m : MemTable) : option MemTable :=
  let key_size := Z.of_nat (length key) in
  let val_size := Z.of_nat (length value) in
  let internal_key_size := key_size + 8 in
  match VarintLength internal_key_size, VarintLength val_size with
  | Some n1, Some n2 =>
      let encoded_len := n1 + internal_key_size + n2 + val_size in
      match Allocate encoded_len (arena_ m) with
      | None => None
      | Some (_, arena) =>
          let buf := EncodeVarint32 (u32 internal_key_size) ++ key ++
            EncodeFixed64 kLittleEndian (Z.lor (u64 (Z.shiftl s 8)) type) ++
            EncodeVarint32 (u32 val_size) ++ value in
          if Z.of_nat (length buf) =? encoded_len then
            match Insert KeyComparator (table_ m) buf with
            | None => None
            | Some table =>
                match AllocateAligned (node_bytes (inserted_height (table_ m) table)) arena with
                | Some (_, arena) => Some (Mem (refs_ m) arena table)
                | None => None
                end
            end
          else None
      end
  | _, _ => None
  end.

(** The result with [*value] and [*s] afterwards. *)
Definition Get (m : MemTable) (key : LookupKey_t) (value : list byte) (s : Status)
  : option (bool * list byte * Status) :=
  let memkey := memtable_key key in
  match IterSeek KeyComparator (table_ m) memkey with
  | None => None
  | Some node =>
      if IterValid node then
        match IterKey (table_ m) node with
        | None => None
        | Some entry =>
            match GetLengthPrefixedSlice_data entry with
            | None => None
            | Some (key_slice, rest) =>
                match ExtractUserKey key_slice with
                | None => None
                | Some user =>
                    match @Compare user_comparator user (lookup_user_key key) with
                    | None => None
                    | Some r =>
                        if r =? 0 then
                          match ExtractTag kLittleEndian key_slice with
                          | None => None
                          | Some tag =>
                              if Z.land tag 0xff =? kTypeValue then
                                match GetLengthPrefixedSlice_data rest with
                                | Some (v, _) => Some (true, v, s)
                                | None => None
                                end
                              else if Z.land tag 0xff =? kTypeDeletion then
                                match new_Status kLittleEndian kNotFound [] [] with
                                | Some s => Some (true, value, s)
                                | None => None
                                end
                              else Some (false, value, s)
                          end
                        else Some (false, value, s)
                    end
                end
            end
        end
      else Some (false, value, s)
  end.

(** ** MemTableIterator *)

Record MemTableIterator := MemIter { mi_table : SkipList (list byte); mi_node : option nat }.

Definition NewIterator (m : MemTable) : MemTableIterator := MemIter (table_ m) None.

Definition move_to (it : MemTableIterator) (node : option (option nat)) : option MemTableIterator :=
  match node with Some n => Some (MemIter (mi_table it) n) | None => None end.

Definition mem_key (it : MemTableIterator) : option (list byte) :=
  match IterKey (mi_table it) (mi_node it) with
  | Some entry => match GetLengthPrefixedSlice_data entry with Some (k, _) => Some k | None => None end
  | None => None
  end.

Definition mem_value (it : MemTableIterator) : option (list byte) :=
  match IterKey (mi_table it) (mi_node it) with
  | Some entry =>
      match GetLengthPrefixedSlice_data entry with
      | Some (_, rest) => match GetLengthPrefixedSlice_data rest with Some (v, _) => Some v | None => None end
      | None => None
      end
  | None => None
  end.

Definition MemTable_iterator : Iterator MemTableIterator := {|
  Valid it := IterValid (mi_node it);
  Seek k it := move_to it (IterSeek KeyComparator (mi_table it) (EncodeKey k));
  SeekToFirst it := move_to it (IterSeekToFirst (mi_table it));
  SeekToLast it := move_to it (IterSeekToLast (mi_table it));
  Next it := move_to it (IterNext (mi_table it) (mi_node it));
  Prev it := move_to it (IterPrev KeyComparator (mi_table it) (mi_node it));
  key := mem_key;
  value := mem_value;
  status _ := OK;
|}.
End MemTable.
