(* ===== verification/MemTableProps.v ===== *)
(** * The memtable: the newest visible version of every key *)
From stdpp Require Import sorting.
From Stdlib Require Import Sorted.
From S2P Require Import Prelude Varint Coding CodingProps Comparator DbFormat DbFormatProps Status Iter Arena SkipList SkipListProps SkipSpec MemTable.

(** ** Entries *)

Record update := Update { up_key : list byte; up_seq : Z; up_type : Z; up_value : list byte }.

Definition up_tag (u : update) : Z := packed (up_seq u) (up_type u).
Definition up_internal (u : update) : list byte := internal (up_key u) (up_tag u).

Definition prefixed (bs : list byte) : list byte := EncodeVarint32 (Z.of_nat (length bs)) ++ bs.
Definition enc_update (u : update) : list byte := prefixed (up_internal u) ++ prefixed (up_value u).

Lemma GetLengthPrefixedSlice_data_prefixed bs rest :
  Z.of_nat (length bs) < 2 ^ 32 -> GetLengthPrefixedSlice_data (prefixed bs ++ rest) = Some (bs, rest).
Proof.
  intros Hl. unfold GetLengthPrefixedSlice_data, prefixed. rewrite <- app_assoc.
  set (n := Z.of_nat (length bs)) in *. assert (length (EncodeVarint32 n) <= 5)%nat as Hv.
  { rewrite EncodeVarint32_varint by lia. apply varint_length_32. lia. }
  rewrite take_app_ge by done. change (GetVarint32Ptr ?p) with (GetVarint32 p).
  rewrite GetVarint32_varint by lia. rewrite length_app.
  replace (length (EncodeVarint32 n) + length (take (5 - length (EncodeVarint32 n)) (bs ++ rest)) - length (take (5 - length (EncodeVarint32 n)) (bs ++ rest)))%nat
    with (length (EncodeVarint32 n)) by lia.
  rewrite drop_app_length. unfold n. rewrite length_app. destruct (Z.ltb_spec (Z.of_nat (length bs + length rest)) (Z.of_nat (length bs))); [lia|].
  by rewrite Nat2Z.id, take_app_length, drop_app_length.
Qed.

Section MemTable.
Context {le : bool} {user : Comparator} {valid : list byte -> Prop} {Hok : ComparatorOk user valid}.
Context {al : Allocator} {Hal : AllocatorOk al}.

Abbreviation internal_cmp := (@Compare (InternalKeyComparator le user)).
Abbreviation key_cmp := (KeyComparator le user).

(** Keys that fit the 32-bit length in front of them. *)
Definition mem_valid (k : list byte) : Prop := valid_internal (valid := valid) k /\ Z.of_nat (length k) < 2 ^ 32.
Definition valid_entry (e : list byte) : Prop := exists k rest, e = prefixed k ++ rest /\ mem_valid k.

Lemma KeyComparator_prefixed a b ra rb :
  mem_valid a -> mem_valid b -> key_cmp (prefixed a ++ ra) (prefixed b ++ rb) = internal_cmp a b.
Proof. intros [_ Ha] [_ Hb]. unfold KeyComparator. by rewrite !GetLengthPrefixedSlice_data_prefixed. Qed.

#[export] Instance KeyComparator_order : KeyOrder key_cmp valid_entry.
Proof.
  split.
  - intros a b (ka & ra & -> & Ha) (kb & rb & -> & Hb). rewrite KeyComparator_prefixed by done.
    apply compare_defined; [apply Ha|apply Hb].
  - intros a (ka & ra & -> & Ha). rewrite KeyComparator_prefixed by done. apply compare_refl, Ha.
  - intros a b x y. unfold KeyComparator. destruct (GetLengthPrefixedSlice_data a) as [[ka ?]|]; [|done].
    destruct (GetLengthPrefixedSlice_data b) as [[kb ?]|]; [|done]. apply compare_antisym.
  - intros a b c x y z (ka & ra & -> & Ha) (kb & rb & -> & Hb) (kc & rc & -> & Hc).
    rewrite !KeyComparator_prefixed by done. apply compare_trans; [apply Ha|apply Hb|apply Hc].
Qed.

Definition fits (u : update) : Prop :=
  valid (up_key u) /\ 0 <= up_seq u <= kMaxSequenceNumber /\ (up_type u = kTypeValue \/ up_type u = kTypeDeletion) /\
  Z.of_nat (length (up_key u)) + 8 < 2 ^ 32 /\ Z.of_nat (length (up_value u)) < 2 ^ 32.

Lemma fits_tag u : fits u -> 0 <= up_tag u < 2 ^ 64.
Proof.
  intros (_ & Hs & Ht & _). apply PackSequenceAndType_packed; [done|].
  unfold kValueTypeForSeek, kTypeValue, kTypeDeletion in *. lia.
Qed.

Lemma fits_internal u : fits u -> mem_valid (up_internal u).
Proof.
  intros Hf. pose proof (fits_tag u Hf). destruct Hf as (Hv & _ & _ & Hl & _). split.
  - by exists (up_key u), (up_tag u).
  - unfold up_internal. rewrite length_internal. lia.
Qed.

Lemma fits_entry u : fits u -> valid_entry (enc_update u).
Proof. intros Hf. exists (up_internal u), (prefixed (up_value u)). split; [done|by apply fits_internal]. Qed.

Lemma key_cmp_updates u v : fits u -> fits v -> key_cmp (enc_update u) (enc_update v) = internal_cmp (up_internal u) (up_internal v).
Proof. intros Hu Hv. unfold enc_update. apply KeyComparator_prefixed; by apply fits_internal. Qed.

(** ** Adding *)

(** The table holds these updates. *)
Definition holds (m : MemTable) (us : list update) : Prop :=
  exists given us', arena_inv (arena_ m) given /\
    represents (compare_ := key_cmp) (valid := valid_entry) (table_ m) (map enc_update us') /\
    us' ≡ₚ us /\ Forall fits us.

(** Two versions of the same key with the same sequence number. *)
Definition same_version (u v : update) : Prop := Compare (up_key u) (up_key v) = Some 0 /\ up_tag u = up_tag v.

Lemma internal_cmp_zero u v : fits u -> fits v -> internal_cmp (up_internal u) (up_internal v) = Some 0 -> same_version u v.
Proof.
  intros Hu Hv E. pose proof (fits_tag u Hu). pose proof (fits_tag v Hv).
  destruct (compare_defined (up_key u) (up_key v)) as [x Ex]; [apply Hu|apply Hv|].
  unfold up_internal in E. simpl in E. erewrite internal_compare_spec in E by done. injection E as E.
  destruct (Z.eqb_spec x 0) as [->|]; [|lia]. split; [done|]. lia.
Qed.

Lemma Add_buf u :
  fits u ->
  VarintLength (Z.of_nat (length (up_key u)) + 8) = Some (Z.of_nat (length (EncodeVarint32 (Z.of_nat (length (up_key u)) + 8)))) /\
  VarintLength (Z.of_nat (length (up_value u))) = Some (Z.of_nat (length (EncodeVarint32 (Z.of_nat (length (up_value u)))))) /\
  EncodeVarint32 (u32 (Z.of_nat (length (up_key u)) + 8)) ++ up_key u ++
    EncodeFixed64 le (Z.lor (u64 (Z.shiftl (up_seq u) 8)) (up_type u)) ++
    EncodeVarint32 (u32 (Z.of_nat (length (up_value u)))) ++ up_value u = enc_update u.
Proof.
  intros Hf. pose proof (fits_tag u Hf) as Ht. destruct Hf as (_ & Hs & Hty & Hk & Hv).
  assert (forall v, 0 <= v < 2 ^ 32 -> VarintLength v = Some (Z.of_nat (length (EncodeVarint32 v)))) as Hlen.
  { intros v Hr. rewrite EncodeVarint32_varint by done. apply VarintLength_varint. lia. }
  split_and!; [apply Hlen; lia|apply Hlen; lia|]. rewrite !u32_id by lia.
  assert (Z.lor (u64 (Z.shiftl (up_seq u) 8)) (up_type u) = up_tag u) as ->.
  { assert (0 <= up_type u <= kValueTypeForSeek) as Hr by (unfold kValueTypeForSeek, kTypeValue, kTypeDeletion in *; lia).
    destruct (PackSequenceAndType_packed (up_seq u) (up_type u) Hs Hr) as [E _]. unfold PackSequenceAndType in E.
    destruct (_ && _); [|done]. by injection E. }
  rewrite EncodeFixed64_spec. unfold enc_update, prefixed, up_internal. rewrite length_internal. unfold internal.
  rewrite <- !app_assoc. repeat f_equal; lia.
Qed.

Lemma Add_spec m us u :
  holds m us -> fits u -> (forall v, In v us -> ~ same_version u v) ->
  exists m', Add le user (up_seq u) (up_type u) (up_key u) (up_value u) m = Some m' /\ holds m' (u :: us).
Proof.
  intros (given & us' & Har & Hrep & Hp & Hfits) Hu Hnew. destruct (Add_buf u Hu) as (E1 & E2 & Eb).
  unfold Add. cbv zeta. rewrite E1, E2, Eb.
  set (encoded_len := _ + _ + _ + _).
  assert (Z.of_nat (length (enc_update u)) = encoded_len) as El.
  { unfold encoded_len, enc_update, prefixed, up_internal. rewrite !length_app, length_internal.
    replace (Z.of_nat (length (up_key u) + 8)) with (Z.of_nat (length (up_key u)) + 8) by lia. lia. }
  destruct (Allocate_spec (arena_ m) given encoded_len Har) as (p & a1 & -> & Har1); [unfold encoded_len; lia|].
  rewrite El, Z.eqb_refl.
  destruct (insert_spec (compare_ := key_cmp) (valid := valid_entry) (table_ m) (map enc_update us') (enc_update u) Hrep (fits_entry u Hu)) as [Hins _].
  destruct Hins as (l' & ka & kb & E & Ek & Hrep' & _).
  { intros k (v & <- & Hv)%in_map_iff Hc. assert (In v us) as Hv' by by rewrite <- Hp.
    assert (fits v) as Hfv by (rewrite List.Forall_forall in Hfits; by apply Hfits).
    rewrite key_cmp_updates in Hc by done. by apply (Hnew v Hv'), internal_cmp_zero. }
  rewrite E.
  assert (0 < node_bytes (inserted_height (table_ m) l') < 2 ^ 63) as Hnode.
  { destruct Hrep as (base & h & Hi & _). destruct (insert_new_height (table_ m) _ l' (si_seed _ _ _ Hi) E) as (node & En & Hl).
    unfold inserted_height, node_bytes. rewrite En. unfold kMaxHeight in Hl. lia. }
  destruct (AllocateAligned_spec a1 _ _ Har1 Hnode) as (q & a2 & -> & _ & Har2).
  eexists. split; [done|]. apply map_eq_app in Ek as (ua & ub & -> & <- & <-).
  eexists _, (ua ++ u :: ub). split_and!; [exact Har2|by rewrite map_app| |by constructor].
  simpl. by rewrite <- Hp, Permutation_middle.
Qed.

Lemma new_MemTable_spec : exists m, new_MemTable = Some m /\ holds m [].
Proof.
  unfold new_MemTable. destruct (AllocateAligned_spec new_Arena [] (node_bytes kMaxHeight) new_Arena_inv ltac:(done)) as (p & a & -> & _ & Ha).
  eexists. split; [done|]. eexists _, []. split_and!; [exact Ha| |done|done].
  exists [], (fun _ => 0%nat). split; [apply new_SkipList_inv|constructor].
Qed.
(** ** Looking up *)

(** The versions of a key that a snapshot sees, and the newest of them. *)
Definition visible (k : list byte) (seq : Z) (u : update) : Prop := Compare (up_key u) k = Some 0 /\ up_seq u <= seq.

Definition newest (us : list update) (k : list byte) (seq : Z) (u : update) : Prop :=
  In u us /\ visible k seq u /\ forall v, In v us -> visible k seq v -> up_tag v <= up_tag u.

(** What [Get] answers for the newest visible version. *)
Definition answer (u : update) (value : list byte) (s : Status) : option (bool * list byte * Status) :=
  if up_type u =? kTypeValue then Some (true, up_value u, s)
  else match new_Status le kNotFound [] [] with Some s => Some (true, value, s) | None => None end.

Lemma tag_le_seek u seq : fits u -> up_tag u <= packed seq kValueTypeForSeek <-> up_seq u <= seq.
Proof.
  intros (_ & _ & Ht & _). unfold up_tag, packed, kValueTypeForSeek, kTypeValue, kTypeDeletion in *. lia.
Qed.

(** The key that a lookup seeks, against an update. *)
Lemma seek_cmp u k seq :
  fits u -> valid k -> 0 <= seq <= kMaxSequenceNumber ->
  exists x, Compare (up_key u) k = Some x /\
    internal_cmp (up_internal u) (internal k (packed seq kValueTypeForSeek)) =
      Some (if x =? 0 then Z.sgn (packed seq kValueTypeForSeek - up_tag u) else x).
Proof.
  intros Hu Hk Hs. destruct (compare_defined (up_key u) k) as [x Ex]; [apply Hu|done|]. exists x. split; [done|].
  apply (internal_compare_spec); [by apply fits_tag| |done].
  apply PackSequenceAndType_packed; [done|split; [done|lia]].
Qed.

Lemma lookup_valid k seq :
  valid k -> 0 <= seq <= kMaxSequenceNumber -> Z.of_nat (length k) + 8 < 2 ^ 32 ->
  mem_valid (internal k (packed seq kValueTypeForSeek)).
Proof.
  intros Hk Hs Hl. split; [|rewrite length_internal; lia]. eexists k, _. split_and!; [done| | |done].
  - apply PackSequenceAndType_packed; [done|split; [done|lia]].
  - apply PackSequenceAndType_packed; [done|split; [done|lia]].
Qed.

(** Where the lookup key belongs among the updates in the order of the list. *)
Lemma Get_newest us ua ub k seq :
  Forall fits us -> ua ++ ub ≡ₚ us -> valid k -> 0 <= seq <= kMaxSequenceNumber ->
  StronglySorted (fun u v => cmp_lt internal_cmp (up_internal u) (up_internal v)) (ua ++ ub) ->
  Forall (fun u => cmp_lt internal_cmp (up_internal u) (internal k (packed seq kValueTypeForSeek))) ua ->
  Forall (fun u => cmp_le internal_cmp (internal k (packed seq kValueTypeForSeek)) (up_internal u)) ub ->
  match ub with
  | u :: _ => if decide (Compare (up_key u) k = Some 0) then newest us k seq u else forall v, In v us -> ~ visible k seq v
  | [] => forall v, In v us -> ~ visible k seq v
  end.
Proof.
  intros Hf Hp Hk Hs Hsort Ha Hb. set (target := internal k (packed seq kValueTypeForSeek)) in *.
  assert (forall v, In v us -> fits v) as Hfits by (intros v Hv; rewrite List.Forall_forall in Hf; by apply Hf).
  assert (forall v, In v ua -> visible k seq v -> False) as Hout.
  { intros v Hv [Ek Hseq]. assert (In v us) as Hvu by (rewrite <- Hp; apply in_app_iff; auto).
    rewrite List.Forall_forall in Ha. destruct (Ha v Hv) as (y & Ey & Hy). destruct (seek_cmp v k seq (Hfits v Hvu) Hk Hs) as (x & Ex & E).
    rewrite Ek in Ex. injection Ex as <-. unfold target in Ey. rewrite E in Ey. simpl in Ey. injection Ey as <-.
    apply (tag_le_seek v seq (Hfits v Hvu)) in Hseq. lia. }
  assert (forall v, In v us -> In v ua \/ In v ub) as Hsplit by (intros v Hv; rewrite <- Hp in Hv; by apply in_app_iff).
  destruct ub as [|u ub]; [intros v [Hv|[]]%Hsplit Hvis; by eapply Hout|].
  assert (In u us) as Hu by (rewrite <- Hp; apply in_app_iff; right; by left).
  apply StronglySorted_app in Hsort as (_ & _ & Hsort). inversion Hsort as [|? ? _ Hub]; subst.
  inversion Hb as [|? ? (y & Ey & Hy) Hb']; subst.
  destruct (decide (Compare (up_key u) k = Some 0)) as [Ek|Ek].
  - split; [done|]. split.
    + split; [done|]. apply (tag_le_seek u seq (Hfits u Hu)). destruct (seek_cmp u k seq (Hfits u Hu) Hk Hs) as (x & Ex & E).
      rewrite Ek in Ex. injection Ex as <-. simpl in E. pose proof (internal_antisym _ _ _ _ Ey E). lia.
    + intros v Hv [Ev Hseq]. destruct (Hsplit v Hv) as [Hva|[->|Hvb]]; [by destruct (Hout v Hva)|lia|].
      rewrite List.Forall_forall in Hub. destruct (Hub v Hvb) as (z & Ez & Hz).
      assert (Compare (up_key u) (up_key v) = Some 0) as Euv.
      { apply (key_eq_trans (valid := valid) (up_key u) k (up_key v)); [apply Hfits, Hu|done|apply Hfits, Hv|done|].
        apply (key_eq_sym (valid := valid)); [apply Hfits, Hv|done|done]. }
      unfold up_internal in Ez. simpl in Ez.
      erewrite internal_compare_spec in Ez; [|by apply fits_tag, Hfits|by apply fits_tag, Hfits|exact Euv].
      simpl in Ez. injection Ez as <-. lia.
  - intros v Hv [Ev Hseq]. destruct (Hsplit v Hv) as [Hva|[->|Hvb]]; [by eapply Hout|done|].
    rewrite List.Forall_forall in Hub. destruct (Hub v Hvb) as (z & Ez & Hz).
    destruct (seek_cmp u k seq (Hfits u Hu) Hk Hs) as (x & Ex & E). unfold target in Ey.
    pose proof (internal_antisym _ _ _ _ Ey E) as Hanti. apply Ek.
    apply (key_squeeze (valid := valid) (up_key u) (up_key v) k x); [apply Hfits, Hu|apply Hfits, Hv|done|done| | |done].
    + destruct (Z.eqb_spec x 0); lia.
    + destruct (compare_defined (up_key u) (up_key v)) as [w Ew]; [apply Hfits, Hu|apply Hfits, Hv|].
      exists w. split; [done|]. unfold up_internal in Ez. simpl in Ez.
      erewrite internal_compare_spec in Ez; [|by apply fits_tag, Hfits|by apply fits_tag, Hfits|exact Ew].
      injection Ez as <-. destruct (Z.eqb_spec w 0); lia.
Qed.

Lemma StronglySorted_map {A B} (R : B -> B -> Prop) (f : A -> B) l :
  StronglySorted R (map f l) -> StronglySorted (fun x y => R (f x) (f y)) l.
Proof.
  induction l as [|x l IH]; simpl; intros H; [constructor|]. inversion H as [|? ? Hs Hx]; subst. constructor; [by apply IH|].
  clear - Hx. induction l as [|y l IH]; inversion Hx; constructor; auto.
Qed.

(** The order of the entries is the order of the internal keys. *)
Lemma sorted_updates us : Forall fits us -> StronglySorted (cmp_lt key_cmp) (map enc_update us) ->
  StronglySorted (fun u v => cmp_lt internal_cmp (up_internal u) (up_internal v)) us.
Proof.
  intros Hf Hs%StronglySorted_map. induction Hs as [|u us Hs IH Hu]; [constructor|].
  inversion Hf as [|? ? Hfu Hfus]; subst. constructor; [by apply IH|].
  rewrite List.Forall_forall in *. intros v Hv. destruct (Hu v Hv) as (x & Ex & Hx).
  rewrite key_cmp_updates in Ex by (done || by apply Hfus). by exists x.
Qed.

Lemma key_cmp_target u target : fits u -> mem_valid target ->
  key_cmp (enc_update u) (prefixed target) = internal_cmp (up_internal u) target /\
  key_cmp (prefixed target) (enc_update u) = internal_cmp target (up_internal u).
Proof.
  intros Hu Ht. rewrite <- (app_nil_r (prefixed target)). unfold enc_update.
  split; apply KeyComparator_prefixed; (done || by apply fits_internal).
Qed.

(** The nodes of the table and the updates in them, in order. *)
Definition laid_out (m : MemTable) (base : list nat) (us : list update) : Prop :=
  Forall fits us /\ Forall2 (fun n u => KeyOf (table_ m) n = Some (enc_update u)) base us /\
  StronglySorted (fun u v => cmp_lt internal_cmp (up_internal u) (up_internal v)) us /\
  exists h, sl_inv (compare_ := key_cmp) (valid := valid_entry) (table_ m) base h.

Lemma holds_laid_out m us : holds m us -> exists base us', laid_out m base us' /\ us' ≡ₚ us.
Proof.
  intros (given & us' & _ & (base & h & Hi & HF) & Hp & Hf). assert (Forall fits us') as Hf' by by rewrite Hp.
  exists base, us'. split; [|done]. split_and!; [done|by apply Forall2_fmap_r in HF| |by exists h].
  apply sorted_updates; [done|]. by eapply represented_sorted.
Qed.

(** What [find_spec] says, in terms of the updates. *)
Lemma seek_updates m base us target :
  laid_out m base us -> mem_valid target ->
  exists ua ub, us = ua ++ ub /\
    Forall (fun u => cmp_lt internal_cmp (up_internal u) target) ua /\
    Forall (fun u => cmp_le internal_cmp target (up_internal u)) ub /\
    IterSeek key_cmp (table_ m) (prefixed target) = Some (base !! length ua).
Proof.
  intros (Hf & HF & Hsort & h & Hi) Ht.
  assert (valid_entry (prefixed target)) as Hvt by (exists target, []; by rewrite app_nil_r).
  destruct (find_spec (compare_ := key_cmp) (valid := valid_entry) (table_ m) base h (map enc_update us) (prefixed target) Hi)
    as (ka & kb & Ek & Hka & Hkb & _ & Eseek); [by apply Forall2_fmap_r|done|].
  apply map_eq_app in Ek as (ua & ub & -> & <- & <-). rewrite length_map in Eseek.
  apply Forall_app in Hf as [Hfa Hfb]. exists ua, ub. split_and!; [done| | |done].
  - apply List.Forall_forall. intros u Hu. rewrite List.Forall_forall in Hka, Hfa.
    destruct (Hka (enc_update u)) as (x & Ex & Hx); [by apply in_map|].
    rewrite (proj1 (key_cmp_target u target (Hfa u Hu) Ht)) in Ex. by exists x.
  - apply List.Forall_forall. intros u Hu. rewrite List.Forall_forall in Hkb, Hfb.
    destruct (Hkb (enc_update u)) as (x & Ex & Hx); [by apply in_map|].
    rewrite (proj2 (key_cmp_target u target (Hfb u Hu) Ht)) in Ex. by exists x.
Qed.

(** Iteration does not depend on a target. *)
Lemma step_updates m base us :
  laid_out m base us ->
  IterSeekToFirst (table_ m) = Some (head base) /\ IterSeekToLast (table_ m) = Some (last base) /\
  (forall i n, base !! i = Some n -> IterNext (table_ m) (Some n) = Some (base !! S i) /\
    IterPrev key_cmp (table_ m) (Some n) = Some (match i with O => None | S j => base !! j end)).
Proof.
  intros (Hf & HF & _ & h & Hi).
  by apply (walk_spec (compare_ := key_cmp) (valid := valid_entry) (table_ m) base h Hi).
Qed.

Lemma Get_spec m us k seq value s :
  holds m us -> valid k -> 0 <= seq <= kMaxSequenceNumber -> Z.of_nat (length k) + 8 < 2 ^ 32 ->
  exists key, LookupKey le k seq = Some key /\
    ((exists u, newest us k seq u /\ Get le user m key value s = answer u value s) \/
     ((forall v, In v us -> ~ visible k seq v) /\ Get le user m key value s = Some (false, value, s))).
Proof.
  intros Hm Hk Hs Hl. destruct (LookupKey_spec le k seq Hl Hs) as (key & Ekey & Eb & _ & Eu & _). exists key. split; [done|].
  pose proof (lookup_valid k seq Hk Hs Hl) as Ht. set (target := internal k (packed seq kValueTypeForSeek)) in *.
  assert (memtable_key key = prefixed target) as Emk.
  { unfold memtable_key, prefixed. rewrite Eb. unfold target at 2. rewrite length_internal. f_equal. f_equal. lia. }
  destruct (holds_laid_out m us Hm) as (base & us' & Hlay & Hp).
  destruct (seek_updates m base us' target Hlay Ht) as (ua & ub & -> & Ha & Hb & Eseek).
  destruct Hlay as (Hf & HF & Hsort & _). assert (Forall fits us) as Hfus by by rewrite <- Hp.
  pose proof (Get_newest us ua ub k seq Hfus Hp Hk Hs Hsort Ha Hb) as Hnew.
  unfold Get. rewrite Emk, Eseek. apply Forall2_app_inv_r in HF as (ba & bb & HFa & HFb & ->).
  rewrite lookup_app_r, (Forall2_length _ _ _ HFa), Nat.sub_diag by (rewrite (Forall2_length _ _ _ HFa); lia).
  destruct HFb as [|n u bb ub En _]; [by right|]. cbn [lookup list_lookup IterValid IterKey]. rewrite En.
  apply Forall_app in Hf as [_ [Hfu _]%Forall_cons]. pose proof (fits_tag u Hfu) as Htag.
  unfold enc_update. rewrite GetLengthPrefixedSlice_data_prefixed by apply fits_internal, Hfu.
  unfold up_internal. rewrite ExtractUserKey_internal, Eu.
  destruct (compare_defined (up_key u) k) as [x Ex]; [apply Hfu|done|]. rewrite Ex in *.
  destruct (Z.eqb_spec x 0) as [->|Hx]; [|right; split; [by rewrite decide_False in Hnew by congruence|done]].
  rewrite decide_True in Hnew by done. left. exists u. split; [done|].
  rewrite ExtractTag_internal by done. destruct Hfu as (_ & _ & Hty & _ & Hv).
  assert (Z.land (up_tag u) 0xff = up_type u) as ->.
  { apply packed_parts. unfold kTypeValue, kTypeDeletion in Hty. lia. }
  unfold answer. destruct (Z.eqb_spec (up_type u) kTypeValue).
  - rewrite <- (app_nil_r (prefixed (up_value u))). by rewrite GetLengthPrefixedSlice_data_prefixed.
  - destruct Hty as [?| ->]; [done|]. done.
Qed.

(** No two versions are the same, so there is one newest. *)
Lemma newest_unique m us k seq u v :
  holds m us -> valid k -> newest us k seq u -> newest us k seq v -> u = v.
Proof.
  intros (base & us' & (Hf & _ & Hs & _) & Hp)%holds_laid_out Hk (Hu & Hvu & Hbu) (Hv & Hvv & Hbv).
  pose proof (Hbu v Hv Hvv) as H1. pose proof (Hbv u Hu Hvu) as H2. assert (up_tag u = up_tag v) as Et by lia. clear H1 H2.
  assert (forall a b, In a us' -> In b us' -> Compare (up_key a) k = Some 0 -> Compare (up_key b) k = Some 0 ->
    up_tag a = up_tag b -> ~ cmp_lt internal_cmp (up_internal a) (up_internal b)) as Hne.
  { intros a b Ha Hb Eak Ebk Eab (x & Ex & Hx). rewrite List.Forall_forall in Hf.
    assert (Compare (up_key a) (up_key b) = Some 0) as Ecmp.
    { apply (key_eq_trans (valid := valid) (up_key a) k (up_key b)); [apply Hf, Ha|done|apply Hf, Hb|done|].
      apply (key_eq_sym (valid := valid)); [apply Hf, Hb|done|done]. }
    unfold up_internal in Ex. simpl in Ex.
    erewrite internal_compare_spec in Ex; [|by apply fits_tag, Hf|by apply fits_tag, Hf|exact Ecmp].
    simpl in Ex. injection Ex as <-. lia. }
  rewrite <- Hp in Hu, Hv. destruct Hvu as [Eu _], Hvv as [Ev _].
  clear - Hs Hu Hv Eu Ev Et Hne. induction Hs as [|w us' Hs IH Hw]; [done|]. rewrite List.Forall_forall in Hw.
  destruct Hu as [->|Hu], Hv as [->|Hv]; [done| | |].
  - exfalso. apply (Hne u v); [by left|by right|done|done|done|by apply Hw].
  - exfalso. apply (Hne v u); [by left|by right|done|done|done|by apply Hw].
  - apply IH; [done|done|]. intros a b Ha Hb. apply Hne; by right.
Qed.

(** ** Iterating *)

Definition update_entry (u : update) : entry := (up_internal u, up_value u).

Definition mem_at (m : MemTable) (base : list nat) (it : MemTableIterator) (p : option nat) : Prop :=
  mi_table it = table_ m /\ mi_node it = p ≫= (fun i => base !! i) /\ (forall i, p = Some i -> (i < length base)%nat).

Lemma mem_entry m base us i :
  laid_out m base us -> (i < length base)%nat ->
  exists n u, base !! i = Some n /\ us !! i = Some u /\ fits u /\ KeyOf (table_ m) n = Some (enc_update u).
Proof.
  intros (Hf & HF & _) Hi. destruct (lookup_lt_is_Some_2 base i Hi) as [n En].
  destruct (Forall2_lookup_l _ _ _ _ _ HF En) as (u & Eu & Ek). exists n, u. split_and!; [done|done| |done].
  rewrite Forall_lookup in Hf. by eapply Hf.
Qed.

Lemma EncodeKey_prefixed k : Z.of_nat (length k) < 2 ^ 32 -> EncodeKey k = prefixed k.
Proof. intros Hk. unfold EncodeKey, PutVarint32, prefixed. by rewrite u32_id by lia. Qed.

Lemma mem_entries m base us : laid_out m base us -> length base = length us.
Proof. intros (_ & HF & _). by eapply Forall2_length. Qed.

Lemma mem_iterator_ok m base us :
  laid_out m base us ->
  IteratorOk (MemTable_iterator le user) (InternalKeyComparator le user) mem_valid (map update_entry us) (mem_at m base).
Proof.
  intros Hlay. pose proof (mem_entries _ _ _ Hlay) as Hlen.
  destruct (step_updates m base us Hlay) as (Efirst & Elast & Estep).
  split; simpl.
  - intros it p (Ht & Hn & Hp). rewrite Hn. destruct p as [i|]; simpl.
    + destruct (lookup_lt_is_Some_2 base i (Hp i eq_refl)) as [n ->]. done.
    + done.
  - intros it i (Ht & Hn & Hp). destruct (mem_entry m base us i Hlay (Hp i eq_refl)) as (n & u & En & Eu & Hf & Ek).
    exists (update_entry u). rewrite list_lookup_fmap, Eu. split; [done|].
    unfold mem_key, mem_value. rewrite Ht, Hn. simpl. rewrite En. simpl. rewrite Ek. unfold enc_update.
    rewrite GetLengthPrefixedSlice_data_prefixed by apply fits_internal, Hf. split; [done|].
    rewrite <- (app_nil_r (prefixed (up_value u))), GetLengthPrefixedSlice_data_prefixed by apply Hf. done.
  - intros it p (Ht & _). rewrite Ht, Efirst. eexists. split; [done|]. split; simpl; [done|]. unfold first_pos.
    destruct base as [|n base], us as [|u us]; try done.
    split; [done|]. intros i [= <-]. simpl. lia.
  - intros it p (Ht & _). rewrite Ht, Elast. eexists. split; [done|]. split; simpl; [done|].
    unfold last_pos. rewrite last_lookup, length_map, <- Hlen.
    destruct base as [|n base], us as [|u us]; try done. split; [simpl; f_equal; lia|]. intros i [= <-]. simpl. lia.
  - intros it p target (Ht & _) Hv. destruct (seek_updates m base us target Hlay Hv) as (ua & ub & -> & Ha & Hb & E).
    rewrite Ht, EncodeKey_prefixed by apply Hv. rewrite E. eexists. split; [done|].
    destruct Hlay as (Hf & _). apply Forall_app in Hf as [Hfa Hfb].
    rewrite map_app, (seek_pos_app _ _ (map update_entry ua) (map update_entry ub)), length_map.
    + rewrite length_app in Hlen. destruct ub as [|u ub]; simpl in *.
      * split; [done|]. split; [by rewrite lookup_ge_None_2 by lia|done].
      * split; [done|]. split; [done|]. intros i [= <-]. lia.
    + intros e (u & <- & Hu)%in_map_iff. rewrite List.Forall_forall in Ha, Hfa.
      apply (key_ge_false (valid := valid_internal (valid := valid))); [apply Hv|apply fits_internal, Hfa, Hu|]. by apply Ha.
    + intros e He. destruct ub as [|u ub]; [done|]. injection He as <-.
      apply (key_ge_true (valid := valid_internal (valid := valid))); [apply Hv|apply fits_internal; by inversion Hfb|by inversion Hb].
  - intros it i (Ht & Hn & Hp). destruct (lookup_lt_is_Some_2 base i (Hp i eq_refl)) as [n En].
    rewrite Ht, Hn. cbn [mbind option_bind]. rewrite En. destruct (Estep i n En) as [-> _]. eexists. split; [done|].
    unfold next_pos. rewrite length_map, <- Hlen. split; [done|]. destruct (decide (S i < length base)%nat) as [Hlt|Hge].
    + split; [done|]. by intros j [= <-].
    + split; [simpl; by rewrite lookup_ge_None_2 by lia|done].
  - intros it i (Ht & Hn & Hp). destruct (lookup_lt_is_Some_2 base i (Hp i eq_refl)) as [n En].
    rewrite Ht, Hn. cbn [mbind option_bind]. rewrite En. destruct (Estep i n En) as [_ ->]. eexists. split; [done|].
    split; [done|]. specialize (Hp i eq_refl). destruct i as [|j]; simpl; [by split|]. split; [done|].
    intros k [= <-]. lia.
  - done.
Qed.

(** C17. A new memtable is empty, [Add] puts a version of a key into it, and [Get] through a
    [LookupKey] answers with the newest version that the snapshot sees: its value, or NotFound
    for a deletion; without such a version it answers false and leaves its outputs
    alone. *)
Theorem memtable_get :
  (exists m, new_MemTable = Some m /\ holds m []) /\
  (forall m us u, holds m us -> fits u -> (forall v, In v us -> ~ same_version u v) ->
     exists m', Add le user (up_seq u) (up_type u) (up_key u) (up_value u) m = Some m' /\ holds m' (u :: us)) /\
  (forall m us k seq value s, holds m us -> valid k -> 0 <= seq <= kMaxSequenceNumber -> Z.of_nat (length k) + 8 < 2 ^ 32 ->
     exists key, LookupKey le k seq = Some key /\
       ((exists u, newest us k seq u /\ Get le user m key value s = answer u value s) \/
        ((forall v, In v us -> ~ visible k seq v) /\ Get le user m key value s = Some (false, value, s)))).
Proof. split_and!; [apply new_MemTable_spec|apply Add_spec|apply Get_spec]. Qed.

(** The iterator of a memtable, which finds its way by [EncodeKey] and by reading
    the lengths in the entries, is an iterator over the internal keys and values of the updates, in
    the order of [InternalKeyComparator]. *)
Theorem memtable_iterator m us :
  holds m us ->
  exists es at_pos, es ≡ₚ map update_entry us /\ keys_sorted (InternalKeyComparator le user) es /\
    IteratorOk (MemTable_iterator le user) (InternalKeyComparator le user) mem_valid es at_pos /\
    at_pos (NewIterator m) None.
Proof.
  intros (base & us' & Hlay & Hp)%holds_laid_out. exists (map update_entry us'), (mem_at m base). split_and!.
  - by apply Permutation_map.
  - apply keys_sorted_strongly. destruct Hlay as (_ & _ & Hs & _). clear - Hs.
    induction Hs as [|u us Hs IH Hu]; simpl; constructor; [done|]. apply List.Forall_forall.
    intros e (v & <- & Hv)%in_map_iff. rewrite List.Forall_forall in Hu. by apply Hu.
  - by apply mem_iterator_ok.
  - by split_and!.
Qed.
End MemTable.
