(* ===== verification/WriteBatch.v ===== *)
(** * Write batches of LevelDB: db/write_batch.cc, db/write_batch_internal.h

    A batch is its representation [rep_]: a sequence number, a count and the
    records.  [None] is a failed assertion, a read outside the representation or
    an overflow of the count. *)
From S2P Require Import Prelude Coding Comparator DbFormat Status Arena SkipList MemTable.

Definition kHeader : nat := 12.

Abbreviation WriteBatch := (list byte).

Definition Clear : WriteBatch := replicate kHeader (byte_of 0).
Definition new_WriteBatch : WriteBatch := Clear.

(** What [Iterate] calls. *)
Class Handler (H : Type) := {
  HandlePut : list byte -> list byte -> H -> option H;
  HandleDelete : list byte -> H -> option H;
}.

Section WriteBatch.
Context (kLittleEndian : bool).

(** An [int], from the 32 bits that are stored. *)
Definition Count (b : WriteBatch) : option Z :=
  match DecodeFixed32 kLittleEndian (drop 8 b) with Some n => Some (s32 n) | None => None end.

Definition SetCount (n : Z) (b : WriteBatch) : option WriteBatch :=
  if (12 <=? length b)%nat then Some (take 8 b ++ EncodeFixed32 kLittleEndian (u32 n) ++ drop 12 b) else None.

Definition Sequence (b : WriteBatch) : option Z := DecodeFixed64 kLittleEndian b.

Definition SetSequence (seq : Z) (b : WriteBatch) : option WriteBatch :=
  if (8 <=? length b)%nat then Some (EncodeFixed64 kLittleEndian seq ++ drop 8 b) else None.

Definition Contents (b : WriteBatch) : list byte := b.
Definition ByteSize (b : WriteBatch) : Z := Z.of_nat (length b).

(** [SetCount(b, Count(b) + n)] *)
Definition add_count (n : Z) (b : WriteBatch) : option WriteBatch :=
  match Count b with
  | Some c => if (- 2 ^ 31 <=? c + n) && (c + n <? 2 ^ 31) then SetCount (c + n) b else None
  | None => None
  end.

Definition BatchPut (key value : list byte) (b : WriteBatch) : option WriteBatch :=
  match add_count 1 b with
  | Some b => Some (PutLengthPrefixedSlice (PutLengthPrefixedSlice (b ++ [byte_of kTypeValue]) key) value)
  | None => None
  end.

Definition BatchDelete (key : list byte) (b : WriteBatch) : option WriteBatch :=
  match add_count 1 b with
  | Some b => Some (PutLengthPrefixedSlice (b ++ [byte_of kTypeDeletion]) key)
  | None => None
  end.

Definition Corruption (msg : string) : Status := default OK (new_Status kLittleEndian kCorruption (bytes_of msg) []).

(** The loop, with the records found so far, an [int]. *)
Fixpoint Iterate_loop {H} {handler : Handler H} (fuel : nat) (found : Z) (input : list byte) (h : H)
  : option (Status * Z * H) :=
  match input with
  | [] => Some (OK, found, h)
  | tag :: input =>
      match fuel with
      | O => None
      | S fuel' =>
          let found := found + 1 in
          if 2 ^ 31 <=? found then None
          else if byte_val tag =? kTypeValue then
            match GetLengthPrefixedSlice input with
            | (Some key, input) =>
                match GetLengthPrefixedSlice input with
                | (Some value, input) =>
                    match HandlePut key value h with
                    | Some h => Iterate_loop fuel' found input h
                    | None => None
                    end
                | (None, _) => Some (Corruption "bad WriteBatch Put", found, h)
                end
            | (None, _) => Some (Corruption "bad WriteBatch Put", found, h)
            end
          else if byte_val tag =? kTypeDeletion then
            match GetLengthPrefixedSlice input with
            | (Some key, input) =>
                match HandleDelete key h with
                | Some h => Iterate_loop fuel' found input h
                | None => None
                end
            | (None, _) => Some (Corruption "bad WriteBatch Delete", found, h)
            end
          else Some (Corruption "unknown WriteBatch tag", found, h)
      end
  end.

(** Every record takes a byte at least, so the length of the batch is fuel
    enough. *)
Definition Iterate {H} {handler : Handler H} (b : WriteBatch) (h : H) : option (Status * H) :=
  if (length b <? kHeader)%nat then Some (Corruption "malformed WriteBatch (too small)", h)
  else
    match Iterate_loop (length b) 0 (drop kHeader b) h, Count b with
    | Some (s, found, h), Some count =>
        if negb (ok s) then Some (s, h)
        else if negb (found =? count) then Some (Corruption "WriteBatch has wrong count", h)
        else Some (OK, h)
    | _, _ => None
    end.

Definition SetContents (contents : list byte) : option WriteBatch :=
  if (kHeader <=? length contents)%nat then Some contents else None.

Definition Append (dst src : WriteBatch) : option WriteBatch :=
  match Count src with
  | Some n =>
      match add_count n dst with
      | Some dst => if (kHeader <=? length src)%nat then Some (dst ++ drop kHeader src) else None
      | None => None
      end
  | None => None
  end.

(** ** MemTableInserter *)

Section Insert.
Context (user_comparator : Comparator) {al : Allocator}.

Record MemTableInserter := Inserter { sequence_ : Z; mem_ : MemTable }.

Definition insert_update (type : Z) (key value : list byte) (i : MemTableInserter) : option MemTableInserter :=
  match Add kLittleEndian user_comparator (sequence_ i) type key value (mem_ i) with
  | Some m => Some (Inserter (u64 (sequence_ i + 1)) m)
  | None => None
  end.

Definition MemTableInserter_handler : Handler MemTableInserter := {|
  HandlePut key value := insert_update kTypeValue key value;
  HandleDelete key := insert_update kTypeDeletion key [];
|}.

Definition InsertInto (b : WriteBatch) (memtable : MemTable) : option (Status * MemTable) :=
  match Sequence b with
  | Some seq =>
      match Iterate (handler := MemTableInserter_handler) b (Inserter seq memtable) with
      | Some (s, i) => Some (s, mem_ i)
      | None => None
      end
  | None => None
  end.
End Insert.
End WriteBatch.
