(* ===== verification/WriteBatchProps.v ===== *)
(** * Write batches: what was put in comes out, and reaches the memtable *)
From S2P Require Import Prelude Varint Coding CodingProps Comparator DbFormat DbFormatProps Status Arena SkipList MemTable MemTableProps WriteBatch.

(** ** The representation *)

Inductive op := OpPut (key value : list byte) | OpDelete (key : list byte).

Definition op_key (o : op) : list byte := match o with OpPut k _ => k | OpDelete k => k end.

Definition enc_op (o : op) : list byte :=
  match o with
  | OpPut k v => byte_of kTypeValue :: prefixed k ++ prefixed v
  | OpDelete k => byte_of kTypeDeletion :: prefixed k
  end.

Definition enc_ops (os : list op) : list byte := concat (map enc_op os).

Definition batch_rep (seq n : Z) (os : list op) : WriteBatch := le_split 8 seq ++ le_split 4 n ++ enc_ops os.

Definition small (bs : list byte) : Prop := Z.of_nat (length bs) < 2 ^ 32.
Definition op_fits (o : op) : Prop := match o with OpPut k v => small k /\ small v | OpDelete k => small k end.

Lemma PutLengthPrefixedSlice_prefixed dst bs : small bs -> PutLengthPrefixedSlice dst bs = dst ++ prefixed bs.
Proof.
  intros Hs. unfold PutLengthPrefixedSlice, PutVarint32, prefixed. unfold small in Hs.
  rewrite u32_id by lia. by rewrite <- app_assoc.
Qed.

Lemma GetLengthPrefixedSlice_prefixed bs rest : small bs -> GetLengthPrefixedSlice (prefixed bs ++ rest) = (Some bs, rest).
Proof.
  intros Hs. rewrite <- (GetLengthPrefixedSlice_put bs rest Hs). by rewrite PutLengthPrefixedSlice_prefixed.
Qed.

Section Batch.
Context {le : bool}.

Lemma Count_rep seq n os : 0 <= n < 2 ^ 31 -> Count le (batch_rep seq n os) = Some n.
Proof.
  intros Hn. unfold Count, batch_rep. rewrite drop_app_ge by (rewrite length_le_split; lia).
  rewrite length_le_split, Nat.sub_diag, drop_0, DecodeFixed32_split by lia. f_equal. apply sint_id; lia.
Qed.

Lemma SetCount_rep seq n n' os : 0 <= n' < 2 ^ 32 -> SetCount le n' (batch_rep seq n os) = Some (batch_rep seq n' os).
Proof.
  intros Hn. unfold SetCount, batch_rep. rewrite !length_app, !length_le_split.
  destruct (Nat.leb_spec 12 (8 + (4 + length (enc_ops os)))); [|lia].
  rewrite take_app_length' by by rewrite length_le_split.
  rewrite (drop_app_ge _ _ 12), length_le_split by (rewrite length_le_split; lia).
  rewrite (drop_app_length' (le_split 4 n)) by by rewrite length_le_split. by rewrite EncodeFixed32_spec, u32_id.
Qed.

Lemma add_count_rep seq n k os : 0 <= n -> 0 <= k -> n + k < 2 ^ 31 -> add_count le k (batch_rep seq n os) = Some (batch_rep seq (n + k) os).
Proof.
  intros Hn Hk Hlt. unfold add_count. rewrite Count_rep by lia.
  destruct (Z.leb_spec (- 2 ^ 31) (n + k)), (Z.ltb_spec (n + k) (2 ^ 31)); try lia. simpl. apply SetCount_rep. lia.
Qed.

Lemma Sequence_rep seq n os : 0 <= seq < 2 ^ 64 -> Sequence le (batch_rep seq n os) = Some seq.
Proof.
  intros Hs. unfold Sequence, batch_rep. rewrite DecodeFixed64_spec by by rewrite length_le_split.
  f_equal. by apply le_combine_split64.
Qed.

Lemma SetSequence_rep seq seq' n os : SetSequence le seq' (batch_rep seq n os) = Some (batch_rep seq' n os).
Proof.
  unfold SetSequence, batch_rep. rewrite length_app, length_le_split. destruct (Nat.leb_spec 8 (8 + length (le_split 4 n ++ enc_ops os))); [|lia].
  by rewrite drop_app_length', EncodeFixed64_spec by by rewrite length_le_split.
Qed.

Definition BatchOp (o : op) (b : WriteBatch) : option WriteBatch :=
  match o with OpPut k v => BatchPut le k v b | OpDelete k => BatchDelete le k b end.

Fixpoint BatchOps (os : list op) (b : WriteBatch) : option WriteBatch :=
  match os with [] => Some b | o :: os' => match BatchOp o b with Some b => BatchOps os' b | None => None end end.

Lemma enc_ops_snoc os o : enc_ops (os ++ [o]) = enc_ops os ++ enc_op o.
Proof. unfold enc_ops. rewrite map_app, concat_app. simpl. by rewrite app_nil_r. Qed.

Lemma BatchOp_rep seq os o :
  op_fits o -> Z.of_nat (length os) + 1 < 2 ^ 31 ->
  BatchOp o (batch_rep seq (Z.of_nat (length os)) os) = Some (batch_rep seq (Z.of_nat (length (os ++ [o]))) (os ++ [o])).
Proof.
  intros Ho Hn.
  assert (batch_rep seq (Z.of_nat (length (os ++ [o]))) (os ++ [o]) = batch_rep seq (Z.of_nat (length os) + 1) os ++ enc_op o) as ->.
  { unfold batch_rep. rewrite enc_ops_snoc, length_app, <- !app_assoc. simpl length. by rewrite Nat2Z.inj_add. }
  destruct o as [k v|k]; simpl in *; unfold BatchPut, BatchDelete; rewrite add_count_rep by lia.
  - destruct Ho as [Hk Hv]. rewrite !PutLengthPrefixedSlice_prefixed by done. f_equal. by rewrite <- !app_assoc.
  - rewrite PutLengthPrefixedSlice_prefixed by done. f_equal. by rewrite <- !app_assoc.
Qed.

Lemma BatchOps_rep seq os os' :
  Forall op_fits os' -> Z.of_nat (length os + length os') < 2 ^ 31 ->
  BatchOps os' (batch_rep seq (Z.of_nat (length os)) os) = Some (batch_rep seq (Z.of_nat (length (os ++ os'))) (os ++ os')).
Proof.
  intros Hf. revert os. induction Hf as [|o os' Ho Hf IH]; intros os Hn; [by rewrite app_nil_r|].
  cbn [BatchOps]. simpl in Hn. rewrite BatchOp_rep by (done || lia). rewrite IH by (rewrite length_app; simpl; lia).
  by rewrite <- app_assoc.
Qed.

Lemma Clear_rep : Clear = batch_rep 0 0 [].
Proof. reflexivity. Qed.

(** ** Iterating *)

Section Iterate.
Context {H : Type} {handler : Handler H}.

Definition handle (o : op) (h : H) : option H :=
  match o with OpPut k v => HandlePut k v h | OpDelete k => HandleDelete k h end.

Fixpoint handle_all (os : list op) (h : H) : option H :=
  match os with [] => Some h | o :: os' => match handle o h with Some h => handle_all os' h | None => None end end.

Lemma Iterate_loop_rep fuel os found h h' :
  Forall op_fits os -> handle_all os h = Some h' -> (length (enc_ops os) <= fuel)%nat ->
  found + Z.of_nat (length os) < 2 ^ 31 ->
  Iterate_loop le fuel found (enc_ops os) h = Some (OK, found + Z.of_nat (length os), h').
Proof.
  intros Hf. revert fuel found h. induction Hf as [|o os Ho Hf IH]; intros fuel found h Hh Hl Hn.
  { simpl in *. injection Hh as ->. destruct fuel; simpl; by rewrite Z.add_0_r. }
  simpl in Hh. destruct (handle o h) as [h1|] eqn:E; [|done].
  assert (enc_ops (o :: os) = enc_op o ++ enc_ops os) as Eo by done.
  assert (0 < length (enc_op o))%nat as Hpos by (destruct o; simpl; lia).
  rewrite Eo, length_app in Hl. destruct fuel as [|fuel]; [lia|].
  replace (found + Z.of_nat (length (o :: os))) with (found + 1 + Z.of_nat (length os)) by (simpl length; lia).
  simpl length in Hn. rewrite <- (IH fuel (found + 1) h1 Hh) by lia. rewrite Eo.
  destruct o as [k v|k]; simpl in Ho, E; simpl app; cbn [Iterate_loop]; (destruct (Z.leb_spec (2 ^ 31) (found + 1)); [lia|]).
  - change (byte_val (byte_of kTypeValue) =? kTypeValue) with true. cbv iota. destruct Ho as [Hk Hv].
    rewrite <- app_assoc, !GetLengthPrefixedSlice_prefixed by done. by rewrite E.
  - change (byte_val (byte_of kTypeDeletion) =? kTypeValue) with false.
    change (byte_val (byte_of kTypeDeletion) =? kTypeDeletion) with true. cbv iota.
    rewrite GetLengthPrefixedSlice_prefixed by done. by rewrite E.
Qed.

Lemma Iterate_rep seq os h h' :
  Forall op_fits os -> Z.of_nat (length os) < 2 ^ 31 -> handle_all os h = Some h' ->
  Iterate le (batch_rep seq (Z.of_nat (length os)) os) h = Some (OK, h').
Proof.
  intros Hf Hn Hh. unfold Iterate. rewrite Count_rep by lia.
  assert (drop kHeader (batch_rep seq (Z.of_nat (length os)) os) = enc_ops os) as ->.
  { unfold batch_rep. rewrite app_assoc. apply drop_app_length'. by rewrite length_app, !length_le_split. }
  assert (length (batch_rep seq (Z.of_nat (length os)) os) = 12 + length (enc_ops os))%nat as El.
  { unfold batch_rep. rewrite !length_app, !length_le_split. lia. }
  rewrite El. destruct (Nat.ltb_spec (12 + length (enc_ops os)) kHeader); [unfold kHeader in *; lia|].
  rewrite (Iterate_loop_rep _ os 0 h h') by (done || lia). simpl. by rewrite Z.eqb_refl.
Qed.
End Iterate.

Lemma Append_rep seq seq' os os' :
  Z.of_nat (length os + length os') < 2 ^ 31 ->
  Append le (batch_rep seq (Z.of_nat (length os)) os) (batch_rep seq' (Z.of_nat (length os')) os') =
    Some (batch_rep seq (Z.of_nat (length (os ++ os'))) (os ++ os')).
Proof.
  intros Hn. unfold Append. rewrite Count_rep, add_count_rep by lia.
  assert (length (batch_rep seq' (Z.of_nat (length os')) os') = 12 + length (enc_ops os'))%nat as El.
  { unfold batch_rep. rewrite !length_app, !length_le_split. lia. }
  rewrite El. destruct (Nat.leb_spec kHeader (12 + length (enc_ops os'))); [|unfold kHeader in *; lia].
  assert (drop kHeader (batch_rep seq' (Z.of_nat (length os')) os') = enc_ops os') as ->.
  { unfold batch_rep. rewrite app_assoc. apply drop_app_length'. by rewrite length_app, !length_le_split. }
  f_equal. unfold batch_rep, enc_ops. rewrite map_app, concat_app, length_app, Nat2Z.inj_add. by rewrite <- !app_assoc.
Qed.

(** C26. A batch that was made by [Put] and [Delete] from an empty one, given a sequence number
    and extended by [Append], has that number and the number of its updates, and [Iterate] hands its
    updates to any handler, in order and with nothing else, and returns OK. *)
Theorem write_batch_roundtrip {H} (handler : Handler H) os1 os2 seq h h' :
  Forall op_fits (os1 ++ os2) -> Z.of_nat (length (os1 ++ os2)) < 2 ^ 31 -> 0 <= seq < 2 ^ 64 ->
  handle_all (os1 ++ os2) h = Some h' ->
  exists b1 b2 b1' b, BatchOps os1 new_WriteBatch = Some b1 /\ BatchOps os2 new_WriteBatch = Some b2 /\
    SetSequence le seq b1 = Some b1' /\ Append le b1' b2 = Some b /\
    Sequence le b = Some seq /\ Count le b = Some (Z.of_nat (length (os1 ++ os2))) /\ Iterate le b h = Some (OK, h').
Proof.
  intros Hf Hn Hs Hh. pose proof Hn as Hn'. rewrite length_app in Hn'. apply Forall_app in Hf as Hf2. destruct Hf2 as [Hf1 Hf2].
  unfold new_WriteBatch. rewrite Clear_rep. change 0 with (Z.of_nat (length (@nil op))) at 2 4.
  rewrite !BatchOps_rep by (done || simpl length; lia). eexists _, _, _, _. split_and!; [done|done|apply SetSequence_rep| | | |].
  - apply Append_rep. simpl length. lia.
  - by apply Sequence_rep.
  - apply Count_rep. simpl app. lia.
  - by apply Iterate_rep.
Qed.
End Batch.

(** ** A batch in the memtable *)

Section Insert.
Context {le : bool} {user : Comparator} {valid : list byte -> Prop} {Hok : ComparatorOk user valid}.
Context {al : Allocator} {Hal : AllocatorOk al}.
Abbreviation holds := (holds (le := le) (user := user) (valid := valid)).
Abbreviation fits := (fits (valid := valid)).

Definition op_update (seq : Z) (o : op) : update :=
  match o with OpPut k v => Update k seq kTypeValue v | OpDelete k => Update k seq kTypeDeletion [] end.

(** The updates of a batch, the last one first. *)
Fixpoint op_updates (seq : Z) (os : list op) (us : list update) : list update :=
  match os with [] => us | o :: os' => op_updates (seq + 1) os' (op_update seq o :: us) end.

Definition op_ok (o : op) : Prop :=
  valid (op_key o) /\ Z.of_nat (length (op_key o)) + 8 < 2 ^ 32 /\ (match o with OpPut _ v => small v | OpDelete _ => True end).

Lemma op_ok_fits o : op_ok o -> op_fits o.
Proof. destruct o; unfold op_ok, op_fits, small; simpl; intros (_ & ? & ?); [split; [lia|done]|lia]. Qed.

Lemma op_update_fits seq o : op_ok o -> 0 <= seq <= kMaxSequenceNumber -> fits (op_update seq o).
Proof.
  intros (Hv & Hk & Hval) Hs. destruct o as [k v|k]; unfold small in *; simpl in *;
    (split_and!; simpl; first [done|lia|by left|by right]).
Qed.

Lemma up_tag_seq u : fits u -> up_tag u / 256 = up_seq u.
Proof.
  intros (_ & _ & Ht & _). unfold up_tag, packed, kTypeValue, kTypeDeletion in *.
  rewrite Z.div_add_l by lia. rewrite Z.div_small by lia. lia.
Qed.

Abbreviation inserter := (MemTableInserter_handler le user).

Lemma handle_op seq o m us :
  holds m us -> op_ok o -> 0 <= seq <= kMaxSequenceNumber -> Forall (fun v => up_seq v < seq) us ->
  exists m', handle (handler := inserter) o (Inserter seq m) = Some (Inserter (seq + 1) m') /\ holds m' (op_update seq o :: us).
Proof.
  intros Hm Ho Hs Hlt. pose proof (op_update_fits seq o Ho Hs) as Hf.
  destruct (Add_spec m us (op_update seq o) Hm Hf) as (m' & E & Hm').
  { intros v Hv [_ Et]. rewrite List.Forall_forall in Hlt. specialize (Hlt v Hv).
    assert (fits v) as Hfv by (destruct Hm as (_ & _ & _ & _ & _ & Hfs); rewrite List.Forall_forall in Hfs; by apply Hfs).
    pose proof (up_tag_seq _ Hf). pose proof (up_tag_seq _ Hfv). rewrite Et in *. destruct o; simpl in *; lia. }
  exists m'. split; [|done].
  assert (u64 (seq + 1) = seq + 1) as Eu.
  { apply u64_id. assert (kMaxSequenceNumber = 2 ^ 56 - 1) as Emax by done. lia. }
  destruct o; simpl in *; unfold insert_update; simpl; rewrite E, Eu; done.
Qed.

Lemma handle_ops seq os m us :
  holds m us -> Forall op_ok os -> 0 <= seq -> seq + Z.of_nat (length os) <= kMaxSequenceNumber + 1 ->
  Forall (fun v => up_seq v < seq) us ->
  exists m', handle_all (handler := inserter) os (Inserter seq m) = Some (Inserter (seq + Z.of_nat (length os)) m') /\
    holds m' (op_updates seq os us).
Proof.
  intros Hm Ho. revert seq m us Hm. induction Ho as [|o os Ho Hos IH]; intros seq m us Hm Hs Hn Hlt.
  { exists m. simpl. by rewrite Z.add_0_r. }
  simpl length in Hn. destruct (handle_op seq o m us Hm Ho ltac:(lia) Hlt) as (m1 & E & Hm1).
  destruct (IH (seq + 1) m1 _ Hm1) as (m' & E' & Hm'); [lia|lia| |].
  { constructor; [destruct o; simpl; lia|]. eapply Forall_impl; [exact Hlt|]. simpl. lia. }
  exists m'. cbn [handle_all]. rewrite E, E'. split; [|done]. f_equal. f_equal. simpl length. lia.
Qed.

(** What a batch does to a key: the last update of it. *)
Fixpoint last_op (k : list byte) (os : list op) : option op :=
  match os with
  | [] => None
  | o :: os' => match last_op k os' with Some o' => Some o' | None => if decide (Compare (op_key o) k = Some 0) then Some o else None end
  end.

Lemma op_updates_in seq os us u : In u (op_updates seq os us) ->
  In u us \/ exists i o, os !! i = Some o /\ u = op_update (seq + Z.of_nat i) o.
Proof.
  revert seq us. induction os as [|o os IH]; intros seq us; simpl; [auto|].
  intros [[<-|Hu]|(i & o' & Eo & ->)]%IH; [right|auto|right].
  - exists 0%nat, o. by rewrite Z.add_0_r.
  - exists (S i), o'. split; [done|]. f_equal. lia.
Qed.

Lemma in_op_updates seq os us u :
  In u us \/ (exists i o, os !! i = Some o /\ u = op_update (seq + Z.of_nat i) o) -> In u (op_updates seq os us).
Proof.
  revert seq us. induction os as [|o os IH]; intros seq us; simpl; [by intros [?|(i & o & E & _)]|].
  intros [Hu|(i & o' & Eo & ->)]; apply IH; [left; by right|].
  destruct i as [|i]; simpl in *.
  - injection Eo as ->. left. left. by rewrite Z.add_0_r.
  - right. exists i, o'. split; [done|]. f_equal. lia.
Qed.

Lemma last_op_spec k os :
  match last_op k os with
  | Some o => exists i, os !! i = Some o /\ Compare (op_key o) k = Some 0 /\
      forall j o', os !! j = Some o' -> Compare (op_key o') k = Some 0 -> (j <= i)%nat
  | None => forall o, In o os -> Compare (op_key o) k <> Some 0
  end.
Proof.
  induction os as [|o os IH]; simpl; [done|]. destruct (last_op k os) as [o'|].
  - destruct IH as (i & Eo & Ek & Hlast). exists (S i). split_and!; [done|done|].
    intros [|j] o'' Ej Ekj; [lia|]. apply le_n_S. by eapply Hlast.
  - destruct (decide (Compare (op_key o) k = Some 0)) as [Ek|Ek].
    + exists 0%nat. split_and!; [done|done|]. intros [|j] o'' Ej Ekj; [lia|]. exfalso.
      apply (IH o''); [|done]. by apply list_elem_of_In, (list_elem_of_lookup_2 _ j).
    + intros o' [<-|Ho]; [done|by apply IH].
Qed.

(** The newest version after a batch is the last update of the batch, if there is one. *)
Lemma newest_after_batch seq os us k snap u :
  Forall op_ok os -> 0 <= seq -> seq + Z.of_nat (length os) <= snap + 1 -> snap <= kMaxSequenceNumber ->
  Forall fits us -> Forall (fun v => up_seq v < seq) us ->
  newest (user := user) (op_updates seq os us) k snap u ->
  match last_op k os with
  | Some o => exists i, os !! i = Some o /\ u = op_update (seq + Z.of_nat i) o
  | None => newest (user := user) us k snap u
  end.
Proof.
  intros Hos Hseq Hsnap Hmax Hf Hlt (Hin & [Ek Hs] & Hbest).
  assert (forall i o, os !! i = Some o -> fits (op_update (seq + Z.of_nat i) o)) as Hfo.
  { intros i o E. pose proof (lookup_lt_Some _ _ _ E). apply op_update_fits; [|lia].
    rewrite Forall_lookup in Hos. by eapply Hos. }
  assert (forall s o, up_key (op_update s o) = op_key o) as Ekey by by intros s [].
  assert (forall s o, up_seq (op_update s o) = s) as Eseq by by intros s [].
  pose proof (last_op_spec k os) as Hl. destruct (last_op k os) as [o|].
  - destruct Hl as (i & Eo & Eok & Hlast). exists i. split; [done|]. pose proof (lookup_lt_Some _ _ _ Eo) as Hi.
    assert (up_tag (op_update (seq + Z.of_nat i) o) <= up_tag u) as Hle.
    { apply Hbest; [apply in_op_updates; right; by exists i, o|]. split; [by rewrite Ekey|rewrite Eseq; lia]. }
    pose proof (up_tag_seq _ (Hfo i o Eo)) as Et. rewrite Eseq in Et.
    apply (Z.div_le_mono _ _ 256) in Hle; [|lia]. rewrite Et in Hle.
    apply op_updates_in in Hin as [Hu|(j & o' & Eo' & ->)].
    + rewrite List.Forall_forall in Hlt, Hf. specialize (Hlt u Hu). rewrite (up_tag_seq u (Hf u Hu)) in Hle. lia.
    + rewrite (up_tag_seq _ (Hfo j o' Eo')), Eseq in Hle. rewrite Ekey in Ek. pose proof (Hlast j o' Eo' Ek) as Hji.
      assert (j = i) as -> by lia. rewrite Eo in Eo'. by injection Eo' as ->.
  - apply op_updates_in in Hin as [Hu|(j & o' & Eo' & ->)].
    + split; [done|]. split; [done|]. intros v Hv Hvis. apply Hbest; [apply in_op_updates; auto|done].
    + exfalso. rewrite Ekey in Ek. apply (Hl o'); [|done]. by apply list_elem_of_In, (list_elem_of_lookup_2 _ j).
Qed.

(** C14. Inserting a batch made by [Put] and [Delete] into a memtable whose versions are older succeeds, and from the
    end of the batch on a lookup of a key answers with the last update of the key in the
    batch; for the other keys it answers as before. *)
Theorem memtable_read_your_writes m us os seq k snap value s :
  holds m us -> Forall (fun v => up_seq v < seq) us -> Forall op_ok os -> Z.of_nat (length os) < 2 ^ 31 ->
  0 <= seq -> seq + Z.of_nat (length os) <= snap + 1 -> snap <= kMaxSequenceNumber ->
  valid k -> Z.of_nat (length k) + 8 < 2 ^ 32 -> 0 <= snap ->
  exists b b' m' key, BatchOps (le := le) os new_WriteBatch = Some b /\ SetSequence le seq b = Some b' /\
    InsertInto le user b' m = Some (OK, m') /\
    LookupKey le k snap = Some key /\
    Get le user m' key value s =
      match last_op k os with
      | Some (OpPut _ v) => Some (true, v, s)
      | Some (OpDelete k') => answer (le := le) (Update k' 0 kTypeDeletion []) value s
      | None => Get le user m key value s
      end.
Proof.
  intros Hm Hlt Hos Hn Hseq Hsnap Hmax Hk Hl Hsnap0.
  assert (seq < 2 ^ 64) by (assert (kMaxSequenceNumber = 2 ^ 56 - 1) as Emax by done; lia).
  destruct (handle_ops seq os m us Hm Hos Hseq ltac:(lia) Hlt) as (m' & E & Hm').
  destruct (Get_spec m' (op_updates seq os us) k snap value s Hm' Hk ltac:(lia) Hl) as (key & Ekey & Hget).
  destruct (Get_spec m us k snap value s Hm Hk ltac:(lia) Hl) as (key0 & Ekey0 & Hget0).
  rewrite Ekey in Ekey0. injection Ekey0 as <-.
  assert (Forall op_fits os) as Hos' by (eapply Forall_impl; [exact Hos|apply op_ok_fits]).
  exists (batch_rep 0 (Z.of_nat (length os)) os), (batch_rep seq (Z.of_nat (length os)) os), m', key.
  assert (Forall fits us) as Hf by (destruct Hm as (_ & _ & _ & _ & _ & Hf); done).
  split_and!; [by apply (BatchOps_rep 0 [] os)|apply SetSequence_rep| |done|].
  { unfold InsertInto. rewrite Sequence_rep by lia.
    rewrite (Iterate_rep (handler := inserter) seq os _ _ Hos' Hn E). done. }
  destruct Hget as [(u & Hu & ->)|[Hnone ->]].
  - pose proof (newest_after_batch seq os us k snap u Hos Hseq Hsnap Hmax Hf Hlt Hu) as Hlast.
    destruct (last_op k os) as [o|].
    + destruct Hlast as (i & _ & ->). by destruct o.
    + destruct Hget0 as [(u' & Hu' & ->)|[Hnone _]]; [|destruct Hlast as (Hin & Hvis & _); by destruct (Hnone u Hin)].
      assert (answer (le := le) u value s = answer (le := le) u' value s) as ->; [|done].
      by rewrite (newest_unique m us k snap u u' Hm Hk Hlast Hu').
  - pose proof (last_op_spec k os) as Hlast. destruct (last_op k os) as [o|].
    + exfalso. destruct Hlast as (i & Eo & Ek & _). pose proof (lookup_lt_Some _ _ _ Eo).
      apply (Hnone (op_update (seq + Z.of_nat i) o)); [apply in_op_updates; right; by exists i, o|].
      split; [by destruct o|destruct o; simpl; lia].
    + destruct Hget0 as [(u' & (Hin & Hvis & _) & _)|[_ ->]]; [|done].
      exfalso. apply (Hnone u'); [|done]. apply in_op_updates. auto.
Qed.
End Insert.
