(* ===== verification/Merger.v ===== *)
(** * The merging iterator of LevelDB: table/merger.cc

    Over any implementation of the Iterator interface, behind the wrappers that
    cache validity and key. *)
From S2P Require Import Prelude Comparator Status Iter.

Inductive Direction := kForward | kReverse.

Section Merger.
Context (comparator_ : Comparator) {St : Type} {it : Iterator St}.

Abbreviation child := (IteratorWrapper (St := St)).

Record MergingIterator := Merging {
  children_ : list child;
  current_ : option nat;      (* which child; [None] is NULL *)
  direction_ : Direction;
}.

(** The constructor: every child goes into a wrapper. *)
Fixpoint set_children (children : list St) : option (list child) :=
  match children with
  | [] => Some []
  | c :: cs =>
      match WrapperSet c, set_children cs with
      | Some w, Some ws => Some (w :: ws)
      | _, _ => None
      end
  end.

Definition new_MergingIterator (children : list St) : option MergingIterator :=
  match set_children children with
  | Some ws => Some (Merging ws None kForward)
  | None => None
  end.

(** [for (int i = 0; i < n_; i++)], with an operation on each child. *)
Fixpoint each_child (op : nat -> child -> option child) (i : nat) (cs : list child) : option (list child) :=
  match cs with
  | [] => Some []
  | c :: cs' =>
      match op i c, each_child op (S i) cs' with
      | Some c, Some cs => Some (c :: cs)
      | _, _ => None
      end
  end.

(** [comparator_->Compare(a->key(), b->key())] *)
Definition compare_keys (a b : child) : option Z :=
  match key a, key b with
  | Some ka, Some kb => @Compare comparator_ ka kb
  | _, _ => None
  end.

Fixpoint FindSmallest_loop (i : nat) (cs : list child) (smallest : option (nat * child)) : option (option nat) :=
  match cs with
  | [] => Some (option_map fst smallest)
  | c :: cs' =>
      if Valid c then
        match smallest with
        | None => FindSmallest_loop (S i) cs' (Some (i, c))
        | Some (_, s) =>
            match compare_keys c s with
            | Some r => FindSmallest_loop (S i) cs' (if r <? 0 then Some (i, c) else smallest)
            | None => None
            end
        end
      else FindSmallest_loop (S i) cs' smallest
  end.

Definition FindSmallest (m : MergingIterator) : option MergingIterator :=
  match FindSmallest_loop 0 (children_ m) None with
  | Some current => Some (Merging (children_ m) current (direction_ m))
  | None => None
  end.

(** [for (int i = n_-1; i >= 0; i--)]: the first [n] children, from the last one. *)
Fixpoint FindLargest_loop (n : nat) (cs : list child) (largest : option (nat * child)) : option (option nat) :=
  match n with
  | O => Some (option_map fst largest)
  | S i =>
      match cs !! i with
      | None => None
      | Some c =>
          if Valid c then
            match largest with
            | None => FindLargest_loop i cs (Some (i, c))
            | Some (_, l) =>
                match compare_keys c l with
                | Some r => FindLargest_loop i cs (if 0 <? r then Some (i, c) else largest)
                | None => None
                end
            end
          else FindLargest_loop i cs largest
      end
  end.

Definition FindLargest (m : MergingIterator) : option MergingIterator :=
  match FindLargest_loop (length (children_ m)) (children_ m) None with
  | Some current => Some (Merging (children_ m) current (direction_ m))
  | None => None
  end.

Definition merging_Valid (m : MergingIterator) : bool := match current_ m with Some _ => true | None => false end.

Definition merging_key (m : MergingIterator) : option (list byte) :=
  match current_ m with Some i => match children_ m !! i with Some c => key c | None => None end | None => None end.

Definition merging_value (m : MergingIterator) : option (list byte) :=
  match current_ m with Some i => match children_ m !! i with Some c => value c | None => None end | None => None end.

(** All children are moved, the current one is found again, and the direction
    is set. *)
Definition seek_all (op : child -> option child) (find : MergingIterator -> option MergingIterator) (d : Direction)
    (m : MergingIterator) : option MergingIterator :=
  match each_child (fun _ => op) 0 (children_ m) with
  | None => None
  | Some cs =>
      match find (Merging cs (current_ m) (direction_ m)) with
      | Some m => Some (Merging (children_ m) (current_ m) d)
      | None => None
      end
  end.

Definition merging_SeekToFirst : MergingIterator -> option MergingIterator := seek_all SeekToFirst FindSmallest kForward.
Definition merging_SeekToLast : MergingIterator -> option MergingIterator := seek_all SeekToLast FindLargest kReverse.
Definition merging_Seek (target : list byte) : MergingIterator -> option MergingIterator :=
  seek_all (Seek target) FindSmallest kForward.

(** [Next] and [Prev] move a child other than the current one behind or in front
    of [key()] when the direction changes. *)
Definition move_after (k : list byte) (c : child) : option child :=
  match Seek k c with
  | None => None
  | Some c =>
      if Valid c then
        match key c with
        | Some kc =>
            match @Compare comparator_ k kc with
            | Some r => if r =? 0 then Next c else Some c
            | None => None
            end
        | None => None
        end
      else Some c
  end.

Definition move_before (k : list byte) (c : child) : option child :=
  match Seek k c with
  | None => None
  | Some c => if Valid c then Prev c else SeekToLast c
  end.

Definition turn (move : list byte -> child -> option child) (d : Direction) (m : MergingIterator) : option MergingIterator :=
  match merging_key m with
  | None => None
  | Some k =>
      match each_child (fun i c => if decide (current_ m = Some i) then Some c else move k c) 0 (children_ m) with
      | Some cs => Some (Merging cs (current_ m) d)
      | None => None
      end
  end.

Definition move_current (op : child -> option child) (m : MergingIterator) : option MergingIterator :=
  match current_ m with
  | None => None
  | Some i =>
      match children_ m !! i with
      | None => None
      | Some c => match op c with Some c => Some (Merging (<[i := c]> (children_ m)) (current_ m) (direction_ m)) | None => None end
      end
  end.

Definition merging_Next (m : MergingIterator) : option MergingIterator :=
  if merging_Valid m then
    match (match direction_ m with kForward => Some m | kReverse => turn move_after kForward m end) with
    | None => None
    | Some m =>
        match move_current Next m with
        | Some m => FindSmallest m
        | None => None
        end
    end
  else None.

Definition merging_Prev (m : MergingIterator) : option MergingIterator :=
  if merging_Valid m then
    match (match direction_ m with kReverse => Some m | kForward => turn move_before kReverse m end) with
    | None => None
    | Some m =>
        match move_current Prev m with
        | Some m => FindLargest m
        | None => None
        end
    end
  else None.

(** The first status that is not OK. *)
Fixpoint first_error (cs : list child) (s : Status) : Status :=
  match cs with
  | [] => s
  | c :: cs' => let s := status c in if negb (ok s) then s else first_error cs' s
  end.

Definition MergingIterator_iterator : Iterator MergingIterator := {|
  Valid := merging_Valid;
  SeekToFirst := merging_SeekToFirst;
  SeekToLast := merging_SeekToLast;
  Seek := merging_Seek;
  Next := merging_Next;
  Prev := merging_Prev;
  key := merging_key;
  value := merging_value;
  status m := first_error (children_ m) OK;
|}.

(** No child, one, or more. *)
Inductive merged := MergedEmpty (e : EmptyIterator) | MergedOne (c : St) | MergedMany (m : MergingIterator).

Definition NewMergingIterator (list : list St) : option merged :=
  match list with
  | [] => Some (MergedEmpty NewEmptyIterator)
  | [c] => Some (MergedOne c)
  | _ => match new_MergingIterator list with Some m => Some (MergedMany m) | None => None end
  end.
End Merger.
