(* ===== verification/MergerProps.v ===== *)
(** * The merging iterator: the children's entries in one order *)
From Stdlib Require Import Sorted.
From S2P Require Import Prelude Comparator Status Iter Merger.

(** ** Lists of sources *)

Lemma NoDup_concat_inj {A} (ls : list (list A)) i j a b l l' x :
  NoDup (concat ls) -> ls !! i = Some l -> ls !! j = Some l' -> l !! a = Some x -> l' !! b = Some x -> i = j /\ a = b.
Proof.
  revert i j. induction ls as [|l0 ls IH]; intros i j Hd Ei Ej Ea Eb; [done|]. simpl in Hd.
  apply NoDup_app in Hd as (Hd0 & Hx & Hd).
  assert (forall n l1 k, ls !! n = Some l1 -> l1 !! k = Some x -> x ∈ concat ls) as Hin.
  { intros n l1 k E1 E2. apply list_elem_of_In, in_concat. exists l1.
    split; apply list_elem_of_In; by eapply list_elem_of_lookup_2. }
  destruct i as [|i], j as [|j]; simpl in *.
  - split; [done|]. injection Ei as ->. injection Ej as ->. exact (NoDup_lookup _ _ _ _ Hd0 Ea Eb).
  - injection Ei as ->. exfalso. apply (Hx x); [by eapply list_elem_of_lookup_2|by eapply Hin].
  - injection Ej as ->. exfalso. apply (Hx x); [by eapply list_elem_of_lookup_2|by eapply Hin].
  - destruct (IH i j Hd Ei Ej Ea Eb) as [-> ->]. done.
Qed.

Section Merger.
Context {c : Comparator} {valid : list byte -> Prop} {Hc : ComparatorOk c valid}.
Context {St : Type} {it : Iterator St}.
Context {srcs : list (list entry)} {at_pos : nat -> St -> option nat -> Prop}.
Context {Hkids : forall i es, srcs !! i = Some es -> IteratorOk it c valid es (at_pos i)}.
Context {m : list entry} {Hperm : m ≡ₚ concat srcs} {Hsorted : keys_sorted c m}.
Context {Hsrcs : Forall (keys_sorted c) srcs} {Hvalid : Forall (fun e => valid e.1) m}.

Abbreviation child := (IteratorWrapper (St := St)).
Abbreviation at_child i := (wrapped (it := it) (at_pos := at_pos i)).

Lemma m_inj a b e : m !! a = Some e -> m !! b = Some e -> a = b.
Proof.
  intros Ea Eb. destruct (Nat.lt_trichotomy a b) as [H|[H|H]]; [|done|]; exfalso.
  - apply (key_lt_irrefl (cmp := @Compare c) e.1). by apply (Hsorted a b e e H).
  - apply (key_lt_irrefl (cmp := @Compare c) e.1). by apply (Hsorted b a e e H).
Qed.

Lemma m_NoDup : NoDup m.
Proof. apply NoDup_alt. intros a b e. apply m_inj. Qed.

Lemma m_valid g e : m !! g = Some e -> valid e.1.
Proof. intros E. rewrite Forall_lookup in Hvalid. by eapply Hvalid. Qed.

Lemma src_in_m i es j e : srcs !! i = Some es -> es !! j = Some e -> exists g, m !! g = Some e.
Proof.
  intros Ei Ej. apply list_elem_of_lookup. rewrite Hperm. apply list_elem_of_In, in_concat. exists es.
  split; apply list_elem_of_In; by eapply list_elem_of_lookup_2.
Qed.

Lemma m_in_src g e : m !! g = Some e -> exists i es j, srcs !! i = Some es /\ es !! j = Some e.
Proof.
  intros E. apply list_elem_of_lookup_2 in E. rewrite Hperm in E. apply list_elem_of_In, in_concat in E as (es & H1 & H2).
  apply list_elem_of_In, list_elem_of_lookup in H1 as [i Ei]. apply list_elem_of_In, list_elem_of_lookup in H2 as [j Ej].
  by exists i, es, j.
Qed.

Lemma src_unique i i' es es' j j' e :
  srcs !! i = Some es -> srcs !! i' = Some es' -> es !! j = Some e -> es' !! j' = Some e -> i = i' /\ j = j'.
Proof. apply NoDup_concat_inj. rewrite <- Hperm. apply m_NoDup. Qed.

Lemma m_order a b ea eb : m !! a = Some ea -> m !! b = Some eb -> (a < b)%nat <-> key_lt c ea.1 eb.1.
Proof.
  intros Ea Eb. split; [intros; by eapply Hsorted|]. intros Hlt. destruct (Nat.lt_trichotomy a b) as [H|[H|H]]; [done| |].
  - subst b. rewrite Ea in Eb. injection Eb as <-. by apply key_lt_irrefl in Hlt.
  - exfalso. apply (key_lt_not_le _ _ Hlt), key_lt_le. by apply (Hsorted b a eb ea).
Qed.

Lemma src_sorted i es : srcs !! i = Some es -> keys_sorted c es.
Proof. intros E. rewrite Forall_lookup in Hsrcs. by eapply Hsrcs. Qed.

(** ** Cuts

    [f] says for each source how many of its entries are among the first [g] of
    the merged list. *)
Definition is_cut (g : nat) (f : nat -> nat) : Prop :=
  forall i es, srcs !! i = Some es -> (f i <= length es)%nat /\
    forall j e, es !! j = Some e -> (j < f i)%nat <-> exists a, (a < g)%nat /\ m !! a = Some e.

Definition ge_pos (f : nat -> nat) (i : nat) (es : list entry) : option nat :=
  if decide (f i < length es)%nat then Some (f i) else None.
Definition lt_pos (f : nat -> nat) (i : nat) (es : list entry) : option nat := prev_pos (f i).

Definition upd (f : nat -> nat) (i v : nat) : nat -> nat := fun j => if decide (j = i) then v else f j.

Lemma upd_eq f i v : upd f i v i = v.
Proof. unfold upd. by rewrite decide_True. Qed.

Lemma upd_ne f i v j : j <> i -> upd f i v j = f j.
Proof. intros Hne. unfold upd. by rewrite decide_False. Qed.

Lemma cut_first : is_cut 0 (fun _ => 0%nat).
Proof. intros i es Ei. split; [lia|]. intros j e Ej. split; [lia|intros (a & ? & _); lia]. Qed.

Lemma cut_last : is_cut (length m) (fun i => match srcs !! i with Some es => length es | None => 0%nat end).
Proof.
  intros i es Ei. rewrite Ei. split; [lia|]. intros j e Ej. split; [|intros _; by eapply lookup_lt_Some].
  intros _. destruct (src_in_m i es j e Ei Ej) as [a Ea]. exists a. split; [by eapply lookup_lt_Some|done].
Qed.

Lemma cut_step g f i es e :
  is_cut g f -> m !! g = Some e -> srcs !! i = Some es -> es !! f i = Some e -> is_cut (S g) (upd f i (S (f i))).
Proof.
  intros Hcut Eg Ei Ee i' es' Ei'. destruct (Hcut i' es' Ei') as [Hl Hj]. unfold upd.
  destruct (decide (i' = i)) as [->|Hne].
  - rewrite Ei in Ei'. injection Ei' as <-. pose proof (lookup_lt_Some _ _ _ Ee). split; [lia|]. intros j e' Ej. split.
    + intros Hlt. destruct (decide (j = f i)) as [->|]; [exists g; split; [lia|congruence]|].
      destruct (proj1 (Hj j e' Ej)) as (a & ? & ?); [lia|]. exists a. split; [lia|done].
    + intros (a & Ha & Ea). destruct (decide (a = g)) as [->|].
      * assert (e' = e) as -> by congruence. destruct (src_unique i i es es j (f i) e Ei Ei Ej Ee). lia.
      * enough (j < f i)%nat by lia. apply (Hj j e' Ej). exists a. split; [lia|done].
  - split; [done|]. intros j e' Ej. rewrite (Hj j e' Ej). split; intros (a & Ha & Ea); [exists a; split; [lia|done]|].
    exists a. split; [|done]. destruct (decide (a = g)) as [->|]; [|lia]. exfalso. assert (e' = e) as -> by congruence.
    by destruct (src_unique i' i es' es j (f i) e Ei' Ei Ej Ee).
Qed.

Lemma cut_back g f i es e :
  is_cut (S g) f -> m !! g = Some e -> srcs !! i = Some es -> (0 < f i)%nat -> es !! (f i - 1)%nat = Some e ->
  is_cut g (upd f i (f i - 1)).
Proof.
  intros Hcut Eg Ei Hpos Ee i' es' Ei'. destruct (Hcut i' es' Ei') as [Hl Hj]. unfold upd.
  destruct (decide (i' = i)) as [->|Hne].
  - rewrite Ei in Ei'. injection Ei' as <-. split; [lia|]. intros j e' Ej. split.
    + intros Hlt. destruct (proj1 (Hj j e' Ej)) as (a & Ha & Ea); [lia|]. exists a. split; [|done].
      destruct (decide (a = g)) as [->|]; [|lia]. assert (e' = e) as -> by congruence.
      destruct (src_unique i i es es j (f i - 1) e Ei Ei Ej Ee). lia.
    + intros (a & Ha & Ea). assert (j < f i)%nat as Hlt by (apply (Hj j e' Ej); exists a; split; [lia|done]).
      destruct (decide (j = f i - 1)%nat) as [->|]; [|lia]. assert (e' = e) as -> by congruence.
      pose proof (m_inj a g e Ea Eg). lia.
  - split; [done|]. intros j e' Ej. rewrite (Hj j e' Ej). split; intros (a & Ha & Ea); [|exists a; split; [lia|done]].
    exists a. split; [|done]. destruct (decide (a = g)) as [->|]; [|lia]. exfalso. assert (e' = e) as -> by congruence.
    by destruct (src_unique i' i es' es j (f i - 1) e Ei' Ei Ej Ee).
Qed.

(** The cut in front of a target. *)
Definition lt_count (target : list byte) (es : list entry) : nat := default (length es) (seek_pos c target es).

Lemma lt_count_spec target es j e :
  keys_sorted c es -> valid target -> (forall e, In e es -> valid e.1) ->
  es !! j = Some e -> (j < lt_count target es)%nat <-> key_ge c target e.1 = false.
Proof.
  intros Hs Ht Hv Ej. unfold lt_count. pose proof (seek_pos_spec c target es) as Hspec.
  assert (In e es) as Hin by by apply list_elem_of_In, (list_elem_of_lookup_2 _ j).
  destruct (seek_pos c target es) as [i|]; simpl.
  - destruct Hspec as (e' & Ei & Hge & Hlt). split; [intros; by eapply Hlt|]. intros He.
    destruct (decide (j < i)%nat) as [|Hn]; [done|]. exfalso. assert (In e' es) as Hin' by by apply list_elem_of_In, (list_elem_of_lookup_2 _ i).
    destruct (decide (j = i)) as [->|]; [congruence|].
    assert (key_lt c e'.1 e.1) as Hee by (eapply (Hs i j); [lia|done|done]).
    apply (key_ge_false (valid := valid) target e.1 Ht (Hv e Hin)) in He.
    apply (key_ge_true (valid := valid) target e'.1 Ht (Hv e' Hin')) in Hge.
    apply (key_lt_not_le _ _ He), (key_le_trans (valid := valid) target e'.1 e.1); [done|by apply Hv|by apply Hv|done|by apply key_lt_le].
  - split; [intros _; by apply Hspec|]. intros _. by eapply lookup_lt_Some.
Qed.

Lemma lt_count_seek target es : seek_pos c target es = if decide (lt_count target es < length es)%nat then Some (lt_count target es) else None.
Proof.
  unfold lt_count. pose proof (seek_pos_spec c target es) as Hspec. destruct (seek_pos c target es) as [i|]; simpl.
  - destruct Hspec as (e & Ei & _). by rewrite decide_True by by eapply lookup_lt_Some.
  - by rewrite decide_False by lia.
Qed.

Lemma src_valid i es e : srcs !! i = Some es -> In e es -> valid e.1.
Proof.
  intros Ei Hin%list_elem_of_In. apply list_elem_of_lookup in Hin as [j Ej]. destruct (src_in_m i es j e Ei Ej) as [g Eg].
  by eapply m_valid.
Qed.

Lemma cut_seek target : valid target ->
  is_cut (lt_count target m) (fun i => match srcs !! i with Some es => lt_count target es | None => 0%nat end).
Proof.
  intros Ht i es Ei. rewrite Ei. assert (forall e, In e m -> valid e.1) as Hvm.
  { intros e Hin. by rewrite List.Forall_forall in Hvalid; apply Hvalid. }
  split.
  - unfold lt_count. pose proof (seek_pos_spec c target es) as Hspec. destruct (seek_pos c target es) as [j|]; simpl.
    2: done.
    destruct Hspec as (e & Ej & _). apply lookup_lt_Some in Ej. by apply Nat.lt_le_incl.
  - intros j e Ej. rewrite (lt_count_spec target es j e (src_sorted i es Ei) Ht (fun e => src_valid i es e Ei) Ej).
    destruct (src_in_m i es j e Ei Ej) as [a Ea]. split.
    + intros He. exists a. split; [|done]. by apply (lt_count_spec target m a e Hsorted Ht Hvm Ea).
    + intros (b & Hb & Eb). by apply (lt_count_spec target m b e Hsorted Ht Hvm Eb).
Qed.

(** ** Children at their positions *)

Definition kids_at (cs : list child) (ps : nat -> list entry -> option nat) : Prop :=
  length cs = length srcs /\ forall i w es, cs !! i = Some w -> srcs !! i = Some es -> at_child i w (ps i es).

Lemma kid_ok i es : srcs !! i = Some es -> IteratorOk (IteratorWrapper_iterator (it := it)) c valid es (at_child i).
Proof. intros Ei. apply (IteratorWrapper_ok (Hok := Hkids i es Ei)). Qed.

Lemma kids_lookup cs ps i es : kids_at cs ps -> srcs !! i = Some es -> exists w, cs !! i = Some w /\ at_child i w (ps i es).
Proof.
  intros [Hl Hk] Ei. destruct (lookup_lt_is_Some_2 cs i) as [w Ew]; [rewrite Hl; by eapply lookup_lt_Some|].
  exists w. split; [done|by apply Hk].
Qed.

Lemma kids_source cs ps i w : kids_at cs ps -> cs !! i = Some w -> exists es, srcs !! i = Some es.
Proof. intros [Hl _] Ew. apply lookup_lt_is_Some_2. rewrite <- Hl. by eapply lookup_lt_Some. Qed.

(** An operation on every child. *)
Lemma each_child_spec (op : nat -> child -> option child) n cs ps' :
  (forall i w, cs !! i = Some w -> exists w', op (n + i)%nat w = Some w' /\ ps' (n + i)%nat w') ->
  exists cs', each_child op n cs = Some cs' /\ length cs' = length cs /\
    forall i w', cs' !! i = Some w' -> ps' (n + i)%nat w'.
Proof.
  revert n. induction cs as [|w cs IH]; intros n Hop; [by exists []|].
  destruct (Hop 0%nat w eq_refl) as (w' & E & Hw'). rewrite Nat.add_0_r in E, Hw'.
  destruct (IH (S n)) as (cs' & E' & Hl & Hcs').
  { intros i w0 Ei. destruct (Hop (S i) w0 Ei) as (w1 & E1 & H1). exists w1. by rewrite Nat.add_succ_comm. }
  exists (w' :: cs'). cbn [each_child]. rewrite E, E'. split_and!; [done|by simpl; rewrite Hl|].
  intros [|i] w0 Ei; simpl in Ei; [injection Ei as <-; by rewrite Nat.add_0_r|].
  specialize (Hcs' i w0 Ei). by rewrite Nat.add_succ_comm in Hcs'.
Qed.

Lemma each_child_kids (op : nat -> child -> option child) cs ps ps' :
  kids_at cs ps ->
  (forall i w es, srcs !! i = Some es -> cs !! i = Some w -> at_child i w (ps i es) -> exists w', op i w = Some w' /\ at_child i w' (ps' i es)) ->
  exists cs', each_child op 0 cs = Some cs' /\ kids_at cs' ps'.
Proof.
  intros Hk Hop. destruct (each_child_spec op 0 cs (fun i w => forall es, srcs !! i = Some es -> at_child i w (ps' i es))) as (cs' & E & Hl & Hcs').
  - intros i w Ei. destruct (kids_source cs ps i w Hk Ei) as [es Es].
    destruct (Hop i w es Es Ei) as (w' & E & Hw'); [by apply Hk|]. exists w'. split; [done|]. intros es' Es'. simpl in Es'. assert (es' = es) as -> by congruence. done.
  - exists cs'. split; [done|]. split; [rewrite Hl; apply Hk|]. intros i w es Ei Es. by apply (Hcs' i w Ei).
Qed.

(** The key of a child. *)
Lemma child_key i w es j : srcs !! i = Some es -> at_child i w (Some j) ->
  exists e, es !! j = Some e /\ Valid w = true /\ key w = Some e.1 /\ value w = Some e.2.
Proof.
  intros Ei Hw. destruct (it_entry (IteratorOk := kid_ok i es Ei) w j Hw) as (e & Ee & Ek & Ev).
  exists e. split_and!; [done| |done|done]. rewrite (it_valid (IteratorOk := kid_ok i es Ei) w (Some j) Hw).
  by rewrite bool_decide_true.
Qed.

Lemma child_invalid i w es : srcs !! i = Some es -> at_child i w None -> Valid w = false.
Proof.
  intros Ei Hw. rewrite (it_valid (IteratorOk := kid_ok i es Ei) w None Hw). apply bool_decide_eq_false_2. by intros [? ?].
Qed.

(** ** The searches for the smallest and the largest *)

Definition good_child (w : child) : Prop := Valid w = true -> exists k, key w = Some k /\ valid k.

(** [s] is best among [ws] in the order [le]. *)
Definition best (le : list byte -> list byte -> Prop) (s : child) (ws : list child) : Prop :=
  exists k, key s = Some k /\ valid k /\ forall w k', In w ws -> Valid w = true -> key w = Some k' -> le k k'.

Lemma compare_keys_spec a b ka kb : key a = Some ka -> key b = Some kb -> valid ka -> valid kb ->
  exists r, compare_keys c a b = Some r /\ (r < 0 <-> key_lt c ka kb) /\ (r <= 0 <-> key_le c ka kb) /\ (0 < r <-> key_lt c kb ka).
Proof.
  intros Ea Eb Ha Hb. unfold compare_keys. rewrite Ea, Eb. destruct (compare_defined ka kb Ha Hb) as [r E]. exists r.
  destruct (compare_defined kb ka Hb Ha) as [r' E']. pose proof (compare_antisym _ _ _ _ E E').
  destruct (cmp_sign ka kb r E) as [H1 H2]. destruct (cmp_sign kb ka r' E') as [H3 _].
  split_and!; [done|done|done|]. rewrite <- H3. lia.
Qed.

Lemma FindSmallest_loop_spec i cs acc :
  Forall good_child cs ->
  (forall n s, acc = Some (n, s) -> Valid s = true /\ exists k, key s = Some k /\ valid k) ->
  exists res, FindSmallest_loop c i cs acc = Some (option_map fst res) /\
    match res with
    | None => acc = None /\ Forall (fun w => Valid w = false) cs
    | Some (n, s) => Valid s = true /\ (acc = Some (n, s) \/ (i <= n)%nat /\ cs !! (n - i)%nat = Some s) /\
        best (key_le c) s (cs ++ match acc with Some (_, s0) => [s0] | None => [] end)
    end.
Proof.
  intros Hg. revert i acc. induction Hg as [|w cs Hw Hg IH]; intros i acc Hacc; cbn [FindSmallest_loop].
  { exists acc. split; [done|]. destruct acc as [[n s]|]; [|done]. destruct (Hacc n s eq_refl) as (Hv & k & Ek & Hk).
    split; [done|]. split; [by left|]. exists k. split_and!; [done|done|]. intros w k' [<-|[]] _ Ek'.
    rewrite Ek in Ek'. injection Ek' as <-. by apply (key_le_refl (valid := valid)). }
  destruct (Valid w) eqn:Ev.
  - destruct (Hw Ev) as (kw & Ekw & Hkw). destruct acc as [[n0 s0]|].
    + destruct (Hacc n0 s0 eq_refl) as (Hv0 & k0 & Ek0 & Hk0).
      destruct (compare_keys_spec w s0 kw k0 Ekw Ek0 Hkw Hk0) as (r & -> & Hr & Hr' & _).
      destruct (IH (S i) (if r <? 0 then Some (i, w) else Some (n0, s0))) as (res & E & Hres).
      { intros n s. destruct (r <? 0); intros [= <- <-]; [split; [done|by exists kw]|split; [done|by exists k0]]. }
      exists res. split; [done|]. destruct res as [[n s]|]; [|destruct Hres as [Hres _]; by destruct (r <? 0)].
      destruct Hres as (Hvs & Hwhere & k & Ek & Hk & Hbest). split; [done|]. split.
      * destruct Hwhere as [Hw0|(Hi & En)]; [|right; split; [lia|]; by replace (n - i)%nat with (S (n - S i)) by lia].
        destruct (r <? 0); injection Hw0 as <- <-; [right; split; [lia|by rewrite Nat.sub_diag]|by left].
      * exists k. split_and!; [done|done|]. intros w' k' Hin Hvw' Ekw'. simpl in Hin.
        assert (key_le c k (if r <? 0 then kw else k0)) as Hbase.
        { destruct (Z.ltb_spec r 0); eapply Hbest; [apply in_app_iff; right; by left|done|done|apply in_app_iff; right; by left|done|done]. }
        destruct Hin as [<-|[Hin|[<-|[]]]%in_app_iff].
        -- rewrite Ekw in Ekw'. injection Ekw' as <-. destruct (Z.ltb_spec r 0) as [|Hge]; [done|].
           apply (key_le_trans (valid := valid) k k0 kw); try done.
           destruct (key_total (valid := valid) kw k0 Hkw Hk0) as [Hlt|]; [|done]. apply Hr in Hlt. lia.
        -- by apply (Hbest w' k'); [apply in_app_iff; left| |].
        -- rewrite Ek0 in Ekw'. injection Ekw' as <-. destruct (Z.ltb_spec r 0) as [Hlt|]; [|done].
           apply (key_le_trans (valid := valid) k kw k0); try done. apply key_lt_le, Hr, Hlt.
    + destruct (IH (S i) (Some (i, w))) as (res & E & Hres); [intros n s [= <- <-]; split; [done|by exists kw]|].
      exists res. split; [done|]. destruct res as [[n s]|]; [|by destruct Hres].
      destruct Hres as (Hvs & Hwhere & k & Ek & Hk & Hbest). split; [done|]. split.
      * right. destruct Hwhere as [[= <- <-]|(Hi & En)]; [split; [lia|by rewrite Nat.sub_diag]|].
        split; [lia|]. by replace (n - i)%nat with (S (n - S i)) by lia.
      * exists k. split_and!; [done|done|]. intros w' k' Hin. rewrite app_nil_r in Hin. apply Hbest, in_app_iff.
        destruct Hin as [<-|Hin]; [right; by left|by left].
  - destruct (IH (S i) acc Hacc) as (res & E & Hres). exists res. split; [done|]. destruct res as [[n s]|].
    + destruct Hres as (Hvs & Hwhere & k & Ek & Hk & Hbest). split; [done|]. split.
      * destruct Hwhere as [|(Hi & En)]; [by left|right]. split; [lia|]. by replace (n - i)%nat with (S (n - S i)) by lia.
      * exists k. split_and!; [done|done|]. intros w' k' [<-|Hin]; [congruence|by apply Hbest].
    + destruct Hres. split; [done|by constructor].
Qed.

Lemma FindLargest_loop_spec n cs acc :
  (n <= length cs)%nat -> Forall good_child cs ->
  (forall j s, acc = Some (j, s) -> Valid s = true /\ cs !! j = Some s /\ exists k, key s = Some k /\ valid k) ->
  exists res, FindLargest_loop c n cs acc = Some (option_map fst res) /\
    match res with
    | None => acc = None /\ Forall (fun w => Valid w = false) (take n cs)
    | Some (j, s) => Valid s = true /\ cs !! j = Some s /\
        best (fun a b => key_le c b a) s (take n cs ++ match acc with Some (_, s0) => [s0] | None => [] end)
    end.
Proof.
  intros Hn Hg. revert acc Hn. induction n as [|n IH]; intros acc Hn Hacc; cbn [FindLargest_loop].
  { exists acc. split; [done|]. destruct acc as [[j s]|]; [|done]. destruct (Hacc j s eq_refl) as (Hv & Ej & k & Ek & Hk).
    split_and!; [done|done|]. exists k. split_and!; [done|done|]. intros w k' [<-|[]] _ Ek'.
    rewrite Ek in Ek'. injection Ek' as <-. by apply (key_le_refl (valid := valid)). }
  destruct (lookup_lt_is_Some_2 cs n) as [w Ew]; [lia|]. rewrite Ew, (take_S_r cs n w Ew).
  assert (good_child w) as Hw by (rewrite Forall_lookup in Hg; by eapply Hg).
  destruct (Valid w) eqn:Ev.
  - destruct (Hw Ev) as (kw & Ekw & Hkw). destruct acc as [[j0 s0]|].
    + destruct (Hacc j0 s0 eq_refl) as (Hv0 & Ej0 & k0 & Ek0 & Hk0).
      destruct (compare_keys_spec w s0 kw k0 Ekw Ek0 Hkw Hk0) as (r & -> & _ & Hr' & Hr).
      destruct (IH (if 0 <? r then Some (n, w) else Some (j0, s0))) as (res & E & Hres); [lia| |].
      { intros j s. destruct (0 <? r); intros [= <- <-]; (split_and!; [done|done|]); [by exists kw|by exists k0]. }
      exists res. split; [done|]. destruct res as [[j s]|]; [|destruct Hres as [Hres _]; by destruct (0 <? r)].
      destruct Hres as (Hvs & Ej & k & Ek & Hk & Hbest). split_and!; [done|done|].
      exists k. split_and!; [done|done|]. intros w' k' Hin Hvw' Ekw'.
      assert (key_le c (if 0 <? r then kw else k0) k) as Hbase.
      { destruct (Z.ltb_spec 0 r); eapply Hbest; [apply in_app_iff; right; by left|done|done|apply in_app_iff; right; by left|done|done]. }
      apply in_app_iff in Hin as [[Hin|[<-|[]]]%in_app_iff|[<-|[]]].
      * by apply (Hbest w' k'); [apply in_app_iff; left| |].
      * rewrite Ekw in Ekw'. injection Ekw' as <-. destruct (Z.ltb_spec 0 r) as [|Hge]; [done|].
        apply (key_le_trans (valid := valid) kw k0 k); try done. apply Hr'. lia.
      * rewrite Ek0 in Ekw'. injection Ekw' as <-. destruct (Z.ltb_spec 0 r) as [Hlt|]; [|done].
        apply (key_le_trans (valid := valid) k0 kw k); try done. apply key_lt_le, Hr, Hlt.
    + destruct (IH (Some (n, w))) as (res & E & Hres); [lia|intros j s [= <- <-]; split_and!; [done|done|by exists kw]|].
      exists res. split; [done|]. destruct res as [[j s]|]; [|by destruct Hres].
      destruct Hres as (Hvs & Ej & k & Ek & Hk & Hbest). split_and!; [done|done|].
      exists k. split_and!; [done|done|]. intros w' k' Hin. rewrite app_nil_r in Hin. by apply Hbest.
  - destruct (IH acc ltac:(lia) Hacc) as (res & E & Hres). exists res. split; [done|]. destruct res as [[j s]|].
    + destruct Hres as (Hvs & Ej & k & Ek & Hk & Hbest). split_and!; [done|done|].
      exists k. split_and!; [done|done|]. intros w' k' Hin Hvw'. apply Hbest; [|done]. apply in_app_iff.
      apply in_app_iff in Hin as [[Hin|[<-|[]]]%in_app_iff|Hin]; [by left|congruence|by right].
    + destruct Hres. split; [done|]. apply Forall_app. split; [done|by constructor].
Qed.

(** ** The current child *)

Lemma kids_good cs ps : kids_at cs ps -> Forall good_child cs.
Proof.
  intros Hk. apply Forall_lookup. intros i w Ei Hv. destruct (kids_source cs ps i w Hk Ei) as [es Es].
  pose proof (proj2 Hk i w es Ei Es) as Hw. destruct (ps i es) as [j|].
  - destruct (child_key i w es j Es Hw) as (e & Ee & _ & Ek & _). exists e.1. split; [done|].
    by apply (src_valid i es e Es), list_elem_of_In, (list_elem_of_lookup_2 _ j).
  - by rewrite (child_invalid i w es Es Hw) in Hv.
Qed.

(** An entry behind a cut, and where it is. *)
Lemma behind_cut g f i es j e : is_cut g f -> srcs !! i = Some es -> es !! j = Some e -> (f i <= j)%nat ->
  exists b, m !! b = Some e /\ (g <= b)%nat.
Proof.
  intros Hcut Ei Ej Hle. destruct (src_in_m i es j e Ei Ej) as [b Eb]. exists b. split; [done|].
  destruct (decide (g <= b)%nat); [done|]. destruct (proj2 (proj2 (Hcut i es Ei) j e Ej)); [exists b; split; [lia|done]|lia|lia].
Qed.

Lemma before_cut g f i es j e : is_cut g f -> srcs !! i = Some es -> es !! j = Some e -> (j < f i)%nat ->
  exists b, m !! b = Some e /\ (b < g)%nat.
Proof. intros Hcut Ei Ej Hlt. destruct (proj1 (proj2 (Hcut i es Ei) j e Ej) Hlt) as (b & ? & ?). by exists b. Qed.

(** Where the entry at the cut is. *)
Lemma at_cut g f e : is_cut g f -> m !! g = Some e ->
  exists i es j, srcs !! i = Some es /\ es !! j = Some e /\ (f i <= j)%nat.
Proof.
  intros Hcut Eg. destruct (m_in_src g e Eg) as (i & es & j & Ei & Ej). exists i, es, j. split_and!; [done|done|].
  destruct (decide (f i <= j)%nat); [done|]. destruct (before_cut g f i es j e Hcut Ei Ej) as (b & Eb & Hb); [lia|].
  pose proof (m_inj b g e Eb Eg). lia.
Qed.

Lemma key_le_lookup es i j a b : keys_sorted c es -> (i <= j)%nat -> es !! i = Some a -> es !! j = Some b -> valid a.1 -> key_le c a.1 b.1.
Proof.
  intros Hs Hle Ea Eb Hv. destruct (decide (i = j)) as [->|].
  - assert (a = b) as -> by congruence. by apply (key_le_refl (valid := valid)).
  - apply key_lt_le. apply (Hs i j); [lia|done|done].
Qed.

Lemma FindSmallest_at cs g f :
  kids_at cs (ge_pos f) -> is_cut g f ->
  exists cur, FindSmallest_loop c 0 cs None = Some cur /\
    match cur with
    | None => m !! g = None
    | Some i => exists e es, m !! g = Some e /\ srcs !! i = Some es /\ es !! f i = Some e
    end.
Proof.
  intros Hk Hcut. destruct (FindSmallest_loop_spec 0 cs None (kids_good cs _ Hk)) as (res & E & Hres); [done|].
  exists (option_map fst res). split; [done|].
  assert (forall e, m !! g = Some e -> exists i es w ei, srcs !! i = Some es /\ cs !! i = Some w /\ es !! f i = Some ei /\
    Valid w = true /\ key w = Some ei.1 /\ key_le c ei.1 e.1) as Hnext.
  { intros e Eg. destruct (at_cut g f e Hcut Eg) as (i & es & j & Ei & Ej & Hj). pose proof (lookup_lt_Some _ _ _ Ej).
    destruct (kids_lookup cs _ i es Hk Ei) as (w & Ew & Hw). unfold ge_pos in Hw. rewrite decide_True in Hw by lia.
    destruct (child_key i w es (f i) Ei Hw) as (ei & Eei & Hv & Ekw & _). exists i, es, w, ei.
    split_and!; try done. apply (key_le_lookup es (f i) j); [by eapply src_sorted|done|done|done|].
    by apply (src_valid i es ei Ei), list_elem_of_In, (list_elem_of_lookup_2 _ (f i)). }
  destruct res as [[n s]|]; simpl.
  - destruct Hres as (Hvs & [?|(_ & En)] & k & Ek & Hkv & Hbest); [done|]. rewrite Nat.sub_0_r in En. rewrite app_nil_r in Hbest.
    destruct (kids_source cs _ n s Hk En) as [es Es]. pose proof (proj2 Hk n s es En Es) as Hw. unfold ge_pos in Hw.
    destruct (decide (f n < length es)%nat) as [Hlt|]; [|by rewrite (child_invalid n s es Es Hw) in Hvs].
    destruct (child_key n s es (f n) Es Hw) as (es' & Ees & _ & Eks & _). rewrite Ek in Eks. injection Eks as ->.
    destruct (behind_cut g f n es (f n) es' Hcut Es Ees) as (b & Eb & Hb); [lia|].
    destruct (lookup_lt_is_Some_2 m g) as [e Eg]; [apply lookup_lt_Some in Eb; lia|].
    exists e, es. split_and!; [done|done|]. destruct (decide (b = g)) as [->|]; [assert (Some es' = Some e) as [= ->] by exact (eq_trans (eq_sym Eb) Eg); exact Ees|]. exfalso.
    destruct (Hnext e Eg) as (i & esi & w & ei & Ei & Ew & Eei & Hvw & Ekw & Hle).
    assert (key_le c es'.1 ei.1) as Hmin.
    { apply (Hbest w); [by apply list_elem_of_In, (list_elem_of_lookup_2 _ i)|done|done]. }
    assert (key_lt c e.1 es'.1) as Hlt' by (apply (m_order g b e es' Eg Eb); lia).
    apply (key_lt_not_le _ _ Hlt'). apply (key_le_trans (valid := valid) es'.1 ei.1 e.1); [done| |by eapply m_valid|done|done].
    by apply (src_valid i esi ei Ei), list_elem_of_In, (list_elem_of_lookup_2 _ (f i)).
  - destruct Hres as [_ Hall]. destruct (m !! g) as [e|] eqn:Eg; [|done]. exfalso.
    destruct (Hnext e eq_refl) as (i & es & w & ei & Ei & Ew & _ & Hv & _). rewrite Forall_lookup in Hall.
    by rewrite (Hall i w Ew) in Hv.
Qed.

Lemma FindLargest_at cs g f :
  kids_at cs (lt_pos f) -> is_cut g f -> (g <= length m)%nat ->
  exists cur, FindLargest_loop c (length cs) cs None = Some cur /\
    match cur with
    | None => g = 0%nat
    | Some i => exists e es, (0 < g)%nat /\ m !! (g - 1)%nat = Some e /\ srcs !! i = Some es /\ (0 < f i)%nat /\ es !! (f i - 1)%nat = Some e
    end.
Proof.
  intros Hk Hcut Hgm. destruct (FindLargest_loop_spec (length cs) cs None ltac:(lia) (kids_good cs _ Hk)) as (res & E & Hres); [done|].
  rewrite firstn_all in Hres. exists (option_map fst res). split; [done|].
  assert (forall e, (0 < g)%nat -> m !! (g - 1)%nat = Some e -> exists i es w ei, srcs !! i = Some es /\ cs !! i = Some w /\
    es !! (f i - 1)%nat = Some ei /\ Valid w = true /\ key w = Some ei.1 /\ key_le c e.1 ei.1) as Hnext.
  { intros e Hg Eg. destruct (m_in_src (g - 1) e Eg) as (i & es & j & Ei & Ej).
    assert (j < f i)%nat as Hj by (apply (Hcut i es Ei) with e; [done|exists (g - 1)%nat; split; [lia|done]]).
    destruct (kids_lookup cs _ i es Hk Ei) as (w & Ew & Hw). unfold lt_pos in Hw.
    destruct (f i) as [|n] eqn:Ef; [lia|]. simpl in Hw. destruct (child_key i w es n Ei Hw) as (ei & Eei & Hv & Ekw & _).
    exists i, es, w, ei. rewrite Ef. replace (S n - 1)%nat with n by lia. split_and!; try done.
    apply (key_le_lookup es j n); [by eapply src_sorted|lia|done|done|by eapply m_valid]. }
  destruct res as [[n s]|]; simpl.
  - destruct Hres as (Hvs & En & k & Ek & Hkv & Hbest). rewrite app_nil_r in Hbest.
    destruct (kids_source cs _ n s Hk En) as [es Es]. pose proof (proj2 Hk n s es En Es) as Hw. unfold lt_pos in Hw.
    destruct (f n) as [|fn] eqn:Ef; [by rewrite (child_invalid n s es Es Hw) in Hvs|]. simpl in Hw.
    destruct (child_key n s es fn Es Hw) as (es' & Ees & _ & Eks & _). rewrite Ek in Eks. injection Eks as ->.
    destruct (before_cut g f n es fn es' Hcut Es Ees) as (b & Eb & Hb); [lia|].
    destruct (lookup_lt_is_Some_2 m (g - 1)) as [e Eg]; [lia|].
    exists e, es. replace (S fn - 1)%nat with fn by lia. split_and!; [lia|done|done|lia|].
    destruct (decide (b = g - 1)%nat) as [->|]; [assert (Some es' = Some e) as [= ->] by exact (eq_trans (eq_sym Eb) Eg); exact Ees|]. exfalso.
    destruct (Hnext e ltac:(lia) Eg) as (i & esi & w & ei & Ei & Ew & Eei & Hvw & Ekw & Hle).
    assert (key_le c ei.1 es'.1) as Hmax.
    { apply (Hbest w); [by apply list_elem_of_In, (list_elem_of_lookup_2 _ i)|done|done]. }
    assert (key_lt c es'.1 e.1) as Hlt' by (apply (m_order b (g - 1) es' e Eb Eg); lia).
    apply (key_lt_not_le _ _ Hlt'). apply (key_le_trans (valid := valid) e.1 ei.1 es'.1); [by eapply m_valid| |done|done|done].
    by apply (src_valid i esi ei Ei), list_elem_of_In, (list_elem_of_lookup_2 _ (f i - 1)).
  - destruct Hres as [_ Hall]. destruct (decide (g = 0)%nat) as [|Hg]; [done|exfalso].
    destruct (lookup_lt_is_Some_2 m (g - 1)) as [e Eg]; [lia|].
    destruct (Hnext e ltac:(lia) Eg) as (i & es & w & ei & Ei & Ew & _ & Hv & _). rewrite Forall_lookup in Hall.
    by rewrite (Hall i w Ew) in Hv.
Qed.

(** ** The iterator *)

Abbreviation merging := (MergingIterator (St := St)).

(** Going forward, the current child is on its first entry behind the cut, and so
    are the others; going backward, on its last one in front of it. *)
Definition merged_at (mm : merging) (p : option nat) : Prop :=
  match p with
  | None => current_ mm = None /\ exists ps, kids_at (children_ mm) ps
  | Some g => exists f i es e, m !! g = Some e /\ srcs !! i = Some es /\ current_ mm = Some i /\
      match direction_ mm with
      | kForward => is_cut g f /\ es !! f i = Some e /\ kids_at (children_ mm) (ge_pos f)
      | kReverse => is_cut (S g) f /\ (0 < f i)%nat /\ es !! (f i - 1)%nat = Some e /\ kids_at (children_ mm) (lt_pos f)
      end
  end.

Lemma merged_at_kids mm p : merged_at mm p -> exists ps, kids_at (children_ mm) ps.
Proof.
  destruct p as [g|]; [|by intros [_ H]]. intros (f & i & es & e & _ & _ & _ & H).
  destruct (direction_ mm); destruct_and?; by eexists.
Qed.

Lemma finish_forward cs cur d g f :
  kids_at cs (ge_pos f) -> is_cut g f -> (g <= length m)%nat ->
  exists cur', FindSmallest c (Merging cs cur d) = Some (Merging cs cur' d) /\
    merged_at (Merging cs cur' kForward) (if decide (g < length m)%nat then Some g else None).
Proof.
  intros Hk Hcut Hg. destruct (FindSmallest_at cs g f Hk Hcut) as (cur' & E & Hcur). exists cur'.
  unfold FindSmallest. simpl. rewrite E. split; [done|]. destruct cur' as [i|].
  - destruct Hcur as (e & es & Eg & Ei & Ee). rewrite decide_True by by eapply lookup_lt_Some.
    by exists f, i, es, e.
  - rewrite decide_False by (apply lookup_ge_None_1 in Hcur; lia). split; [done|]. by eexists.
Qed.

Lemma finish_reverse cs cur d g f :
  kids_at cs (lt_pos f) -> is_cut g f -> (g <= length m)%nat ->
  exists cur', FindLargest c (Merging cs cur d) = Some (Merging cs cur' d) /\
    merged_at (Merging cs cur' kReverse) (prev_pos g).
Proof.
  intros Hk Hcut Hg. destruct (FindLargest_at cs g f Hk Hcut Hg) as (cur' & E & Hcur). exists cur'.
  unfold FindLargest. simpl. rewrite E. split; [done|]. destruct cur' as [i|].
  - destruct Hcur as (e & es & Hpos & Eg & Ei & Hf & Ee). destruct g as [|g]; [lia|]. simpl.
    replace (S g - 1)%nat with g in Eg by lia. by exists f, i, es, e.
  - subst g. split; [done|]. by eexists.
Qed.

(** An entry of another source is on the same side of [e] as of the cut. *)
Lemma seek_other g f i i' es es' e j :
  is_cut g f \/ is_cut (S g) f -> m !! g = Some e -> srcs !! i = Some es -> srcs !! i' = Some es' -> i' <> i -> es !! j = Some e ->
  seek_pos c e.1 es' = ge_pos f i' es' /\ (forall k e', es' !! k = Some e' -> @Compare c e.1 e'.1 <> Some 0).
Proof.
  intros Hcut Eg Ei Ei' Hne Ej. pose proof (m_valid g e Eg) as Hve.
  assert (forall k e', es' !! k = Some e' -> exists b, m !! b = Some e' /\ b <> g) as Hb.
  { intros k e' Ek. destruct (src_in_m i' es' k e' Ei' Ek) as [b Eb]. exists b. split; [done|]. intros ->.
    assert (Some e = Some e') as [= <-] by exact (eq_trans (eq_sym Eg) Eb). by destruct (src_unique i' i es' es k j e Ei' Ei Ek Ej). }
  split.
  - rewrite lt_count_seek. unfold ge_pos. enough (lt_count e.1 es' = f i') as -> by done.
    assert (forall k e', es' !! k = Some e' -> (k < lt_count e.1 es')%nat <-> (k < f i')%nat) as Hiff.
    { intros k e' Ek. rewrite (lt_count_spec e.1 es' k e' (src_sorted i' es' Ei') Hve (fun e => src_valid i' es' e Ei') Ek).
      destruct (Hb k e' Ek) as (b & Eb & Hbg). rewrite (key_ge_false (valid := valid) e.1 e'.1 Hve (m_valid b e' Eb)).
      rewrite <- (m_order b g e' e Eb Eg). destruct Hcut as [Hcut|Hcut]; rewrite (proj2 (Hcut i' es' Ei') k e' Ek);
        (split; [intros; exists b; split; [lia|done]|intros (a & Ha & Ea); pose proof (m_inj a b e' Ea Eb); lia]). }
    assert (f i' <= length es')%nat as Hf by (destruct Hcut as [Hcut|Hcut]; apply (Hcut i' es' Ei')).
    assert (lt_count e.1 es' <= length es')%nat as Hc'.
    { unfold lt_count. pose proof (seek_pos_spec c e.1 es') as Hspec. destruct (seek_pos c e.1 es'); [|done].
      destruct Hspec as (? & E & _). apply lookup_lt_Some in E. by apply Nat.lt_le_incl. }
    destruct (Nat.lt_trichotomy (lt_count e.1 es') (f i')) as [H|[H|H]]; [|done|]; exfalso.
    + destruct (lookup_lt_is_Some_2 es' (lt_count e.1 es')) as [e' E]; [lia|]. pose proof (proj2 (Hiff _ e' E) H). lia.
    + destruct (lookup_lt_is_Some_2 es' (f i')) as [e' E]; [lia|]. pose proof (proj1 (Hiff _ e' E) H). lia.
  - intros k e' Ek Hz. destruct (Hb k e' Ek) as (b & Eb & Hbg). apply Hbg.
    pose proof (m_valid b e' Eb) as Hve'. pose proof (key_eq_sym (valid := valid) e.1 e'.1 Hve Hve' Hz) as Hz'.
    destruct (Nat.lt_trichotomy b g) as [H|[H|H]]; [|done|]; exfalso.
    + apply (m_order b g e' e Eb Eg) in H. apply (key_lt_not_le _ _ H). by exists 0.
    + apply (m_order g b e e' Eg Eb) in H. apply (key_lt_not_le _ _ H). by exists 0.
Qed.

Lemma kids_insert cs ps ps' i w es :
  kids_at cs ps -> srcs !! i = Some es -> at_child i w (ps' i es) ->
  (forall i' es', i' <> i -> srcs !! i' = Some es' -> ps' i' es' = ps i' es') -> kids_at (<[i := w]> cs) ps'.
Proof.
  intros [Hl Hk] Ei Hw Hps. split; [by rewrite length_insert|]. intros i' w' es' Ei' Es'.
  destruct (decide (i' = i)) as [->|Hne].
  - rewrite list_lookup_insert_eq in Ei' by (rewrite Hl; by eapply lookup_lt_Some). injection Ei' as <-.
    assert (es' = es) as -> by congruence. done.
  - rewrite list_lookup_insert_ne in Ei' by done. rewrite Hps by done. by apply Hk.
Qed.

(** The key of the current child is the key of the position. *)
Lemma merged_current mm g : merged_at mm (Some g) ->
  exists e i w, m !! g = Some e /\ current_ mm = Some i /\ children_ mm !! i = Some w /\
    merging_key mm = Some e.1 /\ merging_value mm = Some e.2.
Proof.
  intros (f & i & es & e & Eg & Ei & Ec & Hd). exists e, i.
  assert (exists w j, children_ mm !! i = Some w /\ at_child i w (Some j) /\ es !! j = Some e) as (w & j & Ew & Hw & Ej).
  { destruct (direction_ mm).
    - destruct Hd as (_ & Ee & Hk). destruct (kids_lookup _ _ i es Hk Ei) as (w & Ew & Hw). unfold ge_pos in Hw.
      rewrite decide_True in Hw by by eapply lookup_lt_Some. by exists w, (f i).
    - destruct Hd as (_ & Hpos & Ee & Hk). destruct (kids_lookup _ _ i es Hk Ei) as (w & Ew & Hw). unfold lt_pos in Hw.
      destruct (f i) as [|n]; [lia|]. exists w, n. replace (S n - 1)%nat with n in Ee by lia. done. }
  destruct (child_key i w es j Ei Hw) as (e' & Ee' & _ & Ek & Ev).
  assert (Some e = Some e') as [= <-] by exact (eq_trans (eq_sym Ej) Ee').
  exists w. unfold merging_key, merging_value. rewrite Ec, Ew. done.
Qed.

(** Changing the direction. *)
Lemma turn_forward mm g f i es e :
  m !! g = Some e -> srcs !! i = Some es -> current_ mm = Some i -> is_cut (S g) f -> (0 < f i)%nat -> es !! (f i - 1)%nat = Some e ->
  kids_at (children_ mm) (lt_pos f) -> merging_key mm = Some e.1 ->
  exists cs, turn (move_after c) kForward mm = Some (Merging cs (Some i) kForward) /\
    kids_at cs (fun i' es' => if decide (i' = i) then lt_pos f i' es' else ge_pos f i' es').
Proof.
  intros Eg Ei Ec Hcut Hpos Ee Hk Ekey. unfold turn. rewrite Ekey, Ec.
  destruct (each_child_kids (fun i' w => if decide (Some i = Some i') then Some w else move_after c e.1 w) (children_ mm) (lt_pos f)
    (fun i' es' => if decide (i' = i) then lt_pos f i' es' else ge_pos f i' es') Hk) as (cs & -> & Hcs).
  - intros i' w es' Ei' Ew Hw. destruct (decide (i' = i)) as [->|Hne].
    + rewrite decide_True by done. by exists w.
    + rewrite decide_False by congruence.
      destruct (seek_other g f i i' es es' e _ (or_intror Hcut) Eg Ei Ei' Hne Ee) as [Eseek Hneq].
      unfold move_after. destruct (it_seek (IteratorOk := kid_ok i' es' Ei') w _ e.1 Hw (m_valid g e Eg)) as (w' & -> & Hw').
      rewrite Eseek in Hw'. exists w'. split; [|done]. unfold ge_pos in Hw'. destruct (decide (f i' < length es')%nat) as [Hlt|].
      * destruct (child_key i' w' es' (f i') Ei' Hw') as (e' & Ee' & Hv & Ek & _). rewrite Hv, Ek.
        destruct (compare_defined e.1 e'.1 (m_valid g e Eg)) as [r Er].
        { by apply (src_valid i' es' e' Ei'), list_elem_of_In, (list_elem_of_lookup_2 _ (f i')). }
        rewrite Er. destruct (Z.eqb_spec r 0) as [->|]; [|done]. by destruct (Hneq (f i') e' Ee').
      * by rewrite (child_invalid i' w' es' Ei' Hw').
  - by exists cs.
Qed.

Lemma turn_reverse mm g f i es e :
  m !! g = Some e -> srcs !! i = Some es -> current_ mm = Some i -> is_cut g f -> es !! f i = Some e ->
  kids_at (children_ mm) (ge_pos f) -> merging_key mm = Some e.1 ->
  exists cs, turn move_before kReverse mm = Some (Merging cs (Some i) kReverse) /\
    kids_at cs (fun i' es' => if decide (i' = i) then ge_pos f i' es' else lt_pos f i' es').
Proof.
  intros Eg Ei Ec Hcut Ee Hk Ekey. unfold turn. rewrite Ekey, Ec.
  destruct (each_child_kids (fun i' w => if decide (Some i = Some i') then Some w else move_before e.1 w) (children_ mm) (ge_pos f)
    (fun i' es' => if decide (i' = i) then ge_pos f i' es' else lt_pos f i' es') Hk) as (cs & -> & Hcs).
  - intros i' w es' Ei' Ew Hw. destruct (decide (i' = i)) as [->|Hne].
    + rewrite decide_True by done. by exists w.
    + rewrite decide_False by congruence.
      destruct (seek_other g f i i' es es' e _ (or_introl Hcut) Eg Ei Ei' Hne Ee) as [Eseek _].
      unfold move_before. destruct (it_seek (IteratorOk := kid_ok i' es' Ei') w _ e.1 Hw (m_valid g e Eg)) as (w' & -> & Hw').
      rewrite Eseek in Hw'. pose proof (proj1 (Hcut i' es' Ei')) as Hfl. unfold ge_pos in Hw'.
      destruct (decide (f i' < length es')%nat) as [Hlt|].
      * destruct (child_key i' w' es' (f i') Ei' Hw') as (e' & _ & -> & _).
        by apply (it_prev (IteratorOk := kid_ok i' es' Ei')).
      * rewrite (child_invalid i' w' es' Ei' Hw').
        destruct (it_last (IteratorOk := kid_ok i' es' Ei') w' None Hw') as (w2 & E2 & H2). exists w2. split; [done|].
        assert (last_pos es' = lt_pos f i' es') as <-; [|done]. unfold last_pos, lt_pos.
        assert (f i' = length es') as -> by lia. destruct es'; [done|]. rewrite decide_False by done. simpl. f_equal. lia.
  - by exists cs.
Qed.

Lemma merging_Next_ok mm g : merged_at mm (Some g) ->
  exists mm', merging_Next c mm = Some mm' /\ merged_at mm' (next_pos m g).
Proof.
  intros Hm. destruct (merged_current mm g Hm) as (e0 & i0 & w0 & Eg0 & Ec0 & _ & Ekey & _).
  destruct Hm as (f & i & es & e & Eg & Ei & Ec & Hd). assert (Some e0 = Some e) as [= ->] by exact (eq_trans (eq_sym Eg0) Eg).
  pose proof (lookup_lt_Some _ _ _ Eg) as Hglt. unfold merging_Next, merging_Valid. rewrite Ec.
  assert (exists cs f', (match direction_ mm with kForward => Some mm | kReverse => turn (move_after c) kForward mm end) =
      Some (Merging cs (Some i) kForward) /\ is_cut (S g) f' /\
      exists w w', cs !! i = Some w /\ Next w = Some w' /\ kids_at (<[i := w']> cs) (ge_pos f')) as (cs & f' & -> & Hcut' & w & w' & Ew & En & Hk').
  { destruct mm as [cs0 cur0 d]. simpl in *. subst cur0. destruct d.
    - destruct Hd as (Hcut & Ee & Hk). exists cs0, (upd f i (S (f i))). split; [done|]. split; [by apply (cut_step g f i es e)|].
      destruct (kids_lookup _ _ i es Hk Ei) as (w & Ew & Hw). unfold ge_pos in Hw. rewrite decide_True in Hw by by eapply lookup_lt_Some.
      destruct (it_next (IteratorOk := kid_ok i es Ei) w (f i) Hw) as (w' & En & Hw'). exists w, w'. split_and!; [done|done|].
      apply (kids_insert cs0 (ge_pos f) _ i w' es Hk Ei).
      + unfold ge_pos. by rewrite upd_eq.
      + intros i' es' Hne _. unfold ge_pos. by rewrite upd_ne.
    - destruct Hd as (Hcut & Hpos & Ee & Hk).
      destruct (turn_forward (Merging cs0 (Some i) kReverse) g f i es e Eg Ei eq_refl Hcut Hpos Ee Hk Ekey) as (cs & -> & Hcs).
      exists cs, f. split; [done|]. split; [done|]. destruct (kids_lookup _ _ i es Hcs Ei) as (w & Ew & Hw).
      rewrite decide_True in Hw by done. unfold lt_pos in Hw. destruct (f i) as [|n] eqn:Ef; [lia|]. simpl in Hw.
      destruct (it_next (IteratorOk := kid_ok i es Ei) w n Hw) as (w' & En & Hw'). exists w, w'. split_and!; [done|done|].
      apply (kids_insert cs _ (ge_pos f) i w' es Hcs Ei); [unfold ge_pos; by rewrite Ef|].
      intros i' es' Hne _. by rewrite decide_False. }
  unfold move_current. cbn [children_ current_ direction_]. rewrite Ew, En.
  destruct (finish_forward (<[i := w']> cs) (Some i) kForward (S g) f' Hk' Hcut' ltac:(lia)) as (cur' & E & Hm').
  rewrite E. eexists. split; [done|]. unfold next_pos. exact Hm'.
Qed.

Lemma merging_Prev_ok mm g : merged_at mm (Some g) ->
  exists mm', merging_Prev c mm = Some mm' /\ merged_at mm' (prev_pos g).
Proof.
  intros Hm. destruct (merged_current mm g Hm) as (e0 & i0 & w0 & Eg0 & Ec0 & _ & Ekey & _).
  destruct Hm as (f & i & es & e & Eg & Ei & Ec & Hd). assert (Some e0 = Some e) as [= ->] by exact (eq_trans (eq_sym Eg0) Eg).
  pose proof (lookup_lt_Some _ _ _ Eg) as Hglt. unfold merging_Prev, merging_Valid. rewrite Ec.
  assert (exists cs f', (match direction_ mm with kReverse => Some mm | kForward => turn move_before kReverse mm end) =
      Some (Merging cs (Some i) kReverse) /\ is_cut g f' /\
      exists w w', cs !! i = Some w /\ Prev w = Some w' /\ kids_at (<[i := w']> cs) (lt_pos f')) as (cs & f' & -> & Hcut' & w & w' & Ew & En & Hk').
  { destruct mm as [cs0 cur0 d]. simpl in *. subst cur0. destruct d.
    - destruct Hd as (Hcut & Ee & Hk).
      destruct (turn_reverse (Merging cs0 (Some i) kForward) g f i es e Eg Ei eq_refl Hcut Ee Hk Ekey) as (cs & -> & Hcs).
      exists cs, f. split; [done|]. split; [done|]. destruct (kids_lookup _ _ i es Hcs Ei) as (w & Ew & Hw).
      rewrite decide_True in Hw by done. unfold ge_pos in Hw. rewrite decide_True in Hw by by eapply lookup_lt_Some.
      destruct (it_prev (IteratorOk := kid_ok i es Ei) w (f i) Hw) as (w' & En & Hw'). exists w, w'. split_and!; [done|done|].
      apply (kids_insert cs _ (lt_pos f) i w' es Hcs Ei); [done|]. intros i' es' Hne _. by rewrite decide_False.
    - destruct Hd as (Hcut & Hpos & Ee & Hk). exists cs0, (upd f i (f i - 1)). split; [done|]. split; [by apply (cut_back g f i es e)|].
      destruct (kids_lookup _ _ i es Hk Ei) as (w & Ew & Hw). unfold lt_pos in Hw. destruct (f i) as [|n] eqn:Ef; [lia|]. simpl in Hw.
      destruct (it_prev (IteratorOk := kid_ok i es Ei) w n Hw) as (w' & En & Hw'). exists w, w'. split_and!; [done|done|].
      apply (kids_insert cs0 (lt_pos f) _ i w' es Hk Ei).
      + unfold lt_pos. rewrite upd_eq. by replace (S n - 1)%nat with n by lia.
      + intros i' es' Hne _. unfold lt_pos. by rewrite upd_ne. }
  unfold move_current. cbn [children_ current_ direction_]. rewrite Ew, En.
  destruct (finish_reverse (<[i := w']> cs) (Some i) kReverse g f' Hk' Hcut' ltac:(lia)) as (cur' & E & Hm').
  rewrite E. eexists. split; [done|]. exact Hm'.
Qed.

(** Seeking with all children at once. *)
Lemma seek_all_ok op find d mm p ps f g q :
  merged_at mm p ->
  (forall i w es p, srcs !! i = Some es -> at_child i w p -> exists w', op w = Some w' /\ at_child i w' (ps f i es)) ->
  (forall cs cur d0, kids_at cs (ps f) -> is_cut g f -> (g <= length m)%nat ->
     exists cur', find (Merging cs cur d0) = Some (Merging cs cur' d0) /\ merged_at (Merging cs cur' d) q) ->
  is_cut g f -> (g <= length m)%nat ->
  exists mm', seek_all op find d mm = Some mm' /\ merged_at mm' q.
Proof.
  intros Hm Hop Hfind Hcut Hg. destruct (merged_at_kids mm p Hm) as [ps0 Hk]. unfold seek_all.
  destruct (each_child_kids (fun _ => op) (children_ mm) ps0 (ps f) Hk) as (cs & -> & Hcs).
  { intros i w es Ei _ Hw. by eapply Hop. }
  destruct (Hfind cs (current_ mm) (direction_ mm) Hcs Hcut Hg) as (cur' & -> & Hm'). by eexists.
Qed.

Lemma first_error_ok cs ps : kids_at cs ps -> first_error cs OK = OK.
Proof.
  intros Hk. assert (Forall (fun w : child => status w = OK) cs) as Hall.
  { apply Forall_lookup. intros i w Ew. destruct (kids_source cs ps i w Hk Ew) as [es Es].
    apply (it_status (IteratorOk := kid_ok i es Es) w (ps i es)). by apply Hk. }
  clear Hk. induction Hall as [|w cs Hw Hall IH]; [done|]. cbn [first_error]. by rewrite Hw.
Qed.

Lemma merging_iterator_ok : IteratorOk (MergingIterator_iterator c) c valid m merged_at.
Proof.
  split; simpl.
  - intros mm [g|] Hm; unfold merging_Valid.
    + destruct (merged_current mm g Hm) as (e & i & w & _ & -> & _). by rewrite bool_decide_true.
    + destruct Hm as [-> _]. symmetry. apply bool_decide_eq_false_2. by intros [? ?].
  - intros mm g Hm. destruct (merged_current mm g Hm) as (e & i & w & Eg & _ & _ & Ek & Ev). by exists e.
  - intros mm p Hm. apply (seek_all_ok _ _ _ mm p ge_pos (fun _ => 0%nat) 0 _ Hm); [| |apply cut_first|lia].
    + intros i w es q Ei Hw. destruct (it_first (IteratorOk := kid_ok i es Ei) w q Hw) as (w' & E & Hw'). exists w'.
      split; [done|]. unfold first_pos, ge_pos in *. destruct es; [by rewrite decide_False by (simpl; lia)|by rewrite decide_True by (simpl; lia)].
    + intros cs cur d Hk Hcut Hg. destruct (finish_forward cs cur d 0 _ Hk Hcut Hg) as (cur' & E & Hm'). exists cur'. split; [done|].
      unfold first_pos. destruct m as [|e0 m0] eqn:Em; [by rewrite decide_False in Hm' by (simpl; lia)|by rewrite decide_True in Hm' by (simpl; lia)].
  - intros mm p Hm. apply (seek_all_ok _ _ _ mm p lt_pos (fun i => match srcs !! i with Some es => length es | None => 0%nat end) (length m) _ Hm); [| |apply cut_last|lia].
    + intros i w es q Ei Hw. destruct (it_last (IteratorOk := kid_ok i es Ei) w q Hw) as (w' & E & Hw'). exists w'.
      split; [done|]. unfold last_pos, lt_pos in *. rewrite Ei. destruct es; [done|]. rewrite decide_False in Hw' by done.
      simpl. simpl in Hw'. by rewrite Nat.sub_0_r in Hw'.
    + intros cs cur d Hk Hcut Hg. destruct (finish_reverse cs cur d (length m) _ Hk Hcut Hg) as (cur' & E & Hm'). exists cur'. split; [done|].
      unfold last_pos. destruct (decide (m = [])) as [E0|E0]; [by rewrite E0 in Hm'|].
      destruct (length m) as [|n] eqn:El; [by apply length_zero_iff_nil in El|]. simpl in *. by rewrite Nat.sub_0_r.
  - intros mm p target Hm Ht. apply (seek_all_ok _ _ _ mm p ge_pos (fun i => match srcs !! i with Some es => lt_count target es | None => 0%nat end) (lt_count target m) _ Hm); [| |by apply cut_seek|].
    + intros i w es q Ei Hw. destruct (it_seek (IteratorOk := kid_ok i es Ei) w q target Hw Ht) as (w' & E & Hw'). exists w'.
      split; [done|]. unfold ge_pos. rewrite Ei. by rewrite <- lt_count_seek.
    + intros cs cur d Hk Hcut Hg. destruct (finish_forward cs cur d _ _ Hk Hcut Hg) as (cur' & E & Hm'). exists cur'. split; [done|].
      by rewrite lt_count_seek.
    + unfold lt_count. pose proof (seek_pos_spec c target m) as Hspec. destruct (seek_pos c target m); [|done].
      destruct Hspec as (? & E & _). apply lookup_lt_Some in E. by apply Nat.lt_le_incl.
  - apply merging_Next_ok.
  - apply merging_Prev_ok.
  - intros mm p Hm. destruct (merged_at_kids mm p Hm) as [ps Hk]. by eapply first_error_ok.
Qed.

(** The constructor, with fresh children. *)
Lemma set_children_ok children :
  length children = length srcs -> (forall i st es, children !! i = Some st -> srcs !! i = Some es -> at_pos i st None) ->
  exists cs, set_children children = Some cs /\ kids_at cs (fun _ _ => None).
Proof.
  intros Hl Hch.
  assert (forall n chs, (forall i st, chs !! i = Some st -> exists es, srcs !! (n + i)%nat = Some es /\ at_pos (n + i)%nat st None) ->
    exists cs, set_children chs = Some cs /\ length cs = length chs /\ forall i w, cs !! i = Some w -> at_child (n + i)%nat w None) as Haux.
  { intros n chs. revert n. induction chs as [|st chs IH]; intros n Hn; [by exists []|].
    destruct (Hn 0%nat st eq_refl) as (es & Es & Hst). rewrite Nat.add_0_r in Es, Hst.
    destruct (Update_wrapped (Hok := Hkids n es Es) st None [] Hst) as (w & Ew & Hw).
    destruct (IH (S n)) as (cs & Ecs & Hlen & Hcs).
    { intros i st' Ei. destruct (Hn (S i) st' Ei) as (es' & ? & ?). exists es'. by rewrite Nat.add_succ_comm. }
    exists (w :: cs). cbn [set_children]. unfold WrapperSet. rewrite Ew, Ecs. split_and!; [done|by simpl; rewrite Hlen|].
    intros [|i] w' Ei; simpl in Ei; [injection Ei as <-; by rewrite Nat.add_0_r|]. specialize (Hcs i w' Ei). by rewrite Nat.add_succ_comm in Hcs. }
  destruct (Haux 0%nat children) as (cs & E & Hlen & Hcs).
  { intros i st Ei. destruct (lookup_lt_is_Some_2 srcs i) as [es Es]; [rewrite <- Hl; by eapply lookup_lt_Some|].
    exists es. split; [done|by eapply Hch]. }
  exists cs. split; [done|]. split; [by rewrite Hlen|]. intros i w es Ei _. by apply Hcs.
Qed.
End Merger.

(** C15. Over two or more children that are iterators over sorted entries with distinct keys,
    [NewMergingIterator] returns an iterator over all the entries in order: every operation,
    in every order and with any changes of direction, is what it is on the merged list. *)
Theorem merging_iterator {St} (it : Iterator St) (c : Comparator) (valid : list byte -> Prop) (srcs : list (list entry))
    (at_pos : nat -> St -> option nat -> Prop) (m : list entry) (children : list St) :
  ComparatorOk c valid ->
  (forall i es, srcs !! i = Some es -> IteratorOk it c valid es (at_pos i)) ->
  m ≡ₚ concat srcs -> keys_sorted c m -> Forall (keys_sorted c) srcs -> Forall (fun e => valid e.1) m ->
  length children = length srcs -> (2 <= length srcs)%nat ->
  (forall i st es, children !! i = Some st -> srcs !! i = Some es -> at_pos i st None) ->
  exists mm merged_pos, NewMergingIterator children = Some (MergedMany mm) /\
    IteratorOk (MergingIterator_iterator c) c valid m merged_pos /\ merged_pos mm None.
Proof.
  intros Hc Hkids Hperm Hsorted Hsrcs Hvalid Hl Hn Hch.
  destruct (set_children_ok (Hkids := Hkids) children Hl Hch) as (cs & E & Hk).
  exists (Merging cs None kForward), (merged_at (it := it) (srcs := srcs) (at_pos := at_pos) (m := m)). split_and!.
  - destruct children as [|c1 [|c2 children]]; simpl in Hl; [lia|lia|]. unfold NewMergingIterator, new_MergingIterator. by rewrite E.
  - by apply (merging_iterator_ok (Hkids := Hkids) (Hperm := Hperm) (Hsorted := Hsorted) (Hsrcs := Hsrcs) (Hvalid := Hvalid)).
  - split; [done|]. by eexists.
Qed.
