(* ===== verification/TwoLevel.v ===== *)
(** * The two-level iterator of LevelDB: table/two_level_iterator.cc

    An index iterator whose values are handles, and a function that turns a
    handle into an iterator over a block.  The function and the destructor of the
    block iterators may change what [arg_] points to (a table with its block
    cache).  [None] is a failed assertion or a loop that ran out of fuel. *)
From S2P Require Import Prelude Coding Comparator Status Iter.

Section TwoLevel.
Context {I D A : Type} {index_it : Iterator I} {data_it : Iterator D}.
Context (block_function_ : list byte -> A -> option (D * A)).
Context (delete_iter : D -> A -> option A).

Record TwoLevelIterator := TwoLevel {
  arg_ : A;
  tl_status_ : Status;
  index_iter_ : IteratorWrapper (St := I);
  data_iter_ : option (IteratorWrapper (St := D));   (* [None] is NULL *)
  data_block_handle_ : list byte;
}.

Definition set_index (w : IteratorWrapper (St := I)) (t : TwoLevelIterator) : TwoLevelIterator :=
  TwoLevel (arg_ t) (tl_status_ t) w (data_iter_ t) (data_block_handle_ t).

(** [index_iter_] goes into a wrapper; there is no data iterator yet. *)
Definition NewTwoLevelIterator (index_iter : I) (arg : A) : option TwoLevelIterator :=
  match WrapperSet index_iter with
  | Some w => Some (TwoLevel arg OK w None [])
  | None => None
  end.

Definition two_Valid (t : TwoLevelIterator) : bool :=
  match data_iter_ t with Some w => Valid w | None => false end.

Definition two_key (t : TwoLevelIterator) : option (list byte) :=
  match data_iter_ t with Some w => key w | None => None end.

Definition two_value (t : TwoLevelIterator) : option (list byte) :=
  match data_iter_ t with Some w => value w | None => None end.

Definition two_status (t : TwoLevelIterator) : Status :=
  if negb (ok (status (index_iter_ t))) then status (index_iter_ t)
  else
    match data_iter_ t with
    | Some w => if negb (ok (status w)) then status w else tl_status_ t
    | None => tl_status_ t
    end.

(** [SaveError]: the first error is kept. *)
Definition SaveError (s : Status) (status_ : Status) : Status := if ok status_ && negb (ok s) then s else status_.

(** The old iterator is deleted. *)
Definition SetDataIterator (data_iter : option D) (t : TwoLevelIterator) : option TwoLevelIterator :=
  let st := match data_iter_ t with Some w => SaveError (status w) (tl_status_ t) | None => tl_status_ t end in
  match (match data_iter_ t with Some w => delete_iter (iter_ w) (arg_ t) | None => Some (arg_ t) end) with
  | None => None
  | Some arg =>
      match data_iter with
      | None => Some (TwoLevel arg st (index_iter_ t) None (data_block_handle_ t))
      | Some d =>
          match WrapperSet d with
          | Some w => Some (TwoLevel arg st (index_iter_ t) (Some w) (data_block_handle_ t))
          | None => None
          end
      end
  end.

Definition same_block (t : TwoLevelIterator) (handle : list byte) : bool :=
  match data_iter_ t with Some _ => slice_compare handle (data_block_handle_ t) =? 0 | None => false end.

Definition InitDataBlock (t : TwoLevelIterator) : option TwoLevelIterator :=
  if negb (Valid (index_iter_ t)) then SetDataIterator None t
  else
    match value (index_iter_ t) with
    | None => None
    | Some handle =>
        if same_block t handle then Some t
        else
          match block_function_ handle (arg_ t) with
          | None => None
          | Some (d, arg) =>
              SetDataIterator (Some d) (TwoLevel arg (tl_status_ t) (index_iter_ t) (data_iter_ t) handle)
          end
    end.

(** [if (data_iter_.iter() != NULL) data_iter_.op()] *)
Definition on_data (op : IteratorWrapper (St := D) -> option (IteratorWrapper (St := D))) (t : TwoLevelIterator) : option TwoLevelIterator :=
  match data_iter_ t with
  | None => Some t
  | Some w =>
      match op w with
      | Some w => Some (TwoLevel (arg_ t) (tl_status_ t) (index_iter_ t) (Some w) (data_block_handle_ t))
      | None => None
      end
  end.

(** A move of the index iterator, and of the data iterator of the block it is
    on then. *)
Definition move_index (op : IteratorWrapper (St := I) -> option (IteratorWrapper (St := I)))
    (data_op : IteratorWrapper (St := D) -> option (IteratorWrapper (St := D))) (t : TwoLevelIterator) : option TwoLevelIterator :=
  match op (index_iter_ t) with
  | None => None
  | Some w =>
      match InitDataBlock (set_index w t) with
      | None => None
      | Some t => on_data data_op t
      end
  end.

Fixpoint SkipEmptyDataBlocksForward (fuel : nat) (t : TwoLevelIterator) : option TwoLevelIterator :=
  if two_Valid t then Some t
  else if negb (Valid (index_iter_ t)) then SetDataIterator None t
  else
    match fuel with
    | O => None
    | S fuel' =>
        match move_index Next SeekToFirst t with
        | None => None
        | Some t => SkipEmptyDataBlocksForward fuel' t
        end
    end.

Fixpoint SkipEmptyDataBlocksBackward (fuel : nat) (t : TwoLevelIterator) : option TwoLevelIterator :=
  if two_Valid t then Some t
  else if negb (Valid (index_iter_ t)) then SetDataIterator None t
  else
    match fuel with
    | O => None
    | S fuel' =>
        match move_index Prev SeekToLast t with
        | None => None
        | Some t => SkipEmptyDataBlocksBackward fuel' t
        end
    end.

(** As many rounds as the index has entries are enough. *)
Context (fuel : nat).

Definition two_Seek (target : list byte) (t : TwoLevelIterator) : option TwoLevelIterator :=
  match move_index (Seek target) (Seek target) t with
  | Some t => SkipEmptyDataBlocksForward fuel t
  | None => None
  end.

Definition two_SeekToFirst (t : TwoLevelIterator) : option TwoLevelIterator :=
  match move_index SeekToFirst SeekToFirst t with
  | Some t => SkipEmptyDataBlocksForward fuel t
  | None => None
  end.

Definition two_SeekToLast (t : TwoLevelIterator) : option TwoLevelIterator :=
  match move_index SeekToLast SeekToLast t with
  | Some t => SkipEmptyDataBlocksBackward fuel t
  | None => None
  end.

Definition two_Next (t : TwoLevelIterator) : option TwoLevelIterator :=
  if two_Valid t then
    match on_data Next t with Some t => SkipEmptyDataBlocksForward fuel t | None => None end
  else None.

Definition two_Prev (t : TwoLevelIterator) : option TwoLevelIterator :=
  if two_Valid t then
    match on_data Prev t with Some t => SkipEmptyDataBlocksBackward fuel t | None => None end
  else None.

Definition TwoLevelIterator_iterator : Iterator TwoLevelIterator := {|
  Valid := two_Valid;
  SeekToFirst := two_SeekToFirst;
  SeekToLast := two_SeekToLast;
  Seek := two_Seek;
  Next := two_Next;
  Prev := two_Prev;
  key := two_key;
  value := two_value;
  status := two_status;
|}.
End TwoLevel.
