(* ===== verification/TwoLevelProps.v ===== *)
(** * The two-level iterator is an iterator over all blocks

    Proved against the interfaces only: any index iterator, any function from
    handles to iterators over blocks, any resource that the block iterators hold
    until they are deleted. *)
From S2P Require Import Prelude Coding Comparator Status Iter TwoLevel.

(** ** The entries of a list of blocks *)

Section Concat.
Context {E : Type} (bs : list (list E)).

(** How many entries the first [j] blocks have. *)
Definition off (j : nat) : nat := length (concat (take j bs)).

Lemma off_S j b : bs !! j = Some b -> off (S j) = (off j + length b)%nat.
Proof. intros Eb. unfold off. rewrite (take_S_r _ _ _ Eb), concat_app, length_app. simpl. by rewrite app_nil_r. Qed.

Lemma off_all : off (length bs) = length (concat bs).
Proof. unfold off. by rewrite firstn_all. Qed.

Lemma concat_split j b : bs !! j = Some b -> concat bs = concat (take j bs) ++ b ++ concat (drop (S j) bs).
Proof. intros Eb. by rewrite <- (take_drop_middle bs j b Eb) at 1; rewrite concat_app. Qed.

Lemma off_le j j' : (j <= j')%nat -> (off j <= off j')%nat.
Proof. intros Hj. unfold off. replace j' with (j + (j' - j))%nat by lia. rewrite <- (take_take_drop bs j (j' - j)), concat_app, length_app. lia. Qed.

Lemma off_total j b : bs !! j = Some b -> (off j + length b <= length (concat bs))%nat.
Proof. intros Eb. rewrite (concat_split j b Eb), !length_app. unfold off. lia. Qed.

Lemma concat_lookup j b i x : bs !! j = Some b -> b !! i = Some x -> concat bs !! (off j + i)%nat = Some x.
Proof.
  intros Eb Ex. rewrite (concat_split j b Eb). unfold off. rewrite lookup_app_r by lia.
  rewrite Nat.add_comm, Nat.add_sub. by apply lookup_app_l_Some.
Qed.

Lemma in_concat_take j x : In x (concat (take j bs)) -> exists k b, (k < j)%nat /\ bs !! k = Some b /\ In x b.
Proof.
  intros (b & Hb & Hx)%in_concat. apply list_elem_of_In, list_elem_of_lookup in Hb as [k Ek].
  apply lookup_take_Some in Ek as [Ek Hk]. by exists k, b.
Qed.

Lemma in_concat_drop j x : In x (concat (drop j bs)) -> exists k b, (j <= k)%nat /\ bs !! k = Some b /\ In x b.
Proof.
  intros (b & Hb & Hx)%in_concat. apply list_elem_of_In, list_elem_of_lookup in Hb as [k Ek].
  rewrite lookup_drop in Ek. exists (j + k)%nat, b. split; [lia|done].
Qed.
End Concat.

Lemma first_pos_nonempty (es : list entry) : first_pos es = if decide (0 < length es)%nat then Some 0%nat else None.
Proof. unfold first_pos. destruct es; [done|]. by rewrite decide_False, decide_True by (done || simpl; lia). Qed.

Lemma last_pos_prev (es : list entry) : last_pos es = prev_pos (length es).
Proof. unfold last_pos. destruct es; [done|]. rewrite decide_False by done. simpl. by rewrite Nat.sub_0_r. Qed.

(** What the function from handles to blocks and the destructor of the block iterators promise. The blocks
    are given by their handles; [held] says which resources ([T]) [arg_] has given out, in any order.  A block can be
    opened while no more than [cap] are held. *)
Class BlockSource {D A T} (data_it : Iterator D) (block_function_ : list byte -> A -> option (D * A))
    (delete_iter : D -> A -> option A) (c : Comparator) (valid : list byte -> Prop) (handles : list (list byte))
    (block_of : list byte -> list entry) (at_data : list byte -> T -> D -> option nat -> Prop) (held : list T -> A -> Prop) (cap : nat) := {
  bs_iterator h t : In h handles -> IteratorOk data_it c valid (block_of h) (at_data h t);
  bs_open h l a : In h handles -> (length l <= cap)%nat -> held l a ->
    exists d t a', block_function_ h a = Some (d, a') /\ at_data h t d None /\ held (t :: l) a';
  bs_close h t d p l a : In h handles -> at_data h t d p -> held (t :: l) a ->
    exists a', delete_iter d a = Some a' /\ held l a';
  bs_order l l' a : l ≡ₚ l' -> held l a -> held l' a;
}.

Section Props.
Context {I D A T : Type} {index_it : Iterator I} {data_it : Iterator D}.
Context {block_function_ : list byte -> A -> option (D * A)} {delete_iter : D -> A -> option A}.
Context {c : Comparator} {valid : list byte -> Prop} {Hc : ComparatorOk c valid}.
Context {index : list entry} {at_index : I -> option nat -> Prop} {Hindex : IteratorOk index_it c valid index at_index}.
Context {block_of : list byte -> list entry} {at_data : list byte -> T -> D -> option nat -> Prop} {held : list T -> A -> Prop}.
Context {cap : nat} {Hsource : BlockSource data_it block_function_ delete_iter c valid (map snd index) block_of at_data held cap}.

Definition blocks : list (list entry) := map (fun e => block_of e.2) index.
Abbreviation all := (concat blocks).

Context {Hindex_valid : forall j e, index !! j = Some e -> valid e.1}.
Context {Hkeys : forall j e x, index !! j = Some e -> In x (block_of e.2) -> valid x.1 /\ key_le c x.1 e.1}.
Context {Hseparate : forall j j' e e' x, (j < j')%nat -> index !! j = Some e -> index !! j' = Some e' -> In x (block_of e'.2) -> key_lt c e.1 x.1}.
(** The resources that others hold. *)
Context {others : list T} {Hcap : (S (length others) <= cap)%nat}.

Abbreviation two := (TwoLevelIterator (I := I) (D := D) (A := A)).

(** On a block, with the data iterator at some position of it. *)
Definition on (t : two) (j : nat) (q : option nat) : Prop :=
  exists e w tok, index !! j = Some e /\ wrapped (at_pos := at_index) (index_iter_ t) (Some j) /\ data_iter_ t = Some w /\
    wrapped (at_pos := at_data e.2 tok) w q /\ data_block_handle_ t = e.2 /\ held (tok :: others) (arg_ t) /\ tl_status_ t = OK.

(** Behind or in front of everything. *)
Definition off_end (t : two) : Prop :=
  wrapped (at_pos := at_index) (index_iter_ t) None /\ data_iter_ t = None /\ held others (arg_ t) /\ tl_status_ t = OK.

Definition two_at (t : two) (p : option nat) : Prop :=
  match p with
  | Some g => exists j i, on t j (Some i) /\ g = (off blocks j + i)%nat
  | None => off_end t
  end.

(** The index iterator has moved to [jp]; the data iterator is the one of before. *)
Definition moved (t : two) (jp : option nat) : Prop :=
  wrapped (at_pos := at_index) (index_iter_ t) jp /\ tl_status_ t = OK /\
  match data_iter_ t with
  | None => held others (arg_ t)
  | Some w => exists h tok q, In h (map snd index) /\ wrapped (at_pos := at_data h tok) w q /\ data_block_handle_ t = h /\
      held (tok :: others) (arg_ t)
  end.

Lemma index_handle j e : index !! j = Some e -> In e.2 (map snd index).
Proof. intros Ej. by apply in_map, list_elem_of_In, (list_elem_of_lookup_2 _ j). Qed.

Lemma blocks_lookup j e : index !! j = Some e -> blocks !! j = Some (block_of e.2).
Proof. intros Ej. apply list_lookup_fmap_Some. by exists e. Qed.

Lemma index_bound j e : index !! j = Some e -> (j < length index)%nat.
Proof. apply lookup_lt_Some. Qed.

Lemma length_blocks : length blocks = length index.
Proof. apply length_map. Qed.

Lemma on_moved t j q : on t j q -> moved t (Some j).
Proof.
  intros (e & w & tok & Ej & Hi & Ed & Hw & Eh & Ha & Es). split; [done|]. split; [done|]. rewrite Ed.
  exists e.2, tok, q. split_and!; [by eapply index_handle|done|done|done].
Qed.

Lemma two_at_moved t p : two_at t p -> exists jp, moved t jp.
Proof.
  destruct p as [g|]; simpl.
  - intros (j & i & Hon & _). exists (Some j). by eapply on_moved.
  - intros (Hi & Ed & Ha & Es). exists None. split; [done|]. split; [done|]. by rewrite Ed.
Qed.

Lemma data_status h tok w q : In h (map snd index) -> wrapped (at_pos := at_data h tok) w q -> status w = OK.
Proof. intros Hh Hw. by apply (it_status (IteratorOk := IteratorWrapper_ok (Hok := bs_iterator h tok Hh)) w q). Qed.

Lemma SetDataIterator_None t : moved t None -> exists t', SetDataIterator delete_iter None t = Some t' /\ off_end t'.
Proof.
  intros (Hi & Es & Hd). unfold SetDataIterator. destruct (data_iter_ t) as [w|] eqn:Ed.
  - destruct Hd as (h & tok & q & Hh & Hw & _ & Ha). rewrite (data_status h tok w q Hh Hw), Es. simpl.
    destruct (bs_close h tok (iter_ w) q others (arg_ t) Hh (proj1 Hw) Ha) as (a' & -> & Ha').
    eexists. split; [done|]. by split_and!.
  - eexists. split; [done|]. by split_and!.
Qed.

Lemma SetDataIterator_new t j e d tok l :
  index !! j = Some e -> wrapped (at_pos := at_index) (index_iter_ t) (Some j) -> tl_status_ t = OK ->
  data_block_handle_ t = e.2 -> at_data e.2 tok d None -> held (tok :: l) (arg_ t) ->
  match data_iter_ t with
  | None => l = others
  | Some w => exists h tok' q, In h (map snd index) /\ wrapped (at_pos := at_data h tok') w q /\ l = tok' :: others
  end ->
  exists t', SetDataIterator delete_iter (Some d) t = Some t' /\ on t' j None.
Proof.
  intros Ej Hi Es Eh Hd Ha Hold. unfold SetDataIterator.
  destruct (Update_wrapped (Hok := bs_iterator e.2 tok (index_handle j e Ej)) d None [] Hd) as (w' & Ew & Hw').
  unfold WrapperSet. rewrite Ew. destruct (data_iter_ t) as [w|] eqn:Ed.
  - destruct Hold as (h & tok' & q & Hh & Hw & ->). rewrite (data_status h tok' w q Hh Hw), Es. simpl.
    apply (bs_order _ (tok' :: tok :: others)) in Ha; [|apply perm_swap].
    destruct (bs_close h tok' (iter_ w) q (tok :: others) (arg_ t) Hh (proj1 Hw) Ha) as (a' & -> & Ha').
    eexists. split; [done|]. exists e, w', tok. by split_and!.
  - subst l. eexists. split; [done|]. exists e, w', tok. by split_and!.
Qed.

(** After the index iterator has moved, the data iterator is one over its block. *)
Lemma InitDataBlock_spec t jp : moved t jp ->
  exists t', InitDataBlock block_function_ delete_iter t = Some t' /\
    match jp with None => off_end t' | Some j => exists q, on t' j q end.
Proof.
  intros Hm. pose proof Hm as (Hi & Es & Hd). unfold InitDataBlock.
  rewrite (it_valid (IteratorOk := IteratorWrapper_ok (Hok := Hindex)) _ _ Hi). destruct jp as [j|].
  - rewrite bool_decide_true by done. cbn [negb].
    destruct (it_entry (IteratorOk := IteratorWrapper_ok (Hok := Hindex)) _ _ Hi) as (e & Ej & _ & ->).
    destruct (same_block t e.2) eqn:Esame.
    + exists t. split; [done|]. unfold same_block in Esame. destruct (data_iter_ t) as [w|] eqn:Ed; [|done].
      apply Z.eqb_eq in Esame. rewrite slice_compare_lex in Esame. apply lex_eq in Esame.
      destruct Hd as (h & tok & q & Hh & Hw & Eh & Ha). exists q, e, w, tok. rewrite Esame, Eh. by split_and!.
    + destruct (data_iter_ t) as [w|] eqn:Ed.
      * destruct Hd as (h & tok & q & Hh & Hw & Eh & Ha).
        destruct (bs_open e.2 (tok :: others) (arg_ t) (index_handle j e Ej) Hcap Ha) as (d & tok' & a' & -> & Hd' & Ha').
        destruct (SetDataIterator_new (TwoLevel a' (tl_status_ t) (index_iter_ t) (Some w) e.2) j e d tok' (tok :: others))
          as (t' & -> & Hon); try done; [by exists h, tok, q|]. exists t'. split; [done|]. by exists None.
      * destruct (bs_open e.2 others (arg_ t) (index_handle j e Ej) (Nat.le_trans _ _ _ (Nat.le_succ_diag_r _) Hcap) Hd) as (d & tok' & a' & -> & Hd' & Ha').
        destruct (SetDataIterator_new (TwoLevel a' (tl_status_ t) (index_iter_ t) None e.2) j e d tok' others)
          as (t' & -> & Hon); try done. exists t'. split; [done|]. by exists None.
  - rewrite bool_decide_false by (by intros [? ?]). cbn [negb].
    destruct (SetDataIterator_None t Hm) as (t' & -> & H). by exists t'.
Qed.

(** What an operation of the data iterator does on every block. *)
Definition moves_data (op : IteratorWrapper (St := D) -> option (IteratorWrapper (St := D))) (f : list entry -> option nat) : Prop :=
  forall h tok w q, In h (map snd index) -> wrapped (at_pos := at_data h tok) w q ->
    exists w', op w = Some w' /\ wrapped (at_pos := at_data h tok) w' (f (block_of h)).

Definition moves_index (op : IteratorWrapper (St := I) -> option (IteratorWrapper (St := I))) (jp jp' : option nat) : Prop :=
  forall w, wrapped (at_pos := at_index) w jp -> exists w', op w = Some w' /\ wrapped (at_pos := at_index) w' jp'.

Lemma on_data_spec op f t j q : moves_data op f -> on t j q ->
  exists t' e, on_data op t = Some t' /\ index !! j = Some e /\ on t' j (f (block_of e.2)).
Proof.
  intros Hop (e & w & tok & Ej & Hi & Ed & Hw & Eh & Ha & Es). unfold on_data. rewrite Ed.
  destruct (Hop e.2 tok w q (index_handle j e Ej) Hw) as (w' & -> & Hw'). eexists _, e. split; [done|]. split; [done|].
  exists e, w', tok. by split_and!.
Qed.

Lemma move_index_spec op data_op f t jp jp' :
  moved t jp -> moves_index op jp jp' -> moves_data data_op f ->
  exists t', move_index block_function_ delete_iter op data_op t = Some t' /\
    match jp' with
    | None => off_end t'
    | Some j => exists e, index !! j = Some e /\ on t' j (f (block_of e.2))
    end.
Proof.
  intros (Hi & Es & Hd) Hop Hdata. unfold move_index. destruct (Hop _ Hi) as (w' & -> & Hw').
  destruct (InitDataBlock_spec (set_index w' t) jp') as (t1 & -> & H1); [by split_and!|]. destruct jp' as [j|].
  - destruct H1 as [q Hon]. destruct (on_data_spec data_op f t1 j q Hdata Hon) as (t' & e & -> & Ej & Ht').
    exists t'. split; [done|]. by exists e.
  - pose proof H1 as (_ & Ed & _). unfold on_data. rewrite Ed. by exists t1.
Qed.

(** ** Validity *)

Lemma on_valid t j q : on t j q -> two_Valid t = bool_decide (is_Some q).
Proof.
  intros (e & w & tok & Ej & _ & Ed & Hw & _). unfold two_Valid. rewrite Ed.
  exact (it_valid (IteratorOk := IteratorWrapper_ok (Hok := bs_iterator e.2 tok (index_handle j e Ej))) w q Hw).
Qed.

Lemma on_index_valid t j q : on t j q -> Valid (index_iter_ t) = true.
Proof.
  intros (e & w & tok & _ & Hi & _). rewrite (it_valid (IteratorOk := IteratorWrapper_ok (Hok := Hindex)) _ _ Hi). done.
Qed.

Lemma off_end_index t : off_end t -> two_Valid t = false /\ Valid (index_iter_ t) = false.
Proof.
  intros (Hi & Ed & _). unfold two_Valid. rewrite Ed, (it_valid (IteratorOk := IteratorWrapper_ok (Hok := Hindex)) _ _ Hi).
  split; [done|]. by apply bool_decide_false; intros [? ?].
Qed.

Lemma skip_off_end_forward fuel t : off_end t ->
  exists t', SkipEmptyDataBlocksForward block_function_ delete_iter fuel t = Some t' /\ off_end t'.
Proof.
  intros Ht. destruct (off_end_index t Ht) as [E1 E2]. destruct (two_at_moved t None Ht) as [jp Hm].
  assert (SkipEmptyDataBlocksForward block_function_ delete_iter fuel t = SetDataIterator delete_iter None t) as ->
    by (destruct fuel; cbn [SkipEmptyDataBlocksForward]; by rewrite E1, E2).
  apply SetDataIterator_None. destruct Ht as (Hi & Ed & Ha & Es). split; [done|]. split; [done|]. by rewrite Ed.
Qed.

Lemma skip_off_end_backward fuel t : off_end t ->
  exists t', SkipEmptyDataBlocksBackward block_function_ delete_iter fuel t = Some t' /\ off_end t'.
Proof.
  intros Ht. destruct (off_end_index t Ht) as [E1 E2].
  assert (SkipEmptyDataBlocksBackward block_function_ delete_iter fuel t = SetDataIterator delete_iter None t) as ->
    by (destruct fuel; cbn [SkipEmptyDataBlocksBackward]; by rewrite E1, E2).
  apply SetDataIterator_None. destruct Ht as (Hi & Ed & Ha & Es). split; [done|]. split; [done|]. by rewrite Ed.
Qed.

Lemma skip_on_forward fuel t j i : on t j (Some i) -> SkipEmptyDataBlocksForward block_function_ delete_iter fuel t = Some t.
Proof. intros Hon. pose proof (on_valid t j _ Hon) as E. destruct fuel; cbn [SkipEmptyDataBlocksForward]; by rewrite E. Qed.

Lemma skip_on_backward fuel t j i : on t j (Some i) -> SkipEmptyDataBlocksBackward block_function_ delete_iter fuel t = Some t.
Proof. intros Hon. pose proof (on_valid t j _ Hon) as E. destruct fuel; cbn [SkipEmptyDataBlocksBackward]; by rewrite E. Qed.

(** ** The loops over empty blocks *)

Abbreviation forward := (SkipEmptyDataBlocksForward block_function_ delete_iter).
Abbreviation backward := (SkipEmptyDataBlocksBackward block_function_ delete_iter).

Lemma moves_first : moves_data SeekToFirst first_pos.
Proof. intros h tok w q Hh Hw. by apply (it_first (IteratorOk := IteratorWrapper_ok (Hok := bs_iterator h tok Hh)) w q). Qed.

Lemma moves_last : moves_data SeekToLast last_pos.
Proof. intros h tok w q Hh Hw. by apply (it_last (IteratorOk := IteratorWrapper_ok (Hok := bs_iterator h tok Hh)) w q). Qed.

Lemma moves_seek target : valid target -> moves_data (Seek target) (seek_pos c target).
Proof. intros Ht h tok w q Hh Hw. by apply (it_seek (IteratorOk := IteratorWrapper_ok (Hok := bs_iterator h tok Hh)) w q). Qed.

(** The position in all entries behind the first [g] of them. *)
Definition at_or_end (g : nat) : option nat := if decide (g < length all)%nat then Some g else None.

Lemma skip_forward fuel t j : on t j None -> (length index - j <= fuel)%nat ->
  exists t', forward fuel t = Some t' /\ two_at t' (at_or_end (off blocks (S j))).
Proof.
  revert t j. induction fuel as [|fuel IH]; intros t j Hon Hf; pose proof Hon as (e & w & tok & Ej & Hi & _);
    pose proof (index_bound j e Ej); [lia|].
  cbn [SkipEmptyDataBlocksForward]. rewrite (on_valid t j None Hon), (on_index_valid t j None Hon), bool_decide_false by (by intros [? ?]).
  cbn [negb]. destruct (move_index_spec Next SeekToFirst first_pos t (Some j) (next_pos index j) (on_moved t j None Hon)) as (t1 & -> & H1).
  { intros w' Hw'. by apply (it_next (IteratorOk := IteratorWrapper_ok (Hok := Hindex)) w' j). }
  { apply moves_first. }
  unfold next_pos in H1. destruct (decide (S j < length index)%nat) as [Hlt|Hge].
  - destruct H1 as (e' & Ej' & Hon'). pose proof (blocks_lookup _ _ Ej') as Eb. rewrite first_pos_nonempty in Hon'.
    pose proof (off_total _ _ _ Eb) as Ht. destruct (decide (0 < length (block_of e'.2))%nat) as [Hne|Hem].
    + rewrite (skip_on_forward fuel t1 (S j) 0 Hon'). exists t1. split; [done|]. unfold at_or_end. rewrite decide_True by lia.
      exists (S j), 0%nat. split; [done|lia].
    + destruct (IH t1 (S j) Hon' ltac:(lia)) as (t' & -> & Ht'). exists t'. split; [done|].
      rewrite (off_S _ _ _ Eb) in Ht'. by replace (off blocks (S j) + length (block_of e'.2))%nat with (off blocks (S j)) in Ht' by lia.
  - destruct (skip_off_end_forward fuel t1 H1) as (t' & -> & Ht'). exists t'. split; [done|].
    unfold at_or_end. rewrite decide_False; [done|]. replace (S j) with (length blocks) by (rewrite length_blocks; lia). rewrite off_all. lia.
Qed.

Lemma skip_backward fuel t j : on t j None -> (j < fuel)%nat ->
  exists t', backward fuel t = Some t' /\ two_at t' (prev_pos (off blocks j)).
Proof.
  revert t j. induction fuel as [|fuel IH]; intros t j Hon Hf; [lia|].
  cbn [SkipEmptyDataBlocksBackward]. rewrite (on_valid t j None Hon), (on_index_valid t j None Hon), bool_decide_false by (by intros [? ?]).
  cbn [negb]. destruct (move_index_spec Prev SeekToLast last_pos t (Some j) (prev_pos j) (on_moved t j None Hon)) as (t1 & -> & H1).
  { intros w' Hw'. by apply (it_prev (IteratorOk := IteratorWrapper_ok (Hok := Hindex)) w' j). }
  { apply moves_last. }
  destruct j as [|j]; simpl in H1.
  - destruct (skip_off_end_backward fuel t1 H1) as (t' & -> & Ht'). by exists t'.
  - destruct H1 as (e' & Ej' & Hon'). pose proof (blocks_lookup _ _ Ej') as Eb. rewrite last_pos_prev in Hon'.
    rewrite (off_S _ _ _ Eb). destruct (length (block_of e'.2)) as [|n]; simpl in Hon'.
    + destruct (IH t1 j Hon' ltac:(lia)) as (t' & -> & Ht'). exists t'. by rewrite Nat.add_0_r.
    + rewrite (skip_on_backward fuel t1 j n Hon'). exists t1. split; [done|]. rewrite Nat.add_succ_r. simpl. by exists j, n.
Qed.

(** ** The operations *)

Context {fuel : nat} {Hfuel : (length index <= fuel)%nat}.

(** After a move to a position of a block, with the search for the next entry. *)
Lemma land_forward t j b q : on t j q -> blocks !! j = Some b -> (forall i, q = Some i -> (i < length b)%nat) ->
  exists t', forward fuel t = Some t' /\
    two_at t' (match q with Some i => Some (off blocks j + i)%nat | None => at_or_end (off blocks (S j)) end).
Proof.
  intros Hon Eb Hq. destruct q as [i|].
  - rewrite (skip_on_forward fuel t j i Hon). exists t. split; [done|]. by exists j, i.
  - apply skip_forward; [done|lia].
Qed.

Lemma land_backward t j q : on t j q ->
  exists t', backward fuel t = Some t' /\
    two_at t' (match q with Some i => Some (off blocks j + i)%nat | None => prev_pos (off blocks j) end).
Proof.
  intros Hon. destruct q as [i|].
  - rewrite (skip_on_backward fuel t j i Hon). exists t. split; [done|]. by exists j, i.
  - apply skip_backward; [done|]. destruct Hon as (e & _ & _ & Ej & _). pose proof (index_bound j e Ej). lia.
Qed.

Lemma on_entry t j i : on t j (Some i) -> exists e x, index !! j = Some e /\ block_of e.2 !! i = Some x /\
  two_key t = Some x.1 /\ two_value t = Some x.2.
Proof.
  intros (e & w & tok & Ej & _ & Ed & Hw & _). unfold two_key, two_value. rewrite Ed.
  destruct (it_entry (IteratorOk := IteratorWrapper_ok (Hok := bs_iterator e.2 tok (index_handle j e Ej))) w i Hw) as (x & Ex & Ek & Ev).
  by exists e, x.
Qed.

Lemma two_first t p : two_at t p -> exists t', two_SeekToFirst block_function_ delete_iter fuel t = Some t' /\ two_at t' (first_pos all).
Proof.
  intros [jp Hm]%two_at_moved. unfold two_SeekToFirst.
  destruct (move_index_spec SeekToFirst SeekToFirst first_pos t jp (first_pos index) Hm) as (t1 & -> & H1); [|apply moves_first|].
  { intros w Hw. by apply (it_first (IteratorOk := IteratorWrapper_ok (Hok := Hindex)) w jp). }
  rewrite !first_pos_nonempty in *. destruct (decide (0 < length index)%nat) as [Hlt|Hge].
  - destruct H1 as (e & E0 & Hon). pose proof (blocks_lookup _ _ E0) as Eb. rewrite first_pos_nonempty in Hon.
    pose proof (off_total _ _ _ Eb) as Ht. destruct (land_forward t1 0 _ _ Hon Eb) as (t' & -> & Ht').
    { intros i. case_decide; [by intros [= <-]|done]. }
    exists t'. split; [done|]. rewrite (off_S _ _ _ Eb) in Ht'. unfold at_or_end in Ht'. change (off blocks 0) with 0%nat in *. simpl in *.
    destruct (decide (0 < length (block_of e.2))%nat); [by rewrite decide_True by lia|].
    by replace (length (block_of e.2)) with 0%nat in Ht' by lia.
  - destruct (skip_off_end_forward fuel t1 H1) as (t' & -> & Ht'). exists t'. split; [done|]. rewrite decide_False; [done|].
    rewrite <- off_all, length_blocks. replace (length index) with 0%nat by lia. unfold off. simpl. lia.
Qed.

Lemma two_last t p : two_at t p -> exists t', two_SeekToLast block_function_ delete_iter fuel t = Some t' /\ two_at t' (last_pos all).
Proof.
  intros [jp Hm]%two_at_moved. unfold two_SeekToLast.
  destruct (move_index_spec SeekToLast SeekToLast last_pos t jp (last_pos index) Hm) as (t1 & -> & H1); [|apply moves_last|].
  { intros w Hw. by apply (it_last (IteratorOk := IteratorWrapper_ok (Hok := Hindex)) w jp). }
  rewrite !last_pos_prev in *. rewrite <- off_all, length_blocks. revert H1. generalize (length index) as n. intros [|n] H1; simpl in H1.
  - destruct (skip_off_end_backward fuel t1 H1) as (t' & -> & Ht'). by exists t'.
  - destruct H1 as (e & En & Hon). rewrite last_pos_prev in Hon. pose proof (blocks_lookup _ _ En) as Eb.
    destruct (land_backward t1 n _ Hon) as (t' & -> & Ht'). exists t'. split; [done|]. rewrite (off_S _ _ _ Eb).
    destruct (length (block_of e.2)) as [|m]; simpl in Ht'; [by rewrite Nat.add_0_r|]. by rewrite Nat.add_succ_r.
Qed.

Lemma two_next t g : two_at t (Some g) -> exists t', two_Next block_function_ delete_iter fuel t = Some t' /\ two_at t' (next_pos all g).
Proof.
  intros (j & i & Hon & ->). unfold two_Next. rewrite (on_valid t j _ Hon), bool_decide_true by done.
  destruct (on_entry t j i Hon) as (e & x & Ej & Ex & _). pose proof (blocks_lookup _ _ Ej) as Eb. pose proof (off_total _ _ _ Eb) as Ht.
  pose proof (lookup_lt_Some _ _ _ Ex) as Hi. destruct Hon as (e' & w & tok & Ej' & Hi' & Ed & Hw & Eh & Ha & Es).
  assert (Some e = Some e') as [= ->] by exact (eq_trans (eq_sym Ej) Ej'). unfold on_data. rewrite Ed.
  destruct (it_next (IteratorOk := IteratorWrapper_ok (Hok := bs_iterator e'.2 tok (index_handle j e' Ej))) w i Hw) as (w' & -> & Hw').
  set (t1 := TwoLevel _ _ _ _ _). assert (on t1 j (next_pos (block_of e'.2) i)) as Hon1 by (exists e', w', tok; by split_and!).
  destruct (land_forward t1 j _ _ Hon1 Eb) as (t' & -> & Ht').
  { unfold next_pos. intros k. case_decide; [by intros [= <-]|done]. }
  exists t'. split; [done|]. unfold next_pos in *. rewrite (off_S _ _ _ Eb) in Ht'. unfold at_or_end in Ht'.
  destruct (decide (S i < length (block_of e'.2))%nat); [rewrite decide_True by lia; by rewrite <- Nat.add_succ_r|].
  by replace (off blocks j + length (block_of e'.2))%nat with (S (off blocks j + i)) in Ht' by lia.
Qed.

Lemma two_prev t g : two_at t (Some g) -> exists t', two_Prev block_function_ delete_iter fuel t = Some t' /\ two_at t' (prev_pos g).
Proof.
  intros (j & i & Hon & ->). unfold two_Prev. rewrite (on_valid t j _ Hon), bool_decide_true by done.
  destruct Hon as (e' & w & tok & Ej' & Hi' & Ed & Hw & Eh & Ha & Es). unfold on_data. rewrite Ed.
  destruct (it_prev (IteratorOk := IteratorWrapper_ok (Hok := bs_iterator e'.2 tok (index_handle j e' Ej'))) w i Hw) as (w' & -> & Hw').
  set (t1 := TwoLevel _ _ _ _ _). assert (on t1 j (prev_pos i)) as Hon1 by (exists e', w', tok; by split_and!).
  destruct (land_backward t1 j _ Hon1) as (t' & -> & Ht').
  exists t'. split; [done|]. destruct i as [|i]; simpl in Ht'; [by rewrite Nat.add_0_r|]. by rewrite Nat.add_succ_r.
Qed.

(** Seeking in the index and then in the block is seeking in all the entries. *)
Lemma below_block target k e x : valid target -> index !! k = Some e -> key_ge c target e.1 = false -> In x (block_of e.2) ->
  key_ge c target x.1 = false.
Proof.
  intros Ht Ek Hge Hx. destruct (Hkeys k e x Ek Hx) as (Hx' & Hle). pose proof (Hindex_valid k e Ek) as He.
  apply (key_ge_false target x.1 Ht Hx'). apply (key_ge_false target e.1 Ht He) in Hge.
  by apply (key_le_lt_trans (valid := valid) x.1 e.1 target).
Qed.

Lemma above_block target j k e e' x : valid target -> (j < k)%nat -> index !! j = Some e -> index !! k = Some e' ->
  key_ge c target e.1 = true -> In x (block_of e'.2) -> key_ge c target x.1 = true.
Proof.
  intros Ht Hjk Ej Ek Hge Hx. destruct (Hkeys k e' x Ek Hx) as (Hx' & _). pose proof (Hindex_valid j e Ej) as He.
  apply (key_ge_true target x.1 Ht Hx'). apply (key_ge_true target e.1 Ht He) in Hge.
  apply key_lt_le, (key_le_lt_trans (valid := valid) target e.1 x.1); try done. by apply (Hseparate j k e e' x).
Qed.

Lemma blocks_entry k b : blocks !! k = Some b -> exists e, index !! k = Some e /\ b = block_of e.2.
Proof. intros (e & -> & Ek)%list_lookup_fmap_Some. by exists e. Qed.

Lemma seek_all target : valid target ->
  seek_pos c target all =
    match seek_pos c target index with
    | None => None
    | Some j =>
        match index !! j with
        | None => None
        | Some e => match seek_pos c target (block_of e.2) with Some i => Some (off blocks j + i)%nat | None => at_or_end (off blocks (S j)) end
        end
    end.
Proof.
  intros Ht. pose proof (seek_pos_spec c target index) as Hs. destruct (seek_pos c target index) as [j|].
  - destruct Hs as (e & Ej & Hge & Hbefore). rewrite Ej. pose proof (blocks_lookup _ _ Ej) as Eb.
    assert (forall x, In x (concat (take j blocks)) -> key_ge c target x.1 = false) as Hfirst.
    { intros x (k & b & Hk & (e' & Ek & ->)%blocks_entry & Hx)%in_concat_take. apply (below_block target k e' x Ht Ek); [|done].
      by apply (Hbefore k e'). }
    assert (forall x, In x (concat (drop (S j) blocks)) -> key_ge c target x.1 = true) as Hrest.
    { intros x (k & b & Hk & (e' & Ek & ->)%blocks_entry & Hx)%in_concat_drop.
      by apply (above_block target j k e e' x Ht ltac:(lia) Ej Ek Hge). }
    rewrite (concat_split blocks j _ Eb). pose proof (seek_pos_spec c target (block_of e.2)) as Hb.
    destruct (seek_pos c target (block_of e.2)) as [i|].
    + destruct Hb as (x & Ex & Hx & Hbef). rewrite <- (take_drop_middle (block_of e.2) i x Ex) at 1.
      rewrite <- app_assoc, app_assoc. simpl app. rewrite seek_pos_app.
      * rewrite length_app, length_take. apply lookup_lt_Some in Ex. unfold off. f_equal. lia.
      * intros y [Hy|Hy]%in_app_iff; [by apply Hfirst|]. apply list_elem_of_In, list_elem_of_lookup in Hy as [k Ek].
        apply lookup_take_Some in Ek as [Ek Hk]. by apply (Hbef k y).
      * by intros y [= <-].
    + rewrite app_assoc, seek_pos_app.
      * unfold at_or_end. rewrite (off_S _ _ _ Eb), length_app.
        assert (length all = off blocks j + length (block_of e.2) + length (concat (drop (S j) blocks)))%nat as ->.
        { rewrite (concat_split blocks j _ Eb), !length_app. unfold off. lia. }
        destruct (concat (drop (S j) blocks)); simpl; [by rewrite decide_False by lia|by rewrite decide_True by lia].
      * intros y [Hy|Hy]%in_app_iff; [by apply Hfirst|by apply Hb].
      * intros y Hy. apply Hrest. destruct (concat (drop (S j) blocks)); [done|]. injection Hy as ->. by left.
  - rewrite <- (app_nil_r all), seek_pos_app; [done| |done]. intros x Hx. rewrite <- (firstn_all blocks) in Hx.
    apply in_concat_take in Hx as (k & b & _ & (e & Ek & ->)%blocks_entry & Hx). apply (below_block target k e x Ht Ek); [|done].
    apply Hs, list_elem_of_In. by eapply list_elem_of_lookup_2.
Qed.

Lemma two_seek t p target : two_at t p -> valid target ->
  exists t', two_Seek block_function_ delete_iter fuel target t = Some t' /\ two_at t' (seek_pos c target all).
Proof.
  intros [jp Hm]%two_at_moved Ht. unfold two_Seek. rewrite (seek_all target Ht).
  destruct (move_index_spec (Seek target) (Seek target) (seek_pos c target) t jp (seek_pos c target index) Hm) as (t1 & -> & H1).
  { intros w Hw. by apply (it_seek (IteratorOk := IteratorWrapper_ok (Hok := Hindex)) w jp). }
  { by apply moves_seek. }
  destruct (seek_pos c target index) as [j|].
  - destruct H1 as (e & Ej & Hon). rewrite Ej. apply (land_forward t1 j _ _ Hon (blocks_lookup _ _ Ej)).
    intros i Ei. pose proof (seek_pos_spec c target (block_of e.2)) as Hs. rewrite Ei in Hs. destruct Hs as (x & Ex & _).
    by eapply lookup_lt_Some.
  - by apply skip_off_end_forward.
Qed.

Lemma two_status_ok t p : two_at t p -> two_status t = OK.
Proof.
  intros Hp. unfold two_status. destruct p as [g|].
  - destruct Hp as (j & i & (e & w & tok & Ej & Hi & Ed & Hw & _ & _ & Es) & _).
    rewrite (it_status (IteratorOk := IteratorWrapper_ok (Hok := Hindex)) _ _ Hi), Ed. change (negb (ok OK)) with false. cbv iota.
    by rewrite (data_status e.2 tok w (Some i) (index_handle j e Ej) Hw), Es.
  - destruct Hp as (Hi & Ed & _ & Es). by rewrite (it_status (IteratorOk := IteratorWrapper_ok (Hok := Hindex)) _ _ Hi), Ed, Es.
Qed.

Lemma two_iterator_ok : IteratorOk (TwoLevelIterator_iterator block_function_ delete_iter fuel) c valid all two_at.
Proof.
  split; simpl.
  - intros t [g|] Hp; [destruct Hp as (j & i & Hon & _); by rewrite (on_valid t j _ Hon)|].
    rewrite (proj1 (off_end_index t Hp)). symmetry. by apply bool_decide_false; intros [? ?].
  - intros t g (j & i & Hon & ->). destruct (on_entry t j i Hon) as (e & x & Ej & Ex & Hk & Hv).
    exists x. split; [|done]. by apply (concat_lookup _ j (block_of e.2)); [apply blocks_lookup|].
  - apply two_first.
  - apply two_last.
  - apply two_seek.
  - apply two_next.
  - apply two_prev.
  - apply two_status_ok.
Qed.

Lemma two_new_ok st a : at_index st None -> held others a ->
  exists t, NewTwoLevelIterator st a = Some t /\ two_at t None.
Proof.
  intros Hst Ha. unfold NewTwoLevelIterator, WrapperSet.
  destruct (Update_wrapped (Hok := Hindex) st None [] Hst) as (w & -> & Hw). eexists. split; [done|]. by split_and!.
Qed.
End Props.

(** C16. Over an index whose entries separate the blocks they point to, the two-level iterator
    is an iterator over the entries of all blocks in order, empty blocks included, for every way of moving
    it; the block iterators it opens are all closed again, whatever other iterators hold. Both loops end within as
    many rounds as the index has entries. *)
Theorem two_level_iterator {I D A T} (index_it : Iterator I) (data_it : Iterator D)
    (block_function_ : list byte -> A -> option (D * A)) (delete_iter : D -> A -> option A)
    (c : Comparator) (valid : list byte -> Prop) (index : list entry) (block_of : list byte -> list entry)
    (at_index : I -> option nat -> Prop) (at_data : list byte -> T -> D -> option nat -> Prop) (held : list T -> A -> Prop)
    (others : list T) (cap fuel : nat) (st : I) (arg : A) :
  ComparatorOk c valid -> IteratorOk index_it c valid index at_index ->
  BlockSource data_it block_function_ delete_iter c valid (map snd index) block_of at_data held cap -> (length others < cap)%nat ->
  (forall j e, index !! j = Some e -> valid e.1) ->
  (forall j e x, index !! j = Some e -> In x (block_of e.2) -> valid x.1 /\ key_le c x.1 e.1) ->
  (forall j j' e e' x, (j < j')%nat -> index !! j = Some e -> index !! j' = Some e' -> In x (block_of e'.2) -> key_lt c e.1 x.1) ->
  (length index <= fuel)%nat -> at_index st None -> held others arg ->
  exists t at_pos, NewTwoLevelIterator st arg = Some t /\ at_pos t None /\
    IteratorOk (TwoLevelIterator_iterator block_function_ delete_iter fuel) c valid
      (concat (map (fun e => block_of e.2) index)) at_pos /\
    (forall t, at_pos t None -> held others (arg_ t)).
Proof.
  intros Hc Hindex Hsource Hcap Hv Hk Hs Hf Hst Ha.
  destruct (two_new_ok (Hindex := Hindex) (block_of := block_of) (at_data := at_data) (held := held) (others := others) st arg Hst Ha) as (t & E & Ht).
  eexists t, (two_at (index := index) (at_index := at_index) (block_of := block_of) (at_data := at_data) (held := held) (others := others)).
  split_and!; [exact E|exact Ht|by apply (two_iterator_ok (Hsource := Hsource) (Hcap := Hcap) (Hindex_valid := Hv) (Hkeys := Hk) (Hseparate := Hs) (Hfuel := Hf))|].
  by intros t' (_ & _ & H & _).
Qed.
