(* ===== verification/Format.v ===== *)
(** * The format of table files: table/format.h, table/format.cc

    Handles, the footer, and reading a block with its trailer; also the options
    and the compression functions of the port layer that reading and building
    tables use.  [None] is a failed assertion or a read outside a buffer. *)
From S2P Require Import Prelude Varint Coding Comparator DbFormat FilterBlock Status Interfaces Crc.

(** ** Options: include/leveldb/options.h *)

Inductive CompressionType := kNoCompression | kSnappyCompression.

Definition compression_val (t : CompressionType) : Z :=
  match t with kNoCompression => 0x0 | kSnappyCompression => 0x1 end.

(** The fields that tables use; a filter policy comes with its name, and [has_block_cache] says whether
    [block_cache] is not NULL. *)
Record Options := MkOptions {
  opt_comparator : Comparator;
  paranoid_checks : bool;
  has_block_cache : bool;
  opt_block_size : Z;
  opt_block_restart_interval : Z;
  compression : CompressionType;
  filter_policy : option (FilterPolicy * list byte);
}.

Definition default_Options : Options := MkOptions BytewiseComparator false false 4096 16 kSnappyCompression None.

Record ReadOptions := MkReadOptions { verify_checksums : bool; fill_cache : bool }.
Definition default_ReadOptions : ReadOptions := MkReadOptions false true.

(** ** Compression: port/port_posix.h *)

Class Snappy := {
  Snappy_Compress : list byte -> option (list byte);
  Snappy_GetUncompressedLength : list byte -> option Z;
  Snappy_Uncompress : list byte -> option (list byte);
}.

(** What is compressed can be restored. *)
Class SnappyOk (s : Snappy) := {
  snappy_restores input output : Snappy_Compress input = Some output ->
    Snappy_GetUncompressedLength output = Some (Z.of_nat (length input)) /\ Snappy_Uncompress output = Some input;
}.

(** Built without SNAPPY, as it is here. *)
Definition NoSnappy : Snappy := {|
  Snappy_Compress _ := None;
  Snappy_GetUncompressedLength _ := None;
  Snappy_Uncompress _ := None;
|}.

#[export] Instance NoSnappy_ok : SnappyOk NoSnappy.
Proof. split. done. Qed.

(** ** BlockHandle and Footer *)

Record BlockHandle := Handle { bh_offset : Z; bh_size : Z }.

Definition new_BlockHandle : BlockHandle := Handle (2 ^ 64 - 1) (2 ^ 64 - 1).

Definition kMaxEncodedLength : nat := 10 + 10.

Section Format.
Context (kLittleEndian : bool).

Definition HandleEncodeTo (h : BlockHandle) (dst : list byte) : option (list byte) :=
  if (bh_offset h =? 2 ^ 64 - 1) || (bh_size h =? 2 ^ 64 - 1) then None
  else match PutVarint64 dst (bh_offset h) with Some dst => PutVarint64 dst (bh_size h) | None => None end.

(** [Status::Corruption(msg)] *)
Definition FormatCorruption (msg : string) : Status := default OK (new_Status kLittleEndian kCorruption (bytes_of msg) []).

(** The status, the handle and the input afterwards. *)
Definition HandleDecodeFrom (h : BlockHandle) (input : list byte) : Status * BlockHandle * list byte :=
  match GetVarint64 input with
  | None => (FormatCorruption "bad block handle", h, input)
  | Some (offset, input) =>
      match GetVarint64 input with
      | None => (FormatCorruption "bad block handle", Handle offset (bh_size h), input)
      | Some (size, input) => (OK, Handle offset size, input)
      end
  end.

Record Footer := MkFooter { metaindex_handle_ : BlockHandle; index_handle_ : BlockHandle }.

Definition kEncodedLength : nat := 2 * kMaxEncodedLength + 8.
Definition kTableMagicNumber : Z := 0xdb4775248b80fb57.
Definition kBlockTrailerSize : nat := 5.

(** [std::string::resize] *)
Definition str_resize (n : nat) (s : list byte) : list byte := take n s ++ replicate (n - length s) (byte_of 0).

Definition FooterEncodeTo (f : Footer) (dst : list byte) : option (list byte) :=
  match HandleEncodeTo (metaindex_handle_ f) dst with
  | None => None
  | Some d =>
      match HandleEncodeTo (index_handle_ f) d with
      | None => None
      | Some d =>
          let d := str_resize (2 * kMaxEncodedLength) d in
          let d := PutFixed32 kLittleEndian d (u32 (Z.land kTableMagicNumber 0xffffffff)) in
          let d := PutFixed32 kLittleEndian d (u32 (Z.shiftr kTableMagicNumber 32)) in
          if (length d =? length dst + kEncodedLength)%nat then Some d else None
      end
  end.

(** The input has to have [kEncodedLength] bytes. *)
Definition FooterDecodeFrom (f : Footer) (input : list byte) : option (Status * Footer * list byte) :=
  let magic_ptr := drop (kEncodedLength - 8) input in
  match DecodeFixed32 kLittleEndian magic_ptr, DecodeFixed32 kLittleEndian (drop 4 magic_ptr) with
  | Some magic_lo, Some magic_hi =>
      let magic := Z.lor (u64 (Z.shiftl magic_hi 32)) magic_lo in
      if negb (magic =? kTableMagicNumber) then Some (FormatCorruption "not an sstable (bad magic number)", f, input)
      else
        let '(s, h, rest) := HandleDecodeFrom (metaindex_handle_ f) input in
        let f := MkFooter h (index_handle_ f) in
        if negb (ok s) then Some (s, f, rest)
        else
          let '(s, h, rest) := HandleDecodeFrom (index_handle_ f) rest in
          let f := MkFooter (metaindex_handle_ f) h in
          if negb (ok s) then Some (s, f, rest) else Some (s, f, drop 8 magic_ptr)
  | _, _ => None
  end.

(** ** ReadBlock *)

Record BlockContents := MkContents { bc_data : list byte; cachable : bool; heap_allocated : bool }.

Context {snappy : Snappy} {F : Type} {raf : RandomAccessFile F}.

Definition no_contents : BlockContents := MkContents [] false false.

(** The status and [*result].  [n + kBlockTrailerSize] is a [size_t]. *)
Definition ReadBlock (file : F) (options : ReadOptions) (handle : BlockHandle) : option (Status * BlockContents) :=
  let n := bh_size handle in
  let m := u64 (n + Z.of_nat kBlockTrailerSize) in
  let '(s, contents, in_buf) := ReadAt file (bh_offset handle) m in
  if negb (ok s) then Some (s, no_contents)
  else if negb (Z.of_nat (length contents) =? m) then Some (FormatCorruption "truncated block read", no_contents)
  else
    let data := take (Z.to_nat n) contents in
    let checksum :=
      if verify_checksums options then
        match DecodeFixed32 kLittleEndian (drop (Z.to_nat (n + 1)) contents),
              crc_Value kLittleEndian 0 (take (Z.to_nat (n + 1)) contents) with
        | Some stored, Some actual => Some (actual =? Unmask stored)
        | _, _ => None
        end
      else Some true in
    match checksum, contents !! Z.to_nat n with
    | Some true, Some type =>
        if byte_val type =? compression_val kNoCompression then
          Some (OK, MkContents data in_buf in_buf)
        else if byte_val type =? compression_val kSnappyCompression then
          match Snappy_GetUncompressedLength data with
          | None => Some (FormatCorruption "corrupted compressed block contents", no_contents)
          | Some ulength =>
              match Snappy_Uncompress data with
              | None => Some (FormatCorruption "corrupted compressed block contents", no_contents)
              | Some ubuf => Some (OK, MkContents (take (Z.to_nat ulength) ubuf) true true)
              end
          end
        else Some (FormatCorruption "bad block type", no_contents)
    | Some false, _ => Some (FormatCorruption "block checksum mismatch", no_contents)
    | _, _ => None
    end.
End Format.
