(* ===== verification/FormatProps.v ===== *)
(** * Handles, footers and blocks are read back as they were written *)
From S2P Require Import Prelude Varint Coding CodingProps Comparator Status Interfaces Crc CrcProps Format.

(** ** Handles *)

Definition handle_ok (h : BlockHandle) : Prop := 0 <= bh_offset h < 2 ^ 64 - 1 /\ 0 <= bh_size h < 2 ^ 64 - 1.

Definition enc_handle (h : BlockHandle) : list byte := varint (bh_offset h) ++ varint (bh_size h).

Lemma HandleEncodeTo_enc h dst : handle_ok h -> HandleEncodeTo h dst = Some (dst ++ enc_handle h).
Proof.
  intros [Ho Hs]. unfold HandleEncodeTo. destruct (Z.eqb_spec (bh_offset h) (2 ^ 64 - 1)), (Z.eqb_spec (bh_size h) (2 ^ 64 - 1)); try lia.
  cbn [orb]. rewrite !PutVarint64_varint by lia. unfold enc_handle. by rewrite app_assoc.
Qed.

Lemma HandleDecodeFrom_enc le h0 h rest : handle_ok h -> HandleDecodeFrom le h0 (enc_handle h ++ rest) = (OK, h, rest).
Proof.
  intros [Ho Hs]. unfold HandleDecodeFrom, enc_handle. rewrite <- app_assoc, !GetVarint64_varint by lia. by destruct h.
Qed.

Lemma length_enc_handle h : (length (enc_handle h) <= kMaxEncodedLength)%nat.
Proof.
  unfold enc_handle, kMaxEncodedLength. rewrite length_app.
  pose proof (varint_length_bounds (bh_offset h)). pose proof (varint_length_bounds (bh_size h)). lia.
Qed.

(** ** The footer *)

Definition handles (f : Footer) : list byte := enc_handle (metaindex_handle_ f) ++ enc_handle (index_handle_ f).

Definition enc_footer (f : Footer) : list byte := str_resize (2 * kMaxEncodedLength) (handles f) ++ le_split 8 kTableMagicNumber.

Lemma length_handles f : (length (handles f) <= 2 * kMaxEncodedLength)%nat.
Proof.
  unfold handles. rewrite length_app. pose proof (length_enc_handle (metaindex_handle_ f)). pose proof (length_enc_handle (index_handle_ f)). lia.
Qed.

Lemma length_resize n s : length (str_resize n s) = n.
Proof. unfold str_resize. rewrite length_app, length_take, length_replicate. lia. Qed.

Lemma length_enc_footer f : length (enc_footer f) = kEncodedLength.
Proof. unfold enc_footer. rewrite length_app, length_resize. done. Qed.

Lemma FooterEncodeTo_enc le f : handle_ok (metaindex_handle_ f) -> handle_ok (index_handle_ f) ->
  FooterEncodeTo le f [] = Some (enc_footer f).
Proof.
  intros Hm Hi. unfold FooterEncodeTo. rewrite !HandleEncodeTo_enc by done. cbv zeta. rewrite app_nil_l. fold (handles f).
  unfold PutFixed32. rewrite !EncodeFixed32_spec, <- app_assoc.
  change (le_split 4 (u32 (Z.land kTableMagicNumber 4294967295)) ++ le_split 4 (u32 (Z.shiftr kTableMagicNumber 32))) with (le_split 8 kTableMagicNumber).
  fold (enc_footer f). rewrite length_enc_footer. by rewrite Nat.eqb_refl.
Qed.

(** The magic number is read as two words. *)
Lemma magic_of le bs rest : length bs = 8%nat -> exists lo hi,
  DecodeFixed32 le (bs ++ rest) = Some lo /\ DecodeFixed32 le (drop 4 (bs ++ rest)) = Some hi /\
  Z.lor (u64 (Z.shiftl hi 32)) lo = le_combine bs.
Proof.
  intros Hl. assert (exists l h, bs = l ++ h /\ length l = 4%nat /\ length h = 4%nat) as (l & h & -> & Hll & Hlh).
  { exists (take 4 bs), (drop 4 bs). by rewrite take_drop, length_take, length_drop, Hl. }
  rewrite <- !app_assoc, drop_app_length' by done. exists (le_combine l), (le_combine h).
  rewrite !DecodeFixed32_spec by done. split_and!; [done|done|]. rewrite le_combine_app, Hll, Z.lor_comm. f_equal.
  unfold u64. apply Z.mod_small. pose proof (le_combine_bound h) as Hb. rewrite Hlh in Hb. rewrite Z.shiftl_mul_pow2 by lia. lia.
Qed.

Lemma FooterDecodeFrom_enc le f0 f rest : handle_ok (metaindex_handle_ f) -> handle_ok (index_handle_ f) ->
  FooterDecodeFrom le f0 (enc_footer f ++ rest) = Some (OK, f, rest).
Proof.
  intros Hm Hi. unfold FooterDecodeFrom. cbv zeta.
  assert (drop (kEncodedLength - 8) (enc_footer f ++ rest) = le_split 8 kTableMagicNumber ++ rest) as ->.
  { unfold enc_footer. rewrite <- app_assoc. apply drop_app_length'. by rewrite length_resize. }
  destruct (magic_of le (le_split 8 kTableMagicNumber) rest eq_refl) as (lo & hi & -> & -> & ->).
  change (le_combine (le_split 8 kTableMagicNumber) =? kTableMagicNumber) with true.
  cbn [negb].
  assert (enc_footer f ++ rest = enc_handle (metaindex_handle_ f) ++ enc_handle (index_handle_ f) ++
    replicate (2 * kMaxEncodedLength - length (handles f)) (byte_of 0) ++ le_split 8 kTableMagicNumber ++ rest) as ->.
  { unfold enc_footer, str_resize. rewrite take_ge by apply length_handles. unfold handles at 1. by rewrite <- !app_assoc. }
  rewrite HandleDecodeFrom_enc by done. cbn [negb ok index_handle_]. rewrite HandleDecodeFrom_enc by done.
  cbn [negb ok metaindex_handle_]. rewrite app_assoc, drop_app_length' by done. by destruct f.
Qed.

(** The footer of a table always has its fixed length and is read back from any place in front of
    other bytes; what has not the magic number is refused. *)
Theorem footer_roundtrip le f f0 rest :
  handle_ok (metaindex_handle_ f) -> handle_ok (index_handle_ f) ->
  exists bs, FooterEncodeTo le f [] = Some bs /\ length bs = kEncodedLength /\
    FooterDecodeFrom le f0 (bs ++ rest) = Some (OK, f, rest) /\
    forall other, length other = kEncodedLength -> drop (kEncodedLength - 8) other <> drop (kEncodedLength - 8) bs ->
      exists s input, FooterDecodeFrom le f0 (other ++ rest) = Some (s, f0, input) /\ is_code kCorruption s = Some true.
Proof.
  intros Hm Hi. exists (enc_footer f). split_and!; [by apply FooterEncodeTo_enc|apply length_enc_footer|by apply FooterDecodeFrom_enc|].
  intros other Hl Hne. unfold FooterDecodeFrom. cbv zeta.
  assert (drop (kEncodedLength - 8) (enc_footer f) = le_split 8 kTableMagicNumber) as Em.
  { unfold enc_footer. apply drop_app_length'. by rewrite length_resize. }
  rewrite Em in Hne. rewrite drop_app_le by (rewrite Hl; unfold kEncodedLength; lia).
  set (m := drop (kEncodedLength - 8) other) in *.
  assert (length m = 8%nat) as Hm8 by (unfold m; rewrite length_drop, Hl; done).
  destruct (magic_of le m rest Hm8) as (lo & hi & -> & -> & ->).
  destruct (Z.eqb_spec (le_combine m) kTableMagicNumber) as [E|].
  { destruct Hne. rewrite <- E, <- Hm8. symmetry. apply split_le_combine. }
  cbn [negb]. eexists _, _. split; [done|]. by destruct le.
Qed.

(** ** Blocks with their trailer *)

(** A block as it is stored: the bytes, the type, and the masked checksum of both. *)
Definition block_crc (stored : list byte) (type : CompressionType) : Z :=
  crc32c 0 (stored ++ [byte_of (compression_val type)]).

Definition raw_block (stored : list byte) (type : CompressionType) : list byte :=
  stored ++ [byte_of (compression_val type)] ++ le_split 4 (Mask (block_crc stored type)).

Lemma length_raw_block stored type : length (raw_block stored type) = (length stored + kBlockTrailerSize)%nat.
Proof. unfold raw_block. rewrite !length_app, length_le_split. done. Qed.

(** What the stored bytes stand for. *)
Definition restores {snappy : Snappy} (stored : list byte) (type : CompressionType) (data : list byte) : Prop :=
  match type with
  | kNoCompression => stored = data
  | kSnappyCompression => Snappy_GetUncompressedLength stored = Some (Z.of_nat (length data)) /\ Snappy_Uncompress stored = Some data
  end.

Section ReadBlock.
Context {le : bool} {snappy : Snappy} {F : Type} {raf : RandomAccessFile F} {contents : F -> list byte}.
Context {Hraf : RandomAccessFileOk raf contents}.

Lemma ReadBlock_raw file options pre stored type post data :
  contents file = pre ++ raw_block stored type ++ post -> restores stored type data ->
  Z.of_nat (length stored) + 5 < 2 ^ 64 ->
  exists cachable heap, ReadBlock le file options (Handle (Z.of_nat (length pre)) (Z.of_nat (length stored))) =
    Some (OK, MkContents data cachable heap).
Proof.
  intros Ef Hd Hl. unfold ReadBlock. cbv zeta. cbn [bh_offset bh_size].
  assert (u64 (Z.of_nat (length stored) + Z.of_nat kBlockTrailerSize) = Z.of_nat (length (raw_block stored type))) as ->.
  { rewrite length_raw_block. unfold kBlockTrailerSize. rewrite u64_id; lia. }
  destruct (read_at_ok file (Z.of_nat (length pre)) (Z.of_nat (length (raw_block stored type)))) as [scratch E]; [lia|lia|].
  rewrite E. rewrite !Nat2Z.id, Ef, drop_app_length, take_app_length. cbn [ok negb]. rewrite Z.eqb_refl. cbn [negb].
  assert (take (length stored) (raw_block stored type) = stored) as -> by apply take_app_length.
  replace (Z.to_nat (Z.of_nat (length stored) + 1)) with (length (stored ++ [byte_of (compression_val type)])) by (rewrite length_app; simpl; lia).
  assert (raw_block stored type = (stored ++ [byte_of (compression_val type)]) ++ le_split 4 (Mask (block_crc stored type))) as Eraw
    by (unfold raw_block; by rewrite <- app_assoc).
  assert (drop (length (stored ++ [byte_of (compression_val type)])) (raw_block stored type) = le_split 4 (Mask (block_crc stored type)) ++ []) as ->
    by (rewrite Eraw, drop_app_length; by rewrite app_nil_r).
  assert (take (length (stored ++ [byte_of (compression_val type)])) (raw_block stored type) = stored ++ [byte_of (compression_val type)]) as ->
    by (rewrite Eraw; apply take_app_length).
  assert (word (block_crc stored type)) as Hw by by apply crc32c_word.
  destruct (Unmask_Mask _ Hw) as [Eun Hmask].
  rewrite DecodeFixed32_split by exact Hmask. unfold crc_Value. rewrite Extend_crc32c by done.
  rewrite Eun. fold (block_crc stored type). rewrite Z.eqb_refl.
  assert ((if verify_checksums options then Some true else Some true) = Some true) as -> by by destruct (verify_checksums options).
  assert (raw_block stored type !! length stored = Some (byte_of (compression_val type))) as -> by by apply list_lookup_middle.
  rewrite byte_val_of. destruct type; simpl in Hd |- *.
  - subst data. by eexists _, _.
  - destruct Hd as [-> ->]. rewrite Nat2Z.id, take_ge by done. by eexists _, _.
Qed.

(** On any file and any handle whose size is not next to the end of its range, [ReadBlock] stays inside the bytes
    that were read and returns a status. *)
Lemma ReadBlock_total file options handle :
  0 <= bh_offset handle -> 0 <= bh_size handle < 2 ^ 64 - 5 ->
  exists s c, ReadBlock le file options handle = Some (s, c).
Proof.
  intros Ho Hs. unfold ReadBlock. cbv zeta. unfold kBlockTrailerSize. rewrite u64_id by lia.
  destruct (read_at_ok file (bh_offset handle) (bh_size handle + Z.of_nat 5)) as [scratch E]; [lia|lia|]. rewrite E. cbn [ok negb].
  set (data := take _ _). destruct (Z.eqb_spec (Z.of_nat (length data)) (bh_size handle + Z.of_nat 5)) as [Hl|]; cbn [negb]; [|by eexists _, _].
  assert (exists b, (if verify_checksums options then
      match DecodeFixed32 le (drop (Z.to_nat (bh_size handle + 1)) data), crc_Value le 0 (take (Z.to_nat (bh_size handle + 1)) data) with
      | Some stored, Some actual => Some (actual =? Unmask stored) | _, _ => None end else Some true) = Some b) as [b ->].
  { destruct (verify_checksums options); [|by eexists].
    destruct (DecodeFixed32_inside le (drop (Z.to_nat (bh_size handle + 1)) data)) as (w & -> & _); [rewrite length_drop; lia|].
    unfold crc_Value. rewrite Extend_crc32c by done. by eexists. }
  destruct (lookup_lt_is_Some_2 data (Z.to_nat (bh_size handle))) as [t ->]; [lia|].
  destruct b; [|by eexists _, _]. repeat case_if; try (by eexists _, _).
  repeat case_match; by eexists _, _.
Qed.
End ReadBlock.
