(* ===== verification/Cache.v ===== *)
(** * The block cache: util/cache.cc

    The cache with its memory: the fields of the entries are maps from the
    addresses of entries, and a field that has not been written yet is not in its
    map.  [None] is a failed assertion, a read of memory that is not initialised,
    or an access to an entry that has been freed. *)
From S2P Require Import Prelude Comparator FilterBlock Interfaces.

(** What [next] and [prev] point to: the two dummy heads of a cache, and its entries. *)
Inductive node := LruHead | InUseHead | Ent (a : nat).

#[export] Instance node_eq_dec : EqDecision node.
Proof. solve_decision. Defined.

Definition node_code (n : node) : nat := match n with LruHead => 0 | InUseHead => 1 | Ent a => S (S a) end%nat.
Definition node_decode (c : nat) : option node := match c with O => Some LruHead | S O => Some InUseHead | S (S a) => Some (Ent a) end.

#[export] Instance node_countable : Countable node.
Proof. apply (inj_countable node_code node_decode). by intros []. Defined.

Section Cache.
Context {V : Type}.

(** The fields of [LRUHandle] that are not links; [key_data] with its [key_length]. *)
Record LRUHandle := MkHandle {
  value : V;
  key_data : list byte;
  charge : Z;
  in_cache : bool;
  refs : Z;
  hash : Z;
}.

(** The memory of a cache: entries by address, their links, the calls of deleters so far (the latest first), and the
    address that [malloc] gives next. *)
Record memory := Memory {
  entries : gmap nat LRUHandle;
  m_next_hash : gmap nat (option nat);
  m_next : gmap node node;
  m_prev : gmap node node;
  deleted : list (list byte * V);
  brk : nat;
}.

Definition set_entry (a : nat) (e : LRUHandle) (m : memory) : option memory :=
  match entries m !! a with
  | Some _ => Some (Memory (<[a := e]> (entries m)) (m_next_hash m) (m_next m) (m_prev m) (deleted m) (brk m))
  | None => None
  end.

Definition allocated (n : node) (m : memory) : bool :=
  match n with Ent a => match entries m !! a with Some _ => true | None => false end | _ => true end.

Definition set_next (n x : node) (m : memory) : option memory :=
  if allocated n m then Some (Memory (entries m) (m_next_hash m) (<[n := x]> (m_next m)) (m_prev m) (deleted m) (brk m)) else None.
Definition set_prev (n x : node) (m : memory) : option memory :=
  if allocated n m then Some (Memory (entries m) (m_next_hash m) (m_next m) (<[n := x]> (m_prev m)) (deleted m) (brk m)) else None.
Definition set_next_hash (a : nat) (x : option nat) (m : memory) : option memory :=
  if allocated (Ent a) m then Some (Memory (entries m) (<[a := x]> (m_next_hash m)) (m_next m) (m_prev m) (deleted m) (brk m)) else None.

Definition with_refs (r : Z) (e : LRUHandle) : LRUHandle := MkHandle (value e) (key_data e) (charge e) (in_cache e) r (hash e).
Definition with_in_cache (b : bool) (e : LRUHandle) : LRUHandle := MkHandle (value e) (key_data e) (charge e) b (refs e) (hash e).

(** [LRUHandle::key]; an entry that were its own successor would hold a pointer to its key. *)
Definition handle_key (a : nat) (m : memory) : option (list byte) :=
  e ← entries m !! a;
  n ← m_next m !! Ent a;
  if decide (n = Ent a) then None else Some (key_data e).

(** ** HandleTable *)

Record HandleTable := MkTable { length_ : Z; elems_ : Z; list_ : list (option nat) }.

(** What an [LRUHandle**] points to. *)
Inductive slot := Bucket (i : nat) | NextHash (a : nat).

Definition read_slot (s : slot) (t : HandleTable) (m : memory) : option (option nat) :=
  match s with
  | Bucket i => list_ t !! i
  | NextHash a => _ ← entries m !! a; m_next_hash m !! a
  end.

Definition write_slot (s : slot) (x : option nat) (t : HandleTable) (m : memory) : option (HandleTable * memory) :=
  match s with
  | Bucket i => match list_ t !! i with Some _ => Some (MkTable (length_ t) (elems_ t) (<[i := x]> (list_ t)), m) | None => None end
  | NextHash a => m ← set_next_hash a x m; Some (t, m)
  end.

Definition bucket_of (hash length : Z) : nat := Z.to_nat (Z.land hash (u32 (length - 1))).

(** The loop of [FindPointer]. *)
Fixpoint find_loop (fuel : nat) (s : slot) (key : list byte) (h : Z) (t : HandleTable) (m : memory) : option slot :=
  p ← read_slot s t m;
  match p with
  | None => Some s
  | Some a =>
      e ← entries m !! a;
      differs ← (if negb (hash e =? h) then Some true else k ← handle_key a m; Some (negb (slice_eqb key k)));
      if (differs : bool) then
        match fuel with O => None | S fuel' => find_loop fuel' (NextHash a) key h t m end
      else Some s
  end.

(** A chain has no more entries than there are. *)
Definition FindPointer (key : list byte) (h : Z) (t : HandleTable) (m : memory) : option slot :=
  find_loop (size (entries m)) (Bucket (bucket_of h (length_ t))) key h t m.

Definition HT_Lookup (key : list byte) (h : Z) (t : HandleTable) (m : memory) : option (option nat) :=
  s ← FindPointer key h t m; read_slot s t m.

(** [while (new_length < elems_) new_length *= 2] *)
Fixpoint new_length_loop (fuel : nat) (elems new_length : Z) : option Z :=
  if new_length <? elems then
    match fuel with O => None | S fuel' => new_length_loop fuel' elems (u32 (new_length * 2)) end
  else Some new_length.

(** The entries of a chain go to the fronts of their new chains. *)
Fixpoint move_chain (fuel : nat) (h : option nat) (new_length count : Z) (new_list : list (option nat)) (m : memory)
  : option (list (option nat) * Z * memory) :=
  match h with
  | None => Some (new_list, count, m)
  | Some a =>
      match fuel with
      | O => None
      | S fuel' =>
          next ← m_next_hash m !! a;
          e ← entries m !! a;
          let i := bucket_of (hash e) new_length in
          old ← new_list !! i;
          m ← set_next_hash a old m;
          move_chain fuel' next new_length (u32 (count + 1)) (<[i := Some a]> new_list) m
      end
  end.

Fixpoint move_chains (hs : list (option nat)) (new_length count : Z) (new_list : list (option nat)) (m : memory)
  : option (list (option nat) * Z * memory) :=
  match hs with
  | [] => Some (new_list, count, m)
  | h :: hs' =>
      '(new_list, count, m) ← move_chain (size (entries m)) h new_length count new_list m;
      move_chains hs' new_length count new_list m
  end.

Definition Resize (t : HandleTable) (m : memory) : option (HandleTable * memory) :=
  new_length ← new_length_loop 32 (elems_ t) 4;
  '(new_list, count, m) ← move_chains (list_ t) new_length 0 (replicate (Z.to_nat new_length) None) m;
  if elems_ t =? count then Some (MkTable new_length (elems_ t) new_list, m) else None.

(** The table and the entry that was replaced. *)
Definition HT_Insert (a : nat) (t : HandleTable) (m : memory) : option (option nat * HandleTable * memory) :=
  k ← handle_key a m;
  e ← entries m !! a;
  ptr ← FindPointer k (hash e) t m;
  old ← read_slot ptr t m;
  next ← (match old with None => Some None | Some o => _ ← entries m !! o; m_next_hash m !! o end);
  m ← set_next_hash a next m;
  '(t, m) ← write_slot ptr (Some a) t m;
  match old with
  | Some _ => Some (old, t, m)
  | None =>
      let t := MkTable (length_ t) (u32 (elems_ t + 1)) (list_ t) in
      if length_ t <? elems_ t then '(t, m) ← Resize t m; Some (old, t, m) else Some (old, t, m)
  end.

Definition HT_Remove (key : list byte) (h : Z) (t : HandleTable) (m : memory) : option (option nat * HandleTable * memory) :=
  ptr ← FindPointer key h t m;
  result ← read_slot ptr t m;
  match result with
  | None => Some (None, t, m)
  | Some a =>
      next ← m_next_hash m !! a;
      '(t, m) ← write_slot ptr next t m;
      Some (Some a, MkTable (length_ t) (u32 (elems_ t - 1)) (list_ t), m)
  end.

Definition new_HandleTable (m : memory) : option (HandleTable * memory) := Resize (MkTable 0 0 []) m.

(** ** LRUCache *)

Record LRUCache := MkCache { capacity_ : Z; usage_ : Z; table_ : HandleTable; mem : memory }.

Definition empty_memory : memory :=
  Memory ∅ ∅ (<[LruHead := LruHead]> {[InUseHead := InUseHead]}) (<[LruHead := LruHead]> {[InUseHead := InUseHead]}) [] 0.

Definition new_LRUCache (capacity : Z) : option LRUCache :=
  '(t, m) ← new_HandleTable empty_memory; Some (MkCache capacity 0 t m).

(** [e->next->prev = e->prev; e->prev->next = e->next] *)
Definition LRU_Remove (e : node) (m : memory) : option memory :=
  n ← m_next m !! e;
  p ← m_prev m !! e;
  m ← set_prev n p m;
  p ← m_prev m !! e;
  n ← m_next m !! e;
  set_next p n m.

Definition LRU_Append (list e : node) (m : memory) : option memory :=
  m ← set_next e list m;
  p ← m_prev m !! list;
  m ← set_prev e p m;
  p ← m_prev m !! e;
  m ← set_next p e m;
  n ← m_next m !! e;
  set_prev n e m.

Definition Ref (a : nat) (m : memory) : option memory :=
  e ← entries m !! a;
  m ← (if (refs e =? 1) && in_cache e then m ← LRU_Remove (Ent a) m; LRU_Append InUseHead (Ent a) m else Some m);
  set_entry a (with_refs (u32 (refs e + 1)) e) m.

(** The deleter is called with [e->key()] and [e->value]; [free(e)]. *)
Definition free_entry (a : nat) (m : memory) : option memory :=
  k ← handle_key a m;
  e ← entries m !! a;
  Some (Memory (delete a (entries m)) (delete a (m_next_hash m)) (delete (Ent a) (m_next m)) (delete (Ent a) (m_prev m))
    ((k, value e) :: deleted m) (brk m)).

Definition Unref (a : nat) (m : memory) : option memory :=
  e ← entries m !! a;
  if refs e <=? 0 then None
  else
    let e := with_refs (u32 (refs e - 1)) e in
    m ← set_entry a e m;
    if refs e =? 0 then (if in_cache e then None else free_entry a m)
    else if in_cache e && (refs e =? 1) then m ← LRU_Remove (Ent a) m; LRU_Append LruHead (Ent a) m
    else Some m.

Definition with_mem (m : memory) (c : LRUCache) : LRUCache := MkCache (capacity_ c) (usage_ c) (table_ c) m.

(** Whether there was an entry, and the cache. *)
Definition FinishErase (e : option nat) (c : LRUCache) : option (bool * LRUCache) :=
  match e with
  | None => Some (false, c)
  | Some a =>
      h ← entries (mem c) !! a;
      if negb (in_cache h) then None
      else
        m ← LRU_Remove (Ent a) (mem c);
        m ← set_entry a (with_in_cache false h) m;
        let usage := u64 (usage_ c - charge h) in
        m ← Unref a m;
        Some (true, MkCache (capacity_ c) usage (table_ c) m)
  end.

Definition lru_Lookup (key : list byte) (h : Z) (c : LRUCache) : option (option nat * LRUCache) :=
  e ← HT_Lookup key h (table_ c) (mem c);
  match e with
  | Some a => m ← Ref a (mem c); Some (e, with_mem m c)
  | None => Some (e, c)
  end.

Definition lru_Release (a : nat) (c : LRUCache) : option LRUCache :=
  m ← Unref a (mem c); Some (with_mem m c).

(** The entry that has been used least recently is removed from the cache; the assertions [refs == 1] and [erased]. *)
Definition evict (a : nat) (c : LRUCache) : option LRUCache :=
  h ← entries (mem c) !! a;
  if negb (refs h =? 1) then None
  else
    k ← handle_key a (mem c);
    '(e, t, m) ← HT_Remove k (hash h) (table_ c) (mem c);
    '(erased, c) ← FinishErase e (MkCache (capacity_ c) (usage_ c) t m);
    if (erased : bool) then Some c else None.

(** [while (more && lru_.next != &lru_)] *)
Fixpoint evict_loop (fuel : nat) (more : LRUCache -> bool) (c : LRUCache) : option LRUCache :=
  if more c then
    n ← m_next (mem c) !! LruHead;
    match n with
    | LruHead => Some c
    | Ent a => match fuel with O => None | S fuel' => c ← evict a c; evict_loop fuel' more c end
    | InUseHead => None
    end
  else Some c.

(** [malloc] with the fields that are set before the links. *)
Definition new_entry (e : LRUHandle) (m : memory) : nat * memory :=
  (brk m, Memory (<[brk m := e]> (entries m)) (m_next_hash m) (m_next m) (m_prev m) (deleted m) (S (brk m))).

Definition lru_Insert (key : list byte) (h : Z) (v : V) (charge : Z) (c : LRUCache) : option (nat * LRUCache) :=
  let '(a, m) := new_entry (MkHandle v key charge false 1 h) (mem c) in
  c ← (if 0 <? capacity_ c then
         e ← entries m !! a;
         m ← set_entry a (with_in_cache true (with_refs (u32 (refs e + 1)) e)) m;
         m ← LRU_Append InUseHead (Ent a) m;
         let usage := u64 (usage_ c + charge) in
         '(old, t, m) ← HT_Insert a (table_ c) m;
         '(_, c) ← FinishErase old (MkCache (capacity_ c) usage t m);
         Some c
       else Some (with_mem m c));
  c ← evict_loop (size (entries (mem c))) (fun c => capacity_ c <? usage_ c) c;
  Some (a, c).

Definition lru_Erase (key : list byte) (h : Z) (c : LRUCache) : option LRUCache :=
  '(e, t, m) ← HT_Remove key h (table_ c) (mem c);
  '(_, c) ← FinishErase e (MkCache (capacity_ c) (usage_ c) t m);
  Some c.

Definition lru_Prune (c : LRUCache) : option LRUCache := evict_loop (size (entries (mem c))) (fun _ => true) c.

(** The loop of the destructor; [n] is the [next] that was read from the last entry. *)
Fixpoint destroy_loop (fuel : nat) (n : node) (m : memory) : option memory :=
  match n with
  | LruHead => Some m
  | InUseHead => None
  | Ent a =>
      match fuel with
      | O => None
      | S fuel' =>
          next ← m_next m !! Ent a;
          e ← entries m !! a;
          if negb (in_cache e) then None
          else
            m ← set_entry a (with_in_cache false e) m;
            if negb (refs e =? 1) then None else m ← Unref a m; destroy_loop fuel' next m
      end
  end.

(** [~LRUCache]; the assertion that no handle is out. *)
Definition destroy_LRUCache (c : LRUCache) : option memory :=
  u ← m_next (mem c) !! InUseHead;
  if decide (u = InUseHead) then n ← m_next (mem c) !! LruHead; destroy_loop (size (entries (mem c))) n (mem c) else None.

(** ** ShardedLRUCache *)

Definition kNumShardBits : Z := 4.
Definition kNumShards : nat := 16.

Record ShardedLRUCache := MkSharded { shard_ : list LRUCache; last_id_ : Z }.

Context (kLittleEndian : bool).

Definition HashSlice (s : list byte) : Z := Hash kLittleEndian s 0.
Definition Shard (hash : Z) : nat := Z.to_nat (Z.shiftr hash (32 - kNumShardBits)).

Definition NewLRUCache (capacity : Z) : option ShardedLRUCache :=
  let per_shard := u64 (capacity + (Z.of_nat kNumShards - 1)) / Z.of_nat kNumShards in
  c ← new_LRUCache per_shard;
  Some (MkSharded (replicate kNumShards c) 0).

Definition on_shard {R} (i : nat) (f : LRUCache -> option (R * LRUCache)) (s : ShardedLRUCache) : option (R * ShardedLRUCache) :=
  c ← shard_ s !! i;
  '(r, c) ← f c;
  Some (r, MkSharded (<[i := c]> (shard_ s)) (last_id_ s)).

(** The address of an entry: the shard that has allocated it, and its address there. *)
Definition Handle_t : Type := nat * nat.

Definition handle_entry (s : ShardedLRUCache) (h : Handle_t) : option LRUHandle := c ← shard_ s !! h.1; entries (mem c) !! h.2.

Definition sharded_Insert (key : list byte) (v : V) (charge : Z) (s : ShardedLRUCache) : option (Handle_t * ShardedLRUCache) :=
  let hash := HashSlice key in
  '(a, s) ← on_shard (Shard hash) (lru_Insert key hash v charge) s;
  Some ((Shard hash, a), s).

Definition sharded_Lookup (key : list byte) (s : ShardedLRUCache) : option (option Handle_t * ShardedLRUCache) :=
  let hash := HashSlice key in
  '(r, s) ← on_shard (Shard hash) (lru_Lookup key hash) s;
  Some (match r with Some a => Some (Shard hash, a) | None => None end, s).

Definition sharded_Release (h : Handle_t) (s : ShardedLRUCache) : option ShardedLRUCache :=
  e ← handle_entry s h;
  if decide (Shard (hash e) = h.1) then
    '(_, s) ← on_shard (Shard (hash e)) (fun c => c ← lru_Release h.2 c; Some (tt, c)) s; Some s
  else None.

Definition sharded_Value (s : ShardedLRUCache) (h : Handle_t) : option V := e ← handle_entry s h; Some (value e).

Definition sharded_Erase (key : list byte) (s : ShardedLRUCache) : option ShardedLRUCache :=
  let hash := HashSlice key in
  '(_, s) ← on_shard (Shard hash) (fun c => c ← lru_Erase key hash c; Some (tt, c)) s; Some s.

Definition sharded_NewId (s : ShardedLRUCache) : Z * ShardedLRUCache :=
  let id := u64 (last_id_ s + 1) in (id, MkSharded (shard_ s) id).

Fixpoint prune_shards (cs : list LRUCache) : option (list LRUCache) :=
  match cs with [] => Some [] | c :: cs' => c ← lru_Prune c; cs' ← prune_shards cs'; Some (c :: cs') end.

Definition sharded_Prune (s : ShardedLRUCache) : option ShardedLRUCache :=
  cs ← prune_shards (shard_ s); Some (MkSharded cs (last_id_ s)).

(** [~ShardedLRUCache]: the shards are destroyed. *)
Fixpoint destroy_shards (cs : list LRUCache) : option (list memory) :=
  match cs with [] => Some [] | c :: cs' => m ← destroy_LRUCache c; ms ← destroy_shards cs'; Some (m :: ms) end.

Fixpoint total_charge (cs : list LRUCache) (total : Z) : Z :=
  match cs with [] => total | c :: cs' => total_charge cs' (u64 (total + usage_ c)) end.

Definition sharded_TotalCharge (s : ShardedLRUCache) : Z := total_charge (shard_ s) 0.

#[export] Instance ShardedLRUCache_cache : Cache ShardedLRUCache Handle_t V := {
  CacheInsert := sharded_Insert;
  CacheLookup := sharded_Lookup;
  CacheRelease := sharded_Release;
  CacheValue := sharded_Value;
  CacheErase := sharded_Erase;
  CacheNewId := sharded_NewId;
  CachePrune := sharded_Prune;
  CacheTotalCharge := sharded_TotalCharge;
}.
End Cache.
