(* ===== verification/CacheProps.v ===== *)
(** * One shard of the cache keeps its contract *)
From S2P Require Import Prelude Comparator FilterBlock Interfaces Cache.

(** ** The hash table of the cache

    The chains of the table as lists of entries, and its operations on the set of
    entries it has. *)

(** ** The linked lists of the cache

    The circular doubly linked lists as the lists of their entries, and what the
    list operations do to them. *)

(** ** Segments *)

(** Going from [x] over the entries [l] to [y], by [next] and back by [prev]. *)
Fixpoint seg (nx pv : gmap node node) (x : node) (l : list nat) (y : node) : Prop :=
  match l with
  | [] => nx !! x = Some y /\ pv !! y = Some x
  | a :: l' => nx !! x = Some (Ent a) /\ pv !! Ent a = Some x /\ seg nx pv (Ent a) l' y
  end.

Definition last_node (x : node) (l : list nat) : node := match last l with Some a => Ent a | None => x end.
Definition first_node (l : list nat) (y : node) : node := match l with a :: _ => Ent a | [] => y end.

Definition on_nodes (l : list nat) (n : node) : Prop := exists a, In a l /\ n = Ent a.

Lemma last_node_cons x a l : last_node x (a :: l) = last_node (Ent a) l.
Proof. unfold last_node. rewrite last_cons. by destruct (last l). Qed.

Lemma seg_app nx pv x l1 a l2 y : seg nx pv x (l1 ++ a :: l2) y <-> seg nx pv x l1 (Ent a) /\ seg nx pv (Ent a) l2 y.
Proof. revert x. induction l1 as [|b l1 IH]; intros x; simpl; [tauto|]. rewrite IH. tauto. Qed.

Lemma seg_frame nx pv nx' pv' x l y :
  (forall n, n = x \/ on_nodes l n -> nx' !! n = nx !! n) -> (forall n, n = y \/ on_nodes l n -> pv' !! n = pv !! n) ->
  seg nx pv x l y -> seg nx' pv' x l y.
Proof.
  revert x. induction l as [|a l IH]; intros x Hn Hp; simpl.
  - intros [? ?]. rewrite Hn, Hp by auto. done.
  - intros (? & ? & Hs). rewrite Hn by auto. rewrite Hp by (right; exists a; split; [by left|done]). split; [done|]. split; [done|].
    apply IH; [| |done].
    + intros n [->|(b & ? & ->)]; apply Hn; right; [exists a|exists b]; (split; [|done]); [by left|by right].
    + intros n [->|(b & ? & ->)]; apply Hp; [by left|]. right. exists b. split; [by right|done].
Qed.

Lemma seg_next nx pv x l y : seg nx pv x l y -> nx !! x = Some (first_node l y).
Proof. destruct l; simpl; tauto. Qed.

Lemma seg_prev nx pv x l y : seg nx pv x l y -> pv !! y = Some (last_node x l).
Proof. revert x. induction l as [|a l IH]; intros x; simpl; [tauto|]. intros (_ & _ & Hs). rewrite last_node_cons. by apply IH. Qed.

Lemma last_node_in x l : last_node x l = x \/ on_nodes l (last_node x l).
Proof.
  unfold last_node. destruct (last l) as [a|] eqn:E; [right|by left]. exists a. split; [|done].
  rewrite last_lookup in E. by eapply list_elem_of_In, list_elem_of_lookup_2.
Qed.

(** The end of a segment is bent to another node. *)
Lemma seg_relink nx pv x l y y' : NoDup l -> ~ on_nodes l x -> ~ on_nodes l y' -> seg nx pv x l y ->
  seg (<[last_node x l := y']> nx) (<[y' := last_node x l]> pv) x l y'.
Proof.
  revert x. induction l as [|a l IH]; intros x Hnd Hx Hy; simpl.
  - unfold last_node. simpl. rewrite !lookup_insert_eq. done.
  - intros (H1 & H2 & Hs). apply NoDup_cons in Hnd as [Ha Hnd]. rewrite last_node_cons.
    assert (~ on_nodes l (Ent a)) as Hea by (intros (b & Hb & [= <-]); by apply Ha, list_elem_of_In).
    rewrite lookup_insert_ne, lookup_insert_ne.
    + split; [done|]. split; [done|]. apply IH; [done|done| |done]. intros (b & Hb & ->). apply Hy. exists b. split; [by right|done].
    + intros ->. apply Hy. exists a. split; [by left|done].
    + intros E. apply Hx. destruct (last_node_in (Ent a) l) as [E'|(b & Hb & E')].
      * exists a. split; [by left|]. by rewrite <- E, E'.
      * exists b. split; [by right|]. by rewrite <- E, E'.
Qed.

(** ** Removing and appending *)

Section Links.
Context {V : Type}.
Implicit Types m : memory (V := V).

Definition ring m (h : node) (l : list nat) : Prop := seg (m_next m) (m_prev m) h l h.

(** Only links have changed. *)
Record links_only m m' : Prop := {
  lo_entries : entries m' = entries m;
  lo_next_hash : m_next_hash m' = m_next_hash m;
  lo_deleted : deleted m' = deleted m;
  lo_brk : brk m' = brk m;
}.

(** The links of the nodes outside a ring are the same. *)
Definition links_outside (h : node) (l : list nat) m m' : Prop :=
  forall n, n <> h -> ~ on_nodes l n -> m_next m' !! n = m_next m !! n /\ m_prev m' !! n = m_prev m !! n.

Definition next_ok m (a : nat) : Prop := exists n, m_next m !! Ent a = Some n /\ n <> Ent a.

Lemma set_prev_spec n x m : allocated n m = true ->
  set_prev n x m = Some (Memory (entries m) (m_next_hash m) (m_next m) (<[n := x]> (m_prev m)) (deleted m) (brk m)).
Proof. unfold set_prev. by intros ->. Qed.

Lemma set_next_link n x m : allocated n m = true ->
  set_next n x m = Some (Memory (entries m) (m_next_hash m) (<[n := x]> (m_next m)) (m_prev m) (deleted m) (brk m)).
Proof. unfold set_next. by intros ->. Qed.

Definition all_allocated (l : list nat) m : Prop := forall a, In a l -> is_Some (entries m !! a).

Lemma allocated_ent a m : is_Some (entries m !! a) -> allocated (Ent a) m = true.
Proof. intros [e E]. simpl. by rewrite E. Qed.

Lemma allocated_last h l m : allocated h m = true -> all_allocated l m -> allocated (last_node h l) m = true.
Proof. intros Hh Hl. destruct (last_node_in h l) as [->|(a & Ha & ->)]; [done|]. by apply allocated_ent, Hl. Qed.

Lemma allocated_first h l m : allocated h m = true -> all_allocated l m -> allocated (first_node l h) m = true.
Proof. intros Hh Hl. destruct l as [|a l]; [done|]. apply allocated_ent, Hl. by left. Qed.

Definition is_head (h : node) : Prop := h = LruHead \/ h = InUseHead.

Lemma head_not_entry h l : is_head h -> ~ on_nodes l h.
Proof. by intros [->| ->] (a & _ & ?). Qed.

Lemma LRU_Remove_spec h l1 a l2 m : is_head h -> NoDup (l1 ++ a :: l2) -> all_allocated (l1 ++ a :: l2) m -> ring m h (l1 ++ a :: l2) ->
  exists m', LRU_Remove (Ent a) m = Some m' /\ ring m' h (l1 ++ l2) /\ links_only m m' /\ links_outside h (l1 ++ l2) m m' /\
    forall b, next_ok m b -> next_ok m' b.
Proof.
  intros Hh Hnd Hal Hr. apply seg_app in Hr as [Hs1 Hs2].
  apply NoDup_app in Hnd as (Hnd1 & Hdis & Hnd2). apply NoDup_cons in Hnd2 as [Ha2 Hnd2].
  assert (~ In a l1) as Ha1 by (intros Hin; apply (Hdis a); [by apply list_elem_of_In|by left]).
  assert (forall b, In b l1 -> ~ In b l2) as Hdis' by (intros b Hb1 Hb2; apply (Hdis b); [by apply list_elem_of_In|right; by apply list_elem_of_In]).
  assert (allocated h m = true) as Hha by (by destruct Hh as [->| ->]).
  assert (all_allocated l1 m /\ all_allocated l2 m) as [Hal1 Hal2].
  { split; intros b Hb; apply Hal, in_app_iff; [by left|right; by right]. }
  set (p := last_node h l1). set (n := first_node l2 h).
  pose proof (seg_prev _ _ _ _ _ Hs1) as Ep. pose proof (seg_next _ _ _ _ _ Hs2) as En. fold p in Ep. fold n in En.
  assert (n <> Ent a) as Hna.
  { unfold n. destruct l2 as [|b l2]; simpl; [by destruct Hh as [->| ->]|]. intros [= ->]. apply Ha2. by left. }
  unfold LRU_Remove. rewrite En, Ep. cbn [mbind option_bind]. rewrite set_prev_spec by by apply allocated_first. cbn [mbind option_bind m_prev m_next].
  rewrite lookup_insert_ne by done. rewrite Ep, En. cbn [mbind option_bind].
  rewrite set_next_link by (apply (allocated_last h l1); [done|done]). cbn [entries m_next_hash m_next m_prev deleted brk].
  eexists. split; [done|]. split; [|split; [done|split]].
  - unfold ring. cbn [m_next m_prev]. assert (~ on_nodes l1 n) as Hn1.
    { unfold n. destruct l2 as [|b l2]; simpl; [by apply head_not_entry|]. intros (c & Hc & [= <-]). apply (Hdis' b Hc). by left. }
    pose proof (seg_relink _ _ _ _ _ n Hnd1 (head_not_entry h l1 Hh) Hn1 Hs1) as Hs. fold p in Hs.
    destruct l2 as [|b l2]; simpl in n, Hs2; [by rewrite app_nil_r|]. apply seg_app. split; [exact Hs|].
    destruct Hs2 as (_ & _ & Hs2). apply NoDup_cons in Hnd2 as [Hb2 _]. eapply seg_frame; [| |exact Hs2].
    + intros x Hx. apply lookup_insert_ne. intros <-. unfold p in Hx. destruct (last_node_in h l1) as [E|(d & Hd & E)]; rewrite E in Hx.
      * destruct Hx as [E'|Hx]; [by destruct Hh as [->| ->]|]. by apply (head_not_entry h l2).
      * destruct Hx as [[= ->]|(d' & Hd' & [= <-])]; [by apply (Hdis' b Hd); left|by apply (Hdis' d Hd); right].
    + intros x Hx. apply lookup_insert_ne. intros <-. destruct Hx as [E'|(d' & Hd' & [= <-])]; [by destruct Hh as [->| ->]|].
      by apply Hb2, list_elem_of_In.
  - intros x Hx Hxl. cbn [m_next m_prev]. rewrite !lookup_insert_ne; [done| |].
    + intros <-. unfold n in *. destruct l2 as [|b l2]; simpl in *; [done|]. apply Hxl. exists b. split; [|done]. apply in_app_iff. right. by left.
    + intros <-. unfold p in *. destruct (last_node_in h l1) as [E|(d & Hd & E)]; [by rewrite E in Hx|]. apply Hxl. exists d. split; [apply in_app_iff; by left|done].
  - intros b (x & Ex & Hx). unfold next_ok. cbn [m_next]. destruct (decide (p = Ent b)) as [E|E].
    + exists n. rewrite E, lookup_insert_eq. split; [done|]. intros En'. unfold p in E. destruct (last_node_in h l1) as [E'|(d & Hd & E')].
      * rewrite E in E'. by destruct Hh as [->| ->].
      * rewrite E in E'. injection E' as ->. unfold n in En'. destruct l2 as [|c l2]; simpl in En'; [by destruct Hh as [->| ->]|].
        injection En' as ->. apply (Hdis' d Hd). by left.
    + exists x. by rewrite lookup_insert_ne.
Qed.

Lemma LRU_Append_spec h l a m : is_head h -> NoDup l -> ~ In a l -> all_allocated (l ++ [a]) m -> ring m h l ->
  exists m', LRU_Append h (Ent a) m = Some m' /\ ring m' h (l ++ [a]) /\ links_only m m' /\ links_outside h (l ++ [a]) m m' /\
    next_ok m' a /\ forall b, next_ok m b -> next_ok m' b.
Proof.
  intros Hh Hnd Ha Hal Hr. assert (allocated h m = true) as Hha by (by destruct Hh as [->| ->]).
  assert (is_Some (entries m !! a)) as Haa by (apply Hal, in_app_iff; right; by left).
  assert (all_allocated l m) as Hall by (intros b Hb; apply Hal, in_app_iff; by left).
  set (p := last_node h l). pose proof (seg_prev _ _ _ _ _ Hr) as Ep. fold p in Ep.
  assert (p <> Ent a) as Hpa.
  { unfold p. destruct (last_node_in h l) as [->|(d & Hd & ->)]; [by destruct Hh as [->| ->]|]. by intros [= ->]. }
  assert (h <> Ent a) as Hha' by (by destruct Hh as [->| ->]).
  unfold LRU_Append. rewrite set_next_link by by apply allocated_ent. cbn [mbind option_bind m_prev m_next]. rewrite Ep. cbn [mbind option_bind].
  rewrite set_prev_spec by by apply allocated_ent. cbn [mbind option_bind m_prev m_next entries]. rewrite lookup_insert_eq. cbn [mbind option_bind].
  rewrite set_next_link by (apply (allocated_last h l); [done|done]). cbn [mbind option_bind m_prev m_next entries].
  rewrite lookup_insert_ne, lookup_insert_eq by done. cbn [mbind option_bind]. rewrite set_prev_spec by done.
  cbn [entries m_next_hash m_next m_prev deleted brk]. eexists. split; [done|]. split; [|split; [done|split; [|split]]].
  - unfold ring. cbn [m_next m_prev]. apply seg_app. split.
    + assert (~ on_nodes l (Ent a)) as Hal' by (by intros (d & Hd & [= ->])).
      pose proof (seg_relink _ _ _ _ _ (Ent a) Hnd (head_not_entry h l Hh) Hal' Hr) as Hs. fold p in Hs. eapply seg_frame; [| |exact Hs].
      * intros x Hx. destruct (decide (x = p)) as [->|]; [by rewrite !lookup_insert_eq|]. rewrite !lookup_insert_ne; [done|by intros <-| |by intros <-].
        intros <-. destruct Hx as [?|?]; [by apply Hha'|done].
      * intros x Hx. rewrite (lookup_insert_ne _ h); [|intros <-; destruct Hx as [?|?]; [by apply Hha'|by apply (head_not_entry h l)]].
        destruct (decide (x = Ent a)) as [->|]; [by rewrite !lookup_insert_eq|]. by rewrite !lookup_insert_ne.
    + simpl. rewrite lookup_insert_ne, !lookup_insert_eq by done. done.
  - intros x Hx Hxl. cbn [m_next m_prev].
    assert (x <> Ent a) as Hxa by (intros ->; apply Hxl; exists a; split; [apply in_app_iff; right; by left|done]).
    assert (x <> p) as Hxp.
    { intros ->. unfold p in *. destruct (last_node_in h l) as [E|(d & Hd & E)]; [by rewrite E in Hx|]. apply Hxl. exists d. split; [apply in_app_iff; by left|done]. }
    by rewrite !lookup_insert_ne by done.
  - exists h. cbn [m_next]. by rewrite lookup_insert_ne, lookup_insert_eq.
  - intros b (x & Ex & Hx). unfold next_ok. cbn [m_next]. destruct (decide (p = Ent b)) as [E|E].
    + exists (Ent a). rewrite E, lookup_insert_eq. split; [done|]. intros [= ->]. by rewrite E in Hpa.
    + rewrite lookup_insert_ne by done. destruct (decide (b = a)) as [->|]; [exists h; by rewrite lookup_insert_eq|].
      exists x. rewrite lookup_insert_ne by congruence. done.
Qed.

(** ** The two lists of a cache *)

Record rings m (L U : list nat) : Prop := {
  rg_lru : ring m LruHead L;
  rg_use : ring m InUseHead U;
  rg_nodup : NoDup (L ++ U);
  rg_alloc : all_allocated (L ++ U) m;
}.

Lemma ring_outside h l h' l' m m' : is_head h -> is_head h' -> h <> h' -> (forall a, In a l -> ~ In a l') -> links_outside h l m m' ->
  ring m h' l' -> ring m' h' l'.
Proof.
  intros Hh Hh' Hne Hdis Ho Hr.
  assert (forall n, n = h' \/ on_nodes l' n -> n <> h /\ ~ on_nodes l n) as Hn.
  { intros n [->|(b & Hb & ->)].
    - split; [done|]. by apply head_not_entry.
    - split; [by destruct Hh as [->| ->]|]. intros (c & Hc & [= ->]). by apply (Hdis c). }
  eapply seg_frame; [| |exact Hr]; intros n Hin; destruct (Hn n Hin); by apply Ho.
Qed.

Lemma links_allocated l m m' : links_only m m' -> all_allocated l m -> all_allocated l m'.
Proof. intros Hl Ha a Hin. rewrite (lo_entries _ _ Hl). by apply Ha. Qed.

Lemma nodup_disjoint (L U : list nat) a : NoDup (L ++ U) -> In a L -> ~ In a U.
Proof. intros (_ & Hd & _)%NoDup_app HL HU. apply (Hd a); by apply list_elem_of_In. Qed.

(** An entry leaves its list. *)
Lemma rings_remove m L U a : rings m L U -> In a (L ++ U) ->
  exists m' L' U', LRU_Remove (Ent a) m = Some m' /\ rings m' L' U' /\ links_only m m' /\ (forall b, next_ok m b -> next_ok m' b) /\
    L ++ U ≡ₚ a :: (L' ++ U') /\ (forall b, In b L' -> In b L) /\ (forall b, In b U' -> In b U) /\ (forall l, L = a :: l -> L' = l /\ U' = U).
Proof.
  intros [HL HU Hnd Hal] Hin. pose proof Hnd as (HndL & Hdis & HndU)%NoDup_app.
  assert (all_allocated L m /\ all_allocated U m) as [HaL HaU] by (split; intros b Hb; apply Hal, in_app_iff; auto).
  apply in_app_iff in Hin as [Hin|Hin]; apply list_elem_of_In in Hin.
  - assert (exists l1 l2, L = l1 ++ a :: l2) as (l1 & l2 & ->) by (by apply list_elem_of_split).
    destruct (LRU_Remove_spec LruHead l1 a l2 m (or_introl eq_refl) HndL HaL HL) as (m' & E & HL' & Hlo & Hout & Hn).
    exists m', (l1 ++ l2), U. split; [done|]. assert ((l1 ++ a :: l2) ++ U ≡ₚ a :: ((l1 ++ l2) ++ U)) as Hp.
    { by rewrite <- !app_assoc, (Permutation_middle l1). }
    split; [|split; [done|split; [done|split; [done|split; [|split; [done|]]]]]].
    + rewrite Hp in Hnd. apply NoDup_cons in Hnd as [_ Hnd]. split; [done| |done|].
      * eapply (ring_outside LruHead (l1 ++ l2)); [by left|by right|done| |exact Hout|exact HU].
        intros b Hb Hb'. by apply (nodup_disjoint _ _ b Hnd).
      * eapply links_allocated; [done|]. intros b Hb. apply Hal. rewrite Hp. by right.
    + intros b [Hb|Hb]%in_app_iff; apply in_app_iff; [by left|by right; right].
    + intros l E'. destruct l1 as [|c l1]; simpl in *; injection E' as; [by subst|]. subst c. exfalso.
      apply NoDup_cons in HndL as [Hc _]. apply Hc, elem_of_app. right. by left.
  - assert (exists l1 l2, U = l1 ++ a :: l2) as (l1 & l2 & ->) by (by apply list_elem_of_split).
    destruct (LRU_Remove_spec InUseHead l1 a l2 m (or_intror eq_refl) HndU HaU HU) as (m' & E & HU' & Hlo & Hout & Hn).
    exists m', L, (l1 ++ l2). split; [done|]. assert (L ++ l1 ++ a :: l2 ≡ₚ a :: (L ++ l1 ++ l2)) as Hp by (rewrite !app_assoc; symmetry; apply Permutation_middle).
    split; [|split; [done|split; [done|split; [done|split; [done|split]]]]].
    + rewrite Hp in Hnd. apply NoDup_cons in Hnd as [_ Hnd]. split; [|done|done|].
      * eapply (ring_outside InUseHead (l1 ++ l2)); [by right|by left|done| |exact Hout|exact HL].
        intros b Hb Hb'. by apply (nodup_disjoint _ _ b Hnd).
      * eapply links_allocated; [done|]. intros b Hb. apply Hal. rewrite Hp. by right.
    + intros b [Hb|Hb]%in_app_iff; apply in_app_iff; [by left|by right; right].
    + intros l ->. exfalso. apply (Hdis a); [by left|apply elem_of_app; right; by left].
Qed.

(** An entry that is in no list becomes the newest of one. *)
Lemma rings_append_use m L U a : rings m L U -> ~ In a (L ++ U) -> is_Some (entries m !! a) ->
  exists m', LRU_Append InUseHead (Ent a) m = Some m' /\ rings m' L (U ++ [a]) /\ links_only m m' /\ next_ok m' a /\
    forall b, next_ok m b -> next_ok m' b.
Proof.
  intros [HL HU Hnd Hal] Hin Ha. pose proof Hnd as (HndL & Hdis & HndU)%NoDup_app.
  destruct (LRU_Append_spec InUseHead U a m (or_intror eq_refl) HndU) as (m' & E & HU' & Hlo & Hout & Hna & Hn); [| |done|].
  { intros H. apply Hin, in_app_iff. by right. }
  { intros b [Hb|[<-|[]]]%in_app_iff; [apply Hal, in_app_iff; by right|done]. }
  assert (NoDup (L ++ U ++ [a])) as Hnd'.
  { rewrite app_assoc. apply NoDup_app. split; [done|]. split; [|by apply NoDup_singleton].
    intros b Hb ->%list_elem_of_singleton. by apply Hin, list_elem_of_In. }
  exists m'. split; [done|]. split; [|done]. split; [|done|done|].
  - eapply (ring_outside InUseHead (U ++ [a])); [by right|by left|done| |exact Hout|exact HL]. intros b Hb Hb'. by apply (nodup_disjoint _ _ b Hnd').
  - eapply links_allocated; [done|]. intros b Hb. rewrite app_assoc in Hb. apply in_app_iff in Hb as [Hb|[<-|[]]]; [by apply Hal|done].
Qed.

Lemma rings_append_lru m L U a : rings m L U -> ~ In a (L ++ U) -> is_Some (entries m !! a) ->
  exists m', LRU_Append LruHead (Ent a) m = Some m' /\ rings m' (L ++ [a]) U /\ links_only m m' /\ next_ok m' a /\
    forall b, next_ok m b -> next_ok m' b.
Proof.
  intros [HL HU Hnd Hal] Hin Ha. pose proof Hnd as (HndL & Hdis & HndU)%NoDup_app.
  destruct (LRU_Append_spec LruHead L a m (or_introl eq_refl) HndL) as (m' & E & HL' & Hlo & Hout & Hna & Hn); [| |done|].
  { intros H. apply Hin, in_app_iff. by left. }
  { intros b [Hb|[<-|[]]]%in_app_iff; [apply Hal, in_app_iff; by left|done]. }
  assert (NoDup ((L ++ [a]) ++ U)) as Hnd'.
  { rewrite <- app_assoc. simpl. rewrite <- Permutation_middle. apply NoDup_cons. split; [|done]. by rewrite list_elem_of_In. }
  exists m'. split; [done|]. split; [|done]. split; [done| |done|].
  - eapply (ring_outside LruHead (L ++ [a])); [by left|by right|done| |exact Hout|exact HU]. intros b Hb Hb'. by apply (nodup_disjoint _ _ b Hnd').
  - eapply links_allocated; [done|]. intros b Hb. rewrite <- app_assoc in Hb. simpl in Hb. rewrite <- Permutation_middle in Hb.
    destruct Hb as [<-|Hb]; [done|by apply Hal].
Qed.
End Links.

(** ** Chains *)

Fixpoint chain (nh : gmap nat (option nat)) (p : option nat) (l : list nat) : Prop :=
  match l with
  | [] => p = None
  | a :: l' => p = Some a /\ exists q, nh !! a = Some q /\ chain nh q l'
  end.

Lemma hash_chain_frame nh nh' p l : (forall a, In a l -> nh' !! a = nh !! a) -> chain nh p l -> chain nh' p l.
Proof.
  revert p. induction l as [|a l IH]; intros p Hf; simpl; [done|]. intros (-> & q & Eq & Hc). split; [done|]. exists q.
  rewrite Hf by by left. split; [done|]. apply IH; [|done]. intros b Hb. apply Hf. by right.
Qed.

Lemma hash_chain_head nh p l : chain nh p l -> p = head l.
Proof. destruct l; simpl; [done|]. by intros [-> _]. Qed.

(** The chain behind an entry is replaced. *)
Lemma chain_write nh p l1 b l2 x l' : chain nh p (l1 ++ b :: l2) -> chain nh x l' -> ~ In b l1 -> ~ In b l' ->
  chain (<[b := x]> nh) p (l1 ++ b :: l').
Proof.
  intros Hc Hx H1 H2. revert p Hc. induction l1 as [|a l1 IH]; intros p; simpl.
  - intros (-> & _). split; [done|]. exists x. rewrite lookup_insert_eq. split; [done|]. eapply hash_chain_frame; [|exact Hx].
    intros c Hc. apply lookup_insert_ne. by intros ->.
  - intros (-> & q & Eq & Hc). split; [done|]. exists q. rewrite lookup_insert_ne by (intros ->; apply H1; by left). split; [done|].
    apply IH; [|done]. intros Hb. apply H1. by right.
Qed.

Lemma chain_next nh p l1 b l2 : chain nh p (l1 ++ b :: l2) -> exists q, nh !! b = Some q /\ chain nh q l2.
Proof. revert p. induction l1 as [|a l1 IH]; intros p; simpl; [by intros (_ & q & ? & ?); exists q|]. intros (_ & q & _ & Hc). by eapply IH. Qed.

(** ** Lists of chains *)

Lemma concat_at {A} (B : list (list A)) i l : B !! i = Some l -> concat B = concat (take i B) ++ l ++ concat (drop (S i) B).
Proof. intros E. rewrite <- (take_drop_middle B i l E) at 1. by rewrite concat_app. Qed.

Lemma concat_update {A} (B : list (list A)) i l l' : B !! i = Some l ->
  concat (<[i := l']> B) = concat (take i B) ++ l' ++ concat (drop (S i) B).
Proof.
  intros E. pose proof (lookup_lt_Some _ _ _ E) as Hi. rewrite (concat_at _ i l') by by apply list_lookup_insert_eq.
  rewrite take_insert_ge by lia. by rewrite drop_insert_lt by lia.
Qed.

Lemma concat_perm {A} (B : list (list A)) i l l' r r' : B !! i = Some l -> l ≡ₚ r -> l' ≡ₚ r' ->
  exists rest, concat B ≡ₚ r ++ rest /\ concat (<[i := l']> B) ≡ₚ r' ++ rest.
Proof.
  intros E Hl Hl'. exists (concat (take i B) ++ concat (drop (S i) B)). rewrite (concat_update B i l l' E), (concat_at B i l E), Hl, Hl'.
  split; by rewrite Permutation_app_swap_app.
Qed.

Lemma in_chain {A} (B : list (list A)) i l a : B !! i = Some l -> In a l -> In a (concat B).
Proof. intros E Ha. apply in_concat. exists l. split; [by eapply list_elem_of_In, list_elem_of_lookup_2|done]. Qed.

Lemma nodup_chain {A} (B : list (list A)) i l : NoDup (concat B) -> B !! i = Some l -> NoDup l.
Proof. intros Hn E. rewrite (concat_at _ _ _ E) in Hn. apply NoDup_app in Hn as (_ & _ & Hn). by apply NoDup_app in Hn as (? & _). Qed.

Lemma chains_disjoint {A} (B : list (list A)) i j l l' a : NoDup (concat B) -> B !! i = Some l -> B !! j = Some l' -> i <> j ->
  In a l -> ~ In a l'.
Proof.
  assert (forall i j l l', (i < j)%nat -> NoDup (concat B) -> B !! i = Some l -> B !! j = Some l' -> In a l -> ~ In a l') as Hlt.
  { clear. intros i j l l' Hij Hn Ei Ej Ha Ha'. rewrite (concat_at _ _ _ Ei) in Hn. apply NoDup_app in Hn as (_ & _ & Hn).
    apply NoDup_app in Hn as (_ & Hd & _). apply (Hd a); [by apply list_elem_of_In|]. apply list_elem_of_In.
    apply (in_chain _ (j - S i) l'); [|done]. rewrite lookup_drop. by replace (S i + (j - S i))%nat with j by lia. }
  intros Hn Ei Ej Hne Ha Ha'. destruct (Nat.lt_total i j) as [?|[?|?]]; [by apply (Hlt i j l l')|done|by apply (Hlt j i l' l)].
Qed.

Lemma chains_update nh (ps : list (option nat)) B i p l : Forall2 (chain nh) ps B -> chain nh p l ->
  Forall2 (chain nh) (<[i := p]> ps) (<[i := l]> B).
Proof. intros HF Hc. by apply Forall2_insert. Qed.

Section Table.
Context {V : Type} {hf : list byte -> Z} {Hhf : forall k, 0 <= hf k < 2 ^ 32}.
Implicit Types m : memory (V := V).

(** An entry with a key, ready to be compared. *)
Definition key_at m (a : nat) (k : list byte) : Prop :=
  exists e, entries m !! a = Some e /\ key_data e = k /\ hash e = hf k /\ next_ok m a.

Lemma key_at_eq m a k k' : key_at m a k -> key_at m a k' -> k = k'.
Proof. intros (e & E & <- & _) (e' & E' & <- & _). by assert (e = e') as -> by congruence. Qed.

Lemma key_at_handle m a k : key_at m a k -> handle_key a m = Some k.
Proof. intros (e & E & <- & _ & n & En & Hn). unfold handle_key. rewrite E. cbn [mbind option_bind]. rewrite En. cbn [mbind option_bind]. by rewrite decide_False. Qed.

Lemma slice_eqb_true x y : slice_eqb x y = true -> x = y.
Proof.
  unfold slice_eqb. intros [Hl%Nat.eqb_eq Hm]%andb_prop. apply Z.eqb_eq in Hm. revert y Hl Hm. induction x as [|b x IH]; intros [|b' y]; simpl; try done.
  intros Hl. destruct (Z.eqb_spec (byte_val b) (byte_val b')) as [E|]; [|lia]. intros Hm. apply byte_val_inj in E as ->. f_equal. apply IH; [lia|done].
Qed.

Lemma slice_eqb_spec x y : slice_eqb x y = bool_decide (x = y).
Proof.
  destruct (decide (x = y)) as [->|Hne]; [rewrite bool_decide_true by done; apply slice_eqb_refl|]. rewrite bool_decide_false by done.
  destruct (slice_eqb x y) eqn:E; [|done]. by apply slice_eqb_true in E.
Qed.

(** ** Finding a key *)

Definition slot_at (i : nat) (l : list nat) : slot := match last l with None => Bucket i | Some b => NextHash b end.

Lemma bucket_find_spec key t m i l2 : forall fuel l1 p,
  read_slot (slot_at i l1) t m = Some p -> chain (m_next_hash m) p l2 -> (forall a, In a l2 -> exists k, key_at m a k) -> (length l2 <= fuel)%nat ->
  exists l3 l4, l2 = l3 ++ l4 /\ find_loop fuel (slot_at i l1) key (hf key) t m = Some (slot_at i (l1 ++ l3)) /\
    read_slot (slot_at i (l1 ++ l3)) t m = Some (head l4) /\ (forall a, In a l3 -> ~ key_at m a key) /\ (forall a, head l4 = Some a -> key_at m a key).
Proof.
  induction l2 as [|a l2 IH]; intros fuel l1 p Er Hc Hk Hf.
  - simpl in Hc. subst p. exists [], []. rewrite !app_nil_r. split; [done|]. split; [destruct fuel; cbn [find_loop]; by rewrite Er|].
    split; [done|]. by split.
  - destruct Hc as (-> & q & Eq & Hc). destruct (Hk a (or_introl eq_refl)) as (k & Hka). pose proof Hka as (e & Ee & Ek & Eh & _).
    pose proof (key_at_handle _ _ _ Hka) as Ehk.
    assert (forall fuel, find_loop (S fuel) (slot_at i l1) key (hf key) t m =
      if bool_decide (k = key) then Some (slot_at i l1) else find_loop fuel (NextHash a) key (hf key) t m) as Estep.
    { intros n. cbn [find_loop]. rewrite Er. cbn [mbind option_bind]. rewrite Ee. cbn [mbind option_bind]. rewrite Eh, Ehk.
      destruct (decide (k = key)) as [->|Hne].
      - rewrite Z.eqb_refl, bool_decide_true by done. cbn [negb mbind option_bind]. by rewrite slice_eqb_refl.
      - rewrite (bool_decide_false (k = key)) by done. destruct (negb (hf k =? hf key)); cbn [mbind option_bind]; [done|].
        rewrite slice_eqb_spec, bool_decide_false by congruence. done. }
    destruct fuel as [|fuel]; [simpl in Hf; lia|]. rewrite Estep. destruct (decide (k = key)) as [->|Hne].
    + rewrite bool_decide_true by done. exists [], (a :: l2). rewrite !app_nil_r. split; [done|]. split; [done|]. split; [done|].
      split; [by intros b []|]. by intros b [= <-].
    + rewrite bool_decide_false by done. destruct (IH fuel (l1 ++ [a]) q) as (l3 & l4 & -> & E & Er' & Hl3 & Hl4).
      * unfold slot_at. rewrite last_snoc. simpl. rewrite Ee. done.
      * done.
      * intros b Hb. apply Hk. by right.
      * simpl in Hf. lia.
      * exists (a :: l3), l4. unfold slot_at in E at 1. rewrite last_snoc in E. rewrite <- app_assoc in E, Er'. simpl in E, Er'.
        split; [done|]. split; [done|]. split; [done|]. split; [|done]. intros b [<-|Hb]; [|by apply Hl3].
        intros Hkb. apply Hne. by eapply key_at_eq.
Qed.

(** ** The entries of a table *)

(** The chains [B] of a table with the entries [T]. *)
Record chains_ok (t : HandleTable) m (B : list (list nat)) : Prop := {
  ck_length : length_ t = Z.of_nat (length B) /\ exists k, 2 <= k <= 31 /\ length_ t = 2 ^ k;
  ck_chains : Forall2 (chain (m_next_hash m)) (list_ t) B;
  ck_nodup : NoDup (concat B);
  ck_place i l a : B !! i = Some l -> In a l -> exists k, key_at m a k /\ bucket_of (hf k) (length_ t) = i;
  ck_unique a b k : In a (concat B) -> In b (concat B) -> key_at m a k -> key_at m b k -> a = b;
}.

Definition table_ok (t : HandleTable) m (T : list nat) : Prop :=
  elems_ t = Z.of_nat (length T) /\ Z.of_nat (length T) < 2 ^ 31 /\ exists B, chains_ok t m B /\ concat B ≡ₚ T.

Lemma bucket_range h length k : 0 <= h < 2 ^ 32 -> 2 <= k <= 31 -> length = 2 ^ k -> 0 <= Z.of_nat (bucket_of h length) < length.
Proof.
  intros Hh Hk ->. unfold bucket_of. assert (2 ^ k <= 2 ^ 31) by (apply Z.pow_le_mono_r; lia). assert (0 < 2 ^ k) by (apply Z.pow_pos_nonneg; lia).
  rewrite u32_id by lia. assert (Z.land h (2 ^ k - 1) = h mod 2 ^ k) as ->.
  { replace (2 ^ k - 1) with (Z.ones k) by (rewrite Z.ones_equiv; lia). apply Z.land_ones. lia. }
  pose proof (Z.mod_pos_bound h (2 ^ k) ltac:(lia)). lia.
Qed.

Lemma chain_in t m B a : chains_ok t m B -> In a (concat B) -> exists k l, key_at m a k /\ B !! bucket_of (hf k) (length_ t) = Some l /\ In a l.
Proof.
  intros Hc (l & Hl & Ha)%in_concat. apply list_elem_of_In, list_elem_of_lookup in Hl as [i Ei].
  destruct (ck_place _ _ _ Hc i l a Ei Ha) as (k & Hk & <-). by exists k, l.
Qed.

Lemma nodup_entries (l : list nat) m : NoDup l -> (forall a, In a l -> exists k, key_at m a k) -> (length l <= size (entries m))%nat.
Proof.
  intros Hn Hk. rewrite <- (size_list_to_set (C := gset nat) l) by done. rewrite <- (size_dom (D := gset nat)). apply subseteq_size.
  intros a Ha. rewrite elem_of_list_to_set in Ha. apply list_elem_of_In in Ha. destruct (Hk a Ha) as (k & e & E & _). by eapply elem_of_dom_2.
Qed.

(** The slot of a key: at the entry with the key, or at the end of its chain. *)
Lemma FindPointer_spec key t m B : chains_ok t m B ->
  exists i l1 l2, i = bucket_of (hf key) (length_ t) /\ B !! i = Some (l1 ++ l2) /\ FindPointer key (hf key) t m = Some (slot_at i l1) /\
    read_slot (slot_at i l1) t m = Some (head l2) /\ (forall a, head l2 = Some a -> key_at m a key) /\
    (head l2 = None -> forall a, In a (concat B) -> ~ key_at m a key).
Proof using Hhf.
  intros Hc. destruct (ck_length _ _ _ Hc) as [Hlen (k & Hk & Hpow)]. set (i := bucket_of (hf key) (length_ t)).
  pose proof (bucket_range (hf key) (length_ t) k (Hhf key) Hk Hpow) as Hi. fold i in Hi.
  destruct (lookup_lt_is_Some_2 B i) as [l El]; [lia|]. destruct (Forall2_lookup_r _ _ _ _ _ (ck_chains _ _ _ Hc) El) as (p & Ep & Hch).
  assert (forall a, In a l -> exists k, key_at m a k) as Hkeys by (intros a Ha; destruct (ck_place _ _ _ Hc i l a El Ha) as (k' & ? & _); by exists k').
  destruct (bucket_find_spec key t m i l (size (entries m)) [] p) as (l3 & l4 & -> & E & Er & H3 & H4); [done|done|done| |].
  { apply nodup_entries; [|done]. eapply nodup_chain; [apply Hc|done]. }
  exists i, l3, l4. split; [done|]. split; [done|]. split; [exact E|]. split; [done|]. split; [done|]. intros Hnone a Ha Hka.
  destruct (chain_in t m B a Hc Ha) as (k' & l' & Hk' & El' & Hin). assert (k' = key) as -> by by eapply key_at_eq. fold i in El'.
  assert (l' = l3 ++ l4) as -> by congruence. destruct l4; [|done]. rewrite app_nil_r in Hin. by apply (H3 a).
Qed.

Lemma HT_Lookup_spec key t m T : table_ok t m T ->
  exists r, HT_Lookup key (hf key) t m = Some r /\
    match r with Some a => In a T /\ key_at m a key | None => forall a, In a T -> ~ key_at m a key end.
Proof using Hhf.
  intros (_ & _ & B & Hc & Hp). destruct (FindPointer_spec key t m B Hc) as (i & l1 & l2 & _ & El & Ef & Er & Hsome & Hnone).
  unfold HT_Lookup. rewrite Ef. cbn [mbind option_bind]. rewrite Er. eexists. split; [done|]. destruct l2 as [|a l2]; simpl in *.
  - intros a Ha. apply Hnone; [done|]. by rewrite Hp.
  - split; [|by apply Hsome]. rewrite <- Hp. eapply in_chain; [exact El|]. apply in_app_iff. right. by left.
Qed.

(** What a change of the chains leaves alone. *)
Definition chains_only m m' (l : list nat) : Prop :=
  entries m' = entries m /\ m_next m' = m_next m /\ m_prev m' = m_prev m /\ deleted m' = deleted m /\ brk m' = brk m /\
  forall b, ~ In b l -> m_next_hash m' !! b = m_next_hash m !! b.

Lemma chains_only_key m m' l a k : chains_only m m' l -> key_at m a k -> key_at m' a k.
Proof. intros (Ee & En & _) (e & E & ? & ? & n & Ex & ?). exists e. rewrite Ee. split_and!; try done. exists n. by rewrite En. Qed.

(** Writing into a slot replaces the rest of a chain. *)
Lemma write_slot_spec t m B i l1 l2 x l' :
  Forall2 (chain (m_next_hash m)) (list_ t) B -> B !! i = Some (l1 ++ l2) -> NoDup (concat B) -> all_allocated l1 m ->
  chain (m_next_hash m) x l' -> (forall b, In b l1 -> ~ In b l') ->
  exists t' m', write_slot (slot_at i l1) x t m = Some (t', m') /\ length_ t' = length_ t /\ elems_ t' = elems_ t /\
    Forall2 (chain (m_next_hash m')) (list_ t') (<[i := l1 ++ l']> B) /\ chains_only m m' l1.
Proof.
  intros HF El Hnd Hal Hx Hdis. unfold slot_at. destruct (last l1) as [b|] eqn:Eb.
  - apply last_Some in Eb as (l0 & ->). unfold write_slot, set_next_hash. rewrite (allocated_ent b m) by (apply Hal, in_app_iff; right; by left).
    cbn [mbind option_bind]. eexists t, _. split; [done|]. split; [done|]. split; [done|]. cbn [m_next_hash]. split.
    + rewrite <- (list_insert_id (list_ t) i (default None (list_ t !! i))).
      * destruct (Forall2_lookup_r _ _ _ _ _ HF El) as (p & Ep & Hch). rewrite Ep. cbn [default option_map].
        assert (Forall2 (chain (<[b := x]> (m_next_hash m))) (<[i := p]> (list_ t)) (<[i := (l0 ++ [b]) ++ l']> B)) as HF'; [|exact HF'].
        apply Forall2_same_length_lookup. split; [rewrite !length_insert; by eapply Forall2_length|]. intros j q lq Eq Elq.
        destruct (decide (i = j)) as [<-|Hne].
        -- apply list_lookup_insert_Some in Eq as [(_ & <- & _)|[]]; [|done]. apply list_lookup_insert_Some in Elq as [(_ & <- & _)|[]]; [|done].
           rewrite <- app_assoc in Hch. rewrite <- app_assoc. simpl in Hch |- *. eapply chain_write; [exact Hch|exact Hx| |].
           ++ pose proof (nodup_chain _ _ _ Hnd El) as Hn. rewrite <- app_assoc in Hn. simpl in Hn. apply NoDup_app in Hn as (_ & Hd & _).
              intros Hb. apply (Hd b); [by apply list_elem_of_In|by left].
           ++ apply Hdis, in_app_iff. right. by left.
        -- rewrite list_lookup_insert_ne in Eq by done. rewrite list_lookup_insert_ne in Elq by done.
           eapply hash_chain_frame; [|exact (Forall2_lookup_lr _ _ _ _ _ _ HF Eq Elq)]. intros c Hc. apply lookup_insert_ne. intros <-.
           eapply (chains_disjoint B i j _ _ b Hnd El Elq Hne); [|done]. apply in_app_iff. left. apply in_app_iff. right. by left.
      * destruct (Forall2_lookup_r _ _ _ _ _ HF El) as (p & Ep & _). by rewrite Ep.
    + split_and!; try done. intros c Hc. cbn [m_next_hash]. apply lookup_insert_ne. intros <-. apply Hc, in_app_iff. right. by left.
  - apply last_None in Eb as ->. simpl in El |- *. destruct (Forall2_lookup_r _ _ _ _ _ HF El) as (p & Ep & _). rewrite Ep.
    eexists _, m. split; [done|]. split; [done|]. split; [done|]. simpl. split; [by apply chains_update|done].
Qed.

(** The chains with other entries in the place of one chain's. *)
Lemma chains_ok_update t m t' m' B i l l' : chains_ok t m B -> B !! i = Some l -> length_ t' = length_ t ->
  Forall2 (chain (m_next_hash m')) (list_ t') (<[i := l']> B) -> NoDup (concat (<[i := l']> B)) ->
  (forall a k, key_at m a k -> key_at m' a k) -> (forall a k, In a (concat (<[i := l']> B)) -> key_at m' a k -> key_at m a k) ->
  (forall a, In a l' -> exists k, key_at m' a k /\ bucket_of (hf k) (length_ t') = i) ->
  (forall a b k, In a (concat (<[i := l']> B)) -> In b (concat (<[i := l']> B)) -> key_at m' a k -> key_at m' b k -> a = b) ->
  chains_ok t' m' (<[i := l']> B).
Proof.
  intros Hc El Hlen HF Hnd Hkey Hkey' Hl' Hu. split; [rewrite length_insert, Hlen; apply Hc|done|done| |done].
  intros j lj a Ej Ha. destruct (decide (i = j)) as [<-|Hne].
  - apply list_lookup_insert_Some in Ej as [(_ & <- & _)|[]]; [|done]. by apply Hl'.
  - rewrite list_lookup_insert_ne in Ej by done. destruct (ck_place _ _ _ Hc j lj a Ej Ha) as (k & Hk & Hb). exists k. rewrite Hlen. split; [by apply Hkey|done].
Qed.

Lemma chains_only_back m m' l a k : chains_only m m' l -> key_at m' a k -> key_at m a k.
Proof. intros (Ee & En & _) (e & E & ? & ? & n & Ex & ?). exists e. rewrite <- Ee. split_and!; try done. exists n. by rewrite <- En. Qed.

Lemma chain_allocated B i l m t : chains_ok t m B -> B !! i = Some l -> all_allocated l m.
Proof. intros Hc El a Ha. destruct (ck_place _ _ _ Hc i l a El Ha) as (k & (e & E & _) & _). by rewrite E. Qed.

Lemma chains_only_more m m' l l' : chains_only m m' l -> (forall a, In a l -> In a l') -> chains_only m m' l'.
Proof. intros (? & ? & ? & ? & ? & H) Hl. split_and!; try done. intros b Hb. apply H. intros Hin. by apply Hb, Hl. Qed.

Lemma HT_Remove_spec key t m T : table_ok t m T ->
  exists r t' m', HT_Remove key (hf key) t m = Some (r, t', m') /\ chains_only m m' T /\
    match r with
    | Some a => key_at m a key /\ exists T', T ≡ₚ a :: T' /\ table_ok t' m' T'
    | None => t' = t /\ m' = m /\ forall a, In a T -> ~ key_at m a key
    end.
Proof using Hhf.
  intros (He & Hroom & B & Hc & Hp). destruct (FindPointer_spec key t m B Hc) as (i & l1 & l2 & _ & El & Ef & Er & Hsome & Hnone).
  unfold HT_Remove. rewrite Ef. cbn [mbind option_bind]. rewrite Er. cbn [mbind option_bind]. destruct l2 as [|a l2]; cbn [head].
  { exists None, t, m. split; [done|]. split; [done|]. split; [done|]. split; [done|]. intros a Ha. apply Hnone; [done|by rewrite Hp]. }
  destruct (Forall2_lookup_r _ _ _ _ _ (ck_chains _ _ _ Hc) El) as (p & Ep & Hch). destruct (chain_next _ _ _ _ _ Hch) as (q & Eq & Hq).
  pose proof (nodup_chain _ _ _ (ck_nodup _ _ _ Hc) El) as Hndl. pose proof (chain_allocated _ _ _ _ _ Hc El) as Hal.
  apply NoDup_app in Hndl as (_ & Hd & Hndl2).
  destruct (write_slot_spec t m B i l1 (a :: l2) q l2) as (t' & m' & E & El' & Ee & HF & Hco); [apply Hc|done|apply Hc| |done| |].
  { intros b Hb. apply Hal, in_app_iff. by left. }
  { intros b Hb Hb2. apply (Hd b); [by apply list_elem_of_In|right; by apply list_elem_of_In]. }
  rewrite Eq. cbn [mbind option_bind]. rewrite E. cbn [mbind option_bind].
  destruct (concat_perm B i (l1 ++ a :: l2) (l1 ++ l2) (a :: l1 ++ l2) (l1 ++ l2) El) as (rest & Hp1 & Hp2);
    [by rewrite Permutation_middle|done|].
  exists (Some a), (MkTable (length_ t') (u32 (elems_ t' - 1)) (list_ t')), m'. split; [done|].
  assert (forall b, In b (concat (<[i:=l1 ++ l2]> B)) -> In b (concat B)) as Hsub by (intros b; rewrite Hp1, Hp2; simpl; tauto).
  split; [|split; [by apply Hsome|]].
  - eapply chains_only_more; [exact Hco|]. intros b Hb. rewrite <- Hp. eapply in_chain; [exact El|]. apply in_app_iff. by left.
  - exists (concat (<[i := l1 ++ l2]> B)). assert (T ≡ₚ a :: concat (<[i:=l1 ++ l2]> B)) as HT by (by rewrite <- Hp, Hp1, Hp2).
    pose proof (Permutation_length HT) as Hlen. simpl in Hlen. split; [done|]. split; [simpl; rewrite Ee, He, u32_id; lia|]. split; [lia|].
    exists (<[i := l1 ++ l2]> B). split; [|done]. pose proof (ck_nodup _ _ _ Hc) as Hnd. rewrite Hp1 in Hnd. simpl in Hnd. apply NoDup_cons in Hnd as [_ Hnd].
    eapply (chains_ok_update t m _ m' B i _ (l1 ++ l2) Hc El); simpl; [done|done|by rewrite Hp2| | | |].
    + intros b k. by apply (chains_only_key _ _ l1).
    + intros b k _. by apply (chains_only_back _ _ l1).
    + intros b Hb. rewrite El'. destruct (ck_place _ _ _ Hc i _ b El) as (k & Hk & Hbk).
      { apply in_app_iff. apply in_app_iff in Hb as [Hb|Hb]; [by left|by right; right]. }
      exists k. split; [by apply (chains_only_key _ _ l1 _ _ Hco)|done].
    + intros b b' k Hb Hb' Hk Hk'. apply (ck_unique _ _ _ Hc b b' k); [by apply Hsub|by apply Hsub|by apply (chains_only_back _ _ l1 _ _ Hco)..].
Qed.

(** ** Resizing *)

Lemma new_length_spec elems : forall fuel k, elems <= 2 ^ 31 -> 2 <= k <= 31 -> 31 - k <= Z.of_nat fuel ->
  exists k', new_length_loop fuel elems (2 ^ k) = Some (2 ^ k') /\ k <= k' <= 31.
Proof.
  induction fuel as [|fuel IH]; intros k He Hk Hf; simpl.
  - replace k with 31 in * by lia. destruct (Z.ltb_spec (2 ^ 31) elems); [lia|]. exists 31. split; [done|lia].
  - destruct (Z.ltb_spec (2 ^ k) elems) as [Hlt|]; [|exists k; split; [done|lia]].
    assert (k < 31) as Hk'. { destruct (decide (k = 31)) as [->|]; [lia|lia]. }
    assert (2 ^ k < 2 ^ 31) by (apply Z.pow_lt_mono_r; lia). assert (0 < 2 ^ k) by (apply Z.pow_pos_nonneg; lia).
    rewrite u32_id by lia. replace (2 ^ k * 2) with (2 ^ (k + 1)) by (rewrite Z.pow_add_r by lia; lia).
    destruct (IH (k + 1)) as (k' & E & ?); [done|lia|lia|]. exists k'. split; [done|lia].
Qed.

(** Every entry is in the chain of its hash. *)
Definition placed_in (length : Z) m (N : list (list nat)) : Prop :=
  forall i l a, N !! i = Some l -> In a l -> exists k, key_at m a k /\ bucket_of (hf k) length = i.

Lemma placed_in_more length m m' l N : chains_only m m' l -> placed_in length m N -> placed_in length m' N.
Proof. intros Hco Hp i lx a E Ha. destruct (Hp i lx a E Ha) as (k & Hk & Hb). exists k. split; [by eapply chains_only_key|done]. Qed.

Lemma move_chain_spec nlen k : nlen = 2 ^ k -> 2 <= k <= 31 -> forall l fuel h count nl N m,
  chain (m_next_hash m) h l -> Forall2 (chain (m_next_hash m)) nl N -> Z.of_nat (length N) = nlen -> NoDup (l ++ concat N) ->
  (forall a, In a l -> exists k, key_at m a k) -> placed_in nlen m N -> (length l <= fuel)%nat ->
  0 <= count -> count + Z.of_nat (length l) < 2 ^ 32 ->
  exists nl' N' m', move_chain fuel h nlen count nl m = Some (nl', count + Z.of_nat (length l), m') /\
    Forall2 (chain (m_next_hash m')) nl' N' /\ length N' = length N /\ concat N' ≡ₚ l ++ concat N /\ placed_in nlen m' N' /\ chains_only m m' l.
Proof using Hhf.
  intros Hpow Hk. induction l as [|a l IH]; intros fuel h count nl N m Hch HF HlN Hnd Hkeys Hpl Hf Hc0 Hcount.
  - simpl in Hch. subst h. exists nl, N, m. split; [destruct fuel; simpl; by rewrite Z.add_0_r|]. by split_and!.
  - destruct Hch as (-> & next & En & Hch). destruct fuel as [|fuel]; [simpl in Hf; lia|]. cbn [move_chain]. rewrite En. cbn [mbind option_bind].
    destruct (Hkeys a (or_introl eq_refl)) as (ka & Hka). pose proof Hka as (e & Ee & _ & Eh & _). rewrite Ee. cbn [mbind option_bind]. rewrite Eh.
    set (i := bucket_of (hf ka) nlen). pose proof (bucket_range (hf ka) nlen k (Hhf ka) Hk Hpow) as Hi. fold i in Hi.
    destruct (lookup_lt_is_Some_2 N i) as [li Eli]; [lia|]. destruct (Forall2_lookup_r _ _ _ _ _ HF Eli) as (old & Eold & Hold).
    rewrite Eold. cbn [mbind option_bind]. unfold set_next_hash. rewrite (allocated_ent a m) by by rewrite Ee. cbn [mbind option_bind].
    set (m1 := Memory _ _ _ _ _ _). simpl in Hnd. apply NoDup_cons in Hnd as [Ha Hnd].
    assert (chains_only m m1 [a]) as Hco1.
    { split_and!; try done. intros b Hb. unfold m1. cbn [m_next_hash]. apply lookup_insert_ne. intros ->. apply Hb. by left. }
    assert (forall b, In b (l ++ concat N) -> m_next_hash m1 !! b = m_next_hash m !! b) as Hsame.
    { intros b Hb. apply Hco1. intros [<-|[]]. by apply Ha, list_elem_of_In. }
    assert (~ In a (concat N)) as HaN by (intros H; apply Ha, elem_of_app; right; by apply list_elem_of_In).
    destruct (concat_perm N i li (a :: li) li (a :: li) Eli) as (rest & Hp1 & Hp2); [done|done|].
    destruct (IH fuel next (u32 (count + 1)) (<[i := Some a]> nl) (<[i := a :: li]> N) m1) as (nl' & N' & m' & E & HF' & HlN' & Hp' & Hpl' & Hco').
    + eapply hash_chain_frame; [|exact Hch]. intros b Hb. apply Hsame, in_app_iff. by left.
    + apply chains_update.
      * apply Forall2_same_length_lookup. split; [by eapply Forall2_length|]. intros j q lq Eq Elq.
        eapply hash_chain_frame; [|exact (Forall2_lookup_lr _ _ _ _ _ _ HF Eq Elq)]. intros b Hb. apply Hsame, in_app_iff. right. by eapply in_chain.
      * simpl. split; [done|]. exists old. unfold m1. cbn [m_next_hash]. rewrite lookup_insert_eq. split; [done|].
        eapply hash_chain_frame; [|exact Hold]. intros b Hb. apply lookup_insert_ne. intros <-. apply HaN. by eapply in_chain.
    + by rewrite length_insert.
    + rewrite Hp2. simpl. rewrite <- Permutation_middle. apply NoDup_cons. rewrite <- Hp1. split; [|done]. done.
    + intros b Hb. destruct (Hkeys b (or_intror Hb)) as (kb & Hkb). exists kb. by apply (chains_only_key _ _ _ _ _ Hco1).
    + intros j lj b Ej Hb. destruct (decide (i = j)) as [<-|Hne].
      * apply list_lookup_insert_Some in Ej as [(_ & <- & _)|[]]; [|done]. destruct Hb as [<-|Hb].
        -- exists ka. split; [by apply (chains_only_key _ _ _ _ _ Hco1)|done].
        -- by apply (placed_in_more _ _ _ _ _ Hco1 Hpl i li).
      * rewrite list_lookup_insert_ne in Ej by done. by apply (placed_in_more _ _ _ _ _ Hco1 Hpl j lj).
    + simpl in Hf. lia.
    + apply u32_range.
    + simpl in Hcount. rewrite u32_id; lia.
    + simpl in Hcount. exists nl', N', m'. split; [rewrite E, u32_id by lia; cbn [length]; by replace (count + 1 + Z.of_nat (length l)) with (count + Z.of_nat (S (length l))) by lia|]. split; [done|].
      split; [by rewrite HlN', length_insert|]. split; [rewrite Hp', Hp2, Hp1; simpl; symmetry; apply Permutation_middle|]. split; [done|].
      destruct Hco1 as (E1 & E2 & E3 & E4 & E5 & E6), Hco' as (E1' & E2' & E3' & E4' & E5' & E6').
      split_and!; [congruence..|]. intros b Hb. rewrite E6', E6; [done| |]; intros Hin; apply Hb; [|by right]. destruct Hin as [<-|[]]. by left.
Qed.

Lemma move_chains_spec nlen k : nlen = 2 ^ k -> 2 <= k <= 31 -> forall hs B count nl N m,
  Forall2 (chain (m_next_hash m)) hs B -> Forall2 (chain (m_next_hash m)) nl N -> Z.of_nat (length N) = nlen -> NoDup (concat B ++ concat N) ->
  (forall a, In a (concat B) -> exists k, key_at m a k) -> placed_in nlen m N -> 0 <= count -> count + Z.of_nat (length (concat B)) < 2 ^ 32 ->
  exists nl' N' m', move_chains hs nlen count nl m = Some (nl', count + Z.of_nat (length (concat B)), m') /\
    Forall2 (chain (m_next_hash m')) nl' N' /\ length N' = length N /\ concat N' ≡ₚ concat B ++ concat N /\ placed_in nlen m' N' /\ chains_only m m' (concat B).
Proof using Hhf.
  intros Hpow Hk. induction hs as [|h hs IH]; intros B count nl N m HB HF HlN Hnd Hkeys Hpl Hc0 Hcount.
  - apply Forall2_nil_inv_l in HB as ->. exists nl, N, m. simpl. rewrite Z.add_0_r. by split_and!.
  - apply Forall2_cons_inv_l in HB as (l & B' & Hh & HB & ->). simpl in Hnd, Hkeys, Hcount |- *. rewrite length_app in Hcount.
    rewrite <- app_assoc in Hnd. pose proof Hnd as (Hndl & Hdl & HndB)%NoDup_app. pose proof HndB as (HndB' & HdB & HndN)%NoDup_app.
    assert (NoDup (l ++ concat N)) as HndlN.
    { apply NoDup_app. split; [done|]. split; [|done]. intros b Hb HbN. apply (Hdl b Hb), elem_of_app. by right. }
    destruct (move_chain_spec nlen k Hpow Hk l (size (entries m)) h count nl N m) as (nl1 & N1 & m1 & E1 & HF1 & HlN1 & Hp1 & Hpl1 & Hco1); try done.
    { intros a Ha. apply Hkeys, in_app_iff. by left. }
    { apply nodup_entries; [done|]. intros a Ha. apply Hkeys, in_app_iff. by left. }
    { lia. }
    rewrite E1. cbn [mbind option_bind].
    destruct (IH B' (count + Z.of_nat (length l)) nl1 N1 m1) as (nl' & N' & m' & E & HF' & HlN' & Hp' & Hpl' & Hco').
    + apply Forall2_same_length_lookup. split; [by eapply Forall2_length|]. intros j q lq Eq Elq.
      eapply hash_chain_frame; [|exact (Forall2_lookup_lr _ _ _ _ _ _ HB Eq Elq)]. intros b Hb. apply Hco1. intros Hbl.
      apply (Hdl b); [by apply list_elem_of_In|]. apply elem_of_app. left. apply list_elem_of_In. by eapply in_chain.
    + done.
    + by rewrite HlN1.
    + rewrite Hp1. rewrite Permutation_app_swap_app. done.
    + intros a Ha. destruct (Hkeys a) as (ka & Hka); [apply in_app_iff; by right|]. exists ka. by apply (chains_only_key _ _ _ _ _ Hco1).
    + done.
    + lia.
    + lia.
    + exists nl', N', m'. rewrite length_app. split; [rewrite E, Nat2Z.inj_add, Z.add_assoc; done|]. split; [done|]. split; [by rewrite HlN'|].
      split; [rewrite Hp', Hp1; by rewrite Permutation_app_swap_app, app_assoc|]. split; [done|].
      destruct Hco1 as (? & ? & ? & ? & ? & E6), Hco' as (? & ? & ? & ? & ? & E6').
      split_and!; [congruence..|]. intros b Hb. rewrite E6', E6; [done| |]; intros Hin; apply Hb, in_app_iff; [by left|by right].
Qed.

Lemma concat_replicate_nil {A} n : concat (replicate n (@nil A)) = [].
Proof. induction n as [|n IH]; [done|]. simpl. done. Qed.

(** Any list of chains with distinct keys is resized to a table of the same entries. *)
Lemma Resize_spec t m B T : Forall2 (chain (m_next_hash m)) (list_ t) B -> concat B ≡ₚ T -> NoDup T -> elems_ t = Z.of_nat (length T) ->
  Z.of_nat (length T) < 2 ^ 31 -> (forall a, In a T -> exists k, key_at m a k) ->
  (forall a b k, In a T -> In b T -> key_at m a k -> key_at m b k -> a = b) ->
  exists t' m', Resize t m = Some (t', m') /\ table_ok t' m' T /\ chains_only m m' T.
Proof using Hhf.
  intros HB Hp Hnd He Hroom Hkeys Hu. unfold Resize. destruct (new_length_spec (elems_ t) 32 2) as (k & E & Hk); [lia|lia|simpl; lia|].
  change (2 ^ 2) with 4 in E. rewrite E. cbn [mbind option_bind]. assert (0 < 2 ^ k) by (apply Z.pow_pos_nonneg; lia).
  destruct (move_chains_spec (2 ^ k) k eq_refl ltac:(lia) (list_ t) B 0 (replicate (Z.to_nat (2 ^ k)) None) (replicate (Z.to_nat (2 ^ k)) []) m HB)
    as (nl' & N' & m' & E' & HF' & HlN' & Hp' & Hpl' & Hco').
  - apply Forall2_replicate. done.
  - rewrite length_replicate. lia.
  - rewrite concat_replicate_nil, app_nil_r, Hp. done.
  - intros a Ha. apply Hkeys. by rewrite <- Hp.
  - intros i l a El Ha. apply lookup_replicate in El as [-> _]. done.
  - lia.
  - rewrite (Permutation_length Hp). lia.
  - rewrite concat_replicate_nil, app_nil_r in Hp'. rewrite E'. cbn [mbind option_bind]. rewrite (Permutation_length Hp), He, Z.eqb_refl.
    eexists _, m'. split; [done|]. assert (chains_only m m' T) as Hco by (eapply chains_only_more; [exact Hco'|]; intros a Ha; by rewrite <- Hp).
    split; [|done]. split; [done|]. split; [done|]. exists N'. assert (concat N' ≡ₚ T) as HpT by by rewrite Hp', Hp. split; [|done].
    split; simpl.
    + rewrite HlN', length_replicate. split; [lia|]. exists k. split; [lia|done].
    + done.
    + by rewrite HpT.
    + intros i l a El Ha. destruct (Hpl' i l a El Ha) as (ka & Hka & Hb). by exists ka.
    + intros a b ka Ha Hb Hka Hkb. rewrite HpT in Ha, Hb. apply (Hu a b ka Ha Hb); by eapply chains_only_back.
Qed.

(** ** Inserting *)

Lemma chains_only_trans m m1 m2 l : chains_only m m1 l -> chains_only m1 m2 l -> chains_only m m2 l.
Proof.
  intros (? & ? & ? & ? & ? & E) (? & ? & ? & ? & ? & E'). split_and!; [congruence..|]. intros b Hb. by rewrite E', E.
Qed.

(** The new entry takes the place of the one with its key, or the end of the chain. *)
Lemma insert_slot t m B i l1 l2 a k : chains_ok t m B -> B !! i = Some (l1 ++ l2) -> i = bucket_of (hf k) (length_ t) ->
  (forall o, head l2 = Some o -> key_at m o k) -> (head l2 = None -> forall b, In b (concat B) -> ~ key_at m b k) ->
  key_at m a k -> ~ In a (concat B) ->
  exists next t' m' m1, match head l2 with None => Some None | Some o => _ ← entries m !! o; m_next_hash m !! o end = Some next /\
    set_next_hash a next m = Some m1 /\ write_slot (slot_at i l1) (Some a) t m1 = Some (t', m') /\ elems_ t' = elems_ t /\
    chains_ok t' m' (<[i := l1 ++ a :: tail l2]> B) /\ chains_only m m' (a :: concat B).
Proof.
  intros Hc El Ei Hsome Hnone Hka Ha. destruct (Forall2_lookup_r _ _ _ _ _ (ck_chains _ _ _ Hc) El) as (p & Ep & Hch).
  pose proof (nodup_chain _ _ _ (ck_nodup _ _ _ Hc) El) as Hndl. pose proof (chain_allocated _ _ _ _ _ Hc El) as Hal.
  assert (exists next, match head l2 with None => Some None | Some o => _ ← entries m !! o; m_next_hash m !! o end = Some next /\
    chain (m_next_hash m) next (tail l2)) as (next & En & Hnext).
  { destruct l2 as [|o l2]; cbn [head tail]; [by exists None|]. destruct (chain_next _ _ _ _ _ Hch) as (q & Eq & Hq). exists q.
    destruct (Hal o) as [e E]; [apply in_app_iff; right; by left|]. by rewrite E. }
  pose proof Hka as (e & Ee & _). set (m1 := Memory (entries m) (<[a := next]> (m_next_hash m)) (m_next m) (m_prev m) (deleted m) (brk m)).
  assert (set_next_hash a next m = Some m1) as Eset by (unfold set_next_hash; by rewrite allocated_ent by by rewrite Ee).
  assert (chains_only m m1 [a]) as Hco1.
  { split_and!; try done. intros b Hb. unfold m1. cbn [m_next_hash]. apply lookup_insert_ne. intros ->. apply Hb. by left. }
  assert (forall b, In b (concat B) -> m_next_hash m1 !! b = m_next_hash m !! b) as Hsame by (intros b Hb; apply Hco1; intros [<-|[]]; done).
  assert (forall b, In b (l1 ++ l2) -> In b (concat B)) as HinB by (intros b Hb; by eapply in_chain).
  assert (forall b, In b (tail l2) -> In b l2) as Htail by (intros b Hb; destruct l2; [done|by right]).
  assert (forall b, In b l1 -> ~ In b l2) as Hd.
  { apply NoDup_app in Hndl as (_ & Hd & _). intros b H1 H2. apply (Hd b); by apply list_elem_of_In. }
  destruct (write_slot_spec t m1 B i l1 l2 (Some a) (a :: tail l2)) as (t' & m' & E & El' & Ee' & HF & Hco').
  - apply Forall2_same_length_lookup. split; [eapply Forall2_length, Hc|]. intros j q lq Eq Elq.
    eapply hash_chain_frame; [|exact (Forall2_lookup_lr _ _ _ _ _ _ (ck_chains _ _ _ Hc) Eq Elq)]. intros b Hb. apply Hsame. by eapply in_chain.
  - done.
  - apply Hc.
  - intros b Hb. apply Hal, in_app_iff. by left.
  - simpl. split; [done|]. exists next. rewrite lookup_insert_eq. split; [done|]. eapply hash_chain_frame; [|exact Hnext].
    intros b Hb. apply Hsame, HinB, in_app_iff. right. by apply Htail.
  - intros b Hb [<-|Hb']; [apply Ha, HinB, in_app_iff; by left|]. by apply (Hd b Hb), Htail.
  - exists next, t', m', m1. split; [done|]. split; [done|]. split; [done|]. split; [done|].
    assert (chains_only m m' (a :: concat B)) as Hco.
    { eapply chains_only_trans; [eapply chains_only_more; [exact Hco1|]|eapply chains_only_more; [exact Hco'|]].
      - intros b [<-|[]]. by left.
      - intros b Hb. right. apply HinB, in_app_iff. by left. }
    split; [|done].
    assert (forall o, l2 = o :: tail l2 -> key_at m o k) as Ho by (intros o E2; apply Hsome; by rewrite E2).
    assert (exists rest, concat B ≡ₚ (l1 ++ l2) ++ rest /\ concat (<[i := l1 ++ a :: tail l2]> B) ≡ₚ (a :: l1 ++ tail l2) ++ rest) as (rest & Hp1 & Hp2).
    { apply (concat_perm B i _ _ _ _ El); [done|]. symmetry. apply Permutation_middle. }
    assert (forall b, In b (concat (<[i := l1 ++ a :: tail l2]> B)) -> b = a \/ (In b (concat B) /\ ~ key_at m b k)) as Hsub.
    { intros b Hb. rewrite Hp2 in Hb. simpl in Hb. destruct Hb as [<-|Hb]; [by left|right].
      assert (In b (concat B)) as HbB.
      { rewrite Hp1. rewrite <- app_assoc in Hb. rewrite <- app_assoc. rewrite !in_app_iff in *. destruct Hb as [?|[?|?]]; auto. }
      split; [done|]. destruct l2 as [|o l2]; simpl in *; [by apply Hnone|]. intros Hkb.
      assert (b = o) as ->.
      { apply (ck_unique _ _ _ Hc b o k); [done| |done|by apply Ho]. apply HinB, in_app_iff. right. by left. }
      pose proof (ck_nodup _ _ _ Hc) as Hnd. rewrite Hp1, <- Permutation_middle in Hnd. simpl in Hnd. apply NoDup_cons in Hnd as [Hno _].
      by apply Hno, list_elem_of_In. }
    eapply (chains_ok_update t m t' m' B i (l1 ++ l2) (l1 ++ a :: tail l2) Hc El); [done|done| | | | |].
    + rewrite Hp2. simpl. pose proof (ck_nodup _ _ _ Hc) as Hnd. rewrite Hp1 in Hnd. apply NoDup_cons. split.
      * intros Hin%list_elem_of_In. apply Ha. rewrite Hp1. rewrite <- app_assoc in Hin. rewrite <- app_assoc. rewrite !in_app_iff in *. destruct Hin as [?|[?|?]]; auto.
      * destruct l2 as [|o l2]; simpl in *; [done|]. rewrite <- Permutation_middle in Hnd. simpl in Hnd. by apply NoDup_cons in Hnd as [_ Hnd].
    + intros b kb. by apply (chains_only_key _ _ _ _ _ Hco).
    + intros b kb _. by apply (chains_only_back _ _ _ _ _ Hco).
    + intros b Hb. rewrite El'. apply in_app_iff in Hb as [Hb|[<-|Hb]].
      * destruct (ck_place _ _ _ Hc i _ b El) as (kb & Hkb & Hbk); [apply in_app_iff; by left|]. exists kb. split; [by apply (chains_only_key _ _ _ _ _ Hco)|done].
      * exists k. split; [by apply (chains_only_key _ _ _ _ _ Hco)|done].
      * destruct (ck_place _ _ _ Hc i _ b El) as (kb & Hkb & Hbk); [apply in_app_iff; right; by apply Htail|]. exists kb.
        split; [by apply (chains_only_key _ _ _ _ _ Hco)|done].
    + intros b b' kb Hb Hb' Hkb%(chains_only_back _ _ _ _ _ Hco) Hkb'%(chains_only_back _ _ _ _ _ Hco).
      destruct (Hsub b Hb) as [->|[HbB Hnb]], (Hsub b' Hb') as [->|[HbB' Hnb']]; [done| | |by apply (ck_unique _ _ _ Hc b b' kb)].
      * destruct Hnb'. by rewrite (key_at_eq _ _ _ _ Hka Hkb).
      * destruct Hnb. by rewrite (key_at_eq _ _ _ _ Hka Hkb').
Qed.

Lemma HT_Insert_spec a t m T k : table_ok t m T -> key_at m a k -> ~ In a T -> Z.of_nat (length T) + 1 < 2 ^ 31 ->
  exists old t' m', HT_Insert a t m = Some (old, t', m') /\ chains_only m m' (a :: T) /\
    match old with
    | Some o => key_at m o k /\ exists T', T ≡ₚ o :: T' /\ table_ok t' m' (a :: T')
    | None => (forall b, In b T -> ~ key_at m b k) /\ table_ok t' m' (a :: T)
    end.
Proof using Hhf.
  intros (He & _ & B & Hc & Hp) Hka Ha Hroom. assert (~ In a (concat B)) as HaB by (intros H; apply Ha; by rewrite <- Hp).
  destruct (FindPointer_spec k t m B Hc) as (i & l1 & l2 & Ei & El & Ef & Er & Hsome & Hnone).
  destruct (insert_slot t m B i l1 l2 a k Hc El Ei Hsome Hnone Hka HaB) as (next & t1 & m2 & m1 & En & E1 & E2 & Ee & Hc' & Hco).
  assert (chains_only m m2 (a :: T)) as HcoT.
  { eapply chains_only_more; [exact Hco|]. intros b [<-|Hb]; [by left|right; by rewrite <- Hp]. }
  assert (concat (<[i := l1 ++ a :: tail l2]> B) ≡ₚ a :: concat (<[i := l1 ++ tail l2]> B)) as Hpa.
  { rewrite !(concat_update B i _ _ El). rewrite <- !app_assoc. simpl. by rewrite <- !Permutation_middle. }
  unfold HT_Insert. rewrite (key_at_handle _ _ _ Hka). cbn [mbind option_bind]. pose proof Hka as (e & Ee' & _ & Eh & _). rewrite Ee'. cbn [mbind option_bind].
  rewrite Eh, Ef. cbn [mbind option_bind]. rewrite Er. cbn [mbind option_bind]. rewrite En. cbn [mbind option_bind]. rewrite E1. cbn [mbind option_bind].
  rewrite E2. cbn [mbind option_bind]. destruct l2 as [|o l2]; cbn [head tail] in *.
  - assert (<[i := l1 ++ []]> B = B) as EB by by apply list_insert_id.
    rewrite EB in Hpa. cbv zeta. cbn [length_ elems_].
    destruct (length_ t1 <? u32 (elems_ t1 + 1)).
    + destruct (Resize_spec (MkTable (length_ t1) (u32 (elems_ t1 + 1)) (list_ t1)) m2 (<[i := l1 ++ [a]]> B) (a :: T)) as (t' & m' & E & Ht & Hco2).
      * apply Hc'.
      * by rewrite Hpa, Hp.
      * rewrite <- Hp, <- Hpa. apply Hc'.
      * simpl. rewrite Ee, He, u32_id; lia.
      * simpl. lia.
      * intros b Hb. rewrite <- Hp, <- Hpa in Hb. destruct (chain_in _ _ _ b Hc' Hb) as (kb & _ & Hkb & _). by exists kb.
      * intros b b' kb Hb Hb'. rewrite <- Hp, <- Hpa in Hb, Hb'. by apply (ck_unique _ _ _ Hc').
      * rewrite E. cbn [mbind option_bind]. exists None, t', m'. split; [done|]. split; [by eapply chains_only_trans|]. split; [|done].
        intros b Hb. apply Hnone; [done|]. by rewrite Hp.
    + eexists None, _, m2. split; [done|]. split; [done|]. split; [intros b Hb; apply Hnone; [done|by rewrite Hp]|].
      split; [simpl; rewrite Ee, He, u32_id; lia|]. split; [simpl; lia|]. exists (<[i := l1 ++ [a]]> B). split; [|by rewrite Hpa, Hp].
      destruct Hc'. by split.
  - exists (Some o), t1, m2. split; [done|]. split; [done|]. split; [by apply Hsome|]. exists (concat (<[i := l1 ++ l2]> B)).
    assert (T ≡ₚ o :: concat (<[i:=l1 ++ l2]> B)) as HT.
    { rewrite <- Hp, (concat_at B i _ El), (concat_update B i _ _ El). rewrite <- !app_assoc. simpl. by rewrite <- !Permutation_middle. }
    split; [done|]. pose proof (Permutation_length HT) as HlT. simpl in HlT. split; [simpl; rewrite Ee, He; lia|]. split; [simpl; lia|].
    by exists (<[i := l1 ++ a :: l2]> B).
Qed.

(** The table of a new cache. *)
Lemma new_HandleTable_spec : exists t m', new_HandleTable (V := V) empty_memory = Some (t, m') /\ table_ok t m' [] /\ chains_only empty_memory m' [].
Proof using Hhf.
  destruct (Resize_spec (MkTable 0 0 []) empty_memory [] []) as (t & m' & E & Ht & Hco); [constructor|done|apply NoDup_nil_2|done|done|by intros a []|by intros a b k []|].
  by exists t, m'.
Qed.

(** ** Changes that a table does not see *)

Lemma table_ok_frame t m m' T : (forall a, In a T -> m_next_hash m' !! a = m_next_hash m !! a) ->
  (forall a k, In a T -> key_at m a k <-> key_at m' a k) -> table_ok t m T -> table_ok t m' T.
Proof.
  intros Hn Hk (He & Hr & B & Hc & Hp). split; [done|]. split; [done|]. exists B. split; [|done].
  assert (forall i l a, B !! i = Some l -> In a l -> In a T) as HT by (intros i l a El Ha; rewrite <- Hp; by eapply in_chain).
  split; [apply Hc| |apply Hc| |].
  - apply Forall2_same_length_lookup. split; [eapply Forall2_length, Hc|]. intros j q lq Eq Elq.
    eapply hash_chain_frame; [|exact (Forall2_lookup_lr _ _ _ _ _ _ (ck_chains _ _ _ Hc) Eq Elq)]. intros b Hb. apply Hn. by eapply HT.
  - intros i l a El Ha. destruct (ck_place _ _ _ Hc i l a El Ha) as (k & Hka & Hb). exists k. split; [|done]. apply Hk; [by eapply HT|done].
  - intros a b k Ha Hb Hka Hkb. rewrite Hp in Ha, Hb. apply (ck_unique _ _ _ Hc a b k); [by rewrite Hp..| |]; by apply Hk.
Qed.
End Table.

Section Shard.
Context {V : Type} {hf : list byte -> Z} {Hhf : forall k, 0 <= hf k < 2 ^ 32}.
Implicit Types m : memory (V := V).
Implicit Types outs : list (nat * V).

(** How many handles of an entry are out. *)
Definition cnt (a : nat) outs : Z := Z.of_nat (length (base.filter (fun x : nat * V => x.1 = a) outs)).

Lemma cnt_cons a b v outs : cnt a ((b, v) :: outs) = (if decide (b = a) then 1 else 0) + cnt a outs.
Proof. unfold cnt. rewrite filter_cons. simpl. destruct (decide (b = a)); simpl; lia. Qed.

Lemma cnt_nonneg a outs : 0 <= cnt a outs.
Proof. unfold cnt. lia. Qed.

Lemma cnt_bound a outs : cnt a outs <= Z.of_nat (length outs).
Proof. unfold cnt. pose proof (length_filter (fun x : nat * V => x.1 = a) outs). lia. Qed.

Lemma cnt_perm a outs outs' : outs ≡ₚ outs' -> cnt a outs = cnt a outs'.
Proof. intros Hp. unfold cnt. by rewrite Hp. Qed.

(** ** The memory of a shard *)

(** What holds of an entry, with the lists of the cache and the handles that are out. *)
Record entry_ok (i : nat) m (L U : list nat) outs (a : nat) (e : LRUHandle (V := V)) : Prop := {
  eo_hash : hash e = hf (key_data e);
  eo_shard : Shard (hash e) = i;
  eo_charge : 1 <= charge e < 2 ^ 32;
  eo_next : next_ok m a;
  eo_brk : (a < brk m)%nat;
  eo_refs : refs e = (if in_cache e then 1 else 0) + cnt a outs;
  eo_pos : 1 <= refs e;
  eo_cache : in_cache e = true <-> In a (L ++ U);
  eo_lru : In a L -> cnt a outs = 0;
  eo_use : In a U -> 1 <= cnt a outs;
}.

Record minv (i : nat) m (L U : list nat) outs : Prop := {
  mi_rings : rings m L U;
  mi_entries a e : entries m !! a = Some e -> entry_ok i m L U outs a e;
  mi_out a v : In (a, v) outs -> exists e, entries m !! a = Some e /\ value e = v;
  mi_room : Z.of_nat (length outs) < 2 ^ 31;
}.

Lemma in_cache_entry i m L U outs a : minv i m L U outs -> In a (L ++ U) -> exists e, entries m !! a = Some e /\ in_cache e = true.
Proof.
  intros Hm Ha. destruct (rg_alloc _ _ _ (mi_rings _ _ _ _ _ Hm) a Ha) as [e E]. exists e. split; [done|].
  by apply (eo_cache _ _ _ _ _ _ _ (mi_entries _ _ _ _ _ Hm a e E)).
Qed.

Lemma set_entry_spec a e e0 m : entries m !! a = Some e0 ->
  set_entry a e m = Some (Memory (<[a := e]> (entries m)) (m_next_hash m) (m_next m) (m_prev m) (deleted m) (brk m)).
Proof. unfold set_entry. by intros ->. Qed.

(** The lists only need the links and that their entries are there. *)
Lemma rings_frame m m' L U : (forall n, (n = LruHead \/ n = InUseHead \/ on_nodes (L ++ U) n) -> m_next m' !! n = m_next m !! n /\ m_prev m' !! n = m_prev m !! n) ->
  all_allocated (L ++ U) m' -> rings m L U -> rings m' L U.
Proof.
  intros Hl Ha [HL HU Hn _]. split; [| |done|done].
  - eapply seg_frame; [| |exact HL]; intros n [->|(b & Hb & ->)]; apply Hl; auto; right; right; exists b; (split; [apply in_app_iff; by left|done]).
  - eapply seg_frame; [| |exact HU]; intros n [->|(b & Hb & ->)]; apply Hl; auto; right; right; exists b; (split; [apply in_app_iff; by right|done]).
Qed.

Lemma rings_set_entry m L U a e : rings m L U -> is_Some (entries m !! a) ->
  rings (Memory (<[a := e]> (entries m)) (m_next_hash m) (m_next m) (m_prev m) (deleted m) (brk m)) L U.
Proof.
  intros Hr Ha. eapply rings_frame; [|  |exact Hr]; [done|]. intros b Hb. simpl. destruct (decide (a = b)) as [->|Hne]; [by rewrite lookup_insert_eq|].
  rewrite lookup_insert_ne by done. by apply (rg_alloc _ _ _ Hr).
Qed.

(** What the operations on one entry leave alone. *)
Definition others_same (a : nat) m m' : Prop :=
  (forall b, b <> a -> entries m' !! b = entries m !! b) /\ (forall b, b <> a -> m_next_hash m' !! b = m_next_hash m !! b) /\
  (forall b, next_ok m b -> b <> a -> next_ok m' b) /\ brk m' = brk m.

(** The other entries are as good as before. *)
Lemma others_ok i m m' L U L' U' outs outs' a : minv i m L U outs -> others_same a m m' ->
  (forall b, b <> a -> cnt b outs' = cnt b outs) -> (forall b, b <> a -> In b (L' ++ U') <-> In b (L ++ U)) ->
  (forall b, b <> a -> In b L' -> In b L) -> (forall b, b <> a -> In b U' -> In b U) ->
  forall b e, b <> a -> entries m' !! b = Some e -> entry_ok i m' L' U' outs' b e.
Proof.
  intros Hm (He & _ & Hn & Hb) Hc Hin HL HU b e Hne E. rewrite He in E by done.
  destruct (mi_entries _ _ _ _ _ Hm b e E) as [H1 H2 H3 H4 H5 H6 H7 H8 H9 H10]. split; try done.
  - by apply Hn.
  - by rewrite Hb.
  - by rewrite Hc.
  - by rewrite Hin.
  - intros Hbl. rewrite Hc by done. by apply H9, HL.
  - intros Hbu. rewrite Hc by done. by apply H10, HU.
Qed.

Lemma outs_other m m' outs a : (forall b v, In (b, v) outs -> exists e, entries m !! b = Some e /\ value e = v) -> others_same a m m' ->
  (forall v, In (a, v) outs -> exists e, entries m' !! a = Some e /\ value e = v) ->
  forall b v, In (b, v) outs -> exists e, entries m' !! b = Some e /\ value e = v.
Proof.
  intros Ho (He & _) Ha b v Hin. destruct (decide (b = a)) as [->|Hne]; [by apply Ha|]. rewrite He by done. by apply Ho.
Qed.

(** ** Taking a reference *)

Lemma Ref_spec i m L U outs a e : minv i m L U outs -> entries m !! a = Some e -> In a (L ++ U) -> Z.of_nat (length outs) + 1 < 2 ^ 31 ->
  exists m' L' U', Ref a m = Some m' /\ minv i m' L' U' ((a, value e) :: outs) /\ L' ++ U' ≡ₚ L ++ U /\ m_next_hash m' = m_next_hash m /\
    others_same a m m' /\ entries m' !! a = Some (with_refs (refs e + 1) e).
Proof.
  intros Hm Ee Ha Hroom. pose proof (mi_entries _ _ _ _ _ Hm a e Ee) as Hok. pose proof (cnt_bound a outs). pose proof (cnt_nonneg a outs).
  pose proof (eo_refs _ _ _ _ _ _ _ Hok) as Hrefs. pose proof (proj2 (eo_cache _ _ _ _ _ _ _ Hok) Ha) as Hic. rewrite Hic in Hrefs.
  assert (forall m1, entries m1 = entries m -> m_next_hash m1 = m_next_hash m -> brk m1 = brk m -> (forall b, next_ok m b -> next_ok m1 b) ->
    forall L' U', rings m1 L' U' -> L' ++ U' ≡ₚ L ++ U -> (forall b, b <> a -> In b L' -> In b L) -> (forall b, b <> a -> In b U' -> In b U) -> ~ In a L' ->
    exists m', set_entry a (with_refs (u32 (refs e + 1)) e) m1 = Some m' /\ minv i m' L' U' ((a, value e) :: outs) /\ L' ++ U' ≡ₚ L ++ U /\
      m_next_hash m' = m_next_hash m /\ others_same a m m' /\ entries m' !! a = Some (with_refs (refs e + 1) e)) as Hfin.
  { intros m1 E1 E2 E3 Hn L' U' Hr Hp HL HU HaL. rewrite (set_entry_spec a _ e) by by rewrite E1. rewrite u32_id by lia. eexists. split; [done|].
    set (m' := Memory _ _ _ _ _ _).
    assert (others_same a m m') as Hos.
    { split; [|split; [by intros; rewrite <- E2|split; [by intros b Hb _; apply Hn|done]]]. intros b Hb. unfold m'. cbn [entries]. rewrite E1. by apply lookup_insert_ne. }
    assert (entries m' !! a = Some (with_refs (refs e + 1) e)) as Ea by (unfold m'; cbn [entries]; by rewrite lookup_insert_eq).
    split; [|done]. split.
    - by apply rings_set_entry; [|by rewrite E1].
    - intros b eb Eb. destruct (decide (b = a)) as [->|Hne].
      + rewrite Ea in Eb. injection Eb as <-. destruct Hok as [H1 H2 H3 H4 H5 H6 H7 H8 H9 H10]. split; simpl; try done.
        * by apply Hn.
        * by rewrite E3.
        * rewrite cnt_cons, decide_True, Hic by done. lia.
        * lia.
        * by rewrite Hp.
        * intros _. rewrite cnt_cons, decide_True by done. lia.
      + apply (others_ok i m m' L U L' U' outs _ a Hm Hos); try done.
        * intros c Hc. rewrite cnt_cons, decide_False by done. lia.
        * intros c _. by rewrite Hp.
    - intros b v [[= <- <-]|Hin]; [by eexists|]. apply (outs_other m m' outs a); [apply Hm|done| |done].
      intros v' Hin'. destruct (mi_out _ _ _ _ _ Hm a v' Hin') as (e' & E' & <-). rewrite Ea. assert (e' = e) as -> by congruence. by eexists.
    - simpl. lia. }
  unfold Ref. rewrite Ee. cbn [mbind option_bind]. rewrite Hic, andb_true_r. destruct (Z.eqb_spec (refs e) 1) as [E1|E1].
  - destruct (rings_remove m L U a (mi_rings _ _ _ _ _ Hm) Ha) as (m1 & L1 & U1 & -> & Hr1 & Hlo1 & Hn1 & Hp1 & HL1 & HU1 & _). cbn [mbind option_bind].
    pose proof (rg_nodup _ _ _ (mi_rings _ _ _ _ _ Hm)) as Hnd. rewrite Hp1 in Hnd. apply NoDup_cons in Hnd as [Ha1 _]. rewrite list_elem_of_In in Ha1.
    destruct (rings_append_use m1 L1 U1 a Hr1 Ha1) as (m2 & -> & Hr2 & Hlo2 & _ & Hn2); [by rewrite (lo_entries _ _ Hlo1), Ee|]. cbn [mbind option_bind].
    edestruct (Hfin m2) as (m' & E & Hm' & Hp' & Hnh & Hos & Ea); [| | | |exact Hr2| | | | |].
    + by rewrite (lo_entries _ _ Hlo2), (lo_entries _ _ Hlo1).
    + by rewrite (lo_next_hash _ _ Hlo2), (lo_next_hash _ _ Hlo1).
    + by rewrite (lo_brk _ _ Hlo2), (lo_brk _ _ Hlo1).
    + intros b Hb. by apply Hn2, Hn1.
    + rewrite app_assoc, Hp1. symmetry. apply Permutation_cons_append.
    + intros b _. apply HL1.
    + intros b Hne [Hb|[->|[]]]%in_app_iff; [by apply HU1|done].
    + intros Hin. apply Ha1, in_app_iff. by left.
    + exists m', L1, (U1 ++ [a]). by split_and!.
  - cbn [mbind option_bind]. destruct (Hfin m eq_refl eq_refl eq_refl (fun b H => H) L U) as (m' & E & Hm' & Hp' & Hnh & Hos & Ea); [apply Hm|done|done|done| |].
    + intros HaL. pose proof (eo_lru _ _ _ _ _ _ _ Hok HaL). lia.
    + exists m', L, U. by split_and!.
Qed.

(** ** Giving a reference back *)

Lemma free_spec m L U a e : rings m L U -> ~ In a (L ++ U) -> entries m !! a = Some e -> next_ok m a ->
  exists m', free_entry a m = Some m' /\ rings m' L U /\ others_same a m m' /\ entries m' !! a = None.
Proof.
  intros Hr Ha Ee (n & En & Hn). unfold free_entry, handle_key. rewrite Ee. cbn [mbind option_bind]. rewrite En. cbn [mbind option_bind].
  rewrite decide_False by done. cbn [mbind option_bind]. eexists. split; [done|]. split; [|split; [|by apply lookup_delete_eq]].
  - eapply rings_frame; [| |exact Hr]; cbn [entries m_next m_prev].
    + intros x Hx. assert (Ent a <> x) as Hne by (intros <-; destruct Hx as [?|[?|(b & Hb & [= <-])]]; done).
      by rewrite !lookup_delete_ne by done.
    + intros b Hb. cbn [entries]. rewrite lookup_delete_ne by (intros ->; done). by apply (rg_alloc _ _ _ Hr).
  - split; [intros b Hb; by apply lookup_delete_ne|]. split; [intros b Hb; by apply lookup_delete_ne|]. split; [|done].
    intros b (x & Ex & Hx) Hb. exists x. cbn [m_next]. rewrite lookup_delete_ne by congruence. done.
Qed.

Lemma others_same_trans a m m1 m2 : others_same a m m1 -> others_same a m1 m2 -> others_same a m m2.
Proof.
  intros (H1 & H2 & H3 & H4) (H5 & H6 & H7 & H8). split; [intros b Hb; by rewrite H5, H1|]. split; [intros b Hb; by rewrite H6, H2|].
  split; [intros b Hb Hne; apply H7; [|done]; by apply H3|by rewrite H8].
Qed.

Lemma others_same_links a m m' : links_only m m' -> (forall b, next_ok m b -> next_ok m' b) -> others_same a m m'.
Proof.
  intros [E1 E2 E3 E4] Hn. split; [by intros; rewrite E1|]. split; [by intros; rewrite E2|]. split; [by intros; apply Hn|done].
Qed.

Lemma others_same_set a e m : others_same a m (Memory (<[a := e]> (entries m)) (m_next_hash m) (m_next m) (m_prev m) (deleted m) (brk m)).
Proof. split; [|done]. intros b Hb. by apply lookup_insert_ne. Qed.

(** The entry [a] has changed to [e'], or is gone. *)
Lemma minv_change i m m' L U L' U' outs outs' a : minv i m L U outs -> others_same a m m' -> rings m' L' U' ->
  (forall b, b <> a -> cnt b outs' = cnt b outs) -> (forall b, b <> a -> In b (L' ++ U') <-> In b (L ++ U)) ->
  (forall b, b <> a -> In b L' -> In b L) -> (forall b, b <> a -> In b U' -> In b U) ->
  (forall x, In x outs' -> In x outs) -> (length outs' <= length outs)%nat ->
  (forall e', entries m' !! a = Some e' -> entry_ok i m' L' U' outs' a e') ->
  (forall v, In (a, v) outs' -> exists e', entries m' !! a = Some e' /\ value e' = v) -> minv i m' L' U' outs'.
Proof.
  intros Hm Hos Hr Hc Hin HL HU Hsub Hlen Ha Hv. split; [done| | |].
  - intros b e Eb. destruct (decide (b = a)) as [->|Hne]; [by apply Ha|]. by apply (others_ok i m m' L U L' U' outs outs' a).
  - apply (outs_other m m' outs' a); [|done|done]. intros b v Hb. by apply (mi_out _ _ _ _ _ Hm), Hsub.
  - pose proof (mi_room _ _ _ _ _ Hm). lia.
Qed.

Lemma cnt_in a v outs : In (a, v) outs -> 1 <= cnt a outs.
Proof.
  induction outs as [|[b w] outs IH]; [done|]. intros [[= -> ->]|Hin]; rewrite cnt_cons.
  - rewrite decide_True by done. pose proof (cnt_nonneg a outs). lia.
  - specialize (IH Hin). case_decide; lia.
Qed.

Lemma Unref_spec i m L U outs a v e : minv i m L U ((a, v) :: outs) -> entries m !! a = Some e ->
  exists m' L' U', Unref a m = Some m' /\ minv i m' L' U' outs /\ L' ++ U' ≡ₚ L ++ U /\ others_same a m m' /\
    (In a (L ++ U) -> entries m' !! a = Some (with_refs (refs e - 1) e) /\ m_next_hash m' !! a = m_next_hash m !! a).
Proof.
  intros Hm Ee. pose proof (mi_entries _ _ _ _ _ Hm a e Ee) as Hok. pose proof (mi_room _ _ _ _ _ Hm) as Hroom. simpl in Hroom.
  pose proof (eo_refs _ _ _ _ _ _ _ Hok) as Hrefs. rewrite cnt_cons, decide_True in Hrefs by done. pose proof (cnt_nonneg a outs) as Hc0.
  pose proof (cnt_bound a outs) as Hcb. pose proof (eo_pos _ _ _ _ _ _ _ Hok) as Hpos.
  assert (refs e <= 2 + Z.of_nat (length outs)) as Hmax by (destruct (in_cache e); lia).
  assert (forall b, b <> a -> cnt b outs = cnt b ((a, v) :: outs)) as Hcnt by (intros b Hb; rewrite cnt_cons, decide_False by done; lia).
  unfold Unref. rewrite Ee. cbn [mbind option_bind]. destruct (Z.leb_spec (refs e) 0); [lia|]. cbv zeta. rewrite u32_id by lia.
  rewrite (set_entry_spec a _ e) by done. cbn [mbind option_bind]. set (m1 := Memory _ _ _ _ _ _).
  assert (others_same a m m1) as Hos1 by apply others_same_set.
  assert (rings m1 L U) as Hr1 by (apply rings_set_entry; [apply Hm|by rewrite Ee]).
  assert (entries m1 !! a = Some (with_refs (refs e - 1) e)) as Ea1 by (unfold m1; cbn [entries]; by rewrite lookup_insert_eq).
  assert (next_ok m1 a) as Hn1 by apply Hok.
  assert (forall w, In (a, w) outs -> w = value e) as Hval.
  { intros w Hw. destruct (mi_out _ _ _ _ _ Hm a w (or_intror Hw)) as (e' & E' & <-). by assert (e' = e) as -> by congruence. }
  cbn [refs with_refs in_cache]. destruct (Z.eqb_spec (refs e - 1) 0) as [E0|E0].
  - (* the last reference of an entry that is not in the cache *)
    destruct (in_cache e) eqn:Hic; [lia|].
    assert (~ In a (L ++ U)) as Ha by (intros Hin; apply (eo_cache _ _ _ _ _ _ _ Hok) in Hin; congruence).
    destruct (free_spec m1 L U a _ Hr1 Ha Ea1 Hn1) as (m' & E & Hr' & Hos' & Ea'). exists m', L, U. split; [done|].
    assert (others_same a m m') as Hos by by eapply others_same_trans. split; [|split; [done|split; [done|by intros ?]]].
    eapply (minv_change i m m' L U L U _ outs a Hm Hos Hr' Hcnt); try done; [by intros x Hx; right|simpl; lia|by intros e'; rewrite Ea'|].
    intros w Hw%cnt_in. lia.
  - destruct (in_cache e) eqn:Hic; cbn [andb].
    + assert (In a (L ++ U)) as Ha by by apply (eo_cache _ _ _ _ _ _ _ Hok). destruct (Z.eqb_spec (refs e - 1) 1) as [E1|E1].
      * (* only the cache refers to it now *)
        destruct (rings_remove m1 L U a Hr1 Ha) as (m2 & L2 & U2 & -> & Hr2 & Hlo2 & Hn2 & Hp2 & HL2 & HU2 & _). cbn [mbind option_bind].
        pose proof (rg_nodup _ _ _ Hr1) as Hnd. rewrite Hp2 in Hnd. apply NoDup_cons in Hnd as [Ha2 _]. rewrite list_elem_of_In in Ha2.
        destruct (rings_append_lru m2 L2 U2 a Hr2 Ha2) as (m' & -> & Hr' & Hlo' & Hna & Hn'); [by rewrite (lo_entries _ _ Hlo2), Ea1|].
        assert (others_same a m m') as Hos.
        { eapply others_same_trans; [exact Hos1|]. eapply others_same_trans; [by apply others_same_links|by apply others_same_links]. }
        assert ((L2 ++ [a]) ++ U2 ≡ₚ L ++ U) as Hp' by (rewrite Hp2, <- app_assoc; simpl; by rewrite <- Permutation_middle).
        assert (entries m' !! a = Some (with_refs (refs e - 1) e)) as Ea' by by rewrite (lo_entries _ _ Hlo'), (lo_entries _ _ Hlo2).
        exists m', (L2 ++ [a]), U2. split; [done|]. split; [|split; [done|split; [done|]]].
        -- eapply (minv_change i m m' L U _ U2 _ outs a Hm Hos Hr' Hcnt).
           ++ intros b _. by rewrite Hp'.
           ++ intros b Hne [Hb|[->|[]]]%in_app_iff; [by apply HL2|done].
           ++ intros b _. apply HU2.
           ++ by intros x Hx; right.
           ++ simpl. lia.
           ++ intros e'. rewrite Ea'. intros [= <-]. destruct Hok. split; simpl; try done.
              ** rewrite (lo_brk _ _ Hlo'), (lo_brk _ _ Hlo2). done.
              ** rewrite Hic. lia.
              ** lia.
              ** by rewrite Hp'.
              ** intros _. lia.
              ** intros Hin. destruct Ha2. apply in_app_iff. by right.
           ++ intros w Hw. exists (with_refs (refs e - 1) e). split; [done|]. simpl. by rewrite (Hval w).
        -- intros _. split; [done|]. by rewrite (lo_next_hash _ _ Hlo'), (lo_next_hash _ _ Hlo2).
      * exists m1, L, U. split; [done|]. split; [|split; [done|split; [done|done]]].
        eapply (minv_change i m m1 L U L U _ outs a Hm Hos1 Hr1 Hcnt); try done; [by intros x Hx; right|simpl; lia| |].
        -- intros e'. rewrite Ea1. intros [= <-]. destruct Hok as [H1 H2 H3 H4 H5 H6 H7 H8 H9 H10]. split; simpl; try done; [rewrite Hic; lia|lia| |lia].
           intros HaL. specialize (H9 HaL). rewrite cnt_cons, decide_True in H9 by done. lia.
        -- intros w Hw. exists (with_refs (refs e - 1) e). split; [done|]. simpl. by rewrite (Hval w).
    + (* it is not in the cache any more, and still referred to *)
      assert (~ In a (L ++ U)) as Ha by (intros Hin; apply (eo_cache _ _ _ _ _ _ _ Hok) in Hin; congruence).
      exists m1, L, U. split; [done|]. split; [|split; [done|split; [done|done]]].
      eapply (minv_change i m m1 L U L U _ outs a Hm Hos1 Hr1 Hcnt); try done; [by intros x Hx; right|simpl; lia| |].
      * intros e'. rewrite Ea1. intros [= <-]. destruct Hok as [H1 H2 H3 H4 H5 H6 H7 H8 H9 H10]. split; simpl; try done; [rewrite Hic; lia|lia| |].
        -- intros HaL. destruct Ha. apply in_app_iff. by left.
        -- intros HaU. destruct Ha. apply in_app_iff. by right.
      * intros w Hw. exists (with_refs (refs e - 1) e). split; [done|]. simpl. by rewrite (Hval w).
Qed.

(** ** Leaving the cache *)

(** An entry out of the lists loses the reference of the cache. *)
Lemma Unref_erased i m0 m L U L' U' outs a e : minv i m0 L U outs -> entries m0 !! a = Some e -> in_cache e = true -> others_same a m0 m ->
  next_ok m a -> rings m L' U' -> L ++ U ≡ₚ a :: (L' ++ U') -> (forall b, In b L' -> In b L) -> (forall b, In b U' -> In b U) ->
  entries m !! a = Some (with_in_cache false e) ->
  exists m', Unref a m = Some m' /\ minv i m' L' U' outs /\ others_same a m0 m'.
Proof.
  intros Hm Ee0 Hic Hos0 Hna Hr Hp HL HU Ee. pose proof (mi_entries _ _ _ _ _ Hm a e Ee0) as Hok.
  pose proof (eo_refs _ _ _ _ _ _ _ Hok) as Hrefs. rewrite Hic in Hrefs. pose proof (cnt_nonneg a outs). pose proof (cnt_bound a outs).
  pose proof (mi_room _ _ _ _ _ Hm). pose proof (rg_nodup _ _ _ (mi_rings _ _ _ _ _ Hm)) as Hnd. rewrite Hp in Hnd.
  apply NoDup_cons in Hnd as [Ha _]. rewrite list_elem_of_In in Ha.
  assert (forall b, b <> a -> In b (L' ++ U') <-> In b (L ++ U)) as Hin.
  { intros b Hb. rewrite Hp. simpl. split; [auto|]. intros [->|?]; done. }
  unfold Unref. rewrite Ee. cbn [mbind option_bind refs with_in_cache]. destruct (Z.leb_spec (refs e) 0); [lia|]. cbv zeta. rewrite u32_id by lia.
  rewrite (set_entry_spec a _ _ m Ee). cbn [mbind option_bind]. set (m1 := Memory _ _ _ _ _ _). set (e1 := with_refs _ _) in m1.
  assert (others_same a m0 m1) as Hos1 by (eapply others_same_trans; [exact Hos0|apply others_same_set]).
  assert (rings m1 L' U') as Hr1 by (apply rings_set_entry; [done|by rewrite Ee]).
  assert (entries m1 !! a = Some e1) as Ea1 by (unfold m1; cbn [entries]; by rewrite lookup_insert_eq).
  cbn [refs with_refs in_cache with_in_cache]. destruct (Z.eqb_spec (refs e - 1) 0) as [E0|E0].
  - destruct (free_spec m1 L' U' a e1 Hr1 Ha Ea1 Hna) as (m' & E & Hr' & Hos' & Ea'). exists m'. split; [done|].
    assert (others_same a m0 m') as Hos by by eapply others_same_trans. split; [|done].
    eapply (minv_change i m0 m' L U L' U' outs outs a Hm Hos Hr'); try done; [by intros; apply HL|by intros; apply HU|by intros e'; rewrite Ea'|].
    intros w Hw%cnt_in. lia.
  - cbn [andb]. exists m1. split; [done|]. split; [|done].
    eapply (minv_change i m0 m1 L U L' U' outs outs a Hm Hos1 Hr1); try done; [by intros; apply HL|by intros; apply HU| |].
    + intros e'. rewrite Ea1. intros [= <-]. destruct Hok as [K1 K2 K3 K4 K5 K6 K7 K8 K9 K10]. split; simpl; try done; [|lia|lia| |].
      * destruct Hos1 as (_ & _ & _ & Hbrk). change (brk m) with (brk m1). by rewrite Hbrk.
      * intros Hl. destruct Ha. apply in_app_iff. by left.
      * intros Hu. destruct Ha. apply in_app_iff. by right.
    + intros w Hw. exists e1. split; [done|]. destruct (mi_out _ _ _ _ _ Hm a w Hw) as (e' & E' & <-). by assert (e' = e) as -> by congruence.
Qed.

Lemma FinishErase_spec i c L U outs a e : minv i (mem c) L U outs -> entries (mem c) !! a = Some e -> In a (L ++ U) ->
  exists m' L' U', FinishErase (Some a) c = Some (true, MkCache (capacity_ c) (u64 (usage_ c - charge e)) (table_ c) m') /\
    minv i m' L' U' outs /\ L ++ U ≡ₚ a :: (L' ++ U') /\ others_same a (mem c) m' /\ (forall l, L = a :: l -> L' = l /\ U' = U).
Proof.
  intros Hm Ee Ha. pose proof (proj2 (eo_cache _ _ _ _ _ _ _ (mi_entries _ _ _ _ _ Hm a e Ee)) Ha) as Hic.
  unfold FinishErase. rewrite Ee. cbn [mbind option_bind]. rewrite Hic. cbn [negb].
  destruct (rings_remove (mem c) L U a (mi_rings _ _ _ _ _ Hm) Ha) as (m1 & L1 & U1 & -> & Hr1 & Hlo1 & Hn1 & Hp1 & HL1 & HU1 & Hhead).
  cbn [mbind option_bind]. rewrite (set_entry_spec a _ e) by by rewrite (lo_entries _ _ Hlo1). cbn [mbind option_bind]. set (m2 := Memory _ _ _ _ _ _).
  assert (others_same a (mem c) m2) as Hos2 by (eapply others_same_trans; [by apply others_same_links|apply others_same_set]).
  destruct (Unref_erased i (mem c) m2 L U L1 U1 outs a e Hm Ee Hic Hos2) as (m' & -> & Hm' & Hos'); try done.
  - apply Hn1, (eo_next _ _ _ _ _ _ _ (mi_entries _ _ _ _ _ Hm a e Ee)).
  - apply rings_set_entry; [done|]. by rewrite (lo_entries _ _ Hlo1), Ee.
  - unfold m2. cbn [entries]. by rewrite lookup_insert_eq.
  - cbn [mbind option_bind]. exists m', L1, U1. by split_and!.
Qed.
End Shard.
