(* ===== verification/CacheSharded.v ===== *)
(** * The sharded cache keeps its contract *)
From S2P Require Import Prelude Comparator FilterBlock Interfaces Cache CacheProps.

(** ** The operations of one shard of the cache

    The entries of a shard are in the list [L] of those that are only in the
    cache, the one used longest ago first, or in the list [U] of those that
    clients hold handles of; the hash table has the same entries. *)

Section Shard.
Context {V : Type} {hf : list byte -> Z} {Hhf : forall k, 0 <= hf k < 2 ^ 32}.
Implicit Types m : memory (V := V).
Implicit Types c : LRUCache (V := V).
Implicit Types outs : list (nat * V).
Implicit Types known : list byte -> option V.

Abbreviation minv := (minv (hf := hf)).
Abbreviation key_at := (key_at (hf := hf)).
Abbreviation table_ok := (table_ok (hf := hf)).

Definition charge_at m (a : nat) : Z := match entries m !! a with Some e => charge e | None => 0 end.

Fixpoint charges m (l : list nat) : Z := match l with [] => 0 | a :: l => charge_at m a + charges m l end.

(** ** Entries that are still the same *)

Definition same_entry (e e' : LRUHandle (V := V)) : Prop :=
  value e' = value e /\ key_data e' = key_data e /\ hash e' = hash e /\ charge e' = charge e.

Definition kept (l : list nat) m m' : Prop :=
  forall a, In a l -> m_next_hash m' !! a = m_next_hash m !! a /\
    exists e e', entries m !! a = Some e /\ entries m' !! a = Some e' /\ same_entry e e'.

Lemma kept_sub l l' m m' : (forall a, In a l' -> In a l) -> kept l m m' -> kept l' m m'.
Proof. intros Hl Hk a Ha. by apply Hk, Hl. Qed.

Lemma kept_others l m m' a : others_same a m m' -> ~ In a l -> all_allocated l m -> kept l m m'.
Proof.
  intros (He & Hn & _) Ha Hal b Hb. assert (b <> a) as Hne by (by intros ->). split; [by apply Hn|].
  destruct (Hal b Hb) as [e E]. exists e, e. by rewrite He.
Qed.

Lemma kept_entry l m m' a e e' : others_same a m m' -> all_allocated l m -> entries m !! a = Some e -> entries m' !! a = Some e' ->
  same_entry e e' -> m_next_hash m' !! a = m_next_hash m !! a -> kept l m m'.
Proof.
  intros (He & Hn & _) Hal E E' Hs Hh b Hb. destruct (decide (b = a)) as [->|Hne]; [split; [done|]; by exists e, e'|].
  split; [by apply Hn|]. destruct (Hal b Hb) as [eb Eb]. exists eb, eb. by rewrite He.
Qed.

Lemma charges_kept l m m' : kept l m m' -> charges m' l = charges m l.
Proof.
  induction l as [|a l IH]; intros Hk; [done|]. simpl. rewrite IH by (eapply kept_sub; [|exact Hk]; by right).
  destruct (Hk a (or_introl eq_refl)) as (_ & e & e' & E & E' & _ & _ & _ & Ec). unfold charge_at. rewrite E, E'. lia.
Qed.

Lemma charges_entries m m' l : entries m' = entries m -> charges m' l = charges m l.
Proof. intros E. induction l as [|a l IH]; [done|]. simpl. unfold charge_at. by rewrite IH, E. Qed.

Lemma charges_perm m l l' : l ≡ₚ l' -> charges m l = charges m l'.
Proof. induction 1; simpl; lia. Qed.

Lemma charges_bounds i m L U outs l : minv i m L U outs -> (forall a, In a l -> In a (L ++ U)) ->
  Z.of_nat (length l) <= charges m l <= Z.of_nat (length l) * 2 ^ 32.
Proof.
  intros Hm. induction l as [|a l IH]; intros Hl; simpl; [lia|]. destruct (in_cache_entry i m L U outs a Hm) as (e & E & _); [apply Hl; by left|].
  unfold charge_at. rewrite E. pose proof (eo_charge _ _ _ _ _ _ _ (mi_entries _ _ _ _ _ Hm a e E)). destruct IH; [intros b Hb; apply Hl; by right|]. lia.
Qed.

Lemma key_at_entry i m L U outs a e : minv i m L U outs -> entries m !! a = Some e -> key_at m a (key_data e).
Proof. intros Hm E. destruct (mi_entries _ _ _ _ _ Hm a e E). by exists e. Qed.

Lemma key_at_kept i m L U outs i' m' L' U' outs' l a k : minv i m L U outs -> minv i' m' L' U' outs' -> kept l m m' -> In a l ->
  key_at m a k <-> key_at m' a k.
Proof.
  intros Hm Hm' Hk Ha. destruct (Hk a Ha) as (_ & e & e' & E & E' & _ & Ek & _). split; intros Hka.
  - rewrite (key_at_eq _ _ _ _ Hka (key_at_entry _ _ _ _ _ _ _ Hm E)), <- Ek. by eapply key_at_entry.
  - rewrite (key_at_eq _ _ _ _ Hka (key_at_entry _ _ _ _ _ _ _ Hm' E')), Ek. by eapply key_at_entry.
Qed.

Lemma table_kept i m L U outs i' m' L' U' outs' t T : minv i m L U outs -> minv i' m' L' U' outs' -> kept T m m' ->
  table_ok t m T -> table_ok t m' T.
Proof.
  intros Hm Hm' Hk. apply table_ok_frame; [intros a Ha; by apply Hk|]. intros a k Ha. by eapply key_at_kept.
Qed.

Lemma table_perm t m T T' : T ≡ₚ T' -> table_ok t m T -> table_ok t m T'.
Proof. intros Hp (He & Hr & B & Hc & HB). rewrite (Permutation_length Hp) in He, Hr. split; [done|]. split; [done|]. exists B. by rewrite HB. Qed.

Lemma table_unique t m T a b k : table_ok t m T -> In a T -> In b T -> key_at m a k -> key_at m b k -> a = b.
Proof. intros (_ & _ & B & Hc & HB) Ha Hb. apply (ck_unique _ _ _ Hc); by rewrite HB. Qed.

(** The hash table only writes its own links. *)
Lemma minv_chains i m m' L U outs l : chains_only m m' l -> minv i m L U outs -> minv i m' L U outs.
Proof.
  intros (Ee & En & Ep & _ & Eb & _) Hm. assert (forall a, next_ok m a -> next_ok m' a) as Hn by (intros a (n & E & ?); exists n; by rewrite En).
  split; [| | |apply Hm].
  - eapply rings_frame; [| |apply Hm]; [intros; by rewrite En, Ep|]. intros a Ha. rewrite Ee. by apply (rg_alloc _ _ _ (mi_rings _ _ _ _ _ Hm)).
  - intros a e E. rewrite Ee in E. destruct (mi_entries _ _ _ _ _ Hm a e E). split; try done; [by apply Hn|by rewrite Eb].
  - intros a v Ha. rewrite Ee. by apply Hm.
Qed.

(** ** The invariant of a shard *)

(** What the entries of the cache say is [known]. *)
Definition entries_known m known (l : list nat) : Prop :=
  forall a e, In a l -> entries m !! a = Some e -> known (key_data e) = Some (value e).

Record cinv (N : Z) (i : nat) c known (L U : list nat) outs : Prop := {
  ci_mem : minv i (mem c) L U outs;
  ci_table : table_ok (table_ c) (mem c) (L ++ U);
  ci_known : entries_known (mem c) known (L ++ U);
  ci_usage : usage_ c = charges (mem c) (L ++ U);
  ci_size : Z.of_nat (length (L ++ U)) <= N;
  ci_cap : 0 < capacity_ c <= N;
  ci_limit : N < 2 ^ 31;
}.

Lemma known_kept m m' known l : kept l m m' -> entries_known m known l -> entries_known m' known l.
Proof.
  intros Hk He a e' Ha E'. destruct (Hk a Ha) as (_ & e & e1 & E & E1 & Ev & Ek & _). assert (e1 = e') as -> by congruence.
  rewrite Ek, Ev. by apply (He a).
Qed.

Lemma known_sub m known l l' : (forall a, In a l' -> In a l) -> entries_known m known l -> entries_known m known l'.
Proof. intros Hl He a e Ha. by apply He, Hl. Qed.

(** An operation that keeps the entries of the cache keeps the invariant. *)
Lemma cinv_kept N i c known L U outs m' L' U' outs' : cinv N i c known L U outs -> minv i m' L' U' outs' -> L' ++ U' ≡ₚ L ++ U ->
  kept (L ++ U) (mem c) m' -> cinv N i (with_mem m' c) known L' U' outs'.
Proof.
  intros [Hm Ht Hkn Hu Hs Hc Hl] Hm' Hp Hk. split; cbn [with_mem mem table_ usage_ capacity_]; try done.
  - eapply table_perm; [symmetry; exact Hp|]. by apply (table_kept i (mem c) L U outs i m' L' U' outs').
  - eapply known_sub; [|by eapply known_kept]. intros a Ha. by rewrite <- Hp.
  - rewrite Hu, (charges_perm _ _ _ Hp). symmetry. by apply charges_kept.
  - by rewrite (Permutation_length Hp).
Qed.

(** ** Lookup and Release *)

Lemma lru_Lookup_spec N i c known L U outs key : cinv N i c known L U outs -> Z.of_nat (length outs) + 1 < 2 ^ 31 ->
  exists r c' L' U', lru_Lookup key (hf key) c = Some (r, c') /\ capacity_ c' = capacity_ c /\
    match r with
    | Some a => exists v, known key = Some v /\ cinv N i c' known L' U' ((a, v) :: outs)
    | None => cinv N i c' known L' U' outs /\ forall a, In a (L ++ U) -> ~ key_at (mem c) a key
    end.
Proof using Hhf.
  intros Hc Hroom. pose proof (ci_mem _ _ _ _ _ _ _ Hc) as Hm.
  destruct (HT_Lookup_spec (Hhf := Hhf) key (table_ c) (mem c) (L ++ U) (ci_table _ _ _ _ _ _ _ Hc)) as (r & E & Hr).
  unfold lru_Lookup. rewrite E. cbn [mbind option_bind]. destruct r as [a|]; [|by exists None, c, L, U].
  destruct Hr as [Ha (e & Ee & Ek & _)].
  destruct (Ref_spec i (mem c) L U outs a e Hm Ee Ha Hroom) as (m' & L' & U' & -> & Hm' & Hp & Hnh & Hos & Ea). cbn [mbind option_bind].
  exists (Some a), (with_mem m' c), L', U'. split; [done|]. split; [done|]. exists (value e). split; [rewrite <- Ek; by apply (ci_known _ _ _ _ _ _ _ Hc a)|].
  eapply cinv_kept; [exact Hc|done|done|]. eapply kept_entry; [exact Hos|apply Hm|exact Ee|exact Ea|done|by rewrite Hnh].
Qed.

Lemma lru_Release_spec N i c known L U outs a v : cinv N i c known L U ((a, v) :: outs) ->
  exists c' L' U', lru_Release a c = Some c' /\ cinv N i c' known L' U' outs.
Proof.
  intros Hc. pose proof (ci_mem _ _ _ _ _ _ _ Hc) as Hm. destruct (mi_out _ _ _ _ _ Hm a v (or_introl eq_refl)) as (e & Ee & _).
  destruct (Unref_spec i (mem c) L U outs a v e Hm Ee) as (m' & L' & U' & E & Hm' & Hp & Hos & Hin). unfold lru_Release. rewrite E. cbn [mbind option_bind].
  exists (with_mem m' c), L', U'. split; [done|]. eapply cinv_kept; [exact Hc|done|done|].
  destruct (decide (a ∈ L ++ U)) as [Ha%list_elem_of_In|Ha].
  - destruct (Hin Ha) as [Ea Hnh]. by eapply kept_entry; [exact Hos|apply Hm|exact Ee|exact Ea| |].
  - eapply kept_others; [exact Hos| |apply Hm]. by rewrite <- list_elem_of_In.
Qed.

(** ** Entries that leave the cache *)

(** An entry that the hash table has given up leaves the cache. *)
Lemma FinishErase_cinv N i c known L U outs a T : minv i (mem c) L U outs -> L ++ U ≡ₚ a :: T -> table_ok (table_ c) (mem c) T ->
  entries_known (mem c) known T -> usage_ c = charges (mem c) (L ++ U) -> Z.of_nat (length T) <= N -> 0 < capacity_ c <= N -> N < 2 ^ 31 ->
  exists c' L' U', FinishErase (Some a) c = Some (true, c') /\ cinv N i c' known L' U' outs /\ L' ++ U' ≡ₚ T /\
    (forall l, L = a :: l -> L' = l /\ U' = U) /\ capacity_ c' = capacity_ c.
Proof.
  intros Hm Hp Ht Hkn Hu Hs Hc Hl. assert (In a (L ++ U)) as Ha by (rewrite Hp; by left).
  destruct (in_cache_entry _ _ _ _ _ _ Hm Ha) as (e & Ee & _).
  destruct (FinishErase_spec i c L U outs a e Hm Ee Ha) as (m' & L' & U' & E & Hm' & Hp' & Hos & Hhd).
  eexists _, L', U'. split; [exact E|]. assert (L' ++ U' ≡ₚ T) as HpT by (rewrite Hp' in Hp; by apply Permutation_cons_inv in Hp).
  pose proof (rg_nodup _ _ _ (mi_rings _ _ _ _ _ Hm)) as Hnd. rewrite Hp in Hnd. apply NoDup_cons in Hnd as [HaT _]. rewrite list_elem_of_In in HaT.
  assert (kept T (mem c) m') as Hk.
  { eapply kept_others; [exact Hos|done|]. intros b Hb. apply (rg_alloc _ _ _ (mi_rings _ _ _ _ _ Hm)). rewrite Hp. by right. }
  split; [|done]. split; cbn [mem table_ usage_ capacity_]; try done.
  - eapply table_perm; [symmetry; exact HpT|]. by apply (table_kept i (mem c) L U outs i m' L' U' outs).
  - eapply known_sub; [|by eapply known_kept]. intros b. by rewrite HpT.
  - pose proof (charges_bounds i (mem c) L U outs T Hm) as Hb. rewrite (charges_perm _ _ _ HpT), (charges_kept _ _ _ Hk), Hu, (charges_perm _ _ _ Hp).
    simpl. unfold charge_at at 1. rewrite Ee. destruct Hb; [intros b Hb; rewrite Hp; by right|]. rewrite u64_id; lia.
  - by rewrite (Permutation_length HpT).
Qed.

Lemma lru_Erase_spec N i c known L U outs key : cinv N i c known L U outs ->
  exists c' L' U', lru_Erase key (hf key) c = Some c' /\ capacity_ c' = capacity_ c /\
    cinv N i c' (fun k => if decide (k = key) then None else known k) L' U' outs.
Proof using Hhf.
  intros [Hm Ht Hkn Hu Hs Hc Hl].
  destruct (HT_Remove_spec (Hhf := Hhf) key (table_ c) (mem c) (L ++ U) Ht) as (r & t' & m' & E & Hco & Hr).
  unfold lru_Erase. rewrite E. cbn [mbind option_bind]. pose proof (minv_chains _ _ _ _ _ _ _ Hco Hm) as Hm'. destruct Hco as (Ee & _).
  assert (forall T, (forall a, In a T -> In a (L ++ U) /\ ~ key_at (mem c) a key) ->
    entries_known (mem c) (fun k => if decide (k = key) then None else known k) T) as Hkn'.
  { intros T HT a e Ha Eae. destruct (HT a Ha) as [Hin Hne]. rewrite decide_False; [by apply (Hkn a)|]. intros <-. by eapply Hne, key_at_entry. }
  destruct r as [a|].
  - destruct Hr as [Hka (T & Hp & Ht')].
    assert (forall b, In b T -> In b (L ++ U) /\ ~ key_at (mem c) b key) as HT.
    { intros b Hb. assert (In b (L ++ U)) as Hin by (rewrite Hp; by right). split; [done|]. intros Hkb.
      assert (b = a) as -> by (eapply table_unique; [exact Ht|done|rewrite Hp; by left|done|done]).
      pose proof (rg_nodup _ _ _ (mi_rings _ _ _ _ _ Hm)) as Hnd. rewrite Hp in Hnd. apply NoDup_cons in Hnd as [HaT _]. by apply HaT, list_elem_of_In. }
    destruct (FinishErase_cinv N i (MkCache (capacity_ c) (usage_ c) t' m') (fun k => if decide (k = key) then None else known k) L U outs a T)
      as (c' & L' & U' & -> & Hc' & _ & _ & Hcap); cbn [mem table_ usage_ capacity_]; try done.
    + intros b e Hb. rewrite Ee. by apply (Hkn' T HT).
    + rewrite Hu. symmetry. by apply charges_entries.
    + pose proof (Permutation_length Hp) as Hlen. simpl in Hlen. lia.
    + cbn [mbind option_bind]. by exists c', L', U'.
  - destruct Hr as (-> & -> & Hno). cbn [FinishErase mbind option_bind]. eexists _, L, U. split; [done|]. split; [done|].
    split; cbn [mem table_ usage_ capacity_]; try done. apply Hkn'. intros a Ha. split; [done|by apply Hno].
Qed.

(** ** Eviction *)

Lemma evict_spec N i c known a L U outs : cinv N i c known (a :: L) U outs ->
  exists c', evict a c = Some c' /\ cinv N i c' known L U outs /\ capacity_ c' = capacity_ c.
Proof using Hhf.
  intros [Hm Ht Hkn Hu Hs Hc Hl]. assert (In a ((a :: L) ++ U)) as Ha by by left. destruct (in_cache_entry _ _ _ _ _ _ Hm Ha) as (e & Eae & Hic).
  pose proof (mi_entries _ _ _ _ _ Hm a e Eae) as Hok. unfold evict. rewrite Eae. cbn [mbind option_bind].
  rewrite (eo_refs _ _ _ _ _ _ _ Hok), Hic, (eo_lru _ _ _ _ _ _ _ Hok) by by left. change (negb (1 + 0 =? 1)) with false. cbv iota.
  pose proof (key_at_entry _ _ _ _ _ _ _ Hm Eae) as Hka. rewrite (key_at_handle _ _ _ Hka). cbn [mbind option_bind].
  rewrite (eo_hash _ _ _ _ _ _ _ Hok). destruct (HT_Remove_spec (Hhf := Hhf) (key_data e) (table_ c) (mem c) _ Ht) as (r & t' & m' & -> & Hco & Hr).
  cbn [mbind option_bind]. destruct r as [b|]; [|by destruct Hr as (_ & _ & Hno); destruct (Hno a Ha)]. destruct Hr as [Hkb (T & Hp & Ht')].
  assert (b = a) as -> by (eapply table_unique; [exact Ht|rewrite Hp; by left|done|done|done]).
  pose proof (minv_chains _ _ _ _ _ _ _ Hco Hm) as Hm'. destruct Hco as (Ee & _).
  destruct (FinishErase_cinv N i (MkCache (capacity_ c) (usage_ c) t' m') known (a :: L) U outs a T) as (c' & L' & U' & -> & Hc' & _ & Hhd & Hcap);
    cbn [mem table_ usage_ capacity_]; try done.
  - intros b e' Hb. rewrite Ee. apply Hkn. rewrite Hp. by right.
  - rewrite Hu. symmetry. by apply charges_entries.
  - pose proof (Permutation_length Hp) as Hlen. simpl in Hlen, Hs. lia.
  - cbn [mbind option_bind]. destruct (Hhd L eq_refl) as [-> ->]. by exists c'.
Qed.

Lemma evict_loop_spec N i known U outs more : forall fuel L c, cinv N i c known L U outs -> (length L <= fuel)%nat ->
  exists c' L1 L2, evict_loop fuel more c = Some c' /\ L = L1 ++ L2 /\ cinv N i c' known L2 U outs /\ capacity_ c' = capacity_ c /\
    (more c' = false \/ L2 = []).
Proof using Hhf.
  induction fuel as [|fuel IH]; intros L c Hc Hf.
  - destruct L; [|simpl in Hf; lia]. simpl. destruct (more c) eqn:Em; [|exists c, [], []; by split_and!; auto].
    pose proof (seg_next _ _ _ _ _ (rg_lru _ _ _ (mi_rings _ _ _ _ _ (ci_mem _ _ _ _ _ _ _ Hc)))) as ->. cbn [first_node mbind option_bind].
    exists c, [], []. by split_and!; auto.
  - cbn [evict_loop]. destruct (more c) eqn:Em; [|exists c, [], L; by split_and!; auto].
    pose proof (seg_next _ _ _ _ _ (rg_lru _ _ _ (mi_rings _ _ _ _ _ (ci_mem _ _ _ _ _ _ _ Hc)))) as ->. cbn [mbind option_bind].
    destruct L as [|a L]; cbn [first_node]; [exists c, [], []; by split_and!; auto|].
    destruct (evict_spec N i c known a L U outs Hc) as (c1 & -> & Hc1 & Hcap1). cbn [mbind option_bind].
    destruct (IH L c1 Hc1 ltac:(simpl in Hf; lia)) as (c' & L1 & L2 & E & -> & Hc' & Hcap & Hm). exists c', (a :: L1), L2.
    split_and!; try done. congruence.
Qed.

Lemma lru_length N i c known L U outs : cinv N i c known L U outs -> (length L <= size (entries (mem c)))%nat.
Proof.
  intros Hc. pose proof (ci_mem _ _ _ _ _ _ _ Hc) as Hm. pose proof (rg_nodup _ _ _ (mi_rings _ _ _ _ _ Hm)) as Hnd.
  apply NoDup_app in Hnd as (Hnd & _). apply (nodup_entries (hf := hf)); [done|]. intros a Ha.
  destruct (in_cache_entry i (mem c) L U outs a Hm) as (e & E & _); [apply in_app_iff; by left|]. exists (key_data e). by eapply key_at_entry.
Qed.

Lemma lru_Prune_spec N i c known L U outs : cinv N i c known L U outs ->
  exists c', lru_Prune c = Some c' /\ cinv N i c' known [] U outs /\ capacity_ c' = capacity_ c.
Proof using Hhf.
  intros Hc. destruct (evict_loop_spec N i known U outs (fun _ => true) _ L c Hc (lru_length _ _ _ _ _ _ _ Hc)) as (c' & L1 & L2 & E & _ & Hc' & Hcap & [?| ->]); [done|].
  by exists c'.
Qed.

(** ** Insert *)

Lemma brk_fresh i m L U outs : minv i m L U outs -> entries m !! brk m = None /\ ~ In (brk m) (L ++ U) /\ cnt (brk m) outs = 0.
Proof.
  intros Hm. assert (entries m !! brk m = None) as En.
  { destruct (entries m !! brk m) as [e|] eqn:E; [|done]. pose proof (eo_brk _ _ _ _ _ _ _ (mi_entries _ _ _ _ _ Hm _ e E)). lia. }
  split; [done|]. split.
  - intros Hin. destruct (rg_alloc _ _ _ (mi_rings _ _ _ _ _ Hm) _ Hin) as [e E]. congruence.
  - assert (forall v, ~ In (brk m, v) outs) as Hno by (intros v Hv; destruct (mi_out _ _ _ _ _ Hm _ _ Hv) as (e & E & _); congruence).
    clear - Hno. induction outs as [|[b w] outs IH]; [done|]. rewrite cnt_cons, decide_False, IH; [done| |].
    + intros v Hv. apply (Hno v). by right.
    + intros ->. apply (Hno w). by left.
Qed.

(** A new entry at the end of the list of those in use, with its handle. *)
Lemma lru_add i m L U outs key v ch : minv i m L U outs -> Z.of_nat (length outs) + 1 < 2 ^ 31 -> Shard (hf key) = i -> 1 <= ch < 2 ^ 32 ->
  exists m', LRU_Append InUseHead (Ent (brk m)) (Memory (<[brk m := MkHandle v key ch true 2 (hf key)]> (entries m))
      (m_next_hash m) (m_next m) (m_prev m) (deleted m) (S (brk m))) = Some m' /\
    minv i m' L (U ++ [brk m]) ((brk m, v) :: outs) /\ kept (L ++ U) m m' /\
    entries m' !! brk m = Some (MkHandle v key ch true 2 (hf key)).
Proof.
  intros Hm Hroom Hsh Hch. destruct (brk_fresh _ _ _ _ _ Hm) as (En & Ha & Hc0). set (a := brk m) in *. set (h := MkHandle _ _ _ _ _ _). set (m1 := Memory _ _ _ _ _ _).
  assert (forall b e, entries m !! b = Some e -> b <> a) as Hne by (intros b e E ->; congruence).
  assert (forall b, b <> a -> entries m1 !! b = entries m !! b) as Hother by (intros b Hb; by apply lookup_insert_ne).
  assert (entries m1 !! a = Some h) as Ea by apply lookup_insert_eq.
  assert (rings m1 L U) as Hr1.
  { eapply rings_frame; [| |apply Hm]; [done|]. intros b Hb. destruct (rg_alloc _ _ _ (mi_rings _ _ _ _ _ Hm) b Hb) as [e E]. rewrite Hother by by eapply Hne. by rewrite E. }
  destruct (rings_append_use m1 L U a Hr1 Ha) as (m' & E & Hr & Hlo & Hna & Hn); [by rewrite Ea|]. exists m'. split; [done|].
  pose proof (lo_entries _ _ Hlo) as Eent. split; [|split; [|by rewrite Eent]].
  - split; [done| | |simpl; lia].
    + intros b e Eb. rewrite Eent in Eb. destruct (decide (b = a)) as [->|Hb].
      * rewrite Ea in Eb. injection Eb as <-. split; cbn [h key_data hash charge in_cache refs]; try done.
        -- rewrite (lo_brk _ _ Hlo). simpl. lia.
        -- rewrite cnt_cons, decide_True, Hc0 by done. lia.
        -- split; [|done]. intros _. rewrite !in_app_iff. right. right. by left.
        -- intros HaL. destruct Ha. apply in_app_iff. by left.
        -- intros _. rewrite cnt_cons, decide_True by done. lia.
      * rewrite Hother in Eb by done. destruct (mi_entries _ _ _ _ _ Hm b e Eb) as [K1 K2 K3 K4 K5 K6 K7 K8 K9 K10].
        assert (cnt b ((a, v) :: outs) = cnt b outs) as Ec by (rewrite cnt_cons, decide_False by done; lia). split; try done.
        -- by apply Hn.
        -- rewrite (lo_brk _ _ Hlo). simpl. fold a in K5. lia.
        -- by rewrite Ec.
        -- rewrite K8, app_assoc, (in_app_iff (L ++ U)). split; [by left|]. by intros [?|[->|[]]].
        -- by rewrite Ec.
        -- rewrite Ec. intros [Hb'|[->|[]]]%in_app_iff; [by apply K10|done].
    + intros b w [[= <- <-]|Hb]; [exists h; by rewrite Eent|]. destruct (mi_out _ _ _ _ _ Hm b w Hb) as (e & Eb & Ev). exists e.
      rewrite Eent, Hother by by eapply Hne. done.
  - intros b Hb. split; [by rewrite (lo_next_hash _ _ Hlo)|]. destruct (rg_alloc _ _ _ (mi_rings _ _ _ _ _ Hm) b Hb) as [e Eb]. exists e, e.
    rewrite Eent, Hother by by eapply Hne. done.
Qed.

(** The entries of the list of those in use have handles. *)
Lemma use_length i m L U outs : minv i m L U outs -> (length U <= length outs)%nat.
Proof.
  intros Hm. pose proof (rg_nodup _ _ _ (mi_rings _ _ _ _ _ Hm)) as Hnd. apply NoDup_app in Hnd as (_ & _ & Hnd).
  rewrite <- (length_map fst outs). apply submseteq_length, NoDup_submseteq; [done|]. intros a Ha%list_elem_of_In.
  destruct (in_cache_entry i m L U outs a Hm) as (e & E & _); [apply in_app_iff; by right|].
  pose proof (eo_use _ _ _ _ _ _ _ (mi_entries _ _ _ _ _ Hm a e E) Ha) as Hc. clear - Hc. induction outs as [|[b w] outs IH]; [done|].
  rewrite cnt_cons in Hc. simpl. case_decide as Hd; [subst; by left|]. right. apply IH. lia.
Qed.

(** The hash table gets the entry; one with the same key leaves the cache. *)
Lemma lru_insert_table N i cap usage t m known L U outs key v a : minv i m L (U ++ [a]) ((a, v) :: outs) -> table_ok t m (L ++ U) ->
  key_at m a key -> (forall e, entries m !! a = Some e -> value e = v) -> entries_known m known (L ++ U) ->
  usage = charges m (L ++ U ++ [a]) -> Z.of_nat (length (L ++ U)) + 1 <= N -> 0 < cap <= N -> N < 2 ^ 31 ->
  exists old t' m' b c' L' U', HT_Insert a t m = Some (old, t', m') /\ FinishErase old (MkCache cap usage t' m') = Some (b, c') /\ capacity_ c' = cap /\
    cinv N i c' (fun k => if decide (k = key) then Some v else known k) L' U' ((a, v) :: outs) /\ In a U'.
Proof using Hhf.
  intros Hm Ht Hka Hv Hkn Hu Hs Hc Hl. pose proof (rg_nodup _ _ _ (mi_rings _ _ _ _ _ Hm)) as Hnd.
  assert (L ++ U ++ [a] ≡ₚ a :: (L ++ U)) as Hp by (rewrite app_assoc; symmetry; apply Permutation_cons_append).
  rewrite Hp in Hnd. apply NoDup_cons in Hnd as [Ha Hnd]. rewrite list_elem_of_In in Ha.
  destruct (HT_Insert_spec (Hhf := Hhf) a t m (L ++ U) key Ht Hka Ha) as (old & t' & m' & E & Hco & Hr); [lia|].
  pose proof (minv_chains _ _ _ _ _ _ _ Hco Hm) as Hm'. destruct Hco as (Ee & _). set (known' := fun k : list byte => if decide (k = key) then Some v else known k).
  assert (forall T, (forall b, In b T -> b = a \/ (In b (L ++ U) /\ ~ key_at m b key)) -> entries_known m' known' T) as Hkn'.
  { intros T HT b e Hb Eb. rewrite Ee in Eb. unfold known'. pose proof (key_at_entry _ _ _ _ _ _ _ Hm Eb) as Hkb. destruct (HT b Hb) as [->|[Hin Hne]].
    - rewrite decide_True by (by eapply key_at_eq). by rewrite (Hv e).
    - rewrite decide_False; [by apply (Hkn b)|]. intros Ek. apply Hne. by rewrite <- Ek. }
  exists old, t', m'. destruct old as [o|].
  - destruct Hr as [Hko (T & HpT & Ht')]. assert (L ++ U ++ [a] ≡ₚ o :: (a :: T)) as Hpo by (rewrite Hp, HpT; apply perm_swap).
    destruct (FinishErase_cinv N i (MkCache cap usage t' m') known' L (U ++ [a]) ((a, v) :: outs) o (a :: T)) as (c' & L' & U' & EF & Hc' & Hp' & _ & Hcap);
      cbn [mem table_ usage_ capacity_]; try done.
    + apply Hkn'. intros b [<-|Hb]; [by left|right]. assert (In b (L ++ U)) as Hin by (rewrite HpT; by right). split; [done|]. intros Hkb.
      assert (b = o) as -> by (eapply table_unique; [exact Ht|done|rewrite HpT; by left|done|done]).
      rewrite HpT in Hnd. apply NoDup_cons in Hnd as [HoT _]. by apply HoT, list_elem_of_In.
    + rewrite Hu. symmetry. by apply charges_entries.
    + pose proof (Permutation_length HpT) as Hlen. simpl in *. lia.
    + exists true, c', L', U'. split_and!; try done. pose proof (ci_mem _ _ _ _ _ _ _ Hc') as Hmc.
      assert (In a (L' ++ U')) as [HaL|]%in_app_iff by (rewrite Hp'; by left); [|done]. destruct (in_cache_entry i _ L' U' _ a Hmc) as (e & Eae & _); [apply in_app_iff; by left|].
      pose proof (eo_lru _ _ _ _ _ _ _ (mi_entries _ _ _ _ _ Hmc a e Eae) HaL) as Hc0. rewrite cnt_cons, decide_True in Hc0 by done. pose proof (cnt_nonneg a outs). lia.
  - destruct Hr as [Hno Ht']. eexists false, _, L, (U ++ [a]). split; [done|]. split; [done|]. split; [done|]. split; [|apply in_app_iff; right; by left].
    split; cbn [mem table_ usage_ capacity_]; try done.
    + eapply table_perm; [symmetry; exact Hp|done].
    + apply Hkn'. intros b. rewrite Hp. intros [<-|Hb]; [by left|right]. split; [done|by apply Hno].
    + rewrite Hu. symmetry. by apply charges_entries.
    + rewrite (Permutation_length Hp). simpl. lia.
Qed.

(** The cache is within its capacity after an insertion, or all its entries are in use. *)
Lemma lru_Insert_spec N i c known L U outs key v ch : cinv N i c known L U outs -> Shard (hf key) = i -> 1 <= ch < 2 ^ 32 ->
  Z.of_nat (length outs) + 1 <= N -> N + 1 < 2 ^ 31 ->
  exists a c' L' U', lru_Insert key (hf key) v ch c = Some (a, c') /\ capacity_ c' = capacity_ c /\ In a U' /\
    cinv N i c' (fun k => if decide (k = key) then Some v else known k) L' U' ((a, v) :: outs) /\ (usage_ c' <= capacity_ c' \/ L' = []).
Proof using Hhf.
  intros [Hm Ht Hkn Hu Hs Hc Hl] Hsh Hch Hroom HN. pose proof (brk_fresh _ _ _ _ _ Hm) as (En & Ha & _).
  unfold lru_Insert, new_entry. cbv zeta. rewrite (proj2 (Z.ltb_lt _ _) (proj1 Hc)). cbn [entries]. rewrite lookup_insert_eq. cbn [mbind option_bind refs].
  rewrite (set_entry_spec _ _ (MkHandle v key ch false 1 (hf key))) by (cbn [entries]; apply lookup_insert_eq). cbn [mbind option_bind entries m_next_hash m_next m_prev deleted brk].
  rewrite insert_insert_eq. change (with_in_cache true (with_refs (u32 (1 + 1)) (MkHandle v key ch false 1 (hf key)))) with (MkHandle v key ch true 2 (hf key)).
  destruct (lru_add i (mem c) L U outs key v ch Hm ltac:(lia) Hsh Hch) as (m1 & -> & Hm1 & Hk1 & Ea1). cbn [mbind option_bind].
  set (a := brk (mem c)) in *. assert (L ++ U ++ [a] ≡ₚ a :: (L ++ U)) as Hp by (rewrite app_assoc; symmetry; apply Permutation_cons_append).
  pose proof (charges_bounds i (mem c) L U outs (L ++ U) Hm ltac:(done)) as Hb.
  destruct (lru_insert_table (N + 1) i (capacity_ c) (u64 (usage_ c + ch)) (table_ c) m1 known L U outs key v a Hm1)
    as (old & t' & m' & b & c1 & L1 & U1 & -> & E & Hcap & Hc1 & HaU); [| | | | |lia|lia|lia|].
  - by apply (table_kept i (mem c) L U outs i m1 L (U ++ [a]) ((a, v) :: outs)).
  - eexists. split; [exact Ea1|]. split_and!; try done. by eapply mi_entries.
  - intros e. rewrite Ea1. by intros [= <-].
  - by eapply known_kept.
  - rewrite (charges_perm _ _ _ Hp). simpl. unfold charge_at. rewrite Ea1, (charges_kept _ _ _ Hk1), <- Hu. cbn [charge]. rewrite u64_id; lia.
  - cbn [mbind option_bind]. rewrite E. cbn [mbind option_bind].
    destruct (evict_loop_spec _ _ _ _ _ (fun c => capacity_ c <? usage_ c) _ _ _ Hc1 (lru_length _ _ _ _ _ _ _ Hc1)) as (c' & L2 & L3 & -> & -> & Hc' & Hcap' & Hm').
    cbn [mbind option_bind]. exists a, c', L3, U1. split; [done|]. split; [congruence|]. split; [done|]. destruct Hc' as [H1' H2' H3' H4' H5' H6' H7'].
    assert (usage_ c' <= capacity_ c' \/ L3 = []) as Hor by (destruct Hm' as [Hm'| ->]; [left; by apply Z.ltb_ge|by right]). split; [|done].
    split; try done; [|rewrite Hcap', Hcap; lia]. destruct Hor as [Hle| ->].
    + pose proof (charges_bounds i (mem c') L3 U1 _ (L3 ++ U1) H1' ltac:(done)) as Hb'. rewrite <- H4' in Hb'. rewrite Hcap', Hcap in Hle. lia.
    + pose proof (use_length _ _ _ _ _ H1') as HlU. simpl in *. lia.
Qed.

(** ** A new cache *)

Lemma new_LRUCache_spec N i capacity known : 0 < capacity <= N -> N < 2 ^ 31 ->
  exists c, new_LRUCache (V := V) capacity = Some c /\ cinv N i c known [] [] [] /\ capacity_ c = capacity.
Proof using Hhf.
  intros Hc Hl. destruct (new_HandleTable_spec (V := V) (Hhf := Hhf)) as (t & m & E & Ht & (Ee & En & Ep & _)). unfold new_LRUCache. rewrite E. cbn [mbind option_bind].
  eexists. split; [done|]. split; [|done]. split; cbn [mem table_ usage_ capacity_]; try done; [|by intros a e []|simpl; lia].
  split; [split| | |].
  - unfold ring. simpl. rewrite En, Ep. done.
  - unfold ring. simpl. rewrite En, Ep. done.
  - apply NoDup_nil_2.
  - by intros a [].
  - intros a e. by rewrite Ee.
  - by intros a v [].
  - done.
Qed.

(** ** The destructor *)

Fixpoint nexts m (l : list nat) : Prop :=
  match l with [] => True | a :: l' => m_next m !! Ent a = Some (first_node l' LruHead) /\ nexts m l' end.

Lemma seg_nexts m x l : seg (m_next m) (m_prev m) x l LruHead -> nexts m l.
Proof. revert x. induction l as [|a l IH]; intros x; simpl; [done|]. intros (_ & _ & Hs). split; [exact (seg_next _ _ _ _ _ Hs)|exact (IH _ Hs)]. Qed.

Lemma nexts_frame m m' l : (forall a, In a l -> m_next m' !! Ent a = m_next m !! Ent a) -> nexts m l -> nexts m' l.
Proof.
  induction l as [|a l IH]; intros Hf; [done|]. intros [E Hn]. split; [rewrite Hf; [done|by left]|]. apply IH; [|done]. intros b Hb. apply Hf. by right.
Qed.

Lemma destroy_loop_spec : forall l fuel m, NoDup l -> nexts m l -> (length l <= fuel)%nat ->
  (forall a, is_Some (entries m !! a) -> In a l) ->
  (forall a, In a l -> exists e, entries m !! a = Some e /\ in_cache e = true /\ refs e = 1) ->
  exists m', destroy_loop fuel (first_node l LruHead) m = Some m' /\ entries m' = ∅.
Proof.
  induction l as [|a l IH]; intros fuel m Hnd Hn Hf Hall Hent.
  - exists m. split; [by destruct fuel|]. apply map_eq. intros a. rewrite lookup_empty. destruct (entries m !! a) eqn:E; [|done]. destruct (Hall a). by rewrite E.
  - destruct fuel as [|fuel]; [simpl in Hf; lia|]. apply NoDup_cons in Hnd as [Ha Hnd]. rewrite list_elem_of_In in Ha. destruct Hn as [En Hn].
    destruct (Hent a (or_introl eq_refl)) as (e & Ee & Hic & Hr). cbn [first_node destroy_loop]. rewrite En. cbn [mbind option_bind]. rewrite Ee. cbn [mbind option_bind].
    rewrite Hic. cbn [negb]. rewrite (set_entry_spec a _ e) by done. cbn [mbind option_bind]. rewrite Hr. change (negb (1 =? 1)) with false. cbv iota.
    unfold Unref. cbn [entries]. rewrite lookup_insert_eq. cbn [mbind option_bind refs with_in_cache]. rewrite Hr. change (1 <=? 0) with false. cbv iota zeta.
    erewrite set_entry_spec by (cbn [entries]; apply lookup_insert_eq). cbn [mbind option_bind entries m_next_hash m_next m_prev deleted brk refs with_refs in_cache with_in_cache].
    change (u32 (1 - 1) =? 0) with true. cbv iota. unfold free_entry, handle_key. cbn [entries m_next]. rewrite lookup_insert_eq. cbn [mbind option_bind].
    rewrite En. cbn [mbind option_bind]. rewrite decide_False.
    2:{ destruct l as [|b l]; simpl; [done|]. intros [= ->]. apply Ha. by left. }
    cbn [mbind option_bind m_next_hash m_prev deleted brk]. set (m1 := Memory _ _ _ _ _ _).
    assert (forall b, b <> a -> entries m1 !! b = entries m !! b) as Hother by (intros b Hb; unfold m1; cbn [entries]; by rewrite lookup_delete_ne, !lookup_insert_ne by done).
    apply (IH fuel m1); [done| |simpl in Hf; lia| |].
    + eapply nexts_frame; [|exact Hn]. intros b Hb. unfold m1. cbn [m_next]. rewrite lookup_delete_ne; [done|]. intros [= <-]. done.
    + intros b Hb. destruct (decide (b = a)) as [->|Hne]; [unfold m1 in Hb; cbn [entries] in Hb; rewrite lookup_delete_eq in Hb; by destruct Hb|].
      rewrite Hother in Hb by done. by destruct (Hall b Hb) as [->|].
    + intros b Hb. rewrite Hother by (by intros ->). apply Hent. by right.
Qed.

(** Without handles every entry is freed. *)
Lemma destroy_LRUCache_spec N i c known L U : cinv N i c known L U [] -> exists m, destroy_LRUCache c = Some m /\ entries m = ∅.
Proof.
  intros Hc. pose proof (ci_mem _ _ _ _ _ _ _ Hc) as Hm. pose proof (use_length _ _ _ _ _ Hm) as HU. destruct U; [|simpl in HU; lia].
  pose proof (mi_rings _ _ _ _ _ Hm) as [HL HU' Hnd Hal]. unfold destroy_LRUCache. rewrite (seg_next _ _ _ _ _ HU'). cbn [mbind option_bind first_node].
  rewrite decide_True by done. rewrite (seg_next _ _ _ _ _ HL). cbn [mbind option_bind]. rewrite app_nil_r in Hnd, Hal.
  apply destroy_loop_spec; [done|by eapply seg_nexts|by eapply lru_length| |].
  - intros a [e E]. destruct (mi_entries _ _ _ _ _ Hm a e E) as [_ _ _ _ _ K6 K7 K8 _ _]. simpl in K6. rewrite app_nil_r in K8. apply K8. destruct (in_cache e); [done|]. unfold cnt in K6. simpl in K6. lia.
  - intros a Ha. destruct (in_cache_entry i (mem c) L [] [] a Hm) as (e & E & Hic); [by rewrite app_nil_r|]. exists e. split; [done|]. split; [done|].
    destruct (mi_entries _ _ _ _ _ Hm a e E) as [_ _ _ _ _ K6 _ _ _ _]. rewrite K6, Hic. done.
Qed.
End Shard.

Section HashRange.
Context (kLittleEndian : bool).

Lemma xor_shift_range h n : 0 <= h < 2 ^ 32 -> 0 <= n -> 0 <= Z.lxor h (Z.shiftr h n) < 2 ^ 32.
Proof.
  intros Hh Hn. apply lxor_range; [done|done|]. split; [apply Z.shiftr_nonneg; lia|]. apply Z.le_lt_trans with h; [|lia].
  rewrite Z.shiftr_div_pow2 by done. apply Z.div_le_upper_bound; [by apply Z.pow_pos_nonneg|]. assert (1 <= 2 ^ n) by (apply (Z.pow_le_mono_r 2 0 n); lia). nia.
Qed.

Lemma hash_loop_range : forall n data h, (length data <= n)%nat -> 0 <= h < 2 ^ 32 -> 0 <= (hash_loop kLittleEndian data h).1 < 2 ^ 32.
Proof.
  induction n as [|n IH]; intros data h Hn Hh; [destruct data; [done|simpl in Hn; lia]|].
  destruct data as [|b0 [|b1 [|b2 [|b3 data]]]]; try done. cbn [hash_loop]. cbv zeta.
  apply IH; [simpl in Hn; lia|]. apply xor_shift_range; [apply u32_range|done].
Qed.

Lemma hash_tail_range data h : 0 <= h < 2 ^ 32 -> 0 <= hash_tail data h < 2 ^ 32.
Proof.
  intros Hh. destruct data as [|b0 [|b1 [|b2 [|b3 data]]]]; try done; unfold hash_tail; cbv zeta; (apply xor_shift_range; [apply u32_range|done]).
Qed.

(** A hash is a 32-bit number. *)
Lemma Hash_range data seed : 0 <= Hash kLittleEndian data seed < 2 ^ 32.
Proof.
  unfold Hash. pose proof (hash_loop_range _ data (u32 (Z.lxor seed (u64 (Z.of_nat (length data) * hash_m)))) (Nat.le_refl _) (u32_range _)) as Hr.
  destruct (hash_loop _ _ _) as [h rest]. by apply hash_tail_range.
Qed.

(** The shard of a hash is one of the sixteen. *)
Lemma Shard_range h : 0 <= h < 2 ^ 32 -> (Shard h < kNumShards)%nat.
Proof.
  intros Hh. unfold Shard, kNumShards, kNumShardBits. rewrite Z.shiftr_div_pow2 by lia. change (2 ^ (32 - 4)) with (2 ^ 28).
  assert (h / 2 ^ 28 < 16) by (apply Z.div_lt_upper_bound; lia). assert (0 <= h / 2 ^ 28) by (apply Z.div_pos; lia). lia.
Qed.
End HashRange.

Section Sharded.
Context {V : Type} (kLittleEndian : bool) (N max_handles : Z) (HN : max_handles <= N) (Hlimit : N + 1 < 2 ^ 31).
Implicit Types s : ShardedLRUCache (V := V).
Implicit Types out : list (Handle_t * V).
Implicit Types last : list byte -> option V.

Abbreviation hf := (HashSlice kLittleEndian).
Abbreviation shard_inv := (cinv (hf := hf) N).

Lemma hf_range k : 0 <= hf k < 2 ^ 32.
Proof. apply Hash_range. Qed.

(** The handles of a shard. *)
Definition outs_of (i : nat) out : list (nat * V) := omap (fun x => if decide (x.1.1 = i) then Some (x.1.2, x.2) else None) out.

Lemma outs_of_length i out : (length (outs_of i out) <= length out)%nat.
Proof. induction out as [|x out IH]; simpl; [done|]. case_decide; simpl; lia. Qed.

Lemma outs_of_same i a v out : outs_of i (((i, a), v) :: out) = (a, v) :: outs_of i out.
Proof. simpl. by rewrite decide_True. Qed.

Lemma outs_of_other i j a v out : j <> i -> outs_of i (((j, a), v) :: out) = outs_of i out.
Proof. intros Hne. simpl. by rewrite decide_False. Qed.

(** What the shards know, and the handles that are out of each. *)
Definition lru_rel s last out : Prop :=
  length (shard_ s) = kNumShards /\ 0 <= last_id_ s < 2 ^ 64 /\ (forall x, In x out -> (x.1.1 < kNumShards)%nat) /\
  Z.of_nat (length out) <= max_handles /\
  forall i c, shard_ s !! i = Some c -> exists L U, shard_inv i c last L U (outs_of i out).

Lemma minv_perm i m (L U : list nat) outs outs' : outs ≡ₚ outs' -> minv (V := V) (hf := hf) i m L U outs -> minv (hf := hf) i m L U outs'.
Proof.
  intros Hp [H1 H2 H3 H4]. split; [done| | |by rewrite <- Hp].
  - intros a e E. destruct (H2 a e E) as [K1 K2 K3 K4 K5 K6 K7 K8 K9 K10]. by split; rewrite <- ?(cnt_perm a _ _ Hp).
  - intros a v Ha. apply H3. by rewrite Hp.
Qed.

Lemma cinv_perm i c last L U outs outs' : outs ≡ₚ outs' -> shard_inv i c last L U outs -> shard_inv i c last L U outs'.
Proof. intros Hp []. split; try done. by eapply minv_perm. Qed.

(** A shard only knows the keys whose hash belongs to it. *)
Lemma cinv_known i c last last' L U outs : (forall k, Shard (hf k) = i -> last' k = last k) -> shard_inv i c last L U outs -> shard_inv i c last' L U outs.
Proof.
  intros Hl [Hm Ht Hk Hu Hs Hc Hn]. split; try done. intros a e Ha E. rewrite Hl; [by apply (Hk a)|].
  destruct (mi_entries _ _ _ _ _ Hm a e E) as [K1 K2 _ _ _ _ _ _ _ _]. by rewrite <- K1.
Qed.

Lemma shard_at s last out i : lru_rel s last out -> (i < kNumShards)%nat ->
  exists c L U, shard_ s !! i = Some c /\ shard_inv i c last L U (outs_of i out).
Proof.
  intros (Hlen & _ & _ & _ & Hs) Hi. destruct (lookup_lt_is_Some_2 (shard_ s) i) as [c E]; [by rewrite Hlen|]. destruct (Hs i c E) as (L & U & Hc).
  by exists c, L, U.
Qed.

Lemma rel_shards s last out x : lru_rel s last out -> In x out -> (x.1.1 < kNumShards)%nat.
Proof. intros (_ & _ & Hx & _) Hin. by apply Hx. Qed.

Lemma rel_room s last out : lru_rel s last out -> Z.of_nat (length out) <= max_handles.
Proof. by intros (_ & _ & _ & Ho & _). Qed.

(** One shard has changed. *)
Lemma lru_rel_update s last out i c' last' out' L U : lru_rel s last out -> (i < kNumShards)%nat ->
  (forall k, Shard (hf k) <> i -> last' k = last k) -> (forall j, j <> i -> outs_of j out' = outs_of j out) ->
  (forall x, In x out' -> (x.1.1 < kNumShards)%nat) -> Z.of_nat (length out') <= max_handles ->
  shard_inv i c' last' L U (outs_of i out') -> lru_rel (MkSharded (<[i := c']> (shard_ s)) (last_id_ s)) last' out'.
Proof.
  intros (Hlen & Hid & _ & _ & Hs) Hi Hl Ho Hx Hout Hc. split; [cbn [shard_]; by rewrite length_insert|]. split; [done|]. split; [done|]. split; [done|]. cbn [shard_].
  intros j c E. destruct (decide (j = i)) as [->|Hne].
  - rewrite list_lookup_insert_eq in E by by rewrite Hlen. injection E as <-. by exists L, U.
  - rewrite list_lookup_insert_ne in E by done. destruct (Hs j c E) as (L' & U' & Hc'). exists L', U'. rewrite Ho by done.
    eapply cinv_known; [|exact Hc']. intros k Hk. apply Hl. by rewrite Hk.
Qed.

Lemma on_shard_eq {R} i (f : LRUCache -> option (R * LRUCache)) s c r c' : shard_ s !! i = Some c -> f c = Some (r, c') ->
  on_shard i f s = Some (r, MkSharded (V := V) (<[i := c']> (shard_ s)) (last_id_ s)).
Proof. intros E Ef. unfold on_shard. rewrite E. cbn [mbind option_bind]. by rewrite Ef. Qed.

Lemma hf_shard k : (Shard (hf k) < kNumShards)%nat.
Proof. apply Shard_range, hf_range. Qed.

Lemma outs_in i a v out : In ((i, a), v) out -> In (a, v) (outs_of i out).
Proof.
  induction out as [|[[j b] w] out IH]; [done|]. intros [[= -> -> ->]|Hin]; [rewrite outs_of_same; by left|].
  destruct (decide (j = i)) as [->|Hne]; [rewrite outs_of_same; right; by apply IH|]. rewrite outs_of_other by done. by apply IH.
Qed.

(** ** The operations *)

Lemma sharded_Insert_spec s last out k v ch : lru_rel s last out -> 1 <= ch < 2 ^ 32 -> Z.of_nat (length out) < max_handles ->
  exists h s', sharded_Insert kLittleEndian k v ch s = Some (h, s') /\
    lru_rel s' (fun k' => if decide (k' = k) then Some v else last k') ((h, v) :: out).
Proof using HN Hlimit.
  intros Hr Hch Hroom. destruct (shard_at s last out (Shard (hf k)) Hr (hf_shard k)) as (c & L & U & E & Hc). pose proof (outs_of_length (Shard (hf k)) out).
  destruct (lru_Insert_spec (Hhf := hf_range) N (Shard (hf k)) c last L U (outs_of (Shard (hf k)) out) k v ch Hc eq_refl Hch) as (a & c' & L' & U' & Ei & _ & _ & Hc' & _); [lia|lia|].
  unfold sharded_Insert. cbv zeta. rewrite (on_shard_eq _ _ _ _ _ _ E Ei). cbn [mbind option_bind]. eexists _, _. split; [done|].
  eapply (lru_rel_update s last out (Shard (hf k)) c' _ _ L' U' Hr (hf_shard k)).
  - intros k' Hk'. by rewrite decide_False by (by intros ->).
  - intros j Hj. by apply outs_of_other.
  - intros x [<-|Hx]; [apply hf_shard|by eapply rel_shards].
  - simpl. lia.
  - by rewrite outs_of_same.
Qed.

Lemma sharded_Lookup_spec s last out k : lru_rel s last out -> Z.of_nat (length out) < max_handles ->
  exists r s', sharded_Lookup kLittleEndian k s = Some (r, s') /\
    match r with Some h => exists v, last k = Some v /\ lru_rel s' last ((h, v) :: out) | None => lru_rel s' last out end.
Proof using HN Hlimit.
  intros Hr Hroom. destruct (shard_at s last out (Shard (hf k)) Hr (hf_shard k)) as (c & L & U & E & Hc). pose proof (outs_of_length (Shard (hf k)) out).
  destruct (lru_Lookup_spec (Hhf := hf_range) N (Shard (hf k)) c last L U (outs_of (Shard (hf k)) out) k Hc) as (r & c' & L' & U' & El & _ & Hc'); [lia|].
  unfold sharded_Lookup. cbv zeta. rewrite (on_shard_eq _ _ _ _ _ _ E El). cbn [mbind option_bind]. eexists _, _. split; [done|]. destruct r as [a|].
  - destruct Hc' as (v & Hv & Hc'). exists v. split; [done|].
    eapply (lru_rel_update s last out (Shard (hf k)) c' _ _ L' U' Hr (hf_shard k)); [done|intros j Hj; by apply outs_of_other| |simpl; lia|by rewrite outs_of_same].
    intros x [<-|Hx]; [apply hf_shard|by eapply rel_shards].
  - destruct Hc' as [Hc' _]. by eapply (lru_rel_update s last out (Shard (hf k)) c' _ _ L' U' Hr (hf_shard k)); [..|intros x; eapply rel_shards|eapply rel_room|].
Qed.

Lemma handle_entry_spec s last out h v : lru_rel s last out -> In (h, v) out ->
  exists e, handle_entry s h = Some e /\ value e = v /\ Shard (hash e) = h.1.
Proof.
  intros Hr Hin. destruct h as [i a]. assert (i < kNumShards)%nat as Hi by apply (rel_shards _ _ _ _ Hr Hin).
  destruct (shard_at s last out i Hr Hi) as (c & L & U & E & Hc). destruct (mi_out _ _ _ _ _ (ci_mem _ _ _ _ _ _ _ Hc) a v (outs_in _ _ _ _ Hin)) as (e & Ee & Ev).
  exists e. unfold handle_entry. cbn [fst snd]. rewrite E. cbn [mbind option_bind]. split; [done|]. split; [done|].
  by destruct (mi_entries _ _ _ _ _ (ci_mem _ _ _ _ _ _ _ Hc) a e Ee).
Qed.

Lemma sharded_Release_spec s last out h v : lru_rel s last ((h, v) :: out) -> exists s', sharded_Release h s = Some s' /\ lru_rel s' last out.
Proof.
  intros Hr. destruct (handle_entry_spec s last _ h v Hr (or_introl eq_refl)) as (e & E & _ & Hsh). unfold sharded_Release. rewrite E. cbn [mbind option_bind].
  rewrite decide_True by done. rewrite Hsh. destruct h as [i a]. cbn [fst snd] in *. assert (i < kNumShards)%nat as Hi by apply (rel_shards _ _ _ _ Hr (or_introl eq_refl)).
  destruct (shard_at s last _ i Hr Hi) as (c & L & U & Ec & Hc). rewrite outs_of_same in Hc.
  destruct (lru_Release_spec N i c last L U (outs_of i out) a v Hc) as (c' & L' & U' & El & Hc').
  erewrite on_shard_eq; [|exact Ec|by rewrite El]. cbn [mbind option_bind]. eexists. split; [done|].
  eapply (lru_rel_update s last _ i c' _ out L' U' Hr Hi); [done| | | |done].
  - intros j Hj. by rewrite outs_of_other.
  - intros x Hx. eapply rel_shards; [exact Hr|by right].
  - destruct Hr as (_ & _ & _ & Ho & _). simpl in Ho. lia.
Qed.

Lemma sharded_Erase_spec s last out k : lru_rel s last out ->
  exists s', sharded_Erase kLittleEndian k s = Some s' /\ lru_rel s' (fun k' => if decide (k' = k) then None else last k') out.
Proof.
  intros Hr. destruct (shard_at s last out (Shard (hf k)) Hr (hf_shard k)) as (c & L & U & E & Hc).
  destruct (lru_Erase_spec (Hhf := hf_range) N (Shard (hf k)) c last L U _ k Hc) as (c' & L' & U' & Ee & _ & Hc').
  unfold sharded_Erase. cbv zeta. erewrite on_shard_eq; [|exact E|by rewrite Ee]. cbn [mbind option_bind]. eexists. split; [done|].
  eapply (lru_rel_update s last out (Shard (hf k)) c' _ _ L' U' Hr (hf_shard k)); [|done|intros x; by eapply rel_shards|by eapply rel_room|done].
  intros k' Hk'. by rewrite decide_False by (by intros ->).
Qed.

Lemma prune_shards_spec (P Q : nat -> LRUCache -> Prop) : (forall i c, P i c -> exists c', lru_Prune (V := V) c = Some c' /\ Q i c') ->
  forall cs n, (forall i c, cs !! i = Some c -> P (n + i)%nat c) ->
  exists cs', prune_shards cs = Some cs' /\ length cs' = length cs /\ forall i c, cs' !! i = Some c -> Q (n + i)%nat c.
Proof.
  intros HPQ. induction cs as [|c cs IH]; intros n HP; simpl; [by exists []|].
  destruct (HPQ n c) as (c' & -> & HQ); [rewrite <- (Nat.add_0_r n); by apply HP|]. cbn [mbind option_bind].
  destruct (IH (S n)) as (cs' & -> & Hl & HQ'); [intros i d Hd; rewrite Nat.add_succ_comm; by apply HP|]. cbn [mbind option_bind].
  exists (c' :: cs'). split; [done|]. split; [simpl; by rewrite Hl|]. intros [|i] d; simpl; [intros [= <-]; by rewrite Nat.add_0_r|].
  rewrite <- Nat.add_succ_comm. apply HQ'.
Qed.

Lemma sharded_Prune_spec s last out : lru_rel s last out -> exists s', sharded_Prune s = Some s' /\ lru_rel s' last out.
Proof.
  intros Hr. destruct (prune_shards_spec (fun i c => exists L U, shard_inv i c last L U (outs_of i out)) (fun i c => exists L U, shard_inv i c last L U (outs_of i out)))
    with (cs := shard_ s) (n := 0%nat) as (cs' & E & Hl & Hcs).
  - intros i c (L & U & Hc). destruct (lru_Prune_spec (Hhf := hf_range) N i c last L U _ Hc) as (c' & Ep & Hc' & _). exists c'. split; [done|]. by exists [], U.
  - intros i c Ec. by apply Hr.
  - unfold sharded_Prune. rewrite E. cbn [mbind option_bind]. eexists. split; [done|]. destruct Hr as (Hlen & Hid & Hx & Ho & _).
    split; [cbn [shard_]; by rewrite Hl|]. split; [done|]. split; [done|]. split; [done|]. exact Hcs.
Qed.

(** When all handles have been released, nothing is left behind. *)
Lemma destroy_shards_spec s last : lru_rel s last [] -> exists ms, destroy_shards (shard_ s) = Some ms /\ Forall (fun m => entries m = ∅) ms.
Proof.
  intros (_ & _ & _ & _ & Hs). assert (forall c, In c (shard_ s) -> exists m, destroy_LRUCache c = Some m /\ entries m = ∅) as Hd.
  { intros c [i E]%list_elem_of_In%list_elem_of_lookup. destruct (Hs i c E) as (L & U & Hc). by eapply destroy_LRUCache_spec. }
  clear Hs. induction (shard_ s) as [|c cs IH]; [by exists []|]. simpl. destruct (Hd c (or_introl eq_refl)) as (m & -> & Hm). cbn [mbind option_bind].
  destruct IH as (ms & -> & Hms); [intros d Hin; apply Hd; by right|]. exists (m :: ms). split; [done|]. by constructor.
Qed.

(** The sharded cache is a cache. *)
#[export] Instance lru_cache_ok : CacheOk (ShardedLRUCache_cache (V := V) kLittleEndian) lru_rel max_handles.
Proof using HN Hlimit.
  split; cbn [CacheInsert CacheLookup CacheRelease CacheValue CacheErase CacheNewId CachePrune ShardedLRUCache_cache].
  - apply sharded_Insert_spec.
  - apply sharded_Lookup_spec.
  - intros s last out h v Hr Hin. destruct (handle_entry_spec s last out h v Hr Hin) as (e & E & <- & _). unfold sharded_Value. by rewrite E.
  - apply sharded_Release_spec.
  - apply sharded_Erase_spec.
  - apply sharded_Prune_spec.
  - intros s last out (Hlen & Hid & Hx & Ho & Hs). unfold sharded_NewId. cbv zeta. cbn [fst snd]. split; [|apply u64_range].
    split; [done|]. split; [apply u64_range|]. by split.
  - intros s last out out' Hp (Hlen & Hid & Hx & Ho & Hs). split; [done|]. split; [done|]. split; [intros x; rewrite <- Hp; apply Hx|].
    split; [by rewrite <- Hp|]. intros i c E. destruct (Hs i c E) as (L & U & Hc). exists L, U. eapply cinv_perm; [|exact Hc]. unfold outs_of. by rewrite Hp.
Qed.

(** Ids count up; there are 2^64 of them. *)
Definition lru_ids (s : ShardedLRUCache (V := V)) (n : nat) (G : gset Z) : Prop := 0 <= last_id_ s /\ last_id_ s + Z.of_nat n < 2 ^ 64 /\ forall i, i ∈ G -> i <= last_id_ s.

Lemma on_shard_id {R} i (f : LRUCache -> option (R * LRUCache)) (s s' : ShardedLRUCache (V := V)) r : on_shard i f s = Some (r, s') -> last_id_ s' = last_id_ s.
Proof. unfold on_shard. destruct (shard_ s !! i); [|done]. cbn [mbind option_bind]. destruct (f _) as [[r' c]|]; [|done]. by intros [= _ <-]. Qed.

#[export] Instance lru_cache_ids : CacheIdsOk (ShardedLRUCache_cache (V := V) kLittleEndian) lru_rel lru_ids.
Proof using.
  assert (forall (s s' : ShardedLRUCache (V := V)) n G, last_id_ s' = last_id_ s -> lru_ids s n G -> lru_ids s' n G) as Hsame by (unfold lru_ids; intros s s' n G ->; done).
  split; cbn [CacheInsert CacheLookup CacheRelease CacheNewId ShardedLRUCache_cache].
  - intros s last out n G _ (H0 & H1 & HG). unfold sharded_NewId. cbn [fst snd]. rewrite u64_id by lia. split; [intros Hin; apply HG in Hin; lia|].
    split; cbn [last_id_]; [lia|]. split; [lia|]. intros i. rewrite elem_of_union, elem_of_singleton. intros [Hi| ->]; [apply HG in Hi; lia|lia].
  - intros s n G (H0 & H1 & HG). split; [done|]. split; [lia|done].
  - intros s s' k r n G Hi E. apply (Hsame s); [|done]. unfold sharded_Lookup in E. destruct (on_shard _ _ s) as [[r' s1]|] eqn:E1; [|done]. cbn in E. injection E as _ <-. by apply on_shard_id in E1.
  - intros s s' k v ch h n G Hi E. apply (Hsame s); [|done]. unfold sharded_Insert in E. destruct (on_shard _ _ s) as [[r' s1]|] eqn:E1; [|done]. cbn in E. injection E as _ <-. by apply on_shard_id in E1.
  - intros s s' h n G Hi E. apply (Hsame s); [|done]. unfold sharded_Release in E. destruct (handle_entry s h) as [e|]; [|done]. cbn [mbind option_bind] in E. destruct (decide _); [|done].
    destruct (on_shard _ _ s) as [[r' s1]|] eqn:E1; [|done]. cbn in E. injection E as <-. by apply on_shard_id in E1.
Qed.

Lemma NewLRUCache_spec capacity last : 0 < capacity -> (capacity + 15) / 16 <= N -> 0 <= max_handles ->
  exists s, NewLRUCache (V := V) capacity = Some s /\ lru_rel s last [].
Proof using HN Hlimit.
  intros Hc Hcap H0. assert (capacity + 15 < 16 * 2 ^ 31) as Hb by (pose proof (Z.div_mod (capacity + 15) 16 ltac:(lia)); pose proof (Z.mod_pos_bound (capacity + 15) 16 ltac:(lia)); lia).
  unfold NewLRUCache. cbv zeta. change (Z.of_nat kNumShards) with 16. replace (capacity + (16 - 1)) with (capacity + 15) by lia. rewrite u64_id by lia.
  destruct (decide (True)) as [_|]; [|done].
  assert (forall i, exists c, new_LRUCache (V := V) ((capacity + 15) / 16) = Some c /\ shard_inv i c last [] [] []) as Hnew.
  { intros i. destruct (new_LRUCache_spec (V := V) (Hhf := hf_range) N i ((capacity + 15) / 16) last) as (c & E & Hci & _); [|lia|by exists c].
    split; [|done]. apply Z.div_str_pos. lia. }
  destruct (Hnew 0%nat) as (c & E & _). rewrite E. cbn [mbind option_bind]. eexists. split; [done|]. split; [cbn [shard_]; by rewrite length_replicate|].
  split; [cbn; lia|]. split; [by intros x []|]. split; [done|]. intros i c' [-> _]%lookup_replicate. destruct (Hnew i) as (c' & E' & Hci).
  assert (c' = c) as -> by congruence. by exists [], [].
Qed.
End Sharded.

(** ** Clients of a cache

    A client inserts, looks up, erases and prunes, and releases handles it was
    given.  [client_run] checks what the client sees against the map of the
    values inserted last: every handle must hold its value until it is
    released, and a lookup may only find the value inserted last. *)

Section Client.
Context {C H V : Type} `{!EqDecision V} (cache : Cache C H V).

Inductive client_op :=
  | DoInsert (k : list byte) (v : V) (charge : Z)
  | DoLookup (k : list byte)
  | DoRelease (i : nat)
  | DoErase (k : list byte)
  | DoPrune.

(** All the handles of the client hold their values. *)
Definition handles_good (c : C) (out : list (H * V)) : bool := forallb (fun x => bool_decide (CacheValue c x.1 = Some x.2)) out.

(** One step: the cache, the values inserted last, the handles of the client. *)
Definition client_step (op : client_op) (c : C) (last : list byte -> option V) (out : list (H * V))
  : option (C * (list byte -> option V) * list (H * V)) :=
  match op with
  | DoInsert k v charge => '(h, c) ← CacheInsert k v charge c; Some (c, fun k' => if decide (k' = k) then Some v else last k', (h, v) :: out)
  | DoLookup k =>
      '(r, c) ← CacheLookup k c;
      match r with
      | Some h => v ← CacheValue c h; if decide (last k = Some v) then Some (c, last, (h, v) :: out) else None
      | None => Some (c, last, out)
      end
  | DoRelease i =>
      match out !! i with
      | Some (h, v) => c ← CacheRelease h c; Some (c, last, delete i out)
      | None => Some (c, last, out)
      end
  | DoErase k => c ← CacheErase k c; Some (c, fun k' => if decide (k' = k) then None else last k', out)
  | DoPrune => c ← CachePrune c; Some (c, last, out)
  end.

Fixpoint client_run (ops : list client_op) (c : C) (last : list byte -> option V) (out : list (H * V))
  : option (C * (list byte -> option V) * list (H * V)) :=
  match ops with
  | [] => Some (c, last, out)
  | op :: ops' =>
      '(c, last, out) ← client_step op c last out;
      if handles_good c out then client_run ops' c last out else None
  end.

Definition op_legal (op : client_op) : Prop := match op with DoInsert _ _ charge => 1 <= charge < 2 ^ 32 | _ => True end.

Context (rel : C -> (list byte -> option V) -> list (H * V) -> Prop) (max_handles : Z) {Hok : CacheOk cache rel max_handles}.

Lemma handles_good_rel c last out : rel c last out -> handles_good c out = true.
Proof.
  intros Hr. apply forallb_forall. intros [h v] Hin. apply bool_decide_eq_true_2. by eapply cache_value_ok.
Qed.

Lemma client_step_ok op c last out : op_legal op -> rel c last out -> Z.of_nat (length out) < max_handles ->
  exists c' last' out', client_step op c last out = Some (c', last', out') /\ rel c' last' out' /\ (length out' <= S (length out))%nat.
Proof.
  intros Hl Hr Hroom. destruct op as [k v ch|k|i|k|]; simpl.
  - destruct (cache_insert_ok c last out k v ch Hr Hl Hroom) as (h & c' & -> & Hr'). cbn [mbind option_bind]. eexists _, _, _. split; [done|]. by split.
  - destruct (cache_lookup_ok c last out k Hr Hroom) as (r & c' & -> & Hr'). cbn [mbind option_bind]. destruct r as [h|].
    + destruct Hr' as (v & Hv & Hr'). rewrite (cache_value_ok c' last ((h, v) :: out) h v Hr') by by left. cbn [mbind option_bind].
      rewrite decide_True by done. eexists _, _, _. split; [done|]. by split.
    + eexists _, _, _. split; [done|]. split; [done|lia].
  - destruct (out !! i) as [[h v]|] eqn:E; [|eexists _, _, _; split; [done|]; split; [done|lia]].
    pose proof (delete_Permutation out i _ E) as Hp. destruct (cache_release_ok c last (delete i out) h v) as (c' & -> & Hr'); [by eapply cache_out_perm|].
    cbn [mbind option_bind]. eexists _, _, _. split; [done|]. split; [done|]. pose proof (Permutation_length Hp) as Hlen. simpl in Hlen. lia.
  - destruct (cache_erase_ok c last out k Hr) as (c' & -> & Hr'). cbn [mbind option_bind]. eexists _, _, _. split; [done|]. split; [done|lia].
  - destruct (cache_prune_ok c last out Hr) as (c' & -> & Hr'). cbn [mbind option_bind]. eexists _, _, _. split; [done|]. split; [done|lia].
Qed.

Lemma client_run_ok ops : forall c last out, Forall op_legal ops -> rel c last out -> Z.of_nat (length out + length ops) <= max_handles ->
  exists c' last' out', client_run ops c last out = Some (c', last', out') /\ rel c' last' out'.
Proof.
  induction ops as [|op ops IH]; intros c last out Hl Hr Hroom; [by exists c, last, out|]. apply Forall_cons in Hl as [Hop Hl]. simpl in Hroom |- *.
  destruct (client_step_ok op c last out Hop Hr) as (c1 & last1 & out1 & -> & Hr1 & Hlen); [lia|]. cbn [mbind option_bind].
  rewrite (handles_good_rel _ _ _ Hr1). apply IH; [done|done|lia].
Qed.
End Client.

(** C5. The cache of [NewLRUCache], with a capacity above zero, serves every sequence of insertions, lookups,
    releases, erasures and prunings: no assertion of the hash table, of its
    resizing or of the reference counting fails and no entry is read after it was freed, a lookup finds the
    value inserted last for the key or nothing, and each handle holds its value until the client
    releases it, whatever was evicted or erased in between. Once the client has released all handles the cache
    can be destroyed, and then every entry has been freed. *)
Theorem lru_cache_client (V : Type) (Hdec : EqDecision V) (kLittleEndian : bool) (capacity : Z) (ops : list (client_op (V := V))) :
  0 < capacity < 2 ^ 34 -> Forall op_legal ops -> Z.of_nat (length ops) < 2 ^ 31 - 1 ->
  exists s0 s last out, NewLRUCache capacity = Some s0 /\
    client_run (ShardedLRUCache_cache kLittleEndian) ops s0 (fun _ => None) [] = Some (s, last, out) /\
    (out = [] -> exists ms, destroy_shards (shard_ s) = Some ms /\ Forall (fun m => entries m = ∅) ms).
Proof.
  intros Hc Hl Hlen. destruct (NewLRUCache_spec (V := V) kLittleEndian (2 ^ 31 - 2) (2 ^ 31 - 2) ltac:(lia) ltac:(lia) capacity (fun _ => None)) as (s0 & E & Hr).
  - lia.
  - assert ((capacity + 15) / 16 < 2 ^ 30 + 1) by (apply Z.div_lt_upper_bound; lia). lia.
  - lia.
  - destruct (client_run_ok (ShardedLRUCache_cache kLittleEndian) (lru_rel kLittleEndian (2 ^ 31 - 2) (2 ^ 31 - 2)) (2 ^ 31 - 2)
      (Hok := lru_cache_ok kLittleEndian (2 ^ 31 - 2) (2 ^ 31 - 2) ltac:(lia) ltac:(lia)) ops s0 (fun _ => None) [] Hl Hr) as (s & last & out & Er & Hr'); [simpl; lia|].
    exists s0, s, last, out. split; [done|]. split; [done|]. intros ->. by eapply destroy_shards_spec.
Qed.
