(* ===== verification/Table.v ===== *)
(** * Reading tables: table/table.cc

    The table reads its blocks through the block cache, if there is one.
    [None] is a failed assertion or a read outside a buffer. *)
From S2P Require Import Prelude Varint Coding Comparator DbFormat FilterBlock Status Iter Block TwoLevel Interfaces Crc Format.

(** An iterator of one of two kinds. *)
Definition sum_iterator {A B} (a : Iterator A) (b : Iterator B) : Iterator (A + B) := {|
  Valid st := match st with inl x => Valid x | inr x => Valid x end;
  SeekToFirst st := match st with inl x => option_map inl (SeekToFirst x) | inr x => option_map inr (SeekToFirst x) end;
  SeekToLast st := match st with inl x => option_map inl (SeekToLast x) | inr x => option_map inr (SeekToLast x) end;
  Seek k st := match st with inl x => option_map inl (Seek k x) | inr x => option_map inr (Seek k x) end;
  Next st := match st with inl x => option_map inl (Next x) | inr x => option_map inr (Next x) end;
  Prev st := match st with inl x => option_map inl (Prev x) | inr x => option_map inr (Prev x) end;
  key st := match st with inl x => key x | inr x => key x end;
  value st := match st with inl x => value x | inr x => value x end;
  status st := match st with inl x => status x | inr x => status x end;
|}.

Section Table.
Context (kLittleEndian : bool) {snappy : Snappy} {F : Type} {raf : RandomAccessFile F}.
Context {C H : Type} {cache : Cache C H Block}.

(** The error iterator of a bad block, or one over its entries. *)
Definition block_iterator (c : Comparator) : Iterator (EmptyIterator + BlockIter) :=
  sum_iterator EmptyIterator_iterator (Block_Iter kLittleEndian c).

(** The functions that are registered to be called when a block iterator is deleted. *)
Inductive BlockCleanup := DeleteBlock | ReleaseBlock (handle : H).

Record TableIter := TblIter { ti_iter : EmptyIterator + BlockIter; ti_cleanup : Cleanups (CleanupFunction := BlockCleanup) }.

Definition on_iter (op : EmptyIterator + BlockIter -> option (EmptyIterator + BlockIter)) (t : TableIter) : option TableIter :=
  match op (ti_iter t) with Some i => Some (TblIter i (ti_cleanup t)) | None => None end.

Definition TableIter_iterator (c : Comparator) : Iterator TableIter :=
  let it := block_iterator c in {|
  Valid t := Valid (ti_iter t);
  SeekToFirst := on_iter SeekToFirst;
  SeekToLast := on_iter SeekToLast;
  Seek k := on_iter (Seek k);
  Next := on_iter Next;
  Prev := on_iter Prev;
  key t := key (ti_iter t);
  value t := value (ti_iter t);
  status t := status (ti_iter t);
|}.

(** [delete iter]: the cleanups are called. *)
Definition run_cleanup (f : BlockCleanup) (c : C) : option C :=
  match f with DeleteBlock => Some c | ReleaseBlock h => CacheRelease h c end.

Fixpoint run_all (fs : list BlockCleanup) (c : C) : option C :=
  match fs with [] => Some c | f :: fs' => c ← run_cleanup f c; run_all fs' c end.

Definition delete_TableIter (t : TableIter) (c : C) : option C := run_all (run_cleanups (ti_cleanup t)) c.

Record Table := MkTable {
  tbl_options : Options;
  tbl_file : F;
  cache_id : Z;
  filter : option (FilterPolicy * FilterBlockReader);
  tbl_metaindex_handle : BlockHandle;
  tbl_index_block : Block;
}.

(** [ReadOptions] with the checksums verified when the table is to be checked. *)
Definition meta_read_options (o : Options) : ReadOptions := MkReadOptions (paranoid_checks o) true.

(** [ReadFilter]; errors leave the table without a filter. *)
Definition ReadFilter (filter_handle_value : list byte) (policy : FilterPolicy) (t : Table) : option Table :=
  let '(s, filter_handle, _) := HandleDecodeFrom kLittleEndian new_BlockHandle filter_handle_value in
  if negb (ok s) then Some t
  else
    '(s, block) ← ReadBlock kLittleEndian (tbl_file t) (meta_read_options (tbl_options t)) filter_handle;
    if negb (ok s) then Some t
    else
      r ← new_FilterBlockReader kLittleEndian (bc_data block);
      Some (MkTable (tbl_options t) (tbl_file t) (cache_id t) (Some (policy, r)) (tbl_metaindex_handle t) (tbl_index_block t)).

(** [ReadMeta]; the same for the metaindex block. *)
Definition ReadMeta (footer : Footer) (t : Table) : option Table :=
  match filter_policy (tbl_options t) with
  | None => Some t
  | Some (policy, name) =>
      '(s, contents) ← ReadBlock kLittleEndian (tbl_file t) (meta_read_options (tbl_options t)) (metaindex_handle_ footer);
      if negb (ok s) then Some t
      else
        let it := block_iterator BytewiseComparator in
        meta ← new_Block kLittleEndian (bc_data contents);
        iter ← NewBlockIterator kLittleEndian meta;
        let k := bytes_of "filter." ++ name in
        iter ← Seek k iter;
        if Valid iter then
          k' ← key iter;
          if slice_eqb k' k then v ← value iter; ReadFilter v policy t else Some t
        else Some t
  end.

(** The status, the table, and the cache that has given a new id. *)
Definition Open (options : Options) (file : F) (size : Z) (c : C) : option (Status * option Table * C) :=
  if size <? Z.of_nat kEncodedLength then Some (FormatCorruption kLittleEndian "file is too short to be an sstable", None, c)
  else
    let '(s, footer_input, _) := ReadAt file (size - Z.of_nat kEncodedLength) (Z.of_nat kEncodedLength) in
    if negb (ok s) then Some (s, None, c)
    else
      '(s, footer, _) ← FooterDecodeFrom kLittleEndian (MkFooter new_BlockHandle new_BlockHandle) footer_input;
      if negb (ok s) then Some (s, None, c)
      else
        '(s, contents) ← ReadBlock kLittleEndian file (meta_read_options options) (index_handle_ footer);
        if negb (ok s) then Some (s, None, c)
        else
          index_block ← new_Block kLittleEndian (bc_data contents);
          let '(id, c) := if has_block_cache options then CacheNewId c else (0, c) in
          t ← ReadMeta footer (MkTable options file id None (metaindex_handle_ footer) index_block);
          Some (s, Some t, c).

Definition cache_key (t : Table) (handle : BlockHandle) : list byte :=
  EncodeFixed64 kLittleEndian (cache_id t) ++ EncodeFixed64 kLittleEndian (bh_offset handle).

(** A block that is not in the cache: the status, and the block if it could be read, with whether it may be cached. *)
Definition load_block (t : Table) (options : ReadOptions) (handle : BlockHandle) : option (Status * option (Block * bool)) :=
  '(s, contents) ← ReadBlock kLittleEndian (tbl_file t) options handle;
  if ok s then block ← new_Block kLittleEndian (bc_data contents); Some (s, Some (block, cachable contents))
  else Some (s, None).

(** The status, the block and the handle of its cache entry, the last two NULL when they are [None]. *)
Definition find_block (t : Table) (options : ReadOptions) (handle : BlockHandle) (c : C)
  : option (Status * option Block * option H * C) :=
  if has_block_cache (tbl_options t) then
    '(cache_handle, c) ← CacheLookup (cache_key t handle) c;
    match cache_handle with
    | Some h => block ← CacheValue c h; Some (OK, Some block, Some h, c)
    | None =>
        '(s, r) ← load_block t options handle;
        match r with
        | Some (block, cachable) =>
            if cachable && fill_cache options then
              '(h, c) ← CacheInsert (cache_key t handle) block (block_size block) c;
              Some (s, Some block, Some h, c)
            else Some (s, Some block, None, c)
        | None => Some (s, None, None, c)
        end
    end
  else
    '(s, r) ← load_block t options handle;
    Some (s, option_map fst r, None, c).

Definition BlockReader (t : Table) (options : ReadOptions) (index_value : list byte) (c : C) : option (TableIter * C) :=
  let '(s, handle, _) := HandleDecodeFrom kLittleEndian new_BlockHandle index_value in
  '(s, block, cache_handle, c) ← (if ok s then find_block t options handle c else Some (s, None, None, c));
  match block with
  | Some block =>
      iter ← NewBlockIterator kLittleEndian block;
      let f := match cache_handle with None => DeleteBlock | Some h => ReleaseBlock h end in
      Some (TblIter iter (RegisterCleanup f no_cleanups), c)
  | None => Some (TblIter (inl (NewErrorIterator s)) no_cleanups, c)
  end.

(** An index entry takes a byte at least, so the size of the index block is fuel enough. *)
Definition table_fuel (t : Table) : nat := length (block_data (tbl_index_block t)).

Definition table_iterator (t : Table) (options : ReadOptions) :=
  TwoLevelIterator_iterator (index_it := block_iterator (opt_comparator (tbl_options t)))
    (data_it := TableIter_iterator (opt_comparator (tbl_options t)))
    (BlockReader t options) delete_TableIter (table_fuel t).

Definition NewTableIterator (t : Table) (c : C) : option (TwoLevelIterator (I := EmptyIterator + BlockIter) (D := TableIter) (A := C)) :=
  index_iter ← NewBlockIterator kLittleEndian (tbl_index_block t);
  NewTwoLevelIterator (index_it := block_iterator (opt_comparator (tbl_options t))) index_iter c.

(** [saver] is given the entry that was found, with its state. *)
Definition InternalGet {S} (t : Table) (options : ReadOptions) (k : list byte) (saver : list byte -> list byte -> S -> S)
    (arg : S) (c : C) : option (Status * S * C) :=
  let index_it := block_iterator (opt_comparator (tbl_options t)) in
  let data_it := TableIter_iterator (opt_comparator (tbl_options t)) in
  iiter ← NewBlockIterator kLittleEndian (tbl_index_block t);
  iiter ← Seek k iiter;
  '(s, arg, c) ←
    (if Valid iiter then
       handle_value ← value iiter;
       let '(hs, handle, _) := HandleDecodeFrom kLittleEndian new_BlockHandle handle_value in
       excluded ← (match filter t with
                   | Some (policy, r) =>
                       if ok hs then m ← FilterKeyMayMatch kLittleEndian policy r (bh_offset handle) k; Some (negb m) else Some false
                   | None => Some false
                   end);
       if (excluded : bool) then Some (OK, arg, c)
       else
         '(block_iter, c) ← BlockReader t options handle_value c;
         block_iter ← Seek k block_iter;
         arg ← (if Valid block_iter then k' ← key block_iter; v ← value block_iter; Some (saver k' v arg) else Some arg);
         c ← delete_TableIter block_iter c;
         Some (status block_iter, arg, c)
     else Some (OK, arg, c));
  Some (if ok s then status iiter else s, arg, c).

Definition ApproximateOffsetOf (t : Table) (k : list byte) : option Z :=
  let index_it := block_iterator (opt_comparator (tbl_options t)) in
  index_iter ← NewBlockIterator kLittleEndian (tbl_index_block t);
  index_iter ← Seek k index_iter;
  if Valid index_iter then
    input ← value index_iter;
    let '(s, handle, _) := HandleDecodeFrom kLittleEndian new_BlockHandle input in
    Some (if ok s then bh_offset handle else bh_offset (tbl_metaindex_handle t))
  else Some (bh_offset (tbl_metaindex_handle t)).
End Table.
