(* ===== verification/TableLayout.v ===== *)
(** * What a table file is

    The specification between the builder and the reader of tables: blocks with
    their trailers at their places, an index whose keys separate the data
    blocks, a metaindex block, a filter block that answers for every key, and the
    footer. *)
From S2P Require Import Prelude Varint Coding CodingProps Comparator DbFormat FilterBlock FilterBlockProps Status Iter Block BlockProps Interfaces Format FormatProps.

Lemma option_pair_cases {A B} (x : option (A * B)) : (exists a b, x = Some (a, b)) \/ x = None.
Proof. destruct x as [[a b]|]; [left; by exists a, b|by right]. Qed.

(** ** Blocks as lists of entries *)

(** The contents of a block, however its keys are compressed and wherever its restart points are. *)
Definition holds_entries (data : list byte) (es : list entry) : Prop :=
  exists bs ri, block_ok bs ri /\ data = block_contents bs ri /\ map be_entry bs = es.

(** The positions of an iterator over such a block. *)
Definition at_block (es : list entry) (i : BlockIter) (p : option nat) : Prop :=
  exists bs ri, block_ok bs ri /\ map be_entry bs = es /\ block_pos (bs := bs) (ri := ri) i p.

Lemma block_readable le data es : holds_entries data es ->
  exists blk it, new_Block le data = Some blk /\ block_data blk = data /\ 1 <= block_size blk < 2 ^ 32 /\
    NewBlockIterator le blk = Some (inr it) /\ at_block es it None.
Proof.
  intros (bs & ri & Hok & -> & Em). destruct (new_Block_contents (le := le) bs ri Hok) as [Eb Ei].
  eexists _, _. split; [exact Eb|]. split; [done|]. split; [|split; [exact Ei|]].
  - pose proof (bo_size _ _ Hok). simpl. rewrite length_block_contents in *. lia.
  - exists bs, ri. by split_and!.
Qed.

Lemma at_block_ok {le cmp valid es} :
  ComparatorOk cmp valid -> Forall (fun e : entry => valid e.1) es -> keys_sorted cmp es ->
  IteratorOk (Block_Iter le cmp) cmp valid es (at_block es).
Proof.
  intros Hc Hv Hs.
  assert (forall bs ri, block_ok bs ri -> map be_entry bs = es ->
    IteratorOk (Block_Iter le cmp) cmp valid es (block_pos (bs := bs) (ri := ri))) as Hok.
  { intros bs ri Hb <-. assert (Forall (fun e => valid (be_key e)) bs) as Hv'.
    { apply List.Forall_forall. intros e He. rewrite List.Forall_forall in Hv. by apply (Hv (be_entry e)), in_map. }
    exact (Block_Iter_ok (Hok := Hb) (Hvalid := Hv') (Hsorted := Hs)). }
  split.
  - intros st p (bs & ri & Hb & Em & Hp). by apply (it_valid (IteratorOk := Hok bs ri Hb Em)).
  - intros st i (bs & ri & Hb & Em & Hp). by apply (it_entry (IteratorOk := Hok bs ri Hb Em)).
  - intros st p (bs & ri & Hb & Em & Hp). destruct (it_first (IteratorOk := Hok bs ri Hb Em) _ _ Hp) as (st' & E & H).
    exists st'. split; [done|]. by exists bs, ri.
  - intros st p (bs & ri & Hb & Em & Hp). destruct (it_last (IteratorOk := Hok bs ri Hb Em) _ _ Hp) as (st' & E & H).
    exists st'. split; [done|]. by exists bs, ri.
  - intros st p t (bs & ri & Hb & Em & Hp) Ht. destruct (it_seek (IteratorOk := Hok bs ri Hb Em) _ _ t Hp Ht) as (st' & E & H).
    exists st'. split; [done|]. by exists bs, ri.
  - intros st i (bs & ri & Hb & Em & Hp). destruct (it_next (IteratorOk := Hok bs ri Hb Em) _ _ Hp) as (st' & E & H).
    exists st'. split; [done|]. by exists bs, ri.
  - intros st i (bs & ri & Hb & Em & Hp). destruct (it_prev (IteratorOk := Hok bs ri Hb Em) _ _ Hp) as (st' & E & H).
    exists st'. split; [done|]. by exists bs, ri.
  - intros st p (bs & ri & Hb & Em & Hp). by apply (it_status (IteratorOk := Hok bs ri Hb Em) st p).
Qed.

(** A block takes at least a byte for each entry. *)
Lemma holds_entries_length data es : holds_entries data es -> (length es <= length data)%nat.
Proof.
  intros (bs & ri & _ & -> & <-). rewrite length_map, length_block_contents.
  pose proof (offset_mono bs 0 (length bs) ltac:(lia)) as Ho. rewrite offset_all in Ho. lia.
Qed.

(** ** Blocks in a file *)

Record stored_block := Stored { sb_pos : nat; sb_bytes : list byte; sb_type : CompressionType; sb_data : list byte }.

Definition sb_handle (b : stored_block) : BlockHandle := Handle (Z.of_nat (sb_pos b)) (Z.of_nat (length (sb_bytes b))).

Definition placed {snappy : Snappy} (bytes : list byte) (b : stored_block) : Prop :=
  restores (sb_bytes b) (sb_type b) (sb_data b) /\
  exists pre post, bytes = pre ++ raw_block (sb_bytes b) (sb_type b) ++ post /\ length pre = sb_pos b.

Lemma placed_size {snappy : Snappy} bytes b : placed bytes b -> (sb_pos b + length (sb_bytes b) + 5 <= length bytes)%nat.
Proof. intros (_ & pre & post & -> & <-). rewrite !length_app, length_raw_block. unfold kBlockTrailerSize. lia. Qed.

Lemma placed_more {snappy : Snappy} bytes more b : placed bytes b -> placed (bytes ++ more) b.
Proof.
  intros (Hr & pre & post & -> & Hl). split; [done|]. exists pre, (post ++ more). split; [|done]. by rewrite <- !app_assoc.
Qed.

Lemma placed_handle {snappy : Snappy} bytes b : placed bytes b -> Z.of_nat (length bytes) < 2 ^ 32 -> handle_ok (sb_handle b).
Proof. intros Hp Hl. pose proof (placed_size bytes b Hp). unfold handle_ok. simpl. lia. Qed.

Lemma ReadBlock_placed {le : bool} {snappy : Snappy} {F : Type} {raf : RandomAccessFile F} {contents : F -> list byte}
    {Hraf : RandomAccessFileOk raf contents} file options bytes b :
  contents file = bytes -> placed bytes b -> Z.of_nat (length bytes) < 2 ^ 32 ->
  exists cachable heap, ReadBlock le file options (sb_handle b) = Some (OK, MkContents (sb_data b) cachable heap).
Proof.
  intros Ef Hp Hl. pose proof (placed_size bytes b Hp). destruct Hp as (Hr & pre & post & Eb & Ep).
  unfold sb_handle. rewrite <- Ep. eapply ReadBlock_raw; [by rewrite Ef|exact Hr|lia].
Qed.

(** ** Tables *)

Record table_layout := TableLayout {
  ly_blocks : list (stored_block * list entry);
  ly_keys : list (list byte);        (* the keys of the index *)
  ly_index : stored_block;
  ly_meta : stored_block;
  ly_filter : option stored_block;
}.

Definition index_entry (k : list byte) (b : stored_block * list entry) : entry := (k, enc_handle (sb_handle b.1)).
Definition index_entries (ly : table_layout) : list entry := zip_with index_entry (ly_keys ly) (ly_blocks ly).

Definition filter_key (name : list byte) : list byte := bytes_of "filter." ++ name.

(** What the reader needs of a policy for any filter, and the builder of the size of one. *)
Class FilterPolicyBounds (p : FilterPolicy) (valid : list byte -> Prop) (per_key : Z) := {
  filter_total k f : valid k -> Z.of_nat (length f) < 2 ^ 32 -> is_Some (@KeyMayMatch p k f);
  filter_size keys dst f : @CreateFilter p keys dst = Some f ->
    Z.of_nat (length f) <= Z.of_nat (length dst) + per_key * (1 + Z.of_nat (length keys));
}.

(** The filter block says of every entry that it may be there. *)
Definition filter_answers (le : bool) (p : FilterPolicy) (contents : list byte) (blocks : list (stored_block * list entry)) : Prop :=
  exists r, new_FilterBlockReader le contents = Some r /\ base_lg_ r < 64 /\ Z.of_nat (length contents) < 2 ^ 32 /\
    forall b e, In b blocks -> In e b.2 -> FilterKeyMayMatch le p r (Z.of_nat (sb_pos b.1)) e.1 = Some true.

(** The key of the index for a block with entries [es], in front of one that starts with [next]. *)
Definition index_key (c : Comparator) (es : list entry) (next : option entry) (k : list byte) : Prop :=
  exists e, last es = Some e /\
    match next with
    | Some f => @FindShortestSeparator c e.1 f.1 = Some k
    | None => @FindShortSuccessor c e.1 = Some k
    end.

Record table_file {snappy : Snappy} (le : bool) (c : Comparator)
    (policy : option (FilterPolicy * list byte)) (bytes : list byte) (es : list entry) (ly : table_layout) : Prop := {
  tf_entries : es = concat (map snd (ly_blocks ly));
  tf_blocks : Forall (fun b => placed bytes b.1 /\ holds_entries (sb_data b.1) b.2 /\ b.2 <> []) (ly_blocks ly);
  tf_places : NoDup (map (fun b : stored_block * list entry => sb_pos b.1) (ly_blocks ly));
  tf_keys : length (ly_keys ly) = length (ly_blocks ly);
  tf_index : placed bytes (ly_index ly) /\ holds_entries (sb_data (ly_index ly)) (index_entries ly);
  tf_separators j k b : ly_keys ly !! j = Some k -> ly_blocks ly !! j = Some b ->
    index_key c b.2 (ly_blocks ly !! S j ≫= fun b' => head b'.2) k;
  tf_meta : placed bytes (ly_meta ly) /\
    match policy, ly_filter ly with
    | None, None => holds_entries (sb_data (ly_meta ly)) []
    | Some (p, name), Some b =>
        holds_entries (sb_data (ly_meta ly)) [(filter_key name, enc_handle (sb_handle b))] /\
        placed bytes b /\ filter_answers le p (sb_data b) (ly_blocks ly)
    | _, _ => False
    end;
  tf_footer : exists pre, bytes = pre ++ enc_footer (MkFooter (sb_handle (ly_meta ly)) (sb_handle (ly_index ly)));
  tf_size : Z.of_nat (length bytes) < 2 ^ 32;
}.

(** ** How large the parts of a table get

    The builders of blocks and of filter blocks against the sizes of what is put
    into them: the bounds that keep a table within 32 bits. *)

(** ** Blocks *)

(** What an entry may take in a block, with a restart point of its own. *)
Definition entry_room (e : entry) : nat := length e.1 + length e.2 + 19.

Fixpoint entries_room (es : list entry) : nat :=
  match es with [] => 0 | e :: es' => entry_room e + entries_room es' end.

Lemma entries_room_app a b : entries_room (a ++ b) = (entries_room a + entries_room b)%nat.
Proof. induction a as [|e a IH]; simpl; lia. Qed.

Lemma size_varint_length n : (length (size_varint n) <= 5)%nat.
Proof. unfold size_varint, EncodeVarint32. cbv zeta. repeat case_if; simpl; lia. Qed.

Lemma enc_entry_room e : (length (enc_entry e) + 4 <= entry_room (be_entry e))%nat.
Proof.
  unfold enc_entry, entry_room. rewrite !length_app, length_drop. pose proof (size_varint_length (be_shared e)).
  pose proof (size_varint_length (length (be_key e) - be_shared e)). pose proof (size_varint_length (length (be_value e))). lia.
Qed.

Lemma layout_room bs : (length (layout bs) + 4 * length bs <= entries_room (map be_entry bs))%nat.
Proof.
  induction bs as [|e bs IH]; [done|]. change (e :: bs) with ([e] ++ bs). rewrite layout_app, length_app. simpl.
  unfold layout at 1. simpl. rewrite app_nil_r. pose proof (enc_entry_room e). lia.
Qed.

(** The restart points increase, so there are not many. *)
Lemma restarts_count bs ri : restarts_ok bs ri -> Forall (fun j => j <= length bs)%nat ri -> (length ri <= S (length bs))%nat.
Proof.
  intros Hr Hle. assert (forall r j, ri !! r = Some j -> (r <= j)%nat) as Hlow.
  { induction r as [|r IH]; intros j E; [lia|]. destruct (lookup_lt_is_Some_2 ri r) as [i Ei]; [apply lookup_lt_Some in E; lia|].
    pose proof (ro_mono _ _ Hr r (S r) i j ltac:(lia) Ei E). specialize (IH i Ei). lia. }
  destruct ri as [|x ri]; [simpl; lia|]. destruct (lookup_lt_is_Some_2 (x :: ri) (length ri)) as [j E]; [simpl; lia|].
  rewrite Forall_lookup in Hle. specialize (Hlow _ _ E). specialize (Hle _ _ E). simpl in *. lia.
Qed.

Section Blocks.
Context {le : bool} {cmp : Comparator} {valid : list byte -> Prop} {Hcmp : ComparatorOk cmp valid} {interval : Z} {Hinterval : 1 <= interval}.

(** A builder that has been given these entries. *)
Definition building (b : BlockBuilder) (es : list entry) : Prop :=
  exists bs ri, builder_inv interval b bs ri /\ map be_entry bs = es /\ Forall (entry_fits (valid := valid)) es.

Lemma building_new : exists b, new_BlockBuilder interval = Some b /\ building b [].
Proof using Hinterval.
  destruct (builder_inv_new interval Hinterval) as (b & E & H). exists b. split; [done|]. exists [], [0%nat]. by split_and!.
Qed.

Lemma building_reset b : building (BlockReset b) [].
Proof using Hinterval.
  destruct building_new as (b' & E & H). unfold new_BlockBuilder in E. destruct (1 <=? interval); [|done]. by injection E as <-.
Qed.

Lemma building_empty b es : building b es -> block_empty b = bool_decide (es = []).
Proof.
  intros (bs & ri & Hb & <- & _). unfold block_empty. rewrite (bi_buffer _ _ _ _ Hb). destruct bs as [|e bs]; [done|].
  symmetry. rewrite bool_decide_false by done. symmetry. apply Nat.eqb_neq. intros E. by apply layout_nil_inv in E.
Qed.

Lemma building_add b es k v : building b es -> entry_fits (valid := valid) (k, v) ->
  (forall e, last es = Some e -> key_lt cmp e.1 k) ->
  exists b', BlockAdd cmp interval k v b = Some b' /\ building b' (es ++ [(k, v)]).
Proof using Hcmp Hinterval.
  intros (bs & ri & Hb & <- & Hf) Hkv Hlast. pose proof Hkv as (Hvk & Hk & Hv). simpl in Hvk, Hk, Hv.
  assert (bs <> [] -> exists e, In (be_entry e) (map be_entry bs) /\ last (map be_entry bs) = Some (be_entry e) /\ last_key_of bs = be_key e) as Hl.
  { intros Hne. destruct (last bs) as [e|] eqn:El; [|by apply last_None in El]. exists e.
    destruct (last_key_entry bs e El) as (i & Ei & _ & ->). split_and!; [|change (map be_entry bs) with (be_entry <$> bs); by rewrite fmap_last, El|done].
    apply in_map. by eapply list_elem_of_In, list_elem_of_lookup_2. }
  destruct (BlockAdd_inv (Hcmp := Hcmp) interval b bs ri k v Hb Hinterval) as (b' & sh & ri' & E & Hb'); [| |done..|].
  - intros (e & _ & El & ->)%Hl. by apply Hlast.
  - intros (e & He & _ & ->)%Hl. rewrite List.Forall_forall in Hf. by apply Hf.
  - exists b'. split; [done|]. exists (bs ++ [BEnc sh (k, v)]), ri'. split_and!; [done|by rewrite map_app|].
    apply Forall_app. by split; [|constructor].
Qed.

Lemma building_size b es : building b es -> (length (BlockFinish le b).1 <= entries_room es + 8)%nat.
Proof.
  intros (bs & ri & Hb & <- & Hf). unfold BlockFinish. simpl. unfold PutFixed32. rewrite put_restarts_spec, EncodeFixed32_spec.
  rewrite (bi_buffer _ _ _ _ Hb), (bi_words _ _ _ _ Hb). unfold wrapped_words. rewrite !length_app, length_fixed32s, length_map, length_le_split.
  pose proof (restarts_count bs ri (bi_ri _ _ _ _ Hb) (bi_lt _ _ _ _ Hb)). pose proof (layout_room bs). lia.
Qed.

Lemma building_finish b es : building b es -> Z.of_nat (entries_room es) + 8 < 2 ^ 32 -> holds_entries (BlockFinish le b).1 es.
Proof.
  intros Hb Hr. pose proof (building_size b es Hb) as Hs. destruct Hb as (bs & ri & Hb & <- & Hf).
  assert (Z.of_nat (length (BlockFinish le b).1) < 2 ^ 32) as Hlen by lia.
  pose proof (BlockFinish_contents (le := le) interval b bs ri Hb Hlen) as E. exists bs, ri. split; [|by split].
  split; [apply Hb|apply Hb|by rewrite <- E|]. apply List.Forall_forall. intros e He. rewrite List.Forall_forall in Hf.
  by apply (Hf (be_entry e)), in_map.
Qed.
End Blocks.

(** ** Filter blocks *)

Section Filters.
Context {le : bool} {p : FilterPolicy} {valid : list byte -> Prop} {limit per_key : Z}.
Context {Hp : FilterPolicyOk p valid limit} {Hb : FilterPolicyBounds p valid per_key} {Hlimit : 0 <= limit} {Hper_key : 0 <= per_key}.

(** What the filter takes that is already there, and may take for the keys that wait. *)
Definition filter_room (b : FilterBlockBuilder) : Z := Z.of_nat (length (result_ b)) + 2 * per_key * Z.of_nat (length (start_ b)).

Lemma length_tmp_keys keys start : length (tmp_keys keys start) = pred (length start).
Proof.
  revert keys. induction start as [|x [|y start] IH]; intros keys; [done..|]. specialize (IH keys). simpl in IH |- *. by rewrite IH.
Qed.

Lemma GenerateFilter_room b b' : GenerateFilter p b = Some b' -> filter_room b' <= filter_room b.
Proof using Hb Hper_key.
  unfold GenerateFilter, filter_room. cbv zeta. destruct (Nat.eqb_spec (length (start_ b)) 0) as [E|E]; [by intros [= <-]|].
  destruct (CreateFilter _ _) as [f|] eqn:Ef; [|done]. intros [= <-]. apply (filter_size (valid := valid)) in Ef. rewrite length_tmp_keys, length_app in Ef. simpl in *. nia.
Qed.

Lemma StartBlock_loop_room fuel idx b b' : StartBlock_loop p fuel idx b = Some b' -> filter_room b' <= filter_room b.
Proof using Hb Hper_key.
  revert b. induction fuel as [|fuel IH]; intros b; simpl; destruct (_ <? idx); try done; [by intros [= <-]| |by intros [= <-]].
  destruct (GenerateFilter p b) as [b1|] eqn:E; [|done]. intros E'. apply GenerateFilter_room in E. specialize (IH b1 E'). lia.
Qed.

Lemma StartBlock_room off b b' : StartBlock p off b = Some b' -> filter_room b' <= filter_room b.
Proof using Hb Hper_key. unfold StartBlock. cbv zeta. destruct (_ <=? _); [|done]. apply StartBlock_loop_room. Qed.

Lemma FilterFinish_room b contents : FilterFinish le p b = Some contents ->
  Z.of_nat (length contents) <= filter_room b + 4 * (Z.of_nat (length (filter_offsets_ b)) + 1) + 5.
Proof using Hb Hper_key.
  unfold FilterFinish. intros E.
  assert (forall b' : FilterBlockBuilder, Some (PutFixed32 le (put_offsets le (result_ b') (filter_offsets_ b')) (u32 (Z.of_nat (length (result_ b')))) ++ [byte_of kFilterBaseLg]) = Some contents ->
    Z.of_nat (length contents) <= filter_room b' + 4 * Z.of_nat (length (filter_offsets_ b')) + 5) as Hlen.
  { intros b' [= <-]. unfold PutFixed32, filter_room. rewrite put_offsets_spec, EncodeFixed32_spec, !length_app, length_fixed32s, length_le_split. simpl. nia. }
  destruct (length (start_ b) =? 0)%nat; cbv zeta in E; [apply Hlen in E; lia|].
  destruct (GenerateFilter p b) as [b1|] eqn:E1; [|done]. apply Hlen in E. pose proof (GenerateFilter_room _ _ E1).
  assert (length (filter_offsets_ b1) = S (length (filter_offsets_ b))) as El.
  { unfold GenerateFilter in E1. cbv zeta in E1. destruct (_ =? 0)%nat; [injection E1 as <-; simpl; rewrite length_app; simpl; lia|].
    destruct (CreateFilter _ _); [|done]. injection E1 as <-. simpl. rewrite length_app. simpl. lia. }
  lia.
Qed.

(** A builder of a filter block that has been given [n] keys, and is at a block offset; [ks] are keys with the offsets
    of their blocks. *)
Definition filtering (b : FilterBlockBuilder) (off : Z) (n : nat) (ks : list (Z * list byte)) : Prop :=
  exists dn pending, fb_inv (policy := p) (valid := valid) b dn pending /\ Z.of_nat (length dn) = off / kFilterBase /\
    (length pending <= n)%nat /\ filter_room b <= 2 * per_key * Z.of_nat n /\
    forall off' key, In (off', key) ks -> 0 <= off' /\ covered dn pending (off' / kFilterBase) key.

Lemma filtering_new : exists b, StartBlock p 0 new_FilterBlockBuilder = Some b /\ filtering b 0 0 [].
Proof.
  exists new_FilterBlockBuilder. split; [done|]. exists [], []. split_and!; [apply fb_inv_new|done|done|unfold filter_room; simpl; lia|done].
Qed.

Lemma filtering_key b off n ks key : filtering b off n ks -> 0 <= off -> valid key -> filtering (FilterAddKey key b) off (S n) ((off, key) :: ks).
Proof.
  intros (dn & pending & Hi & Hd & Hn & Hr & Hk) Hoff Hv. exists dn, (pending ++ [key]).
  split; [by apply FilterAddKey_inv|]. split; [done|]. split; [rewrite length_app; simpl; lia|]. split.
  - unfold filter_room in *. simpl. rewrite length_app. simpl. nia.
  - intros off' key' [[= <- <-]|Hin].
    + split; [done|]. exists (pending ++ [key]). rewrite <- Hd, Nat2Z.id. unfold groups.
      rewrite lookup_app_r, length_map, Nat.sub_diag by (rewrite length_map; lia). split; [done|]. apply in_app_iff. right. by left.
    + destruct (Hk _ _ Hin) as [? Hc]. split; [done|]. by apply covered_more.
Qed.

Lemma filtering_start b off off' n ks : filtering b off n ks -> off <= off' -> Z.of_nat n <= limit ->
  exists b', StartBlock p off' b = Some b' /\ filtering b' off' n ks.
Proof using Hp Hb Hlimit Hper_key.
  intros (dn & pending & Hi & Hd & Hn & Hr & Hk) Hoff Hl.
  destruct (StartBlock_inv (limit := limit) off' b dn pending Hi) as (b' & dn' & pending' & E & Hi' & Hd' & Hg & Hp'); [lia|done| |].
  { rewrite Hd. apply Z.div_le_mono; [done|lia]. }
  exists b'. split; [done|]. exists dn', pending'. split_and!; [done|done|lia| |].
  - pose proof (StartBlock_room _ _ _ E). lia.
  - intros off1 key Hin. destruct (Hk _ _ Hin) as [? Hc]. split; [done|]. by eapply covered_prefix.
Qed.

Lemma filtering_finish b off n ks : filtering b off n ks -> Z.of_nat n <= limit -> 
  2 * per_key * Z.of_nat n + 4 * (off / kFilterBase + 1) + 5 < 2 ^ 32 ->
  exists contents r, FilterFinish le p b = Some contents /\ new_FilterBlockReader le contents = Some r /\ base_lg_ r < 64 /\
    Z.of_nat (length contents) <= 2 * per_key * Z.of_nat n + 4 * (off / kFilterBase + 1) + 5 /\
    forall off' key, In (off', key) ks -> FilterKeyMayMatch le p r off' key = Some true.
Proof using Hp Hb Hlimit Hper_key.
  intros (dn & pending & Hi & Hd & Hn & Hr & Hk) Hl Hsize.
  destruct (FilterFinish_inv (le := le) (limit := limit) b dn pending Hi) as (dn' & E & Hm & Hcov); [lia|].
  pose proof (FilterFinish_room _ _ E) as Hroom. rewrite (fb_inv_length _ _ _ Hi), Hd in Hroom.
  eexists _, _. split; [exact E|]. split; [apply new_FilterBlockReader_block; lia|]. split; [done|]. split; [lia|].
  intros off' key Hin. destruct (Hk _ _ Hin) as [H0 Hc]. destruct (Hcov _ _ Hc) as (g & Eg & Hg).
  pose proof (Z.div_pos off' kFilterBase H0 ltac:(done)) as Hpos.
  rewrite (FilterKeyMayMatch_block (map snd dn') (Z.to_nat (off' / kFilterBase)) g.2); [|lia|done| |by rewrite Z2Nat.id].
  - rewrite Forall_lookup in Hm. by eapply Hm.
  - apply list_lookup_fmap_Some. by exists g.
Qed.
End Filters.

(** ** The filter policies *)

Lemma set_bits_length array l a : set_bits array l = Some a -> length a = length array.
Proof.
  revert array. induction l as [|p l IH]; intros array; simpl; [by intros [= ->]|]. unfold set_bit.
  destruct (array !! _); [|done]. intros E. apply IH in E. by rewrite E, length_insert.
Qed.

Lemma add_keys_length le array k bits keys a : add_keys le array k bits keys = Some a -> length a = length array.
Proof.
  revert array. induction keys as [|key keys IH]; intros array; simpl; [by intros [= ->]|].
  destruct (set_bits array _) as [a1|] eqn:E1; [|done]. intros E. rewrite (IH _ E). by eapply set_bits_length.
Qed.

#[export] Instance BloomFilterPolicy_bounds le bits_per_key : 0 <= bits_per_key ->
  FilterPolicyBounds (BloomFilterPolicy le bits_per_key) (fun _ => True) (bits_per_key + 10).
Proof.
  intros Hb. split.
  - intros k f _. apply bloom_KeyMayMatch_total.
  - intros keys dst f. simpl. unfold bloom_CreateFilter. cbv zeta. set (n := Z.of_nat (length keys)). set (bits := if _ <? 64 then 64 else _).
    destruct (add_keys _ _ _ _ _) as [a|] eqn:E; [|done]. intros [= <-]. apply add_keys_length in E. rewrite length_app, E, length_app, length_replicate. simpl.
    assert (forall x, 0 <= x -> 0 <= u64 x <= x) as Hu by (intros x Hx; split; [apply u64_range|apply Z.mod_le; lia]).
    assert (0 <= bits <= n * bits_per_key + 64) as Hbits.
    { pose proof (Hu (n * bits_per_key) ltac:(nia)). unfold bits. destruct (_ <? 64); lia. }
    pose proof (Hu (bits + 7) ltac:(lia)). pose proof (Z.div_pos (u64 (bits + 7)) 8 ltac:(lia) ltac:(lia)).
    pose proof (Z.mul_div_le (u64 (bits + 7)) 8 ltac:(lia)). set (x := u64 (bits + 7) / 8) in *. assert (0 <= n * bits_per_key) by nia.
    assert ((bits_per_key + 10) * (1 + n) = bits_per_key + n * bits_per_key + 10 + 10 * n) as -> by ring. lia.
Qed.

Lemma extract_user_keys_length keys us : extract_user_keys keys = Some us -> length us = length keys.
Proof.
  revert us. induction keys as [|key keys IH]; intros us; simpl; [by intros [= <-]|]. destruct (ExtractUserKey key); [|done].
  destruct (extract_user_keys keys) as [l0|]; [|done]. intros [= <-]. simpl. by rewrite (IH l0).
Qed.

#[export] Instance InternalFilterPolicy_bounds p (valid : list byte -> Prop) per_key : (forall k, valid k -> (8 <= length k)%nat) ->
  FilterPolicyBounds p (fun _ => True) per_key -> FilterPolicyBounds (InternalFilterPolicy p) valid per_key.
Proof.
  intros Hv Hp. split.
  - intros k f Hk Hf. simpl. unfold ExtractUserKey. specialize (Hv k Hk). destruct (Nat.leb_spec 8 (length k)); [|lia].
    by apply (filter_total (FilterPolicyBounds := Hp)).
  - intros keys dst f. simpl. destruct (extract_user_keys keys) as [us|] eqn:E; [|done]. rewrite <- (extract_user_keys_length _ _ E).
    apply (filter_size (FilterPolicyBounds := Hp)).
Qed.
