(* ===== verification/TableBuilder.v ===== *)
(** * Building tables: table/table_builder.cc

    The builder writes data blocks as they fill up, then the filter block, the
    metaindex block, the index block and the footer.  [None] is a failed
    assertion, a NULL pointer that is followed, or a read outside a buffer. *)
From S2P Require Import Prelude Varint Coding Comparator DbFormat FilterBlock Status Block Interfaces Crc Format.

Section TableBuilder.
Context (kLittleEndian : bool) {snappy : Snappy} {F : Type} {wf : WritableFile F}.

(** [compressed_output] is empty between calls and is not kept here. The filter block has the policy it was made
    with. *)
Record Rep := TableRep {
  options : Options;
  index_block_options : Options;
  tb_file : F;
  offset : Z;
  tb_status : Status;
  data_block : BlockBuilder;
  index_block : BlockBuilder;
  last_key : list byte;
  num_entries : Z;
  closed : bool;
  tb_filter : option (FilterPolicy * FilterBlockBuilder);
  pending_index_entry : bool;
  pending_handle : BlockHandle;
}.

Definition set_options (o io : Options) (r : Rep) : Rep :=
  TableRep o io (tb_file r) (offset r) (tb_status r) (data_block r) (index_block r) (last_key r) (num_entries r)
    (closed r) (tb_filter r) (pending_index_entry r) (pending_handle r).
Definition set_written (f : F) (off : Z) (s : Status) (r : Rep) : Rep :=
  TableRep (options r) (index_block_options r) f off s (data_block r) (index_block r) (last_key r) (num_entries r)
    (closed r) (tb_filter r) (pending_index_entry r) (pending_handle r).
Definition set_data_block (b : BlockBuilder) (r : Rep) : Rep :=
  TableRep (options r) (index_block_options r) (tb_file r) (offset r) (tb_status r) b (index_block r) (last_key r) (num_entries r)
    (closed r) (tb_filter r) (pending_index_entry r) (pending_handle r).
Definition set_index_block (b : BlockBuilder) (r : Rep) : Rep :=
  TableRep (options r) (index_block_options r) (tb_file r) (offset r) (tb_status r) (data_block r) b (last_key r) (num_entries r)
    (closed r) (tb_filter r) (pending_index_entry r) (pending_handle r).
Definition set_last_key (k : list byte) (n : Z) (r : Rep) : Rep :=
  TableRep (options r) (index_block_options r) (tb_file r) (offset r) (tb_status r) (data_block r) (index_block r) k n
    (closed r) (tb_filter r) (pending_index_entry r) (pending_handle r).
Definition set_closed (r : Rep) : Rep :=
  TableRep (options r) (index_block_options r) (tb_file r) (offset r) (tb_status r) (data_block r) (index_block r) (last_key r) (num_entries r)
    true (tb_filter r) (pending_index_entry r) (pending_handle r).
Definition set_filter (f : option (FilterPolicy * FilterBlockBuilder)) (r : Rep) : Rep :=
  TableRep (options r) (index_block_options r) (tb_file r) (offset r) (tb_status r) (data_block r) (index_block r) (last_key r) (num_entries r)
    (closed r) f (pending_index_entry r) (pending_handle r).
Definition set_pending (p : bool) (h : BlockHandle) (r : Rep) : Rep :=
  TableRep (options r) (index_block_options r) (tb_file r) (offset r) (tb_status r) (data_block r) (index_block r) (last_key r) (num_entries r)
    (closed r) (tb_filter r) p h.

(** [index_block_options.block_restart_interval = 1] *)
Definition index_options (o : Options) : Options :=
  MkOptions (opt_comparator o) (paranoid_checks o) (has_block_cache o) (opt_block_size o) 1 (compression o) (filter_policy o).

Definition new_Rep (opt : Options) (f : F) : option Rep :=
  data ← new_BlockBuilder (opt_block_restart_interval opt);
  index ← new_BlockBuilder (opt_block_restart_interval opt);
  Some (TableRep opt (index_options opt) f 0 OK data index [] 0 false
    (match filter_policy opt with Some (p, _) => Some (p, new_FilterBlockBuilder) | None => None end) false new_BlockHandle).

(** [filter_block->StartBlock(offset)], when there is a filter block. *)
Definition start_filter_block (r : Rep) : option Rep :=
  match tb_filter r with
  | None => Some r
  | Some (p, b) => b ← StartBlock p (offset r) b; Some (set_filter (Some (p, b)) r)
  end.

Definition new_TableBuilder (opt : Options) (f : F) : option Rep :=
  r ← new_Rep opt f; start_filter_block r.

(** [same_comparator]: whether the pointers to the comparators are equal. *)
Definition ChangeOptions (opt : Options) (same_comparator : bool) (r : Rep) : Status * Rep :=
  if negb same_comparator
  then (default OK (new_Status kLittleEndian kInvalidArgument (bytes_of "changing comparator while building table") []), r)
  else (OK, set_options opt (index_options opt) r).

Definition WriteRawBlock (block_contents : list byte) (type : CompressionType) (r : Rep) : option (BlockHandle * Rep) :=
  let handle := Handle (offset r) (Z.of_nat (length block_contents)) in
  let '(s, f) := Append (tb_file r) block_contents in
  if ok s then
    crc ← crc_Value kLittleEndian 0 block_contents;
    let t := byte_of (compression_val type) in
    crc ← Extend kLittleEndian 0 crc [t];
    let '(s, f) := Append f ([t] ++ EncodeFixed32 kLittleEndian (Mask crc)) in
    let off := if ok s then u64 (offset r + Z.of_nat (length block_contents) + Z.of_nat kBlockTrailerSize) else offset r in
    Some (handle, set_written f off s r)
  else Some (handle, set_written f (offset r) s r).

(** What is stored of a finished block. *)
Definition compress_block (type : CompressionType) (raw : list byte) : list byte * CompressionType :=
  match type with
  | kNoCompression => (raw, kNoCompression)
  | kSnappyCompression =>
      match Snappy_Compress raw with
      | Some compressed =>
          if Z.of_nat (length compressed) <? Z.of_nat (length raw) - Z.of_nat (length raw) / 8
          then (compressed, kSnappyCompression) else (raw, kNoCompression)
      | None => (raw, kNoCompression)
      end
  end.

(** The handle, the block after [Reset], and the builder. *)
Definition WriteBlock (block : BlockBuilder) (r : Rep) : option (BlockHandle * BlockBuilder * Rep) :=
  if ok (tb_status r) then
    let '(raw, block) := BlockFinish kLittleEndian block in
    let '(block_contents, type) := compress_block (compression (options r)) raw in
    '(handle, r) ← WriteRawBlock block_contents type r;
    Some (handle, BlockReset block, r)
  else None.

Definition tb_Flush (r : Rep) : option Rep :=
  if closed r then None
  else if negb (ok (tb_status r)) then Some r
  else if block_empty (data_block r) then Some r
  else if pending_index_entry r then None
  else
    '(handle, block, r) ← WriteBlock (data_block r) r;
    let r := set_pending (pending_index_entry r) handle (set_data_block block r) in
    let r :=
      if ok (tb_status r) then
        let '(s, f) := Flush (tb_file r) in
        set_written f (offset r) s (set_pending true (pending_handle r) r)
      else r in
    start_filter_block r.

(** [index_block.Add(last_key, handle)], with the key that [last_key] has become. *)
Definition add_index_entry (key : list byte) (r : Rep) : option Rep :=
  handle_encoding ← HandleEncodeTo (pending_handle r) [];
  b ← BlockAdd (opt_comparator (index_block_options r)) (opt_block_restart_interval (index_block_options r))
        key handle_encoding (index_block r);
  Some (set_pending false (pending_handle r) (set_last_key key (num_entries r) (set_index_block b r))).

Definition tb_Add (key value : list byte) (r : Rep) : option Rep :=
  if closed r then None
  else if negb (ok (tb_status r)) then Some r
  else
    let in_order :=
      if 0 <? num_entries r then
        match @Compare (opt_comparator (options r)) key (last_key r) with Some c => 0 <? c | None => false end
      else true in
    if negb in_order then None
    else
      r ← (if pending_index_entry r then
             if block_empty (data_block r) then
               k ← @FindShortestSeparator (opt_comparator (options r)) (last_key r) key;
               add_index_entry k r
             else None
           else Some r);
      let r := match tb_filter r with Some (p, b) => set_filter (Some (p, FilterAddKey key b)) r | None => r end in
      let r := set_last_key key (num_entries r + 1) r in
      b ← BlockAdd (opt_comparator (options r)) (opt_block_restart_interval (options r)) key value (data_block r);
      let r := set_data_block b r in
      if opt_block_size (options r) <=? CurrentSizeEstimate b then tb_Flush r else Some r.

(** The handle of the filter block, if one has been written. *)
Definition write_filter (r : Rep) : option (BlockHandle * Rep) :=
  match tb_filter r with
  | Some (p, b) =>
      if ok (tb_status r) then
        contents ← FilterFinish kLittleEndian p b;
        WriteRawBlock contents kNoCompression r
      else Some (new_BlockHandle, r)
  | None => Some (new_BlockHandle, r)
  end.

(** The metaindex block, with one entry or none. *)
Definition write_metaindex (filter_block_handle : BlockHandle) (r : Rep) : option (BlockHandle * Rep) :=
  if ok (tb_status r) then
    meta_index_block ← new_BlockBuilder (opt_block_restart_interval (options r));
    meta_index_block ←
      (match tb_filter r with
       | None => Some meta_index_block
       | Some _ =>
           '(_, name) ← filter_policy (options r);
           handle_encoding ← HandleEncodeTo filter_block_handle [];
           BlockAdd (opt_comparator (options r)) (opt_block_restart_interval (options r))
             (bytes_of "filter." ++ name) handle_encoding meta_index_block
       end);
    '(handle, _, r) ← WriteBlock meta_index_block r;
    Some (handle, r)
  else Some (new_BlockHandle, r).

Definition write_index (r : Rep) : option (BlockHandle * Rep) :=
  if ok (tb_status r) then
    r ← (if pending_index_entry r then
           k ← @FindShortSuccessor (opt_comparator (options r)) (last_key r);
           add_index_entry k r
         else Some r);
    '(handle, block, r) ← WriteBlock (index_block r) r;
    Some (handle, set_index_block block r)
  else Some (new_BlockHandle, r).

Definition write_footer (metaindex_block_handle index_block_handle : BlockHandle) (r : Rep) : option Rep :=
  if ok (tb_status r) then
    footer_encoding ← FooterEncodeTo kLittleEndian (MkFooter metaindex_block_handle index_block_handle) [];
    let '(s, f) := Append (tb_file r) footer_encoding in
    Some (set_written f (if ok s then u64 (offset r + Z.of_nat (length footer_encoding)) else offset r) s r)
  else Some r.

Definition tb_Finish (r : Rep) : option (Status * Rep) :=
  r ← tb_Flush r;
  if closed r then None
  else
    let r := set_closed r in
    '(filter_block_handle, r) ← write_filter r;
    '(metaindex_block_handle, r) ← write_metaindex filter_block_handle r;
    '(index_block_handle, r) ← write_index r;
    r ← write_footer metaindex_block_handle index_block_handle r;
    Some (tb_status r, r).

Definition Abandon (r : Rep) : option Rep := if closed r then None else Some (set_closed r).

(** [~TableBuilder]: the assertion that [Finish] or [Abandon] has been called. *)
Definition destroy_ok (r : Rep) : bool := closed r.

Definition NumEntries (r : Rep) : Z := num_entries r.
Definition FileSize (r : Rep) : Z := offset r.
End TableBuilder.
