(* ===== verification/TableFinish.v ===== *)
(** * Finishing a table

    The calls of [Add] and then [Finish] give a table file with all the entries. *)
From S2P Require Import Prelude Varint Coding CodingProps Comparator DbFormat FilterBlock FilterBlockProps Status Iter Block BlockProps Crc CrcProps Interfaces Format FormatProps TableLayout TableBuilder.

(** ** What the table builder writes is a table file *)

Fixpoint weight (es : list entry) : nat :=
  match es with [] => 0 | e :: es' => length e.1 + length e.2 + 64 + weight es' end.

Lemma weight_app a b : weight (a ++ b) = (weight a + weight b)%nat.
Proof. induction a as [|e a IH]; simpl; lia. Qed.

Lemma weight_room es : (entries_room es + 45 * length es = weight es)%nat.
Proof. induction es as [|e es IH]; simpl; [done|]. unfold entry_room. lia. Qed.

Lemma weight_last es e : last es = Some e -> (length e.1 + 64 <= weight es)%nat.
Proof. intros (l & ->)%last_Some. rewrite weight_app. simpl. lia. Qed.

Abbreviation layout_blocks := (list (stored_block * list entry)).

Section Builder.
Context {le : bool} {snappy : Snappy} {Hsnappy : SnappyOk snappy}.
Context {F : Type} {wf : WritableFile F} {contents : F -> list byte} {Hwf : WritableFileOk wf contents}.
Context {o : Options} {valid : list byte -> Prop} {Hc : ComparatorOk (opt_comparator o) valid}.
Context {Hinterval : 1 <= opt_block_restart_interval o}.
Context {limit per_key : Z} {Hlimit : 0 <= limit} {Hper_key : 0 <= per_key}.
Context {Hpolicy : forall p name, filter_policy o = Some (p, name) -> FilterPolicyOk p valid limit /\ FilterPolicyBounds p valid per_key}.

Abbreviation cmp := (opt_comparator o).
Abbreviation rep := (Rep (F := F)).
Abbreviation size_of f := (Z.of_nat (length (contents f))).

(** ** Writing blocks *)

Lemma WriteRawBlock_spec stored type (r : rep) : offset r = size_of (tb_file r) -> size_of (tb_file r) + Z.of_nat (length stored) + 5 < 2 ^ 64 ->
  exists f', WriteRawBlock le stored type r = Some (Handle (offset r) (Z.of_nat (length stored)), set_written f' (size_of f') OK r) /\
    contents f' = contents (tb_file r) ++ raw_block stored type.
Proof using Hwf.
  intros Ho Hl. unfold WriteRawBlock. cbv zeta. destruct (append_ok (tb_file r) stored) as (f1 & -> & E1). change (ok OK) with true. cbv iota.
  unfold crc_Value. rewrite Extend_crc32c by done. cbn [mbind option_bind]. rewrite Extend_crc32c by (try done; by apply crc32c_word). cbn [mbind option_bind].
  destruct (append_ok f1 ([byte_of (compression_val type)] ++ EncodeFixed32 le (Mask (crc32c (crc32c 0 stored) [byte_of (compression_val type)]))))
    as (f2 & -> & E2).
  change (ok OK) with true. cbv iota.
  assert (contents f2 = contents (tb_file r) ++ raw_block stored type) as E.
  { rewrite E2, E1, EncodeFixed32_spec, <- app_assoc. unfold raw_block, block_crc. by rewrite crc32c_app. }
  exists f2. split; [|done]. do 2 f_equal. unfold set_written. f_equal. rewrite E, length_app, length_raw_block. unfold kBlockTrailerSize in *.
  rewrite u64_id; lia.
Qed.

(** A block of these entries has been written behind [bytes]. *)
Definition wrote (bytes bytes' : list byte) (sb : stored_block) (es : list entry) : Prop :=
  sb_pos sb = length bytes /\ bytes' = bytes ++ raw_block (sb_bytes sb) (sb_type sb) /\ placed bytes' sb /\
  holds_entries (sb_data sb) es /\ (length bytes' <= length bytes + entries_room es + 13)%nat.

Lemma compress_block_ok raw stored type : compress_block (compression o) raw = (stored, type) ->
  restores stored type raw /\ (length stored <= length raw)%nat.
Proof using Hsnappy.
  unfold compress_block. destruct (compression o); [intros [= <- <-]; by split|].
  destruct (Snappy_Compress raw) as [c|] eqn:Ec; [|intros [= <- <-]; by split].
  destruct (Z.ltb_spec (Z.of_nat (length c)) (Z.of_nat (length raw) - Z.of_nat (length raw) / 8)) as [Hlt|]; intros [= <- <-]; [|by split].
  destruct (snappy_restores _ _ Ec). split; [by split|]. pose proof (Z.div_pos (Z.of_nat (length raw)) 8). lia.
Qed.

Lemma WriteBlock_spec {valid' : list byte -> Prop} interval b es (r : rep) : options r = o -> tb_status r = OK -> offset r = size_of (tb_file r) ->
  building (valid := valid') (interval := interval) b es ->
  size_of (tb_file r) + Z.of_nat (entries_room es) + 13 < 2 ^ 32 ->
  exists sb b' f', WriteBlock le b r = Some (sb_handle sb, BlockReset b', set_written f' (size_of f') OK r) /\
    wrote (contents (tb_file r)) (contents f') sb es.
Proof using Hwf Hsnappy.
  intros Eo Es Hoff Hb Hl. unfold WriteBlock. rewrite Es. change (ok OK) with true. cbv iota.
  pose proof (building_size (le := le) b es Hb) as Hs. pose proof (building_finish (le := le) b es Hb ltac:(lia)) as Hh.
  destruct (BlockFinish le b) as [raw b'] eqn:Eb. cbn [fst] in Hs, Hh. rewrite Eo.
  destruct (compress_block (compression o) raw) as [stored type] eqn:Ec. destruct (compress_block_ok _ _ _ Ec) as [Hr Hle].
  destruct (WriteRawBlock_spec stored type r Hoff) as (f' & -> & Ef); [lia|]. cbn [mbind option_bind].
  exists (Stored (length (contents (tb_file r))) stored type raw), b', f'. split; [by rewrite Hoff|].
  split; [done|]. split; [done|]. split.
  - split; [done|]. exists (contents (tb_file r)), []. by rewrite app_nil_r.
  - split; [done|]. rewrite Ef, length_app, length_raw_block. unfold kBlockTrailerSize. simpl. lia.
Qed.

(** ** The state of a builder *)

(** The entries of the written blocks and of the current one. *)
Definition all_entries (blocks : layout_blocks) (cur : list entry) : list entry := concat (map snd blocks) ++ cur.

(** The first entry behind block [j]. *)
Definition next_entry (blocks : layout_blocks) (cur : list entry) (j : nat) : option entry :=
  (map snd blocks ++ [cur]) !! S j ≫= head.

(** The keys with the offsets of their blocks, those of the current block at the end of the file. *)
Definition keys_at (blocks : layout_blocks) (off : Z) (cur : list entry) (x : Z * list byte) : Prop :=
  (exists b e, In b blocks /\ In e b.2 /\ x = (Z.of_nat (sb_pos b.1), e.1)) \/ (exists e, In e cur /\ x = (off, e.1)).

Definition filter_state (f : option (FilterPolicy * FilterBlockBuilder)) (off : Z) (n : nat) (at_ : Z * list byte -> Prop) : Prop :=
  match filter_policy o, f with
  | None, None => True
  | Some (p, _), Some (p', b) => p' = p /\ exists ks, filtering (p := p) (valid := valid) (per_key := per_key) b off n ks /\ forall x, at_ x -> In x ks
  | _, _ => False
  end.

Abbreviation fits := (entry_fits (valid := valid)).

Record builder_state (r : rep) (blocks : layout_blocks) (keys : list (list byte)) (cur : list entry) : Prop := {
  bs_closed : closed r = false;
  bs_status : tb_status r = OK;
  bs_options : options r = o /\ index_block_options r = index_options o;
  bs_offset : offset r = size_of (tb_file r);
  bs_blocks : Forall (fun b => placed (contents (tb_file r)) b.1 /\ holds_entries (sb_data b.1) b.2 /\ b.2 <> []) blocks;
  bs_places : NoDup (map (fun b : stored_block * list entry => sb_pos b.1) blocks);
  bs_size : (length (contents (tb_file r)) <= weight (concat (map snd blocks)))%nat;
  bs_data : building (valid := valid) (interval := opt_block_restart_interval o) (data_block r) cur;
  bs_index : building (valid := valid) (interval := 1) (index_block r) (zip_with index_entry keys blocks);
  bs_keys j k b : keys !! j = Some k -> blocks !! j = Some b -> index_key cmp b.2 (next_entry blocks cur j) k;
  bs_keys_valid : Forall valid keys;
  bs_keys_fit j k b : keys !! j = Some k -> blocks !! j = Some b -> (length k + 64 <= weight b.2)%nat;
  bs_above ik e : last keys = Some ik -> last (all_entries blocks cur) = Some e -> key_lt cmp ik e.1;
  bs_pending : if pending_index_entry r
    then cur = [] /\ length blocks = S (length keys) /\ exists b, last blocks = Some b /\ pending_handle r = sb_handle b.1
    else length blocks = length keys /\ (blocks <> [] -> cur <> []);
  bs_last e : last (all_entries blocks cur) = Some e -> last_key r = e.1;
  bs_num : num_entries r = Z.of_nat (length (all_entries blocks cur));
  bs_fits : Forall fits (all_entries blocks cur);
  bs_filter : filter_state (tb_filter r) (offset r) (length (all_entries blocks cur)) (keys_at blocks (offset r) cur);
}.

Abbreviation wsize es := (Z.of_nat (weight es)).

Lemma filter_state_weaken f off n (at1 at2 : Z * list byte -> Prop) : (forall x, at2 x -> at1 x) -> filter_state f off n at1 -> filter_state f off n at2.
Proof.
  intros Hi. unfold filter_state. destruct (filter_policy o) as [[p name]|], f as [[p' b]|]; try done.
  intros (-> & ks & Hf & Hk). split; [done|]. exists ks. split; [done|]. intros x Hx. by apply Hk, Hi.
Qed.

(** Moving on to another offset. *)
Lemma start_filter_block_spec (r : rep) off n at_ : filter_state (tb_filter r) off n at_ -> off <= offset r -> Z.of_nat n <= limit ->
  exists f, start_filter_block r = Some (set_filter f r) /\ filter_state f (offset r) n at_.
Proof using Hpolicy Hlimit Hper_key.
  intros Hf Hoff Hn. unfold start_filter_block, filter_state in *.
  destruct (option_pair_cases (filter_policy o)) as [(p & name & Ep)|Ep]; rewrite Ep in Hf; rewrite Ep; destruct (tb_filter r) as [[p' b]|] eqn:Ef; try done.
  - destruct Hf as (-> & ks & Hf & Hk). destruct (Hpolicy p name Ep) as [Hp Hb].
    destruct (filtering_start (Hp := Hp) (Hb := Hb) (Hlimit := Hlimit) (Hper_key := Hper_key) b off (offset r) n ks Hf Hoff Hn) as (b' & -> & Hf').
    exists (Some (p, b')). split; [done|]. split; [done|]. by exists ks.
  - exists None. split; [|done]. f_equal. destruct r; simpl in *. by subst.
Qed.

Lemma builder_state_new f : contents f = [] ->
  exists r, new_TableBuilder o f = Some r /\ builder_state r [] [] [] /\ tb_file r = f.
Proof using Hinterval Hpolicy Hlimit Hper_key.
  intros Ef. unfold new_TableBuilder, new_Rep.
  destruct (building_new (valid := valid) (interval := opt_block_restart_interval o) (Hinterval := Hinterval)) as (b & E & Hb). rewrite E. cbn [mbind option_bind].
  assert (b = BlockReset b) as Eb by (unfold new_BlockBuilder in E; destruct (1 <=? _); [by injection E as <-|done]).
  set (fl := match filter_policy o with Some (p, _) => Some (p, new_FilterBlockBuilder) | None => None end).
  set (r := TableRep _ _ _ _ _ _ _ _ _ _ _ _ _).
  assert (filter_state (tb_filter r) 0 0 (fun _ => False)) as Hf0.
  { unfold filter_state. simpl. unfold fl. destruct (option_pair_cases (filter_policy o)) as [(p & name & Ep)|Ep]; rewrite Ep; [|done].
    split; [done|]. destruct (filtering_new (p := p) (valid := valid) (per_key := per_key)) as (b0 & E0 & H0). injection E0 as <-.
    by exists []. }
  destruct (start_filter_block_spec r 0 0 _ Hf0) as (f' & -> & Hf'); [done|lia|].
  exists (set_filter f' r). split; [done|]. split; [|done]. split; simpl; try done.
  - by rewrite Ef.
  - constructor.
  - by rewrite Ef.
  - rewrite Eb. exact (building_reset (Hinterval := Z.le_refl 1) b).
  - eapply filter_state_weaken; [|exact Hf']. intros x [(b1 & e & [] & _)|(e & [] & _)].
Qed.

(** ** Flush *)

Lemma all_entries_flush blocks sb cur : all_entries (blocks ++ [(sb, cur)]) [] = all_entries blocks cur.
Proof. unfold all_entries. rewrite map_app, concat_app. simpl. by rewrite !app_nil_r. Qed.

Lemma next_entry_flush blocks sb cur j : (j < length blocks)%nat -> next_entry (blocks ++ [(sb, cur)]) [] j = next_entry blocks cur j.
Proof.
  intros Hj. unfold next_entry. rewrite map_app, <- app_assoc. simpl.
  change (cur :: [[]]) with ([cur] ++ [@nil entry]). rewrite app_assoc, lookup_app_l; [done|]. rewrite length_app, length_map. simpl. lia.
Qed.

Lemma keys_at_flush blocks sb cur off off' x : Z.of_nat (sb_pos sb) = off -> keys_at (blocks ++ [(sb, cur)]) off' [] x -> keys_at blocks off cur x.
Proof.
  intros <- [(b & e & [Hb|[<-|[]]]%in_app_iff & He & ->)|(e & [] & _)].
  - left. by exists b, e.
  - right. by exists e.
Qed.

Lemma zip_with_more {A B D} (f : A -> B -> D) (l : list A) (k k' : list B) : (length l <= length k)%nat -> zip_with f l (k ++ k') = zip_with f l k.
Proof. revert k. induction l as [|x l IH]; intros [|y k] Hl; simpl in *; try done; [lia|]. f_equal. apply IH. lia. Qed.

(** The current block has been written: the state before the filter block is told. *)
Lemma flushed_state (r : rep) blocks keys cur sb blk f' :
  builder_state r blocks keys cur -> cur <> [] -> pending_index_entry r = false ->
  wrote (contents (tb_file r)) (contents f') sb cur ->
  building (valid := valid) (interval := opt_block_restart_interval o) blk [] ->
  forall fl, filter_state fl (size_of f') (length (all_entries blocks cur)) (keys_at blocks (offset r) cur) ->
  builder_state (set_filter fl (set_written f' (size_of f') OK (set_pending true (sb_handle sb) (set_data_block blk r)))) (blocks ++ [(sb, cur)]) keys [].
Proof.
  intros Hr Hcur Hpe (Hpos & Ebytes & Hpl & Hh & Hsize) Hblk fl Hfl. pose proof (bs_pending _ _ _ _ Hr) as Hp. rewrite Hpe in Hp.
  destruct Hp as [Hlen _]. split; simpl; rewrite ?all_entries_flush; try apply Hr.
  - done.
  - done.
  - apply Forall_app. split; [|apply List.Forall_forall; intros b [<-|[]]; by split]. eapply Forall_impl; [apply Hr|]. intros b (Hb & ?). split; [|done].
    rewrite Ebytes. by apply placed_more.
  - rewrite map_app. apply NoDup_app. split_and!; [apply Hr| |by apply NoDup_singleton].
    intros x (b & -> & Hb)%list_elem_of_fmap Eb%list_elem_of_singleton. simpl in Eb.
    pose proof (bs_blocks _ _ _ _ Hr) as Hf. rewrite List.Forall_forall in Hf. destruct (Hf b) as (Hbp & _); [by apply list_elem_of_In|].
    apply placed_size in Hbp. lia.
  - rewrite map_app, concat_app, weight_app. simpl. rewrite app_nil_r. pose proof (bs_size _ _ _ _ Hr). pose proof (weight_room cur).
    destruct cur; [done|]. simpl in *. lia.
  - done.
  - rewrite zip_with_more by lia. apply Hr.
  - intros j k b Ek Eb. pose proof (lookup_lt_Some _ _ _ Ek). rewrite next_entry_flush by lia. apply (bs_keys _ _ _ _ Hr j k b Ek).
    by rewrite lookup_app_l in Eb by lia.
  - intros j k b Ek Eb. pose proof (lookup_lt_Some _ _ _ Ek). apply (bs_keys_fit _ _ _ _ Hr j k b Ek). by rewrite lookup_app_l in Eb by lia.
  - split; [done|]. split; [rewrite length_app; simpl; lia|]. exists (sb, cur). split; [|done]. apply last_snoc.
  - eapply filter_state_weaken; [|exact Hfl]. intros x. apply keys_at_flush. by rewrite Hpos, (bs_offset _ _ _ _ Hr).
Qed.

Lemma tb_Flush_spec (r : rep) blocks keys cur : builder_state r blocks keys cur -> wsize (all_entries blocks cur) + 1024 < 2 ^ 32 ->
  Z.of_nat (length (all_entries blocks cur)) <= limit ->
  exists r' blocks', tb_Flush le r = Some r' /\ builder_state r' blocks' keys [] /\ all_entries blocks' [] = all_entries blocks cur.
Proof using Hwf Hsnappy Hpolicy Hlimit Hper_key Hinterval.
  intros Hr Hroom Hlim. unfold tb_Flush. rewrite (bs_closed _ _ _ _ Hr), (bs_status _ _ _ _ Hr). change (negb (ok OK)) with false. cbv iota.
  rewrite (building_empty _ _ (bs_data _ _ _ _ Hr)). destruct (decide (cur = [])) as [->|Hcur].
  { rewrite bool_decide_true by done. by exists r, blocks. }
  rewrite bool_decide_false by done. destruct (pending_index_entry r) eqn:Hpe.
  { exfalso. pose proof (bs_pending _ _ _ _ Hr) as Hp. rewrite Hpe in Hp. by destruct Hp. }
  unfold all_entries in Hroom. rewrite weight_app in Hroom. pose proof (bs_size _ _ _ _ Hr) as Hs. pose proof (weight_room cur).
  destruct (WriteBlock_spec _ (data_block r) cur r (proj1 (bs_options _ _ _ _ Hr)) (bs_status _ _ _ _ Hr) (bs_offset _ _ _ _ Hr) (bs_data _ _ _ _ Hr))
    as (sb & b' & f1 & -> & Hw); [lia|]. cbn [mbind option_bind]. cbv zeta.
  set (r1 := set_pending _ _ _). assert (tb_status r1 = OK) as -> by done. change (ok OK) with true. cbv iota.
  destruct (flush_ok (tb_file r1)) as (f2 & -> & E2). change (tb_file r1) with f1 in E2. rewrite <- E2 in Hw.
  set (r2 := set_written _ _ _ _). assert (offset r2 = size_of f2) as Eoff by (unfold r2, r1; simpl; by rewrite E2).
  destruct (start_filter_block_spec r2 (offset r) _ _ (bs_filter _ _ _ _ Hr)) as (fl & E3 & Hfl).
  { rewrite Eoff, (bs_offset _ _ _ _ Hr). destruct Hw as (_ & -> & _). rewrite length_app. lia. }
  { done. }
  exists (set_filter fl r2), (blocks ++ [(sb, cur)]). split; [exact E3|]. split; [|apply all_entries_flush]. rewrite Eoff in Hfl.
  pose proof (flushed_state r blocks keys cur sb (BlockReset b') f2 Hr Hcur Hpe Hw (building_reset (Hinterval := Hinterval) b') fl Hfl) as Hst.
  by rewrite E2 in Hst.
Qed.

(** ** Add *)

Lemma next_entry_block blocks cur cur' j : (S j < length blocks)%nat -> next_entry blocks cur j = next_entry blocks cur' j.
Proof. intros Hj. unfold next_entry. by rewrite !lookup_app_l by by rewrite length_map. Qed.

Lemma next_entry_last blocks cur j : S j = length blocks -> next_entry blocks cur j = head cur.
Proof. intros Hj. unfold next_entry. by rewrite list_lookup_middle by by rewrite length_map. Qed.

Lemma last_all_block blocks b : last blocks = Some b -> b.2 <> [] -> exists e, last b.2 = Some e /\ last (all_entries blocks []) = Some e.
Proof.
  intros (l & ->)%last_Some Hne. destruct (last b.2) as [e|] eqn:Ee; [|by apply last_None in Ee]. exists e. split; [done|].
  unfold all_entries. rewrite app_nil_r, map_app, concat_app. simpl. rewrite app_nil_r. by rewrite last_app, Ee.
Qed.

Lemma last_all_cur blocks cur e : last cur = Some e -> last (all_entries blocks cur) = Some e.
Proof. intros E. unfold all_entries. by rewrite last_app, E. Qed.

(** The last entry of the index belongs to the last key. *)
Lemma last_index keys blocks e : (length keys <= length blocks)%nat -> last (zip_with index_entry keys blocks) = Some e -> last keys = Some e.1.
Proof.
  intros Hl E. rewrite last_lookup in E. apply lookup_zip_with_Some in E as (k & b & -> & Ek & Eb). rewrite length_zip_with in Ek.
  rewrite last_lookup. simpl. rewrite Nat.min_l in Ek by done. done.
Qed.

Lemma add_index_entry_spec (r : rep) blocks keys b k :
  builder_state r blocks keys [] -> pending_index_entry r = true -> wsize (all_entries blocks []) + 1024 < 2 ^ 32 ->
  last blocks = Some b -> valid k -> (length k + 64 <= weight b.2)%nat -> (forall ik, last keys = Some ik -> key_lt cmp ik k) ->
  exists ib, (forall r' : rep, pending_handle r' = pending_handle r -> index_block_options r' = index_block_options r -> index_block r' = index_block r ->
      add_index_entry k r' = Some (set_pending false (pending_handle r') (set_last_key k (num_entries r') (set_index_block ib r')))) /\
    building (valid := valid) (interval := 1) ib (zip_with index_entry (keys ++ [k]) blocks).
Proof using Hc.
  intros Hr Hpe Hroom Hb Hk Hfit Hlt. pose proof (bs_pending _ _ _ _ Hr) as Hp. rewrite Hpe in Hp. destruct Hp as (_ & Hlen & b' & Hb' & Eh).
  assert (b' = b) as -> by congruence. apply last_Some in Hb as (pre & ->). rewrite length_app in Hlen. simpl in Hlen.
  assert (zip_with index_entry (keys ++ [k]) (pre ++ [b]) = zip_with index_entry keys (pre ++ [b]) ++ [index_entry k b]) as ->.
  { rewrite (zip_with_more _ keys pre [b]), zip_with_app by lia. done. }
  pose proof (bs_blocks _ _ _ _ Hr) as Hbl. apply Forall_app in Hbl as [_ Hbl]. inversion Hbl as [|? ? (Hpl & _ & _) _]; subst.
  unfold all_entries in Hroom. rewrite app_nil_r in Hroom. pose proof (bs_size _ _ _ _ Hr) as Hsz.
  assert (weight b.2 <= weight (concat (map snd (pre ++ [b]))))%nat as Hwb.
  { rewrite map_app, concat_app, weight_app. simpl. rewrite app_nil_r. lia. }
  assert (handle_ok (sb_handle b.1)) as Hh by (eapply placed_handle; [exact Hpl|lia]).
  destruct (building_add (Hcmp := Hc) (Hinterval := Z.le_refl 1) (index_block r) (zip_with index_entry keys (pre ++ [b])) k (enc_handle (sb_handle b.1)) (bs_index _ _ _ _ Hr))
    as (ib & E & Hib).
  - split; [done|]. cbn [fst snd]. pose proof (length_enc_handle (sb_handle b.1)) as Hl. unfold kMaxEncodedLength in Hl. split; lia.
  - intros e He. apply last_index in He; [|rewrite length_app; lia]. by apply Hlt.
  - exists ib. split; [|done]. intros r' E1 E2 E3. unfold add_index_entry. rewrite E1, Eh, HandleEncodeTo_enc by done. cbn [mbind option_bind].
    rewrite app_nil_l, E2, E3, (proj2 (bs_options _ _ _ _ Hr)). simpl in E |- *. by rewrite E.
Qed.

(** The index has an entry for every block. *)
Record indexed (ib : BlockBuilder) (blocks : layout_blocks) (keys : list (list byte)) (cur : list entry) : Prop := {
  ix_len : length blocks = length keys;
  ix_index : building (valid := valid) (interval := 1) ib (zip_with index_entry keys blocks);
  ix_keys j k b : keys !! j = Some k -> blocks !! j = Some b -> index_key cmp b.2 (next_entry blocks cur j) k;
  ix_valid : Forall valid keys;
  ix_fit j k b : keys !! j = Some k -> blocks !! j = Some b -> (length k + 64 <= weight b.2)%nat;
}.

Lemma indexed_last keys ik : last keys = Some ik -> Forall valid keys -> valid ik.
Proof. intros E Hv. rewrite last_lookup in E. rewrite Forall_lookup in Hv. by eapply Hv. Qed.

Lemma fits_last es e : Forall fits es -> last es = Some e -> fits e.
Proof. intros Hf E. rewrite last_lookup in E. rewrite Forall_lookup in Hf. by eapply Hf. Qed.

(** The key of the last block is settled. *)
Lemma indexed_snoc (r : rep) ib blocks keys b s cur :
  builder_state r blocks keys [] -> length blocks = S (length keys) -> last blocks = Some b ->
  building (valid := valid) (interval := 1) ib (zip_with index_entry (keys ++ [s]) blocks) ->
  index_key cmp b.2 (head cur) s -> valid s -> (length s + 64 <= weight b.2)%nat ->
  indexed ib blocks (keys ++ [s]) cur.
Proof.
  intros Hr Hlen Hb Hib Hk Hs Hfit.
  assert (forall j k b', (keys ++ [s]) !! j = Some k -> blocks !! j = Some b' ->
    keys !! j = Some k /\ (S j < length blocks)%nat \/ k = s /\ b' = b /\ S j = length blocks) as Hcase.
  { intros j k b' Ek Eb. apply lookup_app_Some in Ek as [Ek|[Hj Ek]].
    - left. split; [done|]. apply lookup_lt_Some in Ek. lia.
    - right. apply list_lookup_singleton_Some in Ek as [Ej <-]. rewrite last_lookup in Hb.
      assert (j = Init.Nat.pred (length blocks)) as -> by lia. split; [done|]. split; [congruence|lia]. }
  split; [rewrite length_app; simpl; lia|done| | |].
  - intros j k b' Ek Eb. destruct (Hcase j k b' Ek Eb) as [[Ek' Hj]|(-> & -> & Hj)].
    + rewrite (next_entry_block _ cur []) by done. by apply (bs_keys _ _ _ _ Hr).
    + by rewrite next_entry_last.
  - apply Forall_app. split; [apply Hr|]. by constructor.
  - intros j k b' Ek Eb. destruct (Hcase j k b' Ek Eb) as [[Ek' Hj]|(-> & -> & Hj)]; [by apply (bs_keys_fit _ _ _ _ Hr j)|done].
Qed.

Lemma index_step (r : rep) blocks keys cur k v :
  builder_state r blocks keys cur -> wsize (all_entries blocks cur) + 1024 < 2 ^ 32 -> fits (k, v) ->
  (forall e, last (all_entries blocks cur) = Some e -> key_lt cmp e.1 k) ->
  exists ib lk h keys', (if pending_index_entry r then
             if block_empty (data_block r) then
               k ← @FindShortestSeparator cmp (last_key r) k; add_index_entry k r
             else None
           else Some r) = Some (set_pending false h (set_last_key lk (num_entries r) (set_index_block ib r))) /\
    indexed ib blocks keys' (cur ++ [(k, v)]) /\ forall ik, last keys' = Some ik -> key_lt cmp ik k.
Proof using Hc.
  intros Hr Hroom Hkv Hgt. pose proof (bs_pending _ _ _ _ Hr) as Hp.
  assert (valid k) as Hvk by apply Hkv. destruct (pending_index_entry r) eqn:Hpe.
  - destruct Hp as (-> & Hlen & b & Hb & _). rewrite (building_empty _ _ (bs_data _ _ _ _ Hr)), bool_decide_true by done.
    pose proof (bs_blocks _ _ _ _ Hr) as Hbl. rewrite Forall_lookup in Hbl.
    destruct (Hbl _ b ltac:(by rewrite <- last_lookup)) as (_ & _ & Hne). destruct (last_all_block _ _ Hb Hne) as (e & Ee & Eall).
    rewrite (bs_last _ _ _ _ Hr e Eall). pose proof (fits_last _ e (bs_fits _ _ _ _ Hr) Eall) as [Hve _].
    destruct (Hgt e Eall) as (x & Ex & Hx). destruct (separator_spec (c := cmp) e.1 k x Hve Hvk Ex Hx) as (s & y & z & Es & Hs & Ey & Hy & Ez & Hz & Hls).
    rewrite Es. cbn [mbind option_bind]. pose proof (weight_last _ _ Ee).
    destruct (add_index_entry_spec r blocks keys b s Hr Hpe Hroom Hb Hs) as (ib & Eadd & Hib); [lia| |].
    { intros ik Hik. pose proof (bs_above _ _ _ _ Hr ik e Hik Eall). pose proof (indexed_last _ _ Hik (bs_keys_valid _ _ _ _ Hr)).
      apply (key_lt_le_trans (valid := valid) ik e.1 s); try done. by exists y. }
    rewrite Eadd by done. eexists ib, s, _, _. split; [done|]. split.
    + apply (indexed_snoc r ib blocks keys b s); try done; [|lia]. by exists e.
    + intros ik. rewrite last_snoc. intros [= <-]. by exists z.
  - destruct Hp as [Hlen Hcur]. exists (index_block r), (last_key r), (pending_handle r), keys. split; [f_equal; destruct r; simpl in *; by subst|].
    split; [split; [done|apply Hr| |apply Hr|apply Hr]|].
    + intros j ik b Ek Eb. pose proof (bs_keys _ _ _ _ Hr j ik b Ek Eb) as Hk. pose proof (lookup_lt_Some _ _ _ Eb) as Hj.
      destruct (decide (S j = length blocks)) as [E|]; [|by rewrite (next_entry_block _ _ cur) by lia].
      rewrite next_entry_last in Hk |- * by done. destruct cur; [|done]. destruct Hcur; [by destruct blocks|done].
    + intros ik Hik.
      assert (blocks <> []) as Hne by (intros ->; by destruct keys).
      destruct (last cur) as [l|] eqn:El; [|apply last_None in El; by destruct (Hcur Hne)].
      apply last_all_cur with (blocks := blocks) in El. pose proof (bs_above _ _ _ _ Hr ik l Hik El). pose proof (indexed_last _ _ Hik (bs_keys_valid _ _ _ _ Hr)).
      pose proof (fits_last _ l (bs_fits _ _ _ _ Hr) El) as [Hvl _]. apply (key_lt_trans (valid := valid) ik l.1 k); try done. by apply Hgt.
Qed.

(** The state with an entry more in the current block. *)
Lemma added_state (r : rep) blocks keys cur k v ib h keys' fl blk :
  builder_state r blocks keys cur -> fits (k, v) -> indexed ib blocks keys' (cur ++ [(k, v)]) ->
  (forall ik, last keys' = Some ik -> key_lt cmp ik k) ->
  building (valid := valid) (interval := opt_block_restart_interval o) blk (cur ++ [(k, v)]) ->
  filter_state fl (offset r) (length (all_entries blocks (cur ++ [(k, v)]))) (keys_at blocks (offset r) (cur ++ [(k, v)])) ->
  builder_state (set_data_block blk (set_last_key k (num_entries r + 1) (set_filter fl (set_pending false h (set_index_block ib r)))))
    blocks keys' (cur ++ [(k, v)]).
Proof.
  intros Hr Hkv Hix Hab Hblk Hfl.
  assert (all_entries blocks (cur ++ [(k, v)]) = all_entries blocks cur ++ [(k, v)]) as Eall by (unfold all_entries; by rewrite app_assoc).
  split; simpl; rewrite ?Eall, ?last_snoc in *; try done; try apply Hr; try apply Hix.
  - intros ik e Hik [= <-]. by apply Hab.
  - split; [apply Hix|]. by destruct cur.
  - by intros e [= <-].
  - rewrite (bs_num _ _ _ _ Hr), length_app. simpl. lia.
  - apply Forall_app. split; [apply Hr|]. by constructor.
Qed.

Lemma add_filter_key (r : rep) blocks keys cur k v fo : builder_state r blocks keys cur -> valid k ->
  tb_filter r = fo ->
  exists fl, (match fo with Some (p, b) => Some (p, FilterAddKey k b) | None => None end) = fl /\
    filter_state fl (offset r) (length (all_entries blocks (cur ++ [(k, v)]))) (keys_at blocks (offset r) (cur ++ [(k, v)])).
Proof.
  intros Hr Hk <-. eexists. split; [done|]. pose proof (bs_filter _ _ _ _ Hr) as Hf. unfold filter_state in *.
  destruct (filter_policy o) as [[p name]|], (tb_filter r) as [[p' b]|]; try done. destruct Hf as (-> & ks & Hf & Hks). split; [done|].
  exists ((offset r, k) :: ks). split.
  - replace (length (all_entries blocks (cur ++ [(k, v)]))) with (S (length (all_entries blocks cur))).
    + apply filtering_key; [done|rewrite (bs_offset _ _ _ _ Hr); lia|done].
    + unfold all_entries. rewrite app_assoc, (length_app _ [_]). simpl. lia.
  - intros x [Hx|(e & [He|[<-|[]]]%in_app_iff & ->)].
    + right. apply Hks. by left.
    + right. apply Hks. right. by exists e.
    + by left.
Qed.

Lemma tb_Add_spec (r : rep) blocks keys cur k v :
  builder_state r blocks keys cur -> fits (k, v) -> (forall e, last (all_entries blocks cur) = Some e -> key_lt cmp e.1 k) ->
  wsize (all_entries blocks cur ++ [(k, v)]) + 1024 < 2 ^ 32 -> Z.of_nat (length (all_entries blocks cur ++ [(k, v)])) <= limit ->
  exists r' blocks' keys' cur', tb_Add le k v r = Some r' /\ builder_state r' blocks' keys' cur' /\
    all_entries blocks' cur' = all_entries blocks cur ++ [(k, v)].
Proof using All.
  intros Hr Hkv Hgt Hroom Hlim. assert (valid k) as Hvk by apply Hkv.
  assert (all_entries blocks (cur ++ [(k, v)]) = all_entries blocks cur ++ [(k, v)]) as Eall by (unfold all_entries; by rewrite app_assoc).
  unfold tb_Add. rewrite (bs_closed _ _ _ _ Hr), (bs_status _ _ _ _ Hr). change (negb (ok OK)) with false. cbv iota zeta.
  rewrite (proj1 (bs_options _ _ _ _ Hr)).
  assert ((if 0 <? num_entries r then match @Compare cmp k (last_key r) with Some c => 0 <? c | None => false end else true) = true) as ->.
  { rewrite (bs_num _ _ _ _ Hr). destruct (last (all_entries blocks cur)) as [e|] eqn:El.
    - destruct (Z.ltb_spec 0 (Z.of_nat (length (all_entries blocks cur)))); [|done]. rewrite (bs_last _ _ _ _ Hr e El).
      destruct (Hgt e eq_refl) as (x & Ex & Hx). pose proof (fits_last _ e (bs_fits _ _ _ _ Hr) El) as [Hve _].
      destruct (compare_defined (c := cmp) k e.1 Hvk Hve) as [y Ey]. rewrite Ey. pose proof (compare_antisym (c := cmp) _ _ _ _ Ex Ey). destruct (Z.ltb_spec 0 y); lia.
    - apply last_None in El. by rewrite El. }
  cbn [negb]. cbv iota. pose proof Hroom as Hroom'. rewrite weight_app in Hroom'.
  destruct (index_step r blocks keys cur k v Hr ltac:(lia) Hkv Hgt) as (ib & lk & h & keys' & -> & Hix & Hab). cbn [mbind option_bind].
  set (r1 := set_pending _ _ _). destruct (add_filter_key r blocks keys cur k v (tb_filter r) Hr Hvk eq_refl) as (fl & Efl & Hfl).
  assert ((match tb_filter r1 with Some (p, b) => set_filter (Some (p, FilterAddKey k b)) r1 | None => r1 end) = set_filter fl r1) as ->.
  { change (tb_filter r1) with (tb_filter r). unfold r1. destruct (tb_filter r) as [[p b]|] eqn:Ef; rewrite <- Efl; [done|]. destruct r; simpl in *. by subst. }
  set (r2 := set_last_key _ _ _). assert (options r2 = o) as -> by apply (bs_options _ _ _ _ Hr).
  destruct (building_add (Hcmp := Hc) (Hinterval := Hinterval) (data_block r) cur k v (bs_data _ _ _ _ Hr) Hkv) as (blk & E & Hblk).
  { intros e He. apply Hgt. by apply last_all_cur. }
  assert (data_block r2 = data_block r) as -> by done. rewrite E. cbn [mbind option_bind].
  pose proof (added_state r blocks keys cur k v ib h keys' fl blk Hr Hkv Hix Hab Hblk Hfl) as Hst.
  match goal with |- context [set_data_block blk r2] => set (r3 := set_data_block blk r2) end.
  assert (options r3 = o) as -> by apply (bs_options _ _ _ _ Hr).
  destruct (opt_block_size o <=? CurrentSizeEstimate blk).
  - rewrite <- Eall in Hroom, Hlim. destruct (tb_Flush_spec r3 blocks keys' (cur ++ [(k, v)]) Hst Hroom Hlim) as (r' & blocks' & E' & H' & Ea).
    exists r', blocks', keys', []. split; [exact E'|]. split; [done|]. by rewrite Ea.
  - exists r3, blocks, keys', (cur ++ [(k, v)]). by split_and!.
Qed.
End Builder.

(** The first entry of a block is not compared with anything. *)
Lemma BlockAdd_first c c' interval k v b : block_empty b = true -> BlockAdd c interval k v b = BlockAdd c' interval k v b.
Proof. intros E. unfold BlockAdd, key_in_order. by rewrite E. Qed.

Section Finish.
Context {le : bool} {snappy : Snappy} {Hsnappy : SnappyOk snappy}.
Context {F : Type} {wf : WritableFile F} {contents : F -> list byte} {Hwf : WritableFileOk wf contents}.
Context {o : Options} {valid : list byte -> Prop} {Hc : ComparatorOk (opt_comparator o) valid}.
Context {Hinterval : 1 <= opt_block_restart_interval o}.
Context {limit per_key : Z} {Hlimit : 0 <= limit} {Hper_key : 0 <= per_key}.
Context {Hpolicy : forall p name, filter_policy o = Some (p, name) -> FilterPolicyOk p valid limit /\ FilterPolicyBounds p valid per_key}.

Abbreviation cmp := (opt_comparator o).
Abbreviation rep := (Rep (F := F)).
Abbreviation size_of f := (Z.of_nat (length (contents f))).
Abbreviation state := (builder_state (contents := contents) (o := o) (valid := valid) (per_key := per_key)).
Abbreviation fits := (entry_fits (valid := valid)).

(** ** The filter block *)

Definition filter_bytes (n : nat) : Z := match filter_policy o with Some _ => 2 * per_key * Z.of_nat n | None => 0 end.

(** The filter block, if there is one, with its handle. *)
Definition filter_written (bytes : list byte) (blocks : layout_blocks) (h : BlockHandle) (fb : option stored_block) : Prop :=
  match filter_policy o, fb with
  | Some (p, _), Some b => h = sb_handle b /\ placed bytes b /\ filter_answers le p (sb_data b) blocks
  | None, None => True
  | _, _ => False
  end.

Definition extends (bytes bytes' : list byte) : Prop := exists more, bytes' = bytes ++ more.

Lemma write_filter_spec (r : rep) n blocks : tb_status r = OK -> offset r = size_of (tb_file r) ->
  filter_state (o := o) (valid := valid) (per_key := per_key) (tb_filter r) (offset r) n (keys_at blocks (offset r) []) ->
  Z.of_nat n <= limit -> 2 * size_of (tb_file r) + filter_bytes n + 20 < 2 ^ 32 ->
  exists h f' fb, write_filter le r = Some (h, set_written f' (size_of f') OK r) /\ extends (contents (tb_file r)) (contents f') /\
    size_of f' <= 2 * size_of (tb_file r) + filter_bytes n + 20 /\ filter_written (contents f') blocks h fb.
Proof using Hwf Hpolicy Hlimit Hper_key.
  intros Es Eo Hf Hn Hsize. unfold write_filter, filter_state, filter_bytes, filter_written in *.
  destruct (option_pair_cases (filter_policy o)) as [(p & name & Ep)|Ep]; rewrite Ep in Hf, Hsize |- *; destruct (tb_filter r) as [[p' b]|] eqn:Ef; try done.
  - destruct Hf as (-> & ks & Hf & Hks). destruct (Hpolicy p name Ep) as [Hp Hb]. rewrite Es. change (ok OK) with true. cbv iota.
    assert (offset r / kFilterBase <= offset r / 8) as Hdiv.
    { change kFilterBase with (8 * 256). rewrite <- Z.div_div by lia. apply Z.div_le_upper_bound; [done|]. pose proof (Z.div_pos (offset r) 8). lia. }
    pose proof (Z.mul_div_le (offset r) 8 ltac:(lia)). pose proof (Z.div_pos (offset r) kFilterBase ltac:(lia) ltac:(done)).
    destruct (filtering_finish (le := le) (Hp := Hp) (Hb := Hb) (Hlimit := Hlimit) (Hper_key := Hper_key) b (offset r) n ks Hf Hn)
      as (cs & rd & -> & Erd & Hlg & Hlen & Hans); [lia|]. cbn [mbind option_bind].
    destruct (WriteRawBlock_spec (le := le) (Hwf := Hwf) cs kNoCompression r Eo) as (f' & -> & Ec); [lia|].
    exists (Handle (offset r) (Z.of_nat (length cs))), f', (Some (Stored (length (contents (tb_file r))) cs kNoCompression cs)).
    split; [done|]. split; [by eexists|]. split; [rewrite Ec, length_app, length_raw_block; unfold kBlockTrailerSize; lia|].
    split; [unfold sb_handle; simpl; by rewrite Eo|]. split.
    + split; [done|]. exists (contents (tb_file r)), []. by rewrite app_nil_r.
    + exists rd. simpl. split_and!; [done|done|lia|]. intros blk e Hblk He. apply Hans, Hks. left. by exists blk, e.
  - exists new_BlockHandle, (tb_file r), None. split; [do 2 f_equal; destruct r; simpl in *; by subst|]. split; [exists []; by rewrite app_nil_r|].
    split; [lia|done].
Qed.

(** ** The metaindex block *)

Definition meta_entries (h : BlockHandle) : list entry :=
  match filter_policy o with Some (_, name) => [(filter_key name, enc_handle h)] | None => [] end.

Definition name_bytes : Z := match filter_policy o with Some (_, name) => Z.of_nat (length name) | None => 0 end.

Lemma meta_room h : Z.of_nat (entries_room (meta_entries h)) <= name_bytes + 46.
Proof.
  unfold meta_entries, name_bytes. destruct (filter_policy o) as [[p name]|]; [|done]. cbn [entries_room]. unfold entry_room, filter_key. cbn [fst snd].
  pose proof (length_enc_handle h) as Hl. unfold kMaxEncodedLength in Hl. rewrite length_app. change (length (bytes_of "filter.")) with 7%nat. lia.
Qed.

Lemma write_metaindex_spec (r : rep) blocks h fb bytes : options r = o -> tb_status r = OK -> offset r = size_of (tb_file r) ->
  (exists off n at_, filter_state (o := o) (valid := valid) (per_key := per_key) (tb_filter r) off n at_) -> filter_written bytes blocks h fb ->
  Z.of_nat (length bytes) < 2 ^ 32 ->
  size_of (tb_file r) + name_bytes + 64 < 2 ^ 32 ->
  exists sb f', write_metaindex le h r = Some (sb_handle sb, set_written f' (size_of f') OK r) /\
    wrote (contents (tb_file r)) (contents f') sb (meta_entries h).
Proof using Hwf Hsnappy Hinterval Hpolicy.
  intros Eopt Es Eo (off & n & at_ & Hf) Hw Hbytes Hsize. unfold write_metaindex. rewrite Es. change (ok OK) with true. cbv iota.
  pose proof (meta_room h) as Hroom. rewrite Eopt.
  destruct (building_new (valid := fun _ => True) (interval := opt_block_restart_interval o) (Hinterval := Hinterval)) as (b & -> & Hb). cbn [mbind option_bind].
  assert (exists b', match tb_filter r with
       | None => Some b
       | Some _ =>
           '(_, name) ← filter_policy o;
           handle_encoding ← HandleEncodeTo h [];
           BlockAdd cmp (opt_block_restart_interval o) (bytes_of "filter." ++ name) handle_encoding b
       end = Some b' /\ building (valid := fun _ => True) (interval := opt_block_restart_interval o) b' (meta_entries h)) as (b' & -> & Hb').
  { unfold filter_state, filter_written, meta_entries, name_bytes in *. destruct (filter_policy o) as [[p name]|], (tb_filter r) as [[p' fbb]|]; try done; [|by exists b].
    destruct fb as [fb|]; [|done]. destruct Hw as (-> & Hpl & _). cbn [mbind option_bind].
    rewrite HandleEncodeTo_enc by (by eapply placed_handle). cbn [mbind option_bind]. rewrite app_nil_l.
    destruct (building_add (Hcmp := BytewiseComparator_ok) (Hinterval := Hinterval) b [] (filter_key name) (enc_handle (sb_handle fb)) Hb) as (b' & E & Hb').
    - split; [done|]. cbn [fst snd]. pose proof (length_enc_handle (sb_handle fb)) as Hl. unfold kMaxEncodedLength in Hl. unfold filter_key. rewrite length_app.
      change (length (bytes_of "filter.")) with 7%nat. lia.
    - done.
    - exists b'. split; [|done]. rewrite <- E. apply BlockAdd_first. by rewrite (building_empty _ _ Hb). }
  cbn [mbind option_bind].
  destruct (WriteBlock_spec (le := le) (Hwf := Hwf) (Hsnappy := Hsnappy) _ b' (meta_entries h) r Eopt Es Eo Hb') as (sb & b2 & f' & -> & Hwr); [lia|].
  by exists sb, f'.
Qed.

(** ** The index block *)

Lemma index_room keys blocks : (forall j k b, keys !! j = Some k -> blocks !! j = Some b -> (length k + 64 <= weight b.2)%nat) ->
  (entries_room (zip_with index_entry keys blocks) <= weight (concat (map snd blocks)))%nat.
Proof.
  revert keys. induction blocks as [|b blocks IH]; intros [|k keys] Hk; simpl; try lia.
  specialize (IH keys (fun j k' b' => Hk (S j) k' b')). pose proof (Hk 0%nat k b eq_refl eq_refl). rewrite weight_app.
  unfold entry_room. simpl. pose proof (length_enc_handle (sb_handle b.1)) as Hl. unfold kMaxEncodedLength in Hl. lia.
Qed.

(** The index gets its last key, whatever has been written since the last data block. *)
Lemma write_index_spec (r : rep) blocks keys f :
  state r blocks keys [] -> Z.of_nat (weight (all_entries blocks [])) + 1024 < 2 ^ 32 ->
  size_of f + Z.of_nat (weight (concat (map snd blocks))) + 13 < 2 ^ 32 ->
  exists sb keys' r', write_index le (set_written f (size_of f) OK (set_closed r)) = Some (sb_handle sb, r') /\
    wrote (contents f) (contents (tb_file r')) sb (zip_with index_entry keys' blocks) /\ length blocks = length keys' /\
    (forall j k b, keys' !! j = Some k -> blocks !! j = Some b -> index_key cmp b.2 (next_entry blocks [] j) k) /\
    closed r' = true /\ tb_status r' = OK /\ offset r' = size_of (tb_file r') /\ size_of (tb_file r') <= size_of f + Z.of_nat (weight (concat (map snd blocks))) + 13.
Proof using Hwf Hsnappy Hc.
  intros Hr Hroom Hsize. set (r2 := set_written _ _ _ _).
  assert (exists ib keys' p lk, (if pending_index_entry r2 then
           k ← @FindShortSuccessor (opt_comparator (options r2)) (last_key r2); add_index_entry k r2
         else Some r2) = Some (set_pending p (pending_handle r2) (set_last_key lk (num_entries r2) (set_index_block ib r2))) /\
    indexed (o := o) (valid := valid) ib blocks keys' []) as (ib & keys' & p & lk & E & Hix).
  { change (pending_index_entry r2) with (pending_index_entry r). change (last_key r2) with (last_key r).
    assert (options r2 = o) as -> by apply (bs_options _ _ _ _ Hr). pose proof (bs_pending _ _ _ _ Hr) as Hp.
    destruct (pending_index_entry r) eqn:Hpe.
    - destruct Hp as (_ & Hlen & b & Hb & _). pose proof (bs_blocks _ _ _ _ Hr) as Hbl. rewrite Forall_lookup in Hbl.
      destruct (Hbl _ b ltac:(by rewrite <- last_lookup)) as (_ & _ & Hne). destruct (last_all_block _ _ Hb Hne) as (e & Ee & Eall).
      rewrite (bs_last _ _ _ _ Hr e Eall). pose proof (fits_last _ e (bs_fits _ _ _ _ Hr) Eall) as [Hve _].
      destruct (successor_spec (c := cmp) e.1 Hve) as (s & y & Es & Hs & Ey & Hy & Hls). rewrite Es. cbn [mbind option_bind].
      pose proof (weight_last _ _ Ee).
      destruct (add_index_entry_spec (Hc := Hc) r blocks keys b s Hr Hpe Hroom Hb Hs) as (ib & Eadd & Hib); [lia| |].
      { intros ik Hik. pose proof (bs_above _ _ _ _ Hr ik e Hik Eall). pose proof (indexed_last _ _ Hik (bs_keys_valid _ _ _ _ Hr)).
        apply (key_lt_le_trans (valid := valid) ik e.1 s); try done. by exists y. }
      rewrite Eadd by done. exists ib, (keys ++ [s]), false, s. split; [done|].
      apply (indexed_snoc (per_key := per_key) r ib blocks keys b s [] Hr Hlen Hb Hib); [|done|lia]. by exists e.
    - destruct Hp as [Hlen _]. exists (index_block r), keys, (pending_index_entry r), (last_key r). split; [by destruct r|].
      split; [done|apply Hr|apply Hr|apply Hr|apply Hr]. }
  unfold write_index. change (tb_status r2) with OK. change (ok OK) with true. cbv iota. rewrite E. cbn [mbind option_bind].
  set (r3 := set_pending _ _ _). pose proof (index_room keys' blocks (ix_fit _ _ _ _ Hix)) as Hir.
  destruct (WriteBlock_spec (le := le) (Hwf := Hwf) (Hsnappy := Hsnappy) _ ib _ r3 (proj1 (bs_options _ _ _ _ Hr)) eq_refl eq_refl (ix_index _ _ _ _ Hix))
    as (sb & b2 & f' & E2 & Hwr).
  { change (tb_file r3) with f. lia. }
  change (index_block r3) with ib. rewrite E2. cbn [mbind option_bind]. exists sb, keys', (set_index_block (BlockReset b2) (set_written f' (size_of f') OK r3)).
  split; [done|]. split; [exact Hwr|]. split; [apply Hix|]. split; [apply (ix_keys _ _ _ _ Hix)|]. split; [done|]. split; [done|]. split; [done|].
  destruct Hwr as (_ & _ & _ & _ & Hl). change (tb_file r3) with f in Hl. simpl. lia.
Qed.

(** ** The whole table *)

Fixpoint tb_AddAll (es : list entry) (r : rep) : option rep :=
  match es with
  | [] => Some r
  | e :: es' => r ← tb_Add le e.1 e.2 r; tb_AddAll es' r
  end.

Lemma tb_AddAll_spec es (r : rep) blocks keys cur : state r blocks keys cur -> Forall fits es ->
  keys_sorted cmp (all_entries blocks cur ++ es) -> Z.of_nat (weight (all_entries blocks cur ++ es)) + 1024 < 2 ^ 32 ->
  Z.of_nat (length (all_entries blocks cur ++ es)) <= limit ->
  exists r' blocks' keys' cur', tb_AddAll es r = Some r' /\ state r' blocks' keys' cur' /\ all_entries blocks' cur' = all_entries blocks cur ++ es.
Proof using All.
  revert r blocks keys cur. induction es as [|[k v] es IH]; intros r blocks keys cur Hr Hf Hs Hroom Hlim.
  { exists r, blocks, keys, cur. by rewrite app_nil_r. }
  inversion Hf as [|? ? Hkv Hf']; subst. replace (all_entries blocks cur ++ (k, v) :: es) with ((all_entries blocks cur ++ [(k, v)]) ++ es) in * by by rewrite <- app_assoc.
  destruct (tb_Add_spec (le := le) (Hwf := Hwf) (Hsnappy := Hsnappy) (Hc := Hc) (Hinterval := Hinterval) (Hlimit := Hlimit) (Hper_key := Hper_key)
    (Hpolicy := Hpolicy) r blocks keys cur k v Hr Hkv) as (r1 & blocks1 & keys1 & cur1 & E1 & H1 & Ea).
  - intros e He. rewrite last_lookup in He. pose proof (lookup_lt_Some _ _ _ He).
    eapply (Hs _ (length (all_entries blocks cur)) e (k, v)); [|do 2 apply lookup_app_l_Some; exact He|apply lookup_app_l_Some; by apply list_lookup_middle]. lia.
  - rewrite weight_app in Hroom. lia.
  - rewrite length_app in Hlim. lia.
  - rewrite <- Ea in Hs, Hroom, Hlim. destruct (IH r1 blocks1 keys1 cur1 H1 Hf' Hs Hroom Hlim) as (r' & blocks' & keys' & cur' & E' & H' & Ea').
    exists r', blocks', keys', cur'. simpl. rewrite E1. cbn [mbind option_bind]. split; [done|]. split; [done|]. by rewrite Ea', Ea.
Qed.

(** The bound on the input. *)
Definition table_fits (es : list entry) : Prop :=
  3 * Z.of_nat (weight es) + filter_bytes (length es) + name_bytes + 1024 < 2 ^ 32 /\ Z.of_nat (length es) <= limit.

Lemma filter_bytes_nonneg n : 0 <= filter_bytes n.
Proof using Hper_key. unfold filter_bytes. destruct (option_pair_cases (filter_policy o)) as [(? & ? & ->)| ->]; nia. Qed.

Lemma name_bytes_nonneg : 0 <= name_bytes.
Proof. unfold name_bytes. destruct (option_pair_cases (filter_policy o)) as [(? & ? & ->)| ->]; lia. Qed.

Lemma extends_wrote bytes bytes' sb es : wrote bytes bytes' sb es -> extends bytes bytes'.
Proof. intros (_ & -> & _). by eexists. Qed.

Lemma extends_trans a b d : extends a b -> extends b d -> extends a d.
Proof. intros [m ->] [m' ->]. exists (m ++ m'). by rewrite app_assoc. Qed.

Lemma placed_extends bytes bytes' b : extends bytes bytes' -> placed bytes b -> placed bytes' b.
Proof. intros [m ->]. apply placed_more. Qed.

Lemma next_entry_blocks blocks j : next_entry blocks [] j = blocks !! S j ≫= fun b => head b.2.
Proof.
  unfold next_entry. destruct (decide (S j < length blocks)%nat) as [Hj|Hj].
  - rewrite lookup_app_l by by rewrite length_map. change (map snd blocks) with (snd <$> blocks). rewrite list_lookup_fmap.
    by destruct (blocks !! S j).
  - rewrite (lookup_ge_None_2 blocks) by lia. simpl. destruct (decide (S j = length blocks)) as [->|].
    + by rewrite list_lookup_middle by by rewrite length_map.
    + by rewrite lookup_ge_None_2 by (rewrite length_app, length_map; simpl; lia).
Qed.

Lemma write_footer_spec (r : rep) m i : tb_status r = OK -> handle_ok m -> handle_ok i ->
  exists f', write_footer le m i r = Some (set_written f' (u64 (offset r + Z.of_nat kEncodedLength)) OK r) /\
    contents f' = contents (tb_file r) ++ enc_footer (MkFooter m i).
Proof using Hwf.
  intros Es Hm Hi. unfold write_footer. rewrite Es. change (ok OK) with true. cbv iota. rewrite FooterEncodeTo_enc by done. cbn [mbind option_bind].
  destruct (append_ok (tb_file r) (enc_footer (MkFooter m i))) as (f' & -> & E). exists f'. by rewrite length_enc_footer.
Qed.

(** The blocks behind the data blocks, in the order in which they are written. *)
Lemma finished_layout blocks keys es (f f1 f2 f3 f4 : F) h fb meta index :
  Forall (fun b => placed (contents f) b.1 /\ holds_entries (sb_data b.1) b.2 /\ b.2 <> []) blocks ->
  NoDup (map (fun b : stored_block * list entry => sb_pos b.1) blocks) -> es = concat (map snd blocks) ->
  extends (contents f) (contents f1) -> filter_written (contents f1) blocks h fb ->
  wrote (contents f1) (contents f2) meta (meta_entries h) ->
  wrote (contents f2) (contents f3) index (zip_with index_entry keys blocks) -> length blocks = length keys ->
  (forall j k b, keys !! j = Some k -> blocks !! j = Some b -> index_key cmp b.2 (next_entry blocks [] j) k) ->
  contents f4 = contents f3 ++ enc_footer (MkFooter (sb_handle meta) (sb_handle index)) -> size_of f4 < 2 ^ 32 ->
  table_file le cmp (filter_policy o) (contents f4) es (TableLayout blocks keys index meta fb).
Proof.
  intros Hb Hnd Hes H01 Hfb H12 H23 Hlen Hkeys E4 Hsize.
  assert (extends (contents f3) (contents f4)) as H34 by (rewrite E4; by eexists).
  pose proof (extends_trans _ _ _ (extends_wrote _ _ _ _ H23) H34) as H24. pose proof (extends_trans _ _ _ (extends_wrote _ _ _ _ H12) H24) as H14.
  pose proof (extends_trans _ _ _ H01 H14) as H04. destruct H12 as (_ & _ & Hm & Hme & _). destruct H23 as (_ & _ & Hi & Hie & _).
  split; simpl.
  - done.
  - eapply Forall_impl; [exact Hb|]. intros b (Hpl & ?). split; [|done]. exact (placed_extends _ _ _ H04 Hpl).
  - done.
  - done.
  - split; [exact (placed_extends _ _ _ H34 Hi)|done].
  - intros j k b Ek Eb. rewrite <- next_entry_blocks. by apply Hkeys.
  - split; [exact (placed_extends _ _ _ H24 Hm)|]. unfold filter_written, meta_entries in *.
    destruct (option_pair_cases (filter_policy o)) as [(p & name & Ep)|Ep]; rewrite Ep in Hfb, Hme |- *; destruct fb as [fb|]; try done. destruct Hfb as (-> & Hpl & Hans).
    split; [done|]. split; [exact (placed_extends _ _ _ H14 Hpl)|done].
  - rewrite E4. by eexists.
  - done.
Qed.

Lemma tb_Finish_spec (r : rep) blocks keys cur es : state r blocks keys cur -> all_entries blocks cur = es -> table_fits es ->
  exists r' ly, tb_Finish le r = Some (OK, r') /\ table_file le cmp (filter_policy o) (contents (tb_file r')) es ly /\
    closed r' = true /\ FileSize r' = size_of (tb_file r').
Proof using All.
  intros Hr Ees [Hroom Hlim]. pose proof (filter_bytes_nonneg (length es)) as Hfb0. pose proof name_bytes_nonneg as Hnb0. unfold tb_Finish.
  destruct (tb_Flush_spec (le := le) (Hwf := Hwf) (Hsnappy := Hsnappy) (Hinterval := Hinterval) (Hlimit := Hlimit) (Hper_key := Hper_key)
    (Hpolicy := Hpolicy) r blocks keys cur Hr) as (r0 & bl & -> & Hst & Ea); [rewrite Ees; lia|by rewrite Ees|]. cbn [mbind option_bind].
  rewrite (bs_closed _ _ _ _ Hst). cbv zeta. rewrite Ees in Ea. pose proof (bs_size _ _ _ _ Hst) as Hsz.
  assert (concat (map snd bl) = es) as Ec by (rewrite <- Ea; unfold all_entries; by rewrite app_nil_r). rewrite Ec in Hsz.
  assert (tb_status (set_closed r0) = OK) as Es by apply (bs_status _ _ _ _ Hst).
  assert (offset (set_closed r0) = size_of (tb_file (set_closed r0))) as Eo by apply (bs_offset _ _ _ _ Hst).
  pose proof (bs_filter _ _ _ _ Hst) as Hf. rewrite Ea in Hf.
  destruct (write_filter_spec (set_closed r0) (length es) bl Es Eo Hf Hlim) as (h & f1 & fb & -> & H01 & Hs1 & Hfb); [simpl; lia|].
  cbn [mbind option_bind]. simpl in H01, Hs1.
  set (r1 := set_written f1 (size_of f1) OK (set_closed r0)).
  destruct (write_metaindex_spec r1 bl h fb (contents f1) (proj1 (bs_options _ _ _ _ Hst)) eq_refl eq_refl) as (meta & f2 & -> & H12).
  { by eexists _, _, _. }
  { done. }
  { lia. }
  { change (tb_file r1) with f1. lia. }
  cbn [mbind option_bind]. pose proof (meta_room h) as Hmr. assert (size_of f2 <= size_of f1 + name_bytes + 59) as Hs2.
  { destruct H12 as (_ & _ & _ & _ & Hl). change (tb_file r1) with f1 in Hl. lia. }
  destruct (write_index_spec r0 bl keys f2 Hst) as (index & keys' & r2 & E3 & H23 & Hlen & Hkeys & Ecl & Es3 & Eo3 & Hs3); [rewrite Ea; lia|rewrite Ec; lia|].
  rewrite Ec in Hs3. change (set_written f2 (size_of f2) OK r1) with (set_written f2 (size_of f2) OK (set_closed r0)). rewrite E3. cbn [mbind option_bind].
  assert (handle_ok (sb_handle meta)) as Hhm by (eapply placed_handle; [apply H12|lia]).
  assert (handle_ok (sb_handle index)) as Hhi by (eapply placed_handle; [apply H23|lia]).
  destruct (write_footer_spec r2 (sb_handle meta) (sb_handle index) Es3 Hhm Hhi) as (f4 & -> & E4). cbn [mbind option_bind].
  eexists _, (TableLayout bl keys' index meta fb). split; [done|]. simpl.
  assert (size_of f4 = size_of (tb_file r2) + Z.of_nat kEncodedLength) as Hs4 by (rewrite E4, length_app, length_enc_footer; lia).
  change (Z.of_nat kEncodedLength) with 48 in *. split.
  - apply (finished_layout bl keys' es (tb_file r0) f1 f2 (tb_file r2) f4 h); try done; [apply Hst|apply Hst|lia].
  - split; [done|unfold FileSize; simpl; rewrite Eo3, Hs4, u64_id; lia].
Qed.
End Finish.
