(* ===== verification/TableRead.v ===== *)
(** * Iterating over a table and looking keys up in it *)
From S2P Require Import Prelude Varint Coding CodingProps Comparator DbFormat DbFormatProps FilterBlock FilterBlockProps Status Iter Block BlockProps Interfaces TwoLevel TwoLevelProps Format FormatProps Table TableLayout.

(** ** A table file is read as the entries it was made of *)

(** ** Iterators inside others *)

Lemma sum_right_ok {A B} (a : Iterator A) (b : Iterator B) c valid es at_pos :
  IteratorOk b c valid es at_pos ->
  IteratorOk (sum_iterator a b) c valid es (fun st p => exists i, st = inr i /\ at_pos i p).
Proof.
  intros Hb. split; simpl.
  - intros st p (i & -> & Hp). by apply (it_valid (IteratorOk := Hb)).
  - intros st n (i & -> & Hp). by apply (it_entry (IteratorOk := Hb)).
  - intros st p (i & -> & Hp). destruct (it_first (IteratorOk := Hb) i p Hp) as (i' & -> & H). eexists. split; [done|]. by exists i'.
  - intros st p (i & -> & Hp). destruct (it_last (IteratorOk := Hb) i p Hp) as (i' & -> & H). eexists. split; [done|]. by exists i'.
  - intros st p t (i & -> & Hp) Ht. destruct (it_seek (IteratorOk := Hb) i p t Hp Ht) as (i' & -> & H). eexists. split; [done|]. by exists i'.
  - intros st n (i & -> & Hp). destruct (it_next (IteratorOk := Hb) i n Hp) as (i' & -> & H). eexists. split; [done|]. by exists i'.
  - intros st n (i & -> & Hp). destruct (it_prev (IteratorOk := Hb) i n Hp) as (i' & -> & H). eexists. split; [done|]. by exists i'.
  - intros st p (i & -> & Hp). by apply (it_status (IteratorOk := Hb) i p).
Qed.

Lemma TableIter_ok {H} le c valid es at_pos (cl : Cleanups) :
  IteratorOk (block_iterator le c) c valid es at_pos ->
  IteratorOk (TableIter_iterator (H := H) le c) c valid es (fun t p => ti_cleanup t = cl /\ at_pos (ti_iter t) p).
Proof.
  intros Hb.
  assert (forall (op : EmptyIterator + BlockIter -> option (EmptyIterator + BlockIter)) (t : TableIter (H := H)) p,
    ti_cleanup t = cl -> (exists i, op (ti_iter t) = Some i /\ at_pos i p) ->
    exists t', on_iter op t = Some t' /\ ti_cleanup t' = cl /\ at_pos (ti_iter t') p) as Hop.
  { intros op t p Ecl (i & E & Hi). unfold on_iter. rewrite E. eexists. by split. }
  split; cbn [Valid SeekToFirst SeekToLast Seek Next Prev key value status TableIter_iterator].
  - intros t p [_ Hp]. by apply (it_valid (IteratorOk := Hb)).
  - intros t i [_ Hp]. by apply (it_entry (IteratorOk := Hb)).
  - intros t p [Ecl Hp]. apply Hop; [done|]. by apply (it_first (IteratorOk := Hb) _ p).
  - intros t p [Ecl Hp]. apply Hop; [done|]. by apply (it_last (IteratorOk := Hb) _ p).
  - intros t p k [Ecl Hp] Hk. apply Hop; [done|]. by apply (it_seek (IteratorOk := Hb) _ p).
  - intros t i [Ecl Hp]. apply Hop; [done|]. by apply (it_next (IteratorOk := Hb)).
  - intros t i [Ecl Hp]. apply Hop; [done|]. by apply (it_prev (IteratorOk := Hb)).
  - intros t p [_ Hp]. by apply (it_status (IteratorOk := Hb) _ p).
Qed.

Lemma keys_sorted_take c es1 es2 es3 : keys_sorted c (es1 ++ es2 ++ es3) -> keys_sorted c es2.
Proof.
  intros Hs i j a b Hij Ea Eb. apply (Hs (length es1 + i)%nat (length es1 + j)%nat); [lia| |].
  - rewrite lookup_app_r, Nat.add_comm, Nat.add_sub by lia. by apply lookup_app_l_Some.
  - rewrite lookup_app_r, Nat.add_comm, Nat.add_sub by lia. by apply lookup_app_l_Some.
Qed.

Lemma enc_handle_inj h h' : handle_ok h -> handle_ok h' -> enc_handle h = enc_handle h' -> h = h'.
Proof.
  intros Hh Hh' E. pose proof (HandleDecodeFrom_enc true new_BlockHandle h [] Hh) as E1.
  rewrite E in E1. rewrite HandleDecodeFrom_enc in E1 by done. by injection E1.
Qed.

Section Table.
Context {le : bool} {snappy : Snappy} {F : Type} {raf : RandomAccessFile F} {contents : F -> list byte}.
Context {Hraf : RandomAccessFileOk raf contents}.
Context {C H : Type} {cache : Cache C H Block}.
Context {valid : list byte -> Prop} {o : Options} {Hc : ComparatorOk (opt_comparator o) valid}.
Context {bytes : list byte} {es : list entry} {ly : table_layout} {file : F} {Hfile : contents file = bytes}.
Context {Htf : table_file le (opt_comparator o) (filter_policy o) bytes es ly}.
Context {Hes : Forall (fun e : entry => valid e.1) es} {Hsorted : keys_sorted (opt_comparator o) es}.

Abbreviation cmp := (opt_comparator o).
Abbreviation tblocks := (ly_blocks ly).
Abbreviation index := (index_entries ly).

(** ** The blocks of the table *)

Lemma block_placed b : In b tblocks -> placed bytes b.1 /\ holds_entries (sb_data b.1) b.2 /\ b.2 <> [].
Proof. intros Hb. pose proof (tf_blocks _ _ _ _ _ _ Htf) as Hf. rewrite List.Forall_forall in Hf. by apply Hf. Qed.

Lemma block_handle_ok b : In b tblocks -> handle_ok (sb_handle b.1).
Proof. intros Hb. eapply placed_handle; [by apply block_placed|apply Htf]. Qed.

Lemma block_in j b : tblocks !! j = Some b -> In b tblocks.
Proof. intros E. by apply list_elem_of_In, (list_elem_of_lookup_2 _ j). Qed.

Lemma index_lookup j e : index !! j = Some e ->
  exists k b, ly_keys ly !! j = Some k /\ tblocks !! j = Some b /\ e = index_entry k b.
Proof. intros (k & b & -> & Ek & Eb)%lookup_zip_with_Some. by exists k, b. Qed.

(** The entries of the block a handle points to. *)
Definition block_of (h : list byte) : list entry :=
  match find (fun b => bool_decide (enc_handle (sb_handle b.1) = h)) tblocks with Some b => b.2 | None => [] end.

Lemma find_block_handle b : In b tblocks ->
  find (fun b' => bool_decide (enc_handle (sb_handle b'.1) = enc_handle (sb_handle b.1))) tblocks = Some b.
Proof.
  intros Hb. destruct (find _ tblocks) as [b'|] eqn:E.
  - apply find_some in E as [Hb' E%bool_decide_eq_true]. apply enc_handle_inj in E; [|by apply block_handle_ok|by apply block_handle_ok].
    injection E as E _. apply Nat2Z.inj in E. f_equal.
    apply list_elem_of_In, list_elem_of_lookup in Hb as [j Ej]. apply list_elem_of_In, list_elem_of_lookup in Hb' as [j' Ej'].
    pose proof (tf_places _ _ _ _ _ _ Htf) as Hnd. assert (j = j') as ->; [|congruence].
    eapply NoDup_lookup; [exact Hnd| |]; apply list_lookup_fmap_Some; [by exists b|by exists b'].
  - apply find_none with (x := b) in E; [|done]. by rewrite bool_decide_true in E.
Qed.

Lemma block_of_handle b : In b tblocks -> block_of (enc_handle (sb_handle b.1)) = b.2.
Proof. intros Hb. unfold block_of. by rewrite find_block_handle. Qed.

Lemma blocks_of_index : blocks (index := index) (block_of := block_of) = map snd tblocks.
Proof.
  apply list_eq. intros j. unfold blocks. change (map (fun e => block_of e.2) index) with ((fun e : entry => block_of e.2) <$> index).
  change (map snd tblocks) with (snd <$> tblocks). rewrite !list_lookup_fmap. unfold index_entries. rewrite lookup_zip_with.
  destruct (tblocks !! j) as [b|] eqn:Eb.
  - destruct (lookup_lt_is_Some_2 (ly_keys ly) j) as [k Ek]; [rewrite (tf_keys _ _ _ _ _ _ Htf); by eapply lookup_lt_Some|].
    rewrite Ek. simpl. by rewrite block_of_handle by by eapply block_in.
  - destruct (ly_keys ly !! j); simpl; done.
Qed.

Lemma block_split j b : tblocks !! j = Some b -> exists es1 es3, es = es1 ++ b.2 ++ es3.
Proof.
  intros Eb. rewrite (tf_entries _ _ _ _ _ _ Htf). rewrite (concat_split _ j b.2); [by eexists _, _|]. apply list_lookup_fmap_Some. by exists b.
Qed.

Lemma block_entry_in j b e : tblocks !! j = Some b -> In e b.2 -> In e es.
Proof. intros (es1 & es3 & E)%block_split He. rewrite E. apply in_app_iff. right. apply in_app_iff. auto. Qed.

Lemma entry_valid e : In e es -> valid e.1.
Proof. intros He. rewrite List.Forall_forall in Hes. by apply Hes. Qed.

Lemma block_iterator_ok b : In b tblocks -> IteratorOk (Block_Iter le cmp) cmp valid b.2 (at_block b.2).
Proof.
  intros Hb. apply list_elem_of_In, list_elem_of_lookup in Hb as [j Ej]. apply at_block_ok; [done| |].
  - apply List.Forall_forall. intros e He. by eapply entry_valid, block_entry_in.
  - destruct (block_split j b Ej) as (es1 & es3 & E). rewrite E in Hsorted. by eapply keys_sorted_take.
Qed.

Lemma entry_block e : In e es -> exists j b, tblocks !! j = Some b /\ In e b.2.
Proof using Htf.
  rewrite (tf_entries _ _ _ _ _ _ Htf). intros (l & (b & <- & Hb)%in_map_iff & He)%in_concat.
  apply list_elem_of_In, list_elem_of_lookup in Hb as [j Ej]. by exists j, b.
Qed.

Lemma key_in_index j b : tblocks !! j = Some b -> exists ik, ly_keys ly !! j = Some ik /\ index !! j = Some (index_entry ik b).
Proof using Htf.
  intros Eb. destruct (lookup_lt_is_Some_2 (ly_keys ly) j) as [ik Eik].
  { rewrite (tf_keys _ _ _ _ _ _ Htf). by eapply lookup_lt_Some. }
  exists ik. split; [done|]. apply lookup_zip_with_Some. by exists ik, b.
Qed.

(** ** The keys of the index *)

(** The entries in front of an entry are smaller. *)
Lemma entry_order j j' b b' i i' e e' : tblocks !! j = Some b -> tblocks !! j' = Some b' -> b.2 !! i = Some e -> b'.2 !! i' = Some e' ->
  (j < j' \/ j = j' /\ i < i')%nat -> key_lt cmp e.1 e'.1.
Proof using Htf Hsorted.
  intros Eb Eb' Ee Ee' Hlt. pose proof (tf_entries _ _ _ _ _ _ Htf) as Ees.
  assert (map snd tblocks !! j = Some b.2) as Em by (apply list_lookup_fmap_Some; by exists b).
  assert (map snd tblocks !! j' = Some b'.2) as Em' by (apply list_lookup_fmap_Some; by exists b').
  pose proof (concat_lookup (map snd tblocks) _ _ _ _ Em Ee) as El. pose proof (concat_lookup (map snd tblocks) _ _ _ _ Em' Ee') as El'. rewrite <- Ees in El, El'.
  eapply Hsorted; [|exact El|exact El']. pose proof (lookup_lt_Some _ _ _ Ee). destruct Hlt as [Hj|[-> Hi]]; [|lia].
  pose proof (off_S _ _ _ Em). pose proof (off_le (map snd tblocks) (S j) j' ltac:(lia)). lia.
Qed.

Lemma block_entry_valid j b e : tblocks !! j = Some b -> In e b.2 -> valid e.1.
Proof using Htf Hes. intros Eb He. by eapply entry_valid, block_entry_in. Qed.

Lemma block_lookup_valid j b i e : tblocks !! j = Some b -> b.2 !! i = Some e -> valid e.1.
Proof using Htf Hes. intros Eb Ei. apply (block_entry_valid j b e Eb). by eapply list_elem_of_In, list_elem_of_lookup_2. Qed.

Lemma key_of_block j k : ly_keys ly !! j = Some k -> exists b e, tblocks !! j = Some b /\ last b.2 = Some e /\ valid k /\
  key_le cmp e.1 k /\ forall b' e', tblocks !! S j = Some b' -> head b'.2 = Some e' -> key_lt cmp k e'.1.
Proof using Htf Hsorted Hes Hc.
  intros Ek. destruct (lookup_lt_is_Some_2 tblocks j) as [b Eb].
  { rewrite <- (tf_keys _ _ _ _ _ _ Htf). by eapply lookup_lt_Some. }
  destruct (tf_separators _ _ _ _ _ _ Htf j k b Ek Eb) as (e & Ee & Hk). exists b, e. split; [done|]. split; [done|].
  assert (valid e.1) as He by (rewrite last_lookup in Ee; exact (block_lookup_valid j b _ e Eb Ee)).
  destruct (tblocks !! S j) as [b'|] eqn:Eb'; simpl in Hk.
  - assert (b'.2 <> []) as Hne by (by eapply block_placed, block_in). destruct (head b'.2) as [e'|] eqn:Ee'; [|by destruct b'.2].
    assert (key_lt cmp e.1 e'.1) as (x & Ex & Hx).
    { rewrite last_lookup in Ee. rewrite head_lookup in Ee'. eapply (entry_order j (S j)); [exact Eb|exact Eb'|exact Ee|exact Ee'|lia]. }
    assert (valid e'.1) as He' by (rewrite head_lookup in Ee'; exact (block_lookup_valid (S j) b' 0 e' Eb' Ee')).
    destruct (separator_spec (c := cmp) e.1 e'.1 x He He' Ex Hx) as (s & y & z & Es & Hs & Ey & Hy & Ez & Hz & _).
    assert (k = s) as -> by congruence. split; [done|]. split; [by exists y|]. intros b1 e1 [= <-] E1. assert (e1 = e') as -> by congruence. by exists z.
  - destruct (successor_spec (c := cmp) e.1 He) as (s & y & Es & Hs & Ey & Hy & _). assert (k = s) as -> by congruence.
    split; [done|]. split; [by exists y|]. by intros b' e'.
Qed.

Lemma key_below j k b e : ly_keys ly !! j = Some k -> tblocks !! j = Some b -> In e b.2 -> key_le cmp e.1 k.
Proof using Htf Hsorted Hes Hc.
  intros Ek Eb He. destruct (key_of_block j k Ek) as (b' & l & Eb' & El & Hv & Hle & _). assert (b' = b) as -> by congruence.
  pose proof He as Hin. apply list_elem_of_In, list_elem_of_lookup in He as [i Ei]. rewrite last_lookup in El.
  pose proof (block_entry_valid j b e Eb Hin). pose proof (block_lookup_valid j b _ l Eb El).
  pose proof (lookup_lt_Some _ _ _ Ei). destruct (decide (i = Init.Nat.pred (length b.2))) as [->|]; [by replace e with l by congruence|].
  apply (key_le_trans (valid := valid) e.1 l.1 k); [done..| |done]. apply key_lt_le.
  eapply (entry_order j j); [exact Eb|exact Eb|exact Ei|exact El|]. right. split; [done|lia].
Qed.

Lemma key_above i j k b e : (i < j)%nat -> ly_keys ly !! i = Some k -> tblocks !! j = Some b -> In e b.2 -> key_lt cmp k e.1.
Proof using Htf Hsorted Hes Hc.
  intros Hij Ek Eb He. destruct (key_of_block i k Ek) as (b0 & l & Eb0 & El & Hv & _ & Hnext).
  destruct (lookup_lt_is_Some_2 tblocks (S i)) as [b' Eb']; [apply lookup_lt_Some in Eb; lia|].
  assert (b'.2 <> []) as Hne by (by eapply block_placed, block_in). destruct (head b'.2) as [f|] eqn:Ef; [|by destruct b'.2].
  pose proof (Hnext b' f Eb' Ef) as Hkf. rewrite head_lookup in Ef.
  pose proof (block_entry_valid j b e Eb He). pose proof (block_lookup_valid (S i) b' 0 f Eb' Ef).
  apply list_elem_of_In, list_elem_of_lookup in He as [n En].
  destruct (decide (S i = j /\ n = 0%nat)) as [[<- ->]|Hne'].
  - assert (b' = b) as -> by congruence. by replace e with f by congruence.
  - apply (key_lt_trans (valid := valid) k f.1 e.1); [done..|].
    eapply (entry_order (S i) j); [exact Eb'|exact Eb|exact Ef|exact En|lia].
Qed.

Lemma keys_increase i j a b : (i < j)%nat -> ly_keys ly !! i = Some a -> ly_keys ly !! j = Some b -> key_lt cmp a b.
Proof using Htf Hsorted Hes Hc.
  intros Hij Ea Eb. destruct (key_of_block j b Eb) as (bj & l & Ebj & El & Hb & Hle & _).
  destruct (key_of_block i a Ea) as (_ & _ & _ & _ & Ha & _). rewrite last_lookup in El.
  assert (In l bj.2) as Hin by (by eapply list_elem_of_In, list_elem_of_lookup_2).
  pose proof (block_entry_valid j bj l Ebj Hin).
  by apply (key_lt_le_trans (valid := valid) a l.1 b); [..|by eapply key_above|].
Qed.

(** ** The index *)

Definition at_index (st : EmptyIterator + BlockIter) (p : option nat) : Prop := exists i, st = inr i /\ at_block index i p.

Lemma index_valid j e : index !! j = Some e -> valid e.1.
Proof using Htf Hsorted Hes Hc. intros (k & b & Ek & _ & ->)%index_lookup. by destruct (key_of_block j k Ek) as (_ & _ & _ & _ & ? & _). Qed.

Lemma index_ok : IteratorOk (block_iterator le cmp) cmp valid index at_index.
Proof using Htf Hsorted Hes Hc.
  apply sum_right_ok, at_block_ok; [done| |].
  - apply Forall_lookup. intros j e. apply index_valid.
  - intros i j x y Hij (a & bi & Ea & _ & ->)%index_lookup (b & bj & Eb & _ & ->)%index_lookup. simpl. by eapply keys_increase.
Qed.

Lemma index_keys j e x : index !! j = Some e -> In x (block_of e.2) -> valid x.1 /\ key_le cmp x.1 e.1.
Proof using Htf Hsorted Hes Hc.
  intros (k & b & Ek & Eb & ->)%index_lookup. simpl. rewrite block_of_handle by by eapply block_in. intros Hx.
  split; [by apply (block_entry_valid j b)|]. by apply (key_below j k b).
Qed.

Lemma index_separates j j' e e' x : (j < j')%nat -> index !! j = Some e -> index !! j' = Some e' -> In x (block_of e'.2) ->
  key_lt cmp e.1 x.1.
Proof using Htf Hsorted Hes Hc.
  intros Hj (k & b & Ek & Eb & ->)%index_lookup (k' & b' & Ek' & Eb' & ->)%index_lookup. simpl.
  rewrite block_of_handle by by eapply block_in. by eapply key_above.
Qed.

(** ** An open table *)

Record opened (t : Table (F := F)) : Prop := {
  op_options : tbl_options t = o;
  op_file : tbl_file t = file;
  op_metaindex : tbl_metaindex_handle t = sb_handle (ly_meta ly);
  op_index : new_Block le (sb_data (ly_index ly)) = Some (tbl_index_block t);
  op_filter : match filter_policy o, ly_filter ly with
    | Some (p, _), Some b => exists r, new_FilterBlockReader le (sb_data b) = Some r /\ filter t = Some (p, r)
    | _, _ => filter t = None
    end;
}.

Lemma meta_block : placed bytes (ly_meta ly) /\ placed bytes (ly_index ly) /\ Z.of_nat (length bytes) < 2 ^ 32.
Proof. split_and!; apply Htf. Qed.

Lemma read_placed options b : placed bytes b ->
  exists cachable heap, ReadBlock le file options (sb_handle b) = Some (OK, MkContents (sb_data b) cachable heap).
Proof. intros Hb. eapply ReadBlock_placed; [exact Hfile|done|apply Htf]. Qed.

Lemma ReadFilter_spec p name b t : filter_policy o = Some (p, name) -> ly_filter ly = Some b -> tbl_file t = file ->
  exists r, new_FilterBlockReader le (sb_data b) = Some r /\
    ReadFilter le (enc_handle (sb_handle b)) p t =
      Some (MkTable (tbl_options t) (tbl_file t) (cache_id t) (Some (p, r)) (tbl_metaindex_handle t) (tbl_index_block t)).
Proof.
  intros Ep Eb Ef. destruct (tf_meta _ _ _ _ _ _ Htf) as [_ Hm]. rewrite Ep, Eb in Hm.
  destruct Hm as (_ & Hb & r & Er & _). exists r. split; [done|]. unfold ReadFilter.
  rewrite <- (app_nil_r (enc_handle _)), HandleDecodeFrom_enc by (eapply placed_handle; [done|apply Htf]). cbn [ok negb].
  rewrite Ef. destruct (read_placed (meta_read_options (tbl_options t)) b Hb) as (? & ? & ->). cbn [mbind option_bind ok negb].
  cbn [bc_data]. by rewrite Er.
Qed.

Lemma metaindex_lookup data name v : holds_entries data [(filter_key name, v)] ->
  exists meta iter st, new_Block le data = Some meta /\ NewBlockIterator le meta = Some iter /\
    @Seek _ (block_iterator le BytewiseComparator) (filter_key name) iter = Some st /\
    @Valid _ (block_iterator le BytewiseComparator) st = true /\
    @key _ (block_iterator le BytewiseComparator) st = Some (filter_key name) /\
    @value _ (block_iterator le BytewiseComparator) st = Some v.
Proof.
  intros Hm. destruct (block_readable le _ _ Hm) as (blk & it & E1 & _ & _ & E2 & Hit).
  set (me := (filter_key name, v)) in *.
  assert (IteratorOk (block_iterator le BytewiseComparator) BytewiseComparator (fun _ => True) [me]
    (fun st p => exists i, st = inr i /\ at_block [me] i p)) as Hok.
  { apply sum_right_ok, at_block_ok; [apply _|by constructor|]. intros i j x y Hij Ex Ey.
    apply list_lookup_singleton_Some in Ex as [? _]. apply list_lookup_singleton_Some in Ey as [? _]. lia. }
  destruct (it_seek (IteratorOk := Hok) (inr it) None (filter_key name)) as (st & E3 & Hst); [by exists it|done|].
  assert (seek_pos BytewiseComparator (filter_key name) [me] = Some 0%nat) as Es.
  { simpl. unfold key_ge. simpl. by rewrite slice_compare_lex, lex_refl. }
  rewrite Es in Hst. destruct (it_entry (IteratorOk := Hok) _ _ Hst) as (x & Ex & Ek & Ev). injection Ex as <-.
  exists blk, (inr it), st. split_and!; [exact E1|exact E2|exact E3| |exact Ek|exact Ev].
  exact (it_valid (IteratorOk := Hok) _ _ Hst).
Qed.

Lemma ReadMeta_spec t : tbl_options t = o -> tbl_file t = file -> filter t = None ->
  tbl_metaindex_handle t = sb_handle (ly_meta ly) -> new_Block le (sb_data (ly_index ly)) = Some (tbl_index_block t) ->
  exists t', ReadMeta le (MkFooter (sb_handle (ly_meta ly)) (sb_handle (ly_index ly))) t = Some t' /\ opened t' /\ cache_id t' = cache_id t.
Proof.
  intros Eo Ef Efi Em Ei. unfold ReadMeta. rewrite Eo. pose proof (tf_meta _ _ _ _ _ _ Htf) as Hmeta.
  destruct (option_pair_cases (filter_policy o)) as [(p & name & Ep)|Ep]; rewrite Ep; rewrite Ep in Hmeta.
  - destruct (ly_filter ly) as [b|] eqn:Eb; [|by destruct Hmeta]. destruct Hmeta as (Hpm & Hm & Hpb & _).
    rewrite Ef. cbn [metaindex_handle_]. destruct (read_placed (meta_read_options o) (ly_meta ly) Hpm) as (ca & he & ->).
    cbn [mbind option_bind ok negb bc_data].
    destruct (metaindex_lookup _ _ _ Hm) as (meta & iter & st & -> & E2 & E3 & E4 & E5 & E6).
    destruct (ReadFilter_spec p name b t Ep Eb Ef) as (r & Er & Erf).
    cbn [mbind option_bind]. rewrite E2. cbn [mbind option_bind]. fold (filter_key name). rewrite E3. cbn [mbind option_bind].
    rewrite E4, E5. cbn [mbind option_bind]. rewrite slice_eqb_refl, E6. cbn [mbind option_bind]. rewrite Erf.
    eexists. split; [done|]. split; [|done]. split; simpl; try done. rewrite Ep, Eb. by exists r.
  - exists t. split; [done|]. split; [|done]. split; try done. by rewrite Ep.
Qed.

Lemma Open_spec c0 : exists t, Open le o file (Z.of_nat (length bytes)) c0 = Some (OK, Some t, if has_block_cache o then (CacheNewId c0).2 else c0) /\
  opened t /\ cache_id t = (if has_block_cache o then (CacheNewId c0).1 else 0).
Proof.
  destruct (tf_footer _ _ _ _ _ _ Htf) as [pre Eb]. unfold Open.
  pose proof (f_equal (@length byte) Eb) as El. rewrite length_app, length_enc_footer in El.
  destruct (Z.ltb_spec (Z.of_nat (length bytes)) (Z.of_nat kEncodedLength)); [lia|].
  destruct (read_at_ok file (Z.of_nat (length bytes) - Z.of_nat kEncodedLength) (Z.of_nat kEncodedLength)) as [scratch ->]; [lia|lia|].
  cbn [ok negb]. rewrite Nat2Z.id, Hfile.
  replace (Z.to_nat (Z.of_nat (length bytes) - Z.of_nat kEncodedLength)) with (length pre) by lia.
  assert (take kEncodedLength (drop (length pre) bytes) = enc_footer (MkFooter (sb_handle (ly_meta ly)) (sb_handle (ly_index ly)))) as ->.
  { rewrite Eb, drop_app_length. apply take_ge. by rewrite length_enc_footer. }
  rewrite <- (app_nil_r (enc_footer _)). destruct meta_block as (Hm & Hi & Hl).
  rewrite FooterDecodeFrom_enc by (eapply placed_handle; done). cbn [mbind option_bind ok negb index_handle_].
  destruct (read_placed (meta_read_options o) (ly_index ly) Hi) as (ca & he & ->). cbn [mbind option_bind ok negb bc_data].
  destruct (block_readable le _ _ (proj2 (tf_index _ _ _ _ _ _ Htf))) as (blk & it & Eblk & _). rewrite Eblk. cbn [mbind option_bind].
  assert ((if has_block_cache o then CacheNewId c0 else (0, c0)) =
    (if has_block_cache o then (CacheNewId c0).1 else 0, if has_block_cache o then (CacheNewId c0).2 else c0)) as ->.
  { destruct (has_block_cache o); [|done]. by destruct (CacheNewId c0). }
  set (id := if has_block_cache o then (CacheNewId c0).1 else 0).
  destruct (ReadMeta_spec (MkTable o file id None (sb_handle (ly_meta ly)) blk)) as (t & Et & Hop & Eid); try done.
  cbn [metaindex_handle_]. rewrite Et. cbn [mbind option_bind]. by exists t.
Qed.
End Table.

(** Keys that the policy does not tell apart are not told apart by a filter block. *)
Lemma FilterKeyMayMatch_same le p r block_offset k k' : (forall f, @KeyMayMatch p k f = @KeyMayMatch p k' f) ->
  FilterKeyMayMatch le p r block_offset k = FilterKeyMayMatch le p r block_offset k'.
Proof.
  intros E. unfold FilterKeyMayMatch. cbv zeta. destruct (64 <=? base_lg_ r); [done|]. destruct (_ <? num_ r); [|done].
  destruct (DecodeFixed32 _ _); [|done]. destruct (DecodeFixed32 _ _); [|done]. by rewrite E.
Qed.

(** What else is kept while a table uses the cache: only entries under its id are new. *)
Class CacheKeeps (le : bool) {C H : Type} (cache : Cache C H Block) (id : Z) (keep : C -> (list byte -> option Block) -> Prop) := {
  ck_lookup k r c c' last : keep c last -> CacheLookup k c = Some (r, c') -> keep c' last;
  ck_insert off v charge h c c' last : keep c last -> CacheInsert (EncodeFixed64 le id ++ EncodeFixed64 le off) v charge c = Some (h, c') ->
    keep c' (fun k => if decide (k = EncodeFixed64 le id ++ EncodeFixed64 le off) then Some v else last k);
  ck_release h c c' last : keep c last -> CacheRelease h c = Some c' -> keep c' last;
}.

#[export] Instance keeps_nothing le {C H : Type} (cache : Cache C H Block) id : CacheKeeps le cache id (fun _ _ => True).
Proof. by split. Qed.

Section Read.
Context {le : bool} {snappy : Snappy} {F : Type} {raf : RandomAccessFile F} {contents : F -> list byte}.
Context {Hraf : RandomAccessFileOk raf contents}.
Context {C H : Type} {cache : Cache C H Block} {rel : C -> (list byte -> option Block) -> list (H * Block) -> Prop}.
Context {max_handles : Z} {Hcache : CacheOk cache rel max_handles}.
Context {valid : list byte -> Prop} {o : Options} {Hc : ComparatorOk (opt_comparator o) valid}.
Context {bytes : list byte} {es : list entry} {ly : table_layout} {file : F} {Hfile : contents file = bytes}.
Context {Htf : table_file le (opt_comparator o) (filter_policy o) bytes es ly}.
Context {Hes : Forall (fun e : entry => valid e.1) es} {Hsorted : keys_sorted (opt_comparator o) es}.
Context {t : Table (F := F)} {Hopen : opened (le := le) (o := o) (ly := ly) (file := file) t}.
Context {options : ReadOptions}.
(** The handles that others have of the cache. *)
Context {rest : list (H * Block)}.
Context {keep : C -> (list byte -> option Block) -> Prop} {Hkeep : CacheKeeps le cache (cache_id t) keep}.

Abbreviation cmp := (opt_comparator o).
Abbreviation tblocks := (ly_blocks ly).
Abbreviation index := (index_entries ly).
Abbreviation cleanup := (BlockCleanup (H := H)).
Abbreviation tblock_of := (block_of (ly := ly)).

(** ** Blocks and their cache entries *)

(** What the cache has for the blocks of this table is what the file has. *)
Definition coherent (last : list byte -> option Block) : Prop :=
  has_block_cache o = true -> forall b v, In b tblocks -> last (cache_key le t (sb_handle b.1)) = Some v -> new_Block le (sb_data b.1) = Some v.

Definition handles_of (ts : list cleanup) : list H :=
  omap (fun f => match f with DeleteBlock => None | ReleaseBlock h => Some h end) ts.

Lemma length_handles_of ts : (length (handles_of ts) <= length ts)%nat.
Proof using. induction ts as [|[|h] ts IH]; simpl in *; lia. Qed.

Definition held (ts : list cleanup) (c : C) : Prop :=
  exists last hvs, rel c last (hvs ++ rest) /\ coherent last /\ map fst hvs = handles_of ts /\ keep c last.

Definition cleanup_of (h : option H) : cleanup := match h with None => DeleteBlock | Some h => ReleaseBlock h end.

Lemma cache_key_inj b b' : In b tblocks -> In b' tblocks ->
  cache_key le t (sb_handle b.1) = cache_key le t (sb_handle b'.1) -> sb_pos b.1 = sb_pos b'.1.
Proof using Htf.
  intros Hb Hb'. unfold cache_key. rewrite !EncodeFixed64_spec. intros E%app_inv_head.
  apply (f_equal (fun l => le_combine l)) in E.
  destruct (block_handle_ok (Htf := Htf) b Hb) as [H1 _]. destruct (block_handle_ok (Htf := Htf) b' Hb') as [H2 _].
  rewrite !le_combine_split64 in E by lia. by apply Nat2Z.inj.
Qed.

Lemma place_inj b b' : In b tblocks -> In b' tblocks -> sb_pos b.1 = sb_pos b'.1 -> b = b'.
Proof using Htf.
  intros Hb Hb' E. apply list_elem_of_In, list_elem_of_lookup in Hb as [j Ej]. apply list_elem_of_In, list_elem_of_lookup in Hb' as [j' Ej'].
  pose proof (tf_places _ _ _ _ _ _ Htf) as Hnd. assert (j = j') as ->; [|congruence].
  eapply NoDup_lookup; [exact Hnd| |]; apply list_lookup_fmap_Some; [by exists b|by exists b'].
Qed.

Lemma coherent_insert last b v : In b tblocks -> coherent last -> new_Block le (sb_data b.1) = Some v ->
  coherent (fun k => if decide (k = cache_key le t (sb_handle b.1)) then Some v else last k).
Proof using Htf.
  intros Hb Hco Ev Ho b' v' Hb'. case_decide as E; [|by apply Hco].
  intros [= <-]. apply cache_key_inj in E; [|done..]. by rewrite (place_inj b' b Hb' Hb E).
Qed.

Lemma load_block_spec b : In b tblocks ->
  exists blk cachable, load_block le t options (sb_handle b.1) = Some (OK, Some (blk, cachable)) /\
    new_Block le (sb_data b.1) = Some blk /\ 1 <= block_size blk < 2 ^ 32.
Proof using Htf Hopen Hfile Hraf.
  intros Hb. destruct (block_placed (Htf := Htf) b Hb) as (Hp & Hh & _). unfold load_block. rewrite (op_file _ Hopen).
  destruct (ReadBlock_placed (le := le) file options bytes b.1 Hfile Hp) as (ca & he & ->); [apply Htf|]. cbn [mbind option_bind ok bc_data].
  destruct (block_readable le _ _ Hh) as (blk & it & E1 & _ & Hz & _). rewrite E1. cbn [mbind option_bind].
  by eexists _, _.
Qed.

Context {Hrest : Z.of_nat (length rest) + 2 <= max_handles}.

Lemma find_block_spec b ts c : In b tblocks -> (length ts <= 1)%nat -> held ts c ->
  exists blk h c', find_block le t options (sb_handle b.1) c = Some (OK, Some blk, h, c') /\
    new_Block le (sb_data b.1) = Some blk /\ held (cleanup_of h :: ts) c'.
Proof using Htf Hopen Hfile Hraf Hcache Hrest Hkeep.
  intros Hb Hts (last & hvs & Hrel & Hco & Ets & Hk). destruct (load_block_spec b Hb) as (blk & ca & Eload & Eblk & Hsize).
  assert (Z.of_nat (length (hvs ++ rest)) < max_handles) as Hout.
  { rewrite length_app. apply (f_equal (@length H)) in Ets. rewrite length_map in Ets.
    pose proof (length_handles_of ts). lia. }
  unfold find_block. rewrite (op_options _ Hopen).
  destruct (has_block_cache o) eqn:Ehas.
  - destruct (cache_lookup_ok c last (hvs ++ rest) (cache_key le t (sb_handle b.1)) Hrel Hout) as (r & c1 & El & Hr). rewrite El. cbn [mbind option_bind]. pose proof (ck_lookup (cache := cache) _ _ _ _ _ Hk El) as Hk1.
    destruct r as [h|].
    + destruct Hr as (v & Ev & Hr). rewrite (cache_value_ok c1 last ((h, v) :: hvs ++ rest) h v Hr (in_eq _ _)). cbn [mbind option_bind].
      exists v, (Some h), c1. split; [done|]. split; [by apply Hco|]. exists last, ((h, v) :: hvs). split_and!; [done|done| |done]. simpl. by rewrite Ets.
    + rewrite Eload. cbn [mbind option_bind]. destruct (ca && fill_cache options).
      * destruct (cache_insert_ok c1 last (hvs ++ rest) (cache_key le t (sb_handle b.1)) blk (block_size blk) Hr Hsize Hout) as (h & c2 & Ei & Hr2).
        rewrite Ei. cbn [mbind option_bind]. pose proof (ck_insert (cache := cache) _ _ _ _ _ _ _ Hk1 Ei) as Hk2. exists blk, (Some h), c2. split; [done|]. split; [done|].
        eexists _, ((h, blk) :: hvs). split_and!; [exact Hr2|by apply coherent_insert| |exact Hk2]. simpl. by rewrite Ets.
      * exists blk, None, c1. split; [done|]. split; [done|]. by exists last, hvs.
  - rewrite Eload. cbn [mbind option_bind option_map fst]. exists blk, None, c. split; [done|]. split; [done|]. by exists last, hvs.
Qed.

(** ** The block iterators *)

Definition at_data (h : list byte) (f : cleanup) (d : TableIter (H := H)) (p : option nat) : Prop :=
  ti_cleanup d = RegisterCleanup f no_cleanups /\ exists i, ti_iter d = inr i /\ at_block (tblock_of h) i p.

Lemma data_iterator b f : In b tblocks ->
  IteratorOk (TableIter_iterator le cmp) cmp valid b.2 (at_data (enc_handle (sb_handle b.1)) f).
Proof using Htf Hes Hsorted Hc.
  intros Hb. unfold at_data. rewrite (block_of_handle (Htf := Htf)) by done.
  apply (TableIter_ok le cmp valid b.2 (fun st p => exists i, st = inr i /\ at_block b.2 i p)).
  apply sum_right_ok. by apply (block_iterator_ok (Htf := Htf) (Hc := Hc) (Hes := Hes) (Hsorted := Hsorted)).
Qed.

Lemma handle_decodes b : In b tblocks ->
  HandleDecodeFrom le new_BlockHandle (enc_handle (sb_handle b.1)) = (OK, sb_handle b.1, []).
Proof using Htf.
  intros Hb. pose proof (HandleDecodeFrom_enc le new_BlockHandle (sb_handle b.1) []) as E. rewrite app_nil_r in E.
  by apply E, (block_handle_ok (Htf := Htf)).
Qed.

Lemma BlockReader_spec b ts c : In b tblocks -> (length ts <= 1)%nat -> held ts c ->
  exists d f c', BlockReader le t options (enc_handle (sb_handle b.1)) c = Some (d, c') /\
    at_data (enc_handle (sb_handle b.1)) f d None /\ held (f :: ts) c'.
Proof using Htf Hopen Hfile Hraf Hcache Hrest Hkeep.
  intros Hb Hts Hh. unfold BlockReader. rewrite handle_decodes by done. change (ok OK) with true. cbv iota.
  destruct (find_block_spec b ts c Hb Hts Hh) as (blk & h & c' & -> & Eblk & Hh'). cbn [mbind option_bind].
  destruct (block_placed (Htf := Htf) b Hb) as (_ & Hd & _). destruct (block_readable le _ _ Hd) as (blk' & it & E1 & _ & _ & E2 & Hit).
  assert (Some blk = Some blk') as [= ->] by exact (eq_trans (eq_sym Eblk) E1). rewrite E2. cbn [mbind option_bind].
  exists (TblIter (inr it) (RegisterCleanup (cleanup_of h) no_cleanups)), (cleanup_of h), c'.
  split; [by destruct h|]. split; [|done]. split; [done|]. exists it. split; [done|]. by rewrite (block_of_handle (Htf := Htf)).
Qed.

Lemma delete_spec h f d p ts c : at_data h f d p -> held (f :: ts) c ->
  exists c', delete_TableIter d c = Some c' /\ held ts c'.
Proof using Hcache Hkeep.
  intros [Ecl _] (last & hvs & Hrel & Hco & Ets & Hk). unfold delete_TableIter. rewrite Ecl. simpl.
  destruct f as [|hd]; simpl in *.
  - exists c. split; [done|]. by exists last, hvs.
  - destruct hvs as [|[h' v] hvs]; [done|]. injection Ets as -> Ets. simpl in Hrel.
    destruct (cache_release_ok c last _ hd v Hrel) as (c' & Er & Hrel'). rewrite Er. simpl. exists c'. split; [done|].
    exists last, hvs. split_and!; [done|done|done|]. exact (ck_release (cache := cache) _ _ _ _ Hk Er).
Qed.

Lemma held_perm ts ts' c : ts ≡ₚ ts' -> held ts c -> held ts' c.
Proof using Hcache.
  intros Hp (last & hvs & Hrel & Hco & Ets & Hk). assert (handles_of ts ≡ₚ handles_of ts') as Hh by by apply omap_Permutation.
  rewrite <- Ets in Hh. symmetry in Hh. apply Permutation_map_inv in Hh as (hvs' & E & Hp').
  exists last, hvs'. split_and!; [|done|done|done]. eapply cache_out_perm; [|exact Hrel]. by rewrite Hp'.
Qed.

(** ** The table's iterator *)

Lemma index_block b : In b (map snd index) -> exists sb, In sb tblocks /\ b = enc_handle (sb_handle sb.1).
Proof.
  intros (e & <- & He)%in_map_iff. apply list_elem_of_In, list_elem_of_lookup in He as [j Ej].
  apply index_lookup in Ej as (k & sb & _ & Eb & ->). exists sb. split; [by eapply block_in|done].
Qed.

#[export] Instance table_source :
  BlockSource (TableIter_iterator le cmp) (BlockReader le t options) delete_TableIter cmp valid (map snd index) tblock_of at_data held 1.
Proof using All.
  split.
  - intros h f (b & Hb & ->)%index_block. rewrite (block_of_handle (Htf := Htf)) by done. by apply data_iterator.
  - intros h ts c (b & Hb & ->)%index_block Hts Hh. by apply BlockReader_spec.
  - intros h f d p ts c _. apply delete_spec.
  - intros ts ts' c. apply held_perm.
Qed.

Lemma entries_of_table : concat (blocks (index := index) (block_of := tblock_of)) = es.
Proof using Htf. rewrite (blocks_of_index (Htf := Htf)). symmetry. apply Htf. Qed.

Lemma index_iterator : exists st, NewBlockIterator le (tbl_index_block t) = Some st /\ at_index (ly := ly) st None.
Proof using Hopen Htf.
  destruct (block_readable le _ _ (proj2 (tf_index _ _ _ _ _ _ Htf))) as (blk & it & E1 & _ & _ & E2 & Hit).
  assert (Some blk = Some (tbl_index_block t)) as [= ->] by exact (eq_trans (eq_sym E1) (op_index _ Hopen)).
  exists (inr it). split; [done|]. by exists it.
Qed.

Lemma table_fuel_enough : (length index <= table_fuel t)%nat.
Proof using Hopen Htf.
  destruct (block_readable le _ _ (proj2 (tf_index _ _ _ _ _ _ Htf))) as (blk & it & E1 & E2 & _).
  assert (Some blk = Some (tbl_index_block t)) as [= ->] by exact (eq_trans (eq_sym E1) (op_index _ Hopen)).
  unfold table_fuel. rewrite E2. apply holds_entries_length, Htf.
Qed.

Definition at_table := two_at (index_it := block_iterator le cmp) (data_it := TableIter_iterator le cmp)
  (index := index) (at_index := at_index (ly := ly)) (block_of := tblock_of) (at_data := at_data) (held := held) (others := []).

Lemma table_iterator_ok : IteratorOk (table_iterator le t options) cmp valid es at_table.
Proof using All.
  pose proof (table_source) as Hsource. pose proof entries_of_table as E. unfold table_iterator. rewrite (op_options _ Hopen).
  assert (IteratorOk (TwoLevelIterator_iterator (index_it := block_iterator le cmp) (data_it := TableIter_iterator le cmp)
    (BlockReader le t options) delete_TableIter (table_fuel t)) cmp valid (concat (blocks (index := index) (block_of := tblock_of))) at_table) as Hok.
  - assert (forall j e, index !! j = Some e -> valid e.1) as Hv by (intros j e; apply (index_valid (Htf := Htf) (Hsorted := Hsorted) (Hc := Hc) (Hes := Hes))).
    assert (forall j e x, index !! j = Some e -> In x (tblock_of e.2) -> valid x.1 /\ key_le cmp x.1 e.1) as Hk
      by (intros j e x; apply (index_keys (Htf := Htf) (Hes := Hes) (Hsorted := Hsorted) (Hc := Hc))).
    assert (forall j j' e e' x, (j < j')%nat -> index !! j = Some e -> index !! j' = Some e' -> In x (tblock_of e'.2) -> key_lt cmp e.1 x.1) as Hs
      by (intros j j' e e' x; apply (index_separates (Htf := Htf) (Hes := Hes) (Hsorted := Hsorted) (Hc := Hc))).
    exact (two_iterator_ok (Hc := Hc) (Hindex := index_ok (Htf := Htf) (Hc := Hc) (Hes := Hes) (Hsorted := Hsorted)) (Hsource := Hsource) (others := []) (Hcap := Nat.le_refl 1) (Hindex_valid := Hv) (Hkeys := Hk)
      (Hseparate := Hs) (Hfuel := table_fuel_enough)).
  - by rewrite E in Hok.
Qed.

Lemma table_iterator_new c : held [] c ->
  exists it, NewTableIterator le t c = Some it /\ at_table it None.
Proof using All.
  intros Hh. destruct index_iterator as (st & E & Hst). unfold NewTableIterator. rewrite E, (op_options _ Hopen).
  cbn [mbind option_bind].
  apply (two_new_ok (data_it := TableIter_iterator le cmp) (Hindex := index_ok (Htf := Htf) (Hc := Hc) (Hes := Hes) (Hsorted := Hsorted)) (block_of := tblock_of) (at_data := at_data) (held := held) (others := []) st c Hst Hh).
Qed.

(** ** Looking a key up *)

Context {Hpolicy : forall p name, filter_policy o = Some (p, name) -> forall k f, valid k -> Z.of_nat (length f) < 2 ^ 32 -> is_Some (@KeyMayMatch p k f)}.

(** The filter has an answer, and it is yes for keys the policy takes for a key of the block. *)
Lemma filter_says p r b k : filter t = Some (p, r) -> In b tblocks -> valid k ->
  exists m, FilterKeyMayMatch le p r (bh_offset (sb_handle b.1)) k = Some m /\
    (forall e, In e b.2 -> (forall f, @KeyMayMatch p k f = @KeyMayMatch p e.1 f) -> m = true).
Proof using Htf Hopen Hpolicy Hrest.
  intros Ef Hb Hk. pose proof (op_filter _ Hopen) as Hf. rewrite Ef in Hf. pose proof (tf_meta _ _ _ _ _ _ Htf) as [_ Hm].
  destruct (option_pair_cases (filter_policy o)) as [(p' & name & Ep)|Ep]; rewrite Ep in Hf, Hm; [|done].
  destruct (ly_filter ly) as [fb|]; [|done]. destruct Hf as (r' & Er & [= <- <-]). destruct Hm as (_ & _ & r' & Er' & Hlg & Hlen & Hans).
  assert (r' = r) as -> by congruence.
  destruct (filter_reader_safe le p (sb_data fb)) as (r2 & Er2 & _ & Hsafe & _). assert (r2 = r) as -> by congruence.
  destruct (Hsafe Hlg (bh_offset (sb_handle b.1)) k) as [m Em]; [simpl; lia|by intros f; apply (Hpolicy p name Ep)|done|].
  exists m. split; [done|]. intros e He Heq. specialize (Hans b e Hb He).
  rewrite (FilterKeyMayMatch_same le p r _ k e.1 Heq) in Em. simpl in Em. congruence.
Qed.

(** The block a key is searched in. *)
Lemma data_seek b ts c k : In b tblocks -> (length ts <= 1)%nat -> held ts c -> valid k ->
  exists d c1 d' c2, BlockReader le t options (enc_handle (sb_handle b.1)) c = Some (d, c1) /\
    @Seek _ (TableIter_iterator le cmp) k d = Some d' /\
    @Valid _ (TableIter_iterator le cmp) d' = bool_decide (is_Some (seek_pos cmp k b.2)) /\
    (forall i, seek_pos cmp k b.2 = Some i -> exists e, b.2 !! i = Some e /\
       @key _ (TableIter_iterator le cmp) d' = Some e.1 /\ @value _ (TableIter_iterator le cmp) d' = Some e.2) /\
    delete_TableIter d' c1 = Some c2 /\ held ts c2 /\ @status _ (TableIter_iterator le cmp) d' = OK.
Proof using Htf Hopen Hfile Hraf Hcache Hes Hsorted Hc Hrest Hkeep.
  intros Hb Hts Hh Hk. destruct (BlockReader_spec b ts c Hb Hts Hh) as (d & f & c1 & E1 & Hd & Hh1).
  pose proof (data_iterator b f Hb) as Hok. destruct (it_seek (IteratorOk := Hok) d None k Hd Hk) as (d' & E2 & Hd').
  destruct (delete_spec _ f d' _ ts c1 Hd' Hh1) as (c2 & E3 & Hh2). exists d, c1, d', c2.
  split; [done|]. split; [exact E2|]. split; [exact (it_valid (IteratorOk := Hok) _ _ Hd')|]. split.
  - intros i Ei. rewrite Ei in Hd'. by apply (it_entry (IteratorOk := Hok)).
  - split; [done|]. split; [done|]. exact (it_status (IteratorOk := Hok) _ _ Hd').
Qed.

(** No key of the index is between a key that is searched and an entry, and the filter does not tell them apart. *)
Definition sees (k x : list byte) : Prop :=
  (forall ik, In ik (ly_keys ly) -> key_le cmp k ik -> key_le cmp x ik) /\
  (forall p name f, filter_policy o = Some (p, name) -> @KeyMayMatch p k f = @KeyMayMatch p x f).

(** What a search gives to its caller. *)
Definition found {S} (k : list byte) (saver : list byte -> list byte -> S -> S) (arg arg' : S) : Prop :=
  match seek_pos cmp k es with
  | None => arg' = arg
  | Some n => exists e, es !! n = Some e /\ (arg' = arg \/ arg' = saver e.1 e.2 arg) /\ (sees k e.1 -> arg' = saver e.1 e.2 arg)
  end.

(** The search in the index and then in a block. *)
Lemma seek_table k : valid k ->
  match seek_pos cmp k index with
  | None => seek_pos cmp k es = None
  | Some j => exists ik b, ly_keys ly !! j = Some ik /\ tblocks !! j = Some b /\ index !! j = Some (index_entry ik b) /\ key_le cmp k ik /\
      match seek_pos cmp k b.2 with
      | Some i => exists n e, seek_pos cmp k es = Some n /\ b.2 !! i = Some e /\ es !! n = Some e
      | None => forall n e, seek_pos cmp k es = Some n -> es !! n = Some e -> key_lt cmp ik e.1
      end
  end.
Proof using Htf Hes Hsorted Hc Hopen Hrest.
  intros Hk.
  assert (forall j e, index !! j = Some e -> valid e.1) as Hv by (intros j e; apply (index_valid (Htf := Htf) (Hsorted := Hsorted) (Hc := Hc) (Hes := Hes))).
  pose proof (seek_all (Hc := Hc) (index := index) (block_of := tblock_of) (Hindex_valid := Hv)
    (Hkeys := index_keys (Htf := Htf) (Hes := Hes) (Hsorted := Hsorted) (Hc := Hc))
    (Hseparate := index_separates (Htf := Htf) (Hes := Hes) (Hsorted := Hsorted) (Hc := Hc)) (Hfuel := table_fuel_enough)
    (others := @nil cleanup) (Hcap := Nat.le_refl 1) k Hk) as Hs.
  pose proof (seek_pos_spec cmp k index) as Hi. rewrite entries_of_table, (blocks_of_index (Htf := Htf)) in Hs.
  destruct (seek_pos cmp k index) as [j|]; [|done]. destruct Hi as (e & Ej & Hge & Hbefore). rewrite Ej in Hs.
  destruct (index_lookup _ _ Ej) as (ik & b & Eik & Eb & ->). exists ik, b. split; [done|]. split; [done|]. split; [done|].
  split; [apply (key_ge_true (valid := valid) k ik Hk (Hv j _ Ej)), Hge|].
  simpl in Hs. rewrite (block_of_handle (Htf := Htf)) in Hs by by eapply block_in.
  pose proof (seek_pos_spec cmp k b.2) as Hb. destruct (seek_pos cmp k b.2) as [i|].
  - destruct Hb as (x & Ex & _). exists (off (map snd tblocks) j + i)%nat, x. split; [done|]. split; [done|].
    rewrite (tf_entries _ _ _ _ _ _ Htf). eapply concat_lookup; [|exact Ex]. apply list_lookup_fmap_Some. by exists b.
  - intros n e En Ee. pose proof (seek_pos_spec cmp k es) as Hes'. rewrite En in Hes'. destruct Hes' as (e' & Ee' & Hge' & _).
    assert (e' = e) as -> by congruence.
    assert (In e es) as Hin by (by eapply list_elem_of_In, list_elem_of_lookup_2).
    pose proof (entry_valid (Hes := Hes) e Hin) as He. apply (key_ge_true (valid := valid) k e.1 Hk He) in Hge'.
    destruct (entry_block (Htf := Htf) e Hin) as (j' & b' & Eb' & Hin'). destruct (decide (j < j')%nat) as [Hlt|Hle].
    { exact (key_above (Htf := Htf) (Hes := Hes) (Hsorted := Hsorted) (Hc := Hc) j j' ik b' e Hlt Eik Eb' Hin'). }
    exfalso. destruct (decide (j' = j)) as [->|Hne].
    { assert (b' = b) as -> by congruence. specialize (Hb e Hin'). rewrite (key_ge_false (valid := valid) k e.1 Hk He) in Hb.
      by apply (key_lt_not_le e.1 k). }
    destruct (key_in_index (Htf := Htf) j' b' Eb') as (ik' & Eik' & Ei'). specialize (Hbefore j' _ ltac:(lia) Ei'). pose proof (Hv j' _ Ei') as Hik'.
    rewrite (key_ge_false (valid := valid) k _ Hk Hik') in Hbefore. apply (key_lt_not_le ik' k Hbefore).
    apply (key_le_trans (valid := valid) k e.1 ik'); try done.
    exact (key_below (Htf := Htf) (Hes := Hes) (Hsorted := Hsorted) (Hc := Hc) j' ik' b' e Eik' Eb' Hin').
Qed.

Lemma found_nothing {S} k (saver : list byte -> list byte -> S -> S) arg :
  (forall n e, seek_pos cmp k es = Some n -> es !! n = Some e -> ~ sees k e.1) -> found k saver arg arg.
Proof.
  intros Hno. unfold found. pose proof (seek_pos_spec cmp k es) as Hs. destruct (seek_pos cmp k es) as [n|]; [|done].
  destruct Hs as (e & Ee & _). exists e. split; [done|]. split; [by left|]. intros Hsee. by destruct (Hno n e eq_refl Ee).
Qed.

Lemma filter_excludes b k : In b tblocks -> valid k ->
  exists ex, match filter t with
             | Some (policy, r) => m ← FilterKeyMayMatch le policy r (bh_offset (sb_handle b.1)) k; Some (negb m)
             | None => Some false
             end = Some ex /\
    (ex = true -> forall e, In e b.2 -> ~ forall p name f, filter_policy o = Some (p, name) -> @KeyMayMatch p k f = @KeyMayMatch p e.1 f).
Proof using Htf Hopen Hpolicy Hrest.
  intros Hb Hk. pose proof (op_filter _ Hopen) as Hf. destruct (filter t) as [[p r]|] eqn:Ef; [|by exists false].
  destruct (filter_says p r b k Ef Hb Hk) as (m & -> & Hm). cbn [mbind option_bind]. exists (negb m). split; [done|].
  intros Hn e He Hsame. assert (m = true) as ->; [|done]. apply (Hm e He). intros f.
  destruct (option_pair_cases (filter_policy o)) as [(p' & name & Ep)|Ep]; rewrite Ep in Hf; [|done].
  destruct (ly_filter ly); [|done]. destruct Hf as (r' & _ & [= <- <-]). by apply (Hsame p name f).
Qed.

Lemma InternalGet_spec {S} k (saver : list byte -> list byte -> S -> S) arg ts c : valid k -> (length ts <= 1)%nat -> held ts c ->
  exists arg' c', InternalGet le t options k saver arg c = Some (OK, arg', c') /\ held ts c' /\ found k saver arg arg'.
Proof using All.
  intros Hk Hts Hh. destruct index_iterator as (st & E1 & Hst). unfold InternalGet. cbv zeta. rewrite E1, (op_options _ Hopen). cbn [mbind option_bind].
  pose proof (index_ok (Htf := Htf) (Hc := Hc) (Hes := Hes) (Hsorted := Hsorted)) as Hix.
  destruct (it_seek (IteratorOk := Hix) st None k Hst Hk) as (st' & E2 & Hst'). rewrite E2. cbn [mbind option_bind].
  rewrite (it_valid (IteratorOk := Hix) _ _ Hst'), (it_status (IteratorOk := Hix) _ _ Hst'). pose proof (seek_table k Hk) as Hseek.
  unfold found. destruct (seek_pos cmp k index) as [j|].
  2:{ rewrite Hseek. cbn [is_Some bool_decide]. exists arg, c. by split_and!. }
  destruct Hseek as (ik & b & Eik & Eb & Ei & Hle & Hb). change (bool_decide (is_Some (Some j))) with true. cbv iota.
  destruct (it_entry (IteratorOk := Hix) _ _ Hst') as (x & Ex & _ & Ev). assert (x = index_entry ik b) as -> by congruence.
  rewrite Ev. cbn [mbind option_bind index_entry snd]. pose proof (block_in _ _ Eb) as Hin. rewrite handle_decodes by done.
  change (ok OK) with true. cbv iota.
  assert (forall n e, seek_pos cmp k b.2 = None -> seek_pos cmp k es = Some n -> es !! n = Some e -> ~ sees k e.1) as Hunseen.
  { intros n e En Es Ee [Hs _]. rewrite En in Hb. apply (key_lt_not_le ik e.1); [by eapply Hb|].
    apply Hs; [by eapply list_elem_of_In, list_elem_of_lookup_2|done]. }
  destruct (filter_excludes b k Hin Hk) as (ex & -> & Hex). cbn [mbind option_bind]. destruct ex.
  - exists arg, c. split; [done|]. split; [done|]. apply found_nothing. intros n e Es Ee Hs.
    destruct (seek_pos cmp k b.2) as [i|]; [|by apply (Hunseen n e)].
    destruct Hb as (n' & e' & Es' & Ei' & En'). assert (e' = e) as -> by congruence.
    apply (Hex eq_refl e); [by eapply list_elem_of_In, list_elem_of_lookup_2|]. apply Hs.
  - destruct (data_seek b ts c k Hin Hts Hh Hk) as (d & c1 & d' & c2 & -> & E4 & E5 & Hkv & E6 & Hh2 & E7).
    cbn [mbind option_bind]. rewrite E4. cbn [mbind option_bind]. rewrite E5, E7.
    destruct (seek_pos cmp k b.2) as [i|].
    + destruct (Hkv i eq_refl) as (x & Ex' & Ekx & Evx). change (bool_decide (is_Some (Some i))) with true. cbv iota.
      rewrite Ekx, Evx. cbn [mbind option_bind]. rewrite E6. cbn [mbind option_bind]. eexists _, c2. split; [done|]. split; [done|].
      destruct Hb as (n & e & Es & Ei' & En). rewrite Es. exists e. assert (x = e) as -> by congruence. split; [done|]. split; [by right|done].
    + change (bool_decide (is_Some None)) with false. cbv iota. cbn [mbind option_bind]. rewrite E6. cbn [mbind option_bind].
      exists arg, c2. split; [done|]. split; [done|]. apply found_nothing. intros n e Es Ee Hs. by apply (Hunseen n e).
Qed.

Lemma ApproximateOffsetOf_spec k : valid k ->
  ApproximateOffsetOf le t k = Some (match seek_pos cmp k index with
    | Some j => match tblocks !! j with Some b => Z.of_nat (sb_pos b.1) | None => 0 end
    | None => Z.of_nat (sb_pos (ly_meta ly)) end).
Proof using Htf Hopen Hes Hsorted Hc Hrest.
  intros Hk. destruct index_iterator as (st & E1 & Hst). unfold ApproximateOffsetOf. cbv zeta. rewrite E1, (op_options _ Hopen). cbn [mbind option_bind].
  pose proof (index_ok (Htf := Htf) (Hc := Hc) (Hes := Hes) (Hsorted := Hsorted)) as Hix.
  destruct (it_seek (IteratorOk := Hix) st None k Hst Hk) as (st' & E2 & Hst'). rewrite E2. cbn [mbind option_bind].
  rewrite (it_valid (IteratorOk := Hix) _ _ Hst'), (op_metaindex _ Hopen). pose proof (seek_table k Hk) as Hseek.
  destruct (seek_pos cmp k index) as [j|]; [|done].
  destruct Hseek as (ik & b & Eik & Eb & Ei & _). change (bool_decide (is_Some (Some j))) with true. cbv iota.
  destruct (it_entry (IteratorOk := Hix) _ _ Hst') as (x & Ex & _ & Ev). assert (x = index_entry ik b) as -> by congruence.
  rewrite Ev, Eb. cbn [mbind option_bind index_entry snd]. by rewrite handle_decodes by by eapply block_in.
Qed.
End Read.
