(* ===== verification/TableCorrect.v ===== *)
(** * Tables: what is built is what is read

    The builder's and the reader's parts put together: through any cache that
    keeps its contract and any file that keeps its. *)
From S2P Require Import Prelude Varint Coding CodingProps Comparator DbFormat DbFormatProps FilterBlock FilterBlockProps Status Iter Block BlockProps TwoLevel TwoLevelProps Interfaces Format FormatProps Table TableLayout TableBuilder TableFinish TableRead.

(** ** Reading a table file *)

Section Correct.
Context {le : bool} {snappy : Snappy} {F : Type} {raf : RandomAccessFile F} {contents : F -> list byte}.
Context {Hraf : RandomAccessFileOk raf contents}.
Context {C H : Type} {cache : Cache C H Block} {rel : C -> (list byte -> option Block) -> list (H * Block) -> Prop}.
Context {max_handles : Z} {Hcache : CacheOk cache rel max_handles}.
Context {valid : list byte -> Prop} {o : Options} {Hc : ComparatorOk (opt_comparator o) valid}.
Context {bytes : list byte} {es : list entry} {ly : table_layout} {file : F} {Hfile : contents file = bytes}.
Context {Htf : table_file le (opt_comparator o) (filter_policy o) bytes es ly}.
Context {Hes : Forall (fun e : entry => valid e.1) es} {Hsorted : keys_sorted (opt_comparator o) es}.
Context {Hpolicy : forall p name, filter_policy o = Some (p, name) -> forall k f, valid k -> Z.of_nat (length f) < 2 ^ 32 -> is_Some (@KeyMayMatch p k f)}.

Abbreviation cmp := (opt_comparator o).

(** The id that the table gets has no entries in the cache yet. *)
Definition fresh_id (last : list byte -> option Block) (c : C) : Prop :=
  has_block_cache o = true -> forall off, last (EncodeFixed64 le (CacheNewId c).1 ++ EncodeFixed64 le off) = None.

(** The entry a search finds, for the state of its caller; [same] says that nothing may be missed. *)
Definition search_result {S} (same : list byte -> list byte -> Prop) (k : list byte) (saver : list byte -> list byte -> S -> S) (arg arg' : S) : Prop :=
  match seek_pos cmp k es with
  | None => arg' = arg
  | Some n => exists e, es !! n = Some e /\ (arg' = arg \/ arg' = saver e.1 e.2 arg) /\ (same k e.1 -> arg' = saver e.1 e.2 arg)
  end.

(** Everything that a table does once it has been opened. *)
Definition table_reads (same : list byte -> list byte -> Prop) (options : ReadOptions) (t : Table (F := F)) (c : C) : Prop :=
  (exists it at_pos, NewTableIterator le t c = Some it /\ at_pos it None /\ IteratorOk (table_iterator le t options) cmp valid es at_pos) /\
  (forall S k (saver : list byte -> list byte -> S -> S) arg, valid k ->
     exists arg' c', InternalGet le t options k saver arg c = Some (OK, arg', c') /\ search_result same k saver arg arg') /\
  (forall k, valid k -> exists off, ApproximateOffsetOf le t k = Some off /\ 0 <= off <= Z.of_nat (length bytes)).

Lemma table_opens (same : list byte -> list byte -> Prop) options c0 last out :
  rel c0 last out -> Z.of_nat (length out) + 2 <= max_handles -> fresh_id last c0 ->
  (forall k n e, valid k -> seek_pos cmp k es = Some n -> es !! n = Some e -> same k e.1 -> sees (o := o) (ly := ly) k e.1) ->
  exists t c1, Open le o file (Z.of_nat (length bytes)) c0 = Some (OK, Some t, c1) /\ table_reads same options t c1.
Proof using All.
  intros Hrel Hout Hfresh Hsame. destruct (Open_spec (Hraf := Hraf) (Hfile := Hfile) (Htf := Htf) c0) as (t & E & Hopen & Eid).
  assert (held (le := le) (rel := rel) (o := o) (ly := ly) (t := t) (rest := out) (keep := fun _ _ => True) [] (if has_block_cache o then (CacheNewId c0).2 else c0)) as Hh.
  { exists last, []. split; [destruct (has_block_cache o); [by apply (cache_id_ok (rel := rel))|done]|]. split; [|by split].
    intros Ho b v _ Ev. unfold cache_key in Ev. by rewrite Eid, Ho, Hfresh in Ev. }
  eexists t, _. split; [exact E|]. split; [|split].
  - destruct (table_iterator_new (Hraf := Hraf) (Hcache := Hcache) (Hrest := Hout) (Hc := Hc) (Hfile := Hfile) (Htf := Htf) (Hes := Hes) (Hsorted := Hsorted)
      (Hopen := Hopen) (options := options) _ Hh) as (it & Eit & Hit).
    eexists it, _. split; [exact Eit|]. split; [exact Hit|].
    exact (table_iterator_ok (Hraf := Hraf) (Hcache := Hcache) (Hrest := Hout) (Hc := Hc) (Hfile := Hfile) (Htf := Htf) (Hes := Hes) (Hsorted := Hsorted) (Hopen := Hopen)).
  - intros S k saver arg Hk. destruct (InternalGet_spec (Hraf := Hraf) (Hcache := Hcache) (Hrest := Hout) (Hc := Hc) (Hfile := Hfile) (Htf := Htf) (Hes := Hes) (Hsorted := Hsorted)
      (Hopen := Hopen) (options := options) (Hpolicy := Hpolicy) k saver arg [] _ Hk (Nat.le_0_l 1) Hh) as (arg' & c' & Eg & _ & Hf).
    exists arg', c'. split; [exact Eg|]. unfold search_result, found in *. destruct (seek_pos cmp k es) as [n|] eqn:En; [|done].
    destruct Hf as (e & Ee & Hor & Hsee). exists e. split; [done|]. split; [done|]. intros Hs. by apply Hsee, (Hsame k n).
  - intros k Hk. rewrite (ApproximateOffsetOf_spec (Hrest := Hout) (Hc := Hc) (Htf := Htf) (Hes := Hes) (Hsorted := Hsorted) (Hopen := Hopen) k Hk).
    eexists. split; [done|]. destruct (seek_pos cmp k _) as [j|].
    + destruct (ly_blocks ly !! j) as [b|] eqn:Eb; [|lia]. pose proof (placed_size bytes b.1 (proj1 (block_placed (Htf := Htf) b (block_in j b Eb)))). lia.
    + pose proof (placed_size bytes _ (proj1 (tf_meta _ _ _ _ _ _ Htf))). lia.
Qed.
End Correct.

(** ** Tables with internal keys *)

Definition same_user_key (k x : list byte) : Prop := exists u, ExtractUserKey k = Some u /\ ExtractUserKey x = Some u.

Section Internal.
Context {le : bool} {snappy : Snappy}.
Context {user : Comparator} {uvalid : list byte -> Prop} {Huser : ComparatorOk user uvalid}.
Context {o : Options} {Hcmp : opt_comparator o = InternalKeyComparator le user}.
Context {Hinternal : forall p name, filter_policy o = Some (p, name) -> exists up, p = InternalFilterPolicy up}.
Context {bytes : list byte} {es : list entry} {ly : table_layout}.
Abbreviation icmp := (InternalKeyComparator le user).
Abbreviation ivalid := (valid_internal (valid := uvalid)).
Context {Htf : table_file le (opt_comparator o) (filter_policy o) bytes es ly}.
Context {Hes : Forall (fun e : entry => ivalid e.1) es} {Hsorted : keys_sorted (opt_comparator o) es}.

#[local] Instance icmp_ok : ComparatorOk (opt_comparator o) ivalid.
Proof. rewrite Hcmp. apply _. Qed.

(** Entries in front of the first one at or past a key are in front of the key. *)
Lemma before_first k n e l : ivalid k -> seek_pos (opt_comparator o) k es = Some n -> es !! n = Some e -> In l es ->
  key_lt (opt_comparator o) l.1 e.1 -> key_lt (opt_comparator o) l.1 k.
Proof using Hes Hsorted Hcmp Huser.
  intros Hk En Ee Hl Hlt. pose proof (seek_pos_spec (opt_comparator o) k es) as Hs. rewrite En in Hs. destruct Hs as (e' & Ee' & _ & Hbefore).
  assert (e' = e) as -> by congruence. pose proof (proj1 (List.Forall_forall _ _) Hes l Hl) as Hvl.
  apply list_elem_of_In, list_elem_of_lookup in Hl as [i Ei]. apply (key_ge_false (valid := ivalid) k l.1 Hk Hvl).
  destruct (Nat.lt_trichotomy i n) as [Hi|[->|Hi]]; [by apply (Hbefore i l)| |]; exfalso.
  - assert (l = e) as -> by congruence. by apply key_lt_irrefl in Hlt.
  - pose proof (Hsorted n i e l Hi Ee Ei) as Hel. by apply (key_lt_not_le e.1 l.1 Hel), key_lt_le.
Qed.

(** A separator of two entries is not between two keys with the same user key that are both behind the first entry, the
    second of them not in front of the second entry. *)
Lemma not_straddled k x l f s : ivalid k -> ivalid x -> ivalid l -> ivalid f -> same_user_key k x ->
  key_lt (opt_comparator o) l f -> @FindShortestSeparator (opt_comparator o) l f = Some s ->
  key_lt (opt_comparator o) l k -> key_le (opt_comparator o) k s -> key_le (opt_comparator o) f x -> key_lt (opt_comparator o) s x -> False.
Proof using Hcmp Huser.
  rewrite Hcmp. intros (uk & nk & -> & Hnk & Hvk) (ux & nx & -> & Hnx & Hvx) Hl Hf (u & Ek & Ex) (y & Ey & Hy) Es Hlk Hks Hfx Hsx.
  rewrite ExtractUserKey_internal in Ek, Ex. assert (ux = uk) as -> by congruence.
  destruct (internal_separator_between (Hok := Huser) l f s y Hl Hf Ey Hy Es) as [->|(tmp & ul & nl & -> & Hvt & -> & Hnl & Hvul & Htu)].
  { by apply (key_lt_not_le (valid := ivalid) l (internal uk nk)) in Hlk. }
  assert (0 <= packed kMaxSequenceNumber 1 < 2 ^ 64) as Hpk by (vm_compute; split; congruence).
  pose proof (internal_le_user uk nk tmp _ Hnk Hpk Hvk Hvt Hks) as H1. pose proof (internal_le_user ul nl uk nx Hnl Hnx Hvul Hvk Hfx) as H2.
  apply (key_lt_not_le tmp ul Htu). by apply (key_le_trans (valid := uvalid) ul uk tmp).
Qed.

(** No key of the index separates a lookup key from the entry it is looking for. *)
Lemma user_key_seen k n e : ivalid k -> seek_pos (opt_comparator o) k es = Some n -> es !! n = Some e -> same_user_key k e.1 ->
  forall ik, In ik (ly_keys ly) -> key_le (opt_comparator o) k ik -> key_le (opt_comparator o) e.1 ik.
Proof using Htf Hes Hsorted Hcmp Huser.
  intros Hk En Ee Hsame ik Hik Hle. pose proof (seek_pos_spec (opt_comparator o) k es) as Hseek. rewrite En in Hseek.
  destruct Hseek as (e' & Ee' & _ & Hbefore). assert (e' = e) as -> by congruence.
  pose proof (proj1 (List.Forall_forall _ _) Hes) as Hv. assert (In e es) as Hin by (by eapply list_elem_of_In, list_elem_of_lookup_2).
  apply list_elem_of_In, list_elem_of_lookup in Hik as [j Ej].
  destruct (key_of_block (Hc := icmp_ok) (Htf := Htf) (Hes := Hes) (Hsorted := Hsorted) j ik Ej) as (b & l & Eb & El & Hvik & Hlle & Hnext).
  destruct (key_total (valid := ivalid) (cmp := @Compare (opt_comparator o)) ik e.1 Hvik (Hv e Hin)) as [Hlt|]; [exfalso|done].
  destruct (entry_block (Htf := Htf) e Hin) as (j' & b' & Eb' & He').
  (* the entry is behind the block of the separator *)
  destruct (decide (j < j')%nat) as [Hj|Hj].
  2:{ destruct (key_in_index (Htf := Htf) j' b' Eb') as (ik' & Eik' & _).
      pose proof (key_below (Hc := icmp_ok) (Htf := Htf) (Hes := Hes) (Hsorted := Hsorted) j' ik' b' e Eik' Eb' He') as Hb.
      apply (key_lt_not_le ik e.1 Hlt). destruct (decide (j' = j)) as [->|Hne]; [by replace ik with ik' by congruence|].
      destruct (key_of_block (Hc := icmp_ok) (Htf := Htf) (Hes := Hes) (Hsorted := Hsorted) j' ik' Eik') as (_ & _ & _ & _ & Hvik' & _).
      apply (key_le_trans (valid := ivalid) e.1 ik' ik); try done; [by apply Hv|]. apply key_lt_le.
      eapply (keys_increase (Hc := icmp_ok) (Htf := Htf) (Hes := Hes) (Hsorted := Hsorted) j' j); [lia|done|done]. }
  destruct (lookup_lt_is_Some_2 (ly_blocks ly) (S j)) as [b1 Eb1]; [apply lookup_lt_Some in Eb'; lia|].
  destruct (block_placed (Htf := Htf) b1 (block_in (S j) b1 Eb1)) as (_ & _ & Hne). destruct (head b1.2) as [f|] eqn:Ef; [|by destruct b1.2].
  pose proof (tf_separators _ _ _ _ _ _ Htf j ik b Ej Eb) as (l' & El' & Hsep). rewrite Eb1 in Hsep. simpl in Hsep. rewrite Ef in Hsep.
  assert (l' = l) as -> by congruence. apply list_elem_of_In, list_elem_of_lookup in He' as [i' Ei'].
  rewrite last_lookup in El. rewrite head_lookup in Ef.
  pose proof (entry_order (Htf := Htf) (Hsorted := Hsorted) j j' b b' _ i' l e Eb Eb' El Ei' ltac:(lia)) as Hle1.
  pose proof (entry_order (Htf := Htf) (Hsorted := Hsorted) j (S j) b b1 _ 0 l f Eb Eb1 El Ef ltac:(lia)) as Hlf.
  assert (key_le (opt_comparator o) f.1 e.1) as Hfe.
  { destruct (decide (S j = j' /\ i' = 0%nat)) as [[<- ->]|Hne'].
    - assert (b1 = b') as -> by congruence. assert (f = e) as -> by congruence. by apply (key_le_refl (valid := ivalid)), Hv.
    - apply key_lt_le. eapply (entry_order (Htf := Htf) (Hsorted := Hsorted) (S j) j'); [exact Eb1|exact Eb'|exact Ef|exact Ei'|lia]. }
  pose proof (block_lookup_valid (Htf := Htf) (Hes := Hes) j b _ l Eb El) as Hvl. pose proof (block_lookup_valid (Htf := Htf) (Hes := Hes) (S j) b1 _ f Eb1 Ef) as Hvf.
  assert (In l es) as Hinl by (eapply (block_entry_in (Htf := Htf) j b l Eb); by eapply list_elem_of_In, list_elem_of_lookup_2).
  assert (key_lt (opt_comparator o) l.1 k) as Hlk by exact (before_first k n e l Hk En Ee Hinl Hle1).
  eapply (not_straddled k e.1 l.1 f.1 ik); try done. by apply Hv.
Qed.
End Internal.

(** ** Building and reading *)

Section RoundTrip.
Context {le : bool} {snappy : Snappy} {Hsnappy : SnappyOk snappy}.
Context {F : Type} {wf : WritableFile F} {contents : F -> list byte} {Hwf : WritableFileOk wf contents}.
Context {G : Type} {raf : RandomAccessFile G} {gcontents : G -> list byte} {Hraf : RandomAccessFileOk raf gcontents}.
Context {C H : Type} {cache : Cache C H Block} {rel : C -> (list byte -> option Block) -> list (H * Block) -> Prop}.
Context {max_handles : Z} {Hcache : CacheOk cache rel max_handles}.
Context {valid : list byte -> Prop} {o : Options} {Hc : ComparatorOk (opt_comparator o) valid}.
Context {Hinterval : 1 <= opt_block_restart_interval o}.
Context {limit per_key : Z} {Hlimit : 0 <= limit} {Hper_key : 0 <= per_key}.
Context {Hpolicy : forall p name, filter_policy o = Some (p, name) -> FilterPolicyOk p valid limit /\ FilterPolicyBounds p valid per_key}.
Context {es : list entry} {Hes : Forall (fun e : entry => valid e.1) es} {Hsorted : keys_sorted (opt_comparator o) es}.
Context {Hfits : table_fits (o := o) (limit := limit) (per_key := per_key) es}.

Abbreviation cmp := (opt_comparator o).

Lemma entry_weight (e : entry) l : In e l -> (length e.1 + length e.2 <= weight l)%nat.
Proof. induction l as [|x l IH]; simpl; [done|]. intros [->|Hin]; [lia|]. specialize (IH Hin). lia. Qed.

Lemma all_fit : Forall (entry_fits (valid := valid)) es.
Proof using Hes Hfits Hper_key.
  apply List.Forall_forall. intros e He. rewrite List.Forall_forall in Hes. destruct Hfits as [Hs _].
  pose proof (entry_weight e es He). pose proof (filter_bytes_nonneg (Hper_key := Hper_key) (o := o) (length es)).
  pose proof (name_bytes_nonneg (o := o)). split; [by apply Hes|]. lia.
Qed.

(** The calls that build the table. *)
Lemma table_calls (f : F) : contents f = [] ->
  exists r0 r1 r2 ly, new_TableBuilder o f = Some r0 /\ tb_AddAll (le := le) es r0 = Some r1 /\ tb_Finish le r1 = Some (OK, r2) /\ closed r2 = true /\
    FileSize r2 = Z.of_nat (length (contents (tb_file r2))) /\ table_file le cmp (filter_policy o) (contents (tb_file r2)) es ly.
Proof using Hsnappy Hwf Hc Hinterval Hlimit Hper_key Hpolicy Hes Hsorted Hfits.
  intros Ef. destruct (builder_state_new (Hinterval := Hinterval) (Hlimit := Hlimit) (Hper_key := Hper_key) (Hpolicy := Hpolicy) f Ef) as (r0 & E0 & H0' & _).
  pose proof Hfits as [Hs Hl]. pose proof (filter_bytes_nonneg (Hper_key := Hper_key) (o := o) (length es)). pose proof (name_bytes_nonneg (o := o)).
  destruct (tb_AddAll_spec (le := le) (Hwf := Hwf) (Hsnappy := Hsnappy) (Hc := Hc) (Hinterval := Hinterval) (Hlimit := Hlimit) (Hper_key := Hper_key)
    (Hpolicy := Hpolicy) es r0 [] [] [] H0' all_fit Hsorted) as (r1 & blocks & keys & cur & E1 & Hst & Ea); [simpl; lia|done|].
  destruct (tb_Finish_spec (le := le) (Hwf := Hwf) (Hsnappy := Hsnappy) (Hc := Hc) (Hinterval := Hinterval) (Hlimit := Hlimit) (Hper_key := Hper_key)
    (Hpolicy := Hpolicy) r1 blocks keys cur es Hst Ea Hfits) as (r2 & ly & E2 & Htf & Ec & Ez).
  by exists r0, r1, r2, ly.
Qed.

Lemma table_built (f : F) : contents f = [] ->
  exists r0 r1 r2 ly, new_TableBuilder o f = Some r0 /\ tb_AddAll (le := le) es r0 = Some r1 /\ tb_Finish le r1 = Some (OK, r2) /\
    FileSize r2 = Z.of_nat (length (contents (tb_file r2))) /\ table_file le cmp (filter_policy o) (contents (tb_file r2)) es ly.
Proof using All. intros Ef. destruct (table_calls f Ef) as (r0 & r1 & r2 & ly & E0 & E1 & E2 & _ & Ez & Htf). by exists r0, r1, r2, ly. Qed.

(** A sorted list has a key at the place where it is searched. *)
Lemma seek_present k v : In (k, v) es -> exists n, seek_pos cmp k es = Some n /\ es !! n = Some (k, v).
Proof using Hc Hes Hsorted.
  intros Hin. pose proof (proj1 (List.Forall_forall _ _) Hes) as Hv. pose proof (Hv _ Hin) as Hk. simpl in Hk.
  apply list_elem_of_In, list_elem_of_lookup in Hin as [i Ei]. pose proof (seek_pos_spec cmp k es) as Hs.
  destruct (seek_pos cmp k es) as [n|].
  - exists n. split; [done|]. destruct Hs as (e & Ee & Hge & Hbefore). assert (n = i) as ->; [|done].
    pose proof (Hv e ltac:(by eapply list_elem_of_In, list_elem_of_lookup_2)) as Hve. apply (key_ge_true (valid := valid) k e.1 Hk Hve) in Hge.
    destruct (Nat.lt_trichotomy n i) as [Hlt|[->|Hlt]]; [|done|].
    + exfalso. pose proof (Hsorted n i e (k, v) Hlt Ee Ei) as Hltk. by apply (key_lt_not_le e.1 k).
    + pose proof (Hbefore i (k, v) Hlt Ei) as Hb. apply (key_ge_false (valid := valid) k k Hk Hk) in Hb. by apply key_lt_irrefl in Hb.
  - specialize (Hs (k, v) ltac:(by eapply list_elem_of_In, list_elem_of_lookup_2)). simpl in Hs.
    apply (key_ge_false (valid := valid) k k Hk Hk) in Hs. by apply key_lt_irrefl in Hs.
Qed.

Lemma total_policy p name : filter_policy o = Some (p, name) -> forall k f, valid k -> Z.of_nat (length f) < 2 ^ 32 -> is_Some (@KeyMayMatch p k f).
Proof using Hpolicy. intros Ep k f. destruct (Hpolicy p name Ep) as [_ Hb]. by apply (filter_total (FilterPolicyBounds := Hb)). Qed.

Lemma roundtrip_same (same : list byte -> list byte -> Prop) (f : F) (options : ReadOptions) : contents f = [] ->
  (forall bytes ly k n e, table_file le cmp (filter_policy o) bytes es ly -> valid k -> seek_pos cmp k es = Some n -> es !! n = Some e -> same k e.1 ->
     sees (o := o) (ly := ly) k e.1) ->
  exists r0 r1 r2, new_TableBuilder o f = Some r0 /\ tb_AddAll (le := le) es r0 = Some r1 /\ tb_Finish le r1 = Some (OK, r2) /\
    FileSize r2 = Z.of_nat (length (contents (tb_file r2))) /\
    forall g c0 last out, gcontents g = contents (tb_file r2) -> rel c0 last out -> Z.of_nat (length out) + 2 <= max_handles -> fresh_id (le := le) (o := o) last c0 ->
      exists t c1, Open le o g (FileSize r2) c0 = Some (OK, Some t, c1) /\
        table_reads (le := le) (valid := valid) (o := o) (bytes := contents (tb_file r2)) (es := es) same options t c1.
Proof using All.
  intros Ef Hsame. destruct (table_built f Ef) as (r0 & r1 & r2 & ly & E0 & E1 & E2 & Ez & Htf). exists r0, r1, r2.
  split; [done|]. split; [done|]. split; [done|]. split; [done|]. intros g c0 last out Eg Hrel Hout Hfresh. rewrite Ez.
  apply (table_opens (Hraf := Hraf) (Hcache := Hcache) (Hc := Hc) (Hfile := Eg) (Htf := Htf) (Hes := Hes) (Hsorted := Hsorted) (Hpolicy := total_policy)
    same options c0 last out Hrel Hout Hfresh).
  intros k n e Hk En Ee Hs. by apply (Hsame _ ly k n e Htf).
Qed.

(** C3. A table built from sorted entries, whatever the block size, the restart interval, the
    compression and the filter policy, is read as those entries: [Finish] succeeds, [FileSize] is the size of the file,
    the table opens, its iterator is an iterator over exactly the entries for every way of moving it, and a lookup gives
    every key its value; offsets stay in the file. The blocks may come from the file or from any cache that keeps its
    contract and has not used the table's id. *)
Theorem table_roundtrip (f : F) (options : ReadOptions) : contents f = [] ->
  exists r0 r1 r2, new_TableBuilder o f = Some r0 /\ tb_AddAll (le := le) es r0 = Some r1 /\ tb_Finish le r1 = Some (OK, r2) /\
    FileSize r2 = Z.of_nat (length (contents (tb_file r2))) /\
    forall g c0 last out, gcontents g = contents (tb_file r2) -> rel c0 last out -> Z.of_nat (length out) + 2 <= max_handles -> fresh_id (le := le) (o := o) last c0 ->
      exists t c1, Open le o g (FileSize r2) c0 = Some (OK, Some t, c1) /\
        table_reads (le := le) (valid := valid) (o := o) (bytes := contents (tb_file r2)) (es := es) eq options t c1 /\
        forall k v S (saver : list byte -> list byte -> S -> S) arg, In (k, v) es ->
          exists c', InternalGet le t options k saver arg c1 = Some (OK, saver k v arg, c').
Proof using All.
  intros Ef. destruct (roundtrip_same eq f options Ef) as (r0 & r1 & r2 & E0 & E1 & E2 & Ez & Hr); [by intros ????? _ _ _ _ ->|].
  exists r0, r1, r2. split; [done|]. split; [done|]. split; [done|]. split; [done|]. intros g c0 last out Eg Hrel Hout Hfresh.
  destruct (Hr g c0 last out Eg Hrel Hout Hfresh) as (t & c1 & Eo & Hreads). exists t, c1. split; [done|]. split; [done|].
  intros k v S saver arg Hin. destruct Hreads as (_ & Hget & _).
  assert (valid k) as Hk by (rewrite List.Forall_forall in Hes; exact (Hes (k, v) Hin)).
  destruct (Hget S k saver arg Hk) as (arg' & c' & E & Hs). exists c'. rewrite E. destruct (seek_present k v Hin) as (n & En & Een).
  unfold search_result in Hs. rewrite En in Hs. destruct Hs as (e & Ee & _ & Hsame). assert (e = (k, v)) as -> by congruence. by rewrite Hsame.
Qed.
End RoundTrip.

(** C4. In a table of internal keys, with the internal comparator over any lawful user comparator and
    the internal filter policy, a lookup gives its caller the first entry at or past the lookup key whenever that entry has
    the user key that is looked for: no separator in the index and no filter hides it. *)
Theorem internal_table_get {le : bool} {snappy : Snappy} {F G C H : Type} {wf : WritableFile F} {raf : RandomAccessFile G} {cache : Cache C H Block}
    (contents : F -> list byte) (gcontents : G -> list byte) (rel : C -> (list byte -> option Block) -> list (H * Block) -> Prop)
    (user : Comparator) (uvalid : list byte -> Prop) (o : Options) (limit per_key max_handles : Z) (es : list entry) (f : F) (options : ReadOptions) :
  SnappyOk snappy -> WritableFileOk wf contents -> RandomAccessFileOk raf gcontents -> CacheOk cache rel max_handles -> ComparatorOk user uvalid ->
  opt_comparator o = InternalKeyComparator le user ->
  (forall p name, filter_policy o = Some (p, name) -> (exists up, p = InternalFilterPolicy up) /\
     FilterPolicyOk p (valid_internal (valid := uvalid)) limit /\ FilterPolicyBounds p (valid_internal (valid := uvalid)) per_key) ->
  1 <= opt_block_restart_interval o -> 0 <= limit -> 0 <= per_key ->
  Forall (fun e : entry => valid_internal (valid := uvalid) e.1) es -> keys_sorted (opt_comparator o) es ->
  table_fits (o := o) (limit := limit) (per_key := per_key) es -> contents f = [] ->
  exists r0 r1 r2, new_TableBuilder o f = Some r0 /\ tb_AddAll (le := le) es r0 = Some r1 /\ tb_Finish le r1 = Some (OK, r2) /\
    forall g c0 last out, gcontents g = contents (tb_file r2) -> rel c0 last out -> Z.of_nat (length out) + 2 <= max_handles -> fresh_id (le := le) (o := o) last c0 ->
      exists t c1, Open le o g (FileSize r2) c0 = Some (OK, Some t, c1) /\
        forall S k (saver : list byte -> list byte -> S -> S) arg, valid_internal (valid := uvalid) k ->
          exists arg' c', InternalGet le t options k saver arg c1 = Some (OK, arg', c') /\
            search_result (o := o) (es := es) same_user_key k saver arg arg'.
Proof.
  intros Hsn Hwf Hraf Hcache Huser Hcmp Hpol Hint Hlim Hper Hes Hsorted Hfits Ef.
  assert (ComparatorOk (opt_comparator o) (valid_internal (valid := uvalid))) as Hc by (rewrite Hcmp; apply _).
  assert (forall p name, filter_policy o = Some (p, name) -> FilterPolicyOk p (valid_internal (valid := uvalid)) limit /\
    FilterPolicyBounds p (valid_internal (valid := uvalid)) per_key) as Hpol' by (intros p name Ep; by apply (Hpol p name Ep)).
  destruct (roundtrip_same (le := le) (Hsnappy := Hsn) (Hwf := Hwf) (Hraf := Hraf) (Hcache := Hcache) (Hc := Hc) (Hinterval := Hint) (Hlimit := Hlim)
    (Hper_key := Hper) (Hpolicy := Hpol') (Hes := Hes) (Hsorted := Hsorted) (Hfits := Hfits) same_user_key f options Ef)
    as (r0 & r1 & r2 & E0 & E1 & E2 & _ & Hr).
  - intros bytes ly k n e Htf Hk En Ee Hs. split.
    + by apply (user_key_seen (Huser := Huser) (Hcmp := Hcmp) (Htf := Htf) (Hes := Hes) (Hsorted := Hsorted) k n e).
    + intros p name fl Ep. destruct (Hpol p name Ep) as [[up ->] _]. destruct Hs as (u & Ek & Ex). simpl. by rewrite Ek, Ex.
  - exists r0, r1, r2. split; [done|]. split; [done|]. split; [done|]. intros g c0 last out Eg Hrel Hout Hfresh.
    destruct (Hr g c0 last out Eg Hrel Hout Hfresh) as (t & c1 & Eo & _ & Hget & _). by exists t, c1.
Qed.
