(* ===== verification/DbIter.v ===== *)
(** * The iterator of a database: db/db_iter.cc

    Entries with sequence numbers and deletion markers become user keys with
    their values.  The internal iterator is any iterator over internal keys; the
    database is told of every megabyte or so that is read.  [None] is a failed
    assertion or a loop that ran out of fuel. *)
From S2P Require Import Prelude Coding Comparator DbFormat Status Iter SkipList.

(** db/dbformat.h *)
Definition kReadBytesPeriod : Z := 1048576.

(** [DBImpl::RecordReadSample]. *)
Class ReadSampler (D : Type) := { RecordReadSample : list byte -> D -> D }.

Inductive Direction := kForward | kReverse.

Section DbIter.
Context (kLittleEndian : bool) (user_comparator_ : Comparator) {I D : Type} {it : Iterator I} {sampler : ReadSampler D}.

Record DBIter := MkDBIter {
  db_ : D;
  iter_ : I;
  sequence_ : Z;
  dbi_status_ : Status;
  saved_key_ : list byte;
  saved_value_ : list byte;
  direction_ : Direction;
  valid_ : bool;
  rnd_ : Z;
  bytes_counter_ : Z;   (* ssize_t *)
}.

Definition set_iter (i : I) (t : DBIter) : DBIter :=
  MkDBIter (db_ t) i (sequence_ t) (dbi_status_ t) (saved_key_ t) (saved_value_ t) (direction_ t) (valid_ t) (rnd_ t) (bytes_counter_ t).
Definition set_status (s : Status) (t : DBIter) : DBIter :=
  MkDBIter (db_ t) (iter_ t) (sequence_ t) s (saved_key_ t) (saved_value_ t) (direction_ t) (valid_ t) (rnd_ t) (bytes_counter_ t).
Definition set_saved_key (k : list byte) (t : DBIter) : DBIter :=
  MkDBIter (db_ t) (iter_ t) (sequence_ t) (dbi_status_ t) k (saved_value_ t) (direction_ t) (valid_ t) (rnd_ t) (bytes_counter_ t).
Definition set_saved_value (v : list byte) (t : DBIter) : DBIter :=
  MkDBIter (db_ t) (iter_ t) (sequence_ t) (dbi_status_ t) (saved_key_ t) v (direction_ t) (valid_ t) (rnd_ t) (bytes_counter_ t).
Definition set_direction (d : Direction) (t : DBIter) : DBIter :=
  MkDBIter (db_ t) (iter_ t) (sequence_ t) (dbi_status_ t) (saved_key_ t) (saved_value_ t) d (valid_ t) (rnd_ t) (bytes_counter_ t).
Definition set_valid (b : bool) (t : DBIter) : DBIter :=
  MkDBIter (db_ t) (iter_ t) (sequence_ t) (dbi_status_ t) (saved_key_ t) (saved_value_ t) (direction_ t) b (rnd_ t) (bytes_counter_ t).
Definition set_sampling (d : D) (rnd counter : Z) (t : DBIter) : DBIter :=
  MkDBIter d (iter_ t) (sequence_ t) (dbi_status_ t) (saved_key_ t) (saved_value_ t) (direction_ t) (valid_ t) rnd counter.

(** The random number and the new seed. *)
Definition RandomPeriod (rnd : Z) : Z * Z := Uniform (2 * kReadBytesPeriod) rnd.

Definition new_DBIter (db : D) (iter : I) (s seed : Z) : DBIter :=
  let '(period, rnd) := RandomPeriod (new_Random seed) in
  MkDBIter db iter s OK [] [] kForward false rnd period.

(** An operation of the internal iterator. *)
Definition on_iter_ (op : I -> option I) (t : DBIter) : option DBIter := i ← op (iter_ t); Some (set_iter i t).

(** Whatever the capacity of the string, it is empty afterwards. *)
Definition ClearSavedValue (t : DBIter) : DBIter := set_saved_value [] t.

(** [while (bytes_counter_ < 0)] *)
Fixpoint sample_loop (fuel : nat) (k : list byte) (counter rnd : Z) (db : D) : option (Z * Z * D) :=
  if counter <? 0 then
    match fuel with
    | O => None
    | S fuel' => let '(period, rnd) := RandomPeriod rnd in sample_loop fuel' k (s64 (counter + period)) rnd (RecordReadSample k db)
    end
  else Some (counter, rnd, db).

Definition DBIterCorruption (msg : string) : Status := default OK (new_Status kLittleEndian kCorruption (bytes_of msg) []).

(** The parsed key, or [None] when the key is corrupted.  Two draws in a row are not both 0, which bounds the loop. *)
Definition ParseKey (t : DBIter) : option (option ParsedInternalKey * DBIter) :=
  k ← key (iter_ t);
  v ← value (iter_ t);
  let n := (length k + length v)%nat in
  '(counter, rnd, db) ← sample_loop (2 * n) k (s64 (bytes_counter_ t - s64 (Z.of_nat n))) (rnd_ t) (db_ t);
  let t := set_sampling db rnd counter t in
  '(ok, ikey) ← ParseInternalKey kLittleEndian k (Parsed [] 0 0);
  if (ok : bool) then Some (Some ikey, t) else Some (None, set_status (DBIterCorruption "corrupted internal key in DBIter") t).

(** One round of the loop of [FindNextUserEntry], up to [iter_->Next()]: whether the entry is yielded, and [skipping].
    Both callers pass [saved_key_] for [skip]. *)
Definition next_round (skipping : bool) (t : DBIter) : option (bool * bool * DBIter) :=
  '(p, t) ← ParseKey t;
  match p with
  | Some ikey =>
      if sequence ikey <=? sequence_ t then
        if vtype ikey =? kTypeDeletion then Some (false, true, set_saved_key (user_key ikey) t)
        else if vtype ikey =? kTypeValue then
          hidden ← (if skipping then r ← @Compare user_comparator_ (user_key ikey) (saved_key_ t); Some (r <=? 0) else Some false);
          if (hidden : bool) then Some (false, skipping, t) else Some (true, skipping, set_saved_key [] (set_valid true t))
        else Some (false, skipping, t)
      else Some (false, skipping, t)
  | None => Some (false, skipping, t)
  end.

Fixpoint next_loop (fuel : nat) (skipping : bool) (t : DBIter) : option DBIter :=
  '(found, skipping, t) ← next_round skipping t;
  if (found : bool) then Some t
  else
    t ← on_iter_ Next t;
    if Valid (iter_ t) then match fuel with O => None | S fuel' => next_loop fuel' skipping t end
    else Some (set_valid false (set_saved_key [] t)).

Definition FindNextUserEntry (fuel : nat) (skipping : bool) (t : DBIter) : option DBIter :=
  if negb (Valid (iter_ t)) then None
  else match direction_ t with kReverse => None | kForward => next_loop fuel skipping t end.

Definition dbi_Next (fuel : nat) (t : DBIter) : option DBIter :=
  if negb (valid_ t) then None
  else
    match direction_ t with
    | kReverse =>
        let t := set_direction kForward t in
        t ← on_iter_ (if negb (Valid (iter_ t)) then SeekToFirst else Next) t;
        if negb (Valid (iter_ t)) then Some (set_saved_key [] (set_valid false t)) else FindNextUserEntry fuel true t
    | kForward =>
        k ← key (iter_ t);
        u ← ExtractUserKey k;
        FindNextUserEntry fuel true (set_saved_key u t)
    end.

(** The version that the internal iterator is at takes the place of the older ones. *)
Definition keep_version (ikey : ParsedInternalKey) (t : DBIter) : option DBIter :=
  if vtype ikey =? kTypeDeletion then Some (ClearSavedValue (set_saved_key [] t))
  else
    k ← key (iter_ t);
    v ← value (iter_ t);
    u ← ExtractUserKey k;
    Some (set_saved_value v (set_saved_key u t)).

(** One round of the loop of [FindPrevUserEntry], up to [iter_->Prev()]: whether it breaks, and [value_type]. *)
Definition prev_round (value_type : Z) (t : DBIter) : option (bool * Z * DBIter) :=
  '(p, t) ← ParseKey t;
  match p with
  | Some ikey =>
      if sequence ikey <=? sequence_ t then
        break ← (if negb (value_type =? kTypeDeletion) then r ← @Compare user_comparator_ (user_key ikey) (saved_key_ t); Some (r <? 0) else Some false);
        if (break : bool) then Some (true, value_type, t) else t ← keep_version ikey t; Some (false, vtype ikey, t)
      else Some (false, value_type, t)
  | None => Some (false, value_type, t)
  end.

Fixpoint prev_loop (fuel : nat) (value_type : Z) (t : DBIter) : option (Z * DBIter) :=
  '(break, value_type, t) ← prev_round value_type t;
  if (break : bool) then Some (value_type, t)
  else
    t ← on_iter_ Prev t;
    if Valid (iter_ t) then match fuel with O => None | S fuel' => prev_loop fuel' value_type t end
    else Some (value_type, t).

Definition FindPrevUserEntry (fuel : nat) (t : DBIter) : option DBIter :=
  match direction_ t with
  | kForward => None
  | kReverse =>
      '(value_type, t) ← (if Valid (iter_ t) then prev_loop fuel kTypeDeletion t else Some (kTypeDeletion, t));
      if value_type =? kTypeDeletion then Some (set_direction kForward (ClearSavedValue (set_saved_key [] (set_valid false t))))
      else Some (set_valid true t)
  end.

(** Back to the last entry with a user key before [saved_key_]; whether there is one. *)
Fixpoint scan_back (fuel : nat) (t : DBIter) : option (bool * DBIter) :=
  t ← on_iter_ Prev t;
  if negb (Valid (iter_ t)) then Some (false, ClearSavedValue (set_saved_key [] (set_valid false t)))
  else
    k ← key (iter_ t);
    u ← ExtractUserKey k;
    r ← @Compare user_comparator_ u (saved_key_ t);
    if r <? 0 then Some (true, t) else match fuel with O => None | S fuel' => scan_back fuel' t end.

Definition dbi_Prev (fuel : nat) (t : DBIter) : option DBIter :=
  if negb (valid_ t) then None
  else
    match direction_ t with
    | kForward =>
        if negb (Valid (iter_ t)) then None
        else
          k ← key (iter_ t);
          u ← ExtractUserKey k;
          '(more, t) ← scan_back fuel (set_saved_key u t);
          if (more : bool) then FindPrevUserEntry fuel (set_direction kReverse t) else Some t
    | kReverse => FindPrevUserEntry fuel t
    end.

(** After a seek of the internal iterator. *)
Definition seek_forward (fuel : nat) (t : DBIter) : option DBIter :=
  if Valid (iter_ t) then FindNextUserEntry fuel false t else Some (set_valid false t).

Definition dbi_Seek (fuel : nat) (target : list byte) (t : DBIter) : option DBIter :=
  let t := set_saved_key [] (ClearSavedValue (set_direction kForward t)) in
  k ← AppendInternalKey kLittleEndian (saved_key_ t) (Parsed target (sequence_ t) kValueTypeForSeek);
  let t := set_saved_key k t in
  t ← on_iter_ (Seek (saved_key_ t)) t;
  seek_forward fuel t.

Definition dbi_SeekToFirst (fuel : nat) (t : DBIter) : option DBIter :=
  let t := ClearSavedValue (set_direction kForward t) in
  t ← on_iter_ SeekToFirst t;
  seek_forward fuel t.

Definition dbi_SeekToLast (fuel : nat) (t : DBIter) : option DBIter :=
  let t := ClearSavedValue (set_direction kReverse t) in
  t ← on_iter_ SeekToLast t;
  FindPrevUserEntry fuel t.

Definition dbi_key (t : DBIter) : option (list byte) :=
  if valid_ t then match direction_ t with kForward => k ← key (iter_ t); ExtractUserKey k | kReverse => Some (saved_key_ t) end else None.

Definition dbi_value (t : DBIter) : option (list byte) :=
  if valid_ t then match direction_ t with kForward => value (iter_ t) | kReverse => Some (saved_value_ t) end else None.

Definition dbi_status (t : DBIter) : Status := if ok (dbi_status_ t) then status (iter_ t) else dbi_status_ t.

Definition DBIter_iterator (fuel : nat) : Iterator DBIter := {|
  Valid := valid_;
  SeekToFirst := dbi_SeekToFirst fuel;
  SeekToLast := dbi_SeekToLast fuel;
  Seek := dbi_Seek fuel;
  Next := dbi_Next fuel;
  Prev := dbi_Prev fuel;
  key := dbi_key;
  value := dbi_value;
  status := dbi_status;
|}.

Definition NewDBIterator (db : D) (internal_iter : I) (sequence seed : Z) : DBIter := new_DBIter db internal_iter sequence seed.
End DbIter.
