(* ===== verification/DbIterProps.v ===== *)
(** * The iterator of a database shows the newest versions

    Over any iterator of internal keys, [DBIter] is an iterator over the user
    keys whose newest version that the snapshot sees is a value. *)
From S2P Require Import Prelude Coding Comparator DbFormat DbFormatProps Status Iter SkipList DbIter.

(** ** Sampling *)

(** Two random periods in a row are not both zero. *)
Lemma two_periods rnd : good_seed rnd -> RandomNext rnd mod 2 ^ 21 = 0 -> RandomNext (RandomNext rnd) mod 2 ^ 21 <> 0.
Proof.
  intros Hr E. destruct (RandomNext_mod rnd Hr) as [_ Hy]. destruct (RandomNext_mod _ Hy) as [-> _]. set (y := RandomNext rnd) in *.
  destruct Hy as [Hy1 Hy2]. unfold random_M, random_A in *. pose proof (Z.div_mod y (2 ^ 21) ltac:(lia)) as Hdiv. rewrite E in Hdiv. set (k := y / 2 ^ 21) in *.
  assert (1 <= k < 1024) as Hk by lia. set (z := k * 16807). pose proof (Z.div_mod z 1024 ltac:(lia)) as Hz. pose proof (Z.mod_pos_bound z 1024 ltac:(lia)) as Hb.
  assert (z / 1024 < 2 ^ 15) as Ha by (apply Z.div_lt_upper_bound; lia). assert (1 <= z / 1024) as Ha1 by (apply Z.div_le_lower_bound; lia).
  assert ((y * 16807) mod 2147483647 = z / 1024 + z mod 1024 * 2 ^ 21) as ->.
  { symmetry. apply Z.mod_unique_pos with (z / 1024); lia. }
  rewrite Z.mod_add by lia. rewrite Z.mod_small; lia.
Qed.

Section Sampling.
Context {D : Type} {sampler : ReadSampler D}.

Lemma sample_loop_done fuel k c rnd (db : D) : 0 <= c -> sample_loop fuel k c rnd db = Some (c, rnd, db).
Proof. intros Hc. destruct fuel; simpl; by destruct (Z.ltb_spec c 0); [lia|]. Qed.

Lemma sample_loop_spec k : forall n c rnd (db : D), good_seed rnd -> - Z.of_nat n <= c < 2 ^ 21 -> Z.of_nat n < 2 ^ 62 ->
  exists c' rnd' db', sample_loop (2 * n) k c rnd db = Some (c', rnd', db') /\ 0 <= c' < 2 ^ 21 /\ good_seed rnd'.
Proof.
  induction n as [|n IH]; intros c rnd db Hr Hc Hn.
  - rewrite sample_loop_done by lia. exists c, rnd, db. split; [done|]. split; [lia|done].
  - destruct (Z.ltb_spec c 0) as [Hneg|Hpos]; [|rewrite sample_loop_done by lia; exists c, rnd, db; split; [done|]; split; [lia|done]].
    replace (2 * S n)%nat with (S (S (2 * n))) by lia. cbn [sample_loop]. destruct (Z.ltb_spec c 0); [|lia].
    unfold RandomPeriod, Uniform, kReadBytesPeriod. change (2 * 1048576) with (2 ^ 21). cbv zeta.
    destruct (RandomNext_mod rnd Hr) as [_ Hr1]. destruct (RandomNext_mod _ Hr1) as [_ Hr2]. pose proof (two_periods rnd Hr) as Htwo.
    pose proof (Z.mod_pos_bound (RandomNext rnd) (2 ^ 21) ltac:(lia)). pose proof (Z.mod_pos_bound (RandomNext (RandomNext rnd)) (2 ^ 21) ltac:(lia)).
    assert (s64 (c + RandomNext rnd mod 2 ^ 21) = c + RandomNext rnd mod 2 ^ 21) as -> by (apply sint_id; lia).
    destruct (Z.ltb_spec (c + RandomNext rnd mod 2 ^ 21) 0) as [Hneg1|].
    + assert (s64 (c + RandomNext rnd mod 2 ^ 21 + RandomNext (RandomNext rnd) mod 2 ^ 21) = c + RandomNext rnd mod 2 ^ 21 + RandomNext (RandomNext rnd) mod 2 ^ 21) as ->
        by (apply sint_id; lia).
      apply IH; [done| |lia]. destruct (decide (RandomNext rnd mod 2 ^ 21 = 0)) as [E|]; [specialize (Htwo E)|]; lia.
    + eexists _, _, _. split; [done|]. split; [lia|done].
Qed.
End Sampling.

(** ** The view of a snapshot *)

Section View.
Context (le : bool) (user : Comparator) (s : Z).

Definition is_lt (a b : list byte) : bool := match @Compare user a b with Some r => r <? 0 | None => false end.

(** No version before it, of those that the snapshot sees, has the same user key. *)
Definition newest (before : list ParsedInternalKey) (p : ParsedInternalKey) : bool :=
  (sequence p <=? s) && forallb (fun q => negb (sequence q <=? s) || is_lt (user_key q) (user_key p)) before.

Definition shown (before : list ParsedInternalKey) (p : ParsedInternalKey) : bool := newest before p && (vtype p =? kTypeValue).

Fixpoint view_from (before : list ParsedInternalKey) (es : list entry) : list entry :=
  match es with
  | [] => []
  | e :: es' =>
      match ParseInternalKey le e.1 (Parsed [] 0 0) with
      | Some (true, p) => let rest := view_from (before ++ [p]) es' in if shown before p then (user_key p, e.2) :: rest else rest
      | _ => view_from before es'
      end
  end.

(** The user keys, with their values, that a reader at sequence number [s] sees in sorted internal entries. *)
Definition user_view (es : list entry) : list entry := view_from [] es.
End View.

(** An internal entry that is not corrupted. *)
Definition parsed_as (uvalid : list byte -> Prop) (e : entry) (p : ParsedInternalKey) : Prop :=
  e.1 = internal (user_key p) (packed (sequence p) (vtype p)) /\ key_ok p /\ uvalid (user_key p) /\ Z.of_nat (length e.1 + length e.2) < 2 ^ 62.

Section Props.
Context {le : bool} {user : Comparator} {uvalid : list byte -> Prop} {Huser : ComparatorOk user uvalid}.
Context {I D : Type} {it : Iterator I} {sampler : ReadSampler D}.
Context {es : list entry} {ps : list ParsedInternalKey} {at_internal : I -> option nat -> Prop}.
Context {s : Z} {Hs : 0 <= s <= kMaxSequenceNumber}.
Context {Hps : Forall2 (parsed_as uvalid) es ps} {Hsorted : keys_sorted (InternalKeyComparator le user) es}.
Context {Hit : IteratorOk it (InternalKeyComparator le user) (valid_internal (valid := uvalid)) es at_internal}.

Abbreviation dbiter := (DBIter (I := I) (D := D)).
Abbreviation lt := (key_lt user).
Abbreviation le_ := (key_le user).

Lemma packed_range p : key_ok p -> 0 <= packed (sequence p) (vtype p) < 2 ^ 64.
Proof. intros [H1 H2]. by apply PackSequenceAndType_packed. Qed.

Lemma parsed_at i p : ps !! i = Some p -> exists e, es !! i = Some e /\ parsed_as uvalid e p.
Proof using Hps. intros E. destruct (Forall2_lookup_r _ _ _ _ _ Hps E) as (e & Ee & H). by exists e. Qed.

Lemma parsed_of i e : es !! i = Some e -> exists p, ps !! i = Some p /\ parsed_as uvalid e p.
Proof using Hps. intros E. destruct (Forall2_lookup_l _ _ _ _ _ Hps E) as (p & Ep & H). by exists p. Qed.

Lemma parsed_valid i p : ps !! i = Some p -> uvalid (user_key p).
Proof using Hps. intros E. by destruct (parsed_at i p E) as (e & _ & _ & _ & ? & _). Qed.

Lemma parse_entry e p : parsed_as uvalid e p -> ParseInternalKey le e.1 (Parsed [] 0 0) = Some (true, p) /\ ExtractUserKey e.1 = Some (user_key p).
Proof.
  intros (Ek & Hok & _). pose proof (packed_range p Hok) as Hr. pose proof Hok as [_ Ht]. unfold kTypeValue in Ht.
  destruct (packed_parts (sequence p) (vtype p) ltac:(lia)) as [E1 E2]. rewrite Ek. split; [|apply ExtractUserKey_internal].
  unfold ParseInternalKey. rewrite length_internal. destruct (Nat.ltb_spec (length (user_key p) + 8) 8); [lia|].
  rewrite ExtractTag_internal by done. cbv zeta. rewrite E1, E2. destruct (Z.leb_spec (vtype p) kTypeValue); [|unfold kTypeValue in *; lia].
  replace (length (user_key p) + 8 - 8)%nat with (length (user_key p)) by lia. unfold internal. rewrite take_app_length. by destruct p.
Qed.

(** User keys do not go down. *)
Lemma users_sorted i j p q : (i < j)%nat -> ps !! i = Some p -> ps !! j = Some q -> le_ (user_key p) (user_key q).
Proof using Hps Hsorted Huser.
  intros Hij Ep Eq. destruct (parsed_at i p Ep) as (e & Ee & Ek & Hok & Hv & _), (parsed_at j q Eq) as (e' & Ee' & Ek' & Hok' & Hv' & _).
  pose proof (Hsorted i j e e' Hij Ee Ee') as Hlt. rewrite Ek, Ek' in Hlt.
  apply (internal_le_user (le := le) (Hok := Huser) _ (packed (sequence p) (vtype p)) _ (packed (sequence q) (vtype q))); try done; [by apply packed_range..|by apply key_lt_le].
Qed.

Lemma users_le i j p q : (i <= j)%nat -> ps !! i = Some p -> ps !! j = Some q -> le_ (user_key p) (user_key q).
Proof using Hps Hsorted Huser.
  intros Hij Ep Eq. destruct (decide (i = j)) as [->|Hne]; [|eapply users_sorted; [|done|done]; lia].
  assert (p = q) as -> by congruence. apply (key_le_refl (valid := uvalid)). by eapply parsed_valid.
Qed.

(** ** Parsing in the loops *)

(** What holds of the iterator wherever it is. *)
Definition steady (t : dbiter) : Prop :=
  sequence_ t = s /\ dbi_status_ t = OK /\ good_seed (rnd_ t) /\ 0 <= bytes_counter_ t < 2 ^ 21.

Lemma ParseKey_spec t i p : steady t -> at_internal (iter_ t) (Some i) -> ps !! i = Some p ->
  exists d r c, ParseKey le t = Some (Some p, set_sampling d r c t) /\ steady (set_sampling d r c t).
Proof using Hps Hit.
  intros (Hseq & Hst & Hr & Hb) Hi Ep. destruct (it_entry (IteratorOk := Hit) (iter_ t) i Hi) as (e & Ee & Ek & Ev). destruct (parsed_at i p Ep) as (e' & Ee' & Hp).
  assert (e' = e) as -> by congruence. unfold ParseKey. rewrite Ek. cbn [mbind option_bind]. rewrite Ev. cbn [mbind option_bind].
  pose proof Hp as (Hk & Hok & Hv & Hl). set (n := (length e.1 + length e.2)%nat) in *.
  assert (s64 (bytes_counter_ t - s64 (Z.of_nat n)) = bytes_counter_ t - Z.of_nat n) as ->.
  { assert (s64 (Z.of_nat n) = Z.of_nat n) as -> by (apply sint_id; lia). apply sint_id; lia. }
  destruct (sample_loop_spec e.1 n (bytes_counter_ t - Z.of_nat n) (rnd_ t) (db_ t) Hr) as (c & r & d & E & Hc & Hr'); [lia|lia|].
  rewrite E. cbn [mbind option_bind]. rewrite (proj1 (parse_entry e p Hp)). cbn [mbind option_bind]. exists d, r, c. by split.
Qed.

(** ** The newest versions *)

(** The entry that the view shows for its user key. *)
Definition head (j : nat) (p : ParsedInternalKey) : Prop :=
  ps !! j = Some p /\ sequence p <= s /\ vtype p = kTypeValue /\
  forall i q, (i < j)%nat -> ps !! i = Some q -> sequence q <= s -> lt (user_key q) (user_key p).

(** What [skipping] does not hide. *)
Definition wanted (skipping : bool) (k : list byte) (p : ParsedInternalKey) : Prop := skipping = true -> lt k (user_key p).

Definition no_head (skipping : bool) (k : list byte) (i j : nat) : Prop := forall x p, (i <= x < j)%nat -> head x p -> ~ wanted skipping k p.

(** Where the loop of [FindNextUserEntry] may be: entries behind may only be hidden by those in front when
    [skipping] says so, and what is behind is not in front of the key to skip. *)
Record may_skip (i : nat) (skipping : bool) (k : list byte) : Prop := {
  ms_valid : skipping = true -> uvalid k;
  ms_hidden j p x q : (j < i <= x)%nat -> ps !! j = Some p -> sequence p <= s -> ps !! x = Some q -> ~ lt (user_key p) (user_key q) ->
    skipping = true /\ le_ (user_key q) k;
  ms_behind x q : skipping = true -> (i <= x)%nat -> ps !! x = Some q -> sequence q <= s -> le_ k (user_key q);
}.

Lemma vtype_cases i p : ps !! i = Some p -> vtype p = kTypeDeletion \/ vtype p = kTypeValue.
Proof using Hps. intros E. destruct (parsed_at i p E) as (e & _ & _ & [_ Ht] & _). unfold kTypeDeletion, kTypeValue in *. lia. Qed.

Lemma head_between i p : ps !! i = Some p -> sequence p <= s -> vtype p = kTypeValue -> (forall j q, (j < i)%nat -> ps !! j = Some q -> sequence q <= s -> lt (user_key q) (user_key p)) ->
  head i p.
Proof. intros. by split_and!. Qed.

Lemma not_lt a b : uvalid a -> uvalid b -> ~ lt a b -> le_ b a.
Proof using Huser. intros Ha Hb Hn. by destruct (key_total (valid := uvalid) (cmp := @Compare user) a b Ha Hb). Qed.

(** An entry that the snapshot does not see. *)
Lemma skip_unseen i p sk k : ps !! i = Some p -> s < sequence p -> may_skip i sk k -> may_skip (S i) sk k /\ ~ head i p.
Proof.
  intros Ep Hp [H1 H2 H3]. split; [|intros (_ & ? & _); lia]. split; [done| |].
  - intros j q x y Hjx Eq Hq. destruct (decide (j = i)) as [->|Hne]; [assert (q = p) as -> by congruence; lia|]. apply (H2 j q); [lia|done|done].
  - intros x q Hsk Hx. apply H3; [done|lia].
Qed.

(** A deletion hides all that has its user key. *)
Lemma skip_deletion i p sk k : ps !! i = Some p -> sequence p <= s -> vtype p = kTypeDeletion -> may_skip i sk k ->
  may_skip (S i) true (user_key p) /\ ~ head i p /\ forall x q, (i < x)%nat -> head x q -> wanted sk k q <-> wanted true (user_key p) q.
Proof using Hps Hsorted Huser.
  intros Ep Hp Ht [H1 H2 H3]. pose proof (parsed_valid i p Ep) as Hvp. split; [|split].
  - split; [done| |].
    + intros j q x y Hjx Eq Hq Ey Hn. split; [done|]. pose proof (parsed_valid _ _ Ey) as Hvy. destruct (decide (j = i)) as [->|Hne].
      * assert (q = p) as -> by congruence. by apply not_lt.
      * destruct (H2 j q x y) as [Hsk Hle]; try done; [lia|]. apply (key_le_trans (valid := uvalid) _ k); try done; [by apply H1|]. by apply (H3 i p).
    + intros x q _ Hx Eq _. by apply (users_le i x); [lia| |].
  - intros (_ & _ & Hv & _). rewrite Ht in Hv. done.
  - intros x q Hx (Eq & Hq & _ & Hfirst). unfold wanted. pose proof (Hfirst i p Hx Ep Hp) as Hlt. split; [done|]. intros _ Hsk.
    apply (key_le_lt_trans (valid := uvalid) k (user_key p)); try done; [by apply H1|by eapply parsed_valid|]. by apply (H3 i p).
Qed.

(** A value that is hidden. *)
Lemma skip_value i p k : ps !! i = Some p -> sequence p <= s -> le_ (user_key p) k -> may_skip i true k -> may_skip (S i) true k /\ ~ wanted true k p.
Proof using Hps Hsorted Huser.
  intros Ep Hp Hle [H1 H2 H3]. pose proof (parsed_valid i p Ep) as Hvp. split; [|intros Hw; by eapply key_lt_not_le; [apply Hw|]]. split; [done| |].
  - intros j q x y Hjx Eq Hq Ey Hn. split; [done|]. pose proof (parsed_valid _ _ Ey) as Hvy. destruct (decide (j = i)) as [->|Hne].
    + assert (q = p) as -> by congruence. apply (key_le_trans (valid := uvalid) _ (user_key p)); try done; [by apply H1|]. by apply not_lt.
    + by apply (H2 j q x y ltac:(lia) Eq Hq Ey Hn).
  - intros x q _ Hx Eq Hq. apply (H3 x q); [done|lia|done|done].
Qed.

(** A value that is not hidden is the newest version of its key. *)
Lemma found_head i p sk k : ps !! i = Some p -> sequence p <= s -> vtype p = kTypeValue -> (sk = true -> lt k (user_key p)) -> may_skip i sk k -> head i p.
Proof using Hps Huser.
  intros Ep Hp Ht Hw [H1 H2 H3]. apply head_between; try done. intros j q Hj Eq Hq.
  destruct (key_total (valid := uvalid) (cmp := @Compare user) (user_key q) (user_key p)) as [Hlt|Hle]; [by eapply parsed_valid..|done|].
  destruct (H2 j q i p) as [Hsk Hle']; try done; [intros Hlt; by eapply key_lt_not_le|]. exfalso. by eapply key_lt_not_le; [apply Hw|].
Qed.

(** ** Forwards *)

(** Where the loop ends: at the first wanted head, or behind everything. *)
Definition forward_result (i : nat) (sk : bool) (k : list byte) (t : dbiter) : Prop :=
  if valid_ t then exists j p, (i <= j)%nat /\ head j p /\ wanted sk k p /\ no_head sk k i j /\ at_internal (iter_ t) (Some j)
  else (exists q, at_internal (iter_ t) q) /\ no_head sk k i (length ps).

Lemma next_round_spec t i p sk : steady t -> at_internal (iter_ t) (Some i) -> ps !! i = Some p -> may_skip i sk (saved_key_ t) ->
  exists found sk' t', next_round le user sk t = Some (found, sk', t') /\ steady t' /\ direction_ t' = direction_ t /\ iter_ t' = iter_ t /\
    if found then head i p /\ wanted sk (saved_key_ t) p /\ valid_ t' = true
    else may_skip (S i) sk' (saved_key_ t') /\ ~ (head i p /\ wanted sk (saved_key_ t) p) /\
      forall x q, (i < x)%nat -> head x q -> wanted sk (saved_key_ t) q <-> wanted sk' (saved_key_ t') q.
Proof using Hps Hsorted Huser Hit.
  intros Ht Hi Ep Hms. destruct (ParseKey_spec t i p Ht Hi Ep) as (d & r & c & E & Ht'). unfold next_round. rewrite E. cbn [mbind option_bind].
  cbn [sequence_ set_sampling]. rewrite (proj1 Ht). destruct (Z.leb_spec (sequence p) s) as [Hp|Hp].
  - destruct (vtype_cases i p Ep) as [Hty|Hty]; rewrite Hty.
    + change (kTypeDeletion =? kTypeDeletion) with true. cbv iota. eexists false, true, _. split; [done|]. split; [done|]. split; [done|]. split; [done|].
      destruct (skip_deletion i p sk (saved_key_ t) Ep Hp Hty Hms) as (H1 & H2 & H3). split; [done|]. split; [by intros [? _]|done].
    + change (kTypeValue =? kTypeDeletion) with false. change (kTypeValue =? kTypeValue) with true. cbv iota. destruct sk; cbn [saved_key_ set_sampling].
      * pose proof (ms_valid _ _ _ Hms eq_refl) as Hvk. pose proof (parsed_valid i p Ep) as Hvp.
        destruct (compare_defined (user_key p) (saved_key_ t) Hvp Hvk) as [x Ex]. rewrite Ex. cbn [mbind option_bind]. destruct (cmp_sign _ _ _ Ex) as [_ Hle].
        destruct (Z.leb_spec x 0) as [Hx|Hx].
        -- eexists false, true, _. split; [done|]. split; [done|]. split; [done|]. split; [done|].
           destruct (skip_value i p (saved_key_ t) Ep Hp) as [H1 H2]; [by apply Hle|done|]. split; [done|]. split; [by intros [_ ?]|done].
        -- assert (lt (saved_key_ t) (user_key p)) as Hlt.
           { destruct (key_total (valid := uvalid) (cmp := @Compare user) (saved_key_ t) (user_key p) Hvk Hvp) as [|Hle']; [done|]. apply Hle in Hle'. lia. }
           eexists true, true, _. split; [done|]. split; [done|]. split; [done|]. split; [done|]. split; [by apply (found_head i p true (saved_key_ t))|split; [by intros _|done]].
      * cbn [mbind option_bind]. eexists true, false, _. split; [done|]. split; [done|]. split; [done|]. split; [done|].
        split; [by apply (found_head i p false (saved_key_ t))|by split].
  - eexists false, sk, _. split; [done|]. split; [done|]. split; [done|]. split; [done|]. destruct (skip_unseen i p sk (saved_key_ t) Ep Hp Hms) as [H1 H2].
    split; [done|]. split; [by intros [? _]|done].
Qed.

Lemma no_head_step sk k sk' k' i j p : ps !! i = Some p -> ~ (head i p /\ wanted sk k p) ->
  (forall x q, (i < x)%nat -> head x q -> wanted sk k q <-> wanted sk' k' q) -> no_head sk' k' (S i) j -> no_head sk k i j.
Proof.
  intros Ep Hi Heq Hn x q Hx Hq Hw. destruct (decide (x = i)) as [->|Hne].
  - apply Hi. destruct Hq as (Eq & Hq). assert (q = p) as -> by congruence. by split.
  - apply (Hn x q); [lia|done|]. apply (Heq x q); [lia|done|done].
Qed.

Lemma valid_internal_iter t q : at_internal (iter_ (t : dbiter)) q -> Valid (iter_ t) = bool_decide (is_Some q).
Proof using Hit. apply (it_valid (IteratorOk := Hit)). Qed.

Lemma length_es : length es = length ps.
Proof using Hps. by eapply Forall2_length. Qed.

Lemma steady_iter i t : steady t -> steady (set_iter i t).
Proof. done. Qed.

Lemma next_loop_spec : forall fuel t i p sk, steady t -> at_internal (iter_ t) (Some i) -> ps !! i = Some p -> may_skip i sk (saved_key_ t) ->
  (length ps <= i + S fuel)%nat ->
  exists t', next_loop le user fuel sk t = Some t' /\ steady t' /\ direction_ t' = direction_ t /\ forward_result i sk (saved_key_ t) t'.
Proof using Hps Hsorted Huser Hit.
  induction fuel as [|fuel IH]; intros t i p sk Ht Hi Ep Hms Hf; cbn [next_loop];
    destruct (next_round_spec t i p sk Ht Hi Ep Hms) as (found & sk' & t1 & -> & Ht1 & Hd1 & Hi1 & Hres); cbn [mbind option_bind]; (destruct found;
      [destruct Hres as (Hh & Hw & Hv); exists t1; split; [done|]; split; [done|]; split; [done|]; unfold forward_result; rewrite Hv;
       exists i, p; split_and!; try done; [intros x q Hx; lia|by rewrite Hi1]|]);
    destruct Hres as (Hms1 & Hno & Heq); unfold on_iter_; rewrite Hi1; destruct (it_next (IteratorOk := Hit) (iter_ t) i Hi) as (it1 & E1 & Hit1); rewrite E1;
    cbn [mbind option_bind iter_ set_iter]; rewrite (it_valid (IteratorOk := Hit) _ _ Hit1); unfold next_pos in *; rewrite length_es in *.
  - rewrite decide_False in * by (apply lookup_lt_Some in Ep; lia). eexists. split; [done|]. split; [done|]. split; [done|].
    cbn [forward_result valid_ set_valid iter_ set_saved_key set_iter]. split; [by eexists|]. eapply no_head_step; [exact Ep|done|exact Heq|]. intros x q Hx. apply lookup_lt_Some in Ep. lia.
  - case_decide as Hlt.
    + destruct (lookup_lt_is_Some_2 ps (S i) Hlt) as [p1 Ep1].
      destruct (IH (set_iter it1 t1) (S i) p1 sk') as (t' & E' & Ht' & Hd' & Hres'); try done; [lia|]. exists t'. cbn [bool_decide]. split; [exact E'|]. split; [done|].
      split; [by rewrite Hd'|]. unfold forward_result in *. destruct (valid_ t').
      * destruct Hres' as (j & q & Hj & Hq & Hw & Hn & Ha). exists j, q. split; [lia|]. split; [done|]. split; [by apply (Heq j q); [lia| |]|]. split; [|done].
        eapply no_head_step; [exact Ep|done|exact Heq|done].
      * destruct Hres' as [Ha Hn]. split; [done|]. eapply no_head_step; [exact Ep|done|exact Heq|done].
    + eexists. split; [done|]. split; [done|]. split; [done|]. cbn [forward_result valid_ set_valid iter_ set_saved_key set_iter]. split; [by eexists|].
      eapply no_head_step; [exact Ep|done|exact Heq|]. intros x q Hx. lia.
Qed.

Lemma FindNext_spec fuel t i p sk : (length ps <= fuel)%nat -> steady t -> direction_ t = kForward -> at_internal (iter_ t) (Some i) -> ps !! i = Some p ->
  may_skip i sk (saved_key_ t) ->
  exists t', FindNextUserEntry le user fuel sk t = Some t' /\ steady t' /\ direction_ t' = kForward /\ forward_result i sk (saved_key_ t) t'.
Proof using Hps Hsorted Huser Hit.
  intros Hf Ht Hd Hi Ep Hms. unfold FindNextUserEntry. rewrite (valid_internal_iter t _ Hi), Hd. cbn [negb].
  destruct (next_loop_spec fuel t i p sk Ht Hi Ep Hms) as (t' & E & Ht' & Hd' & Hres); [lia|]. exists t'. split; [exact E|]. split; [done|]. split; [by rewrite Hd'|done].
Qed.

(** ** Backwards *)

(** The internal iterator stands at the last entry the snapshot sees with a user key in front, perhaps with unseen ones behind it. *)
Definition in_front (q : option nat) (p : ParsedInternalKey) : Prop :=
  (forall i pi, q = Some i -> ps !! i = Some pi -> lt (user_key pi) (user_key p)) /\
  forall x px, match q with Some i => (i < x)%nat | None => True end -> ps !! x = Some px -> sequence px <= s -> le_ (user_key p) (user_key px).

Definition no_head_after (i i0 : nat) : Prop := forall x p, (i < x <= i0)%nat -> ~ head x p.

(** The entry at [j] is the newest version of its key among those that have been passed. *)
Definition candidate (i i0 j : nat) (t : dbiter) : Prop :=
  exists p e, (i <= j <= i0)%nat /\ ps !! j = Some p /\ es !! j = Some e /\ sequence p <= s /\ vtype p = kTypeValue /\
    saved_key_ t = user_key p /\ saved_value_ t = e.2 /\ no_head_after j i0 /\
    forall x px, (i <= x < j)%nat -> ps !! x = Some px -> s < sequence px.

(** What the loop of [FindPrevUserEntry] knows when the entries from [i] on have been passed. *)
Definition passed (i i0 : nat) (value_type : Z) (t : dbiter) : Prop :=
  if value_type =? kTypeDeletion then forall x p, (i <= x <= i0)%nat -> ~ head x p else exists j, candidate i i0 j t.

Lemma candidate_head i i0 j t p : candidate i i0 j t -> ps !! j = Some p ->
  (forall x q, (x < i)%nat -> ps !! x = Some q -> sequence q <= s -> lt (user_key q) (user_key p)) -> head j p.
Proof.
  intros (p' & e & Hj & Ep & _ & Hp & Ht & _ & _ & _ & Hun) Ep' Hlt. assert (p' = p) as -> by congruence.
  apply head_between; try done. intros x q Hx Eq Hq. destruct (decide (x < i)%nat); [by apply (Hlt x q)|]. specialize (Hun x q ltac:(lia) Eq). lia.
Qed.

(** An entry with the same user key that the snapshot sees is newer. *)
Lemma candidate_not_head i i0 j t p pj : candidate (S i) i0 j t -> ps !! j = Some pj -> ps !! i = Some p -> sequence p <= s ->
  ~ lt (user_key p) (user_key pj) -> forall x q, (i < x <= i0)%nat -> ~ head x q.
Proof.
  intros (p' & e & Hj & Epj & _ & _ & _ & _ & _ & Hno & Hun) Epj' Ep Hp Hn x q Hx Hq. assert (p' = pj) as -> by congruence.
  destruct (Nat.lt_trichotomy x j) as [Hlt|[->|Hgt]].
  - destruct Hq as (Eq & Hq & _). specialize (Hun x q ltac:(lia) Eq). lia.
  - destruct Hq as (Eq & _ & _ & Hfirst). apply Hn. assert (q = pj) as -> by congruence. by apply (Hfirst i p); [lia| |].
  - by apply (Hno x q); [lia|].
Qed.

Lemma passed_unseen i i0 vt t p : ps !! i = Some p -> (i <= i0)%nat -> s < sequence p -> passed (S i) i0 vt t -> passed i i0 vt t.
Proof.
  intros Ep Hi Hp. unfold passed. destruct (vt =? kTypeDeletion).
  - intros Hno x q Hx Hq. destruct (decide (x = i)) as [->|]; [|by apply (Hno x q); [lia|]]. destruct Hq as (Eq & Hq & _). assert (q = p) as -> by congruence. lia.
  - intros (j & q & e & Hj & H1 & H2 & H3 & H4 & H5 & H6 & H7 & H8). exists j, q, e. split_and!; try done; [lia|lia|].
    intros x px Hx Ex. destruct (decide (x = i)) as [->|]; [by assert (px = p) as -> by congruence|]. apply (H8 x px); [lia|done].
Qed.

Lemma passed_no_head i i0 vt t p : ps !! i = Some p -> sequence p <= s -> passed (S i) i0 vt t ->
  ((vt =? kTypeDeletion) = false -> ~ lt (user_key p) (saved_key_ t)) -> no_head_after i i0.
Proof.
  intros Ep Hp. unfold passed. destruct (vt =? kTypeDeletion).
  - intros Hno _ x q Hx. apply (Hno x q). lia.
  - intros (j & Hc) Hn x q Hx. pose proof Hc as (pj & e & Hj & Epj & _ & _ & _ & Ek & _). eapply candidate_not_head; [exact Hc|exact Epj|exact Ep|done| |exact Hx].
    rewrite <- Ek. by apply Hn.
Qed.

Lemma same_passed t t' i i0 vt : saved_key_ t' = saved_key_ t -> saved_value_ t' = saved_value_ t -> passed i i0 vt t -> passed i i0 vt t'.
Proof.
  intros E1 E2. unfold passed. destruct (vt =? kTypeDeletion); [done|]. intros (j & p & e & H). exists j, p, e. by rewrite E1, E2.
Qed.

Lemma keep_version_spec t i i0 p : steady t -> at_internal (iter_ t) (Some i) -> ps !! i = Some p -> sequence p <= s -> (i <= i0)%nat -> no_head_after i i0 ->
  exists t', keep_version p t = Some t' /\ steady t' /\ direction_ t' = direction_ t /\ iter_ t' = iter_ t /\ valid_ t' = valid_ t /\ passed i i0 (vtype p) t'.
Proof using Hps Hit.
  intros Ht Hi Ep Hp Hi0 Hno. unfold keep_version. destruct (vtype_cases i p Ep) as [Hty|Hty]; rewrite Hty.
  - change (kTypeDeletion =? kTypeDeletion) with true. cbv iota. eexists. split_and!; [done..|]. intros x q Hx Hq.
    destruct (decide (x = i)) as [->|]; [|by apply (Hno x q); [lia|]]. destruct Hq as (Eq & _ & Hv & _). assert (q = p) as -> by congruence. by rewrite Hty in Hv.
  - change (kTypeValue =? kTypeDeletion) with false. cbv iota. destruct (it_entry (IteratorOk := Hit) (iter_ t) i Hi) as (e & Ee & Ek & Ev).
    destruct (parsed_at i p Ep) as (e' & Ee' & Hpe). assert (e' = e) as -> by congruence. rewrite Ek. cbn [mbind option_bind]. rewrite Ev. cbn [mbind option_bind].
    rewrite (proj2 (parse_entry e p Hpe)). cbn [mbind option_bind]. eexists. split_and!; [done..|]. unfold passed. change (kTypeValue =? kTypeDeletion) with false. cbv iota.
    exists i, p, e. split_and!; try done. intros x px Hx. lia.
Qed.

Definition stopped (i i0 : nat) (p : ParsedInternalKey) (value_type : Z) (t : dbiter) : Prop :=
  (value_type =? kTypeDeletion) = false /\
  exists j pj, (i < j <= i0)%nat /\ candidate (S i) i0 j t /\ ps !! j = Some pj /\ lt (user_key p) (user_key pj).

Lemma prev_round_spec t i i0 p vt : steady t -> at_internal (iter_ t) (Some i) -> ps !! i = Some p -> (i <= i0)%nat -> passed (S i) i0 vt t ->
  exists stop vt' t', prev_round le user vt t = Some (stop, vt', t') /\ steady t' /\ direction_ t' = direction_ t /\ iter_ t' = iter_ t /\ valid_ t' = valid_ t /\
    if stop then stopped i i0 p vt' t' else passed i i0 vt' t'.
Proof using Hps Hsorted Huser Hit.
  intros Ht Hi Ep Hi0 Hpass. destruct (ParseKey_spec t i p Ht Hi Ep) as (d & r & c & E & Ht'). unfold prev_round. rewrite E. cbn [mbind option_bind].
  cbn [sequence_ set_sampling]. rewrite (proj1 Ht). destruct (Z.leb_spec (sequence p) s) as [Hp|Hp].
  2:{ eexists false, vt, _. split_and!; [done..|]. apply (same_passed t); [done|done|]. by eapply passed_unseen. }
  destruct (vt =? kTypeDeletion) eqn:Ev; cbn [negb].
  - destruct (keep_version_spec (set_sampling d r c t) i i0 p Ht' Hi Ep Hp Hi0) as (t' & E' & Hk).
    { apply (passed_no_head i i0 vt t p); try done. by rewrite Ev. }
    cbn [mbind option_bind]. rewrite E'. cbn [mbind option_bind]. by exists false, (vtype p), t'.
  - cbn [saved_key_ set_sampling]. pose proof Hpass as Hpass'. unfold passed in Hpass'. rewrite Ev in Hpass'. destruct Hpass' as (j & Hc).
    pose proof Hc as (pj & e & Hj & Epj & _ & _ & _ & Ek & _). pose proof (parsed_valid i p Ep) as Hvp. pose proof (parsed_valid j pj Epj) as Hvj.
    destruct (compare_defined (user_key p) (saved_key_ t)) as [x Ex]; [done|by rewrite Ek|]. rewrite Ex. cbn [mbind option_bind]. destruct (cmp_sign _ _ _ Ex) as [Hlt _].
    destruct (Z.ltb_spec x 0) as [Hx|Hx].
    + eexists true, vt, _. split_and!; [done..|]. split; [done|]. exists j, pj. split; [lia|]. split; [exact Hc|]. split; [done|]. rewrite <- Ek. by apply Hlt.
    + destruct (keep_version_spec (set_sampling d r c t) i i0 p Ht' Hi Ep Hp Hi0) as (t' & E' & Hk).
      { apply (passed_no_head i i0 vt t p); try done. intros _ Hl. apply Hlt in Hl. lia. }
      rewrite E'. cbn [mbind option_bind]. by exists false, (vtype p), t'.
Qed.

(** Where the loop ends: at the last head, or in front of everything. *)
Definition backward_result (i0 : nat) (value_type : Z) (t : dbiter) : Prop :=
  if value_type =? kTypeDeletion then (exists q, at_internal (iter_ t) q) /\ forall x p, (x <= i0)%nat -> ~ head x p
  else exists j p e q, (j <= i0)%nat /\ head j p /\ es !! j = Some e /\ no_head_after j i0 /\ saved_key_ t = user_key p /\ saved_value_ t = e.2 /\
    at_internal (iter_ t) q /\ in_front q p.

Lemma stopped_result i i0 p vt t : ps !! i = Some p -> at_internal (iter_ t) (Some i) -> stopped i i0 p vt t -> backward_result i0 vt t.
Proof using Hps Hsorted Huser.
  intros Ep Hi [Hv (j & pj & Hj & Hc & Epj & Hlt)]. unfold backward_result. rewrite Hv. pose proof Hc as (p' & e & _ & Ep' & Ee & Hp & Ht & Hk & Hsv & Hno & Hun).
  assert (p' = pj) as -> by congruence. exists j, pj, e, (Some i). split; [lia|]. split; [|split_and!; try done; split].
  - eapply (candidate_head (S i)); [exact Hc|done|]. intros x q Hx Eq _. pose proof (parsed_valid _ _ Eq). pose proof (parsed_valid _ _ Epj). pose proof (parsed_valid _ _ Ep).
    apply (key_le_lt_trans (valid := uvalid) _ (user_key p)); try done. apply (users_le x i); [lia|done|done].
  - intros i' pi [= <-] Epi. by assert (pi = p) as -> by congruence.
  - intros x px Hx Epx Hpx. apply (users_le j x); [|done|done]. destruct (decide (j <= x)%nat); [done|]. specialize (Hun x px ltac:(lia) Epx). lia.
Qed.

Lemma passed_result i0 vt t : (exists q, at_internal (iter_ t) q) -> at_internal (iter_ t) None -> passed 0 i0 vt t -> backward_result i0 vt t.
Proof using Hps Hsorted Huser.
  intros Hq Hn. unfold passed, backward_result. destruct (vt =? kTypeDeletion).
  - intros Hno. split; [done|]. intros x p Hx. apply Hno. lia.
  - intros (j & Hc). pose proof Hc as (p & e & Hj & Ep & Ee & Hp & Ht & Hk & Hsv & Hno & Hun). exists j, p, e, None. split; [lia|].
    split; [eapply (candidate_head 0); [exact Hc|done|]; intros; lia|]. split_and!; try done. split; [done|]. intros x px _ Ex Hx. apply (users_le j x); [|done|done].
    destruct (decide (j <= x)%nat); [done|]. specialize (Hun x px ltac:(lia) Ex). lia.
Qed.

Lemma prev_loop_spec i0 : forall fuel t i p vt, steady t -> at_internal (iter_ t) (Some i) -> ps !! i = Some p -> (i <= i0)%nat -> (i <= fuel)%nat ->
  passed (S i) i0 vt t ->
  exists vt' t', prev_loop le user fuel vt t = Some (vt', t') /\ steady t' /\ direction_ t' = direction_ t /\ valid_ t' = valid_ t /\ backward_result i0 vt' t'.
Proof using Hps Hsorted Huser Hit.
  induction fuel as [|fuel IH]; intros t i p vt Ht Hi Ep Hi0 Hf Hpass; cbn [prev_loop];
    destruct (prev_round_spec t i i0 p vt Ht Hi Ep Hi0 Hpass) as (stop & vt1 & t1 & -> & Ht1 & Hd1 & Hi1 & Hv1 & Hres); cbn [mbind option_bind];
    (destruct stop; [exists vt1, t1; split_and!; try done; eapply stopped_result; [exact Ep|by rewrite Hi1|done]|]);
    unfold on_iter_; rewrite Hi1; destruct (it_prev (IteratorOk := Hit) (iter_ t) i Hi) as (it1 & E1 & Hit1); rewrite E1;
    cbn [mbind option_bind iter_ set_iter]; rewrite (it_valid (IteratorOk := Hit) _ _ Hit1); (destruct i as [|i]; cbn [prev_pos] in *; [
      eexists vt1, _; split_and!; [done..|]; apply passed_result; [by eexists|done|by apply (same_passed t1)]|]).
  - lia.
  - cbn [bool_decide]. destruct (lookup_lt_is_Some_2 ps i) as [p1 Ep1]; [apply lookup_lt_Some in Ep; lia|].
    destruct (IH (set_iter it1 t1) i p1 vt1) as (vt' & t' & E' & Ht' & Hd' & Hv' & Hres'); try done; [lia|lia|].
    exists vt', t'. split; [exact E'|]. split; [done|]. split; [by rewrite Hd'|]. split; [by rewrite Hv'|done].
Qed.

(** The position that [FindPrevUserEntry] leaves. *)
Definition prev_result (i0 : nat) (t : dbiter) : Prop :=
  if valid_ t then direction_ t = kReverse /\ exists j p e q, (j <= i0)%nat /\ head j p /\ es !! j = Some e /\ no_head_after j i0 /\
    saved_key_ t = user_key p /\ saved_value_ t = e.2 /\ at_internal (iter_ t) q /\ in_front q p
  else (exists q, at_internal (iter_ t) q) /\ forall x p, (x <= i0)%nat -> ~ head x p.

Lemma FindPrev_spec fuel t i p : (length ps <= fuel)%nat -> steady t -> direction_ t = kReverse -> at_internal (iter_ t) (Some i) -> ps !! i = Some p ->
  exists t', FindPrevUserEntry le user fuel t = Some t' /\ steady t' /\ prev_result i t'.
Proof using Hps Hsorted Huser Hit.
  intros Hf Ht Hd Hi Ep. unfold FindPrevUserEntry. rewrite Hd, (valid_internal_iter t _ Hi). cbn [bool_decide].
  destruct (prev_loop_spec i fuel t i p kTypeDeletion Ht Hi Ep (Nat.le_refl i)) as (vt & t' & E & Ht' & Hd' & Hv' & Hres).
  - apply lookup_lt_Some in Ep. lia.
  - intros x q Hx. lia.
  - change (bool_decide (is_Some (Some i))) with true. cbv iota. rewrite E. cbn [mbind option_bind]. unfold backward_result in Hres. destruct (vt =? kTypeDeletion).
    + eexists. split; [done|]. split; [done|]. exact Hres.
    + eexists. split; [done|]. split; [done|]. unfold prev_result. cbn [valid_ set_valid direction_]. split; [by rewrite Hd'|exact Hres].
Qed.

(** In front of everything. *)
Lemma FindPrev_none fuel t : steady t -> direction_ t = kReverse -> at_internal (iter_ t) None ->
  exists t', FindPrevUserEntry le user fuel t = Some t' /\ steady t' /\ valid_ t' = false /\ exists q, at_internal (iter_ t') q.
Proof using Hit.
  intros Ht Hd Hi. unfold FindPrevUserEntry. rewrite Hd, (valid_internal_iter t _ Hi). change (bool_decide (is_Some None)) with false. cbv iota. cbn [mbind option_bind].
  change (kTypeDeletion =? kTypeDeletion) with true. cbv iota. eexists. split; [done|]. split; [done|]. split; [done|]. by exists None.
Qed.
End Props.
