(* ===== verification/DbIterCorrect.v ===== *)
(** * The iterator of a database is an iterator over what a snapshot shows

    The positions of [DBIter] are those of the newest visible versions among the
    internal entries; each of its operations goes where the contract of an
    iterator over [user_view] says. *)
From Stdlib Require Import Sorted.
From S2P Require Import Prelude Coding Comparator DbFormat DbFormatProps Status Iter SkipList DbIter DbIterProps.

(** ** The indices of the newest versions *)

Section Heads.
Context {le : bool} {user : Comparator} {uvalid : list byte -> Prop} {s : Z}.

Fixpoint heads_from (before ps : list ParsedInternalKey) : list nat :=
  match ps with
  | [] => []
  | p :: ps' => let rest := heads_from (before ++ [p]) ps' in if shown user s before p then length before :: rest else rest
  end.

(** The shown entries are those at these indices. *)
Lemma view_heads ps : forall before es, Forall2 (parsed_as uvalid) es ps ->
  Forall2 (fun v j => exists x p e, j = (length before + x)%nat /\ ps !! x = Some p /\ es !! x = Some e /\ v = (user_key p, e.2) /\ shown user s (before ++ take x ps) p = true)
    (view_from le user s before es) (heads_from before ps).
Proof.
  induction ps as [|p ps IH]; intros before es H; inversion H as [|e p' es' ps' He Hes]; subst; cbn [view_from heads_from]; [constructor|].
  rewrite (proj1 (parse_entry e p He)). cbv zeta.
  assert (Forall2 (fun v j => exists x p' e', j = (length before + x)%nat /\ (p :: ps) !! x = Some p' /\ (e :: es') !! x = Some e' /\ v = (user_key p', e'.2) /\
    shown user s (before ++ take x (p :: ps)) p' = true) (view_from le user s (before ++ [p]) es') (heads_from (before ++ [p]) ps)) as Hrest.
  { eapply Forall2_impl; [by apply IH|]. intros v j (x & q & e' & -> & E1 & E2 & E3 & E4). exists (S x), q, e'. rewrite length_app in *. cbn [length take] in *.
    split; [lia|]. split; [done|]. split; [done|]. split; [done|]. by rewrite <- app_assoc in E4. }
  destruct (shown user s before p) eqn:E; [|done]. constructor; [|done]. exists 0%nat, p, e. rewrite take_0, app_nil_r. by split_and!; [lia|..].
Qed.

Lemma heads_above ps : forall before, Forall (fun j => (length before <= j)%nat) (heads_from before ps).
Proof.
  induction ps as [|p ps IH]; intros before; cbn [heads_from]; [constructor|]. cbv zeta.
  assert (Forall (fun j => (length before <= j)%nat) (heads_from (before ++ [p]) ps)).
  { eapply Forall_impl; [apply IH|]. intros j. rewrite length_app. simpl. lia. }
  case_match; [constructor; [lia|done]|done].
Qed.

Lemma heads_sorted ps : forall before, StronglySorted Nat.lt (heads_from before ps).
Proof.
  induction ps as [|p ps IH]; intros before; cbn [heads_from]; [constructor|]. cbv zeta. case_match; [|done].
  constructor; [done|]. eapply Forall_impl; [apply heads_above|]. intros j. rewrite length_app. simpl. lia.
Qed.

Lemma heads_complete ps : forall before x p, ps !! x = Some p -> shown user s (before ++ take x ps) p = true ->
  exists g, heads_from before ps !! g = Some (length before + x)%nat.
Proof.
  induction ps as [|p ps IH]; intros before x q Eq Hq; [done|]. cbn [heads_from]. cbv zeta. destruct x as [|x].
  - injection Eq as <-. rewrite take_0, app_nil_r in Hq. rewrite Hq. exists 0%nat. by rewrite Nat.add_0_r.
  - destruct (IH (before ++ [p]) x q Eq) as [g Eg]; [by rewrite <- app_assoc|]. rewrite length_app in Eg. cbn [length] in Eg.
    replace (length before + 1 + x)%nat with (length before + S x)%nat in Eg by lia. case_match; [by exists (S g)|by exists g].
Qed.
End Heads.

(** An increasing list of indices. *)
Lemma sorted_lookup_lt (l : list nat) g g' x y : StronglySorted Nat.lt l -> (g < g')%nat -> l !! g = Some x -> l !! g' = Some y -> (x < y)%nat.
Proof.
  intros Hs. revert g g'. induction Hs as [|z l Hs IH Hf]; intros g g' Hg Ex Ey; [done|]. destruct g' as [|g']; [lia|]. destruct g as [|g]; simpl in *.
  - injection Ex as <-. rewrite Forall_lookup in Hf. by eapply Hf.
  - apply (IH g g'); [lia|done|done].
Qed.

Lemma seek_pos_at c target es i e : es !! i = Some e -> key_ge c target e.1 = true ->
  (forall j e', (j < i)%nat -> es !! j = Some e' -> key_ge c target e'.1 = false) -> seek_pos c target es = Some i.
Proof.
  intros Ee Hge Hlt. pose proof (seek_pos_spec c target es) as Hs. destruct (seek_pos c target es) as [i'|].
  - destruct Hs as (e' & Ee' & Hge' & Hlt'). destruct (Nat.lt_trichotomy i i') as [Hi|[-> |Hi]]; [|done|].
    + rewrite (Hlt' i e Hi Ee) in Hge. done.
    + rewrite (Hlt i' e' Hi Ee') in Hge'. done.
  - rewrite (Hs e) in Hge; [done|]. apply list_elem_of_In. by eapply list_elem_of_lookup_2.
Qed.

Lemma seek_pos_none c target es : (forall e, In e es -> key_ge c target e.1 = false) -> seek_pos c target es = None.
Proof.
  intros H. pose proof (seek_pos_spec c target es) as Hs. destruct (seek_pos c target es) as [i|]; [|done].
  destruct Hs as (e & Ee & Hge & _). rewrite (H e) in Hge; [done|]. apply list_elem_of_In. by eapply list_elem_of_lookup_2.
Qed.

Section Correct.
Context {le : bool} {user : Comparator} {uvalid : list byte -> Prop} {Huser : ComparatorOk user uvalid}.
Context {I D : Type} {it : Iterator I} {sampler : ReadSampler D}.
Context {es : list entry} {ps : list ParsedInternalKey} {at_internal : I -> option nat -> Prop}.
Context {s : Z} {Hs : 0 <= s <= kMaxSequenceNumber}.
Context {Hps : Forall2 (parsed_as uvalid) es ps} {Hsorted : keys_sorted (InternalKeyComparator le user) es}.
Context {Hit : IteratorOk it (InternalKeyComparator le user) (valid_internal (valid := uvalid)) es at_internal}.

Abbreviation dbiter := (DBIter (I := I) (D := D)).
Abbreviation lt := (key_lt user).
Abbreviation le_ := (key_le user).
Abbreviation head := (head (user := user) (ps := ps) (s := s)).
Abbreviation heads := (heads_from (user := user) (s := s) [] ps).
Abbreviation view := (user_view le user s es).
Abbreviation steady := (steady (I := I) (D := D) (s := s)).

(** ** Heads and the view *)

Lemma is_lt_spec a b : is_lt user a b = true <-> lt a b.
Proof.
  unfold is_lt, cmp_lt. destruct (@Compare user a b) as [r|].
  - destruct (Z.ltb_spec r 0); split; try done; [intros _; by exists r|intros (x & [= <-] & ?); lia].
  - split; [done|by intros (x & ? & _)].
Qed.

Lemma shown_head j p : ps !! j = Some p -> shown user s (take j ps) p = true <-> head j p.
Proof.
  intros Ep. unfold shown, newest, DbIterProps.head. rewrite !andb_true_iff, forallb_forall. split.
  - intros [[Hp Hb] Ht]. split; [done|]. split; [lia|]. split; [lia|]. intros i q Hi Eq Hq. apply is_lt_spec.
    specialize (Hb q). rewrite orb_true_iff in Hb. destruct Hb as [Hb|]; [|zify_bool; lia|done].
    apply list_elem_of_In. apply (list_elem_of_lookup_2 _ i). by rewrite lookup_take_lt.
  - intros (_ & Hp & Ht & Hb). split; [split; [lia|]|lia]. intros q Hq. apply list_elem_of_In in Hq. apply list_elem_of_lookup_1 in Hq. destruct Hq as [i Eq].
    pose proof (lookup_lt_Some _ _ _ Eq) as Hl. rewrite length_take in Hl. rewrite lookup_take_lt in Eq by lia. apply orb_true_iff.
    destruct (Z.leb_spec (sequence q) s); [right|by left]. apply is_lt_spec. apply (Hb i q); [lia|done|done].
Qed.

Lemma view_at g v : view !! g = Some v -> exists j p e, heads !! g = Some j /\ head j p /\ es !! j = Some e /\ v = (user_key p, e.2).
Proof using Hps.
  intros Ev. destruct (Forall2_lookup_l _ _ _ _ _ (view_heads (le := le) (user := user) (s := s) ps [] es Hps) Ev) as (j & Ej & x & p & e & -> & Ep & Ee & -> & Hsh).
  exists x, p, e. split; [done|]. split; [by apply shown_head|]. by split.
Qed.

Lemma head_at g j : heads !! g = Some j -> exists p e, head j p /\ es !! j = Some e /\ view !! g = Some (user_key p, e.2).
Proof using Hps.
  intros Ej. destruct (Forall2_lookup_r _ _ _ _ _ (view_heads (le := le) (user := user) (s := s) ps [] es Hps) Ej) as (v & Ev & x & p & e & -> & Ep & Ee & -> & Hsh).
  exists p, e. split; [by apply shown_head|]. by split.
Qed.

Lemma head_index j p : head j p -> exists g, heads !! g = Some j.
Proof. intros Hh. destruct Hh as [Ep Hh']. by apply (heads_complete ps [] j p Ep), shown_head. Qed.

Lemma length_view : length view = length heads.
Proof using Hps. by eapply Forall2_length, view_heads. Qed.

Lemma heads_lt g g' x y : (g < g')%nat -> heads !! g = Some x -> heads !! g' = Some y -> (x < y)%nat.
Proof. apply sorted_lookup_lt, heads_sorted. Qed.

Lemma heads_lt_inv g g' x y : (x < y)%nat -> heads !! g = Some x -> heads !! g' = Some y -> (g < g')%nat.
Proof.
  intros Hxy Ex Ey. destruct (Nat.lt_trichotomy g g') as [|[-> |Hg]]; [done|..].
  - assert (x = y) by congruence. lia.
  - pose proof (heads_lt g' g y x Hg Ey Ex). lia.
Qed.

Lemma head_fun j p q : head j p -> ps !! j = Some q -> p = q.
Proof. intros [Ep _] Eq. congruence. Qed.

(** User keys of heads go up with their indices, and only then. *)
Lemma head_users i j p q : head i p -> head j q -> lt (user_key p) (user_key q) <-> (i < j)%nat.
Proof using Hps Hsorted Huser.
  intros Hi Hj. pose proof Hi as (Ep & Hp & _). pose proof Hj as (Eq & _ & _ & Hlt). split; [|by intros Hij; apply (Hlt i p)].
  intros Hl. destruct (decide (i < j)%nat) as [|Hn]; [done|]. exfalso. eapply key_lt_not_le; [exact Hl|].
  eapply (users_le (Hps := Hps) (Hsorted := Hsorted)); [|exact Eq|exact Ep]. lia.
Qed.

(** The keys of the view are in order. *)
Lemma view_sorted : keys_sorted user view.
Proof using Hps Hsorted Huser.
  intros g g' a b Hg Ea Eb. destruct (view_at g a Ea) as (i & p & e & Ei & Hi & _ & ->), (view_at g' b Eb) as (j & q & e' & Ej & Hj & _ & ->).
  apply (head_users i j); [done|done|]. by eapply heads_lt.
Qed.

(** ** Positions among the heads *)

Lemma first_heads g j : heads !! g = Some j -> (forall x p, (x < j)%nat -> ~ head x p) -> g = O.
Proof using le Hps.
  intros Ej Hno. destruct g as [|g]; [done|]. destruct (lookup_lt_is_Some_2 heads g) as [x Ex]; [apply lookup_lt_Some in Ej; lia|].
  destruct (head_at g x Ex) as (p & _ & Hx & _). exfalso. apply (Hno x p); [|done]. eapply (heads_lt g (S g)); [lia|done|done].
Qed.

Lemma next_heads g g' j j' : heads !! g = Some j -> heads !! g' = Some j' -> (j < j')%nat -> (forall x p, (j < x < j')%nat -> ~ head x p) -> g' = S g.
Proof using le Hps.
  intros Ej Ej' Hj Hno. pose proof (heads_lt_inv g g' j j' Hj Ej Ej') as Hg. destruct (decide (g' = S g)) as [|Hne]; [done|]. exfalso.
  destruct (lookup_lt_is_Some_2 heads (S g)) as [x Ex]; [apply lookup_lt_Some in Ej'; lia|]. destruct (head_at (S g) x Ex) as (p & _ & Hx & _).
  apply (Hno x p); [|done]. split; [eapply (heads_lt g (S g)); [lia|done|done]|eapply (heads_lt (S g) g'); [lia|done|done]].
Qed.

Lemma no_heads_from g : (forall x p, heads !! g = Some x -> ~ head x p) -> (length view <= g)%nat.
Proof using Hps.
  intros Hno. rewrite length_view. destruct (decide (length heads <= g)%nat) as [|Hlt]; [done|]. destruct (lookup_lt_is_Some_2 heads g) as [x Ex]; [lia|].
  destruct (head_at g x Ex) as (p & _ & Hx & _). by destruct (Hno x p Ex).
Qed.

(** ** Where the iterator is *)

Definition dbi_at (t : dbiter) (g : option nat) : Prop :=
  steady t /\
  match g with
  | None => valid_ t = false /\ exists q, at_internal (iter_ t) q
  | Some g =>
      valid_ t = true /\ exists j p, heads !! g = Some j /\ head j p /\
      match direction_ t with
      | kForward => at_internal (iter_ t) (Some j)
      | kReverse => saved_key_ t = user_key p /\ (exists e, es !! j = Some e /\ saved_value_ t = e.2) /\
          exists q, at_internal (iter_ t) q /\ in_front (user := user) (ps := ps) (s := s) q p
      end
  end.

Lemma dbi_internal t g : dbi_at t g -> exists q, at_internal (iter_ t) q.
Proof.
  intros [_ H]. destruct g as [g|]; [|by destruct H]. destruct H as (_ & j & p & _ & _ & H). destruct (direction_ t); [by eexists|].
  destruct H as (_ & _ & q & Hq & _). by exists q.
Qed.

(** After a search forwards. *)
Lemma forward_at i sk k t : steady t -> direction_ t = kForward -> forward_result (user := user) (ps := ps) (at_internal := at_internal) (s := s) i sk k t ->
  exists r, dbi_at t r /\
    match r with
    | Some g => exists j p, heads !! g = Some j /\ head j p /\ (i <= j)%nat /\ wanted (user := user) sk k p /\ no_head (user := user) (ps := ps) (s := s) sk k i j
    | None => no_head (user := user) (ps := ps) (s := s) sk k i (length ps)
    end.
Proof.
  intros Ht Hd Hres. unfold forward_result in Hres. destruct (valid_ t) eqn:Ev.
  - destruct Hres as (j & p & Hj & Hh & Hw & Hn & Ha). destruct (head_index j p Hh) as [g Eg]. exists (Some g). split; [|by exists j, p].
    split; [done|]. split; [done|]. exists j, p. by rewrite Hd.
  - exists None. destruct Hres. by split.
Qed.

(** After a search backwards. *)
Lemma backward_at i0 t : steady t -> prev_result (user := user) (es := es) (ps := ps) (at_internal := at_internal) (s := s) i0 t ->
  exists r, dbi_at t r /\
    match r with
    | Some g => exists j p, heads !! g = Some j /\ head j p /\ (j <= i0)%nat /\ no_head_after (user := user) (ps := ps) (s := s) j i0
    | None => forall x p, (x <= i0)%nat -> ~ head x p
    end.
Proof.
  intros Ht Hres. unfold prev_result in Hres. destruct (valid_ t) eqn:Ev.
  - destruct Hres as (Hd & j & p & e & q & Hj & Hh & Ee & Hno & Hk & Hv & Hq & Hf). destruct (head_index j p Hh) as [g Eg]. exists (Some g). split; [|by exists j, p].
    split; [done|]. split; [done|]. exists j, p. rewrite Hd. split; [done|]. split; [done|]. split; [done|]. split; [by exists e|by exists q].
  - exists None. destruct Hres. by split.
Qed.
(** ** The target of a seek *)

Abbreviation icmp := (InternalKeyComparator le user).
Abbreviation target_key T := (internal T (packed s kValueTypeForSeek)).

Lemma seek_packed : PackSequenceAndType s kValueTypeForSeek = Some (packed s kValueTypeForSeek) /\ 0 <= packed s kValueTypeForSeek < 2 ^ 64.
Proof using Hs. by apply PackSequenceAndType_packed. Qed.

Lemma db_entry_valid j p e : ps !! j = Some p -> es !! j = Some e -> valid_internal (valid := uvalid) e.1.
Proof using Hps.
  intros Ep Ee. destruct (parsed_at (Hps := Hps) j p Ep) as (e' & Ee' & Ek & Hok & Hv & _). assert (e' = e) as -> by congruence.
  rewrite Ek. eexists _, _. split; [done|]. split; [by apply packed_range|done].
Qed.

(** What is at or past the target has a user key at or past it. *)
Lemma ge_target T j p e : uvalid T -> ps !! j = Some p -> es !! j = Some e -> key_ge icmp (target_key T) e.1 = true -> le_ T (user_key p).
Proof using Hps Hs Huser.
  intros HT Ep Ee Hge. pose proof seek_packed as [_ Hr]. destruct (parsed_at (Hps := Hps) j p Ep) as (e' & Ee' & Ek & Hok & Hv & _). assert (e' = e) as -> by congruence.
  apply (key_ge_true (valid := valid_internal (valid := uvalid))) in Hge; [|by eexists _, _|by eapply db_entry_valid]. rewrite Ek in Hge.
  apply (internal_le_user (le := le) (Hok := Huser) _ (packed s kValueTypeForSeek) _ (packed (sequence p) (vtype p))); try done. by apply packed_range.
Qed.

(** A visible entry in front of the target has a user key in front of it. *)
Lemma lt_target T j p e : uvalid T -> ps !! j = Some p -> es !! j = Some e -> sequence p <= s -> key_ge icmp (target_key T) e.1 = false -> lt (user_key p) T.
Proof using Hps Hs Huser.
  intros HT Ep Ee Hp Hge. pose proof seek_packed as [_ Hr]. destruct (parsed_at (Hps := Hps) j p Ep) as (e' & Ee' & Ek & Hok & Hv & _). assert (e' = e) as -> by congruence.
  apply (key_ge_false (valid := valid_internal (valid := uvalid))) in Hge; [|by eexists _, _|by eapply db_entry_valid]. rewrite Ek in Hge. destruct Hge as (x & Ex & Hx).
  destruct (compare_defined (user_key p) T Hv HT) as [y Ey]. cbn [Compare InternalKeyComparator] in Ex.
  rewrite (internal_compare_spec _ _ _ _ y (packed_range p Hok) Hr Ey) in Ex. injection Ex as Ex. exists y. split; [done|].
  destruct (Z.eqb_spec y 0); [|lia]. destruct Hok as [_ Ht]. unfold packed, kValueTypeForSeek, kTypeValue in *. lia.
Qed.

(** ** What the view holds *)

(** [v] is the value of the newest version of [u] that the snapshot sees. *)
Definition newest_value (u v : list byte) : Prop :=
  exists p e, parsed_as uvalid e p /\ In e es /\ user_key p = u /\ e.2 = v /\ sequence p <= s /\ vtype p = kTypeValue /\
    forall p' e', parsed_as uvalid e' p' -> In e' es -> @Compare user (user_key p') u = Some 0 -> sequence p' <= s -> sequence p' <= sequence p.

Lemma parsed_in e : In e es -> exists j p, ps !! j = Some p /\ es !! j = Some e /\ parsed_as uvalid e p.
Proof using Hps.
  intros Hin. apply list_elem_of_In, list_elem_of_lookup_1 in Hin. destruct Hin as [j Ee]. destruct (parsed_of (Hps := Hps) j e Ee) as (p & Ep & He). by exists j, p.
Qed.

Lemma parsed_fun e p q : parsed_as uvalid e p -> parsed_as uvalid e q -> p = q.
Proof using le. intros Hp Hq. destruct (parse_entry (le := le) e p Hp) as [E1 _], (parse_entry (le := le) e q Hq) as [E2 _]. congruence. Qed.

(** Of two versions of a user key the newer one comes first. *)
Lemma versions_sorted i j p q : (i < j)%nat -> ps !! i = Some p -> ps !! j = Some q -> @Compare user (user_key p) (user_key q) = Some 0 ->
  packed (sequence q) (vtype q) < packed (sequence p) (vtype p).
Proof using Hps Hsorted.
  intros Hij Ep Eq E0. destruct (parsed_at (Hps := Hps) i p Ep) as (e & Ee & Ek & Hok & _), (parsed_at (Hps := Hps) j q Eq) as (e' & Ee' & Ek' & Hok' & _).
  destruct (Hsorted i j e e' Hij Ee Ee') as (x & Ex & Hx). rewrite Ek, Ek' in Ex. cbn [Compare InternalKeyComparator] in Ex.
  rewrite (internal_compare_spec _ _ _ _ 0 (packed_range p Hok) (packed_range q Hok') E0) in Ex. injection Ex as Ex. simpl in Ex. lia.
Qed.

Lemma eq_not_lt a b : @Compare user a b = Some 0 -> ~ lt a b.
Proof. intros E (x & Ex & Hx). rewrite E in Ex. injection Ex as <-. lia. Qed.

Lemma le_not_lt_eq a b : le_ a b -> ~ lt a b -> @Compare user a b = Some 0.
Proof. intros (x & Ex & Hx) Hn. rewrite Ex. f_equal. destruct (decide (x < 0)); [|lia]. exfalso. apply Hn. by exists x. Qed.

Lemma view_newest u v : In (u, v) view <-> newest_value u v.
Proof using Hps Hsorted Huser.
  split.
  - intros Hin. apply list_elem_of_In, list_elem_of_lookup_1 in Hin. destruct Hin as [g Ev]. destruct (view_at g _ Ev) as (j & p & e & Ej & Hj & Ee & [= -> ->]).
    pose proof Hj as (Ep & Hp & Hty & Hfirst). destruct (parsed_at (Hps := Hps) j p Ep) as (e1 & Ee1 & He). assert (e1 = e) as -> by congruence. exists p, e. split; [done|].
    split; [by apply list_elem_of_In, (list_elem_of_lookup_2 _ j)|]. do 4 (split; [done|]). intros p' e' He' Hin' E0 Hp'.
    destruct (parsed_in e' Hin') as (i & q & Eq & Eei & Hq). assert (q = p') as -> by by eapply parsed_fun. destruct (Nat.lt_trichotomy i j) as [Hi|[-> |Hi]].
    + exfalso. by apply (eq_not_lt _ _ E0), (Hfirst i p').
    + assert (p' = p) as -> by congruence. lia.
    + pose proof (parsed_valid (Hps := Hps) j p Ep) as Hv. pose proof (parsed_valid (Hps := Hps) i p' Eq) as Hv'.
      pose proof (versions_sorted j i p p' Hi Ep Eq (compare_zero_sym _ _ Hv' Hv E0)) as Hlt. destruct He as (_ & [_ Ht] & _), He' as (_ & [_ Ht'] & _). unfold packed, kTypeValue in *. lia.
  - intros (p & e & He & Hin & <- & <- & Hp & Hty & Hnew). destruct (parsed_in e Hin) as (j & q & Eq & Ee & Hq). assert (q = p) as -> by by eapply parsed_fun.
    assert (head j p) as Hj.
    { split; [done|]. split; [done|]. split; [done|]. intros i q' Hi Eq' Hq'. destruct (key_total (valid := uvalid) (cmp := @Compare user) (user_key q') (user_key p)) as [|Hle];
        [by eapply (parsed_valid (Hps := Hps))..|done|]. exfalso. pose proof (users_le (Hps := Hps) (Hsorted := Hsorted) i j q' p ltac:(lia) Eq' Eq) as Hle'.
      assert (@Compare user (user_key q') (user_key p) = Some 0) as E0 by (apply le_not_lt_eq; [done|intros Hl; by eapply key_lt_not_le]).
      pose proof (versions_sorted i j q' p Hi Eq' Eq E0) as Hlt. destruct (parsed_at (Hps := Hps) i q' Eq') as (e' & Ee' & He').
      pose proof (Hnew q' e' He' ltac:(apply list_elem_of_In; by eapply list_elem_of_lookup_2) E0 Hq') as Hseq. destruct He' as (_ & [_ Ht'] & _). unfold packed, kTypeValue in *. lia. }
    destruct (head_index j p Hj) as [g Eg]. destruct (head_at g j Eg) as (p' & e' & Hj' & Ee' & Ev). assert (p' = p) as -> by (symmetry; eapply head_fun; [done|apply Hj']).
    assert (e' = e) as -> by congruence. apply list_elem_of_In. by eapply list_elem_of_lookup_2.
Qed.

(** ** The operations *)

Lemma next_at t i g j p : heads !! g = Some j -> head j p -> (i <= j)%nat -> steady t -> direction_ t = kForward ->
  forward_result (user := user) (ps := ps) (at_internal := at_internal) (s := s) i true (user_key p) t -> dbi_at t (next_pos view g).
Proof using Hps Hsorted Huser.
  intros Ej Hj Hi Ht Hd Hres. destruct (forward_at i true (user_key p) t Ht Hd Hres) as (r & Hr & Hpos). unfold next_pos. rewrite length_view. destruct r as [g'|].
  - destruct Hpos as (j' & p' & Ej' & Hj' & _ & Hw & Hno). assert (j < j')%nat as Hlt by (apply (head_users j j' p p' Hj Hj'), Hw; done).
    assert (g' = S g) as ->.
    { apply (next_heads g g' j j'); [done|done|done|]. intros x q Hx Hq. apply (Hno x q); [lia|done|]. intros _. apply (head_users j x p q Hj Hq). lia. }
    rewrite decide_True by (by eapply lookup_lt_Some). done.
  - case_decide as Hlt; [|done]. exfalso. destruct (lookup_lt_is_Some_2 heads (S g) Hlt) as [x Ex]. destruct (head_at (S g) x Ex) as (q & _ & Hx & _).
    assert (j < x)%nat by (eapply (heads_lt g (S g)); [lia|done|done]). apply (Hpos x q); [|done|intros _; by apply (head_users j x p q)].
    destruct Hx as [Eq _]. apply lookup_lt_Some in Eq. lia.
Qed.

(** Past a head, all that has its user key may be skipped. *)
Lemma may_skip_head i j p : head j p -> (forall x q, (x < i)%nat -> ps !! x = Some q -> sequence q <= s -> lt (user_key q) (user_key p)) ->
  (forall x q, (i <= x)%nat -> ps !! x = Some q -> sequence q <= s -> le_ (user_key p) (user_key q)) ->
  may_skip (user := user) (uvalid := uvalid) (ps := ps) (s := s) i true (user_key p).
Proof using Hps Huser.
  intros Hj H1 H2. pose proof Hj as (Ep & _). pose proof (parsed_valid (Hps := Hps) j p Ep) as Hvp. split; [done| |].
  - intros j' q x y Hx Eq Hq Ey Hn. split; [done|]. pose proof (parsed_valid (Hps := Hps) j' q Eq) as Hvq. pose proof (parsed_valid (Hps := Hps) x y Ey) as Hvy.
    apply (key_le_trans (valid := uvalid) _ (user_key q)); try done; [by apply (not_lt (uvalid := uvalid))|]. apply key_lt_le, (H1 j'); [lia|done|done].
  - intros x q _. apply H2.
Qed.

Lemma internal_key_at t j p : at_internal (iter_ (t : dbiter)) (Some j) -> ps !! j = Some p ->
  exists k, key (iter_ t) = Some k /\ ExtractUserKey k = Some (user_key p) /\ exists e, es !! j = Some e /\ value (iter_ t) = Some e.2.
Proof using Hps Hit.
  intros Hj Ep. destruct (it_entry (IteratorOk := Hit) _ _ Hj) as (e & Ee & Ek & Ev). destruct (parsed_at (Hps := Hps) j p Ep) as (e' & Ee' & He).
  assert (e' = e) as -> by congruence. exists e.1. split; [done|]. split; [exact (proj2 (parse_entry (le := le) (uvalid := uvalid) e p He))|]. by exists e.
Qed.

Lemma front_before i j p pi : head j p -> ps !! i = Some pi -> lt (user_key pi) (user_key p) -> (i < j)%nat.
Proof using Hps Hsorted Huser.
  intros (Ep & _) Epi Hl. destruct (decide (i < j)%nat) as [|Hn]; [done|]. exfalso. eapply key_lt_not_le; [exact Hl|].
  apply (users_le (Hps := Hps) (Hsorted := Hsorted) j i); [lia|done|done].
Qed.

(** From the entries in front of a head into those of its user key. *)
Lemma into_range (t : dbiter) j p q : head j p -> at_internal (iter_ t) q -> in_front (user := user) (ps := ps) (s := s) q p ->
  exists i it', (if negb (bool_decide (is_Some q)) then SeekToFirst else Next) (iter_ t) = Some it' /\ at_internal it' (Some i) /\ (i <= j)%nat /\
    (forall x px, (x < i)%nat -> ps !! x = Some px -> sequence px <= s -> lt (user_key px) (user_key p)) /\
    forall x px, (i <= x)%nat -> ps !! x = Some px -> sequence px <= s -> le_ (user_key p) (user_key px).
Proof using Hps Hsorted Huser Hit.
  intros Hj Hq [Hf1 Hf2]. pose proof Hj as (Ep & _). apply lookup_lt_Some in Ep as Hlen. pose proof (length_es (Hps := Hps)) as Hl. destruct q as [i|].
  - change (bool_decide (is_Some (Some i))) with true. cbn [negb]. destruct (it_next (IteratorOk := Hit) _ _ Hq) as (it' & E & Hi).
    destruct (it_entry (IteratorOk := Hit) _ _ Hq) as (ei & Eei & _). destruct (parsed_of (Hps := Hps) i ei Eei) as (pi & Epi & _).
    assert (i < j)%nat as Hij by (eapply front_before; [exact Hj|exact Epi|by apply (Hf1 i pi)]).
    unfold next_pos in Hi. rewrite decide_True in Hi by lia. exists (S i), it'. split; [exact E|]. split; [done|]. split; [lia|]. split; [|intros x px Hx; apply Hf2; lia].
    intros x px Hx Epx _. apply (key_le_lt_trans (valid := uvalid) _ (user_key pi)); [by eapply (parsed_valid (Hps := Hps))..| |by apply (Hf1 i pi)].
    apply (users_le (Hps := Hps) (Hsorted := Hsorted) x i); [lia|done|done].
  - change (bool_decide (is_Some (@None nat))) with false. cbn [negb]. destruct (it_first (IteratorOk := Hit) _ _ Hq) as (it' & E & Hi).
    unfold first_pos in Hi. rewrite decide_False in Hi by (intros ->; simpl in *; lia). exists 0%nat, it'. split; [exact E|]. split; [done|]. split; [lia|].
    split; [intros; lia|]. intros x px _. by apply Hf2.
Qed.

(** Behind the head that a search backwards finds there is no other before [j]. *)
Lemma prev_at t i g j p : heads !! g = Some j -> head j p -> (i < j)%nat -> (forall x q, (i < x < j)%nat -> ~ head x q) -> steady t ->
  prev_result (user := user) (es := es) (ps := ps) (at_internal := at_internal) (s := s) i t -> dbi_at t (prev_pos g).
Proof using le Hps.
  intros Ej Hj Hij Hgap Ht Hres. destruct (backward_at i t Ht Hres) as (r & Hr & Hpos). destruct r as [g'|].
  - destruct Hpos as (j' & p' & Ej' & Hj' & Hle & Hno). assert (g = S g') as ->; [|done].
    apply (next_heads g' g j' j); [done|done|lia|]. intros x q Hx. destruct (decide (x <= i)%nat); [apply Hno; lia|apply Hgap; lia].
  - assert (g = O) as ->; [|done]. apply (first_heads g j); [done|]. intros x q Hx. destruct (decide (x <= i)%nat); [by apply Hpos|apply Hgap; lia].
Qed.

Lemma no_head_behind j p x q : head j p -> (x < j)%nat -> le_ (user_key p) (user_key q) -> ~ head x q.
Proof using Huser.
  intros (_ & _ & _ & Hfirst) Hx Hle (Eq & Hq & _). eapply key_lt_not_le; [by apply (Hfirst x q)|done].
Qed.

Lemma invalid_first t g j : heads !! g = Some j -> (forall x q, (x < j)%nat -> ~ head x q) -> steady t -> valid_ t = false -> (exists q, at_internal (iter_ t) q) ->
  dbi_at t (prev_pos g).
Proof using le Hps. intros Ej Hno Ht Hv Hq. assert (g = O) as -> by by apply (first_heads g j). by split. Qed.

(** Back over the versions of the key of the head at [j]. *)
Lemma dbi_scan_back_spec j p : head j p -> forall n t i, steady t -> saved_key_ t = user_key p -> at_internal (iter_ t) (Some i) -> (i <= j)%nat -> (i <= n)%nat ->
  (forall x q, (i <= x < j)%nat -> ps !! x = Some q -> le_ (user_key p) (user_key q)) ->
  exists more t', scan_back user n t = Some (more, t') /\ steady t' /\
    if more then exists i', (i' < j)%nat /\ at_internal (iter_ t') (Some i') /\ forall x q, (i' < x < j)%nat -> ps !! x = Some q -> le_ (user_key p) (user_key q)
    else valid_ t' = false /\ at_internal (iter_ t') None /\ forall x q, (x < j)%nat -> ps !! x = Some q -> le_ (user_key p) (user_key q).
Proof using Hps Huser Hit.
  intros Hj. pose proof Hj as (Ep & _). pose proof (parsed_valid (Hps := Hps) j p Ep) as Hvp.
  induction n as [|n IH]; intros t i Ht Hk Hi Hij Hn Hge; cbn [scan_back]; unfold on_iter_; destruct (it_prev (IteratorOk := Hit) _ _ Hi) as (it' & E & Hi'); rewrite E;
    cbn [mbind option_bind iter_ set_iter]; rewrite (it_valid (IteratorOk := Hit) _ _ Hi'); (destruct i as [|i]; cbn [prev_pos] in *;
      [eexists false, _; split; [done|]; split; [done|]; split; [done|]; split; [done|]; intros x q Hx; apply Hge; lia|]); [lia|].
  change (bool_decide (is_Some (Some i))) with true. cbn [negb]. destruct (lookup_lt_is_Some_2 ps i) as [pi Epi]; [apply lookup_lt_Some in Ep; lia|].
  destruct (internal_key_at (set_iter it' t) i pi Hi' Epi) as (k & Ek & Eu & _). cbn [iter_ set_iter] in Ek. rewrite Ek. cbn [mbind option_bind]. rewrite Eu.
  cbn [mbind option_bind saved_key_ set_iter]. rewrite Hk. pose proof (parsed_valid (Hps := Hps) i pi Epi) as Hvi.
  destruct (compare_defined (user_key pi) (user_key p) Hvi Hvp) as [r Er]. rewrite Er. cbn [mbind option_bind]. destruct (cmp_sign _ _ _ Er) as [Hlt _].
  destruct (Z.ltb_spec r 0) as [Hr|Hr].
  - eexists true, _. split; [done|]. split; [done|]. exists i. split; [lia|]. split; [done|]. intros x q Hx. apply Hge. lia.
  - apply (IH (set_iter it' t) i); try done; [lia|lia|]. intros x q Hx Eq. destruct (decide (x = i)) as [->|]; [|apply (Hge x q); [lia|done]].
    assert (q = pi) as -> by congruence. apply (not_lt (uvalid := uvalid)); try done. intros Hl. apply Hlt in Hl. lia.
Qed.

Context {fuel : nat} {Hfuel : (length ps <= fuel)%nat}.

Lemma dbi_Next_spec t g : dbi_at t (Some g) -> exists t', dbi_Next le user fuel t = Some t' /\ dbi_at t' (next_pos view g).
Proof using Hps Hsorted Huser Hit Hfuel.
  intros [Ht (Hv & j & p & Ej & Hj & Hd)]. pose proof Hj as (Ep & Hp & _ & Hfirst). unfold dbi_Next. rewrite Hv. cbn [negb]. destruct (direction_ t) eqn:Edir.
  - destruct (internal_key_at t j p Hd Ep) as (k & Ek & Eu & _). rewrite Ek. cbn [mbind option_bind]. rewrite Eu. cbn [mbind option_bind].
    destruct (FindNext_spec (le := le) (s := s) (Huser := Huser) (Hps := Hps) (Hsorted := Hsorted) (Hit := Hit) (sampler := sampler) fuel (set_saved_key (user_key p) t) j p true Hfuel)
      as (t' & E & Ht' & Hd' & Hres); try done.
    { apply (may_skip_head j j p Hj Hfirst). intros x q Hx Eq _. by apply (users_le (Hps := Hps) (Hsorted := Hsorted) j x). }
    exists t'. split; [exact E|]. by apply (next_at t' j g j p).
  - destruct Hd as (Hk & _ & q & Hq & Hf1 & Hf2). unfold on_iter_. cbn [iter_ set_direction]. rewrite (it_valid (IteratorOk := Hit) _ _ Hq).
    destruct (into_range t j p q Hj Hq (conj Hf1 Hf2)) as (i & it' & E & Hi & Hij & H1 & H2).
    rewrite E. cbn [mbind option_bind iter_ set_iter]. rewrite (it_valid (IteratorOk := Hit) _ _ Hi). change (bool_decide (is_Some (Some i))) with true. cbn [negb].
    destruct (lookup_lt_is_Some_2 ps i) as [pi Epi]; [apply lookup_lt_Some in Ep; lia|].
    destruct (FindNext_spec (le := le) (s := s) (Huser := Huser) (Hps := Hps) (Hsorted := Hsorted) (Hit := Hit) (sampler := sampler) fuel (set_iter it' (set_direction kForward t)) i pi true Hfuel)
      as (t' & E' & Ht' & Hd' & Hres); try done.
    { cbn [saved_key_ set_iter set_direction]. rewrite Hk. by apply (may_skip_head i j p). }
    exists t'. split; [exact E'|]. cbn [saved_key_ set_iter set_direction] in Hres. rewrite Hk in Hres. by apply (next_at t' i g j p).
Qed.
Lemma FindPrev_at t i : steady t -> direction_ t = kReverse -> at_internal (iter_ t) (Some i) -> (i < length ps)%nat ->
  exists t', FindPrevUserEntry le user fuel t = Some t' /\ steady t' /\ prev_result (user := user) (es := es) (ps := ps) (at_internal := at_internal) (s := s) i t'.
Proof using Hps Hsorted Huser Hit Hfuel.
  intros Ht Hd Hi Hl. destruct (lookup_lt_is_Some_2 ps i Hl) as [pi Epi].
  by apply (FindPrev_spec (le := le) (s := s) (Huser := Huser) (Hps := Hps) (Hsorted := Hsorted) (Hit := Hit) (sampler := sampler) fuel t i pi Hfuel).
Qed.

Lemma dbi_Prev_spec t g : dbi_at t (Some g) -> exists t', dbi_Prev le user fuel t = Some t' /\ dbi_at t' (prev_pos g).
Proof using Hps Hsorted Huser Hit Hfuel.
  intros [Ht (Hv & j & p & Ej & Hj & Hd)]. pose proof Hj as (Ep & Hp & _ & Hfirst). apply lookup_lt_Some in Ep as Hlen. unfold dbi_Prev. rewrite Hv. cbn [negb].
  destruct (direction_ t) eqn:Edir.
  - rewrite (it_valid (IteratorOk := Hit) _ _ Hd). change (bool_decide (is_Some (Some j))) with true. cbn [negb].
    destruct (internal_key_at t j p Hd Ep) as (k & Ek & Eu & _). rewrite Ek. cbn [mbind option_bind]. rewrite Eu. cbn [mbind option_bind].
    destruct (dbi_scan_back_spec j p Hj fuel (set_saved_key (user_key p) t) j) as (more & t1 & E & Ht1 & Hres); try done; [lia|intros; lia|].
    rewrite E. cbn [mbind option_bind]. destruct more.
    + destruct Hres as (i & Hij & Hi & Hge). destruct (FindPrev_at (set_direction kReverse t1) i) as (t' & E' & Ht' & Hres'); try done; [lia|].
      exists t'. split; [exact E'|]. apply (prev_at t' i g j p); try done. intros x q Hx Hq. destruct Hq as [Eq Hq]. by apply (no_head_behind j p x q Hj); [lia|apply (Hge x q)|].
    + destruct Hres as (Hv1 & Hn & Hge). exists t1. split; [done|]. apply (invalid_first t1 g j); try done; [|by eexists].
      intros x q Hx Hq. pose proof Hq as [Eq _]. by apply (no_head_behind j p x q Hj Hx); [apply (Hge x q)|].
  - destruct Hd as (Hk & _ & q & Hq & Hf1 & Hf2). destruct q as [i|].
    + destruct (it_entry (IteratorOk := Hit) _ _ Hq) as (ei & Eei & _). destruct (parsed_of (Hps := Hps) i ei Eei) as (pi & Epi & _).
      assert (i < j)%nat as Hij by (eapply front_before; [exact Hj|exact Epi|by apply (Hf1 i pi)]).
      destruct (FindPrev_at t i) as (t' & E' & Ht' & Hres'); try done; [lia|]. exists t'. split; [exact E'|]. apply (prev_at t' i g j p); try done.
      intros x q Hx Hh. pose proof Hh as (Eq & Hs' & _). by apply (no_head_behind j p x q Hj); [lia|apply (Hf2 x q); [lia|done|done]|].
    + destruct (FindPrev_none (le := le) (user := user) (s := s) (Hit := Hit) (sampler := sampler) fuel t Ht Edir Hq) as (t' & E' & Ht' & Hv' & Hq').
      exists t'. split; [exact E'|]. apply (invalid_first t' g j); try done. intros x q Hx Hh. pose proof Hh as (Eq & Hs' & _).
      by apply (no_head_behind j p x q Hj Hx); [apply (Hf2 x q)|].
Qed.
Lemma seek_forward_spec t q : steady t -> direction_ t = kForward -> at_internal (iter_ t) q -> (default (length ps) q <= length ps)%nat ->
  (forall i j x p px, q = Some i -> (j < i <= x)%nat -> ps !! j = Some p -> sequence p <= s -> ps !! x = Some px -> lt (user_key p) (user_key px)) ->
  exists t' r, seek_forward le user fuel t = Some t' /\ dbi_at t' r /\
    match r with
    | Some g => exists j p, heads !! g = Some j /\ head j p /\ (default (length ps) q <= j)%nat /\ forall x p, (default (length ps) q <= x < j)%nat -> ~ head x p
    | None => forall x p, (default (length ps) q <= x)%nat -> ~ head x p
    end.
Proof using Hps Hsorted Huser Hit Hfuel.
  intros Ht Hd Hq Hl Hsep. unfold seek_forward. rewrite (it_valid (IteratorOk := Hit) _ _ Hq). destruct q as [i|]; cbn [default] in *.
  - change (bool_decide (is_Some (Some i))) with true. cbv iota. destruct (it_entry (IteratorOk := Hit) _ _ Hq) as (ei & Eei & _).
    destruct (parsed_of (Hps := Hps) i ei Eei) as (pi & Epi & _).
    destruct (FindNext_spec (le := le) (s := s) (Huser := Huser) (Hps := Hps) (Hsorted := Hsorted) (Hit := Hit) (sampler := sampler) fuel t i pi false Hfuel)
      as (t' & E & Ht' & Hd' & Hres); try done.
    { split; [done| |done]. intros j p x px Hx Ep Hp Epx Hn. by destruct (Hn (Hsep i j x p px eq_refl Hx Ep Hp Epx)). }
    destruct (forward_at i false (saved_key_ t) t' Ht' Hd' Hres) as (r & Hr & Hpos). exists t', r. split; [done|]. split; [done|]. destruct r as [g|].
    + destruct Hpos as (j & p & Ej & Hj & Hij & _ & Hno). exists j, p. split; [done|]. split; [done|]. split; [done|]. intros x px Hx Hh. by apply (Hno x px Hx Hh).
    + intros x px Hx Hh. pose proof Hh as [Epx _]. apply lookup_lt_Some in Epx. simpl in Hx. by apply (Hpos x px ltac:(lia) Hh).
  - change (bool_decide (is_Some (@None nat))) with false. cbv iota. eexists _, None. split; [done|]. split; [by split; [done|split; [done|by exists None]]|].
    intros x p Hx [Ep _]. apply lookup_lt_Some in Ep. simpl in Hx. lia.
Qed.

Lemma dbi_SeekToFirst_spec t g : dbi_at t g -> exists t', dbi_SeekToFirst le user fuel t = Some t' /\ dbi_at t' (first_pos view).
Proof using Hps Hsorted Huser Hit Hfuel.
  intros Ht. destruct (dbi_internal t g Ht) as [q Hq]. destruct Ht as [Ht _]. unfold dbi_SeekToFirst, on_iter_. cbn [iter_ ClearSavedValue set_saved_value set_direction].
  destruct (it_first (IteratorOk := Hit) _ _ Hq) as (it' & E & Hi). rewrite E. cbn [mbind option_bind]. pose proof (length_es (Hps := Hps)) as Hl.
  destruct (seek_forward_spec (set_iter it' (ClearSavedValue (set_direction kForward t))) (first_pos es)) as (t' & r & E' & Hr & Hpos); try done.
  { unfold first_pos. case_decide; simpl; lia. }
  { unfold first_pos. intros i j x p px. case_decide; [done|]. intros [= <-]. lia. }
  exists t'. split; [done|]. assert (default (length ps) (first_pos es) = O) as E0.
  { unfold first_pos. case_decide as Hes; [|done]. rewrite Hes in Hl. simpl in *. lia. }
  rewrite E0 in Hpos. replace (first_pos view) with r; [done|]. unfold first_pos. destruct r as [g'|].
  - destruct Hpos as (j & p & Ej & Hj & _ & Hno). rewrite (first_heads g' j Ej) by (intros; apply Hno; lia). rewrite decide_False; [done|].
    intros Hnil. pose proof length_view as Hlv. rewrite Hnil in Hlv. apply lookup_lt_Some in Ej. simpl in *. lia.
  - rewrite decide_True; [done|]. apply nil_length_inv. assert (length view <= 0)%nat; [|lia]. apply no_heads_from. intros x p _. apply Hpos. lia.
Qed.

Lemma dbi_SeekToLast_spec t g : dbi_at t g -> exists t', dbi_SeekToLast le user fuel t = Some t' /\ dbi_at t' (last_pos view).
Proof using Hps Hsorted Huser Hit Hfuel.
  intros Ht. destruct (dbi_internal t g Ht) as [q Hq]. destruct Ht as [Ht _]. unfold dbi_SeekToLast, on_iter_. cbn [iter_ ClearSavedValue set_saved_value set_direction].
  destruct (it_last (IteratorOk := Hit) _ _ Hq) as (it' & E & Hi). rewrite E. cbn [mbind option_bind]. pose proof (length_es (Hps := Hps)) as Hl.
  set (t1 := set_iter it' (ClearSavedValue (set_direction kReverse t))). assert (steady t1) as Ht1 by done. unfold last_pos in Hi. case_decide as Hes.
  - destruct (FindPrev_none (le := le) (user := user) (s := s) (Hit := Hit) (sampler := sampler) fuel t1 Ht1 eq_refl Hi) as (t' & E' & Ht' & Hv' & Hq').
    exists t'. split; [done|]. unfold last_pos. rewrite decide_True; [by split|]. unfold user_view. rewrite Hes. done.
  - assert (length es <> O) by (intros ?; apply Hes; by apply nil_length_inv).
    destruct (FindPrev_at t1 (length es - 1)) as (t' & E' & Ht' & Hres); try done; [lia|]. exists t'. split; [done|].
    destruct (backward_at (length es - 1) t' Ht' Hres) as (r & Hr & Hpos). replace (last_pos view) with r; [done|]. unfold last_pos. destruct r as [g'|].
    + destruct Hpos as (j & p & Ej & Hj & _ & Hno). pose proof (lookup_lt_Some _ _ _ Ej) as Hg. pose proof length_view as Hlv. rewrite decide_False by (intros Hnil; rewrite Hnil in Hlv; simpl in *; lia).
      f_equal. assert (length view <= S g')%nat; [|lia]. apply no_heads_from. intros x px Ex Hh. apply (Hno x px); [|done].
      split; [eapply (heads_lt g' (S g')); [lia|done|done]|]. destruct Hh as [Epx _]. apply lookup_lt_Some in Epx. lia.
    + rewrite decide_True; [done|]. apply nil_length_inv. assert (length view <= 0)%nat; [|lia]. apply no_heads_from. intros x p _ Hh. apply (Hpos x p); [|done].
      destruct Hh as [Ep _]. apply lookup_lt_Some in Ep. lia.
Qed.
Lemma dbi_Seek_spec T t g : uvalid T -> dbi_at t g -> exists t', dbi_Seek le user fuel T t = Some t' /\ dbi_at t' (seek_pos user T view).
Proof using Hps Hs Hsorted Huser Hit Hfuel.
  intros HT Ht. destruct (dbi_internal t g Ht) as [q0 Hq0]. destruct Ht as [Ht _]. pose proof seek_packed as [Epack Hr]. unfold dbi_Seek, AppendInternalKey.
  cbn [user_key sequence vtype saved_key_ sequence_ set_saved_key ClearSavedValue set_saved_value set_direction]. rewrite (proj1 Ht), Epack. cbn [mbind option_bind app].
  rewrite PutFixed64_internal. unfold on_iter_. cbn [iter_ saved_key_ set_saved_key ClearSavedValue set_saved_value set_direction].
  destruct (it_seek (IteratorOk := Hit) _ _ (target_key T) Hq0) as (it' & E & Hi); [by eexists _, _|]. rewrite E. cbn [mbind option_bind].
  pose proof (seek_pos_spec icmp (target_key T) es) as Hsp. set (q := seek_pos icmp (target_key T) es) in *. pose proof (length_es (Hps := Hps)) as Hl.
  assert (forall x p, ps !! x = Some p -> sequence p <= s -> (x < default (length ps) q)%nat -> lt (user_key p) T) as Hbefore.
  { intros x p Ep Hp Hx. destruct (parsed_at (Hps := Hps) x p Ep) as (e & Ee & _). apply (lt_target T x p e); try done. destruct q as [i|]; simpl in Hx.
    - destruct Hsp as (_ & _ & _ & H). by apply (H x e).
    - apply Hsp, list_elem_of_In. by eapply list_elem_of_lookup_2. }
  assert (forall x p, ps !! x = Some p -> (default (length ps) q <= x)%nat -> le_ T (user_key p)) as Hafter.
  { intros x p Ep Hx. destruct q as [i|]; simpl in Hx; [|apply lookup_lt_Some in Ep; lia]. destruct Hsp as (e & Ee & Hge & _).
    destruct (parsed_of (Hps := Hps) i e Ee) as (pi & Epi & _). apply (key_le_trans (valid := uvalid) _ (user_key pi)); try done; [by eapply (parsed_valid (Hps := Hps))..| |].
    - by apply (ge_target T i pi e).
    - by apply (users_le (Hps := Hps) (Hsorted := Hsorted) i x). }
  match goal with |- exists t', seek_forward _ _ _ ?t1 = _ /\ _ => destruct (seek_forward_spec t1 q) as (t' & r & E' & Hr' & Hpos) end; try done.
  { destruct q as [i|]; simpl; [|lia]. destruct Hsp as (e & Ee & _). apply lookup_lt_Some in Ee. lia. }
  { intros i j x p px -> Hx Ep Hp Epx. apply (key_lt_le_trans (valid := uvalid) _ T); [by eapply (parsed_valid (Hps := Hps))|done|by eapply (parsed_valid (Hps := Hps))| |].
    - apply (Hbefore j p Ep Hp). simpl. lia.
    - apply (Hafter x px Epx). simpl. lia. }
  exists t'. split; [done|]. replace (seek_pos user T view) with r; [done|]. symmetry. destruct r as [g'|].
  - destruct Hpos as (j & p & Ej & Hj & Hqj & Hno). destruct (head_at g' j Ej) as (p' & e & Hj' & Ee & Ev). assert (p' = p) as -> by (symmetry; eapply head_fun; [done|apply Hj']).
    pose proof (parsed_valid (Hps := Hps) j p (proj1 Hj)) as Hvp. apply (seek_pos_at _ _ _ _ _ Ev).
    + apply (key_ge_true (valid := uvalid)); [done|done|]. apply (Hafter j p); [apply Hj|done].
    + intros g1 v Hg Ev1. destruct (view_at g1 v Ev1) as (x & px & e1 & Ex & Hx & _ & ->). apply (key_ge_false (valid := uvalid)); [done|by eapply (parsed_valid (Hps := Hps)), Hx|].
      pose proof (heads_lt g1 g' x j Hg Ex Ej). apply (Hbefore x px); [apply Hx|apply Hx|]. destruct (decide (x < default (length ps) q)%nat) as [|Hn]; [done|].
      exfalso. apply (Hno x px); [lia|done].
  - apply seek_pos_none. intros v Hv. apply list_elem_of_In, list_elem_of_lookup_1 in Hv. destruct Hv as [g1 Ev1]. destruct (view_at g1 v Ev1) as (x & px & e1 & Ex & Hx & _ & ->).
    apply (key_ge_false (valid := uvalid)); [done|by eapply (parsed_valid (Hps := Hps)), Hx|]. apply (Hbefore x px); [apply Hx|apply Hx|].
    destruct (decide (x < default (length ps) q)%nat) as [|Hn]; [done|]. exfalso. apply (Hpos x px); [lia|done].
Qed.

Lemma dbi_entry t g : dbi_at t (Some g) -> exists v, view !! g = Some v /\ dbi_key t = Some v.1 /\ dbi_value t = Some v.2.
Proof using Hps Hit.
  intros [Ht (Hv & j & p & Ej & Hj & Hd)]. destruct (head_at g j Ej) as (p' & e & Hj' & Ee & Ev). assert (p' = p) as -> by (symmetry; eapply head_fun; [done|apply Hj']).
  exists (user_key p, e.2). split; [done|]. unfold dbi_key, dbi_value. rewrite Hv. destruct (direction_ t).
  - destruct (internal_key_at t j p Hd (proj1 Hj)) as (k & Ek & Eu & e' & Ee' & Eval). rewrite Ek. cbn [mbind option_bind]. split; [done|]. rewrite Eval. simpl. congruence.
  - destruct Hd as (-> & (e' & Ee' & ->) & _). split; [done|]. simpl. congruence.
Qed.

(** All that the contract asks. *)
Lemma DBIter_ok : IteratorOk (DBIter_iterator le user fuel) user uvalid view dbi_at.
Proof using Hps Hs Hsorted Huser Hit Hfuel.
  split; cbn [Valid SeekToFirst SeekToLast Seek Next Prev key value status DBIter_iterator].
  - intros t g [_ H]. destruct g as [g|]; [by rewrite (proj1 H)|by rewrite (proj1 H)].
  - intros t g Ht. by apply dbi_entry.
  - intros t g. apply dbi_SeekToFirst_spec.
  - intros t g. apply dbi_SeekToLast_spec.
  - intros t g T Ht HT. by apply (dbi_Seek_spec T t g).
  - intros t g. apply dbi_Next_spec.
  - intros t g. apply dbi_Prev_spec.
  - intros t g Ht. destruct (dbi_internal t g Ht) as [q Hq]. destruct Ht as [(_ & Hst & _) _]. unfold dbi_status. rewrite Hst. cbn [ok OK]. by apply (it_status (IteratorOk := Hit) _ q).
Qed.
End Correct.

(** C6. Over any iterator of internal keys that keeps its contract,
    [DBIter] is an iterator over what the snapshot shows: the user keys, in
    order, whose newest version with a sequence number of the snapshot or
    before is a value, each with that value.  All of its operations return,
    whatever mixture of them comes before, forwards and backwards. *)
Theorem db_iterator {I D} (le : bool) (user : Comparator) (uvalid : list byte -> Prop) (Huser : ComparatorOk user uvalid) (it : Iterator I)
    (sampler : ReadSampler D) (es : list entry) (at_internal : I -> option nat -> Prop) (s : Z) (fuel : nat) (db : D) (iter : I) (q : option nat) (seed : Z) :
  IteratorOk it (InternalKeyComparator le user) (valid_internal (valid := uvalid)) es at_internal -> at_internal iter q ->
  Forall (fun e => exists p, parsed_as uvalid e p) es -> keys_sorted (InternalKeyComparator le user) es ->
  0 <= s <= kMaxSequenceNumber -> (length es <= fuel)%nat ->
  keys_sorted user (user_view le user s es) /\
  (forall u v, In (u, v) (user_view le user s es) <-> newest_value (user := user) (uvalid := uvalid) (es := es) (s := s) u v) /\
  exists at_pos, at_pos (NewDBIterator db iter s seed) None /\ IteratorOk (DBIter_iterator le user fuel) user uvalid (user_view le user s es) at_pos.
Proof.
  intros Hit Hq Hes Hsorted Hs Hf. assert (exists ps, Forall2 (parsed_as uvalid) es ps) as [ps Hps].
  { clear -Hes. induction Hes as [|e es [p He] _ [ps IH]]; [by exists []|]. exists (p :: ps). by constructor. }
  assert (length ps <= fuel)%nat as Hfuel by (rewrite <- (Forall2_length _ _ _ Hps); lia).
  split; [by eapply (view_sorted (Hps := Hps) (Hsorted := Hsorted))|]. split; [intros u v; by apply (view_newest (Hps := Hps) (Hsorted := Hsorted))|].
  exists (dbi_at (user := user) (es := es) (ps := ps) (at_internal := at_internal) (s := s)).
  split; [|by apply (DBIter_ok (Hs := Hs) (Hps := Hps) (Hsorted := Hsorted) (Hit := Hit) (Hfuel := Hfuel))].
  unfold NewDBIterator, new_DBIter, RandomPeriod, Uniform, kReadBytesPeriod. change (2 * 1048576) with (2 ^ 21). cbv zeta.
  destruct (RandomNext_mod _ (new_Random_good seed)) as [_ Hr]. split; [|split; [done|by exists q]].
  split; [done|]. split; [done|]. split; [done|]. apply Z.mod_pos_bound. lia.
Qed.
