(* ===== verification/FileName.v ===== *)
(** * Names of database files and numbers as text: util/logging.cc, db/filename.cc, util/env.cc

    [None] is a failed assertion.  Files are reached through the interface of
    [Env]; a file name is a string of bytes. *)
From S2P Require Import Prelude Coding Comparator DbFormat Status.

(** ** printf *)

Definition digit (d : Z) : byte := byte_of (48 + d).

Fixpoint decimal_loop (fuel : nat) (v : Z) (acc : list byte) : list byte :=
  match fuel with
  | O => acc
  | S fuel' => let acc := digit (v mod 10) :: acc in if v <? 10 then acc else decimal_loop fuel' (v / 10) acc
  end.

(** [%llu]: a 64-bit number has at most 20 digits. *)
Definition decimal (v : Z) : list byte := decimal_loop 20 v [].

(** [%06llu] *)
Definition decimal06 (v : Z) : list byte := replicate (6 - length (decimal v)) (digit 0) ++ decimal v.

Definition hex_digit (d : Z) : byte := byte_of (if d <? 10 then 48 + d else 87 + d).

(** [%02x] of a byte. *)
Definition hex02 (v : Z) : list byte := [hex_digit (v / 16); hex_digit (v mod 16)].

(** What [snprintf] leaves in a buffer of [size] bytes, up to the NUL. *)
Definition snprintf (size : nat) (text : list byte) : list byte := take (size - 1) text.

(** ** util/logging.cc *)

Definition AppendNumberTo (str : list byte) (num : Z) : list byte := str ++ snprintf 30 (decimal num).

Definition escape_char (ch : byte) : list byte :=
  let c := s8 (byte_val ch) in
  if (32 <=? c) && (c <=? 126) then [ch] else snprintf 10 (bytes_of "\x" ++ hex02 (Z.land (u32 c) 0xff)).

Fixpoint AppendEscapedStringTo (str value : list byte) : list byte :=
  match value with [] => str | c :: value' => AppendEscapedStringTo (str ++ escape_char c) value' end.

Definition NumberToString (num : Z) : list byte := AppendNumberTo [] num.
Definition EscapeString (value : list byte) : list byte := AppendEscapedStringTo [] value.

Definition kMaxUint64 : Z := 2 ^ 64 - 1.

(** [inl]: [digits], [v] and what is left of the input; [inr]: what is left after an overflow.  It would take 2^31
    digits to overflow [digits]. *)
Fixpoint consume_loop (digits v : Z) (inp : list byte) : (Z * Z * list byte) + list byte :=
  match inp with
  | [] => inl (digits, v, inp)
  | ch :: inp' =>
      let c := s8 (byte_val ch) in
      if (48 <=? c) && (c <=? 57) then
        let delta := c - 48 in
        if (kMaxUint64 / 10 <? v) || ((v =? kMaxUint64 / 10) && (kMaxUint64 mod 10 <? delta)) then inr inp
        else consume_loop (digits + 1) (u64 (v * 10 + delta)) inp'
      else inl (digits, v, inp)
  end.

(** The returned bool, [*val] and what is left of [*in]. *)
Definition ConsumeDecimalNumber (inp : list byte) (val : Z) : bool * Z * list byte :=
  match consume_loop 0 0 inp with
  | inl (digits, v, rest) => (0 <? digits, v, rest)
  | inr rest => (false, val, rest)
  end.

(** ** Keys as text: db/dbformat.cc *)

Definition ParsedInternalKey_DebugString (p : ParsedInternalKey) : list byte :=
  bytes_of "'" ++ EscapeString (user_key p) ++ snprintf 50 (bytes_of "' @ " ++ decimal (sequence p) ++ bytes_of " : " ++ decimal (vtype p)).

Definition InternalKey_DebugString (kLittleEndian : bool) (rep : list byte) : option (list byte) :=
  '(ok, parsed) ← ParseInternalKey kLittleEndian rep (Parsed [] 0 0);
  Some (if (ok : bool) then ParsedInternalKey_DebugString parsed else bytes_of "(bad)" ++ EscapeString rep).

(** ** db/filename.cc: making names *)

Inductive FileType := kLogFile | kDBLockFile | kTableFile | kDescriptorFile | kCurrentFile | kTempFile | kInfoLogFile.

Definition MakeFileName (name : list byte) (number : Z) (suffix : list byte) : list byte :=
  name ++ snprintf 100 (bytes_of "/" ++ decimal06 number ++ bytes_of "." ++ suffix).

Definition named (suffix : string) (name : list byte) (number : Z) : option (list byte) :=
  if 0 <? number then Some (MakeFileName name number (bytes_of suffix)) else None.

Definition LogFileName := named "log".
Definition TableFileName := named "ldb".
Definition SSTTableFileName := named "sst".
Definition TempFileName := named "dbtmp".

Definition DescriptorFileName (dbname : list byte) (number : Z) : option (list byte) :=
  if 0 <? number then Some (dbname ++ snprintf 100 (bytes_of "/MANIFEST-" ++ decimal06 number)) else None.

Definition CurrentFileName (dbname : list byte) : list byte := dbname ++ bytes_of "/CURRENT".
Definition LockFileName (dbname : list byte) : list byte := dbname ++ bytes_of "/LOCK".
Definition InfoLogFileName (dbname : list byte) : list byte := dbname ++ bytes_of "/LOG".
Definition OldInfoLogFileName (dbname : list byte) : list byte := dbname ++ bytes_of "/LOG.old".

(** ** Recognising names *)

Definition is_name (s : string) (x : list byte) : bool := slice_eqb x (bytes_of s).

(** The number and the type when it returns true; otherwise neither is stored. *)
Definition ParseFileName (fname : list byte) : option (option (Z * FileType)) :=
  let rest := fname in
  if is_name "CURRENT" rest then Some (Some (0, kCurrentFile))
  else if is_name "LOCK" rest then Some (Some (0, kDBLockFile))
  else if is_name "LOG" rest || is_name "LOG.old" rest then Some (Some (0, kInfoLogFile))
  else if starts_with rest (bytes_of "MANIFEST-") then
    rest ← remove_prefix rest (length (bytes_of "MANIFEST-"));
    let '(ok, num, rest) := ConsumeDecimalNumber rest 0 in
    if negb ok then Some None else if negb (bool_decide (rest = [])) then Some None else Some (Some (num, kDescriptorFile))
  else
    let '(ok, num, suffix) := ConsumeDecimalNumber rest 0 in
    if negb ok then Some None
    else if is_name ".log" suffix then Some (Some (num, kLogFile))
    else if is_name ".sst" suffix || is_name ".ldb" suffix then Some (Some (num, kTableFile))
    else if is_name ".dbtmp" suffix then Some (Some (num, kTempFile))
    else Some None.

(** ** Files through [Env]: util/env.cc and [SetCurrentFile] *)

(** [E] is the file system, [F] a file that is open for writing. *)
Class Env (E F : Type) := {
  NewWritableFile : list byte -> E -> Status * option F * E;
  env_Append : list byte -> F -> E -> Status * F * E;
  env_Sync : F -> E -> Status * F * E;
  env_Close : F -> E -> Status * F * E;
  delete_file : F -> E -> E;   (* the destructor of the file *)
  RenameFile : list byte -> list byte -> E -> Status * E;
  DeleteFile : list byte -> E -> Status * E;
}.

Section Env.
Context {E F : Type} {env : Env E F}.

(** [None]: a file that [NewWritableFile] did not give. *)
Definition DoWriteStringToFile (data fname : list byte) (should_sync : bool) (e : E) : option (Status * E) :=
  let '(s, file, e) := NewWritableFile fname e in
  if negb (ok s) then Some (s, e)
  else
    f ← file;
    let '(s, f, e) := env_Append data f e in
    let '(s, f, e) := if ok s && should_sync then env_Sync f e else (s, f, e) in
    let '(s, f, e) := if ok s then env_Close f e else (s, f, e) in
    let e := delete_file f e in
    let e := if negb (ok s) then (DeleteFile fname e).2 else e in
    Some (s, e).

Definition WriteStringToFile (data fname : list byte) (e : E) := DoWriteStringToFile data fname false e.
Definition WriteStringToFileSync (data fname : list byte) (e : E) := DoWriteStringToFile data fname true e.

Definition SetCurrentFile (dbname : list byte) (descriptor_number : Z) (e : E) : option (Status * E) :=
  manifest ← DescriptorFileName dbname descriptor_number;
  contents ← (if starts_with manifest (dbname ++ bytes_of "/") then remove_prefix manifest (length dbname + 1) else None);
  tmp ← TempFileName dbname descriptor_number;
  '(s, e) ← WriteStringToFileSync (contents ++ [byte_of 10]) tmp e;
  let '(s, e) := if ok s then RenameFile tmp (CurrentFileName dbname) e else (s, e) in
  let e := if negb (ok s) then (DeleteFile tmp e).2 else e in
  Some (s, e).
End Env.
