(* ===== verification/FileNameProps.v ===== *)
(** * File names are recognised as they are made, and CURRENT is replaced as a whole *)
From S2P Require Import Prelude Coding Comparator DbFormat Status FileName.

(** ** Decimal numbers *)

Definition is_digit (c : byte) : bool := (48 <=? byte_val c) && (byte_val c <=? 57).

(** The value of a string of digits behind the number [a]. *)
Definition dec_from (a : Z) (ds : list byte) : Z := fold_left (fun a c => a * 10 + (byte_val c - 48)) ds a.
Definition dec_value (ds : list byte) : Z := dec_from 0 ds.

Fixpoint leading_digits (l : list byte) : list byte :=
  match l with [] => [] | c :: l' => if is_digit c then c :: leading_digits l' else [] end.

Definition all_digits (l : list byte) : Prop := Forall (fun c => is_digit c = true) l.
Definition no_digit_first (l : list byte) : Prop := match l with [] => True | c :: _ => is_digit c = false end.

Lemma leading_digits_spec l : all_digits (leading_digits l) /\ exists rest, l = leading_digits l ++ rest /\ no_digit_first rest.
Proof.
  induction l as [|c l [IH1 (rest & IH2 & IH3)]]; simpl; [split; [constructor|by exists []]|]. destruct (is_digit c) eqn:E.
  - split; [by constructor|]. exists rest. simpl. by rewrite <- IH2.
  - split; [constructor|]. by exists (c :: l).
Qed.

Lemma leading_digits_app ds rest : all_digits ds -> no_digit_first rest -> leading_digits (ds ++ rest) = ds.
Proof.
  intros Hd Hr. induction Hd as [|c ds Hc Hd IH]; simpl; [|by rewrite Hc, IH]. destruct rest as [|c rest]; simpl in *; [done|by rewrite Hr].
Qed.

Lemma digit_val d : 0 <= d < 10 -> byte_val (digit d) = 48 + d.
Proof. intros Hd. unfold digit. rewrite byte_val_of, Z.mod_small; lia. Qed.

Lemma digit_is_digit d : 0 <= d < 10 -> is_digit (digit d) = true.
Proof. intros Hd. unfold is_digit. rewrite digit_val by done. lia. Qed.

Lemma digit_test c : (48 <=? s8 (byte_val c)) && (s8 (byte_val c) <=? 57) = is_digit c /\ (is_digit c = true -> s8 (byte_val c) = byte_val c /\ 48 <= byte_val c <= 57).
Proof.
  pose proof (byte_val_range c) as Hr. unfold is_digit. destruct (Z.ltb_spec (byte_val c) 128) as [Hl|Hl].
  - assert (s8 (byte_val c) = byte_val c) as -> by (apply sint_id; lia). split; [done|]. intros H. split; [done|lia].
  - assert (s8 (byte_val c) = byte_val c - 256) as ->.
    { unfold s8. rewrite <- (sint_mod 8) by lia. replace (byte_val c mod 2 ^ 8) with ((byte_val c - 256) mod 2 ^ 8).
      - rewrite sint_mod by lia. apply sint_id; lia.
      - replace (byte_val c) with (byte_val c - 256 + 1 * 2 ^ 8) at 2 by lia. by rewrite Z.mod_add by lia. }
    split; [lia|]. lia.
Qed.

Lemma dec_from_app a ds es : dec_from a (ds ++ es) = dec_from (dec_from a ds) es.
Proof. unfold dec_from. by rewrite fold_left_app. Qed.

Lemma dec_from_le a ds : 0 <= a -> all_digits ds -> a <= dec_from a ds.
Proof.
  intros Ha Hd. revert a Ha. induction Hd as [|c ds Hc Hd IH]; intros a Ha; cbn [dec_from fold_left]; [lia|].
  destruct (proj2 (digit_test c) Hc) as [_ Hr]. fold (dec_from (a * 10 + (byte_val c - 48)) ds). specialize (IH (a * 10 + (byte_val c - 48)) ltac:(lia)). lia.
Qed.

Lemma decimal_loop_spec fuel : forall v acc, (0 < fuel)%nat -> 0 <= v < 10 ^ Z.of_nat fuel ->
  exists ds, decimal_loop fuel v acc = ds ++ acc /\ all_digits ds /\ dec_value ds = v /\ (1 <= length ds <= fuel)%nat.
Proof.
  induction fuel as [|fuel IH]; intros v acc Hf Hv; [lia|]. cbn [decimal_loop]. cbv zeta. pose proof (Z.mod_pos_bound v 10 ltac:(lia)) as Hm.
  destruct (Z.ltb_spec v 10) as [Hl|Hl].
  - rewrite Z.mod_small by lia. exists [digit v]. split; [done|]. split; [constructor; [apply digit_is_digit; lia|constructor]|].
    split; [cbn [dec_value dec_from fold_left]; rewrite digit_val; lia|simpl; lia].
  - destruct fuel as [|fuel]; [simpl in Hv; lia|]. destruct (IH (v / 10) (digit (v mod 10) :: acc)) as (ds & E & Hd & Hval & Hlen); [lia| |].
    { split; [apply Z.div_pos; lia|]. apply Z.div_lt_upper_bound; [lia|]. replace (10 * 10 ^ Z.of_nat (S fuel)) with (10 ^ Z.of_nat (S (S fuel))); [lia|].
      rewrite (Nat2Z.inj_succ (S fuel)), Z.pow_succ_r by lia. done. }
    exists (ds ++ [digit (v mod 10)]). rewrite E, <- app_assoc. split; [done|]. split; [apply Forall_app; split; [done|constructor; [by apply digit_is_digit|constructor]]|].
    split; [|rewrite length_app; simpl; lia]. unfold dec_value in *. rewrite dec_from_app, Hval. cbn [dec_from fold_left]. rewrite digit_val by done.
    pose proof (Z.div_mod v 10 ltac:(lia)). lia.
Qed.

Lemma decimal_spec v : 0 <= v < 2 ^ 64 -> all_digits (decimal v) /\ dec_value (decimal v) = v /\ (1 <= length (decimal v) <= 20)%nat.
Proof.
  intros Hv. destruct (decimal_loop_spec 20 v [] ltac:(lia)) as (ds & E & H); [split; [lia|]; change (10 ^ Z.of_nat 20) with 100000000000000000000; lia|].
  unfold decimal. rewrite E, app_nil_r. done.
Qed.

Lemma zeros_value n ds : dec_value (replicate n (digit 0) ++ ds) = dec_value ds.
Proof.
  unfold dec_value. rewrite dec_from_app. f_equal. induction n as [|n IH]; [done|]. cbn [replicate]. unfold dec_from in *. cbn [fold_left].
  rewrite digit_val by lia. done.
Qed.

Lemma decimal06_spec v : 0 <= v < 2 ^ 64 -> all_digits (decimal06 v) /\ dec_value (decimal06 v) = v /\ (1 <= length (decimal06 v) <= 20)%nat.
Proof.
  intros Hv. destruct (decimal_spec v Hv) as (Hd & Hval & Hl). unfold decimal06. rewrite zeros_value, length_app, length_replicate. split; [|split; [done|lia]].
  apply Forall_app. split; [|done]. apply Forall_replicate. by apply digit_is_digit.
Qed.

(** ** Reading numbers *)

Lemma consume_loop_spec ds rest : all_digits ds -> no_digit_first rest -> forall n v, 0 <= v < 2 ^ 64 ->
  if dec_from v ds <? 2 ^ 64 then consume_loop n v (ds ++ rest) = inl (n + Z.of_nat (length ds), dec_from v ds, rest)
  else exists rest', consume_loop n v (ds ++ rest) = inr rest'.
Proof.
  intros Hd Hr. induction Hd as [|c ds Hc Hd IH]; intros n v Hv.
  - cbn [dec_from fold_left length app]. destruct (Z.ltb_spec v (2 ^ 64)); [|lia]. rewrite Z.add_0_r. destruct rest as [|c rest]; [done|].
    cbn [consume_loop]. cbv zeta. rewrite (proj1 (digit_test c)). simpl in Hr. by rewrite Hr.
  - cbn [app consume_loop]. cbv zeta. destruct (digit_test c) as [Et H]. rewrite Et, Hc. destruct (H Hc) as [-> Hrange].
    assert (dec_from v (c :: ds) = dec_from (v * 10 + (byte_val c - 48)) ds) as -> by done.
    set (d := byte_val c - 48) in *. assert (0 <= d <= 9) by lia. pose proof (dec_from_le (v * 10 + d) ds ltac:(lia) Hd) as Hle.
    assert ((kMaxUint64 / 10 <? v) || ((v =? kMaxUint64 / 10) && (kMaxUint64 mod 10 <? d)) = (2 ^ 64 <=? v * 10 + d)) as ->.
    { change (kMaxUint64 / 10) with 1844674407370955161. change (kMaxUint64 mod 10) with 5. lia. }
    destruct (Z.leb_spec (2 ^ 64) (v * 10 + d)) as [Ho|Ho].
    + destruct (Z.ltb_spec (dec_from (v * 10 + d) ds) (2 ^ 64)); [lia|]. by eexists.
    + rewrite u64_id by lia. specialize (IH (n + 1) (v * 10 + d) ltac:(lia)). replace (n + Z.of_nat (length (c :: ds))) with (n + 1 + Z.of_nat (length ds)) by (simpl; lia). done.
Qed.

(** The number in front, when there is one below 2^64. *)
Lemma ConsumeDecimalNumber_spec ds rest val : all_digits ds -> no_digit_first rest ->
  if dec_value ds <? 2 ^ 64 then ConsumeDecimalNumber (ds ++ rest) val = (0 <? Z.of_nat (length ds), dec_value ds, rest)
  else exists rest', ConsumeDecimalNumber (ds ++ rest) val = (false, val, rest').
Proof.
  intros Hd Hr. pose proof (consume_loop_spec ds rest Hd Hr 0 0 ltac:(lia)) as H. unfold ConsumeDecimalNumber, dec_value. destruct (dec_from 0 ds <? 2 ^ 64).
  - by rewrite H.
  - destruct H as [rest' ->]. by eexists.
Qed.

(** ** Recognised names *)

Lemma memcmp_zero a b : length a = length b -> memcmp a b (length a) = 0 -> a = b.
Proof.
  revert b. induction a as [|x a IH]; intros [|y b]; simpl; try done. intros [= Hl]. destruct (Z.eqb_spec (byte_val x) (byte_val y)) as [E|E]; [|lia].
  apply byte_val_inj in E as ->. intros H. f_equal. by apply IH.
Qed.

Lemma slice_eqb_eq a b : slice_eqb a b = true <-> a = b.
Proof.
  split; [|intros ->; apply slice_eqb_refl]. unfold slice_eqb. rewrite andb_true_iff. intros [Hl Hm]. apply Nat.eqb_eq in Hl. apply Z.eqb_eq in Hm. by apply memcmp_zero.
Qed.

Lemma memcmp_app x a n : n = length x -> memcmp (x ++ a) x n = memcmp x x n.
Proof. intros ->. induction x as [|c x IH]; [by destruct a|]. simpl. by rewrite Z.eqb_refl. Qed.

Lemma starts_with_eq a x : starts_with a x = true <-> exists rest, a = x ++ rest.
Proof.
  unfold starts_with. rewrite andb_true_iff. split.
  - intros [Hl Hm]. apply Nat.leb_le in Hl. apply Z.eqb_eq in Hm. revert x Hl Hm. induction a as [|y a IH]; intros [|c x] Hl Hm; simpl in *; try lia; [by exists []|by exists (y :: a)|].
    destruct (Z.eqb_spec (byte_val y) (byte_val c)) as [E|E]; [|lia]. apply byte_val_inj in E as ->. destruct (IH x ltac:(lia) Hm) as [rest ->]. by exists rest.
  - intros [rest ->]. rewrite length_app. split; [apply Nat.leb_le; lia|]. rewrite memcmp_app by done. pose proof (slice_eqb_refl x) as H. unfold slice_eqb in H.
    by apply andb_true_iff in H as [_ ?].
Qed.

Lemma remove_prefix_app x rest : remove_prefix (x ++ rest) (length x) = Some rest.
Proof. unfold remove_prefix. rewrite length_app, drop_app_length. destruct (Nat.leb_spec (length x) (length x + length rest)); [done|lia]. Qed.

(** A number of 64 bits in digits. *)
Definition numeral (ds : list byte) (n : Z) : Prop := ds <> [] /\ all_digits ds /\ dec_value ds = n /\ n < 2 ^ 64.

Definition suffixes : list (string * FileType) := [(".log", kLogFile); (".sst", kTableFile); (".ldb", kTableFile); (".dbtmp", kTempFile)]%string.
Definition fixed_names : list (string * FileType) := [("CURRENT", kCurrentFile); ("LOCK", kDBLockFile); ("LOG", kInfoLogFile); ("LOG.old", kInfoLogFile)]%string.

(** The names that the comment above [ParseFileName] lists, and those of temporary files, which it leaves out. *)
Inductive file_name : list byte -> Z -> FileType -> Prop :=
| fixed_name s t : In (s, t) fixed_names -> file_name (bytes_of s) 0 t
| manifest_name ds n : numeral ds n -> file_name (bytes_of "MANIFEST-" ++ ds) n kDescriptorFile
| numbered_name ds n s t : numeral ds n -> In (s, t) suffixes -> file_name (ds ++ bytes_of s) n t.

Lemma consume_numeral ds n rest val : numeral ds n -> no_digit_first rest -> ConsumeDecimalNumber (ds ++ rest) val = (true, n, rest).
Proof.
  intros (Hne & Hd & <- & Hl) Hr. pose proof (ConsumeDecimalNumber_spec ds rest val Hd Hr) as H. destruct (Z.ltb_spec (dec_value ds) (2 ^ 64)); [|lia].
  rewrite H. destruct ds; [done|]. do 2 f_equal.
Qed.

(** When it succeeds there is a number in front. *)
Lemma consume_inv inp val n rest : ConsumeDecimalNumber inp val = (true, n, rest) -> exists ds, inp = ds ++ rest /\ numeral ds n.
Proof.
  destruct (leading_digits_spec inp) as [Hd (r & E & Hr)]. pose proof (ConsumeDecimalNumber_spec _ r val Hd Hr) as H. rewrite <- E in H.
  destruct (Z.ltb_spec (dec_value (leading_digits inp)) (2 ^ 64)).
  - rewrite H. intros [= Hl <- <-]. exists (leading_digits inp). split; [done|]. split; [|done]. intros Hnil. by rewrite Hnil in Hl.
  - destruct H as [rest' ->]. done.
Qed.

Lemma is_name_eq s x : is_name s x = true <-> x = bytes_of s.
Proof. apply slice_eqb_eq. Qed.

(** A numeral in front is not the beginning of the other names. *)
Lemma numeral_first ds n rest : numeral ds n -> exists c ds', ds ++ rest = c :: ds' /\ is_digit c = true.
Proof. intros (Hne & Hd & _). destruct ds as [|c ds]; [done|]. inversion Hd; subst. by exists c, (ds ++ rest). Qed.

Lemma numeral_not s ds n rest c : numeral ds n -> head (bytes_of s) = Some c -> is_digit c = false ->
  is_name s (ds ++ rest) = false /\ starts_with (ds ++ rest) (bytes_of s) = false.
Proof.
  intros Hn Hc Hd. destruct (numeral_first ds n rest Hn) as (x & xs & -> & Hx). split; apply not_true_iff_false.
  - rewrite is_name_eq. intros E. rewrite <- E in Hc. injection Hc as ->. congruence.
  - rewrite starts_with_eq. intros [r E]. destruct (bytes_of s) as [|y ys]; [done|]. injection Hc as ->. injection E as -> _. congruence.
Qed.

(** [ParseFileName] recognises exactly these names. *)
Lemma parse_file_name fname n t : ParseFileName fname = Some (Some (n, t)) <-> file_name fname n t.
Proof.
  split.
  - unfold ParseFileName. cbv zeta. destruct (is_name "CURRENT" fname) eqn:E1; [|destruct (is_name "LOCK" fname) eqn:E2; [|destruct (is_name "LOG" fname || is_name "LOG.old" fname) eqn:E3;
      [|destruct (starts_with fname (bytes_of "MANIFEST-")) eqn:E4]]].
    + apply is_name_eq in E1 as ->. intros [= <- <-]. constructor. simpl. tauto.
    + apply is_name_eq in E2 as ->. intros [= <- <-]. constructor. simpl. tauto.
    + apply orb_true_iff in E3 as [E|E]; apply is_name_eq in E as ->; intros [= <- <-]; constructor; simpl; tauto.
    + apply starts_with_eq in E4 as [rest ->]. rewrite remove_prefix_app. cbn [mbind option_bind]. destruct (ConsumeDecimalNumber rest 0) as [[ok num] rest'] eqn:E.
      destruct ok; cbn [negb]; [|done]. case_bool_decide as Hnil; cbn [negb]; [|done]. subst rest'. intros [= <- <-]. apply consume_inv in E as (ds & -> & Hds).
      rewrite app_nil_r. by constructor.
    + destruct (ConsumeDecimalNumber fname 0) as [[ok num] rest'] eqn:E. destruct ok; cbn [negb]; [|done]. apply consume_inv in E as (ds & -> & Hds).
      destruct (is_name ".log" rest') eqn:F1; [|destruct (is_name ".sst" rest' || is_name ".ldb" rest') eqn:F2; [|destruct (is_name ".dbtmp" rest') eqn:F3; [|done]]].
      * apply is_name_eq in F1 as ->. intros [= <- <-]. constructor; [done|]. simpl. tauto.
      * apply orb_true_iff in F2 as [F|F]; apply is_name_eq in F as ->; intros [= <- <-]; (constructor; [done|]; simpl; tauto).
      * apply is_name_eq in F3 as ->. intros [= <- <-]. constructor; [done|]. simpl. tauto.
  - intros [s' t' Hin|ds n' Hds|ds n' s' t' Hds Hin]; unfold ParseFileName; cbv zeta.
    + simpl in Hin. destruct Hin as [[= <- <-]|[[= <- <-]|[[= <- <-]|[[= <- <-]|[]]]]]; reflexivity.
    + assert (forall s, is_name s (bytes_of "MANIFEST-" ++ ds) = false \/ exists r, bytes_of s = bytes_of "MANIFEST-" ++ r) as Hno.
      { intros s. destruct (is_name s _) eqn:E; [|by left]. apply is_name_eq in E. right. by eexists. }
      destruct (Hno "CURRENT"%string) as [-> |[r E]]; [|done]. destruct (Hno "LOCK"%string) as [-> |[r E]]; [|done]. destruct (Hno "LOG"%string) as [-> |[r E]]; [|done].
      destruct (Hno "LOG.old"%string) as [-> |[r E]]; [|done]. cbn [orb]. rewrite (proj2 (starts_with_eq _ _)) by by eexists. rewrite remove_prefix_app. cbn [mbind option_bind].
      pose proof (consume_numeral ds n' [] 0 Hds) as Hc. rewrite app_nil_r in Hc. by rewrite Hc.
    + destruct (numeral_not "CURRENT" ds n' (bytes_of s') (byte_of 67) Hds eq_refl eq_refl) as [-> _]. destruct (numeral_not "LOCK" ds n' (bytes_of s') (byte_of 76) Hds eq_refl eq_refl) as [-> _].
      destruct (numeral_not "LOG" ds n' (bytes_of s') (byte_of 76) Hds eq_refl eq_refl) as [-> _]. destruct (numeral_not "LOG.old" ds n' (bytes_of s') (byte_of 76) Hds eq_refl eq_refl) as [-> _].
      destruct (numeral_not "MANIFEST-" ds n' (bytes_of s') (byte_of 77) Hds eq_refl eq_refl) as [_ ->]. cbn [orb].
      simpl in Hin. destruct Hin as [[= <- <-]|[[= <- <-]|[[= <- <-]|[[= <- <-]|[]]]]]; by rewrite (consume_numeral ds n').
Qed.

Lemma ParseFileName_total fname : is_Some (ParseFileName fname).
Proof.
  unfold ParseFileName. cbv zeta. repeat (case_match; [by eexists|]). destruct (starts_with fname (bytes_of "MANIFEST-")) eqn:E.
  - apply starts_with_eq in E as [rest ->]. rewrite remove_prefix_app. cbn [mbind option_bind]. destruct (ConsumeDecimalNumber rest 0) as [[[] num] rest']; cbn [negb]; [|by eexists].
    case_match; by eexists.
  - destruct (ConsumeDecimalNumber fname 0) as [[[] num] rest']; cbn [negb]; [|by eexists]. repeat (case_match; [by eexists|]). by eexists.
Qed.

(** ** Names that are made *)

Lemma decimal06_numeral n : 0 <= n < 2 ^ 64 -> numeral (decimal06 n) n.
Proof. intros Hn. destruct (decimal06_spec n Hn) as (Hd & Hv & Hl). split; [by intros E; rewrite E in Hl; simpl in Hl; lia|]. split; [done|]. split; [done|lia]. Qed.

Lemma named_spec s t dbname n : 0 < n < 2 ^ 64 -> (length (bytes_of s) <= 10)%nat -> In (String.append "." s, t) suffixes ->
  exists base, named s dbname n = Some (dbname ++ bytes_of "/" ++ base) /\ file_name base n t.
Proof.
  intros Hn Hl Hin. pose proof (decimal06_spec n ltac:(lia)) as (_ & _ & Hlen). exists (decimal06 n ++ bytes_of (String.append "." s)). split.
  - unfold named, MakeFileName, snprintf. destruct (Z.ltb_spec 0 n); [|lia]. rewrite take_ge; [done|]. rewrite !length_app. simpl. lia.
  - constructor; [by apply decimal06_numeral; lia|done].
Qed.

Lemma DescriptorFileName_spec dbname n : 0 < n < 2 ^ 64 ->
  DescriptorFileName dbname n = Some (dbname ++ bytes_of "/" ++ bytes_of "MANIFEST-" ++ decimal06 n) /\ file_name (bytes_of "MANIFEST-" ++ decimal06 n) n kDescriptorFile.
Proof.
  intros Hn. pose proof (decimal06_spec n ltac:(lia)) as (_ & _ & Hlen). split; [|constructor; by apply decimal06_numeral; lia].
  unfold DescriptorFileName, snprintf. destruct (Z.ltb_spec 0 n); [|lia]. rewrite take_ge; [done|]. rewrite !length_app. simpl. lia.
Qed.

(** The functions that make a name, with the type of what they name. *)
Definition numbered_names : list ((list byte -> Z -> option (list byte)) * FileType) :=
  [(LogFileName, kLogFile); (TableFileName, kTableFile); (SSTTableFileName, kTableFile); (TempFileName, kTempFile); (DescriptorFileName, kDescriptorFile)].
Definition constant_names : list ((list byte -> list byte) * FileType) :=
  [(CurrentFileName, kCurrentFile); (LockFileName, kDBLockFile); (InfoLogFileName, kInfoLogFile); (OldInfoLogFileName, kInfoLogFile)].

(** C36. [ParseFileName] returns on every string and
    recognises exactly CURRENT, LOCK, LOG, LOG.old, MANIFEST-[0-9]+ and
    [0-9]+.(log|sst|ldb|dbtmp), with their numbers and types; a number of 2^64
    or more, no number, an unknown suffix or anything behind the name is
    refused.  Every name that the functions of
    filename.cc make is, behind the directory, recognised with its number and
    type; they fail their assertion for number 0 only. *)
Theorem file_name_roundtrip :
  (forall fname, exists r, ParseFileName fname = Some r /\ forall n t, r = Some (n, t) <-> file_name fname n t) /\
  (forall make t dbname n, In (make, t) numbered_names -> 0 <= n < 2 ^ 64 ->
    if n =? 0 then make dbname n = None
    else exists base, make dbname n = Some (dbname ++ bytes_of "/" ++ base) /\ ParseFileName base = Some (Some (n, t))) /\
  (forall make t dbname, In (make, t) constant_names -> exists base, make dbname = dbname ++ bytes_of "/" ++ base /\ ParseFileName base = Some (Some (0, t))).
Proof.
  split; [|split].
  - intros fname. destruct (ParseFileName_total fname) as [r E]. exists r. split; [done|]. intros n t. rewrite <- parse_file_name, E. split; [by intros ->|by intros [= ->]].
  - intros make t dbname n Hin Hn. destruct (Z.eqb_spec n 0) as [-> |Hne]; [simpl in Hin; by repeat destruct Hin as [[= <- <-]|Hin]|].
    assert (forall s t', (length (bytes_of s) <= 10)%nat -> In (String.append "." s, t') suffixes ->
      exists base, named s dbname n = Some (dbname ++ bytes_of "/" ++ base) /\ ParseFileName base = Some (Some (n, t'))) as Hnamed.
    { intros s t' Hl Hs. destruct (named_spec s t' dbname n ltac:(lia) Hl Hs) as (base & E & Hb). exists base. split; [done|]. by apply parse_file_name. }
    simpl in Hin. destruct Hin as [[= <- <-]|[[= <- <-]|[[= <- <-]|[[= <- <-]|[[= <- <-]|[]]]]]]; [apply Hnamed; simpl; (lia || tauto)..|].
    destruct (DescriptorFileName_spec dbname n ltac:(lia)) as [E Hb]. eexists. split; [exact E|]. by apply parse_file_name.
  - intros make t dbname Hin. simpl in Hin. destruct Hin as [[= <- <-]|[[= <- <-]|[[= <- <-]|[[= <- <-]|[]]]]]; eexists; (split; [reflexivity|reflexivity]).
Qed.

(** ** Replacing CURRENT *)

(** What [Env] promises, also when its operations fail: [files] are the contents of the directory, [handle f n] says
    that [f] is open on [n], and [written f] is what has been appended to it, which is in the directory at the latest
    after [Sync] or [Close].  Renaming is atomic. *)
Class EnvOk {E F} (env : Env E F) (files : E -> gmap (list byte) (list byte)) (handle : F -> list byte -> Prop) (written : F -> list byte) (closed : F -> Prop) := {
  env_new n e s f e' : NewWritableFile n e = (s, f, e') -> (forall m, m <> n -> files e' !! m = files e !! m) /\
    (ok s = true -> exists f', f = Some f' /\ handle f' n /\ written f' = []);
  env_append data f n e s f' e' : handle f n -> env_Append data f e = (s, f', e') ->
    (forall m, m <> n -> files e' !! m = files e !! m) /\ handle f' n /\ (ok s = true -> written f' = written f ++ data);
  env_sync f n e s f' e' : handle f n -> env_Sync f e = (s, f', e') ->
    (forall m, m <> n -> files e' !! m = files e !! m) /\ handle f' n /\ (ok s = true -> written f' = written f /\ files e' !! n = Some (written f));
  env_close f n e s f' e' : handle f n -> env_Close f e = (s, f', e') ->
    (forall m, m <> n -> files e' !! m = files e !! m) /\ handle f' n /\ (ok s = true -> closed f' /\ files e' !! n = Some (written f));
  env_delete_file f n e : handle f n -> (forall m, m <> n -> files (delete_file f e) !! m = files e !! m) /\ (closed f -> files (delete_file f e) = files e);
  env_rename src tgt e s e' : RenameFile src tgt e = (s, e') ->
    if ok s then exists c, files e !! src = Some c /\ files e' = <[tgt := c]> (delete src (files e)) else files e' = files e;
  env_delete n e s e' : DeleteFile n e = (s, e') -> files e' = (if ok s then delete n (files e) else files e);
}.

Section SetCurrent.
Context {E F : Type} {env : Env E F} {files : E -> gmap (list byte) (list byte)} {handle : F -> list byte -> Prop} {written : F -> list byte} {closed : F -> Prop}.
Context {Henv : EnvOk env files handle written closed}.

(** Nothing but the file [n] has changed. *)
Definition only (n : list byte) (e e' : E) : Prop := forall m, m <> n -> files e' !! m = files e !! m.

Lemma only_trans n e1 e2 e3 : only n e1 e2 -> only n e2 e3 -> only n e1 e3.
Proof. intros H1 H2 m Hm. by rewrite (H2 m Hm), (H1 m Hm). Qed.

Lemma only_delete n e : only n e (DeleteFile n e).2.
Proof using Henv.
  destruct (DeleteFile n e) as [s e'] eqn:E1. simpl. intros m Hm. rewrite (env_delete (EnvOk := Henv) _ _ _ _ E1). destruct (ok s); [|done]. by rewrite lookup_delete_ne.
Qed.

(** The end of the writing: the file is deleted again when something has failed. *)
Lemma finish_write n data f e (s : Status) : handle f n -> (ok s = true -> closed f /\ files e !! n = Some data) ->
  let e1 := delete_file f e in let e2 := if negb (ok s) then (DeleteFile n e1).2 else e1 in
  only n e e2 /\ (ok s = true -> files e2 !! n = Some data).
Proof using Henv.
  intros Hf Hs. cbv zeta. destruct (env_delete_file (EnvOk := Henv) f n e Hf) as [H1 H2]. destruct (ok s); cbn [negb].
  - destruct (Hs eq_refl) as [Hc Hd]. split; [exact H1|]. intros _. by rewrite (H2 Hc).
  - split; [|done]. eapply only_trans; [exact H1|apply only_delete].
Qed.

Lemma DoWriteStringToFile_spec data n sync e : exists s e', DoWriteStringToFile data n sync e = Some (s, e') /\ only n e e' /\ (ok s = true -> files e' !! n = Some data).
Proof using Henv.
  unfold DoWriteStringToFile. destruct (NewWritableFile n e) as [[s0 file] e0] eqn:E0. destruct (env_new (EnvOk := Henv) _ _ _ _ _ E0) as [Ho0 Hnew].
  destruct (ok s0) eqn:Es0; cbn [negb]; [|exists s0, e0; split; [done|]; split; [done|by rewrite Es0]]. destruct (Hnew eq_refl) as (f & -> & Hf & Hw). cbn [mbind option_bind].
  destruct (env_Append data f e0) as [[s1 f1] e1] eqn:E1. destruct (env_append (EnvOk := Henv) _ _ _ _ _ _ _ Hf E1) as (Ho1 & Hf1 & Hw1).
  destruct (if ok s1 && sync then env_Sync f1 e1 else (s1, f1, e1)) as [[s2 f2] e2] eqn:E2.
  assert (only n e1 e2 /\ handle f2 n /\ (ok s2 = true -> written f2 = data)) as (Ho2 & Hf2 & Hw2).
  { destruct (ok s1) eqn:Es1; cbn [andb] in E2.
    - assert (written f1 = data) as Hd by by rewrite (Hw1 eq_refl), Hw. destruct sync; [|injection E2 as <- <- <-; by split].
      destruct (env_sync (EnvOk := Henv) _ _ _ _ _ _ Hf1 E2) as (H1 & H2 & H3). split; [done|]. split; [done|]. intros Es2. by rewrite (proj1 (H3 Es2)).
    - injection E2 as <- <- <-. split; [by intros m|]. split; [done|]. by rewrite Es1. }
  destruct (if ok s2 then env_Close f2 e2 else (s2, f2, e2)) as [[s3 f3] e3] eqn:E3.
  assert (only n e2 e3 /\ handle f3 n /\ (ok s3 = true -> closed f3 /\ files e3 !! n = Some data)) as (Ho3 & Hf3 & Hw3).
  { destruct (ok s2) eqn:Es2; [|injection E3 as <- <- <-; split; [by intros m|]; split; [done|by rewrite Es2]].
    destruct (env_close (EnvOk := Henv) _ _ _ _ _ _ Hf2 E3) as (H1 & H2 & H3). rewrite (Hw2 eq_refl) in H3. by split. }
  destruct (finish_write n data f3 e3 s3 Hf3 Hw3) as [Ho4 Hw4]. eexists s3, _. split; [reflexivity|]. split; [|exact Hw4].
  eapply only_trans; [exact Ho0|]. eapply only_trans; [exact Ho1|]. eapply only_trans; [exact Ho2|]. eapply only_trans; [exact Ho3|exact Ho4].
Qed.

Lemma tmp_not_current dbname n tmp : 0 < n < 2 ^ 64 -> TempFileName dbname n = Some tmp -> tmp <> CurrentFileName dbname.
Proof.
  intros Hn Ht Heq. destruct (named_spec "dbtmp" kTempFile dbname n Hn) as (base & Eb & Hb); [simpl; lia|simpl; tauto|]. unfold TempFileName in Ht.
  assert (tmp = dbname ++ bytes_of "/" ++ base) as -> by congruence. change (CurrentFileName dbname) with (dbname ++ bytes_of "/" ++ bytes_of "CURRENT") in Heq.
  apply app_inv_head, app_inv_head in Heq as ->. apply parse_file_name in Hb. vm_compute in Hb. done.
Qed.

(** C34. Whatever fails on the way, [SetCurrentFile] returns, and
    CURRENT is either what it was before or, when the status is ok, the name of
    the new manifest and a newline; nothing else but the temporary file is
    touched, and that is gone when the status is ok. *)
Theorem set_current_file dbname n e : 0 < n < 2 ^ 64 ->
  exists s e' tmp, SetCurrentFile dbname n e = Some (s, e') /\ TempFileName dbname n = Some tmp /\
    files e' !! CurrentFileName dbname = (if ok s then Some (bytes_of "MANIFEST-" ++ decimal06 n ++ [byte_of 10]) else files e !! CurrentFileName dbname) /\
    (ok s = true -> files e' !! tmp = None) /\
    forall m, m <> CurrentFileName dbname -> m <> tmp -> files e' !! m = files e !! m.
Proof using Henv.
  intros Hn. unfold SetCurrentFile. rewrite (proj1 (DescriptorFileName_spec dbname n Hn)). cbn [mbind option_bind].
  destruct (named_spec "dbtmp" kTempFile dbname n Hn) as (base & Et & Hb); [simpl; lia|simpl; tauto|]. set (tmp := dbname ++ bytes_of "/" ++ base) in *.
  pose proof (tmp_not_current dbname n tmp Hn Et) as Hne. rewrite app_assoc, (proj2 (starts_with_eq _ _)) by by eexists.
  replace (length dbname + 1)%nat with (length (dbname ++ bytes_of "/")) by (rewrite length_app; done). rewrite remove_prefix_app. cbn [mbind option_bind].
  unfold TempFileName in *. rewrite Et. cbn [mbind option_bind]. unfold WriteStringToFileSync.
  destruct (DoWriteStringToFile_spec ((bytes_of "MANIFEST-" ++ decimal06 n) ++ [byte_of 10]) tmp true e) as (s1 & e1 & -> & Ho1 & Hw1). cbn [mbind option_bind].
  destruct (ok s1) eqn:Es1.
  - destruct (RenameFile tmp (CurrentFileName dbname) e1) as [s2 e2] eqn:E2. pose proof (env_rename (EnvOk := Henv) _ _ _ _ _ E2) as Hr. exists s2. destruct (ok s2) eqn:Es2; cbn [negb].
    + destruct Hr as (c & Hc & Hf). rewrite (Hw1 eq_refl) in Hc. injection Hc as <-. exists e2, tmp. split; [reflexivity|]. split; [done|]. rewrite Hf, lookup_insert_eq.
      split; [done|]. split; [intros _; by rewrite lookup_insert_ne, lookup_delete_eq|]. intros m Hm Hm'. rewrite lookup_insert_ne, lookup_delete_ne by done. by apply Ho1.
    + eexists _, tmp. split; [reflexivity|]. split; [done|]. pose proof (only_delete tmp e2) as Hd.
      split; [rewrite (Hd _ (not_eq_sym Hne)), Hr; by apply Ho1|]. split; [done|]. intros m _ Hm. rewrite (Hd m Hm), Hr. by apply Ho1.
  - exists s1, (DeleteFile tmp e1).2, tmp. rewrite Es1. cbn [negb]. split; [reflexivity|]. split; [done|]. pose proof (only_delete tmp e1) as Hd.
    split; [rewrite (Hd _ (not_eq_sym Hne)); by apply Ho1|]. split; [done|]. intros m _ Hm. rewrite (Hd m Hm). by apply Ho1.
Qed.
End SetCurrent.
