(* ===== verification/VersionEdit.v ===== *)
(** * Version edits: db/version_edit.h, db/version_edit.cc

    The records of the manifest.  The set of deleted files is the ordered list
    of its elements.  [None] is a failed assertion. *)
From Stdlib Require Import Sorted.
From S2P Require Import Prelude Varint Coding CodingProps Comparator DbFormat Status FileName.

Definition kNumLevels : Z := 7.

Record FileMetaData := MkFile {
  f_refs : Z;            (* int *)
  allowed_seeks : Z;     (* int *)
  f_number : Z;          (* uint64_t *)
  f_size : Z;            (* uint64_t *)
  smallest : list byte;  (* internal keys *)
  largest : list byte;
}.

Definition new_FileMetaData : FileMetaData := MkFile 0 (Z.shiftl 1 30) 0 0 [] [].

(** A [std::set] of pairs: in the order of the pairs, without duplicates. *)
Definition pair_lt (a b : Z * Z) : bool := (a.1 <? b.1) || ((a.1 =? b.1) && (a.2 <? b.2)).

Fixpoint set_insert (x : Z * Z) (l : list (Z * Z)) : list (Z * Z) :=
  match l with
  | [] => [x]
  | y :: l' => if pair_lt x y then x :: l else if pair_lt y x then y :: set_insert x l' else l
  end.

Record VersionEdit := MkEdit {
  comparator_ : list byte;
  log_number_ : Z;
  prev_log_number_ : Z;
  next_file_number_ : Z;
  last_sequence_ : Z;
  has_comparator_ : bool;
  has_log_number_ : bool;
  has_prev_log_number_ : bool;
  has_next_file_number_ : bool;
  has_last_sequence_ : bool;
  compact_pointers_ : list (Z * list byte);
  deleted_files_ : list (Z * Z);
  new_files_ : list (Z * FileMetaData);
}.

(** The vector of compaction pointers is not cleared. *)
Definition ve_Clear (e : VersionEdit) : VersionEdit := MkEdit [] 0 0 0 0 false false false false false (compact_pointers_ e) [] [].

(** The constructor: the members of class type are empty before [Clear]. *)
Definition new_VersionEdit : VersionEdit := ve_Clear (MkEdit [] 0 0 0 0 false false false false false [] [] []).

Definition SetComparatorName (name : list byte) (e : VersionEdit) : VersionEdit :=
  MkEdit name (log_number_ e) (prev_log_number_ e) (next_file_number_ e) (last_sequence_ e) true (has_log_number_ e) (has_prev_log_number_ e)
    (has_next_file_number_ e) (has_last_sequence_ e) (compact_pointers_ e) (deleted_files_ e) (new_files_ e).
Definition SetLogNumber (num : Z) (e : VersionEdit) : VersionEdit :=
  MkEdit (comparator_ e) num (prev_log_number_ e) (next_file_number_ e) (last_sequence_ e) (has_comparator_ e) true (has_prev_log_number_ e)
    (has_next_file_number_ e) (has_last_sequence_ e) (compact_pointers_ e) (deleted_files_ e) (new_files_ e).
Definition SetPrevLogNumber (num : Z) (e : VersionEdit) : VersionEdit :=
  MkEdit (comparator_ e) (log_number_ e) num (next_file_number_ e) (last_sequence_ e) (has_comparator_ e) (has_log_number_ e) true
    (has_next_file_number_ e) (has_last_sequence_ e) (compact_pointers_ e) (deleted_files_ e) (new_files_ e).
Definition SetNextFile (num : Z) (e : VersionEdit) : VersionEdit :=
  MkEdit (comparator_ e) (log_number_ e) (prev_log_number_ e) num (last_sequence_ e) (has_comparator_ e) (has_log_number_ e) (has_prev_log_number_ e)
    true (has_last_sequence_ e) (compact_pointers_ e) (deleted_files_ e) (new_files_ e).
Definition SetLastSequence (num : Z) (e : VersionEdit) : VersionEdit :=
  MkEdit (comparator_ e) (log_number_ e) (prev_log_number_ e) (next_file_number_ e) num (has_comparator_ e) (has_log_number_ e) (has_prev_log_number_ e)
    (has_next_file_number_ e) true (compact_pointers_ e) (deleted_files_ e) (new_files_ e).
Definition set_lists (ptrs : list (Z * list byte)) (deleted : list (Z * Z)) (files : list (Z * FileMetaData)) (e : VersionEdit) : VersionEdit :=
  MkEdit (comparator_ e) (log_number_ e) (prev_log_number_ e) (next_file_number_ e) (last_sequence_ e) (has_comparator_ e) (has_log_number_ e)
    (has_prev_log_number_ e) (has_next_file_number_ e) (has_last_sequence_ e) ptrs deleted files.
Definition SetCompactPointer (level : Z) (key : list byte) (e : VersionEdit) : VersionEdit :=
  set_lists (compact_pointers_ e ++ [(level, key)]) (deleted_files_ e) (new_files_ e) e.
Definition AddFile (level file file_size : Z) (smallest largest : list byte) (e : VersionEdit) : VersionEdit :=
  set_lists (compact_pointers_ e) (deleted_files_ e)
    (new_files_ e ++ [(level, MkFile (f_refs new_FileMetaData) (allowed_seeks new_FileMetaData) file file_size smallest largest)]) e.
Definition DeleteFile (level file : Z) (e : VersionEdit) : VersionEdit :=
  set_lists (compact_pointers_ e) (set_insert (level, file) (deleted_files_ e)) (new_files_ e) e.

(** ** Encoding *)

Definition kComparator : Z := 1.
Definition kLogNumber : Z := 2.
Definition kNextFileNumber : Z := 3.
Definition kLastSequence : Z := 4.
Definition kCompactPointer : Z := 5.
Definition kDeletedFile : Z := 6.
Definition kNewFile : Z := 7.
Definition kPrevLogNumber : Z := 9.

(** [InternalKey::Encode] *)
Definition key_Encode (rep : list byte) : option (list byte) := if bool_decide (rep = []) then None else Some rep.

Definition put_number (has : bool) (tag num : Z) (dst : list byte) : option (list byte) :=
  if has then PutVarint64 (PutVarint32 dst tag) num else Some dst.

Fixpoint put_pointers (l : list (Z * list byte)) (dst : list byte) : option (list byte) :=
  match l with
  | [] => Some dst
  | (level, key) :: l' =>
      k ← key_Encode key;
      put_pointers l' (PutLengthPrefixedSlice (PutVarint32 (PutVarint32 dst kCompactPointer) (u32 level)) k)
  end.

Fixpoint put_deleted (l : list (Z * Z)) (dst : list byte) : option (list byte) :=
  match l with
  | [] => Some dst
  | (level, num) :: l' => dst ← PutVarint64 (PutVarint32 (PutVarint32 dst kDeletedFile) (u32 level)) num; put_deleted l' dst
  end.

Fixpoint put_files (l : list (Z * FileMetaData)) (dst : list byte) : option (list byte) :=
  match l with
  | [] => Some dst
  | (level, f) :: l' =>
      dst ← PutVarint64 (PutVarint32 (PutVarint32 dst kNewFile) (u32 level)) (f_number f);
      dst ← PutVarint64 dst (f_size f);
      s ← key_Encode (smallest f);
      g ← key_Encode (largest f);
      put_files l' (PutLengthPrefixedSlice (PutLengthPrefixedSlice dst s) g)
  end.

Definition EncodeTo (e : VersionEdit) (dst : list byte) : option (list byte) :=
  let dst := if has_comparator_ e then PutLengthPrefixedSlice (PutVarint32 dst kComparator) (comparator_ e) else dst in
  dst ← put_number (has_log_number_ e) kLogNumber (log_number_ e) dst;
  dst ← put_number (has_prev_log_number_ e) kPrevLogNumber (prev_log_number_ e) dst;
  dst ← put_number (has_next_file_number_ e) kNextFileNumber (next_file_number_ e) dst;
  dst ← put_number (has_last_sequence_ e) kLastSequence (last_sequence_ e) dst;
  dst ← put_pointers (compact_pointers_ e) dst;
  dst ← put_deleted (deleted_files_ e) dst;
  put_files (new_files_ e) dst.

(** ** Decoding *)

(** The key and the rest of the input; [None] when it returns false. *)
Definition GetInternalKey (input : list byte) : option (list byte * list byte) :=
  match GetLengthPrefixedSlice input with (Some str, input) => Some (str, input) | (None, _) => None end.

Definition GetLevel (input : list byte) : option (Z * list byte) :=
  '(v, input) ← GetVarint32 input; if v <? kNumLevels then Some (v, input) else None.

(** One round of the loop behind the tag: the message, or the rest of the input and the edit.  A message ends the
    loop, so that the input is not looked at any more; the members are only stored when all has been read. *)
Definition decode_member (tag : Z) (input : list byte) (e : VersionEdit) : string + (list byte * VersionEdit) :=
  let number msg (store : Z -> VersionEdit -> VersionEdit) :=
    match GetVarint64 input with Some (num, input) => inr (input, store num e) | None => inl msg end in
  if tag =? kComparator then
    match GetLengthPrefixedSlice input with (Some str, input) => inr (input, SetComparatorName str e) | (None, _) => inl "comparator name" end
  else if tag =? kLogNumber then number "log number" SetLogNumber
  else if tag =? kPrevLogNumber then number "previous log number" SetPrevLogNumber
  else if tag =? kNextFileNumber then number "next file number" SetNextFile
  else if tag =? kLastSequence then number "last sequence number" SetLastSequence
  else if tag =? kCompactPointer then
    match ('(level, input) ← GetLevel input; '(key, input) ← GetInternalKey input; Some (input, SetCompactPointer level key e)) with
    | Some r => inr r | None => inl "compaction pointer"
    end
  else if tag =? kDeletedFile then
    match ('(level, input) ← GetLevel input; '(num, input) ← GetVarint64 input; Some (input, DeleteFile level num e)) with
    | Some r => inr r | None => inl "deleted file"
    end
  else if tag =? kNewFile then
    match ('(level, input) ← GetLevel input;
           '(num, input) ← GetVarint64 input;
           '(size, input) ← GetVarint64 input;
           '(s, input) ← GetInternalKey input;
           '(l, input) ← GetInternalKey input;
           Some (input, AddFile level num size s l e)) with
    | Some r => inr r | None => inl "new-file entry"
    end
  else inl "unknown tag".

(** Every round takes a byte of the input. *)
Fixpoint decode_loop (fuel : nat) (input : list byte) (e : VersionEdit) : option (option string * list byte * VersionEdit) :=
  match GetVarint32 input with
  | None => Some (None, input, e)
  | Some (tag, input) =>
      match decode_member tag input e with
      | inl msg => Some (Some msg, input, e)
      | inr (input, e) => match fuel with O => None | S fuel' => decode_loop fuel' input e end
      end
  end.

Definition DecodeFrom (kLittleEndian : bool) (src : list byte) (e : VersionEdit) : option (Status * VersionEdit) :=
  '(msg, input, e) ← decode_loop (length src) src (ve_Clear e);
  let msg := match msg with None => if negb (bool_decide (input = [])) then Some "invalid tag"%string else None | Some _ => msg end in
  match msg with
  | None => Some (OK, e)
  | Some msg => s ← new_Status kLittleEndian kCorruption (bytes_of "VersionEdit") (bytes_of msg); Some (s, e)
  end.

(** ** As text *)

Definition newline (s : string) : list byte := byte_of 10 :: bytes_of ("  " ++ s).

Definition debug_number (has : bool) (name : string) (num : Z) (r : list byte) : list byte :=
  if has then AppendNumberTo (r ++ newline name) num else r.

Section Debug.
Context (kLittleEndian : bool).

Fixpoint debug_pointers (l : list (Z * list byte)) (r : list byte) : option (list byte) :=
  match l with
  | [] => Some r
  | (level, key) :: l' =>
      k ← InternalKey_DebugString kLittleEndian key;
      debug_pointers l' (AppendNumberTo (r ++ newline "CompactPointer: ") (u64 level) ++ bytes_of " " ++ k)
  end.

Definition debug_deleted (l : list (Z * Z)) (r : list byte) : list byte :=
  fold_left (fun r f => AppendNumberTo (AppendNumberTo (r ++ newline "DeleteFile: ") (u64 f.1) ++ bytes_of " ") f.2) l r.

Fixpoint debug_files (l : list (Z * FileMetaData)) (r : list byte) : option (list byte) :=
  match l with
  | [] => Some r
  | (level, f) :: l' =>
      s ← InternalKey_DebugString kLittleEndian (smallest f);
      g ← InternalKey_DebugString kLittleEndian (largest f);
      let r := AppendNumberTo (AppendNumberTo (r ++ newline "AddFile: ") (u64 level) ++ bytes_of " ") (f_number f) in
      debug_files l' (AppendNumberTo (r ++ bytes_of " ") (f_size f) ++ bytes_of " " ++ s ++ bytes_of " .. " ++ g)
  end.

Definition DebugString (e : VersionEdit) : option (list byte) :=
  let r := bytes_of "VersionEdit {" in
  let r := if has_comparator_ e then r ++ newline "Comparator: " ++ comparator_ e else r in
  let r := debug_number (has_log_number_ e) "LogNumber: " (log_number_ e) r in
  let r := debug_number (has_prev_log_number_ e) "PrevLogNumber: " (prev_log_number_ e) r in
  let r := debug_number (has_next_file_number_ e) "NextFile: " (next_file_number_ e) r in
  let r := debug_number (has_last_sequence_ e) "LastSeq: " (last_sequence_ e) r in
  r ← debug_pointers (compact_pointers_ e) r;
  r ← debug_files (new_files_ e) (debug_deleted (deleted_files_ e) r);
  Some (r ++ [byte_of 10] ++ bytes_of "}" ++ [byte_of 10]).
End Debug.
