(* ===== verification/VersionEditProps.v ===== *)
(** * Version edits: what is encoded is decoded *)
From Stdlib Require Import Sorted.
From S2P Require Import Prelude Varint Coding CodingProps Comparator DbFormat Status FileName VersionEdit.

(** ** The fields of an edit *)

(** The calls that make an edit, and the records that it is encoded as. *)
Inductive field :=
| FComparator (name : list byte)
| FLogNumber (num : Z)
| FPrevLogNumber (num : Z)
| FNextFile (num : Z)
| FLastSequence (num : Z)
| FPointer (p : Z * list byte)
| FDeleted (f : Z * Z)
| FFile (f : Z * FileMetaData).

Definition apply_field (e : VersionEdit) (f : field) : VersionEdit :=
  match f with
  | FComparator name => SetComparatorName name e
  | FLogNumber num => SetLogNumber num e
  | FPrevLogNumber num => SetPrevLogNumber num e
  | FNextFile num => SetNextFile num e
  | FLastSequence num => SetLastSequence num e
  | FPointer (level, key) => SetCompactPointer level key e
  | FDeleted (level, num) => DeleteFile level num e
  | FFile (level, f) => AddFile level (f_number f) (f_size f) (smallest f) (largest f) e
  end.

Definition num_ok (n : Z) : Prop := 0 <= n < 2 ^ 64.
Definition str_ok (s : list byte) : Prop := Z.of_nat (length s) < 2 ^ 32.
Definition key_fits (k : list byte) : Prop := k <> [] /\ str_ok k.
Definition level_ok (l : Z) : Prop := 0 <= l < kNumLevels.
Definition file_ok (f : FileMetaData) : Prop :=
  f_refs f = f_refs new_FileMetaData /\ allowed_seeks f = allowed_seeks new_FileMetaData /\ num_ok (f_number f) /\ num_ok (f_size f) /\ key_fits (smallest f) /\ key_fits (largest f).

Definition field_ok (f : field) : Prop :=
  match f with
  | FComparator name => str_ok name
  | FLogNumber num | FPrevLogNumber num | FNextFile num | FLastSequence num => num_ok num
  | FPointer (level, key) => level_ok level /\ key_fits key
  | FDeleted (level, num) => level_ok level /\ num_ok num
  | FFile (level, f) => level_ok level /\ file_ok f
  end.

Definition tagged (tag : Z) (bs : list byte) : list byte := EncodeVarint32 tag ++ bs.
Definition prefixed (s : list byte) : list byte := PutLengthPrefixedSlice [] s.

Definition field_bytes (f : field) : list byte :=
  match f with
  | FComparator name => tagged kComparator (prefixed name)
  | FLogNumber num => tagged kLogNumber (varint num)
  | FPrevLogNumber num => tagged kPrevLogNumber (varint num)
  | FNextFile num => tagged kNextFileNumber (varint num)
  | FLastSequence num => tagged kLastSequence (varint num)
  | FPointer (level, key) => tagged kCompactPointer (EncodeVarint32 level ++ prefixed key)
  | FDeleted (level, num) => tagged kDeletedFile (EncodeVarint32 level ++ varint num)
  | FFile (level, f) => tagged kNewFile (EncodeVarint32 level ++ varint (f_number f) ++ varint (f_size f) ++ prefixed (smallest f) ++ prefixed (largest f))
  end.

(** ** Decoding a field *)

Lemma GetLevel_put level rest : level_ok level -> GetLevel (EncodeVarint32 level ++ rest) = Some (level, rest).
Proof.
  unfold level_ok, kNumLevels. intros Hl. unfold GetLevel. rewrite GetVarint32_varint by lia. cbn [mbind option_bind]. unfold kNumLevels.
  by destruct (Z.ltb_spec level 7); [|lia].
Qed.

Lemma GetInternalKey_put key rest : str_ok key -> GetInternalKey (prefixed key ++ rest) = Some (key, rest).
Proof. intros Hk. unfold GetInternalKey, prefixed. by rewrite GetLengthPrefixedSlice_put. Qed.

Lemma decode_member_put f rest e : field_ok f -> exists tag payload,
  field_bytes f ++ rest = EncodeVarint32 tag ++ payload /\ 0 <= tag < 2 ^ 32 /\ decode_member tag payload e = inr (rest, apply_field e f).
Proof.
  intros Hf. destruct f as [name|num|num|num|num|[level key]|[level num]|[level f]]; cbn [field_bytes apply_field] in *; simpl in Hf; unfold tagged; rewrite <- !app_assoc;
    (eexists _, _; split; [reflexivity|]; split; [split; (done || reflexivity)|]); unfold decode_member; cbn -[GetVarint64 GetLevel GetInternalKey GetLengthPrefixedSlice PutLengthPrefixedSlice prefixed varint EncodeVarint32 app].
  - unfold prefixed. by rewrite GetLengthPrefixedSlice_put.
  - by rewrite GetVarint64_varint.
  - by rewrite GetVarint64_varint.
  - by rewrite GetVarint64_varint.
  - by rewrite GetVarint64_varint.
  - destruct Hf as [Hl [_ Hk]]. rewrite GetLevel_put by done. cbn [mbind option_bind]. by rewrite GetInternalKey_put.
  - destruct Hf as [Hl Hn]. rewrite GetLevel_put by done. cbn [mbind option_bind]. by rewrite GetVarint64_varint.
  - destruct Hf as (Hl & _ & _ & Hn & Hz & [_ Hs] & [_ Hg]). rewrite GetLevel_put by done. cbn [mbind option_bind]. rewrite GetVarint64_varint by done. cbn [mbind option_bind].
    rewrite GetVarint64_varint by done. cbn [mbind option_bind]. rewrite GetInternalKey_put by done. cbn [mbind option_bind]. by rewrite GetInternalKey_put.
Qed.

Lemma field_bytes_nonempty f : (1 <= length (field_bytes f))%nat.
Proof.
  assert (forall tag bs, 0 <= tag < 2 ^ 32 -> (1 <= length (tagged tag bs))%nat) as H.
  { intros tag bs Ht. unfold tagged. rewrite length_app, EncodeVarint32_varint by done. pose proof (varint_length_bounds tag). lia. }
  destruct f as [name|num|num|num|num|[level key]|[level num]|[level f]]; apply H; split; (done || reflexivity).
Qed.

Lemma decode_loop_fields fs : Forall field_ok fs -> forall fuel e, (length fs <= fuel)%nat ->
  decode_loop fuel (concat (map field_bytes fs)) e = Some (None, [], fold_left apply_field fs e).
Proof.
  induction 1 as [|f fs Hf Hfs IH]; intros fuel e Hl; cbn [map concat fold_left]; [by destruct fuel|].
  destruct (decode_member_put f (concat (map field_bytes fs)) e Hf) as (tag & payload & Eb & Ht & Ed). rewrite Eb. destruct fuel as [|fuel]; [simpl in Hl; lia|].
  cbn [decode_loop]. rewrite GetVarint32_varint, Ed by done. apply IH. simpl in Hl. lia.
Qed.

Lemma length_fields fs : (length fs <= length (concat (map field_bytes fs)))%nat.
Proof. induction fs as [|f fs IH]; simpl; [lia|]. rewrite length_app. pose proof (field_bytes_nonempty f). lia. Qed.

Lemma DecodeFrom_fields le fs e : Forall field_ok fs -> DecodeFrom le (concat (map field_bytes fs)) e = Some (OK, fold_left apply_field fs (ve_Clear e)).
Proof. intros Hf. unfold DecodeFrom. rewrite decode_loop_fields by (done || apply length_fields). done. Qed.

(** ** Edits that the setters make *)

Definition pairs_sorted (l : list (Z * Z)) : Prop := StronglySorted (fun a b => pair_lt a b = true) l.

Lemma pair_lt_trans a b c : pair_lt a b = true -> pair_lt b c = true -> pair_lt a c = true.
Proof. unfold pair_lt. lia. Qed.

Lemma pair_lt_total a b : pair_lt a b = false -> pair_lt b a = false -> a = b.
Proof. unfold pair_lt. destruct a, b; simpl. intros. f_equal; lia. Qed.

Lemma set_insert_in x y l : In y (set_insert x l) <-> y = x \/ In y l.
Proof.
  induction l as [|z l IH]; simpl; [split; (intros [|]; [left|]; done || tauto)|]. destruct (pair_lt x z) eqn:E1; [simpl; intuition congruence|].
  destruct (pair_lt z x) eqn:E2; simpl; [rewrite IH; tauto|]. assert (x = z) as -> by by apply pair_lt_total. intuition congruence.
Qed.

Lemma set_insert_sorted x l : pairs_sorted l -> pairs_sorted (set_insert x l).
Proof.
  induction 1 as [|z l Hs IH Hf]; simpl; [repeat constructor|]. destruct (pair_lt x z) eqn:E1.
  - constructor; [by constructor|]. constructor; [done|]. eapply Forall_impl; [exact Hf|]. intros y Hy. by eapply pair_lt_trans.
  - destruct (pair_lt z x) eqn:E2; [|by constructor]. constructor; [done|]. rewrite Forall_forall in *. intros y Hy. apply list_elem_of_In, set_insert_in in Hy as [-> |Hy]; [done|].
    apply Hf. by apply list_elem_of_In.
Qed.

Lemma set_insert_last x l : Forall (fun y => pair_lt y x = true) l -> set_insert x l = l ++ [x].
Proof.
  induction 1 as [|y l Hy Hf IH]; simpl; [done|]. assert (pair_lt x y = false) as ->; [|by rewrite Hy, IH]. unfold pair_lt in *. lia.
Qed.

(** Members that are not set have their first values. *)
Record edit_ok (e : VersionEdit) : Prop := {
  eo_comparator : str_ok (comparator_ e) /\ (has_comparator_ e = false -> comparator_ e = []);
  eo_log : num_ok (log_number_ e) /\ (has_log_number_ e = false -> log_number_ e = 0);
  eo_prev : num_ok (prev_log_number_ e) /\ (has_prev_log_number_ e = false -> prev_log_number_ e = 0);
  eo_next : num_ok (next_file_number_ e) /\ (has_next_file_number_ e = false -> next_file_number_ e = 0);
  eo_last : num_ok (last_sequence_ e) /\ (has_last_sequence_ e = false -> last_sequence_ e = 0);
  eo_pointers : Forall (fun p => field_ok (FPointer p)) (compact_pointers_ e);
  eo_deleted : Forall (fun f => field_ok (FDeleted f)) (deleted_files_ e) /\ pairs_sorted (deleted_files_ e);
  eo_files : Forall (fun f => field_ok (FFile f)) (new_files_ e);
}.

Lemma new_VersionEdit_ok : edit_ok new_VersionEdit.
Proof. split; simpl; repeat constructor; done. Qed.

Lemma apply_field_ok e f : edit_ok e -> field_ok f -> edit_ok (apply_field e f).
Proof.
  intros [H1 H2 H3 H4 H5 H6 [H7 H7s] H8] Hf. destruct f as [name|num|num|num|num|[level key]|[level num]|[level f]]; simpl in Hf; split; cbn; try done.
  - apply Forall_app. split; [done|]. by constructor.
  - split; [|by apply set_insert_sorted]. rewrite Forall_forall in *. intros y Hy. apply list_elem_of_In, set_insert_in in Hy as [-> |Hy]; [done|]. apply H7. by apply list_elem_of_In.
  - apply Forall_app. split; [done|]. constructor; [|constructor]. destruct Hf as (Hl & _ & _ & Hf). done.
Qed.

(** ** Encoding *)

Definition fields_of (e : VersionEdit) : list field :=
  (if has_comparator_ e then [FComparator (comparator_ e)] else []) ++ (if has_log_number_ e then [FLogNumber (log_number_ e)] else []) ++
  (if has_prev_log_number_ e then [FPrevLogNumber (prev_log_number_ e)] else []) ++ (if has_next_file_number_ e then [FNextFile (next_file_number_ e)] else []) ++
  (if has_last_sequence_ e then [FLastSequence (last_sequence_ e)] else []) ++
  map FPointer (compact_pointers_ e) ++ map FDeleted (deleted_files_ e) ++ map FFile (new_files_ e).

Lemma fields_of_ok e : edit_ok e -> Forall field_ok (fields_of e).
Proof.
  intros [[H1 _] [H2 _] [H3 _] [H4 _] [H5 _] H6 [H7 _] H8]. unfold fields_of. rewrite !Forall_app, !Forall_map.
  split_and!; try done; (case_match; [constructor; [done|constructor]|constructor]).
Qed.

Lemma PutLengthPrefixedSlice_app dst s : PutLengthPrefixedSlice dst s = dst ++ prefixed s.
Proof. unfold PutLengthPrefixedSlice, prefixed, PutVarint32. by rewrite <- app_assoc. Qed.

Lemma key_Encode_fits k : key_fits k -> key_Encode k = Some k.
Proof. intros [Hk _]. unfold key_Encode. by rewrite bool_decide_false. Qed.

Lemma level_u32 l : level_ok l -> u32 l = l.
Proof. unfold level_ok, kNumLevels. intros. apply u32_id. lia. Qed.

Lemma put_number_spec has tag num dst f : num_ok num -> field_bytes f = tagged tag (varint num) ->
  put_number has tag num dst = Some (dst ++ concat (map field_bytes (if has then [f] else []))).
Proof.
  intros Hn Hf. unfold put_number. destruct has; simpl; [|by rewrite app_nil_r]. rewrite PutVarint64_varint, Hf by done. unfold PutVarint32, tagged. by rewrite app_nil_r, app_assoc.
Qed.

Lemma put_pointers_spec l : Forall (fun p => field_ok (FPointer p)) l -> forall dst, put_pointers l dst = Some (dst ++ concat (map field_bytes (map FPointer l))).
Proof.
  induction 1 as [|[level key] l Hp Hl IH]; intros dst; simpl; [by rewrite app_nil_r|]. destruct Hp as [Hlv Hk]. rewrite key_Encode_fits by done. cbn [mbind option_bind].
  rewrite IH, PutLengthPrefixedSlice_app, level_u32 by done. unfold PutVarint32, tagged. by rewrite <- !app_assoc.
Qed.

Lemma put_deleted_spec l : Forall (fun p => field_ok (FDeleted p)) l -> forall dst, put_deleted l dst = Some (dst ++ concat (map field_bytes (map FDeleted l))).
Proof.
  induction 1 as [|[level num] l Hp Hl IH]; intros dst; simpl; [by rewrite app_nil_r|]. destruct Hp as [Hlv Hn]. rewrite PutVarint64_varint by done. cbn [mbind option_bind].
  rewrite IH, level_u32 by done. unfold PutVarint32, tagged. by rewrite <- !app_assoc.
Qed.

Lemma put_files_spec l : Forall (fun p => field_ok (FFile p)) l -> forall dst, put_files l dst = Some (dst ++ concat (map field_bytes (map FFile l))).
Proof.
  induction 1 as [|[level f] l Hp Hl IH]; intros dst; simpl; [by rewrite app_nil_r|]. destruct Hp as (Hlv & _ & _ & Hn & Hz & Hs & Hg).
  rewrite PutVarint64_varint by done. cbn [mbind option_bind]. rewrite PutVarint64_varint by done. cbn [mbind option_bind]. rewrite !key_Encode_fits by done. cbn [mbind option_bind].
  rewrite IH, !PutLengthPrefixedSlice_app, level_u32 by done. unfold PutVarint32, tagged. by rewrite <- !app_assoc.
Qed.

Lemma EncodeTo_fields e dst : edit_ok e -> EncodeTo e dst = Some (dst ++ concat (map field_bytes (fields_of e))).
Proof.
  intros [[H1 _] [H2 _] [H3 _] [H4 _] [H5 _] H6 [H7 _] H8]. unfold EncodeTo.
  rewrite (put_number_spec _ _ _ _ (FLogNumber (log_number_ e))) by done. cbn [mbind option_bind].
  rewrite (put_number_spec _ _ _ _ (FPrevLogNumber (prev_log_number_ e))) by done. cbn [mbind option_bind].
  rewrite (put_number_spec _ _ _ _ (FNextFile (next_file_number_ e))) by done. cbn [mbind option_bind].
  rewrite (put_number_spec _ _ _ _ (FLastSequence (last_sequence_ e))) by done. cbn [mbind option_bind].
  rewrite put_pointers_spec by done. cbn [mbind option_bind]. rewrite put_deleted_spec by done. cbn [mbind option_bind]. rewrite put_files_spec by done.
  unfold fields_of. rewrite !map_app, !concat_app. f_equal. rewrite !app_assoc. do 7 f_equal. destruct (has_comparator_ e); cbn [map concat field_bytes]; [|by rewrite app_nil_r].
  rewrite PutLengthPrefixedSlice_app, app_nil_r. unfold PutVarint32, tagged. by rewrite app_assoc.
Qed.

(** ** Applying the fields *)

Lemma set_lists_same e : set_lists (compact_pointers_ e) (deleted_files_ e) (new_files_ e) e = e.
Proof. by destruct e. Qed.

Lemma apply_pointers l : forall e, fold_left apply_field (map FPointer l) e = set_lists (compact_pointers_ e ++ l) (deleted_files_ e) (new_files_ e) e.
Proof.
  induction l as [|[level key] l IH]; intros e; cbn [map fold_left]; [by rewrite app_nil_r, set_lists_same|]. rewrite IH. unfold set_lists. simpl. by rewrite <- app_assoc.
Qed.

Lemma apply_deleted l : forall e, pairs_sorted (deleted_files_ e ++ l) ->
  fold_left apply_field (map FDeleted l) e = set_lists (compact_pointers_ e) (deleted_files_ e ++ l) (new_files_ e) e.
Proof.
  induction l as [|[level num] l IH]; intros e Hs; cbn [map fold_left]; [by rewrite app_nil_r, set_lists_same|].
  assert (set_insert (level, num) (deleted_files_ e) = deleted_files_ e ++ [(level, num)]) as E.
  { apply set_insert_last. clear IH. induction (deleted_files_ e) as [|y ys IHy]; [constructor|]. inversion Hs as [|? ? Hs' Hf]; subst. constructor; [|by apply IHy].
    rewrite Forall_forall in Hf. apply Hf. apply list_elem_of_In, in_or_app. right. by left. }
  rewrite IH; cbn [apply_field]; unfold DeleteFile, set_lists; simpl; rewrite E, <- app_assoc; done.
Qed.

Lemma apply_files l : Forall (fun f => field_ok (FFile f)) l -> forall e,
  fold_left apply_field (map FFile l) e = set_lists (compact_pointers_ e) (deleted_files_ e) (new_files_ e ++ l) e.
Proof.
  induction 1 as [|[level f] l Hf Hl IH]; intros e; cbn [map fold_left]; [by rewrite app_nil_r, set_lists_same|].
  rewrite IH. cbn [apply_field]. unfold AddFile, set_lists. simpl. rewrite <- app_assoc. destruct Hf as (_ & Hr & Ha & _). destruct f. simpl in *. by subst.
Qed.

(** What the decoder makes of the encoding of [e] in an edit that was [e0] before. *)
Definition reloaded (e0 e : VersionEdit) : VersionEdit := set_lists (compact_pointers_ e0 ++ compact_pointers_ e) (deleted_files_ e) (new_files_ e) e.

Lemma apply_fields_of e e0 : edit_ok e -> fold_left apply_field (fields_of e) (ve_Clear e0) = reloaded e0 e.
Proof.
  intros [[_ H1] [_ H2] [_ H3] [_ H4] [_ H5] _ [_ H7] H8]. unfold fields_of. rewrite !fold_left_app.
  match goal with |- context [fold_left apply_field (map FPointer _) ?x] => set (e5 := x) end.
  assert (e5 = set_lists (compact_pointers_ e0) [] [] e) as ->.
  { unfold e5. clear -H1 H2 H3 H4 H5. destruct e as [c n1 n2 n3 n4 h h1 h2 h3 h4 ps ds fs]. simpl in *. unfold ve_Clear, set_lists. simpl.
    destruct h; [|rewrite (H1 eq_refl)]; (destruct h1; [|rewrite (H2 eq_refl)]); (destruct h2; [|rewrite (H3 eq_refl)]); (destruct h3; [|rewrite (H4 eq_refl)]);
      (destruct h4; [|rewrite (H5 eq_refl)]); reflexivity. }
  rewrite apply_pointers, apply_deleted, apply_files by done. reflexivity.
Qed.

(** C33. Any edit made by calls of the setters, with levels
    below 7, non-empty keys and numbers of 64 bits, is encoded without a failed
    assertion, and decoding it gives exactly its members back, whatever the
    edit that it is decoded into held before, except that the compaction
    pointers of that edit stay in front: [Clear] does not clear them. *)
Theorem version_edit_roundtrip le fs dst e0 : Forall field_ok fs ->
  let e := fold_left apply_field fs new_VersionEdit in
  exists bs, EncodeTo e dst = Some (dst ++ bs) /\ DecodeFrom le bs e0 = Some (OK, reloaded e0 e) /\ DecodeFrom le bs new_VersionEdit = Some (OK, e).
Proof.
  intros Hfs e. assert (edit_ok e) as He.
  { unfold e. generalize new_VersionEdit_ok. generalize new_VersionEdit. clear e. induction Hfs as [|f fs Hf Hfs IH]; intros e He; simpl; [done|]. apply IH. by apply apply_field_ok. }
  exists (concat (map field_bytes (fields_of e))). rewrite EncodeTo_fields by done. split; [done|]. rewrite !DecodeFrom_fields, !apply_fields_of by (done || by apply fields_of_ok).
  split; [done|]. unfold reloaded. simpl. by rewrite set_lists_same.
Qed.

(** ** Decoding anything *)

Lemma parsed_varint_shorter w n p v rest : parsed_varint w n p = Some (v, rest) -> (length rest < length p)%nat.
Proof.
  unfold parsed_varint. pose proof (take_varint_spec n p) as Hs. destruct (take_varint n p) as [bs|]; [|done]. intros [= _ <-].
  destruct Hs as (Hv & _ & r & ->). rewrite drop_app_length, length_app. destruct bs; [done|simpl; lia].
Qed.

Lemma GetVarint32_shorter p v rest : GetVarint32 p = Some (v, rest) -> (length rest < length p)%nat.
Proof. rewrite GetVarint32_parsed. apply parsed_varint_shorter. Qed.

Lemma GetVarint64_shorter p v rest : GetVarint64 p = Some (v, rest) -> (length rest < length p)%nat.
Proof. rewrite GetVarint64_parsed. apply parsed_varint_shorter. Qed.

Lemma GetLengthPrefixedSlice_shorter p s rest : GetLengthPrefixedSlice p = (Some s, rest) -> (length rest <= length p)%nat.
Proof.
  unfold GetLengthPrefixedSlice. destruct (GetVarint32 p) as [[len p']|] eqn:E; [|done]. apply GetVarint32_shorter in E. case_match; [|done]. intros [= _ <-]. rewrite length_drop. lia.
Qed.

Lemma GetInternalKey_shorter p s rest : GetInternalKey p = Some (s, rest) -> (length rest <= length p)%nat.
Proof. unfold GetInternalKey. destruct (GetLengthPrefixedSlice p) as [[s'|] p'] eqn:E; [|done]. intros [= _ <-]. by eapply GetLengthPrefixedSlice_shorter. Qed.

Lemma GetLevel_shorter p l rest : GetLevel p = Some (l, rest) -> (length rest <= length p)%nat /\ l < kNumLevels.
Proof.
  unfold GetLevel. destruct (GetVarint32 p) as [[v p']|] eqn:E; [|done]. cbn [mbind option_bind]. apply GetVarint32_shorter in E. case_match; [|done]. intros [= <- <-]. lia.
Qed.

Ltac shorter := repeat match goal with
  | H : GetVarint64 _ = Some _ |- _ => apply GetVarint64_shorter in H
  | H : GetInternalKey _ = Some _ |- _ => apply GetInternalKey_shorter in H
  | H : GetLevel _ = Some _ |- _ => apply GetLevel_shorter in H as [? ?]
  | H : GetLengthPrefixedSlice _ = (Some _, _) |- _ => apply GetLengthPrefixedSlice_shorter in H
  end.

Lemma decode_member_shorter tag p e rest e' : decode_member tag p e = inr (rest, e') -> (length rest <= length p)%nat.
Proof.
  unfold decode_member. cbv zeta. unfold mbind, option_bind. repeat (case_match; simplify_eq; try done); intros; simplify_eq; shorter; lia.
Qed.

Lemma decode_loop_total : forall fuel p e, (length p <= fuel)%nat -> exists r, decode_loop fuel p e = Some r.
Proof.
  induction fuel as [|fuel IH]; intros p e Hl; cbn [decode_loop]; destruct (GetVarint32 p) as [[tag p']|] eqn:E; try by eexists.
  - apply GetVarint32_shorter in E. lia.
  - apply GetVarint32_shorter in E. destruct (decode_member tag p' e) as [msg|[rest e']] eqn:Ed; [by eexists|]. apply decode_member_shorter in Ed. apply IH. lia.
Qed.

Lemma GetLevel_ok p l rest : GetLevel p = Some (l, rest) -> level_ok l.
Proof.
  unfold GetLevel. destruct (GetVarint32 p) as [[v p']|] eqn:E; [|done]. cbn [mbind option_bind]. destruct (Z.ltb_spec v kNumLevels); [|done]. intros [= <- <-].
  split; [|done]. rewrite GetVarint32_parsed in E. unfold parsed_varint in E. destruct (take_varint 5 p); [|done]. injection E as <- _. by apply Z.mod_pos_bound.
Qed.

(** Every level is one of a version, and the deleted files are a set. *)
Definition levels_ok (e : VersionEdit) : Prop :=
  Forall (fun p => level_ok p.1) (compact_pointers_ e) /\ Forall (fun p => level_ok p.1) (deleted_files_ e) /\ Forall (fun p => level_ok p.1) (new_files_ e) /\
  pairs_sorted (deleted_files_ e).

Lemma decode_member_levels tag p e rest e' : levels_ok e -> decode_member tag p e = inr (rest, e') -> levels_ok e'.
Proof.
  intros (H1 & H2 & H3 & H4). unfold decode_member. cbv zeta. unfold mbind, option_bind. repeat (case_match; simplify_eq; try done); intros; simplify_eq; try done;
    match goal with H : GetLevel _ = Some _ |- _ => apply GetLevel_ok in H end.
  - split; [|done]. apply Forall_app. split; [done|]. by constructor.
  - split; [done|]. split; [|split; [done|by apply set_insert_sorted]]. cbn. rewrite Forall_forall in *. intros y Hy. apply list_elem_of_In, set_insert_in in Hy as [-> |Hy]; [done|].
    apply H2. by apply list_elem_of_In.
  - split; [done|]. split; [done|]. split; [|done]. apply Forall_app. split; [done|]. by constructor.
Qed.

Lemma decode_loop_levels : forall fuel p e m rest e', levels_ok e -> decode_loop fuel p e = Some (m, rest, e') -> levels_ok e'.
Proof.
  induction fuel as [|fuel IH]; intros p e m rest e' He; cbn [decode_loop]; (destruct (GetVarint32 p) as [[tag p']|]; [|by intros [= _ _ <-]]);
    destruct (decode_member tag p' e) as [msg|[p2 e2]] eqn:Ed; try by intros [= _ _ <-]; try done.
  apply IH. by eapply decode_member_levels.
Qed.

(** C35. Decoding returns on every input, with OK or a
    corruption; whatever the input, the levels in the edit afterwards are levels
    of a version (they are used as indices into arrays) and the deleted files
    are a set. *)
Theorem version_edit_decode_safe le src e0 : levels_ok e0 ->
  exists s e, DecodeFrom le src e0 = Some (s, e) /\ levels_ok e /\ (s = OK \/ IsCorruption s = Some true).
Proof.
  intros (H1 & _). assert (levels_ok (ve_Clear e0)) as He by (split; [done|]; split; [constructor|]; split; constructor).
  destruct (decode_loop_total (length src) src (ve_Clear e0) (Nat.le_refl _)) as [[[m rest] e] E]. pose proof (decode_loop_levels _ _ _ _ _ _ He E) as Hl.
  unfold DecodeFrom. rewrite E. cbn [mbind option_bind].
  assert (forall msg, exists s, (s0 ← new_Status le kCorruption (bytes_of "VersionEdit") (bytes_of msg); Some (s0, e)) = Some (s, e) /\ IsCorruption s = Some true) as Hmsg.
  { intros msg. eexists. split; [reflexivity|]. by destruct le. }
  destruct m as [msg|].
  - destruct (Hmsg msg) as (s & Es & Hs). exists s, e. by auto.
  - case_bool_decide; cbn [negb]; [by exists OK, e; auto|]. destruct (Hmsg "invalid tag"%string) as (s & Es & Hs). exists s, e. by auto.
Qed.
