(* ===== verification/VersionSet.v ===== *)
(** * Versions: db/version_set.cc

    The files of each level, the searches in them, the choice of the files of a
    compaction, and the builder of the next version.  A [FileMetaData*] is the
    record it points to: these functions read its number, size and keys, which
    never change; the reference counts and the statistics of seeks are left out.
    [None] is a failed assertion or an overflow of a signed integer. *)
From S2P Require Import Prelude Coding Comparator DbFormat Status Iter Format FileName VersionEdit.

Definition kMaxMemCompactLevel : Z := 2.

(** ** Limits *)

(** An [int] product; overflow is undefined. *)
Definition int_mul (a b : Z) : option Z := if (- 2 ^ 31 <=? a * b) && (a * b <? 2 ^ 31) then Some (a * b) else None.

(** An [int64_t] sum. *)
Definition int64_add (a b : Z) : option Z := if (- 2 ^ 63 <=? a + b) && (a + b <? 2 ^ 63) then Some (a + b) else None.

Section Limits.
Context (max_file_size : Z).   (* options->max_file_size, a size_t *)

Definition TargetFileSize : Z := s32 max_file_size.
Definition MaxGrandParentOverlapBytes : option Z := int_mul 10 TargetFileSize.
Definition ExpandedCompactionByteSizeLimit : option Z := int_mul 25 TargetFileSize.
Definition MaxFileSizeForLevel (level : Z) : Z := u64 TargetFileSize.
End Limits.

Definition TotalFileSize (files : list FileMetaData) : Z := fold_left (fun sum f => s64 (sum + f_size f)) files 0.

(** ** Searching the files of a level *)

Section Version.
Context (kLittleEndian : bool) (ucmp : Comparator).

Abbreviation icompare := (internal_compare kLittleEndian ucmp).

(** [InternalKeyComparator::Compare] of two [InternalKey]s. *)
Definition compare_keys (a b : list byte) : option Z := a ← key_Encode a; b ← key_Encode b; icompare a b.

(** Half of the files are left in every round. *)
Fixpoint FindFile_loop (fuel : nat) (files : list FileMetaData) (k : list byte) (left right : Z) : option Z :=
  if left <? right then
    match fuel with
    | O => None
    | S fuel' =>
        let mid := u32 (left + right) / 2 in
        f ← files !! Z.to_nat mid;
        l ← key_Encode (largest f);
        r ← icompare l k;
        if r <? 0 then FindFile_loop fuel' files k (u32 (mid + 1)) right else FindFile_loop fuel' files k left mid
    end
  else Some right.

Definition FindFile (files : list FileMetaData) (k : list byte) : option Z := FindFile_loop (length files) files k 0 (u32 (Z.of_nat (length files))).

(** A NULL key is [None]. *)
Definition AfterFile (user_key : option (list byte)) (f : FileMetaData) : option bool :=
  match user_key with
  | None => Some false
  | Some u => l ← ExtractUserKey (largest f); r ← @Compare ucmp u l; Some (0 <? r)
  end.

Definition BeforeFile (user_key : option (list byte)) (f : FileMetaData) : option bool :=
  match user_key with
  | None => Some false
  | Some u => s ← ExtractUserKey (smallest f); r ← @Compare ucmp u s; Some (r <? 0)
  end.

Fixpoint any_overlaps (files : list FileMetaData) (smallest_user_key largest_user_key : option (list byte)) : option bool :=
  match files with
  | [] => Some false
  | f :: files' =>
      a ← AfterFile smallest_user_key f;
      no_overlap ← (if (a : bool) then Some true else BeforeFile largest_user_key f);
      if (no_overlap : bool) then any_overlaps files' smallest_user_key largest_user_key else Some true
  end.

(** [InternalKey(user_key, s, t)] *)
Definition new_InternalKey (user_key : list byte) (s t : Z) : option (list byte) := AppendInternalKey kLittleEndian [] (Parsed user_key s t).

Definition SomeFileOverlapsRange (disjoint_sorted_files : bool) (files : list FileMetaData) (smallest_user_key largest_user_key : option (list byte)) : option bool :=
  if negb disjoint_sorted_files then any_overlaps files smallest_user_key largest_user_key
  else
    index ← (match smallest_user_key with
             | Some u => small ← new_InternalKey u kMaxSequenceNumber kValueTypeForSeek; k ← key_Encode small; FindFile files k
             | None => Some 0
             end);
    if Z.of_nat (length files) <=? index then Some false
    else f ← files !! Z.to_nat index; b ← BeforeFile largest_user_key f; Some (negb b).

(** ** Version::LevelFileNumIterator *)

Record LevelFileNumIterator := MkLevelIter { flist_ : list FileMetaData; lf_index_ : Z (* uint32_t *) }.

Definition new_LevelFileNumIterator (flist : list FileMetaData) : LevelFileNumIterator := MkLevelIter flist (u32 (Z.of_nat (length flist))).

Definition lf_Valid (t : LevelFileNumIterator) : bool := lf_index_ t <? Z.of_nat (length (flist_ t)).
Definition lf_at (t : LevelFileNumIterator) (i : Z) : LevelFileNumIterator := MkLevelIter (flist_ t) i.
Definition lf_file (t : LevelFileNumIterator) : option FileMetaData := if lf_Valid t then flist_ t !! Z.to_nat (lf_index_ t) else None.

Definition LevelFileNumIterator_iterator : Iterator LevelFileNumIterator := {|
  Valid := lf_Valid;
  SeekToFirst t := Some (lf_at t 0);
  SeekToLast t := Some (lf_at t (if bool_decide (flist_ t = []) then 0 else u32 (Z.of_nat (length (flist_ t)) - 1)));
  Seek target t := i ← FindFile (flist_ t) target; Some (lf_at t i);
  Next t := if lf_Valid t then Some (lf_at t (u32 (lf_index_ t + 1))) else None;
  Prev t := if lf_Valid t then Some (lf_at t (if lf_index_ t =? 0 then u32 (Z.of_nat (length (flist_ t))) else lf_index_ t - 1)) else None;
  key t := f ← lf_file t; key_Encode (largest f);
  value t := f ← lf_file t; Some (EncodeFixed64 kLittleEndian (f_number f) ++ EncodeFixed64 kLittleEndian (f_size f));
  status _ := OK;
|}.

(** ** The files that may have a key *)

Definition covers (user_key : list byte) (f : FileMetaData) : option bool :=
  s ← ExtractUserKey (smallest f);
  r ← @Compare ucmp user_key s;
  if 0 <=? r then l ← ExtractUserKey (largest f); r ← @Compare ucmp user_key l; Some (r <=? 0) else Some false.

Fixpoint covering (user_key : list byte) (files : list FileMetaData) : option (list FileMetaData) :=
  match files with
  | [] => Some []
  | f :: files' => b ← covers user_key f; fs ← covering user_key files'; Some (if (b : bool) then f :: fs else fs)
  end.

Definition NewestFirst (a b : FileMetaData) : bool := f_number b <? f_number a.

(** [std::sort]; the numbers of files are different. *)
Fixpoint insert_newest (f : FileMetaData) (l : list FileMetaData) : list FileMetaData :=
  match l with [] => [f] | g :: l' => if NewestFirst g f then g :: insert_newest f l' else f :: l end.
Definition sort_newest (l : list FileMetaData) : list FileMetaData := fold_right insert_newest [] l.

(** The files of a level that are searched for a key, in the order in which they are. *)
Definition files_to_search (level : Z) (files : list FileMetaData) (user_key ikey : list byte) : option (list FileMetaData) :=
  if level =? 0 then tmp ← covering user_key files; Some (sort_newest tmp)
  else if bool_decide (files = []) then Some []
  else
    index ← FindFile files ikey;
    if Z.of_nat (length files) <=? index then Some []
    else
      f ← files !! Z.to_nat index;
      s ← ExtractUserKey (smallest f);
      r ← @Compare ucmp user_key s;
      Some (if r <? 0 then [] else [f]).

(** [func] is called until it returns false; the bool says whether it never did. *)
Fixpoint call_each {A} (func : Z -> FileMetaData -> A -> bool * A) (level : Z) (files : list FileMetaData) (arg : A) : bool * A :=
  match files with
  | [] => (true, arg)
  | f :: files' => let '(more, arg) := func level f arg in if (more : bool) then call_each func level files' arg else (false, arg)
  end.

Fixpoint for_each_level {A} (func : Z -> FileMetaData -> A -> bool * A) (level : Z) (levels : list (list FileMetaData)) (user_key internal_key : list byte) (arg : A) : option A :=
  match levels with
  | [] => Some arg
  | files :: levels' =>
      fs ← files_to_search level files user_key internal_key;
      let '(more, arg) := call_each func level fs arg in
      if (more : bool) then for_each_level func (level + 1) levels' user_key internal_key arg else Some arg
  end.

(** [files_] is the array of the levels. *)
Definition ForEachOverlapping {A} (files_ : list (list FileMetaData)) (user_key internal_key : list byte) (arg : A) (func : Z -> FileMetaData -> A -> bool * A) : option A :=
  for_each_level func 0 files_ user_key internal_key arg.
End Version.

(** ** Version::Get *)

(** [TableCache::Get]. *)
Class TableGetter (T : Type) := {
  tc_Get : forall {A}, ReadOptions -> Z -> Z -> list byte -> (list byte -> list byte -> A -> A) -> A -> T -> option (Status * A * T);
}.

Inductive SaverState := sNotFound | sFound | sDeleted | sCorrupt.
Record Saver := MkSaver { sv_state : SaverState; sv_value : list byte }.

Record GetStats := MkStats { seek_file : option FileMetaData; seek_file_level : Z }.

Section Get.
Context (kLittleEndian : bool) (ucmp : Comparator) {T : Type} {tables : TableGetter T}.

(** Applied to the saver; [None] when the comparison has failed an assertion. *)
Definition SaveValue (user_key ikey v : list byte) (s : option Saver) : option Saver :=
  s ← s;
  '(ok, parsed_key) ← ParseInternalKey kLittleEndian ikey (Parsed [] 0 0);
  if negb ok then Some (MkSaver sCorrupt (sv_value s))
  else
    r ← @Compare ucmp (DbFormat.user_key parsed_key) user_key;
    Some (if r =? 0 then if vtype parsed_key =? kTypeValue then MkSaver sFound v else MkSaver sDeleted (sv_value s) else s).

(** The file that was read last, with its level, and the statistics. *)
Record GetProgress := MkProgress { last_file_read : option FileMetaData; last_file_read_level : Z; get_stats : GetStats }.

(** The first file is charged when a second one has to be read. *)
Definition charge (p : GetProgress) : GetStats :=
  match last_file_read p, seek_file (get_stats p) with
  | Some f, None => MkStats (Some f) (last_file_read_level p)
  | _, _ => get_stats p
  end.

(** [inl]: the status that is returned, with [*value]; [inr]: keep searching. *)
Fixpoint search_files (options : ReadOptions) (level : Z) (files : list FileMetaData) (user_key ikey value : list byte) (p : GetProgress) (t : T) :
    option ((Status * list byte + list byte) * GetProgress * T) :=
  match files with
  | [] => Some (inr value, p, t)
  | f :: files' =>
      let p := MkProgress (Some f) level (charge p) in
      '(s, saver, t) ← tc_Get options (f_number f) (f_size f) ikey (SaveValue user_key) (Some (MkSaver sNotFound value)) t;
      saver ← saver;
      let value := sv_value saver in
      if negb (ok s) then Some (inl (s, value), p, t)
      else
        match sv_state saver with
        | sNotFound => search_files options level files' user_key ikey value p t
        | sFound => Some (inl (s, value), p, t)
        | sDeleted => s ← new_Status kLittleEndian Status.kNotFound [] []; Some (inl (s, value), p, t)
        | sCorrupt => s ← new_Status kLittleEndian kCorruption (bytes_of "corrupted key for ") user_key; Some (inl (s, value), p, t)
        end
  end.

Fixpoint search_levels (options : ReadOptions) (level : Z) (levels : list (list FileMetaData)) (user_key ikey value : list byte) (p : GetProgress) (t : T) :
    option (Status * list byte * GetProgress * T) :=
  match levels with
  | [] => s ← new_Status kLittleEndian Status.kNotFound [] []; Some (s, value, p, t)
  | files :: levels' =>
      fs ← files_to_search kLittleEndian ucmp level files user_key ikey;
      '(r, p, t) ← search_files options level fs user_key ikey value p t;
      match r with
      | inl (s, value) => Some (s, value, p, t)
      | inr value => search_levels options (level + 1) levels' user_key ikey value p t
      end
  end.

(** The status, [*value], [*stats] and the table cache afterwards. *)
Definition Version_Get (files_ : list (list FileMetaData)) (options : ReadOptions) (k : LookupKey_t) (value : list byte) (t : T) : option (Status * list byte * GetStats * T) :=
  '(s, value, p, t) ← search_levels options 0 files_ (lookup_user_key k) (internal_key k) value (MkProgress None (-1) (MkStats None (-1))) t;
  Some (s, value, get_stats p, t).
End Get.

(** ** Overlapping files *)

Section Overlap.
Context (kLittleEndian : bool) (ucmp : Comparator).

Abbreviation icompare := (internal_compare kLittleEndian ucmp).

(** The user keys of the range; a NULL key is [None]. *)
Record UserRange := MkRange { user_begin : option (list byte); user_end : option (list byte) }.

(** Whether the file is in front of the range or behind it. *)
Definition outside (r : UserRange) (file_start file_limit : list byte) : option bool :=
  before ← (match user_begin r with Some b => c ← @Compare ucmp file_limit b; Some (c <? 0) | None => Some false end);
  if (before : bool) then Some true
  else match user_end r with Some e => c ← @Compare ucmp file_start e; Some (0 <? c) | None => Some false end.

(** The range when a file of level 0 has expanded it. *)
Definition expanded (r : UserRange) (file_start file_limit : list byte) : option (option UserRange) :=
  b ← (match user_begin r with Some b => c ← @Compare ucmp file_start b; Some (c <? 0) | None => Some false end);
  if (b : bool) then Some (Some (MkRange (Some file_start) (user_end r)))
  else
    e ← (match user_end r with Some e => c ← @Compare ucmp file_limit e; Some (0 <? c) | None => Some false end);
    Some (if (e : bool) then Some (MkRange (user_begin r) (Some file_limit)) else None).

(** One pass over the files: the inputs, or the range with which the search starts again. *)
Fixpoint overlap_pass (level : Z) (r : UserRange) (files inputs : list FileMetaData) : option (list FileMetaData + UserRange) :=
  match files with
  | [] => Some (inl inputs)
  | f :: files' =>
      file_start ← ExtractUserKey (smallest f);
      file_limit ← ExtractUserKey (largest f);
      out ← outside r file_start file_limit;
      if (out : bool) then overlap_pass level r files' inputs
      else
        let inputs := inputs ++ [f] in
        if level =? 0 then
          r' ← expanded r file_start file_limit;
          match r' with Some r' => Some (inr r') | None => overlap_pass level r files' inputs end
        else overlap_pass level r files' inputs
  end.

Fixpoint overlap_loop (fuel : nat) (level : Z) (r : UserRange) (files : list FileMetaData) : option (list FileMetaData) :=
  res ← overlap_pass level r files [];
  match res with
  | inl inputs => Some inputs
  | inr r' => match fuel with O => None | S fuel' => overlap_loop fuel' level r' files end
  end.

Definition user_key_opt (k : option (list byte)) : option (option (list byte)) :=
  match k with Some k => u ← ExtractUserKey k; Some (Some u) | None => Some None end.

(** Every restart moves an end of the range to that of another file. *)
Definition GetOverlappingInputs (files_ : list (list FileMetaData)) (level : Z) (begin_ end_ : option (list byte)) : option (list FileMetaData) :=
  if (0 <=? level) && (level <? kNumLevels) then
    b ← user_key_opt begin_;
    e ← user_key_opt end_;
    files ← files_ !! Z.to_nat level;
    overlap_loop (2 * length files) level (MkRange b e) files
  else None.

Definition OverlapInLevel (files_ : list (list FileMetaData)) (level : Z) (smallest_user_key largest_user_key : option (list byte)) : option bool :=
  files ← files_ !! Z.to_nat level; SomeFileOverlapsRange kLittleEndian ucmp (0 <? level) files smallest_user_key largest_user_key.

(** [while (level < config::kMaxMemCompactLevel)] *)
Fixpoint pick_level_loop (fuel : nat) (files_ : list (list FileMetaData)) (max_file_size level : Z) (smallest_user_key largest_user_key start limit : list byte) : option Z :=
  if level <? kMaxMemCompactLevel then
    match fuel with
    | O => None
    | S fuel' =>
        o ← OverlapInLevel files_ (level + 1) (Some smallest_user_key) (Some largest_user_key);
        if (o : bool) then Some level
        else
          stop ← (if level + 2 <? kNumLevels then
                    overlaps ← GetOverlappingInputs files_ (level + 2) (Some start) (Some limit);
                    lim ← MaxGrandParentOverlapBytes max_file_size;
                    Some (lim <? TotalFileSize overlaps)
                  else Some false);
          if (stop : bool) then Some level else pick_level_loop fuel' files_ max_file_size (level + 1) smallest_user_key largest_user_key start limit
    end
  else Some level.

Definition PickLevelForMemTableOutput (files_ : list (list FileMetaData)) (max_file_size : Z) (smallest_user_key largest_user_key : list byte) : option Z :=
  o ← OverlapInLevel files_ 0 (Some smallest_user_key) (Some largest_user_key);
  if (o : bool) then Some 0
  else
    start ← new_InternalKey kLittleEndian smallest_user_key kMaxSequenceNumber kValueTypeForSeek;
    limit ← new_InternalKey kLittleEndian largest_user_key 0 kTypeDeletion;
    pick_level_loop (Z.to_nat kMaxMemCompactLevel) files_ max_file_size 0 smallest_user_key largest_user_key start limit.

(** ** Ranges *)

Fixpoint range_loop (inputs : list FileMetaData) (s l : list byte) : option (list byte * list byte) :=
  match inputs with
  | [] => Some (s, l)
  | f :: inputs' =>
      c ← compare_keys kLittleEndian ucmp (smallest f) s;
      let s := if c <? 0 then smallest f else s in
      c ← compare_keys kLittleEndian ucmp (largest f) l;
      let l := if 0 <? c then largest f else l in
      range_loop inputs' s l
  end.

Definition GetRange (inputs : list FileMetaData) : option (list byte * list byte) :=
  match inputs with [] => None | f :: inputs' => range_loop inputs' (smallest f) (largest f) end.

Definition GetRange2 (inputs1 inputs2 : list FileMetaData) : option (list byte * list byte) := GetRange (inputs1 ++ inputs2).
End Overlap.

(** ** Compactions *)

Record Compaction := MkCompaction {
  level_ : Z;
  max_output_file_size_ : Z;
  input_files_ : list (list FileMetaData);   (* input_version_->files_ *)
  edit_ : VersionEdit;
  inputs0 : list FileMetaData;
  inputs1 : list FileMetaData;
  grandparents_ : list FileMetaData;
  grandparent_index_ : nat;
  seen_key_ : bool;
  overlapped_bytes_ : Z;                     (* int64_t *)
  level_ptrs_ : list nat;
}.

Definition new_Compaction (max_file_size level : Z) (files_ : list (list FileMetaData)) (inputs : list FileMetaData) : Compaction :=
  MkCompaction level (MaxFileSizeForLevel max_file_size level) files_ new_VersionEdit inputs [] [] 0 false 0 (replicate (Z.to_nat kNumLevels) 0%nat).

Definition set_inputs (i0 i1 gs : list FileMetaData) (e : VersionEdit) (c : Compaction) : Compaction :=
  MkCompaction (level_ c) (max_output_file_size_ c) (input_files_ c) e i0 i1 gs (grandparent_index_ c) (seen_key_ c) (overlapped_bytes_ c) (level_ptrs_ c).
Definition set_overlap (i : nat) (seen : bool) (bytes : Z) (c : Compaction) : Compaction :=
  MkCompaction (level_ c) (max_output_file_size_ c) (input_files_ c) (edit_ c) (inputs0 c) (inputs1 c) (grandparents_ c) i seen bytes (level_ptrs_ c).
Definition set_level_ptr (lvl i : nat) (c : Compaction) : Compaction :=
  MkCompaction (level_ c) (max_output_file_size_ c) (input_files_ c) (edit_ c) (inputs0 c) (inputs1 c) (grandparents_ c) (grandparent_index_ c) (seen_key_ c)
    (overlapped_bytes_ c) (<[lvl := i]> (level_ptrs_ c)).

Section Compact.
Context (kLittleEndian : bool) (ucmp : Comparator) (max_file_size : Z).

(** More inputs of the level, when that needs no more inputs of the next one. *)
Definition grow_inputs (files_ : list (list FileMetaData)) (level : Z) (i0 i1 : list FileMetaData) (all_start all_limit : list byte) :
    option (option (list FileMetaData * list FileMetaData * (list byte * list byte))) :=
  expanded0 ← GetOverlappingInputs ucmp files_ level (Some all_start) (Some all_limit);
  limit ← (if (length i0 <? length expanded0)%nat then l ← ExpandedCompactionByteSizeLimit max_file_size; Some (Some l) else Some None);
  match limit with
  | Some l =>
      total ← int64_add (TotalFileSize i1) (TotalFileSize expanded0);
      if total <? l then
        '(new_start, new_limit) ← GetRange kLittleEndian ucmp expanded0;
        expanded1 ← GetOverlappingInputs ucmp files_ (level + 1) (Some new_start) (Some new_limit);
        Some (if (length expanded1 =? length i1)%nat then Some (expanded0, expanded1, (new_start, new_limit)) else None)
      else Some None
  | None => Some None
  end.

(** The compaction with all its inputs, and the new [compact_pointer_]. *)
Definition SetupOtherInputs (c : Compaction) (compact_pointer_ : list (list byte)) : option (Compaction * list (list byte)) :=
  let level := level_ c in
  let files_ := input_files_ c in
  '(smallest, largest) ← GetRange kLittleEndian ucmp (inputs0 c);
  i1 ← GetOverlappingInputs ucmp files_ (level + 1) (Some smallest) (Some largest);
  '(all_start, all_limit) ← GetRange2 kLittleEndian ucmp (inputs0 c) i1;
  grown ← (if bool_decide (i1 = []) then Some None else grow_inputs files_ level (inputs0 c) i1 all_start all_limit);
  '(i0, i1, largest, all) ← (match grown with
                             | Some (e0, e1, (_, new_limit)) => all ← GetRange2 kLittleEndian ucmp e0 e1; Some (e0, e1, new_limit, all)
                             | None => Some (inputs0 c, i1, largest, (all_start, all_limit))
                             end);
  gs ← (if level + 2 <? kNumLevels then GetOverlappingInputs ucmp files_ (level + 2) (Some all.1) (Some all.2) else Some (grandparents_ c));
  l ← key_Encode largest;
  Some (set_inputs i0 i1 gs (SetCompactPointer level largest (edit_ c)) c, <[Z.to_nat level := l]> compact_pointer_).

Fixpoint pick_first (files : list FileMetaData) (ptr : list byte) : option (option FileMetaData) :=
  match files with
  | [] => Some None
  | f :: files' =>
      after ← (if bool_decide (ptr = []) then Some true else l ← key_Encode (largest f); r ← internal_compare kLittleEndian ucmp l ptr; Some (0 <? r));
      if (after : bool) then Some (Some f) else pick_first files' ptr
  end.

(** [size_compaction] is the level whose score is at least 1, [seek_compaction] the file that has been searched in vain
    too often, with its level.  [inl]: there is nothing to do. *)
Definition PickCompaction (files_ : list (list FileMetaData)) (compact_pointer_ : list (list byte)) (size_compaction : option Z) (seek_compaction : option (FileMetaData * Z)) :
    option (option Compaction * list (list byte)) :=
  picked ← (match size_compaction, seek_compaction with
            | Some level, _ =>
                if (0 <=? level) && (level + 1 <? kNumLevels) then
                  files ← files_ !! Z.to_nat level;
                  ptr ← compact_pointer_ !! Z.to_nat level;
                  f ← pick_first files ptr;
                  f ← (match f with Some f => Some f | None => files !! 0%nat end);
                  Some (Some (level, f))
                else None
            | None, Some (f, level) => Some (Some (level, f))
            | None, None => Some None
            end);
  match picked with
  | None => Some (None, compact_pointer_)
  | Some (level, f) =>
      i0 ← (if level =? 0 then
              '(smallest, largest) ← GetRange kLittleEndian ucmp [f];
              i0 ← GetOverlappingInputs ucmp files_ 0 (Some smallest) (Some largest);
              if bool_decide (i0 = []) then None else Some i0
            else Some [f]);
      '(c, ptrs) ← SetupOtherInputs (new_Compaction max_file_size level files_ i0) compact_pointer_;
      Some (Some c, ptrs)
  end.

(** The first files, up to the one with which they have [limit] bytes. *)
Fixpoint up_to_limit (inputs : list FileMetaData) (limit total : Z) : list FileMetaData :=
  match inputs with
  | [] => []
  | f :: inputs' => let total := u64 (total + f_size f) in f :: (if limit <=? total then [] else up_to_limit inputs' limit total)
  end.

Definition CompactRange (files_ : list (list FileMetaData)) (compact_pointer_ : list (list byte)) (level : Z) (begin_ end_ : option (list byte)) :
    option (option Compaction * list (list byte)) :=
  inputs ← GetOverlappingInputs ucmp files_ level begin_ end_;
  if bool_decide (inputs = []) then Some (None, compact_pointer_)
  else
    let inputs := if 0 <? level then up_to_limit inputs (MaxFileSizeForLevel max_file_size level) 0 else inputs in
    '(c, ptrs) ← SetupOtherInputs (new_Compaction max_file_size level files_ inputs) compact_pointer_;
    Some (Some c, ptrs).

Definition IsTrivialMove (c : Compaction) : option bool :=
  if ((length (inputs0 c) =? 1) && (length (inputs1 c) =? 0))%nat
  then l ← MaxGrandParentOverlapBytes max_file_size; Some (TotalFileSize (grandparents_ c) <=? l)
  else Some false.

Definition AddInputDeletions (c : Compaction) (e : VersionEdit) : VersionEdit :=
  let e := fold_left (fun e f => DeleteFile (level_ c) (f_number f) e) (inputs0 c) e in
  fold_left (fun e f => DeleteFile (level_ c + 1) (f_number f) e) (inputs1 c) e.

(** The pointer into the files of a level moves forward; the bool says whether the key is in the range of a file. *)
Fixpoint advance_level (user_key : list byte) (files : list FileMetaData) (ptr : nat) : option (bool * nat) :=
  match files with
  | [] => Some (false, ptr)
  | f :: files' =>
      l ← ExtractUserKey (largest f);
      r ← @Compare ucmp user_key l;
      if r <=? 0 then s ← ExtractUserKey (smallest f); r ← @Compare ucmp user_key s; Some (0 <=? r, ptr)
      else advance_level user_key files' (S ptr)
  end.

Fixpoint base_level_loop (fuel lvl : nat) (user_key : list byte) (c : Compaction) : option (bool * Compaction) :=
  if Z.of_nat lvl <? kNumLevels then
    match fuel with
    | O => None
    | S fuel' =>
        files ← input_files_ c !! lvl;
        ptr ← level_ptrs_ c !! lvl;
        '(found, ptr) ← advance_level user_key (drop ptr files) ptr;
        let c := set_level_ptr lvl ptr c in
        if (found : bool) then Some (false, c) else base_level_loop fuel' (S lvl) user_key c
    end
  else Some (true, c).

Definition IsBaseLevelForKey (user_key : list byte) (c : Compaction) : option (bool * Compaction) :=
  base_level_loop (Z.to_nat kNumLevels) (Z.to_nat (level_ c + 2)) user_key c.

(** [grandparent_index_] and [overlapped_bytes_] behind the files in front of the key. *)
Fixpoint pass_grandparents (ikey : list byte) (gs : list FileMetaData) (i : nat) (seen : bool) (bytes : Z) : option (nat * Z) :=
  match gs with
  | [] => Some (i, bytes)
  | f :: gs' =>
      l ← key_Encode (largest f);
      r ← internal_compare kLittleEndian ucmp ikey l;
      if 0 <? r then pass_grandparents ikey gs' (S i) seen (if seen then s64 (bytes + f_size f) else bytes) else Some (i, bytes)
  end.

Definition ShouldStopBefore (ikey : list byte) (c : Compaction) : option (bool * Compaction) :=
  '(i, bytes) ← pass_grandparents ikey (drop (grandparent_index_ c) (grandparents_ c)) (grandparent_index_ c) (seen_key_ c) (overlapped_bytes_ c);
  limit ← MaxGrandParentOverlapBytes max_file_size;
  Some (if limit <? bytes then (true, set_overlap i true 0 c) else (false, set_overlap i true bytes c)).
End Compact.

(** ** VersionSet::Builder *)

Record LevelState := MkLevelState { deleted_files : list Z; added_files : list FileMetaData }.

Section Builder.
Context (kLittleEndian : bool) (ucmp : Comparator).

Definition BySmallestKey (f1 f2 : FileMetaData) : option bool :=
  r ← compare_keys kLittleEndian ucmp (smallest f1) (smallest f2);
  Some (if negb (r =? 0) then r <? 0 else f_number f1 <? f_number f2).

(** [std::set::insert] with this order. *)
Fixpoint file_insert (f : FileMetaData) (l : list FileMetaData) : option (list FileMetaData) :=
  match l with
  | [] => Some [f]
  | g :: l' =>
      lt ← BySmallestKey f g;
      if (lt : bool) then Some (f :: l)
      else gt ← BySmallestKey g f; if (gt : bool) then l' ← file_insert f l'; Some (g :: l') else Some l
  end.

Definition new_Builder : list LevelState := replicate (Z.to_nat kNumLevels) (MkLevelState [] []).

(** The file with its number of seeks. *)
Definition counted_file (f : FileMetaData) : FileMetaData :=
  let seeks := s32 (f_size f / 16384) in MkFile 1 (if seeks <? 100 then 100 else seeks) (f_number f) (f_size f) (smallest f) (largest f).

(** The index of a level in an array of [kNumLevels] elements. *)
Definition level_index (level : Z) : option nat := if (0 <=? level) && (level <? kNumLevels) then Some (Z.to_nat level) else None.

Fixpoint apply_pointers (l : list (Z * list byte)) (compact_pointer_ : list (list byte)) : option (list (list byte)) :=
  match l with
  | [] => Some compact_pointer_
  | (level, key) :: l' => i ← level_index level; k ← key_Encode key; apply_pointers l' (<[i := k]> compact_pointer_)
  end.

Fixpoint apply_deletions (l : list (Z * Z)) (levels_ : list LevelState) : option (list LevelState) :=
  match l with
  | [] => Some levels_
  | (level, number) :: l' => i ← level_index level; apply_deletions l' (alter (fun s => MkLevelState (number :: deleted_files s) (added_files s)) i levels_)
  end.

Fixpoint apply_new_files (l : list (Z * FileMetaData)) (levels_ : list LevelState) : option (list LevelState) :=
  match l with
  | [] => Some levels_
  | (level, f0) :: l' =>
      let f := counted_file f0 in
      i ← level_index level;
      s ← levels_ !! i;
      added ← file_insert f (added_files s);
      apply_new_files l' (<[i := MkLevelState (filter (fun n => n <> f_number f) (deleted_files s)) added]> levels_)
  end.

(** A level of the edit that is out of range is [None], an access outside the arrays.  The set of deleted numbers is a list here. *)
Definition Apply (edit : VersionEdit) (levels_ : list LevelState) (compact_pointer_ : list (list byte)) : option (list LevelState * list (list byte)) :=
  ptrs ← apply_pointers (compact_pointers_ edit) compact_pointer_;
  levels_ ← apply_deletions (deleted_files_ edit) levels_;
  levels_ ← apply_new_files (new_files_ edit) levels_;
  Some (levels_, ptrs).

Definition MaybeAddFile (level : Z) (s : LevelState) (f : FileMetaData) (files : list FileMetaData) : option (list FileMetaData) :=
  if bool_decide (f_number f ∈ deleted_files s) then Some files
  else
    match last files with
    | Some g => if 0 <? level then r ← compare_keys kLittleEndian ucmp (largest g) (smallest f); if r <? 0 then Some (files ++ [f]) else None else Some (files ++ [f])
    | None => Some (files ++ [f])
    end.

Fixpoint add_all (level : Z) (s : LevelState) (fs files : list FileMetaData) : option (list FileMetaData) :=
  match fs with [] => Some files | f :: fs' => files ← MaybeAddFile level s f files; add_all level s fs' files end.

(** [std::upper_bound]: the files that are not behind [f], and the others. *)
Fixpoint split_base (f : FileMetaData) (base : list FileMetaData) : option (list FileMetaData * list FileMetaData) :=
  match base with
  | [] => Some ([], [])
  | g :: base' => lt ← BySmallestKey f g; if (lt : bool) then Some ([], base) else '(a, b) ← split_base f base'; Some (g :: a, b)
  end.

Fixpoint merge_added (level : Z) (s : LevelState) (added base files : list FileMetaData) : option (list FileMetaData) :=
  match added with
  | [] => add_all level s base files
  | f :: added' =>
      '(smaller, base) ← split_base f base;
      files ← add_all level s smaller files;
      files ← MaybeAddFile level s f files;
      merge_added level s added' base files
  end.

(** "Make sure there is no overlap in levels > 0". *)
Fixpoint check_no_overlap (files : list FileMetaData) : option unit :=
  match files with
  | f :: (g :: _) as files' => r ← compare_keys kLittleEndian ucmp (largest f) (smallest g); if 0 <=? r then None else check_no_overlap files'
  | _ => Some tt
  end.

Definition save_level (level : Z) (s : LevelState) (base : list FileMetaData) : option (list FileMetaData) :=
  files ← merge_added level s (added_files s) base [];
  _ ← (if 0 <? level then check_no_overlap files else Some tt);
  Some files.

Fixpoint save_levels (level : Z) (levels_ : list LevelState) (base_files : list (list FileMetaData)) : option (list (list FileMetaData)) :=
  match levels_, base_files with
  | s :: levels', base :: base' => files ← save_level level s base; rest ← save_levels (level + 1) levels' base'; Some (files :: rest)
  | _, _ => Some []
  end.

(** The files of the new version. *)
Definition SaveTo (levels_ : list LevelState) (base_files : list (list FileMetaData)) : option (list (list FileMetaData)) := save_levels 0 levels_ base_files.
End Builder.
