(* ===== verification/VersionProps.v ===== *)
(** * Versions: searching the files of a level and choosing the files that overlap a range *)
From Stdlib Require Import Sorted.
From S2P Require Import Prelude Varint Coding CodingProps Comparator DbFormat DbFormatProps Status Iter VersionEdit VersionSet.

Section Props.
Context {le : bool} {user : Comparator} {uvalid : list byte -> Prop} {Huser : ComparatorOk user uvalid}.

Abbreviation icmp := (InternalKeyComparator le user).
Abbreviation ivalid := (valid_internal (valid := uvalid)).
Abbreviation ilt := (key_lt icmp).
Abbreviation ile := (key_le icmp).
Abbreviation ult := (key_lt user).
Abbreviation ule := (key_le user).

(** ** Files *)

(** The user key of an internal key. *)
Definition ukey (k : list byte) : list byte := take (length k - 8) k.

(** A key with a sequence number and a type in range. *)
Definition proper (k : list byte) : Prop :=
  exists u s t, k = internal u (packed s t) /\ 0 <= s <= kMaxSequenceNumber /\ 0 <= t <= kTypeValue /\ uvalid u.

Definition keys_proper (f : FileMetaData) : Prop := proper (smallest f) /\ proper (largest f).

Definition file_ok (f : FileMetaData) : Prop :=
  ivalid (smallest f) /\ ivalid (largest f) /\ ile (smallest f) (largest f) /\ 0 <= f_number f < 2 ^ 64 /\ 0 <= f_size f < 2 ^ 64.

(** The files of a level above 0: one behind the other. *)
Definition disjoint_sorted (files : list FileMetaData) : Prop :=
  forall i j f g, (i < j)%nat -> files !! i = Some f -> files !! j = Some g -> ilt (largest f) (smallest g).

Lemma ukey_internal u n : ukey (internal u n) = u.
Proof. unfold ukey, internal. rewrite length_app, length_le_split. replace (length u + 8 - 8)%nat with (length u) by lia. apply take_app_length. Qed.

Lemma ivalid_ukey k : ivalid k -> uvalid (ukey k) /\ ExtractUserKey k = Some (ukey k) /\ key_Encode k = Some k.
Proof.
  intros (u & n & -> & Hn & Hu). rewrite ukey_internal. split; [done|]. split; [apply ExtractUserKey_internal|]. unfold key_Encode. rewrite bool_decide_false; [done|].
  intros E. apply (f_equal length) in E. rewrite length_internal in E. simpl in E. lia.
Qed.

Lemma icmp_defined a b : ivalid a -> ivalid b -> exists r, internal_compare le user a b = Some r /\ (r < 0 <-> ilt a b) /\ (r <= 0 <-> ile a b).
Proof using Huser.
  intros Ha Hb. destruct (compare_defined (c := icmp) (valid := ivalid) a b Ha Hb) as [r Er]. exists r. split; [done|]. by apply (cmp_sign (cmp := internal_compare le user)).
Qed.

Lemma ucmp_defined a b : uvalid a -> uvalid b -> exists r, @Compare user a b = Some r /\ (r < 0 <-> ult a b) /\ (r <= 0 <-> ule a b).
Proof using Huser. intros Ha Hb. destruct (compare_defined a b Ha Hb) as [r Er]. exists r. split; [done|]. by apply cmp_sign. Qed.

Lemma not_ule a b : uvalid a -> uvalid b -> ~ ule a b -> ult b a.
Proof using Huser. intros Ha Hb Hn. destruct (key_total (valid := uvalid) (cmp := @Compare user) b a Hb Ha); [done|]. by destruct Hn. Qed.

Lemma ilt_not_ile a b : ilt a b -> ~ ile b a.
Proof using Huser. apply (key_lt_not_le (cmp := @Compare icmp) (valid := ivalid)). Qed.

Lemma ult_not_ule a b : ult a b -> ~ ule b a.
Proof using Huser. apply (key_lt_not_le (cmp := @Compare user) (valid := uvalid)). Qed.

(** The order of internal keys refines that of the user keys. *)
Lemma ile_ukey a b : ivalid a -> ivalid b -> ile a b -> ule (ukey a) (ukey b).
Proof using Huser.
  intros (ua & na & -> & Hna & Ha) (ub & nb & -> & Hnb & Hb) Hle. rewrite !ukey_internal.
  by apply (internal_le_user (le := le) (Hok := Huser) ua na ub nb).
Qed.

Lemma ult_ilt a b : ivalid a -> ivalid b -> ult (ukey a) (ukey b) -> ilt a b.
Proof using Huser.
  intros Ha Hb Hlt. destruct (key_total (valid := ivalid) (cmp := @Compare icmp) a b Ha Hb) as [|Hle]; [done|]. exfalso.
  eapply key_lt_not_le; [exact Hlt|]. by apply ile_ukey.
Qed.

Lemma file_users f : file_ok f -> uvalid (ukey (smallest f)) /\ uvalid (ukey (largest f)) /\ ExtractUserKey (smallest f) = Some (ukey (smallest f)) /\
  ExtractUserKey (largest f) = Some (ukey (largest f)) /\ ule (ukey (smallest f)) (ukey (largest f)).
Proof using Huser.
  intros (Hs & Hl & Hle & _). destruct (ivalid_ukey _ Hs) as (H1 & H2 & _), (ivalid_ukey _ Hl) as (H3 & H4 & _). split_and!; try done. by apply ile_ukey.
Qed.

(** ** FindFile *)

(** The files up to [i] are in front of the key, the others are not. *)
Definition found_at (files : list FileMetaData) (k : list byte) (i : nat) : Prop :=
  (i <= length files)%nat /\ (forall j f, (j < i)%nat -> files !! j = Some f -> ilt (largest f) k) /\ (forall j f, (i <= j)%nat -> files !! j = Some f -> ile k (largest f)).

Lemma largest_sorted files i j f g : Forall file_ok files -> disjoint_sorted files -> (i <= j)%nat -> files !! i = Some f -> files !! j = Some g -> ile (largest f) (largest g).
Proof using Huser.
  intros Hok Hs Hij Ef Eg. rewrite Forall_lookup in Hok. pose proof (Hok i f Ef) as (_ & Hf & _). pose proof (Hok j g Eg) as (Hgs & Hg & Hgle & _).
  destruct (decide (i = j)) as [-> |Hne]; [assert (f = g) as -> by congruence; by apply (key_le_refl (valid := ivalid))|].
  apply (key_le_trans (valid := ivalid) _ (smallest g)); try done. apply key_lt_le, (Hs i j); [lia|done|done].
Qed.

Lemma FindFile_loop_spec files k : Forall file_ok files -> disjoint_sorted files -> ivalid k -> Z.of_nat (length files) < 2 ^ 31 ->
  forall fuel l r, (l <= r <= length files)%nat -> (r - l <= fuel)%nat ->
  (forall j f, (j < l)%nat -> files !! j = Some f -> ilt (largest f) k) -> (forall j f, (r <= j)%nat -> files !! j = Some f -> ile k (largest f)) ->
  exists i, FindFile_loop le user fuel files k (Z.of_nat l) (Z.of_nat r) = Some (Z.of_nat i) /\ found_at files k i.
Proof using Huser.
  intros Hok Hs Hk Hlen. induction fuel as [|fuel IH]; intros l r Hlr Hf Hbelow Habove; cbn [FindFile_loop]; destruct (Z.ltb_spec (Z.of_nat l) (Z.of_nat r)) as [Hl|Hl];
    try lia; try (exists r; split; [done|]; split; [lia|]; split; [|done]; intros j f Hj; apply Hbelow; lia).
  cbv zeta. rewrite (u32_id (Z.of_nat l + Z.of_nat r)) by lia.
  assert (exists m, (Z.of_nat l + Z.of_nat r) / 2 = Z.of_nat m /\ (l <= m < r)%nat) as (m & -> & Hm).
  { pose proof (Z.div_mod (Z.of_nat l + Z.of_nat r) 2 ltac:(lia)). pose proof (Z.mod_pos_bound (Z.of_nat l + Z.of_nat r) 2 ltac:(lia)).
    exists (Z.to_nat ((Z.of_nat l + Z.of_nat r) / 2)). lia. }
  rewrite Nat2Z.id. destruct (lookup_lt_is_Some_2 files m) as [f Ef]; [lia|]. rewrite Ef. cbn [mbind option_bind]. pose proof (proj1 (Forall_lookup _ _) Hok m f Ef) as (_ & Hfl & _).
  rewrite (proj2 (proj2 (ivalid_ukey _ Hfl))). cbn [mbind option_bind]. destruct (icmp_defined (largest f) k Hfl Hk) as (x & Ex & Hlt & _). rewrite Ex. cbn [mbind option_bind].
  destruct (Z.ltb_spec x 0) as [Hx|Hx].
  - rewrite u32_id by lia. replace (Z.of_nat m + 1) with (Z.of_nat (S m)) by lia. apply IH; [lia|lia| |done].
    intros j g Hj Eg. apply (key_le_lt_trans (valid := ivalid) _ (largest f)); [|done|done| |by apply Hlt].
    + by apply (proj1 (Forall_lookup _ _) Hok j g Eg).
    + eapply (largest_sorted files j m); [done|done|lia|done|done].
  - apply IH; [lia|lia|done|]. intros j g Hj Eg. apply (key_le_trans (valid := ivalid) _ (largest f)); [done|done| | |].
    + by apply (proj1 (Forall_lookup _ _) Hok j g Eg).
    + destruct (key_total (valid := ivalid) (cmp := @Compare icmp) (largest f) k Hfl Hk) as [Hl'|]; [apply Hlt in Hl'; lia|done].
    + by apply (largest_sorted files m j).
Qed.

(** The binary search finds the first file that does not end in front of the key. *)
Lemma FindFile_spec files k : Forall file_ok files -> disjoint_sorted files -> ivalid k -> Z.of_nat (length files) < 2 ^ 31 ->
  exists i, FindFile le user files k = Some (Z.of_nat i) /\ found_at files k i.
Proof using Huser.
  intros Hok Hs Hk Hlen. unfold FindFile. rewrite u32_id by lia. apply (FindFile_loop_spec files k Hok Hs Hk Hlen (length files) 0 (length files)); [lia|lia|lia|].
  intros j f Hj Ef. apply lookup_lt_Some in Ef. lia.
Qed.

(** ** Overlaps *)

(** A NULL end is no end. *)
Definition starts_before (f : FileMetaData) (e : option (list byte)) : Prop := forall u, e = Some u -> ule (ukey (smallest f)) u.
Definition ends_after (f : FileMetaData) (b : option (list byte)) : Prop := forall u, b = Some u -> ule u (ukey (largest f)).
Definition overlaps (b e : option (list byte)) (f : FileMetaData) : Prop := ends_after f b /\ starts_before f e.
Definition valid_end (b : option (list byte)) : Prop := forall u, b = Some u -> uvalid u.

Lemma AfterFile_spec b f : file_ok f -> valid_end b -> exists r, AfterFile user b f = Some r /\ (r = false <-> ends_after f b).
Proof using Huser.
  intros Hf Hb. destruct (file_users f Hf) as (_ & Hl & _ & El & _). destruct b as [u|]; cbn [AfterFile]; [|by exists false; split; [|split]].
  rewrite El. cbn [mbind option_bind]. destruct (ucmp_defined u (ukey (largest f)) (Hb u eq_refl) Hl) as (x & -> & _ & Hle). cbn [mbind option_bind].
  eexists. split; [done|]. split.
  - intros Hx v [= <-]. apply Hle. lia.
  - intros He. specialize (He u eq_refl). apply Hle in He. lia.
Qed.

Lemma BeforeFile_spec e f : file_ok f -> valid_end e -> exists r, BeforeFile user e f = Some r /\ (r = false <-> starts_before f e).
Proof using Huser.
  intros Hf He. destruct (file_users f Hf) as (Hs & _ & Es & _). destruct e as [u|]; cbn [BeforeFile]; [|by exists false; split; [|split]].
  rewrite Es. cbn [mbind option_bind]. destruct (ucmp_defined u (ukey (smallest f)) (He u eq_refl) Hs) as (x & -> & Hlt & _). cbn [mbind option_bind].
  eexists. split; [done|]. split.
  - intros Hx v [= <-]. destruct (key_total (valid := uvalid) (cmp := @Compare user) u (ukey (smallest f)) (He u eq_refl) Hs) as [Hl|]; [|done]. apply Hlt in Hl. lia.
  - intros Hb. specialize (Hb u eq_refl). destruct (Z.ltb_spec x 0) as [Hx|]; [|done]. exfalso. eapply key_lt_not_le; [by apply Hlt|done].
Qed.

Lemma any_overlaps_spec b e files : Forall file_ok files -> valid_end b -> valid_end e ->
  exists r, any_overlaps user files b e = Some r /\ (r = true <-> Exists (overlaps b e) files).
Proof using Huser.
  intros Hok Hb He. induction Hok as [|f files Hf Hok IH]; cbn [any_overlaps]; [exists false; split; [done|]; split; [done|]; intros H; inversion H|].
  destruct (AfterFile_spec b f Hf Hb) as (a & -> & Ha), (BeforeFile_spec e f Hf He) as (c & -> & Hc). destruct IH as (r & Er & Hr). cbn [mbind option_bind].
  assert (overlaps b e f <-> a = false /\ c = false) as Ho by (unfold overlaps; rewrite Ha, Hc; done).
  destruct a; cbn [mbind option_bind]; [|destruct c; cbn [mbind option_bind]].
  - exists r. split; [done|]. rewrite Hr, Exists_cons. split; [by right|]. intros [H|H]; [apply Ho in H as [? _]; done|done].
  - exists r. split; [done|]. rewrite Hr, Exists_cons. split; [by right|]. intros [H|H]; [apply Ho in H as [_ ?]; done|done].
  - exists true. split; [done|]. split; [|done]. intros _. apply Exists_cons_hd. by apply Ho.
Qed.

(** The first possible key of a user key is in front of a file's last key unless the whole file is in front of the user key. *)
Lemma largest_before u f : file_ok f -> keys_proper f -> uvalid u -> ilt (largest f) (internal u (packed kMaxSequenceNumber 1)) <-> ult (ukey (largest f)) u.
Proof using Huser.
  intros _ (_ & (ul & s & t & -> & Hs & Ht & Hul)) Hu. rewrite ukey_internal. destruct (PackSequenceAndType_packed s t Hs Ht) as [_ Hr].
  assert (0 <= packed kMaxSequenceNumber 1 < 2 ^ 64) as Hm by (unfold packed, kMaxSequenceNumber; change (Z.shiftl 1 56) with (2 ^ 56); lia).
  destruct (ucmp_defined ul u Hul Hu) as (x & Ex & Hlt & _). pose proof (internal_compare_spec (le := le) ul (packed s t) u (packed kMaxSequenceNumber 1) x Hr Hm Ex) as Ei.
  rewrite <- Hlt. unfold cmp_lt. cbn [Compare InternalKeyComparator]. rewrite Ei. split.
  - intros (y & [= <-] & Hy). destruct (Z.eqb_spec x 0); [|done]. unfold packed, kTypeValue in *. lia.
  - intros Hx. eexists. split; [done|]. destruct (Z.eqb_spec x 0); lia.
Qed.

Lemma first_key u : uvalid u -> new_InternalKey le u kMaxSequenceNumber kValueTypeForSeek = Some (internal u (packed kMaxSequenceNumber 1)) /\ ivalid (internal u (packed kMaxSequenceNumber 1)).
Proof.
  intros Hu. unfold new_InternalKey, AppendInternalKey. cbn [sequence vtype DbFormat.user_key]. rewrite max_tag, PutFixed64_internal. split; [done|].
  exists u, (packed kMaxSequenceNumber 1). split; [done|]. split; [|done]. unfold packed, kMaxSequenceNumber. change (Z.shiftl 1 56) with (2 ^ 56). lia.
Qed.

Lemma smallest_sorted files i j f g : Forall file_ok files -> disjoint_sorted files -> (i <= j)%nat -> files !! i = Some f -> files !! j = Some g -> ile (smallest f) (smallest g).
Proof using Huser.
  intros Hok Hs Hij Ef Eg. rewrite Forall_lookup in Hok. pose proof (Hok i f Ef) as (Hfs & Hf & Hfle & _). pose proof (Hok j g Eg) as (Hgs & Hg & Hgle & _).
  destruct (decide (i = j)) as [-> |Hne]; [assert (f = g) as -> by congruence; by apply (key_le_refl (valid := ivalid))|].
  apply (key_le_trans (valid := ivalid) _ (largest f)); try done. apply key_lt_le, (Hs i j); [lia|done|done].
Qed.

(** Whether a file of a level overlaps a range of user keys, with
    either end possibly open: the test of every file and the binary search of
    the sorted levels both give the answer, without a failed assertion. *)
Theorem file_overlap disjoint files b e : Forall file_ok files -> Forall keys_proper files -> (disjoint = true -> disjoint_sorted files) ->
  valid_end b -> valid_end e -> Z.of_nat (length files) < 2 ^ 31 ->
  exists r, SomeFileOverlapsRange le user disjoint files b e = Some r /\ (r = true <-> Exists (overlaps b e) files).
Proof using Huser.
  intros Hok Hpr Hs Hb He Hlen. unfold SomeFileOverlapsRange. destruct disjoint; cbn [negb]; [|by apply any_overlaps_spec]. specialize (Hs eq_refl).
  assert (exists i, (match b with Some u => small ← new_InternalKey le u kMaxSequenceNumber kValueTypeForSeek; k ← key_Encode small; FindFile le user files k | None => Some 0 end) = Some (Z.of_nat i) /\
    (i <= length files)%nat /\ (forall j f, files !! j = Some f -> (i <= j)%nat <-> ends_after f b)) as (i & Ei & Hi & Hends).
  { destruct b as [u|]; [|exists 0%nat; split; [done|]; split; [lia|]; intros j f _; split; [done|lia]]. pose proof (Hb u eq_refl) as Hu. destruct (first_key u Hu) as [Ek Hk].
    rewrite Ek. cbn [mbind option_bind]. rewrite (proj2 (proj2 (ivalid_ukey _ Hk))). cbn [mbind option_bind].
    destruct (FindFile_spec files _ Hok Hs Hk Hlen) as (i & Ei & Hi & Hbelow & Habove). exists i. split; [done|]. split; [done|]. intros j f Ef.
    pose proof (proj1 (Forall_lookup _ _) Hok j f Ef) as Hf. pose proof (proj1 (Forall_lookup _ _) Hpr j f Ef) as Hp. destruct (file_users f Hf) as (_ & Hul & _). split.
    - intros Hij v [= <-]. destruct (key_total (valid := uvalid) (cmp := @Compare user) (ukey (largest f)) u Hul Hu) as [Hl|]; [|done]. exfalso.
      apply (largest_before u f Hf Hp Hu) in Hl. by apply (ilt_not_ile _ _ Hl), (Habove j).
    - intros Hend. destruct (decide (i <= j)%nat); [done|]. exfalso. assert (j < i)%nat as Hj by lia. specialize (Hbelow j f Hj Ef). apply (largest_before u f Hf Hp Hu) in Hbelow.
      by apply (ult_not_ule _ _ Hbelow), Hend. }
  rewrite Ei. cbn [mbind option_bind]. destruct (Z.leb_spec (Z.of_nat (length files)) (Z.of_nat i)) as [Hge|Hlt].
  - exists false. split; [done|]. split; [done|]. intros Hex. apply Exists_exists in Hex as (f & Hin & Ho & _). apply list_elem_of_lookup_1 in Hin as [j Ef].
    apply (Hends j f Ef) in Ho. apply lookup_lt_Some in Ef. lia.
  - rewrite Nat2Z.id. destruct (lookup_lt_is_Some_2 files i) as [f Ef]; [lia|]. rewrite Ef. cbn [mbind option_bind].
    pose proof (proj1 (Forall_lookup _ _) Hok i f Ef) as Hf. destruct (BeforeFile_spec e f Hf He) as (x & -> & Hx). cbn [mbind option_bind]. eexists. split; [done|]. rewrite negb_true_iff, Hx. split.
    + intros Hst. apply Exists_exists. exists f. split; [by eapply list_elem_of_lookup_2|]. split; [by apply (Hends i f Ef)|done].
    + intros Hex u Eu. apply Exists_exists in Hex as (g & Hin & Ho & Hsb). apply list_elem_of_lookup_1 in Hin as [j Eg]. apply (Hends j g Eg) in Ho.
      pose proof (proj1 (Forall_lookup _ _) Hok j g Eg) as Hg. destruct (file_users f Hf) as (H1 & _), (file_users g Hg) as (H2 & _).
      apply (key_le_trans (valid := uvalid) _ (ukey (smallest g))); [done|done|by apply He| |by apply Hsb].
      apply ile_ukey; [apply Hf|apply Hg|]. by apply (smallest_sorted files i j).
Qed.

(** ** The iterator over the files of a level *)

(** Its entries: the last key of each file, with number and size. *)
Definition file_entry (f : FileMetaData) : entry := (largest f, EncodeFixed64 le (f_number f) ++ EncodeFixed64 le (f_size f)).

Definition level_at (files : list FileMetaData) (t : LevelFileNumIterator) (p : option nat) : Prop :=
  flist_ t = files /\ lf_index_ t = Z.of_nat (default (length files) p) /\ forall i, p = Some i -> (i < length files)%nat.

Lemma level_valid files t p : level_at files t p -> lf_Valid t = bool_decide (is_Some p).
Proof.
  intros (Ef & Ei & Hp). unfold lf_Valid. rewrite Ef, Ei. destruct p as [i|]; cbn [default from_option].
  - rewrite bool_decide_true by done. specialize (Hp i eq_refl). unfold id. lia.
  - rewrite bool_decide_false by (by intros [? ?]). unfold id. lia.
Qed.

(** The iterator over the files of a sorted level is an
    iterator over their last keys, with number and size as values: the index
    of the two-level iterator that reads the whole level. *)
Theorem level_iterator files : Forall file_ok files -> disjoint_sorted files -> Z.of_nat (length files) < 2 ^ 31 ->
  level_at files (new_LevelFileNumIterator files) None /\
  IteratorOk (LevelFileNumIterator_iterator le user) icmp ivalid (map file_entry files) (level_at files).
Proof using Huser.
  intros Hok Hs Hlen. split; [split; [done|]; split; [simpl; apply u32_id; lia|done]|].
  assert (forall t i, lf_index_ t = Z.of_nat i -> flist_ t = files -> (i < length files)%nat -> level_at files t (Some i)) as Hat.
  { intros t i Ei Ef Hi. split; [done|]. split; [done|]. by intros j [= <-]. }
  split; cbn [Valid SeekToFirst SeekToLast Seek Next Prev key value status LevelFileNumIterator_iterator].
  - intros t p. apply level_valid.
  - intros t i Hi. pose proof (level_valid _ _ _ Hi) as Hv. destruct Hi as (Ef & Ei & Hi). specialize (Hi i eq_refl). destruct (lookup_lt_is_Some_2 files i Hi) as [f Ei'].
    exists (file_entry f). rewrite list_lookup_fmap, Ei'. split; [done|]. unfold lf_file. rewrite Hv, Ef, Ei. cbn [default from_option bool_decide]. unfold id. rewrite Nat2Z.id, Ei'.
    change (bool_decide (is_Some (Some i))) with true. cbn [mbind option_bind]. pose proof (proj1 (Forall_lookup _ _) Hok i f Ei') as (_ & Hl & _).
    by rewrite (proj2 (proj2 (ivalid_ukey _ Hl))).
  - intros t p (Ef & _). eexists. split; [done|]. unfold first_pos. case_decide as Hn; [|apply Hat; [done|done|]].
    + apply fmap_nil_inv in Hn. split; [done|]. by rewrite Hn.
    + destruct files; [done|simpl; lia].
  - intros t p (Ef & _). eexists. split; [done|]. unfold last_pos. rewrite length_map, Ef. case_bool_decide as Hn.
    + rewrite Hn. split; [by rewrite Hn in Ef|]. done.
    + rewrite decide_False by (intros H; by apply fmap_nil_inv in H). assert (length files <> O) by (intros H; by apply nil_length_inv in H). apply Hat; [|done|lia].
      simpl. rewrite u32_id by lia. lia.
  - intros t p target (Ef & _) Ht. rewrite Ef. destruct (FindFile_spec files target Hok Hs Ht Hlen) as (i & -> & Hi & Hbelow & Habove). cbn [mbind option_bind]. eexists. split; [done|].
    assert (forall j f, files !! j = Some f -> key_ge icmp target (largest f) = bool_decide (i <= j)%nat) as Hge.
    { intros j f Ej. pose proof (proj1 (Forall_lookup _ _) Hok j f Ej) as (_ & Hl & _). case_bool_decide as Hij.
      - apply (key_ge_true (valid := ivalid)); [done|done|]. by apply (Habove j).
      - apply (key_ge_false (valid := ivalid)); [done|done|]. apply (Hbelow j); [lia|done]. }
    pose proof (seek_pos_spec icmp target (map file_entry files)) as Hsp. destruct (seek_pos icmp target (map file_entry files)) as [n|].
    + destruct Hsp as (e & Ee & Hgt & Hlt). rewrite list_lookup_fmap in Ee. destruct (files !! n) as [f|] eqn:En; [|done]. injection Ee as <-. simpl in Hgt. rewrite (Hge n f En) in Hgt.
      apply bool_decide_eq_true in Hgt. pose proof (lookup_lt_Some _ _ _ En). assert (i = n) as ->; [|by apply Hat].
      destruct (decide (i = n)) as [|Hne]; [done|]. exfalso. destruct (lookup_lt_is_Some_2 files i) as [g Eg]; [lia|].
      specialize (Hlt i (file_entry g) ltac:(lia) ltac:(by rewrite list_lookup_fmap, Eg)). simpl in Hlt. rewrite (Hge i g Eg), bool_decide_true in Hlt; done.
    + assert (i = length files) as ->; [|done]. destruct (decide (i = length files)) as [|Hne]; [done|]. exfalso. destruct (lookup_lt_is_Some_2 files i) as [g Eg]; [lia|].
      assert (key_ge icmp target (largest g) = false) as Hf; [|by rewrite (Hge i g Eg), bool_decide_true in Hf].
      apply (Hsp (file_entry g)). apply list_elem_of_In. apply (list_elem_of_lookup_2 _ i). by rewrite list_lookup_fmap, Eg.
  - intros t i Hi. rewrite (level_valid _ _ _ Hi). change (bool_decide (is_Some (Some i))) with true. destruct Hi as (Ef & Ei & Hi). specialize (Hi i eq_refl). eexists. split; [done|].
    unfold next_pos. rewrite length_map, Ei. cbn [default from_option]. unfold id. case_decide as Hl.
    + apply Hat; [simpl; rewrite u32_id by lia; lia|done|done].
    + split; [done|]. split; [|done]. simpl. rewrite u32_id by lia. unfold id. lia.
  - intros t i Hi. rewrite (level_valid _ _ _ Hi). change (bool_decide (is_Some (Some i))) with true. destruct Hi as (Ef & Ei & Hi). specialize (Hi i eq_refl). eexists. split; [done|].
    rewrite Ei. cbn [default from_option]. unfold id. destruct i as [|i]; cbn [prev_pos].
    + simpl. split; [done|]. split; [|done]. simpl. rewrite Ef, u32_id by lia. done.
    + destruct (Z.eqb_spec (Z.of_nat (S i)) 0); [lia|]. apply Hat; [simpl; lia|done|lia].
  - done.
Qed.

(** ** The files that overlap a range *)

Abbreviation start f := (ukey (smallest f)).
Abbreviation limit f := (ukey (largest f)).

Definition range_ok (r : UserRange) : Prop := valid_end (user_begin r) /\ valid_end (user_end r).
Definition meets (r : UserRange) (f : FileMetaData) : Prop := overlaps (user_begin r) (user_end r) f.

(** The file does not stick out of the range. *)
Definition contained (r : UserRange) (f : FileMetaData) : Prop :=
  (forall u, user_begin r = Some u -> ule u (start f)) /\ (forall u, user_end r = Some u -> ule (limit f) u).

Definition within (r R : UserRange) : Prop :=
  (forall u, user_begin R = Some u -> exists v, user_begin r = Some v /\ ule u v) /\ (forall u, user_end R = Some u -> exists v, user_end r = Some v /\ ule v u).

Definition in_range (r : UserRange) (f : FileMetaData) : bool := match outside user r (start f) (limit f) with Some b => negb b | None => false end.

Lemma outside_spec r f : file_ok f -> range_ok r -> exists b, outside user r (start f) (limit f) = Some b /\ (b = false <-> meets r f).
Proof using Huser.
  intros Hf [Hb He]. destruct (file_users f Hf) as (Hs & Hl & _). unfold outside, meets, overlaps.
  assert (exists x, (match user_begin r with Some b => c ← @Compare user (limit f) b; Some (c <? 0) | None => Some false end) = Some x /\ (x = false <-> ends_after f (user_begin r))) as (x & -> & Hx).
  { destruct (user_begin r) as [u|]; [|by exists false; split; [|split]]. destruct (ucmp_defined (limit f) u Hl (Hb u eq_refl)) as (c & -> & Hlt & _). cbn [mbind option_bind].
    eexists. split; [done|]. split.
    - intros Hc v [= <-]. destruct (key_total (valid := uvalid) (cmp := @Compare user) (limit f) u Hl (Hb u eq_refl)) as [H|]; [|done]. apply Hlt in H. lia.
    - intros Hea. destruct (Z.ltb_spec c 0) as [Hc|]; [|done]. exfalso. apply Hlt in Hc. by apply (ult_not_ule _ _ Hc), Hea. }
  assert (exists y, (match user_end r with Some e => c ← @Compare user (start f) e; Some (0 <? c) | None => Some false end) = Some y /\ (y = false <-> starts_before f (user_end r))) as (y & -> & Hy).
  { destruct (user_end r) as [u|]; [|by exists false; split; [|split]]. destruct (ucmp_defined (start f) u Hs (He u eq_refl)) as (c & -> & _ & Hle). cbn [mbind option_bind].
    eexists. split; [done|]. split.
    - intros Hc v [= <-]. apply Hle. lia.
    - intros Hsb. specialize (Hsb u eq_refl). apply Hle in Hsb. lia. }
  cbn [mbind option_bind]. destruct x.
  - exists true. split; [done|]. split; [done|]. intros [H _]. by apply Hx in H.
  - exists y. split; [done|]. rewrite Hy. split; [intros H; split; [by apply Hx|done]|by intros [_ H]].
Qed.

Lemma in_range_spec r f : file_ok f -> range_ok r -> in_range r f = true <-> meets r f.
Proof using Huser.
  intros Hf Hr. destruct (outside_spec r f Hf Hr) as (b & E & Hb). unfold in_range. rewrite E, negb_true_iff. done.
Qed.

Lemma expanded_spec r f : file_ok f -> range_ok r -> exists r', expanded user r (start f) (limit f) = Some r' /\
  match r' with
  | None => contained r f
  | Some r' => (exists u, user_begin r = Some u /\ ult (start f) u /\ r' = MkRange (Some (start f)) (user_end r)) \/
      (exists u, user_end r = Some u /\ ult u (limit f) /\ r' = MkRange (user_begin r) (Some (limit f)))
  end.
Proof using Huser.
  intros Hf [Hb He]. destruct (file_users f Hf) as (Hs & Hl & _). unfold expanded, contained.
  assert (exists x : bool, (match user_begin r with Some b => c ← @Compare user (start f) b; Some (c <? 0) | None => Some false end) = Some x /\
    if x then exists u, user_begin r = Some u /\ ult (start f) u else forall u, user_begin r = Some u -> ule u (start f)) as (x & -> & Hx).
  { destruct (user_begin r) as [u|]; [|by exists false]. destruct (ucmp_defined (start f) u Hs (Hb u eq_refl)) as (c & -> & Hlt & _). cbn [mbind option_bind]. eexists. split; [done|].
    destruct (Z.ltb_spec c 0) as [Hc|Hc]; [exists u; split; [done|by apply Hlt]|]. intros v [= <-].
    destruct (key_total (valid := uvalid) (cmp := @Compare user) (start f) u Hs (Hb u eq_refl)) as [H|]; [|done]. apply Hlt in H. lia. }
  assert (exists y : bool, (match user_end r with Some e => c ← @Compare user (limit f) e; Some (0 <? c) | None => Some false end) = Some y /\
    if y then exists u, user_end r = Some u /\ ult u (limit f) else forall u, user_end r = Some u -> ule (limit f) u) as (y & -> & Hy).
  { destruct (user_end r) as [u|]; [|by exists false]. destruct (ucmp_defined (limit f) u Hl (He u eq_refl)) as (c & -> & _ & Hle). cbn [mbind option_bind]. eexists. split; [done|].
    destruct (Z.ltb_spec 0 c) as [Hc|Hc]; [exists u; split; [done|]|intros v [= <-]; by apply Hle].
    apply not_ule; [done|by apply He|]. intros H. apply Hle in H. lia. }
  cbn [mbind option_bind]. destruct x; cbn [mbind option_bind].
  - destruct Hx as (u & Eu & Hu). eexists. split; [done|]. left. by exists u.
  - destruct y.
    + destruct Hy as (u & Eu & Hu). eexists. split; [done|]. right. by exists u.
    + eexists. split; [done|]. by split.
Qed.

Lemma ule_refl u : uvalid u -> ule u u.
Proof using Huser. apply (key_le_refl (valid := uvalid)). Qed.

Lemma ule_trans a b c : uvalid a -> uvalid b -> uvalid c -> ule a b -> ule b c -> ule a c.
Proof using Huser. apply (key_le_trans (valid := uvalid)). Qed.

(** One restart: the new range is valid, holds the old one, and is in every closed range that holds the old one. *)
Lemma expanded_range r r' f : file_ok f -> range_ok r -> expanded user r (start f) (limit f) = Some (Some r') ->
  range_ok r' /\ within r r' /\ forall R, within r R -> contained R f -> within r' R.
Proof using Huser.
  intros Hf Hr E. destruct (expanded_spec r f Hf Hr) as (o & E' & Hcase). rewrite E in E'. injection E' as <-. destruct (file_users f Hf) as (Hs & Hl & _). destruct Hr as [Hb He].
  destruct Hcase as [(u & Eu & Hlt & ->)|(u & Eu & Hlt & ->)]; (split; [split; simpl; try done; by intros v [= <-]|]); (split; [split; simpl|]).
  - intros v [= <-]. exists u. split; [done|]. by apply key_lt_le.
  - intros v Ev. exists v. split; [done|]. by apply ule_refl, He.
  - intros R [H1 H2] [H3 H4]. split; simpl; [|done]. intros v Ev. exists (start f). split; [done|]. by apply H3.
  - intros v Ev. exists v. split; [done|]. by apply ule_refl, Hb.
  - intros v [= <-]. exists u. split; [done|]. by apply key_lt_le.
  - intros R [H1 H2] [H3 H4]. split; simpl; [done|]. intros v Ev. exists (limit f). split; [done|]. by apply H4.
Qed.

Lemma overlap_pass_spec level r files : Forall file_ok files -> range_ok r -> forall inputs, exists res, overlap_pass user level r files inputs = Some res /\
  match res with
  | inl l => l = inputs ++ List.filter (in_range r) files /\ (level = 0 -> Forall (contained r) (List.filter (in_range r) files))
  | inr r' => level = 0 /\ exists f, f ∈ files /\ file_ok f /\ meets r f /\ expanded user r (start f) (limit f) = Some (Some r')
  end.
Proof using Huser.
  intros Hok Hr. induction Hok as [|f files Hf Hok IH]; intros inputs; cbn [overlap_pass List.filter]; [eexists; split; [done|]; simpl; by rewrite app_nil_r|].
  destruct (file_users f Hf) as (_ & _ & Es & El & _). rewrite Es. cbn [mbind option_bind]. rewrite El. cbn [mbind option_bind].
  destruct (outside_spec r f Hf Hr) as (b & Eb & Hb). rewrite Eb. cbn [mbind option_bind]. assert (in_range r f = negb b) as -> by (unfold in_range; by rewrite Eb).
  assert (forall inputs', exists res, overlap_pass user level r files inputs' = Some res /\
    match res with
    | inl l => l = inputs' ++ List.filter (in_range r) files /\ (level = 0 -> Forall (contained r) (List.filter (in_range r) files))
    | inr r' => level = 0 /\ exists g, g ∈ f :: files /\ file_ok g /\ meets r g /\ expanded user r (start g) (limit g) = Some (Some r')
    end) as Hrest.
  { intros inputs'. destruct (IH inputs') as (res & E & Hres). exists res. split; [done|]. destruct res as [l|r']; [done|].
    destruct Hres as (H0 & g & Hin & Hg). split; [done|]. exists g. split; [by right|done]. }
  destruct b; cbn [negb]; [apply Hrest|]. destruct (Z.eqb_spec level 0) as [Hl0|Hl0].
  - destruct (expanded_spec r f Hf Hr) as (o & Eo & Ho). rewrite Eo. cbn [mbind option_bind]. destruct o as [r'|].
    + eexists. split; [done|]. split; [done|]. exists f. split; [by left|]. split; [done|]. split; [by apply Hb|done].
    + destruct (Hrest (inputs ++ [f])) as (res & E & Hres). exists res. split; [done|]. destruct res as [l|r']; [|done]. destruct Hres as [-> Hc].
      split; [by rewrite <- app_assoc|]. intros _. constructor; [done|by apply Hc].
  - destruct (Hrest (inputs ++ [f])) as (res & E & Hres). exists res. split; [done|]. destruct res as [l|r']; [|done]. destruct Hres as [-> _].
    split; [by rewrite <- app_assoc|]. intros H0. by destruct Hl0.
Qed.

(** The files that stick out of the range, at both ends: each restart leaves fewer of them. *)
Definition ltb (a b : list byte) : bool := match @Compare user a b with Some c => c <? 0 | None => false end.
Definition out_left (r : UserRange) (f : FileMetaData) : bool := match user_begin r with Some u => ltb (start f) u | None => false end.
Definition out_right (r : UserRange) (f : FileMetaData) : bool := match user_end r with Some u => ltb u (limit f) | None => false end.
Definition sticking (r : UserRange) (files : list FileMetaData) : nat := length (List.filter (out_left r) files) + length (List.filter (out_right r) files).

Lemma ltb_spec a b : ltb a b = true <-> ult a b.
Proof.
  unfold ltb, cmp_lt. destruct (@Compare user a b) as [c|]; [|split; [done|by intros (? & ? & _)]]. rewrite Z.ltb_lt. split; [intros; by exists c|by intros (x & [= <-] & ?)].
Qed.

Lemma count_mono {A} (p q : A -> bool) l : (forall x, x ∈ l -> p x = true -> q x = true) -> (length (List.filter p l) <= length (List.filter q l))%nat.
Proof.
  induction l as [|x l IH]; intros H; cbn [List.filter]; [done|]. specialize (IH ltac:(intros y Hy; apply H; by right)). pose proof (H x ltac:(by left)) as Hx.
  destruct (p x), (q x); simpl; try lia; by specialize (Hx eq_refl).
Qed.

Lemma count_lt {A} (p q : A -> bool) l x : (forall y, y ∈ l -> p y = true -> q y = true) -> x ∈ l -> p x = false -> q x = true ->
  (length (List.filter p l) < length (List.filter q l))%nat.
Proof.
  induction l as [|y l IH]; intros H Hx Hp Hq; [by apply not_elem_of_nil in Hx|]. cbn [List.filter]. assert (forall z, z ∈ l -> p z = true -> q z = true) as H' by (intros z Hz; apply H; by right).
  apply elem_of_cons in Hx as [<- |Hx].
  - rewrite Hp, Hq. simpl. pose proof (count_mono p q l H'). lia.
  - specialize (IH H' Hx Hp Hq). pose proof (H y ltac:(by left)) as Hy. destruct (p y), (q y); simpl; try lia; by specialize (Hy eq_refl).
Qed.

Lemma expanded_sticking r r' f files : Forall file_ok files -> range_ok r -> f ∈ files -> expanded user r (start f) (limit f) = Some (Some r') ->
  (sticking r' files < sticking r files)%nat.
Proof using Huser.
  intros Hok Hr Hin E. assert (file_ok f) as Hf by (rewrite Forall_forall in Hok; by apply Hok). destruct (expanded_spec r f Hf Hr) as (o & E' & Hcase). rewrite E in E'. injection E' as <-.
  destruct (file_users f Hf) as (Hs & Hl & _). destruct Hr as [Hb He]. unfold sticking.
  destruct Hcase as [(u & Eu & Hlt & ->)|(u & Eu & Hlt & ->)]; unfold out_left, out_right; cbn [user_begin user_end]; rewrite Eu.
  - apply Nat.add_lt_mono_r. apply (count_lt _ _ _ f); [|done| |by apply ltb_spec].
    + intros g Hg. rewrite !ltb_spec. intros Hgf. assert (file_ok g) as Hgo by (rewrite Forall_forall in Hok; by apply Hok). destruct (file_users g Hgo) as (Hgs & _).
      apply (key_lt_trans (valid := uvalid) _ (start f)); try done. by apply Hb.
    + apply not_true_iff_false. rewrite ltb_spec. apply (key_lt_irrefl (valid := uvalid)).
  - apply Nat.add_lt_mono_l. apply (count_lt _ _ _ f); [|done| |by apply ltb_spec].
    + intros g Hg. rewrite !ltb_spec. intros Hgf. assert (file_ok g) as Hgo by (rewrite Forall_forall in Hok; by apply Hok). destruct (file_users g Hgo) as (_ & Hgl & _).
      apply (key_lt_trans (valid := uvalid) _ (limit f)); try done. by apply He.
    + apply not_true_iff_false. rewrite ltb_spec. apply (key_lt_irrefl (valid := uvalid)).
Qed.

(** A range that all the files it meets are contained in. *)
Definition closed_range (files : list FileMetaData) (R : UserRange) : Prop := forall f, f ∈ files -> meets R f -> contained R f.

Lemma within_meets r R f : file_ok f -> range_ok r -> range_ok R -> within r R -> meets r f -> meets R f.
Proof using Huser.
  intros Hf [Hrb Hre] [HRb HRe] [Hb He] [H1 H2]. destruct (file_users f Hf) as (Hs & Hl & _). split; intros u Eu.
  - destruct (Hb u Eu) as (v & Ev & Hle). apply (ule_trans _ v); [by apply HRb|by apply Hrb|done|done|by apply H1].
  - destruct (He u Eu) as (v & Ev & Hle). apply (ule_trans _ v); [done|by apply Hre|by apply HRe|by apply H2|done].
Qed.

Lemma within_refl r : range_ok r -> within r r.
Proof using Huser. intros [Hb He]. split; intros u Eu; (exists u; split; [done|]; apply ule_refl); [by apply Hb|by apply He]. Qed.

Lemma within_trans a b c : range_ok a -> range_ok b -> range_ok c -> within a b -> within b c -> within a c.
Proof using Huser.
  intros [Ha1 Ha2] [Hb1 Hb2] [Hc1 Hc2] [H1 H2] [H3 H4]. split; intros u Eu.
  - destruct (H3 u Eu) as (v & Ev & Hv). destruct (H1 v Ev) as (w & Ew & Hw). exists w. split; [done|]. apply (ule_trans _ v); [by apply Hc1|by apply Hb1|by apply Ha1|done|done].
  - destruct (H4 u Eu) as (v & Ev & Hv). destruct (H2 v Ev) as (w & Ew & Hw). exists w. split; [done|]. apply (ule_trans _ v); [by apply Ha2|by apply Hb2|by apply Hc2|done|done].
Qed.

(** The inputs are the files that meet a range: the given one above level 0, its closure at level 0. *)
Definition overlapping (level : Z) (files : list FileMetaData) (r0 : UserRange) (inputs : list FileMetaData) : Prop :=
  exists r, range_ok r /\ inputs = List.filter (in_range r) files /\ (forall f, f ∈ inputs <-> f ∈ files /\ meets r f) /\ within r0 r /\
    (level <> 0 -> r = r0) /\
    (level = 0 -> Forall (contained r) inputs /\ forall R, range_ok R -> closed_range files R -> within r0 R -> within r R).

Lemma in_filter_range r files : Forall file_ok files -> range_ok r -> forall f, f ∈ List.filter (in_range r) files <-> f ∈ files /\ meets r f.
Proof using Huser.
  intros Hok Hr f. rewrite !list_elem_of_In, filter_In, <- list_elem_of_In. split; intros [Hin H]; (split; [done|]); (assert (file_ok f) as Hf by (rewrite Forall_forall in Hok; by apply Hok));
    by apply (in_range_spec r f Hf Hr).
Qed.

Lemma overlap_loop_spec level r0 files : Forall file_ok files -> range_ok r0 -> forall fuel r, range_ok r -> (sticking r files <= fuel)%nat -> within r0 r -> (level <> 0 -> r = r0) ->
  (forall R, range_ok R -> closed_range files R -> within r0 R -> within r R) ->
  exists inputs, overlap_loop user fuel level r files = Some inputs /\ overlapping level files r0 inputs.
Proof using Huser.
  intros Hok Hr0. induction fuel as [|fuel IH]; intros r Hr Hf Hw Hne Hmin; cbn [overlap_loop]; destruct (overlap_pass_spec level r files Hok Hr []) as (res & -> & Hres); cbn [mbind option_bind];
    (destruct res as [l|r']; [destruct Hres as [-> Hc]; eexists; split; [done|]; exists r; split; [done|]; split; [done|]; split; [by apply in_filter_range|];
      split; [done|]; split; [done|]; intros H0; split; [by apply Hc|done]|]);
    destruct Hres as (H0 & f & Hin & Hfo & Hm & Ex); pose proof (expanded_sticking r r' f files Hok Hr Hin Ex) as Hlt; [lia|].
  destruct (expanded_range r r' f Hfo Hr Ex) as (Hr' & Hw' & Hmin'). apply IH; [done|lia| |done|].
  - by apply (within_trans _ r).
  - intros R HR Hcl HwR. pose proof (Hmin R HR Hcl HwR) as HrR. apply Hmin'; [done|]. apply Hcl; [done|]. by apply (within_meets r).
Qed.

Lemma sticking_bound r files : (sticking r files <= 2 * length files)%nat.
Proof. unfold sticking. pose proof (filter_length_le (out_left r) files). pose proof (filter_length_le (out_right r) files). lia. Qed.

Definition valid_key_opt (k : option (list byte)) : Prop := forall x, k = Some x -> ivalid x.

Lemma user_key_opt_spec k : valid_key_opt k -> user_key_opt k = Some (option_map ukey k) /\ valid_end (option_map ukey k).
Proof.
  intros Hk. destruct k as [x|]; simpl; [|by split]. destruct (ivalid_ukey x (Hk x eq_refl)) as (Hu & -> & _). split; [done|]. by intros u [= <-].
Qed.

Lemma GetOverlappingInputs_spec files_ level files b e : 0 <= level < kNumLevels -> files_ !! Z.to_nat level = Some files -> Forall file_ok files ->
  valid_key_opt b -> valid_key_opt e ->
  exists inputs, GetOverlappingInputs user files_ level b e = Some inputs /\ overlapping level files (MkRange (option_map ukey b) (option_map ukey e)) inputs.
Proof using Huser.
  intros Hl Ef Hok Hb He. unfold GetOverlappingInputs. rewrite (proj2 (Z.leb_le _ _)), (proj2 (Z.ltb_lt _ _)) by lia. cbn [andb].
  destruct (user_key_opt_spec b Hb) as [-> Hvb], (user_key_opt_spec e He) as [-> Hve]. cbn [mbind option_bind]. rewrite Ef. cbn [mbind option_bind].
  assert (range_ok (MkRange (option_map ukey b) (option_map ukey e))) as Hr by by split.
  apply (overlap_loop_spec level (MkRange (option_map ukey b) (option_map ukey e)) files Hok Hr); [done|apply sticking_bound|by apply within_refl|done|done].
Qed.

(** C31. [GetOverlappingInputs] returns for every range.  Above
    level 0 its result is the files that meet the range.  At level 0, where it
    starts again whenever a file sticks out of the range, the result is the
    files that meet the smallest range around the given one that no file it
    meets sticks out of: no file that is left out overlaps one that is taken. *)
Theorem overlapping_inputs files_ level files b e : 0 <= level < kNumLevels -> files_ !! Z.to_nat level = Some files -> Forall file_ok files ->
  valid_key_opt b -> valid_key_opt e ->
  exists inputs, GetOverlappingInputs user files_ level b e = Some inputs /\ overlapping level files (MkRange (option_map ukey b) (option_map ukey e)) inputs.
Proof using Huser. apply GetOverlappingInputs_spec. Qed.

(** ** The level for a new table *)

(** What every version keeps. *)
Definition levels_sorted (files_ : list (list FileMetaData)) : Prop :=
  Z.of_nat (length files_) = kNumLevels /\
  forall level files, files_ !! level = Some files -> Forall file_ok files /\ Forall keys_proper files /\ ((0 < level)%nat -> disjoint_sorted files) /\ Z.of_nat (length files) < 2 ^ 31.

Lemma level_files files_ level : levels_sorted files_ -> 0 <= level < kNumLevels -> exists files, files_ !! Z.to_nat level = Some files.
Proof. intros [Hl _] Hlv. apply lookup_lt_is_Some_2. lia. Qed.

Lemma OverlapInLevel_spec files_ level b e : levels_sorted files_ -> 0 <= level < kNumLevels -> valid_end b -> valid_end e ->
  exists files r, files_ !! Z.to_nat level = Some files /\ OverlapInLevel le user files_ level b e = Some r /\ (r = true <-> Exists (overlaps b e) files).
Proof using Huser.
  intros Hv Hl Hb He. destruct (level_files files_ level Hv Hl) as [files Ef]. destruct (proj2 Hv _ _ Ef) as (H1 & H2 & H3 & H4).
  destruct (file_overlap (0 <? level) files b e H1 H2) as (r & Er & Hr); [intros Hlt; apply H3; lia|done|done|done|].
  exists files, r. split; [done|]. split; [|done]. unfold OverlapInLevel. by rewrite Ef.
Qed.

Definition no_overlap (files_ : list (list FileMetaData)) (level : Z) (s l : list byte) : Prop :=
  forall files, files_ !! Z.to_nat level = Some files -> ~ Exists (overlaps (Some s) (Some l)) files.

Lemma int_mul_defined a b : - 2 ^ 31 <= a * b < 2 ^ 31 -> int_mul a b = Some (a * b).
Proof. intros H. unfold int_mul. destruct (Z.leb_spec (- 2 ^ 31) (a * b)), (Z.ltb_spec (a * b) (2 ^ 31)); (done || lia). Qed.

Lemma pick_level_loop_spec files_ mfs s l st lim : levels_sorted files_ -> 0 <= 10 * mfs < 2 ^ 31 -> uvalid s -> uvalid l -> ivalid st -> ivalid lim ->
  forall n level, Z.of_nat n = kMaxMemCompactLevel - level -> 0 <= level -> (forall i, 0 <= i <= level -> no_overlap files_ i s l) ->
  exists L, pick_level_loop le user n files_ mfs level s l st lim = Some L /\ level <= L <= kMaxMemCompactLevel /\ forall i, 0 <= i <= L -> no_overlap files_ i s l.
Proof using Huser.
  intros Hv Hm Hs Hl Hst Hlim. unfold kMaxMemCompactLevel. induction n as [|n IH]; intros level Hn Hl0 Hno; cbn [pick_level_loop]; unfold kMaxMemCompactLevel;
    (destruct (Z.ltb_spec level 2); [|exists level; split; [done|]; split; [lia|done]]); [lia|].
  destruct (OverlapInLevel_spec files_ (level + 1) (Some s) (Some l) Hv) as (files & r & Ef & -> & Hr); [unfold kNumLevels; lia|by intros u [= <-]|by intros u [= <-]|]. cbn [mbind option_bind].
  destruct r; [exists level; split; [done|]; split; [lia|done]|]. destruct (Z.ltb_spec (level + 2) kNumLevels); [|unfold kNumLevels in *; lia].
  destruct (level_files files_ (level + 2) Hv ltac:(lia)) as [files2 Ef2].
  destruct (GetOverlappingInputs_spec files_ (level + 2) files2 (Some st) (Some lim)) as (inputs & -> & _); [lia|done|by apply (proj2 Hv _ _ Ef2)|by intros x [= <-]..|]. cbn [mbind option_bind].
  unfold MaxGrandParentOverlapBytes, TargetFileSize. assert (s32 mfs = mfs) as -> by (apply sint_id; lia). rewrite int_mul_defined by lia. cbn [mbind option_bind].
  destruct (10 * mfs <? TotalFileSize inputs); [exists level; split; [done|]; split; [lia|done]|].
  destruct (IH (level + 1)) as (L & EL & HL & HnoL); [lia|lia| |exists L; split; [done|]; split; [lia|done]].
  intros i Hi. destruct (decide (i <= level)); [apply Hno; lia|]. assert (i = level + 1) as -> by lia. intros files' Ef'. assert (files' = files) as -> by congruence.
  intros Hex. apply Hr in Hex. done.
Qed.

(** C32. The level that a new table with the given range of user keys is
    put at is one of the levels 0 to 2, and when it is above 0 no file of that
    level or of those in front of it overlaps the range: the table neither
    overlaps its level nor goes behind older versions. *)
Theorem pick_level files_ mfs s l : levels_sorted files_ -> 0 <= 10 * mfs < 2 ^ 31 -> uvalid s -> uvalid l ->
  exists L, PickLevelForMemTableOutput le user files_ mfs s l = Some L /\ 0 <= L <= kMaxMemCompactLevel /\ (0 < L -> forall i, 0 <= i <= L -> no_overlap files_ i s l).
Proof using Huser.
  intros Hv Hm Hs Hl. unfold PickLevelForMemTableOutput.
  destruct (OverlapInLevel_spec files_ 0 (Some s) (Some l) Hv) as (files & r & Ef & -> & Hr); [unfold kNumLevels; lia|by intros u [= <-]|by intros u [= <-]|]. cbn [mbind option_bind].
  destruct r; [exists 0; split; [done|]; unfold kMaxMemCompactLevel; split; [lia|lia]|]. destruct (first_key s Hs) as [-> Hst]. cbn [mbind option_bind].
  assert (new_InternalKey le l 0 kTypeDeletion = Some (internal l 0) /\ ivalid (internal l 0)) as [-> Hlim].
  { split; [|exists l, 0; split; [done|]; split; [lia|done]]. unfold new_InternalKey, AppendInternalKey. cbn [sequence vtype DbFormat.user_key].
    change (PackSequenceAndType 0 kTypeDeletion) with (Some 0). cbv iota. by rewrite PutFixed64_internal. }
  cbn [mbind option_bind]. destruct (pick_level_loop_spec files_ mfs s l _ _ Hv Hm Hs Hl Hst Hlim (Z.to_nat kMaxMemCompactLevel) 0) as (L & EL & HL & Hno); [done|lia| |].
  - intros i Hi. assert (i = 0) as -> by lia. intros files' Ef'. assert (files' = files) as -> by congruence. intros Hex. by apply Hr in Hex.
  - exists L. split; [done|]. split; [done|]. intros _. exact Hno.
Qed.
End Props.
