(* ===== verification/VersionGet.v ===== *)
(** * Version::Get finds the newest version that the snapshot sees

    Proved against what the table cache promises: a lookup in a table hands the
    first entry at or past the key to the saver, at least when it has the user
    key that is looked for. *)
From Stdlib Require Import Sorted.
From S2P Require Import Prelude Varint Coding CodingProps Comparator DbFormat DbFormatProps Status Iter Format VersionEdit VersionSet VersionProps.

(** ** What is promised, and what versions keep *)

Section Get.
Context {le : bool} {user : Comparator} {uvalid : list byte -> Prop} {Huser : ComparatorOk user uvalid}.
(** User keys that compare equal are equal. *)
Context {Hinj : forall a b, uvalid a -> uvalid b -> @Compare user a b = Some 0 -> a = b}.
(** The entries of the table with a number. *)
Context {E : Z -> list entry}.

Abbreviation icmp := (InternalKeyComparator le user).
Abbreviation ivalid := (valid_internal (valid := uvalid)).
Abbreviation ilt := (key_lt icmp).
Abbreviation ile := (key_le icmp).
Abbreviation ult := (key_lt user).
Abbreviation ule := (key_le user).

Definition search_gives {A} (es : list entry) (k : list byte) (saver : list byte -> list byte -> A -> A) (arg arg' : A) : Prop :=
  match seek_pos icmp k es with
  | None => arg' = arg
  | Some n => exists e, es !! n = Some e /\ (arg' = arg \/ arg' = saver e.1 e.2 arg) /\ (ukey e.1 = ukey k -> arg' = saver e.1 e.2 arg)
  end.

(** [trel n]: the tables can serve [n] more lookups. *)
Class TableGetterOk {T} (tables : TableGetter T) (options : ReadOptions) (live : FileMetaData -> Prop) (trel : nat -> T -> Prop) := {
  tg_get A n f k (saver : list byte -> list byte -> A -> A) arg t : live f -> ivalid k -> trel (S n) t ->
    exists arg' t', tc_Get options (f_number f) (f_size f) k saver arg t = Some (OK, arg', t') /\ trel n t' /\ search_gives (E (f_number f)) k saver arg arg';
  tg_less n t : trel (S n) t -> trel n t;
}.

(** The key of an entry in a table. *)
Definition entry_ok (e : entry) : Prop := proper (uvalid := uvalid) e.1.

(** A table: sorted, and between the keys in its meta data, which are its own first and last ones. *)
Definition table_of (f : FileMetaData) : Prop :=
  Forall entry_ok (E (f_number f)) /\ keys_sorted icmp (E (f_number f)) /\
  (forall e, e ∈ E (f_number f) -> ile (smallest f) e.1 /\ ile e.1 (largest f)) /\ exists e, e ∈ E (f_number f) /\ e.1 = largest f.

(** Of two versions of a user key, the one in front is the newer one: internal keys sort newer versions first. *)
Definition newer_in (f g : FileMetaData) : Prop :=
  forall e e', e ∈ E (f_number f) -> e' ∈ E (f_number g) -> ukey e.1 = ukey e'.1 -> ilt e.1 e'.1.

(** Tables further down hold older versions, at level 0 those with smaller numbers. *)
Record version_ok (files_ : list (list FileMetaData)) : Prop := {
  vo_levels : levels_sorted (le := le) (user := user) (uvalid := uvalid) files_;
  vo_tables level files f : files_ !! level = Some files -> f ∈ files -> table_of f;
  vo_below a b fa fb f g : (a < b)%nat -> files_ !! a = Some fa -> files_ !! b = Some fb -> f ∈ fa -> g ∈ fb -> newer_in f g;
  vo_level0 files f g : files_ !! 0%nat = Some files -> f ∈ files -> g ∈ files -> f_number g < f_number f -> newer_in f g;
  vo_numbers files f g : files_ !! 0%nat = Some files -> f ∈ files -> g ∈ files -> f_number f = f_number g -> f = g;
}.

Section Lookup.
Context (u : list byte) (s : Z) (Hu : uvalid u) (Hs : 0 <= s <= kMaxSequenceNumber).

Abbreviation ikey := (internal u (packed s kValueTypeForSeek)).

(** The versions of [u] that the snapshot sees. *)
Definition visible (e : entry) : Prop := ukey e.1 = u /\ ile ikey e.1.
Definition none_visible (f : FileMetaData) : Prop := forall e, e ∈ E (f_number f) -> ~ visible e.

(** The newest one in a table. *)
Definition newest_in (f : FileMetaData) (e : entry) : Prop := e ∈ E (f_number f) /\ visible e /\ forall e', e' ∈ E (f_number f) -> visible e' -> ile e.1 e'.1.

Lemma ikey_valid : ivalid ikey /\ ukey ikey = u.
Proof using Hu Hs.
  split; [|apply ukey_internal]. exists u, (packed s kValueTypeForSeek). split; [done|]. split; [|done].
  by apply (PackSequenceAndType_packed s kValueTypeForSeek Hs ltac:(unfold kValueTypeForSeek, kTypeValue; lia)).
Qed.

Lemma proper_ivalid k : proper (uvalid := uvalid) k -> ivalid k.
Proof. intros (v & q & t & -> & Hq & Ht & Hv). exists v, (packed q t). split; [done|]. split; [|done]. by apply PackSequenceAndType_packed. Qed.

Lemma entry_parse k : proper (uvalid := uvalid) k -> exists p, ParseInternalKey le k (Parsed [] 0 0) = Some (true, p) /\ DbFormat.user_key p = ukey k /\
  (vtype p = kTypeDeletion \/ vtype p = kTypeValue) /\ 0 <= sequence p <= kMaxSequenceNumber /\ k = internal (ukey k) (packed (sequence p) (vtype p)).
Proof.
  intros (v & q & t & -> & Hq & Ht & Hv). destruct (PackSequenceAndType_packed q t Hq Ht) as [_ Hr]. rewrite ukey_internal. exists (Parsed v q t).
  split; [|split; [done|]; split; [|by split]; simpl; unfold kTypeDeletion, kTypeValue in *; lia]. unfold ParseInternalKey. rewrite length_internal.
  destruct (Nat.ltb_spec (length v + 8) 8); [lia|]. rewrite ExtractTag_internal by done. cbv zeta. unfold kTypeValue in Ht. destruct (packed_parts q t ltac:(lia)) as [-> ->].
  destruct (Z.leb_spec t kTypeValue); [|unfold kTypeValue in *; lia]. replace (length v + 8 - 8)%nat with (length v) by lia. unfold internal. by rewrite take_app_length.
Qed.

Lemma ule_antisym a b : uvalid a -> uvalid b -> ule a b -> ule b a -> a = b.
Proof using Huser Hinj.
  intros Ha Hb (x & Ex & Hx) (y & Ey & Hy). pose proof (compare_antisym _ _ _ _ Ex Ey). apply Hinj; [done|done|]. rewrite Ex. f_equal. lia.
Qed.

(** The table has an entry at [n] that is the first one at or past the key. *)
Lemma seek_newest f n e : table_of f -> seek_pos icmp ikey (E (f_number f)) = Some n -> E (f_number f) !! n = Some e -> ukey e.1 = u -> newest_in f e.
Proof using Huser Hu Hs.
  intros (Hes & Hsorted & _) En Ee Heu. pose proof (seek_pos_spec icmp ikey (E (f_number f))) as Hsp. rewrite En in Hsp. destruct Hsp as (e1 & Ee1 & Hge & Hlt).
  assert (e1 = e) as -> by congruence. destruct ikey_valid as [Hik _]. assert (forall e', e' ∈ E (f_number f) -> ivalid e'.1) as Hval.
  { intros e' Hin. apply proper_ivalid. rewrite Forall_forall in Hes. by apply Hes. }
  assert (e ∈ E (f_number f)) as Hin by by eapply list_elem_of_lookup_2. apply (key_ge_true (valid := ivalid)) in Hge; [|done|by apply Hval].
  split; [done|]. split; [by split|]. intros e' Hin' [_ Hv]. pose proof (Hval e' Hin') as Hv'. apply list_elem_of_lookup_1 in Hin' as [j Ej].
  destruct (Nat.lt_trichotomy j n) as [Hj|[-> |Hj]].
  - pose proof (Hlt j e' Hj Ej) as Hf. apply (key_ge_true (valid := ivalid)) in Hv; [|done|done]. congruence.
  - assert (e' = e) as -> by congruence. by apply (key_le_refl (valid := ivalid)).
  - by apply key_lt_le, (Hsorted n j).
Qed.

(** Without such an entry there is no visible version. *)
Lemma seek_none f : table_of f -> (forall n e, seek_pos icmp ikey (E (f_number f)) = Some n -> E (f_number f) !! n = Some e -> ukey e.1 <> u) -> none_visible f.
Proof using Huser Hinj Hu Hs.
  intros (Hes & Hsorted & _) Hno e Hin [Heu Hv]. destruct ikey_valid as [Hik Euk]. assert (forall e', e' ∈ E (f_number f) -> ivalid e'.1) as Hval.
  { intros e' Hin'. apply proper_ivalid. rewrite Forall_forall in Hes. by apply Hes. }
  pose proof (seek_pos_spec icmp ikey (E (f_number f))) as Hsp. destruct (seek_pos icmp ikey (E (f_number f))) as [n|].
  - destruct Hsp as (e1 & Ee1 & Hge & Hlt). assert (e1 ∈ E (f_number f)) as Hin1 by by eapply list_elem_of_lookup_2. pose proof (Hval e Hin) as He. pose proof (Hval e1 Hin1) as He1.
    apply (key_ge_true (valid := ivalid)) in Hge; [|done|done]. apply (Hno n e1 eq_refl Ee1). apply list_elem_of_lookup_1 in Hin as [j Ej].
    destruct (Nat.lt_trichotomy j n) as [Hj|[-> |Hj]].
    + exfalso. pose proof (Hlt j e Hj Ej) as Hf. apply (key_ge_true (valid := ivalid)) in Hv; [|done|done]. congruence.
    + congruence.
    + pose proof (Hsorted n j e1 e Hj Ee1 Ej) as Hlt1. destruct (ivalid_ukey _ He1) as (Hu1 & _), (ivalid_ukey _ He) as (Hu2 & _). apply ule_antisym; [done|done| |].
      * rewrite <- Heu. apply (ile_ukey (le := le)); [done|done|]. by apply key_lt_le.
      * rewrite <- Euk. by apply (ile_ukey (le := le)).
  - assert (key_ge icmp ikey e.1 = false) as Hf by (apply Hsp, list_elem_of_In; done). apply (key_ge_true (valid := ivalid)) in Hv; [congruence|done|by apply Hval].
Qed.

(** ** The saver *)

Definition typed (t : Z) (k : list byte) : Prop := exists q, 0 <= q <= kMaxSequenceNumber /\ k = internal (ukey k) (packed q t).

Lemma save_value e value : entry_ok e -> exists t, typed t e.1 /\ (t = kTypeDeletion \/ t = kTypeValue) /\
  SaveValue le user u e.1 e.2 (Some (MkSaver sNotFound value)) =
  Some (if decide (ukey e.1 = u) then if t =? kTypeValue then MkSaver sFound e.2 else MkSaver sDeleted value else MkSaver sNotFound value).
Proof using Huser Hinj Hu.
  intros He. destruct (entry_parse e.1 He) as (p & Ep & Ek & Ht & Hq & Ee). exists (vtype p). split; [by exists (sequence p)|]. split; [done|].
  unfold SaveValue. cbn [mbind option_bind]. rewrite Ep. cbn [mbind option_bind negb sv_value]. rewrite Ek. destruct (ivalid_ukey _ (proper_ivalid _ He)) as (Hue & _).
  destruct (compare_defined (ukey e.1) u Hue Hu) as [r Er]. rewrite Er. cbn [mbind option_bind]. f_equal. case_decide as Hk.
  - rewrite Hk in Er. pose proof (compare_refl (c := user) (valid := uvalid) u Hu) as Er'. rewrite Er in Er'. injection Er' as ->. done.
  - destruct (Z.eqb_spec r 0) as [-> |]; [|done]. by destruct Hk, (Hinj _ _ Hue Hu Er).
Qed.

(** What the saver has after the lookup in a table. *)
Definition looked_up (f : FileMetaData) (value : list byte) (sv : Saver) : Prop :=
  match sv_state sv with
  | sNotFound => sv_value sv = value /\ none_visible f
  | sFound => exists e, newest_in f e /\ typed kTypeValue e.1 /\ sv_value sv = e.2
  | sDeleted => sv_value sv = value /\ exists e, newest_in f e /\ typed kTypeDeletion e.1
  | sCorrupt => False
  end.

Lemma search_looked_up f value arg' : table_of f -> search_gives (E (f_number f)) ikey (SaveValue le user u) (Some (MkSaver sNotFound value)) arg' ->
  exists sv, arg' = Some sv /\ looked_up f value sv.
Proof using Huser Hinj Hu Hs.
  intros Hf. unfold search_gives. pose proof (seek_newest f) as Hnew. pose proof (seek_none f Hf) as Hnone. destruct ikey_valid as [_ Euk]. destruct (seek_pos _ ikey _) as [n|] eqn:En.
  - intros (e & Ee & Hor & Hsame). rewrite Euk in Hsame. assert (entry_ok e) as He by (apply (proj1 (Forall_forall _ _) (proj1 Hf)); by eapply list_elem_of_lookup_2).
    destruct (save_value e value He) as (t & Ht & Htt & Es). rewrite Es in Hor, Hsame. destruct (decide (ukey e.1 = u)) as [Hk|Hk].
    + rewrite (Hsame Hk). eexists. split; [done|]. specialize (Hnew n e Hf eq_refl Ee Hk). destruct Htt as [-> | ->]; simpl; [split; [done|]|]; by exists e.
    + exists (MkSaver sNotFound value). split; [by destruct Hor as [-> | ->]|]. split; [done|]. apply Hnone. intros m e' [= <-] Ee'. congruence.
  - intros ->. eexists. split; [done|]. split; [done|]. apply Hnone. done.
Qed.

(** ** The files of a level *)

Definition goes_before (f g : FileMetaData) : Prop := f = g \/ newer_in f g.

(** The searched files have, for every visible version in the level, one that is not older. *)
Definition suffices (fs files : list FileMetaData) : Prop :=
  (length fs <= length files)%nat /\ (forall f, f ∈ fs -> f ∈ files) /\ StronglySorted goes_before fs /\
  forall g e', g ∈ files -> e' ∈ E (f_number g) -> visible e' -> exists f e, f ∈ fs /\ e ∈ E (f_number f) /\ visible e /\ ile e.1 e'.1.

Lemma stored_valid f e : table_of f -> e ∈ E (f_number f) -> ivalid e.1.
Proof. intros (Hes & _) Hin. apply proper_ivalid. by apply (proj1 (Forall_forall _ _) Hes). Qed.

(** A file with a version of the user key has the user key in its range. *)
Lemma visible_range f e : file_ok (le := le) (user := user) (uvalid := uvalid) f -> table_of f -> e ∈ E (f_number f) -> visible e -> ule (ukey (smallest f)) u /\ ule u (ukey (largest f)).
Proof using Huser Hu.
  intros (Hs1 & Hl1 & _) Hf Hin [<- _]. pose proof (stored_valid f e Hf Hin) as Hv. destruct Hf as (_ & _ & Hb & _). destruct (Hb e Hin) as [H1 H2]. split; by apply (ile_ukey (le := le)).
Qed.

Lemma covering_spec files : Forall (file_ok (le := le) (user := user) (uvalid := uvalid)) files ->
  exists fs, covering user u files = Some fs /\ (length fs <= length files)%nat /\ forall f, f ∈ fs <-> f ∈ files /\ ule (ukey (smallest f)) u /\ ule u (ukey (largest f)).
Proof using E Huser Hu Hs.
  intros Hok. induction Hok as [|f files Hf _ (fs & Efs & Hlen & Hfs)]; cbn [covering]; [exists []; split; [done|]; split; [done|]; intros f; rewrite !elem_of_nil; tauto|].
  destruct (file_users f Hf) as (H1 & H2 & E1 & E2 & _). rewrite Efs. unfold covers. rewrite E1. cbn [mbind option_bind].
  destruct (ucmp_defined u _ Hu H1) as (r & -> & Hlt & _), (ucmp_defined u _ Hu H2) as (r' & Er' & _ & Hle). cbn [mbind option_bind].
  assert (0 <= r <-> ule (ukey (smallest f)) u) as Hr.
  { split; [intros Hr0; destruct (key_total (valid := uvalid) (cmp := @Compare user) u (ukey (smallest f)) Hu H1) as [H|]; [apply Hlt in H; lia|done]|].
    intros Hge. destruct (Z.leb_spec 0 r); [done|]. exfalso. apply (ult_not_ule (uvalid := uvalid) u (ukey (smallest f))); [by apply Hlt|done]. }
  destruct (Z.leb_spec 0 r) as [H0|H0]; cbn [mbind option_bind]; [rewrite E2; cbn [mbind option_bind]; rewrite Er'; cbn [mbind option_bind]; destruct (Z.leb_spec r' 0) as [H3|H3]|];
    (eexists; split; [done|]); (split; [simpl; lia|]); intros g; rewrite ?elem_of_cons, Hfs; (split; [|intros [[-> |Hg] [Ha Hb]]]).
  - intros [-> |(Hg & Ha & Hb)]; [split; [by left|]; split; [by apply Hr|by apply Hle]|split; [by right|done]].
  - by left.
  - right. done.
  - intros (Hg & Ha & Hb). split; [by right|done].
  - apply Hle in Hb. lia.
  - done.
  - intros (Hg & Ha & Hb). split; [by right|done].
  - apply Hr in Ha. lia.
  - done.
Qed.

Definition number_le (f g : FileMetaData) : Prop := f_number g <= f_number f.

Lemma insert_newest_elem f l g : g ∈ insert_newest f l <-> g = f \/ g ∈ l.
Proof. induction l as [|h l IH]; cbn [insert_newest]; [rewrite list_elem_of_singleton, elem_of_nil; tauto|]. destruct (NewestFirst h f); rewrite ?elem_of_cons, ?IH; tauto. Qed.

Lemma insert_newest_sorted f l : StronglySorted number_le l -> StronglySorted number_le (insert_newest f l).
Proof.
  intros H. induction H as [|g l Hl IH Hg]; cbn [insert_newest]; [by repeat constructor|]. unfold NewestFirst. destruct (Z.ltb_spec (f_number f) (f_number g)) as [Hlt|Hge].
  - constructor; [done|]. apply Forall_forall. intros h Hh. apply insert_newest_elem in Hh as [-> |Hh]; [unfold number_le; lia|by apply (proj1 (Forall_forall _ _) Hg)].
  - constructor; [by constructor|]. constructor; [done|]. eapply Forall_impl; [exact Hg|]. intros h. unfold number_le. lia.
Qed.

Lemma insert_newest_length f l : length (insert_newest f l) = S (length l).
Proof. induction l as [|g l IH]; cbn [insert_newest]; [done|]. destruct (NewestFirst g f); simpl; by rewrite ?IH. Qed.

Lemma sort_newest_spec l : length (sort_newest l) = length l /\ StronglySorted number_le (sort_newest l) /\ forall f, f ∈ sort_newest l <-> f ∈ l.
Proof.
  induction l as [|f l (IH0 & IH1 & IH2)]; cbn [sort_newest fold_right]; [split; [done|]; split; [constructor|done]|]. fold (sort_newest l). split; [by rewrite insert_newest_length, IH0|]. split; [by apply insert_newest_sorted|].
  intros g. rewrite insert_newest_elem, elem_of_cons. by rewrite IH2.
Qed.

Context {files_ : list (list FileMetaData)} {Hvo : version_ok files_}.

Lemma search_level0 files : files_ !! 0%nat = Some files -> exists fs, files_to_search le user 0 files u ikey = Some fs /\ suffices fs files.
Proof using Huser Hinj Hu Hs Hvo.
  intros Ef. destruct (proj2 (vo_levels _ Hvo) _ _ Ef) as (Hok & _). destruct (covering_spec files Hok) as (tmp & Etmp & Hlen & Htmp). unfold files_to_search. cbn [Z.eqb]. rewrite Etmp. cbn [mbind option_bind].
  eexists. split; [done|]. destruct (sort_newest_spec tmp) as (Hlen' & Hsort & Hin). split; [lia|]. split; [intros f Hf; by apply Hin, Htmp in Hf as [? _]|]. split.
  - assert (forall f, f ∈ sort_newest tmp -> f ∈ files) as Hsub by (intros f Hf; by apply Hin, Htmp in Hf as [? _]). clear Hin Hlen'. revert Hsub. induction Hsort as [|f l Hl IH Hf]; [constructor|]. intros Hsub.
    constructor; [apply IH; intros g Hg; apply Hsub; by right|]. apply Forall_forall. intros g Hg. pose proof (proj1 (Forall_forall _ _) Hf g Hg) as Hle. unfold number_le in Hle.
    assert (f ∈ files) by (apply Hsub; by left). assert (g ∈ files) by (apply Hsub; by right).
    destruct (decide (f_number g = f_number f)) as [Heq|Hne]; [left; by apply (vo_numbers _ Hvo files)|right]. apply (vo_level0 _ Hvo files); [done..|lia].
  - intros g e' Hg He' Hvis. exists g, e'. split; [|split; [done|]; split; [done|]].
    + apply Hin, Htmp. split; [done|]. apply (visible_range g e'); [by apply (proj1 (Forall_forall _ _) Hok)|by apply (vo_tables _ Hvo _ _ _ Ef)|done|done].
    + apply (key_le_refl (valid := ivalid)), (stored_valid g); [by apply (vo_tables _ Hvo _ _ _ Ef)|done].
Qed.

(** In a sorted level the first file that does not end in front of the key has the newest version. *)
Lemma search_level level files : (0 < level)%nat -> files_ !! level = Some files -> exists fs, files_to_search le user (Z.of_nat level) files u ikey = Some fs /\ suffices fs files.
Proof using Huser Hinj Hu Hs Hvo.
  intros Hl Ef. destruct (proj2 (vo_levels _ Hvo) _ _ Ef) as (Hok & Hpr & Hsort & Hlen). specialize (Hsort Hl). destruct ikey_valid as [Hik Euk]. unfold files_to_search.
  destruct (Z.eqb_spec (Z.of_nat level) 0); [lia|]. case_bool_decide as Hnil; [subst; exists []; split; [done|]; split; [done|]; split; [done|]; split; [constructor|]; intros g e' Hg; by apply not_elem_of_nil in Hg|].
  destruct (FindFile_spec files ikey Hok Hsort Hik Hlen) as (i & -> & Hi & Hbelow & Habove). cbn [mbind option_bind].
  assert (forall j g e', (j < i)%nat -> files !! j = Some g -> e' ∈ E (f_number g) -> visible e' -> False) as Hbefore.
  { intros j g e' Hj Eg He' [_ Hle]. assert (g ∈ files) as Hg by by eapply list_elem_of_lookup_2. pose proof (vo_tables _ Hvo _ _ _ Ef Hg) as Ht. pose proof (Hbelow j g Hj Eg) as Hlt.
    apply (ilt_not_ile (uvalid := uvalid) _ _ Hlt). pose proof (stored_valid g e' Ht He'). destruct (proj1 (proj2 (proj2 Ht)) e' He') as [_ H2].
    apply (key_le_trans (valid := ivalid) _ e'.1); [done|done| |done|done]. by apply (proj1 (Forall_forall _ _) Hok). }
  destruct (Z.leb_spec (Z.of_nat (length files)) (Z.of_nat i)) as [Hge|Hlt].
  - exists []. split; [done|]. split; [simpl; lia|]. split; [intros f Hf; by apply not_elem_of_nil in Hf|]. split; [constructor|]. intros g e' Hg He' Hvis. exfalso. apply list_elem_of_lookup_1 in Hg as [j Eg].
    apply (Hbefore j g e'); [apply lookup_lt_Some in Eg; lia|done..].
  - rewrite Nat2Z.id. destruct (lookup_lt_is_Some_2 files i) as [f Ei]; [lia|]. rewrite Ei. cbn [mbind option_bind]. assert (f ∈ files) as Hf by by eapply list_elem_of_lookup_2.
    pose proof (proj1 (Forall_forall _ _) Hok f Hf) as Hfo. destruct (file_users f Hfo) as (H1 & H2 & E1 & _). rewrite E1. cbn [mbind option_bind].
    destruct (ucmp_defined u (ukey (smallest f)) Hu H1) as (r & -> & Hr & _). cbn [mbind option_bind]. eexists. split; [done|]. destruct (Z.ltb_spec r 0) as [Hr0|Hr0].
    + split; [simpl; lia|]. split; [intros g Hg; by apply not_elem_of_nil in Hg|]. split; [constructor|]. intros g e' Hg He' Hvis. exfalso. assert (g ∈ files) as Hg' by done. apply list_elem_of_lookup_1 in Hg as [j Eg].
      destruct (decide (j < i)%nat) as [Hj|Hj]; [by apply (Hbefore j g e')|]. pose proof (vo_tables _ Hvo _ _ _ Ef Hg') as Ht. pose proof (proj1 (Forall_forall _ _) Hok g Hg') as Hgo.
      destruct (visible_range g e' Hgo Ht He' Hvis) as [H3 _]. apply Hr in Hr0. apply (ult_not_ule (uvalid := uvalid) _ _ Hr0). destruct (file_users g Hgo) as (H4 & _).
      apply (ule_trans (uvalid := uvalid) _ (ukey (smallest g))); [done|done|done| |done]. apply (ile_ukey (le := le)); [apply Hfo|apply Hgo|]. apply (smallest_sorted files i j); [done|done|lia|done|done].
    + split; [simpl; lia|]. split; [intros g Hg; by apply list_elem_of_singleton in Hg as ->|]. split; [by repeat constructor|]. intros g e' Hg He' Hvis. exists f. assert (g ∈ files) as Hg' by done. apply list_elem_of_lookup_1 in Hg as [j Eg].
      pose proof (vo_tables _ Hvo _ _ _ Ef Hg') as Ht. pose proof (proj1 (Forall_forall _ _) Hok g Hg') as Hgo. pose proof (stored_valid g e' Ht He') as He'v.
      destruct (Nat.lt_trichotomy j i) as [Hj|[-> |Hj]]; [by destruct (Hbefore j g e')| |].
      * assert (g = f) as -> by congruence. exists e'. split; [by left|]. split; [done|]. split; [done|]. by apply (key_le_refl (valid := ivalid)).
      * pose proof (vo_tables _ Hvo _ _ _ Ef Hf) as Htf. pose proof (Hsort i j f g Hj Ei Eg) as Hfg. destruct Htf as (_ & _ & _ & el & Hel & Eel). exists el. split; [by left|]. split; [done|].
        destruct (proj1 (proj2 (proj2 Ht)) e' He') as [Hsg _]. pose proof (Habove i f (Nat.le_refl i) Ei) as Hif. destruct (file_users g Hgo) as (H4 & _).
        split; [split; rewrite Eel; [|done]|rewrite Eel; apply (key_le_trans (valid := ivalid) _ (smallest g)); [apply Hfo|apply Hgo|done|by apply key_lt_le|done]].
        apply ule_antisym; [done|done| |rewrite <- Euk; apply (ile_ukey (le := le)); [done|apply Hfo|done]].
        rewrite <- (proj1 Hvis). apply (ile_ukey (le := le)); [apply Hfo|done|]. apply (key_le_trans (valid := ivalid) _ (smallest g)); [apply Hfo|apply Hgo|done|by apply key_lt_le|done].
Qed.

(** ** The lookups in the tables of a level *)

Context {T : Type} {tables : TableGetter T} {options : ReadOptions} {live : FileMetaData -> Prop} {trel : nat -> T -> Prop} {Htg : TableGetterOk tables options live trel}.

(** What the caller gets for the newest version. *)
Definition answers (e : entry) (value : list byte) (st : Status) (v : list byte) : Prop :=
  (ok st = true /\ typed kTypeValue e.1 /\ v = e.2) \/ (IsNotFound st = Some true /\ typed kTypeDeletion e.1 /\ v = value).

(** The newest version in some tables. *)
Definition newest_of (fs : list FileMetaData) (e : entry) : Prop :=
  (exists f, f ∈ fs /\ e ∈ E (f_number f)) /\ visible e /\ forall g e', g ∈ fs -> e' ∈ E (f_number g) -> visible e' -> ile e.1 e'.1.

Definition level_result (fs : list FileMetaData) (value : list byte) (r : Status * list byte + list byte) : Prop :=
  match r with
  | inl (st, v) => exists e, newest_of fs e /\ answers e value st v
  | inr v => v = value /\ Forall none_visible fs
  end.

Lemma not_found_status : exists st, new_Status le Status.kNotFound [] [] = Some st /\ IsNotFound st = Some true.
Proof. destruct (status_roundtrip le Status.kNotFound [] []) as (st & E1 & _ & Hc & _); [done|done|]. exists (Some st). split; [done|]. unfold IsNotFound. by rewrite Hc. Qed.

Lemma newest_head f fs e : newest_in f e -> Forall (goes_before f) fs -> newest_of (f :: fs) e.
Proof using.
  intros (Hin & Hv & Hn) Hb. split; [exists f; split; [by left|done]|]. split; [done|]. intros g e' Hg He' Hv'. apply elem_of_cons in Hg as [-> |Hg]; [by apply Hn|].
  rewrite Forall_forall in Hb. destruct (Hb g Hg) as [<- |Hlt]; [by apply Hn|]. apply key_lt_le, Hlt; [done|done|]. by rewrite (proj1 Hv), (proj1 Hv').
Qed.

Lemma lookups_less a n t : trel (a + n)%nat t -> trel n t.
Proof using Htg. induction a as [|a IH]; [done|]. intros H. apply IH. by apply (tg_less (TableGetterOk := Htg)). Qed.

Lemma search_files_spec level fs : StronglySorted goes_before fs -> Forall live fs -> Forall table_of fs -> forall n value p t, trel (length fs + n)%nat t ->
  exists r p' t', search_files le user options level fs u ikey value p t = Some (r, p', t') /\ trel n t' /\ level_result fs value r.
Proof using Huser Hinj Hu Hs Htg.
  intros Hsort. induction Hsort as [|f fs _ IH Hb]; intros Hl Ht n value p t Hrel; cbn [search_files]; [by exists (inr value), p, t|]. inversion_clear Hl as [|? ? Hlf Hl']. inversion_clear Ht as [|? ? Htf Ht'].
  destruct (tg_get (TableGetterOk := Htg) _ (length fs + n) f ikey (SaveValue le user u) (Some (MkSaver sNotFound value)) t Hlf (proj1 ikey_valid) Hrel) as (arg' & t' & -> & Hrel' & Hgives).
  destruct (search_looked_up f value arg' Htf Hgives) as ([st v] & -> & Hlook). cbv zeta. cbn [mbind option_bind ok negb OK sv_state sv_value]. unfold looked_up in Hlook. cbn [sv_state sv_value] in Hlook. destruct st.
  - destruct Hlook as [-> Hno]. destruct (IH Hl' Ht' n value (MkProgress (Some f) level (charge p)) t' Hrel') as (r & p' & t2 & Er & Hr2 & Hres). exists r, p', t2. split; [done|]. split; [done|].
    destruct r as [[st v]|v]; [|destruct Hres; split; [done|by constructor]]. destruct Hres as (e & ((g & Hg & He) & Hv & Hn) & Ha). exists e. split; [|done].
    split; [exists g; split; [by right|done]|]. split; [done|]. intros g' e' Hg' He' Hv'. apply elem_of_cons in Hg' as [-> |Hg']; [by destruct (Hno e' He')|by apply (Hn g')].
  - destruct Hlook as (e & Hn & Hty & ->). eexists _, _, _. split; [done|]. split; [by apply lookups_less with (a := length fs)|]. exists e. split; [by apply newest_head|]. by left.
  - destruct Hlook as (-> & e & Hn & Hty). destruct not_found_status as (st & -> & Hst). eexists _, _, _. split; [done|]. split; [by apply lookups_less with (a := length fs)|]. exists e. split; [by apply newest_head|]. by right.
  - done.
Qed.


(** ** The levels *)

Definition has_file (f : FileMetaData) : Prop := exists level files, files_ !! level = Some files /\ f ∈ files.

(** The newest version in all the levels. *)
Definition newest_version (e : entry) : Prop :=
  (exists f, has_file f /\ e ∈ E (f_number f)) /\ visible e /\ forall g e', has_file g -> e' ∈ E (f_number g) -> visible e' -> ile e.1 e'.1.

Definition get_result (value : list byte) (st : Status) (v : list byte) : Prop :=
  (exists e, newest_version e /\ answers e value st v) \/ (v = value /\ IsNotFound st = Some true /\ forall f, has_file f -> none_visible f).

Lemma files_to_search_spec level files : files_ !! level = Some files -> exists fs, files_to_search le user (Z.of_nat level) files u ikey = Some fs /\ suffices fs files.
Proof using Huser Hinj Hu Hs Hvo. intros Ef. destruct level; [by apply search_level0|]. apply search_level; [lia|done]. Qed.

(** Level by level: nothing has been found in the first [n] ones. *)
Lemma search_levels_spec : (forall f, has_file f -> live f) -> forall levels n m value p t,
  (forall i, levels !! i = files_ !! (n + i)%nat) -> (forall a fa f, (a < n)%nat -> files_ !! a = Some fa -> f ∈ fa -> none_visible f) -> trel (length (concat levels) + m)%nat t ->
  exists st v p' t', search_levels le user options (Z.of_nat n) levels u ikey value p t = Some (st, v, p', t') /\ trel m t' /\ get_result value st v.
Proof using Huser Hinj Hu Hs Hvo Htg.
  intros Hlive. induction levels as [|files levels IH]; intros n m value p t Hlv Hno Hrel; cbn [search_levels].
  - destruct not_found_status as (st & -> & Hst). cbn [mbind option_bind]. exists st, value, p, t. split; [done|]. split; [done|]. right. split; [done|]. split; [done|].
    intros f (a & fa & Ea & Hf). apply (Hno a fa f); [|done|done]. specialize (Hlv (a - n)%nat). destruct (decide (a < n)%nat); [done|]. rewrite lookup_nil in Hlv. replace (n + (a - n))%nat with a in Hlv by lia. congruence.
  - pose proof (Hlv 0%nat) as Ef. rewrite Nat.add_0_r in Ef. cbn [lookup list_lookup] in Ef. symmetry in Ef. destruct (files_to_search_spec n files Ef) as (fs & -> & Hlen & Hsub & Hsort & Hdom). cbn [mbind option_bind].
    cbn [concat] in Hrel. rewrite length_app in Hrel.
    destruct (search_files_spec (Z.of_nat n) fs Hsort) with (n := (length (concat levels) + m)%nat) (value := value) (p := p) (t := t) as (r & p' & t' & -> & Hrel' & Hres); [| |apply lookups_less with (a := (length files - length fs)%nat); replace (length files - length fs + (length fs + (length (concat levels) + m)))%nat with (length files + length (concat levels) + m)%nat by lia; done|].
    { apply Forall_forall. intros f Hf. apply Hlive. exists n, files. split; [done|by apply Hsub]. }
    { apply Forall_forall. intros f Hf. apply (vo_tables _ Hvo _ _ _ Ef). by apply Hsub. }
    destruct r as [[st v]|v]; cbn [mbind option_bind].
    + exists st, v, p', t'. split; [done|]. split; [by apply lookups_less with (a := length (concat levels))|]. left. destruct Hres as (e & ((f & Hf & He) & Hv & Hn) & Ha). exists e. split; [|done]. apply Hsub in Hf as Hf'.
      split; [exists f; split; [by exists n, files|done]|]. split; [done|]. intros g e' (b & fb & Eb & Hg) He' Hv'. destruct (Nat.lt_trichotomy b n) as [Hb|[-> |Hb]].
      * by destruct (Hno b fb g Hb Eb Hg e' He').
      * assert (fb = files) as -> by congruence. destruct (Hdom g e' Hg He' Hv') as (h & eh & Hh & Heh & Hvh & Hle). apply (key_le_trans (valid := ivalid) _ eh.1); [| | |by apply (Hn h)|done].
        -- apply (stored_valid f); [by apply (vo_tables _ Hvo _ _ _ Ef)|done].
        -- apply (stored_valid h); [by apply (vo_tables _ Hvo _ _ _ Ef), Hsub|done].
        -- apply (stored_valid g); [by apply (vo_tables _ Hvo _ _ _ Ef)|done].
      * apply key_lt_le. apply (vo_below _ Hvo n b files fb f g); try done. by rewrite (proj1 Hv), (proj1 Hv').
    + destruct Hres as [-> Hnone]. replace (Z.of_nat n + 1) with (Z.of_nat (S n)) by lia. apply IH; [|intros a fa f Ha Ea Hf|done].
      * intros i. specialize (Hlv (S i)). cbn [lookup list_lookup] in Hlv. by replace (S n + i)%nat with (n + S i)%nat by lia.
      * destruct (decide (a < n)%nat) as [Hlt|Hge]; [by apply (Hno a fa f)|]. assert (a = n) as -> by lia. assert (fa = files) as -> by congruence. intros e' He' Hv'.
        destruct (Hdom f e' Hf He' Hv') as (h & eh & Hh & Heh & Hvh & _). by apply (proj1 (Forall_forall _ _) Hnone h Hh eh Heh).
Qed.

(** ** Sequence numbers *)

(** A version of the user key in a table: its sequence number, type and value. *)
Definition stored (q t : Z) (v : list byte) : Prop :=
  0 <= q <= kMaxSequenceNumber /\ (t = kTypeDeletion \/ t = kTypeValue) /\ exists f, has_file f /\ (internal u (packed q t), v) ∈ E (f_number f).

(** The newest one that the snapshot sees. *)
Definition newest (q t : Z) (v : list byte) : Prop := stored q t v /\ q <= s /\ forall q' t' v', stored q' t' v' -> q' <= s -> q' <= q.

Lemma older_behind q t q' t' : 0 <= q <= kMaxSequenceNumber -> 0 <= q' <= kMaxSequenceNumber -> 0 <= t <= kTypeValue -> 0 <= t' <= kTypeValue ->
  (ile (internal u (packed q t)) (internal u (packed q' t')) -> q' <= q) /\ (q' <= q -> ile (internal u (packed q kTypeValue)) (internal u (packed q' t'))).
Proof using Huser Hu.
  intros Hq Hq' Ht Ht'. destruct (PackSequenceAndType_packed q t Hq Ht) as [_ H1], (PackSequenceAndType_packed q' t' Hq' Ht') as [_ H2].
  destruct (PackSequenceAndType_packed q kTypeValue Hq ltac:(unfold kValueTypeForSeek, kTypeValue; lia)) as [_ H3]. pose proof (compare_refl (c := user) (valid := uvalid) u Hu) as Er.
  pose proof (internal_compare_spec (le := le) u (packed q t) u (packed q' t') 0 H1 H2 Er) as Ei. pose proof (internal_compare_spec (le := le) u (packed q kTypeValue) u (packed q' t') 0 H3 H2 Er) as Ej.
  unfold cmp_le. cbn [Compare InternalKeyComparator]. rewrite Ei, Ej. cbn [Z.eqb]. unfold packed, kTypeValue in *. split.
  - intros (x & [= <-] & Hx). lia.
  - intros Hle. eexists. split; [done|]. lia.
Qed.

Lemma stored_entry q t v : stored q t v -> exists f, has_file f /\ (internal u (packed q t), v) ∈ E (f_number f) /\ (q <= s -> visible (internal u (packed q t), v)).
Proof using Huser Hu Hs.
  intros (Hq & Ht & f & Hf & Hin). exists f. split; [done|]. split; [done|]. intros Hle. split; [apply ukey_internal|].
  apply (older_behind s 1 q t Hs Hq); unfold kTypeDeletion, kTypeValue in *; lia.
Qed.

Lemma newest_entry e t : newest_version e -> typed t e.1 -> (t = kTypeDeletion \/ t = kTypeValue) -> exists q, newest q t e.2.
Proof using Huser Hu Hs.
  intros ((f & Hf & He) & [Hk Hv] & Hn) (q & Hq & Ee) Ht. rewrite Hk in Ee. assert (0 <= t <= kTypeValue) as Ht' by (unfold kTypeDeletion, kTypeValue in *; lia). exists q. split; [|split].
  - split; [done|]. split; [done|]. exists f. split; [done|]. rewrite <- Ee. by destruct e.
  - rewrite Ee in Hv. by apply (older_behind s 1 q t Hs Hq).
  - intros q' t' v' Hst Hle. destruct (stored_entry q' t' v' Hst) as (g & Hg & Hin & Hvis). specialize (Hn g _ Hg Hin (Hvis Hle)). rewrite Ee in Hn. destruct Hst as (Hq' & Ht'' & _).
    apply (older_behind q t q' t'); try done. unfold kTypeDeletion, kTypeValue in *; lia.
Qed.

(** C7. [Version::Get] returns for every version whose levels keep
    what compactions keep.  When the newest stored version of the key that the
    snapshot sees is a value, that is the result, wherever it is: in one of the
    overlapping tables of level 0 or behind the index of a sorted level.  When
    it is a deletion, or nothing is stored, the result is NotFound and [*value]
    is left alone. *)
Theorem version_get k value n t : (forall f, has_file f -> live f) -> Z.of_nat (length u) + 8 < 2 ^ 32 -> LookupKey le u s = Some k -> trel (length (concat files_) + n)%nat t ->
  exists st v stats t', Version_Get le user files_ options k value t = Some (st, v, stats, t') /\ trel n t' /\
    ((ok st = true /\ exists q, newest q kTypeValue v) \/
     (IsNotFound st = Some true /\ v = value /\ ((forall q t v', stored q t v' -> s < q) \/ exists q v', newest q kTypeDeletion v'))).
Proof using Huser Hinj Hu Hs Hvo Htg.
  intros Hlive Hlen Ek Hrel. destruct (LookupKey_spec le u s Hlen Hs) as (k' & Ek' & _ & Ei & Eu & _). rewrite Ek in Ek'. injection Ek' as <-. unfold Version_Get. rewrite Ei, Eu.
  destruct (search_levels_spec Hlive files_ 0 n value (MkProgress None (-1) (MkStats None (-1))) t) as (st & v & p & t' & E1 & Hrel' & Hres); [done|lia|done|]. change (Z.of_nat 0) with 0 in E1. rewrite E1. cbn [mbind option_bind].
  exists st, v, (get_stats p), t'. split; [done|]. split; [done|]. destruct Hres as [(e & Hn & [(Hst & Hty & ->)|(Hst & Hty & ->)])|(-> & Hst & Hno)].
  - left. split; [done|]. apply newest_entry; [done|done|by right].
  - right. split; [done|]. split; [done|]. right. destruct (newest_entry e kTypeDeletion Hn Hty) as [q Hq]; [by left|]. by exists q, e.2.
  - right. split; [done|]. split; [done|]. left. intros q t0 v' Hst'. destruct (stored_entry q t0 v' Hst') as (f & Hf & Hin & Hvis).
    destruct (Z.ltb_spec s q) as [|Hle]; [done|]. by destruct (Hno f Hf _ Hin (Hvis Hle)).
Qed.
End Lookup.
End Get.
