(* ===== verification/VersionBuild.v ===== *)
(** * The builder of versions: an edit applied to the files of a version *)
From stdpp Require Import sorting.
From S2P Require Import Prelude Varint Coding CodingProps Comparator DbFormat DbFormatProps Status Iter VersionEdit VersionSet VersionProps.

Section Build.
Context {le : bool} {user : Comparator} {uvalid : list byte -> Prop} {Huser : ComparatorOk user uvalid}.

Abbreviation icmp := (InternalKeyComparator le user).
Abbreviation ivalid := (valid_internal (valid := uvalid)).
Abbreviation ilt := (key_lt icmp).
Abbreviation ile := (key_le icmp).
Abbreviation good_file := (file_ok (le := le) (user := user) (uvalid := uvalid)).

(** ** The order of the files *)

(** By the first keys, then by the numbers. *)
Definition file_lt (f g : FileMetaData) : Prop := ilt (smallest f) (smallest g) \/ (ile (smallest f) (smallest g) /\ ile (smallest g) (smallest f) /\ f_number f < f_number g).
Definition file_le (f g : FileMetaData) : Prop := ilt (smallest f) (smallest g) \/ (ile (smallest f) (smallest g) /\ ile (smallest g) (smallest f) /\ f_number f <= f_number g).

Lemma BySmallestKey_spec f g : good_file f -> good_file g -> exists r, BySmallestKey le user f g = Some r /\ if r then file_lt f g else file_le g f.
Proof using Huser.
  intros (Hf & _) (Hg & _). unfold BySmallestKey, compare_keys. rewrite (proj2 (proj2 (ivalid_ukey _ Hf))), (proj2 (proj2 (ivalid_ukey _ Hg))). cbn [mbind option_bind].
  destruct (icmp_defined (le := le) (smallest f) (smallest g) Hf Hg) as (r & Er & Hlt & Hle), (icmp_defined (le := le) (smallest g) (smallest f) Hg Hf) as (r' & Er' & Hlt' & Hle').
  pose proof (compare_antisym (c := icmp) (valid := ivalid) _ _ _ _ Er Er') as Hsgn. rewrite Er. cbn [mbind option_bind]. eexists. split; [done|].
  destruct (Z.eqb_spec r 0) as [-> |Hr]; cbn [negb].
  - assert (r' = 0) as -> by lia. pose proof (proj1 Hle ltac:(lia)). pose proof (proj1 Hle' ltac:(lia)). destruct (Z.ltb_spec (f_number f) (f_number g)); right; split_and!; done.
  - destruct (Z.ltb_spec r 0); left; [by apply Hlt|apply Hlt'; lia].
Qed.

Lemma file_lt_le f g : file_lt f g -> file_le f g.
Proof. intros [H|(H1 & H2 & H3)]; [by left|right]. split_and!; [done..|lia]. Qed.

Lemma file_le_start f g : file_le f g -> ile (smallest f) (smallest g).
Proof. intros [H|(H & _)]; [by apply key_lt_le|done]. Qed.

Lemma file_le_trans f g h : good_file f -> good_file g -> good_file h -> file_le f g -> file_le g h -> file_le f h.
Proof using Huser.
  intros (Hf & _) (Hg & _) (Hh & _) [H1|(H1 & H2 & H3)] [H4|(H4 & H5 & H6)].
  - left. by apply (key_lt_trans (valid := ivalid) _ (smallest g)).
  - left. by apply (key_lt_le_trans (valid := ivalid) _ (smallest g)).
  - left. by apply (key_le_lt_trans (valid := ivalid) _ (smallest g)).
  - right. split_and!; [by apply (key_le_trans (valid := ivalid) _ (smallest g))..|lia].
Qed.

Lemma file_lt_trans f g h : good_file f -> good_file g -> good_file h -> file_lt f g -> file_lt g h -> file_lt f h.
Proof using Huser.
  intros (Hf & _) (Hg & _) (Hh & _) [H1|(H1 & H2 & H3)] [H4|(H4 & H5 & H6)].
  - left. by apply (key_lt_trans (valid := ivalid) _ (smallest g)).
  - left. by apply (key_lt_le_trans (valid := ivalid) _ (smallest g)).
  - left. by apply (key_le_lt_trans (valid := ivalid) _ (smallest g)).
  - right. split_and!; [by apply (key_le_trans (valid := ivalid) _ (smallest g))..|lia].
Qed.

Lemma file_lt_irrefl f g : file_lt f g -> file_le g f -> False.
Proof using Huser.
  intros [H|(H1 & H2 & H3)] [H'|(H1' & H2' & H3')]; [|by apply (ilt_not_ile (uvalid := uvalid) _ _ H)|by apply (ilt_not_ile (uvalid := uvalid) _ _ H')|lia].
  apply (ilt_not_ile (uvalid := uvalid) _ _ H). by apply key_lt_le.
Qed.

(** ** Sorted lists of files *)

Lemma file_insert_spec f l : good_file f -> Forall good_file l -> StronglySorted file_lt l -> f_number f ∉ map f_number l ->
  exists l', file_insert le user f l = Some l' /\ StronglySorted file_lt l' /\ l' ≡ₚ f :: l.
Proof using Huser.
  intros Hf Hok Hs. induction Hs as [|g l Hl IH Hg]; cbn [file_insert map]; intros Hn; [exists [f]; split; [done|]; split; [by repeat constructor|done]|].
  inversion_clear Hok as [|? ? Hgo Hlo]. apply not_elem_of_cons in Hn as [Hne Hn]. destruct (BySmallestKey_spec f g Hf Hgo) as (r & -> & Hr), (BySmallestKey_spec g f Hgo Hf) as (r' & -> & Hr'). cbn [mbind option_bind].
  destruct r.
  - eexists. split; [done|]. split; [|done]. constructor; [by constructor|]. constructor; [done|]. apply Forall_forall. intros h Hh. rewrite !Forall_forall in Hg, Hlo. specialize (Hg h Hh). specialize (Hlo h Hh).
    by apply (file_lt_trans f g h).
  - destruct r'.
    + destruct (IH Hlo Hn) as (l' & -> & Hs' & Hp). cbn [mbind option_bind]. eexists. split; [done|]. split; [|rewrite Hp; apply Permutation_swap].
      constructor; [done|]. apply Forall_forall. intros h Hh. rewrite Hp in Hh. apply elem_of_cons in Hh as [-> |Hh]; [done|]. by apply (proj1 (Forall_forall _ _) Hg).
    + exfalso. destruct Hr as [Hr|(H1 & H2 & H3)], Hr' as [Hr'|(H4 & H5 & H6)].
      * apply (ilt_not_ile (uvalid := uvalid) _ _ Hr). by apply key_lt_le.
      * by apply (ilt_not_ile (uvalid := uvalid) _ _ Hr).
      * by apply (ilt_not_ile (uvalid := uvalid) _ _ Hr').
      * apply Hne. lia.
Qed.

Lemma split_base_spec f base : good_file f -> Forall good_file base -> StronglySorted file_lt base ->
  exists a b, split_base le user f base = Some (a, b) /\ base = a ++ b /\ Forall (fun g => file_le g f) a /\ Forall (file_lt f) b.
Proof using Huser.
  intros Hf Hok Hs. induction Hs as [|g base Hl IH Hg]; cbn [split_base]; [by exists [], []|]. inversion_clear Hok as [|? ? Hgo Hlo].
  destruct (BySmallestKey_spec f g Hf Hgo) as (r & -> & Hr). cbn [mbind option_bind]. destruct r.
  - exists [], (g :: base). split; [done|]. split; [done|]. split; [done|]. constructor; [done|]. apply Forall_forall. intros h Hh. rewrite !Forall_forall in Hg, Hlo.
    specialize (Hg h Hh). specialize (Hlo h Hh). by apply (file_lt_trans f g h).
  - destruct (IH Hlo) as (a & b & -> & -> & Ha & Hb). cbn [mbind option_bind]. exists (g :: a), b. split; [done|]. split; [done|]. split; [by constructor|done].
Qed.

(** ** The merge of a level *)

(** Each file ends in front of the next one; at level 0 files may overlap. *)
Definition gaps (level : Z) (files : list FileMetaData) : Prop :=
  0 < level -> forall i f g, files !! i = Some f -> files !! S i = Some g -> ilt (largest f) (smallest g).

Lemma gaps_prefix level a b : gaps level (a ++ b) -> gaps level a.
Proof. intros H Hl i f g Ef Eg. apply (H Hl i); by apply lookup_app_l_Some. Qed.

Definition alive (s : LevelState) (f : FileMetaData) : bool := bool_decide (f_number f ∉ deleted_files s).

Lemma compare_ends f g : good_file f -> good_file g -> exists r, compare_keys le user (largest f) (smallest g) = Some r /\ (r < 0 <-> ilt (largest f) (smallest g)).
Proof using Huser.
  intros (_ & Hf & _) (Hg & _). unfold compare_keys. rewrite (proj2 (proj2 (ivalid_ukey _ Hf))), (proj2 (proj2 (ivalid_ukey _ Hg))). cbn [mbind option_bind].
  destruct (icmp_defined (le := le) (largest f) (smallest g) Hf Hg) as (r & Er & Hlt & _). by exists r.
Qed.

Lemma MaybeAddFile_spec level s f files : Forall good_file files -> good_file f -> gaps level (files ++ List.filter (alive s) [f]) ->
  MaybeAddFile le user level s f files = Some (files ++ List.filter (alive s) [f]).
Proof using Huser.
  intros Hok Hf Hgap. unfold MaybeAddFile, alive in *. cbn [List.filter] in *. destruct (decide (f_number f ∈ deleted_files s)) as [Hd|Hd].
  { rewrite bool_decide_true, bool_decide_false by tauto. by rewrite app_nil_r. }
  rewrite bool_decide_false by done. rewrite (bool_decide_true (¬ _)) in * by done. destruct (last files) as [g|] eqn:El; [|done]. destruct (Z.ltb_spec 0 level) as [Hl|]; [|done].
  assert (good_file g) as Hg by (rewrite Forall_forall in Hok; apply Hok; by apply last_Some_elem_of). destruct (compare_ends g f Hg Hf) as (r & -> & Hr). cbn [mbind option_bind].
  destruct (Z.ltb_spec r 0) as [|Hge]; [done|]. exfalso. apply last_Some in El as [files' ->]. assert (r < 0); [|lia]. apply Hr. apply (Hgap Hl (length files')).
  - rewrite <- app_assoc. by apply list_lookup_middle.
  - rewrite lookup_app_r by (rewrite length_app; simpl; lia). rewrite length_app. simpl. by replace (S (length files') - (length files' + 1))%nat with 0%nat by lia.
Qed.

Lemma filter_good s fs : Forall good_file fs -> Forall good_file (List.filter (alive s) fs).
Proof. intros H. apply Forall_forall. intros f Hf. rewrite list_elem_of_In, filter_In, <- list_elem_of_In in Hf. destruct Hf as [Hf _]. by apply (proj1 (Forall_forall _ _) H). Qed.

Lemma add_all_spec level s fs : Forall good_file fs -> forall files, Forall good_file files -> gaps level (files ++ List.filter (alive s) fs) ->
  add_all le user level s fs files = Some (files ++ List.filter (alive s) fs).
Proof using Huser.
  intros Hfs. induction Hfs as [|f fs Hf Hfs IH]; intros files Hok Hgap; cbn [add_all]; [by rewrite app_nil_r|].
  assert (files ++ List.filter (alive s) (f :: fs) = (files ++ List.filter (alive s) [f]) ++ List.filter (alive s) fs) as E.
  { rewrite <- app_assoc. f_equal. cbn [List.filter]. by destruct (alive s f). }
  rewrite E in *. rewrite MaybeAddFile_spec; [|done|done|by eapply gaps_prefix]. cbn [mbind option_bind]. apply IH; [|done]. apply Forall_app. split; [done|]. apply filter_good. by constructor.
Qed.

Lemma sorted_le l : StronglySorted file_lt l -> StronglySorted file_le l.
Proof. intros H. induction H as [|f l Hl IH Hf]; constructor; [done|]. eapply Forall_impl; [exact Hf|]. intros g. apply file_lt_le. Qed.

(** The merge is a sorted list of all the files; what is not deleted of it is added. *)
Lemma merge_added_spec level s added : Forall good_file added -> StronglySorted file_lt added -> forall base, Forall good_file base -> StronglySorted file_lt base ->
  exists merge, merge ≡ₚ added ++ base /\ StronglySorted file_le merge /\
    forall files, Forall good_file files -> gaps level (files ++ List.filter (alive s) merge) -> merge_added le user level s added base files = Some (files ++ List.filter (alive s) merge).
Proof using Huser.
  intros Hok Hs. induction Hs as [|f added Hs IH Hf]; intros base Hbase Hbs; cbn [merge_added].
  - exists base. split; [done|]. split; [by apply sorted_le|]. intros files. by apply add_all_spec.
  - inversion_clear Hok as [|? ? Hfo Hao]. destruct (split_base_spec f base Hfo Hbase Hbs) as (a & b & -> & -> & Ha & Hb). apply Forall_app in Hbase as [Hago Hbgo].
    assert (StronglySorted file_lt a /\ StronglySorted file_lt b) as [Has Hbs'] by (split; [by apply StronglySorted_app_1_l in Hbs|by apply StronglySorted_app_1_r in Hbs]).
    destruct (IH Hao b Hbgo Hbs') as (merge & Hp & Hms & Hm). assert (Forall good_file merge) as Hmo by (rewrite Hp; by apply Forall_app).
    assert (forall g, g ∈ merge -> file_le f g) as Hfm.
    { intros g Hg. rewrite Hp in Hg. apply elem_of_app in Hg as [Hg|Hg]; apply file_lt_le; [by apply (proj1 (Forall_forall _ _) Hf)|by apply (proj1 (Forall_forall _ _) Hb)]. }
    exists (a ++ f :: merge). split; [|split].
    + rewrite Hp. simpl. rewrite (Permutation_app_comm a). simpl. apply perm_skip. rewrite <- app_assoc. apply Permutation_app_head, Permutation_app_comm.
    + apply StronglySorted_app_2; [|by apply sorted_le|].
      * intros g h Hg Hh. rewrite !Forall_forall in *. pose proof (Ha g Hg) as Hgf. apply elem_of_cons in Hh as [-> |Hh]; [done|]. apply (file_le_trans g f h); [by apply Hago|done|by apply Hmo|done|by apply Hfm].
      * constructor; [done|]. apply Forall_forall. exact Hfm.
    + intros files Hfiles Hgap. assert (files ++ List.filter (alive s) (a ++ f :: merge) = ((files ++ List.filter (alive s) a) ++ List.filter (alive s) [f]) ++ List.filter (alive s) merge) as E.
      { rewrite <- !app_assoc. f_equal. rewrite List.filter_app. f_equal. cbn [List.filter]. by destruct (alive s f). }
      rewrite E in *. pose proof (gaps_prefix _ _ _ Hgap) as Hgap1. pose proof (gaps_prefix _ _ _ Hgap1) as Hgap2. cbn [mbind option_bind]. rewrite add_all_spec; [|done..]. cbn [mbind option_bind].
      assert (Forall good_file (files ++ List.filter (alive s) a)) by (apply Forall_app; split; [done|by apply filter_good]).
      rewrite MaybeAddFile_spec; [|done..]. cbn [mbind option_bind]. apply Hm; [|done]. apply Forall_app. split; [done|]. apply filter_good. by constructor.
Qed.

Lemma check_no_overlap_spec level files : Forall good_file files -> 0 < level -> gaps level files -> check_no_overlap le user files = Some tt.
Proof using Huser.
  intros Hok Hl. induction Hok as [|f files Hf Hok IH]; intros Hgap; [done|]. destruct files as [|g files]; [done|]. cbn [check_no_overlap]. inversion_clear Hok as [|? ? Hg _].
  destruct (compare_ends f g Hf Hg) as (r & -> & Hr). cbn [mbind option_bind]. destruct (Z.leb_spec 0 r) as [H0|]; [exfalso; assert (r < 0); [|lia]; apply Hr; by apply (Hgap Hl 0%nat)|].
  apply IH. intros _ i h h' Eh Eh'. by apply (Hgap Hl (S i)).
Qed.

(** ** A level of the new version *)

Lemma filter_perm {A} (p : A -> bool) l l' : l ≡ₚ l' -> List.filter p l ≡ₚ List.filter p l'.
Proof.
  intros H. induction H as [|x l l' H IH|x y l|l l' l'' H1 IH1 H2 IH2]; cbn [List.filter]; [done|destruct (p x); by rewrite IH|destruct (p x), (p y); by try constructor|by transitivity (List.filter p l')].
Qed.

Lemma filter_sorted {A} (R : A -> A -> Prop) (p : A -> bool) l : StronglySorted R l -> StronglySorted R (List.filter p l).
Proof.
  intros H. induction H as [|x l Hl IH Hx]; cbn [List.filter]; [constructor|]. destruct (p x); [|done]. constructor; [done|].
  apply Forall_forall. intros y Hy. rewrite list_elem_of_In, filter_In, <- list_elem_of_In in Hy. destruct Hy as [Hy _]. by apply (proj1 (Forall_forall _ _) Hx).
Qed.

(** No two files have keys between each other's ends. *)
Definition apart (files : list FileMetaData) : Prop :=
  forall f g, f ∈ files -> g ∈ files -> f_number f <> f_number g -> ilt (largest f) (smallest g) \/ ilt (largest g) (smallest f).

Lemma sorted_strict files : StronglySorted file_le files -> NoDup (f_number <$> files) -> StronglySorted file_lt files.
Proof.
  intros H. induction H as [|f l Hl IH Hf]; [constructor|]. rewrite fmap_cons, NoDup_cons. intros [Hn Hnd]. constructor; [by apply IH|].
  apply Forall_forall. intros g Hg. pose proof (proj1 (Forall_forall _ _) Hf g Hg) as [Hlt|(H1 & H2 & H3)]; [by left|right]. split_and!; [done|done|].
  assert (f_number f <> f_number g); [|lia]. intros E. apply Hn. rewrite E. by apply list_elem_of_fmap_2.
Qed.

Lemma sorted_disjoint files : Forall good_file files -> StronglySorted file_lt files -> apart files -> NoDup (f_number <$> files) -> disjoint_sorted (le := le) (user := user) files.
Proof using Huser.
  intros Hok Hs Ha Hnd. induction Hs as [|f l Hl IH Hf]; intros i j g h Hij Eg Eh; [done|]. inversion_clear Hok as [|? ? Hfo Hlo]. rewrite fmap_cons, NoDup_cons in Hnd. destruct Hnd as [Hn Hnd].
  destruct j as [|j]; [lia|]. cbn [lookup list_lookup] in Eh. assert (h ∈ l) as Hh by by eapply list_elem_of_lookup_2. destruct i as [|i].
  - injection Eg as <-. destruct (Ha f h) as [H|H]; [by left|by right| |done|]; [intros E; apply Hn; rewrite E; by apply list_elem_of_fmap_2|].
    exfalso. pose proof (proj1 (Forall_forall _ _) Hf h Hh) as Hlt. pose proof (proj1 (Forall_forall _ _) Hlo h Hh) as (Hhs & Hhl & Hle & _). apply (ilt_not_ile (uvalid := uvalid) _ _ H).
    apply (key_le_trans (valid := ivalid) _ (smallest h)); [apply Hfo|done|done|by apply file_le_start, file_lt_le|done].
  - cbn [lookup list_lookup] in Eg. apply (IH Hlo) with (i := i) (j := j); [|done|lia|done|done]. intros a b Hin1 Hin2. apply Ha; by right.
Qed.

Lemma disjoint_gaps level files : (0 < level -> disjoint_sorted (le := le) (user := user) files) -> gaps level files.
Proof. intros H Hl i f g Ef Eg. apply (H Hl i (S i)); [lia|done|done]. Qed.

Lemma save_level_spec level s base : Forall good_file (added_files s) -> StronglySorted file_lt (added_files s) -> Forall good_file base -> StronglySorted file_lt base ->
  NoDup (f_number <$> List.filter (alive s) (added_files s ++ base)) -> (0 < level -> apart (List.filter (alive s) (added_files s ++ base))) ->
  exists files, save_level le user level s base = Some files /\ files ≡ₚ List.filter (alive s) (added_files s ++ base) /\ StronglySorted file_lt files /\
    (0 < level -> disjoint_sorted (le := le) (user := user) files).
Proof using Huser.
  intros Ha Has Hb Hbs Hnd Hap. destruct (merge_added_spec level s (added_files s) Ha Has base Hb Hbs) as (merge & Hp & Hms & Hm). pose proof (filter_perm (alive s) _ _ Hp) as Hpf.
  assert (Forall good_file (List.filter (alive s) merge)) as Hok by (apply filter_good; rewrite Hp; by apply Forall_app). rewrite <- Hpf in Hnd.
  pose proof (sorted_strict _ (filter_sorted _ (alive s) _ Hms) Hnd) as Hst. assert (0 < level -> disjoint_sorted (le := le) (user := user) (List.filter (alive s) merge)) as Hd.
  { intros Hl. apply sorted_disjoint; [done|done| |done]. intros f g Hf Hg. apply (Hap Hl); by rewrite <- Hpf. }
  unfold save_level. rewrite (Hm []); [|done|by apply disjoint_gaps]. cbn [app mbind option_bind]. exists (List.filter (alive s) merge). split; [|by split_and!].
  destruct (Z.ltb_spec 0 level) as [Hl|]; [|done]. rewrite (check_no_overlap_spec level); [done|done|done|by apply disjoint_gaps].
Qed.

(** ** An edit *)

(** The new files of a level. *)
Definition at_level (l : list (Z * FileMetaData)) (level : Z) : list FileMetaData := map counted_file (map snd (List.filter (fun x => x.1 =? level) l)).

(** What becomes of a level. *)
Definition new_at (e : VersionEdit) (level : Z) : list FileMetaData := at_level (new_files_ e) level.

Definition kept (e : VersionEdit) (level : Z) (f : FileMetaData) : bool :=
  bool_decide ((level, f_number f) ∉ deleted_files_ e) || bool_decide (f_number f ∈ f_number <$> new_at e level).

Definition edited (e : VersionEdit) (level : Z) (base : list FileMetaData) : list FileMetaData := new_at e level ++ List.filter (kept e level) base.

(** Levels in range, files with valid keys, as the setters are called and as [DecodeFrom] checks. *)
Record edit_applies (e : VersionEdit) : Prop := {
  ea_pointers : Forall (fun p => 0 <= p.1 < kNumLevels /\ p.2 <> []) (compact_pointers_ e);
  ea_deleted : Forall (fun d => 0 <= d.1 < kNumLevels) (deleted_files_ e);
  ea_new : Forall (fun x => 0 <= x.1 < kNumLevels /\ good_file x.2) (new_files_ e);
}.

(** What every version keeps for its levels. *)
Definition level_ok (level : Z) (files : list FileMetaData) : Prop :=
  Forall good_file files /\ StronglySorted file_lt files /\ NoDup (f_number <$> files) /\ (0 < level -> disjoint_sorted (le := le) (user := user) files).

Lemma good_counted f : good_file f -> good_file (counted_file f).
Proof. done. Qed.

Lemma level_index_in level : 0 <= level < kNumLevels -> level_index level = Some (Z.to_nat level).
Proof. intros H. unfold level_index. destruct (Z.leb_spec 0 level), (Z.ltb_spec level kNumLevels); (done || lia). Qed.

Lemma apply_pointers_spec ps : Forall (fun p : Z * list byte => 0 <= p.1 < kNumLevels /\ p.2 <> []) ps -> forall ptrs, exists ptrs', apply_pointers ps ptrs = Some ptrs'.
Proof.
  intros H. induction H as [|[level k] ps [Hl Hk] Hps IH]; intros ptrs; cbn [apply_pointers]; [by eexists|]. cbn [fst] in Hl. rewrite level_index_in by done. cbn [mbind option_bind]. unfold key_Encode. rewrite bool_decide_false by done. cbn [mbind option_bind]. apply IH.
Qed.

(** The levels after the deletions. *)
Lemma apply_deletions_spec ds : Forall (fun d : Z * Z => 0 <= d.1 < kNumLevels) ds -> forall levels, exists levels', apply_deletions ds levels = Some levels' /\ length levels' = length levels /\
  forall level s, levels !! level = Some s -> exists s', levels' !! level = Some s' /\ added_files s' = added_files s /\
    forall n, n ∈ deleted_files s' <-> n ∈ deleted_files s \/ (Z.of_nat level, n) ∈ ds.
Proof.
  intros H. induction H as [|[l n0] ds Hl Hds IH]; intros levels; cbn [apply_deletions].
  { exists levels. split; [done|]. split; [done|]. intros level s Es. exists s. split; [done|]. split; [done|]. intros n. rewrite elem_of_nil. tauto. }
  cbn [fst] in Hl. rewrite level_index_in by done. cbn [mbind option_bind]. set (mark := fun s => MkLevelState (n0 :: deleted_files s) (added_files s)).
  destruct (IH (alter mark (Z.to_nat l) levels)) as (levels' & -> & Hlen & Hres). exists levels'. split; [done|]. split; [by rewrite Hlen, length_alter|]. intros level s Es.
  destruct (decide (Z.to_nat l = level)) as [Heq|Hne].
  - destruct (Hres level (mark s)) as (s' & E & Ea & Hd); [rewrite Heq, list_lookup_alter, Es; by rewrite decide_True|].
    exists s'. split; [done|]. split; [done|]. intros n. rewrite Hd. cbn [mark deleted_files]. rewrite !elem_of_cons. split; [intros [[-> |?]|?]; [right; left; f_equal; lia|tauto..]|].
    intros [?|[[= _ ->]|?]]; tauto.
  - destruct (Hres level s) as (s' & E & Ea & Hd); [by rewrite list_lookup_alter_ne|].
    exists s'. split; [done|]. split; [done|]. intros n. rewrite Hd, elem_of_cons. split; [tauto|]. intros [?|[[= ? _]|?]]; [tauto|lia|tauto].
Qed.

Definition added_ok (s : LevelState) : Prop := Forall good_file (added_files s) /\ StronglySorted file_lt (added_files s).

(** The state of the levels after the new files. *)
Lemma apply_new_files_spec l : Forall (fun x : Z * FileMetaData => 0 <= x.1 < kNumLevels /\ good_file x.2) l -> forall levels, Z.of_nat (length levels) = kNumLevels ->
  (forall level s, levels !! level = Some s -> added_ok s /\ NoDup (f_number <$> at_level l (Z.of_nat level) ++ added_files s)) ->
  exists levels', apply_new_files le user l levels = Some levels' /\ length levels' = length levels /\ forall level s, levels !! level = Some s ->
    exists s', levels' !! level = Some s' /\ added_ok s' /\ added_files s' ≡ₚ at_level l (Z.of_nat level) ++ added_files s /\
      forall n, n ∈ deleted_files s' <-> n ∈ deleted_files s /\ n ∉ f_number <$> at_level l (Z.of_nat level).
Proof using Huser.
  intros H. induction H as [|[lv f0] l [Hl Hf] Hfs IH]; intros levels Hlen Hlv; cbn [apply_new_files].
  { exists levels. split; [done|]. split; [done|]. intros level s Es. exists s. split; [done|]. split; [by apply Hlv in Es as [? _]|]. split; [done|]. intros n. cbn. rewrite elem_of_nil. tauto. }
  cbn [fst snd] in *. cbv zeta. rewrite level_index_in by done. cbn [mbind option_bind]. destruct (lookup_lt_is_Some_2 levels (Z.to_nat lv)) as [s0 Es0]; [lia|]. rewrite Es0. cbn [mbind option_bind]. destruct (Hlv _ _ Es0) as [[Hao Has] Hnd].
  assert (forall level, at_level ((lv, f0) :: l) (Z.of_nat level) = (if decide (level = Z.to_nat lv) then [counted_file f0] else []) ++ at_level l (Z.of_nat level)) as Eat.
  { intros level. unfold at_level. cbn [List.filter fst]. destruct (Z.eqb_spec lv (Z.of_nat level)) as [E|E]; [rewrite decide_True by lia|rewrite decide_False by lia]; done. }
  rewrite Eat, decide_True in Hnd by done. cbn [app] in Hnd. rewrite fmap_cons, NoDup_cons in Hnd. destruct Hnd as [Hn Hnd].
  destruct (file_insert_spec (counted_file f0) (added_files s0) (good_counted _ Hf) Hao Has) as (added & -> & Hs' & Hp). { intros Hin. apply Hn. rewrite fmap_app. apply elem_of_app. by right. }
  cbn [mbind option_bind]. set (s1 := MkLevelState (filter (fun n => n <> f_number (counted_file f0)) (deleted_files s0)) added).
  destruct (IH (<[Z.to_nat lv := s1]> levels)) as (levels' & E & El & Hres).
  - by rewrite length_insert.
  - intros level s Es. destruct (decide (level = Z.to_nat lv)) as [-> |Hne].
    + rewrite list_lookup_insert_eq in Es by lia. injection Es as <-. split; [split; [|done]; cbn; rewrite Hp; by constructor|]. cbn [added_files s1].
      rewrite Hp, Permutation_app_comm. cbn [app]. rewrite fmap_cons, NoDup_cons. rewrite Permutation_app_comm. by split.
    + rewrite list_lookup_insert_ne in Es by done. destruct (Hlv _ _ Es) as [H1 H2]. split; [done|]. rewrite Eat, decide_False in H2 by done. done.
  - exists levels'. split; [done|]. split; [by rewrite El, length_insert|]. intros level s Es. rewrite Eat. destruct (decide (level = Z.to_nat lv)) as [-> |Hne].
    + assert (s = s0) as -> by congruence. destruct (Hres (Z.to_nat lv) s1) as (s' & Es' & Hok & Hp' & Hd); [apply list_lookup_insert_eq; lia|]. exists s'. split; [done|]. split; [done|]. split.
      * rewrite Hp'. cbn [added_files s1 app]. rewrite Hp. by rewrite <- Permutation_middle.
      * intros n. rewrite Hd. cbn [deleted_files s1 app]. rewrite fmap_cons, not_elem_of_cons, list_elem_of_filter. tauto.
    + apply Hres. by rewrite list_lookup_insert_ne.
Qed.

Lemma filter_ext_in {A} (p q : A -> bool) l : (forall x, x ∈ l -> p x = q x) -> List.filter p l = List.filter q l.
Proof.
  induction l as [|x l IH]; intros H; cbn [List.filter]; [done|]. rewrite (H x) by by left. by rewrite IH by (intros y Hy; apply H; by right).
Qed.

Lemma filter_all {A} (p : A -> bool) l : (forall x, x ∈ l -> p x = true) -> List.filter p l = l.
Proof. induction l as [|x l IH]; intros H; cbn [List.filter]; [done|]. rewrite (H x) by by left. by rewrite IH by (intros y Hy; apply H; by right). Qed.

Lemma save_levels_spec (P : Z -> list FileMetaData -> list FileMetaData -> Prop) : forall ls base n, length ls = length base ->
  (forall i s b, ls !! i = Some s -> base !! i = Some b -> exists files, save_level le user (n + Z.of_nat i) s b = Some files /\ P (n + Z.of_nat i) b files) ->
  exists v', save_levels le user n ls base = Some v' /\ length v' = length base /\ forall i b, base !! i = Some b -> exists files, v' !! i = Some files /\ P (n + Z.of_nat i) b files.
Proof.
  induction ls as [|s ls IH]; intros [|b base] n Hlen H; try done; cbn [save_levels]; [by exists []|]. destruct (H 0%nat s b eq_refl eq_refl) as (files & E & HP). rewrite Z.add_0_r in E, HP. rewrite E. cbn [mbind option_bind].
  destruct (IH base (n + 1)) as (v' & -> & Hl & Hv); [by injection Hlen| |].
  - intros i s' b' Es Eb. destruct (H (S i) s' b' Es Eb) as (fs & Ef & Hp). exists fs. replace (n + 1 + Z.of_nat i) with (n + Z.of_nat (S i)) by lia. done.
  - cbn [mbind option_bind]. exists (files :: v'). split; [done|]. split; [simpl; by rewrite Hl|]. intros [|i] b' Eb.
    + injection Eb as <-. exists files. rewrite Z.add_0_r. done.
    + destruct (Hv i b' Eb) as (fs & Ef & Hp). exists fs. split; [done|]. replace (n + Z.of_nat (S i)) with (n + 1 + Z.of_nat i) by lia. done.
Qed.

(** What is not deleted. *)
Lemma alive_edited e level s base : added_files s ≡ₚ new_at e level ->
  (forall n, n ∈ deleted_files s <-> (level, n) ∈ deleted_files_ e /\ n ∉ f_number <$> new_at e level) -> List.filter (alive s) (added_files s ++ base) ≡ₚ edited e level base.
Proof.
  intros Hp Hd. rewrite List.filter_app. unfold edited. rewrite <- Hp. apply Permutation_app.
  - rewrite filter_all; [done|]. intros f Hf. unfold alive. apply bool_decide_true. rewrite Hd. intros [_ Hn]. apply Hn. rewrite Hp in Hf. by apply list_elem_of_fmap_2.
  - apply reflexive_eq, filter_ext_in. intros f _. unfold alive, kept. destruct (decide (f_number f ∈ f_number <$> new_at e level)) as [Hin|Hin].
    + rewrite (bool_decide_true (_ ∈ _ <$> _)), orb_true_r by done. apply bool_decide_true. rewrite Hd. tauto.
    + rewrite (bool_decide_false (_ ∈ _ <$> _)), orb_false_r by done. apply bool_decide_ext. rewrite Hd. tauto.
Qed.

(** The state of the levels before the new files. *)
Lemma deletions_applied ds : Forall (fun d : Z * Z => 0 <= d.1 < kNumLevels) ds -> exists ls, apply_deletions ds new_Builder = Some ls /\ length ls = length new_Builder /\
  forall level, (level < 7)%nat -> exists s, ls !! level = Some s /\ added_files s = [] /\ forall n, n ∈ deleted_files s <-> (Z.of_nat level, n) ∈ ds.
Proof.
  intros H. destruct (apply_deletions_spec _ H new_Builder) as (ls & E & Hlen & Hres). exists ls. split; [done|]. split; [done|].
  intros level Hlv. destruct (Hres level (MkLevelState [] [])) as (s & Es & Ea & Hd); [by apply lookup_replicate|].
  exists s. split; [done|]. split; [done|]. intros n. rewrite Hd. cbn. rewrite elem_of_nil. tauto.
Qed.

(** C9. An edit whose files leave no two files of a level above 0
    overlapping, and no two with one number, is applied to a version without a
    failed assertion: every level of the new version is the old one without the
    deleted files and with the new ones, in the order of their first keys, and
    keeps the invariant of the levels. *)
Theorem version_edited v e ptrs : Z.of_nat (length v) = kNumLevels -> (forall level base, v !! level = Some base -> level_ok (Z.of_nat level) base) -> edit_applies e ->
  (forall level base, v !! level = Some base -> NoDup (f_number <$> edited e (Z.of_nat level) base) /\ ((0 < level)%nat -> apart (edited e (Z.of_nat level) base))) ->
  exists ls ptrs' v', Apply le user e new_Builder ptrs = Some (ls, ptrs') /\ SaveTo le user ls v = Some v' /\ length v' = length v /\
    forall level base, v !! level = Some base -> exists files, v' !! level = Some files /\ files ≡ₚ edited e (Z.of_nat level) base /\ level_ok (Z.of_nat level) files.
Proof using Huser.
  intros Hlen Hv He Hed. unfold Apply. destruct (apply_pointers_spec _ (ea_pointers _ He) ptrs) as (ptrs' & ->). cbn [mbind option_bind].
  destruct (deletions_applied _ (ea_deleted _ He)) as (ls0 & -> & Hlen0 & Hs0). cbn [mbind option_bind].
  assert (forall level, (level < 7)%nat -> exists base, v !! level = Some base) as Hbase by (intros level Hl; apply lookup_lt_is_Some_2; unfold kNumLevels in Hlen; lia).
  destruct (apply_new_files_spec (new_files_ e) (ea_new _ He) ls0) as (ls & -> & Hls & Hres).
  - by rewrite Hlen0.
  - intros level s Es. assert (level < 7)%nat as Hl by (apply lookup_lt_Some in Es; by rewrite Hlen0 in Es). destruct (Hs0 level Hl) as (s' & Es' & Ea & _), (Hbase level Hl) as (base & Eb).
    assert (s' = s) as -> by congruence. split; [split; rewrite Ea; constructor|]. rewrite Ea, app_nil_r. destruct (Hed _ _ Eb) as [Hnd _]. unfold edited in Hnd. rewrite fmap_app in Hnd. by apply NoDup_app in Hnd as [? _].
  - cbn [mbind option_bind]. destruct (save_levels_spec (fun level base files => files ≡ₚ edited e level base /\ level_ok level files) ls v 0) as (v' & E & Hl' & Hv').
    + apply Nat2Z.inj. by rewrite Hls, Hlen0, Hlen.
    + intros i s base Es Eb. rewrite Z.add_0_l. assert (i < 7)%nat as Hi by (apply lookup_lt_Some in Eb; unfold kNumLevels in Hlen; lia). destruct (Hs0 i Hi) as (s0 & Es0 & Ea0 & Hd0).
      destruct (Hres i s0 Es0) as (s' & Es' & [Hao Has] & Hp & Hd). assert (s' = s) as -> by congruence. rewrite Ea0, app_nil_r in Hp. destruct (Hv _ _ Eb) as (Hbo & Hbs & Hbn & Hbd), (Hed _ _ Eb) as [Hnd Hap].
      assert (List.filter (alive s) (added_files s ++ base) ≡ₚ edited e (Z.of_nat i) base) as Hlive by (apply alive_edited; [done|]; intros n; by rewrite Hd, Hd0).
      destruct (save_level_spec (Z.of_nat i) s base) as (files & -> & Hpf & Hsf & Hdf); [done|done|done|done|by rewrite Hlive|intros Hl f g; rewrite Hlive; apply Hap; lia|].
      exists files. split; [done|]. rewrite Hlive in Hpf. split; [done|]. split; [|split; [done|split; [by rewrite Hpf|done]]]. rewrite Hpf. unfold edited. apply Forall_app. split; [by rewrite <- Hp|].
      apply Forall_forall. intros f Hf. rewrite list_elem_of_In, filter_In, <- list_elem_of_In in Hf. destruct Hf as [Hf _]. by apply (proj1 (Forall_forall _ _) Hbo).
    + exists ls, ptrs', v'. split; [done|]. split; [exact E|]. split; [done|]. intros level base Eb. destruct (Hv' level base Eb) as (files & Ef & Hf). by exists files.
Qed.
End Build.
