(* ===== verification/TableCache.v ===== *)
(** * The table cache: db/table_cache.cc

    Tables are opened when they are first used and kept, with their files, in a
    cache under the numbers of the files; the blocks of all tables share the
    block cache of the options.  [None] is a failed assertion or a NULL pointer
    that is followed. *)
From S2P Require Import Prelude Varint Coding CodingProps Comparator DbFormat DbFormatProps FilterBlock FilterBlockProps Status Iter Block BlockProps TwoLevel Interfaces Format FormatProps Table TableLayout TableFinish TableRead TableCorrect FileName VersionEdit VersionSet VersionProps VersionGet.

(** Opening a file for reading, of [Env]. *)
Class RandomAccessEnv (E F : Type) := { NewRandomAccessFile : list byte -> E -> Status * option F * E }.

Record TableAndFile (F : Type) := MkTableAndFile { tf_file : F; tf_table : Table (F := F) }.
Arguments tf_file {F} _.
Arguments tf_table {F} _.

Section TableCache.
Context (kLittleEndian : bool) {snappy : Snappy} {E F : Type} {raf : RandomAccessFile F} {env : RandomAccessEnv E F}.
Context {C H : Type} {cache : Cache C H Block} {CT HT : Type} {tcache : Cache CT HT (TableAndFile F)}.

(** [env_] and the block cache of [options_] with their states. *)
Record TableCache := MkTableCache { env_ : E; dbname_ : list byte; options_ : Options; cache_ : CT; block_cache_ : C }.

Definition set_env (e : E) (t : TableCache) : TableCache := MkTableCache e (dbname_ t) (options_ t) (cache_ t) (block_cache_ t).
Definition set_cache (c : CT) (t : TableCache) : TableCache := MkTableCache (env_ t) (dbname_ t) (options_ t) c (block_cache_ t).
Definition set_block_cache (c : C) (t : TableCache) : TableCache := MkTableCache (env_ t) (dbname_ t) (options_ t) (cache_ t) c.

(** [NewLRUCache(entries)] has made the cache. *)
Definition new_TableCache (e : E) (dbname : list byte) (options : Options) (c : CT) (blocks : C) : TableCache := MkTableCache e dbname options c blocks.

(** The file under its name, or under the name that older releases gave it. *)
Definition open_table_file (file_number : Z) (t : TableCache) : option (Status * option F * TableCache) :=
  fname ← TableFileName (dbname_ t) file_number;
  let '(s, file, e) := NewRandomAccessFile fname (env_ t) in
  let t := set_env e t in
  if negb (ok s) then
    old_fname ← SSTTableFileName (dbname_ t) file_number;
    let '(s', file, e) := NewRandomAccessFile old_fname (env_ t) in
    Some (if ok s' then OK else s, file, set_env e t)
  else Some (s, file, t).

(** [Table::Open] of the file that was opened. *)
Definition open_table (file : option F) (file_size : Z) (t : TableCache) : option (Status * option (Table (F := F)) * TableCache) :=
  match file with
  | Some file => '(s, table, b) ← Open kLittleEndian (options_ t) file file_size (block_cache_ t); Some (s, table, set_block_cache b t)
  | None => None
  end.

(** The status and the handle of the table's entry, which is NULL after an error. *)
Definition FindTable (file_number file_size : Z) (t : TableCache) : option (Status * option HT * TableCache) :=
  let key := EncodeFixed64 kLittleEndian file_number in
  '((handle, c) : option HT * CT) ← CacheLookup key (cache_ t);
  let t := set_cache c t in
  match handle with
  | Some h => Some (OK, Some h, t)
  | None =>
      '((s, file, t) : Status * option F * TableCache) ← open_table_file file_number t;
      '((s, table, t) : Status * option (Table (F := F)) * TableCache) ← (if ok s then open_table file file_size t else Some (s, None, t));
      if negb (ok s) then match table with None => Some (s, None, t) | Some _ => None end
      else
        match file, table with
        | Some file, Some table => '(h, c) ← CacheInsert key (MkTableAndFile F file table) 1 (cache_ t); Some (s, Some h, set_cache c t)
        | _, _ => None
        end
  end.

(** [UnrefEntry]: the cleanup of an iterator. *)
Definition UnrefEntry (h : HT) (t : TableCache) : option TableCache := c ← CacheRelease h (cache_ t); Some (set_cache c t).

(** The iterator with the function that is called when it is deleted, and the table. *)
Definition TableCache_NewIterator (file_number file_size : Z) (t : TableCache) :
    option ((EmptyIterator + TwoLevelIterator (I := EmptyIterator + BlockIter) (D := TableIter (H := H)) (A := C)) * Cleanups (CleanupFunction := HT) * option Table * TableCache) :=
  '(s, handle, t) ← FindTable file_number file_size t;
  if negb (ok s) then Some (inl (NewErrorIterator s), no_cleanups, None, t)
  else
    h ← handle;
    tf ← CacheValue (cache_ t) h;
    result ← NewTableIterator kLittleEndian (tf_table tf) (block_cache_ t);
    Some (inr result, RegisterCleanup h no_cleanups, Some (tf_table tf), t).

Definition TableCache_Get {A} (options : ReadOptions) (file_number file_size : Z) (k : list byte) (saver : list byte -> list byte -> A -> A) (arg : A) (t : TableCache) :
    option (Status * A * TableCache) :=
  '(s, handle, t) ← FindTable file_number file_size t;
  if ok s then
    h ← handle;
    tf ← CacheValue (cache_ t) h;
    '(s, arg, b) ← InternalGet kLittleEndian (tf_table tf) options k saver arg (block_cache_ t);
    c ← CacheRelease h (cache_ t);
    Some (s, arg, set_block_cache b (set_cache c t))
  else Some (s, arg, t).

Definition Evict (file_number : Z) (t : TableCache) : option TableCache :=
  c ← CacheErase (EncodeFixed64 kLittleEndian file_number) (cache_ t); Some (set_cache c t).

#[export] Instance TableCache_getter : TableGetter TableCache := {| tc_Get A := @TableCache_Get A |}.
End TableCache.

(** ** What is promised of the files *)

(** Files that exist can be opened, and opening one changes no file. *)
Class RandomAccessEnvOk {E F} (env : RandomAccessEnv E F) (contents : F -> list byte) (files : E -> list byte -> option (list byte)) := {
  rae_open name e : exists s f e', NewRandomAccessFile name e = (s, f, e') /\ (forall n, files e' n = files e n) /\
    match files e name with Some bytes => s = OK /\ exists g, f = Some g /\ contents g = bytes | None => ok s = false end;
}.

Lemma fixed64_inj le a b : 0 <= a < 2 ^ 64 -> 0 <= b < 2 ^ 64 -> EncodeFixed64 le a = EncodeFixed64 le b -> a = b.
Proof. intros Ha Hb E. rewrite !EncodeFixed64_spec in E. apply (f_equal le_combine) in E. by rewrite !le_combine_split64 in E. Qed.

Lemma block_key_id le i j off off' : 0 <= i < 2 ^ 64 -> 0 <= j < 2 ^ 64 -> EncodeFixed64 le i ++ EncodeFixed64 le off = EncodeFixed64 le j ++ EncodeFixed64 le off' -> i = j.
Proof.
  intros Hi Hj E. apply app_inj_1 in E as [E _]; [by apply (fixed64_inj le)|]. by rewrite !EncodeFixed64_spec, !length_le_split.
Qed.

(** ** The cached tables *)

Section Correct.
Context {le : bool} {snappy : Snappy} {E F : Type} {raf : RandomAccessFile F} {env : RandomAccessEnv E F} {contents : F -> list byte} {files : E -> list byte -> option (list byte)}.
Context {Hraf : RandomAccessFileOk raf contents} {Henv : RandomAccessEnvOk env contents files}.
Context {C H : Type} {cache : Cache C H Block} {rel : C -> (list byte -> option Block) -> list (H * Block) -> Prop} {max_handles : Z} {ids : C -> nat -> gset Z -> Prop}.
Context {Hcache : CacheOk cache rel max_handles} {Hids : CacheIdsOk cache rel ids} {Hmax : 2 <= max_handles}.
Context {CT HT : Type} {tcache : Cache CT HT (TableAndFile F)} {relT : CT -> (list byte -> option (TableAndFile F)) -> list (HT * TableAndFile F) -> Prop} {maxT : Z}.
Context {HcacheT : CacheOk tcache relT maxT} {HmaxT : 1 <= maxT}.
Context {user : Comparator} {uvalid : list byte -> Prop} {Huser : ComparatorOk user uvalid}.
Context {o : Options} {Hcmp : opt_comparator o = InternalKeyComparator le user}.
Context {Hpolicy : forall p name, filter_policy o = Some (p, name) -> (exists up, p = InternalFilterPolicy up) /\
  forall k f, valid_internal (valid := uvalid) k -> Z.of_nat (length f) < 2 ^ 32 -> is_Some (@KeyMayMatch p k f)}.
(** The files of the directory, and the entries of the table with a number. *)
Context {dbname : list byte} {dir : list byte -> option (list byte)} {entries_of : Z -> list entry}.

Abbreviation ivalid := (valid_internal (valid := uvalid)).
Abbreviation cache_t := (TableCache (E := E) (C := C) (CT := CT)).

#[local] Instance cmp_ok : ComparatorOk (opt_comparator o) ivalid.
Proof. rewrite Hcmp. apply _. Qed.

(** The table file with a number, under its new name or its old one. *)
Definition file_of (n : Z) (bytes : list byte) : Prop :=
  exists name, TableFileName dbname n = Some name /\
    (dir name = Some bytes \/ (dir name = None /\ exists old, SSTTableFileName dbname n = Some old /\ dir old = Some bytes)).

Definition table_data (n : Z) (bytes : list byte) (ly : table_layout) : Prop :=
  file_of n bytes /\ table_file le (opt_comparator o) (filter_policy o) bytes (entries_of n) ly /\
  Forall (fun e : entry => ivalid e.1) (entries_of n) /\ keys_sorted (opt_comparator o) (entries_of n).

Definition live_table (f : FileMetaData) : Prop :=
  0 <= f_number f < 2 ^ 64 /\ exists bytes ly, table_data (f_number f) bytes ly /\ f_size f = Z.of_nat (length bytes).

(** A table in the cache: opened from the file with the number, and in agreement with the block cache. *)
Definition cached_table (k : list byte) (tf : TableAndFile F) (lastB : list byte -> option Block) (G : gset Z) : Prop :=
  exists n bytes ly, 0 <= n < 2 ^ 64 /\ k = EncodeFixed64 le n /\ table_data n bytes ly /\ contents (tf_file tf) = bytes /\
    opened (le := le) (o := o) (ly := ly) (file := tf_file tf) (tf_table tf) /\ coherent (le := le) (o := o) (ly := ly) (t := tf_table tf) lastB /\
    (has_block_cache o = true -> cache_id (tf_table tf) ∈ G).

Definition all_cached (lastT : list byte -> option (TableAndFile F)) (lastB : list byte -> option Block) (G : gset Z) : Prop :=
  (forall i, i ∈ G -> 0 <= i < 2 ^ 64) /\
  (has_block_cache o = true -> forall i off v, 0 <= i < 2 ^ 64 -> lastB (EncodeFixed64 le i ++ EncodeFixed64 le off) = Some v -> i ∈ G) /\
  (forall k tf, lastT k = Some tf -> cached_table k tf lastB G) /\
  (has_block_cache o = true -> forall k k' tf tf', lastT k = Some tf -> lastT k' = Some tf' -> cache_id (tf_table tf) = cache_id (tf_table tf') -> k = k').

Record state_ok (lastT : list byte -> option (TableAndFile F)) (outT : list (HT * TableAndFile F)) (lastB : list byte -> option Block) (n : nat) (G : gset Z) (t : cache_t) : Prop := {
  so_dbname : dbname_ t = dbname;
  so_options : options_ t = o;
  so_files name : files (env_ t) name = dir name;
  so_tables : relT (cache_ t) lastT outT;
  so_blocks : rel (block_cache_ t) lastB [];
  so_ids : ids (block_cache_ t) n G;
  so_cached : all_cached lastT lastB G;
}.

(** [n] more lookups can be served. *)
Definition tables_ok (n : nat) (t : cache_t) : Prop := exists lastT lastB G, state_ok lastT [] lastB n G t.

(** A block that one table puts into the cache does not concern the others. *)
Lemma coherent_other lastB ly (tf : TableAndFile F) id off v : has_block_cache o = true -> 0 <= id < 2 ^ 64 -> 0 <= cache_id (tf_table tf) < 2 ^ 64 -> cache_id (tf_table tf) <> id ->
  coherent (le := le) (o := o) (ly := ly) (t := tf_table tf) lastB ->
  coherent (le := le) (o := o) (ly := ly) (t := tf_table tf) (fun k => if decide (k = EncodeFixed64 le id ++ EncodeFixed64 le off) then Some v else lastB k).
Proof.
  intros Ho Hid Hid' Hne Hco _ b w Hb. case_decide as Ek; [|by apply Hco]. unfold cache_key in Ek. by apply block_key_id in Ek.
Qed.

Lemma open_table_file_spec n bytes t lastT outT lastB m G : state_ok lastT outT lastB m G t -> file_of n bytes ->
  exists g t', open_table_file n t = Some (OK, Some g, t') /\ contents g = bytes /\ state_ok lastT outT lastB m G t' /\ cache_ t' = cache_ t /\ block_cache_ t' = block_cache_ t.
Proof using Henv.
  intros Hst (name & En & Hdir). unfold open_table_file. rewrite (so_dbname _ _ _ _ _ _ Hst), En. cbn [mbind option_bind].
  destruct (rae_open name (env_ t)) as (s & f & e & Eo & Hfiles & Hres). rewrite Eo, (so_files _ _ _ _ _ _ Hst) in *. cbv zeta.
  assert (state_ok lastT outT lastB m G (set_env e t)) as Hst1 by (destruct Hst; split; cbn; try done; intros k; by rewrite Hfiles).
  destruct Hdir as [Ed|(Ed & old & Eold & Edold)]; rewrite Ed in Hres.
  - destruct Hres as (-> & g & -> & Hg). by exists g, (set_env e t).
  - rewrite Hres. cbn [negb]. cbn [dbname_ set_env]. rewrite (so_dbname _ _ _ _ _ _ Hst), Eold. cbn [mbind option_bind].
    destruct (rae_open old (env_ (set_env e t))) as (s2 & f2 & e2 & Eo2 & Hfiles2 & Hres2). rewrite Eo2, (so_files _ _ _ _ _ _ Hst1), Edold in *.
    destruct Hres2 as (-> & g & -> & Hg). exists g, (set_env e2 (set_env e t)). split; [done|]. split; [done|]. split; [|done]. destruct Hst1; split; cbn in *; try done. intros k. by rewrite Hfiles2.
Qed.

Lemma cached_more k tf lastB G G' : G ⊆ G' -> cached_table k tf lastB G -> cached_table k tf lastB G'.
Proof. intros Hsub (n & bytes & ly & Hn & Ek & Hd & Hc & Ho & Hco & Hi). exists n, bytes, ly. do 6 (split; [done|]). intros Hh. by apply Hsub, Hi. Qed.

(** A table that is opened gets an id that is new to the block cache. *)
Lemma opened_cached n bytes ly g t0 lastT lastB G id : 0 <= n < 2 ^ 64 -> table_data n bytes ly -> contents g = bytes ->
  opened (le := le) (o := o) (ly := ly) (file := g) t0 -> all_cached lastT lastB G ->
  (has_block_cache o = true -> cache_id t0 = id /\ ~ (id ∈ G) /\ 0 <= id < 2 ^ 64) ->
  all_cached (fun k => if decide (k = EncodeFixed64 le n) then Some (MkTableAndFile F g t0) else lastT k) lastB (if has_block_cache o then G ∪ {[id]} else G).
Proof.
  intros Hn Hd Hg Hop (HG & HB & Hc & Hdist) Hid. assert (G ⊆ (if has_block_cache o then G ∪ {[id]} else G)) as Hsub by (destruct (has_block_cache o); [apply union_subseteq_l|done]).
  split_and!.
  - intros i. destruct (has_block_cache o); [|apply HG]. destruct (Hid eq_refl) as (_ & _ & Hr). rewrite elem_of_union, elem_of_singleton. intros [Hi| ->]; [by apply HG|done].
  - intros Ho i off v Hi Ev. apply Hsub. by apply (HB Ho i off v).
  - intros k tf. case_decide as Ek; [intros [= <-]|intros Etf; apply (cached_more k tf lastB G); [done|by apply Hc]].
    exists n, bytes, ly. do 5 (split; [done|]). split.
    + intros Ho b v Hb Ev. exfalso. destruct (Hid Ho) as (Ei & Hn' & Hr). apply Hn'. unfold cache_key in Ev. cbn [tf_table] in Ev. rewrite Ei in Ev. by apply (HB Ho id) in Ev.
    + intros Ho. rewrite Ho. cbn [tf_table]. destruct (Hid Ho) as (-> & _). apply elem_of_union_r, elem_of_singleton_2, eq_refl.
  - intros Ho k k' tf tf' E1 E2 Ei. destruct (Hid Ho) as (Eid & Hn' & Hr).
    assert (forall k tf, lastT k = Some tf -> cache_id (tf_table tf) <> id) as Hold.
    { intros k1 tf1 E3 E4. destruct (Hc k1 tf1 E3) as (? & ? & ? & _ & _ & _ & _ & _ & _ & Hin). specialize (Hin Ho). congruence. }
    destruct (decide (k = EncodeFixed64 le n)) as [Ek|Ek], (decide (k' = EncodeFixed64 le n)) as [Ek'|Ek']; [congruence| | |by apply (Hdist Ho k k' tf tf')].
    + injection E1 as <-. cbn [tf_table] in Ei. exfalso. apply (Hold k' tf' E2). congruence.
    + injection E2 as <-. cbn [tf_table] in Ei. exfalso. apply (Hold k tf E1). congruence.
Qed.

Lemma FindTable_spec f n t : live_table f -> tables_ok (S n) t -> exists h tf lastT lastB G t', FindTable le (f_number f) (f_size f) t = Some (OK, Some h, t') /\
  state_ok lastT [(h, tf)] lastB n G t' /\ lastT (EncodeFixed64 le (f_number f)) = Some tf.
Proof using Hraf Henv Hcache Hids HcacheT HmaxT.
  intros (Hn & bytes & ly & Hd & Hsz) (lastT & lastB & G & Hst). unfold FindTable. cbv zeta. set (k := EncodeFixed64 le (f_number f)).
  destruct (cache_lookup_ok (cache := tcache) (cache_ t) lastT [] k (so_tables _ _ _ _ _ _ Hst)) as (r & ct & -> & Hr); [simpl; lia|]. cbn [mbind option_bind]. destruct r as [h|].
  - destruct Hr as (tf & Etf & Hr). exists h, tf, lastT, lastB, G, (set_cache ct t). split; [done|]. split; [|done]. destruct Hst; split; cbn; try done. by apply (ids_less (cache := cache)).
  - assert (state_ok lastT [] lastB (S n) G (set_cache ct t)) as Hst1 by (destruct Hst; split; done).
    destruct (open_table_file_spec (f_number f) bytes (set_cache ct t) lastT [] lastB (S n) G Hst1 (proj1 Hd)) as (g & t1 & -> & Hg & Hst2 & Ect & Eb). cbn [mbind option_bind ok OK]. cbv iota.
    unfold open_table. rewrite (so_options _ _ _ _ _ _ Hst2), Hsz. destruct Hd as (Hfile & Htf & Hes & Hsorted).
    destruct (Open_spec (Hraf := Hraf) (Hfile := Hg) (Htf := Htf) (block_cache_ t1)) as (t0 & E0 & Hop & Eid). rewrite E0. cbn [mbind option_bind ok OK negb]. cbv iota.
    pose proof (so_tables _ _ _ _ _ _ Hst2) as Hrel. pose proof (so_blocks _ _ _ _ _ _ Hst2) as HrelB. pose proof (so_ids _ _ _ _ _ _ Hst2) as Hi.
    set (b := if has_block_cache o then (CacheNewId (block_cache_ t1)).2 else block_cache_ t1). cbn [cache_ set_block_cache].
    destruct (cache_insert_ok (cache := tcache) (cache_ t1) lastT [] k (MkTableAndFile F g t0) 1 Hrel) as (h & ct2 & -> & Hrel2); [lia|simpl; lia|]. cbn [mbind option_bind].
    destruct (cache_id_ok (cache := cache) _ _ _ HrelB) as [HrelB' Hrange]. destruct (ids_new (cache := cache) _ _ _ _ _ HrelB Hi) as [Hfresh Hi'].
    eexists h, (MkTableAndFile F g t0), (fun k' => if decide (k' = k) then Some (MkTableAndFile F g t0) else lastT k'), lastB, (if has_block_cache o then G ∪ {[fst (CacheNewId (block_cache_ t1))]} else G), _. split; [done|]. split; [|by rewrite decide_True].
    split; cbn [dbname_ options_ env_ cache_ block_cache_ set_cache set_block_cache].
    + apply (so_dbname _ _ _ _ _ _ Hst2).
    + apply (so_options _ _ _ _ _ _ Hst2).
    + apply (so_files _ _ _ _ _ _ Hst2).
    + exact Hrel2.
    + unfold b. destruct (has_block_cache o); [exact HrelB'|exact HrelB].
    + unfold b. destruct (has_block_cache o); [exact Hi'|by apply (ids_less (cache := cache))].
    + apply (opened_cached (f_number f) bytes ly); try done; [apply (so_cached _ _ _ _ _ _ Hst2)|]. intros Ho. rewrite Ho in Eid. done.
Qed.

(** What a lookup in one table keeps of the block cache for the others. *)
Definition keeps_others (lastT : list byte -> option (TableAndFile F)) (k0 : list byte) (n : nat) (G : gset Z) (c : C) (lastB : list byte -> option Block) : Prop :=
  ids c n G /\ (has_block_cache o = true -> forall i off v, 0 <= i < 2 ^ 64 -> lastB (EncodeFixed64 le i ++ EncodeFixed64 le off) = Some v -> i ∈ G) /\
  forall k tf, lastT k = Some tf -> k <> k0 -> cached_table k tf lastB G.

Lemma cached_insert lastT lastB k0 tf0 G k tf off v : all_cached lastT lastB G -> lastT k0 = Some tf0 -> lastT k = Some tf -> k <> k0 ->
  forall last, cached_table k tf last G -> cached_table k tf (fun k => if decide (k = EncodeFixed64 le (cache_id (tf_table tf0)) ++ EncodeFixed64 le off) then Some v else last k) G.
Proof.
  intros (HG & _ & Hc & Hdist) E0 Ek Hne last (m & bytes & ly & Hm & Em & Hd & Hg & Hop & Hco & Hi). exists m, bytes, ly. do 5 (split; [done|]). split; [|done].
  destruct (Bool.bool_dec (has_block_cache o) true) as [Ho|Ho]; [|intros Ho'; congruence]. destruct (Hc k0 tf0 E0) as (? & ? & ? & _ & _ & _ & _ & _ & _ & Hi0).
  apply coherent_other; [done|by apply HG, Hi0|by apply HG, Hi| |done]. intros Eid. by apply Hne, (Hdist Ho k k0 tf tf0).
Qed.

Lemma keeps_others_ok lastT lastB k0 tf0 n G : all_cached lastT lastB G -> lastT k0 = Some tf0 -> CacheKeeps le cache (cache_id (tf_table tf0)) (keeps_others lastT k0 n G).
Proof using Hids.
  intros Hall E0. pose proof Hall as (HG & _ & Hc & _). destruct (Hc k0 tf0 E0) as (? & ? & ? & _ & _ & _ & _ & _ & _ & Hi0). split.
  - intros k r c c' last (Hi & HB & Ho) E1. split; [exact (ids_lookup (cache := cache) c c' k r n G Hi E1)|done].
  - intros off v charge h c c' last (Hi & HB & Ho) E1. split; [exact (ids_insert (cache := cache) c c' _ v charge h n G Hi E1)|]. split.
    + intros Hh i off' w Hr. case_decide as Ek; [|by apply HB]. intros _. apply block_key_id in Ek as ->; [by apply Hi0|done|by apply HG, Hi0].
    + intros k tf Ek Hne. by apply (cached_insert lastT lastB k0 tf0), Ho.
  - intros h c c' last (Hi & HB & Ho) E1. split; [exact (ids_release (cache := cache) c c' h n G Hi E1)|done].
Qed.

(** An entry with the user key that is looked for is hidden by no separator and no filter. *)
Lemma same_user_sees n bytes ly k i e : table_data n bytes ly -> ivalid k -> seek_pos (opt_comparator o) k (entries_of n) = Some i -> entries_of n !! i = Some e ->
  ukey e.1 = ukey k -> sees (o := o) (ly := ly) k e.1.
Proof using Huser Hcmp Hpolicy.
  intros (_ & Htf & Hes & Hsorted) Hk Ei Ee Eu. assert (ivalid e.1) as He by (apply (proj1 (Forall_forall _ _) Hes); by eapply list_elem_of_lookup_2).
  destruct (ivalid_ukey _ Hk) as (_ & Ek1 & _), (ivalid_ukey _ He) as (_ & Ek2 & _). rewrite Eu in Ek2. split.
  - apply (user_key_seen (Huser := Huser) (Hcmp := Hcmp) (Htf := Htf) (Hes := Hes) (Hsorted := Hsorted) k i e Hk Ei Ee). by exists (ukey k).
  - intros p name fl Ep. destruct (Hpolicy p name Ep) as [[up ->] _]. simpl. by rewrite Ek1, Ek2.
Qed.

(** A lookup in a cached table. *)
Lemma InternalGet_state {A} lastT outT lastB n G t m tf options k (saver : list byte -> list byte -> A -> A) arg :
  state_ok lastT outT lastB n G t -> 0 <= m < 2 ^ 64 -> lastT (EncodeFixed64 le m) = Some tf -> ivalid k ->
  exists arg' b lastB', InternalGet le (tf_table tf) options k saver arg (block_cache_ t) = Some (OK, arg', b) /\ search_gives (le := le) (user := user) (entries_of m) k saver arg arg' /\
    rel b lastB' [] /\ ids b n G /\ all_cached lastT lastB' G.
Proof using Hraf Hcache Hids Hmax Huser Hcmp Hpolicy.
  intros Hst Hm Etf Hk. pose proof (so_cached _ _ _ _ _ _ Hst) as Hall. pose proof Hall as (HG & HB & Hc & Hdist). pose proof (keeps_others_ok lastT lastB _ tf n G Hall Etf) as Hkeep.
  destruct (Hc _ _ Etf) as (m' & bytes & ly & Hm' & Em & Hd & Hg & Hop & Hco & Hid). apply fixed64_inj in Em as <-; [|done|done]. pose proof Hd as (_ & Htf & Hes & Hsorted).
  assert (held (le := le) (rel := rel) (o := o) (ly := ly) (t := tf_table tf) (rest := []) (keep := keeps_others lastT (EncodeFixed64 le m) n G) [] (block_cache_ t)) as Hh.
  { exists lastB, []. split; [apply (so_blocks _ _ _ _ _ _ Hst)|]. split; [done|]. split; [done|]. split; [apply (so_ids _ _ _ _ _ _ Hst)|]. split; [done|]. intros k' tf' E' _. by apply Hc. }
  assert (Z.of_nat (length (@nil (H * Block))) + 2 <= max_handles) as Hrest by (simpl; lia).
  destruct (InternalGet_spec (Hraf := Hraf) (Hcache := Hcache) (Hrest := Hrest) (Hkeep := Hkeep) (Hc := cmp_ok) (Hfile := Hg) (Htf := Htf) (Hes := Hes) (Hsorted := Hsorted)
    (Hopen := Hop) (options := options) (Hpolicy := fun p name Ep => proj2 (Hpolicy p name Ep)) k saver arg [] _ Hk (Nat.le_0_l 1) Hh) as (arg' & b & Eg & (lastB' & hvs & Hrel & Hco' & Ehv & Hi' & HB' & Ho') & Hf).
  exists arg', b, lastB'. split; [exact Eg|]. split; [|split].
  - unfold search_gives, found in *. rewrite <- Hcmp. destruct (seek_pos (opt_comparator o) k (entries_of m)) as [i|] eqn:Ei; [|done]. destruct Hf as (e & Ee & Hor & Hsee).
    exists e. split; [done|]. split; [done|]. intros Eu. by apply Hsee, (same_user_sees m bytes ly k i e).
  - destruct hvs; [|done]. exact Hrel.
  - split; [done|]. split; [done|]. split; [done|]. split; [|done]. intros k' tf' E'. destruct (decide (k' = EncodeFixed64 le m)) as [-> |Hne]; [|by apply Ho'].
    assert (tf' = tf) as -> by congruence. exists m, bytes, ly. by do 6 (split; [done|]).
Qed.

(** C8. Through the table cache and the block cache, each with
    whatever it has kept or evicted, a lookup in a live table opens its file
    when it has to, under the new or the old name, succeeds, gives the caller
    what [Version::Get] relies on, and releases every handle; what the caches
    have for the other tables stays good. *)
Theorem table_cache_get options : TableGetterOk (le := le) (user := user) (uvalid := uvalid) (E := entries_of) (TableCache_getter le) options live_table tables_ok.
Proof using Hraf Henv Hcache Hids Hmax HcacheT HmaxT Huser Hcmp Hpolicy.
  split.
  - intros A n f k saver arg t Hf Hk Ht. cbn [tc_Get TableCache_getter]. unfold TableCache_Get.
    destruct (FindTable_spec f n t Hf Ht) as (h & tf & lastT & lastB & G & t' & -> & Hst & Etf). cbn [mbind option_bind ok OK]. cbv iota.
    rewrite (cache_value_ok (cache := tcache) _ _ _ h tf (so_tables _ _ _ _ _ _ Hst) (in_eq _ _)). cbn [mbind option_bind].
    destruct (InternalGet_state lastT _ lastB n G t' (f_number f) tf options k saver arg Hst (proj1 Hf) Etf Hk) as (arg' & b & lastB' & -> & Hgives & Hrel & Hi & Hall). cbn [mbind option_bind].
    destruct (cache_release_ok (cache := tcache) _ _ _ h tf (so_tables _ _ _ _ _ _ Hst)) as (ct & -> & HrelT). cbn [mbind option_bind].
    eexists arg', _. split; [done|]. split; [|done]. exists lastT, lastB', G. destruct Hst; split; done.
  - intros n t (lastT & lastB & G & Hst). exists lastT, lastB, G. destruct Hst; split; try done. by apply (ids_less (cache := cache)).
Qed.
End Correct.
