(* ===== verification/Compact.v ===== *)
(** * Compactions: [DBImpl::DoCompactionWork] of db/db_impl.cc, and db/builder.cc

    The merged inputs are written to new tables without the entries that no
    snapshot sees.  [None] is a failed assertion, a NULL pointer that is
    followed or a loop that ran out of fuel. *)
From S2P Require Import Prelude Coding Comparator DbFormat Status Iter Block TwoLevel Interfaces Format Table TableBuilder FileName VersionEdit VersionSet TableCache.

(** ** Which entries are dropped *)

Section Drop.
Context (kLittleEndian : bool) (ucmp : Comparator).

Record DropState := MkDrop { current_user_key : list byte; has_current_user_key : bool; last_sequence_for_key : Z }.

Definition new_DropState : DropState := MkDrop [] false kMaxSequenceNumber.

(** A user key that is not the current one becomes the current one. *)
Definition next_user_key (u : list byte) (st : DropState) : option DropState :=
  same ← (if has_current_user_key st then r ← @Compare ucmp u (current_user_key st); Some (r =? 0) else Some false);
  Some (if (same : bool) then st else MkDrop u true kMaxSequenceNumber).

(** Whether the entry is dropped; [IsBaseLevelForKey] changes the compaction. *)
Definition drop_entry (smallest_snapshot : Z) (key : list byte) (st : DropState) (c : Compaction) : option (bool * DropState * Compaction) :=
  '(parsed, ikey) ← ParseInternalKey kLittleEndian key (Parsed [] 0 0);
  if negb parsed then Some (false, new_DropState, c)
  else
    st ← next_user_key (user_key ikey) st;
    '(drop, c) ← (if last_sequence_for_key st <=? smallest_snapshot then Some (true, c)
                  else if (vtype ikey =? kTypeDeletion) && (sequence ikey <=? smallest_snapshot) then IsBaseLevelForKey ucmp (user_key ikey) c
                  else Some (false, c));
    Some (drop, MkDrop (current_user_key st) (has_current_user_key st) (sequence ikey), c).
End Drop.

(** ** The output files *)

(** An [Output] of [CompactionState]. *)
Record Output := MkOutput { out_number : Z; out_file_size : Z; out_smallest : list byte; out_largest : list byte }.

Section Compact.
Context (kLittleEndian : bool) {snappy : Snappy} (ucmp : Comparator).
Context {E F R : Type} {wf : WritableFile F} {raf : RandomAccessFile R} {env : Env E F} {renv : RandomAccessEnv E R}.
Context {C H CT HT : Type} {cache : Cache C H Block} {tcache : Cache CT HT (TableAndFile R)}.

Abbreviation TableCache := (TableCache (E := E) (C := C) (CT := CT)).

(** What a compaction uses of the database: [table_cache_] with [env_], [dbname_] and [options_]; the counter of
    [versions_]; [pending_outputs_]. *)
Record DBState := MkDB { table_cache_ : TableCache; next_file_number_ : Z; pending_outputs_ : list Z }.

Definition set_table_cache (t : TableCache) (db : DBState) : DBState := MkDB t (next_file_number_ db) (pending_outputs_ db).
Definition on_env (e : E) (db : DBState) : DBState := set_table_cache (set_env e (table_cache_ db)) db.

(** [versions_->NewFileNumber()] and its insertion into [pending_outputs_]. *)
Definition NewFileNumber (db : DBState) : Z * DBState :=
  let n := next_file_number_ db in
  (n, MkDB (table_cache_ db) (u64 (n + 1)) (n :: pending_outputs_ db)).

Abbreviation Rep := (Rep (F := F)).

(** [builder] with [outfile], which its [Rep] has while it exists. *)
Record CompactionState := MkCompaction { compaction : Compaction; smallest_snapshot : Z; outputs : list Output; builder : option Rep; total_bytes : Z }.

Definition set_builder (b : option Rep) (cs : CompactionState) : CompactionState := MkCompaction (compaction cs) (smallest_snapshot cs) (outputs cs) b (total_bytes cs).
Definition set_compaction (c : Compaction) (cs : CompactionState) : CompactionState := MkCompaction c (smallest_snapshot cs) (outputs cs) (builder cs) (total_bytes cs).

(** [current_output()] is changed. *)
Definition on_current_output (f : Output -> Output) (cs : CompactionState) : CompactionState :=
  MkCompaction (compaction cs) (smallest_snapshot cs) (alter f (length (outputs cs) - 1)%nat (outputs cs)) (builder cs) (total_bytes cs).

Definition OpenCompactionOutputFile (cs : CompactionState) (db : DBState) : option (Status * CompactionState * DBState) :=
  match builder cs with
  | Some _ => None
  | None =>
      let '(file_number, db) := NewFileNumber db in
      let cs := MkCompaction (compaction cs) (smallest_snapshot cs) (outputs cs ++ [MkOutput file_number 0 [] []]) None (total_bytes cs) in
      fname ← TableFileName (dbname_ (table_cache_ db)) file_number;
      let '(s, outfile, e) := NewWritableFile fname (env_ (table_cache_ db)) in
      let db := on_env e db in
      if ok s then
        match outfile with
        | Some f => b ← new_TableBuilder (options_ (table_cache_ db)) f; Some (s, set_builder (Some b) cs, db)
        | None => None
        end
      else Some (s, cs, db)
  end.

(** "Verify that the table is usable": an iterator is made, asked for its status and deleted. *)
Definition verify_table (file_number file_size : Z) (t : TableCache) : option (Status * TableCache) :=
  '(iter, cleanup, table, t) ← TableCache_NewIterator kLittleEndian file_number file_size t;
  match iter, table with
  | inr it, Some tbl =>
      t ← foldr (fun h t => t ← t; UnrefEntry h t) (Some t) (run_cleanups cleanup);
      Some (@status _ (table_iterator kLittleEndian tbl default_ReadOptions) it, set_block_cache (arg_ it) t)
  | inl it, _ => Some (status it, t)
  | _, _ => None
  end.

(** The file is synced and closed, if all is well, and deleted. *)
Definition close_file (s : Status) (f : F) (e : E) : Status * E :=
  let '(s, f, e) := if ok s then env_Sync f e else (s, f, e) in
  let '(s, f, e) := if ok s then env_Close f e else (s, f, e) in
  (s, delete_file f e).

Definition FinishCompactionOutputFile (input_status : Status) (cs : CompactionState) (db : DBState) : option (Status * CompactionState * DBState) :=
  b ← builder cs;
  out ← last (outputs cs);
  if out_number out =? 0 then None
  else
    let current_entries := NumEntries b in
    '(s, b) ← (if ok input_status then tb_Finish kLittleEndian b else b ← Abandon b; Some (input_status, b));
    let current_bytes := FileSize b in
    let cs := on_current_output (fun o => MkOutput (out_number o) current_bytes (out_smallest o) (out_largest o)) cs in
    let cs := MkCompaction (compaction cs) (smallest_snapshot cs) (outputs cs) None (u64 (total_bytes cs + current_bytes)) in
    if negb (destroy_ok b) then None
    else
      let '(s, e) := close_file s (tb_file b) (env_ (table_cache_ db)) in
      let db := on_env e db in
      if ok s && (0 <? current_entries) then
        '(s, t) ← verify_table (out_number out) current_bytes (table_cache_ db);
        Some (s, cs, set_table_cache t db)
      else Some (s, cs, db).

(** ** The loop over the inputs *)

Context {I : Type} {it : Iterator I} (max_file_size : Z).
(** Before each round: whether the database is shutting down, and what [CompactMemTable] and other threads have done to the database. *)
Context (shutting_down_ : nat -> bool) (others : nat -> DBState -> DBState).

Abbreviation Loop := (I * DropState * CompactionState * DBState)%type.

(** With the status of the input.  The output so far is finished when it would overlap too much of the level after the next one. *)
Definition stop_before (key : list byte) (input_status : Status) (cs : CompactionState) (db : DBState) : option (Status * CompactionState * DBState) :=
  '(stop, c) ← ShouldStopBefore kLittleEndian ucmp max_file_size key (compaction cs);
  let cs := set_compaction c cs in
  match builder cs with
  | Some _ => if (stop : bool) then FinishCompactionOutputFile input_status cs db else Some (OK, cs, db)
  | None => Some (OK, cs, db)
  end.

(** An entry that is not dropped goes to the output. *)
Definition add_entry (key value : list byte) (input_status : Status) (cs : CompactionState) (db : DBState) : option (Status * CompactionState * DBState) :=
  '((s, cs, db) : Status * CompactionState * DBState) ← (match builder cs with None => OpenCompactionOutputFile cs db | Some _ => Some (OK, cs, db) end);
  if negb (ok s) then Some (s, cs, db)
  else
    match builder cs with
    | None => None
    | Some b =>
        let cs := on_current_output (fun o => MkOutput (out_number o) (out_file_size o) (if NumEntries b =? 0 then key else out_smallest o) key) cs in
        b ← tb_Add kLittleEndian key value b;
        let cs := set_builder (Some b) cs in
        if max_output_file_size_ (compaction cs) <=? FileSize b then FinishCompactionOutputFile input_status cs db else Some (OK, cs, db)
    end.

Definition compaction_round (key value : list byte) (input_status : Status) (ds : DropState) (cs : CompactionState) (db : DBState) : option (Status * DropState * CompactionState * DBState) :=
  '((s, cs, db) : Status * CompactionState * DBState) ← stop_before key input_status cs db;
  if negb (ok s) then Some (s, ds, cs, db)
  else
    '((drop, ds, c) : bool * DropState * Compaction) ← drop_entry kLittleEndian ucmp (smallest_snapshot cs) key ds (compaction cs);
    let cs := set_compaction c cs in
    '((s, cs, db) : Status * CompactionState * DBState) ← (if drop then Some (OK, cs, db) else add_entry key value input_status cs db);
    Some (s, ds, cs, db).

(** Every round moves the input forward. *)
Fixpoint compaction_loop (fuel round : nat) (input : I) (ds : DropState) (cs : CompactionState) (db : DBState) : option (Status * I * CompactionState * DBState) :=
  if Valid input && negb (shutting_down_ round) then
    match fuel with
    | O => None
    | S fuel' =>
        let db := others round db in
        k ← key input;
        v ← value input;
        '((s, ds, cs, db) : Status * DropState * CompactionState * DBState) ← compaction_round k v (status input) ds cs db;
        if negb (ok s) then Some (s, input, cs, db)
        else input ← Next input; compaction_loop fuel' (S round) input ds cs db
    end
  else
    Some (if shutting_down_ round then default OK (new_Status kLittleEndian kIOError (bytes_of "Deleting DB during compaction") []) else OK, input, cs, db).

(** [snapshots_], the oldest one first. *)
Definition oldest_snapshot (snapshots : list Z) (last_sequence : Z) : Z := match snapshots with [] => last_sequence | s :: _ => s end.

(** What [InstallCompactionResults] hands to [LogAndApply]. *)
Definition compaction_results (cs : CompactionState) : VersionEdit :=
  let c := compaction cs in
  fold_left (fun e o => AddFile (level_ c + 1) (out_number o) (out_file_size o) (out_smallest o) (out_largest o) e) (outputs cs) (AddInputDeletions c (edit_ c)).

(** The status and, when all went well, the edit to be applied.  [NumLevelFiles] is that of [versions_]; [input] is the iterator that [MakeInputIterator] gives. *)
Definition DoCompactionWork (fuel : nat) (NumLevelFiles : Z -> Z) (c : Compaction) (snapshots : list Z) (last_sequence : Z) (input : I) (db : DBState) : option (Status * option VersionEdit * CompactionState * DBState) :=
  if NumLevelFiles (level_ c) <=? 0 then None else
  let cs := MkCompaction c (oldest_snapshot snapshots last_sequence) [] None 0 in
  input ← SeekToFirst input;
  '((s, input, cs, db) : Status * I * CompactionState * DBState) ← compaction_loop fuel 0 input new_DropState cs db;
  '((s, cs, db) : Status * CompactionState * DBState) ← (if ok s then match builder cs with Some _ => FinishCompactionOutputFile (status input) cs db | None => Some (s, cs, db) end else Some (s, cs, db));
  let s := if ok s then status input else s in
  Some (s, if ok s then Some (compaction_results cs) else None, cs, db).

(** ** db/builder.cc *)

Definition with_file (size : Z) (s l : list byte) (m : FileMetaData) : FileMetaData := MkFile (f_refs m) (allowed_seeks m) (f_number m) size s l.

Fixpoint build_loop (fuel : nat) (iter : I) (l : list byte) (b : Rep) : option (I * list byte * Rep) :=
  if Valid iter then
    match fuel with
    | O => None
    | S fuel' => k ← key iter; v ← value iter; b ← tb_Add kLittleEndian k v b; iter ← Next iter; build_loop fuel' iter k b
    end
  else Some (iter, l, b).

(** The table in the file that was opened, and the end of its builder. *)
Definition write_table (fuel : nat) (iter : I) (f : F) (meta : FileMetaData) (t : TableCache) : option (Status * FileMetaData * I * TableCache) :=
  b ← new_TableBuilder (options_ t) f;
  first ← key iter;
  '((iter, l, b) : I * list byte * Rep) ← build_loop fuel iter (largest meta) b;
  '((s, b) : Status * Rep) ← tb_Finish kLittleEndian b;
  let size := if ok s then FileSize b else f_size meta in
  if negb (destroy_ok b) || (ok s && (size <=? 0)) then None
  else
    let '(s, e) := close_file s (tb_file b) (env_ t) in
    let t := set_env e t in
    let meta := with_file size first l meta in
    if ok s then '(s, t) ← verify_table (f_number meta) size t; Some (s, meta, iter, t) else Some (s, meta, iter, t).

(** An error of the iterator comes first; the file is kept when it is a good table. *)
Definition finish_build (fname : list byte) (s : Status) (meta : FileMetaData) (iter : I) (t : TableCache) : Status * FileMetaData * I * TableCache :=
  let s := if ok (status iter) then s else status iter in
  (s, meta, iter, if ok s && (0 <? f_size meta) then t else set_env (FileName.DeleteFile fname (env_ t)).2 t).

Definition BuildTable (fuel : nat) (iter : I) (meta : FileMetaData) (t : TableCache) : option (Status * FileMetaData * I * TableCache) :=
  let meta := with_file 0 (smallest meta) (largest meta) meta in
  match SeekToFirst iter, TableFileName (dbname_ t) (f_number meta) with
  | Some iter, Some fname =>
      if Valid iter then
        let '(s, file, e) := NewWritableFile fname (env_ t) in
        let t := set_env e t in
        if negb (ok s) then Some (s, meta, iter, t)
        else
          match file with
          | Some f => '((s, meta, iter, t) : Status * FileMetaData * I * TableCache) ← write_table fuel iter f meta t; Some (finish_build fname s meta iter t)
          | None => None
          end
      else Some (finish_build fname OK meta iter t)
  | _, _ => None
  end.
End Compact.
