(* ===== verification/CompactProps.v ===== *)
(** * Compactions drop only what no snapshot sees; tables hold what they are built from

    [IsBaseLevelForKey] moves its pointers forward only, so it answers rightly
    for keys that come in order.  The decisions for the entries of a compaction
    are a plan that its loop carries out; what the plan keeps reads like its
    inputs. *)
From S2P Require Import Prelude Varint Coding CodingProps Comparator DbFormat DbFormatProps Status Iter Block TwoLevel Interfaces Format Table TableBuilder TableLayout TableFinish TableCorrect FilterBlock FilterBlockProps FormatProps FileName VersionEdit VersionSet TableCache VersionProps VersionGet Compact.

Section Drop.
Context {le : bool} {user : Comparator} {uvalid : list byte -> Prop} {Huser : ComparatorOk user uvalid}.
Context {Hinj : forall a b, uvalid a -> uvalid b -> @Compare user a b = Some 0 -> a = b}.

Abbreviation icmp := (InternalKeyComparator le user).
Abbreviation ivalid := (valid_internal (valid := uvalid)).
Abbreviation ilt := (key_lt icmp).
Abbreviation ile := (key_le icmp).
Abbreviation ult := (key_lt user).
Abbreviation ule := (key_le user).
Abbreviation proper_key := (proper (uvalid := uvalid)).
Abbreviation good_file := (file_ok (le := le) (user := user) (uvalid := uvalid)).
Abbreviation start f := (ukey (smallest f)).
Abbreviation limit f := (ukey (largest f)).

(** ** The levels behind the outputs *)

(** Some file of a level from [lvl] on has the user key in its range. *)
Definition in_deeper (files_ : list (list FileMetaData)) (lvl : nat) (u : list byte) : Prop :=
  exists l files f, (lvl <= l)%nat /\ files_ !! l = Some files /\ f ∈ files /\ ule (start f) u /\ ule u (limit f).

(** The pointers into the levels have not passed a file that may still have the key. *)
Definition pointers_behind (c : Compaction) (u : list byte) : Prop :=
  forall l files ptr i f, input_files_ c !! l = Some files -> level_ptrs_ c !! l = Some ptr -> (i < ptr)%nat -> files !! i = Some f -> ult (limit f) u.

(** What no operation on a compaction but [IsBaseLevelForKey] changes. *)
Definition same_inputs (c c' : Compaction) : Prop := level_ c' = level_ c /\ input_files_ c' = input_files_ c /\ grandparents_ c' = grandparents_ c.

Record compaction_ok (c : Compaction) : Prop := {
  co_level : 0 <= level_ c;
  co_files : levels_sorted (le := le) (user := user) (uvalid := uvalid) (input_files_ c);
  co_ptrs : length (level_ptrs_ c) = 7%nat;
  co_grand : Forall good_file (grandparents_ c);
}.

Lemma pointers_later c u u' : compaction_ok c -> uvalid u -> uvalid u' -> ule u u' -> pointers_behind c u -> pointers_behind c u'.
Proof using Huser.
  intros Hc Hu Hu' Hle Hp l files ptr i f Ef Ep Hi Ei. destruct (proj2 (co_files _ Hc) _ _ Ef) as (Hok & _).
  destruct (file_users (le := le) f) as (_ & Hl & _); [by apply (proj1 (Forall_lookup _ _) Hok i)|]. apply (key_lt_le_trans (valid := uvalid) _ u); try done. by apply (Hp l files ptr i f).
Qed.

Lemma advance_level_spec u files0 : uvalid u -> Forall good_file files0 -> disjoint_sorted (le := le) (user := user) files0 -> forall files ptr, files0 = take ptr files0 ++ files ->
  (forall i f, (i < ptr)%nat -> files0 !! i = Some f -> ult (limit f) u) ->
  exists found ptr', advance_level user u files ptr = Some (found, ptr') /\ (forall i f, (i < ptr')%nat -> files0 !! i = Some f -> ult (limit f) u) /\
    (found = true <-> exists f, f ∈ files0 /\ ule (start f) u /\ ule u (limit f)).
Proof using Huser.
  intros Hu Hok Hs. induction files as [|f files IH]; intros ptr E Hbelow; cbn [advance_level].
  - exists false, ptr. split; [done|]. split; [done|]. split; [done|]. intros (f & Hin & _ & Hle). exfalso. rewrite app_nil_r in E. apply list_elem_of_lookup_1 in Hin as [i Ei].
    assert (i < ptr)%nat as Hi. { rewrite E in Ei. apply lookup_lt_Some in Ei. rewrite length_take in Ei. lia. } by apply (ult_not_ule (uvalid := uvalid) _ _ (Hbelow i f Hi Ei)).
  - assert (ptr < length files0)%nat as Hlen. { apply (f_equal length) in E. rewrite length_app, length_take in E. simpl in E. lia. }
    assert (files0 !! ptr = Some f) as Ef. { rewrite E. rewrite lookup_app_r by (rewrite length_take; lia). by replace (ptr - length (take ptr files0))%nat with 0%nat by (rewrite length_take; lia). }
    pose proof (proj1 (Forall_lookup _ _) Hok _ _ Ef) as Hf. destruct (file_users (le := le) f Hf) as (H1 & H2 & E1 & E2 & _). rewrite E2. cbn [mbind option_bind].
    destruct (ucmp_defined u (limit f) Hu H2) as (r & -> & _ & Hle). cbn [mbind option_bind]. destruct (Z.leb_spec r 0) as [Hr|Hr].
    + rewrite E1. cbn [mbind option_bind]. destruct (ucmp_defined u (start f) Hu H1) as (r' & -> & Hlt & _). cbn [mbind option_bind]. exists (0 <=? r'), ptr. split; [done|]. split; [done|]. split.
      * intros H0. exists f. split; [by eapply list_elem_of_lookup_2|]. split; [|by apply Hle]. destruct (key_total (valid := uvalid) (cmp := @Compare user) u (start f) Hu H1) as [H|]; [apply Hlt in H; lia|done].
      * intros (g & Hin & Hg1 & Hg2). destruct (Z.leb_spec 0 r') as [|H0]; [done|]. exfalso. apply Hlt in H0. apply list_elem_of_lookup_1 in Hin as [j Ej].
        destruct (decide (j < ptr)%nat) as [Hj|Hj]; [by apply (ult_not_ule (uvalid := uvalid) _ _ (Hbelow j g Hj Ej))|]. pose proof (proj1 (Forall_lookup _ _) Hok _ _ Ej) as Hgo. destruct (file_users (le := le) g Hgo) as (H3 & _).
        apply (ult_not_ule (uvalid := uvalid) _ _ H0). apply (ule_trans (uvalid := uvalid) _ (start g)); [done|done|done| |done]. apply (ile_ukey (le := le)); [apply Hf|apply Hgo|]. apply (smallest_sorted files0 ptr j); [done|done|lia|done|done].
    + apply IH.
      * rewrite (take_S_r _ _ _ Ef), <- app_assoc. exact E.
      * intros i g Hi Ei. destruct (decide (i = ptr)) as [-> |Hne]; [|apply (Hbelow i g); [lia|done]]. assert (g = f) as -> by congruence.
        destruct (key_total (valid := uvalid) (cmp := @Compare user) (limit f) u H2 Hu) as [|H]; [done|]. apply Hle in H. lia.
Qed.

Lemma in_deeper_next files_ lvl files u : files_ !! lvl = Some files -> ~ (exists f, f ∈ files /\ ule (start f) u /\ ule u (limit f)) -> in_deeper files_ lvl u -> in_deeper files_ (S lvl) u.
Proof.
  intros Ef Hno (l & files' & f & Hl & Ef' & Hin & Hr). exists l, files', f. split; [|done]. destruct (decide (l = lvl)) as [-> |]; [|lia].
  destruct Hno. exists f. assert (files' = files) as <- by congruence. done.
Qed.

Lemma past_levels c lvl u : compaction_ok c -> 7 <= Z.of_nat lvl -> ~ in_deeper (input_files_ c) lvl u.
Proof.
  intros Hc H7 (l & files & f & Hl & Ef & _). apply lookup_lt_Some in Ef. pose proof (proj1 (co_files _ Hc)) as Hlen. unfold kNumLevels in Hlen. lia.
Qed.

Lemma base_level_loop_spec u : uvalid u -> forall fuel lvl c, (7 <= fuel + lvl)%nat -> (0 < lvl)%nat -> compaction_ok c -> pointers_behind c u ->
  exists b c', base_level_loop user fuel lvl u c = Some (b, c') /\ same_inputs c c' /\ compaction_ok c' /\ pointers_behind c' u /\ (b = true -> ~ in_deeper (input_files_ c) lvl u).
Proof using Huser.
  intros Hu. induction fuel as [|fuel IH]; intros lvl c Hf Hl Hc Hp; cbn [base_level_loop]; unfold kNumLevels;
    (destruct (Z.ltb_spec (Z.of_nat lvl) 7) as [H7|H7]; [|exists true, c; do 4 (split; [done|]); intros _; by apply past_levels]); [lia|].
  destruct (level_files _ (Z.of_nat lvl) (co_files _ Hc)) as [files Ef]; [unfold kNumLevels; lia|]. rewrite Nat2Z.id in Ef. rewrite Ef. cbn [mbind option_bind].
  destruct (lookup_lt_is_Some_2 (level_ptrs_ c) lvl) as [ptr Ep]; [rewrite (co_ptrs _ Hc); lia|]. rewrite Ep. cbn [mbind option_bind].
  destruct (proj2 (co_files _ Hc) _ _ Ef) as (Hok & _ & Hs & _).
  destruct (advance_level_spec u files Hu Hok (Hs Hl) (drop ptr files) ptr) as (found & ptr' & -> & Hb & Hfound); [by rewrite take_drop|intros i f Hi Ei; by apply (Hp lvl files ptr i f)|]. cbn [mbind option_bind].
  assert (compaction_ok (set_level_ptr lvl ptr' c)) as Hc'. { destruct Hc as [A B D G]. constructor; try done. simpl. by rewrite length_insert. }
  assert (pointers_behind (set_level_ptr lvl ptr' c) u) as Hp'.
  { intros l files' p i f Ef' Ep' Hi Ei. simpl in Ef', Ep'. destruct (decide (l = lvl)) as [-> |Hne]; [|rewrite list_lookup_insert_ne in Ep' by done; by apply (Hp l files' p i f)].
    rewrite list_lookup_insert_eq in Ep' by (rewrite (co_ptrs _ Hc); lia). assert (files' = files) as -> by congruence. assert (p = ptr') as -> by congruence. by apply (Hb i). }
  destruct found; [exists false, (set_level_ptr lvl ptr' c); do 4 (split; [done|]); done|].
  destruct (IH (S lvl) (set_level_ptr lvl ptr' c)) as (b & c' & -> & Hsame & Hc2 & Hp2 & Hno); [lia|lia|done|done|]. exists b, c'. split; [done|]. split; [done|]. split; [done|]. split; [done|].
  intros Hbt Hin. apply (Hno Hbt). apply (in_deeper_next _ _ files); [done| |done]. intros Hex. by apply Hfound in Hex.
Qed.

Lemma IsBaseLevelForKey_spec u c : uvalid u -> compaction_ok c -> pointers_behind c u ->
  exists b c', IsBaseLevelForKey user u c = Some (b, c') /\ same_inputs c c' /\ compaction_ok c' /\ pointers_behind c' u /\ (b = true -> ~ in_deeper (input_files_ c) (Z.to_nat (level_ c + 2)) u).
Proof using Huser. intros Hu Hc Hp. pose proof (co_level _ Hc). apply base_level_loop_spec; [done| |lia|done|done]. unfold kNumLevels. lia. Qed.

Lemma pass_grandparents_defined k : ivalid k -> forall gs i seen bytes, Forall good_file gs -> exists r, pass_grandparents le user k gs i seen bytes = Some r.
Proof using Huser.
  intros Hk. induction gs as [|f gs IH]; intros i seen bytes Hgs; cbn [pass_grandparents]; [by eexists|]. inversion Hgs as [|? ? Hf Hgs']; subst.
  destruct (ivalid_ukey (uvalid := uvalid) (largest f)) as (_ & _ & ->); [apply Hf|]. cbn [mbind option_bind]. destruct (icmp_defined (le := le) (user := user) (uvalid := uvalid) k (largest f)) as (r & -> & _); [done|apply Hf|]. cbn [mbind option_bind].
  destruct (0 <? r); [by apply IH|by eexists].
Qed.

Lemma ShouldStopBefore_spec mfs k c : 0 <= 10 * mfs < 2 ^ 31 -> ivalid k -> compaction_ok c ->
  exists b c', ShouldStopBefore le user mfs k c = Some (b, c') /\ same_inputs c c' /\ compaction_ok c' /\ level_ptrs_ c' = level_ptrs_ c.
Proof using Huser.
  intros Hm Hk Hc. unfold ShouldStopBefore. destruct (pass_grandparents_defined k Hk (drop (grandparent_index_ c) (grandparents_ c)) (grandparent_index_ c) (seen_key_ c) (overlapped_bytes_ c)) as [[i bytes] ->].
  { apply Forall_drop, (co_grand _ Hc). }
  cbn [mbind option_bind]. unfold MaxGrandParentOverlapBytes, TargetFileSize. assert (s32 mfs = mfs) as -> by (apply sint_id; lia). rewrite int_mul_defined by lia. cbn [mbind option_bind].
  destruct Hc. destruct (_ <? _); eexists _, _; (split; [reflexivity|]); (split; [done|]); split; done.
Qed.

(** ** What a read sees *)

Definition seq_of (k : list byte) : Z := match ParseInternalKey le k (Parsed [] 0 0) with Some (_, p) => sequence p | None => 0 end.
Definition type_of (k : list byte) : Z := match ParseInternalKey le k (Parsed [] 0 0) with Some (_, p) => vtype p | None => 0 end.

(** The entry is a version of [u] that a reader at [s] may see. *)
Definition seen_by (s : Z) (u : list byte) (e : entry) : bool := bool_decide (ukey e.1 = u) && (seq_of e.1 <=? s).

(** What a reader at [s] finds for [u] in the entries, and else in what lies deeper: the newest version decides. *)
Definition read_from (es : list entry) (deeper : Z -> list byte -> option (list byte)) (s : Z) (u : list byte) : option (list byte) :=
  match List.find (seen_by s u) es with
  | Some e => if type_of e.1 =? kTypeDeletion then None else Some e.2
  | None => deeper s u
  end.

Lemma read_cons e es deeper s u : read_from (e :: es) deeper s u =
  if seen_by s u e then (if type_of e.1 =? kTypeDeletion then None else Some e.2) else read_from es deeper s u.
Proof. unfold read_from. simpl. by destruct (seen_by s u e). Qed.

Lemma seen_own s e : seen_by s (ukey e.1) e = (seq_of e.1 <=? s).
Proof. unfold seen_by. by rewrite bool_decide_true. Qed.

(** What the loop decides for an entry: whether the output is to be finished, whether the entry is dropped, and the compaction after each decision. *)
Record Step := MkStep { step_entry : entry; step_stop : bool; step_stopped : Compaction; step_drop : bool; step_dropped : Compaction }.

Fixpoint compaction_plan (max_file_size smallest_snapshot : Z) (es : list entry) (ds : DropState) (c : Compaction) : option (list Step) :=
  match es with
  | [] => Some []
  | e :: es' =>
      '(stop, c1) ← ShouldStopBefore le user max_file_size e.1 c;
      '(drop, ds, c2) ← drop_entry le user smallest_snapshot e.1 ds c1;
      plan ← compaction_plan max_file_size smallest_snapshot es' ds c2;
      Some (MkStep e stop c1 drop c2 :: plan)
  end.

Fixpoint kept (plan : list Step) : list entry :=
  match plan with [] => [] | st :: plan' => if step_drop st then kept plan' else step_entry st :: kept plan' end.

(** The last sequence number of the user key, when it is the current one. *)
Definition last_of (ds : DropState) (u : list byte) : Z := if has_current_user_key ds && bool_decide (current_user_key ds = u) then last_sequence_for_key ds else kMaxSequenceNumber.

Lemma next_user_key_spec u ds : uvalid u -> (has_current_user_key ds = true -> uvalid (current_user_key ds)) ->
  next_user_key user u ds = Some (MkDrop u true (last_of ds u)).
Proof using Huser Hinj.
  intros Hu Hc. unfold next_user_key, last_of. destruct ds as [cu has ls]; simpl in *. destruct has; simpl; [|done].
  destruct (compare_defined u cu Hu (Hc eq_refl)) as [r Er]. rewrite Er. simpl. destruct (Z.eqb_spec r 0) as [-> |Hr].
  - assert (u = cu) as -> by (apply Hinj; [done|by apply Hc|done]). by rewrite bool_decide_true.
  - rewrite bool_decide_false; [done|]. intros ->. rewrite (compare_refl u Hu) in Er. congruence.
Qed.

Definition obsolete (smallest_snapshot : Z) (k : list byte) (c : Compaction) : Prop :=
  type_of k = kTypeDeletion /\ seq_of k <= smallest_snapshot /\ ~ in_deeper (input_files_ c) (Z.to_nat (level_ c + 2)) (ukey k).

Lemma drop_entry_spec S k ds c : proper_key k -> (has_current_user_key ds = true -> uvalid (current_user_key ds)) -> compaction_ok c -> pointers_behind c (ukey k) ->
  exists drop c', drop_entry le user S k ds c = Some (drop, MkDrop (ukey k) true (seq_of k), c') /\ same_inputs c c' /\ compaction_ok c' /\ pointers_behind c' (ukey k) /\
    (if drop then last_of ds (ukey k) <= S \/ obsolete S k c else S < last_of ds (ukey k)).
Proof using Huser Hinj.
  intros Hk Hcu Hc Hp. destruct (entry_parse (le := le) k Hk) as (p & Ep & Eu & Ht & _ & _). destruct (ivalid_ukey k (proper_ivalid k Hk)) as (Hu & _).
  unfold obsolete, seq_of, type_of, drop_entry. rewrite Ep. cbn [mbind option_bind negb]. rewrite Eu, (next_user_key_spec _ _ Hu Hcu). cbn [mbind option_bind last_sequence_for_key current_user_key has_current_user_key].
  destruct (Z.leb_spec (last_of ds (ukey k)) S) as [Hl|Hl]; [exists true, c; do 4 (split; [done|]); by left|].
  destruct (Z.eqb_spec (vtype p) kTypeDeletion) as [Hd|Hd]; cbn [andb]; [|exists false, c; do 4 (split; [done|]); done].
  destruct (Z.leb_spec (sequence p) S) as [Hq|Hq]; [|exists false, c; do 4 (split; [done|]); done].
  destruct (IsBaseLevelForKey_spec (ukey k) c Hu Hc Hp) as (b & c' & -> & Hs & Hc' & Hp' & Hb). cbn [mbind option_bind].
  exists b, c'. do 4 (split; [done|]). destruct b; [|done]. right. split; [done|]. split; [done|]. by apply Hb.
Qed.

Lemma same_key_behind k k' : proper_key k -> proper_key k' -> ilt k k' -> ukey k = ukey k' -> seq_of k' <= seq_of k.
Proof using Huser.
  intros Hk Hk' Hlt Eu. destruct (entry_parse (le := le) k Hk) as (p & Ep & _ & Ht & Hs & Ek). destruct (entry_parse (le := le) k' Hk') as (p' & Ep' & _ & Ht' & Hs' & Ek').
  unfold seq_of. rewrite Ep, Ep'. destruct (ivalid_ukey k (proper_ivalid k Hk)) as (Hu & _). destruct Hlt as (r & Er & Hr). revert Er. rewrite Ek, Ek', <- Eu. simpl.
  assert (forall q, 0 <= sequence q <= kMaxSequenceNumber -> (vtype q = kTypeDeletion \/ vtype q = kTypeValue) -> 0 <= packed (sequence q) (vtype q) < 2 ^ 64) as Hr64.
  { unfold packed, kMaxSequenceNumber, kTypeDeletion, kTypeValue. change (2 ^ 64) with (256 * 2 ^ 56). change (Z.shiftl 1 56 - 1) with (2 ^ 56 - 1). lia. }
  rewrite (internal_compare_spec (user := user) (le := le) _ _ _ _ 0) by (try apply Hr64; try done; by apply compare_refl). simpl. intros [= <-]. unfold packed, kTypeDeletion, kTypeValue in *. lia.
Qed.

Lemma sorted_head e es : keys_sorted icmp (e :: es) -> keys_sorted icmp es /\ forall e', e' ∈ es -> ilt e.1 e'.1.
Proof.
  intros Hs. split; [intros i j a b Hij Ea Eb; apply (Hs (S i) (S j)); [lia|done|done]|].
  intros e' [i Ei]%list_elem_of_lookup_1. apply (Hs 0%nat (S i)); [lia|done|done].
Qed.

(** The current user key is not behind the entries that are left, which are older versions if they have it. *)
Definition state_ok (ds : DropState) (es : list entry) : Prop :=
  has_current_user_key ds = true -> uvalid (current_user_key ds) /\
    forall e, e ∈ es -> ule (current_user_key ds) (ukey e.1) /\ (ukey e.1 = current_user_key ds -> seq_of e.1 <= last_sequence_for_key ds).

Lemma last_of_eq ds u S : S < kMaxSequenceNumber -> last_of ds u <= S -> has_current_user_key ds = true /\ current_user_key ds = u.
Proof. unfold last_of. intros HS. destruct (has_current_user_key ds), (bool_decide_reflect (current_user_key ds = u)); simpl; (done || lia). Qed.

Lemma find_none {A} (p : A -> bool) l : (forall x, x ∈ l -> p x = false) -> List.find p l = None.
Proof. induction l as [|x l IH]; intros H; [done|]. simpl. rewrite (H x) by (by left). apply IH. intros y Hy. apply H. by right. Qed.

Lemma state_next e es : Forall (fun e => proper_key e.1) (e :: es) -> keys_sorted icmp (e :: es) -> state_ok (MkDrop (ukey e.1) true (seq_of e.1)) es.
Proof using Huser.
  intros Hp Hs _. apply Forall_cons in Hp as [He Hes]. rewrite Forall_forall in Hes. destruct (sorted_head _ _ Hs) as [_ Hlt]. simpl. pose proof (proper_ivalid _ He) as Hiv.
  split; [exact (proj1 (ivalid_ukey (uvalid := uvalid) _ Hiv))|]. intros e' Hin. pose proof (Hes _ Hin) as He'. split.
  - apply (ile_ukey (le := le)); [done|by apply proper_ivalid|]. by apply key_lt_le, Hlt.
  - intros Eu. apply same_key_behind; [done|done|by apply Hlt|done].
Qed.

(** Behind another user key no version of the current one is left. *)
Lemma key_passed ds e es : state_ok ds (e :: es) -> Forall (fun e => proper_key e.1) (e :: es) -> keys_sorted icmp (e :: es) -> has_current_user_key ds = true ->
  current_user_key ds <> ukey e.1 -> forall s e', e' ∈ e :: es -> seen_by s (current_user_key ds) e' = false.
Proof using Huser Hinj.
  intros Hst Hp Hs Hh Hne s e' Hin. unfold seen_by. destruct (bool_decide_reflect (ukey e'.1 = current_user_key ds)) as [E|]; [|done]. destruct Hne.
  destruct (Hst Hh) as [Hcu Hall]. assert (forall x, x ∈ e :: es -> uvalid (ukey x.1)) as Hv. { intros x Hx. rewrite Forall_forall in Hp. exact (proj1 (ivalid_ukey (uvalid := uvalid) _ (proper_ivalid _ (Hp x Hx)))). }
  apply (ule_antisym (Huser := Huser) (Hinj := Hinj)); [done|apply Hv; by left|apply Hall; by left|]. rewrite <- E. destruct (state_next _ _ Hp Hs eq_refl) as [_ H]. simpl in H. apply elem_of_cons in Hin as [-> |Hin].
  - apply (ule_refl (uvalid := uvalid)), Hv. by left.
  - by apply H.
Qed.

(** ** No reader notices *)

Section View.
Context (deeper : Z -> list byte -> option (list byte)) (mfs S : Z).
Context (HS : 0 <= S < kMaxSequenceNumber) (Hmfs : 0 <= 10 * mfs < 2 ^ 31).

(** What a reader at [s] finds after the compaction, in the kept entries: nothing of a user key with a version already seen that every reader sees. *)
Definition keeps (ds : DropState) (es kept : list entry) : Prop :=
  (forall e, e ∈ kept -> e ∈ es) /\
  forall s u, S <= s -> if last_of ds u <=? S then List.find (seen_by s u) kept = None else read_from kept deeper s u = read_from es deeper s u.

Lemma last_of_own u q : last_of (MkDrop u true q) u = q.
Proof. unfold last_of. simpl. by rewrite bool_decide_true. Qed.

Lemma last_of_other u v q : v <> u -> last_of (MkDrop v true q) u = kMaxSequenceNumber.
Proof. intros H. unfold last_of. simpl. by rewrite bool_decide_false. Qed.

Lemma keeps_next ds c e es kept (drop : bool) : Forall (fun e => proper_key e.1) (e :: es) -> keys_sorted icmp (e :: es) -> state_ok ds (e :: es) ->
  (forall s u, ~ in_deeper (input_files_ c) (Z.to_nat (level_ c + 2)) u -> deeper s u = None) ->
  (if drop then last_of ds (ukey e.1) <= S \/ obsolete S e.1 c else S < last_of ds (ukey e.1)) ->
  keeps (MkDrop (ukey e.1) true (seq_of e.1)) es kept -> keeps ds (e :: es) (if drop then kept else e :: kept).
Proof using HS Huser Hinj.
  intros Hp Hs Hst Hdeep Hdrop [Hin Hk]. assert (forall x, x ∈ (if drop then kept else e :: kept) -> x ∈ e :: es) as Hin'.
  { intros x. destruct drop; [intros H; right; by apply Hin|]. intros [-> |H]%elem_of_cons; [by left|right; by apply Hin]. }
  split; [done|]. intros s u Hsu. specialize (Hk s u Hsu). destruct (Z.leb_spec (last_of ds u) S) as [Hl|Hl].
  - destruct (last_of_eq ds u S (proj2 HS) Hl) as [Hh <-]. destruct (decide (current_user_key ds = ukey e.1)) as [Eu|Hne].
    + rewrite <- Eu in Hdrop, Hk. destruct drop; [|lia]. rewrite last_of_own in Hk. destruct (Hst Hh) as [_ Hall]. destruct (Hall e ltac:(by left)) as [_ Hq].
      unfold last_of in Hl. rewrite Hh, bool_decide_true in Hl by done. simpl in Hl. specialize (Hq (eq_sym Eu)). destruct (Z.leb_spec (seq_of e.1) S); [done|lia].
    + apply find_none. intros x Hx. by apply (key_passed ds e es), Hin'.
  - destruct (decide (ukey e.1 = u)) as [<- |Hne].
    + rewrite last_of_own in Hk. destruct drop.
      * destruct Hdrop as [|(Hd & Hq & Hno)]; [lia|]. rewrite read_cons, seen_own, Hd. destruct (Z.leb_spec (seq_of e.1) S), (Z.leb_spec (seq_of e.1) s); try lia.
        unfold read_from. rewrite Hk. by apply Hdeep.
      * rewrite !read_cons, seen_own. destruct (Z.leb_spec (seq_of e.1) s) as [Hq|Hq]; [done|]. destruct (Z.leb_spec (seq_of e.1) S); [lia|done].
    + rewrite last_of_other in Hk by done. destruct (Z.leb_spec kMaxSequenceNumber S); [lia|]. rewrite read_cons. unfold seen_by. rewrite bool_decide_false by done. simpl.
      destruct drop; [done|]. rewrite read_cons. unfold seen_by. by rewrite bool_decide_false.
Qed.

Lemma compaction_plan_spec : forall es ds c, Forall (fun e => proper_key e.1) es -> keys_sorted icmp es -> state_ok ds es -> compaction_ok c ->
  (forall e, e ∈ es -> pointers_behind c (ukey e.1)) ->
  (forall s u, ~ in_deeper (input_files_ c) (Z.to_nat (level_ c + 2)) u -> deeper s u = None) ->
  exists plan, compaction_plan mfs S es ds c = Some plan /\ step_entry <$> plan = es /\ keeps ds es (kept plan).
Proof using HS Hmfs Huser Hinj.
  induction es as [|e es IH]; intros ds c Hp Hs Hst Hc Hb Hdeep.
  { exists []. split; [done|]. split; [done|]. split; [done|]. intros s u _. by destruct (_ <=? _). }
  cbn [compaction_plan]. pose proof Hp as Hp0. apply Forall_cons in Hp as [He Hes]. destruct (ShouldStopBefore_spec mfs e.1 c Hmfs (proper_ivalid _ He) Hc) as (b & c1 & -> & (El & Ef & Eg) & Hc1 & Eptr). cbn [mbind option_bind].
  assert (forall x, x ∈ e :: es -> pointers_behind c1 (ukey x.1)) as Hb1. { intros x Hx l files ptr i f E1 E2. rewrite Ef in E1. rewrite Eptr in E2. by apply (Hb x Hx l files ptr i f). }
  destruct (drop_entry_spec S e.1 ds c1 He ltac:(intros H; by apply (Hst H)) Hc1 (Hb1 e ltac:(by left))) as (drop & c2 & -> & (El2 & Ef2 & _) & Hc2 & Hb2 & Hd). cbn [mbind option_bind].
  destruct (state_next e es Hp0 Hs eq_refl) as [Hu Hle]. simpl in Hu, Hle.
  destruct (IH (MkDrop (ukey e.1) true (seq_of e.1)) c2) as (plan & -> & Ees & Hk); [done|by apply (sorted_head e es)|by apply state_next|done| | |].
  - intros x Hx. apply (pointers_later c2 (ukey e.1)); [done|done| |by apply Hle|done]. rewrite Forall_forall in Hes. exact (proj1 (ivalid_ukey (uvalid := uvalid) _ (proper_ivalid _ (Hes x Hx)))).
  - rewrite El2, Ef2, El, Ef. done.
  - simpl. eexists. split; [done|]. split; [by rewrite fmap_cons, Ees|]. simpl. apply (keeps_next ds c1 e es (kept plan) drop); try done. by rewrite El, Ef.
Qed.
End View.

(** ** The loop does what is planned *)

Section Loop.
Context {snappy : Snappy} {E F R : Type} {wf : WritableFile F} {raf : RandomAccessFile R} {env : Env E F} {renv : RandomAccessEnv E R}.
Context {C H CT HT : Type} {cache : Cache C H Block} {tcache : Cache CT HT (TableAndFile R)}.
Context (mfs : Z) (others : nat -> DBState (E := E) (C := C) (CT := CT) -> DBState (E := E) (C := C) (CT := CT)).

Abbreviation CState := (CompactionState (F := F)).
Abbreviation Database := (DBState (E := E) (C := C) (CT := CT)).

(** The compaction and the snapshot are not for the output files to change. *)
Definition same_plan (cs cs' : CState) : Prop := compaction cs' = compaction cs /\ smallest_snapshot cs' = smallest_snapshot cs.

(** A planned step: the output is finished, and the entry added, when it was so decided. *)
Definition write_step (round : nat) (st : Step) (cs : CState) (db : Database) : option (Status * CState * Database) :=
  let db := others round db in
  let cs := set_compaction (step_stopped st) cs in
  '((s, cs, db) : Status * CState * Database) ← (if bool_decide (is_Some (builder cs)) && step_stop st then FinishCompactionOutputFile le OK cs db else Some (OK, cs, db));
  if negb (ok s) then Some (s, cs, db)
  else
    let cs := set_compaction (step_dropped st) cs in
    if step_drop st then Some (OK, cs, db) else add_entry le (step_entry st).1 (step_entry st).2 OK cs db.

(** The steps in order, until one fails. *)
Fixpoint write_plan (round : nat) (plan : list Step) (cs : CState) (db : Database) : option (Status * CState * Database) :=
  match plan with
  | [] => Some (OK, cs, db)
  | st :: plan' =>
      '((s, cs, db) : Status * CState * Database) ← write_step round st cs db;
      if negb (ok s) then Some (s, cs, db) else write_plan (S round) plan' cs db
  end.

Lemma finish_same s cs db s' cs' db' : FinishCompactionOutputFile le s cs db = Some (s', cs', db') -> same_plan cs cs'.
Proof.
  unfold FinishCompactionOutputFile. destruct (builder cs) as [b|]; [|done]. cbn [mbind option_bind]. destruct (last (outputs cs)) as [out|]; [|done]. cbn [mbind option_bind].
  destruct (out_number out =? 0); [done|]. destruct (if ok s then _ else _) as [[s1 b1]|]; [|done]. cbn [mbind option_bind]. destruct (negb _); [done|].
  destruct (close_file _ _ _) as [s2 e]. destruct (ok s2 && _); [|by intros [= <- <- <-]].
  destruct (verify_table _ _ _ _) as [[s3 t]|]; [|done]. by intros [= <- <- <-].
Qed.

Lemma add_same k v cs db s' cs' db' : add_entry le k v OK cs db = Some (s', cs', db') -> same_plan cs cs'.
Proof.
  unfold add_entry. set (opened := match builder cs with None => _ | Some _ => _ end).
  assert (forall s1 cs1 db1, opened = Some (s1, cs1, db1) -> same_plan cs cs1) as Ho.
  { unfold opened, OpenCompactionOutputFile. destruct (builder cs) as [b|]; [by intros ??? [= <- <- <-]|]. unfold NewFileNumber. intros s1 cs1 db1. destruct (TableFileName _ _) as [fname|]; [|done]. cbn [mbind option_bind].
    destruct (NewWritableFile _ _) as [[s2 f] e]. destruct (ok s2); [|by intros [= <- <- <-]]. destruct f as [f|]; [|done]. destruct (new_TableBuilder _ _) as [b|]; [|done]. by intros [= <- <- <-]. }
  destruct opened as [[[s1 cs1] db1]|]; [|done]. cbn [mbind option_bind]. destruct (Ho _ _ _ eq_refl) as [E1 E2]. destruct (negb (ok s1)); [by intros [= <- <- <-]|].
  destruct (builder cs1) as [b|]; [|done]. destruct (tb_Add _ _ _ _) as [b1|]; [|done]. cbn [mbind option_bind]. destruct (_ <=? _).
  - intros [E3 E4]%finish_same. split; [by rewrite E3|by rewrite E4].
  - by intros [= <- <- <-].
Qed.

(** A round is the planned step. *)
Lemma round_step round e ds c S cs db stop c1 drop ds' c2 :
  compaction cs = c -> smallest_snapshot cs = S -> ShouldStopBefore le user mfs e.1 c = Some (stop, c1) -> drop_entry le user S e.1 ds c1 = Some (drop, ds', c2) ->
  match compaction_round le user mfs e.1 e.2 OK ds cs (others round db), write_step round (MkStep e stop c1 drop c2) cs db with
  | Some (s, ds2, cs2, db2), Some (s', cs3, db3) => s' = s /\ cs3 = cs2 /\ db3 = db2 /\ (ok s = true -> ds2 = ds' /\ compaction cs2 = c2 /\ smallest_snapshot cs2 = S)
  | None, None => True
  | _, _ => False
  end.
Proof.
  intros Ec ES Es Ed. unfold compaction_round, stop_before, write_step. rewrite Ec, Es. cbn [mbind option_bind step_stopped step_stop step_drop step_dropped step_entry builder set_compaction].
  set (before := match builder cs with Some _ => _ | None => _ end). set (before' := if bool_decide _ && _ then _ else _). assert (before' = before) as ->.
  { unfold before, before'. destruct (builder cs); simpl; [|done]. by destruct stop. }
  assert (forall s1 cs1 db1, before = Some (s1, cs1, db1) -> compaction cs1 = c1 /\ smallest_snapshot cs1 = S) as Hb.
  { unfold before. intros s1 cs1 db1. destruct (builder cs); [destruct stop|]; [intros [E1 E2]%finish_same|intros [= <- <- <-]..]; [by rewrite E1, E2|done..]. }
  destruct before as [[[s1 cs1] db1]|]; [|done]. cbn [mbind option_bind]. destruct (Hb _ _ _ eq_refl) as [E1 E2]. destruct (ok s1) eqn:Eo; simpl negb; cbn iota; [|do 3 (split; [done|]); congruence].
  rewrite E1, E2, Ed. cbn [mbind option_bind]. destruct drop; [do 3 (split; [done|]); done|].
  destruct (add_entry _ _ _ _ _ _) as [[[s2 cs2] db2]|] eqn:Ea; [|done]. cbn [mbind option_bind]. do 3 (split; [done|]). intros _. split; [done|]. apply add_same in Ea as [E3 E4]. by rewrite E3, E4.
Qed.

Context {I : Type} {it : Iterator I} {order : Comparator} {kvalid : list byte -> Prop} {es : list entry} {at_pos : I -> option nat -> Prop} {Hit : IteratorOk it order kvalid es at_pos}.
Context (shutting_down_ : nat -> bool) (Hrun : forall round, shutting_down_ round = false).

Definition pos_of (i : nat) : option nat := if decide (i < length es)%nat then Some i else None.

(** The result without the input. *)
Definition outcome (r : Status * I * CState * Database) : Status * CState * Database := let '(s, _, cs, db) := r in (s, cs, db).

Lemma loop_written : forall fuel round i input ds cs db plan, at_pos input (pos_of i) -> (length es - i <= fuel)%nat ->
  compaction_plan mfs (smallest_snapshot cs) (drop i es) ds (compaction cs) = Some plan ->
  outcome <$> compaction_loop le user mfs shutting_down_ others fuel round input ds cs db = write_plan round plan cs db.
Proof using Hit Hrun.
  induction fuel as [|fuel IH]; intros round i input ds cs db plan Hat Hf Hp; cbn [compaction_loop]; rewrite (it_valid _ _ Hat), Hrun; cbn [negb]; unfold pos_of in *;
    (destruct (decide (i < length es)%nat) as [Hi|Hi]; [|rewrite drop_ge in Hp by lia; injection Hp as <-; by rewrite bool_decide_false by (by intros [])]); [lia|].
  rewrite bool_decide_true by done. cbn [andb]. destruct (it_entry _ _ Hat) as (e & Ee & -> & ->). cbn [mbind option_bind]. rewrite (it_status _ _ Hat).
  rewrite (drop_S _ _ _ Ee) in Hp. cbn [compaction_plan] in Hp. destruct (ShouldStopBefore _ _ _ _ _) as [[stop c1]|] eqn:Es; [|done]. cbn [mbind option_bind] in Hp.
  destruct (drop_entry _ _ _ _ _ _) as [[[dr ds'] c2]|] eqn:Ed; [|done]. cbn [mbind option_bind] in Hp. destruct (compaction_plan _ _ (drop (S i) es) _ _) as [plan'|] eqn:Ep; [|done]. injection Hp as <-.
  pose proof (round_step round e ds _ _ cs db stop c1 dr ds' c2 eq_refl eq_refl Es Ed) as Hr. cbn [write_plan].
  destruct (compaction_round _ _ _ _ _ _ _ _ _) as [[[[s ds2] cs2] db2]|], (write_step _ _ _ _) as [[[s' cs3] db3]|]; try done. destruct Hr as (-> & -> & -> & Hok). cbn [mbind option_bind].
  destruct (ok s); [|done]. destruct (Hok eq_refl) as (-> & <- & Es2). simpl negb. cbn iota. destruct (it_next _ _ Hat) as (input' & -> & Hat'). cbn [mbind option_bind].
  apply (IH (S round) (S i)); [exact Hat'|lia|]. by rewrite Es2.
Qed.

Lemma loop_input : forall fuel round input p ds cs db s input' cs' db', at_pos input p ->
  compaction_loop le user mfs shutting_down_ others fuel round input ds cs db = Some (s, input', cs', db') -> status input' = OK.
Proof using Hit.
  induction fuel as [|fuel IH]; intros round input p ds cs db s input' cs' db' Hat; cbn [compaction_loop]; rewrite (it_valid _ _ Hat);
    (destruct p as [i|]; [|rewrite bool_decide_false by (by intros []); cbn [andb]; intros [= _ <- _ _]; by apply (it_status _ _ Hat)]); rewrite bool_decide_true by done; cbn [andb].
  - destruct (negb _); [done|]. intros [= _ <- _ _]. by apply (it_status _ _ Hat).
  - destruct (negb _); [|intros [= _ <- _ _]; by apply (it_status _ _ Hat)]. destruct (it_entry _ _ Hat) as (e & _ & -> & ->). cbn [mbind option_bind].
    destruct (compaction_round _ _ _ _ _ _ _ _ _) as [[[[s2 ds2] cs2] db2]|]; [|done]. cbn [mbind option_bind]. destruct (negb (ok s2)); [intros [= _ <- _ _]; by apply (it_status _ _ Hat)|].
    destruct (it_next _ _ Hat) as (input2 & -> & Hat2). cbn [mbind option_bind]. by apply (IH _ _ (next_pos es i)).
Qed.

(** The planned output files: the last one is finished at the end, and the edit moves the inputs to them. *)
Definition write_outputs (plan : list Step) (cs : CState) (db : Database) : option (Status * option VersionEdit * CState * Database) :=
  '((s, cs, db) : Status * CState * Database) ← write_plan 0 plan cs db;
  '((s, cs, db) : Status * CState * Database) ← (if ok s && bool_decide (is_Some (builder cs)) then FinishCompactionOutputFile le OK cs db else Some (s, cs, db));
  Some (s, if ok s then Some (compaction_results cs) else None, cs, db).

Lemma work_written fuel NumLevelFiles c snapshots last_sequence input p db plan : at_pos input p -> (length es <= fuel)%nat ->
  compaction_plan mfs (oldest_snapshot snapshots last_sequence) es new_DropState c = Some plan ->
  DoCompactionWork le user mfs shutting_down_ others fuel NumLevelFiles c snapshots last_sequence input db =
    if NumLevelFiles (level_ c) <=? 0 then None else write_outputs plan (MkCompaction c (oldest_snapshot snapshots last_sequence) [] None 0) db.
Proof using Hit Hrun.
  intros Hat Hf Hp. unfold DoCompactionWork, write_outputs. destruct (NumLevelFiles (level_ c) <=? 0); [done|]. destruct (it_first _ _ Hat) as (input0 & -> & Hat0). cbn [mbind option_bind]. set (cs := MkCompaction _ _ _ _ _).
  rewrite <- (loop_written fuel 0 0 input0 new_DropState cs db plan); [|unfold pos_of, first_pos in *; clear -Hat0; destruct es; exact Hat0|lia|done].
  destruct (compaction_loop _ _ _ _ _ _ _ _ _ _ _) as [[[[s input'] cs'] db']|] eqn:El; [|done]. pose proof (loop_input _ _ _ _ _ _ _ _ _ _ _ Hat0 El) as Hin. cbn [mbind option_bind fmap option_fmap option_map outcome]. rewrite Hin.
  destruct (ok s) eqn:Eo; cbn [andb]; [|simpl; by rewrite ?Eo]. destruct (builder cs'); simpl; [|by destruct s]. destruct (FinishCompactionOutputFile _ _ _ _) as [[[s2 cs2] db2]|]; [|done]. simpl.
  by destruct s2.
Qed.

(** C10. What a compaction writes.  For each of its sorted entries the loop of
    DoCompactionWork decides whether to finish the output file and whether to
    drop the entry; with fuel for all of them, the whole compaction is carrying out
    these decisions in order, until a file operation fails, and finishing the last
    file; all that could stop it first is the assertion that the level has files.
    No reader at the oldest snapshot or later can tell the entries that are kept
    from those of the inputs, together with what lies in the levels behind the
    outputs: a user key that no file there has in its range has no version there. *)
Theorem compaction_keeps_view c snapshots last_sequence deeper input p : 0 <= 10 * mfs < 2 ^ 31 -> 0 <= oldest_snapshot snapshots last_sequence < kMaxSequenceNumber ->
  compaction_ok c -> level_ptrs_ c = replicate 7 0%nat -> Forall (fun e => proper_key e.1) es -> keys_sorted icmp es -> at_pos input p ->
  (forall s u, ~ in_deeper (input_files_ c) (Z.to_nat (level_ c + 2)) u -> deeper s u = None) ->
  exists plan, step_entry <$> plan = es /\
    (forall fuel NumLevelFiles db, (length es <= fuel)%nat -> DoCompactionWork le user mfs shutting_down_ others fuel NumLevelFiles c snapshots last_sequence input db =
      if NumLevelFiles (level_ c) <=? 0 then None else write_outputs plan (MkCompaction c (oldest_snapshot snapshots last_sequence) [] None 0) db) /\
    (forall s u, oldest_snapshot snapshots last_sequence <= s -> read_from (kept plan) deeper s u = read_from es deeper s u).
Proof using Hit Hrun Huser Hinj.
  intros Hm HS Hc Hptr Hp Hs Hat Hdeep.
  destruct (compaction_plan_spec deeper mfs _ HS Hm es new_DropState c) as (plan & Epl & Ees & _ & Hk); [done|done|by intros|done| |done|].
  { intros e _ l files ptr i f _ Ept Hi. rewrite Hptr in Ept. apply lookup_replicate in Ept as [-> _]. lia. }
  exists plan. split; [done|]. split; [intros fuel files db Hf; by apply (work_written fuel files c snapshots last_sequence input p)|].
  intros s u Hsu. specialize (Hk s u Hsu). unfold last_of in Hk. simpl in Hk. destruct (Z.leb_spec kMaxSequenceNumber (oldest_snapshot snapshots last_sequence)); [lia|done].
Qed.
End Loop.
End Drop.

(** * A table is built from an iterator *)

Section Build.
Context {le : bool} {snappy : Snappy} {Hsnappy : SnappyOk snappy} {E F R : Type} {wf : WritableFile F} {contents : F -> list byte} {Hwf : WritableFileOk wf contents}.
Context {raf : RandomAccessFile R} {env : Env E F} {renv : RandomAccessEnv E R} {C H CT HT : Type} {cache : Cache C H Block} {tcache : Cache CT HT (TableAndFile R)}.
Context {valid : list byte -> Prop} {o : Options} {Hc : ComparatorOk (opt_comparator o) valid} {Hinterval : 1 <= opt_block_restart_interval o}.
Context {limit per_key : Z} {Hlimit : 0 <= limit} {Hper_key : 0 <= per_key}.
Context {Hpolicy : forall p name, filter_policy o = Some (p, name) -> FilterPolicyOk p valid limit /\ FilterPolicyBounds p valid per_key}.
Context {es : list entry} {Hes : Forall (fun e : entry => valid e.1) es} {Hsorted : keys_sorted (opt_comparator o) es}.
Context {Hfits : table_fits (o := o) (limit := limit) (per_key := per_key) es}.
Context {I : Type} {it : Iterator I} {order : Comparator} {kvalid : list byte -> Prop} {at_pos : I -> option nat -> Prop} {Hit : IteratorOk it order kvalid es at_pos}.

Lemma build_loop_spec : forall fuel i iter l b b', at_pos iter (if decide (i < length es)%nat then Some i else None) -> (length es - i <= fuel)%nat ->
  tb_AddAll (le := le) (drop i es) b = Some b' ->
  exists iter', build_loop le fuel iter l b = Some (iter', default l (fst <$> last (drop i es)), b') /\ at_pos iter' None.
Proof using Hit.
  induction fuel as [|fuel IH]; intros i iter l b b' Hat Hf Hb; cbn [build_loop]; rewrite (it_valid _ _ Hat);
    (destruct (decide (i < length es)%nat) as [Hi|Hi]; [|rewrite drop_ge in * by lia; injection Hb as <-; rewrite bool_decide_false by (by intros []); by exists iter]); [lia|].
  rewrite bool_decide_true by done. destruct (it_entry _ _ Hat) as (e & Ee & -> & ->). cbn [mbind option_bind]. rewrite (drop_S _ _ _ Ee) in *. cbn [tb_AddAll] in Hb.
  destruct (tb_Add _ _ _ _) as [b1|]; [|done]. cbn [mbind option_bind] in *. destruct (it_next _ _ Hat) as (iter1 & -> & Hat1). cbn [mbind option_bind].
  destruct (IH (S i) iter1 e.1 b1 b' Hat1 ltac:(lia) Hb) as (iter' & -> & Hat'). exists iter'. split; [|done]. rewrite last_cons. by destruct (last (drop (S i) es)).
Qed.

(** How BuildTable goes on when the table is in the file: it is closed and verified, and deleted again after an error. *)
Definition file_kept (fname : list byte) (meta : FileMetaData) (f : F) (e : E) (t : TableCache (E := E) (C := C) (CT := CT)) : option (Status * TableCache) :=
  let '(s, e) := close_file OK f e in
  '((s, t) : Status * TableCache) ← (if ok s then verify_table le (f_number meta) (f_size meta) (set_env e t) else Some (s, set_env e t));
  Some (s, if ok s then t else set_env (FileName.DeleteFile fname (env_ t)).2 t).

(** C11. BuildTable on an iterator with sorted entries, when its file can be
    created: with fuel for the entries no assertion fails while they are added, the
    bytes in the file are a table of exactly these entries, and the meta data gets
    their number of bytes and the first and the last key; the file is then
    closed and verified, and it is deleted when one of these fails. *)
Theorem build_table meta t fname f e first final iter p : options_ t = o -> contents f = [] -> TableFileName (dbname_ t) (f_number meta) = Some fname ->
  NewWritableFile fname (env_ t) = (OK, Some f, e) -> head es = Some first -> last es = Some final -> at_pos iter p ->
  exists written ly, table_file le (opt_comparator o) (filter_policy o) (contents written) es ly /\
    forall fuel, (length es <= fuel)%nat -> exists iter', at_pos iter' None /\ BuildTable le fuel iter meta t =
      let meta' := with_file (Z.of_nat (length (contents written))) first.1 final.1 meta in
      '(s, t') ← file_kept fname meta' written e (set_env e t); Some (s, meta', iter', t').
Proof using Hsnappy Hwf Hc Hinterval Hlimit Hper_key Hpolicy Hes Hsorted Hfits Hit.
  intros Ho Ef En Eo Efirst Elast Hat. subst o.
  destruct (table_calls (le := le) (Hsnappy := Hsnappy) (Hwf := Hwf) (Hc := Hc) (Hinterval := Hinterval) (Hlimit := Hlimit) (Hper_key := Hper_key) (Hpolicy := Hpolicy) (Hes := Hes) (Hsorted := Hsorted) (Hfits := Hfits) f Ef)
    as (r0 & r1 & r2 & ly & E0 & E1 & E2 & Ecl & Esz & Htf).
  destruct (it_first _ _ Hat) as (iter0 & Es0 & Hat0).
  exists (tb_file r2), ly. split; [done|]. intros fuel Hf.
  destruct (build_loop_spec fuel 0 iter0 (largest meta) r0 r1) as (iter' & El & Hat'); [unfold first_pos in Hat0; destruct es; exact Hat0|lia|done|].
  exists iter'. split; [done|]. unfold BuildTable. cbn zeta. rewrite Es0. cbn [f_number with_file]. rewrite En, (it_valid _ _ Hat0). unfold first_pos in Hat0 |- *.
  rewrite decide_False by (by destruct es). rewrite decide_False in Hat0 by (by destruct es). rewrite bool_decide_true by done. rewrite Eo. cbn [ok OK negb]. unfold write_table. cbn [options_ set_env].
  rewrite E0. cbn [mbind option_bind]. destruct (it_entry _ _ Hat0) as (e0 & Ee0 & -> & _). rewrite <- head_lookup, Efirst in Ee0. injection Ee0 as <-. cbn [mbind option_bind].
  cbn [largest with_file]. rewrite El. cbn [mbind option_bind]. rewrite E2. cbn [mbind option_bind]. unfold destroy_ok. rewrite Ecl, Esz. cbn [negb orb ok OK andb].
  assert (0 < Z.of_nat (length (contents (tb_file r2)))) as Hpos.
  { destruct (tf_footer _ _ _ _ _ _ Htf) as [pre ->]. rewrite length_app, length_enc_footer. unfold kEncodedLength. lia. }
  destruct (Z.leb_spec (Z.of_nat (length (contents (tb_file r2)))) 0) as [|_]; [lia|]. rewrite drop_0, Elast. cbn [default fmap option_fmap option_map env_ set_env].
  assert (forall s m (t' : TableCache (E := E) (C := C) (CT := CT)), f_size m = Z.of_nat (length (contents (tb_file r2))) -> finish_build fname s m iter' t' = (s, m, iter', if ok s then t' else set_env (FileName.DeleteFile fname (env_ t')).2 t')) as Hend.
  { intros s m t' Em. unfold finish_build. rewrite (it_status _ _ Hat'), Em. destruct (Z.ltb_spec 0 (Z.of_nat (length (contents (tb_file r2))))); [|lia]. simpl. by rewrite andb_true_r. }
  unfold file_kept. change (with_file _ first.1 final.1 (with_file _ _ _ meta)) with (with_file (Z.of_nat (length (contents (tb_file r2)))) first.1 final.1 meta).
  destruct (close_file OK (tb_file r2) e) as [s e1]. cbn [f_size f_number with_file]. destruct (ok s).
  - destruct (verify_table _ _ _ _) as [[s' t']|]; [|done]. cbn [mbind option_bind]. by rewrite Hend.
  - cbn [mbind option_bind]. by rewrite Hend.
Qed.
End Build.
