(* ===== verification/StoreFindings.v ===== *)
(** * What the model of LevelDB shows on inputs that no writer makes

    Executions of the definitions on concrete inputs. *)
From S2P Require Import Prelude Coding Comparator FilterBlock Status Iter Block Crc Interfaces Log Cache DbFormat Format FileName VersionEdit VersionSet.

(** ** A block entry whose lengths wrap around *)

Definition bytes (l : list Z) : list byte := map byte_of l.

(** One entry: nothing shared, 2^32 - 1 bytes of key, a value of one byte. *)
Definition wrapping_block : list byte :=
  bytes ([0x00; 0xFF; 0xFF; 0xFF; 0xFF; 0x0F; 0x01] ++ [0; 0; 0; 0] ++ [1; 0; 0; 0]).

Definition first_entry (contents : list byte) : option (option BlockIter) :=
  match new_Block true contents with
  | Some b => match NewBlockIterator true b with Some (inr it) => Some (BlockSeekToFirst true it) | _ => None end
  | None => None
  end.

(** [DecodeEntry] compares the bytes that are left with
    [*non_shared + *value_length] in 32 bits.  When the sum wraps around the entry passes,
    and [ParseNextKey] appends to the key from outside the block; with one byte of value
    less the same entry is refused as corrupt. *)
Theorem block_entry_lengths_wrap :
  first_entry wrapping_block = Some None /\
  match first_entry (bytes ([0x00; 0xFF; 0xFF; 0xFF; 0xFF; 0x0F; 0x00] ++ [0; 0; 0; 0] ++ [1; 0; 0; 0])) with
  | Some (Some it) => BlockValid it = false /\ bi_status it = Block.corruption true "bad entry in block"
  | _ => False
  end.
Proof. split; [vm_compute; reflexivity|]. vm_compute. by split. Qed.

(** ** A filter block with a bad trailer *)

Definition ask (contents : list byte) (offset : Z) : option bool :=
  match new_FilterBlockReader true contents with
  | Some r => FilterKeyMayMatch true (BloomFilterPolicy true 10) r offset (bytes_of "key")
  | None => None
  end.

(** "Errors are treated as potential matches", but an entry whose two ends are equal
    and behind the filters is taken for an empty filter, which matches nothing, while one
    with different ends there matches everything.  And the last byte of the block is used as a shift
    count unchecked: 64 or more is undefined. *)
Theorem filter_errors_may_exclude :
  ask (bytes ([9; 0; 0; 0] ++ [9; 0; 0; 0] ++ [0; 0; 0; 0] ++ [11])) 0 = Some false /\
  ask (bytes ([9; 0; 0; 0] ++ [10; 0; 0; 0] ++ [0; 0; 0; 0] ++ [11])) 0 = Some true /\
  ask (bytes ([0; 0; 0; 0] ++ [64])) 0 = None.
Proof. split_and!; vm_compute; reflexivity. Qed.

(** ** A log record of an unknown type *)

(** A physical record with a correct checksum. *)
Definition physical (type : Z) (data : list byte) : list byte :=
  match crc_Value true 0 (byte_of type :: data) with
  | Some crc => EncodeFixed32 true (Mask crc) ++ bytes [Z.of_nat (length data); 0; type] ++ data
  | None => []
  end.

Definition read_log (log : list byte) : option (bool * list byte * list (Z * Status)) :=
  match ReadRecord true true 0 true 100 [] [] (new_Reader 0 (log : MemFile)) with
  | Some (found, record, _, r) => Some (found, record, rd_reports r)
  | None => None
  end.

(** Types above the last one are to be reported as "unknown record type"; types 5 and
    6 collide with the values that [ReadPhysicalRecord] returns for the end of the file and for
    a bad record.  A record of type 5 ends the reading of the log, with the records behind it
    and without a report; type 6 is skipped without a report; only from 7 on the record is reported. *)
Theorem log_unknown_types_alias :
  read_log (physical 5 (bytes_of "x") ++ physical 1 (bytes_of "data")) = Some (false, [], []) /\
  read_log (physical 6 (bytes_of "x") ++ physical 1 (bytes_of "data")) = Some (true, bytes_of "data", []) /\
  match read_log (physical 7 (bytes_of "x") ++ physical 1 (bytes_of "data")) with
  | Some (found, record, reports) => found = true /\ record = bytes_of "data" /\ length reports = 1%nat
  | None => False
  end.
Proof. split_and!; [vm_compute; reflexivity|vm_compute; reflexivity|]. vm_compute. by split_and!. Qed.

(** ** A cache without capacity *)

Definition insert_and_release (capacity : Z) : option bool :=
  s ← NewLRUCache capacity;
  '(h, s) ← sharded_Insert true (bytes_of "key") 7 1 s;
  Some (bool_decide (is_Some (sharded_Release h s))).

(** [Insert] sets [next] only when it puts the entry into the lists, which it does when
    [capacity_ > 0]; the last release calls the deleter with [e->key()], which compares
    [next] with the address of the entry.  With capacity 0 it reads memory that was never
    written. *)
Theorem no_capacity_reads_uninitialised : insert_and_release 0 = Some false /\ insert_and_release 16 = Some true.
Proof. split; vm_compute; reflexivity. Qed.

(** ** A move that leaves a newer version behind *)

(** Tables in memory; a lookup saves the first entry at or past the key. *)
Definition ListTables (c : Comparator) (E : Z -> list entry) : TableGetter unit := {|
  tc_Get A options n size k saver arg t :=
    Some (OK, match seek_pos c k (E n) with Some i => match E n !! i with Some e => saver e.1 e.2 arg | None => arg end | None => arg end, t);
|}.

Definition version_key (seq : Z) : list byte := default [] (new_InternalKey true (bytes_of "k") seq kTypeValue).

Definition versions_of_k (n : Z) : list entry :=
  if n =? 5 then [(version_key 5, bytes_of "new")]
  else if n =? 4 then [(version_key 3, bytes_of "old")] else [].

Definition newer_file : FileMetaData := MkFile 1 100 5 1000 (version_key 5) (version_key 5).
Definition older_file : FileMetaData := MkFile 1 100 4 1000 (version_key 3) (version_key 3).

(** The two versions are in neighbouring files of level 1. *)
Definition split_key : list (list FileMetaData) := [[]; [newer_file; older_file]; []; []; []; []; []].

Definition no_pointers : list (list byte) := replicate 7 [].

Definition get_k (files : list (list FileMetaData)) : option (list byte) :=
  k ← LookupKey true (bytes_of "k") 10;
  '(_, v, _, _) ← Version_Get (tables := ListTables (InternalKeyComparator true BytewiseComparator) versions_of_k) true BytewiseComparator files default_ReadOptions k [] tt;
  Some v.

(** What a compaction of level 1 does that is a trivial move: the file goes to the next level. *)
Definition moved (files : list (list FileMetaData)) : option (bool * list (list FileMetaData)) :=
  '(c, _) ← PickCompaction true BytewiseComparator (2 ^ 21) files no_pointers (Some 1) None;
  c ← c;
  trivial ← IsTrivialMove (2 ^ 21) c;
  f ← head (inputs0 c);
  let e := AddFile (level_ c + 1) (f_number f) (f_size f) (smallest f) (largest f) (DeleteFile (level_ c) (f_number f) (edit_ c)) in
  '(levels, _) ← Apply true BytewiseComparator e new_Builder no_pointers;
  files ← SaveTo true BytewiseComparator levels files;
  Some (trivial, files).

(** When two files of a level share a user key, the compaction that is picked for
    the one with the newer versions does not take the other one along: the
    newer version moves below the older one, and a lookup gives the old value
    from then on. *)
Theorem boundary_version_left_behind :
  get_k split_key = Some (bytes_of "new") /\
  exists files, moved split_key = Some (true, files) /\ map (map f_number) files = [[]; [4]; [5]; []; []; []; []] /\ get_k files = Some (bytes_of "old").
Proof. split; [vm_compute; reflexivity|]. eexists. split; [vm_compute; reflexivity|]. split; vm_compute; reflexivity. Qed.

(** ** Limits that overflow *)

(** [SanitizeOptions] lets [max_file_size] be up to [1 << 30]; ten times that is no [int]. *)
Theorem large_file_size_overflows :
  MaxGrandParentOverlapBytes (2 ^ 30) = None /\ ExpandedCompactionByteSizeLimit (2 ^ 27) = None /\ MaxGrandParentOverlapBytes (2 ^ 21) = Some (10 * 2 ^ 21).
Proof. split_and!; vm_compute; reflexivity. Qed.
