(* ===== verification/Witness.v ===== *)
(** * The theorems at work on the sample program

    Every theorem with hypotheses is applied to the message type and the
    structure of Sample, or to a small concrete input. *)
From S2P Require Import Prelude Mem Comp Varint Pb PbEnv PbCommon OStream EncodeLogic WireSpec PbEncode EncodeProps IStream StreamLogic StreamProps PbDecode IterLogic DecodeLogic DecodeProps Findings Sample Base64 Base64Props.

Definition at_buffer (size : Z) : estate := EState (pb_ostream_from_buffer 200 size) sample_mem.

(** ** Encoding *)

(** The structure is 31 bytes on the wire. *)
Lemma pb_encode_stores_witness :
  exists m', pb_encode 3 Msg_fields 100 (at_buffer 40) =
      Ok tt (EState (OStream OBuf 231 40 31 None) m') /\
    load_bytes m' 200 31 = Some sample_bytes.
Proof.
  destruct (pb_encode_stores sample_src 2 3 Msg_fields 100 sample_bytes sample_wire ltac:(lia)
    sample_mem 200 40 sample_output_buffer) as [Hfit _].
  destruct Hfit as (m' & E & Hl & _); [vm_compute; done|].
  exists m'. split; [exact E|exact Hl].
Defined.

Lemma pb_get_encoded_size_correct_witness :
  pb_get_encoded_size 3 Msg_fields 100 (at_buffer 40) = Ok 31 (at_buffer 40).
Proof.
  exact (pb_get_encoded_size_correct sample_src 2 3 Msg_fields 100 sample_bytes (at_buffer 40)
    sample_wire ltac:(lia) (ob_src _ _ _ _ sample_output_buffer) ltac:(vm_compute; done)).
Defined.

Lemma pb_encode_delimited_stores_witness :
  exists m', pb_encode_delimited 3 Msg_fields 100 (at_buffer 40) =
      Ok tt (EState (OStream OBuf 232 40 32 None) m') /\
    load_bytes m' 200 32 = Some (byte_of 31 :: sample_bytes).
Proof.
  destruct (pb_encode_delimited_stores sample_src 2 3 Msg_fields 100 sample_bytes sample_wire ltac:(lia)
    ltac:(vm_compute; done) sample_mem 200 40 sample_output_buffer) as [Hfit _].
  destruct Hfit as (m' & E & Hl & _); [vm_compute; done|].
  exists m'. split; [exact E|exact Hl].
Defined.

Lemma pb_encode_nullterminated_stores_witness :
  exists m', pb_encode_nullterminated 3 Msg_fields 100 (at_buffer 40) =
      Ok tt (EState (OStream OBuf 232 40 32 None) m') /\
    load_bytes m' 200 32 = Some (sample_bytes ++ [byte_of 0]).
Proof.
  destruct (pb_encode_nullterminated_stores sample_src 2 3 Msg_fields 100 sample_bytes sample_wire ltac:(lia)
    sample_mem 200 40 sample_output_buffer) as [Hfit _].
  destruct Hfit as (m' & E & Hl & _); [vm_compute; done|].
  exists m'. split; [exact E|exact Hl].
Defined.

(** A required pointer member that is NULL. *)
Definition bad_pointer : pb_field_t :=
  PbField 1 (Z.lor PB_ATYPE_POINTER (Z.lor PB_HTYPE_REQUIRED PB_LTYPE_STRING)) 0 0 8 0 NULL.

(** An array with room for two entries, its count at the start of the structure. *)
Definition bad_array : pb_field_t :=
  PbField 1 (Z.lor PB_ATYPE_STATIC (Z.lor PB_HTYPE_REPEATED PB_LTYPE_UVARINT)) 4 (-4) 4 2 NULL.

Definition bad_allocation : pb_field_t := PbField 1 PB_ATYPE_MASK 0 0 4 0 NULL.

(** Eight zero bytes at 400, the number 3 at 500. *)
Definition errors_mem : mem := with_cells 400 8 (byte_of 0) (mem_of 500 (le_split 4 3)).
Definition errors_state : estate := EState (pb_ostream_from_buffer 200 0) errors_mem.

Lemma encode_field_errors_witness :
  fails_with "missing required field" (encode_field (fun _ _ => ret tt) 1 bad_pointer 400) errors_state /\
  fails_with "array max size exceeded" (encode_field (fun _ _ => ret tt) 1 bad_array 504) errors_state /\
  fails_with "invalid field type" (encode_field (fun _ _ => ret tt) 1 bad_allocation 400) errors_state.
Proof.
  destruct (encode_field_errors (fun _ _ => ret tt) 1 bad_pointer 400 errors_state) as [H1 _].
  destruct (encode_field_errors (fun _ _ => ret tt) 1 bad_array 504 errors_state) as (_ & H2 & _).
  destruct (encode_field_errors (fun _ _ => ret tt) 1 bad_allocation 400 errors_state) as (_ & _ & H3).
  split_and!.
  - apply H1; [done|done|field_ok|vm_compute; reflexivity].
  - apply H2; [done|done|field_ok|done|]. exists 3. split; [vm_compute; reflexivity|done].
  - apply H3. reflexivity.
Defined.

(** An integer of three bytes; a byte array of size 8 in a member of 8 bytes,
    of which the size takes four. *)
Definition bad_integer : pb_field_t := PbField 1 PB_LTYPE_VARINT 0 0 3 0 NULL.
Definition bad_bytes : pb_field_t := PbField 1 PB_LTYPE_BYTES 0 0 6 0 NULL.

Lemma encode_value_errors_witness :
  fails_with "invalid data_size" (pb_enc_varint bad_integer 400) errors_state /\
  fails_with "bytes size exceeded" (pb_enc_bytes bad_bytes 500) errors_state.
Proof.
  destruct (encode_value_errors bad_integer 400 errors_state) as [H1 _].
  destruct (encode_value_errors bad_bytes 500 errors_state) as [_ H2]. split.
  - apply H1. unfold int_size. simpl. lia.
  - apply (H2 eq_refl ltac:(done) 3); [vm_compute; reflexivity|done].
Defined.

(** ** Streams *)

Lemma pb_varint_roundtrip_witness :
  roundtrip 10 (pb_encode_varint 300) pb_decode_varint 300 /\
  roundtrip 5 (pb_encode_varint 300) pb_decode_varint32 300.
Proof.
  destruct (pb_varint_roundtrip 300 ltac:(lia)) as [H1 H2]. split; [exact H1|exact (H2 ltac:(lia))].
Defined.

Lemma pb_svarint_roundtrip_witness : roundtrip 10 (pb_encode_svarint (-3)) pb_decode_svarint (-3).
Proof. exact (pb_svarint_roundtrip (-3) ltac:(lia)). Defined.

Lemma pb_tag_roundtrip_witness : roundtrip 5 (pb_encode_tag 2 7) pb_decode_tag (true, 2, 7, false).
Proof. exact (pb_tag_roundtrip 7 2 ltac:(lia) ltac:(lia) ltac:(done)). Defined.

(** A stream on the bytes [bs] at 200. *)
Definition input_state (bs : list byte) : dstate :=
  DState (pb_istream_from_buffer 200 (Z.of_nat (length bs))) (sample_input bs) 0.

Lemma input_state_has bs : Z.of_nat (length bs) <= 100 -> has_input (input_state bs) bs.
Proof.
  intros Hl. split; simpl; [done|lia|].
  rewrite <- (load_bytes_put_bytes (Mem (map_cells ∅ 200 (length bs)) ∅) 200 bs).
  apply load_bytes_ext. intros i Hi. unfold sample_input, load_byte. rewrite with_cells_ne by lia. done.
Qed.

(** A varint of two bytes with a byte behind it, and its first byte alone. *)
Definition varint_300 : list byte := map byte_of [0xAC; 0x02; 0x09].
Definition varint_cut : list byte := map byte_of [0xAC].

Lemma pb_decode_varint_spec_witness :
  pb_decode_varint (input_state varint_300) = Ok 300 (advance 2 (input_state varint_300)) /\
  pb_decode_varint (input_state varint_cut) =
    Fail (set_err (Some "end-of-stream"%string) (advance 1 (input_state varint_cut))).
Proof.
  split.
  - rewrite (pb_decode_varint_spec (input_state varint_300) varint_300); [reflexivity| |reflexivity].
    apply input_state_has. vm_compute. done.
  - rewrite (pb_decode_varint_spec (input_state varint_cut) varint_cut); [reflexivity| |reflexivity].
    apply input_state_has. vm_compute. done.
Defined.

(** Five full bytes and an empty one: bits 32 to 34 are lost.  With a byte that is not empty behind them there is an overflow. *)
Definition varint_six : list byte := map byte_of [0xFF; 0xFF; 0xFF; 0xFF; 0xFF; 0x00].
Definition varint_large : list byte := map byte_of [0xFF; 0xFF; 0xFF; 0xFF; 0x8F; 0x01].

Lemma pb_decode_varint32_spec_witness :
  pb_decode_varint32 (input_state varint_six) = Ok (2 ^ 32 - 1) (advance 6 (input_state varint_six)) /\
  pb_decode_varint32 (input_state varint_large) =
    Fail (set_err (Some "varint overflow"%string) (advance 6 (input_state varint_large))).
Proof.
  split.
  - rewrite (pb_decode_varint32_spec (input_state varint_six) varint_six); [reflexivity|apply input_state_has; vm_compute; done|vm_compute; split_and!; done|simpl; lia].
  - rewrite (pb_decode_varint32_spec (input_state varint_large) varint_large); [reflexivity|apply input_state_has; vm_compute; done|vm_compute; split_and!; done|simpl; lia].
Defined.

(** One string in the array at 500, and no room for a second one. *)
Definition one_string : mem := Mem (m_cells (put_block 500 [1; 2; 3; 4; 5; 6; 7; 0] (put_block 300 [1; 0; 0; 0; 0; 0; 0; 0; 0xF4; 1; 0; 0; 0; 0; 0; 0] empty_mem))) {[500 := 8]}.
Definition second_string : dstate := DState (pb_istream_from_buffer 200 0) one_string 0.

Lemma refused_item_is_counted_witness :
  exists s', @decode_pointer_field (program [] (bounded_alloc 8)) (fun _ _ => fail) 1 PB_WT_STRING (Iter Strings_fields 0 0 300 308 (PMem 300)) second_string = Fail s' /\
    load_uint (d_mem s') 300 4 = Some 2 /\ m_heap (d_mem s') !! 500 = Some 8.
Proof.
  destruct (refused_item_is_counted (H := program [] (bounded_alloc 8)) (fun _ _ => fail) 1 (Iter Strings_fields 0 0 300 308 (PMem 300)) (hd PB_LAST_FIELD Strings_fields) PB_WT_STRING 300 1 500 second_string)
    as (E & Ec & _ & Eh).
  - split; try (vm_compute; reflexivity); [vm_compute; split; (done || discriminate)|right; vm_compute; reflexivity|left; simpl; lia|vm_compute; split; done].
  - vm_compute. reflexivity.
  - vm_compute. reflexivity.
  - eexists. split; [exact E|]. split; [exact Ec|]. exact (eq_trans (f_equal (fun h : gmap Z Z => h !! 500) Eh) eq_refl).
Defined.

Lemma pb_skip_field_value_witness :
  reads (varint (u64 (-5))) (pb_skip_field PB_WT_VARINT) tt.
Proof.
  apply (pb_skip_field_value sample_src (fun _ _ _ => False) (hd PB_LAST_FIELD Msg_fields) 100 (varint (u64 (-5))) PB_WT_VARINT).
  - field_ok.
  - reflexivity.
  - apply wv_varint; [done|right; right; by left|vm_compute; reflexivity].
  - vm_compute. done.
Defined.

Definition string_ab : list byte := map byte_of [0x61; 0x62].

Lemma pb_substream_conserves_witness :
  exists sub0 s1, pb_make_string_substream (input_state (byte_of 2 :: string_ab)) = Ok sub0 s1 /\
    i_bytes_left sub0 = 2 /\
    pb_close_string_substream (IStream IBuf 202 1 None) s1 =
      Ok tt (advance 3 (input_state (byte_of 2 :: string_ab))).
Proof.
  destruct (pb_substream_conserves (input_state (byte_of 2 :: string_ab)) string_ab (IStream IBuf 202 1 None)
    (input_state_has (byte_of 2 :: string_ab) ltac:(vm_compute; done)) ltac:(vm_compute; done)) as (sub0 & s1 & E & Hl & _ & Hc).
  exists sub0, s1. split_and!; [exact E|exact Hl|]. rewrite Hc; [reflexivity|].
  unfold substream_of. assert (i_state sub0 = 201) as ->; [|split_and!; vm_compute; done].
  revert E. vm_compute. by intros [= <- _].
Defined.

(** ** Decoding *)

Lemma pb_decode_safe_witness :
  safe_outcome sample_region 200 31 (sample_input sample_bytes)
    (pb_decode 3 Msg_fields 300 (DState (pb_istream_from_buffer 200 31) (sample_input sample_bytes) 0)).
Proof.
  exact (pb_decode_safe sample_region no_constants 2 3 Msg_fields 300 200 31 (sample_input sample_bytes) 0
    sample_static ltac:(lia) (sample_decode_input sample_bytes ltac:(vm_compute; done))).
Defined.

Lemma pb_decode_delimited_safe_witness :
  safe_outcome sample_region 200 31 (sample_input sample_bytes)
    (pb_decode_delimited 3 Msg_fields 300 (DState (pb_istream_from_buffer 200 31) (sample_input sample_bytes) 0)).
Proof.
  destruct (pb_decode_delimited_safe sample_region no_constants 2 3 Msg_fields 300 200 31 (sample_input sample_bytes) 0
    sample_static ltac:(lia) (sample_decode_input sample_bytes ltac:(vm_compute; done))) as [H1 _].
  exact H1.
Defined.

Lemma pb_skip_field_safe_witness :
  safe_outcome (fun _ => False) 200 31 (sample_input sample_bytes)
    (pb_skip_field PB_WT_STRING (DState (pb_istream_from_buffer 200 31) (sample_input sample_bytes) 0)).
Proof.
  apply (pb_skip_field_safe PB_WT_STRING 200 31 (sample_input sample_bytes) 0); [lia|].
  intros i Hi. apply (di_buffer _ _ _ _ _ (sample_decode_input sample_bytes ltac:(vm_compute; done))).
  exact Hi.
Defined.

(** ** Base64 *)

(** "foob" in 8 characters and a NUL; the 9 bytes are the least that do. *)
Definition foob : list byte := map byte_of [0x66; 0x6F; 0x6F; 0x62].
Definition Zm9vYg : list byte := map byte_of [0x5A; 0x6D; 0x39; 0x76; 0x59; 0x67; 0x3D; 0x3D].

Lemma f_b64_ntop_spec_witness :
  f_b64_ntop foob (replicate 9 (byte_of 0xFF)) 9 = Some (8, Zm9vYg ++ [byte_of 0]) /\
  exists a', f_b64_ntop foob (replicate 9 (byte_of 0xFF)) 8 = Some (-1, a') /\
    only_between 0 8 (replicate 9 (byte_of 0xFF)) a'.
Proof.
  split.
  - exact (f_b64_ntop_spec foob (replicate 9 (byte_of 0xFF)) 9 ltac:(simpl; lia) ltac:(lia)).
  - exact (f_b64_ntop_spec foob (replicate 9 (byte_of 0xFF)) 8 ltac:(simpl; lia) ltac:(lia)).
Defined.

Lemma f_b64_pton_spec_witness :
  f_b64_pton (Zm9vYg ++ [byte_of 0]) (Some (replicate 6 (byte_of 0xFF))) 6 = Some (4, Some (foob ++ map byte_of [0; 0xFF])).
Proof. exact (f_b64_pton_spec foob [] (replicate 6 (byte_of 0xFF)) 6 ltac:(simpl; lia) ltac:(simpl; lia) ltac:(lia)). Defined.

(** "Z m 9 2\nYg = =", spaces and all. *)
Definition spaced : list byte :=
  map byte_of [0x5A; 0x20; 0x6D; 0x39; 0x76; 0x0A; 0x59; 0x67; 0x20; 0x3D; 0x09; 0x3D; 0x20; 0].

Lemma f_b64_pton_spaces_witness :
  f_b64_pton (Zm9vYg ++ [byte_of 0]) (Some (replicate 5 (byte_of 0))) 5 =
  f_b64_pton spaced (Some (replicate 5 (byte_of 0))) 5.
Proof.
  refine (f_b64_pton_spaces spaced (Some (replicate 5 (byte_of 0))) 5 _).
  apply list_elem_of_In. vm_compute. repeat first [apply list_elem_of_here|apply list_elem_of_further].
Defined.
