(* ===== verification/LdbWitness.v ===== *)
(** * The theorems on LevelDB at work

    Every theorem with hypotheses is applied to a small concrete input: the
    byte-wise comparator, the Bloom filter, files in memory. *)
From Stdlib Require Import Sorted.
From S2P Require Import Prelude Varint Coding CodingProps Comparator DbFormat DbFormatProps FilterBlock FilterBlockProps Status Iter Block BlockProps Crc CrcProps Interfaces Log LogProps Arena SkipList SkipListProps SkipSpec MemTable MemTableProps WriteBatch WriteBatchProps Merger MergerProps.

Lemma EncodeVarint_spec_witness : EncodeVarint32 300 = varint 300.
Proof. destruct (EncodeVarint_spec 300) as [H _]. destruct H as [H _]; [lia|exact H]. Defined.

Lemma length_prefixed_roundtrip_witness :
  GetLengthPrefixedSlice (PutLengthPrefixedSlice [] (bytes_of "key") ++ bytes_of "rest") = (Some (bytes_of "key"), bytes_of "rest").
Proof.
  destruct (length_prefixed_roundtrip (bytes_of "key") (bytes_of "cut") (bytes_of "rest")) as [H _]; [vm_compute; done|exact H].
Defined.

Lemma internal_key_roundtrip_witness :
  ParseInternalKey true (bytes_of "ab" ++ map byte_of [1; 5; 0; 0; 0; 0; 0; 0]) (Parsed [] 0 0) =
    Some (true, Parsed (bytes_of "ab") 5 kTypeValue).
Proof.
  destruct (internal_key_roundtrip (le := true) (Parsed (bytes_of "ab") 5 kTypeValue) (Parsed [] 0 0)) as [H _].
  destruct H as (k & Ek & _ & Hp & _); [vm_compute; done|]. vm_compute in Ek. injection Ek as <-. exact Hp.
Defined.

Lemma internal_key_order_witness :
  internal_compare true BytewiseComparator (internal (bytes_of "a") 7) (internal (bytes_of "a") 9) = Some 1.
Proof.
  destruct (internal_key_order (le := true) (user := BytewiseComparator) (valid := fun _ => True)) as [_ H].
  rewrite (H (bytes_of "a") 7 (bytes_of "a") 9 0); [reflexivity|lia|lia|reflexivity].
Defined.

Lemma lookup_key_parts_witness :
  exists k, LookupKey true (bytes_of "ab") 9 = Some k /\ lookup_user_key k = bytes_of "ab".
Proof.
  destruct (lookup_key_parts true (bytes_of "ab") 9) as (k & E & _ & _ & Eu & _); [vm_compute; done|vm_compute; split; discriminate|].
  exists k. split; [exact E|exact Eu].
Defined.

Lemma bloom_no_false_negatives_witness :
  FilterPolicyOk (BloomFilterPolicy true 10) (fun _ => True) (2 ^ 31 - 1).
Proof. destruct (bloom_no_false_negatives true 10) as [H _]; [lia|exact H]. Defined.

Definition sample_blocks : list (Z * list (list byte)) :=
  [(0, [bytes_of "a"; bytes_of "b"]); (5000, [bytes_of "c"])].

Lemma filter_block_complete_witness :
  exists b contents r, add_blocks (policy := BloomFilterPolicy true 10) sample_blocks new_FilterBlockBuilder = Some b /\
    FilterFinish true (BloomFilterPolicy true 10) b = Some contents /\ new_FilterBlockReader true contents = Some r /\
    FilterKeyMayMatch true (BloomFilterPolicy true 10) r 5000 (bytes_of "c") = Some true.
Proof.
  destruct (filter_block_complete (le := true) (policy := BloomFilterPolicy true 10) (valid := fun _ => True) (limit := 2 ^ 31 - 1)
    (Hok := BloomFilterPolicy_ok true 10 ltac:(lia)) sample_blocks) as (b & contents & Eb & Ec & Hr).
  - repeat constructor; simpl; lia.
  - repeat constructor; simpl; lia.
  - vm_compute. discriminate.
  - assert (Z.of_nat (length contents) < 2 ^ 32) as Hlen.
    { vm_compute in Eb. injection Eb as <-. vm_compute in Ec. injection Ec as <-. vm_compute. done. }
    destruct (Hr Hlen) as (r & Er & Hmatch). exists b, contents, r. split; [exact Eb|]. split; [exact Ec|]. split; [exact Er|].
    apply (Hmatch 5000 [bytes_of "c"] (bytes_of "c")); simpl; auto.
Defined.

Lemma status_roundtrip_witness :
  exists s, new_Status true kCorruption (bytes_of "bad") (bytes_of "file") = Some (Some s) /\
    ToString true (Some s) = Some (bytes_of "Corruption: bad: file").
Proof.
  destruct (status_roundtrip true kCorruption (bytes_of "bad") (bytes_of "file")) as (s & E & _ & _ & Ht & _);
    [discriminate|vm_compute; done|].
  exists s. split; [exact E|exact Ht].
Defined.

Definition sample_entries : list entry :=
  [(bytes_of "apple", bytes_of "1"); (bytes_of "apply", bytes_of "2"); (bytes_of "bee", bytes_of "3")].

Lemma block_roundtrip_witness :
  exists b0 b blk it at_pos, new_BlockBuilder 2 = Some b0 /\ add_entries (cmp := BytewiseComparator) 2 sample_entries b0 = Some b /\
    new_Block true (BlockFinish true b).1 = Some blk /\ NewBlockIterator true blk = Some (inr it) /\
    IteratorOk (Block_Iter true BytewiseComparator) BytewiseComparator (fun _ => True) sample_entries at_pos.
Proof.
  destruct (block_roundtrip (le := true) (cmp := BytewiseComparator) (valid := fun _ => True) 2 sample_entries)
    as (b0 & b & E0 & Eb & Hr).
  - lia.
  - repeat constructor; simpl; lia.
  - apply keys_sorted_strongly. repeat constructor; vm_compute; by eexists.
  - destruct Hr as (blk & it & at_pos & Ek & Ei & Hit & _).
    { vm_compute in E0. injection E0 as <-. vm_compute in Eb. injection Eb as <-. vm_compute. done. }
    exists b0, b, blk, it, at_pos. split; [exact E0|]. split; [exact Eb|]. split; [exact Ek|]. split; [exact Ei|exact Hit].
Defined.

Lemma Extend_spec_witness :
  Extend true 3 0 (bytes_of "123456789") = Some 0xe3069283.
Proof.
  destruct (Extend_spec true 3 0 (bytes_of "12345") (bytes_of "6789")) as [H _]; [lia|lia|].
  etransitivity; [exact H|]. vm_compute. reflexivity.
Defined.

Lemma log_crash_recovery_witness :
  exists w0 w1 w2, new_Writer true ([] : MemFile) 0 = Some w0 /\
    AddRecords (le := true) [bytes_of "one"] w0 = Some (OK, w1) /\ AddRecords (le := true) [bytes_of "two"] w1 = Some (OK, w2) /\
    exists k r, ReadRecords (le := true) true true 2 100 (new_Reader 0 (take 14 (dest_ w2))) =
      Some ([bytes_of "one"] ++ take k [bytes_of "two"], true, r).
Proof.
  pose (file := match new_Writer true ([] : MemFile) 0 with
    | Some w => match AddRecords (le := true) [bytes_of "one"; bytes_of "two"] w with Some (_, w) => take 14 (dest_ w) | None => [] end
    | None => [] end).
  destruct (log_crash_recovery MemFile_writable (fun f => f) MemFile_sequential (fun f => f) true true true
    [] file 100 [bytes_of "one"] [bytes_of "two"]) as (w0 & w1 & w2 & E0 & E1 & E2 & Hr).
  - exact MemFile_writable_ok.
  - exact MemFile_sequential_ok.
  - reflexivity.
  - vm_compute. lia.
  - exists w0, w1, w2. split; [exact E0|]. split; [exact E1|]. split; [exact E2|].
    vm_compute in E0. injection E0 as <-. vm_compute in E1. injection E1 as <-. vm_compute in E2. injection E2 as <-.
    destruct Hr as (k & r & E & _); [vm_compute; by eexists|vm_compute; by eexists|]. exists k, r. exact E.
Defined.

Lemma log_reader_total_witness :
  exists found rec scr r', ReadRecord true true 0 true 20 [] [] (new_Reader 0 (bytes_of "garbage" : MemFile)) = Some (found, rec, scr, r').
Proof.
  apply (log_reader_total MemFile_sequential (fun f => f) true true 0 true (new_Reader 0 (bytes_of "garbage" : MemFile)) [] [] 20).
  - exact MemFile_sequential_ok.
  - lia.
  - vm_compute. lia.
Defined.

Lemma RandomNext_spec_witness : RandomNext 301 = 5058907 /\ good_seed 5058907.
Proof. apply (RandomNext_spec 301). unfold good_seed, random_M. lia. Defined.

(** ** A skip list of two byte strings *)

Abbreviation compare_bytes := (@Compare BytewiseComparator).
Abbreviation any := (fun _ : list byte => True).

Definition sample_list : SkipList (list byte) :=
  default new_SkipList (Insert compare_bytes new_SkipList (bytes_of "b") ≫= fun l => Insert compare_bytes l (bytes_of "a")).

Lemma sample_list_represents : represents (compare_ := compare_bytes) (valid := any) sample_list [bytes_of "a"; bytes_of "b"].
Proof.
  assert (represents (compare_ := compare_bytes) (valid := any) new_SkipList []) as H0
    by (exists [], (fun _ => 0%nat); split; [apply new_SkipList_inv|constructor]).
  destruct (insert_spec (compare_ := compare_bytes) (valid := any) new_SkipList [] (bytes_of "b") H0 I) as [H1 _].
  destruct H1 as (l1 & ka & kb & E1 & Ek & H1 & _); [done|].
  symmetry in Ek. apply app_nil in Ek as [-> ->]. simpl in H1.
  destruct (insert_spec (compare_ := compare_bytes) (valid := any) l1 [bytes_of "b"] (bytes_of "a") H1 I) as [H2 _].
  destruct H2 as (l2 & ka & kb & E2 & Ek & H2 & Ha & _); [by intros k [<-|[]]|].
  unfold sample_list. rewrite E1. cbn [mbind option_bind]. rewrite E2. cbn [default from_option].
  destruct ka as [|k ka]; [simpl in *; by subst kb|]. exfalso. simpl in Ek. injection Ek as <- _.
  inversion Ha as [|? ? (x & Ex & Hx) _]; subst. vm_compute in Ex. injection Ex as <-. lia.
Qed.

Lemma skiplist_insert_witness : exists l', Insert compare_bytes sample_list (bytes_of "aa") = Some l'.
Proof.
  destruct (skiplist_insert (compare_ := compare_bytes) (valid := any)) as [_ H].
  destruct (H sample_list _ (bytes_of "aa") sample_list_represents I) as [H1 _].
  destruct H1 as (l' & ka & kb & E & _); [by intros k [<-|[<-|[]]]|]. exists l'. exact E.
Defined.

Lemma skiplist_search_witness : exists b, Contains compare_bytes sample_list (bytes_of "b") = Some b.
Proof.
  destruct (skiplist_search (compare_ := compare_bytes) (valid := any) sample_list _ (bytes_of "b") sample_list_represents I) as (base & ka & kb & _ & _ & _ & _ & _ & Hc & _).
  eexists. exact Hc.
Defined.

(** A reader on the way while "aa" is inserted: the new node is linked from the first one. *)
Definition sample_start : sys := Sys sample_list [] Idle.
Definition sample_sys : sys :=
  match insert_stores compare_bytes sample_list (bytes_of "aa") with
  | Some (l, ss) => Sys l ss (Searching head_ (GetMaxHeight l - 1))
  | None => sample_start
  end.

Lemma sample_sys_reached : sys_steps (compare_ := compare_bytes) (valid := any) (bytes_of "aa") sample_start sample_sys.
Proof.
  unfold sample_sys. destruct (insert_stores compare_bytes sample_list (bytes_of "aa")) as [[l ss]|] eqn:E; [|apply rtc_refl].
  eapply rtc_l; [by apply (step_insert _ _ (bytes_of "aa") l ss)|]. apply rtc_once, step_search.
Qed.

Lemma sample_sys_searching : exists x level, sys_reader sample_sys = Searching x level.
Proof. vm_compute. by eexists _, _. Qed.

Lemma skiplist_concurrent_reader_witness :
  exists x level res, sys_reader sample_sys = Searching x level /\
    find_step compare_bytes (sys_list sample_sys) (bytes_of "aa") x level = Some res.
Proof.
  destruct (skiplist_concurrent_reader (compare_ := compare_bytes) (valid := any) sample_list _ (bytes_of "aa") sample_sys
    sample_list_represents I sample_sys_reached) as (_ & H & _).
  destruct sample_sys_searching as (x & level & E). destruct (H x level E) as (res & Er & _).
  exists x, level, res. split; [exact E|exact Er].
Defined.

Lemma skiplist_reader_finishes_witness :
  exists next, sys_steps (compare_ := compare_bytes) (valid := any) (bytes_of "aa") sample_sys
    (Sys (sys_list sample_sys) (sys_stores sample_sys) (Found next)).
Proof.
  destruct sample_sys_searching as (x & level & E).
  destruct (skiplist_reader_finishes (compare_ := compare_bytes) (valid := any) sample_list _ (bytes_of "aa") sample_sys x level [] sample_list_represents I sample_sys_reached E)
    as (next & prev & _ & H).
  exists next. exact H.
Defined.

(** ** Memory, memtables and batches *)

(** Every block is put behind all the others. *)
Definition heap_end (blocks : list (Z * Z)) : Z := foldr (fun b n => Z.max (b.1 + b.2) n) 8 blocks.
#[local] Instance bump : Allocator := { new_char blocks _ := (heap_end blocks / 8 + 1) * 8 }.

Lemma heap_end_after b blocks : In b blocks -> b.1 + b.2 <= heap_end blocks.
Proof. unfold heap_end. induction blocks as [|b' blocks IH]; intros []; simpl; [subst; lia|]. specialize (IH H). lia. Qed.

Lemma heap_end_pos blocks : 8 <= heap_end blocks.
Proof. unfold heap_end. induction blocks as [|b' blocks IH]; simpl; lia. Qed.

#[local] Instance bump_ok : AllocatorOk bump.
Proof.
  split; simpl; intros blocks size.
  - intros _. apply List.Forall_forall. intros b Hb%heap_end_after. unfold disjoint_from. simpl.
    pose proof (Z.div_mod (heap_end blocks) 8 ltac:(lia)). pose proof (Z.mod_pos_bound (heap_end blocks) 8 ltac:(lia)). lia.
  - apply Z.mod_mul. lia.
  - pose proof (Z.div_le_mono 8 _ 8 ltac:(lia) (heap_end_pos blocks)) as Hd. change (8 / 8) with 1 in Hd. lia.
Qed.

Lemma arena_allocations_witness :
  exists r1 r2 a, serve [(false, 5); (true, 40)] new_Arena = Some ([r1; r2], a) /\ r2.1 mod 8 = 0 /\ disjoint_from r1 r2.
Proof.
  destruct (arena_allocations [(false, 5); (true, 40)]) as (regions & a & E & HF & Hd & _); [repeat constructor; simpl; lia|].
  vm_compute in E. injection E as <- <-. eexists _, _, _. split; [reflexivity|].
  simpl in Hd. destruct Hd as [Hd _]. inversion Hd; subst. split; [reflexivity|assumption].
Defined.

Abbreviation holds_bytes := (MemTableProps.holds (le := true) (user := BytewiseComparator) (valid := fun _ => True)).
Abbreviation empty_table := (default (Mem 0 new_Arena new_SkipList) new_MemTable).

Lemma empty_table_holds : holds_bytes empty_table [].
Proof.
  destruct (new_MemTable_spec (le := true) (user := BytewiseComparator) (valid := fun _ => True)) as (m & E & H). by rewrite E.
Qed.

Definition sample_update : update := Update (bytes_of "k") 5 kTypeValue (bytes_of "v").

Lemma memtable_get_witness :
  exists m' key, MemTable.Add true BytewiseComparator 5 kTypeValue (bytes_of "k") (bytes_of "v") empty_table = Some m' /\
    LookupKey true (bytes_of "k") 9 = Some key /\
    Get true BytewiseComparator m' key [] OK = Some (true, bytes_of "v", OK).
Proof.
  destruct (memtable_get (le := true) (user := BytewiseComparator) (valid := fun _ => True)) as (_ & Hadd & Hget).
  destruct (Hadd empty_table [] sample_update) as (m' & E & Hm'); [exact empty_table_holds| |intros v []|].
  { split; [exact I|]. split; [vm_compute; split; discriminate|]. split; [left; reflexivity|]. split; vm_compute; reflexivity. }
  destruct (Hget m' [sample_update] (bytes_of "k") 9 [] OK Hm' I) as (key & Ek & [(u & Hu & E')|(Hno & _)]);
    [vm_compute; split; discriminate|vm_compute; reflexivity| |].
  - exists m', key. split; [exact E|]. split; [exact Ek|]. destruct Hu as [[<-|[]] _]. exact E'.
  - exfalso. apply (Hno sample_update); [left; reflexivity|]. split; [reflexivity|vm_compute; discriminate].
Defined.

Lemma memtable_iterator_witness :
  exists at_pos, IteratorOk (MemTable_iterator true BytewiseComparator) (InternalKeyComparator true BytewiseComparator)
    (mem_valid (valid := fun _ => True)) [] at_pos.
Proof.
  destruct (memtable_iterator (le := true) (user := BytewiseComparator) (valid := fun _ => True) empty_table [] empty_table_holds)
    as (es & at_pos & Hp & _ & Hit & _).
  apply Permutation_sym, Permutation_nil in Hp. subst es. exists at_pos. exact Hit.
Defined.

(** A handler that keeps the updates. *)
#[local] Instance keep_ops : Handler (list op) := {
  HandlePut k v h := Some (h ++ [OpPut k v]);
  HandleDelete k h := Some (h ++ [OpDelete k]);
}.

Lemma write_batch_roundtrip_witness :
  exists b, Count true b = Some 3 /\
    Iterate true b [] = Some (OK, [OpPut (bytes_of "a") (bytes_of "1"); OpDelete (bytes_of "b"); OpPut (bytes_of "b") (bytes_of "2")]).
Proof.
  destruct (write_batch_roundtrip (le := true) keep_ops [OpPut (bytes_of "a") (bytes_of "1"); OpDelete (bytes_of "b")]
    [OpPut (bytes_of "b") (bytes_of "2")] 7 []
    [OpPut (bytes_of "a") (bytes_of "1"); OpDelete (bytes_of "b"); OpPut (bytes_of "b") (bytes_of "2")])
    as (b1 & b2 & b1' & b & _ & _ & _ & _ & _ & Ec & Ei).
  - repeat constructor; vm_compute; reflexivity.
  - simpl. lia.
  - lia.
  - reflexivity.
  - exists b. split; [exact Ec|exact Ei].
Defined.

Lemma memtable_read_your_writes_witness :
  exists b b' m' key, BatchOps (le := true) [OpPut (bytes_of "a") (bytes_of "1"); OpDelete (bytes_of "b")] new_WriteBatch = Some b /\
    SetSequence true 7 b = Some b' /\ InsertInto true BytewiseComparator b' empty_table = Some (OK, m') /\
    LookupKey true (bytes_of "a") 8 = Some key /\ Get true BytewiseComparator m' key [] OK = Some (true, bytes_of "1", OK).
Proof.
  apply (memtable_read_your_writes (le := true) (user := BytewiseComparator) (valid := fun _ => True) empty_table []
    [OpPut (bytes_of "a") (bytes_of "1"); OpDelete (bytes_of "b")] 7 (bytes_of "a") 8 [] OK).
  - exact empty_table_holds.
  - constructor.
  - repeat constructor; vm_compute; reflexivity.
  - vm_compute. reflexivity.
  - lia.
  - simpl. lia.
  - vm_compute. discriminate.
  - exact I.
  - vm_compute. reflexivity.
  - lia.
Defined.

(** ** Iterators over lists *)

Definition cursor : Type := list entry * option nat.
Definition cursor_entry (st : cursor) : option entry := match st.2 with Some i => st.1 !! i | None => None end.

Definition list_iterator (c : Comparator) : Iterator cursor := {|
  Valid st := match st.2 with Some _ => true | None => false end;
  SeekToFirst st := Some (st.1, first_pos st.1);
  SeekToLast st := Some (st.1, last_pos st.1);
  Seek target st := Some (st.1, seek_pos c target st.1);
  Next st := match st.2 with Some i => Some (st.1, next_pos st.1 i) | None => None end;
  Prev st := match st.2 with Some i => Some (st.1, prev_pos i) | None => None end;
  key st := option_map fst (cursor_entry st);
  value st := option_map snd (cursor_entry st);
  status _ := OK;
|}.

Definition cursor_at (es : list entry) (st : cursor) (p : option nat) : Prop :=
  st = (es, p) /\ forall i, p = Some i -> (i < length es)%nat.

Lemma list_iterator_ok c valid es : IteratorOk (list_iterator c) c valid es (cursor_at es).
Proof.
  split; unfold cursor_at; simpl.
  - intros st p [-> _]. by destruct p.
  - intros st i [-> Hi]. destruct (lookup_lt_is_Some_2 es i (Hi i eq_refl)) as [e E]. exists e. unfold cursor_entry. simpl. by rewrite E.
  - intros st p [-> _]. eexists. split; [done|]. split; [done|]. unfold first_pos. destruct es; simpl; [done|]. intros i [= <-]. lia.
  - intros st p [-> _]. eexists. split; [done|]. split; [done|]. unfold last_pos. destruct es; simpl; [done|]. intros i [= <-]. lia.
  - intros st p target [-> _] _. eexists. split; [done|]. split; [done|]. simpl. intros i E.
    pose proof (seek_pos_spec c target es) as Hs. rewrite E in Hs. destruct Hs as (e & Ee & _). by eapply lookup_lt_Some.
  - intros st i [-> _]. eexists. split; [done|]. split; [done|]. unfold next_pos. simpl. case_decide; [|done]. by intros j [= <-].
  - intros st i [-> Hi]. eexists. split; [done|]. split; [done|]. specialize (Hi i eq_refl). destruct i; simpl; [done|]. intros j [= <-]. lia.
  - done.
Qed.

Definition sample_srcs : list (list entry) :=
  [[(bytes_of "apple", bytes_of "1"); (bytes_of "bee", bytes_of "3")]; [(bytes_of "apply", bytes_of "2")]].

Lemma merging_iterator_witness :
  exists mm at_pos, NewMergingIterator (it := list_iterator BytewiseComparator) (map (fun es => (es, None)) sample_srcs) = Some (MergedMany mm) /\
    IteratorOk (MergingIterator_iterator (it := list_iterator BytewiseComparator) BytewiseComparator) BytewiseComparator (fun _ => True) sample_entries at_pos.
Proof.
  destruct (merging_iterator (list_iterator BytewiseComparator) BytewiseComparator (fun _ => True) sample_srcs
    (fun i st p => forall es, sample_srcs !! i = Some es -> cursor_at es st p) sample_entries (map (fun es => (es, None)) sample_srcs))
    as (mm & at_pos & E & Hit & _).
  - exact _.
  - intros i es Ei. destruct (list_iterator_ok BytewiseComparator (fun _ => True) es) as [H1 H2 H3 H4 H5 H6 H7 H8].
    assert (forall st p, (forall es', sample_srcs !! i = Some es' -> cursor_at es' st p) <-> cursor_at es st p) as Heq.
    { intros st p. split; [intros H; by apply H|]. intros H es' Ei'. rewrite Ei in Ei'. by injection Ei' as <-. }
    split; intros st; intros *; rewrite ?Heq; intros.
    + by apply H1.
    + by apply H2.
    + destruct (H3 st p) as (st' & ? & ?); [done|]. exists st'. by rewrite Heq.
    + destruct (H4 st p) as (st' & ? & ?); [done|]. exists st'. by rewrite Heq.
    + destruct (H5 st p target) as (st' & ? & ?); [done|done|]. exists st'. by rewrite Heq.
    + destruct (H6 st i0) as (st' & ? & ?); [done|]. exists st'. by rewrite Heq.
    + destruct (H7 st i0) as (st' & ? & ?); [done|]. exists st'. by rewrite Heq.
    + by eapply H8.
  - apply perm_skip, perm_swap.
  - apply keys_sorted_strongly. repeat constructor; vm_compute; by eexists.
  - repeat constructor; apply keys_sorted_strongly; repeat constructor; vm_compute; by eexists.
  - repeat constructor.
  - reflexivity.
  - simpl. lia.
  - intros i st es Ei Es es' Es'. rewrite Es in Es'. injection Es' as <-.
    destruct i as [|[|i]]; simpl in Ei, Es; [| |done]; injection Ei as <-; injection Es as <-; split; (done || discriminate).
  - exists mm, at_pos. split; [exact E|exact Hit].
Defined.
