(* ===== verification/TableWitness.v ===== *)
(** * The theorems on tables and caches at work

    Tables of three entries with a Bloom filter, in memory, read through a cache
    of sixteen shards. *)
From Stdlib Require Import Sorted.
From S2P Require Import Prelude StoreFindings Varint Coding Comparator DbFormat DbFormatProps FilterBlock FilterBlockProps Status Iter Block BlockProps TwoLevel TwoLevelProps Interfaces Format FormatProps Cache CacheSharded Table TableLayout TableBuilder TableFinish TableRead TableCorrect DbIter DbIterProps DbIterCorrect FileName FileNameProps VersionEdit VersionEditProps VersionSet VersionProps VersionGet VersionBuild TableCache Compact CompactProps LdbWitness.

Lemma footer_roundtrip_witness :
  exists bs, FooterEncodeTo true (MkFooter (Handle 10 20) (Handle 35 7)) [] = Some bs /\ length bs = 48%nat.
Proof.
  destruct (footer_roundtrip true (MkFooter (Handle 10 20) (Handle 35 7)) (MkFooter (Handle 0 0) (Handle 0 0)) []) as (bs & E & Hl & _);
    [vm_compute; split; split; (done || discriminate)..|]. exists bs. split; [exact E|exact Hl].
Defined.

(** ** Two levels of lists *)

Definition block_entries (h : list byte) : list entry :=
  if bool_decide (h = bytes_of "0") then take 2 sample_entries else drop 2 sample_entries.

Definition sample_index : list entry := [(bytes_of "apply", bytes_of "0"); (bytes_of "c", bytes_of "1")].

Definition open_block (h : list byte) (a : unit) : option (cursor * unit) := Some ((block_entries h, None), a).
Definition delete_block (d : cursor) (a : unit) : option unit := Some a.

Lemma sample_source cap : BlockSource (T := unit) (list_iterator BytewiseComparator) open_block delete_block BytewiseComparator (fun _ => True)
  (map snd sample_index) block_entries (fun h _ => cursor_at (block_entries h)) (fun _ _ => True) cap.
Proof.
  split.
  - intros h t _. apply list_iterator_ok.
  - intros h l a _ _ _. exists (block_entries h, None), tt, a. split; [done|]. split; [by split|done].
  - intros h t d p l a _ _ _. by exists a.
  - done.
Qed.

Lemma two_level_iterator_witness :
  exists t at_pos, NewTwoLevelIterator (index_it := list_iterator BytewiseComparator) (D := cursor) (sample_index, None) tt = Some t /\ at_pos t None /\
    IteratorOk (TwoLevelIterator_iterator (index_it := list_iterator BytewiseComparator) (data_it := list_iterator BytewiseComparator) open_block delete_block 2)
      BytewiseComparator (fun _ => True) sample_entries at_pos.
Proof.
  destruct (two_level_iterator (list_iterator BytewiseComparator) (list_iterator BytewiseComparator) open_block delete_block BytewiseComparator (fun _ => True)
    sample_index block_entries (cursor_at sample_index) (fun h (_ : unit) => cursor_at (block_entries h)) (fun _ _ => True) [] 1 2 (sample_index, None) tt)
    as (t & at_pos & E & H1 & H2 & _).
  - exact _.
  - apply list_iterator_ok.
  - apply sample_source.
  - simpl. lia.
  - done.
  - intros [|[|j]] e x; [| |done]; intros [= <-]; vm_compute block_entries; simpl; intros Hx;
      repeat destruct Hx as [<-|Hx]; try done; (split; [done|]; vm_compute; eexists; split; [done|]; discriminate).
  - intros [|[|j]] [|[|j']] e e' x Hj; try lia; try done; intros [= <-] [= <-]; vm_compute block_entries; simpl; intros Hx;
      repeat destruct Hx as [<-|Hx]; try done; vm_compute; by eexists.
  - simpl. lia.
  - by split.
  - done.
  - exists t, at_pos. split; [exact E|]. split; [exact H1|exact H2].
Defined.

(** ** Caches *)

Lemma lru_cache_client_witness :
  exists s0 s last out, NewLRUCache (V := Z) 32 = Some s0 /\
    client_run (ShardedLRUCache_cache true)
      [DoInsert (bytes_of "a") 1 1; DoInsert (bytes_of "b") 2 2; DoLookup (bytes_of "a"); DoErase (bytes_of "a"); DoRelease 0; DoPrune; DoRelease 1; DoRelease 0]
      s0 (fun _ => None) [] = Some (s, last, out) /\
    (out = [] -> exists ms, destroy_shards (shard_ s) = Some ms /\ Forall (fun m => entries m = ∅) ms).
Proof.
  apply (lru_cache_client Z _ true 32 [DoInsert (bytes_of "a") 1 1; DoInsert (bytes_of "b") 2 2; DoLookup (bytes_of "a"); DoErase (bytes_of "a"); DoRelease 0; DoPrune; DoRelease 1; DoRelease 0]).
  - lia.
  - repeat constructor; simpl; lia.
  - simpl. lia.
Defined.

(** ** Tables *)

#[local] Existing Instance NoSnappy.

Definition table_options (c : Comparator) (p : FilterPolicy) : Options :=
  MkOptions c false true 32 2 kSnappyCompression (Some (p, bytes_of "bloom")).

Abbreviation user_options := (table_options BytewiseComparator (BloomFilterPolicy true 10)).

Lemma user_policy p name : filter_policy user_options = Some (p, name) ->
  FilterPolicyOk p (fun _ => True) (2 ^ 31 - 1) /\ FilterPolicyBounds p (fun _ => True) 20.
Proof. intros [= <- _]. split; [by apply BloomFilterPolicy_ok|by apply BloomFilterPolicy_bounds]. Qed.

(** A new cache with room for three shards' worth of handles. *)
Abbreviation sample_rel := (lru_rel (V := Block) true 1000 1000).

Lemma sample_cache : exists c, NewLRUCache (V := Block) 100 = Some c /\ sample_rel c (fun _ => None) [].
Proof. apply (NewLRUCache_spec true 1000 1000); [lia|lia|lia|vm_compute; discriminate|lia]. Qed.

#[local] Instance sample_cache_ok : CacheOk (ShardedLRUCache_cache (V := Block) true) sample_rel 1000.
Proof. apply lru_cache_ok; lia. Qed.

Lemma table_roundtrip_witness :
  exists r0 r1 r2 t c0 c1 c2, new_TableBuilder user_options ([] : MemFile) = Some r0 /\ tb_AddAll (le := true) sample_entries r0 = Some r1 /\
    tb_Finish true r1 = Some (OK, r2) /\ NewLRUCache 100 = Some c0 /\
    Open (cache := ShardedLRUCache_cache true) true user_options (tb_file r2) (FileSize r2) c0 = Some (OK, Some t, c1) /\
    InternalGet (cache := ShardedLRUCache_cache true) true t default_ReadOptions (bytes_of "apply") (fun _ v _ => v) [] c1 = Some (OK, bytes_of "2", c2).
Proof.
  destruct (table_roundtrip (le := true) (wf := MemFile_writable) (contents := fun f => f) (raf := MemFile_random) (gcontents := fun f => f)
    (cache := ShardedLRUCache_cache (V := Block) true) (rel := sample_rel) (max_handles := 1000) (valid := fun _ => True) (o := user_options) (limit := 2 ^ 31 - 1) (per_key := 20)
    (es := sample_entries) (Hinterval := ltac:(simpl; lia)) (Hlimit := ltac:(lia)) (Hper_key := ltac:(lia)) (Hpolicy := user_policy)
    (Hes := ltac:(repeat constructor)) (Hsorted := ltac:(apply keys_sorted_strongly; repeat constructor; vm_compute; by eexists))
    (Hfits := ltac:(split; vm_compute; (done || discriminate))) [] default_ReadOptions eq_refl) as (r0 & r1 & r2 & E0 & E1 & E2 & _ & Hread).
  destruct sample_cache as (c0 & Ec & Hrel). destruct (Hread (tb_file r2) c0 _ _ eq_refl Hrel) as (t & c1 & Eo & _ & Hget); [simpl; lia|by intros _ off|].
  destruct (Hget (bytes_of "apply") (bytes_of "2") _ (fun _ v _ => v) []) as (c2 & Eg); [right; left; reflexivity|].
  exists r0, r1, r2, t, c0, c1, c2. split; [exact E0|]. split; [exact E1|]. split; [exact E2|]. split; [exact Ec|]. split; [exact Eo|exact Eg].
Defined.

(** Two versions of one key, the newer one first. *)
Definition internal_entries : list entry :=
  [(internal (bytes_of "k") (packed 7 1), bytes_of "new"); (internal (bytes_of "k") (packed 5 1), bytes_of "old"); (internal (bytes_of "m") (packed 6 0), [])].

Abbreviation internal_options := (table_options (InternalKeyComparator true BytewiseComparator) (InternalFilterPolicy (BloomFilterPolicy true 10))).
Abbreviation any_internal := (valid_internal (valid := fun _ => True)).

Lemma internal_policy p name : filter_policy internal_options = Some (p, name) ->
  (exists up, p = InternalFilterPolicy up) /\ FilterPolicyOk p any_internal (2 ^ 31 - 1) /\ FilterPolicyBounds p any_internal 20.
Proof.
  assert (forall k, any_internal k -> (8 <= length k)%nat) as Hlen by (intros k (u & n & -> & _); unfold internal; rewrite length_app; simpl; lia).
  intros [= <- _]. split; [by eexists|]. split.
  - destruct (InternalFilterPolicy_ok (BloomFilterPolicy true 10) (2 ^ 31 - 1)) as [Hf]; [by apply BloomFilterPolicy_ok|]. split.
    intros keys dst Hv Hl. apply Hf; [|done]. eapply Forall_impl; [exact Hv|exact Hlen].
  - apply InternalFilterPolicy_bounds; [exact Hlen|by apply BloomFilterPolicy_bounds].
Qed.

Lemma internal_table_get_witness :
  exists r0 r1 r2 t c0 c1 c2, new_TableBuilder internal_options ([] : MemFile) = Some r0 /\ tb_AddAll (le := true) internal_entries r0 = Some r1 /\
    tb_Finish true r1 = Some (OK, r2) /\ NewLRUCache 100 = Some c0 /\
    Open (cache := ShardedLRUCache_cache true) true internal_options (tb_file r2) (FileSize r2) c0 = Some (OK, Some t, c1) /\
    InternalGet (cache := ShardedLRUCache_cache true) true t default_ReadOptions (internal (bytes_of "k") (packed 6 1)) (fun _ v _ => v) [] c1 =
      Some (OK, bytes_of "old", c2).
Proof.
  destruct (internal_table_get (le := true) (wf := MemFile_writable) (raf := MemFile_random) (cache := ShardedLRUCache_cache (V := Block) true)
    (fun f => f) (fun f => f) sample_rel BytewiseComparator (fun _ => True) internal_options (2 ^ 31 - 1) 20 1000 internal_entries [] default_ReadOptions)
    as (r0 & r1 & r2 & E0 & E1 & E2 & Hread).
  - exact _.
  - exact _.
  - exact _.
  - exact _.
  - exact _.
  - reflexivity.
  - exact internal_policy.
  - simpl. lia.
  - lia.
  - lia.
  - repeat constructor; eexists _, _; (split; [reflexivity|split; [vm_compute; split; (done || discriminate)|done]]).
  - apply keys_sorted_strongly. repeat constructor; vm_compute; by eexists.
  - split; vm_compute; (done || discriminate).
  - reflexivity.
  - destruct sample_cache as (c0 & Ec & Hrel). destruct (Hread (tb_file r2) c0 _ _ eq_refl Hrel) as (t & c1 & Eo & Hget); [simpl; lia|by intros _ off|].
    destruct (Hget _ (internal (bytes_of "k") (packed 6 1)) (fun _ v _ => v) []) as (v & c2 & Eg & Hs).
    { eexists _, _; (split; [reflexivity|split; [vm_compute; split; (done || discriminate)|done]]). }
    exists r0, r1, r2, t, c0, c1, c2. split; [exact E0|]. split; [exact E1|]. split; [exact E2|]. split; [exact Ec|]. split; [exact Eo|].
    unfold search_result in Hs. assert (seek_pos (opt_comparator internal_options) (internal (bytes_of "k") (packed 6 1)) internal_entries = Some 1%nat) as Es by (vm_compute; reflexivity).
    rewrite Es in Hs. destruct Hs as (e & Ee & _ & Hsame). injection Ee as <-. rewrite Eg, Hsame; [reflexivity|]. exists (bytes_of "k"). by split.
Defined.

(** ** The iterator of a database *)

(** At sequence number 8 the version 9 is too new, and the deletion hides what is behind it. *)
Definition version (user : string) (seq t : Z) (v : string) : entry := (internal (bytes_of user) (packed seq t), bytes_of v).
Definition versions : list entry :=
  [version "a" 1 1 "x"; version "k" 9 1 "later"; version "k" 7 1 "new"; version "k" 5 1 "old"; version "m" 6 0 EmptyString; version "m" 4 1 "gone"; version "z" 2 1 "end"].

Definition no_sampling : ReadSampler unit := {| RecordReadSample _ db := db |}.

Lemma parsed_version user seq t v : 0 <= seq <= kMaxSequenceNumber -> 0 <= t <= kTypeValue -> Z.of_nat (length (version user seq t v).1 + length (version user seq t v).2) < 2 ^ 62 ->
  exists p, parsed_as (fun _ => True) (version user seq t v) p.
Proof. intros Hs Ht Hl. exists (Parsed (bytes_of user) seq t). split; [done|]. split; [done|]. by split. Qed.

Lemma db_iterator_witness :
  user_view true BytewiseComparator 8 versions = [(bytes_of "a", bytes_of "x"); (bytes_of "k", bytes_of "new"); (bytes_of "z", bytes_of "end")] /\
  exists at_pos, at_pos (NewDBIterator (D := unit) tt (versions, None) 8 301) None /\
    IteratorOk (DBIter_iterator (it := list_iterator (InternalKeyComparator true BytewiseComparator)) (sampler := no_sampling) true BytewiseComparator 7)
      BytewiseComparator (fun _ => True) (user_view true BytewiseComparator 8 versions) at_pos.
Proof.
  split; [vm_compute; reflexivity|].
  apply (db_iterator true BytewiseComparator (fun _ => True) _ (list_iterator (InternalKeyComparator true BytewiseComparator)) no_sampling versions (cursor_at versions) 8 7 tt (versions, None) None 301).
  - apply list_iterator_ok.
  - by split.
  - repeat constructor; apply parsed_version; (split || idtac); (done || (vm_compute; (done || discriminate))).
  - apply keys_sorted_strongly. repeat constructor; vm_compute; by eexists.
  - vm_compute. split; (done || discriminate).
  - simpl. lia.
Defined.

(** ** A directory in memory *)

Abbreviation directory := (gmap (list byte) (list byte)).
Record MemHandle := MkHandle { mh_name : list byte; mh_data : list byte; mh_closed : bool }.

(** Data reaches the directory with [Sync], [Close] or the destructor. *)
#[export] Instance mem_env : Env directory MemHandle := {
  NewWritableFile n e := (OK, Some (MkHandle n [] false), <[n := []]> e);
  env_Append data f e := (OK, MkHandle (mh_name f) (mh_data f ++ data) false, e);
  env_Sync f e := (OK, f, <[mh_name f := mh_data f]> e);
  env_Close f e := (OK, MkHandle (mh_name f) (mh_data f) true, <[mh_name f := mh_data f]> e);
  delete_file f e := if mh_closed f then e else <[mh_name f := mh_data f]> e;
  RenameFile src tgt e := match e !! src with Some c => (OK, <[tgt := c]> (delete src e)) | None => (Some [], e) end;
  DeleteFile n e := (OK, delete n e);
}.

Lemma mem_env_ok : EnvOk mem_env (fun e => e) (fun f n => mh_name f = n) mh_data (fun f => mh_closed f = true).
Proof.
  split; cbn [NewWritableFile env_Append env_Sync env_Close delete_file RenameFile DeleteFile mem_env].
  - intros n e s f e' [= <- <- <-]. split; [intros m Hm; by rewrite lookup_insert_ne|]. intros _. by eexists.
  - intros data f n e s f' e' <- [= <- <- <-]. done.
  - intros f n e s f' e' <- [= <- <- <-]. split; [intros m Hm; by rewrite lookup_insert_ne|]. split; [done|]. by rewrite lookup_insert_eq.
  - intros f n e s f' e' <- [= <- <- <-]. split; [intros m Hm; by rewrite lookup_insert_ne|]. split; [done|]. by rewrite lookup_insert_eq.
  - intros f n e <-. destruct (mh_closed f); split; try done. intros m Hm. by rewrite lookup_insert_ne.
  - intros src tgt e s e'. destruct (e !! src) as [c|] eqn:E; intros [= <- <-]; cbn [ok OK]; [|done]. by exists c.
  - intros n e s e' [= <- <-]. done.
Qed.

Lemma set_current_file_witness :
  exists e', SetCurrentFile (bytes_of "/db") 7 (∅ : directory) = Some (OK, e') /\ e' !! bytes_of "/db/CURRENT" = Some (bytes_of "MANIFEST-000007" ++ [byte_of 10]).
Proof.
  destruct (set_current_file (Henv := mem_env_ok) (bytes_of "/db") 7 ∅ ltac:(lia)) as (s & e' & tmp & E & _ & Hc & _ & _). exists e'.
  assert (option_map fst (SetCurrentFile (bytes_of "/db") 7 (∅ : directory)) = Some OK) as Hok by (vm_compute; reflexivity).
  rewrite E in Hok. injection Hok as ->. split; [exact E|exact Hc].
Defined.

(** ** Version edits *)

Definition edit_calls : list field :=
  [FComparator (bytes_of "leveldb.BytewiseComparator"); FLogNumber 3; FNextFile 300; FLastSequence 70000; FPointer (1, bytes_of "k1234567");
   FDeleted (2, 5); FDeleted (1, 9); FFile (0, MkFile 0 (Z.shiftl 1 30) 12 4096 (bytes_of "a1234567") (bytes_of "z1234567"))].

Lemma version_edit_roundtrip_witness :
  exists bs, EncodeTo (fold_left apply_field edit_calls new_VersionEdit) [] = Some bs /\
    DecodeFrom true bs new_VersionEdit = Some (OK, fold_left apply_field edit_calls new_VersionEdit) /\
    deleted_files_ (fold_left apply_field edit_calls new_VersionEdit) = [(1, 9); (2, 5)].
Proof.
  destruct (version_edit_roundtrip true edit_calls [] new_VersionEdit) as (bs & E & _ & Hd).
  - repeat constructor; vm_compute; (done || discriminate).
  - exists bs. split; [exact E|]. split; [exact Hd|reflexivity].
Defined.

Lemma version_edit_decode_safe_witness :
  exists s e, DecodeFrom true (map byte_of [6; 7; 1]) new_VersionEdit = Some (s, e) /\ levels_ok e /\ IsCorruption s = Some true.
Proof.
  destruct (version_edit_decode_safe true (map byte_of [6; 7; 1]) new_VersionEdit) as (s & e & E & Hl & Hs); [repeat constructor|].
  exists s, e. split; [exact E|]. split; [exact Hl|]. destruct Hs as [-> |Hs]; [vm_compute in E; discriminate|exact Hs].
Defined.

(** ** Versions *)

Definition vkey (u : string) (q t : Z) : list byte := internal (bytes_of u) (packed q t).

Definition version_tables (n : Z) : list entry :=
  if n =? 9 then [(vkey "a" 12 1, bytes_of "newest")]
  else if n =? 7 then [(vkey "A" 8 1, bytes_of "A"); (vkey "a" 10 0, []); (vkey "b" 9 1, bytes_of "B")]
  else if n =? 3 then [(vkey "a" 5 1, bytes_of "old"); (vkey "c" 4 1, bytes_of "C")] else [].

Definition file (n : Z) (s l : list byte) : FileMetaData := MkFile 1 100 n 1000 s l.
Definition file9 := file 9 (vkey "a" 12 1) (vkey "a" 12 1).
Definition file7 := file 7 (vkey "A" 8 1) (vkey "b" 9 1).
Definition file3 := file 3 (vkey "a" 5 1) (vkey "c" 4 1).
Definition sample_levels : list (list FileMetaData) := [[file7; file9]; [file3]; []; []; []; []; []].

Abbreviation any_key := (fun _ : list byte => True).
Abbreviation proper_key := (proper (uvalid := any_key)).

Lemma vkey_proper u q t : 0 <= q <= kMaxSequenceNumber -> 0 <= t <= kTypeValue -> proper_key (vkey u q t).
Proof. intros Hq Ht. by exists (bytes_of u), q, t. Qed.

Ltac by_cases_of_lists := repeat match goal with
  | H : _ ∈ _ :: _ |- _ => apply elem_of_cons in H as [-> |H]
  | H : _ ∈ [] |- _ => by apply not_elem_of_nil in H
  end.
Ltac computes := eexists; split; [vm_compute; reflexivity|lia].
Ltac proper_keys := apply vkey_proper; vm_compute; split; discriminate.

Lemma sample_file_ok f : f ∈ [file9; file7; file3] -> file_ok (le := true) (user := BytewiseComparator) (uvalid := any_key) f /\ keys_proper (uvalid := any_key) f /\
  table_of (le := true) (user := BytewiseComparator) (uvalid := any_key) (E := version_tables) f.
Proof.
  intros Hf. by_cases_of_lists; (split; [split_and!; [apply proper_ivalid; proper_keys|apply proper_ivalid; proper_keys|computes|vm_compute; (done || discriminate)..]|]);
    (split; [split; proper_keys|]); (split; [repeat constructor; proper_keys|]); (split; [apply keys_sorted_strongly; repeat constructor; computes|]);
    (split; [intros e He; cbn in He; by_cases_of_lists; split; computes|]).
  - by exists (vkey "a" 12 1, bytes_of "newest"); split; [left|].
  - by exists (vkey "b" 9 1, bytes_of "B"); split; [right; right; left|].
  - by exists (vkey "c" 4 1, bytes_of "C"); split; [right; left|].
Qed.

Lemma level_cases level files : sample_levels !! level = Some files -> (level = 0%nat /\ files = [file7; file9]) \/ (level = 1%nat /\ files = [file3]) \/ files = [].
Proof.
  intros E. assert (level < 7)%nat as Hl by (apply lookup_lt_Some in E; exact E). do 7 (destruct level as [|level]; [injection E as <-; tauto|]). lia.
Qed.

Lemma level_members level files f : sample_levels !! level = Some files -> f ∈ files -> (level = 0%nat /\ (f = file7 \/ f = file9)) \/ (level = 1%nat /\ f = file3).
Proof.
  intros E Hf. destruct (level_cases level files E) as [[-> ->]|[[-> ->]| ->]]; by_cases_of_lists; tauto.
Qed.

Lemma sample_levels_sorted : levels_sorted (le := true) (user := BytewiseComparator) (uvalid := any_key) sample_levels.
Proof.
  split; [done|]. intros level files E. assert (forall f, f ∈ files -> f ∈ [file9; file7; file3]) as Hin.
  { intros f Hf. destruct (level_members level files f E Hf) as [[_ [-> | ->]]|[_ ->]]; rewrite !elem_of_cons; tauto. }
  split_and!; [apply Forall_forall; intros f Hf; by apply sample_file_ok, Hin..| |].
  - intros Hl i j f g Hij Ef Eg. destruct (level_cases level files E) as [[-> ->]|[[-> ->]| ->]]; [lia| |done].
    apply lookup_lt_Some in Ef, Eg. simpl in *. lia.
  - by destruct (level_cases level files E) as [[-> ->]|[[-> ->]| ->]].
Qed.

Lemma sample_version_ok : version_ok (le := true) (user := BytewiseComparator) (uvalid := any_key) (E := version_tables) sample_levels.
Proof.
  assert (forall f g, In (f, g) [(file9, file7); (file9, file3); (file7, file3)] -> newer_in (le := true) (user := BytewiseComparator) (E := version_tables) f g) as Hnew.
  { intros f g Hin e e' He He' Hk. destruct Hin as [[= <- <-]|[[= <- <-]|[[= <- <-]|[]]]]; cbn in He, He'; by_cases_of_lists; (vm_compute in Hk; discriminate Hk) || computes. }
  split.
  - exact sample_levels_sorted.
  - intros level files f E Hf. apply sample_file_ok. destruct (level_members level files f E Hf) as [[_ [-> | ->]]|[_ ->]]; rewrite !elem_of_cons; tauto.
  - intros a b fa fb f g Hab Ea Eb Hf Hg. destruct (level_members a fa f Ea Hf) as [[-> Hfa]|[-> ->]], (level_members b fb g Eb Hg) as [[-> Hgb]|[-> ->]]; try lia.
    apply Hnew. destruct Hfa as [-> | ->]; simpl; tauto.
  - intros files f g E Hf Hg Hlt. destruct (level_members 0 files f E Hf) as [[_ [-> | ->]]|[? _]], (level_members 0 files g E Hg) as [[_ [-> | ->]]|[? _]]; try done.
    apply Hnew. simpl. tauto.
  - intros files f g E Hf Hg Hn. destruct (level_members 0 files f E Hf) as [[_ [-> | ->]]|[? _]], (level_members 0 files g E Hg) as [[_ [-> | ->]]|[? _]]; done.
Qed.

#[local] Instance sample_getter : TableGetter unit := ListTables (InternalKeyComparator true BytewiseComparator) version_tables.

#[local] Instance sample_getter_ok : TableGetterOk (le := true) (user := BytewiseComparator) (uvalid := any_key) (E := version_tables) sample_getter default_ReadOptions (fun _ => True) (fun _ _ => True).
Proof.
  split; [|done]. intros A n f k saver arg t _ _ _. cbn [tc_Get sample_getter ListTables]. eexists _, t. split; [reflexivity|]. split; [done|]. unfold search_gives.
  pose proof (seek_pos_spec (InternalKeyComparator true BytewiseComparator) k (version_tables (f_number f))) as Hsp. destruct (seek_pos _ _ _) as [i|]; [|done].
  destruct Hsp as (e & Ee & _). exists e. rewrite Ee. split; [done|]. split; [by right|done].
Qed.

Lemma bytewise_equal a b : any_key a -> any_key b -> @Compare BytewiseComparator a b = Some 0 -> a = b.
Proof. intros _ _ [= E]. rewrite slice_compare_lex in E. by apply lex_eq. Qed.

Lemma version_get_witness :
  exists k st v stats t', LookupKey true (bytes_of "a") 11 = Some k /\
    Version_Get true BytewiseComparator sample_levels default_ReadOptions k (bytes_of "unset") tt = Some (st, v, stats, t') /\
    IsNotFound st = Some true /\ v = bytes_of "unset".
Proof.
  destruct (LookupKey_spec true (bytes_of "a") 11) as (k & Ek & _); [vm_compute; reflexivity|vm_compute; split; discriminate|].
  destruct (version_get (Hinj := bytewise_equal) (bytes_of "a") 11 I ltac:(vm_compute; split; discriminate) (Htg := sample_getter_ok) (Hvo := sample_version_ok) k (bytes_of "unset") 0 tt)
    as (st & v & stats & t' & E & _ & Hres); [done|vm_compute; reflexivity|exact Ek|done|].
  exists k, st, v, stats, t'. split; [exact Ek|]. split; [exact E|]. destruct Hres as [[Hok _]|(Hst & Hv & _)]; [exfalso|by split].
  vm_compute in Ek. injection Ek as <-. vm_compute in E. injection E as <- <- <- <-. vm_compute in Hok. discriminate.
Defined.

Lemma pick_level_witness : exists L, PickLevelForMemTableOutput true BytewiseComparator sample_levels (2 ^ 21) (bytes_of "d") (bytes_of "e") = Some L /\ 0 <= L <= kMaxMemCompactLevel.
Proof.
  destruct (pick_level (le := true) (user := BytewiseComparator) (uvalid := any_key) sample_levels (2 ^ 21) (bytes_of "d") (bytes_of "e") sample_levels_sorted ltac:(lia) I I) as (L & E & HL & _).
  exists L. split; [exact E|exact HL].
Defined.

Lemma file_overlap_witness : SomeFileOverlapsRange true BytewiseComparator true [file3] (Some (bytes_of "b")) None = Some true.
Proof.
  destruct (file_overlap (le := true) (user := BytewiseComparator) (uvalid := any_key) true [file3] (Some (bytes_of "b")) None) as (r & E & Hr);
    [by apply Forall_singleton, sample_file_ok; right; right; left|by apply Forall_singleton, sample_file_ok; right; right; left| |done|done|done|].
  - intros _ i j f g Hij Ef Eg. apply lookup_lt_Some in Ef, Eg. simpl in *. lia.
  - rewrite E. f_equal. apply Hr, Exists_cons_hd. split; [|done]. intros u [= <-]. computes.
Defined.

Lemma overlapping_inputs_witness : exists inputs, GetOverlappingInputs BytewiseComparator sample_levels 0 (Some (vkey "b" 1 1)) None = Some inputs /\ inputs = [file7; file9].
Proof.
  destruct (overlapping_inputs (le := true) (user := BytewiseComparator) (uvalid := any_key) sample_levels 0 [file7; file9] (Some (vkey "b" 1 1)) None) as (inputs & E & _).
  - vm_compute. by split.
  - reflexivity.
  - apply Forall_forall. intros f Hf. apply sample_file_ok. by_cases_of_lists; [by right; left|by left].
  - intros x [= <-]. apply proper_ivalid. proper_keys.
  - done.
  - exists inputs. split; [exact E|]. vm_compute in E. by injection E as <-.
Defined.

Lemma level_iterator_witness : level_at [file3] (new_LevelFileNumIterator [file3]) None /\
  exists at_pos, IteratorOk (LevelFileNumIterator_iterator true BytewiseComparator) (InternalKeyComparator true BytewiseComparator) (valid_internal (valid := any_key)) (map (file_entry (le := true)) [file3]) at_pos.
Proof.
  destruct (level_iterator (le := true) (user := BytewiseComparator) (uvalid := any_key) [file3]) as [H1 H2].
  - apply Forall_singleton. by apply sample_file_ok; right; right; left.
  - intros i j f g Hij Ef Eg. apply lookup_lt_Some in Ef, Eg. simpl in *. lia.
  - done.
  - split; [exact H1|]. eexists. exact H2.
Defined.

(** A table of the memtable, and the move of a file to the next level. *)
Definition sample_edit : VersionEdit :=
  AddFile 2 3 1000 (vkey "a" 5 1) (vkey "c" 4 1) (DeleteFile 1 3 (AddFile 0 11 2000 (vkey "b" 20 1) (vkey "d" 21 1) (SetCompactPointer 1 (vkey "c" 4 1) new_VersionEdit))).

Lemma edited_numbers level base : sample_levels !! level = Some base -> (level = 0%nat /\ f_number <$> edited sample_edit (Z.of_nat level) base = [11; 7; 9]) \/
  f_number <$> edited sample_edit (Z.of_nat level) base = [] \/ f_number <$> edited sample_edit (Z.of_nat level) base = [3].
Proof.
  intros E. assert (level < 7)%nat as Hl by (apply lookup_lt_Some in E; exact E).
  do 7 (destruct level as [|level]; [injection E as <-; (left; split; vm_compute; reflexivity) || (right; left; vm_compute; reflexivity) || (right; right; vm_compute; reflexivity)|]). lia.
Qed.

Lemma version_edited_witness : exists ls ptrs v', Apply true BytewiseComparator sample_edit new_Builder (replicate 7 []) = Some (ls, ptrs) /\
  SaveTo true BytewiseComparator ls sample_levels = Some v' /\ map (map f_number) v' = [[7; 9; 11]; []; [3]; []; []; []; []].
Proof.
  destruct (version_edited (le := true) (user := BytewiseComparator) (uvalid := any_key) sample_levels sample_edit (replicate 7 [])) as (ls & ptrs & v' & E1 & E2 & _).
  - reflexivity.
  - intros level base E. destruct (proj2 sample_levels_sorted level base E) as (Hok & _ & Hd & _). split; [done|]. split; [|split; [|intros Hl; apply Hd; lia]].
    + destruct (level_cases level base E) as [[-> ->]|[[-> ->]| ->]]; repeat constructor. computes.
    + destruct (level_cases level base E) as [[-> ->]|[[-> ->]| ->]]; by apply (bool_decide_unpack _).
  - split.
    + repeat constructor; vm_compute; (done || discriminate).
    + repeat constructor; vm_compute; (done || discriminate).
    + do 2 (apply Forall_cons; split; [split; [by vm_compute|split_and!; [apply proper_ivalid; proper_keys|apply proper_ivalid; proper_keys|computes|vm_compute; (done || discriminate)..]]|]). constructor.
  - intros level base E. destruct (edited_numbers level base E) as [[-> En]|En].
    + rewrite En. split; [by apply (bool_decide_unpack _)|lia].
    + split; [destruct En as [-> | ->]; by apply (bool_decide_unpack _)|]. intros _ f g Hf Hg Hne. apply (list_elem_of_fmap_2 f_number) in Hf, Hg. exfalso.
      destruct En as [En|En]; rewrite En in Hf, Hg; [by apply not_elem_of_nil in Hf|]. apply list_elem_of_singleton in Hf, Hg. congruence.
  - exists ls, ptrs, v'. split; [exact E1|]. split; [exact E2|]. vm_compute in E1. injection E1 as <- <-. vm_compute in E2. injection E2 as <-. reflexivity.
Defined.

(** ** The table cache over a directory in memory *)

#[local] Instance mem_open : RandomAccessEnv directory MemFile := { NewRandomAccessFile name e := match e !! name with Some c => (OK, Some c, e) | None => (Some [], None, e) end }.

#[local] Instance mem_open_ok : RandomAccessEnvOk mem_open (fun f => f) (fun e name => e !! name).
Proof. split. intros name e. unfold NewRandomAccessFile, mem_open. destruct (e !! name) as [c|]; (eexists _, _, _; split; [reflexivity|]; split; [done|]); [split; [done|by exists c]|done]. Qed.

Abbreviation table_rel := (lru_rel (V := TableAndFile MemFile) true 1000 1000).

#[local] Instance table_rel_ok : CacheOk (ShardedLRUCache_cache (V := TableAndFile MemFile) true) table_rel 1000.
Proof. apply lru_cache_ok; lia. Qed.

Lemma table_lru : exists c, NewLRUCache (V := TableAndFile MemFile) 990 = Some c /\ table_rel c (fun _ => None) [].
Proof. apply (NewLRUCache_spec true 1000 1000); [lia|lia|lia|vm_compute; discriminate|lia]. Qed.

Definition stored_entries (n : Z) : list entry := if n =? 7 then internal_entries else [].

Lemma internal_entries_ok : Forall (fun e : entry => any_internal e.1) internal_entries /\ keys_sorted (opt_comparator internal_options) internal_entries.
Proof.
  split; [repeat constructor; eexists _, _; (split; [reflexivity|split; [vm_compute; split; (done || discriminate)|done]])|].
  apply keys_sorted_strongly. repeat constructor; vm_compute; by eexists.
Qed.

Lemma internal_table_file : exists r0 r1 r2 ly, new_TableBuilder internal_options ([] : MemFile) = Some r0 /\ tb_AddAll (le := true) internal_entries r0 = Some r1 /\
  tb_Finish true r1 = Some (OK, r2) /\ table_file true (opt_comparator internal_options) (filter_policy internal_options) (tb_file r2) internal_entries ly.
Proof.
  destruct (table_built (le := true) (wf := MemFile_writable) (contents := fun f => f) (raf := MemFile_random) (gcontents := fun f => f)
    (cache := ShardedLRUCache_cache (V := Block) true) (rel := sample_rel) (max_handles := 1000) (valid := any_internal) (o := internal_options) (limit := 2 ^ 31 - 1) (per_key := 20) (es := internal_entries)
    (Hc := icmp_ok (le := true) (user := BytewiseComparator) (o := internal_options) (Hcmp := eq_refl) (uvalid := any_key)) (Hinterval := ltac:(simpl; lia)) (Hlimit := ltac:(lia)) (Hper_key := ltac:(lia)) (Hpolicy := fun p name Ep => proj2 (internal_policy p name Ep))
    (Hes := proj1 internal_entries_ok) (Hsorted := proj2 internal_entries_ok)
    (Hfits := ltac:(split; vm_compute; (done || discriminate))) [] eq_refl) as (r0 & r1 & r2 & ly & E0 & E1 & E2 & _ & Htf).
  exists r0, r1, r2, ly. split; [exact E0|]. split; [exact E1|]. split; [exact E2|exact Htf].
Qed.

Lemma internal_total p name : filter_policy internal_options = Some (p, name) -> (exists up, p = InternalFilterPolicy up) /\
  forall k f, any_internal k -> Z.of_nat (length f) < 2 ^ 32 -> is_Some (@KeyMayMatch p k f).
Proof. intros Ep. destruct (internal_policy p name Ep) as (Hup & _ & Hb). split; [done|]. intros k f. by apply (filter_total (FilterPolicyBounds := Hb)). Qed.

Lemma table_cache_get_witness : exists t0 k' v t1, TableCache_Get (env := mem_open) (cache := ShardedLRUCache_cache (V := Block) true) (tcache := ShardedLRUCache_cache (V := TableAndFile MemFile) true) true
  default_ReadOptions 7 (f_size k') (internal (bytes_of "k") (packed 6 1)) (fun _ v _ => v) [] t0 = Some (OK, v, t1) /\ v = bytes_of "old".
Proof.
  destruct internal_table_file as (r0 & r1 & r2 & ly & _ & _ & _ & Htf). destruct sample_cache as (b & Eb & Hb), table_lru as (c & _ & Hc). set (bytes := tb_file r2) in *.
  set (dir := {[ bytes_of "/db/000007.ldb" := bytes ]} : directory). set (f := MkFile 1 100 7 (Z.of_nat (length bytes)) [] []).
  destruct (tg_get (TableGetterOk := table_cache_get (le := true) (env := mem_open) (files := fun e name => e !! name) (cache := ShardedLRUCache_cache (V := Block) true) (rel := sample_rel)
    (max_handles := 1000) (ids := lru_ids) (Hids := lru_cache_ids true 1000 1000) (Hmax := ltac:(lia)) (tcache := ShardedLRUCache_cache (V := TableAndFile MemFile) true) (relT := table_rel) (maxT := 1000) (HmaxT := ltac:(lia)) (user := BytewiseComparator) (uvalid := any_key)
    (o := internal_options) (Hcmp := eq_refl) (Hpolicy := internal_total) (dbname := bytes_of "/db") (dir := fun name => dir !! name) (entries_of := stored_entries) default_ReadOptions)
    _ 0 f (internal (bytes_of "k") (packed 6 1)) (fun _ v _ => v) [] (new_TableCache dir (bytes_of "/db") internal_options c b)) as (v & t1 & E & _ & Hgives).
  - split; [vm_compute; by split|]. exists bytes, ly. split; [|done]. split; [|split; [exact Htf|exact internal_entries_ok]].
    exists (bytes_of "/db/000007.ldb"). split; [vm_compute; reflexivity|]. left. apply lookup_singleton_eq.
  - exists (bytes_of "k"), (packed 6 1). split; [done|]. split; [vm_compute; split; (done || discriminate)|done].
  - exists (fun _ => None), (fun _ => None), ∅. split; cbn; try done. assert (last_id_ b = 0) as Hid by (vm_compute in Eb; by injection Eb as <-). split; [lia|]. split; [lia|]. by intros i Hi.
  - exists (new_TableCache dir (bytes_of "/db") internal_options c b), f, v, t1. split; [exact E|]. unfold search_gives in Hgives.
    assert (seek_pos (opt_comparator internal_options) (internal (bytes_of "k") (packed 6 1)) internal_entries = Some 1%nat) as Es by (vm_compute; reflexivity).
    change (stored_entries (f_number f)) with internal_entries in Hgives. change (InternalKeyComparator true BytewiseComparator) with (opt_comparator internal_options) in Hgives.
    rewrite Es in Hgives. destruct Hgives as (e & Ee & _ & Hsame). injection Ee as <-. by apply Hsame.
Defined.

(** ** A compaction of the files of level 0 *)

#[local] Instance MemHandle_writable : WritableFile MemHandle := { Append f data := (OK, MkHandle (mh_name f) (mh_data f ++ data) false); Flush f := (OK, f) }.

Definition level0_entries : list entry := [(vkey "A" 8 1, bytes_of "A"); (vkey "a" 12 1, bytes_of "newest"); (vkey "a" 10 0, []); (vkey "b" 9 1, bytes_of "B")].
Definition level0_compaction : Compaction := set_inputs [file7; file9] [] [] new_VersionEdit (new_Compaction (2 ^ 21) 0 sample_levels [file7; file9]).

Lemma compaction_keeps_view_witness : exists plan, step_entry <$> plan = level0_entries /\
  (forall db, DoCompactionWork (env := mem_env) (raf := MemFile_random) (renv := mem_open) (cache := ShardedLRUCache_cache (V := Block) true) (tcache := ShardedLRUCache_cache (V := TableAndFile MemFile) true)
    (it := list_iterator BytewiseComparator) true BytewiseComparator (2 ^ 21) (fun _ => false) (fun _ db => db) 4 (fun _ => 2) level0_compaction [] 12 (level0_entries, None) db =
    write_outputs (env := mem_env) (raf := MemFile_random) (renv := mem_open) (cache := ShardedLRUCache_cache (V := Block) true) (tcache := ShardedLRUCache_cache (V := TableAndFile MemFile) true) (le := true)
      (fun _ db => db) plan (MkCompaction level0_compaction 12 [] None 0) db) /\
  read_from (le := true) (kept plan) (fun _ _ => None) 12 (bytes_of "a") = Some (bytes_of "newest").
Proof.
  destruct (compaction_keeps_view (le := true) (Hinj := bytewise_equal) (env := mem_env) (raf := MemFile_random) (renv := mem_open) (cache := ShardedLRUCache_cache (V := Block) true)
    (tcache := ShardedLRUCache_cache (V := TableAndFile MemFile) true) (Hit := list_iterator_ok BytewiseComparator (fun _ => True) level0_entries) (2 ^ 21) (fun _ db => db) (fun _ => false) ltac:(done)
    level0_compaction [] 12 (fun _ _ => None) (level0_entries, None) None) as (plan & Ep & Ew & Er).
  - lia.
  - vm_compute. split; [discriminate|done].
  - split; [simpl; lia|exact sample_levels_sorted|done|constructor].
  - done.
  - repeat constructor; proper_keys.
  - apply keys_sorted_strongly. repeat constructor; computes.
  - done.
  - done.
  - exists plan. split; [exact Ep|]. split; [intros db; apply (Ew 4%nat (fun _ => 2) db); simpl; lia|]. rewrite Er by (simpl; lia). vm_compute. reflexivity.
Defined.

(** ** A table of [internal_entries] in the directory *)

#[local] Instance MemHandle_writable_ok : WritableFileOk MemHandle_writable mh_data.
Proof. split; intros f; [intros data|]; by eexists. Qed.

Definition level0_meta : FileMetaData := MkFile 0 0 7 0 [] [].

Lemma build_table_witness : exists t written ly iter', table_file true (opt_comparator internal_options) (filter_policy internal_options) (mh_data written) internal_entries ly /\
  BuildTable (env := mem_env) (raf := MemFile_random) (renv := mem_open) (cache := ShardedLRUCache_cache (V := Block) true) (tcache := ShardedLRUCache_cache (V := TableAndFile MemFile) true)
    (it := list_iterator BytewiseComparator) true 3 (internal_entries, None) level0_meta t =
  let meta' := with_file (Z.of_nat (length (mh_data written))) (internal (bytes_of "k") (packed 7 1)) (internal (bytes_of "m") (packed 6 0)) level0_meta in
  '(s, t') ← file_kept (env := mem_env) (raf := MemFile_random) (renv := mem_open) (cache := ShardedLRUCache_cache (V := Block) true) (tcache := ShardedLRUCache_cache (V := TableAndFile MemFile) true) (le := true)
    (bytes_of "/db/000007.ldb") meta' written {[ bytes_of "/db/000007.ldb" := [] ]} (set_env {[ bytes_of "/db/000007.ldb" := [] ]} t);
  Some (s, meta', iter', t').
Proof.
  destruct sample_cache as (b & _ & _), table_lru as (c & _ & _).
  destruct (build_table (le := true) (wf := MemHandle_writable) (Hwf := MemHandle_writable_ok) (env := mem_env) (raf := MemFile_random) (renv := mem_open) (cache := ShardedLRUCache_cache (V := Block) true)
    (tcache := ShardedLRUCache_cache (V := TableAndFile MemFile) true) (valid := any_internal) (o := internal_options) (limit := 2 ^ 31 - 1) (per_key := 20) (es := internal_entries)
    (Hc := icmp_ok (le := true) (user := BytewiseComparator) (o := internal_options) (Hcmp := eq_refl) (uvalid := any_key)) (Hinterval := ltac:(simpl; lia)) (Hlimit := ltac:(lia)) (Hper_key := ltac:(lia))
    (Hpolicy := fun p name Ep => proj2 (internal_policy p name Ep)) (Hes := proj1 internal_entries_ok) (Hsorted := proj2 internal_entries_ok) (Hfits := ltac:(split; vm_compute; (done || discriminate)))
    (Hit := list_iterator_ok BytewiseComparator (fun _ => True) internal_entries)
    level0_meta (new_TableCache ∅ (bytes_of "/db") internal_options c b) (bytes_of "/db/000007.ldb") (MkHandle (bytes_of "/db/000007.ldb") [] false) {[ bytes_of "/db/000007.ldb" := [] ]}
    (internal (bytes_of "k") (packed 7 1), bytes_of "new") (internal (bytes_of "m") (packed 6 0), []) (internal_entries, None) None) as (written & ly & Htf & Hb).
  - done.
  - done.
  - vm_compute. reflexivity.
  - done.
  - done.
  - done.
  - done.
  - destruct (Hb 3%nat) as (iter' & _ & E); [simpl; lia|]. exists (new_TableCache ∅ (bytes_of "/db") internal_options c b), written, ly, iter'. split; [exact Htf|exact E].
Defined.
